(* ===== verification/_CoqProject ===== *)
-Q . S2P
Prelude.v
Encoding.v
Db.v
RawDb.v
Amounts.v
Peers.v
Votes.v
ServerModule.v
Bitcoin.v
Transaction.v
MintServer.v
LnServer.v
Lnv2Server.v
WalletLedger.v
WalletServer.v
Walletv2Server.v
MetaServer.v
Engine.v
DefaultFederation.v
Broadcast.v
Session.v
Federation.v
Threshold.v
Dkg.v
Keys.v
Query.v
Tiered.v
NoteSelection.v
MintClient.v
SendAmount.v
ClientTx.v
Submission.v
MintPrimary.v
Api.v
MintIssuance.v
Executor.v
Gateways.v
MintMachines.v
Lnv2Client.v
Lnv2Mint.v
Mintv2Server.v
