(* ===== verification/Prelude.v ===== *)
(** * A verification of fedimint

    Fedimint is a federated mint: a set of guardians holds bitcoins in common
    and issues e-cash against them.  Guardians agree on one order of consensus
    items with an atomic broadcast, and every guardian applies the items in
    that order to its own database.  This library models the code that decides
    what happens to money: the consensus engine, the transactions, the modules
    that hold assets and liabilities, the keys the guardians generate together,
    the wallet of a client that holds and spends notes, and what they stand on,
    the database and the encoding.

    ** The parts and how they interact

    - Clients submit transactions.  A transaction has inputs and outputs, each
      for one module; the engine lets every module process its own and checks
      that the amounts balance and the signatures are there
      ([fedimint-core/src/transaction.rs],
      [fedimint-server/src/consensus/transaction.rs]).
    - Guardians put transactions and module items into batches for the atomic
      broadcast ([fedimint-server/src/consensus/aleph_bft/]).  Ordered units
      come back; the engine processes their items one by one, audits the
      modules after each and commits
      ([fedimint-server/src/consensus/engine.rs]).
    - At the end of a session the guardians sign its outcome.  A guardian that
      was away recovers by processing an outcome with enough signatures.
    - Before there is a federation the guardians generate the keys of the
      modules together ([fedimint-server/src/config/]): shares of blind signing
      keys for the mint and of an encryption key for lightning ([crypto/]).
    - A client asks the guardians and combines their answers
      ([fedimint-api-client/src/query.rs]).  It builds a transaction from the
      inputs and outputs of its modules ([fedimint-client-module/],
      [fedimint-client/src/client.rs]); the primary module, the client side of
      the mint ([modules/fedimint-mint-client/]), adds notes it holds and
      change until the transaction balances.  The lightning client
      ([modules/fedimint-lnv2-client/]) locks money in contracts for gateways,
      claims contracts funded for it, and follows both with state machines on
      the executor of the client.
    - Modules are behind the interface [ServerModule] of
      [fedimint-server-core/src/lib.rs]; each has a partition of the database
      of its own ([fedimint-core/src/db/]).

    ** The files

    - [Prelude] (this file): machine integers with their wrap-around, the
      monad [M] of fallible, panicking, stateful code with its tactic [mrun],
      big-endian bytes, generic lemmas, the hint database [fedimint].
    - [Encoding]: [fedimint-core/src/encoding/] and [fedimint-derive].  A type
      with its [Encodable] and [Decodable] impls is a record [codec]; impls
      for compound types, derived structs and enums, and module types with an
      instance id are functions on codecs; the class [Lawful] says that
      decoding inverts encoding and that a value has one encoding.
    - [Db]: the typed operations as operations on finite maps, one per key
      type ([table]), and append-only logs.
    - [RawDb]: the bytes below [Db].  The in-memory backend
      ([db/mem_impl.rs]) with its commit, the prefix partitions of modules,
      [autocommit], and the typed operations ([db/mod.rs]), which implement
      the tables of [Db].
    - [Amounts]: [fedimint-core/src/amount.rs], the [Amounts] of
      [module/mod.rs] and the fee rules of the modules.
    - [Peers]: thresholds and quorums ([peer_id.rs]).
    - [Votes]: numbers the guardians agree on by voting.
    - [ServerModule]: the module interface as a record of operations, the
      audit, and the class [Audited]: what a module promises to the engine
      about assets and liabilities.  The engine is verified against the class,
      the modules are instances.
    - [Bitcoin]: bitcoin transactions, shared by the wallets.
    - [Transaction]: processing of a transaction, funding and signatures.
    - [MintServer], [LnServer], [Lnv2Server], [WalletServer],
      [Walletv2Server]: the consensus side of the mint, both lightning and both
      wallet modules, every input, output, consensus item, audit and query,
      over their tables.  [WalletLedger] is the specification the first wallet
      refines: outputs that are spendable, in flight or spent.
    - [Mintv2Server]: the second generation of the mint module
      ([modules/fedimint-mintv2-server/]), which keeps its books by
      denomination.
    - [MetaServer]: the meta module, by which guardians agree on values
      ([modules/fedimint-meta-server/]).
    - [Engine]: one ordered item in one database transaction, the check of the
      balance sheet, the retries, the tables of sessions and histories.
    - [DefaultFederation]: the registry of the mint, lightning and wallet
      modules of a default federation, and what the engine's theorems say of
      the three together.
    - [Broadcast]: the batches a guardian submits and the backup of its units.
    - [Session]: collecting items and signatures, recovery, validation of
      signed outcomes.
    - [Federation]: a registry with the three modules and a concrete guardian,
      on which the theorems about the engine are evaluated.
    - [Threshold]: the crates [crypto/tbs] (blind signatures) and [crypto/tpe]
      (threshold encryption) over an abstract pairing, with MathComp's
      polynomials for sharing and interpolation.
    - [Dkg]: the distributed key generation ([config/dkg_g1.rs],
      [config/dkg_g2.rs], [config/dkg.rs]): a guardian as a state machine, the
      loop that feeds it, and all guardians as a step relation.
    - [Keys]: what both mints and the lightning v2 module make of generated
      keys.
    - [Query]: the query strategies and the loops of [request_with_strategy] and
      [request_with_strategy_retry].
    - [Tiered], [NoteSelection]: notes by denomination
      ([fedimint-core/src/tiered_multi.rs]) and the selection of notes and of
      change.
    - [MintClient]: the wallet's tables and what the mint client does on them.
    - [SendAmount]: the search for the largest amount that can be sent.
    - [ClientTx]: the transaction builder, balancing and finalizing a
      transaction, and fee quotes.  The class [Balances] is what a primary
      module promises to the client.
    - [Submission]: submitting a finalized transaction, shared by the clients,
      and what every submitted transaction fulfils ([well_funded]).
    - [MintPrimary]: the mint client as an instance of [Balances], and a
      transaction from the wallet of a client to the database of a guardian.
    - [Executor]: the executor of the client's state machines
      ([fedimint-client/src/sm/]): its tables, the transaction of a
      transition, the loop over its futures, crashes and restarts.  The classes
      [Progressing] and [Bounded] are what a kind of machine promises to it.
    - [Api]: the endpoints of a guardian ([fedimint-server/src/consensus/api.rs])
      for submitting a transaction, next to the engine that commits items
      meanwhile, and for the outcomes of outputs.
    - [MintIssuance]: the output machine of the mint client
      ([modules/fedimint-mint-client/src/output.rs]): the query for signature
      shares, their verification and combination.
    - [MintMachines]: the submission machine and the input, output and out of
      band machines of the mint client with all their transitions, as an
      instance of [Progressing]; refunds from the machine to the wallet.
    - [Gateways]: fees and terms of lightning gateways
      ([modules/fedimint-lnv2-common/src/gateway_api.rs]), their ranking and
      the choice of one.
    - [Lnv2Client]: the client of the second lightning module over any primary
      module: paying and asking for invoices, both state machines, the loop
      that receives to a published key, and what users are told.
    - [Lnv2Mint]: the modules of a client in one transaction; the mint keeps its
      promise of a primary module next to lightning, and a wallet that pays, is
      refunded and receives is evaluated.

    Operations keep the names they have in the source, with a prefix where two
    modules use the same one.  The state of a component is a record with one
    finite map per database key type; a handler is a function in [M], whose
    result says whether it returned, failed or panicked; writes before an
    error stay in the state and are dropped by the owner of the database
    transaction, as in the code.

    ** What is proved

    - Money: the books of a guardian never show more liabilities than assets
      after any history, and the audit before the commit never fails for an
      item the modules accept ([solvency]); transactions are funded and
      authorised; a transaction, a note, a deposit and a lightning contract
      is accepted or spent once ([transaction_once], [mint_no_double_spend],
      [walletv2_claimed_once], [w1_no_double_spend], [lnv2_settled_once]).  In
      a default federation the bitcoin of the wallet covers the notes and the
      lightning contracts ([default_federation_backed]).
    - Agreement and crashes: processing the items of a session again after a
      crash gives the same database, failed commits leave no trace, recovery
      from a signed outcome agrees with having taken part, two outcomes of a
      session with enough signatures have the same header, and a session
      completes ([crash_replay], [retry_transparent], [recovery_agrees],
      [session_agreement], [session_completes]).
    - Modules: the result of every branch of mint inputs and outputs, the
      settlement and expiry of lightning contracts, the wallets' accounting,
      fees, signatures and block scan, and votes that no minority can move.
      The first wallet refines a ledger ([w1_implements_ledger]) and forgets
      exactly the replaced transactions ([w1_rbf_closure]); a lightning
      contract pays out what it was funded with, changes only by its rules and
      is decrypted by a threshold only, and the module never panics
      ([ln1_escrow], [ln1_contract_final], [ln1_decryption_threshold],
      [ln1_decryption_completes], [ln1_never_panics]).  The books of the second
      mint are exact for every denomination ([mintv2_books]).
    - Keys: every order of delivery ends the key generation of honest
      guardians with the same public key and a share for each
      ([dkg_federation_terminates]); whatever evil guardians send, a result is
      consistent ([dkg_result_consistent]).  Any quorum issues valid notes and
      decrypts preimages with the configured keys ([mint_keys_issue],
      [lnv2_keys_decrypt]).
    - Queries: a consensus query returns what a threshold of guardians says,
      an agreement query ends, and no strategy panics on any answers.
    - Wallet: selection is complete for exact amounts, balancing loses at most
      the fee of the smallest note, no note secret is used twice
      ([select_exact_complete], [create_final_balanced],
      [note_secrets_never_reused]).  What a client finalizes passes the funding
      check of the federation, a quote is exactly the fee that is paid, and
      reissued notes are accepted by a guardian ([finalize_transaction_accepted],
      [fee_quote_exact], [reissue_accepted]).
    - State machines: every state is left at most once, none is lost, and
      machines with bounded work complete, however their futures interleave and
      whenever the client crashes ([executor_exactly_once],
      [executor_no_machine_lost], [executor_completes]).  A submitted
      transaction is answered by the current state of consensus
      ([submission_current]), and a refund of a rejected or cancelled payment
      ends with new notes in the wallet that are worth the old ones less the
      fees ([refund_round_trip], with [issuance_completes]).
    - Lightning payments: a payment that starts is within the limits of the
      client and cannot be started twice ([lnv2_send_starts]); a funded one ends
      with the preimage or with a refund that the guardians honour
      ([lnv2_send_resolves]); an invoice that was asked for is for a contract
      the client can claim, and the claim is honoured ([lnv2_receive_starts],
      [lnv2_receive_resolves]); no contract for a published key is passed over,
      whatever interleaves and wherever the process stops
      ([lnurl_misses_none]).
    - Storage: the typed operations refine finite maps, modules are isolated
      from each other, commits lose no update, autocommit blocks are atomic,
      scans are complete and ordered, and encodings are canonical.

    ** Bounds and fuel

    Integers are [Z]; [u64] and [i64] operators wrap where the source uses the
    plain operators of a release build, and are partial where it uses checked
    ones.  The loop of [Engine.attempts] runs down the constant number of
    attempts of the code.  [Encoding.read_chunks] is given one step more than
    there are bytes, which is enough because every step but the last reads
    some ([read_chunks_exact]); [RawDb.autocommit] takes the number of attempts
    that may be needed, and [autocommit_atomic] states when it is enough.
    [SendAmount.search] has 65 steps, which is enough for an interval of [u64]
    because each step halves it, and is proved to be; the 64 steps of
    [Keys.gen_denominations] double an amount until it leaves [u64].  The
    worklist of [WalletServer.remove_rbf_transactions] has [(n + 2)^2] steps for
    [n] pending transactions: a step either drops an entry of the worklist or
    removes a transaction, which adds at most [n] entries.
    [Lnv2Client.attempts_fuel] is one more than there are states, and every
    attempt has a state of its own ([last_attempt_correct]).  The loop
    of a key generation is bounded by the messages it can take, and the system
    of guardians is a relation whose runs are counted.  Other recursions are
    structural.

    The theorems about a wallet ask that its notes are worth at most [2^61]
    millisatoshi (more than all bitcoin) and that fewer than [2^62] notes of an
    amount were issued; within these bounds no addition of the client wraps.
    Balancing and quotes are verified for transactions in one unit of money,
    which is what the modules of the repository make.

    ** What is not modelled

    Groups, pairings, schnorr signatures and hashes, bitcoin scripts, the
    lightning library's [BigSize], the atomic broadcast protocol and the
    bitcoin node are parameters with named hypotheses; a concrete instance shows
    that these can hold.  Networking, the JSON API, timers, metrics, logging and
    migrations are left out.  Of the client, backups and recovery
    and the pages of the operation log are not modelled, nor are the clients of
    the first lightning module, the second mint and the wallets, nor the
    gateway. *)

From stdpp Require Export prelude gmap list sorting strings.
From Stdlib Require Export ZArith Lia.

#[global] Open Scope Z_scope.

#[export] Set Default Proof Using "Type".

Create HintDb fedimint.

(** ** Machine integers *)

(** Largest [u64]. *)
Definition u64_max : Z := 18446744073709551615.

(** Largest and smallest [i64]. *)
Definition i64_max : Z := 9223372036854775807.
Definition i64_min : Z := -9223372036854775808.

(** [x] is a value of type [u64]. *)
Definition is_u64 (x : Z) : Prop := 0 <= x <= u64_max.

(** The plain operators of [u64] in a release build: the profile does not set
    [overflow-checks], so they wrap. *)
Definition wrap_u64 (x : Z) : Z := x mod 18446744073709551616.

(** [x as i64] for [x : u64], and [i64] arithmetic that wraps. *)
Definition wrap_i64 (x : Z) : Z := (x + 9223372036854775808) mod 18446744073709551616 - 9223372036854775808.

Definition checked_add (a b : Z) : option Z :=
  if a + b <=? u64_max then Some (a + b) else None.
Definition checked_sub (a b : Z) : option Z :=
  if b <=? a then Some (a - b) else None.
Definition checked_mul (a b : Z) : option Z :=
  if a * b <=? u64_max then Some (a * b) else None.
Definition saturating_sub (a b : Z) : Z := Z.max 0 (a - b).
Definition saturating_mul (a b : Z) : Z := Z.min u64_max (a * b).
Definition saturating_add (a b : Z) : Z := Z.min u64_max (a + b).

(** [i64::checked_add]. *)
Definition i64_checked_add (a b : Z) : option Z :=
  if (i64_min <=? a + b) && (a + b <=? i64_max) then Some (a + b) else None.

Lemma wrap_u64_small x : is_u64 x -> wrap_u64 x = x.
Proof. unfold is_u64, wrap_u64, u64_max. intros. apply Z.mod_small. lia. Qed.

Lemma wrap_u64_range x : is_u64 (wrap_u64 x).
Proof.
  unfold is_u64, wrap_u64, u64_max.
  pose proof (Z.mod_pos_bound x 18446744073709551616 eq_refl). lia.
Qed.

Lemma wrap_i64_small x : i64_min <= x <= i64_max -> wrap_i64 x = x.
Proof.
  unfold wrap_i64, i64_min, i64_max. intros.
  rewrite Z.mod_small by lia. lia.
Qed.

Lemma checked_add_Some a b c : checked_add a b = Some c <-> c = a + b /\ a + b <= u64_max.
Proof. unfold checked_add. case_match eqn:E; naive_solver lia. Qed.

Lemma checked_sub_Some a b c : checked_sub a b = Some c <-> c = a - b /\ b <= a.
Proof. unfold checked_sub. case_match eqn:E; naive_solver lia. Qed.

Lemma checked_mul_Some a b c : checked_mul a b = Some c <-> c = a * b /\ a * b <= u64_max.
Proof. unfold checked_mul. case_match eqn:E; naive_solver lia. Qed.

(** ** Bytes *)

Definition is_byte (b : Z) : Prop := 0 <= b < 256.

(** [x.to_be_bytes()] and [from_be_bytes] for integers of [n] bytes. *)
Fixpoint to_be_bytes (n : nat) (x : Z) : list Z :=
  match n with
  | 0%nat => []
  | S n' => to_be_bytes n' (x / 256) ++ [x mod 256]
  end.
Definition from_be_bytes (l : list Z) : Z := foldl (fun acc b => acc * 256 + b) 0 l.

Lemma to_be_bytes_length n x : length (to_be_bytes n x) = n.
Proof. revert x. induction n; intros x; simpl; [done|]. rewrite length_app, IHn. simpl. lia. Qed.

Lemma to_be_bytes_ok n x : Forall is_byte (to_be_bytes n x).
Proof.
  revert x. induction n as [|n IH]; intros x; simpl; [done|]. apply Forall_app. split; [done|].
  apply Forall_singleton. unfold is_byte. pose proof (Z.mod_pos_bound x 256). lia.
Qed.

Lemma from_to_be_bytes n x : 0 <= x < 256 ^ Z.of_nat n -> from_be_bytes (to_be_bytes n x) = x.
Proof.
  revert x. induction n as [|n IH]; intros x Hx; [unfold from_be_bytes; simpl in *; lia|].
  simpl. unfold from_be_bytes in *. rewrite foldl_app, IH; simpl.
  - pose proof (Z.div_mod x 256). lia.
  - rewrite Nat2Z.inj_succ, Z.pow_succ_r in Hx by lia.
    split; [apply Z.div_pos|apply Z.div_lt_upper_bound]; lia.
Qed.

Lemma from_be_bytes_snoc l b : from_be_bytes (l ++ [b]) = from_be_bytes l * 256 + b.
Proof. unfold from_be_bytes. by rewrite foldl_app. Qed.

Lemma from_be_bytes_range l : Forall is_byte l -> 0 <= from_be_bytes l < 256 ^ Z.of_nat (length l).
Proof.
  induction l as [|b l IH] using rev_ind; intros Hl; [simpl; unfold from_be_bytes; simpl; lia|].
  apply Forall_app in Hl as [Hl Hb]. rewrite Forall_singleton in Hb. rewrite from_be_bytes_snoc, length_app. simpl.
  rewrite Nat.add_1_r, Nat2Z.inj_succ, Z.pow_succ_r by lia. specialize (IH Hl). unfold is_byte in Hb. lia.
Qed.

Lemma to_from_be_bytes l : Forall is_byte l -> to_be_bytes (length l) (from_be_bytes l) = l.
Proof.
  induction l as [|b l IH] using rev_ind; intros Hl; [done|].
  apply Forall_app in Hl as [Hl Hb]. rewrite Forall_singleton in Hb. rewrite from_be_bytes_snoc, length_app. simpl.
  rewrite Nat.add_1_r. unfold is_byte in Hb. simpl.
  rewrite Z.div_add_l, (Z.div_small b), Z.add_0_r by lia. rewrite IH by done.
  rewrite Z.add_comm, Z.mod_add, Z.mod_small by lia. done.
Qed.

Lemma to_be_bytes_inj n x y :
  0 <= x < 256 ^ Z.of_nat n -> 0 <= y < 256 ^ Z.of_nat n -> to_be_bytes n x = to_be_bytes n y -> x = y.
Proof. intros Hx Hy H. by rewrite <- (from_to_be_bytes n x Hx), H, from_to_be_bytes. Qed.

(** ** Lists *)

(** Sorted lists. *)
Lemma StronglySorted_filter {A} (R : relation A) (P : A -> Prop) `{!forall a, Decision (P a)} l :
  StronglySorted R l -> StronglySorted R (filter P l).
Proof.
  induction 1 as [|a l Hs IH Ha]; [constructor|]. rewrite filter_cons. case_decide; [|done].
  constructor; [done|]. rewrite Forall_forall in *. intros x [_ Hx]%list_elem_of_filter. auto.
Qed.

Lemma StronglySorted_reverse {A} (R : relation A) l : StronglySorted R l -> StronglySorted (flip R) (reverse l).
Proof.
  induction 1 as [|a l Hs IH Ha]; [constructor|]. rewrite reverse_cons. apply StronglySorted_app_2; [|done|].
  - intros x y Hx%elem_of_reverse ->%list_elem_of_singleton. rewrite Forall_forall in Ha. apply Ha. by rewrite reverse_involutive in Hx.
  - constructor; [constructor|done].
Qed.

Lemma StronglySorted_map {A B} (R : relation A) (R' : relation B) (f : A -> B) l :
  (forall a b, a ∈ l -> b ∈ l -> R a b -> R' (f a) (f b)) -> StronglySorted R l -> StronglySorted R' (map f l).
Proof.
  intros Hf. induction 1 as [|a l Hs IH Ha]; simpl; constructor.
  - apply IH. intros x y Hx Hy. apply Hf; by right.
  - apply Forall_forall. rewrite Forall_forall in Ha. intros y (x & -> & Hx)%list_elem_of_fmap.
    apply Hf; [left|by right|by apply Ha].
Qed.


Lemma filter_none {A} (P : A -> Prop) `{!forall x, Decision (P x)} (l : list A) :
  (forall x, x ∈ l -> ~ P x) -> filter P l = [].
Proof.
  induction l as [|a l IH]; intros Hl; [done|].
  rewrite filter_cons_False by (apply Hl; left). apply IH. intros x Hx. apply Hl. by right.
Qed.

(** ** Sums *)

Definition sum_list (l : list Z) : Z := foldr Z.add 0 l.
Definition sum_abs (l : list Z) : Z := foldr (fun x acc => Z.abs x + acc) 0 l.

Lemma sum_list_cons x l : sum_list (x :: l) = x + sum_list l.
Proof. done. Qed.
Lemma sum_list_app l1 l2 : sum_list (l1 ++ l2) = sum_list l1 + sum_list l2.
Proof. induction l1; simpl in *; lia. Qed.
Lemma sum_abs_app l1 l2 : sum_abs (l1 ++ l2) = sum_abs l1 + sum_abs l2.
Proof. induction l1; simpl in *; lia. Qed.
Lemma sum_abs_nonneg l : 0 <= sum_abs l.
Proof. induction l; simpl in *; lia. Qed.
Lemma sum_list_perm l1 l2 : l1 ≡ₚ l2 -> sum_list l1 = sum_list l2.
Proof. induction 1; simpl in *; lia. Qed.

Lemma sum_abs_perm l1 l2 : l1 ≡ₚ l2 -> sum_abs l1 = sum_abs l2.
Proof. induction 1; simpl in *; lia. Qed.

(** Sum over the entries of a map. *)
Definition sum_map {K V} `{Countable K} (f : K -> V -> Z) (m : gmap K V) : Z :=
  sum_list ((fun kv => f kv.1 kv.2) <$> map_to_list m).

Section sum_map.
Context {K V : Type} `{Countable K} (f : K -> V -> Z).
Implicit Types m : gmap K V.

Lemma sum_map_empty : sum_map f (∅ : gmap K V) = 0.
Proof. unfold sum_map. by rewrite map_to_list_empty. Qed.

Lemma sum_map_insert m k v : m !! k = None -> sum_map f (<[k := v]> m) = f k v + sum_map f m.
Proof.
  intros Hk. unfold sum_map.
  rewrite (sum_list_perm _ ((fun kv => f kv.1 kv.2) <$> (k, v) :: map_to_list m)); [done|].
  by rewrite map_to_list_insert.
Qed.

Lemma sum_map_delete m k v : m !! k = Some v -> sum_map f (delete k m) = sum_map f m - f k v.
Proof.
  intros Hk. rewrite <- (insert_id m k v Hk) at 2. rewrite <- insert_delete_eq.
  rewrite sum_map_insert by apply lookup_delete_eq. lia.
Qed.

Lemma sum_map_insert_Some m k v w :
  m !! k = Some w -> sum_map f (<[k := v]> m) = sum_map f m + f k v - f k w.
Proof.
  intros Hk. rewrite <- insert_delete_eq, sum_map_insert by apply lookup_delete_eq.
  rewrite (sum_map_delete m k w Hk). lia.
Qed.

(** Writing or removing an entry that may be there. *)
Lemma sum_map_set m k v : sum_map f (<[k := v]> m) = sum_map f m - from_option (f k) 0 (m !! k) + f k v.
Proof.
  destruct (m !! k) as [w|] eqn:Hk; simpl.
  - rewrite (sum_map_insert_Some m k v w Hk). lia.
  - rewrite (sum_map_insert m k v Hk). lia.
Qed.

Lemma sum_map_unset m k : sum_map f (delete k m) = sum_map f m - from_option (f k) 0 (m !! k).
Proof.
  destruct (m !! k) as [w|] eqn:Hk; simpl; [by apply sum_map_delete|]. rewrite delete_id by done. lia.
Qed.

Lemma sum_map_nonneg m : (forall k v, m !! k = Some v -> 0 <= f k v) -> 0 <= sum_map f m.
Proof.
  induction m as [|k v m Hk IH] using map_ind; intros Hf; [by rewrite sum_map_empty|].
  rewrite sum_map_insert by done.
  pose proof (Hf k v (lookup_insert_eq m k v)).
  assert (0 <= sum_map f m); [|lia]. apply IH. intros k' v' Hk'. apply Hf.
  rewrite lookup_insert_ne; [done|]. intros ->. congruence.
Qed.

Lemma sum_map_add (g : K -> V -> Z) m :
  sum_map (fun k v => f k v + g k v) m = sum_map f m + sum_map g m.
Proof.
  unfold sum_map. induction (map_to_list m) as [|a l IH]; [done|].
  rewrite !fmap_cons, !sum_list_cons, IH. lia.
Qed.

Lemma sum_map_opp m : sum_map (fun k v => - f k v) m = - sum_map f m.
Proof.
  unfold sum_map. induction (map_to_list m) as [|a l IH]; [done|].
  rewrite !fmap_cons, !sum_list_cons, IH. lia.
Qed.

Lemma sum_map_ext (g : K -> V -> Z) m :
  (forall k v, m !! k = Some v -> f k v = g k v) -> sum_map f m = sum_map g m.
Proof.
  intros Hfg. unfold sum_map. f_equal. apply list_fmap_ext. intros i [k v] Hi. simpl.
  apply Hfg, elem_of_map_to_list. by eapply list_elem_of_lookup_2.
Qed.

(** Each entry is at most the sum of non-negative entries. *)
Lemma sum_map_entry_le m k v :
  (forall k v, m !! k = Some v -> 0 <= f k v) -> m !! k = Some v -> f k v <= sum_map f m.
Proof.
  intros Hf Hk. pose proof (sum_map_delete m k v Hk) as Hd.
  assert (0 <= sum_map f (delete k m)); [|lia]. apply sum_map_nonneg.
  intros k' v' [_ Hk']%lookup_delete_Some. by apply Hf.
Qed.
End sum_map.

Lemma sum_map_fmap {K A B} `{Countable K} (g : A -> B) (f : K -> B -> Z) (m : gmap K A) :
  sum_map f (g <$> m) = sum_map (fun k a => f k (g a)) m.
Proof.
  induction m as [|k a m Hk IH] using map_ind; [by rewrite fmap_empty, !sum_map_empty|].
  rewrite fmap_insert, !sum_map_insert, IH; [done|done|]. by rewrite lookup_fmap, Hk.
Qed.

Lemma sum_map_union {K} `{Countable K} (m1 m2 : gmap K Z) :
  m1 ##ₘ m2 -> sum_map (fun _ v => v) (m1 ∪ m2) = sum_map (fun _ v => v) m1 + sum_map (fun _ v => v) m2.
Proof.
  induction m1 as [|k a m1 Hk IH] using map_ind; intros Hd; [by rewrite map_empty_union, sum_map_empty|].
  apply map_disjoint_insert_l in Hd as [Hk2 Hd]. rewrite <- insert_union_l, !sum_map_insert, IH; [lia|done|done|].
  by rewrite lookup_union_None.
Qed.

(** The sum over the entries of a map whose terms are multiples. *)
(** Two maps with the same entries under a renaming of keys. *)
Lemma sum_map_reindex {K L A} `{Countable K, Countable L} (key : A -> L) (f : A -> Z) (m : gmap K A) (m' : gmap L Z) :
  (forall k1 a1 k2 a2, m !! k1 = Some a1 -> m !! k2 = Some a2 -> key a1 = key a2 -> k1 = k2) ->
  (forall k a, m !! k = Some a -> default 0 (m' !! key a) = f a) ->
  (forall l v, m' !! l = Some v -> exists k a, m !! k = Some a /\ l = key a) ->
  sum_map (fun _ v => v) m' = sum_map (fun _ a => f a) m.
Proof.
  revert m'. induction m as [|k a m Hk IH] using map_ind; intros m' Hinj Hval Hkey.
  - assert (m' = ∅) as -> by (apply map_empty; intros l; destruct (m' !! l) eqn:Hl; [|done]; by destruct (Hkey _ _ Hl) as (? & ? & ? & _)).
    by rewrite !sum_map_empty.
  - rewrite sum_map_insert by done. rewrite <- (IH (delete (key a) m')).
    + pose proof (Hval k a (lookup_insert_eq _ _ _)) as Ha. rewrite sum_map_unset. destruct (m' !! key a); simpl in *; lia.
    + intros k1 a1 k2 a2 H1 H2. apply Hinj; rewrite lookup_insert_ne; congruence.
    + intros k1 a1 H1. assert (Hne : k1 <> k) by congruence. rewrite lookup_delete_ne; [apply (Hval k1); by rewrite lookup_insert_ne|].
      intros Heq. apply Hne. symmetry. apply (Hinj k a k1 a1); [apply lookup_insert_eq|by rewrite lookup_insert_ne|done].
    + intros l v [Hne Hl]%lookup_delete_Some. apply Hkey in Hl as (k1 & a1 & Hl & ->). exists k1, a1. split; [|done].
      apply lookup_insert_Some in Hl as [[<- <-]|[_ ?]]; [done|done].
Qed.

Lemma sum_map_scaled {K V} `{Countable K} (c : Z) (f g : V -> Z) (m : gmap K V) :
  (forall k v, m !! k = Some v -> g v = c * f v) -> sum_list ((fun kv => g kv.2) <$> map_to_list m) = c * sum_map (fun _ => f) m.
Proof.
  intros Hg. change (sum_map (fun _ => g) m = c * sum_map (fun _ => f) m).
  induction m as [|k v m Hk IH] using map_ind; [by rewrite !sum_map_empty, Z.mul_0_r|]. rewrite !sum_map_insert by done.
  rewrite IH, (Hg k v); [lia|apply lookup_insert_eq|]. intros k' v' Hk'. apply (Hg k'). rewrite lookup_insert_ne; [done|]. intros <-. congruence.
Qed.

(** ** Ordered iteration *)

(** The order in which a [BTreeMap] with integer keys is iterated. *)
Definition key_le {V} (x y : Z * V) : Prop := x.1 <= y.1.
#[export] Instance key_le_dec {V} (x y : Z * V) : Decision (key_le x y).
Proof. unfold key_le. apply _. Defined.
Definition btree_iter {V} (m : gmap Z V) : list (Z * V) := merge_sort key_le (map_to_list m).

Lemma btree_iter_perm {V} (m : gmap Z V) : btree_iter m ≡ₚ map_to_list m.
Proof. apply merge_sort_Permutation. Qed.

Lemma length_btree_iter {V} (m : gmap Z V) : length (btree_iter m) = size m.
Proof. by rewrite (btree_iter_perm m), length_map_to_list. Qed.

Lemma elem_of_btree_iter {V} (m : gmap Z V) k v : (k, v) ∈ btree_iter m <-> m !! k = Some v.
Proof. by rewrite btree_iter_perm, elem_of_map_to_list. Qed.

Lemma NoDup_btree_iter {V} (m : gmap Z V) : NoDup (btree_iter m).*1.
Proof.
  eapply NoDup_Permutation_proper; [|apply (NoDup_fst_map_to_list m)].
  by rewrite btree_iter_perm.
Qed.

Lemma btree_iter_nil {V} (m : gmap Z V) : btree_iter m = [] <-> m = ∅.
Proof.
  split; [|by intros ->]. intros H. apply map_empty. intros k.
  destruct (m !! k) as [v|] eqn:Hk; [|done].
  apply elem_of_btree_iter in Hk. rewrite H in Hk. by apply not_elem_of_nil in Hk.
Qed.

Lemma elem_of_btree_iter_fst {V} (m : gmap Z V) k : k ∈ (btree_iter m).*1 <-> is_Some (m !! k).
Proof.
  rewrite list_elem_of_fmap. split.
  - intros ([k' v] & -> & Hin%elem_of_btree_iter). by exists v.
  - intros [v Hv]. exists (k, v). by rewrite elem_of_btree_iter.
Qed.

#[export] Instance key_le_total {V} : Total (@key_le V).
Proof. intros x y. unfold key_le. lia. Qed.
#[export] Instance key_le_trans {V} : Transitive (@key_le V).
Proof. intros x y z. unfold key_le. lia. Qed.

(** [find_by_range(lo..hi)] of a table with integer keys, in the order of the
    keys. *)
Definition range_scan {V} (lo hi : Z) (m : gmap Z V) : list (Z * V) :=
  btree_iter (filter (fun kv => lo <= kv.1 < hi) m).

Section range_scan.
Context {V : Type}.
Implicit Types m : gmap Z V.

Definition entry_at m (i : Z) : option (Z * V) := pair i <$> m !! i.

Lemma elem_of_omap_entry m (l : list Z) kv : kv ∈ omap (entry_at m) l <-> kv.1 ∈ l /\ m !! kv.1 = Some kv.2.
Proof.
  rewrite list_elem_of_omap. unfold entry_at. split.
  - intros (i & Hi & (v & Hv & ->)%fmap_Some). done.
  - intros [Hi Hv]. exists kv.1. split; [done|]. apply fmap_Some. exists kv.2. by destruct kv.
Qed.

Lemma omap_entry_sorted m lo (n : nat) :
  StronglySorted key_le (omap (entry_at m) (seqZ lo (Z.of_nat n))) /\
  NoDup (omap (entry_at m) (seqZ lo (Z.of_nat n))).
Proof.
  revert lo. induction n as [|n IH]; intros lo; [split; constructor|].
  rewrite seqZ_cons by lia. replace (Z.pred (Z.of_nat (S n))) with (Z.of_nat n) by lia.
  destruct (IH (Z.succ lo)) as [Hs Hn].
  assert (forall kv, kv ∈ omap (entry_at m) (seqZ (Z.succ lo) (Z.of_nat n)) -> lo < kv.1) as Hlt.
  { intros kv [H%elem_of_seqZ _]%elem_of_omap_entry. lia. }
  simpl. destruct (entry_at m lo) as [e|] eqn:He; [|done].
  apply fmap_Some in He as (v & _ & ->). split; constructor; try done.
  - apply Forall_forall. intros kv H%Hlt. unfold key_le. simpl. lia.
  - intros H%Hlt. simpl in H. lia.
Qed.

(** A scan reads the keys of the range one after the other. *)
Lemma range_scan_spec m lo hi : range_scan lo hi m = omap (entry_at m) (seqZ lo (hi - lo)).
Proof.
  destruct (decide (lo <= hi)) as [Hle|Hgt].
  2:{ rewrite seqZ_nil by lia. apply btree_iter_nil, map_empty. intros k. apply map_lookup_filter_None.
      right. simpl. lia. }
  replace (hi - lo) with (Z.of_nat (Z.to_nat (hi - lo))) by lia.
  destruct (omap_entry_sorted m lo (Z.to_nat (hi - lo))) as [Hs Hn].
  assert (forall kv, kv ∈ range_scan lo hi m <-> kv ∈ omap (entry_at m) (seqZ lo (Z.of_nat (Z.to_nat (hi - lo))))) as Heq.
  { intros [k v]. rewrite elem_of_omap_entry, elem_of_seqZ. unfold range_scan.
    rewrite elem_of_btree_iter, map_lookup_filter_Some. simpl. naive_solver lia. }
  eapply StronglySorted_unique_strong; [|apply StronglySorted_merge_sort; apply _|exact Hs|].
  - intros [k1 v1] [k2 v2] [_ H1]%Heq%elem_of_omap_entry [_ H2]%elem_of_omap_entry.
    unfold key_le. simpl in *. intros. assert (k1 = k2) as -> by lia. congruence.
  - apply NoDup_Permutation; [|done|exact Heq]. eapply NoDup_fmap_1, NoDup_btree_iter.
Qed.

Lemma range_scan_app m lo mid hi :
  lo <= mid <= hi -> range_scan lo hi m = range_scan lo mid m ++ range_scan mid hi m.
Proof.
  intros H. rewrite !range_scan_spec. replace (hi - lo) with ((mid - lo) + (hi - mid)) by lia.
  rewrite seqZ_app by lia. rewrite omap_app. by replace (lo + (mid - lo)) with mid by lia.
Qed.

Lemma elem_of_range_scan m lo hi k v :
  (k, v) ∈ range_scan lo hi m <-> m !! k = Some v /\ lo <= k < hi.
Proof. unfold range_scan. rewrite elem_of_btree_iter, map_lookup_filter_Some. done. Qed.

Lemma omap_entry_cons m i (l : list Z) :
  omap (entry_at m) (i :: l) =
  match entry_at m i with Some e => e :: omap (entry_at m) l | None => omap (entry_at m) l end.
Proof. done. Qed.

(** A page of a scan is itself a scan, up to the last key it reached. *)
Lemma take_range_scan m lo hi k key v :
  last (take k (range_scan lo hi m)) = Some (key, v) ->
  take k (range_scan lo hi m) = range_scan lo (key + 1) m.
Proof.
  rewrite !range_scan_spec. destruct (decide (lo <= hi)) as [Hle|]; [|by rewrite seqZ_nil by lia; destruct k].
  replace (hi - lo) with (Z.of_nat (Z.to_nat (hi - lo))) by lia. generalize (Z.to_nat (hi - lo)). clear hi Hle.
  intros n. revert lo k. induction n as [|n IH]; intros lo k; [by destruct k|].
  rewrite (seqZ_cons lo (Z.of_nat (S n))) by lia. replace (Z.pred (Z.of_nat (S n))) with (Z.of_nat n) by lia.
  set (tl := omap (entry_at m) (seqZ (Z.succ lo) (Z.of_nat n))).
  assert (forall j, last (take j tl) = Some (key, v) ->
    take j tl = omap (entry_at m) (seqZ (Z.succ lo) (key + 1 - Z.succ lo)) /\ lo < key) as Htl.
  { intros j Hj. split; [by apply IH|].
    assert ((key, v) ∈ tl) as Hin.
    { apply last_Some_elem_of in Hj. by eapply subseteq_take. }
    apply elem_of_omap_entry in Hin as [Hin%elem_of_seqZ _]. simpl in Hin. lia. }
  rewrite omap_entry_cons. fold tl. destruct (entry_at m lo) as [e|] eqn:He.
  - destruct k as [|k]; [done|]. rewrite firstn_cons, last_cons.
    destruct (last (take k tl)) as [kv|] eqn:Hl; intros [= ->].
    + destruct (Htl k Hl) as [-> Hlt]. rewrite (seqZ_cons lo), omap_entry_cons, He by lia.
      do 3 f_equal; lia.
    + apply fmap_Some in He as He'. destruct He' as (w & _ & [= -> ->]).
      apply last_None in Hl. rewrite Hl, seqZ_cons, omap_entry_cons, He by lia.
      by rewrite seqZ_nil by lia.
  - intros Hl. destruct (Htl k Hl) as [-> Hlt]. rewrite (seqZ_cons lo), omap_entry_cons, He by lia.
    do 2 f_equal; lia.
Qed.

(** Writes outside the range do not show. *)
Lemma range_scan_insert m lo hi k v :
  ~ (lo <= k < hi) -> range_scan lo hi (<[k := v]> m) = range_scan lo hi m.
Proof. intros Hk. unfold range_scan. by rewrite map_filter_insert_not. Qed.
End range_scan.

(** Deleting every key empties a map. *)
Lemma size_list_to_set_le {A} `{Countable A} (l : list A) : (size (list_to_set l : gset A) <= length l)%nat.
Proof.
  induction l as [|x l IH]; [done|]. rewrite list_to_set_cons, size_union_alt, size_singleton, length_cons.
  pose proof (subseteq_size ((list_to_set l : gset A) ∖ {[x]}) (list_to_set l) ltac:(set_solver)). lia.
Qed.

Lemma length_omap_le {A B} (f : A -> option B) l : (length (omap f l) <= length l)%nat.
Proof.
  induction l as [|x l IH]; [done|]. change (omap f (x :: l)) with (match f x with Some y => y :: omap f l | None => omap f l end).
  destruct (f x); rewrite ?length_cons; lia.
Qed.

Lemma foldl_delete_lookup {K V} `{Countable K} (l : list K) (m : gmap K V) k :
  foldl (fun m k => delete k m) m l !! k = if decide (k ∈ l) then None else m !! k.
Proof.
  revert m. induction l as [|x l IH]; intros m; cbn [foldl].
  { case_decide as Hin; [by apply not_elem_of_nil in Hin|done]. }
  rewrite IH. destruct (decide (k ∈ l)) as [H1|H1], (decide (k ∈ x :: l)) as [H2|H2]; rewrite elem_of_cons in H2; try tauto.
  - destruct H2 as [->|?]; [apply lookup_delete_eq|tauto].
  - apply lookup_delete_ne. intros ->. tauto.
Qed.

Lemma foldl_delete_fmap {K A B} `{Countable K} (f : A -> B) (m : gmap K A) l :
  f <$> foldl (fun m k => delete k m) m l = foldl (fun m k => delete k m) (f <$> m) l.
Proof. revert m. induction l as [|k l IH]; intros m; simpl; [done|]. by rewrite IH, fmap_delete. Qed.

Lemma foldl_delete_all {K V} `{Countable K} (m : gmap K V) :
  foldl (fun m k => delete k m) m (map_to_list m).*1 = ∅.
Proof.
  assert (forall l (m0 : gmap K V) k, foldl (fun m k => delete k m) m0 l !! k =
            if decide (k ∈ l) then None else m0 !! k) as Hl.
  { induction l as [|a l IH]; intros m0 k; simpl; [done|]. rewrite IH.
    destruct (decide (k ∈ l)), (decide (k ∈ a :: l)); try set_solver.
    - assert (a = k) as -> by set_solver. apply lookup_delete_eq.
    - apply lookup_delete_ne. set_solver. }
  apply map_empty. intros k. rewrite Hl. case_decide as Hin; [done|].
  destruct (m !! k) as [v|] eqn:Hk; [|done]. destruct Hin.
  apply elem_of_map_to_list in Hk. by apply (list_elem_of_fmap_2 fst) in Hk.
Qed.

(** ** Outcomes

    A Rust computation that returns [Result<A, E>] and works on a
    [&mut DatabaseTransaction] either returns [Ok], returns [Err] or panics.
    The writes made before an [Err] stay in the transaction: whoever owns the
    transaction decides whether to commit it. *)

Inductive outcome (E A : Type) : Type :=
| Ok (a : A)
| Err (e : E)
| Panic.
Arguments Ok {_ _} _.
Arguments Err {_ _} _.
Arguments Panic {_ _}.

(** State passing with outcomes. *)
Definition M (S E A : Type) : Type := S -> outcome E A * S.

#[export] Instance M_ret S E : MRet (M S E) := fun A a s => (Ok a, s).
#[export] Instance M_bind S E : MBind (M S E) := fun A B k m s =>
  match m s with
  | (Ok a, s') => k a s'
  | (Err e, s') => (Err e, s')
  | (Panic, s') => (Panic, s')
  end.

Definition throw {S E A} (e : E) : M S E A := fun s => (Err e, s).
Definition panic {S E A} : M S E A := fun s => (Panic, s).
Definition gets {S E A} (f : S -> A) : M S E A := fun s => (Ok (f s), s).
Definition modify {S E} (f : S -> S) : M S E unit := fun s => (Ok tt, f s).

(** [opt.ok_or(e)?] and [opt.expect(..)]. *)
Definition ok_or {S E A} (o : option A) (e : E) : M S E A :=
  match o with Some a => mret a | None => throw e end.
Definition expect {S E A} (o : option A) : M S E A :=
  match o with Some a => mret a | None => panic end.

(** [if !b { return Err(e) }] and [assert!(b)]. *)
Definition ensure {S E} (b : bool) (e : E) : M S E unit :=
  if b then mret tt else throw e.
Definition rassert {S E} (b : bool) : M S E unit :=
  if b then mret tt else panic.

(** [res.map_err(f)]. *)
Definition map_err {S E F A} (f : E -> F) (m : M S E A) : M S F A := fun s =>
  match m s with
  | (Ok a, s') => (Ok a, s')
  | (Err e, s') => (Err (f e), s')
  | (Panic, s') => (Panic, s')
  end.

(** A [for] loop whose body may leave the function with [?]. *)
Fixpoint for_each {S E A} (l : list A) (body : A -> M S E unit) : M S E unit :=
  match l with
  | [] => mret tt
  | a :: l' => body a ≫= fun _ => for_each l' body
  end.

(** Run a computation on a part of the state, as
    [to_ref_with_prefix_module_id] does with the isolated part of a module. *)
Definition zoom {S T E A} (get : S -> T) (put : T -> S -> S) (m : M T E A) : M S E A :=
  fun s => let '(r, t) := m (get s) in (r, put t s).

Section monad_lemmas.
Context {S E : Type}.
Implicit Types s : S.

Lemma bind_Ok {A B} (m : M S E A) (k : A -> M S E B) s b s' :
  (m ≫= k) s = (Ok b, s') <-> exists a s1, m s = (Ok a, s1) /\ k a s1 = (Ok b, s').
Proof.
  unfold mbind, M_bind. destruct (m s) as [[a|e|] s1]; naive_solver.
Qed.

(** Running the first step of a computation. *)
Lemma run_bind {A B} (m : M S E A) (k : A -> M S E B) s a s' : m s = (Ok a, s') -> (m ≫= k) s = k a s'.
Proof. intros Hm. unfold mbind, M_bind. by rewrite Hm. Qed.

Lemma bind_Panic {A B} (m : M S E A) (k : A -> M S E B) s s' :
  (m ≫= k) s = (Panic, s') <->
  m s = (Panic, s') \/ exists a s1, m s = (Ok a, s1) /\ k a s1 = (Panic, s').
Proof.
  unfold mbind, M_bind. destruct (m s) as [[a|e|] s1]; naive_solver.
Qed.

Lemma bind_Err {A B} (m : M S E A) (k : A -> M S E B) s e s' :
  (m ≫= k) s = (Err e, s') <->
  m s = (Err e, s') \/ exists a s1, m s = (Ok a, s1) /\ k a s1 = (Err e, s').
Proof.
  unfold mbind, M_bind. destruct (m s) as [[a|e'|] s1]; naive_solver.
Qed.

Lemma ret_Ok {A} (a : A) s b s' : (mret a : M S E A) s = (Ok b, s') <-> b = a /\ s' = s.
Proof. unfold mret, M_ret. naive_solver. Qed.

Lemma throw_Ok {A} (e : E) s (b : A) s' : throw e s = (Ok b, s') <-> False.
Proof. unfold throw. naive_solver. Qed.

Lemma panic_Ok {A} s (b : A) s' : (panic : M S E A) s = (Ok b, s') <-> False.
Proof. unfold panic. naive_solver. Qed.

Lemma gets_Ok {A} (f : S -> A) s b s' : (gets f : M S E A) s = (Ok b, s') <-> b = f s /\ s' = s.
Proof. unfold gets. naive_solver. Qed.

Lemma modify_Ok (f : S -> S) s u s' : (modify f : M S E unit) s = (Ok u, s') <-> s' = f s.
Proof. unfold modify. destruct u. naive_solver. Qed.

Lemma ok_or_Ok {A} (o : option A) (e : E) s a s' :
  ok_or o e s = (Ok a, s') <-> o = Some a /\ s' = s.
Proof. destruct o; unfold ok_or, throw, mret, M_ret; naive_solver. Qed.

Lemma expect_Ok {A} (o : option A) s a s' :
  (expect o : M S E A) s = (Ok a, s') <-> o = Some a /\ s' = s.
Proof. destruct o; unfold expect, panic, mret, M_ret; naive_solver. Qed.

Lemma ensure_Ok (b : bool) (e : E) s u s' : ensure b e s = (Ok u, s') <-> b = true /\ s' = s.
Proof. destruct b, u; unfold ensure, throw, mret, M_ret; naive_solver. Qed.

Lemma rassert_Ok (b : bool) s u s' :
  (rassert b : M S E unit) s = (Ok u, s') <-> b = true /\ s' = s.
Proof. destruct b, u; unfold rassert, panic, mret, M_ret; naive_solver. Qed.

Lemma map_err_Ok {F A} (f : E -> F) (m : M S E A) s a s' :
  map_err f m s = (Ok a, s') <-> m s = (Ok a, s').
Proof. unfold map_err. destruct (m s) as [[]]; naive_solver. Qed.

Lemma zoom_Ok {T A} (get : S -> T) (put : T -> S -> S) (m : M T E A) s a s' :
  zoom get put m s = (Ok a, s') <-> exists t, m (get s) = (Ok a, t) /\ s' = put t s.
Proof. unfold zoom. destruct (m (get s)); naive_solver. Qed.

(** A loop preserves what its body preserves. *)
Lemma for_each_inv {A} (P : S -> Prop) (l : list A) (body : A -> M S E unit) s u s' :
  (forall a s1 s2, a ∈ l -> P s1 -> body a s1 = (Ok u, s2) -> P s2) ->
  P s -> for_each l body s = (Ok u, s') -> P s'.
Proof.
  revert s. induction l as [|a l IH]; intros s Hb HP; simpl.
  - rewrite ret_Ok. naive_solver.
  - rewrite bind_Ok. intros ([] & s1 & H1 & H2). destruct u.
    eapply IH; [|eapply Hb; [left|exact HP|exact H1]|exact H2].
    intros b t1 t2 Hin. apply Hb. by right.
Qed.
End monad_lemmas.

(** ** Freedom from panics *)
Definition no_panic {S E A} (m : M S E A) (s : S) : Prop := (m s).1 <> Panic.

Section no_panic_lemmas.
Context {S E : Type}.
Implicit Types s : S.

Lemma no_panic_bind {A B} (m : M S E A) (k : A -> M S E B) s :
  no_panic m s -> (forall a s', m s = (Ok a, s') -> no_panic (k a) s') -> no_panic (m ≫= k) s.
Proof. unfold no_panic, mbind, M_bind. destruct (m s) as [[a|e|] s']; simpl; [|done|done]. intros _ H. by apply H. Qed.

Lemma no_panic_ret {A} (a : A) s : no_panic (mret a : M S E A) s.
Proof. done. Qed.

Lemma no_panic_throw {A} (e : E) s : no_panic (throw e : M S E A) s.
Proof. done. Qed.

Lemma no_panic_gets {A} (f : S -> A) s : no_panic (gets f : M S E A) s.
Proof. done. Qed.

Lemma no_panic_ok_or {A} (o : option A) (e : E) s : no_panic (ok_or o e : M S E A) s.
Proof. by destruct o. Qed.

Lemma no_panic_ensure b (e : E) s : no_panic (ensure b e : M S E unit) s.
Proof. by destruct b. Qed.

Lemma no_panic_expect {A} (o : option A) s : is_Some o -> no_panic (expect o : M S E A) s.
Proof. by intros [a ->]. Qed.

Lemma no_panic_rassert b s : b = true -> no_panic (rassert b : M S E unit) s.
Proof. by intros ->. Qed.

Lemma no_panic_for_each {A} (P : S -> Prop) (l : list A) (body : A -> M S E unit) s :
  (forall a s1, a ∈ l -> P s1 -> no_panic (body a) s1 /\ forall s2, body a s1 = (Ok tt, s2) -> P s2) ->
  P s -> no_panic (for_each l body) s.
Proof.
  revert s. induction l as [|a l IH]; intros s Hb HP; simpl; [done|].
  destruct (Hb a s ltac:(by left) HP) as [Hn Hk]. apply no_panic_bind; [done|].
  intros [] s' H. apply IH; [|by apply Hk]. intros b s1 Hin. apply Hb. by right.
Qed.
End no_panic_lemmas.

#[export] Hint Resolve no_panic_ret no_panic_throw no_panic_gets no_panic_ok_or no_panic_ensure : fedimint.

(** [mrun] inverts a run that returned [Ok] into the facts of each step. *)
Ltac mrun_step :=
  match goal with
  | H : mbind _ _ _ = (Ok _, _) |- _ => apply bind_Ok in H as (? & ? & ? & H)
  | H : mret _ _ = (Ok _, _) |- _ => apply ret_Ok in H as [? ?]
  | H : throw _ _ = (Ok _, _) |- _ => apply throw_Ok in H; destruct H
  | H : panic _ = (Ok _, _) |- _ => apply panic_Ok in H; destruct H
  | H : gets _ _ = (Ok _, _) |- _ => apply gets_Ok in H as [? ?]
  | H : modify _ _ = (Ok _, _) |- _ => apply modify_Ok in H
  | H : ok_or _ _ _ = (Ok _, _) |- _ => apply ok_or_Ok in H as [? ?]
  | H : expect _ _ = (Ok _, _) |- _ => apply expect_Ok in H as [? ?]
  | H : ensure _ _ _ = (Ok _, _) |- _ => apply ensure_Ok in H as [? ?]
  | H : rassert _ _ = (Ok _, _) |- _ => apply rassert_Ok in H as [? ?]
  | H : map_err _ _ _ = (Ok _, _) |- _ => apply map_err_Ok in H
  end; simplify_eq.
Ltac mrun := repeat mrun_step.
