(* ===== verification/Encoding.v ===== *)
(** * The consensus encoding

    [fedimint-core/src/encoding/mod.rs], [collections.rs] and the code
    [fedimint-derive/src/lib.rs] generates for structs and enums.  A type that
    is [Encodable] and [Decodable] is a [codec]; the impls for compound types
    are functions on codecs.  What guardians hash, sign and store relies on
    two laws, the class [Lawful]: decoding an encoding gives the value back,
    and no value has a second encoding.

    Integers are written as [BigSize] of the lightning library, a parameter
    that is lawful on [u64]. *)

From Stdlib Require Import Sorted.
From S2P Require Import Prelude.

Record codec (A : Type) := Codec {
  valid : A -> Prop;
  consensus_encode : A -> list Z;
  consensus_decode_partial : list Z -> option (A * list Z);
}.
Arguments Codec {_} _ _ _.
Arguments valid {_} _ _.
Arguments consensus_encode {_} _ _.
Arguments consensus_decode_partial {_} _ _.

Class Lawful {A} (c : codec A) : Prop := {
  encode_bytes a : valid c a -> Forall is_byte (consensus_encode c a);
  decode_encode a rest : valid c a ->
    consensus_decode_partial c (consensus_encode c a ++ rest) = Some (a, rest);
  encode_decode bs a rest : Forall is_byte bs -> consensus_decode_partial c bs = Some (a, rest) ->
    valid c a /\ bs = consensus_encode c a ++ rest;
}.

Definition consensus_decode_whole {A} (c : codec A) (bs : list Z) : option A :=
  match consensus_decode_partial c bs with
  | Some (a, []) => Some a
  | _ => None
  end.

Section lawful.
Context {A : Type} (c : codec A) `{!Lawful c}.

Lemma decode_rest bs a rest :
  Forall is_byte bs -> consensus_decode_partial c bs = Some (a, rest) -> Forall is_byte rest.
Proof using Type*. intros Hbs H. apply encode_decode in H as [_ ->]; [|done]. by apply Forall_app in Hbs as [_ ?]. Qed.

(** A byte string decodes to a value exactly when it is its encoding. *)
Lemma decode_whole_iff bs a :
  Forall is_byte bs ->
  consensus_decode_whole c bs = Some a <-> valid c a /\ bs = consensus_encode c a.
Proof using Type*.
  intros Hbs. unfold consensus_decode_whole. split.
  - destruct (consensus_decode_partial c bs) as [[a' [|]]|] eqn:H; intros [= <-].
    apply encode_decode in H as [Hv ->]; [|done]. by rewrite app_nil_r.
  - intros [Hv ->]. pose proof (decode_encode a [] Hv) as H. rewrite app_nil_r in H. by rewrite H.
Qed.

Lemma decode_whole_encode a : valid c a -> consensus_decode_whole c (consensus_encode c a) = Some a.
Proof using Type*.
  intros Hv. unfold consensus_decode_whole. pose proof (decode_encode a [] Hv) as H.
  rewrite app_nil_r in H. by rewrite H.
Qed.

Lemma encode_inj a b : valid c a -> valid c b -> consensus_encode c a = consensus_encode c b -> a = b.
Proof using Type*.
  intros Ha Hb H. pose proof (decode_encode a [] Ha) as H1. rewrite H, (decode_encode b [] Hb) in H1. by simplify_eq.
Qed.
End lawful.

(** ** Types of a fixed size *)

Definition u8_codec : codec Z :=
  Codec is_byte (fun b => [b]) (fun bs => match bs with b :: rest => Some (b, rest) | [] => None end).

Definition unit_codec : codec unit := Codec (fun _ => True) (fun _ => []) (fun bs => Some (tt, bs)).

Definition bool_codec : codec bool :=
  Codec (fun _ => True) (fun b : bool => [if b then 1 else 0])
    (fun bs => '(flag, rest) ← consensus_decode_partial u8_codec bs;
               if flag =? 0 then Some (false, rest) else if flag =? 1 then Some (true, rest) else None).

#[export] Instance u8_lawful : Lawful u8_codec.
Proof.
  split; simpl; [by intros a ?; constructor|done|].
  intros [|b bs] a rest Hbs [= -> ->]. by inversion Hbs.
Qed.

#[export] Instance unit_lawful : Lawful unit_codec.
Proof. split; simpl; [by constructor|by intros []|by intros bs a rest _ [= <- <-]]. Qed.

#[export] Instance bool_lawful : Lawful bool_codec.
Proof.
  split; simpl.
  - intros [] _; repeat constructor; done.
  - by intros [] rest _.
  - intros [|f bs] a rest Hbs; [done|]. simpl.
    destruct (Z.eqb_spec f 0) as [->|]; [intros [= <- <-]; done|].
    destruct (Z.eqb_spec f 1) as [->|]; [intros [= <- <-]; done|done].
Qed.

(** ** Products and sums *)
Section compound.
Context {A B : Type} (ca : codec A) (cb : codec B).

Definition pair_codec : codec (A * B) :=
  Codec (fun p : A * B => valid ca p.1 /\ valid cb p.2)
    (fun p => consensus_encode ca p.1 ++ consensus_encode cb p.2)
    (fun bs => '(a, bs1) ← consensus_decode_partial ca bs;
               '(b, bs2) ← consensus_decode_partial cb bs1;
               Some ((a, b), bs2)).

Definition option_codec : codec (option A) :=
  Codec (fun o : option A => match o with Some a => valid ca a | None => True end)
    (fun o => match o with
              | Some inner => consensus_encode u8_codec 1 ++ consensus_encode ca inner
              | None => consensus_encode u8_codec 0
              end)
    (fun bs => '(flag, bs1) ← consensus_decode_partial u8_codec bs;
               if flag =? 0 then Some (None, bs1)
               else if flag =? 1 then '(a, bs2) ← consensus_decode_partial ca bs1; Some (Some a, bs2)
               else None).

(** [Result<T, E>] with [T] on the left. *)
Definition result_codec : codec (A + B) :=
  Codec (fun r : A + B => match r with inl a => valid ca a | inr b => valid cb b end)
    (fun r => match r with
              | inl value => consensus_encode u8_codec 1 ++ consensus_encode ca value
              | inr error => consensus_encode u8_codec 0 ++ consensus_encode cb error
              end)
    (fun bs => '(flag, bs1) ← consensus_decode_partial u8_codec bs;
               if flag =? 0 then '(b, bs2) ← consensus_decode_partial cb bs1; Some (inr b, bs2)
               else if flag =? 1 then '(a, bs2) ← consensus_decode_partial ca bs1; Some (inl a, bs2)
               else None).

(** A derived struct: the tuple of its fields. *)
Definition struct_codec (fields : B -> A) (constructor : A -> B) : codec B :=
  Codec (fun b => valid ca (fields b)) (fun b => consensus_encode ca (fields b))
    (fun bs => '(a, rest) ← consensus_decode_partial ca bs; Some (constructor a, rest)).

(** A type that is decoded and then checked. *)
Definition checked_codec (P : A -> Prop) `{!forall a, Decision (P a)} : codec A :=
  Codec (fun a => valid ca a /\ P a) (consensus_encode ca)
    (fun bs => '(a, rest) ← consensus_decode_partial ca bs; if decide (P a) then Some (a, rest) else None).
End compound.

(** [dec H] takes the first step of a decoder that succeeded. *)
Ltac dec H a bs H1 := apply bind_Some in H as ([a bs] & H1 & H); simpl in H.
Ltac dec_by H1 := apply encode_decode in H1 as [? ->]; [|done].

Section compound_lawful.
Context {A B : Type} (ca : codec A) `{!Lawful ca}.

#[export] Instance option_lawful : Lawful (option_codec ca).
Proof using Type*.
  split; simpl.
  - intros [a|] Ha; (apply Forall_cons; split; [unfold is_byte; lia|]); [by apply encode_bytes|done].
  - intros [a|] rest Ha; simpl; [|done]. by rewrite decode_encode.
  - intros [|f bs] o rest Hbs H; [done|]. inversion Hbs; subst. simpl in H.
    destruct (Z.eqb_spec f 0) as [->|]; [by simplify_eq|].
    destruct (Z.eqb_spec f 1) as [->|]; [|done]. dec H a bs1 H1. simplify_eq. dec_by H1. done.
Qed.

Lemma struct_lawful (fields : B -> A) (constructor : A -> B) :
  (forall a, fields (constructor a) = a) -> (forall b, constructor (fields b) = b) ->
  Lawful (struct_codec ca fields constructor).
Proof using Type*.
  intros Hfc Hcf. split; simpl.
  - intros b. apply encode_bytes.
  - intros b rest Hb. rewrite decode_encode by done. simpl. by rewrite Hcf.
  - intros bs b rest Hbs H. dec H a bs1 H1. simplify_eq. rewrite Hfc. by apply encode_decode.
Qed.

#[export] Instance checked_lawful (P : A -> Prop) `{!forall a, Decision (P a)} : Lawful (checked_codec ca P).
Proof using Type*.
  split; simpl.
  - intros a [Ha _]. by apply encode_bytes.
  - intros a rest [Ha HP]. rewrite decode_encode by done. simpl. by rewrite decide_True.
  - intros bs a rest Hbs Hd. dec Hd a' bs1 H1. destruct (decide (P a')); simplify_eq. dec_by H1. done.
Qed.

Context (cb : codec B) `{!Lawful cb}.

#[export] Instance pair_lawful : Lawful (pair_codec ca cb).
Proof using Type*.
  split; simpl.
  - intros [a b] [Ha Hb]. apply Forall_app. split; by apply encode_bytes.
  - intros [a b] rest [Ha Hb]. simpl in *. rewrite <- app_assoc, decode_encode by done. simpl. by rewrite decode_encode.
  - intros bs [a b] rest Hbs H. dec H a' bs1 H1. dec H b' bs2 H2. simplify_eq.
    pose proof (decode_rest ca _ _ _ Hbs H1). dec_by H1. dec_by H2. by rewrite app_assoc.
Qed.

#[export] Instance result_lawful : Lawful (result_codec ca cb).
Proof using Type*.
  split; simpl.
  - intros [a|b] Hv; (apply Forall_cons; split; [unfold is_byte; lia|by apply encode_bytes]).
  - intros [a|b] rest Hv; simpl; by rewrite decode_encode.
  - intros [|f bs] o rest Hbs H; [done|]. inversion Hbs; subst. simpl in H.
    destruct (Z.eqb_spec f 0) as [->|]; [dec H b bs1 H1; simplify_eq; dec_by H1; done|].
    destruct (Z.eqb_spec f 1) as [->|]; [|done]. dec H a bs1 H1. simplify_eq. dec_by H1. done.
Qed.
End compound_lawful.

(** ** Sequences of known length *)
Section sequences.
Context {A : Type} (c : codec A).

Fixpoint decode_n (n : nat) (bs : list Z) : option (list A * list Z) :=
  match n with
  | 0%nat => Some ([], bs)
  | S n' =>
      '(a, bs1) ← consensus_decode_partial c bs;
      '(l, bs2) ← decode_n n' bs1;
      Some (a :: l, bs2)
  end.

Definition encode_all (l : list A) : list Z := l ≫= consensus_encode c.

Lemma encode_all_cons a l : encode_all (a :: l) = consensus_encode c a ++ encode_all l.
Proof. done. Qed.

(** [T; SIZE]. *)
Definition array_codec (size : nat) : codec (list A) :=
  Codec (fun l => length l = size /\ Forall (valid c) l) encode_all (decode_n size).

Context `{!Lawful c}.

Lemma encode_all_bytes l : Forall (valid c) l -> Forall is_byte (encode_all l).
Proof using Type*.
  induction 1 as [|a l Ha Hl IH]; [done|]. rewrite encode_all_cons. apply Forall_app.
  split; [by apply encode_bytes|done].
Qed.

Lemma decode_n_encode l rest : Forall (valid c) l -> decode_n (length l) (encode_all l ++ rest) = Some (l, rest).
Proof using Type*.
  induction 1 as [|a l Ha Hl IH]; [done|]. rewrite encode_all_cons, <- app_assoc.
  apply bind_Some. exists (a, encode_all l ++ rest). split; [by apply decode_encode|].
  apply bind_Some. by exists (l, rest).
Qed.

Lemma encode_decode_n n bs l rest :
  Forall is_byte bs -> decode_n n bs = Some (l, rest) ->
  length l = n /\ Forall (valid c) l /\ bs = encode_all l ++ rest.
Proof using Type*.
  revert bs l. induction n as [|n IH]; intros bs l Hbs H; simpl in H; [by simplify_eq|].
  dec H a bs1 H1. dec H l' bs2 H2. simplify_eq. pose proof (decode_rest c _ _ _ Hbs H1) as Hbs1.
  apply IH in H2 as (<- & Hl & ->); [|done]. dec_by H1. split_and!; [done|by constructor|].
  by rewrite encode_all_cons, app_assoc.
Qed.

#[export] Instance array_lawful size : Lawful (array_codec size).
Proof using Type*.
  split; simpl.
  - intros l [_ Hl]. by apply encode_all_bytes.
  - intros l rest [<- Hl]. by apply decode_n_encode.
  - intros bs l rest Hbs H. apply encode_decode_n in H as (? & ? & ?); done.
Qed.
End sequences.

(** A value of a derived enum: a variant by its index, or what an
    [#[encodable_default]] variant keeps. *)
Inductive enum (V : Type) : Type :=
| Known (variant : Z) (fields : V)
| Default (variant : Z) (bytes : list Z).
Arguments Known {_} _ _.
Arguments Default {_} _ _.

(** A value of some module: decoded by the module's decoder, or the bytes of
    a module that is not known ([DynUnknown], [DynRawFallback::Raw]). *)
Inductive DynRawFallback (V : Type) : Type :=
| Decoded (module_instance_id : Z) (value : V)
| Raw (module_instance_id : Z) (raw : list Z).
Arguments Decoded {_} _ _.
Arguments Raw {_} _ _.

Inductive DecodingMode := Reject | Fallback.

(** ** Integers and what is prefixed with a length *)
Section bigsize.
Context (BigSize : codec Z).

Definition num_codec (max : Z) : codec Z :=
  Codec (fun x => 0 <= x <= max) (consensus_encode BigSize)
    (fun bs => '(varint, rest) ← consensus_decode_partial BigSize bs;
               if varint <=? max then Some (varint, rest) else None).

Definition u16_codec : codec Z := num_codec 65535.
Definition u32_codec : codec Z := num_codec 4294967295.
Definition u64_codec : codec Z := num_codec u64_max.

Definition len_encode {A} (l : list A) : list Z := consensus_encode u64_codec (Z.of_nat (length l)).

(** [Vec<T>], [VecDeque<T>] and [&[T]] for [T] other than [u8]. *)
Definition vec_codec {A} (c : codec A) : codec (list A) :=
  Codec (fun l => Z.of_nat (length l) <= u64_max /\ Forall (valid c) l)
    (fun l => len_encode l ++ encode_all c l)
    (fun bs => '(len, bs1) ← consensus_decode_partial u64_codec bs; decode_n c (Z.to_nat len) bs1).

(** [Vec<u8>] is read in chunks, so that a length alone does not make the
    decoder allocate.  Every chunk but the last one is a whole one, so one more
    step than there are bytes is enough. *)
Definition CHUNK_SIZE : Z := 64 * 1024.

Fixpoint read_chunks (fuel : nat) (len : Z) (bs : list Z) : option (list Z * list Z) :=
  match fuel with
  | 0%nat => None
  | S fuel' =>
      if len <=? 0 then Some ([], bs) else
      let chunk_size := Z.min len CHUNK_SIZE in
      if Z.of_nat (length bs) <? chunk_size then None else
      '(bytes, rest) ← read_chunks fuel' (len - chunk_size) (drop (Z.to_nat chunk_size) bs);
      Some (take (Z.to_nat chunk_size) bs ++ bytes, rest)
  end.

Definition bytes_codec : codec (list Z) :=
  Codec (fun l => Z.of_nat (length l) <= u64_max /\ Forall is_byte l)
    (fun l => len_encode l ++ l)
    (fun bs => '(len, bs1) ← consensus_decode_partial u64_codec bs; read_chunks (S (length bs1)) len bs1).

(** A [String] is its bytes, checked with [from_utf8]. *)
Definition string_codec (is_utf8 : list Z -> Prop) `{!forall s, Decision (is_utf8 s)} : codec (list Z) :=
  checked_codec bytes_codec is_utf8.

(** Seconds and nanoseconds below one billion. *)
Definition duration_codec : codec (Z * Z) :=
  checked_codec (pair_codec u64_codec u32_codec) (fun d => d.2 < 1000000000).

(** [BTreeMap<K, V>] and [BTreeSet<K>]: the entries in the order of their keys,
    which the decoder checks. *)
Section ordered.
Context {K V : Type} (ck : codec K) (cv : codec V) (le : K -> K -> Prop) `{le_dec : forall a b, Decision (le a b)}.

(** The next key is larger than the last one. *)
Definition key_after (acc : list (K * V)) (k : K) : Prop :=
  match last acc with Some prev => ~ le k prev.1 | None => True end.
#[export] Instance key_after_dec acc k : Decision (key_after acc k).
Proof using Type*. unfold key_after. destruct (last acc); apply _. Defined.

Fixpoint decode_entries (n : nat) (acc : list (K * V)) (bs : list Z) : option (list (K * V) * list Z) :=
  match n with
  | 0%nat => Some (acc, bs)
  | S n' =>
      '(k, bs1) ← consensus_decode_partial ck bs;
      if decide (key_after acc k) then
        '(v, bs2) ← consensus_decode_partial cv bs1;
        decode_entries n' (acc ++ [(k, v)]) bs2
      else None
  end.

(** The entries of a [BTreeMap] are in strictly increasing order of their keys. *)
Definition key_lt (e1 e2 : K * V) : Prop := ~ le e2.1 e1.1.

Definition btreemap_codec : codec (list (K * V)) :=
  Codec (fun m => Z.of_nat (length m) <= u64_max /\ Forall (valid (pair_codec ck cv)) m /\ Sorted key_lt m)
    (fun m => len_encode m ++ encode_all (pair_codec ck cv) m)
    (fun bs => '(len, bs1) ← consensus_decode_partial u64_codec bs; decode_entries (Z.to_nat len) [] bs1).
End ordered.

Definition btreeset_codec {K} (ck : codec K) (le : K -> K -> Prop) `{le_dec : forall a b, Decision (le a b)} :
    codec (list K) :=
  struct_codec (btreemap_codec ck unit_codec le) (map (fun k => (k, ()))) (map fst).

(** ** Derived enums

    A variant with the fields [v] at index [i] is the index followed by the
    length-prefixed encoding of its fields.  An enum with an
    [#[encodable_default]] variant keeps what it does not know. *)
Definition enum_codec {V} (variants : gmap Z (codec V)) (has_default : bool) : codec (enum V) :=
  Codec
    (fun e => match e with
       | Known i v => exists c, variants !! i = Some c /\ is_u64 i /\ valid c v /\
                        Z.of_nat (length (consensus_encode c v)) <= u64_max
       | Default i bytes => has_default = true /\ variants !! i = None /\ is_u64 i /\ valid bytes_codec bytes
       end)
    (fun e => match e with
       | Known i v =>
           let bytes := match variants !! i with Some c => consensus_encode c v | None => [] end in
           consensus_encode u64_codec i ++ consensus_encode bytes_codec bytes
       | Default i bytes => consensus_encode u64_codec i ++ consensus_encode bytes_codec bytes
       end)
    (fun bs =>
       '(variant, bs1) ← consensus_decode_partial u64_codec bs;
       match variants !! variant with
       | Some c =>
           '(bytes, bs2) ← consensus_decode_partial bytes_codec bs1;
           '(v, unread) ← consensus_decode_partial c bytes;
           match unread with
           | [] => Some (Known variant v, bs2)
           | _ => None
           end
       | None =>
           if has_default then
             '(bytes, bs2) ← consensus_decode_partial bytes_codec bs1;
             Some (Default variant bytes, bs2)
           else None
       end).

(** ** Types of modules

    Inputs, outputs and consensus items are the instance id of their module
    followed by their length-prefixed encoding.  A decoder reads from a window
    of [total_len] bytes, and from no more than [MAX_DECODE_SIZE] of them. *)
Definition MAX_DECODE_SIZE : Z := 16000000.

Definition decode_complete {V} (c : codec V) (total_len : Z) (bs : list Z) : option (V * list Z) :=
  let window := take (Z.to_nat (Z.min total_len MAX_DECODE_SIZE)) bs in
  '(val, unread) ← consensus_decode_partial c window;
  let left := total_len - Z.of_nat (length window - length unread) in
  if left =? 0 then Some (val, unread ++ drop (length window) bs) else None.

Section dyn.
Context {V : Type}.
Implicit Types decoders : gmap Z (codec V).

Definition dyn_encode decoders (x : DynRawFallback V) : list Z :=
  match x with
  | Decoded i v =>
      let buf := match decoders !! i with Some c => consensus_encode c v | None => [] end in
      consensus_encode u16_codec i ++ consensus_encode bytes_codec buf
  | Raw i raw => consensus_encode u16_codec i ++ consensus_encode bytes_codec raw
  end.

(** [DynInput] and the like; [DynRawFallback] is the decoder in [Fallback] mode. *)
Definition dyn_decode decoders (mode : DecodingMode) (bs : list Z) : option (DynRawFallback V * list Z) :=
  '(i, bs1) ← consensus_decode_partial u16_codec bs;
  match decoders !! i with
  | Some c =>
      '(total_len, bs2) ← consensus_decode_partial u64_codec bs1;
      '(v, rest) ← decode_complete c total_len bs2;
      Some (Decoded i v, rest)
  | None =>
      match mode with
      | Reject => None
      | Fallback =>
          '(raw, rest) ← consensus_decode_partial bytes_codec bs1;
          Some (Raw i raw, rest)
      end
  end.

Definition redecode_raw decoders (x : DynRawFallback V) : option (DynRawFallback V) :=
  match x with
  | Raw i raw =>
      match decoders !! i with
      | Some c => '(v, _) ← decode_complete c (Z.of_nat (length raw)) raw; Some (Decoded i v)
      | None => Some (Raw i raw)
      end
  | Decoded i v => Some (Decoded i v)
  end.

Definition dyn_valid decoders (mode : DecodingMode) (x : DynRawFallback V) : Prop :=
  match x with
  | Decoded i v => exists c, decoders !! i = Some c /\ valid u16_codec i /\ valid c v /\
                     Z.of_nat (length (consensus_encode c v)) <= MAX_DECODE_SIZE
  | Raw i raw => mode = Fallback /\ decoders !! i = None /\ valid u16_codec i /\ valid bytes_codec raw
  end.

Definition dyn_codec decoders (mode : DecodingMode) : codec (DynRawFallback V) :=
  Codec (dyn_valid decoders mode) (dyn_encode decoders) (dyn_decode decoders mode).
End dyn.
End bigsize.

(** ** Laws *)
Section bigsize_lawful.
Context (BigSize : codec Z) `{!Lawful BigSize} (Hbig : forall x, valid BigSize x <-> is_u64 x).

Lemma num_lawful max : 0 <= max <= u64_max -> Lawful (num_codec BigSize max).
Proof using Type*.
  intros Hmax. assert (forall x, 0 <= x <= max -> valid BigSize x) as Hv by (intros; apply Hbig; unfold is_u64; lia).
  split; simpl.
  - intros x Hx. apply encode_bytes. auto.
  - intros x rest Hx. rewrite decode_encode by auto. simpl. by rewrite (proj2 (Z.leb_le _ _)) by lia.
  - intros bs x rest Hbs H. dec H y bs1 H1. destruct (Z.leb_spec y max); simplify_eq.
    apply encode_decode in H1 as [[? ?]%Hbig ->]; done.
Qed.

#[export] Instance u16_lawful : Lawful (u16_codec BigSize).
Proof using Type*. apply num_lawful. unfold u64_max. lia. Qed.
#[export] Instance u32_lawful : Lawful (u32_codec BigSize).
Proof using Type*. apply num_lawful. unfold u64_max. lia. Qed.
#[export] Instance u64_lawful : Lawful (u64_codec BigSize).
Proof using Type*. apply num_lawful. unfold u64_max. lia. Qed.

#[export] Instance vec_lawful {A} (c : codec A) `{!Lawful c} : Lawful (vec_codec BigSize c).
Proof using Type*.
  split; simpl.
  - intros l [Hlen Hl]. apply Forall_app. split; [|by apply encode_all_bytes].
    apply (encode_bytes (c := u64_codec BigSize)). simpl. lia.
  - intros l rest [Hlen Hl]. unfold len_encode. rewrite <- app_assoc.
    apply bind_Some. exists (Z.of_nat (length l), encode_all c l ++ rest). split.
    + apply (decode_encode (c := u64_codec BigSize)). simpl. lia.
    + simpl. rewrite Nat2Z.id. by apply decode_n_encode.
  - intros bs l rest Hbs H. apply bind_Some in H as ([len bs1] & H1 & H).
    pose proof (decode_rest (u64_codec BigSize) _ _ _ Hbs H1) as Hbs1.
    apply (encode_decode (c := u64_codec BigSize)) in H1 as [Hlen ->]; [|done]. simpl in Hlen.
    apply encode_decode_n in H as (Hl & Hv & ->); [|done|done]. unfold len_encode. rewrite Hl, Z2Nat.id by lia.
    split; [split; [lia|done]|]. by rewrite app_assoc.
Qed.

(** Reading in chunks is reading [len] bytes at once. *)
Lemma read_chunks_exact fuel len bs :
  0 <= len -> (length bs < fuel)%nat ->
  read_chunks fuel len bs =
  if len <=? Z.of_nat (length bs) then Some (take (Z.to_nat len) bs, drop (Z.to_nat len) bs) else None.
Proof.
  revert len bs. induction fuel as [|fuel IH]; intros len bs Hlen Hfuel; [lia|]. cbn [read_chunks].
  destruct (Z.leb_spec len 0).
  { replace len with 0 by lia. rewrite (proj2 (Z.leb_le _ _)) by lia. done. }
  assert (0 < Z.min len CHUNK_SIZE <= len) as Hc by (unfold CHUNK_SIZE; lia).
  set (chunk := Z.min len CHUNK_SIZE) in *.
  destruct (Z.ltb_spec (Z.of_nat (length bs)) chunk); [by rewrite (proj2 (Z.leb_gt _ _)) by lia|].
  rewrite IH by (rewrite ?length_drop; lia). rewrite length_drop.
  destruct (Z.leb_spec len (Z.of_nat (length bs))).
  - rewrite (proj2 (Z.leb_le _ _)) by lia. simpl. rewrite drop_drop, take_take_drop.
    by replace (Z.to_nat chunk + Z.to_nat (len - chunk))%nat with (Z.to_nat len) by lia.
  - by rewrite (proj2 (Z.leb_gt _ _)) by lia.
Qed.

#[export] Instance bytes_lawful : Lawful (bytes_codec BigSize).
Proof using Type*.
  split; cbn [valid consensus_encode consensus_decode_partial bytes_codec].
  - intros l [Hlen Hl]. apply Forall_app. split; [|done].
    apply (encode_bytes (c := u64_codec BigSize)). simpl. lia.
  - intros l rest [Hlen Hl]. unfold len_encode. rewrite <- app_assoc.
    rewrite (decode_encode (c := u64_codec BigSize)) by (simpl; lia). cbn [mbind option_bind].
    rewrite read_chunks_exact, (proj2 (Z.leb_le _ _)) by (rewrite ?length_app; lia).
    rewrite Nat2Z.id. by rewrite take_app_length, drop_app_length.
  - intros bs l rest Hbs H. apply bind_Some in H as ([len bs1] & H1 & H).
    pose proof (decode_rest (u64_codec BigSize) _ _ _ Hbs H1) as Hbs1.
    apply (encode_decode (c := u64_codec BigSize)) in H1 as [Hlen ->]; [|done]. simpl in Hlen.
    rewrite read_chunks_exact in H by lia. destruct (Z.leb_spec len (Z.of_nat (length bs1))); [|done].
    injection H as <- <-. unfold len_encode. rewrite length_take, Nat.min_l, Z2Nat.id by lia.
    split; [split; [lia|by apply Forall_take]|]. by rewrite <- app_assoc, take_drop.
Qed.

Section ordered_lawful.
Context {K V : Type} (ck : codec K) (cv : codec V) `{!Lawful ck, !Lawful cv}.
Context (le : K -> K -> Prop) `{le_dec : forall a b, Decision (le a b)}.

(** What is left of a sorted list after the entries already read. *)
Definition continues (acc l : list (K * V)) : Prop :=
  Sorted (key_lt le) l /\ forall e, head l = Some e -> key_after le acc e.1.

Lemma continues_cons acc e l :
  continues acc (e :: l) <-> key_after le acc e.1 /\ continues (acc ++ [e]) l.
Proof.
  unfold continues, key_after. rewrite last_snoc. simpl. split.
  - intros [[Hs Hh]%Sorted_inv He]. split_and!; [by apply He|done|].
    intros e' H. destruct l; simplify_eq/=. by inversion Hh.
  - intros (Hk & Hs & Hh). split; [constructor; [done|]|by intros ? [= <-]].
    destruct l; constructor. by apply (Hh p).
Qed.

Lemma decode_entries_encode l acc rest :
  Forall (valid (pair_codec ck cv)) l -> continues acc l ->
  decode_entries ck cv le (length l) acc (encode_all (pair_codec ck cv) l ++ rest) = Some (acc ++ l, rest).
Proof using Type*.
  revert acc. induction l as [|[k v] l IH]; intros acc Hv Hc; [by rewrite app_nil_r|].
  apply Forall_cons in Hv as [[Hk Hvv] Hl]. apply continues_cons in Hc as [Ha Hc].
  rewrite encode_all_cons. simpl. rewrite <- !app_assoc, decode_encode by done. simpl.
  rewrite decide_True by done. rewrite decode_encode by done. simpl.
  rewrite IH by done. by rewrite <- app_assoc.
Qed.

Lemma encode_decode_entries n acc bs m rest :
  Forall is_byte bs -> decode_entries ck cv le n acc bs = Some (m, rest) ->
  exists l, m = acc ++ l /\ length l = n /\ Forall (valid (pair_codec ck cv)) l /\ continues acc l /\
    bs = encode_all (pair_codec ck cv) l ++ rest.
Proof using Type*.
  revert acc bs. induction n as [|n IH]; intros acc bs Hbs H; simpl in H.
  { simplify_eq. exists []. rewrite app_nil_r. do 3 (split; [done|]). by split. }
  dec H k bs1 H1. pose proof (decode_rest ck _ _ _ Hbs H1) as Hbs1. dec_by H1.
  case_decide as Hk; [|done]. dec H v bs2 H2. pose proof (decode_rest cv _ _ _ Hbs1 H2) as Hbs2. dec_by H2.
  apply IH in H as (l & -> & <- & Hl & Hc & ->); [|done].
  exists ((k, v) :: l). rewrite <- app_assoc, encode_all_cons. simpl. rewrite <- !app_assoc.
  split; [done|]. split; [done|]. split; [by constructor|]. split; [by apply continues_cons|done].
Qed.

#[export] Instance btreemap_lawful : Lawful (btreemap_codec BigSize ck cv le).
Proof using Type*.
  split; simpl.
  - intros l (Hlen & Hl & _). apply Forall_app. split; [|by apply (encode_all_bytes (pair_codec ck cv))].
    apply (encode_bytes (c := u64_codec BigSize)). simpl. lia.
  - intros l rest (Hlen & Hl & Hs). unfold len_encode. rewrite <- app_assoc.
    apply bind_Some. eexists (Z.of_nat (length l), _). split.
    + apply (decode_encode (c := u64_codec BigSize)). simpl. lia.
    + simpl. rewrite Nat2Z.id. apply decode_entries_encode; [done|]. by split.
  - intros bs l rest Hbs H. apply bind_Some in H as ([len bs1] & H1 & H).
    pose proof (decode_rest (u64_codec BigSize) _ _ _ Hbs H1) as Hbs1.
    apply (encode_decode (c := u64_codec BigSize)) in H1 as [Hlen ->]; [|done]. simpl in Hlen.
    apply encode_decode_entries in H as (l' & -> & Hl & Hv & [Hs _] & ->); [|done].
    unfold len_encode. simpl. rewrite Hl, Z2Nat.id by lia.
    split_and!; [lia|done..|]. by rewrite app_assoc.
Qed.
End ordered_lawful.

#[export] Instance btreeset_lawful {K} (ck : codec K) `{!Lawful ck} (le : K -> K -> Prop)
    `{le_dec : forall a b, Decision (le a b)} : Lawful (btreeset_codec BigSize ck le).
Proof using Type*.
  apply struct_lawful; [by apply btreemap_lawful; try exact _| |].
  - intros l. rewrite map_map. rewrite <- (map_id l) at 2. apply map_ext. by intros [k []].
  - intros l. rewrite map_map. apply map_id.
Qed.

Section enum_lawful.
Context {V : Type} (variants : gmap Z (codec V)) (has_default : bool).
Context (Hlaw : forall i c, variants !! i = Some c -> Lawful c).

(** Index and length-prefixed payload, whatever the variant. *)
Let raw : codec (Z * list Z) := pair_codec (u64_codec BigSize) (bytes_codec BigSize).

Definition enum_raw (e : enum V) : Z * list Z :=
  match e with
  | Known i v => (i, match variants !! i with Some c => consensus_encode c v | None => [] end)
  | Default i bytes => (i, bytes)
  end.

Definition enum_of_raw (r : Z * list Z) : option (enum V) :=
  match variants !! r.1 with
  | Some c => Known r.1 <$> consensus_decode_whole c r.2
  | None => if has_default then Some (Default r.1 r.2) else None
  end.

Lemma enum_encode_raw e : consensus_encode (enum_codec BigSize variants has_default) e = consensus_encode raw (enum_raw e).
Proof. by destruct e. Qed.

Lemma enum_decode_raw bs :
  consensus_decode_partial (enum_codec BigSize variants has_default) bs =
  '(r, rest) ← consensus_decode_partial raw bs; e ← enum_of_raw r; Some (e, rest).
Proof.
  cbn [consensus_decode_partial enum_codec raw pair_codec]. unfold enum_of_raw, consensus_decode_whole.
  destruct (consensus_decode_partial (u64_codec BigSize) bs) as [[i bs1]|]; [|done]. cbn [mbind option_bind].
  destruct (variants !! i) as [c|] eqn:Hi; destruct (consensus_decode_partial (bytes_codec BigSize) bs1) as [[bytes bs2]|];
    cbn [mbind option_bind fst snd]; rewrite ?Hi; try by destruct has_default.
  by destruct (consensus_decode_partial c bytes) as [[v [|]]|].
Qed.

Lemma enum_valid_raw e :
  valid (enum_codec BigSize variants has_default) e <->
  valid raw (enum_raw e) /\ enum_of_raw (enum_raw e) = Some e.
Proof using Hlaw.
  destruct e as [i v|i bytes]; unfold enum_of_raw; simpl; unfold is_u64; split.
  - intros (c & Hi & Hi64 & Hv & Hlen). pose proof (Hlaw _ _ Hi). rewrite Hi.
    pose proof (encode_bytes v Hv). split; [done|].
    by rewrite (proj2 (decode_whole_iff c _ v ltac:(done))).
  - intros [(Hi64 & Hlen & Hb) H]. destruct (variants !! i) as [c|] eqn:Hi; [|by destruct has_default].
    exists c. pose proof (Hlaw _ _ Hi). apply fmap_Some in H as (v' & H & [= ->]).
    apply decode_whole_iff in H as [Hv _]; [done..|exact Hb].
  - intros (-> & -> & ?). done.
  - intros [? H]. destruct (variants !! i) eqn:Hi; [by destruct (consensus_decode_whole _ _)|]. by destruct has_default.
Qed.

Lemma enum_of_raw_raw r e : Forall is_byte r.2 -> enum_of_raw r = Some e -> enum_raw e = r.
Proof using Hlaw.
  destruct r as [i bytes]. unfold enum_of_raw. simpl. intros Hb H. destruct (variants !! i) as [c|] eqn:Hi.
  - apply fmap_Some in H as (v & H & ->). pose proof (Hlaw _ _ Hi). simpl. rewrite Hi.
    by apply decode_whole_iff in H as [_ ->].
  - destruct has_default; by simplify_eq.
Qed.

#[export] Instance enum_lawful : Lawful (enum_codec BigSize variants has_default).
Proof using Type*.
  split.
  - intros e [Hv _]%enum_valid_raw. rewrite enum_encode_raw. by apply (encode_bytes (c := raw)).
  - intros e rest [Hv He]%enum_valid_raw.
    by rewrite enum_encode_raw, enum_decode_raw, (decode_encode (c := raw)); simpl; [rewrite He|].
  - intros bs e rest Hbs. rewrite enum_decode_raw, enum_encode_raw, enum_valid_raw. intros H.
    apply bind_Some in H as ([r bs1] & H1 & H). apply bind_Some in H as (e' & H2 & [= <- <-]).
    apply (encode_decode (c := raw)) in H1 as [Hr ->]; [|done].
    pose proof (enum_of_raw_raw r e' (proj2 (proj2 Hr)) H2) as ->. done.
Qed.
End enum_lawful.

(** A decoder that reads a window whole has read exactly one encoding. *)
Lemma decode_complete_encode {V} (c : codec V) `{!Lawful c} v rest :
  valid c v -> Z.of_nat (length (consensus_encode c v)) <= MAX_DECODE_SIZE ->
  decode_complete c (Z.of_nat (length (consensus_encode c v))) (consensus_encode c v ++ rest) = Some (v, rest).
Proof.
  intros Hv Hmax. unfold decode_complete. rewrite Z.min_l, Nat2Z.id, take_app_length by lia.
  pose proof (decode_encode v [] Hv) as Hd. rewrite app_nil_r in Hd. rewrite Hd. simpl.
  rewrite (proj2 (Z.eqb_eq _ _)) by lia. by rewrite drop_app_length.
Qed.

Lemma decode_complete_Some {V} (c : codec V) `{!Lawful c} total_len bs v rest :
  Forall is_byte bs -> 0 <= total_len ->
  decode_complete c total_len bs = Some (v, rest) <->
  valid c v /\ Z.of_nat (length (consensus_encode c v)) = total_len /\ total_len <= MAX_DECODE_SIZE /\
  bs = consensus_encode c v ++ rest.
Proof.
  intros Hbs Hlen. split; [|intros (Hv & <- & Hmax & ->); by apply decode_complete_encode].
  unfold decode_complete. set (n := Z.to_nat (Z.min total_len MAX_DECODE_SIZE)).
  assert (Z.of_nat n = Z.min total_len MAX_DECODE_SIZE) as Hn by (unfold n, MAX_DECODE_SIZE; lia). clearbody n.
  intros H. apply bind_Some in H as ([v' unread] & H1 & H).
  assert (Forall is_byte (take n bs)) as Hw by by apply Forall_take.
  apply encode_decode in H1 as [Hv H1]; [|done]. pose proof (f_equal length H1) as Hl.
  rewrite length_app in Hl. rewrite length_take in *.
  destruct (Z.eqb_spec (total_len - Z.of_nat (n `min` length bs - length unread)) 0) as [Hleft|]; [|done].
  injection H as -> <-. destruct unread; simpl in *; [|lia].
  rewrite app_nil_r in H1. split_and!; [done|lia|lia|]. rewrite <- H1.
  rewrite Nat.min_l by lia. by rewrite take_drop.
Qed.

(** Reading a window off the stream is reading its bytes first. *)
Lemma decode_complete_bytes {V} (c : codec V) `{!Lawful c} bs :
  Forall is_byte bs ->
  ('(total_len, bs1) ← consensus_decode_partial (u64_codec BigSize) bs; decode_complete c total_len bs1) =
  ('(raw, rest) ← consensus_decode_partial (bytes_codec BigSize) bs;
   '(v, _) ← decode_complete c (Z.of_nat (length raw)) raw; Some (v, rest)).
Proof using Type*.
  intros Hbs. cbn [consensus_decode_partial bytes_codec].
  destruct (consensus_decode_partial (u64_codec BigSize) bs) as [[len bs1]|] eqn:H1; [|done].
  pose proof (decode_rest (u64_codec BigSize) _ _ _ Hbs H1) as Hbs1.
  apply (encode_decode (c := u64_codec BigSize)) in H1 as [Hlen _]; [|done]. cbn [mbind option_bind].
  simpl in Hlen. rewrite read_chunks_exact by lia. apply option_eq. intros [v rest].
  rewrite decode_complete_Some by (done || lia).
  destruct (Z.leb_spec len (Z.of_nat (length bs1))) as [Hle|Hlt]; cbn [mbind option_bind].
  - rewrite length_take, Nat.min_l, Z2Nat.id by lia. split.
    + intros (Hv & Hl & Hmax & ->). apply bind_Some. exists (v, []). rewrite take_app_length', drop_app_length' by lia.
      split; [|done].
      pose proof (decode_complete_encode c v [] Hv ltac:(lia)) as Hd. by rewrite app_nil_r, Hl in Hd.
    + intros H. apply bind_Some in H as ([v' r] & H & [= -> <-]).
      apply (decode_complete_Some c) in H as (Hv & Hl & Hmax & Ht); [|by apply Forall_take|lia].
      split_and!; [done..|]. pose proof (f_equal length Ht) as Hlt. rewrite length_take, length_app in Hlt.
      destruct r; simpl in *; [|lia]. rewrite app_nil_r in Ht. by rewrite <- Ht, take_drop.
  - split; [|done]. intros (_ & Hl & _ & ->). rewrite length_app in Hlt. lia.
Qed.

Section dyn_lawful.
Context {V : Type}.
Implicit Types decoders : gmap Z (codec V).

Let raw : codec (Z * list Z) := pair_codec (u16_codec BigSize) (bytes_codec BigSize).

Definition dyn_raw decoders (x : DynRawFallback V) : Z * list Z :=
  match x with
  | Decoded i v => (i, match decoders !! i with Some c => consensus_encode c v | None => [] end)
  | Raw i r => (i, r)
  end.

Definition dyn_of_raw decoders mode (r : Z * list Z) : option (DynRawFallback V) :=
  match decoders !! r.1, mode with
  | None, Reject => None
  | _, _ => redecode_raw decoders (Raw r.1 r.2)
  end.

Lemma dyn_encode_raw decoders x : dyn_encode BigSize decoders x = consensus_encode raw (dyn_raw decoders x).
Proof. by destruct x. Qed.

Lemma dyn_decode_raw decoders mode bs :
  (forall i c, decoders !! i = Some c -> Lawful c) -> Forall is_byte bs ->
  dyn_decode BigSize decoders mode bs =
  '(r, rest) ← consensus_decode_partial raw bs; x ← dyn_of_raw decoders mode r; Some (x, rest).
Proof using Type*.
  intros Hlaw Hbs. unfold dyn_decode, dyn_of_raw. cbn [consensus_decode_partial raw pair_codec].
  destruct (consensus_decode_partial (u16_codec BigSize) bs) as [[i bs1]|] eqn:H1; [|done].
  apply (decode_rest (u16_codec BigSize)) in H1; [|done]. cbn [mbind option_bind].
  destruct (decoders !! i) as [c|] eqn:Hi.
  - pose proof (Hlaw _ _ Hi). pose proof (decode_complete_bytes c bs1 H1) as H2.
    destruct (consensus_decode_partial (u64_codec BigSize) bs1) as [[len bs2]|];
      destruct (consensus_decode_partial (bytes_codec BigSize) bs1) as [[r rest]|];
      cbn [mbind option_bind fst snd redecode_raw] in *; rewrite ?Hi; [rewrite H2|by rewrite H2| |done];
      destruct (decode_complete c (Z.of_nat (length r)) r) as [[??]|]; done.
  - destruct mode; destruct (consensus_decode_partial (bytes_codec BigSize) bs1) as [[r rest]|];
      cbn [mbind option_bind fst snd redecode_raw]; by rewrite ?Hi.
Qed.

Lemma dyn_valid_raw decoders mode x :
  (forall i c, decoders !! i = Some c -> Lawful c) ->
  dyn_valid BigSize decoders mode x <->
  valid raw (dyn_raw decoders x) /\ dyn_of_raw decoders mode (dyn_raw decoders x) = Some x.
Proof using Type*.
  intros Hlaw. unfold dyn_of_raw. destruct x as [i v|i r]; simpl; split.
  - intros (c & Hi & Hi16 & Hv & Hlen). pose proof (Hlaw _ _ Hi). rewrite Hi. pose proof (encode_bytes v Hv).
    split; [split; [done|split; [unfold MAX_DECODE_SIZE, u64_max in *; lia|done]]|].
    pose proof (decode_complete_encode c v [] Hv Hlen) as Hd. rewrite app_nil_r in Hd. by rewrite Hd.
  - intros [(Hi16 & Hlen & Hb) H]. destruct (decoders !! i) as [c|] eqn:Hi; [|by destruct mode].
    exists c. pose proof (Hlaw _ _ Hi). apply bind_Some in H as ([v' r] & H & [= ->]).
    apply (decode_complete_Some c) in H as (Hv & _ & Hl & _); [done|exact Hb|lia].
  - intros (-> & -> & ?). done.
  - intros [? H]. destruct (decoders !! i) eqn:Hi; [|by destruct mode].
    apply bind_Some in H as ([??] & _ & ?). done.
Qed.

Lemma dyn_of_raw_raw decoders mode r x :
  (forall i c, decoders !! i = Some c -> Lawful c) ->
  Forall is_byte r.2 -> dyn_of_raw decoders mode r = Some x -> dyn_raw decoders x = r.
Proof.
  intros Hlaw. destruct r as [i bytes]. unfold dyn_of_raw. simpl. intros Hb H. destruct (decoders !! i) as [c|] eqn:Hi.
  - pose proof (Hlaw _ _ Hi). apply bind_Some in H as ([v r] & H & [= <-]). simpl. rewrite Hi.
    apply (decode_complete_Some c) in H as (_ & Hl & _ & ->); [|done|lia].
    rewrite length_app in Hl. destruct r; simpl in *; [|lia]. by rewrite app_nil_r.
  - destruct mode; by simplify_eq.
Qed.

Lemma dyn_decode_encode decoders mode x rest :
  (forall i c, decoders !! i = Some c -> Lawful c) -> dyn_valid BigSize decoders mode x ->
  dyn_decode BigSize decoders mode (dyn_encode BigSize decoders x ++ rest) = Some (x, rest).
Proof using Type*.
  intros Hlaw. destruct x as [i v|i r]; unfold dyn_encode, dyn_decode.
  - intros (c & Hi & Hi16 & Hv & Hlen). pose proof (Hlaw _ _ Hi).
    rewrite <- app_assoc, (decode_encode (c := u16_codec BigSize)) by done. cbn [mbind option_bind].
    rewrite Hi. cbn [consensus_encode bytes_codec]. unfold len_encode.
    rewrite <- app_assoc, (decode_encode (c := u64_codec BigSize)) by (simpl; unfold MAX_DECODE_SIZE, u64_max in *; lia).
    cbn [mbind option_bind]. by rewrite decode_complete_encode.
  - intros (-> & Hi & Hi16 & Hr). rewrite <- app_assoc, (decode_encode (c := u16_codec BigSize)) by done.
    cbn [mbind option_bind]. by rewrite Hi, (decode_encode (c := bytes_codec BigSize)).
Qed.

Lemma dyn_lawful decoders mode :
  (forall i c, decoders !! i = Some c -> Lawful c) -> Lawful (dyn_codec BigSize decoders mode).
Proof using Type*.
  intros Hlaw. split; cbn [valid consensus_encode consensus_decode_partial dyn_codec].
  - intros x [Hv _]%dyn_valid_raw; [|done]. rewrite dyn_encode_raw. by apply (encode_bytes (c := raw)).
  - intros x rest. by apply dyn_decode_encode.
  - intros bs x rest Hbs. rewrite dyn_decode_raw, dyn_encode_raw, dyn_valid_raw by done. intros H.
    apply bind_Some in H as ([r bs1] & H1 & H). apply bind_Some in H as (x' & H2 & [= <- <-]).
    apply (encode_decode (c := raw)) in H1 as [Hr ->]; [|done].
    pose proof (dyn_of_raw_raw decoders mode r x' Hlaw (proj2 (proj2 Hr)) H2) as ->. done.
Qed.

Lemma redecode_raw_twice decoders decoders' i r :
  decoders ⊆ decoders' ->
  (x ← redecode_raw decoders (Raw i r); redecode_raw decoders' x) = redecode_raw decoders' (Raw i r).
Proof.
  intros Hsub. simpl. destruct (decoders !! i) as [c|] eqn:Hi; [|done].
  rewrite (lookup_weaken _ _ _ _ Hi Hsub). by destruct (decode_complete _ _ _) as [[??]|].
Qed.
End dyn_lawful.
End bigsize_lawful.

(** ** What a byte string decodes to *)
Section canonical.
Context (BigSize : codec Z) `{!Lawful BigSize} (Hbig : forall x, valid BigSize x <-> is_u64 x).

(** A [BTreeMap] has exactly one encoding.  Over key and value types with
    that property, [consensus_decode_whole] accepts a byte string exactly when
    it is the encoding of the map it returns: the keys are strictly
    increasing, there are at most [u64::MAX] of them, and no byte is left.
    Entries that are repeated or out of order are therefore rejected. *)
Theorem btreemap_canonical {K V} (ck : codec K) (cv : codec V) `{!Lawful ck, !Lawful cv}
    (le : K -> K -> Prop) `{le_dec : forall a b, Decision (le a b)} bs m :
  Forall is_byte bs ->
  consensus_decode_whole (btreemap_codec BigSize ck cv le) bs = Some m <->
  Z.of_nat (length m) <= u64_max /\ Forall (fun e => valid ck e.1 /\ valid cv e.2) m /\
  Sorted (key_lt le) m /\
  bs = len_encode BigSize m ++ encode_all (pair_codec ck cv) m.
Proof using Type*.
  intros Hbs. pose proof (btreemap_lawful BigSize Hbig ck cv le). rewrite decode_whole_iff by done. simpl. tauto.
Qed.

(** A derived enum has exactly one encoding.  Over variants with that
    property, [consensus_decode_whole] accepts a byte string exactly when it
    is the encoding of the value it returns, and it returns the default
    variant only for an index no other variant has, and only when the enum
    declares one: a guardian that does not know a variant writes back the
    bytes it read. *)
Theorem derived_enum_canonical {V} (variants : gmap Z (codec V)) (has_default : bool) bs e :
  (forall i c, variants !! i = Some c -> Lawful c) -> Forall is_byte bs ->
  (consensus_decode_whole (enum_codec BigSize variants has_default) bs = Some e ->
     consensus_encode (enum_codec BigSize variants has_default) e = bs /\
     match e with
     | Known i v => exists c, variants !! i = Some c /\ valid c v
     | Default i _ => has_default = true /\ variants !! i = None
     end) /\
  (valid (enum_codec BigSize variants has_default) e ->
     consensus_decode_whole (enum_codec BigSize variants has_default)
       (consensus_encode (enum_codec BigSize variants has_default) e) = Some e).
Proof using Type*.
  intros Hlaw Hbs. pose proof (enum_lawful BigSize Hbig variants has_default Hlaw). split.
  - intros He. apply decode_whole_iff in He as [Hv ->]; [|done..]. split; [done|]. destruct e; simpl in Hv; [|tauto].
    destruct Hv as (c & ? & _ & ? & _). eauto.
  - intros Hv. apply decode_whole_iff; [done|by apply encode_bytes|]. split; [exact Hv|reflexivity].
Qed.

(** A value of a module can be decoded late.  Reading it without some of
    the decoders and calling [redecode_raw] once they are available gives what
    reading it with all of them at first gives: the same value, the same
    bytes left and the same inputs rejected, also when a declared length is
    longer than the input or than [MAX_DECODE_SIZE]. *)
Theorem redecode_consistent {V} (decoders decoders' : gmap Z (codec V)) bs :
  (forall i c, decoders' !! i = Some c -> Lawful c) -> decoders ⊆ decoders' -> Forall is_byte bs ->
  ('(x, rest) ← dyn_decode BigSize decoders Fallback bs; y ← redecode_raw decoders' x; Some (y, rest)) =
  dyn_decode BigSize decoders' Fallback bs.
Proof using Type*.
  intros Hlaw Hsub Hbs. assert (forall i c, decoders !! i = Some c -> Lawful c) as Hlaw'.
  { intros i c Hi. apply (Hlaw i). by eapply lookup_weaken. }
  rewrite !dyn_decode_raw by done. destruct (consensus_decode_partial _ bs) as [[[i r] rest]|]; [|done].
  cbn [mbind option_bind].
  assert (forall d : gmap Z (codec V), dyn_of_raw d Fallback (i, r) = redecode_raw d (Raw i r)) as Hraw.
  { intros d. unfold dyn_of_raw. simpl. by destruct (d !! i). }
  rewrite !Hraw, <- (redecode_raw_twice decoders decoders' i r Hsub).
  by destruct (redecode_raw decoders (Raw i r)).
Qed.
End canonical.

(** ** An instance of [BigSize]: the variable-length integers of BOLT 1 *)
Module Bolt.

Definition be_codec (n : nat) (min : Z) : codec Z :=
  Codec (fun x => min <= x < 256 ^ Z.of_nat n) (to_be_bytes n)
    (fun bs => if decide (n <= length bs)%nat then
                 let x := from_be_bytes (take n bs) in
                 if min <=? x then Some (x, drop n bs) else None
               else None).

Lemma be_lawful n min : 0 <= min -> Lawful (be_codec n min).
Proof.
  intros Hmin. split; simpl.
  - intros x _. apply to_be_bytes_ok.
  - intros x rest Hx. rewrite decide_True by (rewrite length_app, to_be_bytes_length; lia).
    rewrite take_app_length', drop_app_length' by (symmetry; apply to_be_bytes_length). rewrite from_to_be_bytes by lia.
    by rewrite (proj2 (Z.leb_le _ _)) by lia.
  - intros bs x rest Hbs H. case_decide as Hn; [|done].
    destruct (Z.leb_spec min (from_be_bytes (take n bs))); simplify_eq.
    assert (length (take n bs) = n) as Hlen by (rewrite length_take; lia).
    assert (Forall is_byte (take n bs)) as Hb by by apply Forall_take.
    pose proof (from_be_bytes_range _ Hb) as Hr. rewrite Hlen in Hr. split; [lia|].
    pose proof (to_from_be_bytes _ Hb) as Ht. rewrite Hlen in Ht. by rewrite Ht, take_drop.
Qed.

Definition big_size : codec Z :=
  Codec is_u64
    (fun x => if x <? 253 then [x]
              else if x <? 65536 then 253 :: to_be_bytes 2 x
              else if x <? 4294967296 then 254 :: to_be_bytes 4 x
              else 255 :: to_be_bytes 8 x)
    (fun bs => match bs with
       | [] => None
       | n :: bs' =>
           if n =? 255 then consensus_decode_partial (be_codec 8 4294967296) bs'
           else if n =? 254 then consensus_decode_partial (be_codec 4 65536) bs'
           else if n =? 253 then consensus_decode_partial (be_codec 2 253) bs'
           else Some (n, bs')
       end).

#[export] Instance big_size_lawful : Lawful big_size.
Proof.
  pose proof (be_lawful 8 4294967296 ltac:(lia)) as L8. pose proof (be_lawful 4 65536 ltac:(lia)) as L4.
  pose proof (be_lawful 2 253 ltac:(lia)) as L2. unfold big_size, is_u64, u64_max. split; cbn [valid consensus_encode consensus_decode_partial].
  - intros x Hx. destruct (Z.ltb_spec x 253); [by apply Forall_singleton; unfold is_byte; lia|].
    repeat case_match; constructor; try apply to_be_bytes_ok; unfold is_byte; lia.
  - intros x rest Hx. destruct (Z.ltb_spec x 253).
    { simpl. rewrite !(proj2 (Z.eqb_neq x _)) by lia. done. }
    destruct (Z.ltb_spec x 65536); [apply (decode_encode (c := be_codec 2 253)); simpl; lia|].
    destruct (Z.ltb_spec x 4294967296); [apply (decode_encode (c := be_codec 4 65536)); simpl; lia|].
    apply (decode_encode (c := be_codec 8 4294967296)). simpl. lia.
  - intros [|n bs] x rest Hbs H; [done|]. apply Forall_cons in Hbs as [Hn Hbs]. unfold is_byte in Hn.
    destruct (Z.eqb_spec n 255) as [->|]; [|destruct (Z.eqb_spec n 254) as [->|]; [|destruct (Z.eqb_spec n 253) as [->|]]].
    1-3: apply encode_decode in H as [Hx ->]; [|done]; cbn in Hx; split; [lia|].
    { by rewrite !(proj2 (Z.ltb_ge x _)) by lia. }
    { by rewrite !(proj2 (Z.ltb_ge x _)), (proj2 (Z.ltb_lt x _)) by lia. }
    { by rewrite (proj2 (Z.ltb_ge x _)), (proj2 (Z.ltb_lt x _)) by lia. }
    simplify_eq. split; [lia|]. by rewrite (proj2 (Z.ltb_lt _ _)) by lia.
Qed.

Lemma big_size_u64 x : valid big_size x <-> is_u64 x.
Proof. done. Qed.
End Bolt.

Module EncodingExample.
Import Bolt.

Lemma btreemap_canonical_witness :
  consensus_decode_whole (btreemap_codec big_size u8_codec u8_codec Z.le) [2; 1; 10; 3; 30] = Some [(1, 10); (3, 30)].
Proof.
  apply (btreemap_canonical big_size big_size_u64 u8_codec u8_codec Z.le).
  - repeat constructor; unfold is_byte; lia.
  - split; [vm_compute; discriminate|]. split; [repeat constructor; simpl; unfold is_byte; lia|].
    split; [|reflexivity]. repeat constructor. unfold key_lt. simpl. lia.
Defined.

(** An enum with one known variant and a default one reads a variant it does
    not know. *)
Definition two_variants : gmap Z (codec Z) := {[ 0 := u8_codec ]}.

Lemma derived_enum_canonical_witness :
  consensus_encode (enum_codec big_size two_variants true) (Default 7 [1; 2]) = [7; 2; 1; 2] /\
  true = true /\ two_variants !! 7 = None.
Proof.
  apply (derived_enum_canonical big_size big_size_u64 two_variants true [7; 2; 1; 2] (Default 7 [1; 2])).
  - intros i c Hi. unfold two_variants in Hi. apply lookup_singleton_Some in Hi as [_ <-]. exact u8_lawful.
  - repeat constructor; unfold is_byte; lia.
  - vm_compute. reflexivity.
Defined.

Lemma redecode_consistent_witness :
  ('(x, rest) ← dyn_decode big_size (∅ : gmap Z (codec Z)) Fallback [0; 1; 9; 5];
   y ← redecode_raw two_variants x; Some (y, rest)) = Some (Decoded 0 9, [5]).
Proof.
  rewrite (redecode_consistent big_size big_size_u64 ∅ two_variants [0; 1; 9; 5]).
  - vm_compute. reflexivity.
  - intros i c Hi. unfold two_variants in Hi. apply lookup_singleton_Some in Hi as [_ <-]. exact u8_lawful.
  - apply map_empty_subseteq.
  - repeat constructor; unfold is_byte; lia.
Defined.
End EncodingExample.
