(* ===== verification/Db.v ===== *)
(** * Typed database access

    The typed operations of [fedimint-core/src/db/mod.rs]
    ([IDatabaseTransactionOpsCoreTyped]).  A database transaction of a
    component is a record with one finite map per [DbKeyPrefix]; [table] names
    one of these maps, the way a key type with its [impl_db_record!] names a
    prefix.  [RawDb] relates the tables to the byte-level key-value store. *)

From S2P Require Import Prelude.

(** Why the backend refuses an operation or a commit. *)
Inductive DatabaseError :=
| WriteConflict
| SnapshotTooOld
| TransactionConsumed
| DatabaseBackend
| NotGlobal
| NotIsolated.

Record table (S K V : Type) `{Countable K} := Table {
  tab : S -> gmap K V;
  upd : (gmap K V -> gmap K V) -> S -> S;
}.
Arguments Table {_ _ _ _ _} _ _.
Arguments tab {_ _ _ _ _} _ _.
Arguments upd {_ _ _ _ _} _ _ _.

Section typed_ops.
Context {S K V E : Type} `{Countable K} (t : table S K V).

Definition get_value (k : K) : M S E (option V) := fun s => (Ok (tab t s !! k), s).

(** Returns the value that was replaced. *)
Definition insert_entry (k : K) (v : V) : M S E (option V) := fun s =>
  (Ok (tab t s !! k), upd t <[k := v]> s).

(** Panics when the key is present. *)
Definition insert_new_entry (k : K) (v : V) : M S E unit :=
  prev ← insert_entry k v;
  match prev with
  | Some _ => panic
  | None => mret tt
  end.

Definition remove_entry (k : K) : M S E (option V) := fun s =>
  (Ok (tab t s !! k), upd t (delete k) s).

(** [find_by_prefix] on the prefix of the whole table. *)
Definition find_all : M S E (list (K * V)) := fun s => (Ok (map_to_list (tab t s)), s).

(** [remove_by_prefix]; the prefix is given by the keys it covers. *)
Definition remove_by_prefix (P : K -> Prop) `{forall k, Decision (P k)} : M S E unit := fun s =>
  (Ok tt, upd t (filter (fun kv => ~ P kv.1)) s).

Lemma get_value_Ok k s o s' : get_value k s = (Ok o, s') <-> o = tab t s !! k /\ s' = s.
Proof. unfold get_value. naive_solver. Qed.

Lemma insert_entry_Ok k v s o s' :
  insert_entry k v s = (Ok o, s') <-> o = tab t s !! k /\ s' = upd t <[k := v]> s.
Proof. unfold insert_entry. naive_solver. Qed.

Lemma insert_new_entry_Ok k v s u s' :
  insert_new_entry k v s = (Ok u, s') <-> tab t s !! k = None /\ s' = upd t <[k := v]> s.
Proof.
  unfold insert_new_entry, insert_entry, mbind, M_bind.
  destruct (tab t s !! k) eqn:Hk, u; unfold panic, mret, M_ret; naive_solver.
Qed.

Lemma remove_entry_Ok k s o s' :
  remove_entry k s = (Ok o, s') <-> o = tab t s !! k /\ s' = upd t (delete k) s.
Proof. unfold remove_entry. naive_solver. Qed.

Lemma find_all_Ok s l s' : find_all s = (Ok l, s') <-> l = map_to_list (tab t s) /\ s' = s.
Proof. unfold find_all. naive_solver. Qed.

Lemma remove_by_prefix_Ok (P : K -> Prop) `{forall k, Decision (P k)} s u s' :
  remove_by_prefix P s = (Ok u, s') <-> s' = upd t (filter (fun kv => ~ P kv.1)) s.
Proof. unfold remove_by_prefix. destruct u. naive_solver. Qed.

(** When the key is absent the insertion of a new entry goes through. *)
Lemma insert_new_entry_fresh k v s :
  tab t s !! k = None -> insert_new_entry k v s = (Ok tt, upd t <[k := v]> s).
Proof. intros Hk. unfold insert_new_entry, insert_entry, mbind, M_bind. by rewrite Hk. Qed.
Lemma no_panic_get_value k s : no_panic (get_value k) s.
Proof. done. Qed.
Lemma no_panic_insert_entry k v s : no_panic (insert_entry k v) s.
Proof. done. Qed.
Lemma no_panic_remove_entry k s : no_panic (remove_entry k) s.
Proof. done. Qed.
Lemma no_panic_remove_by_prefix (P : K -> Prop) `{forall k, Decision (P k)} s : no_panic (remove_by_prefix P) s.
Proof. done. Qed.
Lemma no_panic_insert_new_entry k v s : tab t s !! k = None -> no_panic (insert_new_entry k v) s.
Proof. intros Hk. unfold no_panic. by rewrite insert_new_entry_fresh. Qed.
End typed_ops.

#[export] Hint Resolve no_panic_get_value no_panic_insert_entry no_panic_remove_entry no_panic_remove_by_prefix : fedimint.

(** Removing the whole table. *)
Lemma filter_all_removed {K V} `{Countable K} (m : gmap K V) : filter (fun _ => ~ True) m = ∅.
Proof. apply map_empty. intros k. apply map_lookup_filter_None. right. tauto. Qed.

(** [mrun] for database computations. *)
Ltac dbrun_step :=
  match goal with
  | H : get_value _ _ _ = (Ok _, _) |- _ => apply get_value_Ok in H as [? ?]
  | H : insert_entry _ _ _ _ = (Ok _, _) |- _ => apply insert_entry_Ok in H as [? ?]
  | H : insert_new_entry _ _ _ _ = (Ok _, _) |- _ => apply insert_new_entry_Ok in H as [? ?]
  | H : remove_entry _ _ _ = (Ok _, _) |- _ => apply remove_entry_Ok in H as [? ?]
  | H : find_all _ _ = (Ok _, _) |- _ => apply find_all_Ok in H as [? ?]
  | H : remove_by_prefix _ _ _ = (Ok _, _) |- _ => apply remove_by_prefix_Ok in H
  | _ => mrun_step
  end; simplify_eq/=.
Ltac dbrun := repeat dbrun_step.

(** ** Append-only logs

    Tables keyed by consecutive [u64]s: the next index is one more than the
    largest key, read with [find_by_prefix_sorted_descending(..).next()]. *)
Section log.
Context {V : Type}.
Implicit Types m : gmap Z V.

Definition next_index m : Z := map_fold (fun k _ acc => Z.max acc (k + 1)) 0 m.

(** The keys of a log with [n] entries. *)
Definition log_of_length m (n : nat) : Prop :=
  forall i, is_Some (m !! i) <-> 0 <= i < Z.of_nat n.

Lemma next_index_insert m k v :
  m !! k = None -> next_index (<[k := v]> m) = Z.max (next_index m) (k + 1).
Proof.
  intros Hk. unfold next_index. rewrite map_fold_insert_L; [done| |done].
  intros. lia.
Qed.

Lemma next_index_nonneg m : 0 <= next_index m.
Proof.
  induction m as [|k w m Hk IH] using map_ind; [done|].
  rewrite next_index_insert by done. lia.
Qed.

Lemma next_index_bound m i v : m !! i = Some v -> i < next_index m.
Proof.
  revert i v. induction m as [|k w m Hk IH] using map_ind; [done|].
  intros i v. rewrite next_index_insert by done.
  destruct (decide (k = i)) as [->|Hne]; [lia|].
  rewrite lookup_insert_ne by done. intros Hi%IH. lia.
Qed.

Lemma next_index_fresh m : m !! next_index m = None.
Proof.
  destruct (m !! next_index m) eqn:Hm; [|done].
  apply next_index_bound in Hm. lia.
Qed.

(** The largest key is attained. *)
Lemma next_index_attained m : next_index m = 0 \/ is_Some (m !! (next_index m - 1)).
Proof.
  induction m as [|k w m Hk IH] using map_ind; [by left|].
  rewrite next_index_insert by done.
  destruct (decide (next_index m <= k + 1)) as [Hle|Hgt].
  - right. replace (Z.max (next_index m) (k + 1) - 1) with k by lia.
    by rewrite lookup_insert_eq.
  - destruct IH as [IH|IH].
    + rewrite IH in Hgt |- *. left. lia.
    + right. rewrite Z.max_l by lia. destruct (decide (k = next_index m - 1)) as [->|Hne].
      * by rewrite lookup_insert_eq.
      * by rewrite lookup_insert_ne.
Qed.

Lemma next_index_log m n : log_of_length m n -> next_index m = Z.of_nat n.
Proof.
  intros Hlog. pose proof (next_index_nonneg m).
  assert (next_index m <= Z.of_nat n).
  { destruct (next_index_attained m) as [H0|[v Hv]]; [lia|].
    assert (0 <= next_index m - 1 < Z.of_nat n); [|lia]. apply Hlog; by eexists. }
  destruct n as [|n]; [lia|].
  assert (is_Some (m !! Z.of_nat n)) as [v Hv] by (apply Hlog; lia).
  apply next_index_bound in Hv. lia.
Qed.

Lemma log_of_length_empty : log_of_length (∅ : gmap Z V) 0.
Proof. intros i. rewrite lookup_empty. split; [by intros []|lia]. Qed.

(** Writing at the next index appends. *)
Lemma log_of_length_push m n v :
  log_of_length m n -> log_of_length (<[next_index m := v]> m) (S n).
Proof.
  intros Hlog i. rewrite (next_index_log m n Hlog).
  destruct (decide (i = Z.of_nat n)) as [->|Hne].
  - rewrite lookup_insert_eq. split; [lia|by eexists].
  - rewrite lookup_insert_ne by done. rewrite (Hlog i). lia.
Qed.

(** The log as the list of its entries. *)
Definition log_repr m (l : list V) : Prop :=
  forall i, m !! i = if 0 <=? i then l !! Z.to_nat i else None.

Definition append_log m (l : list V) : gmap Z V := foldl (fun m v => <[next_index m := v]> m) m l.

Lemma log_repr_length m l : log_repr m l -> log_of_length m (length l).
Proof.
  intros Hm i. rewrite Hm. destruct (0 <=? i) eqn:Hi.
  - rewrite lookup_lt_is_Some. lia.
  - split; [by intros []|lia].
Qed.

Lemma log_repr_empty : log_repr (∅ : gmap Z V) [].
Proof. intros i. rewrite lookup_empty. by destruct (0 <=? i). Qed.

Lemma log_repr_append m l l' : log_repr m l -> log_repr (append_log m l') (l ++ l').
Proof.
  revert m l. induction l' as [|v l' IH]; intros m l Hm; simpl; [by rewrite app_nil_r|].
  replace (l ++ v :: l') with ((l ++ [v]) ++ l') by by rewrite <- app_assoc.
  apply IH. intros i. rewrite (next_index_log m (length l) (log_repr_length m l Hm)).
  destruct (decide (i = Z.of_nat (length l))) as [->|Hne].
  - rewrite lookup_insert_eq. destruct (Z.leb_spec 0 (Z.of_nat (length l))) as [_|]; [|lia].
    by rewrite Nat2Z.id, lookup_app_r, Nat.sub_diag by lia.
  - rewrite lookup_insert_ne, Hm by done. destruct (0 <=? i) eqn:Hi; [|done].
    destruct (decide (i < Z.of_nat (length l))).
    + by rewrite lookup_app_l by lia.
    + rewrite (lookup_ge_None_2 l), (lookup_ge_None_2 (l ++ [v])); [done|rewrite length_app; simpl|]; lia.
Qed.

Lemma omap_seqZ_log m l k :
  (forall i, 0 <= i < Z.of_nat (length l) -> m !! (k + i) = l !! Z.to_nat i) ->
  (omap (entry_at m) (seqZ k (Z.of_nat (length l)))).*2 = l.
Proof.
  revert k. induction l as [|v l IH]; intros k Hm; [done|].
  assert (m !! k = Some v) as Hk by (rewrite <- (Z.add_0_r k), Hm by (simpl; lia); done).
  assert (entry_at m k = Some (k, v)) as He by (unfold entry_at; by rewrite Hk).
  rewrite seqZ_cons, omap_entry_cons, He by (simpl; lia). rewrite fmap_cons. f_equal.
  replace (Z.pred (Z.of_nat (length (v :: l)))) with (Z.of_nat (length l)) by (simpl; lia).
  apply IH. intros i Hi. replace (Z.succ k + i) with (k + (i + 1)) by lia.
  rewrite Hm by (simpl; lia). by replace (Z.to_nat (i + 1)) with (S (Z.to_nat i)) by lia.
Qed.

(** Iterating over a log yields its entries in order. *)
Lemma log_repr_iter m l : log_repr m l -> (btree_iter m).*2 = l.
Proof.
  intros Hm.
  assert (btree_iter m = range_scan 0 (Z.of_nat (length l)) m) as ->.
  { unfold range_scan. f_equal. symmetry. apply map_filter_id. intros i v Hi. simpl.
    apply (log_repr_length m l Hm). by exists v. }
  rewrite range_scan_spec, Z.sub_0_r. apply omap_seqZ_log.
  intros i Hi. rewrite Z.add_0_l, Hm. destruct (Z.leb_spec 0 i); [done|lia].
Qed.

Lemma log_repr_push m l v : log_repr m l -> log_repr (<[Z.of_nat (length l) := v]> m) (l ++ [v]).
Proof.
  intros Hm. rewrite <- (next_index_log m (length l) (log_repr_length m l Hm)).
  by apply (log_repr_append m l [v]).
Qed.

Lemma log_repr_lookup m l i : log_repr m l -> m !! Z.of_nat i = l !! i.
Proof. intros Hm. rewrite Hm, Nat2Z.id. destruct (Z.leb_spec 0 (Z.of_nat i)); [done|lia]. Qed.

Lemma log_repr_inj m m' l : log_repr m l -> log_repr m' l -> m = m'.
Proof. intros H H'. apply map_eq. intros i. by rewrite H, H'. Qed.
End log.
