(* ===== verification/RawDb.v ===== *)
(** * The byte-level key-value store

    The in-memory backend of [fedimint-core/src/db/mem_impl.rs]
    ([MemDatabase], [MemTransaction]), the partition of the store between
    modules ([PrefixDatabaseTransaction]) and the typed operations on top of
    them, [fedimint-core/src/db/mod.rs].  A store is a finite map from byte
    strings to byte strings that is iterated in the order of its keys.

    The theorems are about commits (a transaction never overwrites what it has
    not seen), about partitions (modules do not see each other) and about the
    tables of [Db], which the typed operations implement. *)

From stdpp Require Import sorting.
From S2P Require Import Prelude Encoding Db.

(** ** Order of byte strings *)

(** [a <= b] for [Vec<u8>]. *)
Fixpoint bytes_leb (a b : list Z) : bool :=
  match a, b with
  | [], _ => true
  | _ :: _, [] => false
  | x :: a', y :: b' => (x <? y) || ((x =? y) && bytes_leb a' b')
  end.
Definition bytes_le (a b : list Z) : Prop := bytes_leb a b = true.

#[export] Instance bytes_le_dec : RelDecision bytes_le.
Proof. intros a b. unfold bytes_le. apply _. Defined.

Lemma bytes_leb_cons x a y b : bytes_le (x :: a) (y :: b) <-> x < y \/ (x = y /\ bytes_le a b).
Proof. unfold bytes_le. simpl. rewrite orb_true_iff, andb_true_iff, Z.ltb_lt, Z.eqb_eq. done. Qed.

#[export] Instance bytes_le_total : Total bytes_le.
Proof.
  intros a. induction a as [|x a IH]; intros [|y b]; try (by left); try (by right).
  rewrite !bytes_leb_cons. destruct (IH b), (Z.lt_total x y) as [|[|]]; subst; tauto.
Qed.

#[export] Instance bytes_le_trans : Transitive bytes_le.
Proof.
  intros a. induction a as [|x a IH]; intros [|y b] [|z c]; try done.
  rewrite !bytes_leb_cons. intros [|[-> ?]] [|[-> ?]]; try (left; lia). right. split; [done|]. by apply (IH b).
Qed.

#[export] Instance bytes_le_antisymm : AntiSymm (=) bytes_le.
Proof.
  intros a. induction a as [|x a IH]; intros [|y b]; try done.
  rewrite !bytes_leb_cons. intros [|[-> ?]] [|[? ?]]; try lia. f_equal. by apply IH.
Qed.

Lemma bytes_le_refl a : bytes_le a a.
Proof. by destruct (bytes_le_total a a). Qed.

(** A prefix comes before what it is a prefix of, and what has the prefix is
    a contiguous range. *)
Lemma prefix_bytes_le p k : p `prefix_of` k -> bytes_le p k.
Proof.
  intros [s ->]. induction p as [|x p IH]; [done|]. simpl. apply bytes_leb_cons. auto.
Qed.

Lemma prefix_convex p k k' : bytes_le p k -> bytes_le k k' -> p `prefix_of` k' -> p `prefix_of` k.
Proof.
  revert k k'. induction p as [|x p IH]; intros k k' Hpk Hkk' Hp; [apply prefix_nil|].
  destruct Hp as [s ->]. destruct k as [|y k]; [done|]. simpl in Hkk'.
  apply bytes_leb_cons in Hpk, Hkk'. destruct Hpk as [|[Hx Hpk]], Hkk' as [|[Hy Hkk']]; try lia. subst y.
  apply prefix_cons. apply (IH k (p ++ s)); [done..|]. by exists s.
Qed.

Lemma bytes_le_app p a b : bytes_le (p ++ a) (p ++ b) <-> bytes_le a b.
Proof. induction p as [|x p IH]; [done|]. simpl. rewrite bytes_leb_cons, IH. intuition lia. Qed.

(** ** Iteration *)
Abbreviation entry := (list Z * list Z)%type.

(** [a <= b] for pairs of byte strings. *)
Definition entry_le (a b : entry) : Prop :=
  if decide (a.1 = b.1) then bytes_le a.2 b.2 else bytes_le a.1 b.1.

#[export] Instance entry_le_dec : RelDecision entry_le.
Proof. intros a b. unfold entry_le. destruct (decide (a.1 = b.1)); apply _. Defined.

Lemma entry_le_key a b : entry_le a b -> bytes_le a.1 b.1.
Proof. unfold entry_le. case_decide as H; [|done]. rewrite H. intros _. apply bytes_le_refl. Qed.

#[export] Instance entry_le_total : Total entry_le.
Proof.
  intros a b. unfold entry_le. destruct (decide (a.1 = b.1)) as [->|]; [rewrite decide_True by done; apply bytes_le_total|].
  rewrite decide_False by done. apply bytes_le_total.
Qed.

#[export] Instance entry_le_trans : Transitive entry_le.
Proof.
  intros [k v] [k' v'] [k'' v'']. unfold entry_le. simpl. intros Ha Hb.
  destruct (decide (k = k')) as [E1|E1], (decide (k' = k'')) as [E2|E2], (decide (k = k'')) as [E3|E3];
    subst; try done; try congruence; try by etrans.
  destruct E1. by apply bytes_le_antisymm.
Qed.

#[export] Instance entry_le_antisymm : AntiSymm (=) entry_le.
Proof.
  intros [k v] [k' v']. unfold entry_le. simpl. intros Ha Hb.
  destruct (decide (k = k')) as [->|]; [rewrite decide_True in Hb by done; f_equal; by apply bytes_le_antisymm|].
  rewrite decide_False in Hb by done. destruct n. by apply bytes_le_antisymm.
Qed.

#[export] Instance flip_entry_le_antisymm : AntiSymm (=) (flip entry_le).
Proof. intros a b H1 H2. by apply entry_le_antisymm. Qed.

#[export] Instance flip_entry_le_total : Total (flip entry_le).
Proof. intros a b. destruct (entry_le_total a b); [by right|by left]. Qed.

(** An [OrdMap] is iterated in the order of its keys. *)
Definition iter (m : gmap (list Z) (list Z)) : list entry := merge_sort entry_le (map_to_list m).

Fixpoint take_while {A} (P : A -> Prop) `{!forall a, Decision (P a)} (l : list A) : list A :=
  match l with
  | a :: l' => if decide (P a) then a :: take_while P l' else []
  | [] => []
  end.

Lemma elem_of_iter m k v : (k, v) ∈ iter m <-> m !! k = Some v.
Proof. unfold iter. by rewrite merge_sort_Permutation, elem_of_map_to_list. Qed.

Lemma iter_sorted m : StronglySorted entry_le (iter m).
Proof. apply (StronglySorted_merge_sort _). Qed.

Lemma iter_NoDup m : NoDup (iter m).
Proof. unfold iter. rewrite merge_sort_Permutation. apply NoDup_map_to_list. Qed.

(** A sorted list without duplicates is the iteration of the map it lists. *)
Lemma iter_unique m l :
  StronglySorted entry_le l -> NoDup l -> (forall k v, (k, v) ∈ l <-> m !! k = Some v) -> iter m = l.
Proof.
  intros Hs Hd Hl. apply (StronglySorted_unique entry_le); [apply iter_sorted|done|].
  apply NoDup_Permutation; [apply iter_NoDup|done|]. intros [k v]. by rewrite elem_of_iter, Hl.
Qed.

Lemma take_while_filter (P : entry -> Prop) `{!forall a, Decision (P a)} l :
  (forall a b, a ∈ l -> b ∈ l -> entry_le a b -> P b -> P a) -> StronglySorted entry_le l ->
  take_while P l = filter P l.
Proof.
  induction l as [|a l IH]; intros Hc Hs; [done|]. apply StronglySorted_inv in Hs as [Hs Ha]. simpl.
  rewrite filter_cons. case_decide as Hpa.
  - f_equal. apply IH; [|done]. intros x y Hx Hy. apply Hc; by right.
  - symmetry. apply elem_of_nil_inv. intros x [Hpx Hx]%list_elem_of_filter. apply Hpa. apply (Hc a x); [left|by right| |done].
    rewrite Forall_forall in Ha. by apply Ha.
Qed.

(** ** The in-memory backend *)

Inductive DatabaseOperation :=
| InsertOperation (key value : list Z) (old_value : option (list Z))
| DeleteOperation (key : list Z) (old_value : option (list Z)).

(** [db] is what the operations below are given. *)
Record MemTransaction := {
  operations : list DatabaseOperation;
  tx_data : gmap (list Z) (list Z);
}.

Definition begin_transaction (data : gmap (list Z) (list Z)) : MemTransaction :=
  {| operations := []; tx_data := data |}.

Definition raw_insert_bytes (key value : list Z) (tx : MemTransaction) : option (list Z) * MemTransaction :=
  let old_value := tx_data tx !! key in
  (old_value,
   {| operations := operations tx ++ [InsertOperation key value old_value];
      tx_data := <[key := value]> (tx_data tx) |}).

Definition raw_get_bytes (key : list Z) (tx : MemTransaction) : option (list Z) := tx_data tx !! key.

Definition raw_remove_entry (key : list Z) (tx : MemTransaction) : option (list Z) * MemTransaction :=
  let old_value := tx_data tx !! key in
  (old_value,
   {| operations := operations tx ++ [DeleteOperation key old_value];
      tx_data := delete key (tx_data tx) |}).

Definition raw_find_by_prefix (key_prefix : list Z) (tx : MemTransaction) : list entry :=
  take_while (fun e => key_prefix `prefix_of` e.1) (filter (fun e => bytes_le key_prefix e.1) (iter (tx_data tx))).

Definition raw_find_by_prefix_sorted_descending (key_prefix : list Z) (tx : MemTransaction) : list entry :=
  merge_sort (flip entry_le)
    (take_while (fun e => key_prefix `prefix_of` e.1) (filter (fun e => bytes_le key_prefix e.1) (iter (tx_data tx)))).

Definition raw_find_by_range (start end_ : list Z) (tx : MemTransaction) : list entry :=
  filter (fun e => bytes_le start e.1 /\ ~ bytes_le end_ e.1) (iter (tx_data tx)).

Definition raw_remove_by_prefix (key_prefix : list Z) (tx : MemTransaction) : MemTransaction :=
  foldl (fun tx key => (raw_remove_entry key tx).2) tx (map fst (raw_find_by_prefix key_prefix tx)).

(** The operations of [commit_tx], on the data at the time of the commit. *)
Fixpoint replay (ops : list DatabaseOperation) (data : gmap (list Z) (list Z)) :
    DatabaseError + gmap (list Z) (list Z) :=
  match ops with
  | [] => inr data
  | InsertOperation key value old_value :: ops' =>
      if decide (data !! key = old_value) then replay ops' (<[key := value]> data) else inl WriteConflict
  | DeleteOperation key old_value :: ops' =>
      if decide (data !! key = old_value) then replay ops' (delete key data) else inl WriteConflict
  end.

Definition commit_tx (tx : MemTransaction) (data : gmap (list Z) (list Z)) :
    DatabaseError + gmap (list Z) (list Z) := replay (operations tx) data.

(** ** Scans *)

(** The range from a prefix on is left exactly at the last key that has it. *)
Lemma raw_find_by_prefix_filter p tx :
  raw_find_by_prefix p tx = filter (fun e => p `prefix_of` e.1) (iter (tx_data tx)).
Proof.
  unfold raw_find_by_prefix. pose proof (iter_sorted (tx_data tx)) as Hs.
  rewrite take_while_filter.
  - apply list_filter_filter_l. intros [k v]. apply prefix_bytes_le.
  - intros a b [Ha _]%list_elem_of_filter _ Hab Hb. eapply prefix_convex; [done|by apply entry_le_key|done].
  - by apply StronglySorted_filter.
Qed.

Lemma elem_of_find_by_prefix p tx k v :
  (k, v) ∈ raw_find_by_prefix p tx <-> p `prefix_of` k /\ tx_data tx !! k = Some v.
Proof. by rewrite raw_find_by_prefix_filter, list_elem_of_filter, elem_of_iter. Qed.

Lemma find_descending_reverse p tx :
  raw_find_by_prefix_sorted_descending p tx = reverse (raw_find_by_prefix p tx).
Proof.
  apply (StronglySorted_unique (flip entry_le)).
  - apply (StronglySorted_merge_sort _).
  - rewrite raw_find_by_prefix_filter. by apply StronglySorted_reverse, StronglySorted_filter, iter_sorted.
  - unfold raw_find_by_prefix_sorted_descending. by rewrite merge_sort_Permutation, reverse_Permutation.
Qed.

Lemma find_by_prefix_NoDup p tx : NoDup (map fst (raw_find_by_prefix p tx)).
Proof.
  rewrite raw_find_by_prefix_filter. apply (NoDup_fmap_fst (A := list Z) (B := list Z)).
  - intros k v v' [_ H]%list_elem_of_filter [_ H']%list_elem_of_filter. apply elem_of_iter in H, H'. by simplify_eq.
  - apply NoDup_filter, iter_NoDup.
Qed.

(** ** Commits *)

(** The transactions that were opened on [snapshot]. *)
Inductive opened (snapshot : gmap (list Z) (list Z)) : MemTransaction -> Prop :=
| opened_begin : opened snapshot (begin_transaction snapshot)
| opened_insert tx key value : opened snapshot tx -> opened snapshot (raw_insert_bytes key value tx).2
| opened_remove tx key : opened snapshot tx -> opened snapshot (raw_remove_entry key tx).2.

Definition written_key (op : DatabaseOperation) : list Z :=
  match op with InsertOperation key _ _ | DeleteOperation key _ => key end.
Definition written (tx : MemTransaction) : list (list Z) := map written_key (operations tx).

Lemma replay_app ops ops' data :
  replay (ops ++ ops') data =
  match replay ops data with inr data' => replay ops' data' | inl e => inl e end.
Proof. revert data. induction ops as [|[] ops IH]; intros data; simpl; [done|..]; by case_decide. Qed.

(** What an operation leaves at its key. *)
Definition apply_op (op : DatabaseOperation) (m : gmap (list Z) (list Z)) : gmap (list Z) (list Z) :=
  match op with
  | InsertOperation key value _ => <[key := value]> m
  | DeleteOperation key _ => delete key m
  end.
Definition old_value (op : DatabaseOperation) : option (list Z) :=
  match op with InsertOperation _ _ old | DeleteOperation _ old => old end.

Lemma apply_op_lookup op m m' k :
  m !! k = m' !! k \/ k = written_key op -> apply_op op m !! k = apply_op op m' !! k.
Proof.
  destruct op as [key value old|key old]; simpl; intros [H| ->];
    rewrite ?lookup_insert, ?lookup_delete; by repeat case_decide.
Qed.

Lemma apply_op_ne op m k : k <> written_key op -> apply_op op m !! k = m !! k.
Proof. destruct op; simpl; intros; [by rewrite lookup_insert_ne|by rewrite lookup_delete_ne]. Qed.

Lemma replay_one op data :
  replay [op] data = if decide (data !! written_key op = old_value op) then inr (apply_op op data) else inl WriteConflict.
Proof. by destruct op. Qed.

(** Every transaction is its operations, each with the value it has seen. *)
Lemma opened_ind' snapshot (P : MemTransaction -> Prop) :
  P (begin_transaction snapshot) ->
  (forall tx op, opened snapshot tx -> P tx -> old_value op = tx_data tx !! written_key op ->
     P {| operations := operations tx ++ [op]; tx_data := apply_op op (tx_data tx) |}) ->
  forall tx, opened snapshot tx -> P tx.
Proof.
  intros Hbegin Hop tx. induction 1 as [|tx key value H IH|tx key H IH]; [done|..].
  - by apply (Hop tx (InsertOperation key value (tx_data tx !! key))).
  - by apply (Hop tx (DeleteOperation key (tx_data tx !! key))).
Qed.

Lemma written_snoc tx op data k :
  k ∈ written {| operations := operations tx ++ [op]; tx_data := data |} <-> k ∈ written tx \/ k = written_key op.
Proof. unfold written. simpl. rewrite map_app, elem_of_app. simpl. by rewrite list_elem_of_singleton. Qed.

Lemma opened_unwritten snapshot tx k :
  opened snapshot tx -> k ∉ written tx -> tx_data tx !! k = snapshot !! k.
Proof.
  intros H. revert tx H k. apply (opened_ind' snapshot (fun tx => forall k, k ∉ written tx -> _)); [done|].
  intros tx op _ IH _ k. rewrite written_snoc. intros Hk. simpl. rewrite apply_op_ne; [apply IH|]; tauto.
Qed.

(** The store after the commit of [tx]: its values at the keys it wrote. *)
Definition written_over (tx : MemTransaction) (data data' : gmap (list Z) (list Z)) : Prop :=
  forall k, data' !! k = if decide (k ∈ written tx) then tx_data tx !! k else data !! k.

Lemma written_over_snoc tx op data data' :
  written_over tx data data' ->
  written_over {| operations := operations tx ++ [op]; tx_data := apply_op op (tx_data tx) |} data (apply_op op data').
Proof.
  intros Hd k. simpl. destruct (decide (k = written_key op)) as [->|Hne].
  - rewrite decide_True by (apply written_snoc; auto). apply apply_op_lookup. auto.
  - rewrite !apply_op_ne, Hd by done. destruct (decide (k ∈ written tx)).
    + by rewrite decide_True by (apply written_snoc; auto).
    + rewrite decide_False; [done|]. rewrite written_snoc. tauto.
Qed.

Lemma opened_commit snapshot tx data :
  opened snapshot tx ->
  ((forall k, k ∈ written tx -> data !! k = snapshot !! k) /\
     exists data', commit_tx tx data = inr data' /\ written_over tx data data') \/
  (~ (forall k, k ∈ written tx -> data !! k = snapshot !! k) /\ commit_tx tx data = inl WriteConflict).
Proof.
  revert tx. apply opened_ind'.
  { left. split; [by intros k ?%elem_of_nil|]. exists data. split; [done|]. intros k.
    by rewrite decide_False by apply not_elem_of_nil. }
  intros tx op Htx IH Hold. unfold commit_tx in *. simpl. rewrite replay_app. setoid_rewrite written_snoc.
  destruct IH as [(Hall & data' & -> & Hd)|(Hno & ->)]; [|right; split; [|done]; intros H; apply Hno; auto].
  rewrite replay_one, Hold.
  assert (data !! written_key op = snapshot !! written_key op <->
    data' !! written_key op = tx_data tx !! written_key op) as Hkey.
  { rewrite (Hd (written_key op)). case_decide as Hk; [by split; auto|]. by rewrite (opened_unwritten snapshot tx (written_key op)). }
  case_decide as Heq; [left|right].
  - apply Hkey in Heq. split; [intros k [Hk| ->]; auto|]. exists (apply_op op data'). split; [done|].
    by apply written_over_snoc.
  - split; [|done]. intros H. apply Heq, Hkey. apply H. auto.
Qed.

(** Removing many keys. *)
Lemma remove_keys ks tx k :
  tx_data (foldl (fun tx key => (raw_remove_entry key tx).2) tx ks) !! k =
  if decide (k ∈ ks) then None else tx_data tx !! k.
Proof.
  revert tx. induction ks as [|key ks IH]; intros tx; [by rewrite decide_False by apply not_elem_of_nil|].
  simpl. rewrite IH. simpl. destruct (decide (k ∈ ks)); [by rewrite decide_True by by right|].
  destruct (decide (k = key)) as [->|]; [by rewrite decide_True, lookup_delete_eq by left|].
  rewrite lookup_delete_ne, decide_False by (rewrite ?not_elem_of_cons; done). done.
Qed.

Lemma remove_by_prefix_lookup p tx k :
  tx_data (raw_remove_by_prefix p tx) !! k = if decide (p `prefix_of` k) then None else tx_data tx !! k.
Proof.
  unfold raw_remove_by_prefix. rewrite remove_keys.
  assert (k ∈ map fst (raw_find_by_prefix p tx) <-> p `prefix_of` k /\ is_Some (tx_data tx !! k)) as Hk.
  { split.
    - intros ([k' v] & -> & [? ?]%elem_of_find_by_prefix)%list_elem_of_fmap. eauto.
    - intros [? [v ?]]. apply list_elem_of_fmap. exists (k, v). by rewrite elem_of_find_by_prefix. }
  destruct (decide (p `prefix_of` k)) as [Hp|Hp].
  - case_decide as Hin; [done|]. apply eq_None_not_Some. tauto.
  - rewrite decide_False; [done|]. tauto.
Qed.

Lemma opened_remove_by_prefix snapshot p tx : opened snapshot tx -> opened snapshot (raw_remove_by_prefix p tx).
Proof.
  unfold raw_remove_by_prefix. generalize (map fst (raw_find_by_prefix p tx)) as ks. intros ks. revert tx.
  induction ks as [|k ks IH]; intros tx H; [done|]. simpl. by apply IH, opened_remove.
Qed.

(** No update is lost.  A commit succeeds exactly when no key the
    transaction wrote has another value in the store than it had when the
    transaction was opened, and fails with a write conflict otherwise, leaving
    the store as it is.  After a commit that succeeds, the store has the
    values of the transaction at the keys it wrote and is unchanged
    elsewhere, whatever other transactions committed there in the meantime. *)
Theorem commit_no_lost_update snapshot tx data :
  opened snapshot tx ->
  ((forall k, k ∈ written tx -> data !! k = snapshot !! k) <-> exists data', commit_tx tx data = inr data') /\
  (forall data', commit_tx tx data = inr data' ->
     forall k, data' !! k = if decide (k ∈ written tx) then tx_data tx !! k else data !! k) /\
  (forall e, commit_tx tx data = inl e -> e = WriteConflict).
Proof.
  intros [(Hall & data' & -> & Hd)|(Hno & ->)]%(opened_commit _ _ data).
  - split; [split; by eauto|]. split; [by intros ? [= <-]|done].
  - split; [by split; [|intros [? ?]]|]. split; [done|by intros ? [= <-]].
Qed.

(** A scan by prefix finds what has the prefix.  Walking the ordered store
    from the prefix on and stopping at the first key without it returns every
    entry whose key has the prefix, once and in order; the descending scan is
    the same list backwards, and [raw_remove_by_prefix] removes just these. *)
Theorem prefix_scan p tx :
  raw_find_by_prefix p tx = filter (fun e => p `prefix_of` e.1) (iter (tx_data tx)) /\
  (forall k v, (k, v) ∈ raw_find_by_prefix p tx <-> p `prefix_of` k /\ raw_get_bytes k tx = Some v) /\
  StronglySorted entry_le (raw_find_by_prefix p tx) /\ NoDup (map fst (raw_find_by_prefix p tx)) /\
  raw_find_by_prefix_sorted_descending p tx = reverse (raw_find_by_prefix p tx) /\
  (forall k, raw_get_bytes k (raw_remove_by_prefix p tx) =
     if decide (p `prefix_of` k) then None else raw_get_bytes k tx).
Proof.
  split; [apply raw_find_by_prefix_filter|]. split; [intros; apply elem_of_find_by_prefix|].
  split; [rewrite raw_find_by_prefix_filter; by apply StronglySorted_filter, iter_sorted|].
  split; [apply find_by_prefix_NoDup|]. split; [apply find_descending_reverse|]. intros; apply remove_by_prefix_lookup.
Qed.

(** ** Partitions *)

Definition MODULE_GLOBAL_PREFIX : Z := 255.

Definition module_instance_id_to_byte_prefix (BigSize : codec Z) (module_instance_id : Z) : list Z :=
  MODULE_GLOBAL_PREFIX :: consensus_encode (u16_codec BigSize) module_instance_id.

(** [PrefixDatabaseTransaction]. *)
Section prefix_transaction.
Context (prefix : list Z).

Definition get_full_key (key : list Z) : list Z := prefix ++ key.

Definition adapt_prefix_stream (stream : list entry) : list entry :=
  map (fun e => (drop (length prefix) e.1, e.2)) stream.

Definition prefix_insert_bytes (key value : list Z) := raw_insert_bytes (get_full_key key) value.
Definition prefix_get_bytes (key : list Z) := raw_get_bytes (get_full_key key).
Definition prefix_remove_entry (key : list Z) := raw_remove_entry (get_full_key key).
Definition prefix_find_by_prefix (key_prefix : list Z) (tx : MemTransaction) : list entry :=
  adapt_prefix_stream (raw_find_by_prefix (get_full_key key_prefix) tx).
Definition prefix_find_by_prefix_sorted_descending (key_prefix : list Z) (tx : MemTransaction) : list entry :=
  adapt_prefix_stream (raw_find_by_prefix_sorted_descending (get_full_key key_prefix) tx).
Definition prefix_find_by_range (start end_ : list Z) (tx : MemTransaction) : list entry :=
  adapt_prefix_stream (raw_find_by_range (get_full_key start) (get_full_key end_) tx).
Definition prefix_remove_by_prefix (key_prefix : list Z) := raw_remove_by_prefix (get_full_key key_prefix).
End prefix_transaction.

(** The operations of [IDatabaseTransactionOpsCore]. *)
Inductive RawOp :=
| RawInsert (key value : list Z)
| RawGet (key : list Z)
| RawRemove (key : list Z)
| RawFindByPrefix (key_prefix : list Z)
| RawFindByPrefixDescending (key_prefix : list Z)
| RawFindByRange (start end_ : list Z)
| RawRemoveByPrefix (key_prefix : list Z).

Inductive RawAnswer :=
| RawValue (value : option (list Z))
| RawStream (entries : list entry)
| RawDone.

Definition raw_exec (op : RawOp) (tx : MemTransaction) : RawAnswer * MemTransaction :=
  match op with
  | RawInsert key value => let (old, tx') := raw_insert_bytes key value tx in (RawValue old, tx')
  | RawGet key => (RawValue (raw_get_bytes key tx), tx)
  | RawRemove key => let (old, tx') := raw_remove_entry key tx in (RawValue old, tx')
  | RawFindByPrefix p => (RawStream (raw_find_by_prefix p tx), tx)
  | RawFindByPrefixDescending p => (RawStream (raw_find_by_prefix_sorted_descending p tx), tx)
  | RawFindByRange start end_ => (RawStream (raw_find_by_range start end_ tx), tx)
  | RawRemoveByPrefix p => (RawDone, raw_remove_by_prefix p tx)
  end.

Definition prefix_exec (prefix : list Z) (op : RawOp) (tx : MemTransaction) : RawAnswer * MemTransaction :=
  match op with
  | RawInsert key value => let (old, tx') := prefix_insert_bytes prefix key value tx in (RawValue old, tx')
  | RawGet key => (RawValue (prefix_get_bytes prefix key tx), tx)
  | RawRemove key => let (old, tx') := prefix_remove_entry prefix key tx in (RawValue old, tx')
  | RawFindByPrefix p => (RawStream (prefix_find_by_prefix prefix p tx), tx)
  | RawFindByPrefixDescending p => (RawStream (prefix_find_by_prefix_sorted_descending prefix p tx), tx)
  | RawFindByRange start end_ => (RawStream (prefix_find_by_range prefix start end_ tx), tx)
  | RawRemoveByPrefix p => (RawDone, prefix_remove_by_prefix prefix p tx)
  end.

(** The part of a store under a prefix is the store of a component. *)
Definition partition_of (prefix : list Z) (data part : gmap (list Z) (list Z)) : Prop :=
  forall k, data !! (prefix ++ k) = part !! k.

Lemma prefix_app_iff (p q k : list Z) : (p ++ q) `prefix_of` (p ++ k) <-> q `prefix_of` k.
Proof. split; [apply prefix_app_inv|apply prefix_app]. Qed.

Lemma adapt_elem p l k v :
  (forall e, e ∈ l -> p `prefix_of` e.1) ->
  (k, v) ∈ adapt_prefix_stream p l <-> (p ++ k, v) ∈ l.
Proof.
  intros Hl. unfold adapt_prefix_stream. rewrite list_elem_of_fmap. split.
  - intros ([k' v'] & Heq & Hin). simplify_eq/=. destruct (Hl _ Hin) as [s Hs]. simpl in Hs. subst k'.
    by rewrite drop_app_length.
  - intros Hin. exists (p ++ k, v). simpl. by rewrite drop_app_length.
Qed.

(** Stripping a common prefix keeps the order. *)
Lemma entry_le_app p k v k' v' : entry_le (p ++ k, v) (p ++ k', v') <-> entry_le (k, v) (k', v').
Proof.
  unfold entry_le. simpl. destruct (decide (k = k')) as [->|Hne]; [by rewrite decide_True|].
  rewrite decide_False; [apply bytes_le_app|]. by intros ?%app_inv_head.
Qed.

Lemma adapt_sorted p l :
  (forall e, e ∈ l -> p `prefix_of` e.1) -> StronglySorted entry_le l ->
  StronglySorted entry_le (adapt_prefix_stream p l).
Proof.
  intros Hl. apply StronglySorted_map. intros [a va] [b vb] Ha Hb.
  destruct (Hl _ Ha) as [a' Ha']. destruct (Hl _ Hb) as [b' Hb']. simpl in *. subst.
  rewrite !drop_app_length. apply entry_le_app.
Qed.

Lemma adapt_NoDup p l :
  (forall e, e ∈ l -> p `prefix_of` e.1) -> NoDup l -> NoDup (adapt_prefix_stream p l).
Proof.
  intros Hl Hd. unfold adapt_prefix_stream. apply NoDup_fmap_2_strong; [|done].
  intros [a va] [b vb] Ha Hb. destruct (Hl _ Ha) as [a' Ha']. destruct (Hl _ Hb) as [b' Hb']. simpl in *. subst.
  rewrite !drop_app_length. by intros [= -> ->].
Qed.

Lemma sorted_unique l l' :
  StronglySorted entry_le l -> StronglySorted entry_le l' -> NoDup l -> NoDup l' ->
  (forall k v, (k, v) ∈ l <-> (k, v) ∈ l') -> l = l'.
Proof.
  intros Hs Hs' Hd Hd' Hl. apply (StronglySorted_unique entry_le); [done..|].
  apply NoDup_Permutation; [done..|]. intros [k v]. apply Hl.
Qed.

(** A scan of keys under the prefix is a scan of the partition. *)
Lemma partition_scan p data part (P Q : list Z -> Prop) `{!forall e : entry, Decision (P e.1), !forall e : entry, Decision (Q e.1)} :
  partition_of p data part ->
  (forall k, P k -> p `prefix_of` k) -> (forall k, P (p ++ k) <-> Q k) ->
  adapt_prefix_stream p (filter (fun e => P e.1) (iter data)) = filter (fun e => Q e.1) (iter part).
Proof.
  intros Hpart Hp HPQ.
  assert (forall e, e ∈ filter (fun e => P e.1) (iter data) -> p `prefix_of` e.1) as Hl.
  { intros e [He _]%list_elem_of_filter. auto. }
  apply sorted_unique.
  - by apply adapt_sorted, StronglySorted_filter, iter_sorted.
  - apply StronglySorted_filter, iter_sorted.
  - by apply adapt_NoDup, NoDup_filter, iter_NoDup.
  - apply NoDup_filter, iter_NoDup.
  - intros k v. rewrite adapt_elem by done. rewrite !list_elem_of_filter, !elem_of_iter. simpl.
    by rewrite HPQ, (Hpart k).
Qed.

Lemma range_prefix p a b k : bytes_le (p ++ a) k -> ~ bytes_le (p ++ b) k -> p `prefix_of` k.
Proof.
  intros Ha Hb. apply (prefix_convex p k (p ++ b)).
  - etrans; [|done]. by apply prefix_bytes_le, prefix_app_r.
  - by destruct (bytes_le_total k (p ++ b)).
  - by apply prefix_app_r.
Qed.

(** An operation through the prefix is the operation on the partition, and
    leaves every key without the prefix alone. *)
Lemma prefix_exec_refines p op tx part_tx :
  partition_of p (tx_data tx) (tx_data part_tx) ->
  (prefix_exec p op tx).1 = (raw_exec op part_tx).1 /\
  partition_of p (tx_data (prefix_exec p op tx).2) (tx_data (raw_exec op part_tx).2).
Proof.
  intros Hpart.
  assert (forall q, prefix_find_by_prefix p q tx = raw_find_by_prefix q part_tx) as Hfind.
  { intros q. unfold prefix_find_by_prefix, get_full_key. rewrite !raw_find_by_prefix_filter.
    apply (partition_scan p _ _ (fun k => (p ++ q) `prefix_of` k) (fun k => q `prefix_of` k) Hpart).
    - intros k [s ->]. rewrite <- app_assoc. by apply prefix_app_r.
    - intros k. apply prefix_app_iff. }
  destruct op as [key value|key|key|q|q|a b|q]; simpl.
  - unfold get_full_key. rewrite Hpart. split; [done|]. intros k. rewrite !lookup_insert.
    destruct (decide (key = k)) as [->|]; [by rewrite decide_True|]. rewrite decide_False; [apply Hpart|].
    by intros ?%app_inv_head.
  - unfold prefix_get_bytes, raw_get_bytes, get_full_key. by rewrite Hpart.
  - unfold get_full_key. rewrite Hpart. split; [done|]. intros k. rewrite !lookup_delete.
    destruct (decide (key = k)) as [->|]; [by rewrite decide_True|]. rewrite decide_False; [apply Hpart|].
    by intros ?%app_inv_head.
  - by rewrite Hfind.
  - split; [|done]. unfold prefix_find_by_prefix_sorted_descending. rewrite !find_descending_reverse, <- Hfind.
    unfold prefix_find_by_prefix, adapt_prefix_stream. by rewrite <- fmap_reverse.
  - split; [|done]. f_equal. unfold prefix_find_by_range, raw_find_by_range, get_full_key.
    apply (partition_scan p _ _ (fun k => bytes_le (p ++ a) k /\ ~ bytes_le (p ++ b) k)
             (fun k => bytes_le a k /\ ~ bytes_le b k) Hpart).
    + intros k [??]. by eapply range_prefix.
    + intros k. by rewrite !bytes_le_app.
  - split; [done|]. intros k. unfold prefix_remove_by_prefix, get_full_key. rewrite !remove_by_prefix_lookup.
    destruct (decide (q `prefix_of` k)) as [Hq|Hq].
    + by rewrite decide_True by by apply prefix_app_iff.
    + rewrite decide_False; [apply Hpart|]. by rewrite prefix_app_iff.
Qed.

Lemma prefix_exec_frame p op tx k :
  ~ p `prefix_of` k -> tx_data (prefix_exec p op tx).2 !! k = tx_data tx !! k.
Proof.
  intros Hp. assert (forall q, get_full_key p q <> k) as Hne.
  { intros q <-. apply Hp. unfold get_full_key. by apply prefix_app_r. }
  destruct op as [key value|key|key|q|q|a b|q]; simpl; try done.
  - by rewrite lookup_insert_ne.
  - by rewrite lookup_delete_ne.
  - unfold prefix_remove_by_prefix. rewrite remove_by_prefix_lookup, decide_False; [done|].
    intros [s Hs]. apply (Hne (q ++ s)). unfold get_full_key in *. by rewrite app_assoc.
Qed.

(** ** Modules share one store *)
Section modules.
Context (BigSize : codec Z) `{!Lawful BigSize} (Hbig : forall x, valid BigSize x <-> is_u64 x).
Let module_prefix := module_instance_id_to_byte_prefix BigSize.

(** Operations of modules, in the order they are executed on one transaction. *)
Fixpoint run_modules (ops : list (Z * RawOp)) (tx : MemTransaction) : list (Z * RawAnswer) * MemTransaction :=
  match ops with
  | [] => ([], tx)
  | (id, op) :: ops' =>
      let (answer, tx1) := prefix_exec (module_instance_id_to_byte_prefix BigSize id) op tx in
      let (answers, tx2) := run_modules ops' tx1 in
      ((id, answer) :: answers, tx2)
  end.

Fixpoint run_alone (ops : list RawOp) (tx : MemTransaction) : list RawAnswer * MemTransaction :=
  match ops with
  | [] => ([], tx)
  | op :: ops' =>
      let (answer, tx1) := raw_exec op tx in
      let (answers, tx2) := run_alone ops' tx1 in
      (answer :: answers, tx2)
  end.

(** What concerns one module. *)
Definition of_module {A} (id : Z) (l : list (Z * A)) : list A :=
  map snd (filter (fun x => x.1 = id) l).

(** Two modules' prefixes do not overlap. *)
Lemma module_prefix_inj i j a b :
  0 <= i <= 65535 -> 0 <= j <= 65535 -> module_prefix i ++ a = module_prefix j ++ b -> i = j.
Proof using Lawful0 Hbig.
  intros Hi Hj H. injection H as H. pose proof (u16_lawful BigSize Hbig).
  change (consensus_encode (u16_codec BigSize) i ++ a = consensus_encode (u16_codec BigSize) j ++ b) in H.
  pose proof (decode_encode (c := u16_codec BigSize) i a Hi) as H1. rewrite H in H1.
  rewrite (decode_encode (c := u16_codec BigSize) j b Hj) in H1. by simplify_eq.
Qed.

Lemma of_module_cons {A} id i (a : A) l :
  of_module id ((i, a) :: l) = if decide (i = id) then a :: of_module id l else of_module id l.
Proof. unfold of_module. rewrite filter_cons. simpl. by case_decide. Qed.

Lemma run_modules_isolated ops tx id alone :
  Forall (fun x => 0 <= x.1 <= 65535) ops -> 0 <= id <= 65535 ->
  partition_of (module_prefix id) (tx_data tx) (tx_data alone) ->
  of_module id (run_modules ops tx).1 = (run_alone (of_module id ops) alone).1 /\
  partition_of (module_prefix id) (tx_data (run_modules ops tx).2) (tx_data (run_alone (of_module id ops) alone).2).
Proof using Lawful0 Hbig.
  intros Hops Hid. revert tx alone. induction ops as [|[i op] ops IH]; intros tx alone Hpart; [done|].
  apply Forall_cons in Hops as [Hi Hops]. simpl in Hi. simpl run_modules. fold module_prefix.
  destruct (prefix_exec (module_prefix i) op tx) as [answer tx1] eqn:Hexec.
  destruct (run_modules ops tx1) as [answers tx2] eqn:Hrun. cbn [fst snd]. rewrite !of_module_cons.
  specialize (IH Hops tx1). rewrite Hrun in IH. case_decide as Heq.
  - subst i. pose proof (prefix_exec_refines _ op tx alone Hpart) as [Ha Hp]. rewrite Hexec in Ha, Hp.
    cbn [run_alone]. destruct (raw_exec op alone) as [answer' alone1]. simpl in *. subst answer'.
    destruct (IH alone1 Hp) as [IHa IHp]. destruct (run_alone (of_module id ops) alone1). simpl in *. by subst.
  - apply IH. intros k. rewrite <- Hpart.
    replace tx1 with (prefix_exec (module_prefix i) op tx).2 by by rewrite Hexec.
    apply prefix_exec_frame. intros [s Hs]. apply Heq. by eapply module_prefix_inj.
Qed.

Lemma run_modules_frame ops tx k :
  (forall i, i ∈ map fst ops -> ~ module_prefix i `prefix_of` k) ->
  tx_data (run_modules ops tx).2 !! k = tx_data tx !! k.
Proof using Type.
  revert tx. induction ops as [|[i op] ops IH]; intros tx Hk; [done|]. simpl run_modules. fold module_prefix.
  destruct (prefix_exec (module_prefix i) op tx) as [answer tx1] eqn:Hexec.
  specialize (IH tx1). destruct (run_modules ops tx1) as [answers tx2]. simpl in *.
  rewrite IH by (intros j Hj; apply Hk; by right).
  replace tx1 with (prefix_exec (module_prefix i) op tx).2 by by rewrite Hexec.
  apply prefix_exec_frame, Hk. left.
Qed.

(** Modules are isolated.  When the operations of several modules are
    executed on one database transaction, in any order, every module gets the
    answers, and leaves the data, that its own operations give on a store of
    its own, and nothing outside the partitions of these modules changes. *)
Theorem module_isolation ops tx id part :
  Forall (fun x => 0 <= x.1 <= 65535) ops -> 0 <= id <= 65535 ->
  partition_of (module_instance_id_to_byte_prefix BigSize id) (tx_data tx) part ->
  of_module id (run_modules ops tx).1 = (run_alone (of_module id ops) (begin_transaction part)).1 /\
  partition_of (module_instance_id_to_byte_prefix BigSize id) (tx_data (run_modules ops tx).2)
    (tx_data (run_alone (of_module id ops) (begin_transaction part)).2) /\
  (forall k, (forall i, i ∈ map fst ops -> ~ module_instance_id_to_byte_prefix BigSize i `prefix_of` k) ->
     tx_data (run_modules ops tx).2 !! k = tx_data tx !! k).
Proof using Lawful0 Hbig.
  intros Hops Hid Hpart. destruct (run_modules_isolated ops tx id (begin_transaction part) Hops Hid Hpart).
  split; [done|]. split; [done|]. intros k. apply run_modules_frame.
Qed.
End modules.

(** ** Typed operations

    A table is what is stored under its [DB_PREFIX]. *)
Section typed.
Context {K V E : Type} `{Countable K} (DB_PREFIX : Z) (ck : codec K) (cv : codec V).

Definition key_to_bytes (key : K) : list Z := DB_PREFIX :: consensus_encode ck key.

Definition key_from_bytes (data : list Z) : option K :=
  match data with
  | [] => None
  | b :: data' => if b =? DB_PREFIX then consensus_decode_whole ck data' else None
  end.

Definition decode_value_expect (value_bytes : list Z) : outcome E V :=
  match consensus_decode_whole cv value_bytes with Some v => Ok v | None => Panic end.

Definition decode_option_expect (raw : option (list Z)) : outcome E (option V) :=
  match raw with
  | None => Ok None
  | Some value_bytes =>
      match decode_value_expect value_bytes with Ok v => Ok (Some v) | Err e => Err e | Panic => Panic end
  end.

Definition typed_get_value (key : K) : M MemTransaction E (option V) := fun tx =>
  (decode_option_expect (raw_get_bytes (key_to_bytes key) tx), tx).

Definition typed_insert_entry (key : K) (value : V) : M MemTransaction E (option V) := fun tx =>
  let (old, tx') := raw_insert_bytes (key_to_bytes key) (consensus_encode cv value) tx in
  (decode_option_expect old, tx').

Definition typed_insert_new_entry (key : K) (value : V) : M MemTransaction E unit :=
  prev ← typed_insert_entry key value;
  match prev with
  | Some _ => panic
  | None => mret tt
  end.

Definition typed_remove_entry (key : K) : M MemTransaction E (option V) := fun tx =>
  let (old, tx') := raw_remove_entry (key_to_bytes key) tx in
  (decode_option_expect old, tx').

(** [decode_key_expect] and [decode_value_expect] on a stream. *)
Fixpoint decode_stream (stream : list entry) : outcome E (list (K * V)) :=
  match stream with
  | [] => Ok []
  | (key_bytes, value_bytes) :: stream' =>
      match key_from_bytes key_bytes, consensus_decode_whole cv value_bytes with
      | Some key, Some value =>
          match decode_stream stream' with Ok l => Ok ((key, value) :: l) | Err e => Err e | Panic => Panic end
      | _, _ => Panic
      end
  end.

(** The lookups by the prefix of a table, whose encoding is empty. *)
Definition typed_find_by_prefix : M MemTransaction E (list (K * V)) := fun tx =>
  (decode_stream (raw_find_by_prefix [DB_PREFIX] tx), tx).
Definition typed_find_by_prefix_sorted_descending : M MemTransaction E (list (K * V)) := fun tx =>
  (decode_stream (raw_find_by_prefix_sorted_descending [DB_PREFIX] tx), tx).
Definition typed_remove_by_prefix : M MemTransaction E unit := fun tx =>
  (Ok tt, raw_remove_by_prefix [DB_PREFIX] tx).

(** The bytes under the prefix encode the table. *)
Definition table_of (data : gmap (list Z) (list Z)) (m : gmap K V) : Prop :=
  (forall k v, m !! k = Some v ->
     valid ck k /\ valid cv v /\ data !! key_to_bytes k = Some (consensus_encode cv v)) /\
  (forall key bs, data !! (DB_PREFIX :: key) = Some bs ->
     exists k v, m !! k = Some v /\ key = consensus_encode ck k /\ bs = consensus_encode cv v).

Context `{!Lawful ck, !Lawful cv}.

Lemma table_of_lookup data m k :
  table_of data m -> valid ck k -> data !! key_to_bytes k = consensus_encode cv <$> m !! k.
Proof using Type*.
  intros [H1 H2] Hk. destruct (m !! k) as [v|] eqn:Hm; simpl; [by apply H1 in Hm as (_ & _ & ?)|].
  apply eq_None_not_Some. intros [bs Hbs]. apply H2 in Hbs as (k' & v & Hm' & Henc & ->).
  apply (encode_inj ck) in Henc as ->; [congruence|done|]. by apply H1 in Hm' as [? _].
Qed.

Lemma decode_option_encode m k data :
  table_of data m -> decode_option_expect (consensus_encode cv <$> m !! k) = Ok (m !! k).
Proof using Type*.
  intros [H1 _]. destruct (m !! k) as [v|] eqn:Hm; [|done]. apply H1 in Hm as (_ & Hv & _).
  simpl. unfold decode_value_expect. by rewrite decode_whole_encode.
Qed.

(** Writing an entry. *)
Lemma table_of_insert data m k v :
  table_of data m -> valid ck k -> valid cv v ->
  table_of (<[key_to_bytes k := consensus_encode cv v]> data) (<[k := v]> m).
Proof using Type*.
  intros [H1 H2] Hk Hv. split.
  - intros k' v'. destruct (decide (k = k')) as [->|Hne].
    + rewrite !lookup_insert_eq. by intros [= <-].
    + rewrite lookup_insert_ne by done. intros Hm. destruct (H1 _ _ Hm) as (? & ? & ?).
      rewrite lookup_insert_ne; [done|]. intros [= Heq]. apply (encode_inj ck) in Heq; done.
  - intros key bs. destruct (decide (key = consensus_encode ck k)) as [->|Hne].
    + unfold key_to_bytes. rewrite lookup_insert_eq. intros [= <-]. exists k, v. by rewrite lookup_insert_eq.
    + unfold key_to_bytes. rewrite lookup_insert_ne by congruence. intros (k' & v' & Hm & -> & ->)%H2.
      exists k', v'. rewrite lookup_insert_ne; [done|]. intros ->. by apply Hne.
Qed.

Lemma table_of_delete data m k :
  table_of data m -> valid ck k -> table_of (delete (key_to_bytes k) data) (delete k m).
Proof using Type*.
  intros [H1 H2] Hk. split.
  - intros k' v' [Hne Hm]%lookup_delete_Some. destruct (H1 _ _ Hm) as (? & ? & ?). split_and!; [done..|].
    rewrite lookup_delete_ne; [done|]. intros [= Heq]. apply (encode_inj ck) in Heq; done.
  - intros key bs [Hne (k' & v' & Hm & -> & ->)%H2]%lookup_delete_Some. exists k', v'.
    rewrite lookup_delete_ne; [done|]. intros ->. by apply Hne.
Qed.

(** ** Scans of a table *)
Definition encode_entry (kv : K * V) : entry := (key_to_bytes kv.1, consensus_encode cv kv.2).

Lemma decode_stream_encode l :
  Forall (fun kv => valid ck kv.1 /\ valid cv kv.2) l -> decode_stream (map encode_entry l) = Ok l.
Proof using Type*.
  induction 1 as [|[k v] l [Hk Hv] _ IH]; [done|]. simpl in *. rewrite Z.eqb_refl, !decode_whole_encode by done.
  by rewrite IH.
Qed.

(** The entries under the prefix are the encodings of the table. *)
Lemma table_of_scan tx m :
  table_of (tx_data tx) m ->
  exists l, raw_find_by_prefix [DB_PREFIX] tx = map encode_entry l /\ l ≡ₚ map_to_list m /\
    Forall (fun kv => valid ck kv.1 /\ valid cv kv.2) l.
Proof using Type*.
  intros [H1 H2].
  assert (forall s, (forall e, e ∈ s -> e ∈ raw_find_by_prefix [DB_PREFIX] tx) ->
    exists l, s = map encode_entry l /\ Forall (fun kv => m !! kv.1 = Some kv.2) l) as Hl.
  { induction s as [|[key bs] s IH]; intros Hs; [by exists []|].
    destruct IH as (l & -> & Hl); [intros e He; apply Hs; by right|].
    assert ((key, bs) ∈ raw_find_by_prefix [DB_PREFIX] tx) as [[key' ->] Hlk]%elem_of_find_by_prefix
      by (apply Hs; left).
    apply H2 in Hlk as (k & v & Hm & -> & ->). exists ((k, v) :: l). split; [done|]. by constructor. }
  destruct (Hl (raw_find_by_prefix [DB_PREFIX] tx)) as (l & Heq & Hm); [done|]. exists l. split; [done|].
  rewrite Forall_forall in Hm. split; [|apply Forall_forall; intros [k v] Hin; by destruct (H1 _ _ (Hm _ Hin)) as (? & ? & _)].
  apply NoDup_Permutation; [|apply NoDup_map_to_list|].
  - pose proof (find_by_prefix_NoDup [DB_PREFIX] tx) as Hd. rewrite Heq, map_map in Hd.
    by apply NoDup_fmap_1 in Hd.
  - intros [k v]. rewrite elem_of_map_to_list. split; [apply (Hm (k, v))|].
    intros Hkv. destruct (H1 _ _ Hkv) as (Hk & Hv & Hd).
    assert ((key_to_bytes k, consensus_encode cv v) ∈ map encode_entry l) as Hin.
    { rewrite <- Heq. apply elem_of_find_by_prefix. split; [|done]. by exists (consensus_encode ck k). }
    apply list_elem_of_fmap in Hin as ([k' v'] & [= Hk' Hv'] & Hin). simpl in *.
    destruct (H1 _ _ (Hm _ Hin)) as (? & ? & _). simpl in *.
    apply (encode_inj ck) in Hk' as ->; [|done..]. by apply (encode_inj cv) in Hv' as ->.
Qed.

Lemma table_of_clear tx m : table_of (tx_data tx) m -> table_of (tx_data (raw_remove_by_prefix [DB_PREFIX] tx)) ∅.
Proof using Type*.
  intros _. split; [done|]. intros key bs. rewrite remove_by_prefix_lookup, decide_True; [done|]. by exists key.
Qed.

(** The table of [Db] that is a database of its own. *)
Definition own_table : table (gmap K V) K V := Table id (fun f => f).

(** C38: The typed operations implement the tables.  While the bytes under the
    prefix of a table encode a finite map, no typed operation fails to
    decode; reading, inserting, inserting a new entry, removing an entry and
    removing all entries answer what they answer on the map, and leave bytes
    that encode the resulting map.  The scan returns every entry of the map
    once, and the descending scan the same backwards. *)
Theorem typed_refines_table tx m :
  table_of (tx_data tx) m ->
  let R (t : outcome E (option V) * MemTransaction) (s : outcome E (option V) * gmap K V) :=
    t.1 = s.1 /\ table_of (tx_data t.2) s.2 in
  (forall k, valid ck k -> R (typed_get_value k tx) (get_value own_table k m)) /\
  (forall k v, valid ck k -> valid cv v -> R (typed_insert_entry k v tx) (insert_entry own_table k v m)) /\
  (forall k, valid ck k -> R (typed_remove_entry k tx) (remove_entry own_table k m)) /\
  (forall k v, valid ck k -> valid cv v ->
     (typed_insert_new_entry k v tx).1 = (insert_new_entry (E := E) own_table k v m).1 /\
     table_of (tx_data (typed_insert_new_entry k v tx).2) (insert_new_entry (E := E) own_table k v m).2) /\
  table_of (tx_data (typed_remove_by_prefix tx).2) (remove_by_prefix (E := E) own_table (fun _ => True) m).2 /\
  (exists l, typed_find_by_prefix tx = (Ok l, tx) /\ l ≡ₚ map_to_list m /\
     typed_find_by_prefix_sorted_descending tx = (Ok (reverse l), tx)).
Proof using Type*.
  intros Ht R.
  assert (forall k v, valid ck k -> valid cv v -> R (typed_insert_entry k v tx) (insert_entry own_table k v m)) as Hins.
  { intros k v Hk Hv. split; simpl; [|by apply table_of_insert].
    by rewrite (table_of_lookup _ _ _ Ht Hk), (decode_option_encode _ _ _ Ht). }
  split; [|split; [done|split; [|split; [|split]]]].
  - intros k Hk. split; [|done]. simpl. unfold raw_get_bytes.
    by rewrite (table_of_lookup _ _ _ Ht Hk), (decode_option_encode _ _ _ Ht).
  - intros k Hk. split; simpl; [|by apply table_of_delete].
    by rewrite (table_of_lookup _ _ _ Ht Hk), (decode_option_encode _ _ _ Ht).
  - intros k v Hk Hv. destruct (Hins k v Hk Hv) as [Ha Hb]. unfold typed_insert_new_entry, insert_new_entry, mbind, M_bind.
    destruct (typed_insert_entry k v tx) as [o tx'], (insert_entry own_table k v m) as [o' m']. simpl in *. subst o'.
    by destruct o as [[]| |].
  - simpl. rewrite filter_all_removed. by apply (table_of_clear tx m).
  - destruct (table_of_scan tx m Ht) as (l & Hl & Hperm & Hv). exists l.
    unfold typed_find_by_prefix, typed_find_by_prefix_sorted_descending.
    rewrite find_descending_reverse, Hl, decode_stream_encode by done. split; [done|]. split; [done|].
    rewrite <- fmap_reverse, decode_stream_encode; [done|]. by apply Forall_reverse.
Qed.
End typed.

(** ** Tables keyed by integers

    [BigSize] keeps the order of the integers it encodes, so the first entry
    of a descending scan has the largest key. *)
Section log.
Context {V E : Type} (DB_PREFIX : Z) (ck : codec Z) (cv : codec V) `{!Lawful ck, !Lawful cv}.
Context (Hvalid : forall k, valid ck k -> 0 <= k).
Context (Hord : forall a b, valid ck a -> valid ck b ->
  bytes_le (consensus_encode ck a) (consensus_encode ck b) -> a <= b).

(** [find_by_prefix_sorted_descending(..).next()], and the index after it. *)
Definition typed_next_index : M MemTransaction E Z := fun tx =>
  match (typed_find_by_prefix_sorted_descending (E := E) DB_PREFIX ck cv tx).1 with
  | Ok ((k, _) :: _) => (Ok (k + 1), tx)
  | Ok [] => (Ok 0, tx)
  | Err e => (Err e, tx)
  | Panic => (Panic, tx)
  end.

Lemma max_next_index (m : gmap Z V) k :
  0 <= k -> is_Some (m !! k) -> (forall k', is_Some (m !! k') -> k' <= k) -> next_index m = k + 1.
Proof.
  intros Hk [v Hm] Hmax. apply next_index_bound in Hm as Hb.
  destruct (next_index_attained m) as [H0|Ha]; [lia|]. apply Hmax in Ha. lia.
Qed.

(** The next index of a log is read off the store.  For a table keyed by
    integers whose encoding keeps their order, taking the first entry of the
    descending scan and adding one, or zero when there is none, is the index
    the tables of this development define as one more than the largest key. *)
Theorem log_next_index tx m :
  table_of DB_PREFIX ck cv (tx_data tx) m -> typed_next_index tx = (Ok (next_index m), tx).
Proof using Type*.
  intros Ht. destruct (table_of_scan DB_PREFIX ck cv tx m Ht) as (l & Hl & Hperm & Hv).
  unfold typed_next_index, typed_find_by_prefix_sorted_descending. simpl.
  rewrite find_descending_reverse, Hl, <- fmap_reverse, decode_stream_encode by (done || by apply Forall_reverse).
  assert (StronglySorted (flip entry_le) (map (encode_entry DB_PREFIX ck cv) (reverse l))) as Hs.
  { change (map (encode_entry DB_PREFIX ck cv) (reverse l)) with (encode_entry DB_PREFIX ck cv <$> reverse l).
    rewrite fmap_reverse. apply StronglySorted_reverse. change (encode_entry DB_PREFIX ck cv <$> l) with
      (map (encode_entry DB_PREFIX ck cv) l). rewrite <- Hl, raw_find_by_prefix_filter.
    apply StronglySorted_filter, iter_sorted. }
  rewrite <- reverse_Permutation in Hperm. apply Forall_reverse in Hv.
  destruct (reverse l) as [|[k v] r].
  { apply Permutation_nil_l in Hperm. symmetry in Hperm. apply map_to_list_empty_iff in Hperm as ->. done. }
  apply Forall_cons in Hv as [[Hk _] Hr]. simpl in Hs. apply StronglySorted_inv in Hs as [_ Hs].
  rewrite (max_next_index m k); [done|by apply Hvalid| |].
  - exists v. apply elem_of_map_to_list. rewrite <- Hperm. left.
  - intros k' [v' Hkv%elem_of_map_to_list]. rewrite <- Hperm in Hkv.
    apply elem_of_cons in Hkv as [[= -> ->]|Hin]; [lia|]. rewrite Forall_forall in Hr. pose proof (proj1 (Forall_forall _ _) Hs) as Hle.
    assert (flip entry_le (encode_entry DB_PREFIX ck cv (k, v)) (encode_entry DB_PREFIX ck cv (k', v'))) as He.
    { apply Hle. apply list_elem_of_fmap. by exists (k', v'). }
    apply entry_le_key, bytes_leb_cons in He as [|[_ He]]; [simpl in *; lia|].
    apply Hord; [by apply (Hr (k', v'))|done|done].
Qed.
End log.

(** ** Autocommit

    [Database::autocommit] runs a closure in a new transaction until its
    commit goes through.  [others n] is what other transactions commit between
    the beginning and the commit of attempt [n]. *)
Inductive AutocommitError (E : Type) : Type :=
| CommitFailed (attempts : nat) (last_error : DatabaseError)
| ClosureError (attempts : nat) (error : E).
Arguments CommitFailed {_} _ _.
Arguments ClosureError {_} _ _.

Section autocommit.
Abbreviation store := (gmap (list Z) (list Z)).
Context {T E : Type} (tx_fn : M MemTransaction E T) (others : nat -> store -> store) (max_attempts : option nat).

Fixpoint autocommit_loop (fuel curr_attempts : nat) (data : store) :
    option (outcome (AutocommitError E) T * store) :=
  match fuel with
  | 0%nat => None
  | S fuel' =>
      let curr_attempts := S curr_attempts in
      let (tx_fn_res, dbtx) := tx_fn (begin_transaction data) in
      let data1 := others curr_attempts data in
      match tx_fn_res with
      | Panic => Some (Panic, data1)
      | Err err => Some (Err (ClosureError curr_attempts err), data1)
      | Ok val =>
          match commit_tx dbtx data1 with
          | inr data2 => Some (Ok val, data2)
          | inl err =>
              if match max_attempts with Some max_att => (max_att <=? curr_attempts)%nat | None => false end
              then Some (Err (CommitFailed curr_attempts err), data1)
              else autocommit_loop fuel' curr_attempts data1
          end
      end
  end.

Definition autocommit (fuel : nat) (data : store) : option (outcome (AutocommitError E) T * store) :=
  if decide (max_attempts = Some 0%nat) then Some (Panic, data) else autocommit_loop fuel 0 data.

(** The store after [n] attempts that did not write anything. *)
Fixpoint store_after (n : nat) (data : store) : store :=
  match n with
  | 0%nat => data
  | S n' => others (S n') (store_after n' data)
  end.

(** How attempt [n] on [snapshot] ends. *)
Definition attempt_ends (n : nat) (snapshot : store) (r : outcome (AutocommitError E) T) (data' : store) : Prop :=
  let (res, tx) := tx_fn (begin_transaction snapshot) in
  let data := others n snapshot in
  match r with
  | Ok val => res = Ok val /\ (forall k, k ∈ written tx -> data !! k = snapshot !! k) /\ written_over tx data data'
  | Err (ClosureError attempts err) => attempts = n /\ res = Err err /\ data' = data
  | Err (CommitFailed attempts err) =>
      attempts = n /\ err = WriteConflict /\ (exists max, max_attempts = Some max /\ (max <= n)%nat) /\ data' = data
  | Panic => res = Panic /\ data' = data
  end.

Context (Hopened : forall snapshot, opened snapshot (tx_fn (begin_transaction snapshot)).2).

Lemma autocommit_loop_ends fuel n data r data' :
  autocommit_loop fuel n (store_after n data) = Some (r, data') ->
  exists n', (n < n')%nat /\ attempt_ends n' (store_after (pred n') data) r data'.
Proof using Type*.
  revert n. induction fuel as [|fuel IH]; intros n; [done|]. cbn [autocommit_loop].
  pose proof (Hopened (store_after n data)) as Ho.
  destruct (tx_fn (begin_transaction (store_after n data))) as [res tx] eqn:Htx. simpl in Ho.
  assert (forall r data', (let (res, tx) := (res, tx) in attempt_ends (S n) (store_after n data) r data') ->
    exists n', (n < n')%nat /\ attempt_ends n' (store_after (pred n') data) r data') as Hnow.
  { intros r' d' H. exists (S n). split; [lia|exact H]. }
  destruct res as [val|err|].
  - destruct (opened_commit _ _ (others (S n) (store_after n data)) Ho) as [(Hall & d & -> & Hd)|(Hno & ->)].
    + intros [= <- <-]. apply Hnow. unfold attempt_ends. by rewrite Htx.
    + destruct max_attempts as [max|] eqn:Hmax; [destruct (Nat.leb_spec max (S n))|].
      * intros [= <- <-]. apply Hnow. unfold attempt_ends. rewrite Htx, Hmax. eauto 10.
      * intros (n' & Hn & Hend)%(IH (S n)). exists n'. split; [lia|done].
      * intros (n' & Hn & Hend)%(IH (S n)). exists n'. split; [lia|done].
  - intros [= <- <-]. apply Hnow. unfold attempt_ends. by rewrite Htx.
  - intros [= <- <-]. apply Hnow. unfold attempt_ends. by rewrite Htx.
Qed.

Lemma autocommit_loop_returns fuel n max data :
  max_attempts = Some max -> (0 < fuel)%nat -> (max <= n + fuel)%nat ->
  exists r, autocommit_loop fuel n data = Some r.
Proof using Type.
  intros Hmax. revert n data. induction fuel as [|fuel IH]; intros n data Hf Hle; [lia|]. cbn [autocommit_loop].
  destruct (tx_fn (begin_transaction data)) as [[val|err|] tx]; [|by eauto..].
  destruct (commit_tx _ _); [|by eauto]. rewrite Hmax. destruct (Nat.leb_spec max (S n)); [by eauto|].
  apply IH; lia.
Qed.

Lemma autocommit_loop_quiet fuel n m data :
  (n < m <= n + fuel)%nat -> others m (store_after (pred m) data) = store_after (pred m) data ->
  exists r, autocommit_loop fuel n (store_after n data) = Some r.
Proof using Type*.
  intros Hm Hquiet. revert n Hm. induction fuel as [|fuel IH]; intros n Hm; [lia|]. cbn [autocommit_loop].
  pose proof (Hopened (store_after n data)) as Ho.
  destruct (tx_fn (begin_transaction (store_after n data))) as [[val|err|] tx]; [|by eauto..]. simpl in Ho.
  destruct (decide (m = S n)) as [->|Hne].
  - simpl in Hquiet. rewrite Hquiet.
    destruct (opened_commit _ _ (store_after n data) Ho) as [(_ & d & -> & _)|(Hno & _)]; [by eauto|].
    by destruct Hno.
  - destruct (commit_tx _ _); [|by eauto]. destruct (match max_attempts with Some _ => _ | None => _ end); [by eauto|].
    apply (IH (S n)). lia.
Qed.

(** An autocommit block takes effect at once or not at all.  A call that
    returns a value ran the closure once on the store at the beginning of
    some attempt, no key it wrote was changed by others until its commit, and
    its writes are in the store; every attempt before it left nothing.  A call
    that returns an error, of the closure or of the last commit, leaves the
    store to the others.  The call returns after at most the maximum number of
    attempts when there is one, and with the first attempt during which the
    others do not write. *)
Theorem autocommit_atomic data :
  max_attempts <> Some 0%nat ->
  (forall fuel r data', autocommit fuel data = Some (r, data') ->
     exists n, (1 <= n)%nat /\ attempt_ends n (store_after (pred n) data) r data') /\
  (forall max, max_attempts = Some max -> exists r, autocommit max data = Some r) /\
  (forall n, (1 <= n)%nat -> others n (store_after (pred n) data) = store_after (pred n) data ->
     exists r, autocommit n data = Some r).
Proof using Type*.
  intros Hmax. assert (forall fuel, autocommit fuel data = autocommit_loop fuel 0 data) as Heq.
  { intros fuel. unfold autocommit. by rewrite decide_False by done. }
  split; [|split].
  - intros fuel r data'. rewrite Heq. intros (n & Hn & Hend)%(autocommit_loop_ends fuel 0). eauto.
  - intros max Hm. rewrite Heq. apply (autocommit_loop_returns _ _ max); [done| |lia].
    destruct max; [congruence|lia].
  - intros n Hn Hquiet. rewrite Heq. apply (autocommit_loop_quiet n 0 n data); [lia|done].
Qed.
End autocommit.

(** ** [BigSize] keeps the order *)
Lemma bytes_le_snoc a b c d :
  length a = length b -> bytes_le (a ++ [c]) (b ++ [d]) -> (a <> b /\ bytes_le a b) \/ (a = b /\ c <= d).
Proof.
  revert b. induction a as [|x a IH]; intros [|y b] Hlen; try done.
  - intros [?|[? _]]%bytes_leb_cons; right; split; done || lia.
  - simpl in *. intros [Hlt|[-> Hle]]%bytes_leb_cons.
    + left. split; [intros [= ? _]; lia|]. apply bytes_leb_cons. by left.
    + destruct (IH b ltac:(lia) Hle) as [[Hne Hle']|[-> Hcd]]; [left|by right].
      split; [congruence|]. apply bytes_leb_cons. by right.
Qed.

Lemma to_be_bytes_le n x y :
  0 <= x < 256 ^ Z.of_nat n -> 0 <= y < 256 ^ Z.of_nat n ->
  bytes_le (to_be_bytes n x) (to_be_bytes n y) -> x <= y.
Proof.
  revert x y. induction n as [|n IH]; intros x y Hx Hy; [simpl in *; lia|].
  rewrite Nat2Z.inj_succ, Z.pow_succ_r in Hx, Hy by lia.
  assert (0 <= x / 256 < 256 ^ Z.of_nat n) as Hx' by (split; [apply Z.div_pos; lia|apply Z.div_lt_upper_bound; lia]).
  assert (0 <= y / 256 < 256 ^ Z.of_nat n) as Hy' by (split; [apply Z.div_pos; lia|apply Z.div_lt_upper_bound; lia]).
  pose proof (Z.div_mod x 256 ltac:(lia)). pose proof (Z.div_mod y 256 ltac:(lia)).
  pose proof (Z.mod_pos_bound x 256 ltac:(lia)). pose proof (Z.mod_pos_bound y 256 ltac:(lia)).
  intros [[Hne Hle]|[Heq Hle]]%bytes_le_snoc; [| |by rewrite !to_be_bytes_length].
  - apply IH in Hle; [|done..]. assert (x / 256 <> y / 256) by (intros E; apply Hne; by rewrite E). lia.
  - apply to_be_bytes_inj in Heq; [|done..]. lia.
Qed.

Lemma big_size_le x y :
  is_u64 x -> is_u64 y ->
  bytes_le (consensus_encode Bolt.big_size x) (consensus_encode Bolt.big_size y) -> x <= y.
Proof.
  unfold is_u64, u64_max. intros Hx Hy. cbn [consensus_encode Bolt.big_size].
  destruct (Z.ltb_spec x 253), (Z.ltb_spec y 253); [| |destruct (Z.ltb_spec y 65536)..];
    try (destruct (Z.ltb_spec x 65536)); try (destruct (Z.ltb_spec x 4294967296));
    try (destruct (Z.ltb_spec y 4294967296)); try (by intros; lia);
    intros [?|[? Hle]]%bytes_leb_cons; try lia; apply to_be_bytes_le in Hle; simpl; lia.
Qed.

Module RawDbExample.
Import Bolt.

Definition snapshot1 : gmap (list Z) (list Z) := {[ [1] := [10] ]}.
Definition tx1 : MemTransaction := (raw_insert_bytes [1] [11] (begin_transaction snapshot1)).2.

Lemma commit_no_lost_update_witness :
  exists data', commit_tx tx1 (<[[2] := [20]]> snapshot1) = inr data'.
Proof.
  apply (commit_no_lost_update snapshot1 tx1 (<[[2] := [20]]> snapshot1)).
  - apply opened_insert, opened_begin.
  - intros k Hk. apply list_elem_of_singleton in Hk as ->. vm_compute. reflexivity.
Defined.

(** Two modules use the same key. *)
Definition ops1 : list (Z * RawOp) :=
  [(0, RawInsert [1] [2]); (1, RawInsert [1] [3]); (0, RawFindByPrefix []); (1, RawRemoveByPrefix []); (0, RawGet [1])].

Lemma module_isolation_witness :
  of_module 0 (run_modules big_size ops1 (begin_transaction ∅)).1 =
  [RawValue None; RawStream [([1], [2])]; RawValue (Some [2])].
Proof.
  transitivity (run_alone (of_module 0 ops1) (begin_transaction ∅)).1; [|vm_compute; reflexivity].
  apply (module_isolation big_size big_size_u64 ops1 (begin_transaction ∅) 0 ∅).
  - repeat constructor; simpl; lia.
  - lia.
  - intros k. rewrite !lookup_empty. reflexivity.
Defined.

Definition table1 : gmap Z Z := {[ 5 := 7 ]}.
Definition bytes1 : gmap (list Z) (list Z) := {[ [16; 5] := [7] ]}.

Lemma table1_bytes1 : table_of 16 u8_codec u8_codec bytes1 table1.
Proof.
  unfold table1, bytes1. split.
  - intros k v [<- <-]%lookup_singleton_Some. split_and!; [simpl; unfold is_byte; lia..|reflexivity].
  - intros key bs [[= <-] <-]%lookup_singleton_Some. exists 5, 7. done.
Qed.

Lemma typed_refines_table_witness :
  (typed_insert_entry (E := Empty_set) 16 u8_codec u8_codec 5 8 (begin_transaction bytes1)).1 = Ok (Some 7).
Proof.
  transitivity (insert_entry (E := Empty_set) own_table 5 8 table1).1; [|reflexivity].
  apply (typed_refines_table 16 u8_codec u8_codec (begin_transaction bytes1) table1 table1_bytes1);
    simpl; unfold is_byte; lia.
Defined.

(** A log with three entries, the last one beyond one byte of key. *)
Definition log1 : gmap Z Z := <[0 := 7]> (<[1 := 8]> {[ 300 := 9 ]}).
Definition log_bytes1 : gmap (list Z) (list Z) := <[[16; 0] := [7]]> (<[[16; 1] := [8]]> {[ [16; 253; 1; 44] := [9] ]}).

Lemma log1_bytes1 : table_of 16 (u64_codec big_size) u8_codec log_bytes1 log1.
Proof.
  pose proof (u64_lawful big_size big_size_u64).
  apply (table_of_insert 16 (u64_codec big_size) u8_codec _ (<[1 := 8]> {[ 300 := 9 ]}) 0 7);
    [|simpl; unfold u64_max, is_byte; lia..].
  apply (table_of_insert 16 (u64_codec big_size) u8_codec _ {[ 300 := 9 ]} 1 8);
    [|simpl; unfold u64_max, is_byte; lia..].
  apply (table_of_insert 16 (u64_codec big_size) u8_codec ∅ ∅ 300 9);
    [by split|simpl; unfold u64_max, is_byte; lia..].
Qed.

Lemma log_next_index_witness :
  typed_next_index (E := Empty_set) 16 (u64_codec big_size) u8_codec (begin_transaction log_bytes1) =
  (Ok 301, begin_transaction log_bytes1).
Proof.
  pose proof (u64_lawful big_size big_size_u64).
  rewrite (log_next_index 16 (u64_codec big_size) u8_codec ltac:(simpl; lia)
             ltac:(intros a b Ha Hb; apply big_size_le; assumption) (begin_transaction log_bytes1) log1 log1_bytes1).
  vm_compute. reflexivity.
Defined.

(** The first attempt loses against another writer. *)
Definition write1 : M MemTransaction Empty_set (option (list Z)) := fun tx =>
  let (old, tx') := raw_insert_bytes [1] [2] tx in (Ok old, tx').
Definition others1 (n : nat) (data : gmap (list Z) (list Z)) : gmap (list Z) (list Z) :=
  if (n =? 1)%nat then <[[1] := [9]]> data else data.

Lemma autocommit_atomic_witness :
  (exists r, autocommit write1 others1 None 2 ∅ = Some r) /\
  autocommit write1 others1 None 2 ∅ = Some (Ok (Some [9]), {[ [1] := [2] ]}).
Proof.
  split; [|vm_compute; reflexivity].
  apply (autocommit_atomic write1 others1 None
           (fun snapshot => opened_insert snapshot _ [1] [2] (opened_begin snapshot)) ∅); [discriminate|lia|reflexivity].
Defined.
End RawDbExample.
