(* ===== verification/Amounts.v ===== *)
(** * Amounts and fees

    [fedimint-core/src/amount.rs] (millisatoshi amounts), the multi-unit
    [Amounts] of [fedimint-core/src/module/mod.rs] and the [FeeConsensus] of the
    modules' [config.rs].  An [Amount] is its number of millisatoshis, a [u64];
    the plain operators wrap, as they do in the release profile. *)

From S2P Require Import Prelude.

(** ** Single amounts *)
Module Amount.
Abbreviation t := Z (only parsing).

Definition from_sats (sats : Z) : t := wrap_u64 (sats * 1000).
Definition SATS_PER_BITCOIN : Z := 100000000.
Definition from_bitcoins (bitcoins : Z) : t := from_sats (wrap_u64 (bitcoins * SATS_PER_BITCOIN)).

Definition add (a b : t) : t := wrap_u64 (a + b).
Definition sub (a b : t) : t := wrap_u64 (a - b).
Definition mul_u64 (a : t) (n : Z) : t := wrap_u64 (a * n).

(** [iter.sum::<Amount>()]. *)
Definition sum (l : list t) : t := foldl add 0 l.

(** [a % b] and [a / b], which panic when [b] is zero. *)
Definition rem (a b : t) : option t := if b =? 0 then None else Some (a mod b).
Definition div (a b : t) : option Z := if b =? 0 then None else Some (a / b).

(** [Err msats] is [AmountConversionError::SubSatoshiPrecision]. *)
Definition ensure_sats_precision (a : t) : Z + unit :=
  if a mod 1000 =? 0 then inr tt else inl a.
Definition try_into_sats (a : t) : Z + Z :=
  match ensure_sats_precision a with
  | inl e => inl e
  | inr tt => inr (a / 1000)
  end.
Definition sats_round_down (a : t) : Z := a / 1000.

(** [From<bitcoin::Amount>]: asserts that the value is at most 21 million
    bitcoins. *)
Definition from_bitcoin_amount (sats : Z) : option t :=
  if sats <=? 2100000000000000 then Some (wrap_u64 (sats * 1000)) else None.

Lemma sum_wrap l acc :
  is_u64 acc -> foldl add acc l = wrap_u64 (acc + foldr Z.add 0 l).
Proof.
  revert acc. induction l as [|a l IH]; intros acc Hacc; simpl.
  - rewrite Z.add_0_r. symmetry. by apply wrap_u64_small.
  - unfold add at 2. rewrite IH by apply wrap_u64_range.
    unfold wrap_u64. rewrite Z.add_mod_idemp_l by lia. f_equal. lia.
Qed.

(** A sum that fits is the sum of the integers. *)
Lemma sum_exact l : is_u64 (foldr Z.add 0 l) -> sum l = foldr Z.add 0 l.
Proof.
  intros Hl. unfold sum. rewrite sum_wrap by (unfold is_u64, u64_max; lia).
  by apply wrap_u64_small.
Qed.

(** Wrapped terms do not wrap when their sum fits. *)
Lemma sum_wrapped {A} (f : A -> Z) (l : list A) :
  Forall (fun x => 0 <= f x) l -> sum_list (f <$> l) <= u64_max ->
  0 <= sum_list (f <$> l) /\ sum ((fun x => wrap_u64 (f x)) <$> l) = sum_list (f <$> l) /\ Forall (fun x => f x <= u64_max) l.
Proof.
  intros Hpos Hle. assert (H : 0 <= sum_list (f <$> l) /\ (fun x => wrap_u64 (f x)) <$> l = f <$> l /\ Forall (fun x => f x <= u64_max) l).
  { induction Hpos as [|x l Hx Hl IH]; [done|]. rewrite !fmap_cons, sum_list_cons in *.
    assert (0 <= sum_list (f <$> l)) by (clear -Hl; induction Hl as [|y l Hy _ IH]; [done|]; rewrite fmap_cons, sum_list_cons; lia).
    destruct IH as (_ & -> & Hall); [lia|]. rewrite wrap_u64_small by (unfold is_u64; lia). split_and!; [lia|done|constructor; [lia|done]]. }
  destruct H as (H0 & -> & Hall). split_and!; [done| |done]. apply sum_exact. by split.
Qed.

(** Satoshi amounts up to the bitcoin supply convert to millisatoshis and back
    without loss. *)
Lemma from_bitcoin_amount_try_into_sats sats a :
  0 <= sats -> from_bitcoin_amount sats = Some a -> try_into_sats a = inr sats.
Proof.
  unfold from_bitcoin_amount. destruct (sats <=? _) eqn:Hle; [|done].
  intros Hs [= <-]. rewrite wrap_u64_small by (unfold is_u64, u64_max; lia).
  unfold try_into_sats, ensure_sats_precision.
  rewrite Z.mod_mul by lia. simpl. by rewrite Z.div_mul by lia.
Qed.
End Amount.

(** ** Multi-unit amounts *)

(** [AmountUnit::BITCOIN]. *)
Definition BITCOIN : Z := 0.

Module Amounts.
Abbreviation t := (gmap Z Z) (only parsing).

Definition ZERO : t := ∅.

Definition new_custom (unit amount : Z) : t := if amount =? 0 then ∅ else {[ unit := amount ]}.
Definition new_bitcoin (amount : Z) : t := new_custom BITCOIN amount.

(** [self.get(unit).copied().unwrap_or_default()]. *)
Definition get (m : t) (u : Z) : Z := default 0 (m !! u).
Definition get_bitcoin (m : t) : Z := get m BITCOIN.

(** [None] is the assertion that there is no other unit. *)
Definition expect_only_bitcoin (m : t) : option Z :=
  match m !! BITCOIN with
  | Some amount => if (size m =? 1)%nat then Some amount else None
  | None => Some 0
  end.

Definition add_entry (acc : option t) (e : Z * Z) : option t :=
  m ← acc; c ← checked_add (default 0 (m !! e.1)) e.2; Some (<[e.1 := c]> m).

Definition checked_add (m rhs : t) : option t :=
  foldl add_entry (Some m) (btree_iter rhs).

(** [checked_add_mut] as a change in place, with whether it succeeded: on an
    overflow the units before it are added and the others are not. *)
Fixpoint add_mut_entries (m : t) (l : list (Z * Z)) : t * bool :=
  match l with
  | [] => (m, true)
  | (unit, amount) :: l =>
      let prev := default 0 (m !! unit) in
      match Prelude.checked_add prev amount with
      | Some c => add_mut_entries (<[unit := c]> m) l
      | None => (<[unit := prev]> m, false)
      end
  end.
Definition checked_add_mut (m rhs : t) : t * bool := add_mut_entries m (btree_iter rhs).

Definition checked_add_unit (m : t) (amount unit : Z) : option t :=
  if amount =? 0 then Some m
  else c ← Prelude.checked_add (default 0 (m !! unit)) amount; Some (<[unit := c]> m).
Definition checked_add_bitcoin (m : t) (amount : Z) : option t := checked_add_unit m amount BITCOIN.

Definition sub_entry (acc : option t) (e : Z * Z) : option t :=
  m ← acc;
  if e.2 =? 0 then Some m
  else c ← checked_sub (default 0 (m !! e.1)) e.2;
       Some (if c =? 0 then delete e.1 m else <[e.1 := c]> m).
Definition checked_sub (m other : t) : option t :=
  foldl sub_entry (Some m) (btree_iter other).

(** The documented invariant: no entry is zero, and every entry is a [u64]. *)
Definition wf (m : t) : Prop := map_Forall (fun _ a => 0 < a <= u64_max) m.

Lemma get_insert m u c u' : get (<[u := c]> m) u' = if decide (u = u') then c else get m u'.
Proof. unfold get. rewrite lookup_insert. by case_decide. Qed.

Lemma wf_get m u : wf m -> is_u64 (get m u).
Proof.
  intros Hwf. unfold get. destruct (m !! u) as [a|] eqn:Hu; simpl.
  - apply Hwf in Hu. unfold is_u64. lia.
  - unfold is_u64, u64_max. lia.
Qed.

Lemma new_bitcoin_wf a : is_u64 a -> wf (new_bitcoin a).
Proof.
  unfold new_bitcoin, new_custom, is_u64. intros Ha. destruct (a =? 0) eqn:E.
  - apply map_Forall_empty.
  - apply map_Forall_singleton. lia.
Qed.

Lemma get_new_bitcoin a u : get (new_bitcoin a) u = if decide (u = BITCOIN) then a else 0.
Proof.
  unfold get, new_bitcoin, new_custom. destruct (a =? 0) eqn:E.
  - rewrite lookup_empty. simpl. apply Z.eqb_eq in E. case_decide; lia.
  - rewrite lookup_singleton. destruct (decide (BITCOIN = u)), (decide (u = BITCOIN)); naive_solver.
Qed.

Lemma get_bitcoin_new a : get_bitcoin (new_bitcoin a) = a.
Proof. unfold get_bitcoin. by rewrite get_new_bitcoin, decide_True. Qed.

Lemma expect_only_bitcoin_new a : expect_only_bitcoin (new_bitcoin a) = Some a.
Proof.
  unfold expect_only_bitcoin, new_bitcoin, new_custom. destruct (Z.eqb_spec a 0) as [->|]; [done|].
  by rewrite lookup_singleton_eq, map_size_singleton.
Qed.

(** The sum of the entries of a list for one unit. *)
Definition list_get (l : list (Z * Z)) (u : Z) : Z := default 0 (list_to_map (M:=gmap Z Z) l !! u).

Lemma foldl_add_entry_None l : foldl add_entry None l = None.
Proof. induction l; simpl; auto. Qed.

Lemma foldl_add_entry l m r :
  NoDup l.*1 -> foldl add_entry (Some m) l = Some r ->
  (forall u, get r u = get m u + list_get l u) /\
  (wf m -> Forall (fun e => 0 < e.2) l -> wf r).
Proof.
  revert m. induction l as [|[u a] l IH]; intros m Hnd; simpl.
  - intros [= ->]. split; [intros u; unfold list_get; simpl; rewrite lookup_empty; simpl; lia|done].
  - destruct (Prelude.checked_add _ a) as [c|] eqn:Hc; simpl; [|by rewrite foldl_add_entry_None].
    apply checked_add_Some in Hc as [-> Hc]. inversion Hnd as [|? ? Hu Hnd']; subst.
    intros Hf. destruct (IH _ Hnd' Hf) as [Hget Hwf]. split.
    + intros u'. rewrite Hget, get_insert. unfold list_get. simpl. rewrite lookup_insert.
      case_decide; [subst u'|done]. simpl. fold (get m u).
      replace (list_to_map l !! u) with (@None Z); [simpl; lia|].
      symmetry. by apply not_elem_of_list_to_map_1.
    + intros Hm Hl. inversion Hl as [|? ? Ha Hl']; subst. apply Hwf; [|done].
      apply map_Forall_insert_2; [|done]. simpl in Ha. fold (get m u) in Hc |- *.
      pose proof (wf_get m u Hm). unfold is_u64 in *. lia.
Qed.

Lemma list_get_btree_iter (m : t) u : list_get (btree_iter m) u = get m u.
Proof.
  unfold list_get, get. f_equal. destruct (m !! u) as [a|] eqn:Hu.
  - apply elem_of_list_to_map_1; [apply NoDup_btree_iter|by apply elem_of_btree_iter].
  - apply not_elem_of_list_to_map_1. intros Hin.
    apply list_elem_of_fmap in Hin as ([u' a] & -> & Hin%elem_of_btree_iter). naive_solver.
Qed.

Lemma checked_add_get m rhs r u : checked_add m rhs = Some r -> get r u = get m u + get rhs u.
Proof.
  intros H. rewrite <- list_get_btree_iter with (m := rhs).
  eapply foldl_add_entry; [apply NoDup_btree_iter|done].
Qed.

Lemma checked_add_wf m rhs r : wf m -> wf rhs -> checked_add m rhs = Some r -> wf r.
Proof.
  intros Hm Hr H. eapply foldl_add_entry; [apply NoDup_btree_iter|done|done|].
  apply Forall_forall. intros [u a] Hin%elem_of_btree_iter. apply Hr in Hin. simpl. lia.
Qed.

(** The addition only fails when some unit overflows. *)
Lemma foldl_add_entry_total l m :
  NoDup l.*1 -> (forall u a, (u, a) ∈ l -> get m u + a <= u64_max) ->
  exists r, foldl add_entry (Some m) l = Some r.
Proof.
  revert m. induction l as [|[u a] l IH]; intros m Hnd Hl; simpl; [by eexists|].
  inversion Hnd as [|? ? Hu Hnd']; subst. fold (get m u).
  unfold Prelude.checked_add. pose proof (Hl u a ltac:(by left)).
  destruct (_ <=? u64_max) eqn:E; [|lia]. simpl. apply IH; [done|].
  intros u' a' Hin. rewrite get_insert. case_decide as Heq.
  - subst u'. destruct Hu. by apply (list_elem_of_fmap_2 fst) in Hin.
  - apply Hl. by right.
Qed.

Lemma checked_add_total m rhs :
  (forall u, get m u + get rhs u <= u64_max) -> exists r, checked_add m rhs = Some r.
Proof.
  intros Hb. apply foldl_add_entry_total; [apply NoDup_btree_iter|].
  intros u a Hin%elem_of_btree_iter. specialize (Hb u). unfold get in *.
  rewrite Hin in Hb. done.
Qed.

Lemma checked_add_mut_Some m rhs r : checked_add m rhs = Some r -> checked_add_mut m rhs = (r, true).
Proof.
  unfold checked_add, checked_add_mut. generalize (btree_iter rhs). intros l. revert m. induction l as [|[u a] l IH]; intros m; simpl.
  - by intros [= ->].
  - destruct (Prelude.checked_add (default 0 (m !! u)) a) as [c|]; simpl; [apply IH|]. by rewrite foldl_add_entry_None.
Qed.

(** *** Amounts of a single unit *)

Lemma btree_iter_new_custom u a : btree_iter (new_custom u a) = if a =? 0 then [] else [(u, a)].
Proof.
  unfold new_custom. destruct (a =? 0); [by apply btree_iter_nil|]. unfold btree_iter. by rewrite map_to_list_singleton.
Qed.

Lemma get_new_custom u a u' : get (new_custom u a) u' = if decide (u' = u) then a else 0.
Proof.
  unfold get, new_custom. destruct (Z.eqb_spec a 0) as [->|]; [rewrite lookup_empty; by case_decide|].
  rewrite lookup_singleton. destruct (decide (u = u')), (decide (u' = u)); naive_solver.
Qed.

Lemma new_custom_wf u a : is_u64 a -> wf (new_custom u a).
Proof.
  unfold new_custom, is_u64. intros Ha. destruct (Z.eqb_spec a 0); [apply map_Forall_empty|apply map_Forall_singleton; lia].
Qed.

Lemma checked_add_custom u a b :
  0 <= a -> 0 <= b -> a + b <= u64_max -> checked_add (new_custom u a) (new_custom u b) = Some (new_custom u (a + b)).
Proof.
  intros Ha Hb Hle. unfold checked_add. rewrite btree_iter_new_custom. destruct (Z.eqb_spec b 0) as [->|Hb0]; [by rewrite Z.add_0_r|].
  cbn [foldl add_entry mbind option_bind fst snd]. fold (get (new_custom u a) u). rewrite get_new_custom, decide_True by done.
  assert (Hc : Prelude.checked_add a b = Some (a + b)) by by apply checked_add_Some. rewrite Hc. simpl. f_equal.
  unfold new_custom. rewrite (proj2 (Z.eqb_neq (a + b) 0)) by lia. destruct (a =? 0); [done|]. by rewrite insert_singleton_eq.
Qed.

Lemma checked_sub_custom u a b :
  0 <= b <= a -> checked_sub (new_custom u a) (new_custom u b) = Some (new_custom u (a - b)).
Proof.
  intros Hb. unfold checked_sub. rewrite btree_iter_new_custom. destruct (Z.eqb_spec b 0) as [->|Hb0]; [by rewrite Z.sub_0_r|].
  cbn [foldl sub_entry mbind option_bind fst snd]. rewrite (proj2 (Z.eqb_neq b 0)) by done.
  fold (get (new_custom u a) u). rewrite get_new_custom, decide_True by done.
  assert (Hc : Prelude.checked_sub a b = Some (a - b)) by (apply checked_sub_Some; lia). rewrite Hc. simpl. f_equal.
  unfold new_custom. rewrite (proj2 (Z.eqb_neq a 0)) by lia. destruct (Z.eqb_spec (a - b) 0); [by rewrite delete_singleton_eq|].
  by rewrite insert_singleton_eq.
Qed.

(** *** The invariant *)

Lemma checked_add_unit_wf m a u r : wf m -> is_u64 a -> checked_add_unit m a u = Some r -> wf r.
Proof.
  unfold checked_add_unit. intros Hm Ha. destruct (Z.eqb_spec a 0); [by intros [= <-]|].
  destruct (Prelude.checked_add _ a) as [c|] eqn:Hc; simpl; [|done]. intros [= <-]. apply checked_add_Some in Hc as [-> Hc].
  pose proof (wf_get m u Hm). unfold get, is_u64 in *. apply map_Forall_insert_2; [lia|done].
Qed.

Lemma checked_sub_wf m other r : wf m -> wf other -> checked_sub m other = Some r -> wf r.
Proof.
  intros Hm Ho. unfold checked_sub. assert (Hl : Forall (fun e => 0 < e.2) (btree_iter other)).
  { apply Forall_forall. intros [u a] Hin%elem_of_btree_iter. apply Ho in Hin. simpl. lia. }
  revert m Hm. induction Hl as [|[u a] l Ha _ IH]; intros m Hm; [by intros [= <-]|]. cbn [foldl sub_entry mbind option_bind fst snd] in *.
  rewrite (proj2 (Z.eqb_neq a 0)) by lia. destruct (Prelude.checked_sub _ a) as [c|] eqn:Hc; cbn [mbind option_bind].
  - apply checked_sub_Some in Hc as [-> Hc]. apply IH. pose proof (wf_get m u Hm). unfold get, is_u64 in *.
    destruct (Z.eqb_spec (default 0 (m !! u) - a) 0); [by apply map_Forall_delete|apply map_Forall_insert_2; [lia|done]].
  - intros Hf. exfalso. clear -Hf. induction l as [|e l IH]; [done|]. apply IH, Hf.
Qed.

Lemma checked_add_mut_wf m rhs : wf m -> wf rhs -> wf (checked_add_mut m rhs).1.
Proof.
  intros Hm Hr. unfold checked_add_mut. assert (Hl : Forall (fun e => 0 < e.2 <= u64_max) (btree_iter rhs)).
  { apply Forall_forall. intros [u a] Hin%elem_of_btree_iter. by apply Hr in Hin. }
  revert m Hm. induction Hl as [|[u a] l Ha _ IH]; intros m Hm; [done|]. cbn [add_mut_entries fst snd] in *.
  pose proof (wf_get m u Hm) as Hg. unfold get, is_u64 in Hg.
  destruct (Prelude.checked_add (default 0 (m !! u)) a) as [c|] eqn:Hc.
  - apply checked_add_Some in Hc as [-> Hc]. apply IH, map_Forall_insert_2; [lia|done].
  - cbn [fst]. destruct (m !! u) as [b|] eqn:Hb; [by rewrite insert_id|]. exfalso.
    assert (Prelude.checked_add 0 a = Some a) by (apply checked_add_Some; lia). simpl in Hc. congruence.
Qed.

(** C39: no operation on amounts of several units introduces a zero entry or an
    entry that does not fit, not even an addition in place that fails half way.
    This is the documented invariant of the type, and makes amounts that agree
    in every unit equal. *)
Theorem amounts_type_invariant :
  wf ZERO /\ (forall u a, is_u64 a -> wf (new_custom u a)) /\ (forall a, is_u64 a -> wf (new_bitcoin a)) /\
  (forall m rhs r, wf m -> wf rhs -> checked_add m rhs = Some r -> wf r) /\
  (forall m rhs, wf m -> wf rhs -> wf (checked_add_mut m rhs).1) /\
  (forall m a u r, wf m -> is_u64 a -> checked_add_unit m a u = Some r -> wf r) /\
  (forall m other r, wf m -> wf other -> checked_sub m other = Some r -> wf r) /\
  (forall m m', wf m -> wf m' -> (forall u, get m u = get m' u) -> m = m').
Proof.
  split_and!; [apply map_Forall_empty|apply new_custom_wf|apply new_bitcoin_wf|apply checked_add_wf|apply checked_add_mut_wf|apply checked_add_unit_wf|apply checked_sub_wf|].
  intros m m' Hm Hm' Hg. apply map_eq. intros u. specialize (Hg u). unfold get in Hg.
  destruct (m !! u) as [a|] eqn:Ha, (m' !! u) as [b|] eqn:Hb; simpl in Hg; [by subst|apply Hm in Ha; simpl in Ha; lia|apply Hm' in Hb; simpl in Hb; lia|done].
Qed.
End Amounts.

(** ** Fees

    The [FeeConsensus] of the mint, lightning v2 and wallet v2 modules have the
    same fields and the same [fee]; they differ in what [new] allows. *)
Module Fee.
Record FeeConsensus := { base : Z; parts_per_million : Z }.

(** [ExcessiveRelativeFeeError]. *)
Record ExcessiveRelativeFeeError := { excess_ppm : Z; max_ppm : Z }.

Definition new (base_msats max ppm : Z) : ExcessiveRelativeFeeError + FeeConsensus :=
  if max <? ppm then inl {| excess_ppm := ppm; max_ppm := max |}
  else inr {| base := base_msats; parts_per_million := ppm |}.

Definition mint_new : Z -> ExcessiveRelativeFeeError + FeeConsensus := new 100 1000.
Definition lnv2_new : Z -> ExcessiveRelativeFeeError + FeeConsensus := new (Amount.from_sats 1) 1000.
Definition walletv2_new : Z -> ExcessiveRelativeFeeError + FeeConsensus := new (Amount.from_sats 100) 10000.

Definition zero : FeeConsensus := {| base := 0; parts_per_million := 0 |}.

(** [None] is the panic of [expect]. *)
Definition fee_msats (f : FeeConsensus) (msats : Z) : option Z :=
  checked_add (saturating_mul msats (parts_per_million f) / 1000000) (base f).

Definition fee (f : FeeConsensus) (amount : Z) : option Z := fee_msats f amount.

(** [u64::next_power_of_two], which wraps to zero above [2^63] in a release
    build. *)
Definition next_power_of_two (x : Z) : Z :=
  if x <=? 1 then 1 else wrap_u64 (2 ^ Z.log2_up x).

Definition min_economical_denomination (f : FeeConsensus) : Z :=
  next_power_of_two (saturating_mul (base f) 4).

(** [u64::next_multiple_of]; the modulus is never zero for a base fee below
    [2^61]. *)
Definition next_multiple_of (x m : Z) : Z :=
  if x mod m =? 0 then x else wrap_u64 (x + (m - x mod m)).

Definition round_up (f : FeeConsensus) (amount : Z) : Z :=
  next_multiple_of amount (next_power_of_two (saturating_mul (base f) 4)).

(** What the constructors guarantee. *)
Definition wf (f : FeeConsensus) : Prop := 0 <= base f <= 100000 /\ 0 <= parts_per_million f <= 10000.

Lemma new_wf b max ppm f :
  0 <= b <= 100000 -> max <= 10000 -> 0 <= ppm -> new b max ppm = inr f -> wf f.
Proof.
  unfold new, wf. destruct (max <? ppm) eqn:E; [done|]. intros ? ? ? [= <-]. simpl. lia.
Qed.

(** The headroom the [expect] message speaks of: with a base fee of at most
    100 satoshis the addition cannot overflow, whatever the amount. *)
Lemma fee_total f amount :
  wf f -> is_u64 amount ->
  exists r, fee f amount = Some r /\ base f <= r <= u64_max.
Proof.
  intros [Hb Hp] Ha. unfold fee, fee_msats, saturating_mul.
  set (q := Z.min u64_max (amount * parts_per_million f) / 1000000).
  assert (0 <= q <= 18446744073710).
  { unfold q, is_u64, u64_max in *. split; [apply Z.div_pos; nia|].
    apply Z.div_le_upper_bound; lia. }
  exists (q + base f). rewrite checked_add_Some. unfold u64_max. lia.
Qed.

(** Below saturation the fee is the base fee plus the exact relative fee,
    rounded down. *)
Lemma fee_exact f amount :
  wf f -> 0 <= amount -> amount * parts_per_million f <= u64_max ->
  fee f amount = Some (amount * parts_per_million f / 1000000 + base f).
Proof.
  intros [Hb Hp] Ha Hs. unfold fee, fee_msats, saturating_mul. rewrite Z.min_r by done.
  rewrite checked_add_Some. split; [done|].
  assert (amount * parts_per_million f / 1000000 <= 18446744073710).
  { apply Z.div_le_upper_bound; unfold u64_max in *; lia. }
  unfold u64_max. lia.
Qed.

Lemma fee_u64 f amount r : wf f -> is_u64 amount -> fee f amount = Some r -> is_u64 r.
Proof.
  intros Hw Ha Hf. destruct (fee_total _ _ Hw Ha) as (r' & Hr & Hb).
  destruct Hw as [Hbase _]. rewrite Hf in Hr. simplify_eq. unfold is_u64. lia.
Qed.
End Fee.
