(* ===== verification/Peers.v ===== *)
(** * Guardians and quorums

    [fedimint-core/src/peer_id.rs]: the thresholds every component of a
    federation works with, and what makes them right: the quorums they define
    intersect in a correct guardian. *)

From S2P Require Import Prelude.

(** [NumPeers]; a federation has at least one guardian, and [max_evil]
    underflows otherwise. *)
Definition max_evil (total : Z) : Z := (total - 1) / 3.
Definition one_honest (total : Z) : Z := max_evil total + 1.
Definition threshold (total : Z) : Z := total - max_evil total.
Definition degree (total : Z) : Z := threshold total - 1.

(** [NumPeers::peer_ids]: [0u16..(self.0 as u16)], which truncates. *)
Definition peer_ids (total : Z) : list Z := seqZ 0 (total mod 65536).

Section bounds.
Context (n : Z) (Hn : 1 <= n).

Lemma max_evil_bound : 0 <= max_evil n /\ 3 * max_evil n + 1 <= n <= 3 * max_evil n + 3.
Proof using Hn. unfold max_evil. pose proof (Z.div_mod (n - 1) 3). pose proof (Z.mod_pos_bound (n - 1) 3). lia. Qed.

Lemma threshold_pos : 1 <= threshold n <= n.
Proof using Hn. unfold threshold. pose proof max_evil_bound. lia. Qed.

(** Two quorums overlap in more guardians than can be evil. *)
Lemma threshold_overlap : max_evil n < 2 * threshold n - n.
Proof using Hn. unfold threshold. pose proof max_evil_bound. lia. Qed.

(** The correct guardians alone make a quorum. *)
Lemma threshold_live : threshold n <= n - max_evil n.
Proof using Hn. unfold threshold. lia. Qed.
End bounds.

#[export] Hint Resolve threshold_pos threshold_overlap threshold_live : fedimint.

(** ** Quorum intersection

    Sets of guardians of a federation with guardians [all]. *)
Section quorums.
Context (all evil : gset Z).

Definition is_quorum (q : gset Z) : Prop :=
  q ⊆ all /\ threshold (Z.of_nat (size all)) <= Z.of_nat (size q).

Definition bft : Prop :=
  evil ⊆ all /\ Z.of_nat (size evil) <= max_evil (Z.of_nat (size all)).

Lemma quorum_overlap q1 q2 :
  is_quorum q1 -> is_quorum q2 ->
  2 * threshold (Z.of_nat (size all)) - Z.of_nat (size all) <= Z.of_nat (size (q1 ∩ q2)).
Proof.
  intros [Hs1 Hq1] [Hs2 Hq2].
  assert (size (q1 ∪ q2) <= size all)%nat by (apply subseteq_size; set_solver).
  assert (size (q1 ∪ q2) + size (q1 ∩ q2) = size q1 + size q2)%nat.
  { rewrite size_union_alt.
    assert (size q2 = size (q2 ∖ q1) + size (q1 ∩ q2))%nat; [|lia].
    rewrite <- size_union by set_solver. f_equal.
    apply set_eq. intros x. destruct (decide (x ∈ q1)); set_solver. }
  lia.
Qed.

(** A set with more guardians than can be evil has a correct one. *)
Lemma honest_member q :
  bft -> q ⊆ all -> max_evil (Z.of_nat (size all)) < Z.of_nat (size q) ->
  exists p, p ∈ q /\ p ∉ evil.
Proof.
  intros [_ He] Hq Hlt. destruct (decide (q ⊆ evil)) as [Hsub|Hsub].
  - apply subseteq_size in Hsub. lia.
  - destruct (set_choose_or_empty (q ∖ evil)) as [[p Hp]|Hempty].
    + exists p. set_solver.
    + destruct Hsub. intros p Hp. destruct (decide (p ∈ evil)); [done|]. set_solver.
Qed.

(** Any two quorums share a correct guardian. *)
Lemma quorum_intersection q1 q2 :
  all ≢ ∅ -> bft -> is_quorum q1 -> is_quorum q2 ->
  exists p, p ∈ q1 /\ p ∈ q2 /\ p ∉ evil.
Proof.
  intros Hne Hb H1 H2.
  assert (1 <= Z.of_nat (size all)) as Hn.
  { destruct (size all) eqn:E; [|lia]. apply size_empty_inv in E. set_solver. }
  pose proof (quorum_overlap q1 q2 H1 H2).
  pose proof (threshold_overlap _ Hn).
  destruct (honest_member (q1 ∩ q2)) as [p Hp]; [done|destruct H1; set_solver|lia|].
  exists p. set_solver.
Qed.

(** The correct guardians form a quorum. *)
Lemma honest_quorum : bft -> is_quorum (all ∖ evil).
Proof.
  intros [Hs He]. split; [set_solver|].
  rewrite size_difference by done. apply subseteq_size in Hs.
  unfold threshold. lia.
Qed.
End quorums.
