(* ===== verification/Votes.v ===== *)
(** * Agreeing on a number by votes

    Every guardian keeps voting for a number (block count, unix time, fee rate)
    and the modules derive one consensus value from the votes in their
    database: [consensus_block_count] and [consensus_unix_time] of the
    lightning v2 module, [consensus_block_count] and [consensus_feerate] of the
    wallet v2 module, and the medians of the first generation modules. *)

From S2P Require Import Prelude Peers.

(** [Vec::sort_unstable] on integers. *)
Definition sort_unstable (l : list Z) : list Z := merge_sort Z.le l.

(** [counts.sort_unstable(); counts.reverse();
    counts.get(num_peers.threshold() - 1).copied().unwrap_or(0)]. *)
Definition threshold_vote (n : Z) (votes : list Z) : Z :=
  default 0 (reverse (sort_unstable votes) !! Z.to_nat (threshold n - 1)).

(** [rates.sort_unstable(); rates.get(num_peers.threshold() - 1).copied()]. *)
Definition threshold_rate (n : Z) (rates : list Z) : option Z :=
  sort_unstable rates !! Z.to_nat (threshold n - 1).

(** Pad with a default up to the number of peers and take the middle:
    [counts\[peer_count / 2\]] (panics, here [None], when there are more votes
    than peers). *)
Definition median_vote (peer_count : Z) (dflt : Z) (votes : list Z) : option Z :=
  if Z.of_nat (length votes) <=? peer_count then
    sort_unstable (votes ++ replicate (Z.to_nat peer_count - length votes) dflt)
      !! Z.to_nat (peer_count / 2)
  else None.

(** Number of votes of at least (at most) [c]. *)
Definition at_least (c : Z) (votes : list Z) : nat := length (filter (fun v => c <= v) votes).
Definition at_most (c : Z) (votes : list Z) : nat := length (filter (fun v => v <= c) votes).

#[export] Instance Z_le_total_inst : Total Z.le.
Proof. intros x y. lia. Qed.

Lemma sort_unstable_perm l : sort_unstable l ≡ₚ l.
Proof. apply merge_sort_Permutation. Qed.

Lemma sort_unstable_sorted l : StronglySorted Z.le (sort_unstable l).
Proof. apply StronglySorted_merge_sort; apply _. Qed.

#[export] Instance at_least_proper c : Proper ((≡ₚ) ==> eq) (at_least c).
Proof. intros l1 l2 Hl. unfold at_least. by rewrite Hl. Qed.
#[export] Instance at_most_proper c : Proper ((≡ₚ) ==> eq) (at_most c).
Proof. intros l1 l2 Hl. unfold at_most. by rewrite Hl. Qed.

(** In an ascending list, position [k] is at most [c] exactly when more than
    [k] elements are. *)
Lemma sorted_lookup_le l k x c :
  StronglySorted Z.le l -> l !! k = Some x -> (x <= c <-> (k < at_most c l)%nat).
Proof.
  intros Hs. revert k. induction Hs as [|a l Hs IH Ha]; intros k Hk; [done|].
  unfold at_most in *. rewrite filter_cons. rewrite Forall_forall in Ha.
  destruct k as [|k]; simplify_eq/=.
  - case_decide as Hc; simpl; [lia|]. split; [lia|].
    intros Hlt. destruct (filter _ l) as [|y ys] eqn:Hf; simpl in Hlt; [lia|].
    assert (y ∈ filter (fun v => v <= c) l) as Hy by (rewrite Hf; left).
    apply list_elem_of_filter in Hy as [Hyc Hy]. apply Ha in Hy. lia.
  - rewrite (IH k Hk). case_decide as Hc; simpl; [lia|].
    rewrite filter_none; [simpl; lia|]. intros y Hy. apply Ha in Hy. lia.
Qed.

(** The mirror image for descending lists. *)
Lemma reverse_sorted_lookup_ge l k x c :
  StronglySorted Z.le l -> reverse l !! k = Some x ->
  (c <= x <-> (k < at_least c l)%nat).
Proof.
  intros Hs Hk.
  pose proof (sorted_lookup_le (Z.opp <$> reverse l) k (- x) (- c)) as H.
  assert (at_most (- c) (Z.opp <$> reverse l) = at_least c l) as Heq.
  { rewrite <- (reverse_Permutation l) at 2. unfold at_most, at_least.
    generalize (reverse l). intros r. induction r as [|a r IH]; [done|].
    rewrite fmap_cons, !filter_cons. repeat case_decide; simpl; lia. }
  rewrite Heq in H. rewrite <- H; [lia| |by rewrite list_lookup_fmap, Hk].
  clear -Hs. induction Hs as [|a l Hs IH Ha]; [constructor|].
  rewrite reverse_cons, fmap_app. apply StronglySorted_app_2.
  { intros x y Hx Hy. apply list_elem_of_fmap in Hx as (x' & -> & Hx).
    rewrite elem_of_reverse in Hx. rewrite Forall_forall in Ha. apply Ha in Hx.
    apply list_elem_of_singleton in Hy as ->. lia. }
  { done. }
  repeat constructor.
Qed.

(** The same for any total preorder: the element at position [k] is at least
    [v] exactly when at most [k] elements are not. *)
Lemma sorted_lookup_ge {A} (R : relation A) `{!Transitive R, !forall x y, Decision (R x y)} l k x v :
  StronglySorted R l -> l !! k = Some x ->
  (R v x <-> (length (filter (fun y => ~ R v y) l) <= k)%nat).
Proof.
  intros Hs. revert k. induction Hs as [|a l Hs IH Ha]; intros k Hk; [done|].
  rewrite filter_cons. rewrite Forall_forall in Ha.
  destruct (decide (R v a)) as [Hva|Hva].
  - rewrite decide_False by tauto. rewrite filter_none; [|intros y Hy; pose proof (Ha y Hy) as Hay; intros Hn; apply Hn; by trans a].
    split; [simpl; lia|]. intros _. destruct k as [|k]; simplify_eq/=; [done|].
    trans a; [done|]. apply Ha. by eapply list_elem_of_lookup_2.
  - rewrite decide_True by done. destruct k as [|k]; simplify_eq/=.
    + split; [done|lia].
    + rewrite (IH k Hk). lia.
Qed.

Lemma at_least_length c l : (at_least c l <= length l)%nat.
Proof. apply length_filter. Qed.

Lemma at_most_length c l : (at_most c l <= length l)%nat.
Proof. apply length_filter. Qed.

(** The characterisation every other fact about the consensus value follows
    from: a positive number is below the consensus value exactly when a
    threshold of the votes reaches it. *)
Lemma threshold_vote_spec n votes c :
  1 <= n -> 0 < c ->
  c <= threshold_vote n votes <-> threshold n <= Z.of_nat (at_least c votes).
Proof.
  intros Hn Hc. pose proof (threshold_pos n Hn) as Ht. unfold threshold_vote.
  rewrite <- (sort_unstable_perm votes) at 2.
  destruct (reverse (sort_unstable votes) !! _) as [x|] eqn:Hx; simpl.
  - rewrite (reverse_sorted_lookup_ge _ _ _ c (sort_unstable_sorted _) Hx). lia.
  - apply lookup_ge_None in Hx. rewrite length_reverse in Hx.
    pose proof (at_least_length c (sort_unstable votes)). lia.
Qed.

Lemma threshold_vote_nonneg n votes :
  Forall (Z.le 0) votes -> 0 <= threshold_vote n votes.
Proof.
  intros Hv. unfold threshold_vote.
  destruct (_ !! _) as [x|] eqn:Hx; [|done]. simpl.
  rewrite Forall_forall in Hv. apply Hv. rewrite <- (sort_unstable_perm votes).
  apply elem_of_reverse. by eapply list_elem_of_lookup_2.
Qed.

(** A rate is the consensus rate or above exactly when a threshold of the
    votes is at or below it. *)
Lemma threshold_rate_spec n rates x c :
  1 <= n -> threshold_rate n rates = Some x ->
  x <= c <-> threshold n <= Z.of_nat (at_most c rates).
Proof.
  intros Hn Hx. pose proof (threshold_pos n Hn).
  unfold threshold_rate in Hx. rewrite <- (sort_unstable_perm rates).
  rewrite (sorted_lookup_le _ _ _ c (sort_unstable_sorted _) Hx). lia.
Qed.

Lemma threshold_rate_Some n rates :
  1 <= n -> is_Some (threshold_rate n rates) <-> threshold n <= Z.of_nat (length rates).
Proof.
  intros Hn. pose proof (threshold_pos n Hn).
  unfold threshold_rate. rewrite lookup_lt_is_Some, (sort_unstable_perm rates). lia.
Qed.

(** ** Votes of peers

    The votes are stored under the peer that cast them. *)
Definition votes_of (m : gmap Z Z) : list Z := (map_to_list m).*2.

(** The peers whose vote reaches (stays within) [c]. *)
Definition voters_at_least (c : Z) (m : gmap Z Z) : gset Z := dom (filter (fun kv => c <= kv.2) m).
Definition voters_at_most (c : Z) (m : gmap Z Z) : gset Z := dom (filter (fun kv => kv.2 <= c) m).

Lemma voters_at_least_elem c m p : p ∈ voters_at_least c m <-> exists v, m !! p = Some v /\ c <= v.
Proof.
  unfold voters_at_least. rewrite elem_of_dom. unfold is_Some.
  setoid_rewrite map_lookup_filter_Some. naive_solver.
Qed.

Lemma voters_at_most_elem c m p : p ∈ voters_at_most c m <-> exists v, m !! p = Some v /\ v <= c.
Proof.
  unfold voters_at_most. rewrite elem_of_dom. unfold is_Some.
  setoid_rewrite map_lookup_filter_Some. naive_solver.
Qed.

Lemma length_filter_fmap_snd {V} (P : V -> Prop) `{!forall x, Decision (P x)} (m : gmap Z V) :
  length (filter P (map_to_list m).*2) = size (filter (fun kv => P kv.2) m).
Proof.
  induction m as [|k v m Hk IH] using map_ind.
  { by rewrite map_to_list_empty, map_filter_empty. }
  rewrite map_to_list_insert by done. rewrite fmap_cons, filter_cons. simpl.
  destruct (decide (P v)) as [HP|HP].
  - rewrite map_filter_insert_True by done. rewrite map_size_insert_None; [simpl; by rewrite IH|].
    apply map_lookup_filter_None. by left.
  - rewrite map_filter_insert_False by done. rewrite IH. by rewrite delete_id.
Qed.

Lemma at_least_voters c m : at_least c (votes_of m) = size (voters_at_least c m).
Proof. unfold at_least, voters_at_least, votes_of. by rewrite length_filter_fmap_snd, size_dom. Qed.

Lemma at_most_voters c m : at_most c (votes_of m) = size (voters_at_most c m).
Proof. unfold at_most, voters_at_most, votes_of. by rewrite length_filter_fmap_snd, size_dom. Qed.

Lemma votes_of_Forall (P : Z -> Prop) m : Forall P (votes_of m) <-> map_Forall (fun _ => P) m.
Proof. unfold votes_of. rewrite map_Forall_to_list, Forall_fmap. apply Forall_iff. by intros []. Qed.

(** [m'] keeps every vote of [m] or raises it. *)
Definition votes_raised (m m' : gmap Z Z) : Prop :=
  forall p v, m !! p = Some v -> exists v', m' !! p = Some v' /\ v <= v'.

#[export] Instance votes_raised_preorder : PreOrder votes_raised.
Proof.
  split; [intros m p v Hv; by exists v|]. intros m1 m2 m3 H12 H23 p v Hv.
  destruct (H12 p v Hv) as (v2 & H2 & Hle2). destruct (H23 p v2 H2) as (v3 & H3 & Hle3).
  exists v3. split; [done|lia].
Qed.

Lemma votes_raised_insert m p v :
  (forall w, m !! p = Some w -> w <= v) -> votes_raised m (<[p := v]> m).
Proof.
  intros Hp q w Hq. destruct (decide (p = q)) as [->|Hne].
  - exists v. rewrite lookup_insert_eq. eauto.
  - exists w. rewrite lookup_insert_ne by done. done.
Qed.

(** Raising votes never lowers the consensus value. *)
Lemma threshold_vote_mono n m m' :
  1 <= n -> Forall (Z.le 0) (votes_of m') -> votes_raised m m' ->
  threshold_vote n (votes_of m) <= threshold_vote n (votes_of m').
Proof.
  intros Hn Hpos Hr. pose proof (threshold_vote_nonneg n _ Hpos).
  destruct (decide (0 < threshold_vote n (votes_of m))) as [Hlt|]; [|lia].
  apply threshold_vote_spec; [done..|].
  pose proof (proj1 (threshold_vote_spec n (votes_of m) _ Hn Hlt) (Z.le_refl _)) as Ht.
  etrans; [exact Ht|]. rewrite !at_least_voters. apply inj_le, subseteq_size.
  intros p. rewrite !voters_at_least_elem. intros (v & Hv & Hc).
  destruct (Hr p v Hv) as (v' & Hv' & Hle). exists v'. split; [done|lia].
Qed.

(** With at most [max_evil] evil guardians, a correct guardian voted for the
    consensus value or more: evil votes cannot push it past the correct ones. *)
Lemma threshold_vote_honest (all evil : gset Z) m :
  let n := Z.of_nat (size all) in
  1 <= n -> bft all evil -> dom m ⊆ all -> 0 < threshold_vote n (votes_of m) ->
  exists p v, (p ∉ evil) /\ m !! p = Some v /\ threshold_vote n (votes_of m) <= v.
Proof.
  intros n Hn Hbft Hdom Hpos.
  pose proof (proj1 (threshold_vote_spec n (votes_of m) _ Hn Hpos) (Z.le_refl _)) as Ht.
  rewrite at_least_voters in Ht. pose proof (threshold_overlap n Hn).
  pose proof (threshold_pos n Hn).
  destruct (honest_member all evil (voters_at_least (threshold_vote n (votes_of m)) m))
    as (p & Hp & Hev); [done| |fold n; lia|].
  { etrans; [|exact Hdom]. intros p (v & Hv & _)%voters_at_least_elem. by apply elem_of_dom. }
  apply voters_at_least_elem in Hp as (v & Hv & Hle). eauto.
Qed.

(** Once every correct guardian votes [c] or more, so is the consensus value:
    evil guardians cannot hold it back. *)
Lemma threshold_vote_live (all evil : gset Z) m c :
  let n := Z.of_nat (size all) in
  1 <= n -> bft all evil -> 0 < c ->
  (forall p, p ∈ all -> p ∉ evil -> exists v, m !! p = Some v /\ c <= v) ->
  c <= threshold_vote n (votes_of m).
Proof.
  intros n Hn Hbft Hc Hall. apply threshold_vote_spec; [done..|]. rewrite at_least_voters.
  destruct (honest_quorum all evil Hbft) as [_ Hq]. etrans; [exact Hq|].
  apply inj_le, subseteq_size. intros p [Hp Hev]%elem_of_difference.
  by apply voters_at_least_elem, Hall.
Qed.

(** ** Medians

    A number above the padding is below the median exactly when more than half
    of the positions vote for it. *)
Lemma length_filter_not {A} (P : A -> Prop) `{!forall x, Decision (P x)} (l : list A) :
  (length (filter (fun x => ~ P x) l) + length (filter P l) = length l)%nat.
Proof. induction l as [|a l IH]; [done|]. rewrite !filter_cons. repeat case_decide; simpl; tauto || lia. Qed.

Lemma filter_replicate_not {A} (P : A -> Prop) `{!forall x, Decision (P x)} n a :
  ~ P a -> filter (fun x => ~ P x) (replicate n a) = replicate n a.
Proof. intros Ha. induction n as [|n IH]; [done|]. simpl. rewrite filter_cons, decide_True by done. by rewrite IH. Qed.

(** Sorting votes padded to [total] positions with a value below [v]: position
    [k] reaches [v] exactly when all but [k] positions are votes that do. *)
Lemma padded_lookup_ge {A} (R : relation A) `{!PreOrder R, !Total R, !forall x y, Decision (R x y)} (votes : list A) (total k : nat) dflt x v :
  (length votes <= total)%nat -> ~ R v dflt ->
  merge_sort R (votes ++ replicate (total - length votes) dflt) !! k = Some x ->
  (R v x <-> (total - k <= length (filter (R v) votes))%nat).
Proof.
  intros Hlen Hd Hx.
  rewrite (sorted_lookup_ge R _ k x v (StronglySorted_merge_sort R _) Hx).
  rewrite (merge_sort_Permutation R), filter_app, length_app, (filter_replicate_not (R v)) by done.
  rewrite length_replicate. pose proof (length_filter_not (R v) votes). lia.
Qed.

#[export] Instance Z_le_preorder_inst : PreOrder Z.le.
Proof. split; [intros x; lia|intros x y z; lia]. Qed.

Lemma median_vote_spec pc dflt votes x c :
  0 <= pc -> dflt < c -> median_vote pc dflt votes = Some x ->
  (c <= x <-> pc - pc / 2 <= Z.of_nat (at_least c votes)).
Proof.
  intros Hpc Hd Hx. unfold median_vote in Hx. case_match eqn:Hl; [|done].
  pose proof (Z.div_pos pc 2 Hpc ltac:(lia)).
  rewrite (padded_lookup_ge Z.le votes (Z.to_nat pc) (Z.to_nat (pc / 2)) dflt x c); [|lia..|exact Hx].
  change (length (filter (Z.le c) votes)) with (at_least c votes).
  assert (pc / 2 <= pc) by (apply Z.div_le_upper_bound; lia). lia.
Qed.

Lemma median_vote_Some pc dflt votes :
  0 < pc -> is_Some (median_vote pc dflt votes) <-> Z.of_nat (length votes) <= pc.
Proof.
  intros Hpc. unfold median_vote. destruct (_ <=? pc) eqn:Hl; [|split; [by intros []|lia]].
  rewrite lookup_lt_is_Some, (sort_unstable_perm _), length_app, length_replicate.
  pose proof (Z.div_lt pc 2 Hpc). pose proof (Z.div_pos pc 2). lia.
Qed.

(** The median follows the correct guardians when less than a quorum of
    positions is padding. *)
Lemma median_vote_correct (all evil : gset Z) m pc dflt x :
  let n := Z.of_nat (size all) in
  1 <= n -> bft all evil -> dom m ⊆ all -> max_evil n < pc - pc / 2 <= threshold n ->
  median_vote pc dflt (votes_of m) = Some x -> 0 <= pc ->
  (dflt < x -> exists p v, (p ∉ evil) /\ m !! p = Some v /\ x <= v) /\
  (forall c, dflt < c -> (forall p, p ∈ all -> p ∉ evil -> exists v, m !! p = Some v /\ c <= v) -> c <= x).
Proof.
  intros n Hn Hbft Hdom Hpc Hx Hpos. split.
  - intros Hd. pose proof (proj1 (median_vote_spec pc dflt _ x x Hpos Hd Hx) (Z.le_refl _)) as Ht.
    rewrite at_least_voters in Ht.
    destruct (honest_member all evil (voters_at_least x m)) as (p & Hp & Hev); [done| |fold n; lia|].
    { etrans; [|exact Hdom]. intros p (v & Hv & _)%voters_at_least_elem. by apply elem_of_dom. }
    apply voters_at_least_elem in Hp as (v & Hv & Hle). eauto.
  - intros c Hc Hall. apply (median_vote_spec pc dflt (votes_of m) x c Hpos Hc Hx). rewrite at_least_voters.
    destruct (honest_quorum all evil Hbft) as [_ Hq]. etrans; [apply Hpc|]. etrans; [exact Hq|].
    apply inj_le, subseteq_size. intros p [Hp Hev]%elem_of_difference.
    by apply voters_at_least_elem, Hall.
Qed.

(** ** Module consensus versions

    Modules of the first generation vote on the version they run. *)

(** [ModuleConsensusVersion] with its derived order. *)
Record ModuleConsensusVersion := { vmajor : Z; vminor : Z }.
Definition version_le (a b : ModuleConsensusVersion) : Prop := vmajor a < vmajor b \/ (vmajor a = vmajor b /\ vminor a <= vminor b).
#[export] Instance version_le_dec a b : Decision (version_le a b).
Proof. unfold version_le. apply _. Defined.

(** The version before any vote. *)
Definition VERSION_2_0 : ModuleConsensusVersion := {| vmajor := 2; vminor := 0 |}.

(** [consensus_module_consensus_version]: pad with version 2.0 and take the
    vote that all but [max_evil] peers reach; [None] is the failed assertion on
    the number of votes.  The assertion that the sorted list is sorted is left
    out. *)
Definition version_vote (n : Z) (m : gmap Z ModuleConsensusVersion) : option ModuleConsensusVersion :=
  let versions := (map_to_list m).*2 in
  let versions := versions ++ replicate (Z.to_nat n - length versions) VERSION_2_0 in
  if Z.of_nat (length versions) =? n then merge_sort version_le versions !! Z.to_nat (max_evil n) else None.

#[export] Instance version_le_preorder : PreOrder version_le.
Proof. split; [intros x; right; lia|]. unfold version_le. intros x y z. lia. Qed.
#[export] Instance version_le_total : Total version_le.
Proof. unfold version_le. intros x y. lia. Qed.

(** The peers that vote for [v] or a later version. *)
Definition supporters (v : ModuleConsensusVersion) (m : gmap Z ModuleConsensusVersion) : gset Z :=
  dom (filter (fun kv => version_le v kv.2) m).

Lemma elem_of_supporters v m p : p ∈ supporters v m <-> exists w, m !! p = Some w /\ version_le v w.
Proof.
  unfold supporters. rewrite elem_of_dom. unfold is_Some.
  setoid_rewrite map_lookup_filter_Some. naive_solver.
Qed.

Lemma version_vote_spec n m v x :
  1 <= n -> ~ version_le v VERSION_2_0 -> version_vote n m = Some x ->
  (version_le v x <-> threshold n <= Z.of_nat (size (supporters v m))).
Proof.
  intros Hn Hv Hx. unfold version_vote in Hx. case_match eqn:Hl; [|done].
  rewrite length_app, length_replicate in Hl. pose proof (max_evil_bound _ Hn) as Hf.
  rewrite (padded_lookup_ge version_le (map_to_list m).*2 (Z.to_nat n) (Z.to_nat (max_evil n)) VERSION_2_0 x v); [|apply Z.eqb_eq in Hl; lia|done|exact Hx].
  rewrite length_filter_fmap_snd. unfold supporters. rewrite size_dom. unfold threshold. lia.
Qed.

Lemma version_vote_Some n m : 1 <= n -> is_Some (version_vote n m) <-> Z.of_nat (size m) <= n.
Proof.
  intros Hn. pose proof (max_evil_bound _ Hn) as Hf. unfold version_vote.
  rewrite <- (length_map_to_list m), <- (length_fmap snd (map_to_list m)).
  case_match eqn:Hl; rewrite length_app, length_replicate in Hl; [apply Z.eqb_eq in Hl|apply Z.eqb_neq in Hl].
  - rewrite lookup_lt_is_Some, (merge_sort_Permutation version_le), length_app, length_replicate. lia.
  - split; [by intros []|lia].
Qed.

Lemma version_vote_bounded n m v x :
  version_le VERSION_2_0 v -> map_Forall (fun _ w => version_le w v) m -> version_vote n m = Some x -> version_le x v.
Proof.
  intros H2 Hv Hx. unfold version_vote in Hx. case_match; [|done].
  apply list_elem_of_lookup_2 in Hx. rewrite (merge_sort_Permutation version_le) in Hx.
  apply elem_of_app in Hx as [Hx|[-> _]%elem_of_replicate]; [|done].
  apply list_elem_of_fmap in Hx as ([k w] & -> & Hk%elem_of_map_to_list). by apply (Hv k).
Qed.

(** Votes that only rise never lower the number of supporters. *)
Lemma supporters_insert v m p w :
  version_le (default VERSION_2_0 (m !! p)) w -> supporters v m ⊆ supporters v (<[p := w]> m).
Proof.
  intros Hw q (x & Hx & Hle)%elem_of_supporters. apply elem_of_supporters.
  destruct (decide (p = q)) as [->|Hne]; [|rewrite lookup_insert_ne by done; eauto].
  exists w. rewrite lookup_insert_eq. split; [done|]. rewrite Hx in Hw. by etrans.
Qed.
