(* ===== verification/ServerModule.v ===== *)
(** * The interface between the consensus engine and the modules

    [fedimint-server-core/src/lib.rs] ([ServerModule], [IServerModule]), the
    types a module exchanges with the engine ([fedimint-core/src/module/mod.rs],
    [fedimint-core/src/lib.rs]) and the balance sheet of
    [fedimint-core/src/module/audit.rs].

    A module is a record of operations on its own part of the database.  What
    it promises to the engine about the money it manages is the class
    [Audited]; the engine is verified against the class and every module
    discharges it. *)

From S2P Require Import Prelude Db Amounts.

(** ** Types shared by the engine and the modules *)

Record OutPoint := { txid : Z; out_idx : Z }.
Record InPoint := { in_txid : Z; in_idx : Z }.

#[export] Instance OutPoint_eq_dec : EqDecision OutPoint.
Proof. solve_decision. Defined.
#[export] Program Instance OutPoint_countable : Countable OutPoint :=
  inj_countable' (fun o => (txid o, out_idx o)) (fun p => {| txid := p.1; out_idx := p.2 |}) _.
Next Obligation. by intros []. Qed.

(** For inputs [amounts] fund the transaction, for outputs they consume
    funding; [fees] consume funding. *)
Record TransactionItemAmounts := { amounts : Amounts.t; fees : Amounts.t }.
Record InputMeta := { amount : TransactionItemAmounts; pub_key : Z }.

Definition item_wf (a : TransactionItemAmounts) : Prop := Amounts.wf (amounts a) /\ Amounts.wf (fees a).

Lemma bitcoin_item_wf a f : is_u64 a -> is_u64 f ->
  item_wf {| amounts := Amounts.new_bitcoin a; fees := Amounts.new_bitcoin f |}.
Proof. intros Ha Hf. split; by apply Amounts.new_bitcoin_wf. Qed.

(** ** The operations of a module

    [D] is the isolated database of the module; [I], [O] and [C] are its
    inputs, outputs and consensus items, [E] its errors.  [audit] returns the
    [milli_sat] of the audit items it adds. *)
Record ServerModule (D I O C E : Type) := {
  verify_input : I -> outcome E unit;
  verify_input_submission : I -> M D E unit;
  process_input : I -> InPoint -> M D E InputMeta;
  verify_output_submission : O -> OutPoint -> M D E unit;
  process_output : O -> OutPoint -> M D E TransactionItemAmounts;
  process_consensus_item : C -> Z -> M D E unit;
  audit : M D E (list Z);
}.
Arguments verify_input {_ _ _ _ _} _ _.
Arguments verify_input_submission {_ _ _ _ _} _ _.
Arguments process_input {_ _ _ _ _} _ _ _.
Arguments verify_output_submission {_ _ _ _ _} _ _ _.
Arguments process_output {_ _ _ _ _} _ _ _.
Arguments process_consensus_item {_ _ _ _ _} _ _ _.
Arguments audit {_ _ _ _ _} _.

(** ** The balance sheet *)

(** [calculate_net_assets]: [None] when a partial sum leaves [i64]. *)
Definition calculate_net_assets (items : list Z) : option Z :=
  foldl (fun acc x => a ← acc; i64_checked_add a x) (Some 0) items.

(** When the magnitudes of the items fit, so do all partial sums, in whatever
    order the items come. *)
Lemma calculate_net_assets_exact items :
  sum_abs items <= i64_max -> calculate_net_assets items = Some (sum_list items).
Proof.
  intros Hs. unfold calculate_net_assets.
  assert (forall a, Z.abs a + sum_abs items <= i64_max ->
    foldl (fun acc x => a ← acc; i64_checked_add a x) (Some a) items = Some (a + sum_list items)) as H.
  { clear Hs. induction items as [|x items IH]; intros a Ha; simpl in *; [f_equal; lia|].
    pose proof (sum_abs_nonneg items). unfold i64_checked_add, i64_min, i64_max in *.
    destruct (_ && _) eqn:Hb; [|exfalso; revert Hb; rewrite andb_false_iff; lia].
    rewrite IH by lia. f_equal. lia. }
  rewrite H by (simpl; lia). done.
Qed.

(** ** What a module promises about money

    [net] is the module's assets minus its liabilities, [gross] their total
    volume.  Funding a transaction never costs the federation more than the
    amount the input is credited with, an output never creates a larger claim
    than the amount it is debited with, and consensus items create no
    claims. *)
Class Audited {D I O C E} (m : ServerModule D I O C E) := {
  inv : D -> Prop;
  input_ok : I -> Prop;
  output_ok : O -> Prop;
  item_ok : C -> Prop;
  net : D -> Z;
  gross : D -> Z;
  gross_nonneg d : inv d -> 0 <= gross d;
  audited_input i p d meta d' :
    inv d -> input_ok i -> process_input m i p d = (Ok meta, d') ->
    inv d' /\ item_wf (amount meta) /\
    net d + Amounts.get (amounts (amount meta)) BITCOIN <= net d';
  audited_output o p d a d' :
    inv d -> output_ok o -> process_output m o p d = (Ok a, d') ->
    inv d' /\ item_wf a /\ net d - Amounts.get (amounts a) BITCOIN <= net d';
  audited_consensus_item c peer d d' :
    inv d -> item_ok c -> process_consensus_item m c peer d = (Ok tt, d') ->
    inv d' /\ net d <= net d';
  audited_audit d :
    inv d -> gross d <= i64_max ->
    exists items d', audit m d = (Ok items, d') /\ inv d' /\
      sum_list items = net d /\ sum_abs items <= gross d /\
      net d' = net d /\ gross d' = gross d;
}.

(** ** Liabilities

    What a module owes counts against it as [-(amount.msats as i64)]; the
    negation wraps. *)
Definition liability (amount : Z) : Z := wrap_i64 (- wrap_i64 amount).

Lemma liability_exact a : 0 <= a <= i64_max -> liability a = - a.
Proof. unfold liability, i64_max. intros Ha. rewrite !wrap_i64_small; unfold i64_min, i64_max; rewrite ?wrap_i64_small; unfold i64_min, i64_max; lia. Qed.

Lemma liabilities_sum {K V} `{Countable K} (f : V -> Z) (m : gmap K V) :
  map_Forall (fun _ v => 0 <= f v) m -> sum_map (fun _ => f) m <= i64_max ->
  sum_list ((fun kv => liability (f kv.2)) <$> map_to_list m) = - sum_map (fun _ => f) m /\
  sum_abs ((fun kv => liability (f kv.2)) <$> map_to_list m) = sum_map (fun _ => f) m.
Proof.
  intros Hm Hs.
  assert (forall kv, kv ∈ map_to_list m -> liability (f kv.2) = - f kv.2 /\ 0 <= f kv.2) as Hl.
  { intros [k v] Hk%elem_of_map_to_list. simpl. split; [|by apply (Hm k)].
    apply liability_exact. split; [by apply (Hm k)|].
    pose proof (sum_map_entry_le (fun _ => f) m k v Hm Hk) as Hle. simpl in Hle. lia. }
  unfold sum_map in *. clear Hs Hm. induction (map_to_list m) as [|kv l IH]; [done|].
  destruct IH as [IH1 IH2]; [intros; apply Hl; by right|].
  destruct (Hl kv ltac:(by left)) as [Hkv Hpos].
  rewrite !fmap_cons, !sum_list_cons. unfold sum_abs in *. simpl. lia.
Qed.

(** ** Modules behind the registry

    The blanket [impl IServerModule for T]: the engine hands every module
    values of the types [I], [O] and [C] of all modules; the module takes its
    own by a downcast and panics when the value belongs to another module.
    [get] and [put] select the module's own tables. *)
Section dyn.
Context {D D' I I' O O' C C' E E' : Type} (m : ServerModule D' I' O' C' E').
Context (get : D -> D') (put : D' -> D -> D).
Context (downcast_input : I -> option I') (downcast_output : O -> option O') (downcast_item : C -> option C').
Context (from_typed : E' -> E).

Definition outcome_map_err {A} (o : outcome E' A) : outcome E A :=
  match o with Ok a => Ok a | Err e => Err (from_typed e) | Panic => Panic end.

Definition dyn_module : ServerModule D I O C E := {|
  verify_input i :=
    match downcast_input i with Some i' => outcome_map_err (verify_input m i') | None => Panic end;
  verify_input_submission i :=
    i' ← expect (downcast_input i); map_err from_typed (zoom get put (verify_input_submission m i'));
  process_input i p :=
    i' ← expect (downcast_input i); map_err from_typed (zoom get put (process_input m i' p));
  verify_output_submission o p :=
    o' ← expect (downcast_output o); map_err from_typed (zoom get put (verify_output_submission m o' p));
  process_output o p :=
    o' ← expect (downcast_output o); map_err from_typed (zoom get put (process_output m o' p));
  process_consensus_item c peer :=
    c' ← expect (downcast_item c); map_err from_typed (zoom get put (process_consensus_item m c' peer));
  audit := map_err from_typed (zoom get put (audit m));
|}.

(** A typed operation behind the registry. *)
Lemma dyn_Ok {T T' A} (down : T -> option T') (op : T' -> M D' E' A) t s a s' :
  (t' ← expect (down t); map_err from_typed (zoom get put (op t'))) s = (Ok a, s') <->
  exists t' d, down t = Some t' /\ op t' (get s) = (Ok a, d) /\ s' = put d s.
Proof.
  rewrite bind_Ok. setoid_rewrite expect_Ok. setoid_rewrite map_err_Ok. setoid_rewrite zoom_Ok. split.
  - intros (t' & s1 & [Ht ->] & d & Hd & ->). by exists t', d.
  - intros (t' & d & Ht & Hd & ->). exists t', s. split; [done|]. by exists d.
Qed.

(** The registry keeps the module's promise. *)
Context (Hget : forall d s, get (put d s) = d).

#[export] Program Instance dyn_audited `{!Audited m} : Audited dyn_module := {|
  inv := fun s => inv (m := m) (get s);
  input_ok := fun i => forall i', downcast_input i = Some i' -> input_ok (m := m) i';
  output_ok := fun o => forall o', downcast_output o = Some o' -> output_ok (m := m) o';
  item_ok := fun c => forall c', downcast_item c = Some c' -> item_ok (m := m) c';
  net := fun s => net (m := m) (get s);
  gross := fun s => gross (m := m) (get s);
|}.
Next Obligation. intros ? s. apply gross_nonneg. Qed.
Next Obligation.
  intros ? i p s meta s' Hs Hi (i' & d & Hi' & Hp & ->)%dyn_Ok. rewrite Hget. by eapply audited_input; [|apply Hi|].
Qed.
Next Obligation.
  intros ? o p s a s' Hs Ho (o' & d & Ho' & Hp & ->)%dyn_Ok. rewrite Hget. by eapply audited_output; [|apply Ho|].
Qed.
Next Obligation.
  intros ? c peer s s' Hs Hc (c' & d & Hc' & Hp & ->)%dyn_Ok. rewrite Hget.
  by eapply audited_consensus_item; [|apply Hc|].
Qed.
Next Obligation.
  intros ? s Hs Hg. destruct (audited_audit (m := m) (get s) Hs Hg) as (xs & d & Ha & H).
  exists xs, (put d s). rewrite Hget. split; [|done]. apply map_err_Ok, zoom_Ok. by exists d.
Qed.
End dyn.
