(* ===== verification/Bitcoin.v ===== *)
(** * Bitcoin data

    What the wallet modules read of bitcoin transactions, and the fee
    arithmetic of [fedimint-core/src/lib.rs] ([Feerate], [weight_to_vbytes]).
    Hashes, scripts, keys and signatures are opaque integers. *)

From S2P Require Import Prelude.

Record BtcOutPoint := { btc_txid : Z; vout : Z }.
Record TxOut := { value : Z; script_pubkey : Z }.

(** An input with its witness, which is empty until the transaction is
    finalized; version, lock time and sequence numbers are constants. *)
Record TxIn := { previous_output : BtcOutPoint; witness : option Z }.
Record BtcTransaction := { tx_input : list TxIn; tx_output : list TxOut }.

#[export] Instance BtcOutPoint_eq_dec : EqDecision BtcOutPoint.
Proof. solve_decision. Defined.
#[export] Program Instance BtcOutPoint_countable : Countable BtcOutPoint :=
  inj_countable' (fun o => (btc_txid o, vout o)) (fun c => {| btc_txid := c.1; vout := c.2 |}) _.
Next Obligation. by intros []. Qed.
#[export] Instance TxOut_eq_dec : EqDecision TxOut.
Proof. solve_decision. Defined.

(** [bitcoin::Amount::MAX_MONEY], in satoshis. *)
Definition MAX_MONEY : Z := 2100000000000000.

(** [weight.div_ceil(4)]. *)
Definition weight_to_vbytes (weight : Z) : Z := (weight + 3) / 4.

(** A fee rate is in satoshis per 1000 virtual bytes. *)
Definition wrapping_calculate_fee (rate weight : Z) : Z := wrap_u64 (weight_to_vbytes weight * rate) / 1000.
Definition checked_calculate_fee (rate weight : Z) : option Z :=
  product ← checked_mul (weight_to_vbytes weight) rate;
  if product / 1000 <=? MAX_MONEY then Some (product / 1000) else None.

(** A checked fee is the exact one, so it agrees with the wrapping one. *)
Lemma checked_calculate_fee_Some rate weight f :
  0 <= rate -> 0 <= weight -> checked_calculate_fee rate weight = Some f ->
  f = weight_to_vbytes weight * rate / 1000 /\ f = wrapping_calculate_fee rate weight /\ 0 <= f <= MAX_MONEY.
Proof.
  intros Hr Hw H. unfold checked_calculate_fee in H.
  apply bind_Some in H as (p & [-> Hp]%checked_mul_Some & H). case_match eqn:Hm; [|done]. simplify_eq.
  assert (0 <= weight_to_vbytes weight) by (unfold weight_to_vbytes; apply Z.div_pos; lia).
  unfold wrapping_calculate_fee. rewrite wrap_u64_small by (unfold is_u64; nia).
  split; [done|]. split; [done|]. split; [apply Z.div_pos; nia|lia].
Qed.

Lemma wrapping_calculate_fee_nonneg rate weight : 0 <= wrapping_calculate_fee rate weight.
Proof. unfold wrapping_calculate_fee. apply Z.div_pos; [|lia]. pose proof (wrap_u64_range (weight_to_vbytes weight * rate)) as []. lia. Qed.
