(* ===== verification/Transaction.v ===== *)
(** * Transactions

    [fedimint-core/src/transaction.rs] (the transaction, its hash and its
    signatures) and [fedimint-server/src/consensus/transaction.rs] (processing
    a transaction and the funding rules). *)

From S2P Require Import Prelude Db Amounts ServerModule.

(** [CoreConsensusVersion] with its derived lexicographic order. *)
Record CoreConsensusVersion := { major : Z; minor : Z }.
Definition version_lt (a b : CoreConsensusVersion) : bool :=
  (major a <? major b) || ((major a =? major b) && (minor a <? minor b)).

Inductive TransactionError (E : Type) : Type :=
| UnbalancedTransaction (inputs outputs fee : Z)
| InvalidSignature (hash sig key : Z)
| UnsupportedSignatureScheme (variant : Z)
| InvalidWitnessLength
| Input (e : E)
| Output (e : E).
Arguments UnbalancedTransaction {_} _ _ _.
Arguments InvalidSignature {_} _ _ _.
Arguments UnsupportedSignatureScheme {_} _.
Arguments InvalidWitnessLength {_}.
Arguments Input {_} _.
Arguments Output {_} _.

Definition TRANSACTION_OVERFLOW_ERROR {E} : TransactionError E := UnbalancedTransaction 0 0 0.

(** ** Funding *)

Record FundingVerifier := { fv_inputs : Amounts.t; fv_outputs : Amounts.t; fv_fees : Amounts.t }.

Definition FundingVerifier_default : FundingVerifier :=
  {| fv_inputs := Amounts.ZERO; fv_outputs := Amounts.ZERO; fv_fees := Amounts.ZERO |}.

Section funding.
Context {S E : Type}.

Definition add_input (fv : FundingVerifier) (input : TransactionItemAmounts) :
    M S (TransactionError E) FundingVerifier :=
  i ← ok_or (Amounts.checked_add (fv_inputs fv) (amounts input)) TRANSACTION_OVERFLOW_ERROR;
  f ← ok_or (Amounts.checked_add (fv_fees fv) (fees input)) TRANSACTION_OVERFLOW_ERROR;
  mret {| fv_inputs := i; fv_outputs := fv_outputs fv; fv_fees := f |}.

Definition add_output (fv : FundingVerifier) (output_amounts : TransactionItemAmounts) :
    M S (TransactionError E) FundingVerifier :=
  o ← ok_or (Amounts.checked_add (fv_outputs fv) (amounts output_amounts)) TRANSACTION_OVERFLOW_ERROR;
  f ← ok_or (Amounts.checked_add (fv_fees fv) (fees output_amounts)) TRANSACTION_OVERFLOW_ERROR;
  mret {| fv_inputs := fv_inputs fv; fv_outputs := o; fv_fees := f |}.

Definition OVERPAY_MIN_VERSION : CoreConsensusVersion := {| major := 2; minor := 1 |}.

(** The error for one unit. *)
Definition unbalanced (fv : FundingVerifier) (u input_amount : Z) : TransactionError E :=
  UnbalancedTransaction input_amount (Amounts.get (fv_outputs fv) u) (Amounts.get (fv_fees fv) u).

(** The loop over [outputs_and_fees]; [inputs] are the inputs not yet
    matched. *)
Fixpoint check_units (fv : FundingVerifier) (version : CoreConsensusVersion)
    (units : list (Z * Z)) (inputs : Amounts.t) : M S (TransactionError E) Amounts.t :=
  match units with
  | [] => mret inputs
  | (out_unit, out_amount) :: units' =>
      let input_amount := Amounts.get inputs out_unit in
      if (input_amount <? out_amount)
         || (negb (input_amount =? out_amount) && version_lt version OVERPAY_MIN_VERSION)
      then throw (unbalanced fv out_unit input_amount)
      else check_units fv version units' (delete out_unit inputs)
  end.

Definition verify_funding (fv : FundingVerifier) (version : CoreConsensusVersion) :
    M S (TransactionError E) unit :=
  outputs_and_fees ← ok_or (Amounts.checked_add (fv_outputs fv) (fv_fees fv)) TRANSACTION_OVERFLOW_ERROR;
  inputs ← check_units fv version (btree_iter outputs_and_fees) (fv_inputs fv);
  match version_lt version OVERPAY_MIN_VERSION, btree_iter inputs with
  | true, (inputs_unit, inputs_amount) :: _ => throw (unbalanced fv inputs_unit inputs_amount)
  | _, _ => mret tt
  end.

Definition fv_wf (fv : FundingVerifier) : Prop :=
  Amounts.wf (fv_inputs fv) /\ Amounts.wf (fv_outputs fv) /\ Amounts.wf (fv_fees fv).

(** What one unit of the inputs must satisfy. *)
Definition unit_funded (version : CoreConsensusVersion) (input out : Z) : Prop :=
  if version_lt version OVERPAY_MIN_VERSION then input = out else out <= input.

Lemma check_units_Ok fv version units inputs s rest s' :
  NoDup units.*1 ->
  check_units fv version units inputs s = (Ok rest, s') <->
  s' = s /\ rest = filter (fun kv => kv.1 ∉ units.*1) inputs /\
  (forall u a, (u, a) ∈ units -> unit_funded version (Amounts.get inputs u) a).
Proof.
  revert inputs. induction units as [|[u a] units IH]; intros inputs Hnd; simpl.
  { rewrite ret_Ok, map_filter_id by (intros; set_solver). set_solver. }
  inversion Hnd as [|? ? Hu Hnd']; subst.
  destruct (_ || _) eqn:Hc.
  - rewrite throw_Ok. split; [done|]. intros (_ & _ & Hall).
    specialize (Hall u a ltac:(by left)). unfold unit_funded in Hall.
    rewrite orb_true_iff, andb_true_iff, negb_true_iff in Hc.
    destruct (version_lt version _); lia.
  - rewrite IH by done. rewrite orb_false_iff, andb_false_iff, negb_false_iff in Hc.
    assert (unit_funded version (Amounts.get inputs u) a) as Hua.
    { unfold unit_funded. destruct (version_lt version _); lia. }
    assert (forall u', u' ≠ u -> Amounts.get (delete u inputs) u' = Amounts.get inputs u') as Hget.
    { intros u' Hne. unfold Amounts.get. by rewrite lookup_delete_ne. }
    assert (filter (fun kv => kv.1 ∉ units.*1) (delete u inputs) =
            filter (fun kv => kv.1 ∉ u :: units.*1) inputs) as ->.
    { apply map_eq. intros k. apply option_eq. intros v.
      rewrite !map_lookup_filter_Some, lookup_delete_Some. set_solver. }
    split; intros (-> & -> & Hall); (split; [done|split; [done|]]).
    + intros u' a' [[= -> ->]|Hin]%elem_of_cons; [done|].
      rewrite <- Hget; [by apply Hall|]. intros ->. apply Hu. by apply (list_elem_of_fmap_2 fst) in Hin.
    + intros u' a' Hin. rewrite Hget; [apply Hall; by right|].
      intros ->. apply Hu. by apply (list_elem_of_fmap_2 fst) in Hin.
Qed.

(** What is left of the inputs when all the units of [of_] are matched. *)
Definition unmatched (of_ inputs : Amounts.t) : Amounts.t :=
  filter (fun kv => kv.1 ∉ (btree_iter of_).*1) inputs.

Lemma unmatched_lookup of_ inputs u a :
  unmatched of_ inputs !! u = Some a <-> inputs !! u = Some a /\ of_ !! u = None.
Proof.
  unfold unmatched. rewrite map_lookup_filter_Some. simpl.
  rewrite elem_of_btree_iter_fst, <- eq_None_not_Some. done.
Qed.

Lemma verify_funding_steps fv version s s' :
  verify_funding fv version s = (Ok tt, s') <->
  s' = s /\ exists of_, Amounts.checked_add (fv_outputs fv) (fv_fees fv) = Some of_ /\
  (forall u a, of_ !! u = Some a -> unit_funded version (Amounts.get (fv_inputs fv) u) a) /\
  (version_lt version OVERPAY_MIN_VERSION = true -> unmatched of_ (fv_inputs fv) = ∅).
Proof.
  unfold verify_funding. rewrite bind_Ok. setoid_rewrite ok_or_Ok.
  setoid_rewrite bind_Ok. setoid_rewrite (check_units_Ok fv version _ _ _ _ _ (NoDup_btree_iter _)).
  setoid_rewrite elem_of_btree_iter. setoid_rewrite <- btree_iter_nil. split.
  - intros (of_ & s1 & [Hof ->] & rest & s2 & (-> & Hrest & Hall) & H). fold (unmatched of_ (fv_inputs fv)) in Hrest.
    subst rest.
    destruct (version_lt _ _); [destruct (btree_iter (unmatched of_ (fv_inputs fv))) as [|[]] eqn:Hb|];
      mrun; (split; [done|]); exists of_; done.
  - intros (-> & of_ & Hof & Hall & Hv). exists of_, s. split; [done|].
    exists (unmatched of_ (fv_inputs fv)), s. split; [done|].
    destruct (version_lt _ _); [by rewrite Hv|done].
Qed.

(** The funding rule, unit by unit. *)
Lemma verify_funding_Ok fv version s s' :
  fv_wf fv ->
  verify_funding fv version s = (Ok tt, s') <->
  s' = s /\
  (forall u, Amounts.get (fv_outputs fv) u + Amounts.get (fv_fees fv) u <= u64_max) /\
  (forall u, unit_funded version (Amounts.get (fv_inputs fv) u)
               (Amounts.get (fv_outputs fv) u + Amounts.get (fv_fees fv) u)).
Proof.
  intros (Hwi & Hwo & Hwf). rewrite verify_funding_steps.
  split; intros (-> & H); (split; [done|]).
  - destruct H as (of_ & Hof & Hall & Hv).
    pose proof (Amounts.checked_add_wf _ _ _ Hwo Hwf Hof) as Hwof.
    setoid_rewrite <- (fun u => Amounts.checked_add_get _ _ _ u Hof).
    split; intros u; [by apply Amounts.wf_get|].
    destruct (of_ !! u) as [a|] eqn:Hu; unfold Amounts.get at 2; rewrite Hu; simpl; [by apply Hall|].
    unfold unit_funded. destruct (version_lt _ _); [|apply (Amounts.wf_get _ u Hwi)].
    unfold Amounts.get. destruct (fv_inputs fv !! u) as [i|] eqn:Hi; [|done].
    assert (unmatched of_ (fv_inputs fv) !! u = Some i) as Hun by by apply unmatched_lookup.
    by rewrite Hv in Hun.
  - destruct H as [Hb Hall]. destruct (Amounts.checked_add_total _ _ Hb) as [of_ Hof].
    setoid_rewrite <- (fun u => Amounts.checked_add_get _ _ _ u Hof) in Hall.
    exists of_. split; [done|]. split.
    + intros u a Hu. specialize (Hall u). unfold Amounts.get in Hall at 2. by rewrite Hu in Hall.
    + intros Hv. apply map_empty. intros u. apply eq_None_not_Some. intros [a [Hi Hu]%unmatched_lookup].
      specialize (Hall u). unfold unit_funded, Amounts.get in Hall.
      rewrite Hv, Hi, Hu in Hall. apply Hwi in Hi. simpl in Hall. lia.
Qed.
End funding.

(** ** Transactions and their signatures *)

(** [DynInput], [DynOutput]: a module's value with the id of the module
    instance it belongs to. *)
Record Dyn (T : Type) := { module_instance_id : Z; value : T }.
Arguments module_instance_id {_} _.
Arguments value {_} _.

Inductive TransactionSignature :=
| NaiveMultisig (sigs : list Z)
| SignatureDefault (variant : Z) (bytes : list Z).

Record Transaction (I O : Type) := {
  inputs : list (Dyn I);
  outputs : list (Dyn O);
  nonce : Z;
  signatures : TransactionSignature;
}.
Arguments inputs {_ _} _.
Arguments outputs {_ _} _.
Arguments nonce {_ _} _.
Arguments signatures {_ _} _.

Inductive TxProcessingMode := Submission | Consensus.

Section processing.
Context {D I O C E : Type}.

(** [d0] is the database of a module nothing has been written to. *)
Context (d0 : D) (modules : gmap Z (ServerModule D I O C E)).

(** SHA-256 of the encoded parts, and schnorr verification of a signature, a
    message and a public key. *)
Context (tx_hash_from_parts : list (Dyn I) -> list (Dyn O) -> Z -> Z).
Context (verify_schnorr : Z -> Z -> Z -> bool).

(** The isolated databases of the modules. *)
Abbreviation MDB := (gmap Z D).

Definition tx_hash (tx : Transaction I O) : Z := tx_hash_from_parts (inputs tx) (outputs tx) (nonce tx).

Fixpoint check_signatures (txid : Z) (l : list (Z * Z)) : M MDB (TransactionError E) unit :=
  match l with
  | [] => mret tt
  | (pk, signature) :: l' =>
      if verify_schnorr signature txid pk then check_signatures txid l'
      else throw (InvalidSignature txid signature pk)
  end.

Definition validate_signatures (tx : Transaction I O) (pub_keys : list Z) :
    M MDB (TransactionError E) unit :=
  match signatures tx with
  | SignatureDefault variant _ => throw (UnsupportedSignatureScheme variant)
  | NaiveMultisig sigs =>
      if Nat.eqb (length pub_keys) (length sigs)
      then check_signatures (tx_hash tx) (zip pub_keys sigs)
      else throw InvalidWitnessLength
  end.

(** [ServerModuleRegistry::get_expect]. *)
Definition get_expect {F} (id : Z) : M MDB F (ServerModule D I O C E) := expect (modules !! id).

(** [dbtx.to_ref_with_prefix_module_id(id)]. *)
Definition with_module {F A} (id : Z) (m : M D F A) : M MDB F A :=
  zoom (fun s => default d0 (s !! id)) (fun d s => <[id := d]> s) m.

Definition lift_outcome {S F A} (o : outcome F A) : M S F A := fun s => (o, s).

(** All errors become the same error, so the order of the parallel checks does
    not matter. *)
Definition verify_inputs (l : list (Dyn I)) : M MDB (TransactionError E) unit :=
  for_each l (fun input =>
    m ← get_expect (module_instance_id input);
    map_err (fun _ => InvalidWitnessLength) (lift_outcome (verify_input m (value input)))).

Fixpoint process_inputs (mode : TxProcessingMode) (txid idx : Z) (l : list (Dyn I))
    (fv : FundingVerifier) (public_keys : list Z) : M MDB (TransactionError E) (FundingVerifier * list Z) :=
  match l with
  | [] => mret (fv, public_keys)
  | input :: l' =>
      m ← get_expect (module_instance_id input);
      _ ← match mode with
          | Submission => with_module (module_instance_id input)
                            (map_err Input (verify_input_submission m (value input)))
          | Consensus => mret tt
          end;
      meta ← with_module (module_instance_id input)
               (map_err Input (process_input m (value input) {| in_txid := txid; in_idx := idx |}));
      fv' ← add_input fv (amount meta);
      process_inputs mode txid (idx + 1) l' fv' (public_keys ++ [pub_key meta])
  end.

Fixpoint process_outputs (mode : TxProcessingMode) (txid idx : Z) (l : list (Dyn O))
    (fv : FundingVerifier) : M MDB (TransactionError E) FundingVerifier :=
  match l with
  | [] => mret fv
  | output :: l' =>
      m ← get_expect (module_instance_id output);
      _ ← match mode with
          | Submission => with_module (module_instance_id output)
                            (map_err Output (verify_output_submission m (value output)
                                               {| txid := txid; out_idx := idx |}))
          | Consensus => mret tt
          end;
      a ← with_module (module_instance_id output)
            (map_err Output (process_output m (value output) {| txid := txid; out_idx := idx |}));
      fv' ← add_output fv a;
      process_outputs mode txid (idx + 1) l' fv'
  end.

Definition process_transaction_with_dbtx (tx : Transaction I O) (version : CoreConsensusVersion)
    (mode : TxProcessingMode) : M MDB (TransactionError E) unit :=
  _ ← verify_inputs (inputs tx);
  fvk ← process_inputs mode (tx_hash tx) 0 (inputs tx) FundingVerifier_default [];
  _ ← validate_signatures tx fvk.2;
  fv ← process_outputs mode (tx_hash tx) 0 (outputs tx) fvk.1;
  verify_funding fv version.
End processing.

(** ** Audited modules: transactions create no money

    For a registry of modules that keep the promises of [Audited], a
    transaction processed by consensus never lowers the net assets of the
    federation. *)
Record AuditedModule (D I O C E : Type) := {
  am_module : ServerModule D I O C E;
  am_audited : Audited am_module;
}.
Arguments am_module {_ _ _ _ _} _.
Arguments am_audited {_ _ _ _ _} _.
#[export] Existing Instance am_audited.

(** Changing a summand changes the sum by the difference. *)
Lemma sum_list_update {X} (l : list (Z * X)) id x (f g : Z * X -> Z) :
  NoDup l.*1 -> (id, x) ∈ l -> (forall k y, (k, y) ∈ l -> k ≠ id -> f (k, y) = g (k, y)) ->
  sum_list (g <$> l) = sum_list (f <$> l) + g (id, x) - f (id, x).
Proof.
  induction l as [|[k y] l IH]; intros Hnd Hin Hfg; [by apply not_elem_of_nil in Hin|].
  inversion Hnd as [|? ? Hk Hnd']; subst. rewrite !fmap_cons, !sum_list_cons.
  apply elem_of_cons in Hin as [[= -> ->]|Hin].
  - assert (g <$> l = f <$> l) as ->; [|lia]. apply list_fmap_ext. intros i [k' y'] Hi.
    symmetry. apply list_elem_of_lookup_2 in Hi. apply Hfg; [by right|].
    intros ->. apply Hk. by apply (list_elem_of_fmap_2 fst) in Hi.
  - rewrite IH; [|done|done|intros; apply Hfg; [by right|done]].
    rewrite (Hfg k y); [lia|left|]. intros ->. apply Hk. by apply (list_elem_of_fmap_2 fst) in Hin.
Qed.

Section audited.
Context {D I O C E : Type} (d0 : D) (reg : gmap Z (AuditedModule D I O C E)).

Definition modules : gmap Z (ServerModule D I O C E) := am_module <$> reg.
Definition module_db (s : gmap Z D) (id : Z) : D := default d0 (s !! id).

Definition total_net (s : gmap Z D) : Z :=
  sum_list ((fun e => net (m := am_module e.2) (module_db s e.1)) <$> map_to_list reg).
Definition total_gross (s : gmap Z D) : Z :=
  sum_list ((fun e => gross (m := am_module e.2) (module_db s e.1)) <$> map_to_list reg).
Definition modules_inv (s : gmap Z D) : Prop :=
  forall id am, reg !! id = Some am -> inv (m := am_module am) (module_db s id).

Definition dyn_input_ok (i : Dyn I) : Prop :=
  forall am, reg !! module_instance_id i = Some am -> input_ok (m := am_module am) (value i).
Definition dyn_output_ok (o : Dyn O) : Prop :=
  forall am, reg !! module_instance_id o = Some am -> output_ok (m := am_module am) (value o).

Lemma module_db_insert s id d id' :
  module_db (<[id := d]> s) id' = if decide (id = id') then d else module_db s id'.
Proof. unfold module_db. rewrite lookup_insert. by case_decide. Qed.

Lemma modules_inv_insert s id am d :
  modules_inv s -> reg !! id = Some am -> inv (m := am_module am) d -> modules_inv (<[id := d]> s).
Proof.
  intros Hs Hid Hd id' am' Hid'. rewrite module_db_insert. case_decide; [subst; simplify_eq; done|by apply Hs].
Qed.

Lemma total_net_insert s id am d :
  reg !! id = Some am ->
  total_net (<[id := d]> s) =
    total_net s + net (m := am_module am) d - net (m := am_module am) (module_db s id).
Proof.
  intros Hid. unfold total_net.
  erewrite (sum_list_update _ id am (fun e => net (m := am_module e.2) (module_db s e.1)));
    [|apply NoDup_fst_map_to_list|by apply elem_of_map_to_list|].
  - simpl. rewrite module_db_insert, decide_True by done. lia.
  - intros k y _ Hne. simpl. by rewrite module_db_insert, decide_False.
Qed.

Lemma with_module_Ok {F A} id (m : M D F A) s a s' :
  with_module d0 id m s = (Ok a, s') <->
  exists d, m (module_db s id) = (Ok a, d) /\ s' = <[id := d]> s.
Proof. unfold with_module. rewrite zoom_Ok. done. Qed.

Lemma get_expect_Ok {F} id s m s' :
  get_expect modules (F := F) id s = (Ok m, s') <->
  s' = s /\ exists am, reg !! id = Some am /\ m = am_module am.
Proof.
  unfold get_expect, modules. rewrite expect_Ok, lookup_fmap_Some. naive_solver.
Qed.

Lemma add_input_Ok {S} (fv : FundingVerifier) input (s : S) fv' s' :
  add_input (E := E) fv input s = (Ok fv', s') <->
  s' = s /\ fv_outputs fv' = fv_outputs fv /\
  Amounts.checked_add (fv_inputs fv) (amounts input) = Some (fv_inputs fv') /\
  Amounts.checked_add (fv_fees fv) (fees input) = Some (fv_fees fv').
Proof.
  unfold add_input. split.
  - intros H. mrun. done.
  - intros (-> & Ho & Hi & Hf). rewrite Hi, Hf. destruct fv'; simpl in *. by subst.
Qed.

Lemma add_output_Ok {S} (fv : FundingVerifier) output (s : S) fv' s' :
  add_output (E := E) fv output s = (Ok fv', s') <->
  s' = s /\ fv_inputs fv' = fv_inputs fv /\
  Amounts.checked_add (fv_outputs fv) (amounts output) = Some (fv_outputs fv') /\
  Amounts.checked_add (fv_fees fv) (fees output) = Some (fv_fees fv').
Proof.
  unfold add_output. split.
  - intros H. mrun. done.
  - intros (-> & Ho & Hi & Hf). rewrite Hi, Hf. destruct fv'; simpl in *. by subst.
Qed.

Lemma process_inputs_audited txid idx l fv pks s fv' pks' s' :
  modules_inv s -> fv_wf fv -> Forall dyn_input_ok l ->
  process_inputs d0 modules Consensus txid idx l fv pks s = (Ok (fv', pks'), s') ->
  modules_inv s' /\ fv_wf fv' /\ fv_outputs fv' = fv_outputs fv /\
  total_net s + Amounts.get (fv_inputs fv') BITCOIN <=
    total_net s' + Amounts.get (fv_inputs fv) BITCOIN.
Proof.
  revert idx fv pks s. induction l as [|i l IH]; intros idx fv pks s Hs Hfv Hl; simpl.
  { intros H. mrun. auto with lia. }
  inversion Hl as [|? ? Hi Hl']; subst. intros H.
  apply bind_Ok in H as (m & s1 & [-> (am & Ham & ->)]%get_expect_Ok & H).
  apply bind_Ok in H as ([] & s2 & [_ ->]%ret_Ok & H).
  apply bind_Ok in H as (meta & s2 & Hp & H). apply bind_Ok in H as (fv1 & s3 & Hadd & H).
  apply with_module_Ok in Hp as (d & Hp & ->). apply map_err_Ok in Hp.
  apply add_input_Ok in Hadd as (-> & Ho & Hci & Hcf).
  destruct (audited_input _ _ _ _ _ (Hs _ _ Ham) (Hi _ Ham) Hp) as (Hd & [Hwa Hwf] & Hnet).
  destruct Hfv as (Hwi & Hwo & Hwfe).
  apply IH in H as (Hs' & Hfv' & Hout & Hle); [| |  |done].
  - split; [done|]. split; [done|]. split; [congruence|].
    rewrite (total_net_insert _ _ _ _ Ham), (Amounts.checked_add_get _ _ _ _ Hci) in Hle. lia.
  - by apply (modules_inv_insert _ _ am).
  - split; [apply (Amounts.checked_add_wf _ _ _ Hwi Hwa Hci)|].
    split; [by rewrite Ho|apply (Amounts.checked_add_wf _ _ _ Hwfe Hwf Hcf)].
Qed.

Lemma process_outputs_audited txid idx l fv s fv' s' :
  modules_inv s -> fv_wf fv -> Forall dyn_output_ok l ->
  process_outputs d0 modules Consensus txid idx l fv s = (Ok fv', s') ->
  modules_inv s' /\ fv_wf fv' /\ fv_inputs fv' = fv_inputs fv /\
  total_net s + Amounts.get (fv_outputs fv) BITCOIN <=
    total_net s' + Amounts.get (fv_outputs fv') BITCOIN.
Proof.
  revert idx fv s. induction l as [|o l IH]; intros idx fv s Hs Hfv Hl; simpl.
  { intros H. mrun. auto with lia. }
  inversion Hl as [|? ? Ho Hl']; subst. intros H.
  apply bind_Ok in H as (m & s1 & [-> (am & Ham & ->)]%get_expect_Ok & H).
  apply bind_Ok in H as ([] & s2 & [_ ->]%ret_Ok & H).
  apply bind_Ok in H as (a & s2 & Hp & H). apply bind_Ok in H as (fv1 & s3 & Hadd & H).
  apply with_module_Ok in Hp as (d & Hp & ->). apply map_err_Ok in Hp.
  apply add_output_Ok in Hadd as (-> & Hi & Hco & Hcf).
  destruct (audited_output _ _ _ _ _ (Hs _ _ Ham) (Ho _ Ham) Hp) as (Hd & [Hwa Hwf] & Hnet).
  destruct Hfv as (Hwi & Hwo & Hwfe).
  apply IH in H as (Hs' & Hfv' & Hin & Hle); [| |  |done].
  - split; [done|]. split; [done|]. split; [congruence|].
    rewrite (total_net_insert _ _ _ _ Ham), (Amounts.checked_add_get _ _ _ _ Hco) in Hle. lia.
  - by apply (modules_inv_insert _ _ am).
  - split; [by rewrite Hi|]. split; [apply (Amounts.checked_add_wf _ _ _ Hwo Hwa Hco)|].
    apply (Amounts.checked_add_wf _ _ _ Hwfe Hwf Hcf).
Qed.

Context (tx_hash_from_parts : list (Dyn I) -> list (Dyn O) -> Z -> Z).
Context (verify_schnorr : Z -> Z -> Z -> bool).

Lemma check_signatures_Ok txid l s s' :
  check_signatures (D := D) (E := E) verify_schnorr txid l s = (Ok tt, s') <->
  s' = s /\ Forall (fun e => verify_schnorr e.2 txid e.1 = true) l.
Proof.
  induction l as [|[pk sig] l IH]; simpl.
  - rewrite ret_Ok. naive_solver.
  - rewrite Forall_cons. simpl. destruct (verify_schnorr _ _ _).
    + rewrite IH. naive_solver.
    + rewrite throw_Ok. naive_solver.
Qed.

Lemma validate_signatures_Ok tx keys s s' :
  validate_signatures (D := D) (E := E) tx_hash_from_parts verify_schnorr tx keys s = (Ok tt, s') <->
  s' = s /\ exists sigs, signatures tx = NaiveMultisig sigs /\
    Forall2 (fun key sig => verify_schnorr sig (tx_hash tx_hash_from_parts tx) key = true) keys sigs.
Proof.
  unfold validate_signatures. destruct (signatures tx) as [sigs|]; [|rewrite throw_Ok; naive_solver].
  destruct (Nat.eqb _ _) eqn:Hl.
  - apply Nat.eqb_eq in Hl. rewrite check_signatures_Ok. split.
    + intros [-> Hall]. split; [done|]. exists sigs. split; [done|].
      apply Forall2_same_length_lookup. split; [done|]. intros i k sg Hk Hs.
      apply (Forall_lookup_1 _ _ i (k, sg) Hall). by apply lookup_zip_Some.
    + intros (-> & ? & [= <-] & H2). split; [done|].
      apply Forall_lookup. intros i [k sg] [Hk Hs]%lookup_zip_Some.
      by apply (Forall2_lookup_lr _ _ _ _ _ _ H2 Hk Hs).
  - rewrite throw_Ok. split; [done|]. intros (_ & ? & [= <-] & H2%Forall2_length).
    apply Nat.eqb_neq in Hl. done.
Qed.

(** Runs of [process_input] and [process_output] of the module the input or
    the output belongs to, at its position in transaction [id]. *)
Definition processed (id : Z) (i : Dyn I) (meta : InputMeta) : Prop :=
  exists am idx d d', reg !! module_instance_id i = Some am /\
    process_input (am_module am) (value i) {| in_txid := id; in_idx := idx |} d = (Ok meta, d').
Definition created (id : Z) (o : Dyn O) (a : TransactionItemAmounts) : Prop :=
  exists am idx d d', reg !! module_instance_id o = Some am /\
    process_output (am_module am) (value o) {| txid := id; out_idx := idx |} d = (Ok a, d').

(** The sum of an amount of [u] over the items of a transaction. *)
Definition sum_unit (u : Z) (f : TransactionItemAmounts -> Amounts.t) (l : list TransactionItemAmounts) : Z :=
  sum_list ((fun a => Amounts.get (f a) u) <$> l).

Lemma sum_unit_cons u f a l : sum_unit u f (a :: l) = Amounts.get (f a) u + sum_unit u f l.
Proof. done. Qed.

Lemma process_inputs_metas id idx l fv pks s fv' pks' s' :
  process_inputs d0 modules Consensus id idx l fv pks s = (Ok (fv', pks'), s') ->
  exists metas, Forall2 (processed id) l metas /\ pks' = pks ++ (pub_key <$> metas) /\
    fv_outputs fv' = fv_outputs fv /\
    forall u, Amounts.get (fv_inputs fv') u = Amounts.get (fv_inputs fv) u + sum_unit u amounts (amount <$> metas) /\
              Amounts.get (fv_fees fv') u = Amounts.get (fv_fees fv) u + sum_unit u fees (amount <$> metas).
Proof.
  revert idx fv pks s. induction l as [|i l IH]; intros idx fv pks s; simpl.
  { intros H. mrun. exists []. rewrite app_nil_r. split_and!; [constructor|done|done|].
    intros u. unfold sum_unit. simpl. lia. }
  intros H. apply bind_Ok in H as (m & s1 & [-> (am & Ham & ->)]%get_expect_Ok & H).
  apply bind_Ok in H as ([] & s2 & [_ ->]%ret_Ok & H).
  apply bind_Ok in H as (meta & s2 & Hp & H). apply bind_Ok in H as (fv1 & s3 & Hadd & H).
  apply with_module_Ok in Hp as (d & Hp & ->). apply map_err_Ok in Hp.
  apply add_input_Ok in Hadd as (-> & Ho & Hci & Hcf).
  apply IH in H as (metas & Hm & -> & Ho' & Hu). exists (meta :: metas). split_and!.
  - constructor; [|done]. by exists am, idx, (module_db s (module_instance_id i)), d.
  - by rewrite <- app_assoc.
  - congruence.
  - intros u. destruct (Hu u) as [-> ->]. rewrite fmap_cons, !sum_unit_cons.
    rewrite (Amounts.checked_add_get _ _ _ u Hci), (Amounts.checked_add_get _ _ _ u Hcf). lia.
Qed.

Lemma process_outputs_amounts id idx l fv s fv' s' :
  process_outputs d0 modules Consensus id idx l fv s = (Ok fv', s') ->
  exists outs, Forall2 (created id) l outs /\ fv_inputs fv' = fv_inputs fv /\
    forall u, Amounts.get (fv_outputs fv') u = Amounts.get (fv_outputs fv) u + sum_unit u amounts outs /\
              Amounts.get (fv_fees fv') u = Amounts.get (fv_fees fv) u + sum_unit u fees outs.
Proof.
  revert idx fv s. induction l as [|o l IH]; intros idx fv s; simpl.
  { intros H. mrun. exists []. split_and!; [constructor|done|]. intros u. unfold sum_unit. simpl. lia. }
  intros H. apply bind_Ok in H as (m & s1 & [-> (am & Ham & ->)]%get_expect_Ok & H).
  apply bind_Ok in H as ([] & s2 & [_ ->]%ret_Ok & H).
  apply bind_Ok in H as (a & s2 & Hp & H). apply bind_Ok in H as (fv1 & s3 & Hadd & H).
  apply with_module_Ok in Hp as (d & Hp & ->). apply map_err_Ok in Hp.
  apply add_output_Ok in Hadd as (-> & Hi & Hco & Hcf).
  apply IH in H as (outs & Hm & Hi' & Hu). exists (a :: outs). split_and!.
  - constructor; [|done]. by exists am, idx, (module_db s (module_instance_id o)), d.
  - congruence.
  - intros u. destruct (Hu u) as [-> ->]. rewrite !sum_unit_cons.
    rewrite (Amounts.checked_add_get _ _ _ u Hco), (Amounts.checked_add_get _ _ _ u Hcf). lia.
Qed.

Lemma fv_default_wf : fv_wf FundingVerifier_default.
Proof. split; [|split]; apply map_Forall_empty. Qed.

(** What an accepted transaction went through. *)
Lemma process_transaction_Ok tx version s s' :
  process_transaction_with_dbtx d0 modules tx_hash_from_parts verify_schnorr tx version Consensus s = (Ok tt, s') ->
  exists fv1 keys s1 fv2,
    process_inputs d0 modules Consensus (tx_hash tx_hash_from_parts tx) 0 (inputs tx)
      FundingVerifier_default [] s = (Ok (fv1, keys), s1) /\
    validate_signatures (D := D) (E := E) tx_hash_from_parts verify_schnorr tx keys s1 = (Ok tt, s1) /\
    process_outputs d0 modules Consensus (tx_hash tx_hash_from_parts tx) 0 (outputs tx) fv1 s1 = (Ok fv2, s') /\
    verify_funding (E := E) fv2 version s' = (Ok tt, s').
Proof.
  unfold process_transaction_with_dbtx. intros H.
  apply bind_Ok in H as ([] & s0 & Hv & H).
  assert (s0 = s) as ->.
  { eapply (for_each_inv (fun t => t = s)); [|done|exact Hv]. intros i t1 t2 _ -> Hi.
    apply bind_Ok in Hi as (m & s1 & [-> _]%get_expect_Ok & Hi).
    apply map_err_Ok in Hi. unfold lift_outcome in Hi. by simplify_eq. }
  apply bind_Ok in H as ([fv1 keys] & s1 & Hin & H). apply bind_Ok in H as ([] & s2 & Hsig & H).
  apply bind_Ok in H as (fv2 & s3 & Hout & H). simpl in *.
  assert (s2 = s1) as -> by (apply validate_signatures_Ok in Hsig; naive_solver).
  assert (s' = s3) as ->; [|by exists fv1, keys, s1, fv2].
  apply verify_funding_steps in H. naive_solver.
Qed.

(** An accepted transaction leaves at least the net assets it found. *)
Lemma process_transaction_net tx version s s' :
  modules_inv s -> Forall dyn_input_ok (inputs tx) -> Forall dyn_output_ok (outputs tx) ->
  process_transaction_with_dbtx d0 modules tx_hash_from_parts verify_schnorr tx version Consensus s = (Ok tt, s') ->
  modules_inv s' /\ total_net s <= total_net s'.
Proof.
  intros Hs Hi Ho (fv1 & keys & s1 & fv2 & Hin & _ & Hout & Hfund)%process_transaction_Ok.
  apply process_inputs_audited in Hin as (Hs1 & Hw1 & Hfo & Hn1); [|done|apply fv_default_wf|done].
  apply process_outputs_audited in Hout as (Hs2 & Hw2 & Hfi & Hn2); [|done|done|done].
  apply verify_funding_Ok in Hfund as (_ & _ & Hall); [|done]. specialize (Hall BITCOIN).
  destruct Hw2 as (Hwi & Hwo & Hwf). pose proof (Amounts.wf_get _ BITCOIN Hwf) as [Hfee _].
  split; [done|]. rewrite Hfo in Hn2. rewrite Hfi in Hall.
  change (Amounts.get (fv_inputs FundingVerifier_default) BITCOIN) with 0 in Hn1.
  change (Amounts.get (fv_outputs FundingVerifier_default) BITCOIN) with 0 in Hn2.
  unfold unit_funded in Hall. destruct (version_lt _ _); lia.
Qed.

(** C14: the funding rule.  An accepted transaction balances in every unit: what
    the modules credit for its inputs covers what they debit for its outputs
    plus the fees of all its inputs and outputs, with equality before core
    consensus version 2.1, and none of these sums overflows. *)
Theorem transaction_funded tx version s s' :
  modules_inv s -> Forall dyn_input_ok (inputs tx) -> Forall dyn_output_ok (outputs tx) ->
  process_transaction_with_dbtx d0 modules tx_hash_from_parts verify_schnorr tx version Consensus s = (Ok tt, s') ->
  let id := tx_hash tx_hash_from_parts tx in
  exists metas outs, Forall2 (processed id) (inputs tx) metas /\ Forall2 (created id) (outputs tx) outs /\
    forall u, let ins := sum_unit u amounts (amount <$> metas) in
              let need := sum_unit u amounts outs + sum_unit u fees (amount <$> metas) + sum_unit u fees outs in
              unit_funded version ins need /\ 0 <= ins <= u64_max /\ 0 <= need <= u64_max.
Proof.
  intros Hs Hi Ho (fv1 & keys & s1 & fv2 & Hin & _ & Hout & Hfund)%process_transaction_Ok id.
  pose proof (process_inputs_metas _ _ _ _ _ _ _ _ _ Hin) as (metas & Hmetas & _ & Hfo1 & Hu1).
  pose proof (process_outputs_amounts _ _ _ _ _ _ _ Hout) as (outs & Houts & Hfi2 & Hu2).
  apply process_inputs_audited in Hin as (Hs1 & Hw1 & _ & _); [|done|apply fv_default_wf|done].
  apply process_outputs_audited in Hout as (_ & Hw2 & _ & _); [|done|done|done].
  apply verify_funding_Ok in Hfund as (_ & Hle & Hall); [|done].
  exists metas, outs. split; [done|]. split; [done|]. intros u ins need.
  destruct Hw2 as (Hwi & Hwo & Hwf).
  pose proof (Amounts.wf_get _ u Hwi). pose proof (Amounts.wf_get _ u Hwo). pose proof (Amounts.wf_get _ u Hwf).
  specialize (Hall u). specialize (Hle u). destruct (Hu1 u) as [Hi1 Hf1], (Hu2 u) as [Ho2 Hf2].
  rewrite Hfi2 in *. rewrite Hfo1 in Ho2.
  change (Amounts.get (fv_inputs FundingVerifier_default) u) with 0 in Hi1.
  change (Amounts.get (fv_fees FundingVerifier_default) u) with 0 in Hf1.
  change (Amounts.get (fv_outputs FundingVerifier_default) u) with 0 in Ho2.
  subst ins need. replace (sum_unit u amounts (amount <$> metas)) with (Amounts.get (fv_inputs fv1) u) by lia.
  replace (sum_unit u amounts outs + _ + _) with (Amounts.get (fv_outputs fv2) u + Amounts.get (fv_fees fv2) u) by lia.
  unfold is_u64 in *. split; [done|lia].
Qed.

(** Nothing is spent without its key.  Every input of an accepted
    transaction is authorised by a signature of the transaction's own hash
    under the public key the input's module returned for it, one signature per
    input in order. *)
Theorem transaction_authorised tx version s s' :
  process_transaction_with_dbtx d0 modules tx_hash_from_parts verify_schnorr tx version Consensus s = (Ok tt, s') ->
  let id := tx_hash tx_hash_from_parts tx in
  exists sigs metas, signatures tx = NaiveMultisig sigs /\
    Forall2 (processed id) (inputs tx) metas /\
    Forall2 (fun meta sig => verify_schnorr sig id (pub_key meta) = true) metas sigs.
Proof.
  intros (fv1 & keys & s1 & fv2 & Hin & Hsig & _ & _)%process_transaction_Ok id.
  apply process_inputs_metas in Hin as (metas & Hm & -> & _). rewrite app_nil_l in Hsig.
  apply validate_signatures_Ok in Hsig as (_ & sigs & Hsigs & H2). exists sigs, metas.
  split; [done|]. split; [done|]. by apply Forall2_fmap_l in H2.
Qed.
End audited.
