(* ===== verification/MintServer.v ===== *)
(** * The mint module of a guardian

    [modules/fedimint-mint-server/src/lib.rs] and its tables in
    [modules/fedimint-mint-server/src/db.rs], with the data types of
    [modules/fedimint-mint-common/src/lib.rs].  Nonces, blind nonces, keys and
    signatures are opaque integers; signing, verification and hashing are
    parameters. *)

From S2P Require Import Prelude Db Amounts ServerModule.

(** ** Data *)

Record Note := { note_nonce : Z; note_signature : Z }.

Inductive MintInput :=
| MintInputV0 (amount : Z) (note : Note)
| MintInputDefault (variant : Z) (bytes : list Z).

Inductive MintOutput :=
| MintOutputV0 (amount : Z) (blind_nonce : Z)
| MintOutputDefault (variant : Z) (bytes : list Z).

(** [MintConsensusItem] has only its default variant. *)
Inductive MintConsensusItem := MintConsensusItemDefault (variant : Z) (bytes : list Z).

Inductive RecoveryItem :=
| RecoveryOutput (amount nonce_hash : Z)
| RecoveryInput (nonce_hash : Z).

Inductive MintError :=
| SpentCoin
| InvalidInputAmountTier (amount : Z)
| InvalidNoteSignature
| UnknownInputVariant (variant : Z)
| InvalidOutputAmountTier (amount : Z)
| UnknownOutputVariant (variant : Z)
| BlindNonceAlreadyUsed
| NoConsensusItems.

Inductive MintAuditItemKey :=
| Issuance (out_point : OutPoint)
| IssuanceTotal
| Redemption (nonce : Z)
| RedemptionTotal.

#[export] Instance MintAuditItemKey_eq_dec : EqDecision MintAuditItemKey.
Proof. solve_decision. Defined.
#[export] Program Instance MintAuditItemKey_countable : Countable MintAuditItemKey :=
  inj_countable'
    (fun k => match k with
              | Issuance o => inl (inl o) | IssuanceTotal => inl (inr tt)
              | Redemption n => inr (inl n) | RedemptionTotal => inr (inr tt)
              end)
    (fun c => match c with
              | inl (inl o) => Issuance o | inl (inr _) => IssuanceTotal
              | inr (inl n) => Redemption n | inr (inr _) => RedemptionTotal
              end) _.
Next Obligation. by intros []. Qed.

(** ** Database *)

Record MintDb := {
  nonces : gmap Z unit;
  output_outcomes : gmap OutPoint Z;
  audit_items : gmap MintAuditItemKey Z;
  blind_nonces : gmap Z unit;
  recovery_items : gmap Z RecoveryItem;
  recovery_outpoints : gmap Z OutPoint;
}.

Definition MintDb_empty : MintDb :=
  {| nonces := ∅; output_outcomes := ∅; audit_items := ∅; blind_nonces := ∅;
     recovery_items := ∅; recovery_outpoints := ∅ |}.

Definition NonceKey : table MintDb Z unit := Table nonces (fun f s =>
  {| nonces := f (nonces s); output_outcomes := output_outcomes s; audit_items := audit_items s;
     blind_nonces := blind_nonces s; recovery_items := recovery_items s;
     recovery_outpoints := recovery_outpoints s |}).
Definition MintOutputOutcomeKey : table MintDb OutPoint Z := Table output_outcomes (fun f s =>
  {| nonces := nonces s; output_outcomes := f (output_outcomes s); audit_items := audit_items s;
     blind_nonces := blind_nonces s; recovery_items := recovery_items s;
     recovery_outpoints := recovery_outpoints s |}).
Definition MintAuditItem : table MintDb MintAuditItemKey Z := Table audit_items (fun f s =>
  {| nonces := nonces s; output_outcomes := output_outcomes s; audit_items := f (audit_items s);
     blind_nonces := blind_nonces s; recovery_items := recovery_items s;
     recovery_outpoints := recovery_outpoints s |}).
Definition BlindNonceKey : table MintDb Z unit := Table blind_nonces (fun f s =>
  {| nonces := nonces s; output_outcomes := output_outcomes s; audit_items := audit_items s;
     blind_nonces := f (blind_nonces s); recovery_items := recovery_items s;
     recovery_outpoints := recovery_outpoints s |}).
Definition RecoveryItemKey : table MintDb Z RecoveryItem := Table recovery_items (fun f s =>
  {| nonces := nonces s; output_outcomes := output_outcomes s; audit_items := audit_items s;
     blind_nonces := blind_nonces s; recovery_items := f (recovery_items s);
     recovery_outpoints := recovery_outpoints s |}).
Definition RecoveryBlindNonceOutpointKey : table MintDb Z OutPoint := Table recovery_outpoints (fun f s =>
  {| nonces := nonces s; output_outcomes := output_outcomes s; audit_items := audit_items s;
     blind_nonces := blind_nonces s; recovery_items := recovery_items s;
     recovery_outpoints := f (recovery_outpoints s) |}).

(** ** Configuration *)

(** [sec_key] is this guardian's key share of each tier, [pub_key] the
    aggregate public key of each tier. *)
Record Mint := { fee_consensus : Fee.FeeConsensus; sec_key : gmap Z Z; mint_pub_key : gmap Z Z }.

(** ** Operations *)
Section mint.
Context (cfg : Mint).

(** [tbs::verify] on the message of a nonce, [tbs::sign_message], and the
    [consensus_hash] of a nonce and of a blind nonce. *)
Context (tbs_verify : Z -> Z -> Z -> bool) (sign_message : Z -> Z -> Z).
Context (nonce_hash blind_nonce_hash : Z -> Z).

Abbreviation MM := (M MintDb MintError).

Definition note_verify (n : Note) (pk : Z) : bool := tbs_verify (note_nonce n) (note_signature n) pk.

Definition mint_verify_input (input : MintInput) : outcome MintError unit :=
  match input with
  | MintInputDefault variant _ => Err (UnknownInputVariant variant)
  | MintInputV0 amount note =>
      match mint_pub_key cfg !! amount with
      | None => Err (InvalidInputAmountTier amount)
      | Some amount_key => if note_verify note amount_key then Ok tt else Err InvalidNoteSignature
      end
  end.

(** The largest key plus one. *)
Definition get_recovery_count : MM Z := gets (fun s => next_index (recovery_items s)).

(** The entries with keys in [\[lo, hi)], in the order of their keys. *)
Definition get_recovery_slice (lo hi : Z) : MM (list RecoveryItem) :=
  gets (fun s => (range_scan lo hi (recovery_items s)).*2).

Definition mint_process_input (input : MintInput) (in_point : InPoint) : MM InputMeta :=
  match input with
  | MintInputDefault variant _ => throw (UnknownInputVariant variant)
  | MintInputV0 amount note =>
      prev ← insert_entry NonceKey (note_nonce note) tt;
      match prev with
      | Some _ => throw SpentCoin
      | None =>
          _ ← insert_new_entry MintAuditItem (Redemption (note_nonce note)) amount;
          next_index ← get_recovery_count;
          _ ← insert_new_entry RecoveryItemKey next_index (RecoveryInput (nonce_hash (note_nonce note)));
          fee ← expect (Fee.fee (fee_consensus cfg) amount);
          mret {| ServerModule.amount := {| amounts := Amounts.new_bitcoin amount;
                                            fees := Amounts.new_bitcoin fee |};
                  pub_key := note_nonce note |}
      end
  end.

Definition mint_process_output (output : MintOutput) (out_point : OutPoint) : MM TransactionItemAmounts :=
  match output with
  | MintOutputDefault variant _ => throw (UnknownOutputVariant variant)
  | MintOutputV0 amount blind_nonce =>
      amount_key ← ok_or (sec_key cfg !! amount) (InvalidOutputAmountTier amount);
      _ ← insert_new_entry MintOutputOutcomeKey out_point (sign_message blind_nonce amount_key);
      _ ← insert_new_entry MintAuditItem (Issuance out_point) amount;
      _ ← insert_entry BlindNonceKey blind_nonce tt;
      next_index ← get_recovery_count;
      _ ← insert_new_entry RecoveryItemKey next_index (RecoveryOutput amount (blind_nonce_hash blind_nonce));
      _ ← insert_entry RecoveryBlindNonceOutpointKey blind_nonce out_point;
      fee ← expect (Fee.fee (fee_consensus cfg) amount);
      mret {| amounts := Amounts.new_bitcoin amount; fees := Amounts.new_bitcoin fee |}
  end.

Definition mint_output_status (out_point : OutPoint) : MM (option Z) :=
  get_value MintOutputOutcomeKey out_point.

Definition mint_verify_output_submission (output : MintOutput) (out_point : OutPoint) : MM unit :=
  match output with
  | MintOutputDefault variant _ => throw (UnknownOutputVariant variant)
  | MintOutputV0 _ blind_nonce =>
      used ← get_value BlindNonceKey blind_nonce;
      match used with
      | Some _ => throw BlindNonceAlreadyUsed
      | None => mret tt
      end
  end.

Definition mint_process_consensus_item (c : MintConsensusItem) (peer : Z) : MM unit := throw NoConsensusItems.

Definition is_issuance (k : MintAuditItemKey) : bool :=
  match k with Issuance _ | IssuanceTotal => true | Redemption _ | RedemptionTotal => false end.

(** [-(v.msats as i64)] for issued notes, [v.msats as i64] for redeemed ones;
    the negation wraps. *)
Definition audit_milli_sat (k : MintAuditItemKey) (v : Z) : Z :=
  if is_issuance k then wrap_i64 (- wrap_i64 v) else wrap_i64 v.

Definition mint_audit : MM (list Z) :=
  entries ← find_all MintAuditItem;
  let issuances := Amount.sum (filter (fun kv => is_issuance kv.1 = true) entries).*2 in
  let redemptions := Amount.sum (filter (fun kv => is_issuance kv.1 = false) entries).*2 in
  _ ← for_each entries.*1 (fun key => _ ← remove_entry MintAuditItem key; mret tt);
  _ ← insert_entry MintAuditItem IssuanceTotal issuances;
  _ ← insert_entry MintAuditItem RedemptionTotal redemptions;
  items ← find_all MintAuditItem;
  mret ((fun kv => audit_milli_sat kv.1 kv.2) <$> items).

Definition mint_module : ServerModule MintDb MintInput MintOutput MintConsensusItem MintError := {|
  verify_input := mint_verify_input;
  verify_input_submission := fun _ => mret tt;
  process_input := mint_process_input;
  verify_output_submission := mint_verify_output_submission;
  process_output := mint_process_output;
  process_consensus_item := mint_process_consensus_item;
  audit := mint_audit;
|}.

(** ** Invariant

    A redemption in the balance sheet has its nonce marked as spent, an
    issuance has its signature recorded, the recovery items are numbered
    without gaps, and the balance sheet holds [u64]s. *)
Record mint_inv (d : MintDb) : Prop := {
  redemption_spent n : is_Some (audit_items d !! Redemption n) -> is_Some (nonces d !! n);
  issuance_signed o : is_Some (audit_items d !! Issuance o) -> is_Some (output_outcomes d !! o);
  recovery_log : exists n, log_of_length (recovery_items d) n;
  audit_u64 : map_Forall (fun _ a => is_u64 a) (audit_items d);
}.

Lemma mint_inv_empty : mint_inv MintDb_empty.
Proof.
  split; simpl.
  - intros n. rewrite lookup_empty. by intros [].
  - intros o. rewrite lookup_empty. by intros [].
  - exists 0%nat. apply log_of_length_empty.
  - apply map_Forall_empty.
Qed.

(** The database after a note is spent, and after one is issued. *)
Definition spend (amount : Z) (note : Note) (d : MintDb) : MintDb :=
  {| nonces := <[note_nonce note := tt]> (nonces d);
     output_outcomes := output_outcomes d;
     audit_items := <[Redemption (note_nonce note) := amount]> (audit_items d);
     blind_nonces := blind_nonces d;
     recovery_items :=
       <[next_index (recovery_items d) := RecoveryInput (nonce_hash (note_nonce note))]> (recovery_items d);
     recovery_outpoints := recovery_outpoints d |}.

Definition issue (amount blind_nonce key : Z) (o : OutPoint) (d : MintDb) : MintDb :=
  {| nonces := nonces d;
     output_outcomes := <[o := sign_message blind_nonce key]> (output_outcomes d);
     audit_items := <[Issuance o := amount]> (audit_items d);
     blind_nonces := <[blind_nonce := tt]> (blind_nonces d);
     recovery_items :=
       <[next_index (recovery_items d) := RecoveryOutput amount (blind_nonce_hash blind_nonce)]> (recovery_items d);
     recovery_outpoints := <[blind_nonce := o]> (recovery_outpoints d) |}.

Lemma mint_process_input_fresh amount note p d :
  Fee.wf (fee_consensus cfg) -> is_u64 amount -> mint_inv d -> nonces d !! note_nonce note = None ->
  exists fee, Fee.fee (fee_consensus cfg) amount = Some fee /\ is_u64 fee /\
    mint_process_input (MintInputV0 amount note) p d =
      (Ok {| ServerModule.amount := {| amounts := Amounts.new_bitcoin amount;
                                       fees := Amounts.new_bitcoin fee |};
             pub_key := note_nonce note |}, spend amount note d).
Proof.
  intros Hfee Ha Hd Hn. destruct (Fee.fee_total _ amount Hfee Ha) as (fee & Hf & Hb).
  exists fee. split; [done|]. split; [destruct Hfee; unfold is_u64; lia|].
  assert (audit_items d !! Redemption (note_nonce note) = None) as Hr.
  { apply eq_None_not_Some. intros Hs%(redemption_spent d Hd). rewrite Hn in Hs. by destruct Hs. }
  unfold mint_process_input, insert_new_entry, insert_entry, get_recovery_count, gets, mbind, M_bind.
  simpl. rewrite Hn. simpl. rewrite Hr. simpl. rewrite next_index_fresh. unfold expect. by rewrite Hf.
Qed.

Lemma mint_process_input_spent amount note p d :
  is_Some (nonces d !! note_nonce note) ->
  (mint_process_input (MintInputV0 amount note) p d).1 = Err SpentCoin.
Proof.
  intros [[] Hn]. unfold mint_process_input, insert_entry, mbind, M_bind. simpl. by rewrite Hn.
Qed.

Lemma mint_process_output_fresh amount bn key o d :
  Fee.wf (fee_consensus cfg) -> is_u64 amount -> mint_inv d ->
  sec_key cfg !! amount = Some key -> output_outcomes d !! o = None ->
  exists fee, Fee.fee (fee_consensus cfg) amount = Some fee /\ is_u64 fee /\
    mint_process_output (MintOutputV0 amount bn) o d =
      (Ok {| amounts := Amounts.new_bitcoin amount; fees := Amounts.new_bitcoin fee |},
       issue amount bn key o d).
Proof.
  intros Hfee Ha Hd Hk Ho. destruct (Fee.fee_total _ amount Hfee Ha) as (fee & Hf & Hb).
  exists fee. split; [done|]. split; [destruct Hfee; unfold is_u64; lia|].
  assert (audit_items d !! Issuance o = None) as Hr.
  { apply eq_None_not_Some. intros Hs%(issuance_signed d Hd). rewrite Ho in Hs. by destruct Hs. }
  unfold mint_process_output, insert_new_entry, insert_entry, get_recovery_count, gets, mbind, M_bind, ok_or.
  rewrite Hk. unfold mret, M_ret. simpl. rewrite Ho. simpl. rewrite Hr. simpl.
  rewrite next_index_fresh. unfold expect. by rewrite Hf.
Qed.

Lemma spend_inv amount note d : is_u64 amount -> mint_inv d -> mint_inv (spend amount note d).
Proof.
  intros Ha [Hr Hi [n Hl] Hu]. split; simpl.
  - intros m. destruct (decide (m = note_nonce note)) as [->|Hne].
    + rewrite !lookup_insert_eq. by eexists.
    + rewrite !lookup_insert_ne by congruence. apply Hr.
  - intros o. rewrite lookup_insert_ne by done. apply Hi.
  - exists (S n). by apply log_of_length_push.
  - by apply map_Forall_insert_2.
Qed.

Lemma issue_inv amount bn key o d : is_u64 amount -> mint_inv d -> mint_inv (issue amount bn key o d).
Proof.
  intros Ha [Hr Hi [n Hl] Hu]. split; simpl.
  - intros m. rewrite lookup_insert_ne by done. apply Hr.
  - intros o'. destruct (decide (o' = o)) as [->|Hne].
    + rewrite !lookup_insert_eq. by eexists.
    + rewrite !lookup_insert_ne by congruence. apply Hi.
  - exists (S n). by apply log_of_length_push.
  - by apply map_Forall_insert_2.
Qed.

Lemma mint_process_input_Ok input p d meta d' :
  mint_process_input input p d = (Ok meta, d') ->
  exists amount note fee, input = MintInputV0 amount note /\
    nonces d !! note_nonce note = None /\ audit_items d !! Redemption (note_nonce note) = None /\
    Fee.fee (fee_consensus cfg) amount = Some fee /\ d' = spend amount note d /\
    meta = {| ServerModule.amount := {| amounts := Amounts.new_bitcoin amount;
                                        fees := Amounts.new_bitcoin fee |};
              pub_key := note_nonce note |}.
Proof.
  destruct input as [amount note|]; simpl; [|by intros H; mrun].
  intros H. apply bind_Ok in H as (prev & d1 & [-> ->]%insert_entry_Ok & H). simpl in H.
  destruct (nonces d !! note_nonce note) eqn:Hn; [by mrun|]. unfold get_recovery_count in H. dbrun.
  eexists _, _, _. split_and!; done.
Qed.

Lemma mint_process_output_Ok output o d a d' :
  mint_process_output output o d = (Ok a, d') ->
  exists amount bn key fee, output = MintOutputV0 amount bn /\ sec_key cfg !! amount = Some key /\
    output_outcomes d !! o = None /\ audit_items d !! Issuance o = None /\
    Fee.fee (fee_consensus cfg) amount = Some fee /\ d' = issue amount bn key o d /\
    a = {| amounts := Amounts.new_bitcoin amount; fees := Amounts.new_bitcoin fee |}.
Proof.
  destruct output as [amount bn|]; simpl; [|by intros H; mrun].
  intros H. unfold get_recovery_count in H. dbrun. eexists _, _, _, _. split_and!; done.
Qed.

(** ** Balance sheet *)

Definition issued (d : MintDb) : Z := sum_map (fun k v => if is_issuance k then v else 0) (audit_items d).
Definition redeemed (d : MintDb) : Z := sum_map (fun k v => if is_issuance k then 0 else v) (audit_items d).
Definition mint_net (d : MintDb) : Z := redeemed d - issued d.
Definition mint_gross (d : MintDb) : Z := redeemed d + issued d.

Lemma issued_redeemed_nonneg d : mint_inv d -> 0 <= issued d /\ 0 <= redeemed d.
Proof.
  intros Hd. split; apply sum_map_nonneg; intros k v Hk%(audit_u64 d Hd); unfold is_u64 in Hk;
    destruct (is_issuance k); lia.
Qed.

Lemma spend_issued amount note d :
  audit_items d !! Redemption (note_nonce note) = None ->
  issued (spend amount note d) = issued d /\ redeemed (spend amount note d) = amount + redeemed d.
Proof. intros H. unfold issued, redeemed, spend. simpl. by rewrite !sum_map_insert. Qed.

Lemma issue_issued amount bn key o d :
  audit_items d !! Issuance o = None ->
  issued (issue amount bn key o d) = amount + issued d /\ redeemed (issue amount bn key o d) = redeemed d.
Proof. intros H. unfold issued, redeemed, issue. simpl. by rewrite !sum_map_insert. Qed.

(** The database after the balance sheet is compacted. *)
Definition compacted (d : MintDb) : MintDb :=
  upd MintAuditItem (fun _ => <[RedemptionTotal := redeemed d]> (<[IssuanceTotal := issued d]> ∅)) d.

Lemma remove_keys_run keys d :
  for_each (E := MintError) keys (fun key => _ ← remove_entry MintAuditItem key; mret tt) d =
  (Ok tt, upd MintAuditItem (fun m => foldl (fun m k => delete k m) m keys) d).
Proof.
  revert d. induction keys as [|k keys IH]; intros d; simpl; [by destruct d|].
  unfold mbind at 1, M_bind at 1. simpl. by rewrite IH.
Qed.

Lemma filtered_sum (b : bool) (m : gmap MintAuditItemKey Z) :
  sum_list (filter (fun kv => is_issuance kv.1 = b) (map_to_list m)).*2 =
  sum_map (fun k v => if bool_decide (is_issuance k = b) then v else 0) m.
Proof.
  unfold sum_map. induction (map_to_list m) as [|[k v] l IH]; [done|].
  rewrite filter_cons. destruct (decide (is_issuance (k, v).1 = b)) as [Hb|Hb].
  - rewrite !fmap_cons, !sum_list_cons, IH. by rewrite bool_decide_true.
  - rewrite fmap_cons, sum_list_cons, IH. by rewrite bool_decide_false.
Qed.

Lemma audit_sums d :
  mint_inv d -> mint_gross d <= i64_max ->
  Amount.sum (filter (fun kv => is_issuance kv.1 = true) (map_to_list (audit_items d))).*2 = issued d /\
  Amount.sum (filter (fun kv => is_issuance kv.1 = false) (map_to_list (audit_items d))).*2 = redeemed d.
Proof.
  intros Hd Hg. pose proof (issued_redeemed_nonneg d Hd) as [Hi Hr]. unfold mint_gross in Hg.
  assert (forall b, foldr Z.add 0 (filter (fun kv => is_issuance kv.1 = b) (map_to_list (audit_items d))).*2 =
            if b then issued d else redeemed d) as Heq.
  { intros b. change (foldr Z.add 0) with sum_list. rewrite filtered_sum. destruct b; apply sum_map_ext; intros k v _; by destruct (is_issuance k). }
  split; rewrite Amount.sum_exact; rewrite ?Heq; unfold is_u64, u64_max, i64_max in *; lia.
Qed.

Lemma mint_audit_run d :
  mint_inv d -> mint_gross d <= i64_max ->
  exists items, mint_audit d = (Ok items, compacted d) /\ items ≡ₚ [redeemed d; - issued d].
Proof.
  intros Hd Hg. pose proof (issued_redeemed_nonneg d Hd) as [Hi Hr].
  destruct (audit_sums d Hd Hg) as [Hsi Hsr]. unfold mint_gross in Hg.
  eexists. split.
  - unfold mint_audit, find_all, insert_entry. unfold mbind at 1, M_bind at 1. simpl.
    unfold mbind at 1, M_bind at 1. rewrite remove_keys_run. simpl.
    rewrite Hsi, Hsr, foldl_delete_all. reflexivity.
  - simpl. rewrite map_to_list_insert by (by rewrite lookup_insert_ne).
    rewrite insert_empty, map_to_list_singleton. simpl. unfold audit_milli_sat. simpl.
    unfold i64_max in Hg. by rewrite !wrap_i64_small by (rewrite ?wrap_i64_small; unfold i64_min, i64_max; lia).
Qed.

Lemma compacted_sums d : issued (compacted d) = issued d /\ redeemed (compacted d) = redeemed d.
Proof.
  unfold issued at 1, redeemed at 1, compacted. simpl.
  rewrite !sum_map_insert, !sum_map_empty by (rewrite ?lookup_insert_ne; done). simpl. lia.
Qed.

Lemma compacted_inv d : mint_inv d -> mint_gross d <= i64_max -> mint_inv (compacted d).
Proof.
  intros Hd Hg. pose proof (issued_redeemed_nonneg d Hd) as [Hi Hr].
  destruct Hd as [H1 H2 H3 H4]. unfold mint_gross in Hg. split; simpl; [| |done|].
  - intros n. rewrite !lookup_insert_ne, lookup_empty by done. by intros [].
  - intros o. rewrite !lookup_insert_ne, lookup_empty by done. by intros [].
  - repeat apply map_Forall_insert_2; [..|apply map_Forall_empty]; unfold is_u64, u64_max, i64_max in *; lia.
Qed.

(** ** The promise to the engine *)

Definition mint_input_ok (i : MintInput) : Prop :=
  match i with MintInputV0 a _ => is_u64 a | MintInputDefault _ _ => True end.
Definition mint_output_ok (o : MintOutput) : Prop :=
  match o with MintOutputV0 a _ => is_u64 a | MintOutputDefault _ _ => True end.

#[export] Program Instance mint_audited (Hfee : Fee.wf (fee_consensus cfg)) : Audited mint_module := {|
  inv := mint_inv;
  input_ok := mint_input_ok;
  output_ok := mint_output_ok;
  item_ok := fun _ => True;
  net := mint_net;
  gross := mint_gross;
|}.
Next Obligation. intros _ d Hd. pose proof (issued_redeemed_nonneg d Hd). unfold mint_gross. lia. Qed.
Next Obligation.
  intros Hfee i p d meta d' Hd Hi H.
  apply mint_process_input_Ok in H as (a & note & fee & -> & Hn & Hr & Hf & -> & ->). simpl in *.
  split; [by apply spend_inv|]. split; [by eauto using bitcoin_item_wf, Fee.fee_u64|].
  rewrite Amounts.get_new_bitcoin, decide_True by done. unfold mint_net.
  destruct (spend_issued a note d Hr) as [-> ->]. lia.
Qed.
Next Obligation.
  intros Hfee o p d a d' Hd Ho H.
  apply mint_process_output_Ok in H as (x & bn & key & fee & -> & Hk & Hn & Hr & Hf & -> & ->). simpl in *.
  split; [by apply issue_inv|]. split; [by eauto using bitcoin_item_wf, Fee.fee_u64|].
  rewrite Amounts.get_new_bitcoin, decide_True by done. unfold mint_net.
  destruct (issue_issued x bn key p d Hr) as [-> ->]. lia.
Qed.
Next Obligation. intros _ c peer d d' _ _ H. by apply throw_Ok in H. Qed.
Next Obligation.
  intros _ d Hd Hg. destruct (mint_audit_run d Hd Hg) as (items & Hrun & Hp).
  exists items, (compacted d). split; [done|]. split; [by apply compacted_inv|].
  pose proof (issued_redeemed_nonneg d Hd). destruct (compacted_sums d) as [Hi Hr].
  unfold mint_net, mint_gross. rewrite Hi, Hr. rewrite (sum_list_perm _ _ Hp), (sum_abs_perm _ _ Hp).
  simpl. lia.
Qed.

(** ** Histories

    The committed operations on the mint's database, in their order: items of
    rolled back transactions leave no trace. *)
Inductive mint_event :=
| Redeemed (input : MintInput) (p : InPoint)
| Issued (output : MintOutput) (p : OutPoint)
| Compacted.

Inductive mint_history (d : MintDb) : list mint_event -> MintDb -> Prop :=
| history_nil : mint_history d [] d
| history_redeem evs d1 i p meta d2 :
    mint_history d evs d1 -> mint_process_input i p d1 = (Ok meta, d2) ->
    mint_history d (evs ++ [Redeemed i p]) d2
| history_issue evs d1 o p a d2 :
    mint_history d evs d1 -> mint_process_output o p d1 = (Ok a, d2) ->
    mint_history d (evs ++ [Issued o p]) d2
| history_audit evs d1 items d2 :
    mint_history d evs d1 -> mint_audit d1 = (Ok items, d2) ->
    mint_history d (evs ++ [Compacted]) d2.

Definition event_nonce (e : mint_event) : option Z :=
  match e with Redeemed (MintInputV0 _ note) _ => Some (note_nonce note) | _ => None end.
Definition spent_nonces (evs : list mint_event) : list Z := omap event_nonce evs.

Lemma mint_audit_frame d items d' :
  mint_audit d = (Ok items, d') -> nonces d' = nonces d /\ recovery_items d' = recovery_items d.
Proof.
  unfold mint_audit. intros H. apply bind_Ok in H as (entries & d1 & [-> ->]%find_all_Ok & H).
  apply bind_Ok in H as ([] & d2 & Hr & H). rewrite remove_keys_run in Hr. simplify_eq. by dbrun.
Qed.

Lemma history_nonces d evs d' :
  mint_history d evs d' ->
  NoDup (spent_nonces evs) /\
  (forall n, n ∈ spent_nonces evs -> nonces d !! n = None) /\
  (forall n, is_Some (nonces d' !! n) <-> n ∈ spent_nonces evs \/ is_Some (nonces d !! n)).
Proof.
  clear tbs_verify.
  induction 1 as [|evs d1 i p meta d2 _ (IHn & IHf & IHs) H|evs d1 o p a d2 _ (IHn & IHf & IHs) H
                 |evs d1 items d2 _ (IHn & IHf & IHs) H];
    unfold spent_nonces in *; rewrite ?omap_app; simpl.
  - split; [constructor|]. split; intros n; [by intros Hn%not_elem_of_nil|]. set_solver.
  - apply mint_process_input_Ok in H as (a & note & fee & -> & Hn & _ & _ & -> & _). simpl.
    assert ((note_nonce note ∉ omap event_nonce evs) /\ nonces d !! note_nonce note = None) as [Hni Hnd].
    { rewrite eq_None_not_Some. rewrite eq_None_not_Some, IHs in Hn. tauto. }
    split; [apply NoDup_app; split; [done|split; [set_solver|apply NoDup_singleton]]|]. split; [set_solver|].
    intros n. destruct (decide (n = note_nonce note)) as [->|Hne].
    + rewrite lookup_insert_eq. set_solver.
    + rewrite lookup_insert_ne, IHs by done. set_solver.
  - apply mint_process_output_Ok in H as (? & ? & ? & ? & -> & _ & _ & _ & _ & -> & _).
    rewrite app_nil_r. done.
  - apply mint_audit_frame in H as [-> _]. rewrite app_nil_r. done.
Qed.

Lemma history_recovery d evs d' :
  mint_history d evs d' ->
  next_index (recovery_items d) <= next_index (recovery_items d') /\
  forall lo hi, hi <= next_index (recovery_items d) ->
    range_scan lo hi (recovery_items d') = range_scan lo hi (recovery_items d).
Proof.
  assert (forall d1 it, next_index (recovery_items d) <= next_index (recovery_items d1) ->
    let m := <[next_index (recovery_items d1) := it]> (recovery_items d1) in
    next_index (recovery_items d) <= next_index m /\
    forall lo hi, hi <= next_index (recovery_items d) ->
      range_scan lo hi m = range_scan lo hi (recovery_items d1)) as Hpush.
  { intros d1 it Hle. simpl. rewrite next_index_insert by apply next_index_fresh.
    split; [lia|]. intros lo hi Hhi. apply range_scan_insert. lia. }
  induction 1 as [|evs d1 i p meta d2 _ [IHc IHs] H|evs d1 o p a d2 _ [IHc IHs] H
                 |evs d1 items d2 _ [IHc IHs] H]; [done|..].
  - apply mint_process_input_Ok in H as (a & note & fee & -> & _ & _ & _ & -> & _). simpl.
    destruct (Hpush d1 (RecoveryInput (nonce_hash (note_nonce note))) IHc) as [H1 H2].
    split; [done|]. intros lo hi Hhi. by rewrite H2, IHs.
  - apply mint_process_output_Ok in H as (x & bn & ? & ? & -> & _ & _ & _ & _ & -> & _). simpl.
    destruct (Hpush d1 (RecoveryOutput x (blind_nonce_hash bn)) IHc) as [H1 H2].
    split; [done|]. intros lo hi Hhi. by rewrite H2, IHs.
  - apply mint_audit_frame in H as [_ ->]. done.
Qed.

(** ** Properties *)

(** C7: no note is ever redeemed twice. In every history of committed
    operations on a mint's database, from whatever state it starts, the nonces
    of the redeemed notes are pairwise distinct, none of them was marked as
    spent before, and at the end exactly these nonces have been added to the
    spent ones; issuing notes and compacting the balance sheet never frees a
    nonce. *)
Theorem mint_no_double_spend d evs d' :
  mint_history d evs d' ->
  NoDup (spent_nonces evs) /\
  (forall n, n ∈ spent_nonces evs -> nonces d !! n = None) /\
  (forall n, is_Some (nonces d' !! n) <-> n ∈ spent_nonces evs \/ is_Some (nonces d !! n)).
Proof. apply history_nonces. Qed.

(** Redeeming a note has exactly two outcomes on a database that satisfies
    the invariant, and never panics: a spent nonce is rejected with
    [SpentCoin]; an unspent one is credited with its amount, charged the
    configured fee, spendable with the nonce as public key, and the database
    gains the nonce, the redemption and one recovery item. *)
Theorem mint_process_input_cases amount note p d :
  Fee.wf (fee_consensus cfg) -> is_u64 amount -> mint_inv d ->
  (is_Some (nonces d !! note_nonce note) /\
   (mint_process_input (MintInputV0 amount note) p d).1 = Err SpentCoin) \/
  (nonces d !! note_nonce note = None /\ mint_inv (spend amount note d) /\
   exists fee, Fee.fee (fee_consensus cfg) amount = Some fee /\
     mint_process_input (MintInputV0 amount note) p d =
       (Ok {| ServerModule.amount := {| amounts := Amounts.new_bitcoin amount;
                                        fees := Amounts.new_bitcoin fee |};
              pub_key := note_nonce note |}, spend amount note d)).
Proof.
  intros Hfee Ha Hd. destruct (nonces d !! note_nonce note) eqn:Hn; [left|right].
  - split; [by eexists|]. apply mint_process_input_spent. by eexists.
  - destruct (mint_process_input_fresh amount note p d Hfee Ha Hd Hn) as (fee & Hf & _ & H).
    split; [done|]. split; [by apply spend_inv|]. eauto.
Qed.

(** Issuing a note never panics for a transaction that was not accepted
    before: on a database that satisfies the invariant and has no outcome for
    the out point, an amount without a key is rejected with
    [InvalidAmountTier], and any other output is signed with the key of its
    tier and recorded, with the amount debited and the configured fee. *)
Theorem mint_process_output_cases amount bn o d :
  Fee.wf (fee_consensus cfg) -> is_u64 amount -> mint_inv d -> output_outcomes d !! o = None ->
  match sec_key cfg !! amount with
  | None => mint_process_output (MintOutputV0 amount bn) o d = (Err (InvalidOutputAmountTier amount), d)
  | Some key =>
      mint_inv (issue amount bn key o d) /\
      output_outcomes (issue amount bn key o d) !! o = Some (sign_message bn key) /\
      exists fee, Fee.fee (fee_consensus cfg) amount = Some fee /\
        mint_process_output (MintOutputV0 amount bn) o d =
          (Ok {| amounts := Amounts.new_bitcoin amount; fees := Amounts.new_bitcoin fee |},
           issue amount bn key o d)
  end.
Proof.
  intros Hfee Ha Hd Ho. destruct (sec_key cfg !! amount) as [key|] eqn:Hk.
  - destruct (mint_process_output_fresh amount bn key o d Hfee Ha Hd Hk Ho) as (fee & Hf & _ & H).
    split; [by apply issue_inv|]. split; [simpl; by rewrite lookup_insert_eq|]. eauto.
  - unfold mint_process_output, mbind, M_bind. by rewrite Hk.
Qed.

(** The recovery log is append-only and served in pages. Whatever is
    committed later, a slice below the count a client has seen is served
    unchanged, and the slice of a range is the concatenation of the slices of
    its parts, so downloading page by page yields the whole log. *)
Theorem mint_recovery_slices d evs d' lo mid hi :
  mint_history d evs d' -> lo <= mid <= hi -> hi <= next_index (recovery_items d) ->
  (get_recovery_slice lo hi d').1 = (get_recovery_slice lo hi d).1 /\
  (exists l1 l2, (get_recovery_slice lo mid d).1 = Ok l1 /\ (get_recovery_slice mid hi d).1 = Ok l2 /\
     (get_recovery_slice lo hi d).1 = Ok (l1 ++ l2)) /\
  next_index (recovery_items d) <= next_index (recovery_items d').
Proof.
  intros H Hm Hhi. apply history_recovery in H as [Hc Hs]. unfold get_recovery_slice, gets. simpl.
  split; [by rewrite Hs|]. split; [|done]. eexists _, _. split; [done|]. split; [done|].
  by rewrite (range_scan_app _ lo mid hi Hm), fmap_app.
Qed.
End mint.

(** ** Instances for the witnesses *)
Module MintExample.
Definition cfg : Mint :=
  {| fee_consensus := {| Fee.base := 100; Fee.parts_per_million := 1000 |};
     sec_key := {[ 1024 := 7 ]}; mint_pub_key := {[ 1024 := 11 ]} |}.
Definition verify (n sig pk : Z) : bool := sig =? n + pk.
Definition sign (bn sk : Z) : Z := bn + sk.
Definition h (x : Z) : Z := x.
Definition note (n : Z) : Note := {| note_nonce := n; note_signature := n + 11 |}.
Definition pt : InPoint := {| in_txid := 1; in_idx := 0 |}.
Definition op : OutPoint := {| txid := 1; out_idx := 0 |}.

Definition d1 : MintDb := issue sign h 1024 50 7 op MintDb_empty.
Definition d2 : MintDb := spend h 1024 (note 5) d1.

Lemma fee_ok : Fee.wf (fee_consensus cfg).
Proof. unfold Fee.wf. simpl. lia. Qed.

Lemma note_history1 : mint_history cfg sign h h MintDb_empty [Issued (MintOutputV0 1024 50) op] d1.
Proof. eapply (history_issue cfg sign h h _ []); [constructor|]. vm_compute. reflexivity. Qed.

Lemma note_history2 :
  mint_history cfg sign h h MintDb_empty
    [Issued (MintOutputV0 1024 50) op; Redeemed (MintInputV0 1024 (note 5)) pt] d2.
Proof.
  eapply (history_redeem cfg sign h h _ [Issued (MintOutputV0 1024 50) op]); [apply note_history1|].
  vm_compute. reflexivity.
Qed.

Lemma mint_no_double_spend_witness :
  NoDup [5] /\ (forall n, n ∈ [5] -> nonces MintDb_empty !! n = None) /\
  (forall n, is_Some (nonces d2 !! n) <-> n ∈ [5] \/ is_Some (nonces MintDb_empty !! n)).
Proof. apply (mint_no_double_spend cfg sign h h _ _ _ note_history2). Defined.

Lemma mint_process_input_cases_witness :
  (mint_process_input cfg h (MintInputV0 1024 (note 5)) pt d2).1 = Err SpentCoin.
Proof.
  destruct (mint_process_input_cases cfg h 1024 (note 5) pt d2) as [[_ H]|[H _]].
  - apply fee_ok.
  - unfold is_u64, u64_max. lia.
  - apply spend_inv, issue_inv, mint_inv_empty; unfold is_u64, u64_max; lia.
  - exact H.
  - discriminate H.
Defined.

Lemma mint_process_output_cases_witness : mint_inv d1 /\ output_outcomes d1 !! op = Some 57.
Proof.
  destruct (mint_process_output_cases cfg sign h 1024 50 op MintDb_empty) as (H1 & H2 & _).
  - apply fee_ok.
  - unfold is_u64, u64_max. lia.
  - apply mint_inv_empty.
  - reflexivity.
  - split; [exact H1|exact H2].
Defined.

Lemma mint_recovery_slices_witness :
  (get_recovery_slice 0 1 d2).1 = Ok [RecoveryOutput 1024 50] /\
  next_index (recovery_items d1) <= next_index (recovery_items d2).
Proof.
  destruct (mint_recovery_slices cfg sign h h d1 [Redeemed (MintInputV0 1024 (note 5)) pt] d2 0 1 1)
    as (H1 & _ & H2).
  - eapply (history_redeem cfg sign h h _ []); [constructor|]. vm_compute. reflexivity.
  - lia.
  - vm_compute. discriminate.
  - split; [exact H1|exact H2].
Defined.
End MintExample.
