(* ===== verification/LnServer.v ===== *)
(** * The lightning module of a guardian, first generation

    [modules/fedimint-ln-server/src/lib.rs] with its tables in [db.rs], and the
    contracts of [modules/fedimint-ln-common/src/contracts/].  Contracts are
    accounts: an outgoing contract pays a gateway for a preimage or the user
    after a timelock, an incoming contract buys a preimage that the guardians
    decrypt together.  Hashes, keys, ciphertexts and signatures are opaque
    integers; hashing, threshold decryption and schnorr verification are
    parameters. *)

From Stdlib Require Ascii String.
From S2P Require Import Prelude Encoding Db Amounts Peers Votes ServerModule.

(** ** Contracts *)

(** The key of a preimage is a string of bytes. *)
Inductive DecryptedPreimage := Pending | DecryptedSome (key : list Z) | Invalid.
#[export] Instance DecryptedPreimage_eq_dec : EqDecision DecryptedPreimage.
Proof. solve_decision. Defined.

Record IncomingContract := {
  in_hash : Z;
  encrypted_preimage : Z;
  decrypted_preimage : DecryptedPreimage;
  in_gateway_key : Z;
}.
Record OutgoingContract := {
  out_hash : Z;
  out_gateway_key : Z;
  timelock : Z;
  user_key : Z;
  cancelled : bool;
}.

Inductive Contract := Incoming (c : IncomingContract) | Outgoing (c : OutgoingContract).
Inductive FundedContract := FundedIncoming (c : IncomingContract) (out_point : OutPoint) | FundedOutgoing (c : OutgoingContract).

Record ContractAccount := { account_amount : Z; account_contract : FundedContract }.
Record IncomingContractOffer := { offer_amount : Z; offer_hash : Z; offer_encrypted_preimage : Z; expiry_time : option Z }.

Inductive ContractOutcome := OutcomeIncoming (p : DecryptedPreimage) | OutcomeOutgoing.
Inductive LightningOutputOutcome :=
| OutcomeContract (id : Z) (outcome : ContractOutcome)
| OutcomeOffer (id : Z)
| OutcomeCancelOutgoing (id : Z).

(** [Contract::to_outcome] and [Contract::to_funded]. *)
Definition to_outcome (c : Contract) : ContractOutcome :=
  match c with Incoming _ => OutcomeIncoming Pending | Outgoing _ => OutcomeOutgoing end.
Definition to_funded (c : Contract) (o : OutPoint) : FundedContract :=
  match c with Incoming c => FundedIncoming c o | Outgoing c => FundedOutgoing c end.

Inductive LightningInput :=
| LightningInputV0 (contract_id amount : Z) (witness : option (list Z))
| LightningInputDefault (variant : Z) (bytes : list Z).

Inductive LightningOutput :=
| OutputContract (amount : Z) (contract : Contract)
| OutputOffer (offer : IncomingContractOffer)
| OutputCancelOutgoing (contract gateway_signature : Z)
| LightningOutputDefault (variant : Z) (bytes : list Z).

Definition MODULE_CONSENSUS_VERSION : ModuleConsensusVersion := {| vmajor := 2; vminor := 1 |}.
Definition CONTRACT_FUNDED_ONCE_MODULE_CONSENSUS_VERSION : ModuleConsensusVersion := {| vmajor := 2; vminor := 1 |}.

Inductive LightningConsensusItem :=
| DecryptPreimage (contract_id share : Z)
| BlockCount (count : Z)
| ConsensusVersionVote (version : ModuleConsensusVersion)
| LightningItemDefault (variant : Z) (bytes : list Z).

(** Errors of inputs, of outputs, and the messages of refused items. *)
Inductive LightningError :=
| UnknownContract (id : Z)
| InsufficientFunds (available needed : Z)
| MissingPreimage
| InvalidPreimage
| ContractNotReady
| UnknownInputVariant (variant : Z)
| UnknownOutputContract (id : Z)
| ZeroOutput
| InvalidEncryptedPreimage
| DuplicateEncryptedPreimage
| InsufficientIncomingFunding (needed got : Z)
| NoOffer (hash : Z)
| NotOutgoingContract
| InvalidCancellationSignature
| UnknownOutputVariant (variant : Z)
| ContractAlreadyFunded (id : Z)
| OfferForFundedContract (id : Z)
| EncryptedPreimageMismatch
| PreDecryptedIncomingContract
| ShareAlreadyReceived
| ShareWithoutContract
| ShareForOutgoing
| ShareNotPending
| ShareInvalid
| BlockCountDecreased
| BlockCountRedundant
| VersionRedundant
| UnknownItemVariant (variant : Z)
| GatewayFeeTooHigh
| GatewaySignatureInvalid
| GatewayUnsigned
| GatewayNonceNotIncreased
| GatewayNoSignature
| GatewayNotRegistered.

(** ** Gateways *)

(** What a gateway announces; the fields a guardian does not look at are one
    number. *)
Record LightningGateway := { gateway_id : Z; proportional_millionths : Z; gateway_rest : Z }.
#[export] Instance LightningGateway_eq_dec : EqDecision LightningGateway.
Proof. solve_decision. Defined.
Record GatewayRegistrationAuth := { auth_nonce : Z; auth_signature : Z }.
Record LightningGatewayAnnouncement := { an_info : LightningGateway; an_vetted : bool; an_ttl : Z; an_auth : option GatewayRegistrationAuth }.
Record LightningGatewayRegistration := { reg_info : LightningGateway; reg_vetted : bool; valid_until : Z; reg_auth : option GatewayRegistrationAuth }.

(** Times and durations are in nanoseconds; [now] is the clock of the
    guardian. *)
Definition MAX_GATEWAY_REGISTRATION_TTL : Z := 24 * 60 * 60 * 1000000000.
Definition anchor (now : Z) (a : LightningGatewayAnnouncement) : LightningGatewayRegistration :=
  {| reg_info := an_info a; reg_vetted := an_vetted a; valid_until := now + Z.min (an_ttl a) MAX_GATEWAY_REGISTRATION_TTL; reg_auth := an_auth a |}.
Definition unanchor (now : Z) (r : LightningGatewayRegistration) : LightningGatewayAnnouncement :=
  {| an_info := reg_info r; an_vetted := reg_vetted r; an_ttl := Z.max 0 (valid_until r - now); an_auth := reg_auth r |}.
Definition is_expired (now : Z) (r : LightningGatewayRegistration) : bool := valid_until r <? now.

(** [FeeToAmount for RoutingFees]. *)
Definition to_amount (base_msat proportional payment : Z) : Z :=
  let margin_fee :=
    if proportional =? 0 then 0
    else let fee_percent := 1000000 / proportional in
         if fee_percent =? 0 then u64_max else payment / fee_percent in
  saturating_add base_msat margin_fee.

(** ** Database *)

Inductive LightningAuditItemKey := AuditIncoming (id : Z) | AuditOutgoing (id : Z).
#[export] Instance LightningAuditItemKey_eq_dec : EqDecision LightningAuditItemKey.
Proof. solve_decision. Defined.
#[export] Program Instance LightningAuditItemKey_countable : Countable LightningAuditItemKey :=
  inj_countable'
    (fun k => match k with AuditIncoming id => inl id | AuditOutgoing id => inr id end)
    (fun c => match c with inl id => AuditIncoming id | inr id => AuditOutgoing id end) _.
Next Obligation. by intros []. Qed.

Record LnDb := {
  contracts : gmap Z ContractAccount;
  offers : gmap Z IncomingContractOffer;
  proposed_shares : gmap Z Z;
  agreed_shares : gmap (Z * Z) Z;
  contract_updates : gmap OutPoint LightningOutputOutcome;
  gateways : gmap Z LightningGatewayRegistration;
  block_count_votes : gmap Z Z;
  preimage_index : gmap Z unit;
  audit_items : gmap LightningAuditItemKey Z;
  version_votes : gmap Z ModuleConsensusVersion;
}.

Definition LnDb_empty : LnDb :=
  {| contracts := ∅; offers := ∅; proposed_shares := ∅; agreed_shares := ∅; contract_updates :=
     ∅; gateways := ∅; block_count_votes := ∅; preimage_index := ∅; audit_items := ∅;
     version_votes := ∅ |}.

Definition ContractKey : table LnDb Z ContractAccount := Table contracts (fun f s =>
  {| contracts := f (contracts s); offers := offers s; proposed_shares := proposed_shares s;
     agreed_shares := agreed_shares s; contract_updates := contract_updates s; gateways :=
     gateways s; block_count_votes := block_count_votes s; preimage_index := preimage_index s;
     audit_items := audit_items s; version_votes := version_votes s |}).
Definition OfferKey : table LnDb Z IncomingContractOffer := Table offers (fun f s =>
  {| contracts := contracts s; offers := f (offers s); proposed_shares := proposed_shares s;
     agreed_shares := agreed_shares s; contract_updates := contract_updates s; gateways :=
     gateways s; block_count_votes := block_count_votes s; preimage_index := preimage_index s;
     audit_items := audit_items s; version_votes := version_votes s |}).
Definition ProposeDecryptionShareKey : table LnDb Z Z := Table proposed_shares (fun f s =>
  {| contracts := contracts s; offers := offers s; proposed_shares := f (proposed_shares s);
     agreed_shares := agreed_shares s; contract_updates := contract_updates s; gateways :=
     gateways s; block_count_votes := block_count_votes s; preimage_index := preimage_index s;
     audit_items := audit_items s; version_votes := version_votes s |}).
Definition AgreedDecryptionShareKey : table LnDb (Z * Z) Z := Table agreed_shares (fun f s =>
  {| contracts := contracts s; offers := offers s; proposed_shares := proposed_shares s;
     agreed_shares := f (agreed_shares s); contract_updates := contract_updates s; gateways :=
     gateways s; block_count_votes := block_count_votes s; preimage_index := preimage_index s;
     audit_items := audit_items s; version_votes := version_votes s |}).
Definition ContractUpdateKey : table LnDb OutPoint LightningOutputOutcome := Table contract_updates (fun f s =>
  {| contracts := contracts s; offers := offers s; proposed_shares := proposed_shares s;
     agreed_shares := agreed_shares s; contract_updates := f (contract_updates s); gateways :=
     gateways s; block_count_votes := block_count_votes s; preimage_index := preimage_index s;
     audit_items := audit_items s; version_votes := version_votes s |}).
Definition LightningGatewayKey : table LnDb Z LightningGatewayRegistration := Table gateways (fun f s =>
  {| contracts := contracts s; offers := offers s; proposed_shares := proposed_shares s;
     agreed_shares := agreed_shares s; contract_updates := contract_updates s; gateways := f
     (gateways s); block_count_votes := block_count_votes s; preimage_index := preimage_index s;
     audit_items := audit_items s; version_votes := version_votes s |}).
Definition BlockCountVoteKey : table LnDb Z Z := Table block_count_votes (fun f s =>
  {| contracts := contracts s; offers := offers s; proposed_shares := proposed_shares s;
     agreed_shares := agreed_shares s; contract_updates := contract_updates s; gateways :=
     gateways s; block_count_votes := f (block_count_votes s); preimage_index := preimage_index
     s; audit_items := audit_items s; version_votes := version_votes s |}).
Definition EncryptedPreimageIndexKey : table LnDb Z unit := Table preimage_index (fun f s =>
  {| contracts := contracts s; offers := offers s; proposed_shares := proposed_shares s;
     agreed_shares := agreed_shares s; contract_updates := contract_updates s; gateways :=
     gateways s; block_count_votes := block_count_votes s; preimage_index := f (preimage_index
     s); audit_items := audit_items s; version_votes := version_votes s |}).
Definition LightningAuditItem : table LnDb LightningAuditItemKey Z := Table audit_items (fun f s =>
  {| contracts := contracts s; offers := offers s; proposed_shares := proposed_shares s;
     agreed_shares := agreed_shares s; contract_updates := contract_updates s; gateways :=
     gateways s; block_count_votes := block_count_votes s; preimage_index := preimage_index s;
     audit_items := f (audit_items s); version_votes := version_votes s |}).
Definition ConsensusVersionVoteKey : table LnDb Z ModuleConsensusVersion := Table version_votes (fun f s =>
  {| contracts := contracts s; offers := offers s; proposed_shares := proposed_shares s;
     agreed_shares := agreed_shares s; contract_updates := contract_updates s; gateways :=
     gateways s; block_count_votes := block_count_votes s; preimage_index := preimage_index s;
     audit_items := audit_items s; version_votes := f (version_votes s) |}).

(** [cfg.consensus.threshold()] is one more than the degree of the key set. *)
Record Lightning := {
  contract_input_fee : Z;
  contract_output_fee : Z;
  num_peers : Z;
  key_threshold : Z;
  fed_public_key : Z;
  threshold_sec_key : Z;
  our_peer_id : Z;
}.

(** [str::as_bytes] and [to_byte_array] of a hash. *)
Definition as_bytes (s : string) : list Z := (fun c => Z.of_N (Ascii.N_of_ascii c)) <$> String.list_ascii_of_string s.
Definition to_byte_array (hash : Z) : list Z := to_be_bytes 32 hash.

(** Decryption shares of one contract, by the peer that sent them. *)
Definition shares_of (cid : Z) (m : gmap (Z * Z) Z) : gmap Z Z :=
  list_to_map ((fun kv => (kv.1.2, kv.2)) <$> filter (fun kv => kv.1.1 = cid) (map_to_list m)).

Lemma shares_of_lookup cid m p : shares_of cid m !! p = m !! (cid, p).
Proof.
  apply option_eq. intros v. unfold shares_of. rewrite <- elem_of_list_to_map.
  - rewrite list_elem_of_fmap. split.
    + intros ([[c q] w] & Heq & [Hc Hin]%list_elem_of_filter). simplify_eq/=. by apply elem_of_map_to_list.
    + intros Hv. exists ((cid, p), v). split; [done|]. apply list_elem_of_filter. split; [done|]. by apply elem_of_map_to_list.
  - rewrite <- list_fmap_compose. apply NoDup_fmap_2_strong.
    + intros [[c1 p1] v1] [[c2 p2] v2] [H1 Hi1]%list_elem_of_filter [H2 Hi2]%list_elem_of_filter Heq. simplify_eq/=.
      apply elem_of_map_to_list in Hi1, Hi2. congruence.
    + apply NoDup_filter, NoDup_map_to_list.
Qed.

Lemma shares_of_insert cid cid' p s m :
  shares_of cid (<[(cid', p) := s]> m) = if decide (cid' = cid) then <[p := s]> (shares_of cid m) else shares_of cid m.
Proof.
  apply map_eq. intros q. rewrite shares_of_lookup. case_decide as Hc.
  - subst. destruct (decide (p = q)) as [->|Hne]; [by rewrite !lookup_insert_eq|].
    rewrite !lookup_insert_ne, shares_of_lookup; congruence.
  - rewrite lookup_insert_ne, shares_of_lookup; congruence.
Qed.

Lemma shares_of_filter (cid cid' : Z) (m : gmap (Z * Z) Z) :
  shares_of cid (filter (fun kv : Z * Z * Z => ~ kv.1.1 = cid') m) = if decide (cid' = cid) then ∅ else shares_of cid m.
Proof.
  apply map_eq. intros q. rewrite shares_of_lookup. case_decide as Hc.
  - subst. rewrite lookup_empty. apply map_lookup_filter_None. right. simpl. intros. tauto.
  - rewrite shares_of_lookup. apply option_eq. intros v. rewrite map_lookup_filter_Some. simpl. naive_solver.
Qed.

(** The padded number of peers of [consensus_block_count] for a federation of
    [n] guardians: at least [n], and more than a half of it is between
    [max_evil] and a threshold. *)
Lemma block_count_positions n :
  1 <= n -> let pc := 3 * (threshold n / 2) + 1 in n <= pc /\ max_evil n < pc - pc / 2 <= threshold n.
Proof.
  intros Hn pc. unfold pc, threshold. pose proof (max_evil_bound n Hn). Z.to_euclidean_division_equations. lia.
Qed.

(** ** Operations *)
Section ln.
Context (cfg : Lightning).

(** sha256, the parser and the encoder of secp256k1 public keys, schnorr
    verification (signature, message, key), and the encodings of the
    federation's key and of what a gateway announces. *)
Context (sha256 : list Z -> Z) (public_key_from_slice : list Z -> option Z) (encode_public_key : Z -> list Z).
Context (verify_schnorr : Z -> Z -> Z -> bool).
Context (encode_fed_key : Z -> list Z) (encode_gateway : LightningGateway -> list Z) (encode_ciphertext : Z -> list Z).

(** The variable-length encoding of integers. *)
Context (bigsize : codec Z).

(** Threshold encryption: [Ciphertext::verify], [decrypt_share] (secret key,
    ciphertext), [verify_decryption_share] (peer, share, ciphertext) and
    [PublicKeySet::decrypt]. *)
Context (verify_ciphertext : Z -> bool) (decrypt_share : Z -> Z -> option Z).
Context (verify_decryption_share : Z -> Z -> Z -> bool) (decrypt : list (Z * Z) -> Z -> option (list Z)).

Abbreviation ML := (M LnDb LightningError).

(** *** Identifiers and messages *)

Definition encode_legacy_system_time (t : Z) : list Z :=
  consensus_encode (duration_codec bigsize) (t / 1000000000, t mod 1000000000).

Definition outgoing_contract_id (c : OutgoingContract) : Z :=
  sha256 (to_byte_array (out_hash c) ++ encode_public_key (out_gateway_key c) ++
          consensus_encode (u32_codec bigsize) (timelock c) ++ encode_public_key (user_key c)).

Definition contract_id (c : Contract) : Z :=
  match c with Incoming c => in_hash c | Outgoing c => outgoing_contract_id c end.
Definition funded_contract_id (c : FundedContract) : Z :=
  match c with FundedIncoming c _ => in_hash c | FundedOutgoing c => outgoing_contract_id c end.

Definition cancellation_message (c : OutgoingContract) : Z :=
  sha256 (consensus_encode (bytes_codec bigsize) (as_bytes "outgoing contract cancellation") ++
          to_byte_array (outgoing_contract_id c)).

Definition create_gateway_registration_message (fed_key nonce : Z) (info : LightningGateway) : Z :=
  sha256 (as_bytes "register-gateway" ++ encode_fed_key fed_key ++ consensus_encode (u64_codec bigsize) nonce ++ encode_gateway info).

Definition create_gateway_remove_message (fed_key peer challenge : Z) : Z :=
  sha256 (as_bytes "remove-gateway" ++ encode_fed_key fed_key ++ consensus_encode (u16_codec bigsize) peer ++ to_byte_array challenge).

(** [LightningAuditItemKey::from_funded_contract]. *)
Definition from_funded_contract (c : FundedContract) : LightningAuditItemKey :=
  match c with
  | FundedIncoming _ _ => AuditIncoming (funded_contract_id c)
  | FundedOutgoing _ => AuditOutgoing (funded_contract_id c)
  end.

(** *** Votes *)

(** A panic is [None]. *)
Definition consensus_block_count (d : LnDb) : option Z :=
  median_vote (3 * (key_threshold cfg / 2) + 1) 0 (votes_of (block_count_votes d)).

Definition consensus_module_consensus_version (d : LnDb) : option ModuleConsensusVersion :=
  version_vote (num_peers cfg) (version_votes d).

Definition is_contract_funded_once_active : ML bool :=
  version ← gets consensus_module_consensus_version;
  version ← expect version;
  mret (bool_decide (version_le CONTRACT_FUNDED_ONCE_MODULE_CONSENSUS_VERSION version)).

(** [supported] is the version all peers support, when they all answered;
    [block_count] what the bitcoin backend reports. *)
Definition consensus_proposal (block_count : option Z) (supported : option ModuleConsensusVersion) : ML (list LightningConsensusItem) :=
  shares ← gets (fun d => btree_iter (proposed_shares d));
  active ← gets consensus_module_consensus_version;
  active ← expect active;
  mret (((fun kv => DecryptPreimage kv.1 kv.2) <$> shares) ++
        match block_count with Some c => [BlockCount c] | None => [] end ++
        match supported with
        | Some v => if decide (version_le v active) then [] else [ConsensusVersionVote v]
        | None => []
        end).

(** The minimum of what the other peers support and our own version; [None]
    when a peer does not answer. *)
Definition all_peers_supported_version (answers : list (option ModuleConsensusVersion)) : option ModuleConsensusVersion :=
  versions ← mapM (M := option) (fun v => v) answers;
  Some (foldr (fun v acc => if decide (version_le v acc) then v else acc) MODULE_CONSENSUS_VERSION versions).

(** *** Consensus items *)

(** What the decrypted bytes mean for a contract with the given hash. *)
Definition decode_preimage (hash : Z) (preimage_vec : list Z) : DecryptedPreimage :=
  if (length preimage_vec =? 33)%nat && (hash =? sha256 (to_byte_array (sha256 preimage_vec))) then
    match public_key_from_slice preimage_vec with
    | Some _ => DecryptedSome preimage_vec
    | None => Invalid
    end
  else Invalid.

Definition with_preimage (p : DecryptedPreimage) (c : IncomingContract) : IncomingContract :=
  {| in_hash := in_hash c; encrypted_preimage := encrypted_preimage c; decrypted_preimage := p; in_gateway_key := in_gateway_key c |}.

(** The contract and its output once the preimage is decrypted. *)
Definition update_preimage (cid : Z) (out_point : OutPoint) (p : DecryptedPreimage) : ML unit :=
  account ← get_value ContractKey cid;
  account ← expect account;
  match account_contract account with
  | FundedOutgoing _ => panic
  | FundedIncoming c o =>
      _ ← insert_entry ContractKey cid {| account_amount := account_amount account; account_contract := FundedIncoming (with_preimage p c) o |};
      outcome ← get_value ContractUpdateKey out_point;
      outcome ← expect outcome;
      match outcome with
      | OutcomeContract id (OutcomeIncoming _) =>
          _ ← insert_entry ContractUpdateKey out_point (OutcomeContract id (OutcomeIncoming p)); mret tt
      | _ => panic
      end
  end.

Definition process_decryption_share (cid share peer : Z) : ML unit :=
  seen ← get_value AgreedDecryptionShareKey (cid, peer);
  _ ← ensure (negb (bool_decide (is_Some seen))) ShareAlreadyReceived;
  account ← get_value ContractKey cid;
  account ← ok_or account ShareWithoutContract;
  match account_contract account with
  | FundedOutgoing _ => throw ShareForOutgoing
  | FundedIncoming contract out_point =>
      _ ← ensure (bool_decide (decrypted_preimage contract = Pending)) ShareNotPending;
      _ ← ensure (verify_decryption_share peer share (encrypted_preimage contract)) ShareInvalid;
      _ ← insert_new_entry AgreedDecryptionShareKey (cid, peer) share;
      shares ← gets (fun d => btree_iter (shares_of cid (agreed_shares d)));
      if Z.of_nat (length shares) <? key_threshold cfg then mret tt
      else match decrypt shares (encrypted_preimage contract) with
           | None => mret tt
           | Some preimage_vec =>
               _ ← remove_entry ProposeDecryptionShareKey cid;
               _ ← remove_by_prefix AgreedDecryptionShareKey (fun k => k.1 = cid);
               update_preimage cid out_point (decode_preimage (in_hash contract) preimage_vec)
           end
  end.

Definition ln1_process_consensus_item (item : LightningConsensusItem) (peer : Z) : ML unit :=
  match item with
  | DecryptPreimage cid share => process_decryption_share cid share peer
  | BlockCount count =>
      vote ← get_value BlockCountVoteKey peer;
      _ ← ensure (negb (count <? default 0 vote)) BlockCountDecreased;
      _ ← ensure (negb (count =? default 0 vote)) BlockCountRedundant;
      _ ← insert_entry BlockCountVoteKey peer count; mret tt
  | ConsensusVersionVote version =>
      vote ← get_value ConsensusVersionVoteKey peer;
      _ ← ensure (negb (bool_decide (version_le version (default VERSION_2_0 vote)))) VersionRedundant;
      _ ← insert_entry ConsensusVersionVoteKey peer version;
      active ← gets consensus_module_consensus_version;
      active ← expect active;
      rassert (bool_decide (version_le active MODULE_CONSENSUS_VERSION))
  | LightningItemDefault variant _ => throw (UnknownItemVariant variant)
  end.

(** *** Inputs *)

(** The key that may spend an account, with the witness of the input. *)
Definition spending_key (block_count : Z) (c : FundedContract) (witness : option (list Z)) : ML Z :=
  match c with
  | FundedOutgoing outgoing =>
      if (block_count <? timelock outgoing + 1) && negb (cancelled outgoing) then
        preimage ← ok_or witness MissingPreimage;
        _ ← ensure (sha256 preimage =? out_hash outgoing) InvalidPreimage;
        mret (out_gateway_key outgoing)
      else mret (user_key outgoing)
  | FundedIncoming incoming _ =>
      match decrypted_preimage incoming with
      | Pending => throw ContractNotReady
      | DecryptedSome preimage => ok_or (public_key_from_slice preimage) InvalidPreimage
      | Invalid => mret (in_gateway_key incoming)
      end
  end.

Definition ln1_process_input (input : LightningInput) (in_point : InPoint) : ML InputMeta :=
  match input with
  | LightningInputV0 cid amount witness =>
      account ← get_value ContractKey cid;
      account ← ok_or account (UnknownContract cid);
      _ ← ensure (negb (account_amount account <? amount)) (InsufficientFunds (account_amount account) amount);
      block_count ← gets consensus_block_count;
      block_count ← expect block_count;
      pub_key ← spending_key block_count (account_contract account) witness;
      let left := Amount.sub (account_amount account) amount in
      _ ← insert_entry ContractKey cid {| account_amount := left; account_contract := account_contract account |};
      let audit_key := from_funded_contract (account_contract account) in
      _ ← (if left =? 0 then remove_entry LightningAuditItem audit_key
           else insert_entry LightningAuditItem audit_key left);
      mret {| ServerModule.amount := {| amounts := Amounts.new_bitcoin amount; fees := Amounts.new_bitcoin (contract_input_fee cfg) |};
              pub_key := pub_key |}
  | LightningInputDefault variant _ => throw (UnknownInputVariant variant)
  end.

(** *** Outputs *)

(** Incoming contracts have to match an offer. *)
Definition check_incoming (amount : Z) (incoming : IncomingContract) : ML unit :=
  proposed ← get_value ProposeDecryptionShareKey (in_hash incoming);
  _ ← ensure (negb (bool_decide (is_Some proposed))) (ContractAlreadyFunded (in_hash incoming));
  offer ← get_value OfferKey (in_hash incoming);
  offer ← ok_or offer (NoOffer (in_hash incoming));
  _ ← ensure (negb (amount <? offer_amount offer)) (InsufficientIncomingFunding (offer_amount offer) amount);
  once ← is_contract_funded_once_active;
  _ ← ensure (negb (once && negb (encrypted_preimage incoming =? offer_encrypted_preimage offer))) EncryptedPreimageMismatch;
  once ← is_contract_funded_once_active;
  _ ← ensure (negb (once && negb (bool_decide (decrypted_preimage incoming = Pending)))) PreDecryptedIncomingContract;
  ensure (verify_ciphertext (encrypted_preimage incoming)) InvalidEncryptedPreimage.

(** The decryption share this guardian proposes for a funded contract. *)
Definition propose_share (incoming : IncomingContract) : ML unit :=
  offer ← get_value OfferKey (in_hash incoming);
  offer ← expect offer;
  share ← ok_or (decrypt_share (threshold_sec_key cfg) (encrypted_preimage incoming)) InvalidEncryptedPreimage;
  _ ← insert_new_entry ProposeDecryptionShareKey (in_hash incoming) share;
  _ ← remove_entry OfferKey (offer_hash offer);
  mret tt.

Definition fund_contract (amount : Z) (contract : Contract) (o : OutPoint) : ML TransactionItemAmounts :=
  let cid := contract_id contract in
  once ← is_contract_funded_once_active;
  existing ← get_value ContractKey cid;
  _ ← ensure (negb (once && bool_decide (is_Some existing))) (ContractAlreadyFunded cid);
  _ ← match contract with Incoming incoming => check_incoming amount incoming | Outgoing _ => mret tt end;
  _ ← ensure (negb (amount =? 0)) ZeroOutput;
  existing ← get_value ContractKey cid;
  let account :=
    match existing with
    | None => {| account_amount := amount; account_contract := to_funded contract o |}
    | Some value => {| account_amount := Amount.add (account_amount value) amount; account_contract := account_contract value |}
    end in
  _ ← insert_entry LightningAuditItem (from_funded_contract (account_contract account)) (account_amount account);
  _ ← insert_entry ContractKey cid account;
  _ ← insert_new_entry ContractUpdateKey o (OutcomeContract cid (to_outcome contract));
  _ ← match contract with Incoming incoming => propose_share incoming | Outgoing _ => mret tt end;
  mret {| amounts := Amounts.new_bitcoin amount; fees := Amounts.new_bitcoin (contract_output_fee cfg) |}.

Definition ZERO_ITEM : TransactionItemAmounts := {| amounts := Amounts.ZERO; fees := Amounts.ZERO |}.

Definition create_offer (offer : IncomingContractOffer) (o : OutPoint) : ML TransactionItemAmounts :=
  once ← is_contract_funded_once_active;
  existing ← get_value ContractKey (offer_hash offer);
  _ ← ensure (negb (once && bool_decide (is_Some existing))) (OfferForFundedContract (offer_hash offer));
  _ ← ensure (verify_ciphertext (offer_encrypted_preimage offer)) InvalidEncryptedPreimage;
  seen ← insert_entry EncryptedPreimageIndexKey (sha256 (encode_ciphertext (offer_encrypted_preimage offer))) tt;
  _ ← ensure (negb (bool_decide (is_Some seen))) DuplicateEncryptedPreimage;
  _ ← insert_new_entry ContractUpdateKey o (OutcomeOffer (offer_hash offer));
  prev ← insert_entry OfferKey (offer_hash offer) offer;
  _ ← ensure (negb (bool_decide (is_Some prev))) DuplicateEncryptedPreimage;
  mret ZERO_ITEM.

Definition cancel (c : OutgoingContract) : OutgoingContract :=
  {| out_hash := out_hash c; out_gateway_key := out_gateway_key c; timelock := timelock c; user_key := user_key c; cancelled := true |}.

Definition cancel_outgoing (cid gateway_signature : Z) (o : OutPoint) : ML TransactionItemAmounts :=
  account ← get_value ContractKey cid;
  account ← ok_or account (UnknownOutputContract cid);
  match account_contract account with
  | FundedIncoming _ _ => throw NotOutgoingContract
  | FundedOutgoing c =>
      _ ← ensure (verify_schnorr gateway_signature (cancellation_message c) (out_gateway_key c)) InvalidCancellationSignature;
      account ← get_value ContractKey cid;
      account ← expect account;
      match account_contract account with
      | FundedIncoming _ _ => panic
      | FundedOutgoing c =>
          _ ← insert_entry ContractKey cid {| account_amount := account_amount account; account_contract := FundedOutgoing (cancel c) |};
          _ ← insert_new_entry ContractUpdateKey o (OutcomeCancelOutgoing cid);
          mret ZERO_ITEM
      end
  end.

Definition ln1_process_output (output : LightningOutput) (o : OutPoint) : ML TransactionItemAmounts :=
  match output with
  | OutputContract amount contract => fund_contract amount contract o
  | OutputOffer offer => create_offer offer o
  | OutputCancelOutgoing cid gateway_signature => cancel_outgoing cid gateway_signature o
  | LightningOutputDefault variant _ => throw (UnknownOutputVariant variant)
  end.

Definition output_status (o : OutPoint) : ML (option LightningOutputOutcome) := get_value ContractUpdateKey o.

Definition ln1_verify_output_submission (output : LightningOutput) (o : OutPoint) : ML unit :=
  match output with
  | OutputContract _ contract =>
      existing ← get_value ContractKey (contract_id contract);
      ensure (negb (bool_decide (is_Some existing))) (ContractAlreadyFunded (contract_id contract))
  | OutputOffer offer =>
      existing ← get_value ContractKey (offer_hash offer);
      ensure (negb (bool_decide (is_Some existing))) (OfferForFundedContract (offer_hash offer))
  | OutputCancelOutgoing _ _ => mret tt
  | LightningOutputDefault variant _ => throw (UnknownOutputVariant variant)
  end.


Definition ln1_audit : ML (list Z) :=
  items ← find_all LightningAuditItem;
  mret ((fun kv => liability kv.2) <$> items).

Definition ln1_module : ServerModule LnDb LightningInput LightningOutput LightningConsensusItem LightningError := {|
  verify_input := fun _ => Ok tt;
  verify_input_submission := fun _ => mret tt;
  process_input := ln1_process_input;
  verify_output_submission := ln1_verify_output_submission;
  process_output := ln1_process_output;
  process_consensus_item := ln1_process_consensus_item;
  audit := ln1_audit;
|}.

(** *** Queries

    A query that waits returns [None] while it has to keep waiting. *)

Definition get_offer (payment_hash : Z) : ML (option IncomingContractOffer) := get_value OfferKey payment_hash.
Definition get_contract_account (cid : Z) : ML (option ContractAccount) := get_value ContractKey cid.

Definition wait_block_height (block_height : Z) (d : LnDb) : option bool :=
  count ← consensus_block_count d; Some (block_height <? count).

Definition wait_outgoing_contract_account_cancelled (cid : Z) (d : LnDb) : option ContractAccount :=
  account ← contracts d !! cid;
  match account_contract account with
  | FundedOutgoing c => if cancelled c then Some account else None
  | FundedIncoming _ _ => None
  end.

Definition get_incoming_contract_account (account : ContractAccount) : option (Z * IncomingContract) :=
  match account_contract account with
  | FundedIncoming c _ => Some (account_amount account, c)
  | FundedOutgoing _ => None
  end.

(** The preimage of the invoice is the hash of the key. *)
Definition preimage_of (key : list Z) : list Z := to_byte_array (sha256 key).

Inductive DecryptedPreimageStatus := StatusPending | StatusSome (preimage : list Z) | StatusInvalid.

(** [Some None] answers that the contract is not an incoming one. *)
Definition get_decrypted_preimage_status (cid : Z) (d : LnDb) : option (option (Z * IncomingContract * DecryptedPreimageStatus)) :=
  account ← contracts d !! cid;
  Some (
    incoming ← get_incoming_contract_account account;
    Some (incoming,
      match decrypted_preimage incoming.2 with
      | DecryptedSome key => StatusSome (preimage_of key)
      | Pending => StatusPending
      | Invalid => StatusInvalid
      end)).

Definition wait_preimage_decrypted (cid : Z) (d : LnDb) : option (Z * IncomingContract * option (list Z)) :=
  account ← contracts d !! cid;
  match account_contract account with
  | FundedIncoming c _ =>
      match decrypted_preimage c with
      | Pending => None
      | DecryptedSome key => Some (account_amount account, c, Some (preimage_of key))
      | Invalid => Some (account_amount account, c, None)
      end
  | FundedOutgoing _ => None
  end.

(** *** Gateways *)

Definition list_gateways (now : Z) : ML (list LightningGatewayAnnouncement) :=
  gws ← gets (fun d => btree_iter (gateways d));
  mret (unanchor now <$> filter (fun gw => is_expired now gw = false) gws.*2).

Definition delete_expired_gateways (now : Z) : ML unit :=
  expired ← gets (fun d => (filter (fun kv => is_expired now kv.2 = true) (btree_iter (gateways d))).*1);
  for_each expired (fun key => _ ← remove_entry LightningGatewayKey key; mret tt).

Definition with_auth (auth : option GatewayRegistrationAuth) (a : LightningGatewayAnnouncement) : LightningGatewayAnnouncement :=
  {| an_info := an_info a; an_vetted := an_vetted a; an_ttl := an_ttl a; an_auth := auth |}.
Definition unvetted (a : LightningGatewayAnnouncement) : LightningGatewayAnnouncement :=
  {| an_info := an_info a; an_vetted := false; an_ttl := an_ttl a; an_auth := an_auth a |}.

(** What a live signed registration demands of the announcement that replaces
    it, and the announcement that is stored. *)
Definition honor_existing (gateway : LightningGatewayAnnouncement) (existing : option LightningGatewayRegistration) : ML LightningGatewayAnnouncement :=
  match existing ≫= reg_auth, existing with
  | Some existing_auth, Some reg =>
      auth ← ok_or (an_auth gateway) GatewayUnsigned;
      _ ← ensure ((auth_nonce existing_auth <? auth_nonce auth) || bool_decide (an_info gateway = reg_info reg)) GatewayNonceNotIncreased;
      mret (if auth_nonce auth <? auth_nonce existing_auth then with_auth (Some existing_auth) gateway else gateway)
  | _, _ => mret gateway
  end.

Definition register_gateway (now : Z) (gateway : LightningGatewayAnnouncement) : ML unit :=
  _ ← delete_expired_gateways now;
  let gw := gateway_id (an_info gateway) in
  _ ← ensure (proportional_millionths (an_info gateway) <=? 1000000) GatewayFeeTooHigh;
  _ ← match an_auth gateway with
      | Some auth =>
          let msg := create_gateway_registration_message (fed_public_key cfg) (auth_nonce auth) (an_info gateway) in
          ensure (verify_schnorr (auth_signature auth) msg gw) GatewaySignatureInvalid
      | None => mret tt
      end;
  existing ← get_value LightningGatewayKey gw;
  gateway ← honor_existing gateway existing;
  _ ← insert_entry LightningGatewayKey gw (anchor now (unvetted gateway));
  mret tt.

Definition get_gateway_remove_challenge (gw : Z) : ML (option Z) :=
  reg ← get_value LightningGatewayKey gw;
  mret ((fun r => sha256 (encode_public_key gw ++ encode_legacy_system_time (valid_until r))) <$> reg).

Definition remove_gateway (gw : Z) (signatures : gmap Z Z) : ML unit :=
  signature ← ok_or (signatures !! our_peer_id cfg) GatewayNoSignature;
  challenge ← get_gateway_remove_challenge gw;
  challenge ← ok_or challenge GatewayNotRegistered;
  let msg := create_gateway_remove_message (fed_public_key cfg) (our_peer_id cfg) challenge in
  _ ← ensure (verify_schnorr signature msg gw) GatewaySignatureInvalid;
  _ ← remove_entry LightningGatewayKey gw;
  mret tt.

(** ** Votes *)

(** The rules of version 2.1 are voted in. *)
Definition funded_once (d : LnDb) : Prop :=
  threshold (num_peers cfg) <= Z.of_nat (size (supporters CONTRACT_FUNDED_ONCE_MODULE_CONSENSUS_VERSION (version_votes d))).

Lemma once_Ok d b d' :
  1 <= num_peers cfg -> is_contract_funded_once_active d = (Ok b, d') ->
  d' = d /\ (b = true <-> funded_once d).
Proof using.
  intros Hn H. unfold is_contract_funded_once_active in H. dbrun. split; [done|].
  rewrite bool_decide_eq_true. apply version_vote_spec; [done| |done].
  unfold version_le. simpl. lia.
Qed.

(** ** Spending *)

(** Who may spend a contract, with which witness. *)
Definition spendable (count : Z) (c : FundedContract) (w : option (list Z)) (pk : Z) : Prop :=
  match c with
  | FundedOutgoing c =>
      if decide (timelock c < count \/ cancelled c = true) then pk = user_key c
      else exists preimage, w = Some preimage /\ sha256 preimage = out_hash c /\ pk = out_gateway_key c
  | FundedIncoming c _ =>
      match decrypted_preimage c with
      | Pending => False
      | DecryptedSome key => public_key_from_slice key = Some pk
      | Invalid => pk = in_gateway_key c
      end
  end.

Lemma spending_key_Ok count c w pk d d' :
  spending_key count c w d = (Ok pk, d') <-> spendable count c w pk /\ d' = d.
Proof using.
  clear. unfold spending_key, spendable. destruct c as [c o|c].
  - destruct (decrypted_preimage c); [by rewrite throw_Ok; tauto|by rewrite ok_or_Ok|by rewrite ret_Ok].
  - destruct ((count <? timelock c + 1) && negb (cancelled c)) eqn:Hb.
    + apply andb_true_iff in Hb as [H1 H2%negb_true_iff]. rewrite decide_False by (intros [?|?]; [lia|congruence]).
      rewrite bind_Ok. setoid_rewrite ok_or_Ok. split.
      * intros (p & d1 & [-> ->] & H). mrun. split; [|done]. exists p. split_and!; [done|by apply Z.eqb_eq|done].
      * intros [(p & -> & Hp & ->) ->]. exists p, d. split; [done|]. unfold ensure. rewrite (proj2 (Z.eqb_eq _ _) Hp). done.
    + apply andb_false_iff in Hb. rewrite decide_True; [by rewrite ret_Ok|].
      destruct Hb as [Hb|Hb]; [left; lia|right; by apply negb_false_iff].
Qed.

Definition spent (cid left : Z) (c : FundedContract) (d : LnDb) : LnDb :=
  upd LightningAuditItem
    (if left =? 0 then delete (from_funded_contract c) else <[from_funded_contract c := left]>)
    (upd ContractKey <[cid := {| account_amount := left; account_contract := c |}]> d).

(** Spending an account, in one equivalence. *)
Lemma ln1_input_Ok cid amount w p d meta d' :
  ln1_process_input (LightningInputV0 cid amount w) p d = (Ok meta, d') <->
  exists account count pk,
    contracts d !! cid = Some account /\ amount <= account_amount account /\
    consensus_block_count d = Some count /\ spendable count (account_contract account) w pk /\
    meta = {| ServerModule.amount := {| amounts := Amounts.new_bitcoin amount; fees := Amounts.new_bitcoin (contract_input_fee cfg) |}; pub_key := pk |} /\
    d' = spent cid (Amount.sub (account_amount account) amount) (account_contract account) d.
Proof using.
  simpl. split.
  - intros H. apply bind_Ok in H as (r & d1 & [-> ->]%get_value_Ok & H).
    apply bind_Ok in H as (account & d1 & [Ha ->]%ok_or_Ok & H).
    apply bind_Ok in H as ([] & d1 & [Hb ->]%ensure_Ok & H).
    apply bind_Ok in H as (count & d1 & [-> ->]%gets_Ok & H).
    apply bind_Ok in H as (count & d1 & [Hc ->]%expect_Ok & H).
    apply bind_Ok in H as (pk & d1 & [Hs ->]%spending_key_Ok & H).
    exists account, count, pk. apply negb_true_iff, Z.ltb_ge in Hb. unfold spent.
    destruct (Amount.sub _ _ =? 0); dbrun; done.
  - intros (account & count & pk & Ha & Hle & Hc & Hs & -> & ->).
    rewrite (run_bind _ _ d (Some account) d) by (apply get_value_Ok; split; [by rewrite <- Ha|done]).
    rewrite (run_bind _ _ d account d) by done.
    rewrite (run_bind _ _ d tt d) by (apply ensure_Ok; split; [apply negb_true_iff; lia|done]).
    rewrite (run_bind _ _ d (Some count) d) by (apply gets_Ok; by rewrite Hc).
    rewrite (run_bind _ _ d count d) by done.
    rewrite (run_bind _ _ d pk d) by (by apply spending_key_Ok).
    unfold spent. by destruct (Amount.sub _ _ =? 0).
Qed.

(** ** Funding *)

Definition funded_account (amount : Z) (contract : Contract) (o : OutPoint) (d : LnDb) : ContractAccount :=
  match contracts d !! contract_id contract with
  | None => {| account_amount := amount; account_contract := to_funded contract o |}
  | Some value => {| account_amount := Amount.add (account_amount value) amount; account_contract := account_contract value |}
  end.

Definition funded (amount : Z) (contract : Contract) (o : OutPoint) (d : LnDb) : LnDb :=
  let account := funded_account amount contract o d in
  upd ContractUpdateKey <[o := OutcomeContract (contract_id contract) (to_outcome contract)]>
    (upd ContractKey <[contract_id contract := account]>
      (upd LightningAuditItem <[from_funded_contract (account_contract account) := account_amount account]> d)).

Definition offer_sold (hash offer_hash share : Z) (d : LnDb) : LnDb :=
  upd OfferKey (delete offer_hash) (upd ProposeDecryptionShareKey <[hash := share]> d).

(** What funding an incoming contract demands of the offer. *)
Definition matches_offer (amount : Z) (c : IncomingContract) (offer : IncomingContractOffer) (d : LnDb) : Prop :=
  offers d !! in_hash c = Some offer /\ proposed_shares d !! in_hash c = None /\
  offer_amount offer <= amount /\ verify_ciphertext (encrypted_preimage c) = true /\
  (funded_once d -> encrypted_preimage c = offer_encrypted_preimage offer /\ decrypted_preimage c = Pending).

Lemma check_incoming_Ok amount c d u d' :
  1 <= num_peers cfg -> check_incoming amount c d = (Ok u, d') ->
  d' = d /\ exists offer, matches_offer amount c offer d.
Proof using.
  intros Hn H. unfold check_incoming in H.
  apply bind_Ok in H as (r & d1 & [-> ->]%get_value_Ok & H).
  apply bind_Ok in H as ([] & d1 & [Hp ->]%ensure_Ok & H).
  apply bind_Ok in H as (r & d1 & [-> ->]%get_value_Ok & H).
  apply bind_Ok in H as (offer & d1 & [Ho ->]%ok_or_Ok & H).
  apply bind_Ok in H as ([] & d1 & [Ha ->]%ensure_Ok & H).
  apply bind_Ok in H as (b & d1 & [-> Hb]%once_Ok & H); [|done].
  apply bind_Ok in H as ([] & d1 & [He ->]%ensure_Ok & H).
  apply bind_Ok in H as (b' & d1 & [-> Hb']%once_Ok & H); [|done].
  apply bind_Ok in H as ([] & d1 & [Hd ->]%ensure_Ok & H).
  apply ensure_Ok in H as [Hv ->]. split; [done|]. exists offer. simpl in Hp, Ho.
  apply negb_true_iff, bool_decide_eq_false in Hp. apply negb_true_iff, Z.ltb_ge in Ha.
  split; [done|]. split; [by apply eq_None_not_Some|]. split; [done|]. split; [done|].
  intros Hact. rewrite (proj2 Hb Hact) in He. rewrite (proj2 Hb' Hact) in Hd.
  apply negb_true_iff, negb_false_iff in He, Hd. split; [by apply Z.eqb_eq|by apply bool_decide_eq_true in Hd].
Qed.

Lemma propose_share_Ok c d u d' :
  propose_share c d = (Ok u, d') ->
  exists offer share, offers d !! in_hash c = Some offer /\ proposed_shares d !! in_hash c = None /\
    decrypt_share (threshold_sec_key cfg) (encrypted_preimage c) = Some share /\
    d' = offer_sold (in_hash c) (offer_hash offer) share d.
Proof using. intros H. unfold propose_share in H. dbrun. eexists _, _. done. Qed.

(** What a successful funding implies and what it writes. *)
Lemma fund_contract_Ok amount contract o d a d' :
  1 <= num_peers cfg -> fund_contract amount contract o d = (Ok a, d') ->
  (funded_once d -> contracts d !! contract_id contract = None) /\ amount <> 0 /\
  contract_updates d !! o = None /\
  a = {| amounts := Amounts.new_bitcoin amount; fees := Amounts.new_bitcoin (contract_output_fee cfg) |} /\
  match contract with
  | Outgoing _ => d' = funded amount contract o d
  | Incoming c => exists offer share, matches_offer amount c offer d /\
      decrypt_share (threshold_sec_key cfg) (encrypted_preimage c) = Some share /\
      d' = offer_sold (in_hash c) (offer_hash offer) share (funded amount contract o d)
  end.
Proof using.
  intros Hn H. unfold fund_contract in H.
  apply bind_Ok in H as (once & d1 & [-> Hb]%once_Ok & H); [|done].
  apply bind_Ok in H as (r & d1 & [-> ->]%get_value_Ok & H).
  apply bind_Ok in H as ([] & d1 & [He ->]%ensure_Ok & H).
  apply bind_Ok in H as ([] & d1 & Hc & H).
  assert (d1 = d /\ match contract with Incoming c => exists offer, matches_offer amount c offer d | Outgoing _ => True end) as [-> Hm].
  { destruct contract as [c|c]; [by apply check_incoming_Ok in Hc|by mrun]. }
  apply bind_Ok in H as ([] & d1 & [Hz ->]%ensure_Ok & H).
  apply bind_Ok in H as (r & d1 & [-> ->]%get_value_Ok & H).
  apply bind_Ok in H as (r & d1 & [_ ->]%insert_entry_Ok & H).
  apply bind_Ok in H as (r' & d1 & [_ ->]%insert_entry_Ok & H).
  apply bind_Ok in H as ([] & d1 & [Hu ->]%insert_new_entry_Ok & H).
  apply bind_Ok in H as ([] & d1 & Hp & H). mrun.
  split_and!; [|by apply negb_true_iff, Z.eqb_neq in Hz|exact Hu|done|].
  { intros Hact. rewrite (proj2 Hb Hact) in He. apply negb_true_iff in He. simpl in He.
    by apply bool_decide_eq_false, eq_None_not_Some in He. }
  destruct contract as [c|c].
  - destruct Hm as [offer Hm]. apply propose_share_Ok in Hp as (offer' & share & Ho & Hps & Hs & ->).
    assert (offer' = offer) as -> by (destruct Hm as [Hm _]; simpl in Ho; congruence).
    exists offer, share. split_and!; done.
  - mrun. done.
Qed.

Definition offered (offer : IncomingContractOffer) (o : OutPoint) (d : LnDb) : LnDb :=
  upd OfferKey <[offer_hash offer := offer]>
    (upd ContractUpdateKey <[o := OutcomeOffer (offer_hash offer)]>
      (upd EncryptedPreimageIndexKey <[sha256 (encode_ciphertext (offer_encrypted_preimage offer)) := tt]> d)).

Lemma create_offer_Ok offer o d a d' :
  1 <= num_peers cfg -> create_offer offer o d = (Ok a, d') ->
  (funded_once d -> contracts d !! offer_hash offer = None) /\
  verify_ciphertext (offer_encrypted_preimage offer) = true /\
  preimage_index d !! sha256 (encode_ciphertext (offer_encrypted_preimage offer)) = None /\
  offers d !! offer_hash offer = None /\ contract_updates d !! o = None /\
  a = ZERO_ITEM /\ d' = offered offer o d.
Proof using.
  intros Hn H. unfold create_offer in H.
  apply bind_Ok in H as (once & d1 & [-> Hb]%once_Ok & H); [|done]. dbrun.
  repeat match goal with Hx : negb _ = true |- _ => apply negb_true_iff in Hx end.
  match goal with Hx : bool_decide (is_Some (offers d !! _)) = false |- _ => apply bool_decide_eq_false, eq_None_not_Some in Hx end.
  match goal with Hx : bool_decide (is_Some (preimage_index d !! _)) = false |- _ => apply bool_decide_eq_false, eq_None_not_Some in Hx end.
  split_and!; try done. intros Hact. rewrite (proj2 Hb Hact) in *. simpl in *.
  by match goal with Hx : bool_decide (is_Some (contracts d !! _)) = false |- _ => apply bool_decide_eq_false, eq_None_not_Some in Hx end.
Qed.

Lemma cancel_outgoing_Ok cid sig o d a d' :
  cancel_outgoing cid sig o d = (Ok a, d') ->
  exists account c, contracts d !! cid = Some account /\ account_contract account = FundedOutgoing c /\
    verify_schnorr sig (cancellation_message c) (out_gateway_key c) = true /\ contract_updates d !! o = None /\
    a = ZERO_ITEM /\
    d' = upd ContractUpdateKey <[o := OutcomeCancelOutgoing cid]>
           (upd ContractKey <[cid := {| account_amount := account_amount account; account_contract := FundedOutgoing (cancel c) |}]> d).
Proof using.
  intros H. unfold cancel_outgoing in H.
  apply bind_Ok in H as (r & d1 & [-> ->]%get_value_Ok & H).
  apply bind_Ok in H as (account & d1 & [Ha ->]%ok_or_Ok & H).
  destruct (account_contract account) as [c oc|c] eqn:Hc; [by mrun|].
  apply bind_Ok in H as ([] & d1 & [Hs ->]%ensure_Ok & H).
  apply bind_Ok in H as (r & d1 & [-> ->]%get_value_Ok & H).
  rewrite Ha in H. apply bind_Ok in H as (account' & d1 & [[= <-] ->]%expect_Ok & H).
  rewrite Hc in H. dbrun. exists account, c. done.
Qed.

(** ** Decryption *)

(** The database once the preimage of a contract is decided. *)
Definition decided (cid : Z) (account : ContractAccount) (c : IncomingContract) (o : OutPoint) (id : Z) (p : DecryptedPreimage) (d : LnDb) : LnDb :=
  upd ContractUpdateKey <[o := OutcomeContract id (OutcomeIncoming p)]>
    (upd ContractKey <[cid := {| account_amount := account_amount account; account_contract := FundedIncoming (with_preimage p c) o |}]>
      (upd AgreedDecryptionShareKey (filter (fun kv => ~ kv.1.1 = cid)) (upd ProposeDecryptionShareKey (delete cid) d))).

Lemma update_preimage_Ok cid o p d account c d' :
  contracts d !! cid = Some account -> account_contract account = FundedIncoming c o ->
  update_preimage cid o p d = (Ok tt, d') ->
  exists id q, contract_updates d !! o = Some (OutcomeContract id (OutcomeIncoming q)) /\
    d' = upd ContractUpdateKey <[o := OutcomeContract id (OutcomeIncoming p)]>
      (upd ContractKey <[cid := {| account_amount := account_amount account; account_contract := FundedIncoming (with_preimage p c) o |}]> d).
Proof using.
  intros Ha Hc H. unfold update_preimage in H.
  apply bind_Ok in H as (r & d1 & [-> ->]%get_value_Ok & H). simpl in H. rewrite Ha in H.
  apply bind_Ok in H as (account' & d1 & [[= <-] ->]%expect_Ok & H). rewrite Hc in H.
  apply bind_Ok in H as (r & d1 & [_ ->]%insert_entry_Ok & H).
  apply bind_Ok in H as (r' & d1 & [-> ->]%get_value_Ok & H).
  apply bind_Ok in H as (out & d1 & [Ho ->]%expect_Ok & H).
  destruct out as [id [q|]| |]; [|by mrun..]. exists id, q. split; [done|]. dbrun. done.
Qed.

Lemma share_Ok cid share peer d d' :
  process_decryption_share cid share peer d = (Ok tt, d') ->
  exists account c o, contracts d !! cid = Some account /\ account_contract account = FundedIncoming c o /\
    decrypted_preimage c = Pending /\ verify_decryption_share peer share (encrypted_preimage c) = true /\
    agreed_shares d !! (cid, peer) = None /\
    let d1 := upd AgreedDecryptionShareKey <[(cid, peer) := share]> d in
    let shares := btree_iter (shares_of cid (agreed_shares d1)) in
    (d' = d1 /\ (key_threshold cfg <= Z.of_nat (length shares) -> decrypt shares (encrypted_preimage c) = None) \/
     exists v id q, key_threshold cfg <= Z.of_nat (length shares) /\ decrypt shares (encrypted_preimage c) = Some v /\
       contract_updates d !! o = Some (OutcomeContract id (OutcomeIncoming q)) /\
       d' = decided cid account c o id (decode_preimage (in_hash c) v) d1).
Proof using.
  intros H. unfold process_decryption_share in H.
  apply bind_Ok in H as (r & d1 & [-> ->]%get_value_Ok & H).
  apply bind_Ok in H as ([] & d1 & [_ ->]%ensure_Ok & H).
  apply bind_Ok in H as (r & d1 & [-> ->]%get_value_Ok & H).
  apply bind_Ok in H as (account & d1 & [Ha ->]%ok_or_Ok & H). simpl in Ha.
  destruct (account_contract account) as [c o|c] eqn:Hc; [|by mrun].
  apply bind_Ok in H as ([] & d1 & [Hp%bool_decide_eq_true ->]%ensure_Ok & H).
  apply bind_Ok in H as ([] & d1 & [Hv ->]%ensure_Ok & H).
  apply bind_Ok in H as ([] & d1 & [Hf ->]%insert_new_entry_Ok & H).
  apply bind_Ok in H as (shares & d1 & [-> ->]%gets_Ok & H).
  exists account, c, o. do 5 (split; [done|]). cbv zeta.
  destruct (Z.of_nat (length _) <? key_threshold cfg) eqn:Hl; [mrun; left; split; [done|]; intros Hk; apply Z.ltb_lt in Hl; exfalso; apply (Z.lt_irrefl (key_threshold cfg)); eapply Z.le_lt_trans; [exact Hk|exact Hl]|].
  destruct (decrypt _ _) as [v|] eqn:Hd; [right|mrun; by left]. apply Z.ltb_ge in Hl.
  apply bind_Ok in H as (r' & d1 & [_ ->]%remove_entry_Ok & H).
  apply bind_Ok in H as (r'' & d1 & ->%remove_by_prefix_Ok & H).
  apply (update_preimage_Ok cid o _ _ account c) in H as (id & q & Ho & ->); [|done..].
  exists v, id, q. split_and!; done.
Qed.

(** ** The accounts and the audit *)

Definition outcomes_kept (m m' : gmap OutPoint LightningOutputOutcome) : Prop :=
  forall o id q, m !! o = Some (OutcomeContract id (OutcomeIncoming q)) ->
    exists q', m' !! o = Some (OutcomeContract id (OutcomeIncoming q')).

(** Accounts are stored under the id of their contract, the audit knows what
    each of them holds and nothing else, and the output that funded an incoming
    contract has its outcome. *)
Record ln1_inv (d : LnDb) : Prop := {
  account_id cid a : contracts d !! cid = Some a -> funded_contract_id (account_contract a) = cid;
  account_u64 cid a : contracts d !! cid = Some a -> is_u64 (account_amount a);
  account_audit cid a : contracts d !! cid = Some a ->
    default 0 (audit_items d !! from_funded_contract (account_contract a)) = account_amount a;
  audit_account k v : audit_items d !! k = Some v ->
    exists cid a, contracts d !! cid = Some a /\ k = from_funded_contract (account_contract a);
  incoming_outcome cid a c o : contracts d !! cid = Some a -> account_contract a = FundedIncoming c o ->
    exists q, contract_updates d !! o = Some (OutcomeContract cid (OutcomeIncoming q));
}.

Lemma ln1_inv_empty : ln1_inv LnDb_empty.
Proof using. split; simpl; intros *; rewrite lookup_empty; done. Qed.

Lemma from_funded_contract_id c c' :
  from_funded_contract c = from_funded_contract c' -> funded_contract_id c = funded_contract_id c'.
Proof using. destruct c, c'; simpl; congruence. Qed.

(** Every operation writes at most one account, its audit item and outcomes. *)
Lemma ln1_inv_set d d' cid a' :
  ln1_inv d -> funded_contract_id (account_contract a') = cid -> is_u64 (account_amount a') ->
  (forall a, contracts d !! cid = Some a -> from_funded_contract (account_contract a) = from_funded_contract (account_contract a')) ->
  contracts d' = <[cid := a']> (contracts d) ->
  (forall k, k <> from_funded_contract (account_contract a') -> audit_items d' !! k = audit_items d !! k) ->
  default 0 (audit_items d' !! from_funded_contract (account_contract a')) = account_amount a' ->
  (forall c o, account_contract a' = FundedIncoming c o -> exists q, contract_updates d' !! o = Some (OutcomeContract cid (OutcomeIncoming q))) ->
  outcomes_kept (contract_updates d) (contract_updates d') ->
  ln1_inv d'.
Proof using.
  intros Hd Hid Hu Hold Hc Hk Haud Hout Hkept. split; rewrite ?Hc.
  - intros cid1 a [[-> ->]|[Hne H]]%lookup_insert_Some; [done|]. by apply (account_id d Hd).
  - intros cid1 a [[-> ->]|[Hne H]]%lookup_insert_Some; [done|]. by apply (account_u64 d Hd) in H.
  - intros cid1 a [[-> ->]|[Hne H]]%lookup_insert_Some; [done|].
    rewrite Hk; [by apply (account_audit d Hd) in H|]. intros Heq%from_funded_contract_id.
    apply (account_id d Hd) in H. congruence.
  - intros k v Hv. destruct (decide (k = from_funded_contract (account_contract a'))) as [->|Hne].
    { exists cid, a'. by rewrite lookup_insert_eq. }
    rewrite Hk in Hv by done. apply (audit_account d Hd) in Hv as (cid1 & a & Ha & ->).
    exists cid1, a. split; [|done]. rewrite lookup_insert_ne; [done|]. intros ->. by apply Hne, Hold.
  - intros cid1 a c o [[-> ->]|[Hne H]]%lookup_insert_Some Hac; [by apply (Hout c)|].
    destruct (incoming_outcome d Hd cid1 a c o H Hac) as [q Hq]. by apply Hkept in Hq.
Qed.

Lemma ln1_inv_same d d' :
  ln1_inv d -> contracts d' = contracts d -> audit_items d' = audit_items d ->
  outcomes_kept (contract_updates d) (contract_updates d') -> ln1_inv d'.
Proof using.
  intros Hd Hc Ha Hk. split; rewrite ?Hc, ?Ha; try apply Hd.
  intros cid a c o H Hac. destruct (incoming_outcome d Hd cid a c o H Hac) as [q Hq]. by apply Hk in Hq.
Qed.

Lemma outcomes_kept_fresh m o v : m !! o = None -> outcomes_kept m (<[o := v]> m).
Proof using. intros Ho o1 id q H. exists q. rewrite lookup_insert_ne; [done|]. intros ->. congruence. Qed.

Lemma outcomes_kept_refl m : outcomes_kept m m.
Proof using. intros o id q H. by exists q. Qed.

Definition ln1_owed (d : LnDb) : Z := sum_map (fun _ => id) (audit_items d).

(** What is owed are the balances of the contracts. *)
Lemma ln1_owed_accounts d : ln1_inv d -> ln1_owed d = sum_map (fun _ => account_amount) (contracts d).
Proof using.
  intros Hd. apply (sum_map_reindex (fun a => from_funded_contract (account_contract a)) account_amount).
  - intros k1 a1 k2 a2 H1 H2 Heq. rewrite <- (account_id d Hd k1 a1 H1), <- (account_id d Hd k2 a2 H2).
    unfold from_funded_contract in Heq. destruct (account_contract a1), (account_contract a2); congruence.
  - apply (account_audit d Hd).
  - apply (audit_account d Hd).
Qed.

Lemma audit_item_u64 d k v : ln1_inv d -> audit_items d !! k = Some v -> is_u64 v.
Proof using.
  intros Hd Hv. destruct (audit_account d Hd k v Hv) as (cid & a & Ha & ->).
  pose proof (account_audit d Hd cid a Ha) as H. rewrite Hv in H. simpl in H. rewrite H.
  by apply (account_u64 d Hd) in Ha.
Qed.

Lemma ln1_spend_inv cid amount w p d meta d' :
  ln1_inv d -> 0 <= amount -> ln1_process_input (LightningInputV0 cid amount w) p d = (Ok meta, d') ->
  ln1_inv d' /\ is_u64 amount /\ ln1_owed d' = ln1_owed d - amount.
Proof using.
  intros Hd Hpos H. apply ln1_input_Ok in H as (a & count & pk & Ha & Hle & _ & _ & _ & ->).
  pose proof (account_u64 d Hd cid a Ha) as Hu. pose proof (account_audit d Hd cid a Ha) as Haud.
  assert (Amount.sub (account_amount a) amount = account_amount a - amount) as Hsub.
  { unfold Amount.sub. apply wrap_u64_small. unfold is_u64 in *. lia. }
  rewrite Hsub. split; [|split; [unfold is_u64 in *; lia|]].
  - eapply (ln1_inv_set d _ cid {| account_amount := account_amount a - amount; account_contract := account_contract a |});
      [done|exact (account_id d Hd cid a Ha)|unfold is_u64 in *; simpl; lia|intros a1 Ha1; simpl; congruence|done| | | |].
    + intros k Hk. unfold spent. simpl. destruct (_ =? 0); [by rewrite lookup_delete_ne|by rewrite lookup_insert_ne].
    + unfold spent. simpl. destruct (_ =? 0) eqn:Hz; [rewrite lookup_delete_eq; simpl; lia|by rewrite lookup_insert_eq].
    + simpl. intros c o Hac. by apply (incoming_outcome d Hd cid a c o Ha).
    + apply outcomes_kept_refl.
  - unfold ln1_owed, spent. simpl. destruct (_ =? 0) eqn:Hz.
    + rewrite sum_map_unset, Haud. lia.
    + rewrite sum_map_set, Haud. unfold id. lia.
Qed.

Lemma funded_inv amount contract o d :
  ln1_inv d -> is_u64 amount -> contract_updates d !! o = None ->
  ln1_inv (funded amount contract o d) /\
  ln1_owed (funded amount contract o d) <= ln1_owed d + amount.
Proof using.
  intros Hd Hu Ho. set (a' := funded_account amount contract o d).
  assert (Hold : forall a, contracts d !! contract_id contract = Some a -> account_contract a' = account_contract a /\ account_amount a' = wrap_u64 (account_amount a + amount)).
  { intros a Ha. unfold a', funded_account. by rewrite Ha. }
  assert (Hnew : contracts d !! contract_id contract = None -> account_contract a' = to_funded contract o /\ account_amount a' = amount).
  { intros Ha. unfold a', funded_account. by rewrite Ha. }
  assert (Hid : funded_contract_id (account_contract a') = contract_id contract).
  { destruct (contracts d !! contract_id contract) as [a|] eqn:Ha.
    - destruct (Hold a eq_refl) as [-> _]. by apply (account_id d Hd).
    - destruct (Hnew eq_refl) as [-> _]. by destruct contract. }
  split.
  - eapply (ln1_inv_set d _ (contract_id contract) a'); [done|done| | |done| | | |].
    + destruct (contracts d !! contract_id contract) as [a|] eqn:Ha;
        [destruct (Hold a eq_refl) as [_ ->]; apply wrap_u64_range|by destruct (Hnew eq_refl) as [_ ->]].
    + intros a Ha. by destruct (Hold a Ha) as [-> _].
    + intros k Hk. simpl. by rewrite lookup_insert_ne.
    + simpl. fold a'. by rewrite lookup_insert_eq.
    + intros c oc Hc. simpl. destruct (contracts d !! contract_id contract) as [a|] eqn:Ha.
      * destruct (Hold a eq_refl) as [Heq _]. rewrite Heq in Hc.
        destruct (incoming_outcome d Hd _ a c oc Ha Hc) as [q Hq]. exists q. rewrite lookup_insert_ne; congruence.
      * destruct (Hnew eq_refl) as [Heq _]. rewrite Heq in Hc. destruct contract as [ic|]; simplify_eq/=.
        exists Pending. by rewrite lookup_insert_eq.
    + by apply outcomes_kept_fresh.
  - unfold ln1_owed. simpl. fold a'. rewrite sum_map_set.
    destruct (contracts d !! contract_id contract) as [a|] eqn:Ha.
    + destruct (Hold a eq_refl) as [-> ->]. rewrite (account_audit d Hd _ a Ha).
      pose proof (account_u64 d Hd _ a Ha) as Hau. unfold is_u64 in *.
      assert (wrap_u64 (account_amount a + amount) <= account_amount a + amount); [|unfold id; lia].
      unfold wrap_u64. apply Z.mod_le; lia.
    + destruct (Hnew eq_refl) as [Heq ->].
      assert (0 <= default 0 (audit_items d !! from_funded_contract (account_contract a'))) as H0; [|unfold id in *; lia].
      destruct (audit_items d !! _) as [v|] eqn:Hv; simpl; [|lia]. apply (audit_item_u64 d) in Hv; [|done]. unfold is_u64 in Hv. lia.
Qed.

Definition ln1_output_ok (output : LightningOutput) : Prop :=
  match output with OutputContract amount _ => is_u64 amount | _ => True end.
Definition ln1_input_ok (input : LightningInput) : Prop :=
  match input with LightningInputV0 _ amount _ => 0 <= amount | _ => True end.

Lemma zero_item_wf : item_wf ZERO_ITEM.
Proof using. split; intros k v; simpl; unfold Amounts.ZERO; rewrite lookup_empty; done. Qed.

Lemma ln1_output_inv output o d a d' :
  1 <= num_peers cfg -> is_u64 (contract_output_fee cfg) -> ln1_inv d -> ln1_output_ok output ->
  ln1_process_output output o d = (Ok a, d') ->
  ln1_inv d' /\ item_wf a /\ ln1_owed d' <= ln1_owed d + Amounts.get (amounts a) BITCOIN.
Proof using.
  intros Hn Hfee Hd Hok H. destruct output as [amount contract|offer|cid sig|]; simpl in H.
  - apply fund_contract_Ok in H as (_ & Hz & Ho & -> & H); [|done]. simpl in Hok.
    destruct (funded_inv amount contract o d Hd Hok Ho) as [Hi Hs].
    split; [|split; [by apply bitcoin_item_wf|]].
    + destruct contract as [c|c]; [|by subst]. destruct H as (offer & share & _ & _ & ->).
      by apply (ln1_inv_same (funded amount (Incoming c) o d)); [..|apply outcomes_kept_refl].
    + simpl. rewrite Amounts.get_new_bitcoin, decide_True by done.
      destruct contract as [c|c]; [|by subst]. by destruct H as (offer & share & _ & _ & ->).
  - apply create_offer_Ok in H as (_ & _ & _ & _ & Ho & -> & ->); [|done].
    split; [by apply (ln1_inv_same d); [..|apply outcomes_kept_fresh]|]. split; [apply zero_item_wf|].
    unfold ln1_owed. simpl. unfold Amounts.get, Amounts.ZERO. rewrite lookup_empty. simpl. lia.
  - apply cancel_outgoing_Ok in H as (account & c & Ha & Hc & _ & Ho & -> & ->).
    split; [|split; [apply zero_item_wf|]].
    + assert (from_funded_contract (account_contract account) = from_funded_contract (FundedOutgoing (cancel c))) as Hk by by rewrite Hc.
      apply (ln1_inv_set d _ cid {| account_amount := account_amount account; account_contract := FundedOutgoing (cancel c) |});
        [done| |exact (account_u64 d Hd cid account Ha)| |done|done| |done|by apply outcomes_kept_fresh].
      * apply (account_id d Hd) in Ha. by rewrite Hc in Ha.
      * intros a1 Ha1. simplify_eq. by rewrite Hc.
      * simpl. apply (account_audit d Hd) in Ha. by rewrite Hk in Ha.
    + unfold ln1_owed. simpl. unfold Amounts.get, Amounts.ZERO. rewrite lookup_empty. simpl. lia.
  - by mrun.
Qed.

Lemma ln1_item_inv item peer d d' :
  ln1_inv d -> ln1_process_consensus_item item peer d = (Ok tt, d') ->
  ln1_inv d' /\ audit_items d' = audit_items d.
Proof using.
  intros Hd H. destruct item as [cid share|count|v|]; simpl in H.
  - apply share_Ok in H as (account & c & o & Ha & Hc & Hp & _ & _ & [[-> _]|(v & id & q & _ & _ & Hq & ->)]).
    { split; [|done]. by apply (ln1_inv_same d); [..|apply outcomes_kept_refl]. }
    split; [|done]. destruct (incoming_outcome d Hd cid account c o Ha Hc) as [q' Hq']. simplify_eq.
    apply (ln1_inv_set d _ id {| account_amount := account_amount account; account_contract := FundedIncoming (with_preimage (decode_preimage (in_hash c) v) c) o |});
      [done| |exact (account_u64 d Hd id account Ha)| |done|done| | |].
    + apply (account_id d Hd) in Ha. by rewrite Hc in Ha.
    + intros a1 Ha1. simplify_eq. by rewrite Hc.
    + simpl. apply (account_audit d Hd) in Ha. by rewrite Hc in Ha.
    + intros c1 o1 [= <- <-]. simpl. eexists. apply lookup_insert_eq.
    + intros o1 id1 q1 H1. simpl. destruct (decide (o = o1)) as [<-|Hne].
      * rewrite lookup_insert_eq. simplify_eq. eauto.
      * rewrite lookup_insert_ne by done. eauto.
  - dbrun. split; [|done]. by apply (ln1_inv_same d); [..|apply outcomes_kept_refl].
  - dbrun. split; [|done]. by apply (ln1_inv_same d); [..|apply outcomes_kept_refl].
  - by mrun.
Qed.

Lemma ln1_audit_run d :
  ln1_inv d -> ln1_owed d <= i64_max ->
  exists items, ln1_audit d = (Ok items, d) /\ sum_list items = - ln1_owed d /\ sum_abs items = ln1_owed d.
Proof using.
  intros Hd Hg. exists ((fun kv => liability (id kv.2)) <$> map_to_list (audit_items d)). split; [done|].
  destruct (liabilities_sum id (audit_items d)) as [-> ->]; [|done|done].
  intros k v Hv. apply (audit_item_u64 d k v Hd) in Hv as [? _]. done.
Qed.

#[export] Program Instance ln1_audited (Hn : 1 <= num_peers cfg) (Hin : is_u64 (contract_input_fee cfg)) (Hout : is_u64 (contract_output_fee cfg)) : Audited ln1_module := {|
  inv := ln1_inv;
  input_ok := ln1_input_ok;
  output_ok := ln1_output_ok;
  item_ok := fun _ => True;
  net := fun d => - ln1_owed d;
  gross := ln1_owed;
|}.
Next Obligation.
  intros _ _ _ d Hd. apply sum_map_nonneg. intros k v Hv. by apply (audit_item_u64 d k v Hd) in Hv as [? _].
Qed.
Next Obligation.
  intros Hn Hin _ i p d meta d' Hd Hok H. destruct i as [cid amount w|]; simpl in *; [|by mrun].
  pose proof (ln1_spend_inv cid amount w p d meta d' Hd Hok H) as (Hi & Hu & Hs).
  apply (ln1_input_Ok cid amount w p) in H as (_ & _ & pk & _ & _ & _ & _ & -> & _).
  split; [done|]. split; [by apply bitcoin_item_wf|]. simpl.
  rewrite Amounts.get_new_bitcoin, decide_True by done. lia.
Qed.
Next Obligation.
  intros Hn _ Hout o p d a d' Hd Hok H. simpl in H.
  destruct (ln1_output_inv o p d a d' Hn Hout Hd Hok H) as (Hi & Hw & Hs). split_and!; [done|done|lia].
Qed.
Next Obligation.
  intros _ _ _ c peer d d' Hd _ H. simpl in H. apply ln1_item_inv in H as [Hi Ha]; [|done].
  split; [done|]. unfold ln1_owed. by rewrite Ha.
Qed.
Next Obligation.
  intros _ _ _ d Hd Hg. destruct (ln1_audit_run d Hd Hg) as (items & Hrun & Hs & Ha).
  exists items, d. split_and!; try done. by rewrite Ha.
Qed.

(** ** Histories of committed operations *)
Inductive ln1_event :=
| PaidOut (input : LightningInput) (p : InPoint)
| PaidIn (output : LightningOutput) (o : OutPoint)
| Ordered (item : LightningConsensusItem) (peer : Z).

Definition ln1_apply (ev : ln1_event) (d d' : LnDb) : Prop :=
  match ev with
  | PaidOut input p => exists meta, ln1_process_input input p d = (Ok meta, d')
  | PaidIn output o => exists a, ln1_process_output output o d = (Ok a, d')
  | Ordered item peer => ln1_process_consensus_item item peer d = (Ok tt, d')
  end.

Inductive ln1_history (d : LnDb) : list ln1_event -> LnDb -> Prop :=
| ln1_history_nil : ln1_history d [] d
| ln1_history_snoc evs ev d1 d2 :
    ln1_history d evs d1 -> ln1_apply ev d1 d2 -> ln1_history d (evs ++ [ev]) d2.

Definition ln1_event_ok (ev : ln1_event) : Prop :=
  match ev with PaidOut input _ => ln1_input_ok input | PaidIn output _ => ln1_output_ok output | Ordered _ _ => True end.

(** What an event pays into and out of the account [cid]. *)
Definition funds (cid : Z) (ev : ln1_event) : Z :=
  match ev with
  | PaidIn (OutputContract amount contract) _ => if decide (contract_id contract = cid) then amount else 0
  | _ => 0
  end.
Definition fundings (cid : Z) (ev : ln1_event) : Z :=
  match ev with
  | PaidIn (OutputContract _ contract) _ => if decide (contract_id contract = cid) then 1 else 0
  | _ => 0
  end.
Definition spends (cid : Z) (ev : ln1_event) : Z :=
  match ev with
  | PaidOut (LightningInputV0 cid' amount _) _ => if decide (cid' = cid) then amount else 0
  | _ => 0
  end.

(** How a contract may change: the preimage of an incoming contract is decided
    once, an outgoing contract is cancelled, and nothing else. *)
Definition valid_preimage (c : IncomingContract) (key : list Z) : Prop :=
  length key = 33%nat /\ in_hash c = sha256 (to_byte_array (sha256 key)) /\ is_Some (public_key_from_slice key).

Definition evolves (c c' : FundedContract) : Prop :=
  match c, c' with
  | FundedIncoming a o, FundedIncoming b o' =>
      o' = o /\ b = with_preimage (decrypted_preimage b) a /\
      (decrypted_preimage b = decrypted_preimage a \/
       decrypted_preimage a = Pending /\
       match decrypted_preimage b with
       | Pending => False | Invalid => True | DecryptedSome key => valid_preimage a key
       end)
  | FundedOutgoing a, FundedOutgoing b => b = a \/ b = cancel a
  | _, _ => False
  end.

#[local] Instance evolves_preorder : PreOrder evolves.
Proof using.
  split.
  - intros [c o|c]; simpl; [|by left]. split; [done|]. split; [by destruct c|by left].
  - intros [c1 o1|c1] [c2 o2|c2] [c3 o3|c3]; simpl; try tauto.
    + intros (-> & H2 & Hp2) (-> & H3 & Hp3). split; [done|]. rewrite H2 in H3. split; [by destruct c1|].
      destruct Hp2 as [Hp2|[Hp2 Hv2]], Hp3 as [Hp3|[Hp3 Hv3]].
      * left. congruence.
      * right. split; [congruence|]. rewrite H2 in Hv3. by destruct (decrypted_preimage c3).
      * right. rewrite Hp3. done.
      * rewrite Hp3 in Hv2. done.
    + intros [->| ->] [->| ->]; auto.
Qed.

(** What an event does to the account [cid]. *)
Definition account_step (ev : ln1_event) (d d' : LnDb) (cid : Z) : Prop :=
  match contracts d !! cid, contracts d' !! cid with
  | None, None => funds cid ev = 0 /\ fundings cid ev = 0 /\ spends cid ev = 0
  | None, Some a' => exists amount contract o, ev = PaidIn (OutputContract amount contract) o /\
      contract_id contract = cid /\ a' = {| account_amount := amount; account_contract := to_funded contract o |}
  | Some a, Some a' => evolves (account_contract a) (account_contract a') /\
      account_amount a' = wrap_u64 (account_amount a + funds cid ev) - spends cid ev /\
      spends cid ev <= account_amount a /\ (funded_once d -> fundings cid ev = 0)
  | Some _, None => False
  end.

Lemma account_step_same ev d d' cid :
  ln1_inv d -> contracts d' !! cid = contracts d !! cid ->
  funds cid ev = 0 -> fundings cid ev = 0 -> spends cid ev = 0 -> account_step ev d d' cid.
Proof using.
  intros Hd Heq Hf Hfs Hs. unfold account_step. rewrite Heq, Hf, Hfs, Hs.
  destruct (contracts d !! cid) as [a|] eqn:Ha; [|done]. pose proof (account_u64 d Hd cid a Ha) as Hu.
  split; [done|]. rewrite wrap_u64_small by (unfold is_u64 in *; lia). unfold is_u64 in *. split_and!; [lia|lia|done].
Qed.

(** An account whose contract evolves and whose amount stays. *)
Lemma account_step_evolve ev d d' cid cid1 a c' :
  ln1_inv d -> contracts d !! cid1 = Some a -> evolves (account_contract a) c' ->
  contracts d' = <[cid1 := {| account_amount := account_amount a; account_contract := c' |}]> (contracts d) ->
  funds cid ev = 0 -> fundings cid ev = 0 -> spends cid ev = 0 -> account_step ev d d' cid.
Proof using.
  intros Hd Ha Hev Hc Hf Hfs Hs. destruct (decide (cid1 = cid)) as [->|Hne].
  - unfold account_step. rewrite Hc, lookup_insert_eq, Ha, Hf, Hfs, Hs. simpl.
    pose proof (account_u64 d Hd cid a Ha) as Hu.
    rewrite wrap_u64_small by (unfold is_u64 in *; lia). unfold is_u64 in *. split_and!; [done|lia|lia|done].
  - apply account_step_same; [done|by rewrite Hc, lookup_insert_ne|done..].
Qed.

Lemma decode_preimage_valid c v :
  match decode_preimage (in_hash c) v with
  | Pending => False | Invalid => True | DecryptedSome key => valid_preimage c key
  end.
Proof using.
  unfold decode_preimage. destruct (_ && _) eqn:Hb; [|done].
  apply andb_true_iff in Hb as [H1%Nat.eqb_eq H2%Z.eqb_eq].
  destruct (public_key_from_slice v) eqn:Hpk; [|done]. unfold valid_preimage. rewrite Hpk. eauto.
Qed.

Lemma decode_preimage_decided h v : decode_preimage h v <> Pending.
Proof using. unfold decode_preimage. repeat case_match; done. Qed.

Lemma ln1_spend_account input p d meta d' cid :
  ln1_inv d -> ln1_input_ok input -> ln1_process_input input p d = (Ok meta, d') -> account_step (PaidOut input p) d d' cid.
Proof using.
  intros Hd Hok H. destruct input as [cid1 amount w|]; [|by mrun].
  apply ln1_input_Ok in H as (a & count & pk & Ha & Hle & _ & _ & _ & ->). simpl in Hok.
  pose proof (account_u64 d Hd cid1 a Ha) as Hu.
  destruct (decide (cid1 = cid)) as [->|Hne].
  - unfold account_step, spent, funds, spends. simpl. rewrite lookup_insert_eq, Ha, decide_True by done. simpl.
    split; [done|]. unfold Amount.sub. rewrite !wrap_u64_small by (unfold is_u64 in *; lia). split_and!; [lia|done|done].
  - apply account_step_same; [done|unfold spent; simpl; by rewrite lookup_insert_ne|done|done|].
    simpl. by rewrite decide_False.
Qed.

Lemma ln1_fund_account amount contract o d a d' cid :
  1 <= num_peers cfg -> ln1_inv d -> fund_contract amount contract o d = (Ok a, d') ->
  account_step (PaidIn (OutputContract amount contract) o) d d' cid.
Proof using.
  intros Hn Hd H. apply fund_contract_Ok in H as (Honce & _ & _ & _ & H); [|done].
  assert (contracts d' = <[contract_id contract := funded_account amount contract o d]> (contracts d)) as Hc.
  { destruct contract as [c|c]; [|by subst]. by destruct H as (offer & share & _ & _ & ->). }
  destruct (decide (contract_id contract = cid)) as [<-|Hne].
  - unfold account_step, funds, fundings, spends. rewrite Hc, lookup_insert_eq, decide_True by done.
    rewrite decide_True by done. unfold funded_account. destruct (contracts d !! contract_id contract) as [a0|] eqn:Ha; [|by eexists _, _, _].
    pose proof (account_u64 d Hd _ a0 Ha) as [Hu _]. simpl. unfold Amount.add.
    split_and!; [done|lia|done|]. intros Hact. by apply Honce in Hact.
  - apply account_step_same; [done|by rewrite Hc, lookup_insert_ne|simpl; by rewrite decide_False..|done].
Qed.

(** The effect of every operation on an account. *)
Lemma ln1_apply_account ev d d' cid :
  1 <= num_peers cfg -> ln1_inv d -> ln1_event_ok ev -> ln1_apply ev d d' -> account_step ev d d' cid.
Proof using.
  intros Hn Hd Hok H. destruct ev as [input p|[amount contract|offer|cid1 sig|] o|[cid1 share|count|v|] peer]; simpl in H.
  - destruct H as [meta H]. by apply (ln1_spend_account input p d meta).
  - destruct H as [a H]. by apply (ln1_fund_account amount contract o d a).
  - destruct H as [a H]. apply create_offer_Ok in H as (_ & _ & _ & _ & _ & _ & ->); [|done]. by apply account_step_same.
  - destruct H as [a H]. apply cancel_outgoing_Ok in H as (account & c & Ha & Hc & _ & _ & _ & ->).
    eapply account_step_evolve; [done|exact Ha| |done..]. rewrite Hc. by right.
  - destruct H as [a H]. by mrun.
  - apply share_Ok in H as (account & c & o & Ha & Hc & Hp & _ & _ & [[-> _]|(v & id & q & _ & _ & _ & ->)]); [by apply account_step_same|].
    eapply account_step_evolve; [done|exact Ha| |done..]. rewrite Hc. split; [done|]. split; [done|]. right.
    split; [done|]. apply decode_preimage_valid.
  - dbrun. by apply account_step_same.
  - dbrun. by apply account_step_same.
  - by mrun.
Qed.

Lemma ln1_apply_inv ev d d' :
  1 <= num_peers cfg -> is_u64 (contract_output_fee cfg) -> ln1_inv d -> ln1_event_ok ev -> ln1_apply ev d d' -> ln1_inv d'.
Proof using.
  intros Hn Hfee Hd Hok H. destruct ev as [[cid amount w|] p|output o|item peer]; simpl in H.
  - destruct H as [meta H]. by apply (ln1_spend_inv cid amount w p d meta d' Hd Hok) in H as (? & _ & _).
  - destruct H as [meta H]. by mrun.
  - destruct H as [a H]. by apply (ln1_output_inv output o d a d' Hn Hfee Hd Hok) in H as (? & _ & _).
  - by apply ln1_item_inv in H as [? _].
Qed.

Lemma ln1_history_inv d evs d' :
  1 <= num_peers cfg -> is_u64 (contract_output_fee cfg) -> ln1_inv d -> Forall ln1_event_ok evs ->
  ln1_history d evs d' -> ln1_inv d'.
Proof using.
  intros Hn Hfee Hd Hok H. induction H as [|evs ev d1 d2 H IH Ha]; [done|].
  rewrite Forall_app, Forall_singleton in Hok. destruct Hok as [Hok1 Hok2].
  apply (ln1_apply_inv ev d1); [done|done|by apply IH|done|done].
Qed.

(** Votes for a version are never taken back. *)
Lemma ln1_apply_supporters ev d d' v :
  1 <= num_peers cfg -> ln1_apply ev d d' -> supporters v (version_votes d) ⊆ supporters v (version_votes d').
Proof using.
  intros Hn H. destruct ev as [[cid amount w|] p|[amount contract|offer|cid sig|] o|[cid share|count|v1|] peer]; simpl in H.
  - destruct H as [meta H]. by apply (ln1_input_Ok cid amount w p) in H as (? & ? & ? & _ & _ & _ & _ & _ & ->).
  - destruct H as [meta H]. by mrun.
  - destruct H as [a H]. apply fund_contract_Ok in H as (_ & _ & _ & _ & H); [|done].
    destruct contract; [by destruct H as (? & ? & _ & _ & ->)|by subst].
  - destruct H as [a H]. by apply create_offer_Ok in H as (_ & _ & _ & _ & _ & _ & ->).
  - destruct H as [a H]. by apply cancel_outgoing_Ok in H as (? & ? & _ & _ & _ & _ & _ & ->).
  - destruct H as [a H]. by mrun.
  - by apply share_Ok in H as (? & ? & ? & _ & _ & _ & _ & _ & [[-> _]|(? & ? & ? & _ & _ & _ & ->)]).
  - dbrun. done.
  - dbrun. apply supporters_insert.
    match goal with Hb : negb (bool_decide _) = true |- _ => apply negb_true_iff, bool_decide_eq_false in Hb end.
    by destruct (total version_le v1 (default VERSION_2_0 (version_votes d !! peer))).
  - by mrun.
Qed.

Lemma ln1_apply_funded_once ev d d' :
  1 <= num_peers cfg -> ln1_apply ev d d' -> funded_once d -> funded_once d'.
Proof using.
  intros Hn H Hact. unfold funded_once in *. etrans; [exact Hact|]. apply inj_le, subseteq_size.
  by apply (ln1_apply_supporters ev).
Qed.

(** ** Escrow *)

Definition balance (d : LnDb) (cid : Z) : Z := from_option account_amount 0 (contracts d !! cid).
Definition has_account (d : LnDb) (cid : Z) : Z := match contracts d !! cid with Some _ => 1 | None => 0 end.
Definition total_of (f : Z -> ln1_event -> Z) (cid : Z) (evs : list ln1_event) : Z := sum_list (f cid <$> evs).

Lemma total_of_snoc f cid evs ev : total_of f cid (evs ++ [ev]) = total_of f cid evs + f cid ev.
Proof using. unfold total_of. rewrite fmap_app, sum_list_app. simpl. lia. Qed.

Lemma funds_nonneg cid ev : ln1_event_ok ev -> 0 <= funds cid ev.
Proof using.
  destruct ev as [|[amount contract| | |]|]; simpl; try lia. intros [? _]. by case_decide.
Qed.

Lemma account_step_balance ev d d' cid :
  ln1_inv d -> ln1_event_ok ev -> account_step ev d d' cid -> balance d cid + funds cid ev <= u64_max ->
  balance d' cid + spends cid ev = balance d cid + funds cid ev.
Proof using.
  intros Hd Hok Hs Hb. unfold account_step, balance in *. pose proof (funds_nonneg cid ev Hok) as Hf.
  destruct (contracts d !! cid) as [a|] eqn:Ha, (contracts d' !! cid) as [a'|] eqn:Ha'; simpl in *; [| done | | lia].
  - destruct Hs as (_ & -> & _ & _). pose proof (account_u64 d Hd cid a Ha) as Hu.
    rewrite wrap_u64_small by (unfold is_u64 in *; lia). lia.
  - destruct Hs as (amount & contract & o & -> & Hc & ->). simpl in *. rewrite decide_True in * by done. lia.
Qed.

(** C12: over any history from the empty database, an account holds what was
    paid into its contract less what was paid out of it, as long as the amounts
    paid in fit in an amount; so no contract ever pays out more than it was
    funded with. *)
Theorem ln1_escrow evs d cid :
  1 <= num_peers cfg -> is_u64 (contract_output_fee cfg) -> Forall ln1_event_ok evs ->
  ln1_history LnDb_empty evs d -> total_of funds cid evs <= u64_max ->
  balance d cid + total_of spends cid evs = total_of funds cid evs /\ 0 <= balance d cid.
Proof using.
  intros Hn Hfee Hok H Hb.
  assert (balance d cid + total_of spends cid evs = total_of funds cid evs) as Heq.
  { induction H as [|evs ev d1 d2 H IH Ha]; [done|].
    rewrite Forall_app, Forall_singleton in Hok. destruct Hok as [Hok1 Hok2].
    pose proof (funds_nonneg cid ev Hok2) as Hf. rewrite !total_of_snoc in *.
    pose proof (ln1_history_inv _ evs d1 Hn Hfee ln1_inv_empty Hok1 H) as Hd1.
    assert (0 <= total_of spends cid evs) as Hsp.
    { clear -Hok1. unfold total_of. induction Hok1 as [|e l He Hl IHl]; [done|]. rewrite fmap_cons, sum_list_cons.
      assert (0 <= spends cid e); [|lia]. destruct e as [[]| |]; simpl in *; try case_decide; lia. }
    specialize (IH Hok1 ltac:(lia)).
    pose proof (account_step_balance ev d1 d2 cid Hd1 Hok2 (ln1_apply_account ev d1 d2 cid Hn Hd1 Hok2 Ha)). lia. }
  split; [done|]. pose proof (ln1_history_inv _ evs d Hn Hfee ln1_inv_empty Hok H) as Hd.
  unfold balance. destruct (contracts d !! cid) as [a|] eqn:Ha; simpl; [|done]. by apply (account_u64 d Hd cid a).
Qed.

Lemma ln1_fund_pending ev d d' amount c o :
  1 <= num_peers cfg -> funded_once d -> ln1_apply ev d d' -> ev = PaidIn (OutputContract amount (Incoming c)) o ->
  decrypted_preimage c = Pending /\ exists offer, offers d !! in_hash c = Some offer /\
    encrypted_preimage c = offer_encrypted_preimage offer /\ offer_amount offer <= amount.
Proof using.
  intros Hn Hact H ->. destruct H as [a H]. apply fund_contract_Ok in H as (_ & _ & _ & _ & H); [|done].
  destruct H as (offer & share & (Ho & _ & Ha & _ & Hm) & _). apply Hm in Hact as [? ?]. eauto.
Qed.

(** Once version 2.1 is voted in it stays in force, and from then on every
    contract is funded at most once: a funding always creates the account, and
    incoming contracts are funded undecided. *)
Theorem ln1_funded_once evs d d' :
  1 <= num_peers cfg -> is_u64 (contract_output_fee cfg) -> ln1_inv d -> Forall ln1_event_ok evs ->
  ln1_history d evs d' -> funded_once d ->
  funded_once d' /\ (forall cid, has_account d cid + total_of fundings cid evs = has_account d' cid) /\
  (forall amount c o, PaidIn (OutputContract amount (Incoming c)) o ∈ evs -> decrypted_preimage c = Pending).
Proof using.
  intros Hn Hfee Hd Hok H Hact. induction H as [|evs ev d1 d2 H IH Ha].
  { split; [done|]. split; [intros cid; unfold total_of; simpl; lia|]. intros amount c o Hin. by apply not_elem_of_nil in Hin. }
  rewrite Forall_app, Forall_singleton in Hok. destruct Hok as [Hok1 Hok2].
  destruct (IH Hok1) as (Hact1 & Hcnt & Hpend).
  pose proof (ln1_history_inv _ evs d1 Hn Hfee Hd Hok1 H) as Hd1.
  split; [by apply (ln1_apply_funded_once ev d1)|]. split.
  - intros cid. rewrite total_of_snoc, Z.add_assoc, Hcnt.
    pose proof (ln1_apply_account ev d1 d2 cid Hn Hd1 Hok2 Ha) as Hs. unfold account_step, has_account in *.
    destruct (contracts d1 !! cid), (contracts d2 !! cid); [| done | |lia].
    + destruct Hs as (_ & _ & _ & Hf). rewrite (Hf Hact1). lia.
    + destruct Hs as (amount & contract & o & -> & Hc & _). simpl. rewrite decide_True by done. lia.
  - intros amount c o [Hin|Hin%list_elem_of_singleton]%elem_of_app; [by apply Hpend in Hin|].
    by destruct (ln1_fund_pending ev d1 d2 amount c o Hn Hact1 Ha (eq_sym Hin)) as [? _].
Qed.

(** C13: a funded contract never disappears, and it only changes the way its
    rules allow: the preimage of an incoming contract is decided once and for
    good, to a key only if the key hashes to the payment hash, and an outgoing
    contract at most becomes cancelled. *)
Theorem ln1_contract_final evs d d' cid a :
  1 <= num_peers cfg -> is_u64 (contract_output_fee cfg) -> ln1_inv d -> Forall ln1_event_ok evs ->
  ln1_history d evs d' -> contracts d !! cid = Some a ->
  exists a', contracts d' !! cid = Some a' /\ evolves (account_contract a) (account_contract a').
Proof using.
  intros Hn Hfee Hd Hok H Ha. induction H as [|evs ev d1 d2 H IH Hap]; [by exists a|].
  rewrite Forall_app, Forall_singleton in Hok. destruct Hok as [Hok1 Hok2].
  destruct (IH Hok1) as (a1 & Ha1 & Hev1).
  pose proof (ln1_history_inv _ evs d1 Hn Hfee Hd Hok1 H) as Hd1.
  pose proof (ln1_apply_account ev d1 d2 cid Hn Hd1 Hok2 Hap) as Hs. unfold account_step in Hs. rewrite Ha1 in Hs.
  destruct (contracts d2 !! cid) as [a2|]; [|done]. destruct Hs as [Hev2 _]. exists a2. split; [done|]. by etrans.
Qed.

(** ** Threshold decryption *)

(** Events other than decryption shares leave incoming contracts and the shares
    as they are. *)
Lemma ln1_apply_incoming ev d d' :
  1 <= num_peers cfg -> ln1_apply ev d d' ->
  (forall cid s p, ev <> Ordered (DecryptPreimage cid s) p) ->
  agreed_shares d' = agreed_shares d /\
  forall cid a c o, contracts d !! cid = Some a -> account_contract a = FundedIncoming c o ->
    exists a', contracts d' !! cid = Some a' /\ account_contract a' = FundedIncoming c o.
Proof using.
  intros Hn H Hev. destruct ev as [[cid amount w|] p|[amount contract|offer|cid sig|] o|[cid share|count|v1|] peer]; simpl in H.
  - destruct H as [meta H]. apply (ln1_input_Ok cid amount w p) in H as (a & ? & ? & Ha & _ & _ & _ & _ & ->).
    split; [done|]. intros cid1 a1 c o Ha1 Hc. unfold spent. simpl.
    destruct (decide (cid = cid1)) as [<-|]; [rewrite lookup_insert_eq|rewrite lookup_insert_ne by done; eauto]. simplify_eq. eauto.
  - destruct H as [meta H]. by mrun.
  - destruct H as [a H]. apply fund_contract_Ok in H as (_ & _ & _ & _ & H); [|done].
    assert (agreed_shares d' = agreed_shares d /\ contracts d' = <[contract_id contract := funded_account amount contract o d]> (contracts d)) as [Hs Hc].
    { destruct contract; [by destruct H as (? & ? & _ & _ & ->)|by subst]. }
    split; [done|]. intros cid1 a1 c o1 Ha1 Hc1. rewrite Hc.
    destruct (decide (contract_id contract = cid1)) as [<-|]; [rewrite lookup_insert_eq|rewrite lookup_insert_ne by done; eauto].
    unfold funded_account. rewrite Ha1. eauto.
  - destruct H as [a H]. apply create_offer_Ok in H as (_ & _ & _ & _ & _ & _ & ->); [|done]. eauto.
  - destruct H as [a H]. apply cancel_outgoing_Ok in H as (? & ? & Ha & Hc & _ & _ & _ & ->). split; [done|].
    intros cid1 a1 c o1 Ha1 Hc1. simpl. rewrite lookup_insert_ne; [eauto|]. intros ->. congruence.
  - destruct H as [a H]. by mrun.
  - by destruct (Hev cid share peer).
  - dbrun. eauto.
  - dbrun. eauto.
  - by mrun.
Qed.

(** What the shares of a contract are worth: [evs] holds a valid share from
    each of the peers. *)
Definition shares_in (evs : list ln1_event) (cid : Z) (c : IncomingContract) (peers : gset Z) : Prop :=
  forall p, p ∈ peers -> exists s, Ordered (DecryptPreimage cid s) p ∈ evs /\
    verify_decryption_share p s (encrypted_preimage c) = true.

Lemma shares_in_snoc evs ev cid c peers : shares_in evs cid c peers -> shares_in (evs ++ [ev]) cid c peers.
Proof using. intros H p (s & Hs & Hv)%H. exists s. split; [|done]. apply elem_of_app. by left. Qed.

(** The contract is still undecided and its recorded shares are in [evs]. *)
Definition collecting (evs : list ln1_event) (cid : Z) (c : IncomingContract) (o : OutPoint) (d : LnDb) : Prop :=
  (exists a, contracts d !! cid = Some a /\ account_contract a = FundedIncoming c o) /\
  shares_in evs cid c (dom (shares_of cid (agreed_shares d))).

Lemma collecting_share evs cid c o d cid1 s p d' :
  collecting evs cid c o d -> process_decryption_share cid1 s p d = (Ok tt, d') ->
  collecting (evs ++ [Ordered (DecryptPreimage cid1 s) p]) cid c o d' \/
  exists peers, key_threshold cfg <= Z.of_nat (size peers) /\
    shares_in (evs ++ [Ordered (DecryptPreimage cid1 s) p]) cid c peers.
Proof using.
  intros [(a & Ha & Hc) Hsh] H.
  apply share_Ok in H as (a1 & c1 & o1 & Ha1 & Hc1 & _ & Hv & _ & H).
  destruct (decide (cid1 = cid)) as [->|Hne].
  - assert (shares_in (evs ++ [Ordered (DecryptPreimage cid s) p]) cid c
      (dom (shares_of cid (<[(cid, p) := s]> (agreed_shares d))))) as Hnew.
    { rewrite shares_of_insert, decide_True by done. intros q [->%elem_of_singleton|Hq]%dom_insert%elem_of_union.
      - exists s. split; [apply elem_of_app; right; by left|]. congruence.
      - by apply (shares_in_snoc evs _ cid c (dom (shares_of cid (agreed_shares d)))). }
    destruct H as [[-> _]|(v & id & q & Hlen & _ & _ & _)].
    + left. split; [by exists a|done].
    + right. eexists. split; [|exact Hnew]. simpl in Hlen. by rewrite length_btree_iter, <- size_dom in Hlen.
  - left. destruct H as [[-> _]|(v & id & q & _ & _ & _ & ->)].
    + split; [by exists a|]. simpl. rewrite shares_of_insert, decide_False by done. by apply shares_in_snoc.
    + split; [exists a; simpl; by rewrite lookup_insert_ne|].
      simpl. rewrite shares_of_filter, decide_False, shares_of_insert, decide_False by done. by apply shares_in_snoc.
Qed.

(** The preimage of an incoming contract is decided only on the word of a
    threshold of guardians: when a contract that was undecided and had no
    shares is decided after a history, the history contains valid decryption
    shares for it from at least [threshold] distinct peers. *)
Theorem ln1_decryption_threshold evs d d' cid a c o a' c' o' :
  1 <= num_peers cfg -> ln1_history d evs d' ->
  contracts d !! cid = Some a -> account_contract a = FundedIncoming c o -> decrypted_preimage c = Pending ->
  shares_of cid (agreed_shares d) = ∅ ->
  contracts d' !! cid = Some a' -> account_contract a' = FundedIncoming c' o' -> decrypted_preimage c' <> Pending ->
  exists peers, key_threshold cfg <= Z.of_nat (size peers) /\ shares_in evs cid c peers.
Proof using.
  intros Hn H Ha Hc Hp Hsh Ha' Hc' Hp'.
  assert (collecting evs cid c o d' \/ exists peers, key_threshold cfg <= Z.of_nat (size peers) /\ shares_in evs cid c peers) as [Hcol|]; [clear a' c' o' Ha' Hc' Hp'| |done].
  2:{ destruct Hcol as [(a1 & Ha1 & Hc1) _]. exfalso. congruence. }
  induction H as [|evs ev d1 d2 H IH Hap].
  { left. split; [by exists a|]. rewrite Hsh, dom_empty_L. intros p Hin. set_solver. }
  destruct IH as [Hcol|(peers & Hle & Hin)]; [|right; exists peers; split; [done|by apply shares_in_snoc]].
  assert ((exists cid1 s p, ev = Ordered (DecryptPreimage cid1 s) p) \/ forall cid1 s p, ev <> Ordered (DecryptPreimage cid1 s) p) as [(cid1 & s & p & ->)|Hev].
  { destruct ev as [| |[] ?]; eauto. }
  - by apply (collecting_share evs cid c o d1).
  - destruct (ln1_apply_incoming ev d1 d2 Hn Hap) as [Hs Hinc]; [done|]. left.
    destruct Hcol as [(a1 & Ha1 & Hc1) Hsh1]. split; [by apply (Hinc cid a1)|]. rewrite Hs. by apply shares_in_snoc.
Qed.

(** Threshold decryption succeeds on any threshold of valid shares of distinct
    peers. *)
Definition decrypt_total : Prop := forall shares ct,
  key_threshold cfg <= Z.of_nat (length shares) -> NoDup shares.*1 ->
  Forall (fun ps => verify_decryption_share ps.1 ps.2 ct = true) shares -> is_Some (decrypt shares ct).

(** Recorded shares are valid shares of undecided contracts, and there are
    never enough of them to decrypt. *)
Record shares_inv (d : LnDb) : Prop := {
  share_valid cid p s : agreed_shares d !! (cid, p) = Some s ->
    exists a c o, contracts d !! cid = Some a /\ account_contract a = FundedIncoming c o /\
      decrypted_preimage c = Pending /\ verify_decryption_share p s (encrypted_preimage c) = true;
  share_below cid : Z.of_nat (size (shares_of cid (agreed_shares d))) < key_threshold cfg;
}.

Lemma shares_inv_empty : 0 < key_threshold cfg -> shares_inv LnDb_empty.
Proof using.
  intros Hk. split; simpl.
  - intros cid p s. by rewrite lookup_empty.
  - intros cid. unfold shares_of. rewrite map_to_list_empty. simpl. by rewrite map_size_empty.
Qed.

Lemma share_inv_decrypts d cid p s a c o :
  decrypt_total -> shares_inv d ->
  contracts d !! cid = Some a -> account_contract a = FundedIncoming c o ->
  verify_decryption_share p s (encrypted_preimage c) = true ->
  let shares := btree_iter (shares_of cid (<[(cid, p) := s]> (agreed_shares d))) in
  key_threshold cfg <= Z.of_nat (length shares) -> is_Some (decrypt shares (encrypted_preimage c)).
Proof using.
  intros Hdec Hs Ha Hc Hv shares Hlen. apply Hdec; [done|apply NoDup_btree_iter|].
  apply Forall_forall. intros [q t] Hq%elem_of_btree_iter. simpl.
  rewrite shares_of_lookup in Hq. apply lookup_insert_Some in Hq as [[[= ->] ->]|[_ Hq]]; [done|].
  apply (share_valid d Hs) in Hq as (a1 & c1 & o1 & Ha1 & Hc1 & _ & Hv1). congruence.
Qed.

Lemma share_step d cid p s d' :
  decrypt_total -> shares_inv d -> process_decryption_share cid s p d = (Ok tt, d') ->
  shares_inv d' /\
  exists a c o, contracts d !! cid = Some a /\ account_contract a = FundedIncoming c o /\
    (contracts d' = contracts d /\ agreed_shares d' = <[(cid, p) := s]> (agreed_shares d) \/
     exists q, q <> Pending /\ contracts d' !! cid = Some {| account_amount := account_amount a; account_contract := FundedIncoming (with_preimage q c) o |}).
Proof using.
  intros Hdec Hs H. apply share_Ok in H as (a & c & o & Ha & Hc & Hp & Hv & Hnone & [[-> Hnd]|(v & id & q & Hlen & _ & _ & ->)]).
  - split; [|exists a, c, o; by auto]. split.
    + intros cid1 q t. simpl. intros [[[= <- <-] <-]|[_ Hq]]%lookup_insert_Some; [by exists a, c, o|by apply (share_valid d Hs)].
    + intros cid1. simpl. rewrite shares_of_insert. case_decide as Hcid; [subst cid1|apply (share_below d Hs)].
      destruct (Z.lt_ge_cases (Z.of_nat (size (<[p := s]> (shares_of cid (agreed_shares d))))) (key_threshold cfg)) as [Hlt|Hge]; [done|].
      exfalso. pose proof (share_inv_decrypts d cid p s a c o Hdec Hs Ha Hc Hv) as Hd. cbv zeta in Hd. simpl in Hnd.
      rewrite shares_of_insert, decide_True, length_btree_iter in Hnd, Hd by done.
      destruct (Hd Hge) as [v Hv']. rewrite (Hnd Hge) in Hv'. done.
  - split; [|exists a, c, o; split; [done|]; split; [done|]; right; eexists; split; [apply decode_preimage_decided|apply lookup_insert_eq]].
    split.
    + intros cid1 q1 t [Hin Hne]%map_lookup_filter_Some. simpl in *.
      rewrite lookup_insert_ne by congruence.
      apply lookup_insert_Some in Hin as [[[= <- <-] _]|[_ Hin]]; [done|]. by apply (share_valid d Hs).
    + intros cid1. simpl. rewrite shares_of_filter. case_decide as Hcid.
      * rewrite map_size_empty. pose proof (share_below d Hs cid) as Hb. lia.
      * rewrite shares_of_insert, decide_False by done. apply (share_below d Hs).
Qed.

Lemma shares_inv_apply ev d d' :
  decrypt_total -> 1 <= num_peers cfg -> ln1_apply ev d d' -> shares_inv d -> shares_inv d'.
Proof using.
  intros Hdec Hn H Hs.
  assert ((exists cid s p, ev = Ordered (DecryptPreimage cid s) p) \/ forall cid s p, ev <> Ordered (DecryptPreimage cid s) p) as [(cid & s & p & ->)|Hev].
  { destruct ev as [| |[] ?]; eauto. }
  { by apply (share_step d cid p s d') in H as [? _]. }
  destruct (ln1_apply_incoming ev d d' Hn H Hev) as [Heq Hinc]. split; rewrite Heq.
  - intros cid p s Hsh. apply (share_valid d Hs) in Hsh as (a & c & o & Ha & Hc & Hp & Hv).
    destruct (Hinc cid a c o Ha Hc) as (a' & Ha' & Hc'). by exists a', c, o.
  - apply (share_below d Hs).
Qed.

Lemma shares_inv_history evs d :
  decrypt_total -> 1 <= num_peers cfg -> 0 < key_threshold cfg -> ln1_history LnDb_empty evs d -> shares_inv d.
Proof using.
  intros Hdec Hn Hk H. induction H as [|evs ev d1 d2 H IH Ha]; [by apply shares_inv_empty|].
  by apply (shares_inv_apply ev d1).
Qed.

(** A valid share of a guardian that has not sent one is accepted. *)
Lemma share_runs d cid p s a c o :
  ln1_inv d -> contracts d !! cid = Some a -> account_contract a = FundedIncoming c o ->
  decrypted_preimage c = Pending -> verify_decryption_share p s (encrypted_preimage c) = true ->
  agreed_shares d !! (cid, p) = None -> exists d', process_decryption_share cid s p d = (Ok tt, d').
Proof using.
  intros Hd Ha Hc Hp Hv Hn. unfold process_decryption_share.
  destruct (incoming_outcome d Hd cid a c o Ha Hc) as [q Hq].
  rewrite (run_bind _ _ d None d) by (apply get_value_Ok; by rewrite <- Hn). simpl.
  rewrite (run_bind _ _ d tt d) by done.
  rewrite (run_bind _ _ d (Some a) d) by (apply get_value_Ok; by rewrite <- Ha).
  rewrite (run_bind _ _ d a d) by done. rewrite Hc.
  rewrite (run_bind _ _ d tt d) by (apply ensure_Ok; split; [by apply bool_decide_eq_true|done]).
  rewrite (run_bind _ _ d tt d) by by apply ensure_Ok.
  set (d1 := upd AgreedDecryptionShareKey <[(cid, p) := s]> d).
  rewrite (run_bind _ _ d tt d1) by by apply insert_new_entry_Ok.
  rewrite (run_bind _ _ d1 (btree_iter (shares_of cid (agreed_shares d1))) d1) by done.
  destruct (_ <? _); [by eexists|]. destruct (decrypt _ _) as [v|]; [|by eexists].
  unfold update_preimage, remove_entry, remove_by_prefix, get_value, insert_entry, expect, mbind, M_bind.
  simpl. rewrite Ha. simpl. rewrite Hc. simpl. rewrite Hq. simpl. by eexists.
Qed.

(** A decryption share is ordered; a refused item leaves no trace. *)
Definition submit_share (cid : Z) (d : LnDb) (ps : Z * Z) : LnDb :=
  match process_decryption_share cid ps.2 ps.1 d with (Ok _, d') => d' | _ => d end.

Definition is_decided (d : LnDb) (cid : Z) (o : OutPoint) : Prop :=
  exists a c, contracts d !! cid = Some a /\ account_contract a = FundedIncoming c o /\ decrypted_preimage c <> Pending.
Definition is_undecided (d : LnDb) (cid : Z) (c : IncomingContract) (o : OutPoint) : Prop :=
  exists a, contracts d !! cid = Some a /\ account_contract a = FundedIncoming c o /\ decrypted_preimage c = Pending.

Lemma submit_decided cid o d ps : is_decided d cid o -> is_decided (submit_share cid d ps) cid o.
Proof using.
  intros (a & c & Ha & Hc & Hp). unfold submit_share.
  destruct (process_decryption_share _ _ _ _) as [[[]| |] d'] eqn:H; [|by exists a, c..].
  apply share_Ok in H as (a1 & c1 & o1 & Ha1 & Hc1 & Hp1 & _). congruence.
Qed.

Lemma submit_all_decided cid o d shares : is_decided d cid o -> is_decided (foldl (submit_share cid) d shares) cid o.
Proof using. revert d. induction shares as [|ps shares IH]; intros d H; [done|]. simpl. by apply IH, submit_decided. Qed.

Lemma submit_undecided cid c o d p s :
  decrypt_total -> ln1_inv d -> shares_inv d -> is_undecided d cid c o ->
  verify_decryption_share p s (encrypted_preimage c) = true ->
  let d' := submit_share cid d (p, s) in
  ln1_inv d' /\ shares_inv d' /\
  (is_decided d' cid o \/
   is_undecided d' cid c o /\ {[p]} ∪ dom (shares_of cid (agreed_shares d)) ⊆ dom (shares_of cid (agreed_shares d'))).
Proof using.
  intros Hdec Hd Hs (a & Ha & Hc & Hp) Hv. unfold submit_share. simpl.
  destruct (agreed_shares d !! (cid, p)) as [t|] eqn:Ht.
  - assert (process_decryption_share cid s p d = (Err ShareAlreadyReceived, d)) as ->.
    { unfold process_decryption_share. rewrite (run_bind _ _ d (Some t) d) by (apply get_value_Ok; by rewrite <- Ht). done. }
    split; [done|]. split; [done|]. right. split; [by exists a|].
    assert (p ∈ dom (shares_of cid (agreed_shares d))) as Hin; [|clear -Hin; set_solver]. apply elem_of_dom. by rewrite shares_of_lookup, Ht.
  - destruct (share_runs d cid p s a c o Hd Ha Hc Hp Hv Ht) as [d' H]. rewrite H.
    split; [by apply (ln1_item_inv (DecryptPreimage cid s) p d d') in H as [? _]|].
    destruct (share_step d cid p s d' Hdec Hs H) as [Hs' (a1 & c1 & o1 & Ha1 & Hc1 & Hcase)].
    split; [done|]. rewrite Ha in Ha1. injection Ha1 as <-. rewrite Hc in Hc1. injection Hc1 as <- <-.
    destruct Hcase as [[Heq Hag]|(q & Hq & Hd')].
    + right. split; [exists a; by rewrite Heq|]. rewrite Hag, shares_of_insert, decide_True, dom_insert by done. clear. set_solver.
    + left. eexists _, _. split; [exact Hd'|]. done.
Qed.

Lemma submit_all cid c o shares d :
  decrypt_total -> ln1_inv d -> shares_inv d -> is_decided d cid o \/ is_undecided d cid c o ->
  Forall (fun ps => verify_decryption_share ps.1 ps.2 (encrypted_preimage c) = true) shares ->
  let d' := foldl (submit_share cid) d shares in
  is_decided d' cid o \/
  shares_inv d' /\ list_to_set shares.*1 ∪ dom (shares_of cid (agreed_shares d)) ⊆ dom (shares_of cid (agreed_shares d')).
Proof using.
  intros Hdec. revert d. induction shares as [|[p s] shares IH]; intros d Hd Hs Hst Hv; simpl.
  { destruct Hst as [?|_]; [by left|]. right. split; [done|]. clear. set_solver. }
  apply Forall_cons in Hv as [Hv Hvs]. simpl in Hv. destruct Hst as [Hst|Hst].
  - left. by apply submit_all_decided, submit_decided.
  - destruct (submit_undecided cid c o d p s Hdec Hd Hs Hst Hv) as (Hd' & Hs' & [Hst'|[Hst' Hsub]]).
    + left. by apply submit_all_decided.
    + destruct (IH _ Hd' Hs' (or_intror Hst') Hvs) as [?|[Hs2 Hsub2]]; [by left|]. right. split; [done|]. clear -Hsub Hsub2. set_solver.
Qed.

(** Threshold decryption completes: in every reachable state, once valid
    shares of a threshold of distinct guardians are ordered, in any order and
    interleaved with whatever shares were recorded before, the preimage of the
    contract is decided. *)
Theorem ln1_decryption_completes evs d cid a c o shares :
  decrypt_total -> 1 <= num_peers cfg -> is_u64 (contract_output_fee cfg) -> 0 < key_threshold cfg ->
  Forall ln1_event_ok evs -> ln1_history LnDb_empty evs d ->
  contracts d !! cid = Some a -> account_contract a = FundedIncoming c o ->
  NoDup shares.*1 -> key_threshold cfg <= Z.of_nat (length shares) ->
  Forall (fun ps => verify_decryption_share ps.1 ps.2 (encrypted_preimage c) = true) shares ->
  is_decided (foldl (submit_share cid) d shares) cid o.
Proof using.
  intros Hdec Hn Hfee Hk Hok H Ha Hc Hnd Hlen Hv.
  pose proof (ln1_history_inv _ evs d Hn Hfee ln1_inv_empty Hok H) as Hd.
  pose proof (shares_inv_history evs d Hdec Hn Hk H) as Hs.
  destruct (submit_all cid c o shares d Hdec Hd Hs) as [?|[Hs' Hsub]]; [| |done|].
  - destruct (decide (decrypted_preimage c = Pending)) as [Hp|Hp]; [right; by exists a|left; by exists a, c].
  - done.
  - exfalso. pose proof (share_below _ Hs' cid) as Hb.
    assert (size (list_to_set (C := gset Z) shares.*1) <= size (shares_of cid (agreed_shares (foldl (submit_share cid) d shares))))%nat as Hsz.
    { rewrite <- size_dom. apply subseteq_size. clear -Hsub. set_solver. }
    rewrite size_list_to_set, length_fmap in Hsz by done. lia.
Qed.

(** ** Freedom from panics *)

(** The votes are those of guardians of the federation, for versions this
    module knows. *)
Record votes_inv (all : gset Z) (d : LnDb) : Prop := {
  block_voters : dom (block_count_votes d) ⊆ all;
  version_voters : dom (version_votes d) ⊆ all;
  versions_known : map_Forall (fun _ v => version_le v MODULE_CONSENSUS_VERSION) (version_votes d);
}.

Definition item_from (all : gset Z) (item : LightningConsensusItem) (peer : Z) : Prop :=
  peer ∈ all /\ match item with ConsensusVersionVote v => version_le v MODULE_CONSENSUS_VERSION | _ => True end.
Definition event_from (all : gset Z) (ev : ln1_event) : Prop :=
  match ev with Ordered item peer => item_from all item peer | _ => True end.

(** Every operation but a vote leaves the votes. *)
Lemma ln1_apply_votes all ev d d' :
  1 <= num_peers cfg -> votes_inv all d -> event_from all ev -> ln1_apply ev d d' -> votes_inv all d'.
Proof using.
  intros Hn [H1 H2 H3] Hev H.
  destruct ev as [[cid amount w|] p|[amount contract|offer|cid sig|] o|[cid share|count|v|] peer]; simpl in H.
  - destruct H as [meta H]. by apply (ln1_input_Ok cid amount w p) in H as (? & ? & ? & _ & _ & _ & _ & _ & ->).
  - destruct H as [meta H]. by mrun.
  - destruct H as [a H]. apply fund_contract_Ok in H as (_ & _ & _ & _ & H); [|done].
    destruct contract; [by destruct H as (? & ? & _ & _ & ->)|by subst].
  - destruct H as [a H]. by apply create_offer_Ok in H as (_ & _ & _ & _ & _ & _ & ->).
  - destruct H as [a H]. by apply cancel_outgoing_Ok in H as (? & ? & _ & _ & _ & _ & _ & ->).
  - destruct H as [a H]. by mrun.
  - by apply share_Ok in H as (? & ? & ? & _ & _ & _ & _ & _ & [[-> _]|(? & ? & ? & _ & _ & _ & ->)]).
  - dbrun. destruct Hev as [Hp _]. split; simpl; [|done|done]. rewrite dom_insert. clear -Hp H1. set_solver.
  - dbrun. destruct Hev as [Hp Hv]. split; simpl; [done| |by apply map_Forall_insert_2].
    rewrite dom_insert. clear -Hp H2. set_solver.
  - by mrun.
Qed.

Lemma ln1_history_votes all evs d :
  1 <= num_peers cfg -> Forall (event_from all) evs -> ln1_history LnDb_empty evs d -> votes_inv all d.
Proof using.
  intros Hn Hok H. induction H as [|evs ev d1 d2 H IH Ha].
  { split; simpl; [clear; set_solver..|]. apply map_Forall_empty. }
  rewrite Forall_app, Forall_singleton in Hok. destruct Hok as [Hok1 Hok2]. apply (ln1_apply_votes all ev d1); [done|by apply IH|done|done].
Qed.

Lemma no_panic_share cid share peer d : ln1_inv d -> no_panic (process_decryption_share cid share peer) d.
Proof using.
  intros Hd. unfold process_decryption_share.
  apply no_panic_bind; [done|]. intros r d1 [Hr ->]%get_value_Ok.
  apply no_panic_bind; [apply no_panic_ensure|]. intros [] d1 [Hs ->]%ensure_Ok.
  apply no_panic_bind; [done|]. intros r' d1 [-> ->]%get_value_Ok.
  apply no_panic_bind; [apply no_panic_ok_or|]. intros a d1 [Ha ->]%ok_or_Ok.
  destruct (account_contract a) as [c o|c] eqn:Hc; [|done].
  apply no_panic_bind; [apply no_panic_ensure|]. intros [] d1 [Hp%bool_decide_eq_true ->]%ensure_Ok.
  apply no_panic_bind; [apply no_panic_ensure|]. intros [] d1 [Hv ->]%ensure_Ok.
  apply negb_true_iff, bool_decide_eq_false, eq_None_not_Some in Hs. subst r. simpl in Hs, Ha.
  destruct (share_runs d cid peer share a c o Hd Ha Hc Hp Hv Hs) as [d' Hrun].
  intros Hpan. assert (Hall : no_panic (process_decryption_share cid share peer) d) by (unfold no_panic; by rewrite Hrun).
  apply Hall. unfold process_decryption_share.
  rewrite (run_bind _ _ d None d) by (apply get_value_Ok; by rewrite <- Hs). simpl. rewrite (run_bind _ _ d tt d) by done.
  rewrite (run_bind _ _ d (Some a) d) by (apply get_value_Ok; by rewrite <- Ha). rewrite (run_bind _ _ d a d) by done. rewrite Hc.
  rewrite (run_bind _ _ d tt d) by (apply ensure_Ok; split; [by apply bool_decide_eq_true|done]).
  rewrite (run_bind _ _ d tt d) by by apply ensure_Ok. exact Hpan.
Qed.

Section federation.
Context (all : gset Z).
Hypothesis Hnum : num_peers cfg = Z.of_nat (size all).
Hypothesis Hone : 1 <= num_peers cfg.
Hypothesis Hthr : key_threshold cfg = threshold (num_peers cfg).

Lemma block_count_Some d : votes_inv all d -> is_Some (consensus_block_count d).
Proof using Hnum Hone Hthr.
  intros Hv. pose proof (block_count_positions _ Hone) as [Hp _]. unfold consensus_block_count. rewrite Hthr.
  apply median_vote_Some; [lia|]. unfold votes_of. rewrite length_fmap, length_map_to_list, <- size_dom.
  pose proof (subseteq_size _ _ (block_voters all d Hv)). lia.
Qed.

Lemma version_Some d : votes_inv all d -> is_Some (consensus_module_consensus_version d).
Proof using Hnum Hone.
  intros Hv. apply version_vote_Some; [done|]. rewrite <- size_dom.
  pose proof (subseteq_size _ _ (version_voters all d Hv)). lia.
Qed.

(** The block count follows the votes of the correct guardians. *)
Lemma block_count_correct (evil : gset Z) d x :
  votes_inv all d -> bft all evil -> consensus_block_count d = Some x ->
  (0 < x -> exists p v, (p ∉ evil) /\ block_count_votes d !! p = Some v /\ x <= v) /\
  (forall c, 0 < c -> (forall p, p ∈ all -> p ∉ evil -> exists v, block_count_votes d !! p = Some v /\ c <= v) -> c <= x).
Proof using Hnum Hone Hthr.
  intros Hv Hbft Hx. unfold consensus_block_count in Hx. rewrite Hthr, Hnum in Hx.
  rewrite Hnum in Hone. pose proof (block_count_positions _ Hone) as [Hp Hpc].
  apply (median_vote_correct all evil (block_count_votes d) _ 0 x Hone Hbft (block_voters all d Hv) Hpc Hx). lia.
Qed.

Lemma no_panic_once d : votes_inv all d -> no_panic is_contract_funded_once_active d.
Proof using Hnum Hone.
  intros Hv. unfold is_contract_funded_once_active. apply no_panic_bind; [done|]. intros v d1 [-> ->]%gets_Ok.
  apply no_panic_bind; [by apply no_panic_expect, version_Some|done].
Qed.

Lemma no_panic_input input p d : votes_inv all d -> no_panic (ln1_process_input input p) d.
Proof using Hnum Hone Hthr.
  intros Hv. destruct input as [cid amount w|]; [|done]. simpl.
  apply no_panic_bind; [done|]. intros r d1 [-> ->]%get_value_Ok.
  apply no_panic_bind; [apply no_panic_ok_or|]. intros a d1 [_ ->]%ok_or_Ok.
  apply no_panic_bind; [apply no_panic_ensure|]. intros [] d1 [_ ->]%ensure_Ok.
  apply no_panic_bind; [done|]. intros c d1 [-> ->]%gets_Ok.
  apply no_panic_bind; [by apply no_panic_expect, block_count_Some|]. intros count d1 [_ ->]%expect_Ok.
  apply no_panic_bind.
  { unfold spending_key. destruct (account_contract a) as [c o|c].
    - destruct (decrypted_preimage c); [done|apply no_panic_ok_or|done].
    - destruct (_ && _); [|done]. apply no_panic_bind; [apply no_panic_ok_or|]. intros pre d1 _.
      apply no_panic_bind; [apply no_panic_ensure|done]. }
  intros pk d1 [_ ->]%spending_key_Ok. apply no_panic_bind; [done|]. intros r d1 _.
  apply no_panic_bind; [by destruct (_ =? 0)|done].
Qed.

Lemma no_panic_check_incoming amount c d : votes_inv all d -> no_panic (check_incoming amount c) d.
Proof using Hnum Hone.
  intros Hv. unfold check_incoming.
  apply no_panic_bind; [done|]. intros r d1 [-> ->]%get_value_Ok.
  apply no_panic_bind; [apply no_panic_ensure|]. intros [] d1 [_ ->]%ensure_Ok.
  apply no_panic_bind; [done|]. intros r d1 [-> ->]%get_value_Ok.
  apply no_panic_bind; [apply no_panic_ok_or|]. intros offer d1 [_ ->]%ok_or_Ok.
  apply no_panic_bind; [apply no_panic_ensure|]. intros [] d1 [_ ->]%ensure_Ok.
  apply no_panic_bind; [by apply no_panic_once|]. intros b d1 [-> _]%once_Ok; [|done].
  apply no_panic_bind; [apply no_panic_ensure|]. intros [] d1 [_ ->]%ensure_Ok.
  apply no_panic_bind; [by apply no_panic_once|]. intros b' d1 [-> _]%once_Ok; [|done].
  apply no_panic_bind; [apply no_panic_ensure|]. intros [] d1 _. apply no_panic_ensure.
Qed.

Lemma no_panic_fund amount contract o d :
  votes_inv all d -> contract_updates d !! o = None -> no_panic (fund_contract amount contract o) d.
Proof using Hnum Hone.
  intros Hv Ho. unfold fund_contract.
  apply no_panic_bind; [by apply no_panic_once|]. intros b d1 [-> _]%once_Ok; [|done].
  apply no_panic_bind; [done|]. intros r d1 [-> ->]%get_value_Ok.
  apply no_panic_bind; [apply no_panic_ensure|]. intros [] d1 [_ ->]%ensure_Ok.
  apply no_panic_bind; [destruct contract; [by apply no_panic_check_incoming|done]|]. intros [] d1 Hc.
  assert (d1 = d /\ match contract with Incoming c => exists offer, matches_offer amount c offer d | Outgoing _ => True end) as [-> Hm].
  { destruct contract as [c|c]; [by apply check_incoming_Ok in Hc|by mrun]. } clear Hc.
  apply no_panic_bind; [apply no_panic_ensure|]. intros [] d1 [_ ->]%ensure_Ok.
  apply no_panic_bind; [done|]. intros r d1 [-> ->]%get_value_Ok.
  apply no_panic_bind; [done|]. intros r d1 [_ ->]%insert_entry_Ok.
  apply no_panic_bind; [done|]. intros r' d1 [_ ->]%insert_entry_Ok.
  apply no_panic_bind; [by apply no_panic_insert_new_entry|]. intros [] d1 [_ ->]%insert_new_entry_Ok.
  apply no_panic_bind; [|done]. destruct contract as [c|c]; [|done]. destruct Hm as (offer & Hoff & Hprop & _).
  unfold propose_share. apply no_panic_bind; [done|]. intros r'' d1 [-> ->]%get_value_Ok.
  apply no_panic_bind; [apply no_panic_expect; by exists offer|]. intros off d1 [_ ->]%expect_Ok.
  apply no_panic_bind; [apply no_panic_ok_or|]. intros sh d1 [_ ->]%ok_or_Ok.
  apply no_panic_bind; [by apply no_panic_insert_new_entry|]. done.
Qed.

Lemma no_panic_output output o d :
  votes_inv all d -> contract_updates d !! o = None -> no_panic (ln1_process_output output o) d.
Proof using Hnum Hone.
  intros Hv Ho. destruct output as [amount contract|offer|cid sig|]; simpl; [by apply no_panic_fund| | |done].
  - unfold create_offer. apply no_panic_bind; [by apply no_panic_once|]. intros b d1 [-> _]%once_Ok; [|done].
    apply no_panic_bind; [done|]. intros r d1 [-> ->]%get_value_Ok.
    apply no_panic_bind; [apply no_panic_ensure|]. intros [] d1 [_ ->]%ensure_Ok.
    apply no_panic_bind; [apply no_panic_ensure|]. intros [] d1 [_ ->]%ensure_Ok.
    apply no_panic_bind; [done|]. intros r d1 [_ ->]%insert_entry_Ok.
    apply no_panic_bind; [apply no_panic_ensure|]. intros [] d1 [_ ->]%ensure_Ok.
    apply no_panic_bind; [by apply no_panic_insert_new_entry|]. intros [] d2 _.
    apply no_panic_bind; [done|]. intros r' d3 _. apply no_panic_bind; [apply no_panic_ensure|done].
  - unfold cancel_outgoing. apply no_panic_bind; [done|]. intros r d1 [-> ->]%get_value_Ok.
    apply no_panic_bind; [apply no_panic_ok_or|]. intros a d1 [Ha ->]%ok_or_Ok.
    destruct (account_contract a) as [c oc|c] eqn:Hc; [done|].
    apply no_panic_bind; [apply no_panic_ensure|]. intros [] d1 [_ ->]%ensure_Ok.
    apply no_panic_bind; [done|]. intros r d1 [-> ->]%get_value_Ok.
    apply no_panic_bind; [apply no_panic_expect; by exists a|]. intros a' d1 [Ha' ->]%expect_Ok.
    rewrite Ha in Ha'. injection Ha' as <-. rewrite Hc. apply no_panic_bind; [done|]. intros r d1 [_ ->]%insert_entry_Ok.
    apply no_panic_bind; [by apply no_panic_insert_new_entry|done].
Qed.

Lemma no_panic_item item peer d :
  ln1_inv d -> votes_inv all d -> item_from all item peer -> no_panic (ln1_process_consensus_item item peer) d.
Proof using Hnum Hone.
  intros Hd Hv Hfrom. destruct item as [cid share|count|v|]; simpl; [by apply no_panic_share| | |done].
  - apply no_panic_bind; [done|]. intros r d1 [-> ->]%get_value_Ok.
    apply no_panic_bind; [apply no_panic_ensure|]. intros [] d1 _.
    apply no_panic_bind; [apply no_panic_ensure|]. done.
  - apply no_panic_bind; [done|]. intros r d1 [-> ->]%get_value_Ok.
    apply no_panic_bind; [apply no_panic_ensure|]. intros [] d1 [_ ->]%ensure_Ok.
    apply no_panic_bind; [done|]. intros r d1 [_ ->]%insert_entry_Ok.
    set (d2 := upd ConsensusVersionVoteKey <[peer := v]> d).
    assert (votes_inv all d2) as Hv2.
    { destruct Hv as [H1 H2 H3], Hfrom as [Hp Hle]. split; [done| |by apply map_Forall_insert_2].
      simpl. rewrite dom_insert. clear -Hp H2. set_solver. }
    apply no_panic_bind; [done|]. intros x d3 [-> ->]%gets_Ok.
    apply no_panic_bind; [by apply no_panic_expect, version_Some|]. intros x d3 [Hx ->]%expect_Ok.
    apply no_panic_rassert, bool_decide_eq_true. by apply (version_vote_bounded (num_peers cfg) (version_votes d2) MODULE_CONSENSUS_VERSION x);
      [unfold version_le; simpl; lia|apply (versions_known all d2 Hv2)|].
Qed.

End federation.

(** ** Gateways *)

(** Removing keys one by one. *)
Lemma remove_gateways_run l d :
  for_each l (fun key => _ ← remove_entry LightningGatewayKey key; mret tt) d =
  (Ok tt : outcome LightningError unit, upd LightningGatewayKey (fun m => foldl (fun m k => delete k m) m l) d).
Proof using.
  revert d. induction l as [|k l IH]; intros d; simpl; [by destruct d|].
  rewrite (run_bind _ _ d tt (upd LightningGatewayKey (delete k) d)) by done. by rewrite IH.
Qed.

Lemma delete_expired_gateways_Ok now d u d' :
  delete_expired_gateways now d = (Ok u, d') ->
  d' = upd LightningGatewayKey (fun _ => gateways d') d /\
  gateways d' = filter (fun kv => is_expired now kv.2 = false) (gateways d).
Proof using.
  intros H. unfold delete_expired_gateways in H. apply bind_Ok in H as (l & d1 & [-> ->]%gets_Ok & H).
  rewrite remove_gateways_run in H. simplify_eq. split; [done|]. simpl. apply map_eq. intros k.
  set (l := (filter _ _).*1).
  rewrite foldl_delete_lookup. destruct (decide (k ∈ l)) as [Hin|Hin].
  - apply list_elem_of_fmap in Hin as ([k' r] & -> & [He Hk%elem_of_btree_iter]%list_elem_of_filter). simpl in *.
    symmetry. apply map_lookup_filter_None. right. intros r' Hr'. simpl. clear -Hk Hr' He. congruence.
  - apply option_eq. intros r. rewrite map_lookup_filter_Some. simpl. split; [|by intros [? _]]. intros Hr. split; [done|].
    destruct (is_expired now r) eqn:He; [|done]. exfalso. apply Hin, list_elem_of_fmap. exists (k, r). split; [done|].
    apply list_elem_of_filter. split; [done|]. by apply elem_of_btree_iter.
Qed.

(** The announcement carries a valid signature of the key it registers. *)
Definition signed (gw : Z) (info : LightningGateway) (auth : GatewayRegistrationAuth) : Prop :=
  verify_schnorr (auth_signature auth) (create_gateway_registration_message (fed_public_key cfg) (auth_nonce auth) info) gw = true.

(** Registrations are stored under their own key, are not vetted, demand no
    more than the payment, and every stored signature is one over what is
    stored with it. *)
Definition registration_ok (gw : Z) (r : LightningGatewayRegistration) : Prop :=
  gateway_id (reg_info r) = gw /\ reg_vetted r = false /\ proportional_millionths (reg_info r) <= 1000000 /\
  forall auth, reg_auth r = Some auth -> signed gw (reg_info r) auth.
Definition gateways_ok (d : LnDb) : Prop := map_Forall registration_ok (gateways d).

(** The announcement [a] may replace the live registration [r]. *)
Definition entitled (a : LightningGatewayAnnouncement) (r : option LightningGatewayRegistration) : Prop :=
  forall reg auth0, r = Some reg -> reg_auth reg = Some auth0 ->
    exists auth, an_auth a = Some auth /\ (auth_nonce auth0 < auth_nonce auth \/ an_info a = reg_info reg).

Lemma honor_existing_Ok a r d stored d' :
  honor_existing a r d = (Ok stored, d') ->
  d' = d /\ entitled a r /\ an_info stored = an_info a /\ an_ttl stored = an_ttl a /\
  (an_auth stored = an_auth a \/
   exists reg auth0, r = Some reg /\ reg_auth reg = Some auth0 /\ an_auth stored = Some auth0 /\ an_info a = reg_info reg) /\
  forall reg auth0, r = Some reg -> reg_auth reg = Some auth0 ->
    exists auth, an_auth stored = Some auth /\ auth_nonce auth0 <= auth_nonce auth.
Proof using.
  unfold honor_existing, entitled. destruct r as [reg|]; simpl; [|intros H; mrun; split_and!; [done|by intros ? ? [=]|done|done|by left|by intros ? ? [=]]].
  destruct (reg_auth reg) as [auth0|] eqn:Hr; [|intros H; mrun; split_and!; [done|intros ? ? [= <-]; by rewrite Hr|done|done|by left|intros ? ? [= <-]; by rewrite Hr]].
  intros H. apply bind_Ok in H as (auth & d1 & [Ha ->]%ok_or_Ok & H).
  apply bind_Ok in H as ([] & d1 & [Hb ->]%ensure_Ok & H). mrun.
  apply orb_true_iff in Hb. rewrite Z.ltb_lt, bool_decide_eq_true in Hb.
  split; [done|]. split; [intros reg1 a1 [= <-] H1; exists auth; split; [done|]; by simplify_eq|].
  destruct (auth_nonce auth <? auth_nonce auth0) eqn:Hlt; simpl.
  - apply Z.ltb_lt in Hlt. split; [done|]. split; [done|]. split.
    + right. exists reg, auth0. split_and!; try done. destruct Hb; [lia|done].
    + intros reg1 a1 [= <-] H1. exists auth0. split; [done|]. simplify_eq. lia.
  - apply Z.ltb_ge in Hlt. split; [done|]. split; [done|]. split; [by left|].
    intros reg1 a1 [= <-] H1. exists auth. simplify_eq. done.
Qed.

(** What a successful registration demands and stores. *)
Lemma register_gateway_Ok now a d u d' :
  register_gateway now a d = (Ok u, d') ->
  let gw := gateway_id (an_info a) in
  let live := filter (fun kv => is_expired now kv.2 = false) (gateways d) in
  proportional_millionths (an_info a) <= 1000000 /\ (forall auth, an_auth a = Some auth -> signed gw (an_info a) auth) /\
  exists stored, honor_existing a (live !! gw) d' = (Ok stored, d') /\
    gateways d' = <[gw := anchor now (unvetted stored)]> live.
Proof using.
  intros H gw live. unfold register_gateway in H.
  apply bind_Ok in H as ([] & d1 & [_ Hg]%delete_expired_gateways_Ok & H).
  apply bind_Ok in H as ([] & d2 & [Hf ->]%ensure_Ok & H). apply Z.leb_le in Hf.
  apply bind_Ok in H as ([] & d2 & Hs & H). fold gw in H.
  assert (d2 = d1 /\ forall auth, an_auth a = Some auth -> signed gw (an_info a) auth) as [-> Hsig].
  { destruct (an_auth a) as [auth|]; [|mrun; split; [done|intros; done]].
    apply ensure_Ok in Hs as [Hs ->]. split; [done|]. intros ? [= <-]. done. }
  apply bind_Ok in H as (r & d2 & [-> ->]%get_value_Ok & H). simpl in H. rewrite Hg in H. fold live in H.
  apply bind_Ok in H as (stored & d2 & Hh & H). pose proof Hh as Hh2.
  apply honor_existing_Ok in Hh as [-> _]. apply bind_Ok in H as (r' & d2 & [_ ->]%insert_entry_Ok & H). mrun.
  split; [done|]. split; [done|]. exists stored. split; [|simpl; by rewrite Hg].
  revert Hh2. unfold honor_existing. destruct (live !! gw) as [reg|]; simpl; [|by intros [= ->]].
  destruct (reg_auth reg) as [auth0|]; [|by intros [= ->]]. rewrite !bind_Ok.
  intros (auth & d3 & [Ha ->]%ok_or_Ok & Hx). apply bind_Ok in Hx as ([] & d3 & [Hb ->]%ensure_Ok & Hx).
  eexists auth, _. split; [by apply ok_or_Ok|]. apply bind_Ok. eexists tt, _. split; [by apply ensure_Ok|]. by injection Hx as ->.
Qed.

Lemma register_gateways_ok now a d d' :
  gateways_ok d -> register_gateway now a d = (Ok tt, d') -> gateways_ok d'.
Proof using.
  intros Hd H. apply register_gateway_Ok in H as (Hf & Hsig & stored & Hh & Hg).
  apply honor_existing_Ok in Hh as (_ & _ & Hi & _ & Hauth & _).
  intros gw r. rewrite Hg. intros [[<- <-]|[_ [Hr _]%map_lookup_filter_Some]]%lookup_insert_Some; [|by apply Hd].
  unfold registration_ok. simpl. rewrite Hi. split_and!; [done..|]. intros auth Ha.
  destruct Hauth as [Heq|(reg & auth0 & Hreg & Hra & Heq & Hinfo)].
  - apply Hsig. by rewrite <- Heq.
  - rewrite Ha in Heq. injection Heq as ->. apply map_lookup_filter_Some in Hreg as [Hreg _].
    destruct (Hd _ _ Hreg) as (_ & _ & _ & Hs). specialize (Hs auth0 Hra). by rewrite <- Hinfo in Hs.
Qed.

Lemma remove_gateway_Ok gw sigs d u d' :
  remove_gateway gw sigs d = (Ok u, d') ->
  d' = upd LightningGatewayKey (delete gw) d /\
  exists sig r, sigs !! our_peer_id cfg = Some sig /\ gateways d !! gw = Some r /\
    verify_schnorr sig (create_gateway_remove_message (fed_public_key cfg) (our_peer_id cfg)
      (sha256 (encode_public_key gw ++ encode_legacy_system_time (valid_until r)))) gw = true.
Proof using.
  intros H. unfold remove_gateway in H. apply bind_Ok in H as (sig & d1 & [Hs ->]%ok_or_Ok & H).
  apply bind_Ok in H as (ch & d1 & Hc & H). unfold get_gateway_remove_challenge in Hc.
  apply bind_Ok in Hc as (r & d2 & [-> ->]%get_value_Ok & Hc). mrun. dbrun.
  match goal with Hx : _ <$> gateways d !! gw = Some _ |- _ => apply fmap_Some in Hx as (r & Hr & ->) end.
  split; [done|]. by exists sig, r.
Qed.

Inductive gateway_op :=
| Register (now : Z) (a : LightningGatewayAnnouncement)
| Unregister (gw : Z) (signatures : gmap Z Z).

(** Requests served while the registration of [gw] is alive and not removed by
    its owner. *)
Inductive served (gw : Z) (d : LnDb) : list gateway_op -> LnDb -> Prop :=
| served_nil : served gw d [] d
| served_register ops d1 now a d2 :
    served gw d ops d1 -> (forall r, gateways d1 !! gw = Some r -> is_expired now r = false) ->
    register_gateway now a d1 = (Ok tt, d2) -> served gw d (ops ++ [Register now a]) d2
| served_remove ops d1 gw' signatures d2 :
    served gw d ops d1 -> gw' <> gw -> remove_gateway gw' signatures d1 = (Ok tt, d2) ->
    served gw d (ops ++ [Unregister gw' signatures]) d2.

Lemma register_gateway_keeps now a d d' gw r auth :
  gateways_ok d -> gateways d !! gw = Some r -> reg_auth r = Some auth -> is_expired now r = false ->
  register_gateway now a d = (Ok tt, d') ->
  exists r' auth', gateways d' !! gw = Some r' /\ reg_auth r' = Some auth' /\ auth_nonce auth <= auth_nonce auth' /\
    (reg_info r' = reg_info r \/ auth_nonce auth < auth_nonce auth').
Proof using.
  intros Hd Hr Ha He H. apply register_gateway_Ok in H as (_ & _ & stored & Hh & Hg). rewrite Hg.
  assert (Hlive : filter (fun kv => is_expired now kv.2 = false) (gateways d) !! gw = Some r)
    by (by apply map_lookup_filter_Some).
  destruct (decide (gateway_id (an_info a) = gw)) as [Hgw|Hne].
  - rewrite Hgw in Hh |- *. rewrite Hlive in Hh. rewrite lookup_insert_eq.
    apply honor_existing_Ok in Hh as (_ & Hent & Hi & _ & Hst & Hn).
    destruct (Hn r auth eq_refl Ha) as (auth' & Ha' & Hle). eexists _, auth'. split; [done|]. split; [done|]. split; [done|].
    simpl. rewrite Hi. destruct (Hent r auth eq_refl Ha) as (auth1 & Ha1 & [Hlt|Hinfo]); [|by left].
    destruct Hst as [Hst|(reg & auth0 & [= <-] & _ & _ & Hinfo)]; [|by left].
    right. rewrite Hst, Ha1 in Ha'. by injection Ha' as ->.
  - rewrite lookup_insert_ne by done. exists r, auth. split_and!; [done|done|lia|by left].
Qed.

(** A gateway that signs its registration keeps it: whatever requests a
    guardian serves while the registration is alive and not removed with the
    gateway's own signature, the guardian stores a registration signed by that
    gateway over exactly the stored settings, its nonce never falls, and the
    settings change only together with a larger signed nonce. *)
Theorem ln1_gateway_ratchet gw ops d d' r auth :
  gateways_ok d -> gateways d !! gw = Some r -> reg_auth r = Some auth -> served gw d ops d' ->
  exists r' auth', gateways d' !! gw = Some r' /\ reg_auth r' = Some auth' /\ registration_ok gw r' /\
    auth_nonce auth <= auth_nonce auth' /\ (reg_info r' = reg_info r \/ auth_nonce auth < auth_nonce auth').
Proof using.
  intros Hd Hr Ha H.
  assert (gateways_ok d' /\ exists r' auth', gateways d' !! gw = Some r' /\ reg_auth r' = Some auth' /\
    auth_nonce auth <= auth_nonce auth' /\ (reg_info r' = reg_info r \/ auth_nonce auth < auth_nonce auth')) as [Hd' (r' & auth' & Hr' & Ha' & Hle & Hinfo)].
  { induction H as [|ops d1 now a d2 H (Hd1 & r1 & auth1 & Hr1 & Ha1 & Hle1 & Hi1) Hlive Hop|ops d1 gw' sigs d2 H (Hd1 & r1 & auth1 & Hr1 & Ha1 & Hle1 & Hi1) Hne Hop].
    - split; [done|]. exists r, auth. split_and!; [done|done|lia|by left].
    - split; [by apply (register_gateways_ok now a d1)|].
      destruct (register_gateway_keeps now a d1 d2 gw r1 auth1 Hd1 Hr1 Ha1 (Hlive r1 Hr1) Hop) as (r2 & auth2 & Hr2 & Ha2 & Hle2 & Hi2).
      exists r2, auth2. split_and!; [done|done|lia|]. destruct Hi2 as [Hi2|Hlt2]; [|right; lia].
      destruct Hi1 as [Hi1|Hlt1]; [left; by rewrite Hi2|right; lia].
    - apply remove_gateway_Ok in Hop as [-> _]. split.
      + intros gw2 r2. simpl. intros [_ H2]%lookup_delete_Some. by apply Hd1.
      + exists r1, auth1. simpl. by rewrite lookup_delete_ne by done. }
  exists r', auth'. split; [done|]. split; [done|]. split; [by apply Hd'|done].
Qed.

(** ** Spending rules *)

(** Who may spend an account: an input of a contract is accepted exactly
    when the account holds the amount and the contract allows the key: the
    gateway with the preimage while the timelock runs, the user once it passed
    or the contract was cancelled, the holder of the decrypted preimage key, or
    the gateway when the sold preimage was invalid; it takes exactly the amount
    from the account. *)
Theorem ln1_spending_rules cid amount w p d a count pk :
  ln1_inv d -> 0 <= amount -> contracts d !! cid = Some a -> consensus_block_count d = Some count ->
  (exists meta d', ln1_process_input (LightningInputV0 cid amount w) p d = (Ok meta, d') /\ pub_key meta = pk /\
     Amounts.get (amounts (ServerModule.amount meta)) BITCOIN = amount /\ balance d' cid = account_amount a - amount) <->
  amount <= account_amount a /\ spendable count (account_contract a) w pk.
Proof using.
  intros Hd Hpos Ha Hcount. pose proof (account_u64 d Hd cid a Ha) as Hu. split.
  - intros (meta & d' & H & <- & _). apply ln1_input_Ok in H as (a1 & c1 & pk1 & Ha1 & Hle & Hc1 & Hs & -> & _).
    rewrite Ha in Ha1. injection Ha1 as <-. rewrite Hcount in Hc1. injection Hc1 as <-. done.
  - intros [Hle Hs]. eexists _, _. split; [apply ln1_input_Ok; exists a, count, pk; done|]. split; [done|]. split.
    + simpl. by rewrite Amounts.get_new_bitcoin, decide_True.
    + unfold balance, spent. simpl. rewrite lookup_insert_eq. simpl. unfold Amount.sub.
      apply wrap_u64_small. unfold is_u64 in *. lia.
Qed.
(** ** Running histories *)

Definition ln1_exec (ev : ln1_event) (d : LnDb) : option LnDb :=
  match ev with
  | PaidOut input p => match ln1_process_input input p d with (Ok _, d') => Some d' | _ => None end
  | PaidIn output o => match ln1_process_output output o d with (Ok _, d') => Some d' | _ => None end
  | Ordered item peer => match ln1_process_consensus_item item peer d with (Ok _, d') => Some d' | _ => None end
  end.
Definition ln1_run (d : LnDb) (evs : list ln1_event) : option LnDb := foldl (fun d ev => d ≫= ln1_exec ev) (Some d) evs.

Lemma ln1_exec_apply ev d d' : ln1_exec ev d = Some d' -> ln1_apply ev d d'.
Proof using.
  destruct ev as [input p|output o|item peer]; simpl.
  - destruct (ln1_process_input input p d) as [[m| |] d1]; intros [= <-]. by eexists.
  - destruct (ln1_process_output output o d) as [[m| |] d1]; intros [= <-]. by eexists.
  - destruct (ln1_process_consensus_item item peer d) as [[[]| |] d1]; by intros [= <-].
Qed.

Lemma ln1_run_history d evs d' : ln1_run d evs = Some d' -> ln1_history d evs d'.
Proof using.
  unfold ln1_run. revert d'. induction evs as [|ev evs IH] using rev_ind; intros d' H.
  - injection H as <-. constructor.
  - rewrite foldl_app in H. simpl in H. apply bind_Some in H as (d1 & H1 & H2).
    econstructor; [by apply IH|by apply ln1_exec_apply].
Qed.
End ln.

(** ** Routing fees *)

(** The proportional fee a gateway announces is charged in full and at most
    doubled: with at most one million millionths, the fee is at least the exact
    proportion of the payment and no more than twice that. *)
Theorem routing_fee_bounds base ppm payment :
  0 <= base -> 0 < ppm <= 1000000 -> 0 <= payment -> base + payment <= u64_max ->
  base + payment * ppm / 1000000 <= to_amount base ppm payment <= base + 2 * payment * ppm / 1000000.
Proof.
  intros Hb Hp Hpay Hmax. unfold to_amount. rewrite (proj2 (Z.eqb_neq ppm 0)) by lia. cbv zeta.
  set (k := 1000000 / ppm).
  assert (1 <= k /\ k * ppm <= 1000000 < (k + 1) * ppm) as (Hk1 & Hk2 & Hk3).
  { unfold k. pose proof (Z.div_mod 1000000 ppm). pose proof (Z.mod_pos_bound 1000000 ppm).
    split; [apply Z.div_le_lower_bound; lia|]. nia. }
  rewrite (proj2 (Z.eqb_neq k 0)) by lia.
  assert (payment * ppm / 1000000 <= payment / k) as H1.
  { apply Z.div_le_lower_bound; [lia|].
    pose proof (Z.mul_div_le (payment * ppm) 1000000). nia. }
  assert (payment / k <= 2 * payment * ppm / 1000000) as H2.
  { apply Z.div_le_lower_bound; [lia|]. pose proof (Z.mul_div_le payment k).
    assert (0 <= payment / k) by (apply Z.div_pos; lia). nia. }
  assert (payment / k <= payment) by (apply Z.div_le_upper_bound; nia).
  unfold saturating_add. lia.
Qed.

(** ** Instances for the witnesses *)
Module LnExample.
Definition cfg : Lightning :=
  {| contract_input_fee := 0; contract_output_fee := 0; num_peers := 4; key_threshold := 3;
     fed_public_key := 5; threshold_sec_key := 0; our_peer_id := 0 |}.
Definition sha (l : list Z) : Z := foldl (fun acc b => (acc * 31 + b) mod 1000003) 7 l.
Definition parse (l : list Z) : option Z := Some 44.
Definition enc (k : Z) : list Z := [k].
Definition schnorr (sig msg key : Z) : bool := sig =? msg + key.
Definition enc_info (i : LightningGateway) : list Z := [gateway_id i; proportional_millionths i; gateway_rest i].
Definition vct (ct : Z) : bool := 0 <? ct.
Definition share (sk ct : Z) : option Z := Some (sk + ct).
Definition vshare (p s ct : Z) : bool := s =? p + ct.
Definition dec (shares : list (Z * Z)) (ct : Z) : option (list Z) :=
  if (3 <=? length shares)%nat then Some (replicate 33 1) else None.

Abbreviation run := (ln1_run cfg sha parse enc schnorr enc Bolt.big_size vct share vshare dec).
Abbreviation history := (ln1_history cfg sha parse enc schnorr enc Bolt.big_size vct share vshare dec).
Abbreviation inv1 := (ln1_inv sha enc Bolt.big_size).

Definition o (i : Z) : OutPoint := {| txid := i; out_idx := 0 |}.
Definition p0 : InPoint := {| in_txid := 9; in_idx := 0 |}.
Definition hash : Z := sha (to_byte_array (sha (replicate 33 1))).
Definition incoming : IncomingContract :=
  {| in_hash := hash; encrypted_preimage := 12; decrypted_preimage := Pending; in_gateway_key := 1 |}.
Definition outgoing : OutgoingContract :=
  {| out_hash := sha [1; 2]; out_gateway_key := 1; timelock := 100; user_key := 2; cancelled := false |}.
Definition out_id : Z := outgoing_contract_id sha enc Bolt.big_size outgoing.
Definition offer : IncomingContractOffer :=
  {| offer_amount := 500; offer_hash := hash; offer_encrypted_preimage := 12; expiry_time := None |}.

Definition votes : list ln1_event :=
  [Ordered (ConsensusVersionVote MODULE_CONSENSUS_VERSION) 0;
   Ordered (ConsensusVersionVote MODULE_CONSENSUS_VERSION) 1;
   Ordered (ConsensusVersionVote MODULE_CONSENSUS_VERSION) 2; Ordered (BlockCount 50) 3].
Definition funded_both : list ln1_event :=
  [PaidIn (OutputOffer offer) (o 1); PaidIn (OutputContract 600 (Incoming incoming)) (o 2);
   PaidIn (OutputContract 1000 (Outgoing outgoing)) (o 3)].
Definition shares : list ln1_event :=
  [Ordered (DecryptPreimage hash 12) 0; Ordered (DecryptPreimage hash 13) 1; Ordered (DecryptPreimage hash 15) 3].
Definition spent_out : list ln1_event := [PaidOut (LightningInputV0 out_id 400 (Some [1; 2])) p0].

Definition dvotes : LnDb := Eval vm_compute in default LnDb_empty (run LnDb_empty votes).
Definition dfunded : LnDb := Eval vm_compute in default LnDb_empty (run dvotes funded_both).
Definition dshares : LnDb := Eval vm_compute in default LnDb_empty (run dfunded shares).
Definition dspent : LnDb := Eval vm_compute in default LnDb_empty (run LnDb_empty (votes ++ funded_both ++ spent_out)).

Lemma history_votes : history LnDb_empty votes dvotes.
Proof. apply ln1_run_history. vm_compute. reflexivity. Qed.
Lemma history_funded : history dvotes funded_both dfunded.
Proof. apply ln1_run_history. vm_compute. reflexivity. Qed.
Lemma history_all_funded : history LnDb_empty (votes ++ funded_both) dfunded.
Proof. apply ln1_run_history. vm_compute. reflexivity. Qed.
Lemma history_shares : history dfunded shares dshares.
Proof. apply ln1_run_history. vm_compute. reflexivity. Qed.
Lemma history_spent : history LnDb_empty (votes ++ funded_both ++ spent_out) dspent.
Proof. apply ln1_run_history. vm_compute. reflexivity. Qed.

Lemma cfg_peers : 1 <= num_peers cfg.
Proof. simpl. lia. Qed.
Lemma cfg_fee : is_u64 (contract_output_fee cfg).
Proof. unfold is_u64, u64_max. simpl. lia. Qed.

Ltac events := repeat (apply Forall_cons; split); try apply Forall_nil; simpl; unfold is_u64, u64_max; try done; try lia.
Lemma funded_ok : Forall ln1_event_ok funded_both.
Proof. unfold funded_both. events. Qed.
Lemma all_funded_ok : Forall ln1_event_ok (votes ++ funded_both).
Proof. unfold votes, funded_both. simpl. events. Qed.

Lemma dvotes_inv : inv1 dvotes.
Proof. eapply ln1_history_inv; [apply cfg_peers|apply cfg_fee|apply ln1_inv_empty| |apply history_votes]. unfold votes. events. Qed.
Lemma dfunded_inv : inv1 dfunded.
Proof. eapply ln1_history_inv; [apply cfg_peers|apply cfg_fee|apply dvotes_inv|apply funded_ok|apply history_funded]. Qed.

Lemma ln1_escrow_witness : balance dspent out_id + 400 = 1000.
Proof.
  destruct (ln1_escrow cfg sha parse enc schnorr enc Bolt.big_size vct share vshare dec (votes ++ funded_both ++ spent_out) dspent out_id) as [H _].
  - apply cfg_peers.
  - apply cfg_fee.
  - unfold votes, funded_both, spent_out. simpl. events.
  - apply history_spent.
  - vm_compute. discriminate.
  - vm_compute in H |- *. exact H.
Defined.

Lemma ln1_funded_once_witness : funded_once cfg dfunded /\ has_account dfunded hash = 1.
Proof.
  destruct (ln1_funded_once cfg sha parse enc schnorr enc Bolt.big_size vct share vshare dec funded_both dvotes dfunded) as (H1 & H2 & _).
  - apply cfg_peers.
  - apply cfg_fee.
  - apply dvotes_inv.
  - apply funded_ok.
  - apply history_funded.
  - vm_compute. discriminate.
  - split; [exact H1|]. rewrite <- H2. vm_compute. reflexivity.
Defined.

Definition account : ContractAccount := {| account_amount := 600; account_contract := FundedIncoming incoming (o 2) |}.

Lemma ln1_contract_final_witness :
  exists a', contracts dshares !! hash = Some a' /\ evolves sha parse (account_contract account) (account_contract a').
Proof.
  apply (ln1_contract_final cfg sha parse enc schnorr enc Bolt.big_size vct share vshare dec shares dfunded dshares hash account).
  - apply cfg_peers.
  - apply cfg_fee.
  - apply dfunded_inv.
  - unfold shares. events.
  - apply history_shares.
  - vm_compute. reflexivity.
Defined.

Lemma ln1_decryption_threshold_witness : exists peers, 3 <= Z.of_nat (size peers) /\ shares_in vshare shares hash incoming peers.
Proof.
  apply (ln1_decryption_threshold cfg sha parse enc schnorr enc Bolt.big_size vct share vshare dec shares dfunded dshares hash account incoming (o 2)
    {| account_amount := 600; account_contract := FundedIncoming (with_preimage (DecryptedSome (replicate 33 1)) incoming) (o 2) |}
    (with_preimage (DecryptedSome (replicate 33 1)) incoming) (o 2)).
  - simpl. lia.
  - apply history_shares.
  - vm_compute. reflexivity.
  - reflexivity.
  - reflexivity.
  - vm_compute. reflexivity.
  - vm_compute. reflexivity.
  - reflexivity.
  - discriminate.
Defined.

Lemma dec_total : decrypt_total cfg vshare dec.
Proof. intros l ct Hl _ _. unfold dec. simpl in Hl. destruct (3 <=? length l)%nat eqn:H; [by eexists|]. apply Nat.leb_gt in H. lia. Qed.

Lemma ln1_decryption_completes_witness :
  is_decided (foldl (submit_share cfg sha parse vshare dec hash) dfunded [(3, 15); (1, 13); (2, 14)]) hash (o 2).
Proof.
  apply (ln1_decryption_completes cfg sha parse enc schnorr enc Bolt.big_size vct share vshare dec (votes ++ funded_both) dfunded hash account incoming (o 2)).
  - apply dec_total.
  - apply cfg_peers.
  - apply cfg_fee.
  - simpl. lia.
  - apply all_funded_ok.
  - apply history_all_funded.
  - vm_compute. reflexivity.
  - reflexivity.
  - apply (bool_decide_unpack _). vm_compute. exact I.
  - simpl. lia.
  - repeat constructor.
Defined.

Definition peers : gset Z := {[ 0; 1; 2; 3 ]}.

Definition info (rest : Z) : LightningGateway := {| gateway_id := 8; proportional_millionths := 100; gateway_rest := rest |}.
Definition signed_ann (rest nonce : Z) : LightningGatewayAnnouncement :=
  {| an_info := info rest; an_vetted := true; an_ttl := 1000;
     an_auth := Some {| auth_nonce := nonce; auth_signature := create_gateway_registration_message sha enc enc_info Bolt.big_size 5 nonce (info rest) + 8 |} |}.
Abbreviation register := (register_gateway cfg sha schnorr enc enc_info Bolt.big_size).
Definition dreg : LnDb := Eval vm_compute in (register 0 (signed_ann 1 10) LnDb_empty).2.
Definition dreg2 : LnDb := Eval vm_compute in (register 500 (signed_ann 2 11) dreg).2.

Lemma ln1_gateway_ratchet_witness :
  exists r' auth', gateways dreg2 !! 8 = Some r' /\ reg_auth r' = Some auth' /\ registration_ok cfg sha schnorr enc enc_info Bolt.big_size 8 r' /\
    10 <= auth_nonce auth' /\ (reg_info r' = info 1 \/ 10 < auth_nonce auth').
Proof.
  apply (ln1_gateway_ratchet cfg sha enc schnorr enc enc_info Bolt.big_size 8 [Register 500 (signed_ann 2 11)] dreg dreg2
    (anchor 0 (unvetted (signed_ann 1 10))) {| auth_nonce := 10; auth_signature := create_gateway_registration_message sha enc enc_info Bolt.big_size 5 10 (info 1) + 8 |}).
  - apply (register_gateways_ok cfg sha schnorr enc enc_info Bolt.big_size 0 (signed_ann 1 10) LnDb_empty dreg); [apply map_Forall_empty|vm_compute; reflexivity].
  - vm_compute. reflexivity.
  - reflexivity.
  - apply (served_register _ _ _ _ _ _ _ _ _ [] dreg); [constructor| |vm_compute; reflexivity].
    intros r Hr. vm_compute in Hr. injection Hr as <-. reflexivity.
Defined.

Lemma ln1_spending_rules_witness :
  exists meta d', ln1_process_input cfg sha parse enc Bolt.big_size (LightningInputV0 out_id 400 (Some [1; 2])) p0 dfunded = (Ok meta, d') /\
    pub_key meta = 1 /\ Amounts.get (amounts (ServerModule.amount meta)) BITCOIN = 400 /\ balance d' out_id = 1000 - 400.
Proof.
  apply (ln1_spending_rules cfg sha parse enc Bolt.big_size out_id 400 (Some [1; 2]) p0 dfunded {| account_amount := 1000; account_contract := FundedOutgoing outgoing |} 0 1).
  - apply dfunded_inv.
  - lia.
  - vm_compute. reflexivity.
  - vm_compute. reflexivity.
  - split; [simpl; lia|]. simpl. exists [1; 2]. split_and!; reflexivity.
Defined.

Lemma routing_fee_bounds_witness : 3000 <= to_amount 0 3000 1000000 <= 6000.
Proof. apply (routing_fee_bounds 0 3000 1000000); unfold u64_max; lia. Defined.
End LnExample.
