(* ===== verification/Lnv2Server.v ===== *)
(** * The lightning v2 module of a guardian

    [modules/fedimint-lnv2-server/src/lib.rs] with its tables in [db.rs], and
    the contracts of [modules/fedimint-lnv2-common/src/contracts.rs].  Keys,
    hashes, ciphertexts and key shares are opaque integers; the threshold
    encryption scheme, hashing and schnorr signatures are parameters. *)

From S2P Require Import Prelude Db Amounts Peers Votes ServerModule.

(** ** Contracts *)

Inductive PaymentImage := Hash (h : Z) | Point (pk : Z).

Record Commitment := {
  payment_image : PaymentImage;
  commitment_amount : Z;
  expiration_or_fee : Z;
  claim_pk : Z;
  refund_pk : Z;
  ephemeral_pk : Z;
}.
Record IncomingContract := { commitment : Commitment; ciphertext : Z }.

Record OutgoingContract := {
  out_payment_image : PaymentImage;
  out_amount : Z;
  expiration : Z;
  out_claim_pk : Z;
  out_refund_pk : Z;
  out_ephemeral_pk : Z;
}.

(** Lnurl receives store the gateway fee in the expiration. *)
Definition fee_encoded_expiration (fee_msats : Z) : Z := wrap_u64 (u64_max - fee_msats).
Definition fee_from_expiration (expiration : Z) : Z := wrap_u64 (u64_max - expiration).

Inductive OutgoingWitness := Claim (preimage : Z) | Refund | Cancel (signature : Z).

Inductive LightningInput :=
| InputOutgoing (o : OutPoint) (w : OutgoingWitness)
| InputIncoming (o : OutPoint) (agg_decryption_key : Z)
| LightningInputDefault (variant : Z) (bytes : list Z).

Inductive LightningOutput :=
| OutputOutgoing (c : OutgoingContract)
| OutputIncoming (c : IncomingContract)
| LightningOutputDefault (variant : Z) (bytes : list Z).

Inductive LightningConsensusItem :=
| BlockCountVote (vote : Z)
| UnixTimeVote (vote : Z)
| LightningItemDefault (variant : Z) (bytes : list Z).

Inductive LightningError :=
| UnknownInputVariant (variant : Z)
| UnknownContract
| InvalidPreimage
| Expired
| NotExpired
| InvalidDecryptionKey
| InvalidForfeitSignature
| UnknownOutputVariant (variant : Z)
| InvalidContract
| ContractExpired
| RedundantVote
| UnknownItemVariant (variant : Z).

(** ** Database *)

Record LnDb := {
  block_count_votes : gmap Z Z;
  unix_time_votes : gmap Z Z;
  incoming : gmap OutPoint IncomingContract;
  incoming_outpoints : gmap Z OutPoint;
  outgoing : gmap OutPoint OutgoingContract;
  dk_shares : gmap OutPoint Z;
  preimages : gmap OutPoint Z;
  gateways : gmap Z unit;
  stream_index : gmap unit Z;
  stream : gmap Z IncomingContract;
  incoming_index : gmap OutPoint Z;
}.

Definition LnDb_empty : LnDb :=
  {| block_count_votes := ∅; unix_time_votes := ∅; incoming := ∅; incoming_outpoints := ∅;
     outgoing := ∅; dk_shares := ∅; preimages := ∅; gateways := ∅; stream_index := ∅;
     stream := ∅; incoming_index := ∅ |}.

Definition BlockCountVoteKey : table LnDb Z Z := Table block_count_votes (fun f s =>
  {| block_count_votes := f (block_count_votes s); unix_time_votes := unix_time_votes s; incoming :=
     incoming s; incoming_outpoints := incoming_outpoints s; outgoing := outgoing s; dk_shares :=
     dk_shares s; preimages := preimages s; gateways := gateways s; stream_index := stream_index s;
     stream := stream s; incoming_index := incoming_index s |}).
Definition UnixTimeVoteKey : table LnDb Z Z := Table unix_time_votes (fun f s =>
  {| block_count_votes := block_count_votes s; unix_time_votes := f (unix_time_votes s); incoming :=
     incoming s; incoming_outpoints := incoming_outpoints s; outgoing := outgoing s; dk_shares :=
     dk_shares s; preimages := preimages s; gateways := gateways s; stream_index := stream_index s;
     stream := stream s; incoming_index := incoming_index s |}).
Definition IncomingContractKey : table LnDb OutPoint IncomingContract := Table incoming (fun f s =>
  {| block_count_votes := block_count_votes s; unix_time_votes := unix_time_votes s; incoming := f
     (incoming s); incoming_outpoints := incoming_outpoints s; outgoing := outgoing s; dk_shares :=
     dk_shares s; preimages := preimages s; gateways := gateways s; stream_index := stream_index s;
     stream := stream s; incoming_index := incoming_index s |}).
Definition IncomingContractOutpointKey : table LnDb Z OutPoint := Table incoming_outpoints (fun f s =>
  {| block_count_votes := block_count_votes s; unix_time_votes := unix_time_votes s; incoming :=
     incoming s; incoming_outpoints := f (incoming_outpoints s); outgoing := outgoing s; dk_shares
     := dk_shares s; preimages := preimages s; gateways := gateways s; stream_index := stream_index
     s; stream := stream s; incoming_index := incoming_index s |}).
Definition OutgoingContractKey : table LnDb OutPoint OutgoingContract := Table outgoing (fun f s =>
  {| block_count_votes := block_count_votes s; unix_time_votes := unix_time_votes s; incoming :=
     incoming s; incoming_outpoints := incoming_outpoints s; outgoing := f (outgoing s); dk_shares
     := dk_shares s; preimages := preimages s; gateways := gateways s; stream_index := stream_index
     s; stream := stream s; incoming_index := incoming_index s |}).
Definition DecryptionKeyShareKey : table LnDb OutPoint Z := Table dk_shares (fun f s =>
  {| block_count_votes := block_count_votes s; unix_time_votes := unix_time_votes s; incoming :=
     incoming s; incoming_outpoints := incoming_outpoints s; outgoing := outgoing s; dk_shares := f
     (dk_shares s); preimages := preimages s; gateways := gateways s; stream_index := stream_index
     s; stream := stream s; incoming_index := incoming_index s |}).
Definition PreimageKey : table LnDb OutPoint Z := Table preimages (fun f s =>
  {| block_count_votes := block_count_votes s; unix_time_votes := unix_time_votes s; incoming :=
     incoming s; incoming_outpoints := incoming_outpoints s; outgoing := outgoing s; dk_shares :=
     dk_shares s; preimages := f (preimages s); gateways := gateways s; stream_index := stream_index
     s; stream := stream s; incoming_index := incoming_index s |}).
Definition GatewayKey : table LnDb Z unit := Table gateways (fun f s =>
  {| block_count_votes := block_count_votes s; unix_time_votes := unix_time_votes s; incoming :=
     incoming s; incoming_outpoints := incoming_outpoints s; outgoing := outgoing s; dk_shares :=
     dk_shares s; preimages := preimages s; gateways := f (gateways s); stream_index := stream_index
     s; stream := stream s; incoming_index := incoming_index s |}).
Definition IncomingContractStreamIndexKey : table LnDb unit Z := Table stream_index (fun f s =>
  {| block_count_votes := block_count_votes s; unix_time_votes := unix_time_votes s; incoming :=
     incoming s; incoming_outpoints := incoming_outpoints s; outgoing := outgoing s; dk_shares :=
     dk_shares s; preimages := preimages s; gateways := gateways s; stream_index := f (stream_index
     s); stream := stream s; incoming_index := incoming_index s |}).
Definition IncomingContractStreamKey : table LnDb Z IncomingContract := Table stream (fun f s =>
  {| block_count_votes := block_count_votes s; unix_time_votes := unix_time_votes s; incoming :=
     incoming s; incoming_outpoints := incoming_outpoints s; outgoing := outgoing s; dk_shares :=
     dk_shares s; preimages := preimages s; gateways := gateways s; stream_index := stream_index s;
     stream := f (stream s); incoming_index := incoming_index s |}).
Definition IncomingContractIndexKey : table LnDb OutPoint Z := Table incoming_index (fun f s =>
  {| block_count_votes := block_count_votes s; unix_time_votes := unix_time_votes s; incoming :=
     incoming s; incoming_outpoints := incoming_outpoints s; outgoing := outgoing s; dk_shares :=
     dk_shares s; preimages := preimages s; gateways := gateways s; stream_index := stream_index s;
     stream := stream s; incoming_index := f (incoming_index s) |}).

(** [num_peers] is the number of peers with a key share. *)
Record Lightning := { fee_consensus : Fee.FeeConsensus; num_peers : Z; tpe_agg_pk : Z; sk : Z }.

(** ** Operations *)
Section lnv2.
Context (cfg : Lightning).

(** [consensus_hash] of a preimage, [SecretKey::from_slice] with its public
    key, schnorr verification (signature, message, key), the [consensus_hash]
    of contracts and commitments. *)
Context (preimage_hash : Z -> Z) (secret_public_key : Z -> option Z).
Context (verify_schnorr : Z -> Z -> Z -> bool).
Context (incoming_contract_hash : IncomingContract -> Z) (outgoing_contract_hash : OutgoingContract -> Z).
Context (commitment_hash : Commitment -> Z).

(** Threshold encryption: [verify_ciphertext], [verify_agg_dk],
    [decrypt_preimage] and [create_dk_share]. *)
Context (verify_ciphertext : Z -> Z -> bool) (verify_agg_dk : Z -> Z -> Z -> Z -> bool).
Context (tpe_decrypt_preimage : Z -> Z -> Z) (create_dk_share : Z -> Z -> Z).

Abbreviation ML := (M LnDb LightningError).

Definition verify_preimage (image : PaymentImage) (preimage : Z) : bool :=
  match image with
  | Hash h => preimage_hash preimage =? h
  | Point pk => match secret_public_key preimage with Some pk' => pk' =? pk | None => false end
  end.

Definition incoming_verify (c : IncomingContract) : bool :=
  verify_ciphertext (ciphertext c) (commitment_hash (commitment c)).

Definition verify_agg_decryption_key (c : IncomingContract) (agg_pk key : Z) : bool :=
  verify_agg_dk agg_pk key (ciphertext c) (commitment_hash (commitment c)).

Definition decrypt_preimage (c : IncomingContract) (key : Z) : option Z :=
  let preimage := tpe_decrypt_preimage (ciphertext c) key in
  if verify_preimage (payment_image (commitment c)) preimage then Some preimage else None.

Definition verify_forfeit_signature (c : OutgoingContract) (signature : Z) : bool :=
  verify_schnorr signature (outgoing_contract_hash c) (out_claim_pk c).

(** A gateway answers with a preimage or a forfeit signature. *)
Definition verify_gateway_response (c : OutgoingContract) (response : Z + Z) : bool :=
  match response with
  | inl preimage => verify_preimage (out_payment_image c) preimage
  | inr signature => verify_forfeit_signature c signature
  end.

(** The assertions that the sorted list is sorted are left out. *)
Definition consensus_block_count (d : LnDb) : Z :=
  threshold_vote (num_peers cfg) (votes_of (block_count_votes d)).
Definition consensus_unix_time (d : LnDb) : Z :=
  threshold_vote (num_peers cfg) (votes_of (unix_time_votes d)).

(** [secs] is the clock and [block_count] what the bitcoin backend reports. *)
Definition consensus_proposal (secs : Z) (block_count : option Z) : list LightningConsensusItem :=
  UnixTimeVote (60 * (secs / 60)) ::
  match block_count with Some c => [BlockCountVote c] | None => [] end.

Definition ln_process_consensus_item (item : LightningConsensusItem) (peer : Z) : ML unit :=
  match item with
  | BlockCountVote vote =>
      prev ← insert_entry BlockCountVoteKey peer vote;
      ensure (default 0 prev <? vote) RedundantVote
  | UnixTimeVote vote =>
      prev ← insert_entry UnixTimeVoteKey peer vote;
      ensure (default 0 prev <? vote) RedundantVote
  | LightningItemDefault variant _ => throw (UnknownItemVariant variant)
  end.

(** The key that may spend an outgoing contract with the given witness. *)
Definition settle_outgoing (o : OutPoint) (c : OutgoingContract) (w : OutgoingWitness) : ML Z :=
  match w with
  | Claim preimage =>
      count ← gets consensus_block_count;
      _ ← ensure (negb (expiration c <=? count)) Expired;
      _ ← ensure (verify_preimage (out_payment_image c) preimage) InvalidPreimage;
      _ ← insert_entry PreimageKey o preimage;
      mret (out_claim_pk c)
  | Refund =>
      count ← gets consensus_block_count;
      _ ← ensure (negb (count <? expiration c)) NotExpired;
      mret (out_refund_pk c)
  | Cancel forfeit_signature =>
      _ ← ensure (verify_forfeit_signature c forfeit_signature) InvalidForfeitSignature;
      mret (out_refund_pk c)
  end.

Definition process_lightning_input (input : LightningInput) : ML (Z * Z) :=
  match input with
  | InputOutgoing o w =>
      removed ← remove_entry OutgoingContractKey o;
      contract ← ok_or removed UnknownContract;
      pub_key ← settle_outgoing o contract w;
      mret (pub_key, out_amount contract)
  | InputIncoming o key =>
      removed ← remove_entry IncomingContractKey o;
      contract ← ok_or removed UnknownContract;
      index ← remove_entry IncomingContractIndexKey o;
      index ← expect index;
      _ ← remove_entry IncomingContractStreamKey index;
      _ ← ensure (verify_agg_decryption_key contract (tpe_agg_pk cfg) key) InvalidDecryptionKey;
      mret (match decrypt_preimage contract key with
            | Some _ => claim_pk (commitment contract)
            | None => refund_pk (commitment contract)
            end, commitment_amount (commitment contract))
  | LightningInputDefault variant _ => throw (UnknownInputVariant variant)
  end.

Definition ln_process_input (input : LightningInput) (in_point : InPoint) : ML InputMeta :=
  r ← process_lightning_input input;
  fee ← expect (Fee.fee (fee_consensus cfg) r.2);
  mret {| ServerModule.amount := {| amounts := Amounts.new_bitcoin r.2; fees := Amounts.new_bitcoin fee |};
          pub_key := r.1 |}.

Definition process_lightning_output (output : LightningOutput) (o : OutPoint) : ML Z :=
  match output with
  | OutputOutgoing contract =>
      _ ← insert_new_entry OutgoingContractKey o contract;
      mret (out_amount contract)
  | OutputIncoming contract =>
      _ ← ensure (incoming_verify contract) InvalidContract;
      now ← gets consensus_unix_time;
      _ ← ensure (negb (expiration_or_fee (commitment contract) <=? now)) ContractExpired;
      _ ← insert_new_entry IncomingContractKey o contract;
      _ ← insert_entry IncomingContractOutpointKey (incoming_contract_hash contract) o;
      index ← get_value IncomingContractStreamIndexKey tt;
      _ ← insert_entry IncomingContractStreamKey (default 0 index) contract;
      _ ← insert_entry IncomingContractIndexKey o (default 0 index);
      _ ← insert_entry IncomingContractStreamIndexKey tt (wrap_u64 (default 0 index + 1));
      _ ← insert_entry DecryptionKeyShareKey o (create_dk_share (sk cfg) (ciphertext contract));
      mret (commitment_amount (commitment contract))
  | LightningOutputDefault variant _ => throw (UnknownOutputVariant variant)
  end.

Definition ln_process_output (output : LightningOutput) (o : OutPoint) : ML TransactionItemAmounts :=
  amount ← process_lightning_output output o;
  fee ← expect (Fee.fee (fee_consensus cfg) amount);
  mret {| amounts := Amounts.new_bitcoin amount; fees := Amounts.new_bitcoin fee |}.

Definition ln_audit : ML (list Z) :=
  out ← find_all OutgoingContractKey;
  inc ← find_all IncomingContractKey;
  mret (((fun kv => liability (out_amount kv.2)) <$> out) ++
        ((fun kv => liability (commitment_amount (commitment kv.2))) <$> inc)).

Definition lnv2_module : ServerModule LnDb LightningInput LightningOutput LightningConsensusItem LightningError := {|
  verify_input := fun _ => Ok tt;
  verify_input_submission := fun _ => mret tt;
  process_input := ln_process_input;
  verify_output_submission := fun _ _ => mret tt;
  process_output := ln_process_output;
  process_consensus_item := ln_process_consensus_item;
  audit := ln_audit;
|}.

(** ** Client-facing queries *)

(** One iteration of the loop of [await_incoming_contract]: [Some r] returns
    [r], [None] keeps waiting. *)
Definition await_incoming_contract (d : LnDb) (contract_id expiration : Z) : option (option OutPoint) :=
  match incoming_outpoints d !! contract_id with
  | Some o => Some (Some o)
  | None => if expiration <=? consensus_unix_time d then Some None else None
  end.

Definition await_preimage (d : LnDb) (o : OutPoint) (expiration : Z) : option (option Z) :=
  match preimages d !! o with
  | Some p => Some (Some p)
  | None => if expiration <=? consensus_block_count d then Some None else None
  end.

Definition outgoing_contract_expiration (d : LnDb) (o : OutPoint) : option (Z * Z) :=
  contract ← outgoing d !! o;
  Some (outgoing_contract_hash contract, saturating_sub (expiration contract) (consensus_block_count d)).

(** [None] waits until the stream index passes [start]. *)
Definition await_incoming_contracts (d : LnDb) (start : Z) (n : nat) : option (list IncomingContract * Z) :=
  match stream_index d !! tt with
  | Some next_index =>
      if start <? next_index then
        let entries := take n (range_scan start u64_max (stream d)) in
        Some (entries.*2, foldl (fun _ kv => wrap_u64 (kv.1 + 1)) next_index entries)
      else None
  | None => None
  end.

Definition add_gateway (url : Z) : ML bool :=
  prev ← insert_entry GatewayKey url tt; mret (match prev with None => true | Some _ => false end).
Definition remove_gateway (url : Z) : ML bool :=
  prev ← remove_entry GatewayKey url; mret (match prev with None => false | Some _ => true end).
Definition list_gateways : ML (list Z) := entries ← find_all GatewayKey; mret entries.*1.

(** ** Settling contracts *)

(** The key a witness unlocks an outgoing contract for, and when. *)
Definition outgoing_spendable (d : LnDb) (c : OutgoingContract) (w : OutgoingWitness) (pk : Z) : Prop :=
  match w with
  | Claim preimage =>
      consensus_block_count d < expiration c /\
      verify_preimage (out_payment_image c) preimage = true /\ pk = out_claim_pk c
  | Refund => expiration c <= consensus_block_count d /\ pk = out_refund_pk c
  | Cancel signature => verify_forfeit_signature c signature = true /\ pk = out_refund_pk c
  end.

(** The database once an outgoing contract is settled. *)
Definition outgoing_settled (o : OutPoint) (w : OutgoingWitness) (d : LnDb) : LnDb :=
  match w with
  | Claim preimage => upd PreimageKey <[o := preimage]> (upd OutgoingContractKey (delete o) d)
  | Refund | Cancel _ => upd OutgoingContractKey (delete o) d
  end.

Definition incoming_settled (o : OutPoint) (index : Z) (d : LnDb) : LnDb :=
  upd IncomingContractStreamKey (delete index)
    (upd IncomingContractIndexKey (delete o) (upd IncomingContractKey (delete o) d)).

(** The key an aggregate decryption key unlocks an incoming contract for. *)
Definition incoming_pub_key (c : IncomingContract) (key : Z) : Z :=
  match decrypt_preimage c key with
  | Some _ => claim_pk (commitment c)
  | None => refund_pk (commitment c)
  end.

Lemma settle_outgoing_Ok o c w d pk d' :
  settle_outgoing o c w d = (Ok pk, d') <->
  outgoing_spendable d c w pk /\
  d' = match w with Claim preimage => upd PreimageKey <[o := preimage]> d | _ => d end.
Proof.
  clear. destruct w as [preimage| |sig]; unfold settle_outgoing, outgoing_spendable; split.
  - intros H. dbrun. rewrite negb_true_iff, Z.leb_gt in *. done.
  - intros [(Hc & Hp & ->) ->]. unfold gets, ensure, insert_entry, mbind, M_bind. simpl.
    destruct (expiration c <=? _) eqn:He; [lia|]. simpl. by rewrite Hp.
  - intros H. dbrun. rewrite negb_true_iff, Z.ltb_ge in *. done.
  - intros [[Hc ->] ->]. unfold gets, ensure, mbind, M_bind. simpl.
    destruct (_ <? expiration c) eqn:He; [lia|done].
  - intros H. dbrun. done.
  - intros [[Hc ->] ->]. unfold ensure, mbind, M_bind. by rewrite Hc.
Qed.

(** Spending an outgoing contract, in one equivalence. *)
Lemma process_outgoing_Ok o w d pk amount d' :
  process_lightning_input (InputOutgoing o w) d = (Ok (pk, amount), d') <->
  exists c, outgoing d !! o = Some c /\ amount = out_amount c /\ outgoing_spendable d c w pk /\
    d' = outgoing_settled o w d.
Proof.
  simpl. split.
  - intros H. apply bind_Ok in H as (r & d1 & [-> ->]%remove_entry_Ok & H).
    apply bind_Ok in H as (c & d2 & [Hc ->]%ok_or_Ok & H).
    apply bind_Ok in H as (pk' & d3 & [Hs ->]%settle_outgoing_Ok & H). mrun.
    exists c. split_and!; [done|done|by destruct w|by destruct w].
  - intros (c & Hc & -> & Hs & ->). apply bind_Ok. eexists _, _. split; [by apply remove_entry_Ok|].
    apply bind_Ok. exists c. eexists. split; [by apply ok_or_Ok|]. apply bind_Ok. exists pk.
    eexists. split; [apply settle_outgoing_Ok; split; [by destruct w|done]|]. by destruct w.
Qed.

Lemma process_incoming_Ok o key d pk amount d' :
  process_lightning_input (InputIncoming o key) d = (Ok (pk, amount), d') <->
  exists c index, incoming d !! o = Some c /\ incoming_index d !! o = Some index /\
    verify_agg_decryption_key c (tpe_agg_pk cfg) key = true /\ pk = incoming_pub_key c key /\
    amount = commitment_amount (commitment c) /\ d' = incoming_settled o index d.
Proof.
  simpl. split.
  - intros H. dbrun. eexists _, _. split_and!; done.
  - intros (c & index & Hc & Hi & Hv & -> & -> & ->). unfold remove_entry, ok_or, mbind, M_bind.
    simpl. rewrite Hc. simpl. rewrite Hi. simpl. unfold ensure. by rewrite Hv.
Qed.

(** The database once a contract is funded. *)
Definition incoming_funded (o : OutPoint) (c : IncomingContract) (d : LnDb) : LnDb :=
  let index := default 0 (stream_index d !! tt) in
  upd DecryptionKeyShareKey <[o := create_dk_share (sk cfg) (ciphertext c)]>
    (upd IncomingContractStreamIndexKey <[tt := wrap_u64 (index + 1)]>
      (upd IncomingContractIndexKey <[o := index]>
        (upd IncomingContractStreamKey <[index := c]>
          (upd IncomingContractOutpointKey <[incoming_contract_hash c := o]>
            (upd IncomingContractKey <[o := c]> d))))).

Lemma process_output_outgoing_Ok c o d amount d' :
  process_lightning_output (OutputOutgoing c) o d = (Ok amount, d') <->
  outgoing d !! o = None /\ amount = out_amount c /\ d' = upd OutgoingContractKey <[o := c]> d.
Proof.
  simpl. split.
  - intros H. dbrun. done.
  - intros (Ho & -> & ->). apply bind_Ok. exists tt. eexists. split; [by apply insert_new_entry_Ok|done].
Qed.

Lemma process_output_incoming_Ok c o d amount d' :
  process_lightning_output (OutputIncoming c) o d = (Ok amount, d') <->
  incoming_verify c = true /\ consensus_unix_time d < expiration_or_fee (commitment c) /\
  incoming d !! o = None /\ amount = commitment_amount (commitment c) /\ d' = incoming_funded o c d.
Proof.
  simpl. split.
  - intros H. dbrun. rewrite negb_true_iff, Z.leb_gt in *. done.
  - intros (Hv & Ht & Ho & -> & ->). unfold ensure, mbind, M_bind. rewrite Hv. simpl.
    destruct (_ <=? _) eqn:He; [lia|]. simpl. unfold insert_new_entry, insert_entry, mbind, M_bind.
    simpl. by rewrite Ho.
Qed.

(** ** Invariant and balance sheet *)

Definition in_amount (c : IncomingContract) : Z := commitment_amount (commitment c).

Record ln_inv (d : LnDb) : Prop := {
  incoming_indexed o : is_Some (incoming d !! o) -> is_Some (incoming_index d !! o);
  outgoing_u64 : map_Forall (fun _ c => is_u64 (out_amount c)) (outgoing d);
  incoming_u64 : map_Forall (fun _ c => is_u64 (in_amount c)) (incoming d);
  votes_u64 : map_Forall (fun _ v => is_u64 v) (block_count_votes d) /\
              map_Forall (fun _ v => is_u64 v) (unix_time_votes d);
}.

Lemma ln_inv_empty : ln_inv LnDb_empty.
Proof. split; simpl; try apply map_Forall_empty; [intros o; rewrite lookup_empty; by intros []|by split; apply map_Forall_empty]. Qed.

Definition owed_outgoing (d : LnDb) : Z := sum_map (fun _ => out_amount) (outgoing d).
Definition owed_incoming (d : LnDb) : Z := sum_map (fun _ => in_amount) (incoming d).
Definition ln_net (d : LnDb) : Z := - (owed_outgoing d + owed_incoming d).
Definition ln_gross (d : LnDb) : Z := owed_outgoing d + owed_incoming d.

Lemma owed_nonneg d : ln_inv d -> 0 <= owed_outgoing d /\ 0 <= owed_incoming d.
Proof.
  intros Hd. split; apply sum_map_nonneg; intros o c Hc.
  - by apply (outgoing_u64 d Hd) in Hc as [? _].
  - by apply (incoming_u64 d Hd) in Hc as [? _].
Qed.

Lemma outgoing_settled_inv o w d : ln_inv d -> ln_inv (outgoing_settled o w d).
Proof.
  intros [H1 H2 H3 H4].
  destruct w; split; simpl; try done; by apply map_Forall_delete.
Qed.

Lemma incoming_settled_inv o index d : ln_inv d -> ln_inv (incoming_settled o index d).
Proof.
  intros [H1 H2 H3 H4]. split; simpl; [|done|by apply map_Forall_delete|done].
  intros o'. destruct (decide (o = o')) as [->|Hne].
  - rewrite lookup_delete_eq. by intros [].
  - rewrite !lookup_delete_ne by done. apply H1.
Qed.

Lemma incoming_funded_inv o c d : is_u64 (in_amount c) -> ln_inv d -> ln_inv (incoming_funded o c d).
Proof.
  intros Hc [H1 H2 H3 H4]. split; simpl; [|done|by apply map_Forall_insert_2|done].
  intros o'. destruct (decide (o = o')) as [->|Hne].
  - rewrite !lookup_insert_eq. by eexists.
  - rewrite !lookup_insert_ne by done. apply H1.
Qed.

Lemma outgoing_settled_net o w d c :
  outgoing d !! o = Some c -> ln_net (outgoing_settled o w d) = ln_net d + out_amount c.
Proof.
  intros Hc. unfold ln_net, owed_outgoing, owed_incoming.
  assert (outgoing (outgoing_settled o w d) = delete o (outgoing d) /\
          incoming (outgoing_settled o w d) = incoming d) as [-> ->] by by destruct w.
  rewrite (sum_map_delete _ _ _ _ Hc). lia.
Qed.

Lemma incoming_settled_net o index d c :
  incoming d !! o = Some c -> ln_net (incoming_settled o index d) = ln_net d + in_amount c.
Proof.
  intros Hc. unfold ln_net, owed_outgoing, owed_incoming. simpl. rewrite (sum_map_delete _ _ _ _ Hc). lia.
Qed.

Lemma incoming_funded_net o c d :
  incoming d !! o = None -> ln_net (incoming_funded o c d) = ln_net d - in_amount c.
Proof. intros Hc. unfold ln_net, owed_outgoing, owed_incoming. simpl. rewrite sum_map_insert by done. lia. Qed.

Lemma outgoing_funded_net o c d :
  outgoing d !! o = None -> ln_net (upd OutgoingContractKey <[o := c]> d) = ln_net d - out_amount c.
Proof. intros Hc. unfold ln_net, owed_outgoing, owed_incoming. simpl. rewrite sum_map_insert by done. lia. Qed.

(** Spending a contract releases exactly its amount. *)
Lemma process_lightning_input_net input d pk amount d' :
  ln_inv d -> process_lightning_input input d = (Ok (pk, amount), d') ->
  ln_inv d' /\ is_u64 amount /\ ln_net d' = ln_net d + amount.
Proof.
  intros Hd H. destruct input as [o w|o key|variant bytes].
  - apply process_outgoing_Ok in H as (c & Hc & -> & _ & ->).
    split; [by apply outgoing_settled_inv|]. split; [by apply (outgoing_u64 d Hd) in Hc|].
    by apply outgoing_settled_net.
  - apply process_incoming_Ok in H as (c & index & Hc & _ & _ & _ & -> & ->).
    split; [by apply incoming_settled_inv|]. split; [by apply (incoming_u64 d Hd) in Hc|].
    by apply incoming_settled_net.
  - simpl in H. by mrun.
Qed.

Definition ln_output_ok (o : LightningOutput) : Prop :=
  match o with
  | OutputOutgoing c => is_u64 (out_amount c)
  | OutputIncoming c => is_u64 (in_amount c)
  | LightningOutputDefault _ _ => True
  end.
Definition ln_item_ok (c : LightningConsensusItem) : Prop :=
  match c with BlockCountVote v | UnixTimeVote v => is_u64 v | LightningItemDefault _ _ => True end.

(** Funding a contract owes exactly its amount. *)
Lemma process_lightning_output_net output o d amount d' :
  ln_inv d -> ln_output_ok output -> process_lightning_output output o d = (Ok amount, d') ->
  ln_inv d' /\ is_u64 amount /\ ln_net d' = ln_net d - amount.
Proof.
  intros Hd Hok H. destruct output as [c|c|variant bytes].
  - apply process_output_outgoing_Ok in H as (Ho & -> & ->). split; [|split; [done|by apply outgoing_funded_net]].
    destruct Hd as [H1 H2 H3 H4]. split; simpl; [done|by apply map_Forall_insert_2|done|done].
  - apply process_output_incoming_Ok in H as (_ & _ & Ho & -> & ->).
    split; [by apply incoming_funded_inv|]. split; [done|]. by apply incoming_funded_net.
  - simpl in H. by mrun.
Qed.

Lemma ln_audit_run d :
  ln_inv d -> ln_gross d <= i64_max ->
  exists items, ln_audit d = (Ok items, d) /\ sum_list items = ln_net d /\ sum_abs items = ln_gross d.
Proof.
  intros Hd Hg. pose proof (owed_nonneg d Hd) as [Ho Hi]. unfold ln_gross, ln_net in *.
  exists (((fun kv => liability (out_amount kv.2)) <$> map_to_list (outgoing d)) ++
          ((fun kv => liability (in_amount kv.2)) <$> map_to_list (incoming d))).
  split; [reflexivity|]. rewrite sum_list_app, sum_abs_app.
  destruct (liabilities_sum out_amount (outgoing d)) as [-> ->];
    [intros o c Hc; by apply (outgoing_u64 d Hd) in Hc as [? _]|unfold owed_outgoing in *; lia|].
  destruct (liabilities_sum in_amount (incoming d)) as [-> ->];
    [intros o c Hc; by apply (incoming_u64 d Hd) in Hc as [? _]|unfold owed_incoming in *; lia|].
  unfold owed_outgoing, owed_incoming. lia.
Qed.

#[export] Program Instance lnv2_audited (Hfee : Fee.wf (fee_consensus cfg)) : Audited lnv2_module := {|
  inv := ln_inv;
  input_ok := fun _ => True;
  output_ok := ln_output_ok;
  item_ok := ln_item_ok;
  net := ln_net;
  gross := ln_gross;
|}.
Next Obligation. intros _ d Hd. pose proof (owed_nonneg d Hd). unfold ln_gross. lia. Qed.
Next Obligation.
  intros Hfee i p d meta d' Hd _ H. simpl in H. unfold ln_process_input in H.
  apply bind_Ok in H as ([pk amount] & d1 & Hp & H).
  apply bind_Ok in H as (fee & d2 & [Hfe ->]%expect_Ok & H). mrun.
  apply process_lightning_input_net in Hp as (Hd' & Ha & Hn); [|done].
  pose proof (Fee.fee_u64 _ _ _ Hfee Ha Hfe) as Hf.
  split; [done|]. split; [by apply bitcoin_item_wf|]. simpl.
  rewrite Amounts.get_new_bitcoin, decide_True by done. lia.
Qed.
Next Obligation.
  intros Hfee o p d a d' Hd Hok H. simpl in H. unfold ln_process_output in H.
  apply bind_Ok in H as (amount & d1 & Hp & H).
  apply bind_Ok in H as (fee & d2 & [Hfe ->]%expect_Ok & H). mrun.
  apply process_lightning_output_net in Hp as (Hd' & Ha & Hn); [|done|done].
  pose proof (Fee.fee_u64 _ _ _ Hfee Ha Hfe) as Hf.
  split; [done|]. split; [by apply bitcoin_item_wf|]. simpl.
  rewrite Amounts.get_new_bitcoin, decide_True by done. lia.
Qed.
Next Obligation.
  intros _ c peer d d' [H1 H2 H3 [H4 H5]] Hok H. simpl in H.
  destruct c as [v|v|]; simpl in *; dbrun; (split; [|done]); split; simpl; try done;
    split; try done; by apply map_Forall_insert_2.
Qed.
Next Obligation.
  intros _ d Hd Hg. destruct (ln_audit_run d Hd Hg) as (items & Hrun & Hs & Ha).
  exists items, d. split_and!; try done. by rewrite Ha.
Qed.

(** ** The contract stream

    The unspent incoming contracts are numbered in the order of their
    funding. *)
Definition next_stream_index (d : LnDb) : Z := default 0 (stream_index d !! tt).

Record stream_inv (d : LnDb) : Prop := {
  stream_bound : 0 <= next_stream_index d <= u64_max;
  incoming_has_index o : is_Some (incoming d !! o) -> is_Some (incoming_index d !! o);
  index_streamed o i : incoming_index d !! o = Some i ->
    0 <= i < next_stream_index d /\ exists c, incoming d !! o = Some c /\ stream d !! i = Some c;
  stream_indexed i c : stream d !! i = Some c -> exists o, incoming_index d !! o = Some i;
  index_inj o1 o2 i : incoming_index d !! o1 = Some i -> incoming_index d !! o2 = Some i -> o1 = o2;
}.

Lemma stream_inv_empty : stream_inv LnDb_empty.
Proof. clear. split; simpl; try (intros *; rewrite lookup_empty; naive_solver). done. Qed.

Lemma incoming_settled_stream o index d :
  stream_inv d -> incoming_index d !! o = Some index -> stream_inv (incoming_settled o index d).
Proof.
  clear. intros [Hb Hi Hs Hx Hj] Ho. split; unfold next_stream_index; simpl; [done|..].
  - intros o'. destruct (decide (o = o')) as [->|Hne]; [rewrite lookup_delete_eq; by intros []|].
    rewrite !lookup_delete_ne by done. apply Hi.
  - intros o' i [Hne Hi']%lookup_delete_Some. destruct (Hs o' i Hi') as (Hr & c & Hc & Hst).
    split; [done|]. exists c. rewrite !lookup_delete_ne; [done| |done].
    intros <-. by eapply Hne, Hj.
  - intros i c [Hne Hst]%lookup_delete_Some. destruct (Hx i c Hst) as [o' Ho'].
    exists o'. rewrite lookup_delete_ne; [done|]. intros <-. congruence.
  - intros o1 o2 i [_ H1]%lookup_delete_Some [_ H2]%lookup_delete_Some. by eapply Hj.
Qed.

Lemma incoming_funded_stream o c d :
  stream_inv d -> incoming d !! o = None -> next_stream_index d < u64_max ->
  stream_inv (incoming_funded o c d) /\ next_stream_index (incoming_funded o c d) = next_stream_index d + 1.
Proof.
  intros [Hb Hi Hs Hx Hj] Ho Hlt.
  assert (next_stream_index (incoming_funded o c d) = next_stream_index d + 1) as Hn.
  { unfold next_stream_index at 1. simpl. rewrite lookup_insert_eq. apply wrap_u64_small. unfold is_u64, next_stream_index in *. lia. }
  assert (incoming_index d !! o = None) as Hno.
  { apply eq_None_not_Some. intros [i (_ & c' & Hc & _)%Hs]. congruence. }
  split; [|done]. split; [rewrite Hn; lia|..]; try rewrite Hn; simpl; fold (next_stream_index d).
  - intros o'. destruct (decide (o = o')) as [->|Hne]; [rewrite !lookup_insert_eq; by eexists|].
    rewrite !lookup_insert_ne by done. apply Hi.
  - intros o' i. destruct (decide (o = o')) as [->|Hne].
    + rewrite !lookup_insert_eq. intros [= <-]. split; [lia|]. exists c. by rewrite lookup_insert_eq.
    + rewrite !lookup_insert_ne by done. intros Hi'. destruct (Hs o' i Hi') as (Hr & c' & Hc & Hst).
      split; [lia|]. exists c'. rewrite lookup_insert_ne by lia. done.
  - intros i c' [[<- <-]|[Hne Hst]]%lookup_insert_Some; [exists o; by rewrite lookup_insert_eq|].
    destruct (Hx i c' Hst) as [o' Ho']. exists o'. rewrite lookup_insert_ne; [done|]. intros <-. congruence.
  - intros o1 o2 i [[<- <-]|[Hn1 H1]]%lookup_insert_Some [[<- H2]|[Hn2 H2]]%lookup_insert_Some; [done| | |by eapply Hj].
    + apply Hs in H2 as [? _]. lia.
    + apply Hs in H1 as [? _]. lia.
Qed.

Lemma foldl_last {A B} (f : A -> B) (b : B) (l : list A) :
  foldl (fun _ a => f a) b l = match last l with Some a => f a | None => b end.
Proof.
  induction l as [|a l IH] using rev_ind; [done|]. rewrite foldl_app, last_snoc. done.
Qed.

(** One page of the stream: exactly the unspent contracts between the start
    and the returned index, in their order. *)
Lemma await_incoming_contracts_page d start n cs next :
  stream_inv d -> (0 < n)%nat -> await_incoming_contracts d start n = Some (cs, next) ->
  start < next <= next_stream_index d /\ (length cs <= n)%nat /\
  cs = (range_scan start next (stream d)).*2.
Proof.
  intros Hd Hn. unfold await_incoming_contracts. destruct (stream_index d !! tt) as [top|] eqn:Ht; [|done].
  assert (next_stream_index d = top) as Htop by (unfold next_stream_index; by rewrite Ht).
  destruct (start <? top) eqn:Hst; [|done]. intros [= <- <-]. rewrite foldl_last.
  assert (forall key v, (key, v) ∈ range_scan start u64_max (stream d) -> start <= key < top /\ 0 <= key) as Hkeys.
  { intros key v [Hk Hr]%elem_of_range_scan. destruct (stream_indexed d Hd key v Hk) as [o Ho].
    apply (index_streamed d Hd) in Ho as [? _]. lia. }
  pose proof (stream_bound d Hd) as Hb. rewrite length_fmap, length_take.
  destruct (last (take n (range_scan start u64_max (stream d)))) as [[key v]|] eqn:Hl.
  - assert (start <= key < top /\ 0 <= key) as Hkey.
    { apply (Hkeys key v). apply last_Some_elem_of in Hl. by eapply subseteq_take. }
    rewrite (take_range_scan _ _ _ _ _ _ Hl). simpl. rewrite wrap_u64_small by (unfold is_u64; lia).
    split; [lia|]. split; [lia|done].
  - apply last_None in Hl. destruct n as [|n]; [lia|].
    destruct (range_scan start u64_max (stream d)) as [|e l] eqn:Hr; [|done].
    split; [lia|]. split; [simpl; lia|]. rewrite (range_scan_app (stream d) start top u64_max) in Hr by lia.
    by apply app_eq_nil in Hr as [-> _].
Qed.

(** ** Histories of committed operations *)
Inductive ln_event :=
| Spent (input : LightningInput)
| Funded (output : LightningOutput) (o : OutPoint)
| Voted (item : LightningConsensusItem) (peer : Z).

Definition ln_apply (ev : ln_event) (d d' : LnDb) : Prop :=
  match ev with
  | Spent input => exists r, process_lightning_input input d = (Ok r, d')
  | Funded output o => exists a, process_lightning_output output o d = (Ok a, d')
  | Voted item peer => ln_process_consensus_item item peer d = (Ok tt, d')
  end.

Inductive ln_history (d : LnDb) : list ln_event -> LnDb -> Prop :=
| ln_history_nil : ln_history d [] d
| ln_history_snoc evs ev d1 d2 :
    ln_history d evs d1 -> ln_apply ev d1 d2 -> ln_history d (evs ++ [ev]) d2.

(** How often a contract at [o] is funded and settled. *)
Definition funds_outgoing (o : OutPoint) (ev : ln_event) : Z :=
  match ev with Funded (OutputOutgoing _) o' => if decide (o = o') then 1 else 0 | _ => 0 end.
Definition settles_outgoing (o : OutPoint) (ev : ln_event) : Z :=
  match ev with Spent (InputOutgoing o' _) => if decide (o = o') then 1 else 0 | _ => 0 end.
Definition is_open {V} (m : gmap OutPoint V) (o : OutPoint) : Z := match m !! o with Some _ => 1 | None => 0 end.

Definition funded_outgoing (o : OutPoint) (evs : list ln_event) : Z := sum_list (funds_outgoing o <$> evs).
Definition settled_outgoing (o : OutPoint) (evs : list ln_event) : Z := sum_list (settles_outgoing o <$> evs).

(** What an operation changes of the outgoing contracts and of the votes. *)
Lemma ln_apply_outgoing ev d d' o :
  ln_apply ev d d' ->
  settles_outgoing o ev + is_open (outgoing d') o = funds_outgoing o ev + is_open (outgoing d) o.
Proof.
  intros H. unfold is_open. destruct ev as [[o' w|o' key|]|[c|c|] o'|[v|v|] peer]; simpl in H.
  - destruct H as [[pk a] H]. apply (process_outgoing_Ok o' w) in H as (c & Hc & _ & _ & ->).
    assert (outgoing (outgoing_settled o' w d) = delete o' (outgoing d)) as -> by by destruct w.
    simpl. rewrite lookup_delete. destruct (decide (o = o')), (decide (o' = o)); simplify_eq.
    + by rewrite Hc.
    + done.
  - destruct H as [[pk a] H]. apply (process_incoming_Ok o' key) in H as (c & i & _ & _ & _ & _ & _ & ->). done.
  - destruct H as [r H]. by mrun.
  - destruct H as [a H]. apply (process_output_outgoing_Ok c o') in H as (Hc & _ & ->). simpl.
    rewrite lookup_insert. destruct (decide (o = o')), (decide (o' = o)); simplify_eq; [by rewrite Hc|done].
  - destruct H as [a H]. apply (process_output_incoming_Ok c o') in H as (_ & _ & _ & _ & ->). done.
  - destruct H as [a H]. by mrun.
  - dbrun. done.
  - dbrun. done.
  - by mrun.
Qed.

Lemma ln_apply_votes ev d d' :
  ln_apply ev d d' ->
  votes_raised (block_count_votes d) (block_count_votes d') /\
  votes_raised (unix_time_votes d) (unix_time_votes d').
Proof.
  intros H. destruct ev as [[o' w|o' key|]|[c|c|] o'|[v|v|] peer]; simpl in H.
  - destruct H as [[pk a] H]. apply (process_outgoing_Ok o' w) in H as (c & _ & _ & _ & ->). by destruct w.
  - destruct H as [[pk a] H]. apply (process_incoming_Ok o' key) in H as (c & i & _ & _ & _ & _ & _ & ->). done.
  - destruct H as [r H]. by mrun.
  - destruct H as [a H]. apply (process_output_outgoing_Ok c o') in H as (_ & _ & ->). done.
  - destruct H as [a H]. apply (process_output_incoming_Ok c o') in H as (_ & _ & _ & _ & ->). done.
  - destruct H as [a H]. by mrun.
  - dbrun. split; [|done]. apply votes_raised_insert. intros w Hw. rewrite Hw in *. simpl in *. lia.
  - dbrun. split; [done|]. apply votes_raised_insert. intros w Hw. rewrite Hw in *. simpl in *. lia.
  - by mrun.
Qed.

Definition ln_event_ok (ev : ln_event) : Prop :=
  match ev with Spent _ => True | Funded output _ => ln_output_ok output | Voted item _ => ln_item_ok item end.

Lemma ln_apply_inv ev d d' : ln_inv d -> ln_event_ok ev -> ln_apply ev d d' -> ln_inv d'.
Proof.
  intros Hd Hok H. destruct ev as [input|output o|item peer]; simpl in *.
  - destruct H as [[pk a] H]. by eapply process_lightning_input_net.
  - destruct H as [a H]. by eapply process_lightning_output_net.
  - destruct Hd as [H1 H2 H3 [H4 H5]]. destruct item as [v|v|]; simpl in *; dbrun;
      split; simpl; try done; split; try done; by apply map_Forall_insert_2.
Qed.

Lemma ln_history_inv d evs d' : ln_inv d -> Forall ln_event_ok evs -> ln_history d evs d' -> ln_inv d'.
Proof.
  intros Hd Hok H. induction H as [|evs ev d1 d2 H IH Ha]; [done|].
  apply Forall_app in Hok as [Hok1 Hok2]. rewrite Forall_singleton in Hok2.
  apply (ln_apply_inv ev d1); [by apply IH|done|done].
Qed.

Lemma ln_history_votes d evs d' :
  ln_history d evs d' ->
  votes_raised (block_count_votes d) (block_count_votes d') /\
  votes_raised (unix_time_votes d) (unix_time_votes d').
Proof.
  induction 1 as [|evs ev d1 d2 H [IH1 IH2] Ha]; [done|].
  apply ln_apply_votes in Ha as [H1 H2]. split; by etrans.
Qed.

Lemma ln_inv_votes_nonneg d :
  ln_inv d -> Forall (Z.le 0) (votes_of (block_count_votes d)) /\ Forall (Z.le 0) (votes_of (unix_time_votes d)).
Proof.
  intros Hd. destruct (votes_u64 d Hd) as [H1 H2]. rewrite !votes_of_Forall.
  split; [eapply map_Forall_impl; [exact H1|]|eapply map_Forall_impl; [exact H2|]]; by intros p v [? _].
Qed.

Lemma ln_history_counts d evs d' :
  1 <= num_peers cfg -> ln_inv d -> Forall ln_event_ok evs -> ln_history d evs d' ->
  consensus_block_count d <= consensus_block_count d' /\ consensus_unix_time d <= consensus_unix_time d'.
Proof.
  intros Hn Hd Hok H. pose proof (ln_history_inv d evs d' Hd Hok H) as Hd'.
  destruct (ln_inv_votes_nonneg d' Hd') as [Hp1 Hp2].
  apply ln_history_votes in H as [H1 H2]. split; by apply threshold_vote_mono.
Qed.

Lemma ln_apply_stream ev d d' :
  stream_inv d -> next_stream_index d < u64_max -> ln_apply ev d d' ->
  stream_inv d' /\ next_stream_index d <= next_stream_index d' <= next_stream_index d + 1.
Proof.
  intros Hd Hlt H. destruct ev as [[o' w|o' key|]|[c|c|] o'|[v|v|] peer]; simpl in H.
  - destruct H as [[pk a] H]. apply (process_outgoing_Ok o' w) in H as (c & _ & _ & _ & ->).
    split; [destruct Hd; by destruct w|]. unfold next_stream_index. destruct w; simpl; lia.
  - destruct H as [[pk a] H]. apply (process_incoming_Ok o' key) in H as (c & i & _ & Hi & _ & _ & _ & ->).
    split; [by apply incoming_settled_stream|]. unfold next_stream_index. simpl. lia.
  - destruct H as [r H]. by mrun.
  - destruct H as [a H]. apply (process_output_outgoing_Ok c o') in H as (_ & _ & ->).
    split; [by destruct Hd|]. unfold next_stream_index. simpl. lia.
  - destruct H as [a H]. apply (process_output_incoming_Ok c o') in H as (_ & _ & Ho & _ & ->).
    destruct (incoming_funded_stream o' c d Hd Ho Hlt). split; [done|lia].
  - destruct H as [a H]. by mrun.
  - dbrun. split; [by destruct Hd|]. unfold next_stream_index. simpl. lia.
  - dbrun. split; [by destruct Hd|]. unfold next_stream_index. simpl. lia.
  - by mrun.
Qed.

Lemma ln_history_stream d evs d' :
  stream_inv d -> next_stream_index d + Z.of_nat (length evs) <= u64_max -> ln_history d evs d' ->
  stream_inv d' /\ next_stream_index d <= next_stream_index d' <= next_stream_index d + Z.of_nat (length evs).
Proof.
  intros Hd Hb H. induction H as [|evs ev d1 d2 H IH Ha]; [simpl; split; [done|lia]|].
  rewrite length_app in Hb |- *. simpl in *. destruct IH as [IH1 IH2]; [lia|].
  destruct (ln_apply_stream ev d1 d2 IH1) as [H1 H2]; [lia|done|]. split; [done|lia].
Qed.

(** ** Properties *)

(** An outgoing contract pays out to exactly one party under exactly the
    condition of its witness. Spending it succeeds if and only if the contract
    is open and either the preimage is right and the consensus block count is
    below the expiration (paying the claim key and publishing the preimage), or
    the block count has reached the expiration (paying the refund key), or the
    claim key signed a forfeit (paying the refund key). The contract is removed
    and its amount is what the transaction is credited with; a claim and a
    refund are never possible in the same state. *)
Theorem lnv2_outgoing_settlement o w d pk amount d' :
  (process_lightning_input (InputOutgoing o w) d = (Ok (pk, amount), d') <->
   exists c, outgoing d !! o = Some c /\ amount = out_amount c /\ outgoing_spendable d c w pk /\
     d' = outgoing_settled o w d) /\
  (forall c preimage pk1 pk2,
     outgoing_spendable d c (Claim preimage) pk1 -> ~ outgoing_spendable d c Refund pk2).
Proof.
  split; [apply process_outgoing_Ok|]. intros c preimage pk1 pk2 (H1 & _) [H2 _]. simpl in *. lia.
Qed.

(** An expired contract stays expired. The consensus block count and the
    consensus unix time never decrease over any history of committed
    operations, so once an outgoing contract can be refunded no claim of it
    succeeds any more, whatever guardians vote later. *)
Theorem lnv2_expiry_final d evs d' c :
  1 <= num_peers cfg -> ln_inv d -> Forall ln_event_ok evs -> ln_history d evs d' ->
  consensus_block_count d <= consensus_block_count d' /\
  consensus_unix_time d <= consensus_unix_time d' /\
  (expiration c <= consensus_block_count d ->
   forall preimage pk, ~ outgoing_spendable d' c (Claim preimage) pk).
Proof.
  intros Hn Hd Hok H. destruct (ln_history_counts d evs d' Hn Hd Hok H) as [H1 H2].
  split_and!; [done|done|]. intros He preimage pk (Hc & _). lia.
Qed.

(** Every outgoing contract is settled exactly as often as it is funded.
    Over any history the number of settlements at an out point plus the
    contracts left open equals the number of fundings plus the contracts open
    at the start, so a contract funded once is paid out at most once. *)
Theorem lnv2_settled_once d evs d' o :
  ln_history d evs d' ->
  settled_outgoing o evs + is_open (outgoing d') o = funded_outgoing o evs + is_open (outgoing d) o.
Proof.
  unfold settled_outgoing, funded_outgoing. induction 1 as [|evs ev d1 d2 H IH Ha]; [done|].
  apply (ln_apply_outgoing ev d1 d2 o) in Ha. rewrite !fmap_app, !sum_list_app. simpl. lia.
Qed.

(** The consensus block count is a number a threshold of guardians stands
    behind. With at most [max_evil] evil guardians a positive count was reached
    by the vote of a correct guardian, and a count every correct guardian has
    voted for is reached, so evil guardians can neither advance the count past
    the correct ones nor hold it back. *)
Theorem lnv2_block_count_bft (all evil : gset Z) d :
  num_peers cfg = Z.of_nat (size all) -> 1 <= num_peers cfg -> bft all evil ->
  dom (block_count_votes d) ⊆ all ->
  (0 < consensus_block_count d ->
   exists p v, (p ∉ evil) /\ block_count_votes d !! p = Some v /\ consensus_block_count d <= v) /\
  (forall c, 0 < c ->
   (forall p, p ∈ all -> p ∉ evil -> exists v, block_count_votes d !! p = Some v /\ c <= v) ->
   c <= consensus_block_count d).
Proof.
  intros Hn H1 Hb Hdom. unfold consensus_block_count. rewrite Hn in *. split.
  - by apply threshold_vote_honest.
  - intros c Hc Hall. by eapply threshold_vote_live.
Qed.

(** Streaming the incoming contracts page by page misses none. After any
    history from an empty database (of fewer than 2^64 operations), a page
    requested from a start index contains exactly the unspent incoming
    contracts between the start and the returned next index, in their order and
    at most as many as requested, and the next index lies beyond the start, so
    a client that keeps asking makes progress. *)
Theorem lnv2_stream_pages evs d start n cs next :
  ln_history LnDb_empty evs d -> Z.of_nat (length evs) <= u64_max -> (0 < n)%nat ->
  await_incoming_contracts d start n = Some (cs, next) ->
  start < next /\ (length cs <= n)%nat /\
  cs = (range_scan start next (stream d)).*2 /\
  (forall i c, stream d !! i = Some c <->
     exists o, incoming_index d !! o = Some i /\ incoming d !! o = Some c) /\
  (forall o, is_Some (incoming d !! o) <-> is_Some (incoming_index d !! o)).
Proof.
  intros H Hb Hn Hp. destruct (ln_history_stream _ _ _ stream_inv_empty Hb H) as [Hs _].
  destruct (await_incoming_contracts_page d start n cs next Hs Hn Hp) as (Hlt & Hlen & Hcs).
  split_and!; [lia|done|done| |].
  - intros i c. split.
    + intros Hi. destruct (stream_indexed d Hs i c Hi) as [o Ho]. exists o. split; [done|].
      destruct (index_streamed d Hs o i Ho) as (_ & c' & Hc & Hst). congruence.
    + intros (o & Ho & Hc). destruct (index_streamed d Hs o i Ho) as (_ & c' & Hc' & Hst). congruence.
  - intros o. split; [apply (incoming_has_index d Hs)|]. intros [i Hi].
    destruct (index_streamed d Hs o i Hi) as (_ & c & Hc & _). by exists c.
Qed.

(** The gateway fee of an lnurl receive survives its encoding into the
    expiration, and the encoded expiration is never in the past as long as the
    fee is smaller than the distance of the consensus time to 2^64, so funding
    the contract is not rejected as expired. *)
Theorem lnv2_fee_expiration fee d :
  is_u64 fee -> consensus_unix_time d + fee < u64_max ->
  fee_from_expiration (fee_encoded_expiration fee) = fee /\
  consensus_unix_time d < fee_encoded_expiration fee.
Proof.
  intros Hf Ht. unfold fee_from_expiration, fee_encoded_expiration, is_u64, u64_max in *.
  rewrite (wrap_u64_small (_ - fee)); unfold is_u64, u64_max; [|lia].
  rewrite wrap_u64_small; unfold is_u64, u64_max; lia.
Qed.
End lnv2.

(** ** Instances for the witnesses *)
Module Lnv2Example.
Definition cfg : Lightning :=
  {| fee_consensus := Fee.zero; num_peers := 4; tpe_agg_pk := 3; sk := 4 |}.
Definition out_contract : OutgoingContract :=
  {| out_payment_image := Hash 77; out_amount := 5000; expiration := 100;
     out_claim_pk := 1; out_refund_pk := 2; out_ephemeral_pk := 3 |}.
Definition in_contract : IncomingContract :=
  {| commitment := {| payment_image := Hash 77; commitment_amount := 7000; expiration_or_fee := 1000;
                      claim_pk := 1; refund_pk := 2; ephemeral_pk := 3 |};
     ciphertext := 9 |}.
Definition o1 : OutPoint := {| txid := 1; out_idx := 0 |}.
Definition o2 : OutPoint := {| txid := 1; out_idx := 1 |}.
Definition sha (x : Z) : Z := x + 1.
Definition schnorr (s m k : Z) : bool := s =? m + k.
Definition chash (c : IncomingContract) : Z := ciphertext c.
Definition ohash (c : OutgoingContract) : Z := out_amount c.
Definition mhash (c : Commitment) : Z := commitment_amount c.
Definition vct (ct h : Z) : bool := true.
Definition vagg (pk k ct h : Z) : bool := pk =? k.
Definition dec (ct k : Z) : Z := 76.
Definition share (s ct : Z) : Z := s + ct.
Definition pk (x : Z) : option Z := Some x.

Definition dout : LnDb := upd OutgoingContractKey <[o1 := out_contract]> LnDb_empty.
Definition dboth : LnDb := incoming_funded cfg chash share o2 in_contract dout.
Definition dvote : LnDb :=
  upd BlockCountVoteKey (fun _ => {[ 0 := 120; 1 := 110; 2 := 105 ]}) dout.

Lemma dout_inv : ln_inv dout.
Proof.
  destruct ln_inv_empty as [H1 H2 H3 H4]. split; simpl; try done.
  apply map_Forall_insert_2; [unfold is_u64, u64_max; simpl; lia|done].
Qed.

Lemma history_both :
  ln_history cfg sha pk schnorr chash ohash mhash vct vagg dec share LnDb_empty
    [Funded (OutputOutgoing out_contract) o1; Funded (OutputIncoming in_contract) o2] dboth.
Proof.
  eapply (ln_history_snoc _ _ _ _ _ _ _ _ _ _ _ _ [Funded (OutputOutgoing out_contract) o1] _ dout).
  - eapply (ln_history_snoc _ _ _ _ _ _ _ _ _ _ _ _ []); [constructor|].
    exists 5000. vm_compute. reflexivity.
  - exists 7000. vm_compute. reflexivity.
Qed.

Lemma dvote_inv : ln_inv dvote.
Proof.
  destruct dout_inv as [H1 H2 H3 H4]. split; try done. split; [|apply H4].
  repeat (apply map_Forall_insert_2; [cbv beta; unfold is_u64, u64_max; lia|]). apply map_Forall_empty.
Qed.

Definition dlater : LnDb := upd BlockCountVoteKey <[0 := 130]> dvote.

Lemma lnv2_expiry_final_witness :
  consensus_block_count cfg dvote <= consensus_block_count cfg dlater /\
  (forall preimage k, ~ outgoing_spendable cfg sha pk schnorr ohash dlater out_contract (Claim preimage) k).
Proof.
  destruct (lnv2_expiry_final cfg sha pk schnorr chash ohash mhash vct vagg dec share dvote
              [Voted (BlockCountVote 130) 0] dlater out_contract) as (H1 & _ & H3).
  - simpl. lia.
  - apply dvote_inv.
  - apply Forall_singleton. simpl. unfold is_u64, u64_max. lia.
  - apply (ln_history_snoc _ _ _ _ _ _ _ _ _ _ _ _ [] _ dvote); [constructor|]. vm_compute. reflexivity.
  - split; [exact H1|]. apply H3. vm_compute. discriminate.
Defined.

Lemma lnv2_settled_once_witness :
  settled_outgoing o1 [Funded (OutputOutgoing out_contract) o1; Funded (OutputIncoming in_contract) o2] +
    is_open (outgoing dboth) o1 = 1.
Proof. apply (lnv2_settled_once _ _ _ _ _ _ _ _ _ _ _ _ _ _ o1 history_both). Defined.

Definition peers : gset Z := {[ 0; 1; 2; 3 ]}.
Lemma lnv2_block_count_bft_witness :
  exists p v, (p ∉ ({[ 3 ]} : gset Z)) /\ block_count_votes dvote !! p = Some v /\
    consensus_block_count cfg dvote <= v.
Proof.
  destruct (lnv2_block_count_bft cfg peers {[ 3 ]} dvote) as [H _].
  - reflexivity.
  - simpl. lia.
  - split; [unfold peers; set_solver|vm_compute; discriminate].
  - unfold dvote, peers. simpl. set_solver.
  - apply H. vm_compute. reflexivity.
Defined.

Lemma lnv2_stream_pages_witness : 0 < 1 /\ [in_contract] = (range_scan 0 1 (stream dboth)).*2.
Proof.
  destruct (lnv2_stream_pages cfg sha pk schnorr chash ohash mhash vct vagg dec share _ dboth 0 2 [in_contract] 1
              history_both) as (H1 & _ & H2 & _).
  - simpl. unfold u64_max. lia.
  - lia.
  - vm_compute. reflexivity.
  - split; [exact H1|exact H2].
Defined.

Lemma lnv2_fee_expiration_witness :
  fee_from_expiration (fee_encoded_expiration 50) = 50 /\
  consensus_unix_time cfg dvote < fee_encoded_expiration 50.
Proof.
  apply (lnv2_fee_expiration cfg 50 dvote).
  - unfold is_u64, u64_max. lia.
  - vm_compute. reflexivity.
Defined.
End Lnv2Example.
