(* ===== verification/WalletLedger.v ===== *)
(** * What a wallet promises about its outputs

    The abstract specification of the first wallet module: a set of spendable
    outputs, the outpoints that were ever credited, and the transactions in
    flight with their change.  An output is claimed by a user, outputs are spent
    by a transaction that returns change, and the change becomes spendable when
    the transaction is confirmed.  [WalletServer] refines it. *)

From S2P Require Import Prelude Bitcoin.

Record Ledger := {
  l_utxos : gmap BtcOutPoint Z;
  l_claimed : gset BtcOutPoint;
  l_flights : gmap Z Z;
}.
Definition Ledger_empty : Ledger := {| l_utxos := ∅; l_claimed := ∅; l_flights := ∅ |}.

(** The change is the second output. *)
Definition change_of (txid : Z) : BtcOutPoint := {| btc_txid := txid; vout := 1 |}.

#[export] Instance change_of_inj : Inj (=) (=) change_of.
Proof. by intros x y [= ->]. Qed.

Inductive ledger_event :=
| Claim (o : BtcOutPoint) (sats : Z)
| Spend (txid : Z) (inputs : list BtcOutPoint) (paid : Z)
| Confirm (txid : Z).

Definition inputs_value (m : gmap BtcOutPoint Z) (l : list BtcOutPoint) : option Z := sum_list <$> mapM (fun o => m !! o) l.

Definition ledger_step (l : Ledger) (e : ledger_event) : option Ledger :=
  match e with
  | Claim o sats =>
      if decide ((o ∉ l_claimed l) /\ l_utxos l !! o = None) then
        Some {| l_utxos := <[o := sats]> (l_utxos l); l_claimed := {[o]} ∪ l_claimed l; l_flights := l_flights l |}
      else None
  | Spend txid inputs paid =>
      total ← inputs_value (l_utxos l) inputs;
      if decide (NoDup inputs /\ (change_of txid ∉ l_claimed l) /\ l_flights l !! txid = None) then
        Some {| l_utxos := foldl (fun m o => delete o m) (l_utxos l) inputs;
                l_claimed := {[change_of txid]} ∪ l_claimed l; l_flights := <[txid := total - paid]> (l_flights l) |}
      else None
  | Confirm txid =>
      change ← l_flights l !! txid;
      Some {| l_utxos := <[change_of txid := change]> (l_utxos l); l_claimed := l_claimed l; l_flights := delete txid (l_flights l) |}
  end.

Fixpoint ledger_run (l : Ledger) (evs : list ledger_event) : option Ledger :=
  match evs with
  | [] => Some l
  | e :: evs => l' ← ledger_step l e; ledger_run l' evs
  end.

Lemma ledger_run_app l evs1 evs2 : ledger_run l (evs1 ++ evs2) = (l' ← ledger_run l evs1; ledger_run l' evs2).
Proof. revert l. induction evs1 as [|e evs1 IH]; intros l; [done|]. simpl. destruct (ledger_step l e); [apply IH|done]. Qed.

(** What an event credits, spends and adds to the balance. *)
Definition credits (evs : list ledger_event) : list BtcOutPoint :=
  omap (fun e => match e with Claim o _ => Some o | _ => None end) evs.
Definition spends (evs : list ledger_event) : list BtcOutPoint :=
  evs ≫= (fun e => match e with Spend _ inputs _ => inputs | _ => [] end).
Definition balance (evs : list ledger_event) : Z :=
  sum_list ((fun e => match e with Claim _ v => v | Spend _ _ paid => - paid | Confirm _ => 0 end) <$> evs).

Definition ledger_value (l : Ledger) : Z := sum_map (fun _ v => v) (l_utxos l) + sum_map (fun _ v => v) (l_flights l).

(** The invariant, for the outpoints spent and credited so far. *)
Record ledger_inv (l : Ledger) (spent credited : list BtcOutPoint) : Prop := {
  li_utxos : forall o v, l_utxos l !! o = Some v -> o ∈ l_claimed l;
  li_flights : forall txid c, l_flights l !! txid = Some c -> change_of txid ∈ l_claimed l /\ l_utxos l !! change_of txid = None /\ change_of txid ∉ spent;
  li_spent : forall o, o ∈ spent -> o ∈ l_claimed l /\ l_utxos l !! o = None;
  li_spent_once : NoDup spent;
  li_credited : forall o, o ∈ credited -> o ∈ l_claimed l;
  li_credited_once : NoDup credited;
}.

Lemma ledger_inv_empty : ledger_inv Ledger_empty [] [].
Proof. split; simpl; try constructor; set_solver. Qed.

Lemma inputs_value_elem m l total o : inputs_value m l = Some total -> o ∈ l -> is_Some (m !! o).
Proof.
  unfold inputs_value. intros (vs & Hvs & _)%fmap_Some Ho. apply mapM_Some in Hvs.
  apply list_elem_of_lookup in Ho as [i Hi]. destruct (Forall2_lookup_l _ _ _ _ _ Hvs Hi) as (v & _ & Hv). by exists v.
Qed.

Lemma foldl_delete_sum (m : gmap BtcOutPoint Z) l total :
  NoDup l -> inputs_value m l = Some total ->
  sum_map (fun _ v => v) (foldl (fun m o => delete o m) m l) = sum_map (fun _ v => v) m - total.
Proof.
  intros Hnd. unfold inputs_value. intros (vs & Hvs & ->)%fmap_Some. apply mapM_Some in Hvs.
  revert m vs Hvs. induction Hnd as [|o l Ho Hnd IH]; intros m vs Hvs; inversion Hvs; simplify_eq; simpl; [lia|].
  match goal with H : m !! o = Some ?v, H2 : Forall2 _ l ?ws |- _ => rename H into Hv; rename H2 into Hl; rename ws into vs' end.
  rewrite (IH (delete o m) vs').
  - rewrite (sum_map_delete _ m o _ Hv). lia.
  - apply Forall2_same_length_lookup in Hl as [Hlen Hl]. apply Forall2_same_length_lookup. split; [done|].
    intros i o' v' Hi Hv'. rewrite lookup_delete_ne; [by eapply Hl|]. intros <-. apply Ho, list_elem_of_lookup. by exists i.
Qed.

Lemma ledger_step_inv l e l' spent credited :
  ledger_inv l spent credited -> ledger_step l e = Some l' -> ledger_inv l' (spent ++ spends [e]) (credited ++ credits [e]).
Proof.
  intros [Hu Hf Hs Hso Hc Hco] H. destruct e as [o v|txid ins paid|txid]; simpl in H.
  - case_decide as Hg; [|done]. destruct Hg as [Hg1 Hg2]. simplify_eq. unfold spends, credits; simpl. rewrite app_nil_r. split; simpl.
    + intros o' v'. rewrite lookup_insert_Some. set_solver.
    + intros txid c Hc'. apply Hf in Hc' as (? & ? & ?). split_and!; [set_solver| |done]. rewrite lookup_insert_ne; [done|set_solver].
    + intros o' Ho'. apply Hs in Ho' as [? ?]. split; [set_solver|]. rewrite lookup_insert_ne; [done|set_solver].
    + done.
    + set_solver.
    + apply NoDup_app. split; [done|]. split; [set_solver|apply NoDup_singleton].
  - apply bind_Some in H as (total & Ht & H). case_decide as Hg; [|done]. destruct Hg as (Hnd & Hg1 & Hg2). simplify_eq.
    pose proof (fun o => inputs_value_elem _ _ _ o Ht) as Hin.
    unfold spends, credits; simpl. rewrite !app_nil_r. split; simpl.
    + intros o v. rewrite foldl_delete_lookup. case_decide; [done|]. set_solver.
    + intros txid' c. rewrite lookup_insert_Some. intros [[<- _]|[Hne Hc']].
      * split_and!; [set_solver| |].
        -- rewrite foldl_delete_lookup. case_decide; [done|]. destruct (l_utxos l !! _) eqn:E; [set_solver|done].
        -- intros [?|?]%elem_of_app; [set_solver|]. destruct (Hin (change_of txid)) as [? ?]; set_solver.
      * apply Hf in Hc' as (? & Hn & ?). split_and!; [set_solver| |].
        -- rewrite foldl_delete_lookup. by case_decide.
        -- intros [?|H']%elem_of_app; [done|]. apply Hin in H' as [? ?]. congruence.
    + intros o [Ho|Ho]%elem_of_app; rewrite foldl_delete_lookup.
      * apply Hs in Ho as [? ?]. split; [set_solver|by case_decide].
      * destruct (Hin o Ho) as [v Hv]. split; [set_solver|by rewrite decide_True].
    + apply NoDup_app. split_and!; [done| |done]. intros o Ho Hi. apply Hs in Ho as [_ Ho]. apply Hin in Hi as [? ?]. congruence.
    + set_solver.
    + done.
  - apply bind_Some in H as (c & Hl & H). simplify_eq. unfold spends, credits; simpl. rewrite !app_nil_r.
    destruct (Hf _ _ Hl) as (Hcl & Hcu & Hcs). split; simpl; try done.
    + intros o v. rewrite lookup_insert_Some. intros [[<- _]|[_ ?]]; [done|by eapply Hu].
    + intros txid' c' [Hne Hc']%lookup_delete_Some. apply Hf in Hc' as (? & ? & ?). split_and!; [done| |done].
      rewrite lookup_insert_ne; [done|]. by intros ?%(inj change_of).
    + intros o Ho. destruct (Hs o Ho) as [? ?]. split; [done|]. rewrite lookup_insert_ne; [done|]. intros Heq. by rewrite Heq in Hcs.
Qed.

Lemma ledger_step_value l e l' spent credited :
  ledger_inv l spent credited -> ledger_step l e = Some l' -> ledger_value l' = ledger_value l + balance [e].
Proof.
  intros [Hu Hf Hs Hso Hc Hco] H. unfold ledger_value, balance. destruct e as [o v|txid ins paid|txid]; simpl in H |- *.
  - case_decide as Hg; [|done]. destruct Hg as [Hg1 Hg2]. simplify_eq. simpl. rewrite sum_map_insert by done. lia.
  - apply bind_Some in H as (total & Ht & H). case_decide as Hg; [|done]. destruct Hg as (Hnd & Hg1 & Hg2). simplify_eq. simpl.
    rewrite (foldl_delete_sum _ _ total Hnd Ht), sum_map_insert by done. lia.
  - apply bind_Some in H as (c & Hl & H). simplify_eq. simpl. destruct (Hf _ _ Hl) as (_ & Hcu & _).
    rewrite sum_map_insert, (sum_map_delete _ _ _ _ Hl) by done. lia.
Qed.

Lemma spends_app evs1 evs2 : spends (evs1 ++ evs2) = spends evs1 ++ spends evs2.
Proof. apply bind_app. Qed.
Lemma credits_app evs1 evs2 : credits (evs1 ++ evs2) = credits evs1 ++ credits evs2.
Proof. apply omap_app. Qed.
Lemma balance_app evs1 evs2 : balance (evs1 ++ evs2) = balance evs1 + balance evs2.
Proof. unfold balance. by rewrite fmap_app, sum_list_app. Qed.

(** Every run keeps the invariant and the balance. *)
Lemma ledger_run_inv l evs l' spent credited :
  ledger_inv l spent credited -> ledger_run l evs = Some l' ->
  ledger_inv l' (spent ++ spends evs) (credited ++ credits evs) /\ ledger_value l' = ledger_value l + balance evs.
Proof.
  revert l spent credited. induction evs as [|e evs IH]; intros l spent credited Hi H; simpl in H.
  - simplify_eq. rewrite !app_nil_r. split; [done|]. unfold balance. simpl. lia.
  - apply bind_Some in H as (l1 & Hs & H).
    pose proof (ledger_step_value _ _ _ _ _ Hi Hs) as Hv. pose proof (ledger_step_inv _ _ _ _ _ Hi Hs) as Hi1.
    apply (IH _ _ _ Hi1) in H as [H1 H2]. change (e :: evs) with ([e] ++ evs).
    rewrite spends_app, credits_app, balance_app, !app_assoc. split; [done|]. lia.
Qed.
