(* ===== verification/WalletServer.v ===== *)
(** * The wallet module of a guardian, first generation

    [modules/fedimint-wallet-server/src/lib.rs] with its tables in [db.rs], and
    the types of [modules/fedimint-wallet-common/src/].  The federation holds a
    set of outputs of its descriptor: users pay in and claim their outputs, a
    peg-out is a transaction with one output for the user and one for change,
    signed by a threshold of guardians.  Key arithmetic, hashing, scripts,
    signing and the finalization of a PSBT are parameters, and the bitcoin
    backend is a function from heights to blocks. *)

From S2P Require Import Prelude Encoding Db Amounts Peers Votes ServerModule Bitcoin WalletLedger.

(** ** Module data *)

(** Tweaks are strings of 33 bytes. *)
Record SpendableUTXO := { utxo_tweak : list Z; utxo_amount : Z }.
Record PegOutFees := { fee_rate : Z; total_weight : Z }.
Record Rbf := { rbf_fees : PegOutFees; rbf_txid : Z }.
Record PegOut := { recipient : Z; peg_out_amount : Z; fees : PegOutFees }.

Record PsbtInput := {
  witness_utxo : TxOut;
  witness_script : Z;
  partial_sigs : gmap Z Z;
  input_tweak : list Z;
}.
(** Of an output only the tweak is used. *)
Record Psbt := { unsigned_tx : BtcTransaction; psbt_inputs : list PsbtInput; psbt_outputs : list (option (list Z)) }.

(** The field [signatures] is always empty. *)
Record UnsignedTransaction := {
  psbt : Psbt;
  u_change : Z;
  u_fees : PegOutFees;
  u_destination : Z;
  u_selected_utxos : list (BtcOutPoint * SpendableUTXO);
  u_amount : Z;
  u_rbf : option Rbf;
}.
Record PendingTransaction := {
  p_tx : BtcTransaction;
  p_tweak : list Z;
  p_change : Z;
  p_destination : Z;
  p_fees : PegOutFees;
  p_selected_utxos : list (BtcOutPoint * SpendableUTXO);
  p_amount : Z;
  p_rbf : option Rbf;
}.

Record PegInProof := { txout_proof : Z; proof_tx : BtcTransaction; output_idx : Z; tweak_contract_key : Z }.

Inductive WalletInput :=
| WalletInputV0 (proof : PegInProof)
| WalletInputV1 (outpoint : BtcOutPoint) (tweak_key : Z) (tx_out : TxOut)
| WalletInputDefault (variant : Z) (bytes : list Z).

Inductive WalletOutput :=
| OutputPegOut (peg_out : PegOut)
| OutputRbf (rbf : Rbf)
| WalletOutputDefault (variant : Z) (bytes : list Z).

Inductive WalletConsensusItem :=
| BlockCount (count : Z)
| Feerate (rate : Z)
| PegOutSignature (txid : Z) (signature : list Z)
| ConsensusVersionVote (version : ModuleConsensusVersion)
| WalletItemDefault (variant : Z) (bytes : list Z).

(** Errors of inputs, of outputs and of items. *)
Inductive WalletError :=
| UnknownPegInProofBlock (block : Z)
| ScriptDoesNotMatch
| PegInAlreadyClaimed
| UnknownInputVariant (variant : Z)
| UnknownUTXO
| WrongOutputScript
| WrongTxOut
| WrongNetwork
| PegOutFeeBelowConsensus (rate consensus : Z)
| NotEnoughSpendableUTXO
| PegOutUnderDustLimit
| RbfTransactionIdNotFound
| TxWeightIncorrect (declared actual : Z)
| BelowMinRelayFee
| UnknownOutputVariant (variant : Z)
| VoteRedundant
| AlreadySigned
| UnknownTransaction
| WrongSignatureCount
| SighashError
| InvalidSignature
| DuplicateSignature
| UnknownItemVariant (variant : Z).

Definition DEPRECATED_RBF_ERROR : WalletError := UnknownOutputVariant 1.

Record Block := { block_hash : Z; prev_blockhash : Z; txdata : list BtcTransaction }.

(** ** Database *)

Record WalletDb := {
  block_hashes : gmap Z unit;
  block_hash_by_height : gmap Z Z;
  utxos : gmap BtcOutPoint SpendableUTXO;
  block_count_votes : gmap Z Z;
  fee_rate_votes : gmap Z Z;
  unsigned_txs : gmap Z UnsignedTransaction;
  pending_txs : gmap Z PendingTransaction;
  peg_out_sigs : gmap Z (list Z);
  peg_out_outcomes : gmap OutPoint Z;
  peg_out_nonce : gmap unit Z;
  claimed : gmap BtcOutPoint unit;
  version_votes : gmap Z ModuleConsensusVersion;
  unspent : gmap BtcOutPoint TxOut;
  voting_activation : gmap unit unit;
  recovery_items : gmap Z (BtcOutPoint * Z);
}.

Definition WalletDb_empty : WalletDb :=
  {| block_hashes := ∅; block_hash_by_height := ∅; utxos := ∅; block_count_votes := ∅;
     fee_rate_votes := ∅; unsigned_txs := ∅; pending_txs := ∅; peg_out_sigs := ∅;
     peg_out_outcomes := ∅; peg_out_nonce := ∅; claimed := ∅; version_votes := ∅; unspent := ∅;
     voting_activation := ∅; recovery_items := ∅ |}.

Definition BlockHashKey : table WalletDb Z unit := Table block_hashes (fun f s =>
  {| block_hashes := f (block_hashes s); block_hash_by_height := block_hash_by_height s; utxos
     := utxos s; block_count_votes := block_count_votes s; fee_rate_votes := fee_rate_votes s;
     unsigned_txs := unsigned_txs s; pending_txs := pending_txs s; peg_out_sigs := peg_out_sigs
     s; peg_out_outcomes := peg_out_outcomes s; peg_out_nonce := peg_out_nonce s; claimed :=
     claimed s; version_votes := version_votes s; unspent := unspent s; voting_activation :=
     voting_activation s; recovery_items := recovery_items s |}).
Definition BlockHashByHeightKey : table WalletDb Z Z := Table block_hash_by_height (fun f s =>
  {| block_hashes := block_hashes s; block_hash_by_height := f (block_hash_by_height s); utxos
     := utxos s; block_count_votes := block_count_votes s; fee_rate_votes := fee_rate_votes s;
     unsigned_txs := unsigned_txs s; pending_txs := pending_txs s; peg_out_sigs := peg_out_sigs
     s; peg_out_outcomes := peg_out_outcomes s; peg_out_nonce := peg_out_nonce s; claimed :=
     claimed s; version_votes := version_votes s; unspent := unspent s; voting_activation :=
     voting_activation s; recovery_items := recovery_items s |}).
Definition UTXOKey : table WalletDb BtcOutPoint SpendableUTXO := Table utxos (fun f s =>
  {| block_hashes := block_hashes s; block_hash_by_height := block_hash_by_height s; utxos := f
     (utxos s); block_count_votes := block_count_votes s; fee_rate_votes := fee_rate_votes s;
     unsigned_txs := unsigned_txs s; pending_txs := pending_txs s; peg_out_sigs := peg_out_sigs
     s; peg_out_outcomes := peg_out_outcomes s; peg_out_nonce := peg_out_nonce s; claimed :=
     claimed s; version_votes := version_votes s; unspent := unspent s; voting_activation :=
     voting_activation s; recovery_items := recovery_items s |}).
Definition BlockCountVoteKey : table WalletDb Z Z := Table block_count_votes (fun f s =>
  {| block_hashes := block_hashes s; block_hash_by_height := block_hash_by_height s; utxos :=
     utxos s; block_count_votes := f (block_count_votes s); fee_rate_votes := fee_rate_votes s;
     unsigned_txs := unsigned_txs s; pending_txs := pending_txs s; peg_out_sigs := peg_out_sigs
     s; peg_out_outcomes := peg_out_outcomes s; peg_out_nonce := peg_out_nonce s; claimed :=
     claimed s; version_votes := version_votes s; unspent := unspent s; voting_activation :=
     voting_activation s; recovery_items := recovery_items s |}).
Definition FeeRateVoteKey : table WalletDb Z Z := Table fee_rate_votes (fun f s =>
  {| block_hashes := block_hashes s; block_hash_by_height := block_hash_by_height s; utxos :=
     utxos s; block_count_votes := block_count_votes s; fee_rate_votes := f (fee_rate_votes s);
     unsigned_txs := unsigned_txs s; pending_txs := pending_txs s; peg_out_sigs := peg_out_sigs
     s; peg_out_outcomes := peg_out_outcomes s; peg_out_nonce := peg_out_nonce s; claimed :=
     claimed s; version_votes := version_votes s; unspent := unspent s; voting_activation :=
     voting_activation s; recovery_items := recovery_items s |}).
Definition UnsignedTransactionKey : table WalletDb Z UnsignedTransaction := Table unsigned_txs (fun f s =>
  {| block_hashes := block_hashes s; block_hash_by_height := block_hash_by_height s; utxos :=
     utxos s; block_count_votes := block_count_votes s; fee_rate_votes := fee_rate_votes s;
     unsigned_txs := f (unsigned_txs s); pending_txs := pending_txs s; peg_out_sigs :=
     peg_out_sigs s; peg_out_outcomes := peg_out_outcomes s; peg_out_nonce := peg_out_nonce s;
     claimed := claimed s; version_votes := version_votes s; unspent := unspent s;
     voting_activation := voting_activation s; recovery_items := recovery_items s |}).
Definition PendingTransactionKey : table WalletDb Z PendingTransaction := Table pending_txs (fun f s =>
  {| block_hashes := block_hashes s; block_hash_by_height := block_hash_by_height s; utxos :=
     utxos s; block_count_votes := block_count_votes s; fee_rate_votes := fee_rate_votes s;
     unsigned_txs := unsigned_txs s; pending_txs := f (pending_txs s); peg_out_sigs :=
     peg_out_sigs s; peg_out_outcomes := peg_out_outcomes s; peg_out_nonce := peg_out_nonce s;
     claimed := claimed s; version_votes := version_votes s; unspent := unspent s;
     voting_activation := voting_activation s; recovery_items := recovery_items s |}).
Definition PegOutTxSignatureCI : table WalletDb Z (list Z) := Table peg_out_sigs (fun f s =>
  {| block_hashes := block_hashes s; block_hash_by_height := block_hash_by_height s; utxos :=
     utxos s; block_count_votes := block_count_votes s; fee_rate_votes := fee_rate_votes s;
     unsigned_txs := unsigned_txs s; pending_txs := pending_txs s; peg_out_sigs := f
     (peg_out_sigs s); peg_out_outcomes := peg_out_outcomes s; peg_out_nonce := peg_out_nonce s;
     claimed := claimed s; version_votes := version_votes s; unspent := unspent s;
     voting_activation := voting_activation s; recovery_items := recovery_items s |}).
Definition PegOutBitcoinTransaction : table WalletDb OutPoint Z := Table peg_out_outcomes (fun f s =>
  {| block_hashes := block_hashes s; block_hash_by_height := block_hash_by_height s; utxos :=
     utxos s; block_count_votes := block_count_votes s; fee_rate_votes := fee_rate_votes s;
     unsigned_txs := unsigned_txs s; pending_txs := pending_txs s; peg_out_sigs := peg_out_sigs
     s; peg_out_outcomes := f (peg_out_outcomes s); peg_out_nonce := peg_out_nonce s; claimed :=
     claimed s; version_votes := version_votes s; unspent := unspent s; voting_activation :=
     voting_activation s; recovery_items := recovery_items s |}).
Definition PegOutNonceKey : table WalletDb unit Z := Table peg_out_nonce (fun f s =>
  {| block_hashes := block_hashes s; block_hash_by_height := block_hash_by_height s; utxos :=
     utxos s; block_count_votes := block_count_votes s; fee_rate_votes := fee_rate_votes s;
     unsigned_txs := unsigned_txs s; pending_txs := pending_txs s; peg_out_sigs := peg_out_sigs
     s; peg_out_outcomes := peg_out_outcomes s; peg_out_nonce := f (peg_out_nonce s); claimed :=
     claimed s; version_votes := version_votes s; unspent := unspent s; voting_activation :=
     voting_activation s; recovery_items := recovery_items s |}).
Definition ClaimedPegInOutpointKey : table WalletDb BtcOutPoint unit := Table claimed (fun f s =>
  {| block_hashes := block_hashes s; block_hash_by_height := block_hash_by_height s; utxos :=
     utxos s; block_count_votes := block_count_votes s; fee_rate_votes := fee_rate_votes s;
     unsigned_txs := unsigned_txs s; pending_txs := pending_txs s; peg_out_sigs := peg_out_sigs
     s; peg_out_outcomes := peg_out_outcomes s; peg_out_nonce := peg_out_nonce s; claimed := f
     (claimed s); version_votes := version_votes s; unspent := unspent s; voting_activation :=
     voting_activation s; recovery_items := recovery_items s |}).
Definition ConsensusVersionVoteKey : table WalletDb Z ModuleConsensusVersion := Table version_votes (fun f s =>
  {| block_hashes := block_hashes s; block_hash_by_height := block_hash_by_height s; utxos :=
     utxos s; block_count_votes := block_count_votes s; fee_rate_votes := fee_rate_votes s;
     unsigned_txs := unsigned_txs s; pending_txs := pending_txs s; peg_out_sigs := peg_out_sigs
     s; peg_out_outcomes := peg_out_outcomes s; peg_out_nonce := peg_out_nonce s; claimed :=
     claimed s; version_votes := f (version_votes s); unspent := unspent s; voting_activation :=
     voting_activation s; recovery_items := recovery_items s |}).
Definition UnspentTxOutKey : table WalletDb BtcOutPoint TxOut := Table unspent (fun f s =>
  {| block_hashes := block_hashes s; block_hash_by_height := block_hash_by_height s; utxos :=
     utxos s; block_count_votes := block_count_votes s; fee_rate_votes := fee_rate_votes s;
     unsigned_txs := unsigned_txs s; pending_txs := pending_txs s; peg_out_sigs := peg_out_sigs
     s; peg_out_outcomes := peg_out_outcomes s; peg_out_nonce := peg_out_nonce s; claimed :=
     claimed s; version_votes := version_votes s; unspent := f (unspent s); voting_activation :=
     voting_activation s; recovery_items := recovery_items s |}).
Definition ConsensusVersionVotingActivationKey : table WalletDb unit unit := Table voting_activation (fun f s =>
  {| block_hashes := block_hashes s; block_hash_by_height := block_hash_by_height s; utxos :=
     utxos s; block_count_votes := block_count_votes s; fee_rate_votes := fee_rate_votes s;
     unsigned_txs := unsigned_txs s; pending_txs := pending_txs s; peg_out_sigs := peg_out_sigs
     s; peg_out_outcomes := peg_out_outcomes s; peg_out_nonce := peg_out_nonce s; claimed :=
     claimed s; version_votes := version_votes s; unspent := unspent s; voting_activation := f
     (voting_activation s); recovery_items := recovery_items s |}).
Definition RecoveryItemKey : table WalletDb Z (BtcOutPoint * Z) := Table recovery_items (fun f s =>
  {| block_hashes := block_hashes s; block_hash_by_height := block_hash_by_height s; utxos :=
     utxos s; block_count_votes := block_count_votes s; fee_rate_votes := fee_rate_votes s;
     unsigned_txs := unsigned_txs s; pending_txs := pending_txs s; peg_out_sigs := peg_out_sigs
     s; peg_out_outcomes := peg_out_outcomes s; peg_out_nonce := peg_out_nonce s; claimed :=
     claimed s; version_votes := version_votes s; unspent := unspent s; voting_activation :=
     voting_activation s; recovery_items := f (recovery_items s) |}).

(** The descriptor is determined by the peers' keys; fees are in millisatoshi. *)
Record WalletConfig := {
  peer_peg_in_keys : gmap Z Z;
  peg_in_key : Z;
  network : Z;
  finality_delay : Z;
  default_fee : Z;
  peg_in_abs : Z;
  peg_out_abs : Z;
  our_peer_id : Z;
}.

Definition MODULE_CONSENSUS_VERSION : ModuleConsensusVersion := {| vmajor := 2; vminor := 3 |}.
Definition CHECKED_PEG_OUT_FEE_MODULE_CONSENSUS_VERSION : ModuleConsensusVersion := {| vmajor := 2; vminor := 3 |}.
Definition SAFE_DEPOSIT_MODULE_CONSENSUS_VERSION : ModuleConsensusVersion := {| vmajor := 2; vminor := 2 |}.
Definition PEG_OUT_CHANGE_VOUT : Z := 1.

(** [bitcoin::policy::DEFAULT_MIN_RELAY_TX_FEE], in satoshis per 1000 virtual
    bytes. *)
Definition DEFAULT_MIN_RELAY_TX_FEE : Z := 1000.

(** [as u32] and [u32] arithmetic. *)
Definition wrap_u32 (x : Z) : Z := x mod 4294967296.

Definition enumerate {A} (l : list A) : list (Z * A) := zip (seqZ 0 (Z.of_nat (length l))) l.

(** [slice::sort_by_key], which is stable. *)
Fixpoint sorted_insert {A} (key : A -> Z) (x : A) (l : list A) : list A :=
  match l with
  | [] => [x]
  | y :: l' => if key x <=? key y then x :: l else y :: sorted_insert key x l'
  end.
Definition sort_by_key {A} (key : A -> Z) (l : list A) : list A := foldr (sorted_insert key) [] l.

(** The order of the encoded keys of the table of unspent outputs: the bytes
    of the transaction id and the little-endian bytes of the index. *)
Definition outpoint_rank (o : BtcOutPoint) : Z := btc_txid o * 4294967296 + from_be_bytes (reverse (to_be_bytes 4 (vout o))).

Inductive FeeArithmetic := Wrapping | Checked.
Definition calculate_fee (arithmetic : FeeArithmetic) (rate weight : Z) : option Z :=
  match arithmetic with
  | Wrapping => Some (wrapping_calculate_fee rate weight)
  | Checked => checked_calculate_fee rate weight
  end.

(** [PegOutFees::amount], with the wrap-around of release builds. *)
Definition PegOutFees_amount (f : PegOutFees) : Z := wrapping_calculate_fee (fee_rate f) (total_weight f).

(** The sum of two [bitcoin::Amount]s panics when it overflows. *)
Definition WalletOutput_amount (p : PegOut) : option Z := checked_add (peg_out_amount p) (PegOutFees_amount (fees p)).

Definition with_sigs (sigs : gmap Z Z) (i : PsbtInput) : PsbtInput :=
  {| witness_utxo := witness_utxo i; witness_script := witness_script i; partial_sigs := sigs; input_tweak := input_tweak i |}.
Definition with_inputs (inputs : list PsbtInput) (p : Psbt) : Psbt :=
  {| unsigned_tx := unsigned_tx p; psbt_inputs := inputs; psbt_outputs := psbt_outputs p |}.
Definition with_psbt (p : Psbt) (u : UnsignedTransaction) : UnsignedTransaction :=
  {| psbt := p; u_change := u_change u; u_fees := u_fees u; u_destination := u_destination u;
     u_selected_utxos := u_selected_utxos u; u_amount := u_amount u; u_rbf := u_rbf u |}.

(** ** Operations *)
Section wallet.
Context (cfg : WalletConfig).

(** Keys: serialization, public key of a secret key, hmac-sha256 under a
    serialized key, and the tweaks of public and secret keys. *)
Context (serialize_key : Z -> list Z) (from_secret_key : Z -> Z) (hmac : list Z -> list Z -> Z).
Context (add_exp_tweak : Z -> Z -> Z) (add_tweak : Z -> Z -> Z).

(** Scripts: script and script code of the descriptor with the given keys, the
    weight of satisfying it, length, dust limit and kind of a script; the
    script of an address and its network. *)
Context (descriptor_script : list Z -> Z) (descriptor_code : list Z -> Z) (max_satisfaction_weight : Z).
Context (script_len : Z -> Z) (minimal_non_dust : Z -> Z) (is_p2wsh is_p2wpkh : Z -> bool).
Context (address_script : Z -> Z) (is_valid_for_network : Z -> Z -> bool).

(** Transaction ids, the signature hash of an input (transaction, index,
    script, value), ecdsa, and [finalize_mut] followed by [extract_tx]. *)
Context (compute_txid : BtcTransaction -> Z) (sighash : BtcTransaction -> Z -> Z -> Z -> option Z).
Context (sign_ecdsa : Z -> Z -> Z) (verify_ecdsa : Z -> Z -> Z -> bool) (finalize : Psbt -> option BtcTransaction).

(** Proofs of inclusion, sha256, the encoding of integers, and the blocks of
    the bitcoin backend. *)
Context (proof_block : Z -> Z) (proof_contains : Z -> Z -> bool) (sha256 : list Z -> Z) (bigsize : codec Z).
Context (get_block : Z -> Block).

Abbreviation MW := (M WalletDb WalletError).

Definition num_peers : Z := Z.of_nat (size (peer_peg_in_keys cfg)).

(** *** Tweaks *)

(** [Tweakable for PublicKey] and [Tweakable for SecretKey]. *)
Definition tweak_public_key (key : Z) (tweak : list Z) : Z := add_exp_tweak key (hmac (serialize_key key) tweak).
Definition tweak_secret_key (key : Z) (tweak : list Z) : Z := add_tweak key (hmac (serialize_key (from_secret_key key)) tweak).

(** [Tweakable for Descriptor]: the descriptor with every key tweaked. *)
Definition peg_in_descriptor : list Z := (btree_iter (peer_peg_in_keys cfg)).*2.
Definition tweak_descriptor (tweak : list Z) : list Z := (fun key => tweak_public_key key tweak) <$> peg_in_descriptor.
Definition tweaked_script (tweak : list Z) : Z := descriptor_script (tweak_descriptor tweak).

(** [StatelessWallet::derive_script] with its own translator. *)
Definition derive_script (tweak : list Z) : Z :=
  descriptor_script ((fun key => add_exp_tweak key (hmac (serialize_key key) tweak)) <$> peg_in_descriptor).

(** It makes the nonce look like a compressed public key. *)
Definition nonce_from_idx (nonce_idx : Z) : list Z :=
  2 :: to_be_bytes 32 (sha256 (consensus_encode (u64_codec bigsize) nonce_idx)).

(** *** Peg-in proofs *)

Definition validate_peg_in_proof (p : PegInProof) : bool :=
  proof_contains (txout_proof p) (compute_txid (proof_tx p)) &&
  (Z.of_nat (length (tx_output (proof_tx p))) <=? 4294967295) &&
  match tx_output (proof_tx p) !! Z.to_nat (output_idx p) with
  | Some txo => value txo <=? MAX_MONEY
  | None => false
  end.

Definition PegInProof_outpoint (p : PegInProof) : BtcOutPoint :=
  {| btc_txid := compute_txid (proof_tx p); vout := output_idx p |}.

(** [None] panics. *)
Definition PegInProof_tx_output (p : PegInProof) : option TxOut := tx_output (proof_tx p) !! Z.to_nat (output_idx p).

Definition PegInProof_verify (p : PegInProof) : MW unit :=
  txo ← expect (PegInProof_tx_output p);
  ensure (script_pubkey txo =? tweaked_script (serialize_key (tweak_contract_key p))) ScriptDoesNotMatch.

(** *** Votes *)

Definition consensus_block_count (d : WalletDb) : option Z := median_vote num_peers 0 (votes_of (block_count_votes d)).
Definition consensus_fee_rate (d : WalletDb) : option Z := median_vote num_peers (default_fee cfg) (votes_of (fee_rate_votes d)).
Definition consensus_module_consensus_version (d : WalletDb) : option ModuleConsensusVersion := version_vote num_peers (version_votes d).

(** [block_count] is what the backend reports, when it fits in a [u32], and
    [fee_rate] its fee rate times the multiplier; [supported] the version all
    peers support and [automatic] whether voting for it is enabled; the larger
    step of test environments is left out. *)
Definition consensus_proposal (block_count : option Z) (fee_rate : Z) (supported : option ModuleConsensusVersion) (automatic : bool) : MW (list WalletConsensusItem) :=
  sigs ← gets (fun d => btree_iter (peg_out_sigs d));
  count ← gets consensus_block_count;
  block_items ← match block_count with
    | Some c =>
        current ← expect count;
        let vote := saturating_sub c (finality_delay cfg) in
        mret [BlockCount (if current =? 0 then vote else Z.min vote (wrap_u32 (current + 5)))]
    | None => mret []
    end;
  manual ← get_value ConsensusVersionVotingActivationKey tt;
  active ← gets consensus_module_consensus_version;
  active ← expect active;
  let manual_vote := (fun _ => MODULE_CONSENSUS_VERSION) <$> manual in
  let automatic_vote :=
    if automatic then v ← supported; if decide (version_le v active) then None else Some v else None in
  let vote := match automatic_vote with Some v => Some v | None => manual_vote end in
  mret (((fun kv => PegOutSignature kv.1 kv.2) <$> sigs) ++ block_items ++ [Feerate fee_rate] ++
        match vote with Some v => [ConsensusVersionVote v] | None => [] end).

(** *** Building a peg-out *)

Definition available_utxos (d : WalletDb) : list (BtcOutPoint * SpendableUTXO) :=
  sort_by_key (fun kv => outpoint_rank kv.1) (map_to_list (utxos d)).

(** The weight of a transaction with no inputs and of each input. *)
Definition base_weight (destination change_script : Z) : Z :=
  16 + 12 + 12 + (script_len destination * 4 + 1 + 32 + 1 + script_len change_script * 4 + 32) + 16.
Definition max_input_weight : Z := max_satisfaction_weight + 128 + 16 + 16.

(** The loop of [create_tx] on the outputs in the order they are popped. *)
Fixpoint select_utxos (arithmetic : FeeArithmetic) (rate amount dust : Z) (stack : list (BtcOutPoint * SpendableUTXO))
    (selected : list (BtcOutPoint * SpendableUTXO)) (total weight fees : Z) : MW (list (BtcOutPoint * SpendableUTXO) * Z * Z * Z) :=
  target ← ok_or (t ← checked_add amount dust; checked_add t fees) NotEnoughSpendableUTXO;
  if target <=? total then mret (selected, total, weight, fees)
  else match stack with
       | [] => throw NotEnoughSpendableUTXO
       | u :: stack' =>
           total ← expect (checked_add total (utxo_amount u.2));
           let weight := weight + max_input_weight in
           fees ← ok_or (calculate_fee arithmetic rate weight) NotEnoughSpendableUTXO;
           select_utxos arithmetic rate amount dust stack' (selected ++ [u]) total weight fees
       end.

(** The transaction and its PSBT. *)
Definition peg_out_tx (selected : list (BtcOutPoint * SpendableUTXO)) (destination amount change_script change : Z) : BtcTransaction :=
  {| tx_input := (fun u => {| previous_output := u.1; witness := None |}) <$> selected;
     tx_output := [ {| value := amount; script_pubkey := destination |}; {| value := change; script_pubkey := change_script |} ] |}.
Definition psbt_input (u : BtcOutPoint * SpendableUTXO) : PsbtInput :=
  {| witness_utxo := {| value := utxo_amount u.2; script_pubkey := tweaked_script (utxo_tweak u.2) |};
     witness_script := descriptor_code (tweak_descriptor (utxo_tweak u.2));
     partial_sigs := ∅; input_tweak := utxo_tweak u.2 |}.

Definition create_tx (amount destination : Z) (included remaining : list (BtcOutPoint * SpendableUTXO)) (rate : Z)
    (change_tweak : list Z) (rbf : option Rbf) (arithmetic : FeeArithmetic) : MW UnsignedTransaction :=
  _ ← ensure (negb (MAX_MONEY <? amount)) NotEnoughSpendableUTXO;
  let rate := match rbf with Some r => saturating_add rate (fee_rate (rbf_fees r)) | None => rate end in
  let change_script := derive_script change_tweak in
  let weight := base_weight destination change_script in
  let by_amount := sort_by_key (fun u => utxo_amount u.2) in
  fees0 ← ok_or (calculate_fee arithmetic rate weight) NotEnoughSpendableUTXO;
  r ← select_utxos arithmetic rate amount (minimal_non_dust change_script)
        (reverse (by_amount included ++ by_amount remaining)) [] 0 weight fees0;
  let '(selected, total, weight, fees) := r in
  let change := total - fees - amount in
  mret {| psbt := {| unsigned_tx := peg_out_tx selected destination amount change_script change;
                     psbt_inputs := psbt_input <$> selected; psbt_outputs := [None; Some change_tweak] |};
          u_change := change; u_fees := {| fee_rate := rate; total_weight := weight |}; u_destination := destination;
          u_selected_utxos := selected; u_amount := amount; u_rbf := rbf |}.

Definition create_peg_out_tx (output : PegOut + Rbf) (change_tweak : list Z) : MW UnsignedTransaction :=
  version ← gets consensus_module_consensus_version;
  version ← expect version;
  let arithmetic := if decide (version_le CHECKED_PEG_OUT_FEE_MODULE_CONSENSUS_VERSION version) then Checked else Wrapping in
  match output with
  | inl p =>
      available ← gets available_utxos;
      create_tx (peg_out_amount p) (address_script (recipient p)) [] available (fee_rate (fees p)) change_tweak None arithmetic
  | inr rbf =>
      tx ← get_value PendingTransactionKey (rbf_txid rbf);
      tx ← ok_or tx RbfTransactionIdNotFound;
      available ← gets available_utxos;
      create_tx (p_amount tx) (p_destination tx) (p_selected_utxos tx) available (fee_rate (p_fees tx)) change_tweak (Some rbf) arithmetic
  end.

Definition validate_tx (tx : UnsignedTransaction) (p : PegOut) (consensus_fee_rate : Z) : MW unit :=
  _ ← ensure (is_valid_for_network (recipient p) (network cfg)) WrongNetwork;
  _ ← ensure (negb (u_amount tx <? minimal_non_dust (u_destination tx))) PegOutUnderDustLimit;
  _ ← ensure (negb (fee_rate (u_fees tx) <? consensus_fee_rate)) (PegOutFeeBelowConsensus (fee_rate (u_fees tx)) consensus_fee_rate);
  _ ← ensure (negb (fee_rate (fees p) <? DEFAULT_MIN_RELAY_TX_FEE)) BelowMinRelayFee;
  ensure (total_weight (fees p) =? total_weight (u_fees tx)) (TxWeightIncorrect (total_weight (fees p)) (total_weight (u_fees tx))).

(** Our own signature on every input; a signature hash that fails panics. *)
Definition sign_psbt (p : Psbt) : option Psbt :=
  inputs ← mapM (fun ii : Z * PsbtInput =>
    let tweaked_secret := tweak_secret_key (peg_in_key cfg) (input_tweak ii.2) in
    hash ← sighash (unsigned_tx p) ii.1 (witness_script ii.2) (value (witness_utxo ii.2));
    Some (with_sigs (<[from_secret_key tweaked_secret := sign_ecdsa hash tweaked_secret]> (partial_sigs ii.2)) ii.2))
    (enumerate (psbt_inputs p));
  Some (with_inputs inputs p).

(** The signatures are taken out of the PSBT again. *)
Definition take_signature (i : PsbtInput) : option Z :=
  match map_to_list (partial_sigs i) with [(_, s)] => Some s | _ => None end.

(** *** Inputs *)

(** The claimed outpoint, its output and the key of the claimant. *)
Definition resolve_input (input : WalletInput) : MW (BtcOutPoint * TxOut * Z) :=
  match input with
  | WalletInputV0 proof =>
      known ← get_value BlockHashKey (proof_block (txout_proof proof));
      _ ← ensure (bool_decide (is_Some known)) (UnknownPegInProofBlock (proof_block (txout_proof proof)));
      _ ← PegInProof_verify proof;
      tx_out ← expect (PegInProof_tx_output proof);
      mret (PegInProof_outpoint proof, tx_out, tweak_contract_key proof)
  | WalletInputV1 outpoint tweak_key tx_out =>
      input_tx_out ← get_value UnspentTxOutKey outpoint;
      input_tx_out ← ok_or input_tx_out UnknownUTXO;
      _ ← ensure (script_pubkey input_tx_out =? tweaked_script (serialize_key tweak_key)) WrongOutputScript;
      _ ← ensure (bool_decide (tx_out = input_tx_out)) WrongTxOut;
      mret (outpoint, input_tx_out, tweak_key)
  | WalletInputDefault variant _ => throw (UnknownInputVariant variant)
  end.

Definition get_recovery_count : MW Z := gets (fun d => next_index (recovery_items d)).

Definition wallet_process_input (input : WalletInput) (p : InPoint) : MW InputMeta :=
  r ← resolve_input input;
  let '(outpoint, tx_out, pub_key) := r in
  tracked ← get_value UTXOKey outpoint;
  _ ← ensure (negb (bool_decide (is_Some tracked))) PegInAlreadyClaimed;
  seen ← insert_entry ClaimedPegInOutpointKey outpoint tt;
  _ ← ensure (negb (bool_decide (is_Some seen))) PegInAlreadyClaimed;
  _ ← insert_new_entry UTXOKey outpoint {| utxo_tweak := serialize_key pub_key; utxo_amount := value tx_out |};
  next ← get_recovery_count;
  _ ← insert_new_entry RecoveryItemKey next (outpoint, script_pubkey tx_out);
  amount ← expect (Amount.from_bitcoin_amount (value tx_out));
  mret {| ServerModule.amount := {| amounts := Amounts.new_bitcoin amount; ServerModule.fees := Amounts.new_bitcoin (peg_in_abs cfg) |};
          pub_key := pub_key |}.

(** *** Outputs *)

Definition consensus_nonce : MW (list Z) :=
  idx ← get_value PegOutNonceKey tt;
  _ ← insert_entry PegOutNonceKey tt (wrap_u64 (default 0 idx + 1));
  mret (nonce_from_idx (default 0 idx)).

(** The transaction is stored without our signature, which is proposed
    separately. *)
Definition store_peg_out (tx : UnsignedTransaction) (o : OutPoint) : MW unit :=
  signed ← expect (sign_psbt (psbt tx));
  let txid := compute_txid (unsigned_tx signed) in
  sigs ← expect (mapM take_signature (psbt_inputs signed));
  let unsigned := with_psbt (with_inputs (with_sigs ∅ <$> psbt_inputs signed) signed) tx in
  _ ← for_each (tx_input (unsigned_tx signed)) (fun i => _ ← remove_entry UTXOKey (previous_output i); mret tt);
  _ ← insert_entry ClaimedPegInOutpointKey {| btc_txid := txid; vout := PEG_OUT_CHANGE_VOUT |} tt;
  _ ← insert_new_entry UnsignedTransactionKey txid unsigned;
  _ ← insert_new_entry PegOutTxSignatureCI txid sigs;
  insert_new_entry PegOutBitcoinTransaction o txid.

Definition wallet_process_output (output : WalletOutput) (o : OutPoint) : MW TransactionItemAmounts :=
  match output with
  | OutputPegOut p =>
      change_tweak ← consensus_nonce;
      tx ← create_peg_out_tx (inl p) change_tweak;
      rate ← gets consensus_fee_rate;
      rate ← expect rate;
      _ ← validate_tx tx p rate;
      _ ← store_peg_out tx o;
      sats ← expect (WalletOutput_amount p);
      amount ← expect (Amount.from_bitcoin_amount sats);
      mret {| amounts := Amounts.new_bitcoin amount; ServerModule.fees := Amounts.new_bitcoin (peg_out_abs cfg) |}
  | OutputRbf _ => throw DEPRECATED_RBF_ERROR
  | WalletOutputDefault variant _ => throw (UnknownOutputVariant variant)
  end.

Definition wallet_verify_output_submission (output : WalletOutput) (o : OutPoint) : MW unit :=
  let check f :=
    match checked_mul (weight_to_vbytes (total_weight f)) (fee_rate f) with
    | Some product => ensure (product / 1000 <=? MAX_MONEY) NotEnoughSpendableUTXO
    | None => throw NotEnoughSpendableUTXO
    end in
  match output with
  | OutputPegOut p => check (fees p)
  | OutputRbf r => check (rbf_fees r)
  | WalletOutputDefault variant _ => throw (UnknownOutputVariant variant)
  end.

Definition output_status (o : OutPoint) : MW (option Z) := get_value PegOutBitcoinTransaction o.

(** *** Blocks *)

(** The outputs that can be claimed by version 1 inputs. *)
Definition track_tx (t : BtcTransaction) : MW unit :=
  _ ← for_each (tx_input t) (fun i => _ ← remove_entry UnspentTxOutKey (previous_output i); mret tt);
  for_each (enumerate (tx_output t)) (fun io =>
    let tracked := if 1 <? num_peers then is_p2wsh (script_pubkey io.2) else is_p2wpkh (script_pubkey io.2) in
    if tracked then insert_new_entry UnspentTxOutKey {| btc_txid := compute_txid t; vout := wrap_u32 io.1 |} io.2
    else mret tt).

(** The worklist of [remove_rbf_transactions]: the ids of the transactions to
    remove.  The last element pushed is the first of the list. *)
Fixpoint rbf_closure (fuel : nat) (to_remove : list PendingTransaction) (all : gmap Z PendingTransaction) : option (list Z) :=
  match fuel, to_remove with
  | O, _ => None
  | _, [] => Some []
  | S fuel, removed :: rest =>
      let txid := compute_txid (p_tx removed) in
      let all := delete txid all in
      let replaced := match p_rbf removed with Some r => option_list (all !! rbf_txid r) | None => [] end in
      let replacing := filter (fun t => rbf_txid <$> p_rbf t = Some txid) (btree_iter all).*2 in
      txids ← rbf_closure fuel (reverse replacing ++ replaced ++ rest) all;
      Some (txid :: txids)
  end.

(** Enough iterations for any set of pending transactions. *)
Definition rbf_fuel (all : gmap Z PendingTransaction) : nat := ((size all + 2) * (size all + 2))%nat.

Definition remove_rbf_transactions (tx : PendingTransaction) : MW unit :=
  all ← gets pending_txs;
  txids ← expect (rbf_closure (rbf_fuel all) [tx] all);
  for_each txids (fun txid => _ ← remove_entry PendingTransactionKey txid; mret tt).

Definition recognize_change_utxo (tx : PendingTransaction) : MW unit :=
  _ ← remove_rbf_transactions tx;
  for_each (enumerate (tx_output (p_tx tx))) (fun io =>
    if script_pubkey io.2 =? tweaked_script (p_tweak tx) then
      _ ← insert_entry UTXOKey {| btc_txid := compute_txid (p_tx tx); vout := wrap_u32 io.1 |}
            {| utxo_tweak := p_tweak tx; utxo_amount := value io.2 |}; mret tt
    else mret tt).

Definition sync_block (height : Z) : MW unit :=
  let block := get_block height in
  prev ← (if 1 <=? height then get_value BlockHashByHeightKey (height - 1) else mret None);
  _ ← match prev with Some hash => rassert (prev_blockhash block =? hash) | None => mret tt end;
  version ← gets consensus_module_consensus_version;
  version ← expect version;
  _ ← (if decide (version_le SAFE_DEPOSIT_MODULE_CONSENSUS_VERSION version) then for_each (txdata block) track_tx else mret tt);
  pending ← gets (fun d => btree_iter (pending_txs d));
  _ ← for_each pending (fun kv =>
        if existsb (fun t => compute_txid t =? kv.1) (txdata block) then recognize_change_utxo kv.2 else mret tt);
  _ ← insert_new_entry BlockHashKey (block_hash block) tt;
  insert_new_entry BlockHashByHeightKey height (block_hash block).

(** The wait for the backend to see the blocks as final changes nothing. *)
Definition sync_up_to_consensus_count (old_count new_count : Z) : MW unit :=
  for_each (seqZ old_count (new_count - old_count)) sync_block.

(** *** Consensus items *)

Definition process_block_count (vote peer : Z) : MW unit :=
  current ← get_value BlockCountVoteKey peer;
  _ ← ensure (default 0 current <? vote) VoteRedundant;
  old ← gets consensus_block_count;
  old ← expect old;
  _ ← insert_entry BlockCountVoteKey peer vote;
  new ← gets consensus_block_count;
  new ← expect new;
  _ ← rassert (old <=? new);
  if (new =? old) || (old =? 0) then mret tt else sync_up_to_consensus_count old new.

(** One input of [sign_peg_out_psbt] under the key of the peer. *)
Definition add_signature (tx : BtcTransaction) (peer_key : Z) (ii : Z * (PsbtInput * Z)) : WalletError + PsbtInput :=
  let '(idx, (input, signature)) := ii in
  match sighash tx idx (witness_script input) (value (witness_utxo input)) with
  | None => inl SighashError
  | Some hash =>
      let key := tweak_public_key peer_key (input_tweak input) in
      if verify_ecdsa hash signature key then
        match partial_sigs input !! key with
        | Some _ => inl DuplicateSignature
        | None => inr (with_sigs (<[key := signature]> (partial_sigs input)) input)
        end
      else inl InvalidSignature
  end.

Fixpoint add_signatures (tx : BtcTransaction) (peer_key : Z) (l : list (Z * (PsbtInput * Z))) : WalletError + list PsbtInput :=
  match l with
  | [] => inr []
  | ii :: l' =>
      match add_signature tx peer_key ii with
      | inl e => inl e
      | inr i => match add_signatures tx peer_key l' with inl e => inl e | inr rest => inr (i :: rest) end
      end
  end.

Definition sign_peg_out_psbt (p : Psbt) (peer : Z) (signature : list Z) : MW Psbt :=
  peer_key ← expect (peer_peg_in_keys cfg !! peer);
  _ ← ensure (length (psbt_inputs p) =? length signature)%nat WrongSignatureCount;
  match add_signatures (unsigned_tx p) peer_key (enumerate (zip (psbt_inputs p) signature)) with
  | inl e => throw e
  | inr inputs => mret (with_inputs inputs p)
  end.

(** An error is [None]. *)
Definition finalize_peg_out_psbt (u : UnsignedTransaction) : option PendingTransaction :=
  change_tweak ← head (omap id (psbt_outputs (psbt u)));
  if (length change_tweak =? 33)%nat then
    tx ← finalize (psbt u);
    Some {| p_tx := tx; p_tweak := change_tweak; p_change := u_change u; p_destination := u_destination u; p_fees := u_fees u;
            p_selected_utxos := u_selected_utxos u; p_amount := u_amount u; p_rbf := u_rbf u |}
  else None.

Definition process_signature (txid : Z) (signature : list Z) (peer : Z) : MW unit :=
  pending ← get_value PendingTransactionKey txid;
  _ ← ensure (negb (bool_decide (is_Some pending))) AlreadySigned;
  unsigned ← get_value UnsignedTransactionKey txid;
  unsigned ← ok_or unsigned UnknownTransaction;
  signed ← sign_peg_out_psbt (psbt unsigned) peer signature;
  let unsigned := with_psbt signed unsigned in
  _ ← insert_entry UnsignedTransactionKey txid unsigned;
  match finalize_peg_out_psbt unsigned with
  | None => mret tt
  | Some pending_tx =>
      _ ← insert_new_entry PendingTransactionKey txid pending_tx;
      _ ← remove_entry PegOutTxSignatureCI txid;
      _ ← remove_entry UnsignedTransactionKey txid;
      mret tt
  end.

Definition wallet_process_consensus_item (item : WalletConsensusItem) (peer : Z) : MW unit :=
  match item with
  | BlockCount vote => process_block_count vote peer
  | Feerate rate =>
      prev ← insert_entry FeeRateVoteKey peer rate;
      ensure (negb (bool_decide (prev = Some rate))) VoteRedundant
  | PegOutSignature txid signature => process_signature txid signature peer
  | ConsensusVersionVote version =>
      vote ← get_value ConsensusVersionVoteKey peer;
      _ ← ensure (negb (bool_decide (version_le version (default VERSION_2_0 vote)))) VoteRedundant;
      _ ← insert_entry ConsensusVersionVoteKey peer version;
      active ← gets consensus_module_consensus_version;
      active ← expect active;
      rassert (bool_decide (version_le active MODULE_CONSENSUS_VERSION))
  | WalletItemDefault variant _ => throw (UnknownItemVariant variant)
  end.

(** *** Audit *)

(** [x.to_sat() as i64 * 1000] wraps. *)
Definition sats_asset (sats : Z) : Z := wrap_i64 (wrap_i64 sats * 1000).
Definition change_asset (change : Z) (rbf : option Rbf) : Z :=
  match rbf with
  | None => sats_asset change
  | Some r => wrap_i64 (wrap_i64 (PegOutFees_amount (rbf_fees r)) * -1000)
  end.

Definition wallet_audit : MW (list Z) :=
  us ← find_all UTXOKey;
  uns ← find_all UnsignedTransactionKey;
  pend ← find_all PendingTransactionKey;
  mret (((fun kv => sats_asset (utxo_amount kv.2)) <$> us) ++
        ((fun kv => change_asset (u_change kv.2) (u_rbf kv.2)) <$> uns) ++
        ((fun kv => change_asset (p_change kv.2) (p_rbf kv.2)) <$> pend)).

Definition wallet_module : ServerModule WalletDb WalletInput WalletOutput WalletConsensusItem WalletError := {|
  verify_input := fun _ => Ok tt;
  verify_input_submission := fun _ => mret tt;
  process_input := wallet_process_input;
  verify_output_submission := wallet_verify_output_submission;
  process_output := wallet_process_output;
  process_consensus_item := wallet_process_consensus_item;
  audit := wallet_audit;
|}.

(** *** Queries *)

(** The sum may wrap in release builds. *)
Definition get_wallet_value (d : WalletDb) : Z :=
  foldl (fun acc u => wrap_u64 (acc + utxo_amount u.2)) 0 (available_utxos d).

(** The estimate of the fees endpoint. *)
Definition peg_out_fees (address sats : Z) : MW (option PegOutFees) := fun d =>
  match consensus_fee_rate d with
  | None => (Panic, d)
  | Some rate =>
      match create_tx sats (address_script address) [] (available_utxos d) rate (replicate 33 0) None Checked d with
      | (Ok tx, _) => (Ok (Some (u_fees tx)), d)
      | (Err _, _) => (Ok None, d)
      | (Panic, _) => (Panic, d)
      end
  end.

Definition is_utxo_confirmed (o : BtcOutPoint) (d : WalletDb) : bool := bool_decide (is_Some (unspent d !! o)).
Definition get_recovery_slice (lo hi : Z) (d : WalletDb) : list (BtcOutPoint * Z) := (range_scan lo hi (recovery_items d)).*2.

Record TxOutputSummary := { summary_outpoint : BtcOutPoint; summary_amount : Z }.

(** [None] when a transaction has no output. *)
Definition partition_peg_out_and_change (txs : list BtcTransaction) : option (list TxOutputSummary * list TxOutputSummary) :=
  outs ← mapM (fun t =>
    o0 ← head (tx_output t);
    o1 ← last (tx_output t);
    Some ({| summary_outpoint := {| btc_txid := compute_txid t; vout := 0 |}; summary_amount := value o0 |},
          {| summary_outpoint := {| btc_txid := compute_txid t; vout := 1 |}; summary_amount := value o1 |})) txs;
  Some (outs.*1, outs.*2).

Record WalletSummary := {
  spendable_utxos : list TxOutputSummary;
  unsigned_peg_out_txos : list TxOutputSummary;
  unsigned_change_utxos : list TxOutputSummary;
  unconfirmed_peg_out_txos : list TxOutputSummary;
  unconfirmed_change_utxos : list TxOutputSummary;
}.

Definition get_wallet_summary (d : WalletDb) : option WalletSummary :=
  uns ← partition_peg_out_and_change ((fun kv => unsigned_tx (psbt kv.2)) <$> btree_iter (unsigned_txs d));
  pend ← partition_peg_out_and_change ((fun kv => p_tx kv.2) <$> btree_iter (pending_txs d));
  Some {| spendable_utxos := (fun u => {| summary_outpoint := u.1; summary_amount := utxo_amount u.2 |}) <$> available_utxos d;
          unsigned_peg_out_txos := uns.1; unsigned_change_utxos := uns.2;
          unconfirmed_peg_out_txos := pend.1; unconfirmed_change_utxos := pend.2 |}.

(** The transactions handed to the backend: not those that were replaced. *)
Definition broadcast_pending_tx (d : WalletDb) : list BtcTransaction :=
  let pending := (btree_iter (pending_txs d)).*2 in
  let rbf_txids := omap (fun t => rbf_txid <$> p_rbf t) pending in
  filter (fun t => compute_txid t ∉ rbf_txids) (p_tx <$> pending).

Definition activate_consensus_version_voting : MW unit :=
  _ ← insert_entry ConsensusVersionVotingActivationKey tt tt; mret tt.

(** [None] as long as not every peer has answered; too many answers panic. *)
Definition all_peers_supported_version (answers : list ModuleConsensusVersion) : option (option ModuleConsensusVersion) :=
  let sorted := merge_sort version_le (answers ++ [MODULE_CONSENSUS_VERSION]) in
  if Z.of_nat (length sorted) =? num_peers then Some (head sorted)
  else if Z.of_nat (length sorted) <=? num_peers then Some None else None.

(** *** Migrations

    The history of the module as the stream of its processed inputs. *)

Definition migrate_to_v1 (inputs : list WalletInput) : MW unit :=
  outpoints ← expect (mapM (fun i => match i with WalletInputV0 p => Some (PegInProof_outpoint p) | _ => None end) inputs);
  for_each outpoints (fun o => insert_new_entry ClaimedPegInOutpointKey o tt).

Definition migrate_to_v2 (inputs : list WalletInput) : MW unit :=
  items ← expect (mapM (fun i =>
    match i with
    | WalletInputV0 p => txo ← PegInProof_tx_output p; Some (Some (PegInProof_outpoint p, script_pubkey txo))
    | WalletInputV1 o _ txo => Some (Some (o, script_pubkey txo))
    | WalletInputDefault _ _ => Some None
    end) inputs);
  for_each (enumerate (omap id items)) (fun ii => insert_new_entry RecoveryItemKey ii.1 ii.2).

Definition migrate_to_v3 : MW unit :=
  outcomes ← find_all PegOutBitcoinTransaction;
  for_each outcomes.*2 (fun txid => _ ← insert_entry ClaimedPegInOutpointKey {| btc_txid := txid; vout := PEG_OUT_CHANGE_VOUT |} tt; mret tt).

(** ** Selecting outputs *)

Lemma derive_script_tweaked tweak : derive_script tweak = tweaked_script tweak.
Proof using. done. Qed.

Definition sum_amounts (l : list (BtcOutPoint * SpendableUTXO)) : Z := sum_list ((fun u => utxo_amount u.2) <$> l).

Lemma sum_amounts_app l1 l2 : sum_amounts (l1 ++ l2) = sum_amounts l1 + sum_amounts l2.
Proof using. unfold sum_amounts. by rewrite fmap_app, sum_list_app. Qed.

Lemma sum_amounts_cons u l : sum_amounts (u :: l) = utxo_amount u.2 + sum_amounts l.
Proof using. done. Qed.

Lemma sum_amounts_nonneg l : Forall (fun u => 0 <= utxo_amount u.2) l -> 0 <= sum_amounts l.
Proof using. induction 1 as [|v l Hv Hl IHl]; [done|]. rewrite sum_amounts_cons. lia. Qed.

(** A selection is funded when it covers the amount, the dust limit of the
    change and the fee for its weight. *)
Definition covers (arithmetic : FeeArithmetic) (rate amount dust weight : Z) (l : list (BtcOutPoint * SpendableUTXO)) : Prop :=
  exists fee, calculate_fee arithmetic rate (weight + Z.of_nat (length l) * max_input_weight) = Some fee /\
    amount + dust + fee <= sum_amounts l.

(** What the loop returns: a prefix of the outputs in the order they are
    popped, with its total, weight and fee. *)
Lemma select_utxos_Ok arithmetic rate amount dust stack selected total weight fees d r d' :
  0 <= amount -> 0 <= dust ->
  calculate_fee arithmetic rate weight = Some fees ->
  select_utxos arithmetic rate amount dust stack selected total weight fees d = (Ok r, d') ->
  d' = d /\ exists taken rest fee, stack = taken ++ rest /\
    r = (selected ++ taken, total + sum_amounts taken, weight + Z.of_nat (length taken) * max_input_weight, fee) /\
    calculate_fee arithmetic rate (weight + Z.of_nat (length taken) * max_input_weight) = Some fee /\
    amount + dust + fee <= total + sum_amounts taken.
Proof using.
  intros Ha Hd. revert selected total weight fees. induction stack as [|u stack IH]; intros selected total weight fees Hf H; cbn [select_utxos] in H.
  - apply bind_Ok in H as (target & d1 & [Ht ->]%ok_or_Ok & H).
    destruct (target <=? total) eqn:Hle; [|by mrun]. mrun. split; [done|]. exists [], [], fees.
    apply bind_Some in Ht as (t & [-> Ht1]%checked_add_Some & [-> Ht2]%checked_add_Some). apply Z.leb_le in Hle.
    unfold sum_amounts. simpl. rewrite app_nil_r, !Z.add_0_r. split_and!; [done|done|done|lia].
  - apply bind_Ok in H as (target & d1 & [Ht ->]%ok_or_Ok & H).
    apply bind_Some in Ht as (t & [-> Ht1]%checked_add_Some & [-> Ht2]%checked_add_Some).
    destruct (_ <=? total) eqn:Hle.
    + mrun. split; [done|]. exists [], (u :: stack), fees. apply Z.leb_le in Hle.
      unfold sum_amounts. simpl. rewrite app_nil_r, !Z.add_0_r. split_and!; [done|done|done|lia].
    + apply bind_Ok in H as (total' & d1 & [[-> Hs]%checked_add_Some ->]%expect_Ok & H).
      apply bind_Ok in H as (fees' & d1 & [Hf' ->]%ok_or_Ok & H).
      apply IH in H as [-> (taken & rest & fee & -> & -> & Hfee & Hc)]; [|done]. split; [done|].
      exists (u :: taken), rest, fee.
      assert (sum_amounts (u :: taken) = utxo_amount u.2 + sum_amounts taken) as Hsum by done.
      assert (weight + Z.of_nat (length (u :: taken)) * max_input_weight = weight + max_input_weight + Z.of_nat (length taken) * max_input_weight) as ->
        by (rewrite length_cons; lia).
      rewrite Hsum, Z.add_assoc. split_and!; [done| |done|lia]. by rewrite <- app_assoc.
Qed.

(** The loop finds a funded prefix when there is one, as long as the totals
    fit; with checked arithmetic the fees of shorter prefixes are no obstacle. *)
Lemma checked_fee_mono rate w w' fee :
  0 <= rate -> 0 <= w <= w' -> calculate_fee Checked rate w' = Some fee ->
  exists fee0, calculate_fee Checked rate w = Some fee0 /\ 0 <= fee0 <= fee.
Proof using.
  intros Hr Hw H. simpl in *. pose proof (checked_calculate_fee_Some rate w' fee Hr ltac:(lia) H) as (Hfee & _ & Hmax).
  unfold checked_calculate_fee in *. apply bind_Some in H as (p & [-> Hp]%checked_mul_Some & _).
  assert (0 <= weight_to_vbytes w <= weight_to_vbytes w') as Hv.
  { unfold weight_to_vbytes. split; [apply Z.div_pos; lia|apply Z.div_le_mono; lia]. }
  exists (weight_to_vbytes w * rate / 1000).
  assert (weight_to_vbytes w * rate / 1000 <= fee) as Hle by (rewrite Hfee; apply Z.div_le_mono; nia).
  assert (checked_mul (weight_to_vbytes w) rate = Some (weight_to_vbytes w * rate)) as -> by (apply checked_mul_Some; nia).
  simpl. rewrite (proj2 (Z.leb_le _ _)) by lia. split; [done|]. split; [apply Z.div_pos; nia|done].
Qed.

Lemma select_utxos_complete rate amount dust stack selected total weight fees taken rest d :
  0 <= rate -> 0 <= weight -> 0 <= max_input_weight -> 0 <= amount -> 0 <= dust -> 0 <= total ->
  Forall (fun u => 0 <= utxo_amount u.2) stack ->
  calculate_fee Checked rate weight = Some fees -> stack = taken ++ rest ->
  total + sum_amounts stack <= u64_max -> amount + dust + MAX_MONEY <= u64_max ->
  (exists fee, calculate_fee Checked rate (weight + Z.of_nat (length taken) * max_input_weight) = Some fee /\
     amount + dust + fee <= total + sum_amounts taken) ->
  exists r, select_utxos Checked rate amount dust stack selected total weight fees d = (Ok r, d).
Proof using.
  intros Hr Hw Hm Ha Hd Ht Hpos. revert selected total weight fees taken Hw Ht.
  induction stack as [|u stack IH]; intros selected total weight fees taken Hw Ht Hf Hst Hsum Hmax (fee & Hfee & Hc); cbn [select_utxos].
  all: pose proof (checked_calculate_fee_Some rate weight fees Hr Hw Hf) as (_ & _ & Hfm).
  all: rewrite (run_bind _ _ d (amount + dust + fees) d) by (apply ok_or_Ok; split; [|done]; apply bind_Some; exists (amount + dust); rewrite !checked_add_Some; unfold MAX_MONEY in *; lia).
  - destruct taken; [|done]. simpl in *. rewrite Z.add_0_r in Hfee. unfold sum_amounts in Hc. simpl in Hc. simplify_eq.
    rewrite (proj2 (Z.leb_le _ _)) by lia. by eexists.
  - apply Forall_cons in Hpos as [Hu Hpos].
    assert (sum_amounts (u :: stack) = utxo_amount u.2 + sum_amounts stack) as Hs by done.
    pose proof (sum_amounts_nonneg stack Hpos) as Hsn.
    destruct (_ <=? total) eqn:Hle; [by eexists|]. apply Z.leb_gt in Hle.
    destruct taken as [|u' taken].
    { cbn [length] in Hfee. rewrite Z.mul_0_l, Z.add_0_r, Hf in Hfee. injection Hfee as ->. unfold sum_amounts in Hc. simpl in Hc. lia. }
    simpl in Hst. injection Hst as -> ->.
    rewrite (run_bind _ _ d (total + utxo_amount u'.2) d) by (apply expect_Ok; split; [apply checked_add_Some; lia|done]).
    assert (weight + Z.of_nat (length (u' :: taken)) * max_input_weight = weight + max_input_weight + Z.of_nat (length taken) * max_input_weight) as Heq
      by (rewrite length_cons; lia).
    rewrite Heq in Hfee.
    assert (0 <= Z.of_nat (length taken) * max_input_weight) as Hlen by (apply Z.mul_nonneg_nonneg; lia).
    destruct (checked_fee_mono rate (weight + max_input_weight) (weight + max_input_weight + Z.of_nat (length taken) * max_input_weight) fee Hr ltac:(lia) Hfee) as (fee0 & Hf0 & _).
    rewrite (run_bind _ _ d fee0 d) by (by apply ok_or_Ok).
    assert (sum_amounts (u' :: taken) = utxo_amount u'.2 + sum_amounts taken) as Hs' by done.
    apply (IH Hpos) with (taken := taken); [lia|lia|done|done|lia|done|]. exists fee. split; [done|lia].
Qed.

Lemma sorted_insert_perm {A} (key : A -> Z) x l : sorted_insert key x l ≡ₚ x :: l.
Proof using.
  induction l as [|y l IH]; [done|]. simpl. destruct (_ <=? _); [done|]. rewrite IH. by apply Permutation_swap.
Qed.

Lemma sort_by_key_perm {A} (key : A -> Z) l : sort_by_key key l ≡ₚ l.
Proof using. induction l as [|x l IH]; [done|]. simpl. by rewrite sorted_insert_perm, IH. Qed.

Lemma sort_by_key_sorted {A} (key : A -> Z) l : StronglySorted (fun a b => key a <= key b) (sort_by_key key l).
Proof using.
  induction l as [|x l IH]; [constructor|]. simpl. revert IH. generalize (sort_by_key key l). intros s Hs.
  induction Hs as [|y s Hs IHs Hy]; simpl; [repeat constructor|].
  destruct (key x <=? key y) eqn:Hxy.
  - apply Z.leb_le in Hxy. constructor; [by constructor|]. constructor; [done|].
    eapply Forall_impl; [exact Hy|]. simpl. intros z Hz. lia.
  - apply Z.leb_gt in Hxy. constructor; [done|]. rewrite sorted_insert_perm. constructor; [lia|done].
Qed.

(** ** Building a peg-out *)

Definition PEG_OUT_ok (amount rate : Z) : Prop := 0 <= amount /\ 0 <= rate.

Lemma calculate_fee_amount arithmetic rate weight fee :
  0 <= rate -> 0 <= weight -> calculate_fee arithmetic rate weight = Some fee ->
  fee = PegOutFees_amount {| fee_rate := rate; total_weight := weight |} /\ 0 <= fee.
Proof using.
  intros Hr Hw H. destruct arithmetic; simpl in H.
  - simplify_eq. split; [done|]. apply wrapping_calculate_fee_nonneg.
  - destruct (checked_calculate_fee_Some rate weight fee Hr Hw H) as (_ & -> & ? & _). done.
Qed.

(** The transaction of a peg-out: it spends the largest outputs, it pays the
    amount and keeps the change, and the difference is the fee of its weight. *)
Record built (amount destination : Z) (remaining : list (BtcOutPoint * SpendableUTXO)) (rate : Z) (tweak : list Z) (tx : UnsignedTransaction) : Prop := {
  built_amount : u_amount tx = amount;
  built_destination : u_destination tx = destination;
  built_rbf : u_rbf tx = None;
  built_rate : fee_rate (u_fees tx) = rate;
  built_weight : total_weight (u_fees tx) =
    base_weight destination (derive_script tweak) + Z.of_nat (length (u_selected_utxos tx)) * max_input_weight;
  built_selected : exists rest, remaining ≡ₚ u_selected_utxos tx ++ rest /\
    forall s r, s ∈ u_selected_utxos tx -> r ∈ rest -> utxo_amount r.2 <= utxo_amount s.2;
  built_balance : sum_amounts (u_selected_utxos tx) = amount + u_change tx + PegOutFees_amount (u_fees tx);
  built_dust : minimal_non_dust (derive_script tweak) <= u_change tx;
  built_psbt : psbt tx = {| unsigned_tx := peg_out_tx (u_selected_utxos tx) destination amount (derive_script tweak) (u_change tx);
    psbt_inputs := psbt_input <$> u_selected_utxos tx; psbt_outputs := [None; Some tweak] |};
  built_max : amount <= MAX_MONEY;
}.

(** Weights and dust limits are not negative. *)
Definition weights_ok : Prop :=
  0 <= max_satisfaction_weight /\ (forall s, 0 <= script_len s) /\ (forall s, 0 <= minimal_non_dust s).

Lemma base_weight_nonneg destination script : weights_ok -> 0 <= base_weight destination script.
Proof using. intros (_ & Hl & _). unfold base_weight. pose proof (Hl destination). pose proof (Hl script). lia. Qed.

Lemma create_tx_Ok amount destination remaining rate tweak arithmetic d tx d' :
  weights_ok -> PEG_OUT_ok amount rate ->
  create_tx amount destination [] remaining rate tweak None arithmetic d = (Ok tx, d') ->
  d' = d /\ built amount destination remaining rate tweak tx.
Proof using.
  intros Hw [Ha Hr] H. unfold create_tx in H.
  apply bind_Ok in H as ([] & d1 & [Hm ->]%ensure_Ok & H). apply negb_true_iff, Z.ltb_ge in Hm.
  apply bind_Ok in H as (fees0 & d1 & [Hf0 ->]%ok_or_Ok & H).
  apply bind_Ok in H as (r & d1 & Hs & H).
  apply select_utxos_Ok in Hs as [-> (taken & rest & fee & Hst & -> & Hfee & Hc)]; [|done|apply Hw|done].
  mrun. split; [done|].
  assert (0 <= base_weight destination (derive_script tweak) + Z.of_nat (length taken) * max_input_weight) as Hwn.
  { pose proof (base_weight_nonneg destination (derive_script tweak) Hw). destruct Hw as (Hs & _ & _).
    assert (0 <= Z.of_nat (length taken) * max_input_weight) by (apply Z.mul_nonneg_nonneg; unfold max_input_weight; lia). lia. }
  destruct (calculate_fee_amount arithmetic rate _ fee Hr Hwn Hfee) as [Hfa Hfn].
  simpl in Hst. split; simpl; try done.
  - exists rest. split.
    + rewrite <- Hst, reverse_Permutation. by rewrite sort_by_key_perm.
    + intros s r Hs Hrs. pose proof (StronglySorted_reverse _ _ (sort_by_key_sorted (fun u => utxo_amount u.2) remaining)) as Hsort.
      rewrite Hst in Hsort. by apply (StronglySorted_app_1_elem_of _ taken rest s r Hsort).
  - rewrite <- Hfa. lia.
  - lia.
Qed.

(** The transaction of a peg-out is exact: it spends the largest outputs of
    the wallet, its two outputs pay the requested amount to the destination and
    the change to the federation, the change is not dust, and inputs minus
    outputs is the fee of the declared rate and weight.  With checked fee
    arithmetic it is found whenever some number of largest outputs covers the
    amount, the dust limit and the fee. *)
Theorem w1_peg_out_exact amount destination remaining rate tweak d :
  weights_ok -> PEG_OUT_ok amount rate -> Forall (fun u => 0 <= utxo_amount u.2) remaining ->
  sum_amounts remaining <= u64_max -> minimal_non_dust (derive_script tweak) <= MAX_MONEY ->
  (forall arithmetic tx d', create_tx amount destination [] remaining rate tweak None arithmetic d = (Ok tx, d') ->
     d' = d /\ built amount destination remaining rate tweak tx) /\
  (forall taken rest, amount <= MAX_MONEY -> reverse (sort_by_key (fun u => utxo_amount u.2) remaining) = taken ++ rest ->
     covers Checked rate amount (minimal_non_dust (derive_script tweak)) (base_weight destination (derive_script tweak)) taken ->
     exists tx, create_tx amount destination [] remaining rate tweak None Checked d = (Ok tx, d)).
Proof using.
  intros Hw Hok Hpos Hsum Hdust. split; [intros arithmetic tx d' H; by apply create_tx_Ok in H|].
  intros taken rest Hm Hst (fee & Hfee & Hc). pose proof (base_weight_nonneg destination (derive_script tweak) Hw) as Hb.
  destruct Hok as [Ha Hr], Hw as (Hs & Hl & Hd).
  assert (0 <= max_input_weight) as Hmw by (unfold max_input_weight; lia).
  assert (0 <= Z.of_nat (length taken) * max_input_weight) as Hlen by (apply Z.mul_nonneg_nonneg; [apply Zle_0_nat|exact Hmw]).
  destruct (checked_fee_mono rate (base_weight destination (derive_script tweak)) (base_weight destination (derive_script tweak) + Z.of_nat (length taken) * max_input_weight) fee Hr ltac:(clear -Hb Hlen; lia) Hfee) as (fee0 & Hf0 & _).
  unfold create_tx. rewrite (run_bind _ _ d tt d) by (apply ensure_Ok; split; [apply negb_true_iff, Z.ltb_ge; done|done]).
  cbv zeta. rewrite (run_bind _ _ d fee0 d) by (by apply ok_or_Ok).
  assert (Hperm : reverse (sort_by_key (fun u => utxo_amount u.2) remaining) ≡ₚ remaining) by (rewrite reverse_Permutation; apply sort_by_key_perm).
  destruct (select_utxos_complete rate amount (minimal_non_dust (derive_script tweak)) (reverse (sort_by_key (fun u => utxo_amount u.2) remaining)) [] 0
    (base_weight destination (derive_script tweak)) fee0 taken rest d) as [[[[sel tot] w] f] Hr']; [done|done|done|done|apply Hd|done|by rewrite Hperm|done|done| | |exists fee; split; [done|by rewrite Z.add_0_l]|].
  - unfold sum_amounts. rewrite (sum_list_perm _ ((fun u => utxo_amount u.2) <$> remaining)); [by rewrite Z.add_0_l|]. by rewrite Hperm.
  - unfold MAX_MONEY, u64_max in *. lia.
  - rewrite (run_bind _ _ d (sel, tot, w, f) d) by exact Hr'. by eexists.
Qed.

(** ** What the operations do *)

Lemma resolve_input_Ok input d r d' :
  resolve_input input d = (Ok r, d') -> d' = d.
Proof using. unfold resolve_input, PegInProof_verify. destruct input; intros H; dbrun; done. Qed.

(** Values are unsigned. *)
Definition w1_input_ok (input : WalletInput) : Prop :=
  match input with
  | WalletInputV0 proof => Forall (fun txo => 0 <= value txo) (tx_output (proof_tx proof))
  | WalletInputV1 _ _ txo => 0 <= value txo
  | WalletInputDefault _ _ => True
  end.

Lemma resolve_input_value input d o txo key d' :
  w1_input_ok input -> resolve_input input d = (Ok (o, txo, key), d') -> 0 <= value txo.
Proof using.
  unfold resolve_input, PegInProof_verify. destruct input; simpl; intros Hok H; dbrun.
  - match goal with H : PegInProof_tx_output _ = Some _ |- _ => eapply (Forall_lookup_1 _ _ _ _ Hok H) end.
  - match goal with H : bool_decide _ = true |- _ => apply bool_decide_eq_true in H; by rewrite <- H end.
Qed.

Record claimed_input (input : WalletInput) (meta : InputMeta) (d d' : WalletDb) (o : BtcOutPoint) (txo : TxOut) : Prop := {
  ci_resolved : resolve_input input d = (Ok (o, txo, pub_key meta), d);
  ci_fresh : utxos d !! o = None /\ claimed d !! o = None;
  ci_utxos : utxos d' = <[o := {| utxo_tweak := serialize_key (pub_key meta); utxo_amount := value txo |}]> (utxos d);
  ci_claimed : claimed d' = <[o := tt]> (claimed d);
  ci_flights : unsigned_txs d' = unsigned_txs d /\ pending_txs d' = pending_txs d;
  ci_max : value txo <= MAX_MONEY;
  ci_amount : Amounts.get (amounts (amount meta)) BITCOIN = wrap_u64 (value txo * 1000);
  ci_item : exists a, is_u64 a /\ amount meta = {| amounts := Amounts.new_bitcoin a; ServerModule.fees := Amounts.new_bitcoin (peg_in_abs cfg) |};
}.

Lemma w1_input_Ok input p d meta d' :
  wallet_process_input input p d = (Ok meta, d') -> exists o txo, claimed_input input meta d d' o txo.
Proof using.
  unfold wallet_process_input. intros H. apply bind_Ok in H as ([[o txo] key] & d1 & Hr & H).
  pose proof (resolve_input_Ok _ _ _ _ Hr) as ->. exists o, txo.
  apply bind_Ok in H as (x & d1 & [-> ->]%get_value_Ok & H).
  apply bind_Ok in H as ([] & d1 & [Hu ->]%ensure_Ok & H). apply negb_true_iff, bool_decide_eq_false, eq_None_not_Some in Hu.
  apply bind_Ok in H as (x & d1 & [-> ->]%insert_entry_Ok & H).
  apply bind_Ok in H as ([] & d1 & [Hc ->]%ensure_Ok & H). apply negb_true_iff, bool_decide_eq_false, eq_None_not_Some in Hc.
  apply bind_Ok in H as ([] & d1 & [_ ->]%insert_new_entry_Ok & H).
  apply bind_Ok in H as (next & d1 & [-> ->]%gets_Ok & H).
  apply bind_Ok in H as ([] & d1 & [_ ->]%insert_new_entry_Ok & H).
  apply bind_Ok in H as (a & d1 & [Ha ->]%expect_Ok & H). apply ret_Ok in H as [-> ->].
  unfold Amount.from_bitcoin_amount in Ha. destruct (Z.leb_spec (value txo) 2100000000000000); [|done]. injection Ha as <-.
  split; simpl; try done; [by rewrite Amounts.get_new_bitcoin, decide_True|]. eexists. split; [apply wrap_u64_range|done].
Qed.

(** *** Peg-outs *)

Lemma remove_utxos_run {A} (f : A -> BtcOutPoint) l (d : WalletDb) :
  for_each l (fun i => _ ← remove_entry UTXOKey (f i); mret tt) d =
  (Ok tt, upd UTXOKey (fun m => foldl (fun m o => delete o m) m (f <$> l)) d) :> outcome WalletError unit * WalletDb.
Proof using. revert d. induction l as [|x l IH]; intros d; [by destruct d|]. cbn [for_each]. by rewrite (run_bind _ _ d tt (upd UTXOKey (delete (f x)) d)), IH. Qed.

Lemma mapM_fmap_eq {A B C} (f : A -> option B) (g : B -> C) (h : A -> C) l l' :
  (forall a b, f a = Some b -> g b = h a) -> mapM f l = Some l' -> g <$> l' = h <$> l.
Proof using.
  intros Hf H. apply mapM_Some in H. induction H as [|a b l l' Hab Hl IH]; [done|]. rewrite !fmap_cons. f_equal; [by apply Hf|done].
Qed.

Lemma enumerate_snd {A} (l : list A) : (enumerate l).*2 = l.
Proof using. unfold enumerate. apply snd_zip. rewrite length_seqZ. lia. Qed.

Lemma sign_psbt_Some p signed :
  sign_psbt p = Some signed ->
  unsigned_tx signed = unsigned_tx p /\ psbt_outputs signed = psbt_outputs p /\
  with_sigs ∅ <$> psbt_inputs signed = with_sigs ∅ <$> psbt_inputs p.
Proof using.
  unfold sign_psbt. intros (inputs & Hm & H)%bind_Some. injection H as <-. split; [done|]. split; [done|]. simpl.
  rewrite (mapM_fmap_eq _ (with_sigs ∅) (fun ii => with_sigs ∅ ii.2) _ _) with (2 := Hm).
  - rewrite <- (enumerate_snd (psbt_inputs p)) at 2. by rewrite <- list_fmap_compose.
  - intros ii b (hash & _ & H)%bind_Some. by injection H as <-.
Qed.

(** A transaction that was built is stored as it is. *)
Lemma built_stored amount destination remaining rate tweak tx signed :
  built amount destination remaining rate tweak tx -> sign_psbt (psbt tx) = Some signed ->
  with_psbt (with_inputs (with_sigs ∅ <$> psbt_inputs signed) signed) tx = tx.
Proof using.
  intros Hb (H1 & H2 & H3)%sign_psbt_Some. pose proof (built_psbt _ _ _ _ _ _ Hb) as Hp. rewrite H3.
  unfold with_inputs. rewrite H1, H2. destruct tx as [p c f ds s a r]. simpl in Hp |- *. unfold with_psbt. simpl. f_equal.
  rewrite Hp. simpl. f_equal. rewrite <- list_fmap_compose. done.
Qed.

Record stored (tx : UnsignedTransaction) (o : OutPoint) (d d' : WalletDb) : Prop := {
  st_new : unsigned_txs d !! compute_txid (unsigned_tx (psbt tx)) = None;
  st_utxos : utxos d' = foldl (fun m o => delete o m) (utxos d) (previous_output <$> tx_input (unsigned_tx (psbt tx)));
  st_claimed : claimed d' = <[change_of (compute_txid (unsigned_tx (psbt tx))) := tt]> (claimed d);
  st_unsigned : unsigned_txs d' = <[compute_txid (unsigned_tx (psbt tx)) := tx]> (unsigned_txs d);
  st_pending : pending_txs d' = pending_txs d;
  st_outcome : peg_out_outcomes d' !! o = Some (compute_txid (unsigned_tx (psbt tx)));
}.

Lemma store_peg_out_Ok amount destination remaining rate tweak tx o d d' :
  built amount destination remaining rate tweak tx -> store_peg_out tx o d = (Ok tt, d') -> stored tx o d d'.
Proof using.
  unfold store_peg_out. intros Hb H. apply bind_Ok in H as (signed & d1 & [Hs ->]%expect_Ok & H).
  pose proof (built_stored _ _ _ _ _ _ _ Hb Hs) as Heq. rewrite Heq in H. apply sign_psbt_Some in Hs as (Htx & _ & _). rewrite Htx in H.
  apply bind_Ok in H as (sigs & d1 & [_ ->]%expect_Ok & H).
  apply bind_Ok in H as ([] & d1 & Hrm & H). rewrite remove_utxos_run in Hrm. injection Hrm as <-.
  apply bind_Ok in H as (x & d1 & [-> ->]%insert_entry_Ok & H).
  apply bind_Ok in H as ([] & d1 & [Hu ->]%insert_new_entry_Ok & H).
  apply bind_Ok in H as ([] & d1 & [_ ->]%insert_new_entry_Ok & H).
  apply insert_new_entry_Ok in H as [_ ->]. split; simpl; try done. apply lookup_insert_eq.
Qed.

Record pegged_out (p : PegOut) (o : OutPoint) (a : TransactionItemAmounts) (d d' : WalletDb) (tx : UnsignedTransaction) (tweak : list Z) : Prop := {
  po_built : built (peg_out_amount p) (address_script (recipient p)) (available_utxos d) (fee_rate (fees p)) tweak tx;
  po_stored : stored tx o d d';
  po_weight : total_weight (fees p) = total_weight (u_fees tx);
  po_rate : exists rate, consensus_fee_rate d = Some rate /\ rate <= fee_rate (fees p) /\ DEFAULT_MIN_RELAY_TX_FEE <= fee_rate (fees p);
  po_dust : minimal_non_dust (address_script (recipient p)) <= peg_out_amount p;
  po_network : is_valid_for_network (recipient p) (network cfg) = true;
  po_amount : Amounts.get (amounts a) BITCOIN = 1000 * (peg_out_amount p + PegOutFees_amount (u_fees tx));
  po_item : exists x, is_u64 x /\ a = {| amounts := Amounts.new_bitcoin x; ServerModule.fees := Amounts.new_bitcoin (peg_out_abs cfg) |};
  po_tweak : exists idx, tweak = nonce_from_idx idx;
}.

Definition w1_output_ok (p : PegOut) : Prop := 0 <= peg_out_amount p /\ 0 <= fee_rate (fees p).

Lemma create_peg_out_tx_Ok p tweak d tx d' :
  weights_ok -> w1_output_ok p -> create_peg_out_tx (inl p) tweak d = (Ok tx, d') ->
  d' = d /\ built (peg_out_amount p) (address_script (recipient p)) (available_utxos d) (fee_rate (fees p)) tweak tx.
Proof using.
  unfold create_peg_out_tx. intros Hw Hok H.
  apply bind_Ok in H as (v & d1 & [-> ->]%gets_Ok & H). apply bind_Ok in H as (v & d1 & [_ ->]%expect_Ok & H).
  apply bind_Ok in H as (av & d1 & [-> ->]%gets_Ok & H). by apply create_tx_Ok in H.
Qed.

Lemma w1_output_Ok p o d a d' :
  weights_ok -> w1_output_ok p -> wallet_process_output (OutputPegOut p) o d = (Ok a, d') ->
  exists tx tweak, pegged_out p o a d d' tx tweak.
Proof using.
  intros Hw Hok H. unfold wallet_process_output in H. apply bind_Ok in H as (tweak & d1 & Hn & H).
  unfold consensus_nonce in Hn. apply bind_Ok in Hn as (idx & d2 & [-> ->]%get_value_Ok & Hn).
  apply bind_Ok in Hn as (x & d2 & [_ ->]%insert_entry_Ok & [-> ->]%ret_Ok).
  set (dn := upd PegOutNonceKey _ d) in H. set (tweak := nonce_from_idx _) in H.
  apply bind_Ok in H as (tx & d1 & Hc & H). apply create_peg_out_tx_Ok in Hc as [-> Hb]; [|done|done].
  apply bind_Ok in H as (rate & d1 & [-> ->]%gets_Ok & H). apply bind_Ok in H as (rate & d1 & [Hr ->]%expect_Ok & H).
  apply bind_Ok in H as ([] & d1 & Hv & H). unfold validate_tx in Hv.
  apply bind_Ok in Hv as ([] & d2 & [Hv1 ->]%ensure_Ok & Hv). apply bind_Ok in Hv as ([] & d2 & [Hv2 ->]%ensure_Ok & Hv).
  apply bind_Ok in Hv as ([] & d2 & [Hv3 ->]%ensure_Ok & Hv). apply bind_Ok in Hv as ([] & d2 & [Hv4 ->]%ensure_Ok & Hv).
  apply ensure_Ok in Hv as [Hv5 ->]. rewrite negb_true_iff, Z.ltb_ge in Hv2, Hv3, Hv4. apply Z.eqb_eq in Hv5.
  apply bind_Ok in H as ([] & d1 & Hs & H). apply (store_peg_out_Ok _ _ _ _ _ _ _ _ _ Hb) in Hs.
  apply bind_Ok in H as (sats & d2 & [Hsats ->]%expect_Ok & H). apply bind_Ok in H as (am & d2 & [Ha ->]%expect_Ok & H).
  apply ret_Ok in H as [-> ->]. exists tx, tweak.
  assert (PegOutFees_amount (fees p) = PegOutFees_amount (u_fees tx)) as Hfee.
  { unfold PegOutFees_amount. by rewrite Hv5, (built_rate _ _ _ _ _ _ Hb). }
  unfold WalletOutput_amount in Hsats. apply checked_add_Some in Hsats as [-> Hs1].
  unfold Amount.from_bitcoin_amount in Ha. destruct (Z.leb_spec (peg_out_amount p + PegOutFees_amount (fees p)) 2100000000000000) as [Hle|]; [|done].
  injection Ha as <-.
  assert (0 <= PegOutFees_amount (u_fees tx)) as Hfn by apply wrapping_calculate_fee_nonneg.
  destruct Hok as [Hok1 Hok2]. split; try done.
  - destruct Hs as [s1 s2 s3 s4 s5 s6]. by split.
  - exists rate. rewrite (built_rate _ _ _ _ _ _ Hb) in Hv3. done.
  - rewrite (built_amount _ _ _ _ _ _ Hb), (built_destination _ _ _ _ _ _ Hb) in Hv2. done.
  - simpl. rewrite Amounts.get_new_bitcoin, decide_True by done. rewrite Hfee in Hle |- *.
    rewrite wrap_u64_small by (unfold is_u64, u64_max; lia). lia.
  - eexists. split; [apply wrap_u64_range|done].
  - by eexists.
Qed.

(** *** Confirmation *)

Lemma rbf_closure_alone fuel p (all : gmap Z PendingTransaction) :
  p_rbf p = None -> (forall txid t, all !! txid = Some t -> p_rbf t = None) ->
  rbf_closure (S (S fuel)) [p] all = Some [compute_txid (p_tx p)].
Proof using.
  intros Hp Hall. cbn [rbf_closure]. rewrite Hp.
  assert (filter (fun t => rbf_txid <$> p_rbf t = Some (compute_txid (p_tx p))) (btree_iter (delete (compute_txid (p_tx p)) all)).*2 = []) as ->; [|done].
  apply elem_of_nil_inv. intros t [Ht Hin]%list_elem_of_filter. apply list_elem_of_fmap in Hin as ([k t'] & -> & Hin%elem_of_btree_iter).
  apply lookup_delete_Some in Hin as [_ Hin]. simpl in Ht. by rewrite (Hall _ _ Hin) in Ht.
Qed.

(** The change of a confirmed transaction becomes spendable. *)
Definition confirm_pending (txid : Z) (p : PendingTransaction) (d : WalletDb) : WalletDb :=
  upd UTXOKey <[change_of txid := {| utxo_tweak := p_tweak p; utxo_amount := p_change p |}]> (upd PendingTransactionKey (delete txid) d).

(** The shape of a peg-out: the change is the only output for the federation. *)
Record tx_shape (txid : Z) (tx : BtcTransaction) (destination amount : Z) (tweak : list Z) (change : Z) : Prop := {
  ts_txid : compute_txid tx = txid;
  ts_outputs : tx_output tx = [ {| value := amount; script_pubkey := destination |}; {| value := change; script_pubkey := tweaked_script tweak |} ];
  ts_other : destination <> tweaked_script tweak;
  ts_change : 0 <= change;
}.

Lemma recognize_run txid p (d : WalletDb) :
  p_rbf p = None -> (forall txid t, pending_txs d !! txid = Some t -> p_rbf t = None) ->
  tx_shape txid (p_tx p) (p_destination p) (p_amount p) (p_tweak p) (p_change p) ->
  recognize_change_utxo p d = (Ok tt, confirm_pending txid p d).
Proof using.
  intros Hp Hall [Ht Ho Hne _]. unfold recognize_change_utxo.
  rewrite (run_bind _ _ d tt (upd PendingTransactionKey (delete txid) d)).
  - rewrite Ho, Ht. change (enumerate [?x; ?y]) with [(0, x); (1, y)]. cbn [for_each fst snd script_pubkey].
    apply Z.eqb_neq in Hne. by rewrite Hne, Z.eqb_refl.
  - unfold remove_rbf_transactions. rewrite (run_bind _ _ d (pending_txs d) d) by done.
    rewrite (run_bind _ _ d [txid] d); [done|]. apply expect_Ok. split; [|done].
    assert (rbf_fuel (pending_txs d) = S (S (size (pending_txs d) * size (pending_txs d) + 4 * size (pending_txs d) + 2)))%nat as -> by (unfold rbf_fuel; clear; lia).
    by rewrite rbf_closure_alone, Ht.
Qed.

(** ** The wallet implements the ledger *)

Definition flights (d : WalletDb) : gmap Z Z := (u_change <$> unsigned_txs d) ∪ (p_change <$> pending_txs d).
Definition view (d : WalletDb) : Ledger :=
  {| l_utxos := utxo_amount <$> utxos d; l_claimed := dom (claimed d); l_flights := flights d |}.

Record w1_wf (d : WalletDb) : Prop := {
  wf_utxos : forall o u, utxos d !! o = Some u -> 0 <= utxo_amount u;
  wf_unsigned : forall txid u, unsigned_txs d !! txid = Some u ->
    u_rbf u = None /\ is_Some (claimed d !! change_of txid) /\ exists tweak, psbt_outputs (psbt u) = [None; Some tweak] /\
    tx_shape txid (unsigned_tx (psbt u)) (u_destination u) (u_amount u) tweak (u_change u);
  wf_pending : forall txid p, pending_txs d !! txid = Some p ->
    p_rbf p = None /\ is_Some (claimed d !! change_of txid) /\
    tx_shape txid (p_tx p) (p_destination p) (p_amount p) (p_tweak p) (p_change p);
  wf_disjoint : forall txid, unsigned_txs d !! txid = None \/ pending_txs d !! txid = None;
}.

Lemma w1_wf_empty : w1_wf WalletDb_empty.
Proof using. split; simpl; try done. by left. Qed.

(** The parts of the state the ledger does not see. *)
Definition same_wallet (d d' : WalletDb) : Prop :=
  utxos d' = utxos d /\ claimed d' = claimed d /\ unsigned_txs d' = unsigned_txs d /\ pending_txs d' = pending_txs d.

Lemma same_wallet_view d d' : same_wallet d d' -> view d' = view d.
Proof using. intros (H1 & H2 & H3 & H4). unfold view, flights. by rewrite H1, H2, H3, H4. Qed.
Lemma same_wallet_wf d d' : same_wallet d d' -> w1_wf d -> w1_wf d'.
Proof using. intros (H1 & H2 & H3 & H4) [W1 W2 W3 W4]. split; by rewrite ?H1, ?H2, ?H3, ?H4. Qed.
Lemma same_wallet_trans d1 d2 d3 : same_wallet d1 d2 -> same_wallet d2 d3 -> same_wallet d1 d3.
Proof using. intros (H1 & H2 & H3 & H4) (G1 & G2 & G3 & G4). unfold same_wallet. by rewrite G1, G2, G3, G4. Qed.

(** *** Claims *)

Lemma claimed_input_refines input meta d d' o txo :
  w1_input_ok input -> w1_wf d -> claimed_input input meta d d' o txo ->
  ledger_step (view d) (Claim o (value txo)) = Some (view d') /\ w1_wf d' /\
  Amounts.get (amounts (amount meta)) BITCOIN = 1000 * value txo.
Proof using.
  intros Hok Hwf [Hr [Hu Hc] Hu' Hc' [Hun Hpe] Hm Ha _]. pose proof (resolve_input_value _ _ _ _ _ _ Hok Hr) as Hv.
  split; [|split].
  - unfold ledger_step, view. simpl. rewrite decide_True.
    + f_equal. unfold flights. rewrite Hu', Hc', Hun, Hpe, fmap_insert, dom_insert_L. done.
    + split; [by apply not_elem_of_dom|]. by rewrite lookup_fmap, Hu.
  - destruct Hwf as [W1 W2 W3 W4]. split.
    + intros o' u. rewrite Hu'. rewrite lookup_insert_Some. intros [[_ <-]|[_ ?]]; [done|by eapply W1].
    + intros txid u. rewrite Hun, Hc'. intros (? & [x Hx] & ?)%W2. split; [done|]. split; [|done]. rewrite lookup_insert_is_Some'. right. by exists x.
    + intros txid u. rewrite Hpe, Hc'. intros (? & [x Hx] & ?)%W3. split; [done|]. split; [|done]. rewrite lookup_insert_is_Some'. right. by exists x.
    + intros txid. rewrite Hun, Hpe. apply W4.
  - rewrite Ha, wrap_u64_small; [lia|]. unfold is_u64, u64_max, MAX_MONEY in *. lia.
Qed.

(** *** Peg-outs *)

Lemma available_utxos_perm d : available_utxos d ≡ₚ map_to_list (utxos d).
Proof using. apply sort_by_key_perm. Qed.

Lemma selected_inputs d sel rest :
  available_utxos d ≡ₚ sel ++ rest ->
  NoDup sel.*1 /\ inputs_value (utxo_amount <$> utxos d) sel.*1 = Some (sum_amounts sel).
Proof using.
  rewrite available_utxos_perm. intros Hp.
  assert (NoDup (sel ++ rest).*1) as Hnd by (rewrite <- Hp; apply NoDup_fst_map_to_list).
  split; [rewrite fmap_app in Hnd; by apply NoDup_app in Hnd as (? & _ & _)|].
  assert (Hin : Forall (fun u => utxos d !! u.1 = Some u.2) sel).
  { apply Forall_forall. intros [o u] Ho. apply elem_of_map_to_list. rewrite Hp. apply elem_of_app. by left. }
  clear Hp Hnd. unfold inputs_value. apply fmap_Some. exists ((fun u => utxo_amount u.2) <$> sel). split; [|done].
  apply mapM_Some, Forall2_fmap. induction Hin as [|u sel Hu Hin IH]; constructor; [|done]. by rewrite lookup_fmap, Hu.
Qed.

(** The id of the transaction is new, and it does not pay the change address. *)
Definition peg_out_fresh (d d' : WalletDb) (txid : Z) : Prop :=
  claimed d !! change_of txid = None /\
  forall u tweak, unsigned_txs d' !! txid = Some u -> psbt_outputs (psbt u) = [None; Some tweak] -> u_destination u <> tweaked_script tweak.

Lemma built_inputs amount destination remaining rate tweak tx :
  built amount destination remaining rate tweak tx ->
  previous_output <$> tx_input (unsigned_tx (psbt tx)) = (u_selected_utxos tx).*1.
Proof using. intros Hb. rewrite (built_psbt _ _ _ _ _ _ Hb). simpl. rewrite <- list_fmap_compose. done. Qed.

Lemma pegged_out_shape p o a d d' tx tweak txid :
  weights_ok -> pegged_out p o a d d' tx tweak -> txid = compute_txid (unsigned_tx (psbt tx)) -> peg_out_fresh d d' txid ->
  tx_shape txid (unsigned_tx (psbt tx)) (u_destination tx) (u_amount tx) tweak (u_change tx).
Proof using.
  intros (_ & _ & Hdust) Hp -> [_ Hdest]. destruct Hp as [Hb Hs _ _ _ _ _ _ _]. pose proof (built_psbt _ _ _ _ _ _ Hb) as Hpsbt. split.
  - done.
  - rewrite Hpsbt. simpl. by rewrite (built_amount _ _ _ _ _ _ Hb), (built_destination _ _ _ _ _ _ Hb).
  - apply Hdest; [rewrite (st_unsigned _ _ _ _ Hs); apply lookup_insert_eq|by rewrite Hpsbt].
  - pose proof (built_dust _ _ _ _ _ _ Hb). pose proof (Hdust (derive_script tweak)). lia.
Qed.

Lemma pegged_out_refines p o a d d' tx tweak txid :
  weights_ok -> w1_wf d -> pegged_out p o a d d' tx tweak -> txid = compute_txid (unsigned_tx (psbt tx)) -> peg_out_fresh d d' txid ->
  ledger_step (view d) (Spend txid (u_selected_utxos tx).*1 (peg_out_amount p + PegOutFees_amount (u_fees tx))) = Some (view d') /\ w1_wf d'.
Proof using.
  intros Hw Hwf Hp Htx Hf. pose proof (pegged_out_shape _ _ _ _ _ _ _ _ Hw Hp Htx Hf) as Hshape.
  destruct Hf as [Hcl _], Hp as [Hb Hs _ _ _ _ _ _ _]. destruct (built_selected _ _ _ _ _ _ Hb) as (rest & Hperm & _).
  destruct (selected_inputs _ _ _ Hperm) as [Hnd Hin]. destruct Hs as [S1 S2 S3 S4 S5 _]. rewrite <- Htx in *.
  rewrite (built_inputs _ _ _ _ _ _ Hb) in S2. destruct Hwf as [W1 W2 W3 W4].
  assert (pending_txs d !! txid = None) as Hpn.
  { destruct (pending_txs d !! txid) eqn:E; [|done]. apply W3 in E as (_ & [? ?] & _). congruence. }
  split.
  - unfold ledger_step. cbn [l_utxos view]. rewrite Hin. cbn [mbind option_bind]. rewrite decide_True.
    + f_equal. unfold view. f_equal; cbn [l_utxos l_claimed l_flights].
      * by rewrite S2, foldl_delete_fmap.
      * by rewrite S3, dom_insert_L.
      * unfold flights. rewrite S4, S5, fmap_insert, insert_union_l. f_equal. f_equal.
        pose proof (built_balance _ _ _ _ _ _ Hb). lia.
    + split; [done|]. split; [by apply not_elem_of_dom|]. simpl. unfold flights.
      by rewrite lookup_union_None, !lookup_fmap, S1, Hpn.
  - split.
    + intros o' u. rewrite S2, foldl_delete_lookup. case_decide; [done|]. apply W1.
    + intros txid' u. rewrite S3, S4, lookup_insert_Some. intros [[<- <-]|[Hne (? & [x Hx] & ?)%W2]].
      * split; [by apply built_rbf in Hb|]. split; [rewrite lookup_insert_eq; by eexists|]. exists tweak.
        split; [by rewrite (built_psbt _ _ _ _ _ _ Hb)|done].
      * split; [done|]. split; [|done]. rewrite lookup_insert_is_Some'. right. by exists x.
    + intros txid' q. rewrite S3, S5. intros (? & [x Hx] & ?)%W3. split; [done|]. split; [|done]. rewrite lookup_insert_is_Some'. right. by exists x.
    + intros txid'. rewrite S4, S5. destruct (decide (txid = txid')) as [<-|]; [by right|]. rewrite lookup_insert_ne by done. apply W4.
Qed.

(** *** Blocks *)

Lemma confirm_refines txid p d :
  w1_wf d -> pending_txs d !! txid = Some p ->
  ledger_step (view d) (Confirm txid) = Some (view (confirm_pending txid p d)) /\ w1_wf (confirm_pending txid p d).
Proof using.
  intros [W1 W2 W3 W4] Hp. destruct (W4 txid) as [Hu|]; [|congruence]. destruct (W3 _ _ Hp) as (_ & _ & Hshape). split.
  - unfold ledger_step, view at 1 2 3 4. cbn [l_utxos l_claimed l_flights].
    assert (flights d !! txid = Some (p_change p)) as -> by (unfold flights; by rewrite lookup_union_r, lookup_fmap, ?Hp; rewrite ?lookup_fmap, ?Hu).
    simpl. unfold view, flights. simpl. rewrite fmap_insert, fmap_delete. do 2 f_equal.
    rewrite delete_union, (delete_id (u_change <$> unsigned_txs d)); [done|]. by rewrite lookup_fmap, Hu.
  - split; simpl.
    + intros o u. rewrite lookup_insert_Some. intros [[_ <-]|[_ ?]]; [apply Hshape|by eapply W1].
    + apply W2.
    + intros txid' q [_ ?]%lookup_delete_Some. by apply W3.
    + intros txid'. destruct (W4 txid') as [|H]; [by left|]. right. rewrite lookup_delete_None. by right.
Qed.

Lemma confirm_all (inb : Z -> bool) (pend : list (Z * PendingTransaction)) d :
  NoDup pend.*1 -> w1_wf d -> Forall (fun kv => pending_txs d !! kv.1 = Some kv.2) pend ->
  exists d', for_each pend (fun kv => if inb kv.1 then recognize_change_utxo kv.2 else mret tt) d = (Ok tt, d') /\
    ledger_run (view d) (Confirm <$> filter (fun txid => inb txid = true) pend.*1) = Some (view d') /\ w1_wf d'.
Proof using.
  revert d. induction pend as [|[txid p] pend IH]; intros d Hnd Hwf Hall; [by exists d|].
  apply Forall_cons in Hall as [Hp Hall]. apply NoDup_cons in Hnd as [Hni Hnd]. simpl in Hp, Hni. cbn [for_each fst snd].
  rewrite fmap_cons, filter_cons. cbn [fst]. destruct (inb txid) eqn:Hb; simpl.
  - destruct (confirm_refines _ _ _ Hwf Hp) as [Hs Hwf'].
    rewrite (run_bind _ _ d tt (confirm_pending txid p d)).
    + destruct (IH (confirm_pending txid p d) Hnd Hwf') as (d' & H1 & H2 & H3).
      { eapply Forall_impl; [apply Forall_and; split; [exact Hall|apply Forall_forall; intros x Hx; exact (list_elem_of_fmap_2 fst _ _ Hx)]|].
        intros [k v] [Hk Hin]. simpl in *. rewrite lookup_delete_ne; [done|]. by intros <-. }
      exists d'. split; [done|]. split; [|done]. simpl in Hs. by rewrite Hs.
    + apply recognize_run; [by apply (wf_pending _ Hwf) in Hp as (? & _ & _)| |by apply (wf_pending _ Hwf) in Hp as (_ & _ & ?)].
      intros k t Hk. by apply (wf_pending _ Hwf) in Hk as (? & _ & _).
  - rewrite (run_bind _ _ d tt d) by done. by apply IH.
Qed.

Lemma for_each_same {A} (l : list A) (body : A -> MW unit) d d' :
  (forall a d d', body a d = (Ok tt, d') -> same_wallet d d') -> for_each l body d = (Ok tt, d') -> same_wallet d d'.
Proof using.
  intros Hb H. eapply (for_each_inv (same_wallet d)); [|split; done|exact H].
  intros a s s1 _ Hs Ha. eapply same_wallet_trans; [exact Hs|by eapply Hb].
Qed.

Lemma track_tx_same t d d' : track_tx t d = (Ok tt, d') -> same_wallet d d'.
Proof using.
  unfold track_tx. intros H. apply bind_Ok in H as ([] & d1 & H1 & H2).
  apply for_each_same in H1; [apply for_each_same in H2; [by eapply same_wallet_trans|]|].
  - intros a s s' H. cbv zeta in H.
    match type of H with (if ?b then _ else _) _ = _ => destruct b end; dbrun; by repeat split.
  - intros a s s' H. dbrun. by repeat split.
Qed.

Lemma sync_block_refines height d d' :
  w1_wf d -> sync_block height d = (Ok tt, d') ->
  exists txids, ledger_run (view d) (Confirm <$> txids) = Some (view d') /\ w1_wf d'.
Proof using.
  intros Hwf H. unfold sync_block in H.
  apply bind_Ok in H as (prev & d1 & Hp & H). assert (d1 = d) as -> by (destruct (1 <=? height); by dbrun).
  apply bind_Ok in H as ([] & d1 & Hp' & H). assert (d1 = d) as -> by (destruct prev; by dbrun).
  apply bind_Ok in H as (v & d1 & [-> ->]%gets_Ok & H). apply bind_Ok in H as (v & d1 & [_ ->]%expect_Ok & H).
  apply bind_Ok in H as ([] & d1 & Ht & H).
  assert (same_wallet d d1) as Hsame.
  { destruct (decide _); [eapply for_each_same; [intros; by eapply track_tx_same|exact Ht]|]. apply ret_Ok in Ht as [_ ->]. by repeat split. }
  rewrite <- (same_wallet_view _ _ Hsame). apply (same_wallet_wf _ _ Hsame) in Hwf.
  apply bind_Ok in H as (pend & d2 & [-> ->]%gets_Ok & H). apply bind_Ok in H as ([] & d2 & Hc & H).
  destruct (confirm_all (fun txid => existsb (fun t => compute_txid t =? txid) (txdata (get_block height))) (btree_iter (pending_txs d1)) d1) as (d3 & H1 & H2 & H3).
  - apply NoDup_btree_iter.
  - done.
  - apply Forall_forall. intros [k v'] Hin. by apply elem_of_btree_iter.
  - rewrite H1 in Hc. injection Hc as <-. apply bind_Ok in H as ([] & d4 & [_ ->]%insert_new_entry_Ok & [_ ->]%insert_new_entry_Ok).
    eexists. split; [exact H2|]. eapply same_wallet_wf; [|exact H3]. by repeat split.
Qed.

(** Steps of the ledger that only confirm. *)
Definition confirms (d d' : WalletDb) : Prop := exists txids, ledger_run (view d) (Confirm <$> txids) = Some (view d') /\ w1_wf d'.

Lemma confirms_same d d' : same_wallet d d' -> w1_wf d -> confirms d d'.
Proof using. intros Hs Hwf. exists []. split; [by rewrite (same_wallet_view _ _ Hs)|by eapply same_wallet_wf]. Qed.

Lemma confirms_trans d1 d2 d3 : confirms d1 d2 -> confirms d2 d3 -> confirms d1 d3.
Proof using.
  intros (t1 & H1 & _) (t2 & H2 & Hwf). exists (t1 ++ t2). split; [|done]. by rewrite fmap_app, ledger_run_app, H1.
Qed.

Lemma sync_refines heights d d' :
  w1_wf d -> for_each heights sync_block d = (Ok tt, d') -> confirms d d'.
Proof using.
  revert d. induction heights as [|h heights IH]; intros d Hwf H; cbn [for_each] in H.
  - mrun. apply confirms_same; [by repeat split|done].
  - apply bind_Ok in H as ([] & d1 & H1 & H). destruct (sync_block_refines _ _ _ Hwf H1) as (txids & Hr & Hwf1).
    eapply confirms_trans; [by exists txids|]. by apply IH.
Qed.

(** *** Signatures *)

(** Finalizing a transaction adds witnesses, which are not part of its id. *)
Definition finalize_keeps : Prop := forall p tx, finalize p = Some tx ->
  tx_output tx = tx_output (unsigned_tx p) /\ compute_txid tx = compute_txid (unsigned_tx p).

Record signed_by (txid : Z) (signature : list Z) (peer : Z) (d d' : WalletDb) (u : UnsignedTransaction) (key : Z) (inputs : list PsbtInput) : Prop := {
  sb_pending : pending_txs d !! txid = None;
  sb_unsigned : unsigned_txs d !! txid = Some u;
  sb_key : peer_peg_in_keys cfg !! peer = Some key;
  sb_length : length (psbt_inputs (psbt u)) = length signature;
  sb_inputs : add_signatures (unsigned_tx (psbt u)) key (enumerate (zip (psbt_inputs (psbt u)) signature)) = inr inputs;
  sb_frame : utxos d' = utxos d /\ claimed d' = claimed d;
  sb_result :
    let u' := with_psbt (with_inputs inputs (psbt u)) u in
    match finalize_peg_out_psbt u' with
    | None => unsigned_txs d' = <[txid := u']> (unsigned_txs d) /\ pending_txs d' = pending_txs d
    | Some p => unsigned_txs d' = delete txid (unsigned_txs d) /\ pending_txs d' = <[txid := p]> (pending_txs d)
    end;
}.

Lemma process_signature_signed txid signature peer d d' :
  process_signature txid signature peer d = (Ok tt, d') -> exists u key inputs, signed_by txid signature peer d d' u key inputs.
Proof using.
  unfold process_signature, sign_peg_out_psbt. intros H.
  apply bind_Ok in H as (x & d1 & [-> ->]%get_value_Ok & H).
  apply bind_Ok in H as ([] & d1 & [Hp ->]%ensure_Ok & H). apply negb_true_iff, bool_decide_eq_false, eq_None_not_Some in Hp.
  apply bind_Ok in H as (x & d1 & [-> ->]%get_value_Ok & H). apply bind_Ok in H as (u & d1 & [Hu ->]%ok_or_Ok & H).
  apply bind_Ok in H as (signed & d1 & Hs & H).
  apply bind_Ok in Hs as (key & d2 & [Hk ->]%expect_Ok & Hs). apply bind_Ok in Hs as ([] & d2 & [Hl ->]%ensure_Ok & Hs). apply Nat.eqb_eq in Hl.
  destruct (add_signatures _ _ _) as [e|inputs] eqn:Ha; [by mrun|]. apply ret_Ok in Hs as [-> ->].
  apply bind_Ok in H as (x & d1 & [-> ->]%insert_entry_Ok & H). exists u, key, inputs.
  destruct (finalize_peg_out_psbt _) as [p|] eqn:Hf.
  - apply bind_Ok in H as ([] & d1 & [_ ->]%insert_new_entry_Ok & H). apply bind_Ok in H as (x & d1 & [_ ->]%remove_entry_Ok & H).
    apply bind_Ok in H as (x' & d1 & [_ ->]%remove_entry_Ok & H). apply ret_Ok in H as [_ ->].
    split; simpl; try done. rewrite Hf. by rewrite delete_insert_eq.
  - apply ret_Ok in H as [_ ->]. split; simpl; try done. by rewrite Hf.
Qed.

Lemma finalize_peg_out_psbt_Some u tweak p :
  finalize_peg_out_psbt u = Some p -> psbt_outputs (psbt u) = [None; Some tweak] ->
  exists tx, finalize (psbt u) = Some tx /\
    p = {| p_tx := tx; p_tweak := tweak; p_change := u_change u; p_destination := u_destination u; p_fees := u_fees u;
           p_selected_utxos := u_selected_utxos u; p_amount := u_amount u; p_rbf := u_rbf u |}.
Proof using.
  intros H Ho. unfold finalize_peg_out_psbt in H. rewrite Ho in H. simpl in H.
  destruct (_ =? _)%nat; [|done]. apply bind_Some in H as (tx & Hf & H). injection H as <-. by exists tx.
Qed.

Lemma signed_by_refines txid signature peer d d' u key inputs :
  finalize_keeps -> w1_wf d -> signed_by txid signature peer d d' u key inputs -> view d' = view d /\ w1_wf d'.
Proof using.
  intros Hfin [W1 W2 W3 W4] [Hp Hu Hk Hl Ha [Hfu Hfc] Hr]. simpl in Hr.
  destruct (W2 _ _ Hu) as (Hrbf & Hcl & tweak & Ho & [T1 T2 T3 T4]).
  destruct (finalize_peg_out_psbt _) as [p|] eqn:Hf; destruct Hr as [Hr1 Hr2].
  - eapply finalize_peg_out_psbt_Some in Hf as (tx & Hftx & Hpe); [|exact Ho]. subst p. apply Hfin in Hftx as [Hf1 Hf2]. simpl in *. split.
    + unfold view. rewrite Hfu, Hfc. f_equal. unfold flights. rewrite Hr1, Hr2. apply map_eq. intros k.
      rewrite !lookup_union, !lookup_fmap. destruct (decide (k = txid)) as [->|Hne].
      * by rewrite lookup_delete_eq, lookup_insert_eq, Hu, Hp.
      * by rewrite lookup_delete_ne, lookup_insert_ne.
    + split.
      * by rewrite Hfu.
      * intros k v. rewrite Hr1, Hfc. intros [_ ?]%lookup_delete_Some. by apply W2.
      * intros k v. rewrite Hr2, Hfc, lookup_insert_Some. intros [[<- <-]|[_ ?]]; [|by apply W3].
        split; [done|]. split; [done|]. split; simpl; congruence.
      * intros k. rewrite Hr1, Hr2. destruct (decide (k = txid)) as [->|Hne]; [left; apply lookup_delete_eq|].
        by rewrite lookup_delete_ne, lookup_insert_ne.
  - split.
    + unfold view. rewrite Hfu, Hfc. f_equal. unfold flights. rewrite Hr1, Hr2, fmap_insert. f_equal. apply insert_id.
      by rewrite lookup_fmap, Hu.
    + split.
      * by rewrite Hfu.
      * intros k v. rewrite Hr1, Hfc, lookup_insert_Some. intros [[<- <-]|[_ ?]]; [|by apply W2].
        split; [done|]. split; [done|]. by exists tweak.
      * intros k v. rewrite Hr2, Hfc. apply W3.
      * intros k. rewrite Hr1, Hr2. destruct (decide (k = txid)) as [->|Hne]; [by right|]. by rewrite lookup_insert_ne.
Qed.

Lemma item_refines item peer d d' :
  finalize_keeps -> w1_wf d -> wallet_process_consensus_item item peer d = (Ok tt, d') -> confirms d d'.
Proof using.
  intros Hfin Hwf H. destruct item as [vote|rate|txid signature|version|variant bytes]; simpl in H.
  - unfold process_block_count in H. apply bind_Ok in H as (x & d1 & [-> ->]%get_value_Ok & H).
    apply bind_Ok in H as ([] & d1 & [_ ->]%ensure_Ok & H). apply bind_Ok in H as (old & d1 & [_ ->]%gets_Ok & H).
    apply bind_Ok in H as (oldc & d1 & [_ ->]%expect_Ok & H). apply bind_Ok in H as (x & d1 & [_ ->]%insert_entry_Ok & H).
    apply bind_Ok in H as (new & d1 & [_ ->]%gets_Ok & H). apply bind_Ok in H as (newc & d1 & [_ ->]%expect_Ok & H).
    apply bind_Ok in H as ([] & d1 & [_ ->]%rassert_Ok & H).
    set (dv := upd BlockCountVoteKey _ d) in H. assert (Hdv : same_wallet d dv) by (by repeat split).
    eapply confirms_trans; [by apply (confirms_same d dv)|]. apply (same_wallet_wf _ _ Hdv) in Hwf.
    destruct (_ || _); [apply ret_Ok in H as [_ ->]; apply confirms_same; [by repeat split|done]|]. by eapply sync_refines.
  - dbrun. apply confirms_same; [by repeat split|done].
  - apply process_signature_signed in H as (u & key & inputs & Hs). destruct (signed_by_refines _ _ _ _ _ _ _ _ Hfin Hwf Hs) as [Hv Hwf'].
    exists []. by rewrite Hv.
  - dbrun. apply confirms_same; [by repeat split|done].
  - by mrun.
Qed.

(** ** Histories *)

(** Accepted operations with what they credit and charge, in millisatoshi. *)
Inductive w1_event :=
| PeggedIn (o : BtcOutPoint) (credited : Z)
| PeggedOut (txid : Z) (inputs : list BtcOutPoint) (charged : Z)
| SignedOut (txid peer : Z) (signature : list Z)
| OtherItem.

Definition item_event (item : WalletConsensusItem) (peer : Z) : w1_event :=
  match item with PegOutSignature txid signature => SignedOut txid peer signature | _ => OtherItem end.

Inductive w1_history : list w1_event -> WalletDb -> Prop :=
| w1_start : w1_history [] WalletDb_empty
| w1_input evs d input p o txo key meta d' :
    w1_history evs d -> w1_input_ok input -> resolve_input input d = (Ok (o, txo, key), d) ->
    wallet_process_input input p d = (Ok meta, d') ->
    w1_history (evs ++ [PeggedIn o (Amounts.get (amounts (amount meta)) BITCOIN)]) d'
| w1_output evs d p o a d' txid u :
    w1_history evs d -> w1_output_ok p -> wallet_process_output (OutputPegOut p) o d = (Ok a, d') ->
    peg_out_outcomes d' !! o = Some txid -> unsigned_txs d' !! txid = Some u -> peg_out_fresh d d' txid ->
    w1_history (evs ++ [PeggedOut txid (previous_output <$> tx_input (unsigned_tx (psbt u))) (Amounts.get (amounts a) BITCOIN)]) d'
| w1_item evs d item peer d' :
    w1_history evs d -> wallet_process_consensus_item item peer d = (Ok tt, d') ->
    w1_history (evs ++ [item_event item peer]) d'.

Definition pegged_in (evs : list w1_event) : list BtcOutPoint :=
  omap (fun e => match e with PeggedIn o _ => Some o | _ => None end) evs.
Definition spent_by (evs : list w1_event) : list BtcOutPoint :=
  evs ≫= (fun e => match e with PeggedOut _ inputs _ => inputs | _ => [] end).
Definition net_credit (evs : list w1_event) : Z :=
  sum_list ((fun e => match e with PeggedIn _ v => v | PeggedOut _ _ v => - v | _ => 0 end) <$> evs).

(** A history of the wallet is a run of the ledger. *)
Definition implements (evs : list w1_event) (d : WalletDb) : Prop :=
  exists levs, ledger_run Ledger_empty levs = Some (view d) /\
    credits levs = pegged_in evs /\ spends levs = spent_by evs /\ 1000 * balance levs = net_credit evs.

Lemma implements_step evs d e d' levs :
  implements evs d -> ledger_run (view d) levs = Some (view d') ->
  credits levs = pegged_in [e] -> spends levs = spent_by [e] -> 1000 * balance levs = net_credit [e] -> implements (evs ++ [e]) d'.
Proof using.
  intros (levs0 & H0 & C0 & S0 & B0) Hr Hc Hs Hb. exists (levs0 ++ levs). split_and!.
  - by rewrite ledger_run_app, H0.
  - rewrite credits_app, C0, Hc. symmetry. apply omap_app.
  - rewrite spends_app, S0, Hs. symmetry. apply bind_app.
  - rewrite balance_app. unfold net_credit in *. rewrite fmap_app, sum_list_app. lia.
Qed.

Lemma confirm_events txids :
  credits (Confirm <$> txids) = [] /\ spends (Confirm <$> txids) = [] /\ balance (Confirm <$> txids) = 0.
Proof using. induction txids as [|t txids (H1 & H2 & H3)]; [done|]. by split_and!. Qed.

Lemma w1_history_refines evs d :
  weights_ok -> finalize_keeps -> w1_history evs d -> w1_wf d /\ implements evs d.
Proof using.
  intros Hw Hfin. induction 1 as [|evs d input p o txo key meta d' _ [Hwf IH] Hok Hr H|evs d p o a d' txid u _ [Hwf IH] Hok H Ho Hu Hf|evs d item peer d' _ [Hwf IH] H].
  - split; [apply w1_wf_empty|]. by exists [].
  - apply w1_input_Ok in H as (o' & txo' & Hc). pose proof (ci_resolved _ _ _ _ _ _ Hc) as Hr'. rewrite Hr in Hr'. injection Hr' as <- <- _.
    destruct (claimed_input_refines _ _ _ _ _ _ Hok Hwf Hc) as (Hs & Hwf' & Ha). split; [done|].
    apply (implements_step _ d _ _ [Claim o (value txo)] IH); [by cbn [ledger_run]; rewrite Hs|done|done|].
    unfold balance, net_credit. simpl. rewrite Ha. lia.
  - apply w1_output_Ok in H as (tx & tweak & Hp); [|done|done]. pose proof (po_stored _ _ _ _ _ _ _ Hp) as Hst.
    rewrite (st_outcome _ _ _ _ Hst) in Ho. injection Ho as Ho. symmetry in Ho.
    destruct (pegged_out_refines _ _ _ _ _ _ _ _ Hw Hwf Hp Ho Hf) as [Hs Hwf']. split; [done|].
    rewrite (st_unsigned _ _ _ _ Hst), Ho, lookup_insert_eq in Hu. injection Hu as <-.
    rewrite (built_inputs _ _ _ _ _ _ (po_built _ _ _ _ _ _ _ Hp)).
    eapply (implements_step _ d _ _ [Spend _ _ _] IH); [cbn [ledger_run]; rewrite Hs; done|done|by unfold spends, spent_by|].
    unfold balance, net_credit. simpl. rewrite (po_amount _ _ _ _ _ _ _ Hp). lia.
  - destruct (item_refines _ _ _ _ Hfin Hwf H) as (txids & Hr & Hwf'). split; [done|].
    destruct (confirm_events txids) as (H1 & H2 & H3).
    apply (implements_step _ d _ _ (Confirm <$> txids) IH Hr); [rewrite H1|rewrite H2|rewrite H3]; by destruct item.
Qed.

Lemma w1_history_ledger evs d :
  weights_ok -> finalize_keeps -> w1_history evs d ->
  ledger_inv (view d) (spent_by evs) (pegged_in evs) /\ 1000 * ledger_value (view d) = net_credit evs.
Proof using.
  intros Hw Hfin H. destruct (w1_history_refines _ _ Hw Hfin H) as [_ (levs & Hr & Hc & Hs & Hb)].
  destruct (ledger_run_inv _ _ _ _ _ ledger_inv_empty Hr) as [Hi Hv]. rewrite <- Hc, <- Hs. split; [done|].
  unfold ledger_value in Hv at 2. simpl in Hv. rewrite !sum_map_empty in Hv. lia.
Qed.


(** *** The audit *)

Lemma sats_asset_exact sats : 0 <= 1000 * sats <= i64_max -> sats_asset sats = 1000 * sats.
Proof using. intros H. unfold sats_asset, i64_max in *. rewrite (wrap_i64_small sats), wrap_i64_small by (unfold i64_min, i64_max; lia). lia. Qed.

(** Spendable outputs and the change in flight, in satoshis. *)
Definition w1_value (d : WalletDb) : Z :=
  sum_map (fun _ => utxo_amount) (utxos d) + sum_map (fun _ => u_change) (unsigned_txs d) + sum_map (fun _ => p_change) (pending_txs d).

Lemma ledger_value_view d : w1_wf d -> ledger_value (view d) = w1_value d.
Proof using.
  intros [_ _ _ W4]. unfold ledger_value, w1_value, view, flights. simpl. rewrite sum_map_union, !sum_map_fmap; [apply Z.add_assoc|].
  apply map_disjoint_spec. intros txid c c'. rewrite !lookup_fmap. destruct (W4 txid) as [-> | ->]; simpl; [done|].
  by intros _ ?.
Qed.

Lemma w1_audit_sum d :
  w1_wf d -> 1000 * w1_value d <= i64_max ->
  exists items, wallet_audit d = (Ok items, d) /\ sum_list items = 1000 * w1_value d.
Proof using.
  intros [W1 W2 W3 _] Hmax. eexists. split; [reflexivity|]. unfold w1_value in *.
  assert (N1 : forall o u, utxos d !! o = Some u -> 0 <= utxo_amount u) by exact W1.
  assert (N2 : forall t u, unsigned_txs d !! t = Some u -> 0 <= u_change u) by (intros t u (_ & _ & tw & _ & [_ _ _ ?])%W2; done).
  assert (N3 : forall t u, pending_txs d !! t = Some u -> 0 <= p_change u) by (intros t u (_ & _ & [_ _ _ ?])%W3; done).
  pose proof (sum_map_nonneg (fun _ => utxo_amount) (utxos d) N1) as P1. pose proof (sum_map_nonneg (fun _ => u_change) (unsigned_txs d) N2) as P2.
  pose proof (sum_map_nonneg (fun _ => p_change) (pending_txs d) N3) as P3.
  rewrite !sum_list_app, (sum_map_scaled 1000 utxo_amount (fun u => sats_asset (utxo_amount u))),
    (sum_map_scaled 1000 u_change (fun u => change_asset (u_change u) (u_rbf u))),
    (sum_map_scaled 1000 p_change (fun u => change_asset (p_change u) (p_rbf u))); [rewrite !Z.mul_add_distr_l; apply Z.add_assoc| | |].
  - intros k v Hk. pose proof (sum_map_entry_le (fun _ => p_change) (pending_txs d) k v N3 Hk). pose proof (N3 _ _ Hk).
    apply W3 in Hk as (-> & _ & _). apply sats_asset_exact. cbv beta in *. lia.
  - intros k v Hk. pose proof (sum_map_entry_le (fun _ => u_change) (unsigned_txs d) k v N2 Hk). pose proof (N2 _ _ Hk).
    apply W2 in Hk as (-> & _ & _). apply sats_asset_exact. cbv beta in *. lia.
  - intros k v Hk. pose proof (sum_map_entry_le (fun _ => utxo_amount) (utxos d) k v N1 Hk). pose proof (N1 _ _ Hk).
    apply sats_asset_exact. cbv beta in *. lia.
Qed.

(** Over every history of the wallet, the spendable outputs and the change
    in flight are worth exactly what peg-ins were credited minus what peg-outs
    were charged, and as long as that fits, it is what the audit reports. *)
Theorem w1_accounting evs d :
  weights_ok -> finalize_keeps -> w1_history evs d ->
  1000 * w1_value d = net_credit evs /\
  (net_credit evs <= i64_max -> exists items, audit wallet_module d = (Ok items, d) /\ sum_list items = net_credit evs).
Proof using.
  intros Hw Hfin H. destruct (w1_history_refines _ _ Hw Hfin H) as [Hwf _]. destruct (w1_history_ledger _ _ Hw Hfin H) as [_ Hv].
  rewrite (ledger_value_view _ Hwf) in Hv. split; [done|]. rewrite <- Hv. by apply w1_audit_sum.
Qed.


(** ** Threshold signatures *)

(** The signatures accepted for a transaction, by peer. *)
Definition signers (txid : Z) (evs : list w1_event) : list (Z * list Z) :=
  omap (fun e => match e with SignedOut t peer s => if t =? txid then Some (peer, s) else None | _ => None end) evs.

Lemma signers_app txid evs1 evs2 : signers txid (evs1 ++ evs2) = signers txid evs1 ++ signers txid evs2.
Proof using. apply omap_app. Qed.

(** Input [i] of the transaction is signed under the tweaked key. *)
Definition valid_signature (tx : BtcTransaction) (i : nat) (u : BtcOutPoint * SpendableUTXO) (key signature : Z) : Prop :=
  exists hash, sighash tx (Z.of_nat i) (witness_script (psbt_input u)) (utxo_amount u.2) = Some hash /\
    verify_ecdsa hash signature (tweak_public_key key (utxo_tweak u.2)) = true.

(** Distinct guardians, each with a valid signature on every input. *)
Definition signed_by_all (tx : BtcTransaction) (selected : list (BtcOutPoint * SpendableUTXO)) (s : list (Z * list Z)) : Prop :=
  NoDup s.*1 /\ forall peer sigs, (peer, sigs) ∈ s -> exists key, peer_peg_in_keys cfg !! peer = Some key /\
    length sigs = length selected /\
    forall i u sig, selected !! i = Some u -> sigs !! i = Some sig -> valid_signature tx i u key sig.

(** The keys under which an input is signed. *)
Definition signing_keys (s : list (Z * list Z)) (i : PsbtInput) : gset Z :=
  list_to_set (omap (fun ps => (fun key => tweak_public_key key (input_tweak i)) <$> peer_peg_in_keys cfg !! ps.1) s).

Lemma size_signing_keys s i : (size (signing_keys s i) <= length s)%nat.
Proof using.
  unfold signing_keys. etransitivity; [apply size_list_to_set_le|]. apply length_omap_le.
Qed.

(** Every accepted signature set is valid and adds the key to every input. *)
Lemma add_signatures_inr tx key start l inputs :
  add_signatures tx key (zip (seqZ start (Z.of_nat (length l))) l) = inr inputs ->
  Forall2 (fun x i => exists sig, partial_sigs x.1 !! tweak_public_key key (input_tweak x.1) = None /\
     i = with_sigs (<[tweak_public_key key (input_tweak x.1) := sig]> (partial_sigs x.1)) x.1) l inputs /\
  forall n x, l !! n = Some x -> exists hash, sighash tx (start + Z.of_nat n) (witness_script x.1) (value (witness_utxo x.1)) = Some hash /\
    verify_ecdsa hash x.2 (tweak_public_key key (input_tweak x.1)) = true.
Proof using.
  revert start inputs. induction l as [|[x sig] l IH]; intros start inputs.
  { intros [= <-]. split; [constructor|done]. }
  rewrite length_cons, seqZ_cons by lia. replace (Z.pred (Z.of_nat (S (length l)))) with (Z.of_nat (length l)) by lia.
  cbn [zip zip_with add_signatures add_signature]. destruct (sighash _ _ _ _) as [hash|] eqn:Hh; [|done].
  destruct (verify_ecdsa _ _ _) eqn:Hver; [|done]. destruct (partial_sigs x !! _) eqn:Hp; [done|].
  destruct (add_signatures _ _ _) as [e|rest] eqn:Hr; [done|]. intros [= <-].
  apply IH in Hr as [H1 H2]. split.
  - constructor; [|done]. by exists sig.
  - intros [|n] y Hy; simpl in Hy; [injection Hy as <-; exists hash; by rewrite Z.add_0_r|].
    destruct (H2 n y Hy) as (h & Hh' & ?). exists h. split; [|done]. by replace (start + Z.of_nat (S n)) with (Z.succ start + Z.of_nat n) by lia.
Qed.

(** Miniscript satisfies the descriptor of an input only with a threshold of
    signatures; the dust limit of the federation's own script is positive. *)
Definition finalize_threshold : Prop := forall p tx, finalize p = Some tx ->
  Forall (fun i => threshold num_peers <= Z.of_nat (size (partial_sigs i))) (psbt_inputs p).
Definition change_dust : Prop := forall tweak, 0 < minimal_non_dust (derive_script tweak).

Record collecting (u : UnsignedTransaction) (s : list (Z * list Z)) : Prop := {
  co_tx : exists tweak, psbt_outputs (psbt u) = [None; Some tweak] /\
    unsigned_tx (psbt u) = peg_out_tx (u_selected_utxos u) (u_destination u) (u_amount u) (derive_script tweak) (u_change u);
  co_inputs : with_sigs ∅ <$> psbt_inputs (psbt u) = psbt_input <$> u_selected_utxos u;
  co_some : u_selected_utxos u <> [];
  co_signers : signed_by_all (unsigned_tx (psbt u)) (u_selected_utxos u) s;
  co_keys : Forall (fun i => dom (partial_sigs i) = signing_keys s i) (psbt_inputs (psbt u));
}.

Record sig_inv (evs : list w1_event) (d : WalletDb) : Prop := {
  si_unsigned : forall txid u, unsigned_txs d !! txid = Some u -> collecting u (signers txid evs);
  si_pending : forall txid p, pending_txs d !! txid = Some p ->
    threshold num_peers <= Z.of_nat (length (signers txid evs)) /\
    signed_by_all (peg_out_tx (p_selected_utxos p) (p_destination p) (p_amount p) (derive_script (p_tweak p)) (p_change p))
      (p_selected_utxos p) (signers txid evs);
  si_claimed : forall txid, signers txid evs <> [] -> is_Some (claimed d !! change_of txid);
}.

(** What every operation but a signature and a peg-out leaves alone. *)
Definition shrinks (d d' : WalletDb) : Prop :=
  unsigned_txs d' = unsigned_txs d /\ pending_txs d' ⊆ pending_txs d /\ dom (claimed d) ⊆ dom (claimed d').

Lemma shrinks_trans d1 d2 d3 : shrinks d1 d2 -> shrinks d2 d3 -> shrinks d1 d3.
Proof using.
  intros (H1 & H2 & H3) (G1 & G2 & G3). split; [by rewrite G1|]. split; [by etransitivity|]. clear -H3 G3. set_solver.
Qed.

Lemma same_wallet_shrinks d d' : same_wallet d d' -> shrinks d d'.
Proof using. intros (H1 & H2 & H3 & H4). unfold shrinks. by rewrite H2, H3, H4. Qed.

Lemma for_each_shrinks {A} (l : list A) (body : A -> MW unit) d d' :
  (forall a d d', body a d = (Ok tt, d') -> shrinks d d') -> for_each l body d = (Ok tt, d') -> shrinks d d'.
Proof using.
  intros Hb H. refine (for_each_inv (shrinks d) l body d tt d' _ _ H); [|apply same_wallet_shrinks; by repeat split].
  intros a s s1 _ Hs Ha. eapply shrinks_trans; [exact Hs|by eapply Hb].
Qed.

Lemma recognize_shrinks p d d' : recognize_change_utxo p d = (Ok tt, d') -> shrinks d d'.
Proof using.
  unfold recognize_change_utxo, remove_rbf_transactions. intros H. apply bind_Ok in H as ([] & d1 & H1 & H).
  apply bind_Ok in H1 as (all & d2 & [_ ->]%gets_Ok & H1). apply bind_Ok in H1 as (txids & d2 & [_ ->]%expect_Ok & H1).
  apply for_each_shrinks in H1; [apply for_each_shrinks in H; [by eapply shrinks_trans|]|].
  - intros a s s' Ha. destruct (_ =? _); dbrun; (split; [done|split; done]).
  - intros a s s' Ha. dbrun. split; [done|]. split; [apply delete_subseteq|done].
Qed.

Lemma sync_block_shrinks height d d' : sync_block height d = (Ok tt, d') -> shrinks d d'.
Proof using.
  intros H. unfold sync_block in H.
  apply bind_Ok in H as (prev & d1 & Hp & H). assert (d1 = d) as -> by (destruct (1 <=? height); by dbrun).
  apply bind_Ok in H as ([] & d1 & Hp' & H). assert (d1 = d) as -> by (destruct prev; by dbrun).
  apply bind_Ok in H as (v & d1 & [-> ->]%gets_Ok & H). apply bind_Ok in H as (v & d1 & [_ ->]%expect_Ok & H).
  apply bind_Ok in H as ([] & d1 & Ht & H).
  assert (shrinks d d1) as Hs1.
  { destruct (decide _); [eapply for_each_shrinks; [intros; by eapply same_wallet_shrinks, track_tx_same|exact Ht]|].
    apply ret_Ok in Ht as [_ ->]. apply same_wallet_shrinks; by repeat split. }
  apply bind_Ok in H as (pend & d2 & [-> ->]%gets_Ok & H). apply bind_Ok in H as ([] & d2 & Hc & H).
  assert (shrinks d1 d2) as Hs2.
  { eapply for_each_shrinks; [|exact Hc]. intros [k p] s s' Ha. cbn [fst snd] in Ha.
    destruct (existsb _ _); [by eapply recognize_shrinks|]. apply ret_Ok in Ha as [_ ->]. apply same_wallet_shrinks; by repeat split. }
  apply bind_Ok in H as ([] & d4 & [_ ->]%insert_new_entry_Ok & [_ ->]%insert_new_entry_Ok).
  eapply shrinks_trans; [exact Hs1|]. eapply shrinks_trans; [exact Hs2|]. apply same_wallet_shrinks; by repeat split.
Qed.

Lemma item_shrinks item peer d d' :
  (forall txid signature, item <> PegOutSignature txid signature) ->
  wallet_process_consensus_item item peer d = (Ok tt, d') -> shrinks d d'.
Proof using.
  intros Hne H. destruct item as [vote|rate|txid signature|version|variant bytes]; simpl in H.
  - unfold process_block_count in H. apply bind_Ok in H as (x & d1 & [-> ->]%get_value_Ok & H).
    apply bind_Ok in H as ([] & d1 & [_ ->]%ensure_Ok & H). apply bind_Ok in H as (old & d1 & [_ ->]%gets_Ok & H).
    apply bind_Ok in H as (oldc & d1 & [_ ->]%expect_Ok & H). apply bind_Ok in H as (x & d1 & [_ ->]%insert_entry_Ok & H).
    apply bind_Ok in H as (new & d1 & [_ ->]%gets_Ok & H). apply bind_Ok in H as (newc & d1 & [_ ->]%expect_Ok & H).
    apply bind_Ok in H as ([] & d1 & [_ ->]%rassert_Ok & H).
    set (dv := upd BlockCountVoteKey _ d) in H. eapply (shrinks_trans _ dv); [apply same_wallet_shrinks; by repeat split|].
    destruct (_ || _); [apply ret_Ok in H as [_ ->]; apply same_wallet_shrinks; by repeat split|].
    eapply for_each_shrinks; [intros; by eapply sync_block_shrinks|exact H].
  - dbrun. apply same_wallet_shrinks; by repeat split.
  - by destruct (Hne txid signature).
  - dbrun. apply same_wallet_shrinks; by repeat split.
  - by mrun.
Qed.

Lemma sig_inv_shrinks evs e d d' :
  (forall txid, signers txid [e] = []) -> shrinks d d' -> sig_inv evs d -> sig_inv (evs ++ [e]) d'.
Proof using.
  intros He (H1 & H2 & H3) [I1 I2 I3]. split.
  - intros txid u. rewrite H1, signers_app, He, app_nil_r. apply I1.
  - intros txid p Hp. rewrite signers_app, He, app_nil_r. apply I2. by eapply lookup_weaken.
  - intros txid. rewrite signers_app, He, app_nil_r. intros Hs%I3. apply elem_of_dom. apply elem_of_dom in Hs. clear -H3 Hs. set_solver.
Qed.

Lemma collecting_built amount destination remaining rate tweak tx :
  change_dust -> 0 <= amount -> built amount destination remaining rate tweak tx -> collecting tx [].
Proof using.
  intros Hd Ha Hb. pose proof (built_psbt _ _ _ _ _ _ Hb) as Hp. split.
  - exists tweak. rewrite Hp. split; [done|]. cbn [unsigned_tx]. by rewrite (built_amount _ _ _ _ _ _ Hb), (built_destination _ _ _ _ _ _ Hb).
  - rewrite Hp. cbn [psbt_inputs]. rewrite <- list_fmap_compose. done.
  - intros Hnil. pose proof (built_balance _ _ _ _ _ _ Hb) as Hbal. rewrite Hnil in Hbal. unfold sum_amounts in Hbal. simpl in Hbal.
    pose proof (built_dust _ _ _ _ _ _ Hb). pose proof (Hd tweak). pose proof (wrapping_calculate_fee_nonneg (fee_rate (u_fees tx)) (total_weight (u_fees tx))).
    unfold PegOutFees_amount in Hbal. lia.
  - split; [constructor|]. intros peer sigs Hin. by apply not_elem_of_nil in Hin.
  - rewrite Hp. cbn [psbt_inputs]. apply Forall_fmap, Forall_true. intros x. cbn. apply dom_empty_L.
Qed.

Lemma elem_of_signing_keys k s i :
  k ∈ signing_keys s i <-> exists peer sigs key, (peer, sigs) ∈ s /\ peer_peg_in_keys cfg !! peer = Some key /\ k = tweak_public_key key (input_tweak i).
Proof using.
  unfold signing_keys. rewrite elem_of_list_to_set, list_elem_of_omap. split.
  - intros ([peer sigs] & Hin & (key & Hk & ->)%fmap_Some). by exists peer, sigs, key.
  - intros (peer & sigs & key & Hin & Hk & ->). exists (peer, sigs). split; [done|]. simpl. by rewrite Hk.
Qed.

Lemma signing_keys_snoc s peer sigs key i :
  peer_peg_in_keys cfg !! peer = Some key ->
  signing_keys (s ++ [(peer, sigs)]) i = {[tweak_public_key key (input_tweak i)]} ∪ signing_keys s i.
Proof using.
  intros Hk. unfold signing_keys. rewrite omap_app, list_to_set_app_L. simpl. rewrite Hk. simpl. clear. set_solver.
Qed.

(** The input of the PSBT for a selected output. *)
Lemma psbt_input_of u x n un :
  with_sigs ∅ <$> psbt_inputs (psbt u) = psbt_input <$> u_selected_utxos u ->
  psbt_inputs (psbt u) !! n = Some x -> u_selected_utxos u !! n = Some un ->
  witness_script x = witness_script (psbt_input un) /\ value (witness_utxo x) = utxo_amount un.2 /\ input_tweak x = utxo_tweak un.2.
Proof using.
  intros Heq Hx Hu. assert (with_sigs ∅ x = psbt_input un) as E.
  { apply (f_equal (fun l => l !! n)) in Heq. rewrite !list_lookup_fmap, Hx, Hu in Heq. exact (inj Some _ _ Heq). }
  split_and!; [by apply (f_equal witness_script) in E|by apply (f_equal (fun i => value (witness_utxo i))) in E|by apply (f_equal input_tweak) in E].
Qed.

Lemma collecting_signed txid signature peer d d' u key inputs s :
  signed_by txid signature peer d d' u key inputs -> collecting u s ->
  collecting (with_psbt (with_inputs inputs (psbt u)) u) (s ++ [(peer, signature)]).
Proof using.
  intros [_ _ Hk Hl Ha _ _] [Ctx Cin Cne [Cnd Cs] Ck]. unfold enumerate in Ha.
  apply add_signatures_inr in Ha as [H2 Hv]. set (l := zip (psbt_inputs (psbt u)) signature) in *.
  assert (l.*1 = psbt_inputs (psbt u)) as Hl1 by (apply fst_zip; clear -Hl; lia).
  assert (length (u_selected_utxos u) = length signature) as Hlen.
  { apply (f_equal length) in Cin. rewrite !length_fmap in Cin. congruence. }
  split; cbn [psbt with_psbt with_inputs psbt_outputs unsigned_tx psbt_inputs u_selected_utxos u_destination u_amount u_change]; [done| |done| |].
  - rewrite <- Cin, <- Hl1. clear -H2. induction H2 as [|x i l' inputs' (sg & _ & ->) H2 IH]; [done|]. rewrite !fmap_cons. by f_equal.
  - split.
    + rewrite fmap_app. apply NoDup_app. split; [done|]. split; [|apply NoDup_singleton].
      intros p Hin ->%list_elem_of_singleton. apply list_elem_of_fmap in Hin as ([p sg] & Heq & Hin). simpl in Heq. subst p.
      destruct (psbt_inputs (psbt u)) as [|x xs] eqn:Hxs; [by destruct (u_selected_utxos u)|].
      destruct signature as [|s0 sgs]; [done|]. inversion H2 as [|? ? ? ? (sg' & Hnone & _)]; subst. simpl in Hnone.
      apply Forall_cons in Ck as [Ck _]. apply not_elem_of_dom in Hnone. rewrite Ck in Hnone. apply Hnone, elem_of_signing_keys.
      by exists peer, sg, key.
    + intros p sg [Hin|Heq%list_elem_of_singleton]%elem_of_app; [by apply Cs|]. injection Heq as -> ->. exists key. split; [done|]. split; [done|].
      intros n un sig Hun Hsig. destruct (lookup_lt_is_Some_2 (psbt_inputs (psbt u)) n) as [x Hx].
      { apply lookup_lt_Some in Hsig. by rewrite Hl. }
      destruct (psbt_input_of _ _ _ _ Cin Hx Hun) as (E1 & E2 & E3).
      destruct (Hv n (x, sig)) as (hash & Hh & Hver); [apply lookup_zip_with_Some; by exists x, sig|].
      exists hash. cbn [fst snd] in Hh, Hver. by rewrite <- E1, <- E2, <- E3, <- (Z.add_0_l (Z.of_nat n)).
  - rewrite <- Hl1 in Ck. clear -Ck H2 Hk. induction H2 as [|x i l' inputs' (sg & _ & ->) H2 IH]; [constructor|].
    rewrite fmap_cons in Ck. apply Forall_cons in Ck as [Ck1 Ck]. constructor; [|by apply IH].
    rewrite (signing_keys_snoc _ _ _ key _ Hk). cbn [partial_sigs with_sigs input_tweak]. by rewrite dom_insert_L, Ck1.
Qed.

Lemma sig_inv_signed txid signature peer evs d d' u key inputs :
  finalize_threshold -> w1_wf d -> signed_by txid signature peer d d' u key inputs -> sig_inv evs d ->
  sig_inv (evs ++ [SignedOut txid peer signature]) d'.
Proof using.
  intros Hft Hwf Hs [I1 I2 I3]. pose proof (collecting_signed _ _ _ _ _ _ _ _ _ Hs (I1 _ _ (sb_unsigned _ _ _ _ _ _ _ _ Hs))) as Hc.
  destruct Hs as [Hp Hu Hk Hl Ha [_ Hfc] Hr].
  assert (Hsame : signers txid (evs ++ [SignedOut txid peer signature]) = signers txid evs ++ [(peer, signature)]).
  { rewrite signers_app. simpl. by rewrite Z.eqb_refl. }
  assert (Hother : forall t, t <> txid -> signers t (evs ++ [SignedOut txid peer signature]) = signers t evs).
  { intros t Ht. rewrite signers_app. simpl. assert ((txid =? t) = false) as -> by (apply Z.eqb_neq; congruence). apply app_nil_r. }
  cbv zeta in Hr. destruct (finalize_peg_out_psbt _) as [p|] eqn:Hf; destruct Hr as [Hr1 Hr2].
  - split.
    + intros t v. rewrite Hr1. intros [Hne Hv]%lookup_delete_Some. rewrite Hother by done. by apply I1.
    + intros t v. rewrite Hr2, lookup_insert_Some. intros [[<- <-]|[Hne Hv]]; [|rewrite Hother by done; by apply I2].
      rewrite Hsame. destruct Hc as [(tweak & Ho & Htx) Cin Cne Csg Ck].
      eapply finalize_peg_out_psbt_Some in Hf as (tx & Hftx & ->); [|exact Ho]. apply Hft in Hftx.
      destruct (psbt_inputs (psbt (with_psbt (with_inputs inputs (psbt u)) u))) as [|x xs] eqn:Hxs; [by destruct (u_selected_utxos _)|].
      apply Forall_cons in Hftx as [Hftx _], Ck as [Ck _]. split.
      * rewrite <- size_dom, Ck in Hftx. pose proof (size_signing_keys (signers txid evs ++ [(peer, signature)]) x). clear -Hftx H. lia.
      * cbn [p_selected_utxos p_destination p_amount p_tweak p_change]. by rewrite <- Htx.
    + intros t Hne. rewrite Hfc. destruct (decide (t = txid)) as [->|Ht]; [by apply (wf_unsigned _ Hwf) in Hu as (_ & ? & _)|].
      rewrite Hother in Hne by done. by apply I3.
  - split.
    + intros t v. rewrite Hr1, lookup_insert_Some. intros [[<- <-]|[Hne Hv]]; [by rewrite Hsame|]. rewrite Hother by done. by apply I1.
    + intros t v. rewrite Hr2. intros Hv. rewrite Hother by (intros ->; congruence). by apply I2.
    + intros t Hne. rewrite Hfc. destruct (decide (t = txid)) as [->|Ht]; [by apply (wf_unsigned _ Hwf) in Hu as (_ & ? & _)|].
      rewrite Hother in Hne by done. by apply I3.
Qed.

Lemma w1_history_signatures evs d :
  weights_ok -> change_dust -> finalize_keeps -> finalize_threshold -> w1_history evs d -> sig_inv evs d.
Proof using.
  intros Hw Hcd Hfin Hft H. induction H as [|evs d input p o txo key meta d' Hh IH Hok Hr H|evs d p o a d' txid u Hh IH Hok H Ho Hu Hf|evs d item peer d' Hh IH H].
  - by split.
  - apply w1_input_Ok in H as (o' & txo' & Hc). destruct Hc as [_ _ _ Hcl [Hun Hpe] _ _]. eapply sig_inv_shrinks; [done| |done].
    split; [done|]. rewrite Hpe, Hcl. split; [done|]. rewrite dom_insert_L. clear. set_solver.
  - apply w1_output_Ok in H as (tx & tweak & Hp); [|done|done]. destruct Hp as [Hb Hs _ _ _ _ _ _ _]. destruct Hs as [S1 S2 S3 S4 S5 S6].
    rewrite S6 in Ho. injection Ho as <-. destruct Hf as [Hcl _]. destruct IH as [I1 I2 I3].
    assert (forall t, signers t (evs ++ [PeggedOut (compute_txid (unsigned_tx (psbt tx))) (previous_output <$> tx_input (unsigned_tx (psbt u))) (Amounts.get (amounts a) BITCOIN)]) = signers t evs) as Hsg.
    { intros t. rewrite signers_app. apply app_nil_r. }
    split; intros t; rewrite Hsg.
    + intros v. rewrite S4, lookup_insert_Some. intros [[<- <-]|[Hne Hv]]; [|by apply I1].
      assert (signers (compute_txid (unsigned_tx (psbt tx))) evs = []) as ->.
      { destruct (signers _ evs) eqn:E; [done|]. destruct (I3 (compute_txid (unsigned_tx (psbt tx)))) as [? ?]; congruence. }
      exact (collecting_built _ _ _ _ _ _ Hcd (proj1 Hok) Hb).
    + rewrite S5. apply I2.
    + intros Hne%I3. rewrite S3. rewrite lookup_insert_is_Some'. by right.
  - destruct (w1_history_refines _ _ Hw Hfin Hh) as [Hwf _].
    destruct item as [vote|rate|txid signature|version|variant bytes].
    3: { apply process_signature_signed in H as (u & key & inputs & Hs). by eapply sig_inv_signed. }
    all: eapply sig_inv_shrinks; [done|by eapply item_shrinks; [|exact H]|done].
Qed.


(** ** Replaced transactions *)

(** One of the two replaces the other. *)
Definition rbf_linked (a b : PendingTransaction) : Prop :=
  rbf_txid <$> p_rbf a = Some (compute_txid (p_tx b)) \/ rbf_txid <$> p_rbf b = Some (compute_txid (p_tx a)).

(** Pending transactions are stored under their ids. *)
Definition keyed (all : gmap Z PendingTransaction) : Prop := forall k t, all !! k = Some t -> compute_txid (p_tx t) = k.

Lemma keyed_delete k all : keyed all -> keyed (delete k all).
Proof using. intros Hk k' t [_ ?]%lookup_delete_Some. by apply Hk. Qed.

(** What an iteration pushes. *)
Definition rbf_pushes (t : PendingTransaction) (all : gmap Z PendingTransaction) : list PendingTransaction :=
  reverse (filter (fun b => rbf_txid <$> p_rbf b = Some (compute_txid (p_tx t))) (btree_iter all).*2) ++
  match p_rbf t with Some r => option_list (all !! rbf_txid r) | None => [] end.

Lemma rbf_closure_step fuel t rest all :
  rbf_closure (S fuel) (t :: rest) all =
  (txids ← rbf_closure fuel (rbf_pushes t (delete (compute_txid (p_tx t)) all) ++ rest) (delete (compute_txid (p_tx t)) all);
   Some (compute_txid (p_tx t) :: txids)).
Proof using. unfold rbf_pushes. by rewrite <- app_assoc. Qed.

Lemma elem_of_rbf_pushes t all b :
  keyed all -> b ∈ rbf_pushes t all <-> all !! compute_txid (p_tx b) = Some b /\ rbf_linked t b.
Proof using.
  intros Hk. unfold rbf_pushes, rbf_linked. rewrite elem_of_app, elem_of_reverse, list_elem_of_filter, list_elem_of_fmap. split.
  - intros [[Hb ([k b'] & -> & Hin%elem_of_btree_iter)]|Hb].
    + simpl in *. rewrite (Hk _ _ Hin). by split; [|right].
    + destruct (p_rbf t) as [r|] eqn:Hr; [|by apply not_elem_of_nil in Hb]. destruct (all !! rbf_txid r) as [b'|] eqn:Hb'; [|by apply not_elem_of_nil in Hb].
      apply list_elem_of_singleton in Hb as ->. pose proof (Hk _ _ Hb') as Hkb. rewrite Hkb. split; [done|]. by left.
  - intros [Hin [Hl|Hl]].
    + right. apply fmap_Some in Hl as (r & -> & Hr). rewrite <- Hr, Hin. by apply list_elem_of_singleton.
    + left. split; [done|]. exists (compute_txid (p_tx b), b). split; [done|]. by apply elem_of_btree_iter.
Qed.

Lemma length_rbf_pushes t all : (length (rbf_pushes t all) <= size all + 1)%nat.
Proof using.
  unfold rbf_pushes. rewrite length_app, length_reverse.
  assert (length (filter (fun b => rbf_txid <$> p_rbf b = Some (compute_txid (p_tx t))) (btree_iter all).*2) <= size all)%nat.
  { etransitivity; [apply length_filter|]. by rewrite length_fmap, length_btree_iter. }
  assert (length (match p_rbf t with Some r => option_list (all !! rbf_txid r) | None => [] end) <= 1)%nat.
  { destruct (p_rbf t); [|simpl; lia]. destruct (all !! _); simpl; lia. }
  lia.
Qed.

(** The stack and the transactions left bound the iterations: a transaction
    that was already removed pushes only transactions that are still left. *)
Lemma rbf_closure_total fuel stack all :
  keyed all -> (length stack + size all * size all + 4 * size all < fuel)%nat -> is_Some (rbf_closure fuel stack all).
Proof using.
  revert stack all. induction fuel as [fuel IH] using lt_wf_ind. intros stack all Hk Hf.
  destruct fuel as [|fuel]; [lia|]. destruct stack as [|t rest]; [by eexists|].
  assert (Hone : forall f t rest all, (f < S fuel)%nat -> keyed all -> is_Some (all !! compute_txid (p_tx t)) ->
    (length rest + size all * size all + 3 * size all < f + 3)%nat -> is_Some (rbf_closure (S f) (t :: rest) all)).
  { clear t rest all Hk Hf. intros f t rest all Hlt Hk Hin Hf. rewrite rbf_closure_step.
    pose proof (length_rbf_pushes t (delete (compute_txid (p_tx t)) all)) as Hl.
    assert (size (delete (compute_txid (p_tx t)) all) = size all - 1)%nat as Hs by (rewrite map_size_delete; destruct Hin as [? ->]; lia).
    assert (1 <= size all)%nat as Hpos by (destruct Hin as [x Hx]; rewrite <- (insert_delete_id _ _ _ Hx), map_size_insert_None by apply lookup_delete_eq; lia).
    destruct (IH f Hlt (rbf_pushes t (delete (compute_txid (p_tx t)) all) ++ rest) (delete (compute_txid (p_tx t)) all)) as [txids ->]; [by apply keyed_delete| |by eexists].
    rewrite length_app, Hs in *. destruct (size all) as [|n]; [lia|]. replace (S n - 1)%nat with n in * by lia. nia. }
  destruct (all !! compute_txid (p_tx t)) as [b|] eqn:Hin.
  { apply Hone; [lia|done|by rewrite Hin|]. simpl in Hf. lia. }
  rewrite rbf_closure_step, (delete_id all) by done. pose proof (length_rbf_pushes t all) as Hl.
  pose proof (fun x => proj1 (elem_of_rbf_pushes t all x Hk)) as Hel.
  destruct (rbf_pushes t all) as [|x pushes].
  - destruct (IH fuel (Nat.lt_succ_diag_r fuel) rest all Hk) as [txids Ht]; [simpl in Hf; lia|]. simpl. rewrite Ht. by eexists.
  - destruct (Hel x (list_elem_of_here _ _)) as [Hx _]. destruct fuel as [|fuel]; [simpl in Hf; lia|].
    assert (1 <= size all)%nat as Hpos by (rewrite <- (insert_delete_id _ _ _ Hx), map_size_insert_None by apply lookup_delete_eq; lia).
    destruct (Hone fuel x (pushes ++ rest) all) as [txids Ht]; [lia|done|by rewrite Hx| |].
    + rewrite length_app. simpl in Hf, Hl. destruct (size all) as [|n]; [lia|]. nia.
    + simpl app. rewrite Ht. by eexists.
Qed.

(** What is removed is closed under replacement. *)
Lemma rbf_closure_closed fuel stack all txids :
  keyed all -> (forall t b, t ∈ stack -> all !! compute_txid (p_tx t) = Some b -> b = t) ->
  rbf_closure fuel stack all = Some txids ->
  (forall t, t ∈ stack -> compute_txid (p_tx t) ∈ txids) /\
  (forall t b k, t ∈ stack \/ all !! compute_txid (p_tx t) = Some t /\ compute_txid (p_tx t) ∈ txids ->
     all !! k = Some b -> rbf_linked t b -> k ∈ txids).
Proof using.
  revert stack all txids. induction fuel as [|fuel IH]; intros stack all txids Hk Hc H; [done|].
  destruct stack as [|t rest]; [injection H as <-; split; [by intros t ?%not_elem_of_nil|]; by intros t b k [?%not_elem_of_nil|[_ ?%not_elem_of_nil]]|].
  rewrite rbf_closure_step in H. apply bind_Some in H as (txids' & H & [= <-]).
  set (all' := delete (compute_txid (p_tx t)) all) in *. assert (keyed all') as Hk' by (by apply keyed_delete).
  apply IH in H as [H1 H2]; [|done|].
  - split.
    + intros t' [->|Hin]%elem_of_cons; [by left|]. right. apply H1, elem_of_app. by right.
    + intros t' b k Ht Hb Hl. destruct (decide (k = compute_txid (p_tx t))) as [->|Hne]; [by left|]. right.
      assert (all' !! k = Some b) as Hb' by (unfold all'; by rewrite lookup_delete_ne).
      assert (t' = t -> k ∈ txids') as Heq.
      { intros ->. rewrite <- (Hk' _ _ Hb'). apply H1, elem_of_app. left. apply elem_of_rbf_pushes; [done|]. by rewrite (Hk' _ _ Hb'). }
      destruct Ht as [[?|Hin]%elem_of_cons|[Ht [Heq'|Hin]%elem_of_cons]]; [by apply Heq| | |].
      * apply (H2 t' b); [|done|done]. left. apply elem_of_app. by right.
      * apply Heq. rewrite Heq' in Ht. apply (Hc t t'); [by left|done].
      * destruct (decide (compute_txid (p_tx t') = compute_txid (p_tx t))) as [Heq'|Hne'].
        -- apply Heq. rewrite Heq' in Ht. apply (Hc t t'); [by left|done].
        -- apply (H2 t' b); [|done|done]. right. split; [|done]. unfold all'. by rewrite lookup_delete_ne.
  - intros t' b [Hin|Hin]%elem_of_app Hb.
    + apply elem_of_rbf_pushes in Hin as [Hin _]; [|done]. congruence.
    + apply lookup_delete_Some in Hb as [_ Hb]. apply (Hc t' b); [by right|done].
Qed.

(** Only transactions connected by replacements are removed. *)
Lemma rbf_closure_reachable fuel stack all txids root :
  keyed all -> (forall t, t ∈ stack -> rtc rbf_linked root t) -> rbf_closure fuel stack all = Some txids ->
  forall k, k ∈ txids -> exists t, compute_txid (p_tx t) = k /\ rtc rbf_linked root t.
Proof using.
  revert stack all txids. induction fuel as [|fuel IH]; intros stack all txids Hk Hs H; [done|].
  destruct stack as [|t rest]; [injection H as <-; by intros k ?%not_elem_of_nil|].
  rewrite rbf_closure_step in H. apply bind_Some in H as (txids' & H & [= <-]).
  intros k [->|Hin]%elem_of_cons; [exists t; split; [done|]; apply Hs; by left|].
  eapply IH; [| |exact H|exact Hin]; [by apply keyed_delete|].
  intros t' [Ht'|Ht']%elem_of_app; [|apply Hs; by right].
  apply elem_of_rbf_pushes in Ht' as [_ Hl]; [|by apply keyed_delete]. eapply rtc_r; [apply Hs; by left|done].
Qed.

Lemma remove_pending_run l (d : WalletDb) :
  for_each l (fun txid => _ ← remove_entry PendingTransactionKey txid; mret tt) d =
  (Ok tt, upd PendingTransactionKey (fun m => foldl (fun m k => delete k m) m l) d) :> outcome WalletError unit * WalletDb.
Proof using. revert d. induction l as [|x l IH]; intros d; [by destruct d|]. cbn [for_each]. by rewrite (run_bind _ _ d tt (upd PendingTransactionKey (delete x) d)), IH. Qed.

(** The worklist of replaced transactions always ends.  With it the
    confirmed transaction is removed, and with every removed transaction those
    that replace it and those it replaces, and no others. *)
Theorem w1_rbf_closure tx d :
  keyed (pending_txs d) -> pending_txs d !! compute_txid (p_tx tx) = Some tx ->
  exists txids, remove_rbf_transactions tx d = (Ok tt, upd PendingTransactionKey (fun m => foldl (fun m k => delete k m) m txids) d) /\
    compute_txid (p_tx tx) ∈ txids /\
    (forall t b, compute_txid (p_tx t) ∈ txids -> pending_txs d !! compute_txid (p_tx t) = Some t ->
       pending_txs d !! compute_txid (p_tx b) = Some b -> rbf_linked t b -> compute_txid (p_tx b) ∈ txids) /\
    (forall k, k ∈ txids -> exists t, compute_txid (p_tx t) = k /\ rtc rbf_linked tx t).
Proof using.
  intros Hk Htx. destruct (rbf_closure_total (rbf_fuel (pending_txs d)) [tx] (pending_txs d) Hk) as [txids Ht].
  { unfold rbf_fuel. cbn [length]. lia. }
  exists txids. destruct (rbf_closure_closed (rbf_fuel (pending_txs d)) [tx] (pending_txs d) txids Hk ltac:(intros t b ->%list_elem_of_singleton; congruence) Ht) as [H1 H2]. split.
  - unfold remove_rbf_transactions. rewrite (run_bind _ _ d (pending_txs d) d) by done.
    rewrite (run_bind _ _ d txids d) by (by apply expect_Ok). apply remove_pending_run.
  - split; [apply H1; by apply list_elem_of_singleton|]. split; [|apply (rbf_closure_reachable (rbf_fuel (pending_txs d)) [tx] (pending_txs d) txids tx Hk); [by intros t ->%list_elem_of_singleton|done]].
    intros t b Hin Ht' Hb Hl. apply (H2 t b); [|done|done]. by right.
Qed.

(** ** Fee quotes *)

(** The federation's scripts all have the same length and dust limit. *)
Definition uniform_scripts : Prop := forall t t', script_len (derive_script t) = script_len (derive_script t') /\
  minimal_non_dust (derive_script t) = minimal_non_dust (derive_script t').

Lemma checked_fee_any arithmetic rate weight fee :
  0 <= rate -> 0 <= weight -> calculate_fee Checked rate weight = Some fee -> calculate_fee arithmetic rate weight = Some fee.
Proof using.
  intros Hr Hw H. destruct arithmetic; [|done]. simpl in *. by destruct (checked_calculate_fee_Some rate weight fee Hr Hw H) as (_ & -> & _).
Qed.

Lemma select_utxos_any arithmetic rate amount dust stack selected total weight fees d r d' :
  0 <= rate -> 0 <= weight -> 0 <= max_input_weight ->
  select_utxos Checked rate amount dust stack selected total weight fees d = (Ok r, d') ->
  select_utxos arithmetic rate amount dust stack selected total weight fees d = (Ok r, d').
Proof using.
  intros Hr Hw Hm. revert selected total weight fees Hw. induction stack as [|u stack IH]; intros selected total weight fees Hw H; cbn [select_utxos] in *.
  - done.
  - apply bind_Ok in H as (target & d1 & [Ht ->]%ok_or_Ok & H). rewrite (run_bind _ _ d target d) by (by apply ok_or_Ok).
    destruct (target <=? total); [done|]. apply bind_Ok in H as (total' & d1 & [Ht' ->]%expect_Ok & H).
    apply bind_Ok in H as (fees' & d1 & [Hf ->]%ok_or_Ok & H). rewrite (run_bind _ _ d total' d) by (by apply expect_Ok).
    rewrite (run_bind _ _ d fees' d) by (apply ok_or_Ok; split; [apply checked_fee_any; [done|lia|done]|done]).
    apply IH; [lia|done].
Qed.

(** A quoted fee is accepted.  When the fees endpoint quotes fees for an
    address and an amount, the guardians build the peg-out with these fees in
    the same state, under either fee arithmetic, and it passes validation when
    the address is on the network, the amount is not dust and the quoted rate
    is at least the relay minimum. *)
Theorem w1_fee_quote_accepted address sats f d tweak :
  weights_ok -> uniform_scripts -> 0 <= fee_rate f -> is_Some (consensus_module_consensus_version d) ->
  is_valid_for_network address (network cfg) = true -> minimal_non_dust (address_script address) <= sats -> DEFAULT_MIN_RELAY_TX_FEE <= fee_rate f ->
  peg_out_fees address sats d = (Ok (Some f), d) ->
  exists tx rate, create_peg_out_tx (inl {| recipient := address; peg_out_amount := sats; fees := f |}) tweak d = (Ok tx, d) /\
    u_fees tx = f /\ consensus_fee_rate d = Some rate /\
    validate_tx tx {| recipient := address; peg_out_amount := sats; fees := f |} rate d = (Ok tt, d).
Proof using.
  intros Hw Hu Hrate [v Hv] Hnet Hdust Hrelay H. unfold peg_out_fees in H. destruct (consensus_fee_rate d) as [rate|]; [|done].
  destruct (create_tx _ _ _ _ _ _ _ _ d) as [[tx0|e|] d0] eqn:Hc; simplify_eq.
  assert (0 <= max_input_weight) as Hm by (unfold max_input_weight; destruct Hw as (? & _); lia).
  unfold create_tx in Hc. apply bind_Ok in Hc as ([] & d1 & [Hmax ->]%ensure_Ok & Hc). cbv zeta in Hc.
  apply bind_Ok in Hc as (fees0 & d1 & [Hf0 ->]%ok_or_Ok & Hc). apply bind_Ok in Hc as (r & d1 & Hs & Hc).
  assert (base_weight (address_script address) (derive_script tweak) = base_weight (address_script address) (derive_script (replicate 33 0))) as Hb
    by (unfold base_weight; by rewrite (proj1 (Hu tweak (replicate 33 0)))).
  pose proof (base_weight_nonneg (address_script address) (derive_script (replicate 33 0)) Hw) as Hbn.
  destruct r as [[[selected total] weight] fee]. apply ret_Ok in Hc as [Htx <-].
  assert (fee_rate (u_fees tx0) = rate) as Hfr by (by rewrite Htx). rewrite Hfr in Hrate, Hrelay.
  assert (d0 = d) as ->.
  { apply select_utxos_Ok in Hs as [-> _]; [done| |apply Hw|done]. destruct Hw as (_ & _ & Hd). specialize (Hd (address_script address)). lia. }
  set (arithmetic := if decide (version_le CHECKED_PEG_OUT_FEE_MODULE_CONSENSUS_VERSION v) then Checked else Wrapping).
  apply (select_utxos_any arithmetic) in Hs; [|done|done|done].
  eexists _, rate. split; [|split; [|split; [done|]]].
  - unfold create_peg_out_tx. rewrite (run_bind _ _ d (Some v) d) by (unfold gets; by rewrite Hv). rewrite (run_bind _ _ d v d) by done.
    cbv zeta. rewrite (run_bind _ _ d (available_utxos d) d) by done. unfold create_tx. cbn [peg_out_amount recipient fees].
    rewrite (run_bind _ _ d tt d) by (by apply ensure_Ok). cbv zeta. rewrite Hfr, Hb, (proj2 (Hu tweak (replicate 33 0))).
    rewrite (run_bind _ _ d fees0 d) by (apply ok_or_Ok; split; [by apply checked_fee_any|done]).
    rewrite (run_bind _ _ d (selected, total, weight, fee) d) by exact Hs. reflexivity.
  - by rewrite Htx.
  - unfold validate_tx. cbn [recipient u_amount u_destination u_fees fee_rate fees total_weight peg_out_amount].
    rewrite (run_bind _ _ d tt d) by (by apply ensure_Ok).
    rewrite (run_bind _ _ d tt d) by (apply ensure_Ok; split; [apply negb_true_iff, Z.ltb_ge; done|done]).
    rewrite (run_bind _ _ d tt d) by (apply ensure_Ok; split; [apply negb_true_iff, Z.ltb_ge; lia|done]).
    rewrite (run_bind _ _ d tt d) by (apply ensure_Ok; split; [apply negb_true_iff, Z.ltb_ge; by rewrite Hfr|done]).
    apply ensure_Ok. split; [|done]. apply Z.eqb_eq. by rewrite Htx.
Qed.

(** ** The promise to the engine

    [own] are the outpoints that can belong to the wallet: deposits, and the
    change of transactions that spend such outpoints. *)
Section audited.
Context (own : BtcOutPoint -> Prop).

Definition own_closed : Prop :=
  forall tx o, o ∈ previous_output <$> tx_input tx -> own o -> own (change_of (compute_txid tx)).

(** The id of a transaction determines what it spends. *)
Definition txid_binds : Prop := forall t1 t2,
  compute_txid t1 = compute_txid t2 -> previous_output <$> tx_input t1 = previous_output <$> tx_input t2.

(** A deposit is not the change of a transaction that spends outputs of the
    wallet, since only the guardians can sign such a transaction. *)
Definition deposit_ok (o : BtcOutPoint) : Prop :=
  own o /\ forall tx, o = change_of (compute_txid tx) -> Forall (fun i => ~ own i) (previous_output <$> tx_input tx).

Definition w1_deposit_ok (input : WalletInput) : Prop :=
  match input with
  | WalletInputV0 proof => deposit_ok (PegInProof_outpoint proof)
  | WalletInputV1 outpoint _ _ => deposit_ok outpoint
  | WalletInputDefault _ _ => True
  end.

(** A peg-out does not pay a change address of the federation. *)
Definition w1_recipient_ok (output : WalletOutput) : Prop :=
  match output with
  | OutputPegOut p => w1_output_ok p /\ forall idx, address_script (recipient p) <> tweaked_script (nonce_from_idx idx)
  | _ => True
  end.

Definition deposits_ok (evs : list w1_event) : Prop := forall o, o ∈ pegged_in evs -> deposit_ok o.

Lemma resolve_outpoint input d o txo key d' :
  resolve_input input d = (Ok (o, txo, key), d') -> w1_deposit_ok input -> deposit_ok o.
Proof using. unfold resolve_input, PegInProof_verify. destruct input; intros H; dbrun; done. Qed.

Lemma pegged_in_app evs1 evs2 : pegged_in (evs1 ++ evs2) = pegged_in evs1 ++ pegged_in evs2.
Proof using. apply omap_app. Qed.
Lemma deposits_ok_app evs evs' : deposits_ok (evs ++ evs') -> deposits_ok evs.
Proof using. intros H o Ho. apply H. rewrite pegged_in_app. apply elem_of_app. by left. Qed.

Lemma confirms_claimed d d' : confirms d d' -> dom (claimed d') = dom (claimed d).
Proof using.
  intros (txids & H & _). change (dom (claimed d')) with (l_claimed (view d')). change (dom (claimed d)) with (l_claimed (view d)).
  revert H. generalize (view d). induction txids as [|txid txids IH]; intros l H; simpl in H; [by injection H as <-|].
  apply bind_Some in H as (l1 & H1 & H). apply bind_Some in H1 as (c & _ & H1). rewrite (IH _ H). by injection H1 as <-.
Qed.

(** What a peg-out spends is in the wallet. *)
Lemma pegged_out_inputs p o a d d' tx tweak :
  change_dust -> w1_output_ok p -> pegged_out p o a d d' tx tweak ->
  (exists i, i ∈ previous_output <$> tx_input (unsigned_tx (psbt tx))) /\
  forall i, i ∈ previous_output <$> tx_input (unsigned_tx (psbt tx)) -> is_Some (utxos d !! i).
Proof using.
  intros Hdust [Hok _] Hp. pose proof (po_built _ _ _ _ _ _ _ Hp) as Hb. rewrite (built_inputs _ _ _ _ _ _ Hb). split.
  - destruct (u_selected_utxos tx) as [|u l] eqn:Hs; [|exists u.1; by left]. exfalso.
    pose proof (built_balance _ _ _ _ _ _ Hb) as Hbal. pose proof (built_dust _ _ _ _ _ _ Hb). pose proof (Hdust tweak).
    pose proof (wrapping_calculate_fee_nonneg (fee_rate (u_fees tx)) (total_weight (u_fees tx))). rewrite Hs in Hbal. unfold sum_amounts in Hbal. simpl in Hbal.
    unfold PegOutFees_amount in Hbal. lia.
  - intros i Hi. apply list_elem_of_fmap in Hi as ([i' u] & -> & Hi). destruct (built_selected _ _ _ _ _ _ Hb) as (rest & Hperm & _).
    exists u. apply elem_of_map_to_list. rewrite <- available_utxos_perm, Hperm. apply elem_of_app. by left.
Qed.

(** Claimed outpoints are those of the wallet: deposits and change. *)
Definition accounted (evs : list w1_event) (o : BtcOutPoint) : Prop :=
  o ∈ pegged_in evs \/
  exists tx charged, PeggedOut (compute_txid tx) (previous_output <$> tx_input tx) charged ∈ evs /\ o = change_of (compute_txid tx).

Lemma accounted_app evs evs' o : accounted evs o -> accounted (evs ++ evs') o.
Proof using.
  intros [H|(tx & c & H & ->)].
  - left. rewrite pegged_in_app. apply elem_of_app. by left.
  - right. exists tx, c. split; [apply elem_of_app; by left|done].
Qed.

Lemma w1_claimed evs d o :
  own_closed -> weights_ok -> finalize_keeps -> change_dust -> w1_history evs d -> deposits_ok evs ->
  is_Some (claimed d !! o) -> own o /\ accounted evs o.
Proof using.
  intros Hclosed Hw Hfin Hdust Hh. revert o.
  induction Hh as [|evs d input p o0 txo key meta d' Hh IH Hok Hr H|evs d p o0 a d' txid u Hh IH Hok H Ho Hu Hf|evs d item peer d' Hh IH H]; intros o Hdep Hc.
  - by destruct Hc.
  - apply w1_input_Ok in H as (o' & txo' & Hci). pose proof (ci_resolved _ _ _ _ _ _ Hci) as Hr'. rewrite Hr in Hr'. injection Hr' as <- <- _.
    rewrite (ci_claimed _ _ _ _ _ _ Hci), lookup_insert_is_Some' in Hc. destruct Hc as [->|Hc].
    + assert (o ∈ pegged_in (evs ++ [PeggedIn o (Amounts.get (amounts (amount meta)) BITCOIN)])) as Hin
        by (rewrite pegged_in_app; apply elem_of_app; right; by left).
      split; [by apply Hdep in Hin as [? _]|by left].
    + destruct (IH o (deposits_ok_app _ _ Hdep) Hc). split; [done|by apply accounted_app].
  - apply w1_output_Ok in H as (tx & tweak & Hp); [|done|done]. pose proof (po_stored _ _ _ _ _ _ _ Hp) as Hst.
    rewrite (st_outcome _ _ _ _ Hst) in Ho. injection Ho as <-. rewrite (st_unsigned _ _ _ _ Hst), lookup_insert_eq in Hu. injection Hu as <-.
    rewrite (st_claimed _ _ _ _ Hst), lookup_insert_is_Some' in Hc. apply deposits_ok_app in Hdep. destruct Hc as [<-|Hc].
    + split; [|right; exists (unsigned_tx (psbt tx)); eexists; split; [apply elem_of_app; right; by left|done]].
      destruct (pegged_out_inputs _ _ _ _ _ _ _ Hdust Hok Hp) as [[i Hi] Hin]. apply (Hclosed _ i Hi). apply IH; [done|].
      destruct (Hin i Hi) as [v Hv]. destruct (w1_history_ledger _ _ Hw Hfin Hh) as [L _].
      apply elem_of_dom, (li_utxos _ _ _ L i (utxo_amount v)). simpl. by rewrite lookup_fmap, Hv.
    + destruct (IH o Hdep Hc). split; [done|by apply accounted_app].
  - destruct (w1_history_refines _ _ Hw Hfin Hh) as [Hwf _]. pose proof (item_refines _ _ _ _ Hfin Hwf H) as Hcon.
    apply elem_of_dom in Hc. rewrite (confirms_claimed _ _ Hcon) in Hc. apply elem_of_dom in Hc.
    destruct (IH o (deposits_ok_app _ _ Hdep) Hc). split; [done|by apply accounted_app].
Qed.

(** A peg-out has a new transaction id. *)
Lemma peg_out_is_fresh evs p o a d d' tx tweak :
  own_closed -> txid_binds -> weights_ok -> finalize_keeps -> change_dust -> w1_history evs d -> deposits_ok evs ->
  w1_recipient_ok (OutputPegOut p) -> pegged_out p o a d d' tx tweak -> peg_out_fresh d d' (compute_txid (unsigned_tx (psbt tx))).
Proof using.
  intros Hclosed Hbinds Hw Hfin Hdust Hh Hdep [Hok Haddr] Hp. destruct (pegged_out_inputs _ _ _ _ _ _ _ Hdust Hok Hp) as [[i Hi] Hin].
  destruct (w1_history_ledger _ _ Hw Hfin Hh) as [L _]. destruct (Hin i Hi) as [v Hv].
  assert (Hown : own i).
  { apply (w1_claimed evs d i); try done. apply elem_of_dom, (li_utxos _ _ _ L i (utxo_amount v)). simpl. by rewrite lookup_fmap, Hv. }
  split.
  - destruct (claimed d !! change_of (compute_txid (unsigned_tx (psbt tx)))) eqn:Hc; [|done]. exfalso.
    destruct (w1_claimed evs d (change_of (compute_txid (unsigned_tx (psbt tx))))) as [_ [Hpi|(tx' & c & He & Heq)]]; try done.
    + apply Hdep in Hpi as [_ Hno]. specialize (Hno _ eq_refl). by apply (proj1 (Forall_forall _ _) Hno i Hi).
    + apply (inj change_of), Hbinds in Heq. rewrite Heq in Hi. assert (i ∈ spent_by evs) as Hsp.
      { unfold spent_by. apply list_elem_of_bind. exists (PeggedOut (compute_txid tx') (previous_output <$> tx_input tx') c). by split. }
      apply (li_spent _ _ _ L) in Hsp as [_ Hsp]. simpl in Hsp. by rewrite lookup_fmap, Hv in Hsp.
  - intros u tw Hu Htw. pose proof (po_stored _ _ _ _ _ _ _ Hp) as Hst. rewrite (st_unsigned _ _ _ _ Hst), lookup_insert_eq in Hu. injection Hu as <-.
    pose proof (po_built _ _ _ _ _ _ _ Hp) as Hb. rewrite (built_psbt _ _ _ _ _ _ Hb) in Htw. simpl in Htw. injection Htw as <-.
    rewrite (built_destination _ _ _ _ _ _ Hb). destruct (po_tweak _ _ _ _ _ _ _ Hp) as [idx ->]. apply Haddr.
Qed.

Definition w1_reached (d : WalletDb) : Prop := exists evs, w1_history evs d /\ deposits_ok evs.

Lemma w1_reached_input input p d meta d' :
  w1_reached d -> w1_input_ok input -> w1_deposit_ok input -> wallet_process_input input p d = (Ok meta, d') ->
  exists evs o, w1_history evs d /\ w1_history (evs ++ [PeggedIn o (Amounts.get (amounts (amount meta)) BITCOIN)]) d' /\ w1_reached d'.
Proof using.
  intros (evs & Hh & Hdep) Hok Hd H. pose proof H as Hp. apply w1_input_Ok in H as (o & txo & Hci). pose proof (ci_resolved _ _ _ _ _ _ Hci) as Hr.
  pose proof (w1_input evs d input p o txo (pub_key meta) meta d' Hh Hok Hr Hp) as Hh'. exists evs, o. split; [done|]. split; [done|]. eexists. split; [exact Hh'|].
  intros o' Ho'. rewrite pegged_in_app in Ho'. apply elem_of_app in Ho' as [?|Ho']; [by apply Hdep|]. apply list_elem_of_singleton in Ho' as ->.
  by eapply resolve_outpoint.
Qed.

Lemma w1_reached_output p o d a d' :
  own_closed -> txid_binds -> weights_ok -> finalize_keeps -> change_dust ->
  w1_reached d -> w1_recipient_ok (OutputPegOut p) -> wallet_process_output (OutputPegOut p) o d = (Ok a, d') ->
  exists evs txid inputs, w1_history evs d /\ w1_history (evs ++ [PeggedOut txid inputs (Amounts.get (amounts a) BITCOIN)]) d' /\ w1_reached d'.
Proof using.
  intros Hc Hb Hw Hfin Hdust (evs & Hh & Hdep) Hok H. pose proof H as Hrun. pose proof (proj1 Hok) as Hok1.
  apply w1_output_Ok in H as (tx & tweak & Hp); [|done|done]. pose proof (po_stored _ _ _ _ _ _ _ Hp) as Hst.
  pose proof (peg_out_is_fresh _ _ _ _ _ _ _ _ Hc Hb Hw Hfin Hdust Hh Hdep Hok Hp) as Hfresh.
  assert (Hu : unsigned_txs d' !! compute_txid (unsigned_tx (psbt tx)) = Some tx) by (rewrite (st_unsigned _ _ _ _ Hst); apply lookup_insert_eq).
  pose proof (w1_output evs d p o a d' _ tx Hh Hok1 Hrun (st_outcome _ _ _ _ Hst) Hu Hfresh) as Hh'.
  eexists evs, _, _. split; [done|]. split; [exact Hh'|]. eexists. split; [exact Hh'|]. intros o' Ho'. rewrite pegged_in_app in Ho'.
  apply elem_of_app in Ho' as [?|Ho']; [by apply Hdep|]. by apply not_elem_of_nil in Ho'.
Qed.

Lemma w1_reached_item item peer d d' :
  w1_reached d -> wallet_process_consensus_item item peer d = (Ok tt, d') ->
  exists evs, w1_history evs d /\ w1_history (evs ++ [item_event item peer]) d' /\ w1_reached d'.
Proof using.
  intros (evs & Hh & Hdep) H. pose proof (w1_item evs d item peer d' Hh H) as Hh'. exists evs. split; [done|]. split; [done|]. eexists. split; [exact Hh'|].
  intros o' Ho'. rewrite pegged_in_app in Ho'. apply elem_of_app in Ho' as [?|Ho']; [by apply Hdep|]. destruct item; by apply not_elem_of_nil in Ho'.
Qed.

Lemma w1_net evs d : weights_ok -> finalize_keeps -> w1_history evs d -> 1000 * w1_value d = net_credit evs.
Proof using.
  intros Hw Hfin H. destruct (w1_history_refines _ _ Hw Hfin H) as [Hwf _]. destruct (w1_history_ledger _ _ Hw Hfin H) as [_ Hv].
  by rewrite (ledger_value_view _ Hwf) in Hv.
Qed.

Lemma w1_net_step evs e d d' :
  weights_ok -> finalize_keeps -> w1_history evs d -> w1_history (evs ++ [e]) d' ->
  1000 * w1_value d' = 1000 * w1_value d + net_credit [e].
Proof using.
  intros Hw Hfin H H'. rewrite (w1_net _ _ Hw Hfin H), (w1_net _ _ Hw Hfin H'). unfold net_credit. by rewrite fmap_app, sum_list_app.
Qed.

Lemma w1_value_nonneg d : w1_wf d -> 0 <= w1_value d.
Proof using.
  intros [W1 W2 W3 _]. unfold w1_value.
  assert (0 <= sum_map (fun _ => utxo_amount) (utxos d)) by (apply sum_map_nonneg; exact W1).
  assert (0 <= sum_map (fun _ => u_change) (unsigned_txs d)) by (apply sum_map_nonneg; intros t u (_ & _ & tw & _ & [_ _ _ ?])%W2; done).
  assert (0 <= sum_map (fun _ => p_change) (pending_txs d)) by (apply sum_map_nonneg; intros t u (_ & _ & [_ _ _ ?])%W3; done).
  lia.
Qed.

Lemma sum_abs_nonneg_items l : Forall (fun x => 0 <= x) l -> sum_abs l = sum_list l.
Proof using. induction 1 as [|x l Hx Hl IH]; [done|]. unfold sum_abs in *. simpl in *. unfold sum_list in IH |- *. simpl. lia. Qed.

Lemma w1_audit_items d :
  w1_wf d -> 1000 * w1_value d <= i64_max ->
  exists items, wallet_audit d = (Ok items, d) /\ sum_list items = 1000 * w1_value d /\ sum_abs items = 1000 * w1_value d.
Proof using.
  intros Hwf Hmax. destruct (w1_audit_sum d Hwf Hmax) as (items & Hrun & Hsum). exists items. split; [done|]. split; [done|]. rewrite <- Hsum.
  apply sum_abs_nonneg_items. injection Hrun as <-. destruct Hwf as [W1 W2 W3 _]. unfold w1_value in Hmax.
  assert (N2 : forall t u, unsigned_txs d !! t = Some u -> 0 <= u_change u) by (intros t u (_ & _ & tw & _ & [_ _ _ ?])%W2; done).
  assert (N3 : forall t u, pending_txs d !! t = Some u -> 0 <= p_change u) by (intros t u (_ & _ & [_ _ _ ?])%W3; done).
  pose proof (sum_map_nonneg (fun _ => utxo_amount) (utxos d) W1) as P1. pose proof (sum_map_nonneg (fun _ => u_change) (unsigned_txs d) N2) as P2.
  pose proof (sum_map_nonneg (fun _ => p_change) (pending_txs d) N3) as P3.
  apply Forall_app. split; [|apply Forall_app; split]; apply Forall_fmap, Forall_forall; intros [k v] Hk%elem_of_map_to_list; simpl in Hk |- *.
  - pose proof (sum_map_entry_le (fun _ => utxo_amount) (utxos d) k v W1 Hk). pose proof (W1 _ _ Hk). cbv beta in *. rewrite sats_asset_exact; lia.
  - pose proof (sum_map_entry_le (fun _ => u_change) (unsigned_txs d) k v N2 Hk). pose proof (N2 _ _ Hk). cbv beta in *.
    apply W2 in Hk as (-> & _ & _). simpl. rewrite sats_asset_exact; lia.
  - pose proof (sum_map_entry_le (fun _ => p_change) (pending_txs d) k v N3 Hk). pose proof (N3 _ _ Hk). cbv beta in *.
    apply W3 in Hk as (-> & _ & _). simpl. rewrite sats_asset_exact; lia.
Qed.

#[export] Program Instance wallet_audited (Hc : own_closed) (Hb : txid_binds) (Hw : weights_ok) (Hfin : finalize_keeps) (Hdust : change_dust)
    (Hin : is_u64 (peg_in_abs cfg)) (Hout : is_u64 (peg_out_abs cfg)) : Audited wallet_module := {|
  inv := w1_reached;
  input_ok := fun i => w1_input_ok i /\ w1_deposit_ok i;
  output_ok := w1_recipient_ok;
  item_ok := fun _ => True;
  net := fun d => 1000 * w1_value d;
  gross := fun d => 1000 * w1_value d;
|}.
Next Obligation.
  intros _ _ Hw Hfin _ _ _ d (evs & Hh & _). destruct (w1_history_refines _ _ Hw Hfin Hh) as [Hwf _]. pose proof (w1_value_nonneg _ Hwf). lia.
Qed.
Next Obligation.
  intros _ _ Hw Hfin _ Hin _ i p d meta d' Hd [Hok Hdep] H. simpl in H. pose proof H as Hp.
  destruct (w1_reached_input _ _ _ _ _ Hd Hok Hdep H) as (evs & o & H1 & H2 & Hr). split; [done|].
  apply w1_input_Ok in Hp as (o' & txo & Hci). destruct (ci_item _ _ _ _ _ _ Hci) as (x & Hx & Hitem). split; [rewrite Hitem; by apply bitcoin_item_wf|].
  pose proof (w1_net_step _ _ _ _ Hw Hfin H1 H2) as Hn. unfold net_credit in Hn. simpl in Hn. lia.
Qed.
Next Obligation.
  intros Hc Hb Hw Hfin Hdust _ Hout [p|r|v b] o d a d' Hd Hok H; [|by unfold process_output in H; simpl in H; mrun..]. pose proof H as Hp.
  destruct (w1_reached_output _ _ _ _ _ Hc Hb Hw Hfin Hdust Hd Hok H) as (evs & txid & inputs & H1 & H2 & Hr). split; [done|].
  apply w1_output_Ok in Hp as (tx & tweak & Hpo); [|done|apply Hok]. destruct (po_item _ _ _ _ _ _ _ Hpo) as (x & Hx & ->). split; [by apply bitcoin_item_wf|].
  pose proof (w1_net_step _ _ _ _ Hw Hfin H1 H2) as Hn. unfold net_credit in Hn. simpl in Hn |- *. lia.
Qed.
Next Obligation.
  intros _ _ Hw Hfin _ _ _ c peer d d' Hd _ H. destruct (w1_reached_item _ _ _ _ Hd H) as (evs & H1 & H2 & Hr). split; [done|].
  pose proof (w1_net_step _ _ _ _ Hw Hfin H1 H2) as Hn. unfold net_credit in Hn. destruct c; simpl in Hn; lia.
Qed.
Next Obligation.
  intros _ _ Hw Hfin _ _ _ d (evs & Hh & Hdep) Hg. destruct (w1_history_refines _ _ Hw Hfin Hh) as [Hwf _].
  destruct (w1_audit_items d Hwf Hg) as (items & Hrun & Hs & Ha). exists items, d. split_and!; try done; [by exists evs|by rewrite Ha].
Qed.

Lemma w1_reached_empty : w1_reached WalletDb_empty.
Proof using. exists []. split; [constructor|]. by intros o ?%not_elem_of_nil. Qed.
End audited.

(** ** Running histories *)

Inductive w1_op :=
| DoInput (input : WalletInput) (p : InPoint)
| DoOutput (p : PegOut) (o : OutPoint)
| DoItem (item : WalletConsensusItem) (peer : Z).

Definition input_okb (input : WalletInput) : bool :=
  match input with
  | WalletInputV0 proof => forallb (fun txo => 0 <=? value txo) (tx_output (proof_tx proof))
  | WalletInputV1 _ _ txo => 0 <=? value txo
  | WalletInputDefault _ _ => true
  end.

Definition freshb (d : WalletDb) (txid : Z) (u : UnsignedTransaction) : bool :=
  bool_decide (claimed d !! change_of txid = None) &&
  match psbt_outputs (psbt u) with [None; Some tweak] => negb (u_destination u =? tweaked_script tweak) | _ => true end.

Definition w1_exec (op : w1_op) (d : WalletDb) : option (w1_event * WalletDb) :=
  match op with
  | DoInput input p =>
      match resolve_input input d, wallet_process_input input p d with
      | (Ok r, _), (Ok meta, d') =>
          if input_okb input then Some (PeggedIn r.1.1 (Amounts.get (amounts (amount meta)) BITCOIN), d') else None
      | _, _ => None
      end
  | DoOutput p o =>
      match wallet_process_output (OutputPegOut p) o d with
      | (Ok a, d') =>
          txid ← peg_out_outcomes d' !! o;
          u ← unsigned_txs d' !! txid;
          if (0 <=? peg_out_amount p) && (0 <=? fee_rate (fees p)) && freshb d txid u
          then Some (PeggedOut txid (previous_output <$> tx_input (unsigned_tx (psbt u))) (Amounts.get (amounts a) BITCOIN), d') else None
      | _ => None
      end
  | DoItem item peer =>
      match wallet_process_consensus_item item peer d with (Ok _, d') => Some (item_event item peer, d') | _ => None end
  end.

Fixpoint w1_run (evs : list w1_event) (d : WalletDb) (ops : list w1_op) : option (list w1_event * WalletDb) :=
  match ops with
  | [] => Some (evs, d)
  | op :: ops => r ← w1_exec op d; w1_run (evs ++ [r.1]) r.2 ops
  end.

Lemma w1_exec_history evs op d e d' : w1_history evs d -> w1_exec op d = Some (e, d') -> w1_history (evs ++ [e]) d'.
Proof using.
  intros Hh H. destruct op as [input p|p o|item peer]; cbn [w1_exec] in H.
  - destruct (resolve_input input d) as [[[[o txo] key]| |] d1] eqn:Hr; try done. pose proof (resolve_input_Ok _ _ _ _ Hr) as ->.
    destruct (wallet_process_input input p d) as [[meta| |] d2] eqn:Hp; try done. destruct (input_okb input) eqn:Hok; [|done].
    injection H as <- <-. eapply w1_input; [done| |exact Hr|exact Hp].
    destruct input; simpl in *; [|by apply Z.leb_le|done]. apply Forall_forall. intros x Hx.
    rewrite forallb_forall in Hok. apply Z.leb_le, Hok. by apply list_elem_of_In.
  - destruct (wallet_process_output _ o d) as [[a| |] d1] eqn:Hp; try done. apply bind_Some in H as (txid & Ho & H).
    apply bind_Some in H as (u & Hu & H). destruct (_ && _) eqn:Hb; [|done]. injection H as <- <-.
    apply andb_true_iff in Hb as [[H1 H2]%andb_true_iff Hf]. apply Z.leb_le in H1, H2. unfold freshb in Hf. apply andb_true_iff in Hf as [Hf1 Hf2].
    apply bool_decide_eq_true in Hf1. eapply w1_output; [done|done|exact Hp|done|done|]. split; [done|].
    intros u' tweak Hu' Ht. rewrite Hu in Hu'. injection Hu' as <-. rewrite Ht in Hf2. by apply negb_true_iff, Z.eqb_neq in Hf2.
  - destruct (wallet_process_consensus_item item peer d) as [[[]| |] d1] eqn:Hp; try done. injection H as <- <-. by eapply w1_item.
Qed.

Lemma w1_run_history evs d ops evs' d' : w1_history evs d -> w1_run evs d ops = Some (evs', d') -> w1_history evs' d'.
Proof using.
  revert evs d. induction ops as [|op ops IH]; intros evs d Hh H; simpl in H; [by injection H as <- <-|].
  apply bind_Some in H as ([e d1] & He & H). eapply IH; [|exact H]. by eapply w1_exec_history.
Qed.
End wallet.

(** ** Examples: four guardians, a deposit and a peg-out *)
Module WalletExample.
Definition cfg : WalletConfig :=
  {| peer_peg_in_keys := list_to_map [(0, 10); (1, 11); (2, 12); (3, 13)]; peg_in_key := 10; network := 0;
     finality_delay := 10; default_fee := 1000; peg_in_abs := 0; peg_out_abs := 0; our_peer_id := 0 |}.
Definition ser (k : Z) : list Z := 2 :: to_be_bytes 32 k.
Definition key_of (k : Z) : Z := k.
Definition mac (key tweak : list Z) : Z := foldl (fun acc b => acc * 3 + b) 0 tweak mod 1000003.
Definition add_key (k t : Z) : Z := k + t.
Definition script (keys : list Z) : Z := 1000000 + sum_list keys.
Definition code (keys : list Z) : Z := 5000000 + sum_list keys.
Definition len (s : Z) : Z := 34.
Definition dust (s : Z) : Z := 330.
Definition wsh (s : Z) : bool := 1000000 <=? s.
Definition wpkh (s : Z) : bool := false.
Definition addr (a : Z) : Z := a.
Definition on_network (a n : Z) : bool := n =? 0.
Definition txid (t : BtcTransaction) : Z :=
  foldl (fun acc i => acc * 31 + btc_txid (previous_output i) + vout (previous_output i)) 7 (tx_input t) * 100000 + sum_list (value <$> tx_output t).
Definition hash (t : BtcTransaction) (i script value : Z) : option Z := Some (txid t + i + script + value).
Definition sign (h sk : Z) : Z := h + sk.
Definition verify (h s pk : Z) : bool := s =? h + pk.
Definition final (p : Psbt) : option BtcTransaction :=
  if forallb (fun i => 3 <=? size (partial_sigs i))%nat (psbt_inputs p)
  then Some {| tx_input := (fun i => {| previous_output := previous_output i; witness := Some 1 |}) <$> tx_input (unsigned_tx p);
               tx_output := tx_output (unsigned_tx p) |}
  else None.
Definition block_of (x : Z) : Z := x.
Definition sha (l : list Z) : Z := foldl (fun acc b => (acc * 31 + b) mod 1000003) 7 l.

Abbreviation script_of := (tweaked_script cfg ser mac add_key script).
Definition deposit : BtcTransaction :=
  {| tx_input := []; tx_output := [ {| value := 50000; script_pubkey := script_of (ser 5) |} ] |}.
Definition proof : PegInProof := {| txout_proof := 101; proof_tx := deposit; output_idx := 0; tweak_contract_key := 5 |}.
Definition payout : PegOut := {| recipient := 77; peg_out_amount := 20000; fees := {| fee_rate := 1000; total_weight := 954 |} |}.
Definition out : OutPoint := {| ServerModule.txid := 1; out_idx := 0 |}.
Definition pt : InPoint := {| in_txid := 9; in_idx := 0 |}.
Definition tweak : list Z := nonce_from_idx sha Bolt.big_size 0.
Definition paid : BtcTransaction :=
  {| tx_input := [ {| previous_output := {| btc_txid := txid deposit; vout := 0 |}; witness := Some 1 |} ];
     tx_output := [ {| value := 20000; script_pubkey := 77 |}; {| value := 29761; script_pubkey := script_of tweak |} ] |}.
Definition blocks (h : Z) : Block :=
  {| block_hash := 100 + h; prev_blockhash := 99 + h; txdata := if h =? 1 then [deposit] else if h =? 2 then [paid] else [] |}.
Definition sigs (k : Z) : list Z :=
  [txid paid + code (tweak_descriptor cfg ser mac add_key (ser 5)) + 50000 + tweak_public_key ser mac add_key k (ser 5)].

Abbreviation inst f := (f cfg ser key_of mac add_key add_key script code 400 len dust wsh wpkh addr on_network txid hash sign verify final block_of sha Bolt.big_size blocks).
Abbreviation history := (inst w1_history).
Abbreviation run := (inst w1_run [] WalletDb_empty).

Definition counts (c : Z) : list w1_op := (fun p => DoItem (BlockCount c) p) <$> [0; 1; 2].
Definition received : list w1_op := counts 1 ++ counts 2 ++ [DoInput (WalletInputV0 proof) pt].
Definition paying : list w1_op := received ++ [DoOutput payout out].
Definition signing : list w1_op := paying ++ ((fun pk => DoItem (PegOutSignature (txid paid) (sigs pk.2)) pk.1) <$> [(0, 10); (2, 12); (3, 13)]).
Definition confirmed : list w1_op := signing ++ counts 3.

Definition result (ops : list w1_op) : list w1_event * WalletDb := default ([], WalletDb_empty) (run ops).
Definition r_received : list w1_event * WalletDb := Eval vm_compute in result received.
Definition r_signing : list w1_event * WalletDb := Eval vm_compute in result signing.
Definition r_confirmed : list w1_event * WalletDb := Eval vm_compute in result confirmed.

Lemma history_received : history r_received.1 r_received.2.
Proof. apply (inst w1_run_history [] WalletDb_empty received); [constructor|]. vm_compute. reflexivity. Qed.
Lemma history_signing : history r_signing.1 r_signing.2.
Proof. apply (inst w1_run_history [] WalletDb_empty signing); [constructor|]. vm_compute. reflexivity. Qed.
Lemma history_confirmed : history r_confirmed.1 r_confirmed.2.
Proof. apply (inst w1_run_history [] WalletDb_empty confirmed); [constructor|]. vm_compute. reflexivity. Qed.

Lemma weights : weights_ok 400 len dust.
Proof. split; [lia|]. split; intros s; unfold len, dust; lia. Qed.
Lemma final_keeps : finalize_keeps txid final.
Proof.
  intros p tx H. unfold final in H. destruct (forallb _ _); [|done]. injection H as <-. split; [done|]. unfold txid. simpl. f_equal. f_equal.
  generalize 7. induction (tx_input (unsigned_tx p)) as [|i l IH]; intros acc; [done|]. simpl. apply IH.
Qed.
Lemma final_threshold : finalize_threshold cfg final.
Proof.
  intros p tx H. unfold final in H. destruct (forallb _ _) eqn:Hb; [|done]. apply Forall_forall. intros i Hi.
  rewrite forallb_forall in Hb. apply list_elem_of_In in Hi. apply Hb, Nat.leb_le in Hi.
  change (threshold (num_peers cfg)) with 3. lia.
Qed.
Lemma dust_positive : change_dust cfg ser mac add_key script dust.
Proof. intros t. unfold dust. lia. Qed.

Definition big : BtcOutPoint * SpendableUTXO := ({| btc_txid := 1; vout := 0 |}, {| utxo_tweak := ser 5; utxo_amount := 50000 |}).
Definition small : BtcOutPoint * SpendableUTXO := ({| btc_txid := 2; vout := 0 |}, {| utxo_tweak := ser 5; utxo_amount := 400 |}).

Lemma w1_peg_out_exact_witness :
  exists tx, create_tx cfg ser mac add_key script code 400 len dust 20000 77 [] [small; big] 1000 tweak None Checked WalletDb_empty = (Ok tx, WalletDb_empty).
Proof.
  destruct (w1_peg_out_exact cfg ser mac add_key script code 400 len dust 20000 77 [small; big] 1000 tweak WalletDb_empty weights) as [_ H];
    [split; lia|repeat constructor; simpl; lia|vm_compute; discriminate|vm_compute; discriminate|].
  apply (H [big] [small]); [unfold MAX_MONEY; lia|reflexivity|]. exists 239. split; [reflexivity|]. vm_compute. discriminate.
Defined.


Lemma w1_accounting_witness :
  net_credit r_confirmed.1 = 29761000 /\ 1000 * w1_value r_confirmed.2 = net_credit r_confirmed.1.
Proof.
  split; [reflexivity|]. apply (inst w1_accounting r_confirmed.1 r_confirmed.2 weights final_keeps history_confirmed).
Defined.



(** A transaction, its replacement and the replacement of that one. *)
Definition pending (id : Z) (rbf : option Rbf) : PendingTransaction :=
  {| p_tx := {| tx_input := [ {| previous_output := {| btc_txid := id; vout := 0 |}; witness := None |} ]; tx_output := [] |};
     p_tweak := []; p_change := 0; p_destination := 0; p_fees := {| fee_rate := 0; total_weight := 0 |};
     p_selected_utxos := []; p_amount := 0; p_rbf := rbf |}.
Definition replaces (id : Z) : option Rbf := Some {| rbf_fees := {| fee_rate := 0; total_weight := 0 |}; rbf_txid := txid (p_tx (pending id None)) |}.
Definition chain : list PendingTransaction := [pending 1 None; pending 2 (replaces 1); pending 3 (replaces 2); pending 4 None].
Definition chained : WalletDb := upd PendingTransactionKey (fun _ => list_to_map ((fun t => (txid (p_tx t), t)) <$> chain)) WalletDb_empty.

Lemma w1_rbf_closure_witness :
  exists txids, remove_rbf_transactions txid (pending 2 (replaces 1)) chained =
      (Ok tt, upd PendingTransactionKey (fun m => foldl (fun m k => delete k m) m txids) chained) /\
    txid (p_tx (pending 2 (replaces 1))) ∈ txids.
Proof.
  destruct (w1_rbf_closure txid (pending 2 (replaces 1)) chained) as (txids & H1 & H2 & _).
  - intros k t Hk. apply elem_of_list_to_map_2 in Hk. apply list_elem_of_fmap in Hk as (t' & [= -> ->] & _). reflexivity.
  - reflexivity.
  - exists txids. split; [exact H1|exact H2].
Defined.

Lemma w1_fee_quote_accepted_witness :
  exists f tx rate, peg_out_fees cfg ser mac add_key script code 400 len dust addr 77 20000 r_received.2 = (Ok (Some f), r_received.2) /\
    u_fees tx = f /\ validate_tx cfg dust on_network tx {| recipient := 77; peg_out_amount := 20000; fees := f |} rate r_received.2 = (Ok tt, r_received.2).
Proof.
  exists {| fee_rate := 1000; total_weight := 954 |}.
  destruct (w1_fee_quote_accepted cfg ser mac add_key script code 400 len dust addr on_network 77 20000 {| fee_rate := 1000; total_weight := 954 |}
    r_received.2 tweak weights) as (tx & rate & _ & H2 & _ & H4).
  - intros t t'. split; reflexivity.
  - simpl. lia.
  - eexists. vm_compute. reflexivity.
  - reflexivity.
  - unfold dust, addr. lia.
  - unfold DEFAULT_MIN_RELAY_TX_FEE. simpl. lia.
  - vm_compute. reflexivity.
  - exists tx, rate. split; [vm_compute; reflexivity|]. split; [exact H2|exact H4].
Defined.
End WalletExample.
