(* ===== verification/Walletv2Server.v ===== *)
(** * The wallet v2 module of a guardian

    [modules/fedimint-walletv2-server/src/lib.rs] with its tables in [db.rs],
    and the types of [modules/fedimint-walletv2-common/src/lib.rs].  The
    federation holds its bitcoins in one output that every peg-in and peg-out
    spends and recreates.  Bitcoin transactions are kept as records of what the
    module reads of them; hashing, scripts and signatures are parameters, and
    the bitcoin backend is a function from heights to blocks. *)

From S2P Require Import Prelude Db Amounts Peers Votes ServerModule Bitcoin.

(** ** Module data *)

Record FederationWallet := { wallet_value : Z; outpoint : BtcOutPoint; tweak : Z }.
Record SpentTxOut := { spent_value : Z; spent_tweak : Z }.
Record FederationTx := {
  tx : BtcTransaction;
  spent_tx_outs : list SpentTxOut;
  vbytes : Z;
  fee : Z;
}.
Record TxInfo := {
  index : Z;
  info_txid : Z;
  info_input : Z;
  info_output : Z;
  info_fee : Z;
  info_vbytes : Z;
  created : Z;
}.
Record Output := { out_point : BtcOutPoint; out : TxOut }.
Record OutputInfo := {
  oi_index : Z;
  oi_script : Z;
  oi_value : Z;
  oi_spent : bool;
  oi_outpoint : option BtcOutPoint;
}.

Inductive script_kind := P2PKH | P2SH | P2WPKH | P2WSH | P2TR.
Inductive StandardScript :=
| Script (kind : script_kind) (hash : Z)
| ScriptDefault (variant : Z) (bytes : list Z).

Inductive WalletInput :=
| WalletInputV0 (output_index : Z) (tweak : Z) (fee : Z)
| WalletInputDefault (variant : Z) (bytes : list Z).

Inductive WalletOutput :=
| WalletOutputV0 (destination : StandardScript) (value fee : Z)
| WalletOutputDefault (variant : Z) (bytes : list Z).

Inductive WalletConsensusItem :=
| BlockCount (vote : Z)
| Feerate (vote : option Z)
| Signatures (txid : Z) (signatures : list Z)
| WalletItemDefault (variant : Z) (bytes : list Z).

Inductive WalletError :=
| UnknownInputVariant (variant : Z)
| OutputAlreadySpent
| UnknownOutputIndex
| WrongTweak
| NoConsensusFeerateAvailable
| InsufficientTotalFee
| ArithmeticOverflow
| UnknownOutputVariant (variant : Z)
| UnderDustLimit
| NoFederationUTXO
| ChangeUnderDustLimit
| UnknownScriptVariant
| RedundantVote
| UnknownUnsignedTx
| InvalidSignatures
| DuplicateSignatures
| UnknownItemVariant (variant : Z).

(** ** Database *)

Record WalletDb := {
  tracked_outputs : gmap Z Output;
  spent_outputs : gmap Z unit;
  block_count_votes : gmap Z Z;
  fee_rate_votes : gmap Z (option Z);
  tx_infos : gmap Z TxInfo;
  tx_info_index : gmap OutPoint Z;
  unsigned_txs : gmap Z FederationTx;
  signatures : gmap (Z * Z) (list Z);
  unconfirmed_txs : gmap Z FederationTx;
  federation_wallet : gmap unit FederationWallet;
}.

Definition WalletDb_empty : WalletDb :=
  {| tracked_outputs := ∅; spent_outputs := ∅; block_count_votes := ∅; fee_rate_votes := ∅;
     tx_infos := ∅; tx_info_index := ∅; unsigned_txs := ∅; signatures := ∅;
     unconfirmed_txs := ∅; federation_wallet := ∅ |}.

Definition OutputKey : table WalletDb Z Output := Table tracked_outputs (fun f s =>
  {| tracked_outputs := f (tracked_outputs s); spent_outputs := spent_outputs s; block_count_votes
     := block_count_votes s; fee_rate_votes := fee_rate_votes s; tx_infos := tx_infos s;
     tx_info_index := tx_info_index s; unsigned_txs := unsigned_txs s; signatures := signatures s;
     unconfirmed_txs := unconfirmed_txs s; federation_wallet := federation_wallet s |}).
Definition SpentOutputKey : table WalletDb Z unit := Table spent_outputs (fun f s =>
  {| tracked_outputs := tracked_outputs s; spent_outputs := f (spent_outputs s); block_count_votes
     := block_count_votes s; fee_rate_votes := fee_rate_votes s; tx_infos := tx_infos s;
     tx_info_index := tx_info_index s; unsigned_txs := unsigned_txs s; signatures := signatures s;
     unconfirmed_txs := unconfirmed_txs s; federation_wallet := federation_wallet s |}).
Definition BlockCountVoteKey : table WalletDb Z Z := Table block_count_votes (fun f s =>
  {| tracked_outputs := tracked_outputs s; spent_outputs := spent_outputs s; block_count_votes := f
     (block_count_votes s); fee_rate_votes := fee_rate_votes s; tx_infos := tx_infos s;
     tx_info_index := tx_info_index s; unsigned_txs := unsigned_txs s; signatures := signatures s;
     unconfirmed_txs := unconfirmed_txs s; federation_wallet := federation_wallet s |}).
Definition FeeRateVoteKey : table WalletDb Z (option Z) := Table fee_rate_votes (fun f s =>
  {| tracked_outputs := tracked_outputs s; spent_outputs := spent_outputs s; block_count_votes :=
     block_count_votes s; fee_rate_votes := f (fee_rate_votes s); tx_infos := tx_infos s;
     tx_info_index := tx_info_index s; unsigned_txs := unsigned_txs s; signatures := signatures s;
     unconfirmed_txs := unconfirmed_txs s; federation_wallet := federation_wallet s |}).
Definition TxInfoKey : table WalletDb Z TxInfo := Table tx_infos (fun f s =>
  {| tracked_outputs := tracked_outputs s; spent_outputs := spent_outputs s; block_count_votes :=
     block_count_votes s; fee_rate_votes := fee_rate_votes s; tx_infos := f (tx_infos s);
     tx_info_index := tx_info_index s; unsigned_txs := unsigned_txs s; signatures := signatures s;
     unconfirmed_txs := unconfirmed_txs s; federation_wallet := federation_wallet s |}).
Definition TxInfoIndexKey : table WalletDb OutPoint Z := Table tx_info_index (fun f s =>
  {| tracked_outputs := tracked_outputs s; spent_outputs := spent_outputs s; block_count_votes :=
     block_count_votes s; fee_rate_votes := fee_rate_votes s; tx_infos := tx_infos s; tx_info_index
     := f (tx_info_index s); unsigned_txs := unsigned_txs s; signatures := signatures s;
     unconfirmed_txs := unconfirmed_txs s; federation_wallet := federation_wallet s |}).
Definition UnsignedTxKey : table WalletDb Z FederationTx := Table unsigned_txs (fun f s =>
  {| tracked_outputs := tracked_outputs s; spent_outputs := spent_outputs s; block_count_votes :=
     block_count_votes s; fee_rate_votes := fee_rate_votes s; tx_infos := tx_infos s; tx_info_index
     := tx_info_index s; unsigned_txs := f (unsigned_txs s); signatures := signatures s;
     unconfirmed_txs := unconfirmed_txs s; federation_wallet := federation_wallet s |}).
Definition SignaturesKey : table WalletDb (Z * Z) (list Z) := Table signatures (fun f s =>
  {| tracked_outputs := tracked_outputs s; spent_outputs := spent_outputs s; block_count_votes :=
     block_count_votes s; fee_rate_votes := fee_rate_votes s; tx_infos := tx_infos s; tx_info_index
     := tx_info_index s; unsigned_txs := unsigned_txs s; signatures := f (signatures s);
     unconfirmed_txs := unconfirmed_txs s; federation_wallet := federation_wallet s |}).
Definition UnconfirmedTxKey : table WalletDb Z FederationTx := Table unconfirmed_txs (fun f s =>
  {| tracked_outputs := tracked_outputs s; spent_outputs := spent_outputs s; block_count_votes :=
     block_count_votes s; fee_rate_votes := fee_rate_votes s; tx_infos := tx_infos s; tx_info_index
     := tx_info_index s; unsigned_txs := unsigned_txs s; signatures := signatures s; unconfirmed_txs
     := f (unconfirmed_txs s); federation_wallet := federation_wallet s |}).
Definition FederationWalletKey : table WalletDb unit FederationWallet := Table federation_wallet (fun f s =>
  {| tracked_outputs := tracked_outputs s; spent_outputs := spent_outputs s; block_count_votes :=
     block_count_votes s; fee_rate_votes := fee_rate_votes s; tx_infos := tx_infos s; tx_info_index
     := tx_info_index s; unsigned_txs := unsigned_txs s; signatures := signatures s; unconfirmed_txs
     := unconfirmed_txs s; federation_wallet := f (federation_wallet s) |}).

(** The parts of [WalletConfig] the module reads; [bitcoin_pks] has a key for
    every guardian. *)
Record WalletConfig := {
  bitcoin_pks : gmap Z Z;
  send_tx_vbytes : Z;
  receive_tx_vbytes : Z;
  feerate_base : Z;
  dust_limit : Z;
  fee_consensus : Fee.FeeConsensus;
  is_regtest : bool;
}.

Definition CONFIRMATION_FINALITY_DELAY : Z := 6.
Definition MAX_BLOCK_COUNT_INCREMENT : Z := 5.
Definition MIN_FEERATE_VOTE_SATS_PER_KVB : Z := 1000.

(** What the bitcoin backend reports: block count and fee rate. *)
Record BtcStatus := { status_block_count : Z; status_fee_rate : option Z }.

(** ** Operations *)
Section walletv2.
Context (cfg : WalletConfig).

(** The script of the federation's descriptor under a tweak, the
    [consensus_hash] of a tweak key and of a wallet, and the transaction id
    (which does not cover witnesses). *)
Context (descriptor_script : Z -> Z) (tweak_hash : Z -> Z) (wallet_hash : FederationWallet -> Z).
Context (compute_txid : BtcTransaction -> Z).

(** The standard scripts, and [script_pubkey.is_p2wsh()]. *)
Context (standard_script : script_kind -> Z -> Z) (is_p2wsh : Z -> bool).

(** The bytes of the hash the receive filter looks at. *)
Context (receive_hash : Z -> list Z).

(** Signing input [i] of a transaction, verifying such a signature under a
    guardian's key tweaked for the spent output, and satisfying the
    descriptor with the signatures of several tweaked keys. *)
Context (sign_input : BtcTransaction -> nat -> SpentTxOut -> Z).
Context (verify_input_signature : BtcTransaction -> nat -> SpentTxOut -> Z -> Z -> bool).
Context (tweak_public_key : Z -> Z -> Z).
Context (satisfy : Z -> gmap Z Z -> option Z).

(** [get_block_hash] and [get_block] once the backend is synced. *)
Context (get_block : Z -> list BtcTransaction).

Abbreviation MW := (M WalletDb WalletError).

Definition num_peers : Z := Z.of_nat (size (bitcoin_pks cfg)).

(** The first two bytes of the hash are zero. *)
Definition is_potential_receive (script : Z) : bool :=
  forallb (fun b => b =? 0) (take 2 (receive_hash script)).

Definition StandardScript_script_pubkey (s : StandardScript) : option Z :=
  match s with
  | Script kind hash => Some (standard_script kind hash)
  | ScriptDefault _ _ => None
  end.

Definition pending_txs_unordered (d : WalletDb) : list FederationTx :=
  (map_to_list (unsigned_txs d)).*2 ++ (map_to_list (unconfirmed_txs d)).*2.

Definition consensus_block_count : MW Z :=
  counts ← gets (fun d => votes_of (block_count_votes d));
  _ ← rassert (Z.of_nat (length counts) <=? num_peers);
  mret (threshold_vote num_peers counts).

Definition consensus_feerate : MW (option Z) :=
  rates ← gets (fun d => omap id (map_to_list (fee_rate_votes d)).*2);
  _ ← rassert (Z.of_nat (length rates) <=? num_peers);
  mret (threshold_rate num_peers rates).

(** The fee the stack of pending transactions asks for. *)
Definition stack_fee (feerate stack_vbytes : Z) (pending : list FederationTx) : Z :=
  foldl saturating_sub (saturating_mul stack_vbytes feerate / 1000) (fee <$> pending).

Definition consensus_fee (tx_vbytes : Z) : MW (option Z) :=
  pending ← gets pending_txs_unordered;
  _ ← rassert (Z.of_nat (length pending) <=? 32);
  rate ← consensus_feerate;
  match rate with
  | None => mret None
  | Some rate =>
      let feerate := Z.max rate (wrap_u64 (Z.shiftl (feerate_base cfg) (Z.of_nat (length pending)))) in
      let tx_fee := saturating_mul tx_vbytes feerate / 1000 in
      stack_vbytes ← expect (foldl (fun acc t => a ← acc; checked_add a (vbytes t)) (Some tx_vbytes) pending);
      mret (Some (Z.max tx_fee (stack_fee feerate stack_vbytes pending)))
  end.

Definition send_fee : MW (option Z) := consensus_fee (send_tx_vbytes cfg).
Definition receive_fee : MW (option Z) := consensus_fee (receive_tx_vbytes cfg).

Definition total_txs : MW Z := gets (fun d => next_index (tx_infos d)).

(** The transaction that adds a received output to the wallet. *)
Definition receive_tx (wallet : FederationWallet) (received : BtcOutPoint) (change_value : Z) : BtcTransaction :=
  {| tx_input := [ {| previous_output := outpoint wallet; witness := None |};
                   {| previous_output := received; witness := None |} ];
     tx_output := [ {| value := change_value; script_pubkey := descriptor_script (wallet_hash wallet) |} ] |}.

(** The transaction that pays a destination from the wallet. *)
Definition send_tx (wallet : FederationWallet) (change_value dest_value dest_script : Z) : BtcTransaction :=
  {| tx_input := [ {| previous_output := outpoint wallet; witness := None |} ];
     tx_output := [ {| value := change_value; script_pubkey := descriptor_script (wallet_hash wallet) |};
                    {| value := dest_value; script_pubkey := dest_script |} ] |}.

(** Replace the wallet by the change of [t] and log the transaction. *)
Definition advance_wallet (wallet : FederationWallet) (t : BtcTransaction) (change_value vb f : Z) : MW Z :=
  _ ← insert_new_entry FederationWalletKey tt
        {| wallet_value := change_value;
           outpoint := {| btc_txid := compute_txid t; vout := 0 |};
           tweak := wallet_hash wallet |};
  tx_index ← total_txs;
  created ← consensus_block_count;
  _ ← insert_new_entry TxInfoKey tx_index
        {| index := tx_index; info_txid := compute_txid t; info_input := wallet_value wallet;
           info_output := change_value; info_fee := f; info_vbytes := vb; created := created |};
  mret tx_index.

Definition wallet_process_input (input : WalletInput) (in_point : InPoint) : MW InputMeta :=
  match input with
  | WalletInputDefault variant _ => throw (UnknownInputVariant variant)
  | WalletInputV0 output_index input_tweak input_fee =>
      prev ← insert_entry SpentOutputKey output_index tt;
      _ ← ensure (match prev with None => true | Some _ => false end) OutputAlreadySpent;
      found ← get_value OutputKey output_index;
      tracked ← ok_or found UnknownOutputIndex;
      _ ← ensure (script_pubkey (out tracked) =? descriptor_script (tweak_hash input_tweak)) WrongTweak;
      rate ← receive_fee;
      consensus_receive_fee ← ok_or rate NoConsensusFeerateAvailable;
      _ ← ensure (negb (input_fee <? consensus_receive_fee)) InsufficientTotalFee;
      output_value ← ok_or (checked_sub (value (out tracked)) input_fee) ArithmeticOverflow;
      removed ← remove_entry FederationWalletKey tt;
      _ ← match removed with
          | Some wallet =>
              change_value ← ok_or (checked_add (wallet_value wallet) output_value) ArithmeticOverflow;
              let t := receive_tx wallet (out_point tracked) change_value in
              _ ← advance_wallet wallet t change_value (receive_tx_vbytes cfg) input_fee;
              insert_new_entry UnsignedTxKey (compute_txid t)
                {| tx := t;
                   spent_tx_outs := [ {| spent_value := wallet_value wallet; spent_tweak := tweak wallet |};
                                      {| spent_value := value (out tracked);
                                         spent_tweak := tweak_hash input_tweak |} ];
                   vbytes := receive_tx_vbytes cfg; fee := input_fee |}
          | None =>
              insert_new_entry FederationWalletKey tt
                {| wallet_value := value (out tracked); outpoint := out_point tracked;
                   tweak := tweak_hash input_tweak |}
          end;
      amount ← ok_or (checked_mul output_value 1000) ArithmeticOverflow;
      f ← expect (Fee.fee (fee_consensus cfg) amount);
      mret {| ServerModule.amount := {| amounts := Amounts.new_bitcoin amount; fees := Amounts.new_bitcoin f |};
              pub_key := input_tweak |}
  end.

Definition wallet_process_output (output : WalletOutput) (o : OutPoint) : MW TransactionItemAmounts :=
  match output with
  | WalletOutputDefault variant _ => throw (UnknownOutputVariant variant)
  | WalletOutputV0 destination out_value out_fee =>
      _ ← ensure (negb (out_value <? dust_limit cfg)) UnderDustLimit;
      removed ← remove_entry FederationWalletKey tt;
      wallet ← ok_or removed NoFederationUTXO;
      rate ← send_fee;
      consensus_send_fee ← ok_or rate NoConsensusFeerateAvailable;
      _ ← ensure (negb (out_fee <? consensus_send_fee)) InsufficientTotalFee;
      output_value ← ok_or (checked_add out_value out_fee) ArithmeticOverflow;
      change_value ← ok_or (checked_sub (wallet_value wallet) output_value) ArithmeticOverflow;
      _ ← ensure (negb (change_value <? dust_limit cfg)) ChangeUnderDustLimit;
      dest_script ← ok_or (StandardScript_script_pubkey destination) UnknownScriptVariant;
      let t := send_tx wallet change_value out_value dest_script in
      tx_index ← advance_wallet wallet t change_value (send_tx_vbytes cfg) out_fee;
      _ ← insert_new_entry TxInfoIndexKey o tx_index;
      _ ← insert_new_entry UnsignedTxKey (compute_txid t)
            {| tx := t;
               spent_tx_outs := [ {| spent_value := wallet_value wallet; spent_tweak := tweak wallet |} ];
               vbytes := send_tx_vbytes cfg; fee := out_fee |};
      amount ← ok_or (checked_mul output_value 1000) ArithmeticOverflow;
      f ← expect (Fee.fee (fee_consensus cfg) amount);
      mret {| amounts := Amounts.new_bitcoin amount; fees := Amounts.new_bitcoin f |}
  end.

(** [1000 * wallet.value.to_sat() as i64]. *)
Definition wallet_audit : MW (list Z) :=
  entries ← find_all FederationWalletKey;
  mret ((fun kv => wrap_i64 (1000 * wrap_i64 (wallet_value kv.2))) <$> entries).

(** ** Following the chain *)

(** The log entries a transaction adds: its outputs that pass the receive
    filter. *)
Definition record_outputs (t : BtcTransaction) : MW unit :=
  for_each (imap (fun i o => (Z.of_nat i, o)) (tx_output t)) (fun io =>
    if is_potential_receive (script_pubkey io.2) then
      idx ← gets (fun d => next_index (tracked_outputs d));
      insert_new_entry OutputKey idx
        {| out_point := {| btc_txid := compute_txid t; vout := io.1 |}; out := io.2 |}
    else mret tt).

Definition scan_tx (t : BtcTransaction) : MW unit :=
  _ ← remove_entry UnconfirmedTxKey (compute_txid t);
  record_outputs t.

Definition scan_block (height : Z) : MW unit := for_each (get_block height) scan_tx.

Definition process_block_count (block_count_vote peer : Z) : MW unit :=
  old ← consensus_block_count;
  prev ← insert_entry BlockCountVoteKey peer block_count_vote;
  _ ← ensure (default 0 prev <? block_count_vote) RedundantVote;
  new ← consensus_block_count;
  _ ← rassert (old <=? new);
  if (old =? 0) && negb (is_regtest cfg) then mret tt
  else for_each (seqZ old (new - old)) scan_block.

(** ** Signing *)

Definition sign_tx (ft : FederationTx) : list Z :=
  imap (fun i utxo => sign_input (tx ft) i utxo) (spent_tx_outs ft).

Fixpoint verify_each (t : BtcTransaction) (i : nat) (l : list (SpentTxOut * Z)) (pk : Z) : bool :=
  match l with
  | [] => true
  | (utxo, sig) :: l' =>
      verify_input_signature t i utxo sig (tweak_public_key pk (spent_tweak utxo)) && verify_each t (S i) l' pk
  end.

Definition verify_signatures (ft : FederationTx) (sigs : list Z) (pk : Z) : bool :=
  Nat.eqb (length (spent_tx_outs ft)) (length sigs) &&
  verify_each (tx ft) 0 (zip (spent_tx_outs ft) sigs) pk.

(** The signatures for input [i] by tweaked key. *)
Fixpoint satisfier (n_inputs i : nat) (utxo : SpentTxOut) (sigs : list (Z * list Z)) (acc : gmap Z Z) : MW (gmap Z Z) :=
  match sigs with
  | [] => mret acc
  | (peer, s) :: sigs' =>
      _ ← rassert (Nat.eqb (length s) n_inputs);
      pk ← expect (bitcoin_pks cfg !! peer);
      sig ← expect (s !! i);
      satisfier n_inputs i utxo sigs' (<[tweak_public_key pk (spent_tweak utxo) := sig]> acc)
  end.

Fixpoint finalize_inputs (ft : FederationTx) (sigs : list (Z * list Z)) (i : nat)
    (utxos : list SpentTxOut) (inputs : list TxIn) : MW (list TxIn) :=
  match utxos, inputs with
  | utxo :: utxos', input :: inputs' =>
      sat ← satisfier (length (tx_input (tx ft))) i utxo sigs ∅;
      w ← expect (satisfy (spent_tweak utxo) sat);
      rest ← finalize_inputs ft sigs (S i) utxos' inputs';
      mret ({| previous_output := previous_output input; witness := Some w |} :: rest)
  | _, _ => mret inputs
  end.

Definition finalize_tx (ft : FederationTx) (sigs : list (Z * list Z)) : MW FederationTx :=
  _ ← rassert (Nat.eqb (length (spent_tx_outs ft)) (length (tx_input (tx ft))));
  inputs ← finalize_inputs ft sigs 0 (spent_tx_outs ft) (tx_input (tx ft));
  mret {| tx := {| tx_input := inputs; tx_output := tx_output (tx ft) |};
          spent_tx_outs := spent_tx_outs ft; vbytes := vbytes ft; fee := fee ft |}.

(** [find_by_prefix(SignaturesTxidPrefix(txid))] by peer. *)
Definition signatures_of (txid : Z) (d : WalletDb) : gmap Z (list Z) :=
  list_to_map (omap (fun e => if e.1.1 =? txid then Some (e.1.2, e.2) else None) (map_to_list (signatures d))).

Definition process_signatures (txid : Z) (sigs : list Z) (peer : Z) : MW unit :=
  found ← get_value UnsignedTxKey txid;
  unsigned ← ok_or found UnknownUnsignedTx;
  pk ← expect (bitcoin_pks cfg !! peer);
  _ ← ensure (verify_signatures unsigned sigs pk) InvalidSignatures;
  prev ← insert_entry SignaturesKey (txid, peer) sigs;
  _ ← ensure (match prev with None => true | Some _ => false end) DuplicateSignatures;
  collected ← gets (signatures_of txid);
  if Z.of_nat (size collected) =? threshold num_peers then
    _ ← remove_entry UnsignedTxKey txid;
    _ ← remove_by_prefix SignaturesKey (fun k => k.1 = txid);
    final ← finalize_tx unsigned (btree_iter collected);
    insert_new_entry UnconfirmedTxKey txid final
  else mret tt.

Definition wallet_process_consensus_item (item : WalletConsensusItem) (peer : Z) : MW unit :=
  match item with
  | BlockCount vote => process_block_count vote peer
  | Feerate feerate =>
      prev ← insert_entry FeeRateVoteKey peer feerate;
      ensure (negb (bool_decide (prev = Some feerate))) RedundantVote
  | Signatures txid sigs => process_signatures txid sigs peer
  | WalletItemDefault variant _ => throw (UnknownItemVariant variant)
  end.

(** What a guardian proposes; [own_pk] belongs to its signing key. *)
Definition vote_block_count (status_count consensus_count : Z) : Z :=
  let vote := saturating_sub status_count CONFIRMATION_FINALITY_DELAY in
  if consensus_count =? 0 then vote else Z.min vote (wrap_u64 (consensus_count + MAX_BLOCK_COUNT_INCREMENT)).

Definition vote_feerate (rate : option Z) : option Z := Z.max MIN_FEERATE_VOTE_SATS_PER_KVB <$> rate.

Definition wallet_consensus_proposal (own_pk : Z) (status : option BtcStatus) : MW (list WalletConsensusItem) :=
  unsigned ← find_all UnsignedTxKey;
  _ ← for_each unsigned (fun kv => rassert (verify_signatures kv.2 (sign_tx kv.2) own_pk));
  let items := (fun kv => Signatures kv.1 (sign_tx kv.2)) <$> unsigned in
  match status with
  | Some st =>
      count ← consensus_block_count;
      mret (items ++ [BlockCount (vote_block_count (status_block_count st) count);
                      Feerate (vote_feerate (status_fee_rate st))])
  | None => mret (items ++ [Feerate None])
  end.

(** ** Client-facing queries *)

Definition tx_id (d : WalletDb) (o : OutPoint) : option Z :=
  i ← tx_info_index d !! o; info ← tx_infos d !! i; Some (info_txid info).

Definition get_outputs (d : WalletDb) (start_index end_index : Z) : list OutputInfo :=
  let spent := (range_scan start_index end_index (spent_outputs d)).*1 in
  omap (fun kv =>
    if is_p2wsh (script_pubkey (out kv.2)) then
      Some {| oi_index := kv.1; oi_script := script_pubkey (out kv.2); oi_value := value (out kv.2);
              oi_spent := bool_decide (kv.1 ∈ spent); oi_outpoint := Some (out_point kv.2) |}
    else None) (range_scan start_index end_index (tracked_outputs d)).

Definition tx_chain (d : WalletDb) : list TxInfo := (btree_iter (tx_infos d)).*2.

(** The newest entries of the log first. *)
Definition pending_tx_chain (d : WalletDb) : list TxInfo :=
  take (length (pending_txs_unordered d)) (reverse (btree_iter (tx_infos d)).*2).

Definition walletv2_module : ServerModule WalletDb WalletInput WalletOutput WalletConsensusItem WalletError := {|
  verify_input := fun _ => Ok tt;
  verify_input_submission := fun _ => mret tt;
  process_input := wallet_process_input;
  verify_output_submission := fun _ _ => mret tt;
  process_output := wallet_process_output;
  process_consensus_item := wallet_process_consensus_item;
  audit := wallet_audit;
|}.

(** ** What the operations do when they succeed *)

Definition block_count (d : WalletDb) : Z := threshold_vote num_peers (votes_of (block_count_votes d)).

Lemma consensus_block_count_Ok d c d' :
  consensus_block_count d = (Ok c, d') <->
  d' = d /\ c = block_count d /\ Z.of_nat (size (block_count_votes d)) <= num_peers.
Proof.
  unfold consensus_block_count. split.
  - intros H. apply bind_Ok in H as (l & d1 & [-> ->]%gets_Ok & H).
    apply bind_Ok in H as (? & d1 & [Hle%Z.leb_le ->]%rassert_Ok & H). mrun.
    unfold votes_of in Hle. by rewrite length_fmap, length_map_to_list in Hle.
  - intros (-> & -> & Hle). unfold gets, rassert, mbind, M_bind. unfold votes_of at 1.
    rewrite length_fmap, length_map_to_list. by destruct (Z.leb_spec (Z.of_nat (size (block_count_votes d))) num_peers); [|lia].
Qed.

Lemma consensus_fee_pure v d r d' : consensus_fee v d = (Ok r, d') -> d' = d.
Proof.
  unfold consensus_fee, consensus_feerate. intros H.
  apply bind_Ok in H as (pending & d1 & [-> ->]%gets_Ok & H).
  apply bind_Ok in H as (? & d1 & [_ ->]%rassert_Ok & H).
  apply bind_Ok in H as (rate & d1 & Hr & H).
  assert (d1 = d) as -> by (clear H; by mrun). clear Hr. destruct rate; by mrun.
Qed.

Lemma advance_wallet_Ok w t c vb f d i d' :
  advance_wallet w t c vb f d = (Ok i, d') ->
  federation_wallet d !! tt = None /\ i = next_index (tx_infos d) /\
  d' = upd TxInfoKey
         <[i := {| index := i; info_txid := compute_txid t; info_input := wallet_value w; info_output := c;
                   info_fee := f; info_vbytes := vb; created := block_count d |}]>
         (upd FederationWalletKey
           <[tt := {| wallet_value := c; outpoint := {| btc_txid := compute_txid t; vout := 0 |};
                      tweak := wallet_hash w |}]> d).
Proof.
  unfold advance_wallet, total_txs. intros H.
  apply bind_Ok in H as (u & d1 & [Hn ->]%insert_new_entry_Ok & H).
  apply bind_Ok in H as (j & d1 & [-> ->]%gets_Ok & H).
  apply bind_Ok in H as (cr & d1 & (-> & -> & _)%consensus_block_count_Ok & H).
  apply bind_Ok in H as (u' & d1 & [_ ->]%insert_new_entry_Ok & H). mrun. done.
Qed.

(** The wallet after a receive of [tracked] with tweak hash [tw] credited with
    [v], and after a send of [v]. *)
Definition wallet_value_of (d : WalletDb) : Z :=
  match federation_wallet d !! tt with Some w => wallet_value w | None => 0 end.

Record received (idx tw f : Z) (d d' : WalletDb) (tracked : Output) (v : Z) : Prop := {
  rc_unspent : spent_outputs d !! idx = None;
  rc_tracked : tracked_outputs d !! idx = Some tracked;
  rc_script : script_pubkey (out tracked) = descriptor_script (tweak_hash tw);
  rc_fee : exists fee, receive_fee (upd SpentOutputKey <[idx := tt]> d) =
             (Ok (Some fee), upd SpentOutputKey <[idx := tt]> d) /\ fee <= f;
  rc_value : v = value (out tracked) - f /\ 0 <= v;
  rc_spent : spent_outputs d' = <[idx := tt]> (spent_outputs d);
  rc_outputs : tracked_outputs d' = tracked_outputs d;
  rc_votes : block_count_votes d' = block_count_votes d /\ fee_rate_votes d' = fee_rate_votes d;
  rc_signing : signatures d' = signatures d /\ unsigned_txs d ⊆ unsigned_txs d';
  rc_has_wallet : is_Some (federation_wallet d' !! tt);
  rc_wallet : (exists w, federation_wallet d !! tt = Some w /\ wallet_value_of d' = wallet_value w + v /\
                 wallet_value w + v <= u64_max) \/
              (federation_wallet d !! tt = None /\ wallet_value_of d' = value (out tracked));
}.

Lemma wallet_process_input_Ok input p d meta d' :
  wallet_process_input input p d = (Ok meta, d') ->
  exists idx tw f tracked v fee, input = WalletInputV0 idx tw f /\ received idx tw f d d' tracked v /\
    1000 * v <= u64_max /\ Fee.fee (fee_consensus cfg) (1000 * v) = Some fee /\
    meta = {| ServerModule.amount := {| amounts := Amounts.new_bitcoin (1000 * v);
                                        fees := Amounts.new_bitcoin fee |}; pub_key := tw |}.
Proof.
  destruct input as [idx tw f|]; simpl; [|by intros H; mrun]. intros H.
  apply bind_Ok in H as (prev & d1 & [-> ->]%insert_entry_Ok & H).
  apply bind_Ok in H as (? & d1 & [Hp ->]%ensure_Ok & H).
  apply bind_Ok in H as (found & d1 & [-> ->]%get_value_Ok & H).
  apply bind_Ok in H as (tracked & d1 & [Ht ->]%ok_or_Ok & H).
  apply bind_Ok in H as (? & d1 & [Hscr ->]%ensure_Ok & H).
  apply bind_Ok in H as (rate & d1 & Hrate & H). pose proof (consensus_fee_pure _ _ _ _ Hrate) as ->.
  apply bind_Ok in H as (fee & d1 & [-> ->]%ok_or_Ok & H).
  apply bind_Ok in H as (? & d1 & [Hfee ->]%ensure_Ok & H).
  apply bind_Ok in H as (v & d1 & [[-> Hv]%checked_sub_Some ->]%ok_or_Ok & H).
  apply bind_Ok in H as (removed & d1 & [-> ->]%remove_entry_Ok & H).
  apply bind_Ok in H as ([] & d2 & Hw & H).
  apply bind_Ok in H as (a & d3 & [[-> Hm]%checked_mul_Some ->]%ok_or_Ok & H).
  apply bind_Ok in H as (fe & d3 & [Hfe ->]%expect_Ok & H). mrun.
  exists idx, tw, f, tracked, (value (out tracked) - f), fe. rewrite (Z.mul_comm 1000).
  split_and!; [done| |done|done|done].
  apply Z.eqb_eq in Hscr. rewrite negb_true_iff, Z.ltb_ge in Hfee. simpl in *.
  destruct (spent_outputs d !! idx) eqn:Hsp; [done|].
  destruct (federation_wallet d !! tt) as [w|] eqn:Hfw.
  - apply bind_Ok in Hw as (c & d3 & [[-> Hc]%checked_add_Some ->]%ok_or_Ok & Hw).
    apply bind_Ok in Hw as (i & d3 & (_ & -> & ->)%advance_wallet_Ok & Hw).
    apply insert_new_entry_Ok in Hw as [Hun ->].
    split; simpl; try done; [by eauto|split; [done|lia]|split; [done|by apply insert_subseteq]|rewrite lookup_insert_eq; by eexists|].
    left. exists w. split; [done|]. by unfold wallet_value_of; simpl; rewrite lookup_insert_eq.
  - apply insert_new_entry_Ok in Hw as [_ ->].
    split; simpl; try done; [by eauto|split; [done|lia]|rewrite lookup_insert_eq; by eexists|].
    right. split; [done|]. by unfold wallet_value_of; simpl; rewrite lookup_insert_eq.
Qed.

Record sent (o : OutPoint) (dest : StandardScript) (v f : Z) (d d' : WalletDb) (w : FederationWallet) : Prop := {
  sn_dust : dust_limit cfg <= v;
  sn_wallet : federation_wallet d !! tt = Some w;
  sn_fee : exists fee, send_fee (upd FederationWalletKey (delete tt) d) =
             (Ok (Some fee), upd FederationWalletKey (delete tt) d) /\ fee <= f;
  sn_change : wallet_value_of d' = wallet_value w - (v + f) /\ dust_limit cfg <= wallet_value_of d';
  sn_overflow : v + f <= u64_max;
  sn_spent : spent_outputs d' = spent_outputs d;
  sn_outputs : tracked_outputs d' = tracked_outputs d;
  sn_votes : block_count_votes d' = block_count_votes d /\ fee_rate_votes d' = fee_rate_votes d;
  sn_signatures : signatures d' = signatures d;
  sn_has_wallet : is_Some (federation_wallet d' !! tt);
  sn_tx : exists script, StandardScript_script_pubkey dest = Some script /\
    let t := send_tx w (wallet_value w - (v + f)) v script in
    unsigned_txs d !! compute_txid t = None /\
    unsigned_txs d' = <[compute_txid t :=
      {| tx := t; spent_tx_outs := [ {| spent_value := wallet_value w; spent_tweak := tweak w |} ];
         vbytes := send_tx_vbytes cfg; fee := f |}]> (unsigned_txs d) /\
    tx_id d' o = Some (compute_txid t);
}.

Lemma wallet_process_output_Ok output o d a d' :
  wallet_process_output output o d = (Ok a, d') ->
  exists dest v f w fee, output = WalletOutputV0 dest v f /\ sent o dest v f d d' w /\
    1000 * (v + f) <= u64_max /\ Fee.fee (fee_consensus cfg) (1000 * (v + f)) = Some fee /\
    a = {| amounts := Amounts.new_bitcoin (1000 * (v + f)); fees := Amounts.new_bitcoin fee |}.
Proof.
  destruct output as [dest v f|]; simpl; [|by intros H; mrun]. intros H.
  apply bind_Ok in H as (? & d1 & [Hdust ->]%ensure_Ok & H).
  apply bind_Ok in H as (removed & d1 & [-> ->]%remove_entry_Ok & H).
  apply bind_Ok in H as (w & d1 & [Hw ->]%ok_or_Ok & H).
  apply bind_Ok in H as (rate & d1 & Hrate & H). pose proof (consensus_fee_pure _ _ _ _ Hrate) as ->.
  apply bind_Ok in H as (fee & d1 & [-> ->]%ok_or_Ok & H).
  apply bind_Ok in H as (? & d1 & [Hfee ->]%ensure_Ok & H).
  apply bind_Ok in H as (ov & d1 & [[-> Hov]%checked_add_Some ->]%ok_or_Ok & H).
  apply bind_Ok in H as (cv & d1 & [[-> Hcv]%checked_sub_Some ->]%ok_or_Ok & H).
  apply bind_Ok in H as (? & d1 & [Hcd ->]%ensure_Ok & H).
  apply bind_Ok in H as (script & d1 & [Hscript ->]%ok_or_Ok & H).
  apply bind_Ok in H as (i & d1 & (_ & -> & ->)%advance_wallet_Ok & H).
  apply bind_Ok in H as (? & d1 & [Hidx ->]%insert_new_entry_Ok & H).
  apply bind_Ok in H as (? & d1 & [Hun ->]%insert_new_entry_Ok & H).
  apply bind_Ok in H as (am & d3 & [[-> Hm]%checked_mul_Some ->]%ok_or_Ok & H).
  apply bind_Ok in H as (fe & d3 & [Hfe ->]%expect_Ok & H). mrun.
  exists dest, v, f, w, fe. rewrite (Z.mul_comm 1000). split_and!; [done| |done|done|done].
  rewrite negb_true_iff, Z.ltb_ge in Hdust, Hfee, Hcd. simpl in *.
  split; try done; [by eauto| | |].
  - unfold wallet_value_of. simpl. rewrite lookup_insert_eq. done.
  - simpl. rewrite lookup_insert_eq. by eexists.
  - exists script. split; [done|]. split_and!; [done|done|].
    unfold tx_id. simpl. rewrite lookup_insert_eq. simpl. by rewrite lookup_insert_eq.
Qed.

(** ** Invariant *)

Definition votes_ok (d : WalletDb) : Prop :=
  map_Forall (fun _ v => is_u64 v) (block_count_votes d).

Record wallet_inv (d : WalletDb) : Prop := {
  wi_value : map_Forall (fun _ w => is_u64 (wallet_value w)) (federation_wallet d);
  wi_outputs : map_Forall (fun _ o => is_u64 (value (out o))) (tracked_outputs d);
  wi_votes : votes_ok d;
}.

Lemma wallet_inv_empty : wallet_inv WalletDb_empty.
Proof. split; apply map_Forall_empty. Qed.

Lemma wallet_inv_value d : wallet_inv d -> is_u64 (wallet_value_of d).
Proof.
  intros Hd. unfold wallet_value_of. destruct (federation_wallet d !! tt) as [w|] eqn:Hw.
  - by apply (wi_value d Hd) in Hw.
  - unfold is_u64, u64_max. lia.
Qed.

Lemma wallet_value_wi d : is_u64 (wallet_value_of d) -> map_Forall (fun _ w => is_u64 (wallet_value w)) (federation_wallet d).
Proof. unfold wallet_value_of. intros Hv [] w Hw. by rewrite Hw in Hv. Qed.

Lemma received_inv idx tw f d d' tracked v :
  is_u64 f -> wallet_inv d -> received idx tw f d d' tracked v -> wallet_inv d' /\ is_u64 v.
Proof.
  intros [Hf _] Hd [Hu Ht _ _ [-> Hv] _ Ho [Hvo _] _ _ Hw].
  pose proof (wi_outputs d Hd _ _ Ht) as Hto. simpl in Hto.
  split; [|unfold is_u64 in *; lia]. split.
  - apply wallet_value_wi. destruct Hw as [(w & Hw & -> & Hle)|[_ ->]]; [|done].
    apply (wi_value d Hd) in Hw. unfold is_u64 in *. lia.
  - rewrite Ho. apply Hd.
  - unfold votes_ok. rewrite Hvo. apply Hd.
Qed.

Lemma sent_inv o dest v f d d' w :
  is_u64 v -> is_u64 f -> 0 <= dust_limit cfg -> wallet_inv d -> sent o dest v f d d' w -> wallet_inv d'.
Proof.
  intros Hv Hf Hdl Hd [_ Hw _ [Hc Hcd] _ _ Ho [Hvo _] _ _ _]. split.
  - apply wallet_value_wi. apply (wi_value d Hd) in Hw. unfold is_u64 in *. lia.
  - rewrite Ho. apply Hd.
  - unfold votes_ok. rewrite Hvo. apply Hd.
Qed.

(** ** The log of potential receives *)

Definition tx_receives (t : BtcTransaction) : list Output :=
  omap (fun io => if is_potential_receive (script_pubkey io.2)
                  then Some {| out_point := {| btc_txid := compute_txid t; vout := io.1 |}; out := io.2 |}
                  else None)
       (imap (fun i o => (Z.of_nat i, o)) (tx_output t)).

(** The potential receives of [n] blocks from height [start] on, in the order
    of the chain. *)
Definition block_txs (start n : Z) : list BtcTransaction := seqZ start n ≫= get_block.
Definition receives (start n : Z) : list Output := block_txs start n ≫= tx_receives.

(** The database after scanning transactions. *)
Definition scanned (txs : list BtcTransaction) (d : WalletDb) : WalletDb :=
  upd OutputKey (fun m => append_log m (txs ≫= tx_receives))
    (upd UnconfirmedTxKey (fun m => foldl (fun m t => delete (compute_txid t) m) m txs) d).

Lemma record_outputs_run t d :
  record_outputs t d = (Ok tt, upd OutputKey (fun m => append_log m (tx_receives t)) d).
Proof.
  unfold record_outputs, tx_receives. generalize (imap (fun i o => (Z.of_nat i, o)) (tx_output t)).
  intros l. revert d. induction l as [|io l IH]; intros d; simpl; [by destruct d|].
  destruct (is_potential_receive (script_pubkey io.2)).
  - unfold mbind, M_bind, gets. rewrite insert_new_entry_fresh by apply next_index_fresh.
    rewrite IH. done.
  - unfold mbind, M_bind. simpl. by rewrite IH.
Qed.

Lemma scanned_app txs1 txs2 d : scanned (txs1 ++ txs2) d = scanned txs2 (scanned txs1 d).
Proof. unfold scanned, append_log. simpl. by rewrite bind_app, !foldl_app. Qed.

Lemma scan_txs_run txs d : for_each txs scan_tx d = (Ok tt, scanned txs d).
Proof.
  revert d. induction txs as [|t txs IH]; intros d; [by destruct d|].
  simpl. unfold scan_tx, mbind, M_bind. simpl. rewrite record_outputs_run. simpl. rewrite IH.
  change (t :: txs) with ([t] ++ txs). rewrite scanned_app. unfold scanned at 3. simpl. by rewrite app_nil_r.
Qed.

Lemma scan_blocks_run hs d : for_each hs scan_block d = (Ok tt, scanned (hs ≫= get_block) d).
Proof.
  revert d. induction hs as [|h hs IH]; intros d; [by destruct d|].
  simpl. unfold mbind at 1, M_bind at 1. unfold scan_block at 1. rewrite scan_txs_run, IH.
  by rewrite scanned_app.
Qed.

(** Only guardians vote. *)
Definition votes_of_peers (d : WalletDb) : Prop := dom (block_count_votes d) ⊆ dom (bitcoin_pks cfg).

Lemma votes_of_peers_size d : votes_of_peers d -> Z.of_nat (size (block_count_votes d)) <= num_peers.
Proof. intros H%subseteq_size. rewrite !size_dom in H. unfold num_peers. lia. Qed.

Lemma votes_of_peers_insert d peer vote :
  peer ∈ dom (bitcoin_pks cfg) -> votes_of_peers d ->
  votes_of_peers (upd BlockCountVoteKey <[peer := vote]> d).
Proof.
  intros Hpeer Hp. unfold votes_of_peers. simpl. rewrite dom_insert_L.
  apply union_least; [by apply singleton_subseteq_l|done].
Qed.

Lemma block_count_raise d peer vote :
  1 <= num_peers -> votes_ok d -> is_u64 vote -> default 0 (block_count_votes d !! peer) <= vote ->
  block_count d <= block_count (upd BlockCountVoteKey <[peer := vote]> d).
Proof.
  intros Hn Hd [Hv _] Hle. apply threshold_vote_mono; [done| |].
  - apply votes_of_Forall. simpl. apply map_Forall_insert_2; [done|].
    intros p v Hp. apply Hd in Hp as [? _]. done.
  - apply votes_raised_insert. intros w Hw. rewrite Hw in Hle. done.
Qed.

(** Every branch of [process_block_count]; the assertions never fail. *)
Lemma process_block_count_run vote peer d :
  1 <= num_peers -> votes_ok d -> votes_of_peers d -> is_u64 vote -> peer ∈ dom (bitcoin_pks cfg) ->
  let d1 := upd BlockCountVoteKey <[peer := vote]> d in
  process_block_count vote peer d =
    if default 0 (block_count_votes d !! peer) <? vote then
      (Ok tt, if (block_count d =? 0) && negb (is_regtest cfg) then d1
              else scanned (block_txs (block_count d) (block_count d1 - block_count d)) d1)
    else (Err RedundantVote, d1).
Proof.
  intros Hn Hd Hp Hv Hpeer d1. unfold process_block_count.
  assert (forall e, votes_of_peers e -> consensus_block_count e = (Ok (block_count e), e)) as Hc.
  { intros e He. apply consensus_block_count_Ok. split_and!; [done|done|by apply votes_of_peers_size]. }
  pose proof (votes_of_peers_insert d peer vote Hpeer Hp : votes_of_peers d1) as Hp1.
  unfold mbind at 1, M_bind at 1. rewrite (Hc d Hp).
  unfold mbind at 1, M_bind at 1.
  change (insert_entry BlockCountVoteKey peer vote d) with
    (@Ok WalletError _ (block_count_votes d !! peer), d1).
  unfold mbind at 1, M_bind at 1, ensure. cbv beta iota.
  destruct (default 0 (block_count_votes d !! peer) <? vote) eqn:Hlt; [|done].
  unfold mret at 1, M_ret at 1. cbv beta iota.
  unfold mbind at 1, M_bind at 1. rewrite (Hc d1 Hp1). unfold mbind at 1, M_bind at 1, rassert.
  pose proof (block_count_raise d peer vote Hn Hd Hv) as Hle. fold d1 in Hle.
  destruct (block_count d <=? block_count d1) eqn:Hb; [|lia]. simpl.
  destruct (_ && _); [done|]. by rewrite scan_blocks_run.
Qed.

Lemma process_block_count_Ok vote peer d d' :
  process_block_count vote peer d = (Ok tt, d') ->
  let d1 := upd BlockCountVoteKey <[peer := vote]> d in
  default 0 (block_count_votes d !! peer) < vote /\ block_count d <= block_count d1 /\
  d' = if (block_count d =? 0) && negb (is_regtest cfg) then d1
       else scanned (block_txs (block_count d) (block_count d1 - block_count d)) d1.
Proof.
  intros H d1. unfold process_block_count in H.
  apply bind_Ok in H as (old & e1 & (-> & -> & _)%consensus_block_count_Ok & H).
  apply bind_Ok in H as (prev & e1 & [-> ->]%insert_entry_Ok & H).
  apply bind_Ok in H as (? & e1 & [Hlt%Z.ltb_lt ->]%ensure_Ok & H).
  apply bind_Ok in H as (new & e1 & (-> & -> & _)%consensus_block_count_Ok & H).
  apply bind_Ok in H as (? & e1 & [Hle%Z.leb_le ->]%rassert_Ok & H).
  split; [done|]. split; [done|]. destruct (_ && _); [by mrun|].
  rewrite scan_blocks_run in H. by simplify_eq.
Qed.

Lemma satisfier_pure n i u sigs acc d r d' : satisfier n i u sigs acc d = (Ok r, d') -> d' = d.
Proof. revert acc. induction sigs as [|[p s] sigs IH]; intros acc H; simpl in H; mrun; [done|by eapply IH]. Qed.

Lemma finalize_inputs_pure ft sigs i us ins d r d' :
  finalize_inputs ft sigs i us ins d = (Ok r, d') ->
  d' = d /\ previous_output <$> r = previous_output <$> ins /\ length r = length ins.
Proof.
  revert i ins r d'. induction us as [|u us IH]; intros i ins r d' H; simpl in H; [by mrun|].
  destruct ins as [|inp ins]; [by mrun|].
  apply bind_Ok in H as (sat & d1 & Hs & H). apply satisfier_pure in Hs as ->.
  apply bind_Ok in H as (w & d1 & [_ ->]%expect_Ok & H).
  apply bind_Ok in H as (rest & d1 & (-> & Hr & Hl)%IH & H). mrun.
  split; [done|]. split; [by rewrite !fmap_cons, Hr|simpl; lia].
Qed.

Lemma finalize_tx_Ok ft sigs d r d' :
  finalize_tx ft sigs d = (Ok r, d') ->
  d' = d /\ previous_output <$> tx_input (tx r) = previous_output <$> tx_input (tx ft) /\
  tx_output (tx r) = tx_output (tx ft) /\ vbytes r = vbytes ft /\ fee r = fee ft.
Proof.
  unfold finalize_tx. intros H. apply bind_Ok in H as (? & d1 & [_ ->]%rassert_Ok & H).
  apply bind_Ok in H as (ins & d1 & (-> & Hp & _)%finalize_inputs_pure & H). by mrun.
Qed.

(** The part of the database the signing of a transaction leaves alone. *)
Definition signing_frame (d d' : WalletDb) : Prop :=
  federation_wallet d' = federation_wallet d /\ tracked_outputs d' = tracked_outputs d /\
  spent_outputs d' = spent_outputs d /\ block_count_votes d' = block_count_votes d /\
  fee_rate_votes d' = fee_rate_votes d /\ tx_infos d' = tx_infos d.

(** [process_signatures] stores the signatures of a peer, or, when they
    complete a threshold, moves the transaction on. *)
Lemma process_signatures_Ok txid sigs peer d d' :
  process_signatures txid sigs peer d = (Ok tt, d') ->
  exists unsigned pk, unsigned_txs d !! txid = Some unsigned /\ bitcoin_pks cfg !! peer = Some pk /\
    verify_signatures unsigned sigs pk = true /\ signatures d !! (txid, peer) = None /\
    let d1 := upd SignaturesKey <[(txid, peer) := sigs]> d in
    (Z.of_nat (size (signatures_of txid d1)) <> threshold num_peers /\ d' = d1 \/
     Z.of_nat (size (signatures_of txid d1)) = threshold num_peers /\
     exists final,
       (finalize_tx unsigned (btree_iter (signatures_of txid d1))
          (upd SignaturesKey (filter (fun kv => kv.1.1 <> txid)) (upd UnsignedTxKey (delete txid) d1))).1 = Ok final /\
       unconfirmed_txs d !! txid = None /\
       d' = upd UnconfirmedTxKey <[txid := final]>
              (upd SignaturesKey (filter (fun kv => kv.1.1 <> txid)) (upd UnsignedTxKey (delete txid) d1))).
Proof.
  unfold process_signatures. intros H.
  apply bind_Ok in H as (found & e & [-> ->]%get_value_Ok & H).
  apply bind_Ok in H as (unsigned & e & [Hu ->]%ok_or_Ok & H).
  apply bind_Ok in H as (pk & e & [Hpk ->]%expect_Ok & H).
  apply bind_Ok in H as (? & e & [Hv ->]%ensure_Ok & H).
  apply bind_Ok in H as (prev & e & [-> ->]%insert_entry_Ok & H).
  apply bind_Ok in H as (? & e & [Hprev ->]%ensure_Ok & H).
  apply bind_Ok in H as (coll & e & [-> ->]%gets_Ok & H).
  exists unsigned, pk. simpl in Hprev. destruct (signatures d !! (txid, peer)) eqn:Hs; [done|].
  split_and!; [done..|]. simpl. destruct (_ =? _) eqn:Ht; [right|left].
  - apply Z.eqb_eq in Ht. split; [done|].
    apply bind_Ok in H as (? & e & [-> ->]%remove_entry_Ok & H).
    apply bind_Ok in H as (? & e & ->%remove_by_prefix_Ok & H).
    apply bind_Ok in H as (final & e & Hf & H). pose proof (finalize_tx_Ok _ _ _ _ _ Hf) as (-> & _).
    apply insert_new_entry_Ok in H as [Hn ->]. exists final. split; [exact (f_equal fst Hf)|done].
  - apply Z.eqb_neq in Ht. mrun. done.
Qed.

Lemma process_signatures_frame txid sigs peer d d' :
  process_signatures txid sigs peer d = (Ok tt, d') -> signing_frame d d'.
Proof.
  intros (u & pk & _ & _ & _ & _ & [[_ ->]|(_ & final & _ & _ & ->)])%process_signatures_Ok; done.
Qed.

(** ** The promise to the engine *)

(** Bitcoin amounts are [u64]s. *)
Definition blocks_ok : Prop :=
  forall h t o, t ∈ get_block h -> o ∈ tx_output t -> is_u64 (value o).

Lemma receives_u64 start n : blocks_ok -> Forall (fun o => is_u64 (value (out o))) (receives start n).
Proof.
  intros Hb. apply Forall_forall. intros o (t & Ho & Ht)%list_elem_of_bind.
  apply list_elem_of_bind in Ht as (h & Ht & _).
  apply list_elem_of_omap in Ho as ([i x] & Hi & Ho). simpl in Ho.
  destruct (is_potential_receive _); simplify_eq/=.
  apply elem_of_lookup_imap in Hi as (j & y & [= _ ->] & Hy). simpl.
  apply (Hb h t); [done|]. by eapply list_elem_of_lookup_2.
Qed.

Lemma append_log_Forall {V} (P : V -> Prop) (m : gmap Z V) l :
  map_Forall (fun _ => P) m -> Forall P l -> map_Forall (fun _ => P) (append_log m l).
Proof.
  revert m. induction l as [|v l IH]; intros m Hm Hl; simpl; [done|].
  inversion Hl; subst. apply IH; [by apply map_Forall_insert_2|done].
Qed.

Lemma scanned_inv start n d : blocks_ok -> wallet_inv d -> wallet_inv (scanned (block_txs start n) d).
Proof.
  intros Hb [H1 H2 H3]. split; [done| |done]. apply append_log_Forall; [done|].
  by apply (receives_u64 start n).
Qed.

Definition wallet_item_ok (c : WalletConsensusItem) : Prop :=
  match c with BlockCount v => is_u64 v | _ => True end.
Definition wallet_input_ok (i : WalletInput) : Prop :=
  match i with WalletInputV0 _ _ f => is_u64 f | _ => True end.
Definition wallet_output_ok (o : WalletOutput) : Prop :=
  match o with WalletOutputV0 _ v f => is_u64 v /\ is_u64 f | _ => True end.

Lemma wallet_item_inv c peer d d' :
  blocks_ok -> wallet_inv d -> wallet_item_ok c -> wallet_process_consensus_item c peer d = (Ok tt, d') ->
  wallet_inv d' /\ federation_wallet d' = federation_wallet d.
Proof.
  intros Hb Hd Hc H. destruct c as [v|r|txid sigs|]; simpl in *.
  - apply process_block_count_Ok in H as (_ & _ & ->).
    assert (wallet_inv (upd BlockCountVoteKey <[peer := v]> d)) as Hd1.
    { destruct Hd as [H1 H2 H3]. split; [done|done|]. by apply map_Forall_insert_2. }
    destruct (_ && _); [done|]. split; [by apply scanned_inv|done].
  - dbrun. by destruct Hd.
  - apply process_signatures_frame in H as (H1 & H2 & _ & H4 & _). split; [|done].
    destruct Hd as [Ha Hb' Hc']. split; [by rewrite H1|by rewrite H2|unfold votes_ok; by rewrite H4].
  - by mrun.
Qed.

Definition wallet_net (d : WalletDb) : Z := 1000 * wallet_value_of d.

Lemma wallet_audit_run d :
  wallet_inv d -> wallet_net d <= i64_max ->
  exists items, wallet_audit d = (Ok items, d) /\ sum_list items = wallet_net d /\ sum_abs items = wallet_net d.
Proof.
  intros Hd Hg. pose proof (wallet_inv_value d Hd) as Hv. unfold wallet_net, wallet_value_of in *.
  exists ((fun kv => wrap_i64 (1000 * wrap_i64 (wallet_value kv.2))) <$> map_to_list (federation_wallet d)).
  split; [done|]. destruct (federation_wallet d !! tt) as [w|] eqn:Hw.
  - assert (federation_wallet d = {[ tt := w ]}) as ->.
    { apply map_eq. intros []. by rewrite lookup_singleton_eq. }
    rewrite map_to_list_singleton. unfold is_u64, i64_max in *. simpl.
    rewrite !wrap_i64_small; unfold i64_min, i64_max; rewrite ?wrap_i64_small; unfold i64_min, i64_max; lia.
  - assert (federation_wallet d = ∅) as ->; [by apply map_empty; intros []|].
    rewrite map_to_list_empty. done.
Qed.

#[export] Program Instance walletv2_audited (Hfee : Fee.wf (fee_consensus cfg)) (Hdl : 0 <= dust_limit cfg)
    (Hb : blocks_ok) : Audited walletv2_module := {|
  inv := wallet_inv;
  input_ok := wallet_input_ok;
  output_ok := wallet_output_ok;
  item_ok := wallet_item_ok;
  net := wallet_net;
  gross := wallet_net;
|}.
Next Obligation. intros _ _ _ d Hd. pose proof (wallet_inv_value d Hd) as [? _]. unfold wallet_net. lia. Qed.
Next Obligation.
  intros Hfee _ _ i p d meta d' Hd Hi H.
  apply wallet_process_input_Ok in H as (idx & tw & f & tracked & v & fe & -> & Hr & Hm & Hfe & ->).
  destruct (received_inv _ _ _ _ _ _ _ Hi Hd Hr) as [Hd' Hv]. split; [done|].
  destruct Hr as [_ _ _ _ [Hve Hv0] _ _ _ _ _ Hw]. simpl in Hi.
  assert (is_u64 (1000 * v)) as Ham by (unfold is_u64 in *; lia).
  split; [apply bitcoin_item_wf; [done|by eapply Fee.fee_u64]|]. simpl.
  rewrite Amounts.get_new_bitcoin, decide_True by done. unfold wallet_net, wallet_value_of at 1.
  destruct Hw as [(w & -> & -> & _)|[-> ->]]; [lia|]. destruct Hi. lia.
Qed.
Next Obligation.
  intros Hfee Hdl _ o p d a d' Hd Ho H.
  apply wallet_process_output_Ok in H as (dest & v & f & w & fe & -> & Hs & Hm & Hfe & ->).
  destruct Ho as [Hv Hf]. split; [by apply (sent_inv p dest v f d d' w)|].
  assert (is_u64 (1000 * (v + f))) as Ham by (unfold is_u64 in *; lia).
  split; [apply bitcoin_item_wf; [done|by eapply Fee.fee_u64]|]. simpl.
  rewrite Amounts.get_new_bitcoin, decide_True by done. unfold wallet_net, wallet_value_of at 1.
  destruct Hs as [_ -> _ [-> _] _ _ _ _ _ _ _]. lia.
Qed.
Next Obligation.
  intros _ _ Hb c peer d d' Hd Hc H. destruct (wallet_item_inv c peer d d' Hb Hd Hc H) as [Hd' Hw].
  split; [done|]. unfold wallet_net, wallet_value_of. by rewrite Hw.
Qed.
Next Obligation.
  intros _ _ _ d Hd Hg. destruct (wallet_audit_run d Hd Hg) as (items & Hr & Hs & Ha).
  exists items, d. split_and!; try done. by rewrite Ha.
Qed.

(** ** Histories of committed operations

    Events carry the millisatoshis the transaction was credited or debited
    with. *)
Inductive wallet_event :=
| PegIn (output_index msats : Z)
| PegOut (msats : Z)
| Item (c : WalletConsensusItem) (peer : Z).

Inductive wallet_history (d : WalletDb) : list wallet_event -> WalletDb -> Prop :=
| wh_nil : wallet_history d [] d
| wh_pegin evs d1 idx tw f p meta d2 :
    wallet_history d evs d1 -> is_u64 f ->
    wallet_process_input (WalletInputV0 idx tw f) p d1 = (Ok meta, d2) ->
    wallet_history d (evs ++ [PegIn idx (Amounts.get_bitcoin (amounts (amount meta)))]) d2
| wh_pegout evs d1 dest v f o a d2 :
    wallet_history d evs d1 -> is_u64 v -> is_u64 f ->
    wallet_process_output (WalletOutputV0 dest v f) o d1 = (Ok a, d2) ->
    wallet_history d (evs ++ [PegOut (Amounts.get_bitcoin (amounts a))]) d2
| wh_item evs d1 c peer d2 :
    wallet_history d evs d1 -> wallet_item_ok c ->
    wallet_process_consensus_item c peer d1 = (Ok tt, d2) ->
    wallet_history d (evs ++ [Item c peer]) d2.

Definition claimed (evs : list wallet_event) : list Z :=
  omap (fun e => match e with PegIn idx _ => Some idx | _ => None end) evs.
Definition balance_change (evs : list wallet_event) : Z :=
  sum_list ((fun e => match e with PegIn _ a => a | PegOut a => - a | Item _ _ => 0 end) <$> evs).

Lemma wallet_item_frame c peer d d' :
  wallet_process_consensus_item c peer d = (Ok tt, d') ->
  federation_wallet d' = federation_wallet d /\ spent_outputs d' = spent_outputs d.
Proof.
  intros H. destruct c as [v|r|txid sigs|]; simpl in H.
  - apply process_block_count_Ok in H as (_ & _ & ->). by destruct (_ && _).
  - by dbrun.
  - by apply process_signatures_frame in H as (H1 & _ & H2 & _).
  - by mrun.
Qed.

Lemma wallet_history_claimed d evs d' :
  wallet_history d evs d' ->
  NoDup (claimed evs) /\
  (forall i, is_Some (spent_outputs d' !! i) <-> i ∈ claimed evs \/ is_Some (spent_outputs d !! i)) /\
  (forall i, i ∈ claimed evs -> spent_outputs d !! i = None).
Proof.
  clear is_p2wsh sign_input.
  induction 1 as [|evs d1 idx tw f p meta d2 _ (IHn & IHs & IHf) _ H|evs d1 dest v f o a d2 _ IH _ _ H
                 |evs d1 c peer d2 _ IH _ H]; unfold claimed in *; rewrite ?omap_app; simpl.
  - split; [constructor|]. split; intros i; [|by intros Hi%not_elem_of_nil].
    split; [by right|]. by intros [Hi%not_elem_of_nil|].
  - apply wallet_process_input_Ok in H as (? & ? & ? & tracked & v & fe & [= <- <- <-] & Hr & _).
    destruct Hr as [Hu _ _ _ _ Hsp _ _ _ _ _]. rewrite eq_None_not_Some, IHs in Hu. split; [|split].
    + apply NoDup_app. split; [done|]. split; [|apply NoDup_singleton].
      intros x Hx ->%list_elem_of_singleton. tauto.
    + intros i. rewrite Hsp, elem_of_app, list_elem_of_singleton.
      destruct (decide (i = idx)) as [->|Hne]; [rewrite lookup_insert_eq; split; [tauto|by eexists]|].
      rewrite lookup_insert_ne, IHs by done. tauto.
    + intros i. rewrite elem_of_app, list_elem_of_singleton. intros [Hi| ->]; [by apply IHf|].
      rewrite eq_None_not_Some. tauto.
  - apply wallet_process_output_Ok in H as (? & ? & ? & w & fe & [= <- <- <-] & Hs & _).
    rewrite app_nil_r, (sn_spent _ _ _ _ _ _ _ Hs). done.
  - apply wallet_item_frame in H as [_ ->]. by rewrite app_nil_r.
Qed.

(** Once the federation has a wallet, its value moves by exactly what the
    transactions were credited and debited with, and never falls below the
    dust limit. *)
Lemma wallet_history_value d evs d' :
  wallet_history d evs d' -> is_Some (federation_wallet d !! tt) -> dust_limit cfg <= wallet_value_of d ->
  is_Some (federation_wallet d' !! tt) /\ dust_limit cfg <= wallet_value_of d' /\
  wallet_net d' = wallet_net d + balance_change evs.
Proof.
  intros H Hw Hd. induction H as [|evs d1 idx tw f p meta d2 _ (IHw & IHd & IHn) _ H
                 |evs d1 dest v f o a d2 _ (IHw & IHd & IHn) _ _ H
                 |evs d1 c peer d2 _ (IHw & IHd & IHn) _ H];
    unfold balance_change in *; rewrite ?fmap_app, ?sum_list_app; simpl.
  - split_and!; [done|done|lia].
  - apply wallet_process_input_Ok in H as (? & ? & ? & tracked & v & fe & [= <- <- <-] & Hr & _ & _ & ->).
    destruct Hr as [_ _ _ _ [_ Hv] _ _ _ _ Hhas Hrw]. simpl. rewrite Amounts.get_bitcoin_new.
    destruct Hrw as [(w & Hw1 & Hval & _)|[Hn _]]; [|rewrite Hn in IHw; by destruct IHw].
    assert (wallet_value_of d1 = wallet_value w) as Hv1 by (unfold wallet_value_of; by rewrite Hw1).
    unfold wallet_net in *. rewrite Hval, <- Hv1. split_and!; [done|lia|lia].
  - apply wallet_process_output_Ok in H as (? & ? & ? & w & fe & [= <- <- <-] & Hs & _ & _ & ->).
    destruct Hs as [_ Hw1 _ [Hc Hcd] _ _ _ _ _ Hhas _]. simpl. rewrite Amounts.get_bitcoin_new.
    assert (wallet_value_of d1 = wallet_value w) as Hv1 by (unfold wallet_value_of; by rewrite Hw1).
    unfold wallet_net in *. split_and!; [done|done|lia].
  - apply wallet_item_frame in H as [Hf _]. unfold wallet_net, wallet_value_of in *. rewrite Hf.
    split_and!; [done|done|lia].
Qed.

(** ** The chain log over histories *)

(** The log holds the potential receives of all blocks the federation has
    agreed on since it first agreed on a block count. *)
Definition chain_inv (d : WalletDb) : Prop :=
  exists start, 0 <= start <= block_count d /\ (is_regtest cfg = true -> start = 0) /\
    log_repr (tracked_outputs d) (receives start (block_count d - start)).

Lemma receives_app start m n :
  0 <= m -> 0 <= n -> receives start (m + n) = receives start m ++ receives (start + m) n.
Proof. intros Hm Hn. unfold receives, block_txs. by rewrite seqZ_app, !bind_app. Qed.

Lemma scanned_block_count txs d : block_count (scanned txs d) = block_count d.
Proof. done. Qed.

Lemma chain_inv_empty : chain_inv WalletDb_empty.
Proof.
  exists 0. assert (block_count WalletDb_empty = 0) as ->.
  { unfold block_count, threshold_vote. by destruct (Z.to_nat (threshold num_peers - 1)). }
  split; [lia|]. split; [done|]. apply log_repr_empty.
Qed.

Lemma chain_inv_block_count vote peer d d' :
  chain_inv d -> process_block_count vote peer d = (Ok tt, d') -> chain_inv d'.
Proof.
  intros (start & Hs & Hreg & Hlog) (_ & Hle & ->)%process_block_count_Ok.
  set (d1 := upd BlockCountVoteKey <[peer := vote]> d) in *.
  destruct ((block_count d =? 0) && negb (is_regtest cfg)) eqn:Hb.
  - apply andb_true_iff in Hb as [Hz%Z.eqb_eq Hr%negb_true_iff].
    exists (block_count d1). split; [lia|]. split; [by rewrite Hr|].
    rewrite Z.sub_diag. replace (block_count d - start) with 0 in Hlog by lia. exact Hlog.
  - exists start. rewrite scanned_block_count. split; [lia|]. split; [done|].
    replace (block_count d1 - start) with ((block_count d - start) + (block_count d1 - block_count d)) by lia.
    rewrite receives_app by lia. replace (start + (block_count d - start)) with (block_count d) by lia.
    unfold scanned. simpl. by apply log_repr_append.
Qed.

Lemma chain_inv_frame d d' :
  tracked_outputs d' = tracked_outputs d -> block_count_votes d' = block_count_votes d ->
  chain_inv d -> chain_inv d'.
Proof. intros Ht Hv. unfold chain_inv, block_count. by rewrite Ht, Hv. Qed.

Lemma wallet_history_chain d evs d' : wallet_history d evs d' -> chain_inv d -> chain_inv d'.
Proof.
  intros H Hd. induction H as [|evs d1 idx tw f p meta d2 _ IH _ H|evs d1 dest v f o a d2 _ IH _ _ H
                 |evs d1 c peer d2 _ IH _ H]; [done|..].
  - apply wallet_process_input_Ok in H as (? & ? & ? & tracked & v & fe & _ & Hr & _).
    apply (chain_inv_frame d1); [apply Hr|apply Hr|done].
  - apply wallet_process_output_Ok in H as (? & ? & ? & w & fe & _ & Hs & _).
    apply (chain_inv_frame d1); [apply Hs|apply Hs|done].
  - destruct c as [v|r|txid sigs|]; simpl in H.
    + by eapply chain_inv_block_count.
    + by dbrun.
    + apply process_signatures_frame in H as (_ & H2 & _ & H4 & _). by apply (chain_inv_frame d1).
    + by mrun.
Qed.

(** ** Signatures over histories *)

Lemma signatures_of_lookup txid d p : signatures_of txid d !! p = signatures d !! (txid, p).
Proof.
  unfold signatures_of. apply option_eq. intros s. rewrite <- elem_of_list_to_map.
  - rewrite list_elem_of_omap. split.
    + intros ([[t q] s'] & Hin & H). simpl in H. destruct (t =? txid) eqn:Ht; simplify_eq.
      apply Z.eqb_eq in Ht as ->. by apply elem_of_map_to_list.
    + intros H. exists ((txid, p), s). split; [by apply elem_of_map_to_list|]. simpl. by rewrite Z.eqb_refl.
  - pose proof (NoDup_fst_map_to_list (signatures d)) as Hnd.
    induction (map_to_list (signatures d)) as [|[[t q] s'] l IH]; [constructor|].
    simpl in *. inversion Hnd as [|? ? Hni Hnd']; subst. specialize (IH Hnd').
    destruct (t =? txid) eqn:Ht; [|done]. simpl. constructor; [|done]. apply Z.eqb_eq in Ht as ->.
    intros Hin. apply Hni. apply list_elem_of_fmap in Hin as ([q' s2] & -> & Hin).
    apply list_elem_of_omap in Hin as ([[t' q''] s3] & Hin & H). simpl in *.
    destruct (t' =? txid) eqn:Ht'; simplify_eq. apply Z.eqb_eq in Ht' as ->.
    apply list_elem_of_fmap. by exists ((txid, q'), s2).
Qed.

(** Fewer than a threshold of signatures are stored for any transaction, all
    of them valid signatures of a guardian for a transaction still unsigned. *)
Definition sig_inv (d : WalletDb) : Prop :=
  (forall txid, Z.of_nat (size (signatures_of txid d)) < threshold num_peers) /\
  (forall txid peer sigs, signatures d !! (txid, peer) = Some sigs ->
     exists u pk, unsigned_txs d !! txid = Some u /\ bitcoin_pks cfg !! peer = Some pk /\
       verify_signatures u sigs pk = true).

Lemma signatures_of_insert txid peer sigs d txid' :
  signatures_of txid' (upd SignaturesKey <[(txid, peer) := sigs]> d) =
  if decide (txid = txid') then <[peer := sigs]> (signatures_of txid' d) else signatures_of txid' d.
Proof.
  clear. apply map_eq. intros p. rewrite signatures_of_lookup. simpl. case_decide as Ht.
  - subst txid'. destruct (decide (p = peer)) as [->|Hne]; [by rewrite !lookup_insert_eq|].
    rewrite !lookup_insert_ne, signatures_of_lookup by congruence. done.
  - rewrite lookup_insert_ne, signatures_of_lookup by congruence. done.
Qed.

Lemma signatures_of_remove txid d txid' :
  signatures_of txid' (upd SignaturesKey (filter (fun kv => kv.1.1 <> txid)) d) =
  if decide (txid = txid') then ∅ else signatures_of txid' d.
Proof.
  clear. apply map_eq. intros p. rewrite signatures_of_lookup. simpl. case_decide as Ht.
  - subst txid'. rewrite lookup_empty. apply map_lookup_filter_None. right. intros s _. simpl. tauto.
  - rewrite signatures_of_lookup. destruct (signatures d !! (txid', p)) as [s|] eqn:Hs.
    + by apply map_lookup_filter_Some.
    + apply map_lookup_filter_None. by left.
Qed.

Lemma sig_inv_empty : 1 <= num_peers -> sig_inv WalletDb_empty.
Proof.
  intros Hn. pose proof (threshold_pos _ Hn). split.
  - intros txid. assert (signatures_of txid WalletDb_empty = ∅) as ->; [|rewrite map_size_empty; lia].
    apply map_empty. intros p. by rewrite signatures_of_lookup.
  - intros txid peer sigs. simpl. by rewrite lookup_empty.
Qed.

Lemma sig_inv_frame d d' :
  signatures d' = signatures d -> unsigned_txs d ⊆ unsigned_txs d' -> sig_inv d -> sig_inv d'.
Proof.
  intros Hs Hu [H1 H2]. split.
  - intros txid. unfold signatures_of. rewrite Hs. apply H1.
  - intros txid peer sigs. rewrite Hs. intros (u & pk & Hun & Hrest)%H2.
    exists u, pk. split; [by eapply lookup_weaken|done].
Qed.

Lemma sig_inv_signatures txid sigs peer d d' :
  1 <= num_peers -> sig_inv d -> process_signatures txid sigs peer d = (Ok tt, d') -> sig_inv d'.
Proof.
  intros Hn [H1 H2] (u & pk & Hu & Hpk & Hv & Hnew & [[Hne ->]|(Heq & final & _ & _ & ->)])%process_signatures_Ok.
  - split.
    + intros txid'. specialize (H1 txid'). rewrite signatures_of_insert in Hne |- *.
      rewrite decide_True in Hne by done. case_decide; [|done]. subst txid'.
      rewrite map_size_insert_None in Hne |- * by (by rewrite signatures_of_lookup). lia.
    + intros txid' peer' sigs'. simpl. intros [[[= <- <-] <-]|[_ H]]%lookup_insert_Some; [by eauto|by eapply H2].
  - pose proof (threshold_pos _ Hn). split.
    + intros txid'.
      change (Z.of_nat (size (signatures_of txid' (upd SignaturesKey (filter (fun kv => kv.1.1 <> txid))
        (upd SignaturesKey <[(txid, peer) := sigs]> d)))) < threshold num_peers).
      rewrite signatures_of_remove. case_decide; [rewrite map_size_empty; lia|].
      rewrite signatures_of_insert, decide_False by done. apply H1.
    + intros txid' peer' sigs' Hl. simpl in Hl |- *. apply map_lookup_filter_Some in Hl as [Hl Hne]. simpl in Hne.
      rewrite lookup_delete_ne by done. rewrite lookup_insert_ne in Hl by congruence. by eapply H2.
Qed.

Lemma wallet_history_signatures d evs d' :
  1 <= num_peers -> wallet_history d evs d' -> sig_inv d -> sig_inv d'.
Proof.
  intros Hn H Hd. induction H as [|evs d1 idx tw f p meta d2 _ IH _ H|evs d1 dest v f o a d2 _ IH _ _ H
                 |evs d1 c peer d2 _ IH _ H]; [done|..].
  - apply wallet_process_input_Ok in H as (? & ? & ? & tracked & v & fe & _ & Hr & _).
    destruct (rc_signing _ _ _ _ _ _ _ Hr). by apply (sig_inv_frame d1).
  - apply wallet_process_output_Ok in H as (? & ? & ? & w & fe & _ & Hs & _).
    destruct (sn_tx _ _ _ _ _ _ _ Hs) as (script & _ & Hnone & Heq & _).
    apply (sig_inv_frame d1); [apply Hs|rewrite Heq; by apply insert_subseteq|done].
  - destruct c as [v|r|txid sigs|]; simpl in H.
    + apply process_block_count_Ok in H as (_ & _ & ->).
      apply (sig_inv_frame d1); [by destruct (_ && _)|by destruct (_ && _)|done].
    + by dbrun.
    + by eapply sig_inv_signatures.
    + by mrun.
Qed.

(** ** On-chain fees *)

Definition rates_of (d : WalletDb) : list Z := omap id (map_to_list (fee_rate_votes d)).*2.
Definition pending_vbytes (d : WalletDb) : Z := sum_list (vbytes <$> pending_txs_unordered d).
Definition pending_fees (d : WalletDb) : Z := sum_list (fee <$> pending_txs_unordered d).

(** The fee rate in force: the voted one, or the floor that doubles with every
    pending transaction. *)
Definition feerate_in_force (d : WalletDb) (rate : Z) : Z :=
  Z.max rate (wrap_u64 (Z.shiftl (feerate_base cfg) (Z.of_nat (length (pending_txs_unordered d))))).

Lemma foldl_saturating_sub x l : Forall (Z.le 0) l -> x <= foldl saturating_sub x l + sum_list l.
Proof.
  clear. revert x. induction l as [|a l IH]; intros x Hl; [simpl; lia|]. inversion Hl; subst.
  specialize (IH (saturating_sub x a) ltac:(done)). rewrite sum_list_cons. simpl.
  unfold saturating_sub in *. lia.
Qed.

Lemma checked_vbytes_sum (l : list FederationTx) x r :
  foldl (fun acc t => a ← acc; checked_add a (vbytes t)) (Some x) l = Some r ->
  r = x + sum_list (vbytes <$> l).
Proof.
  clear. revert x. induction l as [|t l IH]; intros x H; simpl in H; [simplify_eq; simpl; lia|].
  rewrite fmap_cons, sum_list_cons. destruct (checked_add x (vbytes t)) as [y|] eqn:Hc.
  - apply checked_add_Some in Hc as [-> _]. apply IH in H. lia.
  - exfalso. clear -H. induction l; simpl in H; [done|auto].
Qed.

Lemma consensus_fee_Some v d f d' :
  consensus_fee v d = (Ok (Some f), d') ->
  exists rate, threshold_rate num_peers (rates_of d) = Some rate /\
    Z.of_nat (length (pending_txs_unordered d)) <= 32 /\
    f = Z.max (saturating_mul v (feerate_in_force d rate) / 1000)
          (stack_fee (feerate_in_force d rate) (v + pending_vbytes d) (pending_txs_unordered d)).
Proof.
  unfold consensus_fee, consensus_feerate. intros H.
  apply bind_Ok in H as (pending & d1 & [-> ->]%gets_Ok & H).
  apply bind_Ok in H as (? & d1 & [Hlen%Z.leb_le ->]%rassert_Ok & H).
  apply bind_Ok in H as (rate & d1 & Hr & H).
  apply bind_Ok in Hr as (rates & d2 & [-> ->]%gets_Ok & Hr).
  apply bind_Ok in Hr as (? & d2 & [_ ->]%rassert_Ok & Hr). apply ret_Ok in Hr as [-> ->].
  fold (rates_of d) in H. destruct (threshold_rate num_peers (rates_of d)) as [rate|]; [|by mrun].
  apply bind_Ok in H as (sv & d2 & [->%checked_vbytes_sum ->]%expect_Ok & H). mrun.
  exists rate. done.
Qed.

(** ** Properties *)



(** The log of outputs clients scan for their deposits is complete and in
    chain order. In every state reached from an empty database the log is
    numbered without gaps and lists exactly the outputs that pass the receive
    filter, transaction by transaction, of the blocks from some start height
    (zero on regtest) up to the consensus block count. *)
Theorem walletv2_output_log evs d :
  wallet_history WalletDb_empty evs d ->
  exists start, 0 <= start <= block_count d /\ (is_regtest cfg = true -> start = 0) /\
    log_repr (tracked_outputs d) (receives start (block_count d - start)).
Proof. intros H. by apply (wallet_history_chain _ _ _ H chain_inv_empty). Qed.

(** A bitcoin transaction leaves the signing stage exactly when a threshold
    of distinct guardians has signed it. In every state reached from an empty
    database fewer than a threshold of signatures wait for each transaction;
    a further one is stored when it is valid and new, and if it is the one that
    completes the threshold the transaction moves to the unconfirmed ones with
    its inputs and outputs unchanged, finalized with exactly a threshold of
    signatures, each valid under its guardian's key. *)
Theorem walletv2_signature_threshold evs d txid sigs peer d' :
  1 <= num_peers -> wallet_history WalletDb_empty evs d ->
  process_signatures txid sigs peer d = (Ok tt, d') ->
  let collected := signatures_of txid (upd SignaturesKey <[(txid, peer) := sigs]> d) in
  exists u, unsigned_txs d !! txid = Some u /\
    Z.of_nat (size (signatures_of txid d)) < threshold num_peers /\
    size collected = S (size (signatures_of txid d)) /\
    (forall p s, collected !! p = Some s ->
       exists pk, bitcoin_pks cfg !! p = Some pk /\ verify_signatures u s pk = true) /\
    if decide (Z.of_nat (size collected) = threshold num_peers) then
      exists final, unconfirmed_txs d' !! txid = Some final /\ unsigned_txs d' !! txid = None /\
        signatures_of txid d' = ∅ /\
        previous_output <$> tx_input (tx final) = previous_output <$> tx_input (tx u) /\
        tx_output (tx final) = tx_output (tx u)
    else unsigned_txs d' = unsigned_txs d /\ signatures_of txid d' = collected.
Proof.
  intros Hn Hh H collected.
  destruct (wallet_history_signatures _ _ _ Hn Hh (sig_inv_empty Hn)) as [Hlt Hval].
  apply process_signatures_Ok in H as (u & pk & Hu & Hpk & Hv & Hnew & Hcase).
  exists u. split; [done|]. split; [apply Hlt|].
  assert (collected = <[peer := sigs]> (signatures_of txid d)) as Hcoll
    by (unfold collected; by rewrite signatures_of_insert, decide_True).
  split; [rewrite Hcoll, map_size_insert_None; [done|by rewrite signatures_of_lookup]|].
  split.
  - intros p s. rewrite Hcoll. intros [[<- <-]|[_ Hp]]%lookup_insert_Some; [by exists pk|].
    rewrite signatures_of_lookup in Hp. destruct (Hval _ _ _ Hp) as (u' & pk' & Hu' & Hpk' & Hv').
    exists pk'. split; [done|]. congruence.
  - destruct Hcase as [[Hne ->]|(Heq & final & Hf & _ & ->)].
    + rewrite decide_False by done. done.
    + rewrite decide_True by done. exists final. simpl.
      rewrite lookup_insert_eq, lookup_delete_eq. split_and!; [done|done| |..].
      * apply map_eq. intros p. rewrite signatures_of_lookup, lookup_empty. simpl.
        apply map_lookup_filter_None. right. intros s _ Hne. by apply Hne.
      * match type of Hf with (finalize_tx ?a ?b ?c).1 = _ => destruct (finalize_tx a b c) as [r e] eqn:Hft end.
        simpl in Hf. subst r. by apply finalize_tx_Ok in Hft as (_ & ? & _).
      * match type of Hf with (finalize_tx ?a ?b ?c).1 = _ => destruct (finalize_tx a b c) as [r e] eqn:Hft end.
        simpl in Hf. subst r. by apply finalize_tx_Ok in Hft as (_ & _ & ? & _).
Qed.

(** The on-chain fee lifts the whole stack of pending transactions to the
    fee rate. Whenever a fee is quoted, a threshold of guardians voted for the
    rate or less, the rate in force is at least the voted one and at least the
    base rate doubled for each pending transaction, the fee pays the
    transaction's own size at that rate, and together with the fees already
    paid it pays the size of the whole stack at that rate. *)
Theorem walletv2_fee_covers_stack v d f d' :
  1 <= num_peers -> Forall (fun t => 0 <= fee t) (pending_txs_unordered d) ->
  consensus_fee v d = (Ok (Some f), d') ->
  exists rate, threshold num_peers <= Z.of_nat (at_most rate (rates_of d)) /\
    rate <= feerate_in_force d rate /\
    (0 <= feerate_base cfg < 2 ^ 31 ->
     feerate_base cfg * 2 ^ Z.of_nat (length (pending_txs_unordered d)) <= feerate_in_force d rate) /\
    saturating_mul v (feerate_in_force d rate) / 1000 <= f /\
    saturating_mul (v + pending_vbytes d) (feerate_in_force d rate) / 1000 <= f + pending_fees d.
Proof.
  intros Hn Hfees H. apply consensus_fee_Some in H as (rate & Hr & Hlen & ->). exists rate.
  split; [by apply (threshold_rate_spec num_peers (rates_of d) rate rate Hn Hr)|].
  split; [unfold feerate_in_force; lia|]. split; [|split; [lia|]].
  - intros Hb. unfold feerate_in_force. rewrite Z.shiftl_mul_pow2 by lia.
    assert (0 < 2 ^ Z.of_nat (length (pending_txs_unordered d)) <= 2 ^ 32) as Hp.
    { split; [apply Z.pow_pos_nonneg; lia|]. apply Z.pow_le_mono_r; lia. }
    rewrite wrap_u64_small; [lia|]. unfold is_u64, u64_max.
    change (2 ^ 31) with 2147483648 in Hb. change (2 ^ 32) with 4294967296 in Hp. nia.
  - unfold pending_fees, stack_fee.
    pose proof (foldl_saturating_sub
      (saturating_mul (v + pending_vbytes d) (feerate_in_force d rate) / 1000)
      (fee <$> pending_txs_unordered d)) as Hs.
    rewrite Forall_fmap in Hs. specialize (Hs Hfees). lia.
Qed.

(** Processing a guardian's block count vote never panics and never moves
    the consensus block count back; a vote that does not raise the guardian's
    previous one is rejected, and an accepted vote scans exactly the blocks
    between the old and the new consensus block count (none the first time
    outside regtest). *)
Theorem walletv2_block_count_vote vote peer d :
  1 <= num_peers -> votes_ok d -> votes_of_peers d -> is_u64 vote -> peer ∈ dom (bitcoin_pks cfg) ->
  let d1 := upd BlockCountVoteKey <[peer := vote]> d in
  process_block_count vote peer d =
    if default 0 (block_count_votes d !! peer) <? vote then
      (Ok tt, if (block_count d =? 0) && negb (is_regtest cfg) then d1
              else scanned (block_txs (block_count d) (block_count d1 - block_count d)) d1)
    else (Err RedundantVote, d1).
Proof. apply process_block_count_run. Qed.

(** Correct guardians bound the work of one consensus item. If every stored
    vote of a correct guardian was proposed when that guardian saw a positive
    consensus block count not above the present one, the count a vote leads to
    is at most [MAX_BLOCK_COUNT_INCREMENT] above it, whatever the evil
    guardians vote. *)
Theorem walletv2_block_count_increment evil vote peer d :
  1 <= num_peers -> bft (dom (bitcoin_pks cfg)) evil -> votes_of_peers d ->
  peer ∈ dom (bitcoin_pks cfg) -> block_count d + MAX_BLOCK_COUNT_INCREMENT <= u64_max ->
  let d1 := upd BlockCountVoteKey <[peer := vote]> d in
  (forall p v, p ∉ evil -> block_count_votes d1 !! p = Some v ->
     exists height count, 0 < count <= block_count d /\ v = vote_block_count height count) ->
  0 <= block_count d ->
  block_count d1 <= block_count d + MAX_BLOCK_COUNT_INCREMENT.
Proof.
  intros Hn Hbft Hp Hpeer Hmax d1 Hhonest Hpos.
  destruct (decide (0 < block_count d1)) as [Hlt|]; [|unfold MAX_BLOCK_COUNT_INCREMENT; lia].
  assert (Z.of_nat (size (dom (bitcoin_pks cfg))) = num_peers) as Hsz by (by rewrite size_dom).
  destruct (threshold_vote_honest (dom (bitcoin_pks cfg)) evil (block_count_votes d1))
    as (p & v & Hev & Hv & Hle); rewrite ?Hsz; [done|done|by apply votes_of_peers_insert|done|].
  rewrite Hsz in Hle. change (block_count d1 <= v) in Hle.
  destruct (Hhonest p v Hev Hv) as (height & count & Hc & ->).
  unfold vote_block_count in Hle. destruct (count =? 0) eqn:Hz; [lia|].
  unfold MAX_BLOCK_COUNT_INCREMENT in *.
  rewrite wrap_u64_small in Hle; [lia|]. unfold is_u64. lia.
Qed.
End walletv2.

(** ** Instances for the witnesses

    A federation of one guardian on regtest that receives an output of block
    zero and pays out from it. *)
Module Walletv2Example.
Definition cfg : WalletConfig :=
  {| bitcoin_pks := {[ 0 := 5 ]}; send_tx_vbytes := 166; receive_tx_vbytes := 192; feerate_base := 250;
     dust_limit := 10000; fee_consensus := {| Fee.base := 100000; Fee.parts_per_million := 0 |};
     is_regtest := true |}.
Definition desc (t : Z) : Z := 7.
Definition whash (w : FederationWallet) : Z := wallet_value w.
Definition txid (t : BtcTransaction) : Z :=
  sum_list (value <$> tx_output t) + 1000000 * Z.of_nat (length (tx_output t)).
Definition std (k : script_kind) (h : Z) : Z := h.
Definition rhash (s : Z) : list Z := if s =? 7 then [0; 0; 1] else [1].
Definition sign (t : BtcTransaction) (i : nat) (u : SpentTxOut) : Z := spent_tweak u + 5.
Definition verify (t : BtcTransaction) (i : nat) (u : SpentTxOut) (s pk : Z) : bool := s =? pk.
Definition tweak_pk (pk t : Z) : Z := pk + t.
Definition sat (t : Z) (m : gmap Z Z) : option Z := Some (Z.of_nat (size m)).
Definition deposit : BtcTransaction :=
  {| tx_input := []; tx_output := [ {| value := 50000; script_pubkey := 7 |}; {| value := 1; script_pubkey := 8 |} ] |}.
Definition blocks (h : Z) : list BtcTransaction := if h =? 0 then [deposit] else [].
Definition pt : InPoint := {| in_txid := 1; in_idx := 0 |}.
Definition op : OutPoint := {| ServerModule.txid := 1; out_idx := 0 |}.
Definition id_hash (x : Z) : Z := x.

Abbreviation item := (wallet_process_consensus_item cfg txid rhash verify tweak_pk sat blocks).
Abbreviation pegin := (wallet_process_input cfg desc id_hash whash txid).
Abbreviation pegout := (wallet_process_output cfg desc whash txid std).
Abbreviation history := (wallet_history cfg desc id_hash whash txid std rhash verify tweak_pk sat blocks).

Definition d1 : WalletDb := (item (Feerate (Some 1000)) 0 WalletDb_empty).2.
Definition d2 : WalletDb := (item (BlockCount 1) 0 d1).2.
Definition d3 : WalletDb := (pegin (WalletInputV0 0 3 500) pt d2).2.
Definition d4 : WalletDb := (pegout (WalletOutputV0 (Script P2WPKH 9) 10000 300) op d3).2.
Definition evs2 : list wallet_event := [Item (Feerate (Some 1000)) 0; Item (BlockCount 1) 0].
Definition evs3 : list wallet_event := evs2 ++ [PegIn 0 49500000].
Definition evs4 : list wallet_event := evs3 ++ [PegOut 10300000].

Lemma coin_history2 : history WalletDb_empty evs2 d2.
Proof.
  eapply (wh_item _ _ _ _ _ _ _ _ _ _ _ _ [Item (Feerate (Some 1000)) 0] d1);
    [|simpl; unfold is_u64, u64_max; lia|vm_compute; reflexivity].
  eapply (wh_item _ _ _ _ _ _ _ _ _ _ _ _ []); [constructor|done|vm_compute; reflexivity].
Qed.

Definition meta3 : InputMeta :=
  {| amount := {| amounts := Amounts.new_bitcoin 49500000; fees := Amounts.new_bitcoin 100000 |}; pub_key := 3 |}.

Lemma coin_history3 : history WalletDb_empty evs3 d3.
Proof.
  apply (wh_pegin _ _ _ _ _ _ _ _ _ _ _ _ evs2 d2 0 3 500 pt meta3 d3);
    [apply coin_history2|unfold is_u64, u64_max; lia|vm_compute; reflexivity].
Qed.

Definition amounts4 : TransactionItemAmounts :=
  {| amounts := Amounts.new_bitcoin 10300000; fees := Amounts.new_bitcoin 100000 |}.

Lemma coin_history34 : history d3 [PegOut 10300000] d4.
Proof.
  apply (wh_pegout _ _ _ _ _ _ _ _ _ _ _ _ [] d3 (Script P2WPKH 9) 10000 300 op amounts4 d4);
    [constructor|unfold is_u64, u64_max; lia|unfold is_u64, u64_max; lia|vm_compute; reflexivity].
Qed.

Lemma coin_history4 : history WalletDb_empty evs4 d4.
Proof.
  apply (wh_pegout _ _ _ _ _ _ _ _ _ _ _ _ evs3 d3 (Script P2WPKH 9) 10000 300 op amounts4 d4);
    [apply coin_history3|unfold is_u64, u64_max; lia|unfold is_u64, u64_max; lia|vm_compute; reflexivity].
Qed.



Lemma walletv2_output_log_witness :
  exists start, 0 <= start <= block_count cfg d4 /\ (true = true -> start = 0) /\
    log_repr (tracked_outputs d4) (receives txid rhash blocks start (block_count cfg d4 - start)).
Proof. apply (walletv2_output_log _ _ _ _ _ _ _ _ _ _ _ _ _ coin_history4). Defined.

Definition d5 : WalletDb := (item (Signatures 2049700 [8]) 0 d4).2.

Lemma walletv2_signature_threshold_witness :
  exists u, unsigned_txs d4 !! 2049700 = Some u /\ Z.of_nat (size (signatures_of 2049700 d4)) < 1.
Proof.
  destruct (walletv2_signature_threshold cfg desc id_hash whash txid std rhash verify tweak_pk sat blocks
              evs4 d4 2049700 [8] 0 d5) as (u & Hu & Hs & _).
  - vm_compute. discriminate.
  - apply coin_history4.
  - vm_compute. reflexivity.
  - exists u. split; [exact Hu|exact Hs].
Defined.

Lemma walletv2_fee_covers_stack_witness :
  exists rate, threshold 1 <= Z.of_nat (at_most rate (rates_of d4)) /\ rate <= feerate_in_force cfg d4 rate.
Proof.
  destruct (walletv2_fee_covers_stack cfg 166 d4 166 d4) as (rate & H1 & H2 & _).
  - vm_compute. discriminate.
  - vm_compute. repeat constructor; discriminate.
  - vm_compute. reflexivity.
  - exists rate. split; [exact H1|exact H2].
Defined.

Lemma walletv2_block_count_vote_witness :
  process_block_count cfg txid rhash blocks 1 0 d2 = (Err RedundantVote, upd BlockCountVoteKey <[0 := 1]> d2).
Proof.
  apply (walletv2_block_count_vote cfg txid rhash blocks 1 0 d2).
  - vm_compute. discriminate.
  - apply map_Forall_insert_2; [unfold is_u64, u64_max; lia|apply map_Forall_empty].
  - unfold votes_of_peers. simpl. set_solver.
  - unfold is_u64, u64_max. lia.
  - simpl. set_solver.
Defined.

Lemma walletv2_block_count_increment_witness :
  block_count cfg (upd BlockCountVoteKey <[0 := 6]> d2) <= block_count cfg d2 + 5.
Proof.
  apply (walletv2_block_count_increment cfg ∅ 6 0 d2).
  - vm_compute. discriminate.
  - split; [set_solver|vm_compute; discriminate].
  - unfold votes_of_peers. simpl. set_solver.
  - simpl. set_solver.
  - vm_compute. discriminate.
  - intros p v _ Hv. exists 100, 1. split; [vm_compute; split; [reflexivity|discriminate]|].
    assert (block_count_votes (upd BlockCountVoteKey <[0 := 6]> d2) = {[ 0 := 6 ]}) as Hd2 by (vm_compute; reflexivity).
    rewrite Hd2 in Hv. apply lookup_singleton_Some in Hv as [_ <-]. vm_compute. reflexivity.
  - vm_compute. discriminate.
Defined.
End Walletv2Example.
