(* ===== verification/MetaServer.v ===== *)
(** * The meta module of a guardian

    [modules/fedimint-meta-server/src/lib.rs] with its tables in [db.rs] and
    the types of [modules/fedimint-meta-common/src/lib.rs].  Guardians agree
    on values (federation meta data) by submitting them until a threshold
    submitted the same one.  The module has no inputs and outputs and an empty
    balance sheet.

    The theorems are about what becomes a consensus value, and that guardians
    who want the same value reach it and then stop proposing. *)

From S2P Require Import Prelude Db Peers ServerModule.

(** ** Data and tables *)

(** A [MetaKey] is a [u8], a [MetaValue] a byte string. *)
Record MetaSubmissionValue := { sub_salt : Z; sub_value : list Z }.
Record MetaDesiredValue := { desired_salt : Z; desired_value : list Z }.
Record MetaConsensusValue := { revision : Z; consensus_value : list Z }.
Record MetaConsensusItem := { item_salt : Z; item_key : Z; item_value : list Z }.

Inductive MetaInput := MetaInputUnit.
Inductive MetaOutput := MetaOutputUnit.
Inductive MetaError := InputNotSupported | OutputNotSupported.

#[export] Instance MetaSubmissionValue_eq_dec : EqDecision MetaSubmissionValue.
Proof. solve_decision. Defined.

Record MetaDb := {
  desired : gmap Z MetaDesiredValue;
  consensus : gmap Z MetaConsensusValue;
  submissions : gmap (Z * Z) MetaSubmissionValue;
}.

Definition MetaDb_empty : MetaDb := {| desired := ∅; consensus := ∅; submissions := ∅ |}.

Definition MetaDesiredKey : table MetaDb Z MetaDesiredValue := Table desired (fun f s =>
  {| desired := f (desired s); consensus := consensus s; submissions := submissions s |}).
Definition MetaConsensusKey : table MetaDb Z MetaConsensusValue := Table consensus (fun f s =>
  {| desired := desired s; consensus := f (consensus s); submissions := submissions s |}).
(** Keyed by the [MetaKey] and the peer. *)
Definition MetaSubmissionsKey : table MetaDb (Z * Z) MetaSubmissionValue := Table submissions (fun f s =>
  {| desired := desired s; consensus := consensus s; submissions := f (submissions s) |}).

(** ** Operations *)
Section meta.
Context (num_peers our_peer_id : Z).

Definition get_desired : M MetaDb MetaError (list (Z * MetaDesiredValue)) := find_all MetaDesiredKey.

Definition get_submission (key peer_id : Z) : M MetaDb MetaError (option MetaSubmissionValue) :=
  get_value MetaSubmissionsKey (key, peer_id).

Definition get_consensus (key : Z) : M MetaDb MetaError (option (list Z)) :=
  v ← get_value MetaConsensusKey key; mret (consensus_value <$> v).

Fixpoint remove_submissions (key : Z) (peers : list Z) : M MetaDb MetaError unit :=
  match peers with
  | [] => mret tt
  | peer_id :: peers' => _ ← remove_entry MetaSubmissionsKey (key, peer_id); remove_submissions key peers'
  end.

Definition change_consensus (key : Z) (value : list Z) (matching_submissions : list Z) : M MetaDb MetaError unit :=
  prev ← get_value MetaConsensusKey key;
  let rev := match prev with Some cv => wrap_u64 (revision cv + 1) | None => 0 end in
  _ ← insert_entry MetaConsensusKey key {| revision := rev; consensus_value := value |};
  remove_submissions key matching_submissions.

Definition proposal (key : Z) (want : MetaDesiredValue) (consensus_value : option (list Z))
    (submitted : option MetaSubmissionValue) : list MetaConsensusItem :=
  let item := {| item_salt := desired_salt want; item_key := key; item_value := desired_value want |} in
  if decide (submitted = Some {| sub_salt := desired_salt want; sub_value := desired_value want |}) then []
  else if decide (consensus_value = Some (desired_value want)) then
    match submitted with None => [] | Some _ => [item] end
  else [item].

Fixpoint proposals (l : list (Z * MetaDesiredValue)) : M MetaDb MetaError (list MetaConsensusItem) :=
  match l with
  | [] => mret []
  | (key, want) :: l' =>
      consensus_value ← get_consensus key;
      submitted ← get_submission key our_peer_id;
      rest ← proposals l';
      mret (proposal key want consensus_value submitted ++ rest)
  end.

Definition meta_consensus_proposal : M MetaDb MetaError (list MetaConsensusItem) :=
  l ← get_desired; proposals l.

(** The peers whose submission for [key] has [value]. *)
Definition matching (key : Z) (value : list Z) (l : list (Z * Z * MetaSubmissionValue)) : list Z :=
  map (fun e => e.1.2) (filter (fun e => e.1.1 = key /\ sub_value e.2 = value) l).

Definition meta_process_consensus_item (item : MetaConsensusItem) (peer_id : Z) : M MetaDb MetaError unit :=
  let key := item_key item in
  let new_value := {| sub_salt := item_salt item; sub_value := item_value item |} in
  prev ← get_submission key peer_id;
  _ ← match prev with
      | Some prev_value =>
          if decide (prev_value = new_value) then mret None else remove_entry MetaSubmissionsKey (key, peer_id)
      | None => mret None
      end;
  current ← get_consensus key;
  if decide (current = Some (item_value item)) then mret tt
  else
    _ ← insert_entry MetaSubmissionsKey (key, peer_id) new_value;
    all ← find_all MetaSubmissionsKey;
    let matching_submissions := matching key (item_value item) all in
    if threshold num_peers <=? Z.of_nat (length matching_submissions)
    then change_consensus key (item_value item) matching_submissions
    else mret tt.

Definition meta_process_input (_ : MetaInput) (_ : InPoint) : M MetaDb MetaError InputMeta := throw InputNotSupported.
Definition meta_process_output (_ : MetaOutput) (_ : OutPoint) : M MetaDb MetaError TransactionItemAmounts :=
  throw OutputNotSupported.
Definition meta_audit : M MetaDb MetaError (list Z) := mret [].

(** Guardians and clients. *)
Definition handle_submit_request (key : Z) (value : list Z) (salt : Z) : M MetaDb MetaError unit :=
  _ ← insert_entry MetaDesiredKey key {| desired_salt := salt; desired_value := value |}; mret tt.
Definition handle_get_consensus_request (key : Z) : M MetaDb MetaError (option MetaConsensusValue) :=
  get_value MetaConsensusKey key.
Definition handle_get_consensus_revision_request (key : Z) : M MetaDb MetaError (option Z) :=
  v ← get_value MetaConsensusKey key; mret (revision <$> v).
Definition handle_get_submissions_request (key : Z) : M MetaDb MetaError (gmap Z (list Z)) :=
  all ← find_all MetaSubmissionsKey;
  mret (list_to_map (map (fun e => (e.1.2, sub_value e.2)) (filter (fun e => e.1.1 = key) all))).

Definition meta_module : ServerModule MetaDb MetaInput MetaOutput MetaConsensusItem MetaError := {|
  verify_input := fun _ => Ok tt;
  verify_input_submission := fun _ => mret tt;
  process_input := meta_process_input;
  verify_output_submission := fun _ _ => mret tt;
  process_output := meta_process_output;
  process_consensus_item := meta_process_consensus_item;
  audit := meta_audit;
|}.
End meta.

(** ** What an item does *)

Lemma elem_of_matching (key : Z) (value : list Z) (m : gmap (Z * Z) MetaSubmissionValue) (p : Z) :
  p ∈ matching key value (map_to_list m) <-> exists s, m !! (key, p) = Some s /\ sub_value s = value.
Proof.
  unfold matching. rewrite list_elem_of_fmap. split.
  - intros ([[k p'] s] & -> & [[Hk Hv] Hin]%list_elem_of_filter). simpl in *. subst k.
    apply elem_of_map_to_list in Hin. eauto.
  - intros (s & Hm & Hv). exists (key, p, s). split; [done|]. apply list_elem_of_filter.
    by rewrite elem_of_map_to_list.
Qed.

Lemma matching_NoDup (key : Z) (value : list Z) (m : gmap (Z * Z) MetaSubmissionValue) : NoDup (matching key value (map_to_list m)).
Proof.
  unfold matching. apply NoDup_fmap_2_strong; [|apply NoDup_filter, NoDup_map_to_list].
  intros [[k p] s] [[k' p'] s'] [[Hk _] H]%list_elem_of_filter [[Hk' _] H']%list_elem_of_filter.
  simpl in *. intros ->. subst k k'. apply elem_of_map_to_list in H, H'. by simplify_eq.
Qed.

(** Submissions that did not match. *)
Definition without (key : Z) (peers : list Z) (m : gmap (Z * Z) MetaSubmissionValue) : gmap (Z * Z) MetaSubmissionValue :=
  foldl (fun m p => delete (key, p) m) m peers.

Lemma without_lookup key peers m k :
  without key peers m !! k = if decide (k.1 = key /\ k.2 ∈ peers) then None else m !! k.
Proof.
  unfold without. revert m. induction peers as [|p peers IH]; intros m; simpl.
  { rewrite decide_False; [done|]. intros [_ ?%elem_of_nil]. done. }
  rewrite IH. destruct k as [k1 k2]. simpl. destruct (decide (k1 = key /\ k2 ∈ peers)) as [[-> Hin]|Hno].
  - rewrite decide_True; [done|]. split; [done|by right].
  - rewrite lookup_delete. destruct (decide ((key, p) = (k1, k2))) as [Heq|Heq].
    + injection Heq as <- <-. rewrite decide_True; [done|]. split; [done|left].
    + rewrite decide_False; [done|]. intros [-> [->|Hin]%elem_of_cons]; tauto.
Qed.

Lemma remove_submissions_run key peers d :
  remove_submissions key peers d =
  (Ok tt, {| desired := desired d; consensus := consensus d; submissions := without key peers (submissions d) |}).
Proof.
  revert d. induction peers as [|p peers IH]; intros d; [by destruct d|].
  simpl remove_submissions. unfold mbind, M_bind, remove_entry. by rewrite IH.
Qed.

Definition next_revision (prev : option MetaConsensusValue) : Z :=
  match prev with Some cv => wrap_u64 (revision cv + 1) | None => 0 end.

Section step.
Context (num_peers : Z).

(** The database after an item. *)
Definition meta_step (item : MetaConsensusItem) (p : Z) (d : MetaDb) : MetaDb :=
  let key := item_key item in
  let new := {| sub_salt := item_salt item; sub_value := item_value item |} in
  if decide (consensus_value <$> consensus d !! key = Some (item_value item)) then
    {| desired := desired d; consensus := consensus d;
       submissions := if decide (submissions d !! (key, p) = Some new) then submissions d
                      else delete (key, p) (submissions d) |}
  else
    let subs := <[(key, p) := new]> (submissions d) in
    let ms := matching key (item_value item) (map_to_list subs) in
    if threshold num_peers <=? Z.of_nat (length ms) then
      {| desired := desired d;
         consensus := <[key := {| revision := next_revision (consensus d !! key); consensus_value := item_value item |}]>
                        (consensus d);
         submissions := without key ms subs |}
    else {| desired := desired d; consensus := consensus d; submissions := subs |}.

(** Items are never rejected. *)
Lemma meta_process_run item p d :
  meta_process_consensus_item num_peers item p d = (Ok tt, meta_step item p d).
Proof.
  destruct item as [salt key value]. unfold meta_process_consensus_item, meta_step, get_submission, get_consensus. simpl.
  set (new := {| sub_salt := salt; sub_value := value |}). unfold mbind, M_bind, get_value. simpl.
  set (d1 := if decide (submissions d !! (key, p) = Some new) then d else
    {| desired := desired d; consensus := consensus d; submissions := delete (key, p) (submissions d) |}).
  assert (exists o, (match submissions d !! (key, p) with
    | Some prev_value => if decide (prev_value = new) then mret None else remove_entry MetaSubmissionsKey (key, p)
    | None => mret None end) d = (Ok o : outcome MetaError _, d1)) as [o ->].
  { unfold d1. destruct (submissions d !! (key, p)) as [prev|] eqn:Hprev.
    - destruct (decide (prev = new)) as [->|Hne]; [rewrite decide_True by done; by exists None|].
      rewrite decide_False by congruence. unfold remove_entry. by eexists.
    - rewrite decide_False by done. rewrite delete_id by done. exists None. by destruct d. }
  assert (consensus d1 = consensus d /\ desired d1 = desired d /\
    <[(key, p) := new]> (submissions d1) = <[(key, p) := new]> (submissions d)) as (Hc & Hd & Hs).
  { unfold d1. case_decide; simpl; [done|]. by rewrite insert_delete_eq. }
  unfold mret, M_ret. rewrite Hc. case_decide as Heq.
  - f_equal. unfold d1. by case_decide; destruct d.
  - unfold insert_entry, find_all. simpl. rewrite Hs, Hc, Hd. case_match eqn:Ht; [|done].
    unfold change_consensus, mbind, M_bind, get_value, insert_entry. simpl. by rewrite remove_submissions_run.
Qed.

(** ** Invariant

    What became the consensus value is not submitted any more, and no value
    that is submitted has enough support. *)
Record meta_inv (d : MetaDb) : Prop := {
  sub_differs key p s c :
    submissions d !! (key, p) = Some s -> consensus d !! key = Some c -> sub_value s <> consensus_value c;
  below_threshold key v : Z.of_nat (length (matching key v (map_to_list (submissions d)))) < threshold num_peers;
}.

Lemma matching_mono (key : Z) (v : list Z) (m m' : gmap (Z * Z) MetaSubmissionValue) :
  (forall p s, m !! (key, p) = Some s -> sub_value s = v -> m' !! (key, p) = Some s) ->
  (length (matching key v (map_to_list m)) <= length (matching key v (map_to_list m')))%nat.
Proof.
  intros H. apply submseteq_length, NoDup_submseteq; [apply matching_NoDup|].
  intros p (s & Hm & Hv)%elem_of_matching. apply elem_of_matching. eauto.
Qed.

Lemma matching_nil (key : Z) (v : list Z) (m : gmap (Z * Z) MetaSubmissionValue) :
  (forall p s, m !! (key, p) = Some s -> sub_value s <> v) -> matching key v (map_to_list m) = [].
Proof. intros H. apply elem_of_nil_inv. intros p (s & Hm & Hv)%elem_of_matching. by eapply H. Qed.

Lemma meta_inv_empty : 1 <= num_peers -> meta_inv MetaDb_empty.
Proof.
  intros Hn. split; [done|]. intros key v. rewrite matching_nil by done. pose proof (threshold_pos num_peers Hn). simpl. lia.
Qed.

Lemma meta_step_inv item p d : 1 <= num_peers -> meta_inv d -> meta_inv (meta_step item p d).
Proof.
  intros Hn [Hdiff Hbelow]. destruct item as [salt key value]. unfold meta_step. simpl.
  set (new := {| sub_salt := salt; sub_value := value |}).
  assert (forall m k v, (forall p' s, m !! (k, p') = Some s -> sub_value s = v -> submissions d !! (k, p') = Some s) ->
    Z.of_nat (length (matching k v (map_to_list m))) < threshold num_peers) as Hmono.
  { intros m k v H. pose proof (matching_mono k v _ _ H). specialize (Hbelow k v). lia. }
  case_decide as Hc.
  - assert (forall k s, (if decide (submissions d !! (key, p) = Some new) then submissions d
      else delete (key, p) (submissions d)) !! k = Some s -> submissions d !! k = Some s) as Hsub.
    { intros k s. case_decide; [done|]. by intros [_ ?]%lookup_delete_Some. }
    split; simpl; [intros k q s c Hs%Hsub; by eapply Hdiff|]. intros k v. apply Hmono. eauto.
  - assert (forall k q s, <[(key, p) := new]> (submissions d) !! (k, q) = Some s ->
      submissions d !! (k, q) = Some s \/ (k = key /\ q = p /\ s = new)) as Hins.
    { intros k q s [[[= <- <-] <-]|[_ ?]]%lookup_insert_Some; auto. }
    destruct (Z.leb_spec (threshold num_peers)
      (Z.of_nat (length (matching key value (map_to_list (<[(key, p) := new]> (submissions d))))))); split; simpl.
    + intros k q s c. rewrite without_lookup. case_decide as Hno; [done|]. intros Hs.
      destruct (decide (k = key)) as [->|Hk].
      * rewrite lookup_insert_eq. intros [= <-]. simpl. intros Hv. apply Hno. split; [done|].
        apply elem_of_matching. eauto.
      * rewrite lookup_insert_ne by done. apply Hins in Hs as [Hs|(? & _)]; [|done]. by eapply Hdiff.
    + intros k v. apply Hmono. intros q s. rewrite without_lookup. case_decide as Hno; [done|].
      intros [Hs|(-> & -> & ->)]%Hins Hv; [done|]. destruct Hno. split; [done|].
      apply elem_of_matching. exists new. by rewrite lookup_insert_eq.
    + intros k q s c [Hs|(-> & -> & ->)]%Hins; [by eapply Hdiff|]. intros Hcons. simpl.
      intros ->. apply Hc. by rewrite Hcons.
    + intros k v. destruct (decide (k = key /\ v = value)) as [[-> ->]|Hne]; [done|].
      apply Hmono. intros q s [Hs|(-> & -> & ->)]%Hins Hv; [done|]. simpl in Hv. subst. by destruct Hne.
Qed.

(** ** Histories *)
Fixpoint meta_run (h : list (Z * MetaConsensusItem)) : M MetaDb MetaError unit :=
  match h with
  | [] => mret tt
  | (p, item) :: h' => _ ← meta_process_consensus_item num_peers item p; meta_run h'
  end.

Definition meta_steps (h : list (Z * MetaConsensusItem)) (d : MetaDb) : MetaDb :=
  foldl (fun d e => meta_step e.2 e.1 d) d h.

Lemma meta_run_steps h d : meta_run h d = (Ok tt, meta_steps h d).
Proof.
  revert d. induction h as [|[p item] h IH]; intros d; [done|]. simpl. unfold mbind, M_bind.
  by rewrite meta_process_run, IH.
Qed.

Lemma meta_steps_inv h d : 1 <= num_peers -> meta_inv d -> meta_inv (meta_steps h d).
Proof. intros Hn. revert d. induction h as [|e h IH]; intros d Hd; [done|]. by apply IH, meta_step_inv. Qed.

(** The value [p] submitted last for [key]. *)
Definition latest (h : list (Z * MetaConsensusItem)) (key p : Z) : option (list Z) :=
  item_value <$> last (map snd (filter (fun e => e.1 = p /\ item_key e.2 = key) h)).

Lemma latest_snoc h q item key p :
  latest (h ++ [(q, item)]) key p =
  if decide (q = p /\ item_key item = key) then Some (item_value item) else latest h key p.
Proof.
  unfold latest. rewrite filter_app, map_app, filter_cons, filter_nil. simpl. case_decide; simpl.
  - by rewrite last_snoc.
  - by rewrite app_nil_r.
Qed.

Lemma submission_latest h key p s :
  submissions (meta_steps h MetaDb_empty) !! (key, p) = Some s -> latest h key p = Some (sub_value s).
Proof.
  revert key p s. induction h as [|[q item] h IH] using rev_ind; intros key p s; [done|].
  unfold meta_steps in *. rewrite foldl_app, latest_snoc. simpl.
  set (d := foldl _ _ h) in *. destruct item as [salt k value]. unfold meta_step. simpl.
  set (new := {| sub_salt := salt; sub_value := value |}).
  assert (forall s, <[(k, q) := new]> (submissions d) !! (key, p) = Some s ->
    (if decide (q = p /\ k = key) then Some value else latest h key p) = Some (sub_value s)) as Hins.
  { intros s' [[[= -> ->] <-]|[Hne H]]%lookup_insert_Some; [by rewrite decide_True|].
    rewrite decide_False by (intros [-> ->]; done). by apply IH. }
  destruct (decide (consensus_value <$> consensus d !! k = Some value)).
  2:{ destruct (threshold num_peers <=? _); simpl; [|apply Hins].
      rewrite without_lookup. destruct (decide (_ /\ _ ∈ _)); [done|]. apply Hins. }
  simpl. destruct (decide (submissions d !! (k, q) = Some new)).
  - intros Hs. destruct (decide (q = p /\ k = key)) as [[-> ->]|]; [by simplify_eq|by apply IH].
  - intros [Hne Hs]%lookup_delete_Some. rewrite decide_False by (intros [-> ->]; done). by apply IH.
Qed.

(** A consensus value had its threshold of peers when it was set. *)
Lemma consensus_supported h key c :
  consensus (meta_steps h MetaDb_empty) !! key = Some c ->
  exists h1 h2 quorum, h = h1 ++ h2 /\ NoDup quorum /\ threshold num_peers <= Z.of_nat (length quorum) /\
    forall p, p ∈ quorum -> latest h1 key p = Some (consensus_value c).
Proof.
  revert c. induction h as [|[q item] h IH] using rev_ind; intros c; [done|].
  unfold meta_steps in *. rewrite foldl_app. simpl. set (d := foldl _ _ h) in *.
  assert (consensus d !! key = Some c -> exists h1 h2 quorum, h ++ [(q, item)] = h1 ++ h2 /\ NoDup quorum /\
    threshold num_peers <= Z.of_nat (length quorum) /\
    forall p, p ∈ quorum -> latest h1 key p = Some (consensus_value c)) as Hold.
  { intros (h1 & h2 & quorum & -> & HQ)%IH. exists h1, (h2 ++ [(q, item)]), quorum. by rewrite app_assoc. }
  destruct item as [salt k value]. unfold meta_step. simpl.
  set (new := {| sub_salt := salt; sub_value := value |}).
  destruct (decide (consensus_value <$> consensus d !! k = Some value)); [exact Hold|].
  destruct (Z.leb_spec (threshold num_peers)
    (Z.of_nat (length (matching k value (map_to_list (<[(k, q) := new]> (submissions d))))))) as [Hle|]; [|exact Hold].
  simpl. destruct (decide (k = key)) as [->|Hk]; [|rewrite lookup_insert_ne by done; exact Hold].
  rewrite lookup_insert_eq. intros [= <-]. simpl.
  exists (h ++ [(q, {| item_salt := salt; item_key := key; item_value := value |})]), [],
    (matching key value (map_to_list (<[(key, q) := new]> (submissions d)))).
  rewrite app_nil_r. split; [done|]. split; [apply matching_NoDup|]. split; [done|].
  intros p (s & Hs & Hv)%elem_of_matching. rewrite latest_snoc. simpl.
  apply lookup_insert_Some in Hs as [[[= ->] _]|[Hne Hs]]; [by rewrite decide_True|].
  rewrite decide_False by (intros [-> _]; done). rewrite <- Hv. by apply submission_latest.
Qed.

(** Consensus values are those of a threshold of guardians.  After any
    history of items, none of which is ever rejected, a consensus value had at
    some point of the history at least a threshold of different guardians
    whose latest submission for the key it was; and no other value that is
    submitted has a threshold of guardians behind it. *)
Theorem meta_consensus_threshold h :
  1 <= num_peers ->
  exists d, meta_run h MetaDb_empty = (Ok tt, d) /\
  (forall key c, consensus d !! key = Some c ->
     exists h1 h2 quorum, h = h1 ++ h2 /\ NoDup quorum /\ threshold num_peers <= Z.of_nat (length quorum) /\
       forall p, p ∈ quorum -> latest h1 key p = Some (consensus_value c)) /\
  (forall key v quorum, NoDup quorum ->
     (forall p, p ∈ quorum -> exists s, submissions d !! (key, p) = Some s /\ sub_value s = v) ->
     Z.of_nat (length quorum) < threshold num_peers).
Proof.
  intros Hn. exists (meta_steps h MetaDb_empty). split; [apply meta_run_steps|]. split; [apply consensus_supported|].
  intros key v quorum Hd Hq. destruct (meta_steps_inv h _ Hn (meta_inv_empty Hn)) as [_ Hbelow].
  specialize (Hbelow key v). assert (length quorum <= length (matching key v (map_to_list (submissions (meta_steps h MetaDb_empty)))))%nat.
  { apply submseteq_length, NoDup_submseteq; [done|]. intros p Hp. apply elem_of_matching. auto. }
  lia.
Qed.

(** ** Convergence *)

(** The items of guardians who want [v]. *)
Definition wanted_items (key : Z) (v : list Z) (salt : Z -> Z) (quorum : list Z) : list (Z * MetaConsensusItem) :=
  map (fun p => (p, {| item_salt := salt p; item_key := key; item_value := v |})) quorum.

(** A guardian that has submitted [v]: it is recorded, or [v] is the consensus. *)
Definition registered (key : Z) (v : list Z) (d : MetaDb) (p : Z) : Prop :=
  (exists s, submissions d !! (key, p) = Some s /\ sub_value s = v) \/
  (consensus_value <$> consensus d !! key = Some v /\ submissions d !! (key, p) = None).

Lemma registered_step key v salt q d p :
  meta_inv d -> registered key v d p \/ p = q ->
  registered key v (meta_step {| item_salt := salt; item_key := key; item_value := v |} q d) p.
Proof.
  intros [Hdiff _]. unfold meta_step, registered. simpl. set (new := {| sub_salt := salt; sub_value := v |}).
  destruct (decide (consensus_value <$> consensus d !! key = Some v)) as [Hc|Hc]; simpl.
  - assert (forall s, submissions d !! (key, p) = Some s -> sub_value s <> v) as Hno.
    { intros s Hs. apply fmap_Some in Hc as (c & Hc & ->). by eapply Hdiff. }
    assert (submissions d !! (key, q) <> Some new) as Hnew.
    { intros Hs. apply fmap_Some in Hc as (c & Hc & Hv). by eapply (Hdiff key q new). }
    rewrite decide_False by done. intros [[(s & Hs & Hv)|[_ Hs]]| ->].
    + by destruct (Hno s Hs).
    + right. split; [done|]. rewrite lookup_delete. by case_decide.
    + right. split; [done|]. apply lookup_delete_eq.
  - intros Hp. assert (exists s, <[(key, q) := new]> (submissions d) !! (key, p) = Some s /\ sub_value s = v) as (s & Hs & Hv).
    { destruct (decide (p = q)) as [->|Hne]; [exists new; by rewrite lookup_insert_eq|].
      rewrite lookup_insert_ne by congruence. destruct Hp as [[?|[? _]]| ->]; done. }
    destruct (threshold num_peers <=? _); simpl; [|left; by eauto].
    right. rewrite lookup_insert_eq, without_lookup, decide_True; [done|]. split; [done|]. apply elem_of_matching. eauto.
Qed.

Lemma registered_round key v salt quorum d p :
  1 <= num_peers -> meta_inv d -> registered key v d p \/ p ∈ quorum ->
  registered key v (meta_steps (wanted_items key v salt quorum) d) p.
Proof.
  intros Hn. revert d. induction quorum as [|q quorum IH]; intros d Hd Hp; simpl.
  { destruct Hp as [?|?%elem_of_nil]; done. }
  apply IH; [by apply meta_step_inv|]. rewrite elem_of_cons in Hp.
  destruct Hp as [Hp|[->|Hp]]; [left; apply registered_step; auto..|by right].
Qed.

(** A quorum that is registered has reached its goal. *)
Lemma registered_consensus key v quorum d :
  meta_inv d -> NoDup quorum -> threshold num_peers <= Z.of_nat (length quorum) ->
  (forall p, p ∈ quorum -> registered key v d p) ->
  0 < threshold num_peers ->
  consensus_value <$> consensus d !! key = Some v /\ forall p, p ∈ quorum -> submissions d !! (key, p) = None.
Proof.
  intros [Hdiff Hbelow] Hnd Hlen Hreg Ht.
  assert (consensus_value <$> consensus d !! key = Some v) as Hc.
  { destruct (decide (consensus_value <$> consensus d !! key = Some v)) as [|Hc]; [done|].
    specialize (Hbelow key v). assert (length quorum <= length (matching key v (map_to_list (submissions d))))%nat.
    { apply submseteq_length, NoDup_submseteq; [done|]. intros p Hp. apply elem_of_matching.
      by destruct (Hreg p Hp) as [?|[? _]]. }
    lia. }
  split; [done|]. intros p Hp. destruct (Hreg p Hp) as [(s & Hs & Hv)|[_ ?]]; [|done].
  apply fmap_Some in Hc as (c & Hc & ->). by destruct (Hdiff key p s c).
Qed.

(** The proposal of a guardian that wants [want] for one key. *)
Lemma proposal_run p key want d :
  desired d = {[ key := want ]} ->
  meta_consensus_proposal p d =
  (Ok (proposal key want (consensus_value <$> consensus d !! key) (submissions d !! (key, p)) ++ []), d).
Proof.
  intros Hd. unfold meta_consensus_proposal, get_desired, find_all, mbind, M_bind. simpl. rewrite Hd, map_to_list_singleton.
  done.
Qed.

(** A guardian's own copy of the database, in which it wants [want]. *)
Definition wants (key : Z) (want : MetaDesiredValue) (d : MetaDb) : MetaDb :=
  {| desired := {[ key := want ]}; consensus := consensus d; submissions := submissions d |}.

Lemma quiescent_registered p key want d :
  (meta_consensus_proposal p (wants key want d)).1 = Ok [] <->
  submissions d !! (key, p) = Some {| sub_salt := desired_salt want; sub_value := desired_value want |} \/
  (consensus_value <$> consensus d !! key = Some (desired_value want) /\ submissions d !! (key, p) = None).
Proof.
  rewrite (proposal_run p key want) by done. simpl. rewrite app_nil_r. unfold proposal.
  destruct (decide (submissions d !! (key, p) = _)) as [Hs|Hs]; [by split; [left|]|].
  destruct (decide (consensus_value <$> consensus d !! key = _)) as [Hc|Hc]; [|by split; [|intros [?|[? _]]]].
  destruct (submissions d !! (key, p)) as [s|]; [|by split; [right|]]. split; [done|]. by intros [?|[_ ?]].
Qed.

(** Guardians who want the same value get it, and then stop.  After any
    history, when each guardian of a quorum has its item for the value
    processed, the value is the consensus and none of them proposes anything
    for the key any more; and conversely, whatever was processed, when none
    of them has anything to propose, the value is the consensus. *)
Theorem meta_converges h key v salt quorum :
  1 <= num_peers -> NoDup quorum -> threshold num_peers <= Z.of_nat (length quorum) ->
  (exists d, meta_run (h ++ wanted_items key v salt quorum) MetaDb_empty = (Ok tt, d) /\
     consensus_value <$> consensus d !! key = Some v /\
     forall p want, p ∈ quorum -> desired_value want = v ->
       (meta_consensus_proposal p (wants key want d)).1 = Ok []) /\
  (forall d, meta_run h MetaDb_empty = (Ok tt, d) ->
     (forall p, p ∈ quorum -> exists want, desired_value want = v /\
        (meta_consensus_proposal p (wants key want d)).1 = Ok []) ->
     consensus_value <$> consensus d !! key = Some v).
Proof.
  intros Hn Hnd Hlen. pose proof (meta_steps_inv h _ Hn (meta_inv_empty Hn)) as Hinv.
  assert (0 < threshold num_peers) as Ht by (pose proof (threshold_pos num_peers Hn); lia). split.
  - exists (meta_steps (h ++ wanted_items key v salt quorum) MetaDb_empty). split; [apply meta_run_steps|].
    unfold meta_steps at 1 2. rewrite foldl_app. fold (meta_steps h MetaDb_empty).
    fold (meta_steps (wanted_items key v salt quorum) (meta_steps h MetaDb_empty)).
    destruct (registered_consensus key v quorum (meta_steps (wanted_items key v salt quorum) (meta_steps h MetaDb_empty)))
      as [Hc Hsub]; [by apply meta_steps_inv|done|done| |done|].
    { intros p Hp. apply registered_round; auto. }
    split; [done|]. intros p want Hp <-. apply quiescent_registered. right. auto.
  - intros d. rewrite meta_run_steps. intros [= <-] Hq.
    apply (registered_consensus key v quorum); [done..| |done]. intros p Hp.
    destruct (Hq p Hp) as (want & <- & [Hs|[Hc Hs]]%quiescent_registered); [left; eauto|by right].
Qed.

(** ** The promise to the engine: no assets, no liabilities *)
#[export] Program Instance meta_audited : Audited (meta_module num_peers) := {|
  inv := fun _ => True;
  input_ok := fun _ => True;
  output_ok := fun _ => True;
  item_ok := fun _ => True;
  net := fun _ => 0;
  gross := fun _ => 0;
|}.
Next Obligation. done. Qed.
Next Obligation. intros i p d meta d' _ _ H. by apply throw_Ok in H. Qed.
Next Obligation. intros o p d a d' _ _ H. by apply throw_Ok in H. Qed.
Next Obligation. done. Qed.
Next Obligation. intros d _ _. by exists [], d. Qed.
End step.

Module MetaExample.

(** Four guardians; three of them submit [7]. *)
Definition item7 (salt : Z) : MetaConsensusItem := {| item_salt := salt; item_key := 0; item_value := [7] |}.
Definition history1 : list (Z * MetaConsensusItem) := [(0, item7 1); (1, item7 2); (2, item7 3)].

Lemma meta_consensus_threshold_witness :
  exists h1 h2 quorum, history1 = h1 ++ h2 /\ NoDup quorum /\ 3 <= Z.of_nat (length quorum) /\
    forall p, p ∈ quorum -> latest h1 0 p = Some [7].
Proof.
  destruct (meta_consensus_threshold 4 history1 ltac:(lia)) as (d & Hrun & Hsup & _).
  vm_compute in Hrun. injection Hrun as <-.
  exact (Hsup 0 {| revision := 0; consensus_value := [7] |} eq_refl).
Defined.

Lemma meta_converges_witness :
  exists d, meta_run 4 ([(3, item7 9)] ++ wanted_items 0 [8] (fun p => p) [0; 1; 2]) MetaDb_empty = (Ok tt, d) /\
    consensus_value <$> consensus d !! 0 = Some [8].
Proof.
  destruct (meta_converges 4 [(3, item7 9)] 0 [8] (fun p => p) [0; 1; 2]) as [(d & Hrun & Hc & _) _].
  - lia.
  - repeat constructor; set_solver.
  - vm_compute. discriminate.
  - exists d. split; [exact Hrun|exact Hc].
Defined.
End MetaExample.
