(* ===== verification/Engine.v ===== *)
(** * The consensus engine: processing ordered items

    [fedimint-server/src/consensus/engine.rs] from
    [process_consensus_item] down, with the tables of
    [fedimint-server/src/consensus/db.rs] and the types of
    [fedimint-core/src/session_outcome.rs].  [Session] models what happens
    around it: ordering, signing and recovering a session.

    A database transaction is the value of [CoreDb] it was opened on; the
    backend's answer to a commit is an argument, and everything else about a
    transaction that is not committed is dropped. *)

From S2P Require Import Prelude Db Amounts ServerModule Transaction.

(** ** Items and sessions *)

Inductive ConsensusItem (I O C : Type) : Type :=
| TransactionItem (tx : Transaction I O)
| ModuleItem (item : Dyn C)
| DefaultItem (variant : Z) (bytes : list Z).
Arguments TransactionItem {_ _ _} _.
Arguments ModuleItem {_ _ _} _.
Arguments DefaultItem {_ _ _} _ _.

Record AcceptedItem (I O C : Type) := { accepted_item : ConsensusItem I O C; accepted_peer : Z }.
Arguments accepted_item {_ _ _} _.
Arguments accepted_peer {_ _ _} _.

Record SessionOutcome (I O C : Type) := { items : list (AcceptedItem I O C) }.
Arguments items {_ _ _} _.

Record SignedSessionOutcome (I O C : Type) := {
  session_outcome : SessionOutcome I O C;
  session_signatures : gmap Z Z;
}.
Arguments session_outcome {_ _ _} _.
Arguments session_signatures {_ _ _} _.

#[export] Instance Dyn_eq_dec {T} `{!EqDecision T} : EqDecision (Dyn T).
Proof. solve_decision. Defined.
#[export] Instance TransactionSignature_eq_dec : EqDecision TransactionSignature.
Proof. solve_decision. Defined.
#[export] Instance Transaction_eq_dec {I O} `{!EqDecision I, !EqDecision O} : EqDecision (Transaction I O).
Proof. solve_decision. Defined.
#[export] Instance ConsensusItem_eq_dec {I O C} `{!EqDecision I, !EqDecision O, !EqDecision C} :
  EqDecision (ConsensusItem I O C).
Proof. solve_decision. Defined.
#[export] Instance AcceptedItem_eq_dec {I O C} `{!EqDecision I, !EqDecision O, !EqDecision C} :
  EqDecision (AcceptedItem I O C).
Proof. solve_decision. Defined.

(** ** The database of a guardian *)

Record CoreDb (D I O C : Type) := {
  modules_db : gmap Z D;
  AcceptedItems : gmap Z (AcceptedItem I O C);
  AcceptedTransactions : gmap Z (list Z);
  SignedSessionOutcomes : gmap Z (SignedSessionOutcome I O C);
  AlephUnits : gmap Z (list Z);
}.
Arguments modules_db {_ _ _ _} _.
Arguments AcceptedItems {_ _ _ _} _.
Arguments AcceptedTransactions {_ _ _ _} _.
Arguments SignedSessionOutcomes {_ _ _ _} _.
Arguments AlephUnits {_ _ _ _} _.

(** Why an item is rejected. *)
Inductive ItemError (E : Type) : Type :=
| ModuleRejected (e : E)
| AlreadyAccepted
| TransactionRejected (e : TransactionError E)
| UnexpectedItem (variant : Z)
| DiscardedPreviously.
Arguments ModuleRejected {_} _.
Arguments AlreadyAccepted {_}.
Arguments TransactionRejected {_} _.
Arguments UnexpectedItem {_} _.
Arguments DiscardedPreviously {_}.

Definition MAX_ITEM_PROCESSING_ATTEMPTS : nat := 10.

Section tables.
Context {D I O C : Type}.
Abbreviation DB := (CoreDb D I O C).

Definition AcceptedItemKey : table DB Z (AcceptedItem I O C) := Table AcceptedItems (fun f s =>
  {| modules_db := modules_db s; AcceptedItems := f (AcceptedItems s);
     AcceptedTransactions := AcceptedTransactions s;
     SignedSessionOutcomes := SignedSessionOutcomes s; AlephUnits := AlephUnits s |}).
Definition AcceptedTransactionKey : table DB Z (list Z) := Table AcceptedTransactions (fun f s =>
  {| modules_db := modules_db s; AcceptedItems := AcceptedItems s;
     AcceptedTransactions := f (AcceptedTransactions s);
     SignedSessionOutcomes := SignedSessionOutcomes s; AlephUnits := AlephUnits s |}).
Definition SignedSessionOutcomeKey : table DB Z (SignedSessionOutcome I O C) :=
  Table SignedSessionOutcomes (fun f s =>
  {| modules_db := modules_db s; AcceptedItems := AcceptedItems s;
     AcceptedTransactions := AcceptedTransactions s;
     SignedSessionOutcomes := f (SignedSessionOutcomes s); AlephUnits := AlephUnits s |}).
Definition AlephUnitsKey : table DB Z (list Z) := Table AlephUnits (fun f s =>
  {| modules_db := modules_db s; AcceptedItems := AcceptedItems s;
     AcceptedTransactions := AcceptedTransactions s;
     SignedSessionOutcomes := SignedSessionOutcomes s; AlephUnits := f (AlephUnits s) |}).

(** The part of the transaction that belongs to the modules. *)
Definition on_modules {F A} (m : M (gmap Z D) F A) : M DB F A :=
  zoom modules_db (fun d s =>
  {| modules_db := d; AcceptedItems := AcceptedItems s;
     AcceptedTransactions := AcceptedTransactions s;
     SignedSessionOutcomes := SignedSessionOutcomes s; AlephUnits := AlephUnits s |}) m.
End tables.

(** ** Operations *)
Section engine.
Context {D I O C E : Type} `{!EqDecision I, !EqDecision O, !EqDecision C}.
Context (d0 : D) (modules : gmap Z (ServerModule D I O C E)).
Context (tx_hash_from_parts : list (Dyn I) -> list (Dyn O) -> Z -> Z).
Context (verify_schnorr : Z -> Z -> Z -> bool).

(** [cfg.consensus.version], and the peers with a status channel
    ([ci_status_senders]). *)
Context (version : CoreConsensusVersion) (ci_status_senders : gset Z).
Abbreviation DB := (CoreDb D I O C).
Abbreviation Item := (ConsensusItem I O C).

Definition process_consensus_item_with_db_transaction (consensus_item : Item) (peer_id : Z) :
    M DB (ItemError E) unit :=
  match consensus_item with
  | ModuleItem module_item =>
      m ← on_modules (get_expect modules (module_instance_id module_item));
      map_err ModuleRejected (on_modules (with_module d0 (module_instance_id module_item)
        (process_consensus_item m (value module_item) peer_id)))
  | TransactionItem transaction =>
      let txid := tx_hash tx_hash_from_parts transaction in
      existing ← get_value AcceptedTransactionKey txid;
      match existing with
      | Some _ => throw AlreadyAccepted
      | None =>
          let modules_ids := module_instance_id <$> outputs transaction in
          _ ← map_err TransactionRejected (on_modules (process_transaction_with_dbtx d0 modules
                tx_hash_from_parts verify_schnorr transaction version Consensus));
          _ ← insert_entry AcceptedTransactionKey txid modules_ids;
          mret tt
      end
  | DefaultItem variant _ => throw (UnexpectedItem variant)
  end.

(** The audit of all modules, in the order of the registry. *)
Fixpoint audit_modules (l : list (Z * ServerModule D I O C E)) : M (gmap Z D) E (list Z) :=
  match l with
  | [] => mret []
  | (module_instance_id, m) :: l' =>
      xs ← with_module d0 module_instance_id (audit m);
      ys ← audit_modules l';
      mret (xs ++ ys)
  end.

(** The balance sheet must not be negative. *)
Definition check_balance_sheet : M DB (ItemError E) unit :=
  audit_items ← map_err ModuleRejected (on_modules (audit_modules (btree_iter modules)));
  net_assets ← expect (calculate_net_assets audit_items);
  rassert (0 <=? net_assets).

(** One attempt.  [commit] is the backend's answer to [commit_tx_result].  The
    outer error means the item has to be processed again, the inner one that
    it is rejected. *)
Definition process_consensus_item_attempt (commit : option DatabaseError) (item_index : Z)
    (item : Item) (peer : Z) : M DB DatabaseError (ItemError E + unit) := fun db =>
  match AcceptedItems db !! item_index with
  | Some existing_item =>
      if decide (accepted_item existing_item = item /\ accepted_peer existing_item = peer)
      then (Ok (inr tt), db)
      else (Ok (inl DiscardedPreviously), db)
  | None =>
      match process_consensus_item_with_db_transaction item peer db with
      | (Panic, _) => (Panic, db)
      | (Err err, _) => (Ok (inl err), db)
      | (Ok _, dbtx) =>
          let accepted := {| accepted_item := item; accepted_peer := peer |} in
          match (_ ← insert_entry AcceptedItemKey item_index accepted; check_balance_sheet) dbtx with
          | (Ok _, dbtx') =>
              match commit with
              | None => (Ok (inr tt), dbtx')
              | Some err => (Err err, db)
              end
          | _ => (Panic, db)
          end
      end
  end.

(** The loop around it; [attempt] counts from one and [left] is
    [MAX_ITEM_PROCESSING_ATTEMPTS - attempt]. *)
Fixpoint attempts (commits : nat -> option DatabaseError) (left attempt : nat) (item_index : Z)
    (item : Item) (peer : Z) : M DB Empty_set (ItemError E + unit) := fun db =>
  match process_consensus_item_attempt (commits attempt) item_index item peer db with
  | (Ok r, db') => (Ok r, db')
  | (Err SnapshotTooOld, db') =>
      match left with
      | 0%nat => (Panic, db')
      | S left' => attempts commits left' (S attempt) item_index item peer db'
      end
  | (Err _, db') => (Panic, db')
  | (Panic, db') => (Panic, db')
  end.

Definition process_ordered_item (commits : nat -> option DatabaseError) (item_index : Z)
    (item : Item) (peer : Z) : M DB Empty_set (ItemError E + unit) :=
  _ ← rassert (bool_decide (peer ∈ ci_status_senders));
  attempts commits (MAX_ITEM_PROCESSING_ATTEMPTS - 1) 1 item_index item peer.

(** The items accepted so far in the running session. *)
Definition pending_accepted_items (db : DB) : list (AcceptedItem I O C) :=
  (btree_iter (AcceptedItems db)).*2.

Definition is_recovery (db : DB) : bool := negb (bool_decide (AlephUnits db = ∅)).

Definition complete_session_tx (session_index : Z) (outcome : SignedSessionOutcome I O C) :
    M DB DatabaseError unit :=
  _ ← remove_by_prefix AlephUnitsKey (fun _ => True);
  _ ← remove_by_prefix AcceptedItemKey (fun _ => True);
  prev ← insert_entry SignedSessionOutcomeKey session_index outcome;
  match prev with
  | Some _ => panic
  | None => mret tt
  end.

Definition complete_session (commit : option DatabaseError) (session_index : Z)
    (outcome : SignedSessionOutcome I O C) : M DB Empty_set unit := fun db =>
  match complete_session_tx session_index outcome db, commit with
  | (Ok _, dbtx), None => (Ok tt, dbtx)
  | _, _ => (Panic, db)
  end.

(** [get_finished_session_count_static]. *)
Definition get_finished_session_count (db : DB) : Z := next_index (SignedSessionOutcomes db).

(** The loop over the items of a batch: [item_index] counts the accepted
    ones; [commits i] answers the commits of the [i]-th item. *)
Fixpoint process_items (commits : nat -> nat -> option DatabaseError) (item_index : Z)
    (l : list (AcceptedItem I O C)) : M DB Empty_set Z :=
  match l with
  | [] => mret item_index
  | a :: l' =>
      r ← process_ordered_item (commits 0%nat) item_index (accepted_item a) (accepted_peer a);
      process_items (fun i => commits (S i))
        (match r with inr _ => item_index + 1 | inl _ => item_index end) l'
  end.

(** [BackupWriter] keeps the index of the next unit of the running session;
    [append] stores a unit and returns the next index. *)
Definition BackupWriter_new (db : DB) : Z := next_index (AlephUnits db).
Definition BackupWriter_append (units_index : Z) (data : list Z) : M DB Empty_set Z :=
  _ ← insert_new_entry AlephUnitsKey units_index data;
  mret (wrap_u64 (units_index + 1)).

(** [BackupReader::read]: the bytes of all units. *)
Definition BackupReader_read (db : DB) : list Z := mjoin (btree_iter (AlephUnits db)).*2.

(** ** The history of a module, for migrations *)
Inductive ModuleHistoryItem :=
| HistoryConsensusItem (item : Dyn C)
| HistoryOutput (output : Dyn O) (out_point : OutPoint)
| HistoryInput (input : Dyn I).

(** The items of module [id] in an accepted item; [None] is
    [unreachable!]. *)
Definition module_items (id : Z) (a : AcceptedItem I O C) : option (list ModuleHistoryItem) :=
  match accepted_item a with
  | TransactionItem tx =>
      let txid := tx_hash tx_hash_from_parts tx in
      Some ((HistoryInput <$> filter (fun i => module_instance_id i = id) (inputs tx)) ++
            ((fun e => HistoryOutput e.1 {| txid := txid; out_idx := e.2 |}) <$>
             filter (fun e => module_instance_id e.1 = id)
               (zip (outputs tx) (seqZ 0 (Z.of_nat (length (outputs tx)))))))
  | ModuleItem mi => Some (if module_instance_id mi =? id then [HistoryConsensusItem mi] else [])
  | DefaultItem _ _ => None
  end.

Definition get_module_history_stream (id : Z) (db : DB) : option (list ModuleHistoryItem) :=
  let active_session_items := pending_accepted_items db in
  let session_items := (fun s => items (session_outcome s)) <$> (btree_iter (SignedSessionOutcomes db)).*2 in
  mjoin <$> mapM (module_items id) (mjoin session_items ++ active_session_items).
End engine.

(** ** Facts about one item *)
Section item_lemmas.
Context {D I O C E : Type} `{!EqDecision I, !EqDecision O, !EqDecision C}.
Context (d0 : D) (modules : gmap Z (ServerModule D I O C E)).
Context (tx_hash_from_parts : list (Dyn I) -> list (Dyn O) -> Z -> Z).
Context (verify_schnorr : Z -> Z -> Z -> bool).
Context (version : CoreConsensusVersion) (ci_status_senders : gset Z).
Abbreviation DB := (CoreDb D I O C).
Abbreviation attempt_ := (process_consensus_item_attempt d0 modules tx_hash_from_parts verify_schnorr version).
Abbreviation process_ := (process_ordered_item d0 modules tx_hash_from_parts verify_schnorr version ci_status_senders).
Abbreviation process_items_ := (process_items d0 modules tx_hash_from_parts verify_schnorr version ci_status_senders).

Lemma on_modules_Ok {F A} (m : M (gmap Z D) F A) (db : DB) a db' :
  on_modules m db = (Ok a, db') <->
  exists s, m (modules_db db) = (Ok a, s) /\ modules_db db' = s /\
    AcceptedItems db' = AcceptedItems db /\ AcceptedTransactions db' = AcceptedTransactions db /\
    SignedSessionOutcomes db' = SignedSessionOutcomes db /\ AlephUnits db' = AlephUnits db.
Proof.
  unfold on_modules. rewrite zoom_Ok. split.
  - intros (s & H & ->). by exists s.
  - intros (s & H & H1 & H2 & H3 & H4 & H5). exists s. split; [done|]. destruct db'; simpl in *. by subst.
Qed.

(** What processing an item does to the tables of the engine. *)
Lemma process_with_db_tables item peer (db db' : DB) :
  process_consensus_item_with_db_transaction d0 modules tx_hash_from_parts verify_schnorr version
    item peer db = (Ok tt, db') ->
  AcceptedItems db' = AcceptedItems db /\ SignedSessionOutcomes db' = SignedSessionOutcomes db /\
  AlephUnits db' = AlephUnits db /\
  match item with
  | TransactionItem tx =>
      let txid := tx_hash tx_hash_from_parts tx in
      AcceptedTransactions db !! txid = None /\
      AcceptedTransactions db' = <[txid := module_instance_id <$> outputs tx]> (AcceptedTransactions db)
  | _ => AcceptedTransactions db' = AcceptedTransactions db
  end.
Proof.
  destruct item as [tx|mi|]; simpl; intros H.
  - apply bind_Ok in H as (o & s1 & [-> ->]%get_value_Ok & H). simpl in H.
    destruct (AcceptedTransactions db !! _) eqn:Htx; [mrun|].
    apply bind_Ok in H as (? & s1 & H1 & H). apply map_err_Ok in H1.
    apply on_modules_Ok in H1 as (s & _ & H2 & H3 & H4 & H5 & H6).
    dbrun. rewrite H3, H4, H5, H6. done.
  - apply bind_Ok in H as (m & s1 & H1 & H). apply map_err_Ok in H.
    apply on_modules_Ok in H1 as (? & _ & _ & H1 & H2 & H3 & H4).
    apply on_modules_Ok in H as (? & _ & _ & H5 & H6 & H7 & H8). split_and!; congruence.
  - mrun.
Qed.

Lemma check_balance_sheet_tables (db db' : DB) :
  check_balance_sheet d0 modules db = (Ok tt, db') ->
  AcceptedItems db' = AcceptedItems db /\ AcceptedTransactions db' = AcceptedTransactions db /\
  SignedSessionOutcomes db' = SignedSessionOutcomes db /\ AlephUnits db' = AlephUnits db.
Proof.
  unfold check_balance_sheet. intros H. apply bind_Ok in H as (l & s1 & H1 & H).
  apply map_err_Ok, on_modules_Ok in H1 as (? & _ & _ & H1). mrun. done.
Qed.

(** An attempt that commits. *)
Lemma attempt_inr commit idx item peer (db db' : DB) :
  attempt_ commit idx item peer db = (Ok (inr tt), db') ->
  (AcceptedItems db !! idx = Some {| accepted_item := item; accepted_peer := peer |} /\ db' = db) \/
  (AcceptedItems db !! idx = None /\ commit = None /\
   exists dbtx, process_consensus_item_with_db_transaction d0 modules tx_hash_from_parts verify_schnorr
        version item peer db = (Ok tt, dbtx) /\
     check_balance_sheet d0 modules
        (upd AcceptedItemKey <[idx := {| accepted_item := item; accepted_peer := peer |}]> dbtx) = (Ok tt, db')).
Proof.
  unfold process_consensus_item_attempt. destruct (AcceptedItems db !! idx) as [[i p]|] eqn:Hi.
  { case_decide as Hd; [|done]. simpl in Hd. destruct Hd as [-> ->]. intros [= ->]. by left. }
  intros H. right. split; [done|].
  destruct (process_consensus_item_with_db_transaction _ _ _ _ _ _ _ _) as [[[]| |] dbtx] eqn:Hp; try done.
  destruct ((insert_entry _ _ _ ≫= _) dbtx) as [[[]| |] dbtx'] eqn:Hb; try done.
  apply bind_Ok in Hb as (? & s1 & [_ ->]%insert_entry_Ok & Hb).
  destruct commit; [done|]. simplify_eq. split; [done|]. by exists dbtx.
Qed.

(** An attempt that rejects the item writes nothing. *)
Lemma attempt_inl commit idx item peer (db db' : DB) e :
  attempt_ commit idx item peer db = (Ok (inl e), db') -> db' = db.
Proof. unfold process_consensus_item_attempt. repeat case_match; naive_solver. Qed.

Lemma attempt_Err commit idx item peer (db db' : DB) e :
  attempt_ commit idx item peer db = (Err e, db') -> db' = db /\ commit = Some e.
Proof. unfold process_consensus_item_attempt. repeat case_match; naive_solver. Qed.

(** The answer to the commit is the only thing that can differ between two
    attempts. *)
Lemma attempt_commit commit idx item peer (db db' : DB) r :
  attempt_ commit idx item peer db = (Ok r, db') -> attempt_ None idx item peer db = (Ok r, db').
Proof. unfold process_consensus_item_attempt. repeat case_match; naive_solver. Qed.

Lemma attempt_failed commit idx item peer (db db' : DB) e :
  attempt_ commit idx item peer db = (Err e, db') ->
  exists db1, attempt_ None idx item peer db = (Ok (inr tt), db1).
Proof. unfold process_consensus_item_attempt. repeat case_match; naive_solver. Qed.

Lemma attempts_Ok commits left n idx item peer (db db' : DB) r :
  attempts d0 modules tx_hash_from_parts verify_schnorr version commits left n idx item peer db = (Ok r, db') ->
  attempt_ None idx item peer db = (Ok r, db').
Proof.
  revert n db. induction left as [|left IH]; intros n db; simpl;
    destruct (process_consensus_item_attempt _ _ _ _ _ (commits n) _ _ _ db) as [[r'|[]|] db1] eqn:Ha;
    intros H; simplify_eq; try (by eapply attempt_commit).
  apply attempt_Err in Ha as [-> _]. by eapply IH.
Qed.

(** However often its commit had to be repeated, an item has the effect of one
    attempt that commits. *)
Lemma process_ordered_Ok commits idx item peer (db db' : DB) r :
  process_ commits idx item peer db = (Ok r, db') ->
  peer ∈ ci_status_senders /\ attempt_ None idx item peer db = (Ok r, db').
Proof.
  intros H. apply bind_Ok in H as ([] & s1 & [Hp ->]%rassert_Ok & H%attempts_Ok).
  by apply bool_decide_eq_true in Hp.
Qed.

Lemma attempt_None_total idx item peer (db db' : DB) e :
  attempt_ None idx item peer db ≠ (Err e, db').
Proof. intros [_ H]%attempt_Err. done. Qed.

Lemma attempt_Panic commit idx item peer (db db' : DB) :
  attempt_ commit idx item peer db = (Panic, db') -> db' = db.
Proof. unfold process_consensus_item_attempt. repeat case_match; naive_solver. Qed.

(** Rejections and replays do not depend on the backend. *)
Lemma attempt_no_commit commit idx item peer (db : DB) r :
  attempt_ None idx item peer db = (Ok r, db) ->
  (AcceptedItems db !! idx ≠ None \/ exists e, r = inl e) ->
  attempt_ commit idx item peer db = (Ok r, db).
Proof. unfold process_consensus_item_attempt. repeat case_match; naive_solver. Qed.

Lemma process_ordered_intro commits idx item peer (db db' : DB) r :
  peer ∈ ci_status_senders -> attempt_ (commits 1%nat) idx item peer db = (Ok r, db') ->
  process_ commits idx item peer db = (Ok r, db').
Proof.
  intros Hp Ha. unfold process_ordered_item, rassert. rewrite bool_decide_true by done.
  unfold mbind, M_bind, mret, M_ret. simpl. by rewrite Ha.
Qed.

Lemma attempts_retry commits k left n idx item peer (db : DB) :
  (n + k <= S (n + left))%nat -> (k <= left)%nat ->
  (forall i, (n <= i < n + k)%nat -> commits i = Some SnapshotTooOld) -> commits (n + k)%nat = None ->
  attempts d0 modules tx_hash_from_parts verify_schnorr version commits left n idx item peer db =
  match attempt_ None idx item peer db with
  | (Ok r, db') => (Ok r, db')
  | (_, _) => (Panic, db)
  end.
Proof.
  revert left n. induction k as [|k IH]; intros left n _ Hk Hf Hc.
  - rewrite Nat.add_0_r in Hc. destruct left; simpl; rewrite Hc;
      destruct (process_consensus_item_attempt _ _ _ _ _ None _ _ _ db) as [[|e|] db'] eqn:Ha; try done;
      try (by apply attempt_None_total in Ha); by apply attempt_Panic in Ha as ->.
  - destruct left as [|left]; [lia|]. simpl. rewrite (Hf n) by lia.
    destruct (process_consensus_item_attempt _ _ _ _ _ (Some _) _ _ _ db) as [[r|e|] db'] eqn:Ha.
    + by rewrite (attempt_commit _ _ _ _ _ _ _ Ha).
    + apply attempt_Err in Ha as [-> [= <-]]. apply IH; [lia|lia|intros; apply Hf; lia|].
      by replace (S n + k)%nat with (n + S k)%nat by lia.
    + destruct (process_consensus_item_attempt _ _ _ _ _ None _ _ _ db) as [[r|e|] db1] eqn:Hn.
      * revert Ha Hn. unfold process_consensus_item_attempt. repeat case_match; naive_solver.
      * by apply attempt_None_total in Hn.
      * by apply attempt_Panic in Ha as ->.
Qed.

(** An item whose commit fails because the snapshot is too old is processed
    again on the unchanged database, and when one of the ten attempts can be
    committed the outcome and the database are those of processing the item
    once: retries are not visible. *)
Theorem retry_transparent commits k idx item peer (db : DB) :
  peer ∈ ci_status_senders -> (k < MAX_ITEM_PROCESSING_ATTEMPTS)%nat ->
  (forall i, (1 <= i <= k)%nat -> commits i = Some SnapshotTooOld) -> commits (S k) = None ->
  process_ commits idx item peer db =
  match attempt_ None idx item peer db with
  | (Ok r, db') => (Ok r, db')
  | (_, _) => (Panic, db)
  end.
Proof.
  unfold MAX_ITEM_PROCESSING_ATTEMPTS. intros Hp Hk Hf Hc. unfold process_ordered_item, rassert.
  rewrite bool_decide_true by done. unfold mbind, M_bind, mret, M_ret. simpl fst.
  apply (attempts_retry _ k); [unfold MAX_ITEM_PROCESSING_ATTEMPTS; lia..| |done].
  intros i Hi. apply Hf. lia.
Qed.

(** ** Runs of ordered items *)

Lemma process_items_cons commits idx a l (db db' : DB) n :
  process_items_ commits idx (a :: l) db = (Ok n, db') <->
  exists r db1, process_ (commits 0%nat) idx (accepted_item a) (accepted_peer a) db = (Ok r, db1) /\
    process_items_ (fun i => commits (S i)) (match r with inr _ => idx + 1 | inl _ => idx end) l db1 = (Ok n, db').
Proof. simpl. by rewrite bind_Ok. Qed.

Lemma process_items_app commits idx l1 l2 (db : DB) n db1 :
  process_items_ commits idx l1 db = (Ok n, db1) ->
  process_items_ commits idx (l1 ++ l2) db =
  process_items_ (fun i => commits (length l1 + i)%nat) n l2 db1.
Proof.
  revert commits idx db. induction l1 as [|a l1 IH]; intros commits idx db H.
  { simpl in H. mrun. done. }
  apply process_items_cons in H as (r & db2 & H1 & H2). simpl app. simpl process_items.
  unfold mbind, M_bind. rewrite H1. by rewrite (IH _ _ _ H2).
Qed.

Lemma process_items_prefix commits idx l1 l2 (db db' : DB) n :
  process_items_ commits idx (l1 ++ l2) db = (Ok n, db') ->
  exists db1 n1, process_items_ commits idx l1 db = (Ok n1, db1).
Proof.
  revert commits idx db. induction l1 as [|a l1 IH]; intros commits idx db H; [by exists db, idx|].
  simpl app in H. apply process_items_cons in H as (r & db1 & H1 & H2).
  apply IH in H2 as (db2 & n2 & H2). exists db2, n2. apply process_items_cons. by exists r, db1.
Qed.

(** One item on a database whose session log is [L]. *)
Lemma process_next commits a (db db' : DB) L r :
  log_repr (AcceptedItems db) L ->
  process_ commits (Z.of_nat (length L)) (accepted_item a) (accepted_peer a) db = (Ok r, db') ->
  accepted_peer a ∈ ci_status_senders /\
  attempt_ None (Z.of_nat (length L)) (accepted_item a) (accepted_peer a) db = (Ok r, db') /\
  match r with
  | inl _ => db' = db
  | inr _ => log_repr (AcceptedItems db') (L ++ [a])
  end.
Proof.
  intros HL [Hp Ha]%process_ordered_Ok. split; [done|]. split; [done|]. destruct r as [e|[]].
  - by apply attempt_inl in Ha.
  - apply attempt_inr in Ha as [[Hs _]|(_ & _ & dbtx & Ht & Hb)].
    + rewrite (log_repr_lookup _ L), lookup_ge_None_2 in Hs by done. done.
    + apply process_with_db_tables in Ht as [Ht _]. apply check_balance_sheet_tables in Hb as [Hb _].
      rewrite Hb. simpl. rewrite Ht. destruct a. by apply log_repr_push.
Qed.

(** What a run accepts, in order. *)
Inductive accepts : DB -> list (AcceptedItem I O C) -> list (AcceptedItem I O C) -> DB -> Prop :=
| accepts_nil db L : accepts db L [] db
| accepts_cons db L a l db1 db' :
    accepted_peer a ∈ ci_status_senders ->
    attempt_ None (Z.of_nat (length L)) (accepted_item a) (accepted_peer a) db = (Ok (inr tt), db1) ->
    log_repr (AcceptedItems db1) (L ++ [a]) ->
    accepts db1 (L ++ [a]) l db' ->
    accepts db L (a :: l) db'.

Lemma process_items_accepts commits l (db db' : DB) L n :
  log_repr (AcceptedItems db) L ->
  process_items_ commits (Z.of_nat (length L)) l db = (Ok n, db') ->
  exists L', accepts db L L' db' /\ L' `sublist_of` l /\ n = Z.of_nat (length (L ++ L')).
Proof.
  revert commits db L. induction l as [|a l IH]; intros commits db L HL H.
  { simpl in H. mrun. exists []. rewrite app_nil_r. split_and!; [constructor|done|done]. }
  apply process_items_cons in H as (r & db1 & H1 & H2).
  destruct (process_next _ _ _ _ _ _ HL H1) as (Hp & Ha & Hr). destruct r as [e|[]].
  - subst db1. apply IH in H2 as (L' & ? & ? & ?); [|done]. exists L'. split_and!; [done|by constructor|done].
  - replace (Z.of_nat (length L) + 1) with (Z.of_nat (length (L ++ [a]))) in H2 by (rewrite length_app; simpl; lia).
    apply IH in H2 as (L' & H2 & H3 & H4); [|done]. exists (a :: L'). split_and!.
    + by eapply accepts_cons.
    + by constructor.
    + by rewrite <- app_assoc in H4.
Qed.

Lemma accepts_log (db db' : DB) L L' :
  log_repr (AcceptedItems db) L -> accepts db L L' db' -> log_repr (AcceptedItems db') (L ++ L').
Proof.
  intros HL H. induction H as [db L|db L a l db1 db' _ _ Ha H IH]; [by rewrite app_nil_r|].
  replace (L ++ a :: l) with ((L ++ [a]) ++ l) by by rewrite <- app_assoc. by apply IH.
Qed.

Lemma accepts_app (db db1 db' : DB) L l1 l2 :
  accepts db L l1 db1 -> accepts db1 (L ++ l1) l2 db' -> accepts db L (l1 ++ l2) db'.
Proof.
  induction 1 as [db L|db L a l db1 db2 Hp Hd Ha H IH]; intros H2; [by rewrite app_nil_r in H2|].
  simpl. eapply accepts_cons; [done|exact Hd|done|]. apply IH. by rewrite <- app_assoc.
Qed.

(** The accepted items alone have the same effect. *)
Lemma accepts_process (db db' : DB) L L' :
  accepts db L L' db' ->
  process_items_ (fun _ _ => None) (Z.of_nat (length L)) L' db = (Ok (Z.of_nat (length (L ++ L'))), db').
Proof.
  induction 1 as [db L|db L a l db1 db' Hp Hd Ha H IH]; [by rewrite app_nil_r|].
  apply process_items_cons. exists (inr tt), db1. split; [by apply process_ordered_intro|].
  replace (Z.of_nat (length L) + 1) with (Z.of_nat (length (L ++ [a]))) by (rewrite length_app; simpl; lia).
  by rewrite IH, <- app_assoc.
Qed.

(** ** Replaying a session after a crash *)

Lemma replay_rejected commits a L L' (db db1 : DB) e :
  log_repr (AcceptedItems db) L -> accepts db L L' db1 ->
  accepted_peer a ∈ ci_status_senders ->
  attempt_ None (Z.of_nat (length L)) (accepted_item a) (accepted_peer a) db = (Ok (inl e), db) ->
  exists e', process_ commits (Z.of_nat (length L)) (accepted_item a) (accepted_peer a) db1 = (Ok (inl e'), db1).
Proof.
  intros HL Hacc Hp Ha. pose proof (accepts_log _ _ _ _ HL Hacc) as HL1.
  destruct Hacc as [db L|db L b l db2 db1 Hpb Hb HLb Hacc].
  - exists e. apply process_ordered_intro; [done|]. apply attempt_no_commit; [done|]. right. by exists e.
  - exists DiscardedPreviously. apply process_ordered_intro; [done|].
    unfold process_consensus_item_attempt. rewrite (log_repr_lookup _ _ _ HL1), lookup_app_r, Nat.sub_diag by lia.
    simpl. rewrite decide_False; [done|]. intros [Hi Hq]. rewrite Hi, Hq in Hb. congruence.
Qed.

Lemma replay_accepted commits a L L' (db1 : DB) :
  log_repr (AcceptedItems db1) (L ++ a :: L') -> accepted_peer a ∈ ci_status_senders ->
  process_ commits (Z.of_nat (length L)) (accepted_item a) (accepted_peer a) db1 = (Ok (inr tt), db1).
Proof.
  intros HL Hp. apply process_ordered_intro; [done|]. unfold process_consensus_item_attempt.
  rewrite (log_repr_lookup _ _ _ HL), lookup_app_r, Nat.sub_diag by lia. simpl. by rewrite decide_True.
Qed.

Lemma process_items_replay commits commits' l (db db1 : DB) L n :
  log_repr (AcceptedItems db) L ->
  process_items_ commits (Z.of_nat (length L)) l db = (Ok n, db1) ->
  process_items_ commits' (Z.of_nat (length L)) l db1 = (Ok n, db1).
Proof.
  revert commits commits' db L. induction l as [|a l IH]; intros commits commits' db L HL H.
  { simpl in *. mrun. done. }
  apply process_items_cons in H as (r & db2 & H1 & H2).
  destruct (process_next _ _ _ _ _ _ HL H1) as (Hp & Ha & Hr). apply process_items_cons.
  destruct r as [e|[]].
  - subst db2. pose proof (process_items_accepts _ _ _ _ _ _ HL H2) as (L' & Hacc & _).
    destruct (replay_rejected (commits' 0%nat) a L L' db db1 e HL Hacc Hp Ha) as [e' He].
    exists (inl e'), db1. split; [done|]. by eapply IH.
  - replace (Z.of_nat (length L) + 1) with (Z.of_nat (length (L ++ [a]))) in H2 |- * by (rewrite length_app; simpl; lia).
    pose proof (process_items_accepts _ _ _ _ _ _ Hr H2) as (L' & Hacc & _).
    apply accepts_log in Hacc; [|done]. rewrite <- app_assoc in Hacc.
    exists (inr tt), db1. split; [by eapply replay_accepted|]. by eapply IH.
Qed.

(** C4: crash recovery.  A guardian that has processed the ordered items [l]
    of a session and is restarted is handed [l] again, from item index zero on
    the database it had, followed by the items [l'] that had not been processed.
    The replay of [l] is neither applied a second time nor rejected, whatever
    the backend answers: the guardian ends up in exactly the state, and at the
    item index, of one that was never interrupted. *)
Theorem crash_replay l l' commits (db db1 : DB) n :
  AcceptedItems db = ∅ ->
  process_items_ commits 0 l db = (Ok n, db1) ->
  forall commits',
  process_items_ commits' 0 (l ++ l') db1 = process_items_ (fun i => commits' (length l + i)%nat) n l' db1 /\
  process_items_ commits 0 (l ++ l') db = process_items_ (fun i => commits (length l + i)%nat) n l' db1.
Proof.
  intros Hdb Hrun commits'. split; [|by apply process_items_app].
  apply process_items_app. apply (process_items_replay commits commits' l db db1 [] n); [|done].
  rewrite Hdb. apply log_repr_empty.
Qed.
End item_lemmas.

(** ** Solvency

    For a registry of modules that keep the promises of [Audited]. *)
Section solvency.
Context {D I O C E : Type} `{!EqDecision I, !EqDecision O, !EqDecision C}.
Context (d0 : D) (reg : gmap Z (AuditedModule D I O C E)).
Context (tx_hash_from_parts : list (Dyn I) -> list (Dyn O) -> Z -> Z).
Context (verify_schnorr : Z -> Z -> Z -> bool).
Context (version : CoreConsensusVersion) (ci_status_senders : gset Z).
Abbreviation DB := (CoreDb D I O C).
Abbreviation AM := (AuditedModule D I O C E).
Abbreviation mods := (modules reg).
Abbreviation with_tx := (process_consensus_item_with_db_transaction d0 mods tx_hash_from_parts verify_schnorr version).
Abbreviation attempt_ := (process_consensus_item_attempt d0 mods tx_hash_from_parts verify_schnorr version).
Abbreviation process_ := (process_ordered_item d0 mods tx_hash_from_parts verify_schnorr version ci_status_senders).

(** The values in an item are in the range of their types, as decoding
    guarantees. *)
Definition consensus_item_ok (item : ConsensusItem I O C) : Prop :=
  match item with
  | TransactionItem tx => Forall (dyn_input_ok reg) (inputs tx) /\ Forall (dyn_output_ok reg) (outputs tx)
  | ModuleItem mi => forall am, reg !! module_instance_id mi = Some am -> item_ok (m := am_module am) (value mi)
  | DefaultItem _ _ => True
  end.

Definition net_of (l : list (Z * AM)) (s : gmap Z D) : Z :=
  sum_list ((fun e => net (m := am_module e.2) (module_db d0 s e.1)) <$> l).
Definition gross_of (l : list (Z * AM)) (s : gmap Z D) : Z :=
  sum_list ((fun e => gross (m := am_module e.2) (module_db d0 s e.1)) <$> l).

(** [s] and [s'] have the same balance sheet. *)
Definition same_books (s s' : gmap Z D) : Prop :=
  forall id am, reg !! id = Some am ->
    net (m := am_module am) (module_db d0 s' id) = net (m := am_module am) (module_db d0 s id) /\
    gross (m := am_module am) (module_db d0 s' id) = gross (m := am_module am) (module_db d0 s id).

Lemma same_books_of l s s' :
  same_books s s' -> (forall id am, (id, am) ∈ l -> reg !! id = Some am) ->
  net_of l s' = net_of l s /\ gross_of l s' = gross_of l s.
Proof.
  intros Hs Hl. unfold net_of, gross_of.
  split; f_equal; apply list_fmap_ext; intros i [id am] Hi%list_elem_of_lookup_2; apply (Hs id am); auto.
Qed.

Lemma gross_of_nonneg l s :
  modules_inv d0 reg s -> (forall id am, (id, am) ∈ l -> reg !! id = Some am) -> 0 <= gross_of l s.
Proof.
  intros Hs Hl. induction l as [|[id am] l IH]; [done|]. unfold gross_of in *. rewrite fmap_cons, sum_list_cons.
  assert (0 <= gross (m := am_module am) (module_db d0 s id)) by (apply gross_nonneg, Hs, Hl; left).
  assert (0 <= sum_list ((fun e => gross (m := am_module e.2) (module_db d0 s e.1)) <$> l)); [|simpl; lia].
  apply IH. intros. apply Hl. by right.
Qed.

Lemma audit_modules_list l s :
  NoDup l.*1 -> (forall id am, (id, am) ∈ l -> reg !! id = Some am) ->
  modules_inv d0 reg s -> gross_of l s <= i64_max ->
  exists xs s', audit_modules d0 (prod_map id am_module <$> l) s = (Ok xs, s') /\
    modules_inv d0 reg s' /\ same_books s s' /\ sum_list xs = net_of l s /\ sum_abs xs <= gross_of l s.
Proof.
  revert s. induction l as [|[id am] l IH]; intros s Hnd Hl Hs Hg.
  { exists [], s. done. }
  inversion Hnd as [|? ? Hid Hnd']; subst.
  assert (reg !! id = Some am) as Ham by (apply Hl; left).
  assert (forall i a, (i, a) ∈ l -> reg !! i = Some a) as Hl' by (intros; apply Hl; by right).
  pose proof (gross_of_nonneg l s Hs Hl') as Hg0. pose proof (gross_nonneg _ (Hs _ _ Ham)) as Hgm.
  assert (gross_of ((id, am) :: l) s = gross (m := am_module am) (module_db d0 s id) + gross_of l s) as Hgs by done.
  destruct (audited_audit (m := am_module am) (module_db d0 s id)) as (xs & d & Ha & Hd & Hsum & Habs & Hn & Hgr);
    [by apply Hs|lia|].
  assert (same_books s (<[id := d]> s)) as Hsb.
  { intros id' am' Ham'. rewrite module_db_insert. case_decide; [|done]. subst id'. simplify_eq. done. }
  destruct (same_books_of l _ _ Hsb Hl') as [Hnl Hgl].
  destruct (IH (<[id := d]> s)) as (ys & s' & Hy & Hi' & Hsb' & Hsy & Hay); [done|done| |lia|].
  { by apply (modules_inv_insert _ _ _ _ am). }
  exists (xs ++ ys), s'. rewrite fmap_cons. simpl.
  unfold mbind, M_bind, mret, M_ret.
  rewrite (proj2 (with_module_Ok d0 id (audit (am_module am)) s xs (<[id := d]> s))) by by exists d.
  simpl in Hy. rewrite Hy. rewrite sum_list_app, sum_abs_app.
  split_and!; [done|done| |unfold net_of in *; rewrite fmap_cons, sum_list_cons; simpl; lia|lia].
  intros id' am' H'. destruct (Hsb' _ _ H'), (Hsb _ _ H'). split; congruence.
Qed.

Lemma audit_balanced s :
  modules_inv d0 reg s -> total_gross d0 reg s <= i64_max ->
  exists xs s', audit_modules d0 (btree_iter mods) s = (Ok xs, s') /\ modules_inv d0 reg s' /\
    total_net d0 reg s' = total_net d0 reg s /\ calculate_net_assets xs = Some (total_net d0 reg s).
Proof.
  intros Hs Hg. pose proof (btree_iter_perm mods) as Hp. unfold modules in Hp at 2.
  rewrite map_to_list_fmap in Hp. apply Permutation_map_inv in Hp as (l & Hl & Hperm).
  assert (forall id am, (id, am) ∈ l -> reg !! id = Some am) as Hin.
  { intros id am H. apply elem_of_map_to_list. by rewrite Hperm. }
  assert (forall s0, net_of l s0 = total_net d0 reg s0) as Hnet.
  { intros s0. unfold net_of, total_net. apply sum_list_perm. by rewrite Hperm. }
  assert (gross_of l s = total_gross d0 reg s) as Hgr.
  { unfold gross_of, total_gross. apply sum_list_perm. by rewrite Hperm. }
  destruct (audit_modules_list l s) as (xs & s' & Ha & Hs' & Hsb & Hsum & Habs); [|done|done|lia|].
  { eapply NoDup_Permutation_proper; [|apply (NoDup_fst_map_to_list reg)]. by rewrite Hperm. }
  exists xs, s'. rewrite Hl. split_and!; [exact Ha|done| |].
  - rewrite <- !Hnet. by apply same_books_of.
  - rewrite <- Hnet, <- Hsum. apply calculate_net_assets_exact. lia.
Qed.

Lemma check_balance_sheet_ok (db : DB) :
  modules_inv d0 reg (modules_db db) -> 0 <= total_net d0 reg (modules_db db) ->
  total_gross d0 reg (modules_db db) <= i64_max ->
  exists db', check_balance_sheet d0 mods db = (Ok tt, db') /\ modules_inv d0 reg (modules_db db') /\
    total_net d0 reg (modules_db db') = total_net d0 reg (modules_db db).
Proof.
  intros Hs Hn Hg. destruct (audit_balanced _ Hs Hg) as (xs & s' & Ha & Hs' & Hn' & Hc).
  unfold check_balance_sheet, map_err, on_modules, zoom, mbind, M_bind. rewrite Ha, Hc. simpl.
  rewrite (proj2 (Z.leb_le _ _) Hn). eexists. split; [reflexivity|]. done.
Qed.

(** An item that is accepted does not lower the net assets. *)
Lemma with_tx_net item peer (db dbtx : DB) :
  modules_inv d0 reg (modules_db db) -> consensus_item_ok item -> with_tx item peer db = (Ok tt, dbtx) ->
  modules_inv d0 reg (modules_db dbtx) /\ total_net d0 reg (modules_db db) <= total_net d0 reg (modules_db dbtx).
Proof.
  intros Hs Hok H. destruct item as [tx|mi|]; simpl in *; [| |mrun].
  - apply bind_Ok in H as (o & s1 & [-> ->]%get_value_Ok & H). simpl in H.
    destruct (AcceptedTransactions db !! _); [mrun|].
    apply bind_Ok in H as ([] & s1 & H1 & H). apply map_err_Ok, on_modules_Ok in H1 as (s & H1 & <- & _).
    apply process_transaction_net in H1; [|tauto..]. dbrun. done.
  - apply bind_Ok in H as (m & s1 & H1 & H).
    apply on_modules_Ok in H1 as (s & [-> (am & Ham & ->)]%get_expect_Ok & H1 & _).
    apply map_err_Ok, on_modules_Ok in H as (s & (d & Hd & ->)%with_module_Ok & H2 & _).
    rewrite H1 in Hd, H2. rewrite H2.
    destruct (audited_consensus_item _ _ _ _ (Hs _ _ Ham) (Hok _ Ham) Hd) as [Hi Hn].
    split; [by apply (modules_inv_insert _ _ _ _ am)|]. rewrite (total_net_insert _ _ _ _ _ _ Ham). lia.
Qed.

(** ** Histories

    The committed operations of a guardian: items at the next index, units of
    the atomic broadcast, and completed sessions.  The trace has the accepted
    items.  Items are committed while the volume of the books is in the range
    of [i64]. *)
Definition CoreDb_empty : DB :=
  {| modules_db := ∅; AcceptedItems := ∅; AcceptedTransactions := ∅; SignedSessionOutcomes := ∅; AlephUnits := ∅ |}.

Inductive history : list (AcceptedItem I O C) -> DB -> Prop :=
| history_init : history [] CoreDb_empty
| history_item trace db dbtx commits a db' :
    history trace db -> consensus_item_ok (accepted_item a) ->
    with_tx (accepted_item a) (accepted_peer a) db = (Ok tt, dbtx) ->
    total_gross d0 reg (modules_db dbtx) <= i64_max ->
    process_ commits (Z.of_nat (length (pending_accepted_items db))) (accepted_item a) (accepted_peer a) db
      = (Ok (inr tt), db') ->
    history (trace ++ [a]) db'
| history_unit trace db units_index data next db' :
    history trace db -> BackupWriter_append units_index data db = (Ok next, db') -> history trace db'
| history_session trace db commit outcome db' :
    history trace db -> items (session_outcome outcome) = pending_accepted_items db ->
    complete_session commit (get_finished_session_count db) outcome db = (Ok tt, db') ->
    history trace db'.

(** An item the modules accept passes the balance sheet. *)
Lemma accept_item_solvent idx item peer (db dbtx : DB) :
  modules_inv d0 reg (modules_db db) -> 0 <= total_net d0 reg (modules_db db) ->
  consensus_item_ok item -> AcceptedItems db !! idx = None ->
  with_tx item peer db = (Ok tt, dbtx) -> total_gross d0 reg (modules_db dbtx) <= i64_max ->
  exists db', attempt_ None idx item peer db = (Ok (inr tt), db') /\
    modules_inv d0 reg (modules_db db') /\
    total_net d0 reg (modules_db db) <= total_net d0 reg (modules_db db').
Proof.
  intros Hs Hn Hok Hidx Htx Hg. destruct (with_tx_net _ _ _ _ Hs Hok Htx) as [Hs1 Hn1].
  destruct (check_balance_sheet_ok
    (upd AcceptedItemKey <[idx := {| accepted_item := item; accepted_peer := peer |}]> dbtx))
    as (db' & Hc & Hs' & Hn'); [done|simpl; lia|done|].
  exists db'. split_and!; [|done|simpl in Hn'; lia].
  unfold process_consensus_item_attempt. rewrite Hidx, Htx. unfold mbind at 1, M_bind at 1. simpl fst.
  unfold insert_entry. by rewrite Hc.
Qed.

Lemma complete_session_Ok commit k outcome (db db' : DB) :
  complete_session commit k outcome db = (Ok tt, db') <->
  commit = None /\ SignedSessionOutcomes db !! k = None /\
  db' = {| modules_db := modules_db db; AcceptedItems := ∅; AcceptedTransactions := AcceptedTransactions db;
           SignedSessionOutcomes := <[k := outcome]> (SignedSessionOutcomes db); AlephUnits := ∅ |}.
Proof.
  unfold complete_session, complete_session_tx, remove_by_prefix, insert_entry, mbind, M_bind. simpl.
  rewrite !filter_all_removed.
  destruct (SignedSessionOutcomes db !! k), commit; unfold panic, mret, M_ret;
    (split; [intros [=]; done|intros (? & ? & ->); done]).
Qed.

Definition accepted_txid (a : AcceptedItem I O C) : option Z :=
  match accepted_item a with
  | TransactionItem tx => Some (tx_hash tx_hash_from_parts tx)
  | _ => None
  end.
Definition txids (trace : list (AcceptedItem I O C)) : list Z := omap accepted_txid trace.

Record history_inv (trace : list (AcceptedItem I O C)) (db : DB) : Prop := {
  hist_log : log_repr (AcceptedItems db) (pending_accepted_items db);
  hist_sessions : exists outs, log_repr (SignedSessionOutcomes db) outs /\
    trace = mjoin ((fun s => items (session_outcome s)) <$> outs) ++ pending_accepted_items db;
  hist_txs : forall id, is_Some (AcceptedTransactions db !! id) <-> id ∈ txids trace;
  hist_nodup : NoDup (txids trace);
  hist_known : Forall (fun a => forall id, is_Some (module_items tx_hash_from_parts id a)) trace;
  hist_modules : modules_inv d0 reg (modules_db db);
  hist_net : 0 <= total_net d0 reg (modules_db db);
}.

Lemma log_repr_pending (db : DB) L : log_repr (AcceptedItems db) L -> pending_accepted_items db = L.
Proof. apply log_repr_iter. Qed.

(** What one accepted item adds to the transactions and the history. *)
Lemma with_tx_trace a (db dbtx : DB) trace :
  (forall id, is_Some (AcceptedTransactions db !! id) <-> id ∈ txids trace) -> NoDup (txids trace) ->
  with_tx (accepted_item a) (accepted_peer a) db = (Ok tt, dbtx) ->
  (forall id, is_Some (AcceptedTransactions dbtx !! id) <-> id ∈ txids (trace ++ [a])) /\
  NoDup (txids (trace ++ [a])) /\ (forall id, is_Some (module_items tx_hash_from_parts id a)).
Proof.
  intros Hd Hnd Htx. pose proof (process_with_db_tables _ _ _ _ _ _ _ _ _ Htx) as (_ & _ & _ & Ht).
  unfold txids in *. rewrite omap_app. unfold accepted_txid at 2 4, module_items. simpl.
  destruct (accepted_item a) as [tx|mi|]; simpl in *; [| |mrun].
  - destruct Ht as [Hnew ->]. split_and!; [| |done].
    + intros id. rewrite elem_of_app, list_elem_of_singleton, <- Hd, lookup_insert_is_Some'. naive_solver.
    + apply NoDup_app. split_and!; [done| |apply NoDup_singleton].
      intros id Hid ->%list_elem_of_singleton. apply Hd in Hid as [? ?]. congruence.
  - rewrite app_nil_r, Ht. done.
Qed.

Lemma history_item_inv trace (db dbtx db' : DB) commits a :
  history_inv trace db -> consensus_item_ok (accepted_item a) ->
  with_tx (accepted_item a) (accepted_peer a) db = (Ok tt, dbtx) ->
  total_gross d0 reg (modules_db dbtx) <= i64_max ->
  process_ commits (Z.of_nat (length (pending_accepted_items db))) (accepted_item a) (accepted_peer a) db
    = (Ok (inr tt), db') ->
  history_inv (trace ++ [a]) db'.
Proof.
  intros [Hlog (outs & Houts & Htr) Htxs Hnd Hk Hs Hn] Hok Htx Hg Hp.
  pose proof (process_next _ _ _ _ _ _ _ _ _ _ _ _ Hlog Hp) as (_ & Ha & Hlog').
  assert (AcceptedItems db !! Z.of_nat (length (pending_accepted_items db)) = None) as Hnone.
  { rewrite (log_repr_lookup _ _ _ Hlog). by apply lookup_ge_None_2. }
  destruct (accept_item_solvent _ _ _ _ _ Hs Hn Hok Hnone Htx Hg) as (db1 & Ha1 & Hs' & Hn').
  rewrite Ha in Ha1. injection Ha1 as <-.
  apply attempt_inr in Ha as [[Hsome _]|(_ & _ & dbtx' & Htx' & Hb)]; [congruence|].
  rewrite Htx in Htx'. injection Htx' as <-.
  destruct (with_tx_trace _ _ _ _ Htxs Hnd Htx) as (Ht1 & Ht2 & Ht3).
  apply process_with_db_tables in Htx as (_ & Htx & _). apply check_balance_sheet_tables in Hb as (_ & Hb1 & Hb2 & _).
  simpl in Hb1, Hb2.
  split; [by rewrite (log_repr_pending _ _ Hlog')| | | | |done|lia].
  - exists outs. rewrite (log_repr_pending _ _ Hlog'), Hb2, Htx. split; [done|]. by rewrite Htr, <- app_assoc.
  - intros id. rewrite Hb1. apply Ht1.
  - exact Ht2.
  - apply Forall_app. split; [done|]. by apply Forall_singleton.
Qed.

Lemma history_session_inv trace (db db' : DB) commit outcome :
  history_inv trace db -> items (session_outcome outcome) = pending_accepted_items db ->
  complete_session commit (get_finished_session_count db) outcome db = (Ok tt, db') ->
  history_inv trace db'.
Proof.
  intros [Hlog (outs & Houts & Htr) Htxs Hnd Hk Hs Hn] Hit (_ & _ & ->)%complete_session_Ok.
  assert (pending_accepted_items {| modules_db := modules_db db; AcceptedItems := ∅;
    AcceptedTransactions := AcceptedTransactions db;
    SignedSessionOutcomes := <[get_finished_session_count db := outcome]> (SignedSessionOutcomes db);
    AlephUnits := ∅ |} = []) as Hp by done.
  split; rewrite ?Hp; simpl; try done; [apply log_repr_empty|].
  exists (outs ++ [outcome]). split; [exact (log_repr_append _ outs [outcome] Houts)|].
  rewrite fmap_app, join_app. simpl. by rewrite Hit, !app_nil_r, Htr.
Qed.

Context (Hinit : modules_inv d0 reg ∅) (Hinit_net : 0 <= total_net d0 reg ∅).

Lemma history_invariant trace db : history trace db -> history_inv trace db.
Proof using Hinit Hinit_net.
  induction 1 as [|trace db dbtx commits a db' _ IH Hok Htx Hg Hp|trace db k data next db' _ IH Hu|trace db commit outcome db' _ IH Hit Hc].
  - split; [apply log_repr_empty|exists []; split; [apply log_repr_empty|done]| |apply NoDup_nil_2|by constructor|done|done].
    intros id. split; [by intros []|by intros ?%not_elem_of_nil].
  - by eapply history_item_inv.
  - unfold BackupWriter_append in Hu. dbrun. by destruct IH; split.
  - by eapply history_session_inv.
Qed.

(** C1: the federation stays solvent.  After any history of a guardian the net
    assets recorded by its modules are not negative, and whatever item comes
    next, if the modules accept it then the balance sheet that is checked
    before the commit cannot fail: the item is committed, nothing panics, and
    the net assets have not decreased.  The volume of the books has to be in
    the range of [i64]. *)
Theorem solvency trace db idx item peer dbtx :
  history trace db -> consensus_item_ok item -> AcceptedItems db !! idx = None ->
  with_tx item peer db = (Ok tt, dbtx) -> total_gross d0 reg (modules_db dbtx) <= i64_max ->
  0 <= total_net d0 reg (modules_db db) /\
  exists db', attempt_ None idx item peer db = (Ok (inr tt), db') /\
    total_net d0 reg (modules_db db) <= total_net d0 reg (modules_db db').
Proof using Hinit Hinit_net.
  intros [_ _ _ _ _ Hs Hn]%history_invariant Hok Hidx Htx Hg. split; [done|].
  destruct (accept_item_solvent _ _ _ _ _ Hs Hn Hok Hidx Htx Hg) as (db' & Ha & _ & Hle). by exists db'.
Qed.

(** C3: a transaction is accepted at most once.  In the whole history of a
    guardian, across sessions, no two accepted transactions have the same id,
    and submitting one again is rejected without a trace in the database. *)
Theorem transaction_once trace db :
  history trace db ->
  NoDup (txids trace) /\
  forall tx idx peer commit, tx_hash tx_hash_from_parts tx ∈ txids trace -> AcceptedItems db !! idx = None ->
    attempt_ commit idx (TransactionItem tx) peer db = (Ok (inl AlreadyAccepted), db).
Proof using Hinit Hinit_net.
  intros [_ _ Htx Hnd _ _ _]%history_invariant. split; [done|].
  intros tx idx peer commit [ids Hids]%Htx Hidx. unfold process_consensus_item_attempt. rewrite Hidx.
  unfold process_consensus_item_with_db_transaction, get_value, mbind, M_bind. simpl. by rewrite Hids.
Qed.

(** The history a migration of module [id] reads is complete: it has the
    inputs, outputs and consensus items of the module in all items accepted
    since the start of the federation, once each and in order, and no item is
    of an unknown kind. *)
Theorem module_history_complete trace db id :
  history trace db ->
  exists ls, Forall2 (fun a l => module_items tx_hash_from_parts id a = Some l) trace ls /\
    get_module_history_stream tx_hash_from_parts id db = Some (mjoin ls).
Proof using Hinit Hinit_net.
  intros [_ (outs & Houts & Htr) _ _ Hk _ _]%history_invariant.
  assert (exists ls, mapM (module_items tx_hash_from_parts id) trace = Some ls) as [ls Hls].
  { apply mapM_is_Some. eapply Forall_impl; [exact Hk|]. intros a Ha. apply Ha. }
  exists ls. split; [by apply mapM_Some_1|].
  unfold get_module_history_stream. rewrite (log_repr_iter _ _ Houts), <- Htr. by rewrite Hls.
Qed.

(** Sessions are numbered without gaps.  The next session always has the
    number of finished sessions as its index, completing it cannot overwrite an
    outcome, keeps every earlier one, starts an empty session and increases
    the number of finished sessions by one. *)
Theorem session_log trace db outcome :
  history trace db ->
  exists outs db', log_repr (SignedSessionOutcomes db) outs /\
    get_finished_session_count db = Z.of_nat (length outs) /\
    complete_session None (get_finished_session_count db) outcome db = (Ok tt, db') /\
    log_repr (SignedSessionOutcomes db') (outs ++ [outcome]) /\
    get_finished_session_count db' = get_finished_session_count db + 1 /\
    pending_accepted_items db' = [] /\ is_recovery db' = false /\ modules_db db' = modules_db db.
Proof using Hinit Hinit_net.
  intros [_ (outs & Houts & _) _ _ _ _ _]%history_invariant.
  pose proof (next_index_log _ _ (log_repr_length _ _ Houts)) as Hc.
  pose proof (log_repr_append _ outs [outcome] Houts) as Ho'. simpl in Ho'.
  exists outs. eexists. split; [done|]. split; [done|]. split.
  { apply complete_session_Ok. split; [done|]. split; [apply next_index_fresh|reflexivity]. }
  simpl. split; [done|]. split_and!; [|done|done|done].
  unfold get_finished_session_count. simpl.
  rewrite (next_index_log _ _ (log_repr_length _ _ Ho')), length_app, Hc. simpl. lia.
Qed.
End solvency.
