(* ===== verification/DefaultFederation.v ===== *)
(** * The default federation

    The registry of a federation with the modules it is set up with by default,
    lightning, mint and wallet in their first versions ([LnServer],
    [MintServer], [WalletServer]), behind the type-erased interface of the
    engine: what the federation owes is covered by the bitcoin of its wallet. *)

From S2P Require Import Prelude Encoding Db Amounts Peers Votes ServerModule Bitcoin Transaction.
From S2P Require Import MintServer LnServer WalletLedger WalletServer Engine.

(** ** The values of all modules *)

Record GuardianDb := { guardian_ln : LnDb; guardian_mint : MintDb; guardian_wallet : WalletDb }.
Inductive GuardianInput := GLnIn (i : LightningInput) | GMintIn (i : MintInput) | GWalletIn (i : WalletInput).
Inductive GuardianOutput := GLnOut (o : LightningOutput) | GMintOut (o : MintOutput) | GWalletOut (o : WalletOutput).
Inductive GuardianItem := GLnItem (c : LightningConsensusItem) | GMintItem (c : MintConsensusItem) | GWalletItem (c : WalletConsensusItem).
Inductive GuardianError := GLnErr (e : LightningError) | GMintErr (e : MintError) | GWalletErr (e : WalletError).

Definition GuardianDb_empty : GuardianDb :=
  {| guardian_ln := LnDb_empty; guardian_mint := MintDb_empty; guardian_wallet := WalletDb_empty |}.

Local Ltac eq_dec := solve_decision.
#[export] Instance note_eq_dec : EqDecision Note.
Proof. eq_dec. Defined.
#[export] Instance mint_input_eq_dec : EqDecision MintInput.
Proof. eq_dec. Defined.
#[export] Instance mint_output_eq_dec : EqDecision MintOutput.
Proof. eq_dec. Defined.
#[export] Instance mint_item_eq_dec : EqDecision MintConsensusItem.
Proof. eq_dec. Defined.
#[export] Instance version_eq_dec : EqDecision ModuleConsensusVersion.
Proof. eq_dec. Defined.
#[export] Instance ln_input_eq_dec : EqDecision LightningInput.
Proof. eq_dec. Defined.
#[export] Instance ln_incoming_eq_dec : EqDecision IncomingContract.
Proof. eq_dec. Defined.
#[export] Instance ln_outgoing_eq_dec : EqDecision OutgoingContract.
Proof. eq_dec. Defined.
#[export] Instance ln_contract_eq_dec : EqDecision Contract.
Proof. eq_dec. Defined.
#[export] Instance ln_offer_eq_dec : EqDecision IncomingContractOffer.
Proof. eq_dec. Defined.
#[export] Instance ln_output_eq_dec : EqDecision LightningOutput.
Proof. eq_dec. Defined.
#[export] Instance ln_item_eq_dec : EqDecision LightningConsensusItem.
Proof. eq_dec. Defined.
#[export] Instance tx_in_eq_dec : EqDecision TxIn.
Proof. eq_dec. Defined.
#[export] Instance btc_tx_eq_dec : EqDecision BtcTransaction.
Proof. eq_dec. Defined.
#[export] Instance peg_in_proof_eq_dec : EqDecision PegInProof.
Proof. eq_dec. Defined.
#[export] Instance peg_out_fees_eq_dec : EqDecision PegOutFees.
Proof. eq_dec. Defined.
#[export] Instance peg_out_eq_dec : EqDecision PegOut.
Proof. eq_dec. Defined.
#[export] Instance rbf_eq_dec : EqDecision Rbf.
Proof. eq_dec. Defined.
#[export] Instance wallet_input_eq_dec : EqDecision WalletInput.
Proof. eq_dec. Defined.
#[export] Instance wallet_output_eq_dec : EqDecision WalletOutput.
Proof. eq_dec. Defined.
#[export] Instance wallet_item_eq_dec : EqDecision WalletConsensusItem.
Proof. eq_dec. Defined.
#[export] Instance guardian_input_eq_dec : EqDecision GuardianInput.
Proof. eq_dec. Defined.
#[export] Instance guardian_output_eq_dec : EqDecision GuardianOutput.
Proof. eq_dec. Defined.
#[export] Instance guardian_item_eq_dec : EqDecision GuardianItem.
Proof. eq_dec. Defined.

(** ** The registry *)
Section registry.
Context (ln : ServerModule LnDb LightningInput LightningOutput LightningConsensusItem LightningError).
Context (mint : ServerModule MintDb MintInput MintOutput MintConsensusItem MintError).
Context (wallet : ServerModule WalletDb WalletInput WalletOutput WalletConsensusItem WalletError).
Context (ln_audited : Audited ln) (mint_audited : Audited mint) (wallet_audited : Audited wallet).
Abbreviation DynModule := (ServerModule GuardianDb GuardianInput GuardianOutput GuardianItem GuardianError).
Abbreviation Entry := (AuditedModule GuardianDb GuardianInput GuardianOutput GuardianItem GuardianError).

Definition default_ln : DynModule :=
  dyn_module ln guardian_ln (fun d s => {| guardian_ln := d; guardian_mint := guardian_mint s; guardian_wallet := guardian_wallet s |})
    (fun i => match i with GLnIn i => Some i | _ => None end) (fun o => match o with GLnOut o => Some o | _ => None end)
    (fun c => match c with GLnItem c => Some c | _ => None end) GLnErr.
Definition default_mint : DynModule :=
  dyn_module mint guardian_mint (fun d s => {| guardian_ln := guardian_ln s; guardian_mint := d; guardian_wallet := guardian_wallet s |})
    (fun i => match i with GMintIn i => Some i | _ => None end) (fun o => match o with GMintOut o => Some o | _ => None end)
    (fun c => match c with GMintItem c => Some c | _ => None end) GMintErr.
Definition default_wallet : DynModule :=
  dyn_module wallet guardian_wallet (fun d s => {| guardian_ln := guardian_ln s; guardian_mint := guardian_mint s; guardian_wallet := d |})
    (fun i => match i with GWalletIn i => Some i | _ => None end) (fun o => match o with GWalletOut o => Some o | _ => None end)
    (fun c => match c with GWalletItem c => Some c | _ => None end) GWalletErr.

#[export] Instance default_ln_audited : Audited default_ln.
Proof using Type*. apply dyn_audited; [done|apply _]. Defined.
Definition default_ln_entry : Entry := {| am_module := default_ln; am_audited := default_ln_audited |}.
#[export] Instance default_mint_audited : Audited default_mint.
Proof using Type*. apply dyn_audited; [done|apply _]. Defined.
Definition default_mint_entry : Entry := {| am_module := default_mint; am_audited := default_mint_audited |}.
#[export] Instance default_wallet_audited : Audited default_wallet.
Proof using Type*. apply dyn_audited; [done|apply _]. Defined.
Definition default_wallet_entry : Entry := {| am_module := default_wallet; am_audited := default_wallet_audited |}.

(** Instance ids in the order of the setup. *)
Definition default_registry : gmap Z Entry := {[ 0 := default_ln_entry; 1 := default_mint_entry; 2 := default_wallet_entry ]}.

Lemma default_registry_lookup id am : default_registry !! id = Some am ->
  (id = 0 /\ am = default_ln_entry) \/ (id = 1 /\ am = default_mint_entry) \/ (id = 2 /\ am = default_wallet_entry).
Proof using.
  unfold default_registry. intros [[<- <-]|[_ H]]%lookup_insert_Some; [by left|right].
  apply lookup_insert_Some in H as [[<- <-]|[_ H]]; [by left|right]. by apply lookup_singleton_Some in H as [<- <-].
Qed.

Lemma default_registry_perm :
  map_to_list default_registry ≡ₚ [(0, default_ln_entry); (1, default_mint_entry); (2, default_wallet_entry)].
Proof using.
  unfold default_registry. rewrite !map_to_list_insert, map_to_list_singleton; [done|by rewrite lookup_singleton_ne|].
  by rewrite lookup_insert_ne, lookup_singleton_ne.
Qed.

(** The tables of the three modules. *)
Definition ln_of (s : gmap Z GuardianDb) : LnDb := guardian_ln (module_db GuardianDb_empty s 0).
Definition mint_of (s : gmap Z GuardianDb) : MintDb := guardian_mint (module_db GuardianDb_empty s 1).
Definition wallet_of (s : gmap Z GuardianDb) : WalletDb := guardian_wallet (module_db GuardianDb_empty s 2).

Lemma default_total_net s :
  total_net GuardianDb_empty default_registry s = net (m := ln) (ln_of s) + net (m := mint) (mint_of s) + net (m := wallet) (wallet_of s).
Proof using.
  unfold total_net. rewrite (sum_list_perm _ _ (fmap_Permutation _ _ _ default_registry_perm)).
  cbn [fmap list_fmap]. rewrite !sum_list_cons. change (sum_list []) with 0. simpl. unfold ln_of, mint_of, wallet_of. lia.
Qed.
End registry.

(** ** What the federation owes *)
Section backing.
Context (ln_cfg : Lightning) (mint_cfg : Mint) (wallet_cfg : WalletConfig).
Context (sha256 : list Z -> Z) (bigsize : codec Z).

(** The parameters of the lightning module, of the mint and of the wallet. *)
Context (public_key_from_slice : list Z -> option Z) (encode_public_key : Z -> list Z) (verify_schnorr : Z -> Z -> Z -> bool).
Context (encode_ciphertext : Z -> list Z) (verify_ciphertext : Z -> bool) (decrypt_share : Z -> Z -> option Z).
Context (verify_decryption_share : Z -> Z -> Z -> bool) (decrypt : list (Z * Z) -> Z -> option (list Z)).
Context (tbs_verify : Z -> Z -> Z -> bool) (sign_message : Z -> Z -> Z) (nonce_hash blind_nonce_hash : Z -> Z).
Context (serialize_key : Z -> list Z) (from_secret_key : Z -> Z) (hmac : list Z -> list Z -> Z) (add_exp_tweak add_tweak : Z -> Z -> Z).
Context (descriptor_script descriptor_code : list Z -> Z) (max_satisfaction_weight : Z) (script_len minimal_non_dust : Z -> Z).
Context (is_p2wsh is_p2wpkh : Z -> bool) (address_script : Z -> Z) (is_valid_for_network : Z -> Z -> bool).
Context (compute_txid : BtcTransaction -> Z) (sighash : BtcTransaction -> Z -> Z -> Z -> option Z).
Context (sign_ecdsa : Z -> Z -> Z) (verify_ecdsa : Z -> Z -> Z -> bool) (finalize : Psbt -> option BtcTransaction).
Context (proof_block : Z -> Z) (get_block : Z -> Block) (own : BtcOutPoint -> Prop).

Definition guardian_ln_module := ln1_module ln_cfg sha256 public_key_from_slice encode_public_key verify_schnorr encode_ciphertext bigsize
  verify_ciphertext decrypt_share verify_decryption_share decrypt.
Definition guardian_mint_module := mint_module mint_cfg tbs_verify sign_message nonce_hash blind_nonce_hash.
Definition guardian_wallet_module := wallet_module wallet_cfg serialize_key from_secret_key hmac add_exp_tweak add_tweak descriptor_script
  descriptor_code max_satisfaction_weight script_len minimal_non_dust is_p2wsh is_p2wpkh address_script is_valid_for_network compute_txid
  sighash sign_ecdsa verify_ecdsa finalize proof_block sha256 bigsize get_block.

(** The configuration is in range; [own], [txid_binds], [finalize_keeps] and
    the weights are the promises of [WalletServer] about bitcoin. *)
Context (ln_peers : 1 <= LnServer.num_peers ln_cfg) (ln_fee_in : is_u64 (contract_input_fee ln_cfg)) (ln_fee_out : is_u64 (contract_output_fee ln_cfg)).
Context (mint_fee : Fee.wf (fee_consensus mint_cfg)) (peg_in_fee : is_u64 (peg_in_abs wallet_cfg)) (peg_out_fee : is_u64 (peg_out_abs wallet_cfg)).
Context (closed : own_closed compute_txid own) (binds : txid_binds compute_txid).
Context (weights : weights_ok max_satisfaction_weight script_len minimal_non_dust) (keeps : finalize_keeps compute_txid finalize).
Context (dust : change_dust wallet_cfg serialize_key hmac add_exp_tweak descriptor_script minimal_non_dust).

Definition guardian_registry : gmap Z (AuditedModule GuardianDb GuardianInput GuardianOutput GuardianItem GuardianError) :=
  default_registry guardian_ln_module guardian_mint_module guardian_wallet_module
    (ln1_audited _ _ _ _ _ _ _ _ _ _ _ ln_peers ln_fee_in ln_fee_out)
    (mint_audited _ _ _ _ _ mint_fee)
    (wallet_audited _ _ _ _ _ _ _ _ _ _ _ _ _ _ _ _ _ _ _ _ _ _ _ _ own closed binds weights keeps dust peg_in_fee peg_out_fee).

Lemma guardian_init_inv : modules_inv GuardianDb_empty guardian_registry ∅.
Proof using.
  intros id am [[-> ->]|[[-> ->]|[-> ->]]]%default_registry_lookup; [apply ln1_inv_empty|apply mint_inv_empty|apply w1_reached_empty].
Qed.

Lemma guardian_net s :
  total_net GuardianDb_empty guardian_registry s = 1000 * w1_value (wallet_of s) - (issued (mint_of s) - redeemed (mint_of s)) - ln1_owed (ln_of s).
Proof using. unfold guardian_registry. rewrite default_total_net. simpl. unfold mint_net. lia. Qed.

End backing.

(** ** A guardian *)
Module DefaultExample.
Import WalletExample.

Definition ln_cfg : Lightning :=
  {| contract_input_fee := 0; contract_output_fee := 0; LnServer.num_peers := 1; key_threshold := 1;
     fed_public_key := 5; threshold_sec_key := 0; LnServer.our_peer_id := 0 |}.
Definition wallet_cfg : WalletConfig :=
  {| peer_peg_in_keys := list_to_map [(0, 10)]; peg_in_key := 10; network := 0; finality_delay := 10; default_fee := 1000;
     peg_in_abs := 0; peg_out_abs := 0; WalletServer.our_peer_id := 0 |}.

(** An id that determines the inputs. *)
Definition id_of (t : BtcTransaction) : Z :=
  Z.pos (encode ((fun i => (btc_txid (previous_output i), vout (previous_output i))) <$> tx_input t)).
Definition all_own (o : BtcOutPoint) : Prop := True.

Definition deposit1 : BtcTransaction :=
  {| tx_input := []; tx_output := [ {| Bitcoin.value := 50000; script_pubkey := tweaked_script wallet_cfg ser mac add_key script (ser 5) |} ] |}.
Definition proof1 : PegInProof := {| txout_proof := 101; proof_tx := deposit1; output_idx := 0; tweak_contract_key := 5 |}.
Definition chain1 (h : Z) : Block :=
  {| block_hash := 100 + h; prev_blockhash := 99 + h; txdata := if h =? 1 then [deposit1] else [] |}.

Lemma id_binds : txid_binds id_of.
Proof.
  intros t1 t2 H. injection H as H. apply (inj encode) in H. revert H. generalize (tx_input t1) as l1, (tx_input t2) as l2.
  induction l1 as [|i l1 IH]; intros [|j l2]; try done. intros H. injection H as H1 H2 H3. rewrite !fmap_cons. f_equal; [|by apply IH].
  destruct (previous_output i), (previous_output j). simpl in *. by subst.
Qed.
Lemma id_keeps : finalize_keeps id_of final.
Proof.
  intros p tx H. unfold final in H. destruct (forallb _ _); [|done]. injection H as <-. split; [done|]. unfold id_of. simpl. do 2 f_equal.
  rewrite <- list_fmap_compose. done.
Qed.
Lemma all_closed : own_closed id_of all_own.
Proof. by intros tx o _ _. Qed.
Lemma dust1 : change_dust wallet_cfg ser mac add_key script dust.
Proof. intros t. unfold dust. lia. Qed.
Lemma peers1 : 1 <= LnServer.num_peers ln_cfg.
Proof. simpl. lia. Qed.
Lemma zero_u64 : is_u64 0.
Proof. unfold is_u64, u64_max. lia. Qed.

Abbreviation inst f := (f ln_cfg MintExample.cfg wallet_cfg sha Bolt.big_size LnExample.parse LnExample.enc LnExample.schnorr LnExample.enc LnExample.vct
  LnExample.share LnExample.vshare LnExample.dec MintExample.verify MintExample.sign MintExample.h MintExample.h ser key_of mac add_key add_key script code 400
  len dust wsh wpkh addr on_network id_of hash sign verify final block_of chain1 all_own
  peers1 zero_u64 zero_u64 MintExample.fee_ok zero_u64 zero_u64 all_closed id_binds weights id_keeps dust1) (only parsing).
Definition reg1 : gmap Z (AuditedModule GuardianDb GuardianInput GuardianOutput GuardianItem GuardianError) := inst guardian_registry.

Definition version1 : CoreConsensusVersion := {| major := 2; minor := 1 |}.
Definition hash1 (ins : list (Dyn GuardianInput)) (outs : list (Dyn GuardianOutput)) (n : Z) : Z := n.
Definition senders1 : gset Z := {[ 0 ]}.
Abbreviation Accepted := (AcceptedItem GuardianInput GuardianOutput GuardianItem).
Abbreviation mods := (Transaction.modules reg1).
Abbreviation with_tx := (process_consensus_item_with_db_transaction GuardianDb_empty mods hash1 LnExample.schnorr version1).
Abbreviation process_ := (process_ordered_item GuardianDb_empty mods hash1 LnExample.schnorr version1 senders1).
Abbreviation hist := (Engine.history GuardianDb_empty reg1 hash1 LnExample.schnorr version1 senders1).

(** Two blocks, and a transaction that claims the deposit for a note and an
    outgoing contract. *)
Definition block_item (c : Z) : Accepted :=
  {| accepted_item := ModuleItem {| module_instance_id := 2; Transaction.value := GWalletItem (WalletServer.BlockCount c) |}; accepted_peer := 0 |}.
Definition tx1 : Transaction GuardianInput GuardianOutput :=
  {| Transaction.inputs := [ {| module_instance_id := 2; Transaction.value := GWalletIn (WalletInputV0 proof1) |} ];
     Transaction.outputs := [ {| module_instance_id := 1; Transaction.value := GMintOut (MintOutputV0 1024 50) |};
                              {| module_instance_id := 0; Transaction.value := GLnOut (OutputContract 1000 (Outgoing LnExample.outgoing)) |} ];
     Transaction.nonce := 77; Transaction.signatures := NaiveMultisig [82] |}.
Definition tx_item : Accepted := {| accepted_item := TransactionItem tx1; accepted_peer := 0 |}.
Definition no_failures : nat -> option DatabaseError := fun _ => None.
Abbreviation DB := (CoreDb GuardianDb GuardianInput GuardianOutput GuardianItem).
Definition g0 : DB := CoreDb_empty.
Definition g1 : DB := Eval vm_compute in (process_ no_failures 0 (accepted_item (block_item 1)) 0 g0).2.
Definition g2 : DB := Eval vm_compute in (process_ no_failures 1 (accepted_item (block_item 2)) 0 g1).2.
Definition g3 : DB := Eval vm_compute in (process_ no_failures 2 (accepted_item tx_item) 0 g2).2.
Definition w1 : DB := Eval vm_compute in (with_tx (accepted_item (block_item 1)) 0 g0).2.
Definition w2 : DB := Eval vm_compute in (with_tx (accepted_item (block_item 2)) 0 g1).2.
Definition w3 : DB := Eval vm_compute in (with_tx (accepted_item tx_item) 0 g2).2.

Lemma block_item_ok c : consensus_item_ok reg1 (accepted_item (block_item c)).
Proof. intros am [[[=] _]|[[[=] _]|[_ ->]]]%default_registry_lookup x [= <-]. exact Logic.I. Qed.

Lemma tx_item_ok : consensus_item_ok reg1 (accepted_item tx_item).
Proof.
  split.
  - apply Forall_singleton. intros am [[[=] _]|[[[=] _]|[_ ->]]]%default_registry_lookup i [= <-].
    split; [repeat constructor; simpl; lia|]. split; [done|]. intros tx [=].
  - apply Forall_cons. split; [|apply Forall_singleton].
    + intros am [[[=] _]|[[_ ->]|[[=] _]]]%default_registry_lookup i [= <-]. simpl. unfold is_u64, u64_max. lia.
    + intros am [[_ ->]|[[[=] _]|[[=] _]]]%default_registry_lookup i [= <-]. simpl. unfold is_u64, u64_max. lia.
Qed.

Lemma history3 : hist [block_item 1; block_item 2; tx_item] g3.
Proof.
  apply (history_item _ _ _ _ _ _ [block_item 1; block_item 2] g2 w3 no_failures tx_item); [|apply tx_item_ok|vm_compute; reflexivity|vm_compute; discriminate|vm_compute; reflexivity].
  apply (history_item _ _ _ _ _ _ [block_item 1] g1 w2 no_failures (block_item 2)); [|apply block_item_ok|vm_compute; reflexivity|vm_compute; discriminate|vm_compute; reflexivity].
  apply (history_item _ _ _ _ _ _ [] g0 w1 no_failures (block_item 1)); [constructor|apply block_item_ok|vm_compute; reflexivity|vm_compute; discriminate|vm_compute; reflexivity].
Qed.

End DefaultExample.
