(* ===== verification/Broadcast.v ===== *)
(** * What a guardian feeds to the atomic broadcast

    [fedimint-server/src/consensus/aleph_bft/]: the batches a guardian submits
    ([data_provider.rs]), the backup of its units ([backup.rs]) and the mapping
    of node indices ([mod.rs]).  The broadcast protocol itself is the library
    [aleph-bft]. *)

From S2P Require Import Prelude Encoding Db Amounts ServerModule Transaction Engine.

(** [u16::try_from(usize)] and back. *)
Definition to_peer_id (node_index : Z) : option Z := if node_index <=? 65535 then Some node_index else None.
Definition to_node_index (peer_id : Z) : Z := peer_id.

(** [fedimint-core/src/config.rs]. *)
Definition ALEPH_BFT_UNIT_BYTE_LIMIT : Z := 50000.

(** What a guardian attaches to a unit. *)
Inductive UnitData :=
| Batch (bytes : list Z)
| SignatureData (signature : Z).

Definition is_valid (d : UnitData) : bool :=
  match d with
  | SignatureData _ => true
  | Batch bytes => Z.of_nat (length bytes) <=? ALEPH_BFT_UNIT_BYTE_LIMIT
  end.

(** ** Batches of items

    [DataProvider::get_data].  The channel from the mempool is the list of
    the items it holds; the time stamps it sends for a metric are left out. *)
Section data_provider.
Context {I O C : Type} (BigSize : codec Z) (item_codec : codec (ConsensusItem I O C)).
Context (tx_hash_from_parts : list (Dyn I) -> list (Dyn O) -> Z -> Z).
Abbreviation Item := (ConsensusItem I O C).

Record DataProvider := {
  mempool_items : list Item;
  submitted_transactions : gset Z;
  leftover_item : option Item;
}.

Definition n_bytes_item (item : Item) : Z := Z.of_nat (length (consensus_encode item_codec item)).

(** [submitted_transactions.insert] answers whether the item is new. *)
Definition insert_submitted (item : Item) (submitted : gset Z) : bool * gset Z :=
  match item with
  | TransactionItem tx =>
      let id := tx_hash tx_hash_from_parts tx in
      (bool_decide (id ∉ submitted), {[ id ]} ∪ submitted)
  | _ => (true, submitted)
  end.

(** The items taken from the channel, and what is left. *)
Fixpoint take_items (channel : list Item) (submitted : gset Z) (n_bytes : Z) : list Item * DataProvider :=
  match channel with
  | [] => ([], {| mempool_items := []; submitted_transactions := submitted; leftover_item := None |})
  | item :: channel' =>
      let (new, submitted') := insert_submitted item submitted in
      if negb new then take_items channel' submitted' n_bytes
      else if n_bytes + n_bytes_item item <=? ALEPH_BFT_UNIT_BYTE_LIMIT then
        let (items, dp) := take_items channel' submitted' (n_bytes + n_bytes_item item) in (item :: items, dp)
      else ([], {| mempool_items := channel'; submitted_transactions := submitted'; leftover_item := Some item |})
  end.

Definition get_data (signature : option Z) (dp : DataProvider) : outcome Empty_set (option UnitData) * DataProvider :=
  match signature with
  | Some signature => (Ok (Some (SignatureData signature)), dp)
  | None =>
      let '(first, n_bytes) := match leftover_item dp with
        | Some item =>
            if n_bytes_item item + 9 <=? ALEPH_BFT_UNIT_BYTE_LIMIT then ([item], 9 + n_bytes_item item) else ([], 9)
        | None => ([], 9)
        end in
      let (more, dp') := take_items (mempool_items dp) (submitted_transactions dp) n_bytes in
      let items := first ++ more in
      match items with
      | [] => (Ok None, dp')
      | _ =>
          let bytes := consensus_encode (vec_codec BigSize item_codec) items in
          if Z.of_nat (length bytes) <=? ALEPH_BFT_UNIT_BYTE_LIMIT then (Ok (Some (Batch bytes)), dp') else (Panic, dp')
      end
  end.

(** The items that are new, in the order of the channel. *)
Fixpoint new_items (channel : list Item) (submitted : gset Z) : list Item :=
  match channel with
  | [] => []
  | item :: channel' =>
      let (new, submitted') := insert_submitted item submitted in
      if new then item :: new_items channel' submitted' else new_items channel' submitted'
  end.

(** Items that fit into a unit. *)
Definition fits (item : Item) : Prop := 9 + n_bytes_item item <= ALEPH_BFT_UNIT_BYTE_LIMIT.
#[export] Instance fits_dec item : Decision (fits item).
Proof. unfold fits. apply _. Defined.

(** What is to be submitted. *)
Definition pending_items (dp : DataProvider) : list Item :=
  filter fits (option_list (leftover_item dp) ++ new_items (mempool_items dp) (submitted_transactions dp)).

Context `{!Lawful BigSize, !Lawful item_codec} (Hbig : forall x, valid BigSize x <-> is_u64 x).
(** A [BigSize] is at most nine bytes long. *)
Context (Hnine : forall x, is_u64 x -> Z.of_nat (length (consensus_encode BigSize x)) <= 9).

(** An item starts with the index of its variant. *)
Context (Hitem : forall item, 1 <= n_bytes_item item).

Lemma length_encode_all items : Z.of_nat (length items) <= Z.of_nat (length (encode_all item_codec items)).
Proof using Hitem.
  induction items as [|item items IH]; [done|]. rewrite encode_all_cons, length_app. pose proof (Hitem item).
  unfold n_bytes_item in *. simpl. lia.
Qed.

Lemma take_items_spec channel submitted n_bytes items dp :
  9 <= n_bytes <= ALEPH_BFT_UNIT_BYTE_LIMIT -> take_items channel submitted n_bytes = (items, dp) ->
  n_bytes + Z.of_nat (length (encode_all item_codec items)) <= ALEPH_BFT_UNIT_BYTE_LIMIT /\
  items ++ pending_items dp = filter fits (new_items channel submitted) /\ items ⊆ channel.
Proof using Type.
  revert submitted n_bytes items dp.
  induction channel as [|item channel IH]; intros submitted n_bytes items dp Hn H; simpl in *.
  { simplify_eq/=. split; [lia|]. by split. }
  destruct (insert_submitted item submitted) as [new submitted']. destruct new; simpl in H.
  - assert (0 <= n_bytes_item item) by (unfold n_bytes_item; lia). destruct (Z.leb_spec (n_bytes + n_bytes_item item) ALEPH_BFT_UNIT_BYTE_LIMIT).
    + destruct (take_items channel submitted' (n_bytes + n_bytes_item item)) as [items' dp'] eqn:Ht.
      injection H as <- <-. apply IH in Ht as (Hlen & Hp & Hsub); [|lia].
      rewrite encode_all_cons, length_app, filter_cons, decide_True by (unfold fits; lia).
      unfold n_bytes_item in *. split; [lia|]. split; [by simpl; rewrite Hp|].
      by apply list_subseteq_skip.
    + injection H as <- <-. split; [simpl; lia|]. split; [done|]. apply list_subseteq_nil.
  - apply IH in H as (Hlen & Hp & Hsub); [|done]. split; [done|]. split; [done|]. intros x Hx. right. by apply Hsub.
Qed.

(** What is taken from the leftover item. *)
Definition first_items (dp : DataProvider) : list Item := filter fits (option_list (leftover_item dp)).

Lemma first_items_spec dp :
  match leftover_item dp with
  | Some item =>
      if n_bytes_item item + 9 <=? ALEPH_BFT_UNIT_BYTE_LIMIT then ([item], 9 + n_bytes_item item) else ([], 9)
  | None => ([], 9)
  end = (first_items dp, 9 + Z.of_nat (length (encode_all item_codec (first_items dp)))) /\
  9 + Z.of_nat (length (encode_all item_codec (first_items dp))) <= ALEPH_BFT_UNIT_BYTE_LIMIT.
Proof using Type.
  assert (9 <= ALEPH_BFT_UNIT_BYTE_LIMIT) by (unfold ALEPH_BFT_UNIT_BYTE_LIMIT; lia).
  unfold first_items. destruct (leftover_item dp) as [item|]; [|by simpl]. simpl option_list.
  rewrite filter_cons. unfold fits, n_bytes_item.
  destruct (Z.leb_spec (Z.of_nat (length (consensus_encode item_codec item)) + 9) ALEPH_BFT_UNIT_BYTE_LIMIT).
  - rewrite decide_True by lia. rewrite encode_all_cons, app_nil_r. split; [done|lia].
  - rewrite decide_False by lia. by simpl.
Qed.

(** A batch that is small enough is read back by the other guardians. *)
Lemma encode_batch items :
  Forall (valid item_codec) items ->
  9 + Z.of_nat (length (encode_all item_codec items)) <= ALEPH_BFT_UNIT_BYTE_LIMIT ->
  Z.of_nat (length (consensus_encode (vec_codec BigSize item_codec) items)) <= ALEPH_BFT_UNIT_BYTE_LIMIT /\
  consensus_decode_whole (vec_codec BigSize item_codec)
    (consensus_encode (vec_codec BigSize item_codec) items) = Some items.
Proof using Type*.
  intros Hv Hlen. pose proof (vec_lawful BigSize Hbig item_codec). pose proof (length_encode_all items).
  assert (Z.of_nat (length items) <= u64_max) by (unfold ALEPH_BFT_UNIT_BYTE_LIMIT, u64_max in *; lia).
  split; [|by apply decode_whole_encode]. simpl. unfold len_encode. rewrite length_app. simpl.
  assert (is_u64 (Z.of_nat (length items))) as Hu by (unfold is_u64; lia). apply Hnine in Hu. lia.
Qed.

(** Batches fit and nothing is lost.  Without a signature to submit,
    [get_data] never panics, and a batch is within the limit the other
    guardians accept; what they decode from it, followed by what is still to
    be submitted, is what was to be submitted before the call.  So every item
    of the mempool is submitted once and in order, except for transactions
    that were submitted before and items too large for any unit. *)
Theorem batch_within_limit dp :
  Forall (valid item_codec) (mempool_items dp) ->
  (forall item, leftover_item dp = Some item -> valid item_codec item) ->
  exists unit_data dp', get_data None dp = (Ok unit_data, dp') /\
    match unit_data with
    | None => pending_items dp' = pending_items dp
    | Some d => is_valid d = true /\
        exists bytes items, d = Batch bytes /\ items <> [] /\
          consensus_decode_whole (vec_codec BigSize item_codec) bytes = Some items /\
          items ++ pending_items dp' = pending_items dp
    end.
Proof using Type*.
  intros Hpool Hleft. unfold get_data. destruct (first_items_spec dp) as [-> Hfirst].
  destruct (take_items (mempool_items dp) (submitted_transactions dp) _) as [more dp'] eqn:Ht.
  apply take_items_spec in Ht as (Hlen & Hp & Hsub); [|lia].
  assert ((first_items dp ++ more) ++ pending_items dp' = pending_items dp) as Hpending.
  { rewrite <- app_assoc, Hp. unfold pending_items. by rewrite filter_app. }
  assert (Forall (valid item_codec) (first_items dp ++ more)) as Hv.
  { apply Forall_app. split; apply Forall_forall.
    - intros x [_ Hx]%list_elem_of_filter. apply Hleft. destruct (leftover_item dp); [|by apply elem_of_nil in Hx].
      by apply list_elem_of_singleton in Hx as ->.
    - rewrite Forall_forall in Hpool. intros x Hx. by apply Hpool, Hsub. }
  destruct (encode_batch (first_items dp ++ more) Hv) as [Hbytes Hdec].
  { unfold encode_all in *. rewrite bind_app, length_app. lia. }
  destruct (first_items dp ++ more) as [|item items]; [by eexists None, dp'|].
  rewrite (proj2 (Z.leb_le _ _) Hbytes). eexists (Some _), dp'. split; [done|]. split; [by apply Z.leb_le|].
  eexists _, (item :: items). split; [reflexivity|]. done.
Qed.
End data_provider.

(** ** The backup of a session *)
Section backup.
Context {D I O C : Type}.
Abbreviation DB := (CoreDb D I O C).

(** Appending units one after the other. *)
Fixpoint append_units (units_index : Z) (l : list (list Z)) : M DB Empty_set Z :=
  match l with
  | [] => mret units_index
  | data :: l' => next ← BackupWriter_append units_index data; append_units next l'
  end.

(** The backup of a session is faithful.  A writer opened on a database
    with the units [L] stores any further units without ever overwriting one,
    and what is read back after a restart is the concatenation of all units in
    the order they were written; a writer opened then continues at the next
    index. *)
Theorem backup_roundtrip (db : DB) L l :
  log_repr (AlephUnits db) L -> Z.of_nat (length (L ++ l)) <= u64_max ->
  exists db', append_units (BackupWriter_new db) l db = (Ok (BackupWriter_new db'), db') /\
    BackupReader_read db' = mjoin (L ++ l) /\ modules_db db' = modules_db db /\
    AcceptedItems db' = AcceptedItems db.
Proof.
  revert db L. induction l as [|data l IH]; intros db L HL Hb.
  { exists db. rewrite app_nil_r. split; [done|]. unfold BackupReader_read. by rewrite (log_repr_iter _ _ HL). }
  pose proof (next_index_log _ _ (log_repr_length _ _ HL)) as Hn.
  assert (wrap_u64 (BackupWriter_new db + 1) =
    BackupWriter_new (upd AlephUnitsKey <[BackupWriter_new db := data]> db)) as Hnext.
  { unfold BackupWriter_new. simpl. rewrite next_index_insert by apply next_index_fresh.
    rewrite length_app in Hb. simpl in Hb. rewrite wrap_u64_small by (unfold is_u64; lia). lia. }
  pose proof (log_repr_append _ _ [data] HL) as HL'.
  destruct (IH (upd AlephUnitsKey <[BackupWriter_new db := data]> db) (L ++ [data])) as (db' & Hr & Hread & Hm & Ha).
  - exact HL'.
  - by rewrite <- app_assoc.
  - exists db'. rewrite <- app_assoc in Hread. split_and!; [|done|done|done].
    simpl append_units. unfold BackupWriter_append at 1, mbind, M_bind.
    rewrite insert_new_entry_fresh by apply next_index_fresh. unfold mret at 1, M_ret at 1.
    by rewrite Hnext.
Qed.
End backup.

Module BroadcastExample.
Import Bolt.

Lemma backup_roundtrip_witness :
  exists db' : CoreDb unit unit unit unit,
    append_units 0 [[1; 2]; [3]] CoreDb_empty = (Ok (BackupWriter_new db'), db') /\ BackupReader_read db' = [1; 2; 3].
Proof.
  destruct (backup_roundtrip (CoreDb_empty : CoreDb unit unit unit unit) [] [[1; 2]; [3]]) as (db' & H1 & H2 & _).
  - apply log_repr_empty.
  - unfold u64_max. simpl. lia.
  - exists db'. split; [exact H1|exact H2].
Defined.

(** Items of one byte each. *)
Definition small_item : codec (ConsensusItem unit unit unit) :=
  Codec (fun item => exists v, item = DefaultItem v [] /\ is_byte v)
    (fun item => match item with DefaultItem v _ => [v] | _ => [0] end)
    (fun bs => match bs with b :: bs' => Some (DefaultItem b [], bs') | [] => None end).

#[export] Instance small_item_lawful : Lawful small_item.
Proof.
  split; simpl.
  - intros item (v & -> & Hv). by constructor.
  - intros item rest (v & -> & Hv). done.
  - intros [|b bs] item rest Hbs [= <- <-]. apply Forall_cons in Hbs as [Hb _]. eauto.
Qed.

Lemma big_size_nine x : is_u64 x -> Z.of_nat (length (consensus_encode Bolt.big_size x)) <= 9.
Proof. intros _. simpl. repeat case_match; simpl; lia. Qed.

Lemma batch_within_limit_witness :
  exists unit_data dp',
    get_data Bolt.big_size small_item (fun _ _ _ => 0) None
      {| mempool_items := [DefaultItem 7 []; DefaultItem 8 []]; submitted_transactions := ∅; leftover_item := None |} =
    (Ok unit_data, dp') /\ unit_data = Some (Batch [2; 7; 8]).
Proof.
  destruct (batch_within_limit Bolt.big_size small_item (fun _ _ _ => 0) Bolt.big_size_u64 big_size_nine
    ltac:(intros []; vm_compute; discriminate)
    {| mempool_items := [DefaultItem 7 []; DefaultItem 8 []]; submitted_transactions := ∅; leftover_item := None |})
    as (unit_data & dp' & Hget & _).
  - repeat constructor; simpl; eexists; (split; [reflexivity|unfold is_byte; lia]).
  - discriminate.
  - exists unit_data, dp'. split; [exact Hget|]. vm_compute in Hget. injection Hget as <- _. reflexivity.
Defined.
End BroadcastExample.
