(* ===== verification/Session.v ===== *)
(** * Sessions: ordering, signing and recovering

    [fedimint-server/src/consensus/engine.rs] from [run_session] to
    [validate_signed_session_outcome], the keychain of
    [fedimint-server/src/consensus/aleph_bft/keychain.rs] and the header and
    the verification of [fedimint-core/src/session_outcome.rs].

    The channels a session selects on are the list of events it received, in
    the order in which it received them; every interleaving is such a list. *)

From S2P Require Import Prelude Db Amounts Peers ServerModule Transaction Engine Broadcast.

Record OrderedUnit := { creator : Z; round : Z; unit_data : option UnitData }.

Section session.
Context {D I O C E : Type} `{!EqDecision I, !EqDecision O, !EqDecision C}.
Context (d0 : D) (modules : gmap Z (ServerModule D I O C E)).
Context (tx_hash_from_parts : list (Dyn I) -> list (Dyn O) -> Z -> Z).
Context (verify_schnorr : Z -> Z -> Z -> bool).
Context (version : CoreConsensusVersion) (ci_status_senders : gset Z).

(** The hash of an accepted item, the root of the merkle tree over a non-empty
    list of hashes, and the tagged hash a guardian signs. *)
Context (consensus_hash : AcceptedItem I O C -> Z) (calculate_root : Z -> list Z -> list Z).
Context (tagged_message : list Z -> Z).

(** [cfg.consensus.broadcast_public_keys], [cfg.local.identity],
    [broadcast_rounds_per_session], our signature of a message, and the
    decoder of a batch. *)
Context (pks : gmap Z Z) (identity rounds_per_session : Z) (sign_schnorr : Z -> Z).
Context (decode_batch : list Z -> option (list (ConsensusItem I O C))).

Abbreviation DB := (CoreDb D I O C).
Abbreviation Signed := (SignedSessionOutcome I O C).
Abbreviation process_ := (process_ordered_item d0 modules tx_hash_from_parts verify_schnorr version ci_status_senders).
Abbreviation process_items_ := (process_items d0 modules tx_hash_from_parts verify_schnorr version ci_status_senders).

Definition header (outcome : SessionOutcome I O C) (index : Z) : list Z :=
  to_be_bytes 8 index ++
  match consensus_hash <$> items outcome with
  | [] => replicate 32 0
  | leaf :: leaves => calculate_root leaf leaves
  end.

(** [Keychain::verify_schnorr] and [Keychain::sign_schnorr]. *)
Definition keychain_verify (message : list Z) (signature peer_id : Z) : bool :=
  match pks !! peer_id with
  | Some public_key => verify_schnorr signature (tagged_message message) public_key
  | None => false
  end.
Definition keychain_sign (message : list Z) : Z := sign_schnorr (tagged_message message).

Definition num_peers : Z := Z.of_nat (size pks).

Definition all_verify (message : list Z) (signatures : gmap Z Z) : bool :=
  forallb (fun kv => keychain_verify message kv.2 kv.1) (btree_iter signatures).

(** [SignedSessionOutcome::verify], what clients check. *)
Definition SignedSessionOutcome_verify (s : Signed) (block_index : Z) : bool :=
  if Z.of_nat (size (session_signatures s)) <? threshold num_peers then false
  else all_verify (header (session_outcome s) block_index) (session_signatures s).

Definition validate_signed_session_outcome (s : Signed) (session_index : Z) : bool :=
  if negb (Z.of_nat (size (session_signatures s)) =? threshold num_peers) then false
  else all_verify (header (session_outcome s) session_index) (session_signatures s).

(** The filter of [request_signed_session_outcome]. *)
Definition requested_outcome_valid (s : Signed) (index : Z) : bool :=
  (Z.of_nat (size (session_signatures s)) =? threshold num_peers) &&
  all_verify (header (session_outcome s) index) (session_signatures s).

(** ** Collecting the items of a session *)

Fixpoint process_unprocessed (commits : nat -> nat -> option DatabaseError) (item_index : Z)
    (l : list (AcceptedItem I O C)) : M DB Empty_set unit :=
  match l with
  | [] => mret tt
  | a :: l' =>
      r ← process_ (commits 0%nat) item_index (accepted_item a) (accepted_peer a);
      match r with
      | inl _ => panic
      | inr _ => process_unprocessed (fun i => commits (S i)) (item_index + 1) l'
      end
  end.

(** Continue from the items already accepted to the ones in a signed
    outcome. *)
Definition recover_session (commits : nat -> nat -> option DatabaseError) (s : Signed) : M DB Empty_set unit :=
  pending ← gets pending_accepted_items;
  let all_items := items (session_outcome s) in
  _ ← rassert (length pending <=? length all_items)%nat;
  let processed := take (length pending) all_items in
  let unprocessed := drop (length pending) all_items in
  _ ← rassert (bool_decide (processed = pending));
  process_unprocessed commits (Z.of_nat (length processed)) unprocessed.

Inductive CollectEvent :=
| UnitOrdered (unit : OrderedUnit)
| OutcomeRequested (s : Signed)
| OutcomeReceived (peer : Z) (s : Signed)
| IndexTick
| ChannelClosed.

Inductive CollectResult :=
| RoundLimit (item_index : Z)
| Recovered (s : Signed)
| Closed
| Waiting (item_index : Z).

Definition batch_items (u : OrderedUnit) : list (AcceptedItem I O C) :=
  match unit_data u with
  | Some (Batch bytes) =>
      match decode_batch bytes with
      | Some l => (fun i => {| accepted_item := i; accepted_peer := creator u |}) <$> l
      | None => []
      end
  | _ => []
  end.

Fixpoint collect_items (session_index : Z) (commits : nat -> nat -> nat -> option DatabaseError)
    (item_index : Z) (events : list CollectEvent) : M DB Empty_set CollectResult :=
  match events with
  | [] => mret (Waiting item_index)
  | UnitOrdered u :: events' =>
      if rounds_per_session <=? round u then mret (RoundLimit item_index)
      else
        item_index' ← process_items_ (commits 0%nat) item_index (batch_items u);
        collect_items session_index (fun i => commits (S i)) item_index' events'
  | OutcomeRequested s :: events' =>
      if requested_outcome_valid s session_index then
        _ ← recover_session (commits 0%nat) s; mret (Recovered s)
      else collect_items session_index (fun i => commits (S i)) item_index events'
  | OutcomeReceived _ s :: events' =>
      if validate_signed_session_outcome s session_index then
        _ ← recover_session (commits 0%nat) s; mret (Recovered s)
      else collect_items session_index (fun i => commits (S i)) item_index events'
  | IndexTick :: events' => collect_items session_index (fun i => commits (S i)) item_index events'
  | ChannelClosed :: _ => mret Closed
  end.

(** ** Collecting the signatures *)

Inductive SignEvent :=
| SignatureOrdered (unit : OrderedUnit)
| SignatureReceived (peer signature : Z)
| SignOutcomeRequested (s : Signed)
| SignOutcomeReceived (peer : Z) (s : Signed)
| SignTick
| SignChannelClosed.

Inductive SignResult :=
| Collected (signatures : gmap Z Z)
| SignRecovered (s : Signed)
| SignClosed
| SignWaiting.

Definition check_header (h : list Z) (s : Signed) (session_index : Z) : M DB Empty_set SignResult :=
  _ ← rassert (bool_decide (h = header (session_outcome s) session_index));
  mret (SignRecovered s).

Fixpoint collect_signatures (session_index : Z) (h : list Z) (signatures : gmap Z Z)
    (events : list SignEvent) : M DB Empty_set SignResult :=
  if threshold num_peers <=? Z.of_nat (size signatures) then mret (Collected signatures)
  else
    match events with
    | [] => mret SignWaiting
    | SignatureOrdered u :: events' =>
        match unit_data u with
        | Some (SignatureData sig) =>
            if keychain_verify h sig (creator u)
            then collect_signatures session_index h (<[creator u := sig]> signatures) events'
            else collect_signatures session_index h signatures events'
        | _ => collect_signatures session_index h signatures events'
        end
    | SignatureReceived peer sig :: events' =>
        if keychain_verify h sig peer
        then collect_signatures session_index h (<[peer := sig]> signatures) events'
        else collect_signatures session_index h signatures events'
    | SignOutcomeRequested s :: events' =>
        if requested_outcome_valid s session_index then check_header h s session_index
        else collect_signatures session_index h signatures events'
    | SignOutcomeReceived _ s :: events' =>
        if validate_signed_session_outcome s session_index then check_header h s session_index
        else collect_signatures session_index h signatures events'
    | SignTick :: events' => collect_signatures session_index h signatures events'
    | SignChannelClosed :: _ => mret SignClosed
    end.

(** ** A session *)

Inductive SessionResult :=
| Done (s : Signed)
| Stopped
| StillRunning.

(** [signature_sent] says whether the receiver of our signature is alive. *)
Definition complete_signed_session_outcome (session_index : Z)
    (commits : nat -> nat -> nat -> option DatabaseError) (events : list CollectEvent)
    (signature_sent : bool) (sign_events : list SignEvent) : M DB Empty_set SessionResult :=
  r ← collect_items session_index commits 0 events;
  match r with
  | Recovered s => mret (Done s)
  | Closed => mret Stopped
  | Waiting _ => mret StillRunning
  | RoundLimit item_index =>
      pending ← gets pending_accepted_items;
      _ ← rassert (item_index =? Z.of_nat (length pending));
      let outcome := {| items := pending |} in
      let h := header outcome session_index in
      let our_signature := keychain_sign h in
      if negb signature_sent then mret Stopped
      else
        r' ← collect_signatures session_index h {[ identity := our_signature ]} sign_events;
        match r' with
        | Collected signatures => mret (Done {| session_outcome := outcome; session_signatures := signatures |})
        | SignRecovered s => mret (Done s)
        | SignClosed => mret Stopped
        | SignWaiting => mret StillRunning
        end
  end.

Definition run_session (session_index : Z) (commits : nat -> nat -> nat -> option DatabaseError)
    (events : list CollectEvent) (signature_sent : bool) (sign_events : list SignEvent)
    (commit : option DatabaseError) : M DB Empty_set SessionResult :=
  r ← complete_signed_session_outcome session_index commits events signature_sent sign_events;
  match r with
  | Done s =>
      _ ← rassert (validate_signed_session_outcome s session_index);
      _ ← complete_session commit session_index s;
      mret (Done s)
  | _ => mret r
  end.

(** A session of a federation with one guardian, over the items submitted to
    it. *)
Definition run_single_session (session_index : Z) (commits : nat -> nat -> option DatabaseError)
    (submitted : list (ConsensusItem I O C)) (commit : option DatabaseError) : M DB Empty_set Signed :=
  pending ← gets pending_accepted_items;
  _ ← process_items_ commits (Z.of_nat (length pending))
        ((fun i => {| accepted_item := i; accepted_peer := identity |}) <$> submitted);
  accepted ← gets pending_accepted_items;
  let outcome := {| items := accepted |} in
  let signature := keychain_sign (header outcome session_index) in
  let signed := {| session_outcome := outcome; session_signatures := {[ identity := signature ]} |} in
  _ ← complete_session commit session_index signed;
  mret signed.

(** ** Signatures *)

Lemma all_verify_true h signatures :
  all_verify h signatures = true <-> map_Forall (fun p s => keychain_verify h s p = true) signatures.
Proof.
  unfold all_verify. rewrite forallb_forall. split.
  - intros H p s Hp. apply (H (p, s)). by apply list_elem_of_In, elem_of_btree_iter.
  - intros H [p s] Hin%list_elem_of_In%elem_of_btree_iter. by apply H.
Qed.

Lemma validate_true s k :
  validate_signed_session_outcome s k = true <->
  Z.of_nat (size (session_signatures s)) = threshold num_peers /\
  map_Forall (fun p sg => keychain_verify (header (session_outcome s) k) sg p = true) (session_signatures s).
Proof.
  unfold validate_signed_session_outcome. rewrite <- all_verify_true.
  destruct (Z.eqb_spec (Z.of_nat (size (session_signatures s))) (threshold num_peers)); simpl;
    (split; [by intros|by intros [? ?]]).
Qed.

Lemma requested_validate s k : requested_outcome_valid s k = validate_signed_session_outcome s k.
Proof.
  unfold requested_outcome_valid, validate_signed_session_outcome. by destruct (_ =? _).
Qed.

(** What clients check follows from what guardians check. *)
Lemma validate_verify s k :
  validate_signed_session_outcome s k = true -> SignedSessionOutcome_verify s k = true.
Proof.
  intros [Hl Hv]%validate_true. unfold SignedSessionOutcome_verify.
  rewrite (proj2 (Z.ltb_ge _ _)) by lia. by apply all_verify_true.
Qed.

Lemma check_header_Ok h s k (db db' : DB) r :
  check_header h s k db = (Ok r, db') -> r = SignRecovered s /\ h = header (session_outcome s) k /\ db' = db.
Proof. unfold check_header. intros H. mrun. apply bool_decide_eq_true in H. done. Qed.

(** The loop stops at exactly a threshold of valid signatures. *)
Lemma collect_signatures_Ok k h signatures events (db db' : DB) r :
  Z.of_nat (size signatures) <= threshold num_peers ->
  map_Forall (fun p sg => keychain_verify h sg p = true) signatures ->
  collect_signatures k h signatures events db = (Ok r, db') ->
  db' = db /\
  match r with
  | Collected sigs => Z.of_nat (size sigs) = threshold num_peers /\
      map_Forall (fun p sg => keychain_verify h sg p = true) sigs
  | SignRecovered s => validate_signed_session_outcome s k = true /\ h = header (session_outcome s) k
  | _ => True
  end.
Proof.
  revert signatures. induction events as [|ev events IH]; intros sigs Hsz Hv; simpl;
    destruct (Z.leb_spec (threshold num_peers) (Z.of_nat (size sigs))) as [Hge|Hlt]; intros H;
    try (mrun; split; [done|]; split; [lia|done]).
  { mrun. done. }
  assert (forall p sg, keychain_verify h sg p = true ->
    collect_signatures k h (<[p := sg]> sigs) events db = (Ok r, db') -> db' = db /\
    match r with
    | Collected sigs => Z.of_nat (size sigs) = threshold num_peers /\
        map_Forall (fun p sg => keychain_verify h sg p = true) sigs
    | SignRecovered s => validate_signed_session_outcome s k = true /\ h = header (session_outcome s) k
    | _ => True
    end) as Hins.
  { intros p sg Hpsg Hc. apply IH in Hc; [exact Hc| |by apply map_Forall_insert_2].
    destruct (sigs !! p) eqn:Hp; [rewrite map_size_insert_Some by (by eexists)|rewrite map_size_insert_None by done]; lia. }
  destruct ev as [u|p sg|s|p s| |].
  - destruct (unit_data u) as [[|sg]|]; [by apply (IH sigs)| |by apply (IH sigs)].
    destruct (keychain_verify h sg (creator u)) eqn:Hk; [by eapply Hins|by apply (IH sigs)].
  - destruct (keychain_verify h sg p) eqn:Hk; [by eapply Hins|by apply (IH sigs)].
  - rewrite requested_validate in H. destruct (validate_signed_session_outcome s k) eqn:Hs; [|by apply (IH sigs)].
    apply check_header_Ok in H as (-> & ? & ->). done.
  - destruct (validate_signed_session_outcome s k) eqn:Hs; [|by apply (IH sigs)].
    apply check_header_Ok in H as (-> & ? & ->). done.
  - by apply (IH sigs).
  - mrun. done.
Qed.

(** ** Items *)

Abbreviation accepts_ := (accepts d0 modules tx_hash_from_parts verify_schnorr version ci_status_senders).

Lemma process_unprocessed_accepts commits l (db db' : DB) L :
  log_repr (AcceptedItems db) L ->
  process_unprocessed commits (Z.of_nat (length L)) l db = (Ok tt, db') -> accepts_ db L l db'.
Proof.
  revert commits db L. induction l as [|a l IH]; intros commits db L HL H; simpl in H; [mrun; constructor|].
  apply bind_Ok in H as (r & db1 & H1 & H2).
  destruct (process_next _ _ _ _ _ _ _ _ _ _ _ _ HL H1) as (Hp & Ha & Hr). destruct r as [e|[]]; [mrun|].
  eapply accepts_cons; [done|exact Ha|done|]. eapply IH; [done|].
  replace (Z.of_nat (length (L ++ [a]))) with (Z.of_nat (length L) + 1) by (rewrite length_app; simpl; lia).
  exact H2.
Qed.

Lemma accepts_process_unprocessed l (db db' : DB) L :
  accepts_ db L l db' -> process_unprocessed (fun _ _ => None) (Z.of_nat (length L)) l db = (Ok tt, db').
Proof.
  induction 1 as [db L|db L a l db1 db' Hp Ha Hl H IH]; [done|].
  simpl. apply bind_Ok. exists (inr tt), db1. split; [by apply process_ordered_intro|].
  by replace (Z.of_nat (length L) + 1) with (Z.of_nat (length (L ++ [a]))) by (rewrite length_app; simpl; lia).
Qed.

Lemma recover_session_Ok commits s (db db' : DB) L :
  log_repr (AcceptedItems db) L -> recover_session commits s db = (Ok tt, db') ->
  exists l, items (session_outcome s) = L ++ l /\ accepts_ db L l db'.
Proof.
  intros HL H. unfold recover_session in H. apply bind_Ok in H as (pending & s1 & [-> ->]%gets_Ok & H).
  rewrite (log_repr_pending _ _ HL) in H. cbv zeta in H.
  apply bind_Ok in H as ([] & s1 & [Hle%Nat.leb_le ->]%rassert_Ok & H).
  apply bind_Ok in H as ([] & s1 & [Heq%bool_decide_eq_true ->]%rassert_Ok & H).
  exists (drop (length L) (items (session_outcome s))). split.
  - rewrite <- Heq at 1. by rewrite take_drop.
  - rewrite length_take, Nat.min_l in H by done. by eapply process_unprocessed_accepts.
Qed.

(** The invariant of the collection loop. *)
Lemma collect_items_Ok k commits events (db db' : DB) L r :
  log_repr (AcceptedItems db) L ->
  collect_items k commits (Z.of_nat (length L)) events db = (Ok r, db') ->
  exists l, accepts_ db L l db' /\
  match r with
  | RoundLimit n | Waiting n => n = Z.of_nat (length (L ++ l))
  | Recovered s => validate_signed_session_outcome s k = true /\ items (session_outcome s) = L ++ l
  | Closed => True
  end.
Proof.
  revert commits db L. induction events as [|ev events IH]; intros commits db L HL H; simpl in H.
  { mrun. exists []. rewrite app_nil_r. split; [constructor|done]. }
  assert (forall s, validate_signed_session_outcome s k = true ->
    (recover_session (commits 0%nat) s ≫= fun _ => mret (Recovered s)) db = (Ok r, db') -> exists l, accepts_ db L l db' /\
      r = Recovered s /\ validate_signed_session_outcome s k = true /\ items (session_outcome s) = L ++ l) as Hrec.
  { intros s Hs Hb. apply bind_Ok in Hb as ([] & s1 & Hb & [-> ->]%ret_Ok).
    destruct (recover_session_Ok _ _ _ _ _ HL Hb) as (l & Hl & Hacc). by exists l. }
  destruct ev as [u|s|p s| |].
  - destruct (_ <=? _); [mrun; exists []; rewrite app_nil_r; split; [constructor|done]|].
    apply bind_Ok in H as (n & db1 & H1 & H2).
    destruct (process_items_accepts _ _ _ _ _ _ _ _ _ _ _ _ HL H1) as (l1 & Hacc & _ & ->).
    pose proof (accepts_log _ _ _ _ _ _ _ _ _ _ HL Hacc) as HL1.
    apply IH in H2 as (l2 & Hacc2 & Hr); [|done]. exists (l1 ++ l2). rewrite app_assoc. split; [|done].
    by eapply accepts_app.
  - rewrite requested_validate in H. destruct (validate_signed_session_outcome s k) eqn:Hs; [|by apply IH in H].
    destruct (Hrec s Hs H) as (l & Hacc & -> & Hl). by exists l.
  - destruct (validate_signed_session_outcome s k) eqn:Hs; [|by apply IH in H].
    destruct (Hrec s Hs H) as (l & Hacc & -> & Hl). by exists l.
  - by apply IH in H.
  - mrun. exists []. split; [constructor|done].
Qed.

Lemma accepts_outcomes (db db' : DB) L l :
  log_repr (AcceptedItems db) L -> accepts_ db L l db' ->
  SignedSessionOutcomes db' = SignedSessionOutcomes db.
Proof.
  intros HL H. induction H as [|db L a l db1 db' Hp Ha Hl H IH]; [done|]. rewrite IH by done.
  apply attempt_inr in Ha as [[Hs _]|(_ & _ & dbtx & Ht & Hb)].
  - rewrite (log_repr_lookup _ _ _ HL), lookup_ge_None_2 in Hs by done. done.
  - apply process_with_db_tables in Ht as (_ & Ht & _). apply check_balance_sheet_tables in Hb as (_ & _ & -> & _).
    done.
Qed.

(** Two runs over the same items that complete end in the same state. *)
Lemma process_items_det c1 c2 idx l (db db1 db2 : DB) n1 n2 :
  process_items_ c1 idx l db = (Ok n1, db1) -> process_items_ c2 idx l db = (Ok n2, db2) -> n1 = n2 /\ db1 = db2.
Proof.
  revert c1 c2 idx db. induction l as [|a l IH]; intros c1 c2 idx db H1 H2; [simpl in *; mrun; done|].
  apply process_items_cons in H1 as (r1 & d1 & [_ Ha1]%process_ordered_Ok & H1).
  apply process_items_cons in H2 as (r2 & d2 & [_ Ha2]%process_ordered_Ok & H2).
  rewrite Ha1 in Ha2. injection Ha2 as <- <-. by eapply IH.
Qed.

(** C5: guardians that recover a session end in the same state as those that
    processed it.  Guardian A processed all the ordered items of a session, B a
    prefix of them, starting from the same database.  When B obtains the
    session outcome of A, with whatever signatures, it processes exactly the
    items it is missing: no check panics, and B's database equals A's. *)
Theorem recovery_agrees l l' cA cB (db dbA dbB : DB) nA nB signatures :
  AcceptedItems db = ∅ ->
  process_items_ cA 0 (l ++ l') db = (Ok nA, dbA) -> process_items_ cB 0 l db = (Ok nB, dbB) ->
  recover_session (fun _ _ => None)
    {| session_outcome := {| items := pending_accepted_items dbA |}; session_signatures := signatures |} dbB
    = (Ok tt, dbA).
Proof.
  intros Hdb HA HB. assert (log_repr (AcceptedItems db) []) as HL by (rewrite Hdb; apply log_repr_empty).
  assert (exists db1 n1, process_items_ cA 0 l db = (Ok n1, db1)) as (db1 & n1 & H1).
  { eapply process_items_prefix, HA. }
  destruct (process_items_det _ _ _ _ _ _ _ _ _ H1 HB) as [-> ->].
  rewrite (process_items_app _ _ _ _ _ _ _ _ _ _ _ _ _ H1) in HA.
  destruct (process_items_accepts _ _ _ _ _ _ _ _ _ _ [] _ HL HB) as (LB & HaccB & _ & ->). simpl app in *.
  pose proof (accepts_log _ _ _ _ _ _ _ _ _ _ HL HaccB) as HLB. simpl app in HLB.
  destruct (process_items_accepts _ _ _ _ _ _ _ _ _ _ LB _ HLB HA) as (l2 & Hacc & _ & _).
  pose proof (accepts_log _ _ _ _ _ _ _ _ _ _ HLB Hacc) as HLA.
  unfold recover_session. rewrite (log_repr_pending _ _ HLA).
  unfold gets, rassert, mbind, M_bind, mret, M_ret. simpl. rewrite (log_repr_pending _ _ HLB).
  rewrite length_app, (proj2 (Nat.leb_le _ _)) by lia. rewrite take_app_length, drop_app_length.
  rewrite bool_decide_true by done. by apply accepts_process_unprocessed.
Qed.

(** ** Agreement *)

Lemma header_index o1 o2 k1 k2 : is_u64 k1 -> is_u64 k2 -> header o1 k1 = header o2 k2 -> k1 = k2.
Proof.
  unfold is_u64, u64_max. intros H1 H2 [H _]%app_inj_1; [|by rewrite !to_be_bytes_length].
  apply to_be_bytes_inj in H; simpl; lia.
Qed.

Lemma validate_quorum s k :
  validate_signed_session_outcome s k = true -> is_quorum (dom pks) (dom (session_signatures s)).
Proof.
  intros [Hsz Hv]%validate_true. split.
  - intros p [sg Hp]%elem_of_dom. apply Hv in Hp. unfold keychain_verify in Hp. apply elem_of_dom.
    destruct (pks !! p); [by eexists|done].
  - rewrite !size_dom. unfold num_peers in Hsz. lia.
Qed.


(** ** What a completed session guarantees *)

Context (our_pk : Z) (Hidentity : pks !! identity = Some our_pk).
(** Signatures verify under the key that made them. *)
Context (Hsign : forall m, verify_schnorr (sign_schnorr m) m our_pk = true).

Lemma own_signature h : map_Forall (fun p sg => keychain_verify h sg p = true)
  ({[ identity := keychain_sign h ]} : gmap Z Z).
Proof using Hidentity Hsign.
  intros p sg Hp. apply lookup_singleton_Some in Hp as [<- <-]. unfold keychain_verify. rewrite Hidentity. apply Hsign.
Qed.

Lemma threshold_num_peers : 1 <= threshold num_peers.
Proof using Hidentity.
  apply threshold_pos. unfold num_peers.
  assert (size pks ≠ 0)%nat; [|lia]. intros H%map_size_empty_inv. by rewrite H in Hidentity.
Qed.

Lemma complete_signed_Ok k commits events sent sign_events (db db1 : DB) s :
  AcceptedItems db = ∅ ->
  complete_signed_session_outcome k commits events sent sign_events db = (Ok (Done s), db1) ->
  validate_signed_session_outcome s k = true /\
  header (session_outcome s) k = header {| items := pending_accepted_items db1 |} k /\
  SignedSessionOutcomes db1 = SignedSessionOutcomes db.
Proof using Hidentity Hsign.
  intros Hdb H. assert (log_repr (AcceptedItems db) []) as HL by (rewrite Hdb; apply log_repr_empty).
  apply bind_Ok in H as (r & db2 & Hc & H).
  destruct (collect_items_Ok _ _ _ _ _ [] _ HL Hc) as (l & Hacc & Hr).
  pose proof (accepts_log _ _ _ _ _ _ _ _ _ _ HL Hacc) as HL2. pose proof (accepts_outcomes _ _ _ _ HL Hacc) as Ho.
  destruct r as [n|s'| |n]; simpl app in *; [| |mrun..].
  - apply bind_Ok in H as (pending & s1 & [-> ->]%gets_Ok & H).
    apply bind_Ok in H as ([] & s1 & [_ ->]%rassert_Ok & H). cbv zeta in H. destruct (negb sent); [mrun|].
    apply bind_Ok in H as (r' & s1 & Hs & H).
    apply collect_signatures_Ok in Hs as [-> Hs]; [| |apply own_signature].
    2:{ rewrite map_size_singleton. apply threshold_num_peers. }
    destruct r' as [sigs|s'| |]; mrun.
    + by split_and!; [apply validate_true|..].
    + destruct Hs as [Hs1 Hs2]. done.
  - mrun. destruct Hr as [Hr1 Hr2]. rewrite (log_repr_pending _ _ HL2), <- Hr2.
    split_and!; [done| |done]. by destruct s' as [[]].
Qed.

(** C27: a completed session is a valid one.  Whatever units, signatures and
    signed outcomes arrive, in whatever order, if a guardian gets to a signed
    outcome of a session then it has exactly a threshold of valid signatures of
    distinct guardians, clients accept it, and its header is the header of the
    items the guardian applied to its own database; [run_session] passes its
    check and stores the outcome. *)
Theorem session_completes k commits events sent sign_events (db db1 : DB) s :
  AcceptedItems db = ∅ -> SignedSessionOutcomes db !! k = None ->
  complete_signed_session_outcome k commits events sent sign_events db = (Ok (Done s), db1) ->
  Z.of_nat (size (session_signatures s)) = threshold num_peers /\
  validate_signed_session_outcome s k = true /\ SignedSessionOutcome_verify s k = true /\
  header (session_outcome s) k = header {| items := pending_accepted_items db1 |} k /\
  exists db', run_session k commits events sent sign_events None db = (Ok (Done s), db') /\
    SignedSessionOutcomes db' = <[k := s]> (SignedSessionOutcomes db) /\ modules_db db' = modules_db db1.
Proof using Hidentity Hsign.
  intros Hdb Hk H. destruct (complete_signed_Ok _ _ _ _ _ _ _ _ Hdb H) as (Hv & Hh & Ho).
  pose proof (proj1 (validate_true _ _) Hv) as [Hsz _].
  split_and!; [done|done|by apply validate_verify|done|].
  unfold run_session, mbind at 1, M_bind at 1. rewrite H. cbv iota beta.
  unfold rassert. rewrite Hv. unfold mbind, M_bind, mret, M_ret. cbv iota beta.
  eexists. rewrite (proj2 (complete_session_Ok None k s db1 _)) by (split_and!; [done|by rewrite Ho|reflexivity]).
  split; [reflexivity|]. simpl. by rewrite Ho.
Qed.
End session.
