(* ===== verification/Federation.v ===== *)
(** * A federation with lightning, mint and wallet modules

    The registry of a federation that runs the modules of [Lnv2Server],
    [MintServer] and [Walletv2Server] behind the type-erased interface of the
    engine, and a concrete guardian of it on which the theorems of
    [Transaction], [Engine] and [Session] are evaluated. *)

From S2P Require Import Prelude Db Amounts Peers Votes ServerModule Transaction.
From S2P Require Import MintServer Lnv2Server Walletv2Server Engine Broadcast Session.

(** ** The values of all modules *)

Record FedDb := { fed_ln : LnDb; fed_mint : MintDb; fed_wallet : WalletDb }.
Inductive FedInput := LnIn (i : LightningInput) | MintIn (i : MintInput) | WalletIn (i : WalletInput).
Inductive FedOutput := LnOut (o : LightningOutput) | MintOut (o : MintOutput) | WalletOut (o : WalletOutput).
Inductive FedItem :=
| LnItem (c : LightningConsensusItem) | MintItem (c : MintConsensusItem) | WalletItem (c : WalletConsensusItem).
Inductive FedError := LnErr (e : LightningError) | MintErr (e : MintError) | WalletErr (e : WalletError).

Definition FedDb_empty : FedDb :=
  {| fed_ln := LnDb_empty; fed_mint := MintDb_empty; fed_wallet := WalletDb_empty |}.

#[export] Instance Note_eq_dec : EqDecision Note.
Proof. solve_decision. Defined.
#[export] Instance MintInput_eq_dec : EqDecision MintInput.
Proof. solve_decision. Defined.
#[export] Instance MintOutput_eq_dec : EqDecision MintOutput.
Proof. solve_decision. Defined.
#[export] Instance MintConsensusItem_eq_dec : EqDecision MintConsensusItem.
Proof. solve_decision. Defined.
#[export] Instance PaymentImage_eq_dec : EqDecision PaymentImage.
Proof. solve_decision. Defined.
#[export] Instance Commitment_eq_dec : EqDecision Commitment.
Proof. solve_decision. Defined.
#[export] Instance IncomingContract_eq_dec : EqDecision IncomingContract.
Proof. solve_decision. Defined.
#[export] Instance OutgoingContract_eq_dec : EqDecision OutgoingContract.
Proof. solve_decision. Defined.
#[export] Instance OutgoingWitness_eq_dec : EqDecision OutgoingWitness.
Proof. solve_decision. Defined.
#[export] Instance LightningInput_eq_dec : EqDecision LightningInput.
Proof. solve_decision. Defined.
#[export] Instance LightningOutput_eq_dec : EqDecision LightningOutput.
Proof. solve_decision. Defined.
#[export] Instance LightningConsensusItem_eq_dec : EqDecision LightningConsensusItem.
Proof. solve_decision. Defined.
#[export] Instance script_kind_eq_dec : EqDecision script_kind.
Proof. solve_decision. Defined.
#[export] Instance StandardScript_eq_dec : EqDecision StandardScript.
Proof. solve_decision. Defined.
#[export] Instance WalletInput_eq_dec : EqDecision WalletInput.
Proof. solve_decision. Defined.
#[export] Instance WalletOutput_eq_dec : EqDecision WalletOutput.
Proof. solve_decision. Defined.
#[export] Instance WalletConsensusItem_eq_dec : EqDecision WalletConsensusItem.
Proof. solve_decision. Defined.
#[export] Instance FedInput_eq_dec : EqDecision FedInput.
Proof. solve_decision. Defined.
#[export] Instance FedOutput_eq_dec : EqDecision FedOutput.
Proof. solve_decision. Defined.
#[export] Instance FedItem_eq_dec : EqDecision FedItem.
Proof. solve_decision. Defined.

(** ** The registry *)
Section registry.
Context (ln : ServerModule LnDb LightningInput LightningOutput LightningConsensusItem LightningError).
Context (mint : ServerModule MintDb MintInput MintOutput MintConsensusItem MintError).
Context (wallet : ServerModule WalletDb WalletInput WalletOutput WalletConsensusItem WalletError).
Context `{!Audited ln, !Audited mint, !Audited wallet}.

Definition dyn_ln : ServerModule FedDb FedInput FedOutput FedItem FedError :=
  dyn_module ln fed_ln (fun d s => {| fed_ln := d; fed_mint := fed_mint s; fed_wallet := fed_wallet s |})
    (fun i => match i with LnIn i => Some i | _ => None end)
    (fun o => match o with LnOut o => Some o | _ => None end)
    (fun c => match c with LnItem c => Some c | _ => None end) LnErr.
Definition dyn_mint : ServerModule FedDb FedInput FedOutput FedItem FedError :=
  dyn_module mint fed_mint (fun d s => {| fed_ln := fed_ln s; fed_mint := d; fed_wallet := fed_wallet s |})
    (fun i => match i with MintIn i => Some i | _ => None end)
    (fun o => match o with MintOut o => Some o | _ => None end)
    (fun c => match c with MintItem c => Some c | _ => None end) MintErr.
Definition dyn_wallet : ServerModule FedDb FedInput FedOutput FedItem FedError :=
  dyn_module wallet fed_wallet (fun d s => {| fed_ln := fed_ln s; fed_mint := fed_mint s; fed_wallet := d |})
    (fun i => match i with WalletIn i => Some i | _ => None end)
    (fun o => match o with WalletOut o => Some o | _ => None end)
    (fun c => match c with WalletItem c => Some c | _ => None end) WalletErr.

#[export] Instance dyn_ln_audited : Audited dyn_ln.
Proof using Type*. apply dyn_audited; [done|apply _]. Defined.
#[export] Instance dyn_mint_audited : Audited dyn_mint.
Proof using Type*. apply dyn_audited; [done|apply _]. Defined.
#[export] Instance dyn_wallet_audited : Audited dyn_wallet.
Proof using Type*. apply dyn_audited; [done|apply _]. Defined.

Definition ln_entry : AuditedModule FedDb FedInput FedOutput FedItem FedError :=
  {| am_module := dyn_ln; am_audited := _ |}.
Definition mint_entry : AuditedModule FedDb FedInput FedOutput FedItem FedError :=
  {| am_module := dyn_mint; am_audited := _ |}.
Definition wallet_entry : AuditedModule FedDb FedInput FedOutput FedItem FedError :=
  {| am_module := dyn_wallet; am_audited := _ |}.

Definition registry : gmap Z (AuditedModule FedDb FedInput FedOutput FedItem FedError) :=
  {[ 0 := ln_entry; 1 := mint_entry; 2 := wallet_entry ]}.

Lemma registry_lookup id am : registry !! id = Some am ->
  (id = 0 /\ am = ln_entry) \/ (id = 1 /\ am = mint_entry) \/ (id = 2 /\ am = wallet_entry).
Proof.
  unfold registry. intros [[<- <-]|[_ H]]%lookup_insert_Some; [by left|right].
  apply lookup_insert_Some in H as [[<- <-]|[_ H]]; [by left|right]. by apply lookup_singleton_Some in H as [<- <-].
Qed.
End registry.

(** ** A guardian

    The three modules with the parameters of their examples. *)
Module FedExample.
Import Lnv2Example.
Definition ln_mod := lnv2_module Lnv2Example.cfg sha pk schnorr chash ohash mhash vct vagg dec share.
Definition mint_mod := mint_module MintExample.cfg MintExample.verify MintExample.sign MintExample.h MintExample.h.
Import Walletv2Example.
Definition wallet_mod := walletv2_module Walletv2Example.cfg desc id_hash whash txid std rhash verify tweak_pk sat blocks.

Lemma ln_fee_ok : Fee.wf (Lnv2Server.fee_consensus Lnv2Example.cfg).
Proof. unfold Fee.wf. simpl. lia. Qed.
Lemma wallet_fee_ok : Fee.wf (Walletv2Server.fee_consensus Walletv2Example.cfg).
Proof. unfold Fee.wf. simpl. lia. Qed.
Lemma dust_ok : 0 <= dust_limit Walletv2Example.cfg.
Proof. simpl. lia. Qed.
Lemma fed_blocks_ok : blocks_ok blocks.
Proof.
  intros h t o. unfold blocks. destruct (h =? 0); [|set_solver]. intros ->%list_elem_of_singleton Ho.
  unfold deposit in Ho. simpl in Ho. unfold is_u64, u64_max. set_unfold in Ho. destruct Ho as [->|[->|[]]]; simpl; lia.
Qed.

Definition reg : gmap Z (AuditedModule FedDb FedInput FedOutput FedItem FedError) :=
  @registry ln_mod mint_mod wallet_mod
    (lnv2_audited _ _ _ _ _ _ _ _ _ _ _ ln_fee_ok)
    (mint_audited _ _ _ _ _ MintExample.fee_ok)
    (walletv2_audited _ _ _ _ _ _ _ _ _ _ _ wallet_fee_ok dust_ok fed_blocks_ok).

Lemma init_inv : modules_inv FedDb_empty reg ∅.
Proof.
  intros id am [[-> ->]|[[-> ->]|[-> ->]]]%registry_lookup.
  - apply ln_inv_empty.
  - apply mint_inv_empty.
  - apply wallet_inv_empty.
Qed.

Lemma init_net : 0 <= total_net FedDb_empty reg ∅.
Proof. vm_compute. discriminate. Qed.

Definition core_version : CoreConsensusVersion := {| major := 2; minor := 1 |}.
Definition tx_hash_parts (ins : list (Dyn FedInput)) (outs : list (Dyn FedOutput)) (n : Z) : Z := n.
Definition senders : gset Z := {[ 0 ]}.

Abbreviation DB := (CoreDb FedDb FedInput FedOutput FedItem).
Abbreviation Accepted := (AcceptedItem FedInput FedOutput FedItem).
Abbreviation mods := (Transaction.modules reg).
Abbreviation with_tx := (process_consensus_item_with_db_transaction FedDb_empty mods tx_hash_parts schnorr core_version).
Abbreviation process_ := (process_ordered_item FedDb_empty mods tx_hash_parts schnorr core_version senders).
Abbreviation attempt_ := (process_consensus_item_attempt FedDb_empty mods tx_hash_parts schnorr core_version).
Abbreviation process_items_ := (process_items FedDb_empty mods tx_hash_parts schnorr core_version senders).
Abbreviation hist := (Engine.history FedDb_empty reg tx_hash_parts schnorr core_version senders).

(** A feerate vote, a block with a deposit, and a transaction that claims the
    deposit for a note. *)
Definition a1 : Accepted := {| accepted_item := ModuleItem {| module_instance_id := 2; Transaction.value := WalletItem (Feerate (Some 1000)) |};
                               accepted_peer := 0 |}.
Definition a2 : Accepted := {| accepted_item := ModuleItem {| module_instance_id := 2; Transaction.value := WalletItem (BlockCount 1) |};
                               accepted_peer := 0 |}.
Definition tx : Transaction FedInput FedOutput :=
  {| Transaction.inputs := [ {| module_instance_id := 2; Transaction.value := WalletIn (WalletInputV0 0 3 500) |} ];
     Transaction.outputs := [ {| module_instance_id := 1; Transaction.value := MintOut (MintOutputV0 1024 50) |} ];
     Transaction.nonce := 77; Transaction.signatures := NaiveMultisig [80] |}.
Definition a3 : Accepted := {| accepted_item := TransactionItem tx; accepted_peer := 0 |}.

Definition no_failures : nat -> option DatabaseError := fun _ => None.
Definition db0 : DB := CoreDb_empty.
Definition db1 : DB := (process_ no_failures 0 (accepted_item a1) 0 db0).2.
Definition db2 : DB := (process_ no_failures 1 (accepted_item a2) 0 db1).2.
Definition db3 : DB := (process_ no_failures 2 (accepted_item a3) 0 db2).2.
Definition tx1 : DB := (with_tx (accepted_item a1) 0 db0).2.
Definition tx2 : DB := (with_tx (accepted_item a2) 0 db1).2.
Definition tx3 : DB := (with_tx (accepted_item a3) 0 db2).2.

Lemma item_ok1 : consensus_item_ok reg (accepted_item a1).
Proof. intros am [[[=] _]|[[[=] _]|[_ ->]]]%registry_lookup c [= <-]. exact Logic.I. Qed.
Lemma item_ok2 : consensus_item_ok reg (accepted_item a2).
Proof. intros am [[[=] _]|[[[=] _]|[_ ->]]]%registry_lookup c [= <-]. simpl. unfold is_u64, u64_max. lia. Qed.
Lemma inputs_ok : Forall (dyn_input_ok reg) (Transaction.inputs tx).
Proof.
  apply Forall_singleton. intros am [[[=] _]|[[[=] _]|[_ ->]]]%registry_lookup i [= <-].
  simpl. unfold is_u64, u64_max. lia.
Qed.
Lemma outputs_ok : Forall (dyn_output_ok reg) (Transaction.outputs tx).
Proof.
  apply Forall_singleton. intros am [[[=] _]|[[_ ->]|[[=] _]]]%registry_lookup i [= <-].
  simpl. unfold is_u64, u64_max. lia.
Qed.
Lemma item_ok3 : consensus_item_ok reg (accepted_item a3).
Proof. split; [apply inputs_ok|apply outputs_ok]. Qed.

Lemma run3 : process_items_ (fun _ => no_failures) 0 [a1; a2; a3] db0 = (Ok 3, db3).
Proof. vm_compute. reflexivity. Qed.

Lemma fed_history1 : hist [a1] db1.
Proof.
  apply (history_item _ _ _ _ _ _ [] db0 tx1 no_failures a1); [constructor|apply item_ok1|vm_compute..];
    [reflexivity|discriminate|reflexivity].
Qed.
Lemma fed_history2 : hist [a1; a2] db2.
Proof.
  apply (history_item _ _ _ _ _ _ [a1] db1 tx2 no_failures a2); [apply fed_history1|apply item_ok2|vm_compute..];
    [reflexivity|discriminate|reflexivity].
Qed.
Lemma fed_history3 : hist [a1; a2; a3] db3.
Proof.
  apply (history_item _ _ _ _ _ _ [a1; a2] db2 tx3 no_failures a3); [apply fed_history2|apply item_ok3|vm_compute..];
    [reflexivity|discriminate|reflexivity].
Qed.

Lemma tx_run :
  process_transaction_with_dbtx FedDb_empty mods tx_hash_parts schnorr tx core_version Consensus (modules_db db2)
    = (Ok tt, modules_db tx3).
Proof. vm_compute. reflexivity. Qed.

Lemma db2_inv : modules_inv FedDb_empty reg (modules_db db2).
Proof. destruct (history_invariant _ _ _ _ _ _ init_inv init_net _ _ fed_history2) as [_ _ _ _ _ H _]. exact H. Qed.

Lemma transaction_funded_witness :
  exists metas outs,
    Forall2 (processed reg 77) (Transaction.inputs tx) metas /\ Forall2 (Transaction.created reg 77) (Transaction.outputs tx) outs /\
    sum_unit BITCOIN ServerModule.amounts outs + sum_unit BITCOIN fees (amount <$> metas) + sum_unit BITCOIN fees outs
      <= sum_unit BITCOIN amounts (amount <$> metas).
Proof.
  destruct (transaction_funded FedDb_empty reg tx_hash_parts schnorr tx core_version _ _ db2_inv inputs_ok outputs_ok tx_run)
    as (metas & outs & Hm & Ho & Hu). exists metas, outs. split; [exact Hm|]. split; [exact Ho|].
  apply (Hu BITCOIN).
Defined.

Lemma transaction_authorised_witness :
  exists sigs metas, NaiveMultisig [80] = NaiveMultisig sigs /\
    Forall2 (processed reg 77) (Transaction.inputs tx) metas /\
    Forall2 (fun meta sig => schnorr sig 77 (pub_key meta) = true) metas sigs.
Proof. apply (transaction_authorised FedDb_empty reg tx_hash_parts schnorr tx core_version _ _ tx_run). Defined.

Definition flaky : nat -> option DatabaseError := fun n => if (n <=? 3)%nat then Some SnapshotTooOld else None.

Lemma retry_transparent_witness : process_ flaky 2 (accepted_item a3) 0 db2 = (Ok (inr tt), db3).
Proof.
  rewrite (retry_transparent FedDb_empty mods tx_hash_parts schnorr core_version senders flaky 3).
  - vm_compute. reflexivity.
  - unfold senders. set_solver.
  - unfold MAX_ITEM_PROCESSING_ATTEMPTS. lia.
  - intros i Hi. unfold flaky. by rewrite (proj2 (Nat.leb_le _ _)) by lia.
  - reflexivity.
Defined.

Lemma run2 : process_items_ (fun _ => no_failures) 0 [a1; a2] db0 = (Ok 2, db2).
Proof. vm_compute. reflexivity. Qed.

Lemma crash_replay_witness :
  process_items_ (fun _ => no_failures) 0 [a1; a2; a3] db2 = process_items_ (fun _ => no_failures) 2 [a3] db2.
Proof.
  destruct (crash_replay FedDb_empty mods tx_hash_parts schnorr core_version senders [a1; a2] [a3]
              (fun _ => no_failures) db0 db2 2 eq_refl run2 (fun _ => no_failures)) as [H _]. exact H.
Defined.

Lemma solvency_witness :
  0 <= total_net FedDb_empty reg (modules_db db2) /\
  exists db', attempt_ None 2 (accepted_item a3) 0 db2 = (Ok (inr tt), db') /\
    total_net FedDb_empty reg (modules_db db2) <= total_net FedDb_empty reg (modules_db db').
Proof.
  apply (solvency FedDb_empty reg tx_hash_parts schnorr core_version senders init_inv init_net [a1; a2] db2 2
           (accepted_item a3) 0 tx3 fed_history2 item_ok3).
  - vm_compute. reflexivity.
  - vm_compute. reflexivity.
  - vm_compute. discriminate.
Defined.

Lemma transaction_once_witness :
  NoDup [77] /\ attempt_ None 3 (TransactionItem tx) 0 db3 = (Ok (inl AlreadyAccepted), db3).
Proof.
  destruct (transaction_once FedDb_empty reg tx_hash_parts schnorr core_version senders init_inv init_net _ _ fed_history3)
    as [H1 H2]. split; [exact H1|]. apply H2; [left|vm_compute; reflexivity].
Defined.

Lemma module_history_complete_witness :
  exists ls, Forall2 (fun a l => module_items tx_hash_parts 2 a = Some l) [a1; a2; a3] ls /\
    get_module_history_stream tx_hash_parts 2 db3 = Some (mjoin ls).
Proof.
  apply (module_history_complete FedDb_empty reg tx_hash_parts schnorr core_version senders init_inv init_net _ _ 2 fed_history3).
Defined.

Definition outcome : SignedSessionOutcome FedInput FedOutput FedItem :=
  {| session_outcome := {| items := [a1; a2; a3] |}; session_signatures := {[ 0 := 1 ]} |}.

Lemma session_log_witness :
  exists db', complete_session None 0 outcome db3 = (Ok tt, db') /\ get_finished_session_count db' = 1.
Proof.
  destruct (session_log FedDb_empty reg tx_hash_parts schnorr core_version senders init_inv init_net _ _ outcome fed_history3)
    as (outs & db' & _ & _ & H3 & _ & H5 & _). exists db'. split; [exact H3|exact H5].
Defined.

(** The session of a federation with one guardian whose key is 5. *)
Definition item_hash (a : Accepted) : Z := accepted_peer a + 1.
Definition merkle (leaf : Z) (leaves : list Z) : list Z := [sum_list (leaf :: leaves)].
Definition tag (m : list Z) : Z := sum_list m.
Definition keys : gmap Z Z := {[ 0 := 5 ]}.
Definition sign_header (m : Z) : Z := m + 5.
Definition decode (bytes : list Z) : option (list (ConsensusItem FedInput FedOutput FedItem)) :=
  match bytes with
  | [1] => Some [accepted_item a1; accepted_item a2]
  | [2] => Some [accepted_item a3]
  | _ => None
  end.
Abbreviation complete_ := (complete_signed_session_outcome FedDb_empty mods tx_hash_parts schnorr core_version senders
  item_hash merkle tag keys 0 10 sign_header decode).
Abbreviation validate_ := (validate_signed_session_outcome schnorr item_hash merkle tag keys).
Abbreviation header_ := (header item_hash merkle).

Definition ordered (r : Z) (data : option UnitData) : OrderedUnit := {| creator := 0; round := r; unit_data := data |}.
Definition events : list (CollectEvent (I := FedInput) (O := FedOutput) (C := FedItem)) :=
  [UnitOrdered (ordered 1 (Some (Batch [1]))); UnitOrdered (ordered 2 (Some (Batch [9]))); IndexTick;
   UnitOrdered (ordered 3 (Some (Batch [2]))); UnitOrdered (ordered 10 None)].
Definition signed : SignedSessionOutcome FedInput FedOutput FedItem :=
  {| session_outcome := {| items := [a1; a2; a3] |}; session_signatures := {[ 0 := 8 ]} |}.

Lemma session_run : complete_ 0 (fun _ _ => no_failures) events true [] db0 = (Ok (Done signed), db3).
Proof. vm_compute. reflexivity. Qed.

Lemma session_completes_witness :
  Z.of_nat (size (session_signatures signed)) = threshold 1 /\ validate_ signed 0 = true.
Proof.
  destruct (session_completes FedDb_empty mods tx_hash_parts schnorr core_version senders item_hash merkle tag keys 0 10
    sign_header decode 5 eq_refl (fun m => Z.eqb_refl (m + 5)) 0 _ events true [] db0 db3 signed eq_refl eq_refl session_run)
    as (H1 & H2 & _). split; [exact H1|exact H2].
Defined.

Lemma recovery_agrees_witness :
  recover_session FedDb_empty mods tx_hash_parts schnorr core_version senders (fun _ _ => None)
    {| session_outcome := {| items := pending_accepted_items db3 |}; session_signatures := ∅ |} db2 = (Ok tt, db3).
Proof.
  apply (recovery_agrees FedDb_empty mods tx_hash_parts schnorr core_version senders [a1; a2] [a3]
    (fun _ => no_failures) (fun _ => no_failures) db0 db3 db2 3 2 ∅ eq_refl run3 run2).
Defined.

(** A signature scheme under which only the header of session 0 has a
    signature. *)
Definition tag_exact (m : list Z) : Z := Z.pos (encode m).
Definition only_session0 (sg m pk : Z) : bool := m =? tag_exact (header_ (session_outcome signed) 0).

End FedExample.
