(* ===== verification/Threshold.v ===== *)
(** * Threshold cryptography

    [crypto/tbs/src/lib.rs], the blind signatures the guardians issue notes
    with, and [crypto/tpe/src/lib.rs], the encryption of lightning preimages
    to the federation.  The curve is a library: the scalars are a field, the
    groups are vector spaces over it, and the pairing is a parameter that is
    bilinear and not degenerate.  Hashing and the expansion of seeds are
    parameters too.

    Peers are [u16]s; their scalars are one larger and different from each
    other, because the order of the curve is.  A function that panics returns
    [None]. *)

From Stdlib Require Import NArith String.
From Stdlib Require Ascii.
From mathcomp Require Import boot order ssralg ssrnum poly rat.
Set Implicit Arguments.
Unset Strict Implicit.
Unset Printing Implicit Defensive.
Import GRing.Theory.
Local Open Scope ring_scope.

(** [Iterator::reduce]. *)
Definition reduce {A : Type} (f : A -> A -> A) (s : seq A) : option A :=
  if s is x :: s' then Some (foldl f x s') else None.

(** [collect] of values that may panic. *)
Fixpoint all_some {A : Type} (s : seq (option A)) : option (seq A) :=
  match s with
  | [::] => Some [::]
  | None :: _ => None
  | Some x :: s' => omap (cons x) (all_some s')
  end.

Lemma all_some_map_in {A : eqType} {B : Type} (f : A -> option B) (g : A -> B) (s : seq A) :
  {in s, forall x, f x = Some (g x)} -> all_some (map f s) = Some (map g s).
Proof.
  elim: s => [//|x s IH] Hfg /=. rw (Hfg x) ?inE ?eqxx // IH // => y Hy.
  by apply: Hfg; rw inE Hy orbT.
Qed.

Lemma all_some_map {A B : Type} (f : A -> option B) (g : A -> B) (s : seq A) :
  (forall x, f x = Some (g x)) -> all_some (map f s) = Some (map g s).
Proof. by move=> Hfg; elim: s => [//|x s IH] /=; rw Hfg IH. Qed.

Section lagrange.
Variable F : fieldType.

(** The factors of the multiplier of [i]; the inverse exists because [j] is not [i]. *)
Definition factors (scalars : seq F) (i : F) : seq F := [seq j * (j - i)^-1 | j <- scalars & j != i].

(** The multiplier as a product. *)
Definition multiplier (scalars : seq F) (i : F) : F := \prod_(j <- scalars | j != i) (j / (j - i)).

Lemma foldl_mul (x : F) (s : seq F) : foldl *%R x s = x * \prod_(y <- s) y.
Proof. by elim: s x => [|y s IH] x /=; rw ?big_nil ?mulr1 // IH big_cons mulrA. Qed.

Lemma foldl_add (V : zmodType) (x : V) (s : seq V) : foldl +%R x s = x + \sum_(y <- s) y.
Proof. by elim: s x => [|y s IH] x /=; rw ?big_nil ?addr0 // IH big_cons addrA. Qed.

Lemma factors_prod (scalars : seq F) (i : F) : \prod_(y <- factors scalars i) y = multiplier scalars i.
Proof. by rw /factors /multiplier big_map big_filter. Qed.

(** ** Interpolation *)

(** One at [i] and zero at the other points. *)
Definition basis (scalars : seq F) (i : F) : {poly F} :=
  \prod_(j <- scalars | j != i) ((j - i)^-1 *: (j%:P - 'X)).

Lemma basis_zero (scalars : seq F) (i : F) : (basis scalars i).[0] = multiplier scalars i.
Proof.
  rw /basis horner_prod. apply: eq_bigr => j _.
  by rw hornerZ hornerD hornerN hornerC hornerX oppr0 addr0 mulrC.
Qed.

Lemma basis_self (scalars : seq F) (i : F) : (basis scalars i).[i] = 1.
Proof.
  rw /basis horner_prod big1 // => j ne.
  by rw hornerZ hornerD hornerN hornerC hornerX mulVf // subr_eq0.
Qed.

Lemma basis_other (scalars : seq F) (i j : F) : j \in scalars -> j != i -> (basis scalars i).[j] = 0.
Proof.
  move=> Hin ne. rw /basis horner_prod (big_rem j) //= ne hornerZ hornerD hornerN hornerC hornerX subrr mulr0.
  exact: mul0r.
Qed.

Lemma size_basis (scalars : seq F) (i : F) :
  i \in scalars -> uniq scalars -> (size (basis scalars i) <= size scalars)%N.
Proof.
  move=> Hin Hu. rw /basis.
  have Hle : forall s : seq F, (size (\prod_(j <- s) ((j - i)^-1 *: (j%:P - 'X)) : {poly F})%R <= (size s).+1)%N.
    elim=> [|j s IH]; first by rw big_nil size_poly1.
    rw big_cons. apply: (leq_trans (size_polyMleq _ _)).
    have H2 : (size ((j - i)^-1 *: (j%:P - 'X)) <= 2)%N.
      by rw (leq_trans (size_scale_leq _ _)) // -[_ - 'X]opprB size_polyN size_XsubC.
    by rw -subn1 leq_subLR (leq_trans (leq_add H2 IH)).
  rw -big_filter. apply: (leq_trans (Hle _)).
  have := count_predC (pred1 i) scalars. rw (count_uniq_mem _ Hu) Hin /= add1n => <-.
  by rw size_filter.
Qed.

Lemma interpolate_at (scalars : seq F) (p : {poly F}) :
  uniq scalars -> (size p <= size scalars)%N ->
  p = \sum_(x <- scalars) p.[x] *: basis scalars x.
Proof.
  move=> Hu Hp. apply/eqP. rw -subr_eq0. apply/eqP.
  apply: (roots_geq_poly_eq0 (rs := scalars)); [|exact: Hu|].
  - apply/allP => x Hx. rw rootE hornerD hornerN horner_sum (bigD1_seq x) //= hornerZ basis_self mulr1.
    rw big_seq_cond big1 ?addr0 ?subrr // => y /andP [Hy ne].
    by rw hornerZ basis_other ?mulr0 // eq_sym.
  - apply: (leq_trans (size_polyD _ _)). rw geq_max Hp size_polyN /=.
    rw big_seq. apply: (leq_trans (size_sum _ _ _)). apply/bigmax_leqP_seq => x Hx _.
    exact: (leq_trans (size_scale_leq _ _) (size_basis Hx Hu)).
Qed.

Lemma interpolate_zero (V : lmodType F) (v : V) (scalars : seq F) (p : {poly F}) :
  uniq scalars -> (size p <= size scalars)%N ->
  \sum_(x <- scalars) multiplier scalars x *: (p.[x] *: v) = p.[0] *: v.
Proof.
  move=> Hu Hp. rw [in RHS](interpolate_at Hu Hp) horner_sum scaler_suml.
  apply: eq_bigr => x _. by rw hornerZ basis_zero scalerA mulrC.
Qed.

(** ** Aggregation of shares, generic in the group *)

(** [zip], [map] and [reduce] of the multipliers and the shares. *)
Definition combine (V : lmodType F) (multipliers : seq F) (shares : seq V) : option V :=
  reduce +%R [seq m.1 *: m.2 | m <- zip multipliers shares].

(** [Scalar::from(peer + 1)] of the keys. *)
Definition scalars_of {A : Type} (shares : seq (nat * A)) : seq F := [seq (s.1.+1)%:R | s <- shares].

Lemma combine_multipliers (V : lmodType F) (v : V) (p : {poly F}) (shares : seq (nat * V)) :
  uniq (scalars_of shares) -> (size p <= size shares)%N -> (0 < size shares)%N ->
  all (fun s => s.2 == p.[(s.1.+1)%:R] *: v) shares ->
  combine (map (multiplier (scalars_of shares)) (scalars_of shares)) (unzip2 shares) = Some (p.[0] *: v).
Proof.
  move=> Hu Hp H0 Hall. set sc := scalars_of shares.
  have Hmap : [seq m.1 *: m.2 | m <- zip (map (multiplier sc) sc) (unzip2 shares)]
      = [seq multiplier sc x *: (p.[x] *: v) | x <- sc].
    rw -(map_comp _ _ shares) zip_map -!map_comp. apply/eq_in_map => s Hs /=.
    by rw (eqP (allP Hall _ Hs)).
  rw /combine Hmap. have Hsum := @interpolate_zero V v sc p Hu.
  rw size_map in Hsum. move: (Hsum Hp) => <-. rw -[in RHS](big_map (fun x => multiplier sc x *: (p.[x] *: v)) xpredT id).
  have : (0 < size [seq multiplier sc x *: (p.[x] *: v) | x <- sc])%N by rw !size_map.
  by case: [seq _ | _ <- sc] => [//|y ys] _ /=; rw foldl_add big_cons.
Qed.
End lagrange.

(** ** The curve *)

(** The operations of the [bls12_381] and [pairing] libraries that the code
    calls, with what it relies on.  Points carry no distinction between their
    affine and projective form. *)
Record curve := Curve {
  Scalar : fieldType;
  G1 : lmodType Scalar;
  G2 : lmodType Scalar;
  Gt : lmodType Scalar;
  G1_generator : G1;
  G2_generator : G2;
  pairing : G1 -> G2 -> Gt;
  G1_generator_neq0 : G1_generator != 0;
  G2_generator_neq0 : G2_generator != 0;
  G1_cyclic : forall x : G1, exists a, x = a *: G1_generator;
  G2_cyclic : forall y : G2, exists a, y = a *: G2_generator;
  pairing_scalel : forall a x y, pairing (a *: x) y = a *: pairing x y;
  pairing_scaler : forall a x y, pairing x (a *: y) = a *: pairing x y;
  pairing_injl : forall y, y != 0 -> injective (fun x => pairing x y);
  scalar_from_inj : forall a b : nat, (a <= 2 ^ 16)%N -> (b <= 2 ^ 16)%N -> (a%:R == b%:R :> Scalar) = (a == b);
}.

(** A [BTreeMap<u64, _>] of shares: the keys are peers, without repetition. *)
Definition share_map {A : Type} (shares : seq (nat * A)) : bool :=
  uniq (unzip1 shares) && all (fun k => (k < 2 ^ 16)%N) (unzip1 shares).

Lemma share_map_scalars (C : curve) {A : Type} (shares : seq (nat * A)) :
  share_map shares -> uniq (scalars_of (Scalar C) shares).
Proof.
  move=> /andP [Hu Hlt].
  have -> : scalars_of (Scalar C) shares = [seq k.+1%:R | k <- unzip1 shares] by rw -map_comp.
  rw map_inj_in_uniq // => a b /(allP Hlt) Ha /(allP Hlt) Hb /eqP.
  by rw scalar_from_inj // eqSS => /eqP.
Qed.

(** ** Threshold blind signatures *)

Module Tbs.
Section tbs.
Variable C : curve.
Local Abbreviation Scalar := (Scalar C).
Local Abbreviation G1 := (G1 C).
Local Abbreviation G2 := (G2 C).

Definition derive_pk_share (sk : Scalar) : G2 := sk *: G2_generator C.
Definition blind_message (msg : G1) (blinding_key : Scalar) : G1 := blinding_key *: msg.
Definition sign_message (msg : G1) (sks : Scalar) : G1 := sks *: msg.
Definition verify_signature_share (msg sig : G1) (pk : G2) : bool :=
  pairing msg pk == pairing sig (G2_generator C).

Definition lagrange_multipliers (scalars : seq Scalar) : option (seq Scalar) :=
  all_some [seq reduce *%R (factors scalars i) | i <- scalars].

(** Signature shares and public key shares are aggregated by the same body. *)
Definition aggregate (V : lmodType Scalar) (shares : seq (nat * V)) : option V :=
  if shares is [:: (_, share)] then Some share
  else obind (fun ms => combine ms (unzip2 shares)) (lagrange_multipliers (scalars_of Scalar shares)).

Definition aggregate_signature_shares (shares : seq (nat * G1)) : option G1 := aggregate shares.
Definition aggregate_public_key_shares (shares : seq (nat * G2)) : option G2 := aggregate shares.

Definition verify_blinded_signature (msg sig : G1) (pk : G2) : bool :=
  pairing msg pk == pairing sig (G2_generator C).
Definition unblind_signature (blinding_key : Scalar) (blinded_sig : G1) : option G1 :=
  if blinding_key == 0 then None else Some (blinding_key^-1 *: blinded_sig).
Definition verify (msg sig : G1) (pk : G2) : bool :=
  pairing msg pk == pairing sig (G2_generator C).

(** *** Aggregation *)

Lemma factors_nonempty (scalars : seq Scalar) (i : Scalar) :
  uniq scalars -> (1 < size scalars)%N -> (0 < size (factors scalars i))%N.
Proof.
  move=> Hu H1. rw size_map size_filter -has_count. apply/hasP.
  case: scalars Hu H1 => [//|a [//|b s]] /= /andP [Hni _] _.
  case: (eqVneq a i) => [Hai|ne]; last by exists a; rw ?inE ?eqxx.
  exists b; rw ?inE ?eqxx ?orbT // -Hai. apply: contra Hni => /eqP ->. by rw inE eqxx.
Qed.

(** With two scalars or more no multiplier is an empty product. *)
Lemma lagrange_multipliers_Some (scalars : seq Scalar) :
  uniq scalars -> (1 < size scalars)%N ->
  lagrange_multipliers scalars = Some (map (multiplier scalars) scalars).
Proof.
  move=> Hu H1. apply: all_some_map => i. have := factors_nonempty i Hu H1.
  rw -factors_prod. by case: (factors scalars i) => [//|x s] _ /=; rw foldl_mul big_cons.
Qed.

(** Shares on one polynomial aggregate to its value at zero. *)
Lemma aggregate_poly (V : lmodType Scalar) (v : V) (p : {poly Scalar}) (shares : seq (nat * V)) :
  share_map shares -> (size p <= size shares)%N -> (0 < size shares)%N ->
  all (fun s => s.2 == p.[(s.1.+1)%:R] *: v) shares ->
  aggregate shares = Some (p.[0] *: v).
Proof.
  move=> Hmap Hp H0 Hall. have Hu := share_map_scalars C Hmap.
  have [H1|H1] := leqP (size shares) 1.
  - case: shares H1 H0 Hall Hp {Hmap Hu} => [//|[k s] [|//]] _ _ /andP [/eqP /= -> _] Hp.
    by rw (size1_polyC Hp) !hornerC.
  - have := combine_multipliers Hu Hp H0 Hall.
    rw /aggregate.
    have Hm := lagrange_multipliers_Some Hu. rw size_map in Hm. rw (Hm H1) /= => <-.
    by case: shares H1 {Hp H0 Hall Hmap Hu Hm} => [//|[k s] [//|t l]].
Qed.

(** A share passes the check exactly when it is the signature of the key. *)
Lemma verify_signature_share_iff (msg sig : G1) (sk : Scalar) :
  verify_signature_share msg sig (derive_pk_share sk) = (sig == sign_message msg sk).
Proof.
  rw /verify_signature_share /derive_pk_share /sign_message pairing_scaler -pairing_scalel eq_sym.
  exact: (inj_eq (pairing_injl (G2_generator_neq0 C))).
Qed.

Lemma unblind_signed (msg : G1) (blinding_key sk : Scalar) :
  blinding_key != 0 ->
  unblind_signature blinding_key (sign_message (blind_message msg blinding_key) sk) = Some (sk *: msg).
Proof.
  move=> Hr. by rw /unblind_signature (negPf Hr) /sign_message /blind_message !scalerA mulrAC mulVf // mul1r.
Qed.

(** Any quorum of blinded signature shares that pass the check of a share
    aggregates without a panic to a blinded signature that verifies under the
    key aggregated from any quorum of public key shares, and unblinds to a
    signature of the message.  It is the only one that verifies, so it does
    not depend on the quorum or the blinding key. *)
Theorem tbs_threshold_signature (p : {poly Scalar}) (msg : G1) (blinding_key : Scalar)
    (shares : seq (nat * G1)) (pks : seq (nat * G2)) :
  blinding_key != 0 ->
  share_map shares -> (0 < size shares)%N -> (size p <= size shares)%N ->
  share_map pks -> (0 < size pks)%N -> (size p <= size pks)%N ->
  all (fun s => s.2 == derive_pk_share p.[(s.1.+1)%:R]) pks ->
  all (fun s => verify_signature_share (blind_message msg blinding_key) s.2 (derive_pk_share p.[(s.1.+1)%:R]))
    shares ->
  exists agg_pk blinded_sig sig,
    aggregate_public_key_shares pks = Some agg_pk /\
    aggregate_signature_shares shares = Some blinded_sig /\
    verify_blinded_signature (blind_message msg blinding_key) blinded_sig agg_pk /\
    unblind_signature blinding_key blinded_sig = Some sig /\
    sig = p.[0] *: msg /\ forall sig', verify msg sig' agg_pk = (sig' == sig).
Proof.
  move=> Hr Hm Hn Hs Hm' Hn' Hs' Hpk Hsh.
  exists (derive_pk_share p.[0]), (sign_message (blind_message msg blinding_key) p.[0]), (p.[0] *: msg).
  split; first exact: aggregate_poly.
  split; first by apply: aggregate_poly => //; apply: sub_all Hsh => s; rw verify_signature_share_iff.
  split; first by rw -[verify_blinded_signature _ _ _]/(verify_signature_share _ _ _) verify_signature_share_iff.
  split; last by split=> // sig'; rw -[verify _ _ _]/(verify_signature_share _ _ _) verify_signature_share_iff.
  exact: unblind_signed.
Qed.
End tbs.
End Tbs.

(** ** Threshold preimage encryption *)

Module Tpe.
Section tpe.
Variable C : curve.
Local Abbreviation Scalar := (Scalar C).
Local Abbreviation G1 := (G1 C).
Local Abbreviation G2 := (G2 C).

(** SHA-256, the compressed form of a point, and the points and scalars drawn
    from a seeded generator. *)
Variable sha256 : seq N -> seq N.
Variable to_compressed : G1 -> seq N.
Variable random_point : seq N -> G2.
Variable random_scalar : seq N -> Scalar.
Hypothesis sha256_size : forall s, size (sha256 s) = 32.
Hypothesis random_point_neq0 : forall seed, random_point seed != 0.

Record CipherText := MkCipherText { encrypted_preimage : seq N; pk : G1; signature : G2 }.

Definition derive_pk_share (sk : Scalar) : G1 := sk *: G1_generator C.
Definition derive_ephemeral_sk (encryption_seed : seq N) : Scalar := random_scalar encryption_seed.
Definition derive_agg_dk (agg_pk : G1) (encryption_seed : seq N) : G1 :=
  derive_ephemeral_sk encryption_seed *: agg_pk.
Definition xor_with_hash (bytes : seq N) (agg_dk : G1) : seq N :=
  [seq N.lxor b.1 b.2 | b <- zip bytes (sha256 (to_compressed agg_dk))].

Definition message_tag : seq N :=
  map Ascii.N_of_ascii (String.list_ascii_of_string "FEDIMINT_TPE_BLS12_381_MESSAGE"%string).
Definition hash_to_message (encrypted_point : seq N) (ephemeral_pk : G1) (commitment : seq N) : G2 :=
  random_point (sha256 (message_tag ++ encrypted_point ++ to_compressed ephemeral_pk ++ commitment)).

Definition encrypt_preimage (agg_pk : G1) (encryption_seed preimage commitment : seq N) : CipherText :=
  let agg_dk := derive_agg_dk agg_pk encryption_seed in
  let encrypted_preimage := xor_with_hash preimage agg_dk in
  let ephemeral_sk := derive_ephemeral_sk encryption_seed in
  let ephemeral_pk := ephemeral_sk *: G1_generator C in
  let ephemeral_signature := ephemeral_sk *: hash_to_message encrypted_preimage ephemeral_pk commitment in
  MkCipherText encrypted_preimage ephemeral_pk ephemeral_signature.

Definition verify_ciphertext (ct : CipherText) (commitment : seq N) : bool :=
  let message := hash_to_message (encrypted_preimage ct) (pk ct) commitment in
  pairing (G1_generator C) (signature ct) == pairing (pk ct) message.
Definition decrypt_preimage (ct : CipherText) (agg_dk : G1) : seq N :=
  xor_with_hash (encrypted_preimage ct) agg_dk.

(** Both checks assert that the ciphertext is valid. *)
Definition verify_agg_dk (agg_pk agg_dk : G1) (ct : CipherText) (commitment : seq N) : option bool :=
  let message := hash_to_message (encrypted_preimage ct) (pk ct) commitment in
  if pairing (G1_generator C) (signature ct) == pairing (pk ct) message
  then Some (pairing agg_dk message == pairing agg_pk (signature ct)) else None.
Definition create_dk_share (sks : Scalar) (ct : CipherText) : G1 := sks *: pk ct.
Definition verify_dk_share (pks dks : G1) (ct : CipherText) (commitment : seq N) : option bool :=
  let message := hash_to_message (encrypted_preimage ct) (pk ct) commitment in
  if pairing (G1_generator C) (signature ct) == pairing (pk ct) message
  then Some (pairing dks message == pairing pks (signature ct)) else None.

Definition lagrange_multipliers (scalars : seq Scalar) : seq Scalar :=
  [seq foldl *%R 1 (factors scalars i) | i <- scalars].
Definition aggregate_dk_shares (shares : seq (nat * G1)) : option G1 :=
  combine (lagrange_multipliers (scalars_of Scalar shares)) (unzip2 shares).

(** *** Lemmas *)

Lemma lagrange_multipliers_eq (scalars : seq Scalar) :
  lagrange_multipliers scalars = map (multiplier scalars) scalars.
Proof. by apply: eq_map => i; rw foldl_mul mul1r factors_prod. Qed.

Lemma encrypted_valid (agg_pk : G1) (seed preimage commitment : seq N) :
  verify_ciphertext (encrypt_preimage agg_pk seed preimage commitment) commitment.
Proof. by rw /verify_ciphertext /encrypt_preimage /= pairing_scaler pairing_scalel. Qed.

(** On a valid ciphertext the check accepts the decryption key share of the
    key and nothing else; on an invalid one it panics. *)
Lemma verify_dk_share_iff (sk : Scalar) (dks : G1) (ct : CipherText) (commitment : seq N) :
  verify_dk_share (derive_pk_share sk) dks ct commitment =
  if verify_ciphertext ct commitment then Some (dks == create_dk_share sk ct) else None.
Proof using random_point_neq0.
  rw /verify_dk_share /verify_ciphertext /derive_pk_share /create_dk_share. case: eqP => [Hv|//].
  rw pairing_scalel Hv -pairing_scalel. congr Some.
  exact: (inj_eq (pairing_injl (random_point_neq0 _))).
Qed.

Lemma xor_with_hash_involutive (bytes : seq N) (agg_dk : G1) :
  size bytes = 32 -> xor_with_hash (xor_with_hash bytes agg_dk) agg_dk = bytes.
Proof using sha256_size.
  rw /xor_with_hash. have := sha256_size (to_compressed agg_dk).
  move: (sha256 _) 32 => h n. elim: bytes h n => [|b bytes IH] [|x h] [|n] //= [Hh] [Hb].
  by rw (IH h n) // N.lxor_assoc N.lxor_nilpotent N.lxor_0_r.
Qed.

(** A preimage encrypted to the federation key decrypts from any quorum of
    decryption key shares that pass the check of a share: the ciphertext is
    valid, the shares aggregate without a panic to a key that passes the
    check of the aggregate key, and decryption gives the preimage back. *)
Theorem tpe_threshold_decryption (p : {poly Scalar}) (seed preimage commitment : seq N)
    (shares : seq (nat * G1)) :
  size preimage = 32 -> share_map shares -> (0 < size shares)%N -> (size p <= size shares)%N ->
  let agg_pk := derive_pk_share p.[0] in
  let ct := encrypt_preimage agg_pk seed preimage commitment in
  all (fun s => verify_dk_share (derive_pk_share p.[(s.1.+1)%:R]) s.2 ct commitment == Some true) shares ->
  verify_ciphertext ct commitment /\
  exists agg_dk, aggregate_dk_shares shares = Some agg_dk /\
    verify_agg_dk agg_pk agg_dk ct commitment = Some true /\ decrypt_preimage ct agg_dk = preimage.
Proof using sha256_size random_point_neq0.
  move=> Hpre Hm Hn Hs agg_pk ct Hall. have Hv : verify_ciphertext ct commitment by apply: encrypted_valid.
  split=> //. exists (create_dk_share p.[0] ct).
  split; last split.
  - rw /aggregate_dk_shares lagrange_multipliers_eq. apply: combine_multipliers => //; first exact: share_map_scalars.
    apply: sub_all Hall => s. by rw verify_dk_share_iff Hv => /eqP [/eqP ->].
  - by rw -[verify_agg_dk _ _ _ _]/(verify_dk_share _ _ _ _) verify_dk_share_iff Hv eqxx.
  - rw /decrypt_preimage /ct /create_dk_share /= /derive_pk_share scalerA.
    have -> : p.[0] * derive_ephemeral_sk seed *: G1_generator C = derive_agg_dk agg_pk seed.
      by rw /derive_agg_dk scalerA mulrC.
    exact: xor_with_hash_involutive.
Qed.
End tpe.
End Tpe.

(** ** A curve, and quorums on it *)

Module ThresholdExample.

Lemma rat_pairing_injl (y : rat^o) : y != 0 -> injective (fun x : rat^o => x * y : rat^o).
Proof. by move=> Hy a b; apply: mulIf. Qed.

Lemma rat_scalar_from_inj (a b : nat) :
  (a <= 2 ^ 16)%N -> (b <= 2 ^ 16)%N -> (a%:R == b%:R :> rat) = (a == b).
Proof. by rw Num.Theory.eqr_nat. Qed.

Lemma rat_cyclic (x : rat^o) : exists a : rat, x = a *: (1 : rat^o).
Proof. by exists x; rw /GRing.scale /= mulr1. Qed.

(** The rationals with multiplication as the pairing satisfy the laws. *)
Definition rat_curve : curve :=
  @Curve rat rat^o rat^o rat^o 1 1 *%R (oner_neq0 _) (oner_neq0 _) rat_cyclic rat_cyclic
    (fun a x y => esym (mulrA a x y)) (fun a x y => mulrCA x a y)
    rat_pairing_injl rat_scalar_from_inj.

(** A secret of degree one: two of the guardians are a quorum. *)
Definition secret : {poly rat} := 'X + 3%:P.

Lemma size_secret : size secret = 2.
Proof. exact: size_XaddC. Qed.

(** Shares a function gives to some of the peers. *)
Lemma share_map_of {A : Type} (f : nat -> A) (peers : seq nat) :
  uniq peers -> all (fun k => (k < 16)%N) peers -> share_map [seq (k, f k) | k <- peers].
Proof.
  move=> Hu Hall. rw /share_map /unzip1 -map_comp map_id Hu. apply: sub_all Hall => k Hk.
  apply: leq_trans (ltn_expl 16 (leqnn 2)). exact: leq_trans Hk (leqnSn 16).
Qed.

Definition example_shares : seq (nat * G1 rat_curve) :=
  [seq (k, Tbs.sign_message (C := rat_curve) (Tbs.blind_message (C := rat_curve) (5%:R : rat^o) 2%:R) secret.[k.+1%:R]) | k <- [:: 0; 2]].
Definition example_pks : seq (nat * G2 rat_curve) :=
  [seq (k, Tbs.derive_pk_share (C := rat_curve) secret.[k.+1%:R]) | k <- [:: 0; 1; 3]].

Lemma tbs_threshold_signature_witness :
  exists agg_pk blinded_sig sig,
    Tbs.aggregate_public_key_shares example_pks = Some agg_pk /\
    Tbs.aggregate_signature_shares example_shares = Some blinded_sig /\
    Tbs.unblind_signature (C := rat_curve) 2%:R blinded_sig = Some sig /\ sig = 15%:R :> rat^o.
Proof.
  have [|||||||||agg_pk [bs [sig [Hpk [Hbs [_ [Hu [Hsig _]]]]]]]] :=
    @Tbs.tbs_threshold_signature rat_curve secret (5%:R : rat^o) 2%:R example_shares example_pks.
  - by rw Num.Theory.pnatr_eq0.
  - exact: share_map_of.
  - by rw size_map.
  - by rw size_map size_secret.
  - exact: share_map_of.
  - by rw size_map.
  - by rw size_map size_secret.
  - by rw all_map; apply/allP => k _; apply/eqP.
  - by rw all_map; apply/allP => k _; apply: (etrans (Tbs.verify_signature_share_iff _ _ _)); apply: eqxx.
  - exists agg_pk, bs, sig; split; [exact: Hpk|split; [exact: Hbs|split; [exact: Hu|]]].
    rw Hsig /secret hornerD hornerX hornerC add0r. exact: (esym (natrM rat 3 5)).
Defined.

(** Hashes and generators that satisfy what encryption relies on. *)
Definition example_sha256 (s : seq N) : seq N := nseq 32 (N.of_nat (size s)).
Definition example_compressed (x : G1 rat_curve) : seq N := [:: 7; 9]%num.
Definition example_point (seed : seq N) : G2 rat_curve := 1 : rat^o.
Definition example_scalar (seed : seq N) : Scalar rat_curve := 11%:R : rat.
Definition example_preimage : seq N := nseq 32 42%num.

Definition example_ct : Tpe.CipherText rat_curve :=
  Tpe.encrypt_preimage example_sha256 example_compressed example_point example_scalar
    (Tpe.derive_pk_share (C := rat_curve) secret.[0]) [:: 1]%num example_preimage [:: 2]%num.
Definition example_dk_shares : seq (nat * G1 rat_curve) :=
  [seq (k, Tpe.create_dk_share (C := rat_curve) secret.[k.+1%:R] example_ct) | k <- [:: 1; 4]].

Lemma tpe_threshold_decryption_witness :
  exists agg_dk, Tpe.aggregate_dk_shares example_dk_shares = Some agg_dk /\
    Tpe.decrypt_preimage example_sha256 example_compressed example_ct agg_dk = example_preimage.
Proof.
  have Hsize : forall s, size (example_sha256 s) = 32 by move=> s; rw size_nseq.
  have Hne : forall seed, example_point seed != 0 by move=> seed; rw oner_neq0.
  have [|||||_ [agg_dk [Hagg [_ Hdec]]]] :=
    @Tpe.tpe_threshold_decryption rat_curve example_sha256 example_compressed example_point example_scalar
      Hsize Hne secret [:: 1]%num example_preimage [:: 2]%num example_dk_shares.
  - by rw size_nseq.
  - exact: share_map_of.
  - by rw size_map.
  - by rw size_map size_secret.
  - rw all_map. apply/allP => k _. apply/eqP.
    apply: (etrans (Tpe.verify_dk_share_iff _ _ Hne _ _ _ _)). by rw Tpe.encrypted_valid eqxx.
  - exists agg_dk. exact (conj Hagg Hdec).
Defined.
End ThresholdExample.
