(* ===== verification/Dkg.v ===== *)
(** * Distributed key generation

    [fedimint-server/src/config/dkg_g1.rs] and [dkg_g2.rs], which are the same
    program over the two groups of the curve, the evaluation of polynomials in
    [fedimint-server-core/src/config.rs], and the keys the mint and lightning
    modules make of the result.  The group is a vector space over the field of
    scalars; the hash of a commitment is a parameter.

    [step] is one message of one guardian, [run_dkg] the loop of a guardian
    over the messages it receives, and [system_step] a federation of guardians
    with a channel between any two of them. *)

From mathcomp Require Import boot ssralg poly.
From S2P Require Import Threshold.
Set Implicit Arguments.
Unset Strict Implicit.
Unset Printing Implicit Defensive.
Import GRing.Theory.
Local Open Scope ring_scope.

(** ** [BTreeMap] *)

Section btree.
Variable A : Type.

Fixpoint bt_insert (k : nat) (v : A) (m : seq (nat * A)) : seq (nat * A) :=
  match m with
  | [::] => [:: (k, v)]
  | (k', v') :: m' =>
      if (k < k')%N then (k, v) :: m
      else if k == k' then (k, v) :: m' else (k', v') :: bt_insert k v m'
  end.

Fixpoint bt_get (k : nat) (m : seq (nat * A)) : option A :=
  match m with
  | [::] => None
  | (k', v') :: m' => if k == k' then Some v' else bt_get k m'
  end.

Lemma bt_get_insert (q k : nat) (v : A) (m : seq (nat * A)) :
  bt_get q (bt_insert k v m) = if q == k then Some v else bt_get q m.
Proof.
  elim: m => [//|[k' v'] m IH] /=. case: ltnP => [//|Hle]. case: eqP => [->|ne] /=; first by case: (q == k').
  rw IH. case: (q =P k') => [->|//]. by case: eqP => // Hk; rw Hk in ne.
Qed.

Lemma bt_get_mem (k : nat) (m : seq (nat * A)) : isSome (bt_get k m) = (k \in unzip1 m).
Proof. by elim: m => [//|[k' v'] m IH] /=; rw inE; case: eqP. Qed.

Lemma bt_get_None (k : nat) (m : seq (nat * A)) : bt_get k m = None -> k \notin unzip1 m.
Proof. by rw -bt_get_mem => ->. Qed.
End btree.

Section btree_eq.
Variable A : eqType.

Lemma bt_insert_perm (k : nat) (v : A) (m : seq (nat * A)) :
  bt_get k m = None -> perm_eq (bt_insert k v m) ((k, v) :: m).
Proof.
  elim: m => [//|[k' v'] m IH] /=. case: eqP => // ne Hm. case: ltnP => // _.
  apply: (perm_trans (y := [:: (k', v'), (k, v) & m])); first by rw perm_cons IH.
  exact: (permEl (perm_catCA [:: (k', v')] [:: (k, v)] m)).
Qed.

Lemma bt_size_insert (k : nat) (v : A) (m : seq (nat * A)) :
  bt_get k m = None -> size (bt_insert k v m) = (size m).+1.
Proof. by move=> Hm; rw (perm_size (bt_insert_perm v Hm)). Qed.

Lemma bt_keys_insert (k : nat) (v : A) (m : seq (nat * A)) :
  bt_get k m = None -> perm_eq (unzip1 (bt_insert k v m)) (k :: unzip1 m).
Proof. by move=> Hm; apply: (perm_map _ (bt_insert_perm v Hm)). Qed.

Lemma bt_all_insert (P : pred (nat * A)) (k : nat) (v : A) (m : seq (nat * A)) :
  bt_get k m = None -> all P (bt_insert k v m) = P (k, v) && all P m.
Proof. by move=> Hm; rw (perm_all P (bt_insert_perm v Hm)). Qed.

Lemma bt_get_in (k : nat) (v : A) (m : seq (nat * A)) : bt_get k m = Some v -> (k, v) \in m.
Proof.
  elim: m => [//|[k' v'] m IH] /=. rw inE. case: eqP => [-> [->]|_ /IH ->]; by rw ?eqxx ?orbT.
Qed.

Lemma bt_in_get (k : nat) (v : A) (m : seq (nat * A)) :
  uniq (unzip1 m) -> (k, v) \in m -> bt_get k m = Some v.
Proof.
  elim: m => [//|[k' v'] m IH] /= /andP [Hni Hu]. rw inE. case: eqP => [[-> ->]|ne] /=; first by rw eqxx.
  case: eqP => [Hk Hin|_]; last exact: IH. rw -Hk in Hni.
  by rw (map_f fst Hin : k \in _) in Hni.
Qed.
End btree_eq.

(** ** Polynomials *)

Section eval.
Variable F : fieldType.

(** [scalar]: offset by one, since the value at zero is the secret. *)
Definition scalar (peer : nat) : F := (peer.+1)%:R.

(** Horner, [eval_poly_g1] and [eval_poly_g2]; [None] is the panic on no coefficients. *)
Definition eval_poly (V : lmodType F) (coefficients : seq V) (peer : nat) : option V :=
  reduce (fun acc coefficient => scalar peer *: acc + coefficient) (rev coefficients).

(** [eval_poly_scalar], and [eval_polynomial] and [dealer_sk] of the modules. *)
Definition eval_poly_scalar (coefficients : seq F) (x : F) : option F :=
  reduce (fun acc coefficient => acc * x + coefficient) (rev coefficients).

(** The value the schemes compute. *)
Definition poly_value (V : lmodType F) (coefficients : seq V) (x : F) : V :=
  \sum_(k < size coefficients) x ^+ k *: nth 0 coefficients k.

Lemma poly_value_cons (V : lmodType F) (c : V) (cs : seq V) (x : F) :
  poly_value (c :: cs) x = c + x *: poly_value cs x.
Proof.
  rw /poly_value big_ord_recl /= expr0 scale1r scaler_sumr. congr (_ + _).
  by apply: eq_bigr => k _; rw scalerA -exprS.
Qed.

Lemma horner_value (V : lmodType F) (cs : seq V) (x : F) :
  cs != [::] -> reduce (fun acc c => x *: acc + c) (rev cs) = Some (poly_value cs x).
Proof.
  elim: cs => [//|c cs IH] _. rw poly_value_cons rev_cons.
  have [->|ne] := eqVneq cs [::]; first by rw /= /poly_value big_ord0 scaler0 addr0.
  move: (IH ne). case: (rev cs) => [//|y s] /= [<-]. by rw -cats1 foldl_cat /= addrC.
Qed.

Lemma eval_poly_value (V : lmodType F) (cs : seq V) (peer : nat) :
  cs != [::] -> eval_poly cs peer = Some (poly_value cs (scalar peer)).
Proof. exact: horner_value. Qed.

Lemma eval_poly_scalar_value (cs : seq F) (x : F) :
  cs != [::] -> eval_poly_scalar cs x = Some (Poly cs).[x].
Proof.
  move=> Hne. have -> : (Poly cs).[x] = poly_value (cs : seq F^o) x.
    elim: cs {Hne} => [|c cs IH]; first by rw /poly_value big_ord0 horner0.
    by rw poly_value_cons /= horner_cons IH addrC mulrC.
  rw -(@horner_value F^o cs x Hne) /eval_poly_scalar.
  case: (rev cs) => [//|y s]. congr Some. elim: s y => [//|z s IH] y /=. by rw IH [y * x]mulrC.
Qed.
End eval.

(** ** One guardian *)

(** [NumPeers]: the guardians are numbered from zero, and all but a third,
    rounded down, are needed. *)
Definition max_evil (num_peers : nat) : nat := (num_peers - 1) %/ 3.
Definition threshold (num_peers : nat) : nat := num_peers - max_evil num_peers.
Definition peer_ids (num_peers : nat) : seq nat := iota 0 num_peers.

Lemma dkg_threshold_pos (n : nat) : (0 < n)%N -> (0 < threshold n)%N.
Proof.
  rw /threshold /max_evil subn_gt0 => Hn. apply: (leq_ltn_trans (leq_div _ _)).
  by rw -{2}(prednK Hn) subn1.
Qed.

Inductive outcome (E A : Type) := Ok of A | Err of E | Panic.
Arguments Ok {E A}.
Arguments Err {E A}.
Arguments Panic {E A}.

Inductive DkgError :=
  | TwoHashCommitments | HashCommitmentNotFound | HashMismatch | WrongDegree | TwoCommitments
  | CommitmentNotFound | InvalidShare | TwoShares | UnexpectedShutdown | UnexpectedMessage.

Section dkg.
Variable F : fieldType.
Variable V : lmodType F.
Variable generator : V.
Variable H : eqType.
Variable consensus_hash_sha256 : seq V -> H.

Inductive DkgMessage := Hash of H | Commitment of seq V | Share of F.
Inductive DkgStep :=
  | Broadcast of DkgMessage
  | Messages of seq (nat * DkgMessage)
  | Result of seq V & F.

Record Dkg := MkDkg {
  num_peers : nat;
  identity : nat;
  polynomial : seq F;
  hash_commitments : seq (nat * H);
  commitments : seq (nat * seq V);
  sk_shares : seq (nat * F);
}.

(** [g1] and [g2]. *)
Definition g (s : F) : V := s *: generator.

Definition commitment (d : Dkg) : seq V := map g (polynomial d).

(** [new], with the coefficients that were drawn. *)
Definition new (num_peers identity : nat) (polynomial : seq F) : Dkg :=
  MkDkg num_peers identity polynomial [:: (identity, consensus_hash_sha256 (map g polynomial))]
    [:: (identity, map g polynomial)] [::].

Definition initial_message (d : Dkg) : DkgMessage := Hash (consensus_hash_sha256 (commitment d)).

Definition set_hash_commitments (d : Dkg) x := MkDkg (num_peers d) (identity d) (polynomial d) x (commitments d) (sk_shares d).
Definition set_commitments (d : Dkg) x := MkDkg (num_peers d) (identity d) (polynomial d) (hash_commitments d) x (sk_shares d).
Definition set_sk_shares (d : Dkg) x := MkDkg (num_peers d) (identity d) (polynomial d) (hash_commitments d) (commitments d) x.

Definition nop : DkgStep := Messages [::].

(** The shares for the other guardians, and ours, which is stored. *)
Definition share_out (d : Dkg) : outcome DkgError DkgStep * Dkg :=
  match all_some [seq omap (pair peer) (eval_poly_scalar (polynomial d) (scalar F peer)) | peer <- peer_ids (num_peers d)] with
  | None => (Panic, d)
  | Some shares =>
      (Ok (Messages [seq (ps.1, Share ps.2) | ps <- shares & ps.1 != identity d]),
       set_sk_shares d (foldl (fun m ps => if ps.1 == identity d then bt_insert (identity d) ps.2 m else m)
                              (sk_shares d) shares))
  end.

(** The commitment evaluated at our scalar. *)
Definition checksum (coefficients : seq V) (peer : nat) : option V :=
  reduce +%R [seq cx.2 *: cx.1 | cx <- zip coefficients [seq scalar F peer ^+ k | k <- iota 0 (size coefficients)]].

(** Coefficient [i] of the sum of the commitments. *)
Definition sum_coefficient (cs : seq (seq V)) (i : nat) : option V :=
  obind (reduce +%R) (all_some [seq (if (i < size c)%N then Some (nth 0 c i) else None) | c <- cs]).

(** Our share is the sum of the shares, the public polynomial the sum of the commitments. *)
Definition finish (d : Dkg) : outcome DkgError DkgStep :=
  let sks := \sum_(s <- unzip2 (sk_shares d)) s in
  match all_some [seq sum_coefficient (unzip2 (commitments d)) i | i <- iota 0 (threshold (num_peers d))] with
  | None => Panic
  | Some pks => Ok (Result pks sks)
  end.

Definition step (d : Dkg) (peer : nat) (msg : DkgMessage) : outcome DkgError DkgStep * Dkg :=
  match msg with
  | Hash hash =>
      let d' := set_hash_commitments d (bt_insert peer hash (hash_commitments d)) in
      if bt_get peer (hash_commitments d) is Some _ then (Err TwoHashCommitments, d')
      else if size (hash_commitments d') == num_peers d' then (Ok (Broadcast (Commitment (commitment d'))), d')
      else (Ok nop, d')
  | Commitment polynomial =>
      match bt_get peer (hash_commitments d) with
      | None => (Err HashCommitmentNotFound, d)
      | Some hash =>
          if hash != consensus_hash_sha256 polynomial then (Err HashMismatch, d)
          else if threshold (num_peers d) != size polynomial then (Err WrongDegree, d)
          else
            let d' := set_commitments d (bt_insert peer polynomial (commitments d)) in
            if bt_get peer (commitments d) is Some _ then (Err TwoCommitments, d')
            else if size (commitments d') == num_peers d' then share_out d'
            else (Ok nop, d')
      end
  | Share s =>
      match bt_get peer (commitments d) with
      | None => (Err CommitmentNotFound, d)
      | Some polynomial =>
          match checksum polynomial (identity d) with
          | None => (Panic, d)
          | Some checksum =>
              if g s != checksum then (Err InvalidShare, d)
              else
                let d' := set_sk_shares d (bt_insert peer s (sk_shares d)) in
                if bt_get peer (sk_shares d) is Some _ then (Err TwoShares, d')
                else if size (sk_shares d') == num_peers d' then (finish d', d')
                else (Ok nop, d')
          end
      end
  end.

(** ** The loop of a guardian *)

(** Another variant of [P2PMessage] than the one of this key generation ends the run. *)
Inductive P2PMessage := P2PDkg of DkgMessage | P2POther.
Inductive Recipient := Everyone | Peer of nat.

(** Where the loop is: it awaits a message of the first peer left in this
    round, or of the first one in the next, or it has returned. *)
Inductive Run :=
  | Waiting of seq nat & Dkg
  | Done of seq V & F
  | Failed of DkgError
  | Panicked.

Definition others (n i : nat) : seq nat := [seq p <- peer_ids n | p != i].

(** [received] are the results of the calls of [receive_from_peer], the loop
    decides of which peer; [sent] what it has sent. *)
Fixpoint run_loop (os todo : seq nat) (d : Dkg) (received : seq (option P2PMessage))
    (sent : seq (Recipient * DkgMessage)) : Run * seq (Recipient * DkgMessage) :=
  match received with
  | [::] => (Waiting todo d, sent)
  | message :: rest =>
      match (if todo is [::] then os else todo) with
      | [::] => (Waiting todo d, sent)
      | peer :: todo' =>
          match message with
          | None => (Failed UnexpectedShutdown, sent)
          | Some P2POther => (Failed UnexpectedMessage, sent)
          | Some (P2PDkg m) =>
              match step d peer m with
              | (Ok (Broadcast m'), d') => run_loop os todo' d' rest (rcons sent (Everyone, m'))
              | (Ok (Messages ms), d') => run_loop os todo' d' rest (sent ++ [seq (Peer pm.1, pm.2) | pm <- ms])
              | (Ok (Result pks sks), _) => (Done pks sks, sent)
              | (Err e, _) => (Failed e, sent)
              | (Panic, _) => (Panicked, sent)
              end
          end
      end
  end.

Definition run_dkg (n i : nat) (poly : seq F) (received : seq (option P2PMessage)) : Run * seq (Recipient * DkgMessage) :=
  let d := new n i poly in
  run_loop (others n i) (others n i) d received [:: (Everyone, initial_message d)].

(** ** What a result says *)

Lemma reduce_add (s : seq V) : s != [::] -> reduce +%R s = Some (\sum_(x <- s) x).
Proof. by case: s => [//|x s] _ /=; rw foldl_add big_cons. Qed.

Lemma checksum_value (cs : seq V) (i : nat) : cs != [::] -> checksum cs i = Some (poly_value cs (scalar F i)).
Proof.
  move=> ne. rw /checksum reduce_add; first by rw -size_eq0 size_map size_zip size_map size_iota minnn size_eq0.
  have Hsz : size [seq scalar F i ^+ k | k <- iota 0 (size cs)] = size cs by rw size_map size_iota.
  rw big_map (big_nth (0, 0)) size1_zip ?Hsz // big_mkord. congr Some. apply: eq_bigr => k _.
  by rw nth_zip /= ?Hsz // (nth_map 0%N) ?size_iota // nth_iota.
Qed.

Lemma sum_coefficient_Some (cs : seq (seq V)) (t k : nat) :
  cs != [::] -> all (fun c => size c == t) cs -> (k < t)%N ->
  sum_coefficient cs k = Some (\sum_(c <- cs) nth 0 c k).
Proof.
  move=> ne Hall Hk. rw /sum_coefficient.
  have -> : [seq (if (k < size c)%N then Some (nth 0 c k) else None) | c <- cs] = map Some [seq nth 0 c k | c <- cs].
    rw -map_comp. apply/eq_in_map => c Hc /=. by rw (eqP (allP Hall _ Hc)) Hk.
  rw (all_some_map (g := id)) //= map_id reduce_add ?big_map //. by case: cs ne {Hall}.
Qed.

(** The invariant of a run: commitments have the degree asked for and match
    their hash, and every share lies on the commitment of its peer. *)
Record dkg_inv (n i : nat) (d : Dkg) : Prop := {
  inv_num_peers : num_peers d = n;
  inv_identity : identity d = i;
  inv_polynomial : size (polynomial d) = threshold n;
  inv_own : bt_get i (commitments d) = Some (commitment d);
  inv_keys : uniq (unzip1 (commitments d)) /\ {subset unzip1 (commitments d) <= peer_ids n};
  inv_size : all (fun pc => size pc.2 == threshold n) (commitments d);
  inv_hash : forall p c, bt_get p (commitments d) = Some c ->
    bt_get p (hash_commitments d) = Some (consensus_hash_sha256 c);
  inv_shares_uniq : uniq (unzip1 (sk_shares d));
  inv_shares : forall p s, (p, s) \in sk_shares d ->
    exists2 c, bt_get p (commitments d) = Some c & g s = poly_value c (scalar F i);
  inv_first : bt_get i (sk_shares d) -> size (commitments d) = n;
}.

Lemma poly_value_sum (t : nat) (cs : seq (seq V)) (x : F) :
  all (fun c => size c == t) cs ->
  poly_value [seq (\sum_(c <- cs) nth 0 c k) | k <- iota 0 t] x = \sum_(c <- cs) poly_value c x.
Proof.
  move=> Hall. rw /poly_value size_map size_iota.
  transitivity (\sum_(k < t) \sum_(c <- cs) x ^+ k *: nth 0 c k).
    apply: eq_bigr => k _. by rw (nth_map 0%N) ?size_iota // nth_iota // scaler_sumr.
  rw exchange_big /= !big_seq. apply: eq_bigr => c Hc. by rw (eqP (allP Hall _ Hc)).
Qed.

Lemma poly_value_scale (cs : seq F) (x : F) : poly_value (map g cs) x = g (Poly cs).[x].
Proof.
  elim: cs => [|c cs IH]; first by rw /poly_value big_ord0 horner0 /g scale0r.
  by rw /= poly_value_cons IH horner_cons /g scalerA -scalerDl addrC mulrC.
Qed.

(** With all the shares there, the sum of the shares is the share of the sum. *)
Lemma shares_sum (n i : nat) (d : Dkg) :
  dkg_inv n i d -> size (sk_shares d) = n ->
  g (\sum_(s <- unzip2 (sk_shares d)) s) = \sum_(c <- unzip2 (commitments d)) poly_value c (scalar F i).
Proof.
  move=> Hinv Hn. have [Huc Hsub] := inv_keys Hinv.
  have Hss : {subset unzip1 (sk_shares d) <= unzip1 (commitments d)}.
    move=> p /mapP [[q s] Hin ->]. have [c Hc _] := inv_shares Hinv Hin. by rw -bt_get_mem Hc.
  have Hle : (size (unzip1 (commitments d)) <= size (unzip1 (sk_shares d)))%N.
    rw [X in (_ <= X)%N]size_map Hn. have := uniq_leq_size Huc Hsub. by rw size_iota.
  have Hperm := uniq_perm (inv_shares_uniq Hinv) Huc (snd (uniq_min_size (inv_shares_uniq Hinv) Hss Hle)).
  pose val p := poly_value (odflt [::] (bt_get p (commitments d))) (scalar F i).
  rw /g scaler_suml big_map.
  transitivity (\sum_(p <- unzip1 (sk_shares d)) val p).
    rw big_map !big_seq. apply: eq_bigr => -[p s] Hin. have [c Hc Hs] := inv_shares Hinv Hin.
    by rw /val Hc /= -Hs.
  rw (perm_big _ Hperm) /= !big_map !big_seq. apply: eq_bigr => -[p c] Hin. by rw /val (bt_in_get Huc Hin).
Qed.

(** Commitments of the degree asked for can be summed. *)
Lemma finish_Ok (n : nat) (d : Dkg) :
  num_peers d = n -> unzip2 (commitments d) != [::] -> all (fun c => size c == threshold n) (unzip2 (commitments d)) ->
  finish d = Ok (Result [seq (\sum_(c <- unzip2 (commitments d)) nth 0 c k) | k <- iota 0 (threshold n)]
                        (\sum_(s <- unzip2 (sk_shares d)) s)).
Proof.
  move=> Hn ne Hall. rw /finish Hn.
  have -> : [seq sum_coefficient (unzip2 (commitments d)) k | k <- iota 0 (threshold n)]
      = map Some [seq (\sum_(c <- unzip2 (commitments d)) nth 0 c k) | k <- iota 0 (threshold n)].
    rw -map_comp. apply/eq_in_map => k. rw mem_iota add0n => /= Hk. exact: (sum_coefficient_Some ne Hall Hk).
  by rw (all_some_map (g := id)) // map_id.
Qed.

Lemma finish_result (n i : nat) (d : Dkg) :
  dkg_inv n i d -> size (sk_shares d) = n ->
  exists2 pks, finish d = Ok (Result pks (\sum_(s <- unzip2 (sk_shares d)) s)) &
    size pks = threshold n /\ poly_value pks (scalar F i) = g (\sum_(s <- unzip2 (sk_shares d)) s).
Proof.
  move=> Hinv Hsz. have Hall : all (fun c => size c == threshold n) (unzip2 (commitments d)).
    by rw all_map; apply: inv_size Hinv.
  have Hne : unzip2 (commitments d) != [::] by have := bt_get_in (inv_own Hinv); case: (commitments d).
  eexists; first exact: (finish_Ok (inv_num_peers Hinv) Hne Hall).
  by rw size_map size_iota (shares_sum Hinv Hsz) poly_value_sum.
Qed.

Lemma new_inv (n i : nat) (poly : seq F) :
  (i < n)%N -> size poly = threshold n -> dkg_inv n i (new n i poly).
Proof.
  move=> Hi Hp. split=> //=.
  - by rw eqxx.
  - by split=> // p; rw inE => /eqP ->; rw mem_iota.
  - by rw size_map Hp eqxx.
  - by move=> p c; case: eqP => // _ [<-].
Qed.

Lemma foldl_own (i : nat) (f : nat -> F) (m : seq (nat * F)) (s : seq nat) :
  uniq s ->
  foldl (fun m ps => if ps.1 == i then bt_insert i ps.2 m else m) m [seq (p, f p) | p <- s] =
  if i \in s then bt_insert i (f i) m else m.
Proof.
  elim: s m => [//|p s IH] m /= /andP [Hni Hu]. rw IH // inE eq_sym.
  by case: eqP => [->|_]; first rw (negPf Hni).
Qed.

Lemma share_out_Ok (n i : nat) (d : Dkg) :
  num_peers d = n -> identity d = i -> (i < n)%N -> polynomial d != [::] ->
  share_out d = (Ok (Messages [seq (p, Share (Poly (polynomial d)).[scalar F p]) | p <- others n i]),
                 set_sk_shares d (bt_insert i (Poly (polynomial d)).[scalar F i] (sk_shares d))).
Proof.
  move=> Hn Hi Hlt ne. rw /share_out Hn Hi.
  rw (all_some_map (g := fun p => (p, (Poly (polynomial d)).[scalar F p]))); first by move=> p; rw eval_poly_scalar_value.
  rw foldl_own ?iota_uniq // mem_iota /= Hlt filter_map -map_comp.
  by congr (_, _).
Qed.

(** A share on the commitment of its peer is stored. *)
Lemma store_share_inv (n i p : nat) (s : F) (c : seq V) (d : Dkg) :
  dkg_inv n i d -> bt_get p (commitments d) = Some c -> g s = poly_value c (scalar F i) ->
  bt_get p (sk_shares d) = None -> (p = i -> size (commitments d) = n) ->
  dkg_inv n i (set_sk_shares d (bt_insert p s (sk_shares d))).
Proof.
  case=> Hn Hi Hp Ho Hk Hsz Hha Hsu Hsh Hf Hc Hs Hg Hpi. split=> //=.
  - by rw (perm_uniq (bt_keys_insert s Hg)) /= Hsu bt_get_None.
  - move=> q t. rw (perm_mem (bt_insert_perm s Hg)) inE => /orP [/eqP [-> ->]|/Hsh //]. by exists c.
  - rw bt_get_insert. by case: eqP => [Hip _|_ /Hf //]; apply: Hpi.
Qed.

Lemma polynomial_nonempty (n i : nat) (d : Dkg) : (i < n)%N -> dkg_inv n i d -> polynomial d != [::].
Proof.
  move=> Hi Hinv. rw -size_eq0 (inv_polynomial Hinv) -lt0n. exact: dkg_threshold_pos (leq_ltn_trans _ Hi).
Qed.

(** What a step on any message of another guardian does. *)
Definition step_ok (n i : nat) (r : outcome DkgError DkgStep * Dkg) : Prop :=
  match r with
  | (Ok (Result pks sks), _) => size pks = threshold n /\ poly_value pks (scalar F i) = g sks
  | (Ok _, d') => dkg_inv n i d'
  | (Err _, _) => True
  | (Panic, _) => False
  end.

Lemma step_hash (n i peer : nat) (d : Dkg) (h : H) :
  dkg_inv n i d -> step_ok n i (step d peer (Hash h)).
Proof.
  move=> Hinv /=. case Hg: (bt_get peer _) => [//|].
  have Hinv' : dkg_inv n i (set_hash_commitments d (bt_insert peer h (hash_commitments d))).
    case: Hinv => ? ? ? ? ? ? Hh ? ? ?. split=> //= p c Hc. rw bt_get_insert.
    by case: eqP => [Hp|_]; [rw -Hp (Hh _ _ Hc) in Hg|apply: Hh].
  by case: (_ == _).
Qed.

Lemma step_commitment (n i peer : nat) (d : Dkg) (poly : seq V) :
  (i < n)%N -> peer \in others n i -> dkg_inv n i d -> step_ok n i (step d peer (Commitment poly)).
Proof.
  move=> Hi. rw mem_filter => /andP [ne Hin] Hinv /=.
  case Hh: (bt_get peer (hash_commitments d)) => [h|//]. case: (h =P _) => //= Heq.
  rw (inv_num_peers Hinv). case: (threshold n =P _) => //= Ht. case Hg: (bt_get peer (commitments d)) => [//|].
  have [Hu Hsub] := inv_keys Hinv. have Hperm := bt_keys_insert poly Hg.
  have Hnone : bt_get i (sk_shares d) = None \/ size (commitments d) = n.
    case Hs: (bt_get i (sk_shares d)) => [s|]; [right|by left]. by apply: (inv_first Hinv); rw Hs.
  have Hlt : (size (bt_insert peer poly (commitments d)) <= n)%N.
    rw -(size_map fst) -[X in (_ <= X)%N](size_iota 0 n). apply: uniq_leq_size; first by rw (perm_uniq Hperm) /= Hu bt_get_None.
    move=> q; rw (perm_mem Hperm) inE => /orP [/eqP ->//|]. exact: Hsub.
  have Hno : bt_get i (sk_shares d) = None.
    by case: Hnone => // Hsz; rw (bt_size_insert poly Hg) Hsz ltnn in Hlt.
  have Hinv' : dkg_inv n i (set_commitments d (bt_insert peer poly (commitments d))).
    case: Hinv => Hn Hid Hp Ho _ Hsz Hha Hsu Hsh _. split=> //=.
    - by rw bt_get_insert eq_sym (negPf ne).
    - rw (perm_uniq Hperm) /= Hu bt_get_None //. split=> // q.
      by rw (perm_mem Hperm) inE => /orP [/eqP ->//|]; apply: Hsub.
    - by rw bt_all_insert // Hsz andbT -Ht.
    - move=> p c. rw bt_get_insert. case: eqP => [-> [<-]|_]; [by rw Hh Heq|exact: Hha].
    - move=> p s /Hsh [c Hc Hs]. exists c => //. rw bt_get_insert. case: eqP => // Hpp. by rw Hpp Hg in Hc.
    - by rw Hno.
  case: eqP => // Hfull. rw (share_out_Ok (n := n) (i := i)) //; try by case: Hinv'.
  - exact: polynomial_nonempty Hi Hinv'.
  - apply: (store_share_inv Hinv' (inv_own Hinv')) => //. by rw /commitment poly_value_scale.
Qed.

Lemma step_share (n i peer : nat) (d : Dkg) (s : F) :
  (i < n)%N -> peer \in others n i -> dkg_inv n i d -> step_ok n i (step d peer (Share s)).
Proof.
  move=> Hi. rw mem_filter => /andP [ne Hin] Hinv /=.
  case Hc: (bt_get peer (commitments d)) => [c|//].
  have Hne : c != [::].
    rw -size_eq0 (eqP (allP (inv_size Hinv) _ (bt_get_in Hc))) -lt0n. exact: dkg_threshold_pos (leq_ltn_trans _ Hi).
  rw (inv_identity Hinv) checksum_value //. case: (g s =P _) => //= Hs.
  case Hg: (bt_get peer (sk_shares d)) => [//|].
  have Hinv' : dkg_inv n i (set_sk_shares d (bt_insert peer s (sk_shares d))).
    by apply: (store_share_inv Hinv Hc Hs Hg) => Hp; rw Hp eqxx in ne.
  case: eqP => // Hfull. rw (inv_num_peers Hinv) in Hfull.
  by have [pks -> Hval] := finish_result Hinv' Hfull.
Qed.

Lemma run_loop_safe (n i : nat) (todo : seq nat) (d : Dkg) received sent :
  (i < n)%N -> {subset todo <= others n i} -> dkg_inv n i d ->
  match (run_loop (others n i) todo d received sent).1 with
  | Waiting _ d' => dkg_inv n i d'
  | Done pks sks => size pks = threshold n /\ poly_value pks (scalar F i) = g sks
  | Failed _ => True
  | Panicked => False
  end.
Proof.
  move=> Hi. elim: received todo d sent => [//|m rest IH] todo d sent Hsub Hinv /=.
  set nxt := if todo is [::] then _ else _.
  have Hnxt : {subset nxt <= others n i} by rw /nxt; case: (todo) Hsub => [_ q|p t Hsub q Hq]; last exact: Hsub.
  case: nxt Hnxt => [//|peer todo'] Hnxt.
  have Hpeer : peer \in others n i by apply: Hnxt; rw inE eqxx.
  have Hsub' : {subset todo' <= others n i} by move=> q Hq; apply: Hnxt; rw inE Hq orbT.
  case: m => [[msg|]|] //.
  have : step_ok n i (step d peer msg).
    by case: msg => *; [apply: step_hash|apply: step_commitment|apply: step_share].
  by case: (step d peer msg) => [[[m|ms|pks sks]|e|] d'] //= Hd'; apply: IH.
Qed.

(** ** A federation of guardians *)

Section system.
Variable n : nat.
Variable poly : nat -> seq F.

(** What each guardian has received, and from whom. *)
Definition history := nat -> seq (nat * DkgMessage).

Definition run_of (h : history) (i : nat) : Run * seq (Recipient * DkgMessage) :=
  run_dkg n i (poly i) [seq Some (P2PDkg pm.2) | pm <- h i].

Definition addressed (i : nat) (r : Recipient) : bool := if r is Peer q then q == i else true.

(** What [p] has sent to [i] until now, in order. *)
Definition sent_to (h : history) (p i : nat) : seq DkgMessage :=
  [seq rm.2 | rm <- (run_of h p).2 & addressed i rm.1].

(** The peer the loop of [i] is blocked on. *)
Definition awaits (h : history) (i : nat) : option nat :=
  if (run_of h i).1 is Waiting todo _ then ohead (if todo is [::] then others n i else todo) else None.

(** The message on the way from [p] to [i] that is received next. *)
Definition next_message (h : history) (i p : nat) : option DkgMessage :=
  onth (sent_to h p i) (count (fun pm => pm.1 == p) (h i)).

(** A guardian that is blocked on a peer takes the next message of it. *)
Definition receive (h : history) (i : nat) : option history :=
  obind (fun p => omap (fun m => fun j => if j == i then rcons (h i) (p, m) else h j) (next_message h i p)) (awaits h i).

Inductive system_step (h h' : history) : Prop :=
  | SystemStep i : (i < n)%N -> receive h i = Some h' -> system_step h h'.

Inductive system_steps : nat -> history -> history -> Prop :=
  | StepsRefl h : system_steps 0 h h
  | StepsTrans k h h' h'' : system_steps k h h' -> system_step h' h'' -> system_steps k.+1 h h''.

Definition start : history := fun _ => [::].

(** *** Honest guardians *)

Hypothesis n_gt1 : (1 < n)%N.
Hypothesis size_poly : forall p, size (poly p) = threshold n.

Let N := n.-1.
Let C (p : nat) : seq V := map g (poly p).
Let value_at (i p : nat) : F := (Poly (poly p)).[scalar F i].

Lemma size_others (i : nat) : (i < n)%N -> size (others n i) = N.
Proof.
  move=> Hi. rw size_filter /N.
  have := count_predC (pred1 i) (peer_ids n). rw size_iota (count_uniq_mem _ (iota_uniq _ _)) mem_iota Hi /= add1n => /(congr1 predn) /= <-.
  exact: eq_count.
Qed.

(** The entries of a map are those of a function on a list of peers. *)
Definition tracks (A : eqType) (m : seq (nat * A)) (f : nat -> A) (ps : seq nat) : bool :=
  uniq ps && perm_eq m [seq (p, f p) | p <- ps].

Lemma tracks_keys (A : eqType) (m : seq (nat * A)) (f : nat -> A) (ps : seq nat) :
  tracks m f ps -> perm_eq (unzip1 m) ps.
Proof. by case/andP=> _ /(perm_map fst); rw -map_comp map_id. Qed.

Lemma tracks_size (A : eqType) (m : seq (nat * A)) (f : nat -> A) (ps : seq nat) :
  tracks m f ps -> size m = size ps.
Proof. by case/andP=> _ /perm_size; rw size_map. Qed.

Lemma tracks_values (A : eqType) (m : seq (nat * A)) (f : nat -> A) (ps : seq nat) :
  tracks m f ps -> perm_eq (unzip2 m) (map f ps).
Proof. by case/andP=> _ /(perm_map snd); rw -map_comp. Qed.

Lemma tracks_get (A : eqType) (m : seq (nat * A)) (f : nat -> A) (ps : seq nat) (q : nat) :
  tracks m f ps -> bt_get q m = if q \in ps then Some (f q) else None.
Proof.
  move=> Ht. have Hk := tracks_keys Ht. case/andP: Ht => Hu Hp. case: ifP => Hq.
  - apply: bt_in_get; first by rw (perm_uniq Hk).
    rw (perm_mem Hp). exact: (map_f (fun p => (p, f p)) Hq).
  - have := bt_get_mem q m. rw (perm_mem Hk) Hq. by case: (bt_get q m).
Qed.

Lemma tracks_insert (A : eqType) (m : seq (nat * A)) (f : nat -> A) (ps : seq nat) (q : nat) :
  tracks m f ps -> q \notin ps -> tracks (bt_insert q (f q) m) f (rcons ps q).
Proof.
  move=> Ht Hq. have Hg := tracks_get q Ht. rw (negPf Hq) in Hg. case/andP: Ht => Hu Hp.
  rw /tracks rcons_uniq Hq Hu /=. apply: (perm_trans (bt_insert_perm (f q) Hg)).
  by rw map_rcons perm_sym perm_rcons perm_cons perm_sym.
Qed.

Lemma others_uniq (i : nat) : uniq (i :: others n i).
Proof. by rw /= filter_uniq ?iota_uniq // mem_filter eqxx. Qed.

Lemma others_perm (i : nat) : (i < n)%N -> perm_eq (i :: others n i) (peer_ids n).
Proof.
  move=> Hi. apply: uniq_perm; [exact: others_uniq|exact: iota_uniq|move=> p].
  rw inE mem_filter mem_iota /=. by case: eqP => [->|_] //=; rw Hi.
Qed.

(** Message [r] of [p] to [i]. *)
Definition honest_message (r p i : nat) : DkgMessage :=
  if r == 0 then Hash (consensus_hash_sha256 (C p))
  else if r == 1 then Commitment (C p) else Share (value_at i p).

(** What the federation agrees on, and the share of [i]. *)
Definition honest_pks : seq V := [seq (\sum_(p <- peer_ids n) nth 0 (C p) k) | k <- iota 0 (threshold n)].
Definition honest_sks (i : nat) : F := \sum_(p <- peer_ids n) value_at i p.

(** Guardian [i] has received round [r] from the first [j] of the others. *)
Record at_round (i r j : nat) (d : Dkg) : Prop := {
  at_num_peers : num_peers d = n;
  at_identity : identity d = i;
  at_polynomial : polynomial d = poly i;
  at_hash : tracks (hash_commitments d) (fun p => consensus_hash_sha256 (C p))
              (i :: (if r == 0 then take j (others n i) else others n i));
  at_commitments : tracks (commitments d) C
              (i :: (if r == 0 then [::] else if r == 1 then take j (others n i) else others n i));
  at_shares : tracks (sk_shares d) (value_at i) (if r == 2 then i :: take j (others n i) else [::]);
}.

Lemma honest_nonempty (p : nat) : poly p != [::].
Proof using n_gt1 size_poly. rw -size_eq0 size_poly -lt0n. exact: dkg_threshold_pos (ltnW n_gt1). Qed.

Section guardian.
Variable i j : nat.
Hypothesis i_lt : (i < n)%N.
Hypothesis j_lt : (j < N)%N.
Let p := nth 0%N (others n i) j.

Lemma next_fresh : p \notin i :: take j (others n i).
Proof using i_lt j_lt.
  have := others_uniq i. rw /= => /andP [Hi Hu].
  have Hj : (j < size (others n i))%N by rw size_others.
  have := take_uniq j.+1 Hu. rw (take_nth 0%N Hj) rcons_uniq inE negb_or => /andP [-> _].
  rw andbT. apply: contra Hi => /eqP Hpi. rw -{1}Hpi. exact: mem_nth.
Qed.

Lemma next_other : p \in others n i.
Proof using i_lt j_lt. by apply: mem_nth; rw size_others. Qed.

Lemma take_next : rcons (i :: take j (others n i)) p = i :: take j.+1 (others n i).
Proof using i_lt j_lt. by rw /= (take_nth 0%N) ?size_others. Qed.

Lemma size_next : (size (i :: take j.+1 (others n i)) == n) = (j.+1 == N).
Proof using i_lt j_lt n_gt1. by rw /= size_take_min size_others // (minn_idPl j_lt) -(prednK (ltnW n_gt1)). Qed.

Lemma take_all : j.+1 = N -> take j.+1 (others n i) = others n i.
Proof using i_lt. by move=> ->; rw -(size_others i_lt) take_size. Qed.

Lemma at_hash_step (d : Dkg) :
  at_round i 0 j d ->
  exists2 d', step d p (honest_message 0 p i) = (Ok (if j.+1 == N then Broadcast (Commitment (C i)) else nop), d') &
    if j.+1 == N then at_round i 1 0 d' else at_round i 0 j.+1 d'.
Proof using i_lt j_lt n_gt1.
  case=> Hn Hi Hp Hh Hc Hs /=. rw (tracks_get p Hh) (negPf next_fresh).
  have Hh' := tracks_insert Hh next_fresh. rw take_next in Hh'.
  rw (tracks_size Hh') Hn size_next /commitment /= Hp -/(C i).
  case: eqP => Hj; (eexists; first reflexivity).
  - by rw take_all // in Hh'; split=> //=; rw take0.
  - exact: Build_at_round.
Qed.

(** The messages that deal out the polynomial of [i]. *)
Definition honest_shares : DkgStep := Messages [seq (q, Share (value_at q i)) | q <- others n i].

Lemma at_commitment_step (d : Dkg) :
  at_round i 1 j d ->
  exists2 d', step d p (honest_message 1 p i) = (Ok (if j.+1 == N then honest_shares else nop), d') &
    if j.+1 == N then at_round i 2 0 d' else at_round i 1 j.+1 d'.
Proof using i_lt j_lt n_gt1 size_poly.
  case=> Hn Hi Hp Hh Hc Hs /=.
  rw (tracks_get p Hh) inE next_other orbT eqxx Hn size_map size_poly eqxx /=.
  rw (tracks_get p Hc) (negPf next_fresh).
  have Hc' := tracks_insert Hc next_fresh. rw take_next in Hc'.
  rw (tracks_size Hc') size_next. case: eqP => Hj; last by (eexists; first reflexivity); apply: Build_at_round.
  rw (share_out_Ok (n := n) (i := i)) //= Hp ?honest_nonempty //. eexists; first reflexivity.
  rw take_all // in Hc'. split=> //=. rw take0. exact: (tracks_insert Hs).
Qed.

Lemma at_share_step (d : Dkg) :
  at_round i 2 j d ->
  exists2 d', step d p (honest_message 2 p i) =
      (Ok (if j.+1 == N then Result honest_pks (honest_sks i) else nop), d') &
    j.+1 != N -> at_round i 2 j.+1 d'.
Proof using i_lt j_lt n_gt1 size_poly.
  case=> Hn Hi Hp Hh Hc Hs /=.
  rw (tracks_get p Hc) inE next_other orbT Hi checksum_value; first by rw -size_eq0 size_map size_eq0 honest_nonempty.
  rw poly_value_scale eqxx /= (tracks_get p Hs) (negPf next_fresh).
  have Hs' := tracks_insert Hs next_fresh. rw take_next in Hs'.
  rw (tracks_size Hs') Hn size_next. case: eqP => Hj; last by (eexists; first reflexivity); move=> _; apply: Build_at_round.
  have Hval := tracks_values Hc. have Hsz : all (fun c => size c == threshold n) (unzip2 (commitments d)).
    rw (perm_all _ Hval) all_map. apply/allP => q _ /=. by rw size_map size_poly.
  rw (finish_Ok (n := n)) //=; first by rw -size_eq0 (perm_size Hval).
  eexists; last by []. congr (Ok _, _). congr Result.
  - apply/eq_map => k. by rw (perm_big _ Hval) big_map (perm_big _ (others_perm i_lt)).
  - rw (perm_big _ (tracks_values Hs')) take_all // big_map. exact: perm_big (others_perm i_lt).
Qed.
End guardian.

Lemma run_loop_rcons (os todo todo' : seq nat) (d d' : Dkg) received m sent sent' :
  run_loop os todo d received sent = (Waiting todo' d', sent') ->
  run_loop os todo d (rcons received m) sent = run_loop os todo' d' [:: m] sent'.
Proof.
  elim: received todo d sent => [|m' rest IH] todo d sent; first by case=> -> -> ->.
  rw rcons_cons [run_loop _ _ _ (m' :: _) _]/= [run_loop _ _ _ (m' :: rcons _ _) _]/=.
  case Ht : (if todo is [::] then os else todo) => [|peer rest']; first by case=> <- <- <-; rw /= Ht.
  case: m' => [[msg|]|//]; last by [].
  case: (step d peer msg) => [[[m'|ms|pks sks]|e|] d''] //; exact: IH.
Qed.

Lemma run_loop_one (os todo : seq nat) (peer : nat) (d : Dkg) m sent :
  run_loop os (peer :: todo) d [:: Some (P2PDkg m)] sent =
  match step d peer m with
  | (Ok (Broadcast m'), d') => (Waiting todo d', rcons sent (Everyone, m'))
  | (Ok (Messages ms), d') => (Waiting todo d', sent ++ [seq (Peer pm.1, pm.2) | pm <- ms])
  | (Ok (Result pks sks), _) => (Done pks sks, sent)
  | (Err e, _) => (Failed e, sent)
  | (Panic, _) => (Panicked, sent)
  end.
Proof. by []. Qed.

(** The messages [i] receives from honest guardians, in the order it takes them. *)
Definition expected (i k : nat) : seq (nat * DkgMessage) :=
  mkseq (fun k => let p := nth 0%N (others n i) (k %% N) in (p, honest_message (k %/ N) p i)) k.

Definition run_expected (i k : nat) : Run * seq (Recipient * DkgMessage) :=
  run_dkg n i (poly i) [seq Some (P2PDkg pm.2) | pm <- expected i k].

(** What [i] has sent when it is in round [r]. *)
Definition sent_until (i r : nat) : seq (Recipient * DkgMessage) :=
  (Everyone, Hash (consensus_hash_sha256 (C i))) ::
  (if (0 < r)%N then [:: (Everyone, Commitment (C i))] else [::]) ++
  (if (1 < r)%N then [seq (Peer q, Share (value_at q i)) | q <- others n i] else [::]).

(** The loop of [i] awaits message [r] of the other number [j]. *)
Definition reached (i r j : nat) : Prop :=
  exists todo d, run_expected i (r * N + j) = (Waiting todo d, sent_until i r) /\
    (if todo is [::] then others n i else todo) = drop j (others n i) /\ at_round i r j d.

Lemma N_gt0 : (0 < N)%N.
Proof using n_gt1. by rw /N -subn1 subn_gt0. Qed.

Lemma reached_start (i : nat) : (i < n)%N -> reached i 0 0.
Proof using n_gt1.
  move=> Hi. exists (others n i), (new n i (poly i)).
  split; last split; [by []| |by split=> //=; rw ?take0 /tracks /= perm_refl].
  by rw drop0; case: (others n i).
Qed.

(** One more message is one more turn of the loop. *)
Lemma reached_turn (i r j : nat) :
  (i < n)%N -> (j < N)%N -> reached i r j ->
  exists d, at_round i r j d /\ let p := nth 0%N (others n i) j in
    run_expected i (r * N + j).+1 =
    run_loop (others n i) (p :: drop j.+1 (others n i)) d [:: Some (P2PDkg (honest_message r p i))] (sent_until i r).
Proof using n_gt1.
  move=> Hi Hj [todo [d [Hrun [Htodo Hat]]]]. exists d. split=> //. move=> p.
  rw /run_expected /expected mkseqS map_rcons /= divnMDl ?N_gt0 // modnMDl divn_small // modn_small // addn0.
  rw /run_dkg (run_loop_rcons _ Hrun) /= Htodo (drop_nth 0%N) ?size_others //.
Qed.

Lemma reached_next (i r j : nat) :
  (i < n)%N -> (r < 3)%N -> (j.+1 < N)%N -> reached i r j -> reached i r j.+1.
Proof using n_gt1 size_poly.
  move=> Hi Hr Hj1 Hreach. have Hj : (j < N)%N := ltnW Hj1.
  have Hne : (j.+1 == N) = false by rw ltn_eqF.
  have [d [Hat Hrun]] := reached_turn Hi Hj Hreach.
  have [d' Hstep Hat'] : exists2 d', step d (nth 0%N (others n i) j) (honest_message r (nth 0%N (others n i) j) i) = (Ok nop, d')
      & at_round i r j.+1 d'.
    case: r Hr Hat {Hreach Hrun} => [|[|[|//]]] _ Hat.
    - have := at_hash_step Hi Hj Hat. by rw Hne.
    - have := at_commitment_step Hi Hj Hat. by rw Hne.
    - have [d' Hstep Hd'] := at_share_step Hi Hj Hat. exists d'; last by apply: Hd'; rw Hne.
      by rw Hstep Hne.
  exists (drop j.+1 (others n i)), d'. rw addnS Hrun run_loop_one Hstep /= cats0. split=> //. split=> //.
  by case Hd: (drop _ _) => //; have := congr1 size Hd; rw size_drop size_others //= => /eqP; rw subn_eq0 leqNgt Hj1.
Qed.

Lemma reached_round (i r : nat) :
  (i < n)%N -> (r < 2)%N -> reached i r N.-1 -> reached i r.+1 0.
Proof using n_gt1 size_poly.
  move=> Hi Hr Hreach. have Hj : (N.-1 < N)%N by rw prednK ?N_gt0.
  have Hlast : N.-1.+1 == N by rw prednK ?N_gt0.
  have [d [Hat Hrun]] := reached_turn Hi Hj Hreach.
  have Hpos : (r * N + N.-1).+1 = (r.+1 * N + 0)%N by rw -addnS prednK ?N_gt0 // addn0 mulSn addnC.
  have Hdrop : drop N.-1.+1 (others n i) = [::] by rw (eqP Hlast) drop_oversize // size_others.
  case: r Hr Hat Hpos Hrun {Hreach} => [|[|//]] _ Hat Hpos Hrun.
  - have [d' Hstep Hat'] := at_hash_step Hi Hj Hat. rw Hlast in Hstep Hat'.
    exists [::], d'. by rw -Hpos Hrun run_loop_one Hstep /= Hdrop drop0.
  - have [d' Hstep Hat'] := at_commitment_step Hi Hj Hat. rw Hlast in Hstep Hat'.
    exists [::], d'. rw -Hpos Hrun run_loop_one Hstep /= Hdrop drop0 -map_comp. by split.
Qed.

Lemma all_reached (i r j : nat) : (i < n)%N -> (r < 3)%N -> (j < N)%N -> reached i r j.
Proof using n_gt1 size_poly.
  move=> Hi. elim: r j => [|r IHr] j Hr; elim: j => [|j IHj] Hj.
  - exact: reached_start.
  - exact: (reached_next Hi Hr Hj (IHj (ltnW Hj))).
  - apply: (reached_round Hi Hr). apply: (IHr _ (ltnW Hr)). by rw prednK ?N_gt0.
  - exact: (reached_next Hi Hr Hj (IHj (ltnW Hj))).
Qed.

Lemma all_done (i : nat) :
  (i < n)%N -> run_expected i (3 * N) = (Done honest_pks (honest_sks i), sent_until i 2).
Proof using n_gt1 size_poly.
  move=> Hi. have Hj : (N.-1 < N)%N by rw prednK ?N_gt0.
  have [d [Hat Hrun]] := reached_turn Hi Hj (@all_reached i 2 N.-1 Hi isT Hj).
  have Hpos : (2 * N + N.-1).+1 = (3 * N)%N by rw -addnS prednK ?N_gt0 // mulSn addnC.
  have [d' Hstep _] := at_share_step Hi Hj Hat. rw prednK ?N_gt0 // eqxx in Hstep.
  by rw -Hpos Hrun run_loop_one Hstep.
Qed.

(** A guardian is in round [k %/ N], or done after the third. *)
Lemma expected_run (i k : nat) :
  (i < n)%N -> (k <= 3 * N)%N ->
  if k == (3 * N)%N then run_expected i k = (Done honest_pks (honest_sks i), sent_until i 2)
  else (k %/ N < 3)%N /\ reached i (k %/ N) (k %% N).
Proof using n_gt1 size_poly.
  move=> Hi Hk. case: eqP => [->|/eqP ne]; first exact: all_done.
  have Hr : (k %/ N < 3)%N by rw ltn_divLR ?N_gt0 // ltn_neqAle ne.
  split=> //. apply: all_reached => //. by rw ltn_pmod ?N_gt0.
Qed.

Lemma expected_sent (i k : nat) :
  (i < n)%N -> (k <= 3 * N)%N -> (run_expected i k).2 = sent_until i (k %/ N).
Proof using n_gt1 size_poly.
  move=> Hi Hk. have := expected_run Hi Hk. case: eqP => [-> ->|_ [_ [todo [d [Hrun _]]]]].
  - by rw mulnK ?N_gt0.
  - by rw -divn_eq in Hrun; rw Hrun.
Qed.

(** The messages of [p] to [i] in order of the rounds. *)
Lemma sent_messages (p i r k : nat) :
  (i < n)%N -> i != p -> (r < 3)%N ->
  onth [seq rm.2 | rm <- sent_until p k & addressed i rm.1] r =
  if (r <= k)%N then Some (honest_message r p i) else None.
Proof.
  move=> Hi ne Hr.
  have Hshare : [seq rm.2 | rm <- [seq (Peer q, Share (value_at q p)) | q <- others n p] & addressed i rm.1]
      = [:: Share (value_at i p)].
    rw filter_map -map_comp. rw (eq_filter (a2 := pred1 i)) //.
    rw filter_pred1_uniq ?filter_uniq ?iota_uniq // mem_filter ne mem_iota. exact: Hi.
  rw /sent_until /= filter_cat map_cat.
  case: k => [|[|k]] /=; rw ?Hshare; by case: r Hr => [|[|[|//]]].
Qed.

Lemma count_mod (m r q : nat) : (r < m)%N -> count (fun j => j %% m == r)%N (iota 0 (q * m + r)) = q.
Proof.
  move=> Hr. elim: q => [|q IH].
  - apply/eqP. rw -leqn0 leqNgt -has_count. apply/hasP => -[j]. rw mem_iota /= mul0n add0n => Hj.
    by rw modn_small ?(ltn_trans Hj) // => /eqP Hjr; rw Hjr ltnn in Hj.
  - rw mulSn -addnA iotaD count_cat add0n.
    have -> : iota m (q * m + r) = [seq (m + j)%N | j <- iota 0 (q * m + r)] by rw -iotaDl addn0.
    rw count_map (eq_count (a2 := fun j => j %% m == r)%N) ?IH; first by move=> j /=; rw modnDl.
    rw (eq_in_count (a2 := pred1 r)) ?(count_uniq_mem _ (iota_uniq _ _)) ?mem_iota ?Hr //.
    by move=> j; rw mem_iota /= => Hj; rw modn_small.
Qed.

(** The guardian has received as many messages of the peer it awaits as rounds. *)
Lemma expected_count (i k : nat) :
  (i < n)%N ->
  count (fun pm => pm.1 == nth 0%N (others n i) (k %% N)) (expected i k) = (k %/ N)%N.
Proof using n_gt1.
  move=> Hi. rw /expected /mkseq count_map -[RHS](count_mod (m := N) (r := k %% N)) ?ltn_pmod ?N_gt0 // -divn_eq.
  apply: eq_count => j /=. have := others_uniq i => /= /andP [_ Hu].
  by rw nth_uniq ?size_others ?ltn_pmod ?N_gt0.
Qed.

(** *** Invariant and progress of the federation *)

Definition system_inv (h : history) : Prop :=
  forall i, (i < n)%N -> (size (h i) <= 3 * N)%N /\ h i = expected i (size (h i)).

Lemma run_of_expected (h : history) (i : nat) :
  system_inv h -> (i < n)%N -> run_of h i = run_expected i (size (h i)).
Proof. by move=> Hinv Hi; have [_ Hh] := Hinv i Hi; rw /run_of Hh size_mkseq. Qed.

(** What a guardian that is not done awaits, and whether it is there. *)
Lemma receive_expected (h : history) (i : nat) :
  system_inv h -> (i < n)%N ->
  let k := size (h i) in let p := nth 0%N (others n i) (k %% N) in
  receive h i =
  if (k == 3 * N)%N then None
  else if (k %/ N <= size (h p) %/ N)%N
       then Some (fun j => if j == i then rcons (h i) (p, honest_message (k %/ N) p i) else h j) else None.
Proof using n_gt1 size_poly.
  move=> Hinv Hi k p. have [Hle Hh] := Hinv i Hi. rw /receive /awaits run_of_expected //.
  have := expected_run Hi Hle. rw -/k. case: eqP => [_ -> //|_ [Hr [todo [d [Hrun [Htodo _]]]]]].
  rw -divn_eq in Hrun. rw Hrun /= Htodo (drop_nth 0%N) ?size_others ?ltn_pmod ?N_gt0 //= -/p.
  have Hp : p \in others n i by apply: mem_nth; rw size_others ?ltn_pmod ?N_gt0.
  move: (Hp). rw mem_filter mem_iota => /andP [ne Hpn].
  have [Hlep _] := Hinv p Hpn.
  rw /next_message /sent_to run_of_expected // expected_sent // Hh expected_count // sent_messages // 1?eq_sym //.
  by case: ifP.
Qed.

Definition total (h : history) : nat := (\sum_(i < n) size (h i))%N.

Lemma step_system_inv (h h' : history) :
  system_inv h -> system_step h h' -> system_inv h' /\ total h' = (total h).+1.
Proof using n_gt1 size_poly.
  move=> Hinv [i Hi]. rw receive_expected //. have [Hle Hh] := Hinv i Hi.
  case: eqP => // /eqP ne. case: ifP => // _ [<-]. split.
  - move=> j Hj. case: eqP => [->|_]; last exact: Hinv.
    rw size_rcons ltn_neqAle ne Hle; split=> //. by rw {1}Hh /expected mkseqS.
  - rw /total (bigD1 (Ordinal Hi)) //= eqxx size_rcons addSn [in RHS](bigD1 (Ordinal Hi)) //=. congr ((_ + _)%N.+1).
    apply: eq_bigr => j Hj. case: eqP => // Hji. by rw -val_eqE /= Hji eqxx in Hj.
Qed.

Lemma steps_system_inv (k : nat) (h : history) :
  system_steps k start h -> system_inv h /\ total h = k.
Proof using n_gt1 size_poly.
  move=> Hst. remember start as h0 eqn:Hs. elim: Hst Hs => {k h h0} [h ->|k h h' h'' _ IH Hstep Hs].
  - split=> //. by rw /total big1.
  - have [Hinv Ht] := IH Hs. by have [? ->] := step_system_inv Hinv Hstep; rw Ht.
Qed.

(** The guardian that is furthest behind is not blocked. *)
Lemma system_progress (h : history) (i : nat) :
  system_inv h -> (i < n)%N -> (size (h i) < 3 * N)%N -> exists h', system_step h h'.
Proof using n_gt1 size_poly.
  move=> Hinv Hi Hlt. pose m := [arg min_(j < Ordinal Hi) size (h j)]%N.
  have [Hmlt Hmin] : (size (h m) < 3 * N)%N /\ forall q : 'I_n, (size (h m) <= size (h q))%N.
    rw /m; case: arg_minnP => // j _ Hj. split=> [|q]; last exact: Hj.
    exact: leq_ltn_trans (Hj (Ordinal Hi) isT) Hlt.
  have /= Hr := receive_expected Hinv (ltn_ord m). rw (ltn_eqF Hmlt) in Hr.
  have Hp : nth 0%N (others n m) (size (h m) %% N) \in others n m.
    by apply: mem_nth; rw size_others ?ltn_pmod ?N_gt0.
  rw mem_filter mem_iota in Hp. case/andP: Hp => _ Hpn.
  have := Hmin (Ordinal Hpn) => /= Hle. rw (leq_div2r N Hle) in Hr.
  eexists. exact: SystemStep (ltn_ord m) Hr.
Qed.

Lemma total_bound (h : history) :
  system_inv h -> (total h <= n * (3 * N) ?= iff [forall i : 'I_n, size (h i) == 3 * N])%N.
Proof.
  move=> Hinv. have := @leqif_sum 'I_n xpredT (fun i => size (h i) == 3 * N)%N (fun i => size (h i)) (fun _ => 3 * N)%N.
  rw sum_nat_const card_ord. apply=> i _. apply/leqif_eq. by have [] := Hinv i (ltn_ord i).
Qed.

(** C28: a federation of honest guardians with channels between any two of them
    completes the key generation in every order of delivery.  Until each has
    received its three messages of every other guardian some guardian can
    receive one, so the run takes exactly [3 * n * (n - 1)] steps and never
    deadlocks; on the way no guardian fails or panics; at the end all have
    the same public polynomial and the share of it at their scalar. *)
Theorem dkg_federation_terminates (k : nat) (h : history) :
  system_steps k start h ->
  (k <= n * (3 * n.-1))%N /\
  ((k < n * (3 * n.-1))%N -> exists h', system_step h h') /\
  (forall i, (i < n)%N -> match (run_of h i).1 with
    | Waiting _ _ => True
    | Done pks sks => pks = honest_pks /\ sks = honest_sks i
    | Failed _ | Panicked => False
    end) /\
  (k = (n * (3 * n.-1))%N -> forall i, (i < n)%N -> (run_of h i).1 = Done honest_pks (honest_sks i)).
Proof using n_gt1 size_poly.
  move=> /steps_system_inv [Hinv <-]. have Hb := total_bound Hinv.
  split; [exact: Hb|split; last split].
  - rw (ltn_leqif Hb) negb_forall => /existsP [i ne]. apply: (system_progress Hinv (ltn_ord i)).
    by rw ltn_neqAle ne; have [] := Hinv i (ltn_ord i).
  - move=> i Hi. have [Hle _] := Hinv i Hi. rw run_of_expected //. have := expected_run Hi Hle.
    case: eqP => [_ ->|_ [_ [todo [d [Hrun _]]]]] //. by rw -divn_eq in Hrun; rw Hrun.
  - move=> /eqP. rw (eq_leqif Hb) => /forallP Hall i Hi. rw run_of_expected //.
    by rw (eqP (Hall (Ordinal Hi))) all_done.
Qed.
End system.

Lemma run_dkg_value (n i : nat) (poly : seq F) (received : seq (option P2PMessage)) :
  (i < n)%N -> size poly = threshold n ->
  match (run_dkg n i poly received).1 with
  | Waiting _ _ | Failed _ => True
  | Done pks sks => size pks = threshold n /\ poly_value pks (scalar F i) = g sks
  | Panicked => False
  end.
Proof.
  move=> Hi Hp. have := run_loop_safe received [:: (Everyone, initial_message (new n i poly))] Hi (fun q Hq => Hq) (new_inv Hi Hp).
  rw /run_dkg. by case: (run_loop _ _ _ _ _) => [[todo d|pks sks|e|] sent].
Qed.

(** C29: whatever the other guardians send, a key generation does not panic, and
    if it returns then the secret share is the one of the public polynomial:
    the polynomial has the degree of the threshold, and its value at the
    scalar of this guardian is the public key of the share. *)
Theorem dkg_result_consistent (n i : nat) (poly : seq F) (received : seq (option P2PMessage)) :
  (i < n)%N -> size poly = threshold n ->
  match (run_dkg n i poly received).1 with
  | Done pks sks => size pks = threshold n /\ eval_poly pks i = Some (g sks)
  | Waiting _ _ | Failed _ => True
  | Panicked => False
  end.
Proof.
  move=> Hi Hp. have := run_dkg_value received Hi Hp. case: (run_dkg _ _ _ _) => [[todo d|pks sks|e|] sent] //= [Hsz Hval].
  split=> //. rw eval_poly_value ?Hval // -size_eq0 Hsz -lt0n. exact: dkg_threshold_pos (leq_ltn_trans _ Hi).
Qed.

(** In a cyclic group a public polynomial is the one of some scalars. *)
Lemma public_polynomial (pks : seq V) :
  (forall x, exists a, x = g a) ->
  exists2 P : {poly F}, (size P <= size pks)%N & forall x, poly_value pks x = g P.[x].
Proof.
  move=> Hcyc. have [cs ->] : exists cs, pks = map g cs.
    elim: pks => [|c pks [cs ->]]; first by exists [::]. have [a ->] := Hcyc c. by exists (a :: cs).
  exists (Poly cs); first by rw size_map size_Poly. move=> x. exact: poly_value_scale.
Qed.
End dkg.

(** ** The two groups *)

Module DkgG1.
Section g1.
Variable C : curve.
Variable H : eqType.
Variable consensus_hash_sha256 : seq (G1 C) -> H.

Definition g1 : Scalar C -> G1 C := g (G1_generator C).
Definition eval_poly_g1 : seq (G1 C) -> nat -> option (G1 C) := @eval_poly (Scalar C) (G1 C).
Definition run_dkg_g1 : nat -> nat -> seq (Scalar C) -> seq (option (P2PMessage (G1 C) H)) -> _ :=
  run_dkg (G1_generator C) consensus_hash_sha256.
End g1.
End DkgG1.

Module DkgG2.
Section g2.
Variable C : curve.
Variable H : eqType.
Variable consensus_hash_sha256 : seq (G2 C) -> H.

Definition g2 : Scalar C -> G2 C := g (G2_generator C).
Definition eval_poly_g2 : seq (G2 C) -> nat -> option (G2 C) := @eval_poly (Scalar C) (G2 C).
Definition new_g2 : nat -> nat -> seq (Scalar C) -> Dkg (G2 C) H := new (G2_generator C) consensus_hash_sha256.
Definition commitment_g2 : Dkg (G2 C) H -> seq (G2 C) := commitment (G2_generator C) (H := H).
Definition initial_message_g2 : Dkg (G2 C) H -> DkgMessage (G2 C) H := initial_message (G2_generator C) consensus_hash_sha256.
Definition step_g2 : Dkg (G2 C) H -> nat -> DkgMessage (G2 C) H -> _ := step (G2_generator C) consensus_hash_sha256.
Definition run_dkg_g2 : nat -> nat -> seq (Scalar C) -> seq (option (P2PMessage (G2 C) H)) -> _ :=
  run_dkg (G2_generator C) consensus_hash_sha256.
End g2.
End DkgG2.
