(* ===== verification/Keys.v ===== *)
(** * The keys of the modules

    What the mints ([modules/fedimint-mint-server/src/lib.rs],
    [modules/fedimint-mintv2-server/src/lib.rs]) and the lightning module
    ([modules/fedimint-lnv2-server/src/lib.rs]) make of a key generation: the
    configuration of a guardian, its validation, the aggregate keys the mint
    derives at start, and the keys of a trusted dealer.  The theorems connect
    key generation with the signatures and the encryption of [Threshold]. *)

From Stdlib Require Import NArith.
From mathcomp Require Import boot order ssralg ssrnum poly rat.
From S2P Require Import Threshold Dkg.
Set Implicit Arguments.
Unset Strict Implicit.
Unset Printing Implicit Defensive.
Import GRing.Theory.
Local Open Scope ring_scope.

(** ** Tiers *)

Section tiered.
Variable A : Type.

Definition tiered_push (m : seq (nat * seq A)) (amt : nat) (val : A) : seq (nat * seq A) :=
  bt_insert amt (rcons (odflt [::] (bt_get amt m)) val) m.

Definition push_all (m : seq (nat * seq A)) (tiered : seq (nat * A)) : seq (nat * seq A) :=
  foldl (fun m av => tiered_push m av.1 av.2) m tiered.

(** [None] is the assertion that all tiers have as many entries. *)
Definition new_aggregate_from_tiered_iter (tiered_iter : seq (seq (nat * A))) : option (seq (nat * seq A)) :=
  let tiered_multi := foldl push_all [::] tiered_iter in
  if constant [seq size av.2 | av <- tiered_multi] then Some tiered_multi else None.

Lemma bt_insert_path (B : Type) (k lo : nat) (v : B) (m : seq (nat * B)) :
  (lo < k)%N -> path ltn lo (unzip1 m) -> path ltn lo (unzip1 (bt_insert k v m)).
Proof.
  elim: m lo => [|[k' v'] m IH] lo /= Hlo; first by rw Hlo.
  move=> /andP [Hk' Hp]. case: ltngtP => [Hlt|Hgt|Heq] /=; rw ?Hlo ?Hk' /= ?Hlt //.
  - exact: IH.
  - by rw Heq.
Qed.

Lemma bt_insert_sorted (B : Type) (k : nat) (v : B) (m : seq (nat * B)) :
  sorted ltn (unzip1 m) -> sorted ltn (unzip1 (bt_insert k v m)).
Proof.
  case: m => [//|[k' v'] m] /= Hp. case: ltngtP => [Hlt|Hgt|Heq] /=; first by rw Hlt.
  - exact: bt_insert_path.
  - by rw Heq.
Qed.

Lemma push_all_sorted (m : seq (nat * seq A)) (tiered : seq (nat * A)) :
  sorted ltn (unzip1 m) -> sorted ltn (unzip1 (push_all m tiered)).
Proof. by elim: tiered m => [//|av tiered IH] m Hm /=; apply: IH; apply: bt_insert_sorted. Qed.

Lemma push_all_get (m : seq (nat * seq A)) (amounts : seq nat) (f : nat -> A) (a : nat) :
  uniq amounts ->
  bt_get a (push_all m [seq (b, f b) | b <- amounts]) =
  if a \in amounts then Some (rcons (odflt [::] (bt_get a m)) (f a)) else bt_get a m.
Proof.
  elim: amounts m => [//|b amounts IH] m /= /andP [Hni Hu]. rw IH // /tiered_push inE bt_get_insert.
  by case: eqP => [->|_] //=; rw (negPf Hni).
Qed.

(** Structurally equal tiers are collected per amount, in order of the peers. *)
Lemma aggregate_tiers_get (amounts : seq nat) (f : nat -> nat -> A) (peers : seq nat) (a : nat) :
  uniq amounts -> peers != [::] ->
  bt_get a (foldl push_all [::] [seq [seq (b, f p b) | b <- amounts] | p <- peers]) =
  if a \in amounts then Some [seq f p a | p <- peers] else None.
Proof.
  move=> Hu. elim/last_ind: peers => [//|peers p IH] _. rw map_rcons foldl_rcons push_all_get //.
  have [->|ne] := eqVneq peers [::]; first by [].
  rw IH // map_rcons. by case: (a \in amounts).
Qed.

Lemma aggregate_tiers_sorted (tiereds : seq (seq (nat * A))) :
  sorted ltn (unzip1 (foldl push_all [::] tiereds)).
Proof.
  elim/last_ind: tiereds => [//|tiereds t IH]. by rw foldl_rcons push_all_sorted.
Qed.
End tiered.

Lemma aggregate_tiers_Some (A : eqType) (amounts : seq nat) (f : nat -> nat -> A) (peers : seq nat) :
  uniq amounts -> peers != [::] ->
  exists2 m, new_aggregate_from_tiered_iter [seq [seq (b, f p b) | b <- amounts] | p <- peers] = Some m &
    uniq (unzip1 m) /\ forall a l, (a, l) \in m <-> a \in amounts /\ l = [seq f p a | p <- peers].
Proof.
  move=> Hu ne. rw /new_aggregate_from_tiered_iter. set m := foldl _ _ _.
  have Hum : uniq (unzip1 m) := sorted_uniq ltn_trans ltnn (aggregate_tiers_sorted _).
  have Hin a l : (a, l) \in m <-> a \in amounts /\ l = [seq f p a | p <- peers].
    have Hg := aggregate_tiers_get f a Hu ne. split.
    - move=> /(bt_in_get Hum). rw Hg. by case: ifP => // Ha [<-].
    - case=> Ha ->. rw Ha in Hg. exact: bt_get_in.
  exists m; last by []. have -> // : constant [seq size av.2 | av <- m].
  apply: (@all_pred1_constant _ (size peers)). rw all_map. apply/allP => -[a l] /Hin [_ ->] /=. by rw size_map.
Qed.

(** Tiers that are mapped without a panic keep their amounts. *)
Lemma all_some_tiers (T : eqType) (B : Type) (f : T -> option B) (s : seq (nat * T)) :
  uniq (unzip1 s) -> (forall a t, (a, t) \in s -> f t) ->
  exists2 l, all_some [seq omap (pair at_.1) (f at_.2) | at_ <- s] = Some l &
    forall a t, (a, t) \in s -> bt_get a l = f t.
Proof.
  elim: s => [|[a t] s IH] /=; first by exists [::]. move=> /andP [Hni Hu] Hf.
  have [l -> Hl] := IH Hu (fun b u Hb => Hf b u (mem_behead (Hb : _ \in behead ((a, t) :: s)))).
  have : f t by apply: (Hf a); rw inE eqxx.
  case Ht: (f t) => [y|//] _. exists ((a, y) :: l) => // b u /=. rw inE => /orP [/eqP [-> ->]|Hb].
  - by rw eqxx.
  - case: eqP => [Hba|_]; last exact: Hl. by rw -Hba (map_f fst Hb : b \in _) in Hni.
Qed.

Inductive ConfigError := KeyMismatch | NoMsatTier | NoKeyForIdentity.

(** ** The mint *)

Module MintKeys.
Section mint.
Variable C : curve.
Variable H : eqType.
Variable consensus_hash_sha256 : seq (G2 C) -> H.
Local Abbreviation Scalar := (Scalar C).
Local Abbreviation G1 := (G1 C).
Local Abbreviation G2 := (G2 C).
Local Abbreviation g2 := (@DkgG2.g2 C).
Local Abbreviation run_dkg_g2 := (DkgG2.run_dkg_g2 consensus_hash_sha256).

(** [MintConfig]: the secret key of each denomination, and the public key
    shares of each peer. *)
Record MintConfig := MkMintConfig {
  tbs_sks : seq (nat * Scalar);
  peer_tbs_pks : seq (nat * seq (nat * G2));
}.

(** [distributed_gen], after the key generation of each denomination. *)
Definition distributed_gen (n : nat) (amount_keys : seq (nat * (seq G2 * Scalar))) : option MintConfig :=
  omap (MkMintConfig [seq (ak.1, ak.2.2) | ak <- amount_keys])
    (all_some [seq omap (pair peer) (all_some [seq omap (pair ak.1) (DkgG2.eval_poly_g2 ak.2.1 peer) | ak <- amount_keys])
              | peer <- peer_ids n]).

Definition public_tiers (cfg : MintConfig) : seq (nat * G2) :=
  [seq (ak.1, Tbs.derive_pk_share ak.2) | ak <- tbs_sks cfg].

Definition validate_config (identity : nat) (cfg : MintConfig) : outcome ConfigError unit :=
  let sks := public_tiers cfg in
  match bt_get identity (peer_tbs_pks cfg) with
  | None => Panic
  | Some pks =>
      if sks != pks then Err KeyMismatch
      else if 1%N \notin unzip1 sks then Err NoMsatTier else Ok tt
  end.

(** The aggregate keys, of the shares of the first peers up to the threshold. *)
Definition aggregate_keys (cfg : MintConfig) : option (seq (nat * G2)) :=
  obind (fun tiers => all_some [seq omap (pair ak.1)
      (Tbs.aggregate_public_key_shares (take (threshold (size (peer_tbs_pks cfg))) (zip (iota 0 (size ak.2)) ak.2)))
      | ak <- tiers])
    (new_aggregate_from_tiered_iter (unzip2 (peer_tbs_pks cfg))).

(** [Mint::new]: the assertions on the configuration, then the aggregate keys. *)
Definition mint_new (cfg : MintConfig) : option (seq (nat * G2)) :=
  if (0 < size (tbs_sks cfg))%N && all (fun pk => unzip1 pk.2 == unzip1 (tbs_sks cfg)) (peer_tbs_pks cfg) then
    let ref_pub_key := public_tiers cfg in
    obind (fun our_id =>
        if bt_get our_id (peer_tbs_pks cfg) == Some ref_pub_key then aggregate_keys cfg else None)
      (ohead [seq pk.1 | pk <- peer_tbs_pks cfg & pk.2 == ref_pub_key])
  else None.

(** The keys of a trusted dealer, for the coefficients that were drawn. *)
Definition dealer_keygen (poly : seq Scalar) (keys : nat) : option (G2 * seq G2 * seq Scalar) :=
  match eval_poly_scalar poly 0, all_some [seq eval_poly_scalar poly idx.+1%:R | idx <- iota 0 keys] with
  | Some apk, Some sks => Some (g2 apk, [seq g2 sk | sk <- sks], sks)
  | _, _ => None
  end.

(** *** Lemmas *)

Lemma g2_inj : injective g2.
Proof.
  move=> a b /eqP. rw -subr_eq0 -scalerBl scaler_eq0 (negPf (G2_generator_neq0 C)) orbF subr_eq0. by move/eqP.
Qed.

(** A dealer gives each guardian its value of the polynomial that was drawn. *)
Lemma dealer_keygen_Some (poly : seq Scalar) (keys : nat) :
  poly != [::] ->
  dealer_keygen poly keys =
  Some (g2 (Poly poly).[0], [seq Tbs.derive_pk_share (Poly poly).[scalar _ i] | i <- iota 0 keys],
        [seq (Poly poly).[scalar _ i] | i <- iota 0 keys]).
Proof.
  move=> Hne. rw /dealer_keygen eval_poly_scalar_value //.
  rw (all_some_map (g := fun i => (Poly poly).[scalar _ i])); first by move=> i; rw eval_poly_scalar_value.
  by rw -map_comp.
Qed.

Lemma g2_polynomial (pks : seq G2) :
  exists2 P : {poly Scalar}, (size P <= size pks)%N & forall x, poly_value pks x = g2 P.[x].
Proof. apply: public_polynomial => x. exact: G2_cyclic. Qed.

Section config.
Variables (n i : nat) (amounts : seq nat) (pks : nat -> seq G2) (sks : nat -> Scalar).
Hypothesis i_lt : (i < n)%N.
Hypothesis n_le : (n <= 2 ^ 16)%N.
Hypothesis amounts_uniq : uniq amounts.
Hypothesis pks_size : {in amounts, forall a, size (pks a) = threshold n}.
Hypothesis sks_own : {in amounts, forall a, poly_value (pks a) (scalar _ i) = g2 (sks a)}.

Let tier (p a : nat) : G2 := poly_value (pks a) (scalar _ p).
Let cfg : MintConfig :=
  MkMintConfig [seq (a, sks a) | a <- amounts] [seq (p, [seq (a, tier p a) | a <- amounts]) | p <- peer_ids n].

Lemma distributed_gen_cfg : distributed_gen n [seq (a, (pks a, sks a)) | a <- amounts] = Some cfg.
Proof using i_lt pks_size.
  rw /distributed_gen.
  rw (all_some_map (g := fun p => (p, [seq (a, tier p a) | a <- amounts]))) ?/= -?map_comp //.
  move=> p. rw -map_comp (all_some_map_in (g := fun a => (a, tier p a))) // => a Ha /=.
  rw /DkgG2.eval_poly_g2 eval_poly_value // -size_eq0 pks_size // -lt0n. exact: dkg_threshold_pos (leq_ltn_trans _ i_lt).
Qed.

Lemma public_tiers_cfg : public_tiers cfg = [seq (a, tier i a) | a <- amounts].
Proof using sks_own. by rw /public_tiers /cfg /= -map_comp; apply/eq_in_map => a Ha /=; rw /tier sks_own. Qed.

Lemma cfg_get (p : nat) : (p < n)%N -> bt_get p (peer_tbs_pks cfg) = Some [seq (a, tier p a) | a <- amounts].
Proof.
  move=> Hp. apply: bt_in_get; first by rw /cfg /= /unzip1 -map_comp map_id iota_uniq.
  by apply: (map_f (fun p => (p, [seq (a, tier p a) | a <- amounts]))); rw mem_iota.
Qed.

Lemma validate_cfg : 1%N \in amounts -> validate_config i cfg = Ok tt.
Proof using i_lt sks_own.
  by move=> H1; rw /validate_config cfg_get // public_tiers_cfg eqxx /= /unzip1 -map_comp map_id H1.
Qed.

(** The shares of the first peers are a quorum of a denomination. *)
Lemma quorum_key (a : nat) (P : {poly Scalar}) :
  (size P <= threshold n)%N -> (forall x, poly_value (pks a) x = g2 P.[x]) ->
  Tbs.aggregate_public_key_shares
    (take (threshold n) (zip (iota 0 (size [seq tier p a | p <- peer_ids n])) [seq tier p a | p <- peer_ids n])) =
  Some (Tbs.derive_pk_share P.[0]).
Proof using i_lt n_le.
  move=> Hsz HP. have Ht : (threshold n <= n)%N by apply: leq_subr.
  have -> : zip (iota 0 (size [seq tier p a | p <- peer_ids n])) [seq tier p a | p <- peer_ids n]
      = [seq (p, tier p a) | p <- peer_ids n].
    by rw size_map size_iota -{1}[iota 0 n]map_id zip_map.
  rw -map_take take_iota (minn_idPl Ht). apply: (Tbs.aggregate_poly (p := P)); rw ?size_map ?size_iota //.
  - rw /share_map /unzip1 -map_comp map_id iota_uniq. apply/allP => p. rw mem_iota /= add0n => Hp.
    exact: leq_trans (leq_trans Hp Ht) n_le.
  - exact: dkg_threshold_pos (leq_ltn_trans _ i_lt).
  - rw all_map. apply/allP => p _ /=. by rw /tier HP.
Qed.

Lemma aggregate_keys_cfg :
  exists2 keys, aggregate_keys cfg = Some keys &
    forall a (P : {poly Scalar}), a \in amounts -> (size P <= threshold n)%N ->
      (forall x, poly_value (pks a) x = g2 P.[x]) -> bt_get a keys = Some (Tbs.derive_pk_share P.[0]).
Proof using i_lt n_le amounts_uniq pks_size.
  have Hne : peer_ids n != [::] by rw -size_eq0 size_iota -lt0n (leq_ltn_trans _ i_lt).
  have [m Hm [Hum Hin]] := aggregate_tiers_Some tier amounts_uniq Hne.
  have Hsz : size (peer_tbs_pks cfg) = n by rw size_map size_iota.
  rw /aggregate_keys Hsz. have -> : unzip2 (peer_tbs_pks cfg) = [seq [seq (b, tier p b) | b <- amounts] | p <- peer_ids n].
    by rw /cfg /unzip2 /= -map_comp.
  rw Hm /=.
  have [|keys -> Hkeys] := all_some_tiers (f := fun l => Tbs.aggregate_public_key_shares (take (threshold n) (zip (iota 0 (size l)) l))) Hum.
    move=> a l /Hin [Ha ->]. have [P Hs HP] := g2_polynomial (pks a).
    by rw (quorum_key _ HP) // -(pks_size Ha).
  exists keys => // a P Ha Hs HP. rw (Hkeys a [seq tier p a | p <- peer_ids n]) ?(quorum_key Hs HP) //.
  exact/Hin.
Qed.

Lemma mint_new_cfg : amounts != [::] -> mint_new cfg = aggregate_keys cfg.
Proof using i_lt sks_own.
  move=> Hne. rw /mint_new public_tiers_cfg size_map lt0n size_eq0 Hne /=.
  have -> /= : all (fun pk => unzip1 pk.2 == unzip1 [seq (a, sks a) | a <- amounts])
      [seq (p, [seq (a, tier p a) | a <- amounts]) | p <- peer_ids n].
    rw all_map. apply/allP => p _ /=. by rw /unzip1 -!map_comp.
  set own := [seq pk <- _ | _].
  have Hown : (i, [seq (a, tier i a) | a <- amounts]) \in own by rw mem_filter eqxx (bt_get_in (cfg_get i_lt)).
  have Hall : all (fun pk => bt_get pk.1 (peer_tbs_pks cfg) == Some [seq (a, tier i a) | a <- amounts]) own.
    apply/allP => -[p pk]. rw mem_filter /= => /andP [/eqP -> Hin]. apply/eqP. apply: bt_in_get => //.
    by rw /cfg /= /unzip1 -map_comp map_id iota_uniq.
  by case: own Hown Hall => [//|[p pk] own] _ /= /andP [-> _].
Qed.
End config.

(** C8: key generation, configuration and issuance fit together.  When the
    guardians end the key generation of every denomination with the same
    public polynomial, whatever was sent during it, then the configuration of
    each guardian validates, the mint starts with it, and for a denomination
    any quorum of the guardians that sign a blinded message with their
    configured shares produces a signature that verifies under the aggregate
    key each of them computed at start. *)
Theorem mint_keys_issue (n : nat) (amounts : seq nat) (pks : nat -> seq G2) (sks : nat -> nat -> Scalar)
    (poly : nat -> nat -> seq Scalar) (received : nat -> nat -> seq (option (P2PMessage G2 H)))
    (i a : nat) (quorum : seq nat) (msg : G1) (blinding_key : Scalar) :
  (n <= 2 ^ 16)%N -> uniq amounts -> 1%N \in amounts ->
  (forall p b, (p < n)%N -> b \in amounts -> size (poly p b) = threshold n /\
     (run_dkg_g2 n p (poly p b) (received p b)).1 = Done H (pks b) (sks p b)) ->
  (i < n)%N -> a \in amounts ->
  uniq quorum -> all (fun p => (p < n)%N) quorum -> size quorum = threshold n -> blinding_key != 0 ->
  exists cfg keys agg_pk,
    distributed_gen n [seq (b, (pks b, sks i b)) | b <- amounts] = Some cfg /\
    validate_config i cfg = Ok tt /\ mint_new cfg = Some keys /\ bt_get a keys = Some agg_pk /\
    exists blinded_sig sig,
      Tbs.aggregate_signature_shares
        [seq (p, Tbs.sign_message (Tbs.blind_message msg blinding_key) (sks p a)) | p <- quorum] = Some blinded_sig /\
      Tbs.unblind_signature blinding_key blinded_sig = Some sig /\ Tbs.verify msg sig agg_pk.
Proof.
  move=> Hn Hu H1 Hrun Hi Ha Huq Hq Hsz Hr.
  have Hval p b : (p < n)%N -> b \in amounts -> size (pks b) = threshold n /\ poly_value (pks b) (scalar _ p) = g2 (sks p b).
    move=> Hp Hb. have [Hsp Hd] := Hrun p b Hp Hb.
    have := run_dkg_value (G2_generator C) consensus_hash_sha256 (received p b) Hp Hsp. by rw Hd.
  have Hpks : {in amounts, forall b, size (pks b) = threshold n} by move=> b Hb; have [] := Hval i b Hi Hb.
  have Hsks : {in amounts, forall b, poly_value (pks b) (scalar _ i) = g2 (sks i b)} by move=> b Hb; have [] := Hval i b Hi Hb.
  have [keys Hkeys Hget] := aggregate_keys_cfg (sks i) Hi Hn Hu Hpks. have [P Hs HP] := g2_polynomial (pks a).
  rw (Hpks a Ha) in Hs. have Hne : amounts != [::] by case: (amounts) H1.
  do 3 eexists. split; first exact: (distributed_gen_cfg _ Hi Hpks).
  split; first exact: (validate_cfg Hi Hsks H1).
  split; first by rw (mint_new_cfg Hi Hsks Hne); exact: Hkeys.
  split; first exact: (Hget a P Ha Hs HP).
  have Hq0 : (0 < size quorum)%N by rw Hsz; apply: dkg_threshold_pos (leq_ltn_trans _ Hi).
  exists (Tbs.sign_message (Tbs.blind_message msg blinding_key) P.[0]), (P.[0] *: msg). split; last split.
  - apply: (Tbs.aggregate_poly (p := P)); rw ?size_map ?Hsz //.
    + rw /share_map /unzip1 -map_comp map_id Huq. apply: sub_all Hq => p Hp. exact: leq_trans Hp Hn.
    + by rw -Hsz.
    + rw all_map. apply/allP => p Hp /=. have [_] := Hval p a (allP Hq _ Hp) Ha. by rw HP => /g2_inj <-.
  - exact: Tbs.unblind_signed.
  - by rw -[Tbs.verify _ _ _]/(Tbs.verify_signature_share _ _ _) Tbs.verify_signature_share_iff.
Qed.
End mint.
End MintKeys.

(** ** The second mint *)

Module Mintv2Keys.
Section mintv2.
Variable C : curve.
Variable H : eqType.
Variable consensus_hash_sha256 : seq (G2 C) -> H.
Local Abbreviation Scalar := (Scalar C).
Local Abbreviation G1 := (G1 C).
Local Abbreviation G2 := (G2 C).
Local Abbreviation g2 := (@DkgG2.g2 C).
Local Abbreviation run_dkg_g2 := (DkgG2.run_dkg_g2 consensus_hash_sha256).

Record MintConfig := MkMintConfig {
  tbs_agg_pks : seq (nat * G2);
  tbs_pks : seq (nat * seq (nat * G2));
  tbs_sks : seq (nat * Scalar);
}.

Definition consensus_denominations : seq nat := iota 0 42.

(** [distributed_gen], after the key generation of each denomination. *)
Definition distributed_gen (n : nat) (keys : seq (nat * (seq G2 * Scalar))) : option MintConfig :=
  match all_some [seq omap (pair dk.1) (ohead dk.2.1) | dk <- keys],
        all_some [seq omap (pair dk.1) (all_some [seq omap (pair peer) (DkgG2.eval_poly_g2 dk.2.1 peer) | peer <- peer_ids n]) | dk <- keys] with
  | Some agg_pks, Some pks => Some (MkMintConfig agg_pks pks [seq (dk.1, dk.2.2) | dk <- keys])
  | _, _ => None
  end.

(** The loop of [validate_config]: indexing a key that is not there panics. *)
Fixpoint validate_denominations (identity : nat) (cfg : MintConfig) (denominations : seq nat) : outcome ConfigError unit :=
  if denominations is denomination :: rest then
    match bt_get denomination (tbs_sks cfg), obind (bt_get identity) (bt_get denomination (tbs_pks cfg)) with
    | Some sk, Some pk => if Tbs.derive_pk_share sk == pk then validate_denominations identity cfg rest else Err KeyMismatch
    | _, _ => Panic
    end
  else Ok tt.
Definition validate_config (identity : nat) (cfg : MintConfig) : outcome ConfigError unit :=
  validate_denominations identity cfg consensus_denominations.

(** The keys of a trusted dealer, for the coefficients that were drawn. *)
Definition dealer_agg_pk (polynomial : seq Scalar) : option G2 := omap g2 (ohead polynomial).
Definition dealer_sk (polynomial : seq Scalar) (peer : nat) : option Scalar := eval_poly_scalar polynomial (scalar _ peer).
Definition dealer_pk (polynomial : seq Scalar) (peer : nat) : option G2 := omap (@Tbs.derive_pk_share C) (dealer_sk polynomial peer).

(** *** Lemmas *)

Lemma map_get (A : eqType) (f : nat -> A) (s : seq nat) (k : nat) : uniq s -> k \in s -> bt_get k [seq (x, f x) | x <- s] = Some (f k).
Proof.
  move=> Hu Hk. apply: bt_in_get; first by rw /unzip1 -map_comp map_id. exact: (map_f (fun x => (x, f x)) Hk).
Qed.

Section config.
Variables (n i : nat) (ks : seq nat) (pks : nat -> seq G2) (sks : nat -> Scalar).
Hypothesis ks_uniq : uniq ks.
Hypothesis pks_ne : {in ks, forall k, pks k != [::]}.
Hypothesis sks_own : {in ks, forall k, poly_value (pks k) (scalar _ i) = g2 (sks k)}.
Hypothesis i_lt : (i < n)%N.

Let cfg : MintConfig :=
  MkMintConfig [seq (k, poly_value (pks k) 0) | k <- ks]
    [seq (k, [seq (p, poly_value (pks k) (scalar _ p)) | p <- peer_ids n]) | k <- ks] [seq (k, sks k) | k <- ks].

Lemma mintv2_gen_cfg : distributed_gen n [seq (k, (pks k, sks k)) | k <- ks] = Some cfg.
Proof using pks_ne.
  rw /distributed_gen -!map_comp.
  rw (all_some_map_in (g := fun k => (k, poly_value (pks k) 0))) => [k Hk /=|].
    by case: (pks k) (pks_ne Hk) => [//|c cs] _; rw poly_value_cons scale0r addr0.
  rw (all_some_map_in (g := fun k => (k, [seq (p, poly_value (pks k) (scalar _ p)) | p <- peer_ids n]))) => [k Hk /=|//].
  rw (all_some_map (g := fun p => (p, poly_value (pks k) (scalar _ p)))) // => p. by rw /DkgG2.eval_poly_g2 eval_poly_value ?pks_ne.
Qed.

Lemma mintv2_validate_cfg : {subset consensus_denominations <= ks} -> validate_config i cfg = Ok tt.
Proof using ks_uniq i_lt sks_own.
  rw /validate_config. elim: consensus_denominations => [//|k rest IH] Hsub.
  rw /validate_denominations -/validate_denominations /cfg /=.
  have Hk : k \in ks by apply: Hsub; rw inE eqxx.
  rw (map_get sks) // (map_get (fun k => [seq (p, poly_value (pks k) (scalar _ p)) | p <- peer_ids n])) //=.
  rw (map_get (fun p => poly_value (pks k) (scalar _ p))) ?iota_uniq ?mem_iota //= sks_own // eqxx.
  apply: IH => x Hx. by apply: Hsub; rw inE Hx orbT.
Qed.
End config.

(** A dealer gives the shares of the polynomial with the aggregate key at zero. *)
Lemma mintv2_dealer_keys (polynomial : seq Scalar) (peer : nat) :
  polynomial != [::] ->
  dealer_agg_pk polynomial = Some (g2 (Poly polynomial).[0]) /\
  dealer_sk polynomial peer = Some (Poly polynomial).[scalar _ peer] /\
  dealer_pk polynomial peer = Some (g2 (Poly polynomial).[scalar _ peer]).
Proof.
  move=> Hne. rw /dealer_pk /dealer_sk eval_poly_scalar_value //. split=> //.
  by case: polynomial Hne => [//|c cs] _; rw /dealer_agg_pk /= horner_cons mulr0 add0r.
Qed.

(** Key generation, configuration and issuance of the second mint fit
    together: when the guardians end the key generation of every denomination
    with the same public polynomial, the configuration of each validates, and
    any quorum signs notes that verify under the configured aggregate key. *)
Theorem mintv2_keys_issue (n : nat) (pks : nat -> seq G2) (sks : nat -> nat -> Scalar)
    (poly : nat -> nat -> seq Scalar) (received : nat -> nat -> seq (option (P2PMessage G2 H)))
    (i k : nat) (quorum : seq nat) (msg : G1) (blinding_key : Scalar) :
  (n <= 2 ^ 16)%N ->
  (forall p b, (p < n)%N -> b \in consensus_denominations -> size (poly p b) = threshold n /\
     (run_dkg_g2 n p (poly p b) (received p b)).1 = Done H (pks b) (sks p b)) ->
  (i < n)%N -> k \in consensus_denominations ->
  uniq quorum -> all (fun p => (p < n)%N) quorum -> size quorum = threshold n -> blinding_key != 0 ->
  exists cfg agg_pk,
    distributed_gen n [seq (b, (pks b, sks i b)) | b <- consensus_denominations] = Some cfg /\
    validate_config i cfg = Ok tt /\ bt_get k (tbs_agg_pks cfg) = Some agg_pk /\
    exists blinded_sig sig,
      Tbs.aggregate_signature_shares
        [seq (p, Tbs.sign_message (Tbs.blind_message msg blinding_key) (sks p k)) | p <- quorum] = Some blinded_sig /\
      Tbs.unblind_signature blinding_key blinded_sig = Some sig /\ Tbs.verify msg sig agg_pk.
Proof.
  move=> Hn Hrun Hi Hk Huq Hq Hsz Hr.
  have Hval p b : (p < n)%N -> b \in consensus_denominations -> size (pks b) = threshold n /\ poly_value (pks b) (scalar _ p) = g2 (sks p b).
    move=> Hp Hb. have [Hsp Hd] := Hrun p b Hp Hb.
    have := run_dkg_value (G2_generator C) consensus_hash_sha256 (received p b) Hp Hsp. by rw Hd.
  have Ht0 : (0 < threshold n)%N by apply: dkg_threshold_pos (leq_ltn_trans _ Hi).
  have Hpks b : b \in consensus_denominations -> pks b != [::] by move=> Hb; have [Hs _] := Hval i b Hi Hb; rw -size_eq0 Hs -lt0n.
  have Hown : {in consensus_denominations, forall b, poly_value (pks b) (scalar _ i) = g2 (sks i b)} by move=> b Hb; have [] := Hval i b Hi Hb.
  have [P Hs HP] := MintKeys.g2_polynomial (pks k). have [Hsk _] := Hval i k Hi Hk. rw Hsk in Hs.
  do 2 eexists. split; first exact: (mintv2_gen_cfg n (sks i) Hpks).
  split; first by apply: mintv2_validate_cfg => //; apply: iota_uniq.
  split; first exact: (map_get (fun k => poly_value (pks k) 0) (iota_uniq _ _) Hk).
  have Hq0 : (0 < size quorum)%N by rw Hsz.
  exists (Tbs.sign_message (Tbs.blind_message msg blinding_key) P.[0]), (P.[0] *: msg). split; last split.
  - apply: (Tbs.aggregate_poly (p := P)); rw ?size_map ?Hsz //.
    + rw /share_map /unzip1 -map_comp map_id Huq. apply: sub_all Hq => p Hp. exact: leq_trans Hp Hn.
    + rw all_map. apply/allP => p Hp /=. have [_] := Hval p k (allP Hq _ Hp) Hk. by rw HP => /MintKeys.g2_inj <-.
  - exact: Tbs.unblind_signed.
  - rw HP. by rw -[Tbs.verify _ _ _]/(Tbs.verify_signature_share _ _ _) Tbs.verify_signature_share_iff.
Qed.
End mintv2.
End Mintv2Keys.

(** ** Lightning *)

Module LnKeys.
Section lightning.
Variable C : curve.
Variable H : eqType.
Variable consensus_hash_sha256 : seq (G1 C) -> H.
Variable sha256 : seq N -> seq N.
Variable to_compressed : G1 C -> seq N.
Variable random_point : seq N -> G2 C.
Variable random_scalar : seq N -> Scalar C.
Hypothesis sha256_size : forall s, size (sha256 s) = 32.
Hypothesis random_point_neq0 : forall seed, random_point seed != 0.
Local Abbreviation Scalar := (Scalar C).
Local Abbreviation G1 := (G1 C).
Local Abbreviation g1 := (@DkgG1.g1 C).
Local Abbreviation run_dkg_g1 := (DkgG1.run_dkg_g1 consensus_hash_sha256).

Record LightningConfig := MkLightningConfig {
  tpe_agg_pk : G1;
  tpe_pks : seq (nat * G1);
  sk : Scalar;
}.

(** [distributed_gen], after the key generation. *)
Definition distributed_gen (n : nat) (polynomial : seq G1) (sks : Scalar) : option LightningConfig :=
  if polynomial is constant :: _ then
    omap (fun pks => MkLightningConfig constant pks sks)
      (all_some [seq omap (pair peer) (DkgG1.eval_poly_g1 polynomial peer) | peer <- peer_ids n])
  else None.

Definition validate_config (identity : nat) (cfg : LightningConfig) : outcome ConfigError unit :=
  match bt_get identity (tpe_pks cfg) with
  | None => Err NoKeyForIdentity
  | Some pk => if Tpe.derive_pk_share (sk cfg) == pk then Ok tt else Err KeyMismatch
  end.

(** The keys of a trusted dealer, for the coefficients that were drawn. *)
Definition dealer_agg_pk (polynomial : seq Scalar) : option G1 := omap g1 (ohead polynomial).
Definition dealer_sk (polynomial : seq Scalar) (peer : nat) : option Scalar :=
  eval_poly_scalar polynomial (scalar _ peer).
Definition dealer_pk (polynomial : seq Scalar) (peer : nat) : option G1 :=
  omap (@Tpe.derive_pk_share C) (dealer_sk polynomial peer).

(** *** Lemmas *)

Lemma g1_inj : injective g1.
Proof.
  move=> a b /eqP. rw -subr_eq0 -scalerBl scaler_eq0 (negPf (G1_generator_neq0 C)) orbF subr_eq0. by move/eqP.
Qed.

Lemma g1_polynomial (pks : seq G1) :
  exists2 P : {poly Scalar}, (size P <= size pks)%N & forall x, poly_value pks x = g1 P.[x].
Proof. apply: public_polynomial => x. exact: G1_cyclic. Qed.

Lemma lightning_gen_cfg (n : nat) (pks : seq G1) (sks : Scalar) (P : {poly Scalar}) :
  pks != [::] -> (forall x, poly_value pks x = g1 P.[x]) ->
  distributed_gen n pks sks =
  Some (MkLightningConfig (Tpe.derive_pk_share P.[0]) [seq (p, Tpe.derive_pk_share P.[scalar _ p]) | p <- peer_ids n] sks).
Proof.
  move=> Hne HP. have Hc : head 0 pks = Tpe.derive_pk_share P.[0].
    have := HP 0. case: pks Hne {HP} => [//|c pks] _. by rw poly_value_cons scale0r addr0.
  rw /distributed_gen. case: pks Hne HP Hc => [//|c pks] Hne HP /= <-.
  by rw (all_some_map (g := fun p => (p, Tpe.derive_pk_share P.[scalar _ p]))) // => p; rw /DkgG1.eval_poly_g1 eval_poly_value // HP.
Qed.

(** The shares of a dealer are those of the polynomial with the aggregate key at zero. *)
Lemma dealer_keys (polynomial : seq Scalar) (peer : nat) :
  polynomial != [::] ->
  dealer_agg_pk polynomial = Some (g1 (Poly polynomial).[0]) /\
  dealer_sk polynomial peer = Some (Poly polynomial).[scalar _ peer] /\
  dealer_pk polynomial peer = Some (Tpe.derive_pk_share (Poly polynomial).[scalar _ peer]).
Proof.
  move=> Hne. rw /dealer_pk /dealer_sk eval_poly_scalar_value //. split=> //.
  by case: polynomial Hne => [//|c cs] _; rw /dealer_agg_pk /= horner_cons mulr0 add0r.
Qed.

(** C32: key generation, configuration and decryption fit together.  When the
    guardians end a key generation with the same public polynomial, the
    configuration of each validates, and a preimage that is encrypted to the
    configured aggregate key decrypts from the shares of any quorum, which
    pass the check against the configured public key shares. *)
Theorem lnv2_keys_decrypt (n : nat) (pks : seq G1) (sks : nat -> Scalar) (poly : nat -> seq Scalar)
    (received : nat -> seq (option (P2PMessage G1 H))) (i : nat) (quorum : seq nat)
    (seed preimage commitment : seq N) :
  (n <= 2 ^ 16)%N ->
  (forall p, (p < n)%N -> size (poly p) = threshold n /\ (run_dkg_g1 n p (poly p) (received p)).1 = Done H pks (sks p)) ->
  (i < n)%N -> uniq quorum -> all (fun p => (p < n)%N) quorum -> size quorum = threshold n -> size preimage = 32 ->
  exists cfg, distributed_gen n pks (sks i) = Some cfg /\ validate_config i cfg = Ok tt /\
    let ct := Tpe.encrypt_preimage sha256 to_compressed random_point random_scalar (tpe_agg_pk cfg) seed preimage commitment in
    let shares := [seq (p, Tpe.create_dk_share (sks p) ct) | p <- quorum] in
    all (fun s => match bt_get s.1 (tpe_pks cfg) with
           | Some pk => Tpe.verify_dk_share sha256 to_compressed random_point pk s.2 ct commitment == Some true
           | None => false
           end) shares /\
    exists agg_dk, Tpe.aggregate_dk_shares shares = Some agg_dk /\
      Tpe.decrypt_preimage sha256 to_compressed ct agg_dk = preimage.
Proof using sha256_size random_point_neq0.
  move=> Hn Hrun Hi Huq Hq Hsz Hpre.
  have Hval p : (p < n)%N -> size pks = threshold n /\ poly_value pks (scalar _ p) = g1 (sks p).
    move=> Hp. have [Hsp Hd] := Hrun p Hp.
    have := run_dkg_value (G1_generator C) consensus_hash_sha256 (received p) Hp Hsp. by rw Hd.
  have [Hpks _] := Hval i Hi. have [P Hs HP] := g1_polynomial pks.
  have Ht0 : (0 < threshold n)%N by apply: dkg_threshold_pos (leq_ltn_trans _ Hi).
  have Hne : pks != [::] by rw -size_eq0 Hpks -lt0n.
  have Hsk p : (p < n)%N -> sks p = P.[scalar _ p] by move=> Hp; have [_] := Hval p Hp; rw HP => /g1_inj.
  have Hget p : (p < n)%N ->
      bt_get p [seq (p, Tpe.derive_pk_share P.[scalar _ p]) | p <- peer_ids n] = Some (Tpe.derive_pk_share P.[scalar _ p]).
    move=> Hp. apply: bt_in_get; first by rw /unzip1 -map_comp map_id iota_uniq.
    by apply: (map_f (fun p => (p, Tpe.derive_pk_share P.[scalar _ p]))); rw mem_iota.
  eexists. split; first exact: (lightning_gen_cfg _ _ Hne HP).
  split; first by rw /validate_config /= Hget // Hsk // eqxx.
  move=> ct shares. rw /= in ct shares *.
  have Hv : Tpe.verify_ciphertext sha256 to_compressed random_point ct commitment by apply: Tpe.encrypted_valid.
  split.
  - rw all_map. apply/allP => p Hp /=. rw Hget ?(allP Hq _ Hp) // (Hsk _ (allP Hq _ Hp)).
    apply/eqP. apply: (etrans (Tpe.verify_dk_share_iff _ _ random_point_neq0 _ _ _ _)). by rw Hv eqxx.
  - exists (Tpe.create_dk_share P.[0] ct). split.
    + rw /Tpe.aggregate_dk_shares Tpe.lagrange_multipliers_eq. apply: combine_multipliers; rw ?size_map ?Hsz -?Hpks //.
      * apply: share_map_scalars. rw /share_map /unzip1 -map_comp map_id Huq. apply: sub_all Hq => p Hp. exact: leq_trans Hp Hn.
      * by rw Hpks.
      * rw all_map. apply/allP => p Hp /=. by rw (Hsk _ (allP Hq _ Hp)).
    + rw /Tpe.decrypt_preimage /Tpe.create_dk_share /=.
      have -> : P.[0] *: (Tpe.derive_ephemeral_sk random_scalar seed *: G1_generator C)
          = Tpe.derive_agg_dk random_scalar (Tpe.derive_pk_share P.[0]) seed.
        by rw /Tpe.derive_agg_dk /Tpe.derive_pk_share !scalerA mulrC.
      exact: Tpe.xor_with_hash_involutive.
Qed.
End lightning.
End LnKeys.

(** ** A federation of two guardians *)

Module KeysExample.
Import ThresholdExample.

(** Each guardian draws a line; the hash of a commitment is the commitment. *)
Definition example_poly (p : nat) : seq rat := [:: p%:R; 2%:R].
Definition example_hash (c : seq rat^o) : seq rat^o := c.
Definition example_received (p : nat) : seq (option (P2PMessage rat^o (seq rat^o))) :=
  [seq Some (P2PDkg pm.2) | pm <- expected (1 : rat^o) example_hash 2 example_poly p 3].

Lemma size_example_poly (p : nat) : size (example_poly p) = threshold 2.
Proof. by []. Qed.

Lemma example_done (p : nat) :
  (p < 2)%N ->
  (run_dkg (1 : rat^o) example_hash 2 p (example_poly p) (example_received p)).1 =
  Done (seq rat^o) (honest_pks (1 : rat^o) 2 example_poly) (honest_sks 2 example_poly p).
Proof. by move=> Hp; apply: (congr1 fst (all_done (1 : rat^o) example_hash _ size_example_poly Hp)). Qed.

Lemma dkg_federation_terminates_witness :
  exists h, system_step (1 : rat^o) example_hash 2 example_poly (@start rat rat^o (seq rat^o)) h.
Proof.
  have [//|//|_ [Hprogress _]] :=
    @dkg_federation_terminates rat rat^o 1 (seq rat^o) example_hash 2 example_poly _ _ 0 _ (StepsRefl _ _ _ _ _).
  exact: Hprogress.
Defined.

Lemma dkg_result_consistent_witness :
  exists pks sks,
    (run_dkg (1 : rat^o) example_hash 2 1 (example_poly 1) (example_received 1)).1 = Done (seq rat^o) pks sks /\
    size pks = 2 /\ eval_poly pks 1 = Some (g (1 : rat^o) sks).
Proof.
  have := @dkg_result_consistent rat rat^o 1 (seq rat^o) example_hash 2 1 (example_poly 1) (example_received 1)
    isT (size_example_poly 1).
  rw (example_done (isT : 1 < 2)%N) => -[Hsz Hval]. do 2 eexists. by split.
Defined.

Lemma small_federation : (2 <= 2 ^ 16)%N.
Proof. exact: (leq_trans (isT : 2 <= 16)%N (ltnW (ltn_expl 16 (leqnn 2)))). Qed.

(** One denomination, and the second guardian with both as the quorum. *)
Lemma mint_keys_issue_witness :
  exists cfg keys agg_pk sig,
    MintKeys.distributed_gen (C := rat_curve) 2
      [:: (1%N, (honest_pks (1 : rat^o) 2 example_poly, honest_sks 2 example_poly 1))] = Some cfg /\
    MintKeys.mint_new cfg = Some keys /\ bt_get 1 keys = Some agg_pk /\
    Tbs.verify (C := rat_curve) (5%:R : rat^o) sig agg_pk.
Proof.
  have [||||||||||cfg [keys [agg_pk [Hgen [_ [Hnew [Hget [bs [sig [_ [_ Hver]]]]]]]]]]] :=
    @MintKeys.mint_keys_issue rat_curve (seq rat^o) example_hash 2 [:: 1%N]
      (fun _ => honest_pks (1 : rat^o) 2 example_poly) (fun p _ => honest_sks 2 example_poly p)
      (fun p _ => example_poly p) (fun p _ => example_received p) 1 1 [:: 0; 1]%N (5%:R : rat^o) 2%:R.
  - exact: small_federation.
  - by [].
  - by [].
  - by move=> p b Hp _; split; [apply: size_example_poly|apply: example_done].
  - by [].
  - by [].
  - by [].
  - by [].
  - by [].
  - by rw Num.Theory.pnatr_eq0.
  - exists cfg, keys, agg_pk, sig. exact (conj Hgen (conj Hnew (conj Hget Hver))).
Defined.

Lemma lnv2_keys_decrypt_witness :
  exists cfg agg_dk,
    LnKeys.distributed_gen (C := rat_curve) 2 (honest_pks (1 : rat^o) 2 example_poly) (honest_sks 2 example_poly 0) = Some cfg /\
    let ct := Tpe.encrypt_preimage example_sha256 example_compressed example_point example_scalar
      (LnKeys.tpe_agg_pk cfg) [:: 1]%num example_preimage [:: 2]%num in
    Tpe.aggregate_dk_shares [seq (p, Tpe.create_dk_share (C := rat_curve) (honest_sks 2 example_poly p) ct) | p <- [:: 0; 1]%N]
      = Some agg_dk /\
    Tpe.decrypt_preimage example_sha256 example_compressed ct agg_dk = example_preimage.
Proof.
  have Hsize : forall s, size (example_sha256 s) = 32 by move=> s; rw size_nseq.
  have Hne : forall seed, example_point seed != 0 by move=> seed; rw oner_neq0.
  have [|||||||cfg [Hgen [_ [_ [agg_dk Hdec]]]]] :=
    @LnKeys.lnv2_keys_decrypt rat_curve (seq rat^o) example_hash example_sha256 example_compressed example_point
      example_scalar Hsize Hne 2 (honest_pks (1 : rat^o) 2 example_poly) (honest_sks 2 example_poly)
      example_poly example_received 0 [:: 0; 1]%N [:: 1]%num example_preimage [:: 2]%num.
  - exact: small_federation.
  - by move=> p Hp; split; [apply: size_example_poly|apply: example_done].
  - by [].
  - by [].
  - by [].
  - by [].
  - by rw size_nseq.
  - exists cfg, agg_dk. exact (conj Hgen Hdec).
Defined.
End KeysExample.
