(* ===== verification/Query.v ===== *)
(** * Queries to the federation

    [fedimint-api-client/src/query.rs], the strategies that merge the answers
    of the guardians to one, and the loop of [request_with_strategy] in
    [fedimint-api-client/src/api/mod.rs] that drives them.  The order in which
    requests complete, and what they return, is up to the network: a query is
    a step relation over the requests that are in flight.

    A strategy promises the loop that it does not wait for guardians that are
    not asked; the loop is proved not to panic against this interface. *)

From S2P Require Import Prelude Peers.

(** ** Strategies *)

Inductive QueryStep (R : Type) :=
| Retry (peers : gset Z)
| Continue
| Success (r : R)
| Failure (e : Z).
Arguments Retry {_} _.
Arguments Continue {_}.
Arguments Success {_} _.
Arguments Failure {_} _.

(** [QueryStrategy<IR, OR>]; errors are values of the step, so only a panic
    interrupts a call. *)
Class QueryStrategy (S IR OR : Type) := {
  process : Z -> IR -> M S Empty_set (QueryStep OR);
  process_error : Z -> Z -> M S Empty_set (QueryStep OR);
}.

(** [FilterMap]: the function is all its state. *)
Section filter_map.
Context {R T : Type}.

Record FilterMap := { filter_map : R -> T + Z }.

#[export] Instance FilterMap_strategy : QueryStrategy FilterMap R T := {|
  process _ response s :=
    (Ok (match filter_map s response with inl value => Success value | inr e => Failure e end), s);
  process_error _ _ s := (Ok Continue, s);
|}.

(** The verifier looks at what a guardian sent, and may panic. *)
Record FilterMapThreshold := {
  verifier : Z -> R -> outcome Z T;
  filtered_responses : gmap Z T;
  fmt_threshold : Z;
}.

Definition FilterMapThreshold_new (verifier : Z -> R -> outcome Z T) (num_peers : Z) : FilterMapThreshold :=
  {| verifier := verifier; filtered_responses := ∅; fmt_threshold := threshold num_peers |}.

Definition filter_map_threshold_process (peer : Z) (response : R) (s : FilterMapThreshold)
    : outcome Empty_set (QueryStep (gmap Z T)) * FilterMapThreshold :=
  match verifier s peer response with
  | Ok response =>
      let responses := <[peer := response]> (filtered_responses s) in
      if Z.of_nat (size responses) =? fmt_threshold s
      then (Ok (Success responses), {| verifier := verifier s; filtered_responses := ∅; fmt_threshold := fmt_threshold s |})
      else (Ok Continue, {| verifier := verifier s; filtered_responses := responses; fmt_threshold := fmt_threshold s |})
  | Err e => (Ok (Failure e), s)
  | Panic => (Panic, s)
  end.

#[export] Instance FilterMapThreshold_strategy : QueryStrategy FilterMapThreshold R (gmap Z T) := {|
  process := filter_map_threshold_process;
  process_error _ _ s := (Ok Continue, s);
|}.
End filter_map.
Arguments FilterMap : clear implicits.
Arguments FilterMapThreshold : clear implicits.

Section identical.
Context {R : Type} `{EqDecision R}.

(** The number of answers that are [response]. *)
Definition count (response : R) (responses : gmap Z R) : Z :=
  Z.of_nat (size (filter (fun pr => pr.2 = response) responses)).

Record ThresholdConsensus := {
  responses : gmap Z R;
  retry : gset Z;
  tc_threshold : Z;
}.

Definition ThresholdConsensus_new (num_peers : Z) : ThresholdConsensus :=
  {| responses := ∅; retry := ∅; tc_threshold := threshold num_peers |}.

Definition threshold_consensus_process (peer : Z) (response : R) (s : ThresholdConsensus)
    : outcome Empty_set (QueryStep R) * ThresholdConsensus :=
  let all := <[peer := response]> (responses s) in
  if count response all =? tc_threshold s
  then (Ok (Success response), {| responses := all; retry := retry s; tc_threshold := tc_threshold s |})
  else if decide (peer ∈ retry s)
  then (Panic, {| responses := all; retry := retry s; tc_threshold := tc_threshold s |})
  else
    let again := {[peer]} ∪ retry s in
    if Z.of_nat (size again) =? tc_threshold s
    then (Ok (Retry again), {| responses := all; retry := ∅; tc_threshold := tc_threshold s |})
    else (Ok Continue, {| responses := all; retry := again; tc_threshold := tc_threshold s |}).

#[export] Instance ThresholdConsensus_strategy : QueryStrategy ThresholdConsensus R R := {|
  process := threshold_consensus_process;
  process_error _ _ s := (Ok Continue, s);
|}.

Record ThresholdAgreement := {
  ta_responses : gmap Z R;
  errors : Z;
  ta_threshold : Z;
  ta_total : Z;
}.

Definition ThresholdAgreement_new (num_peers : Z) : ThresholdAgreement :=
  {| ta_responses := ∅; errors := 0; ta_threshold := threshold num_peers; ta_total := num_peers |}.

(** [diverged().unwrap_or(Continue)]. *)
Definition diverged (s : ThresholdAgreement) : outcome Empty_set (QueryStep (R + gmap Z R)) * ThresholdAgreement :=
  if Z.of_nat (size (ta_responses s)) + errors s <? ta_total s then (Ok Continue, s)
  else if Z.of_nat (size (ta_responses s)) <? ta_threshold s then (Ok Continue, s)
  else (Ok (Success (inr (ta_responses s))),
        {| ta_responses := ∅; errors := errors s; ta_threshold := ta_threshold s; ta_total := ta_total s |}).

Definition threshold_agreement_process (peer : Z) (response : R) (s : ThresholdAgreement)
    : outcome Empty_set (QueryStep (R + gmap Z R)) * ThresholdAgreement :=
  let all := <[peer := response]> (ta_responses s) in
  let s' := {| ta_responses := all; errors := errors s; ta_threshold := ta_threshold s; ta_total := ta_total s |} in
  if count response all =? ta_threshold s then (Ok (Success (inl response)), s') else diverged s'.

Definition threshold_agreement_process_error (peer e : Z) (s : ThresholdAgreement)
    : outcome Empty_set (QueryStep (R + gmap Z R)) * ThresholdAgreement :=
  diverged {| ta_responses := ta_responses s; errors := errors s + 1; ta_threshold := ta_threshold s; ta_total := ta_total s |}.

#[export] Instance ThresholdAgreement_strategy : QueryStrategy ThresholdAgreement R (R + gmap Z R) := {|
  process := threshold_agreement_process;
  process_error := threshold_agreement_process_error;
|}.
End identical.
Arguments ThresholdConsensus : clear implicits.
Arguments ThresholdAgreement : clear implicits.

(** ** The loop *)

(** The guardians that are asked. *)
Definition all_peers (n : Z) : gset Z := list_to_set (peer_ids n).

Section driver.
Context {S IR OR : Type} `{QueryStrategy S IR OR} (n : Z).

Record Query := { strategy : S; futures : gset Z; peer_errors : gmap Z Z }.

Inductive Driven :=
| Running (q : Query)
| Returned (r : OR)
| PeerErrors (errs : gmap Z Z)
| Panicked.

(** The end of an iteration, up to the next completed request: without
    requests in flight [futures.next()] is empty, which panics. *)
Definition next_iteration (q : Query) : Driven :=
  if Z.of_nat (size (peer_errors q)) =? one_honest n then PeerErrors (peer_errors q)
  else if decide (futures q = ∅) then Panicked
  else Running q.

(** One iteration, with the request that completed. *)
Definition poll (q : Query) (peer : Z) (result : IR + Z) : Driven :=
  let rest := futures q ∖ {[peer]} in
  match result with
  | inl response =>
      match process peer response (strategy q) with
      | (Ok (Retry peers), s) => next_iteration {| strategy := s; futures := peers ∪ rest; peer_errors := peer_errors q |}
      | (Ok (Success r), _) => Returned r
      | (Ok (Failure e), s) => next_iteration {| strategy := s; futures := rest; peer_errors := <[peer := e]> (peer_errors q) |}
      | (Ok Continue, s) => next_iteration {| strategy := s; futures := rest; peer_errors := peer_errors q |}
      | (Err _, _) | (Panic, _) => Panicked
      end
  | inr e =>
      match process_error peer e (strategy q) with
      | (Ok (Success r), _) => Returned r
      | (Ok _, s) => next_iteration {| strategy := s; futures := rest; peer_errors := <[peer := e]> (peer_errors q) |}
      | (Err _, _) | (Panic, _) => Panicked
      end
  end.

Definition request (s : S) : Driven :=
  if decide (all_peers n = ∅) then Panicked else Running {| strategy := s; futures := all_peers n; peer_errors := ∅ |}.

(** A query after the requests of a trace completed. *)
Inductive queried (s : S) : list (Z * (IR + Z)) -> Driven -> Prop :=
| queried_start : queried s [] (request s)
| queried_poll tr q peer result :
    queried s tr (Running q) -> peer ∈ futures q -> queried s (tr ++ [(peer, result)]) (poll q peer result).

(** Replays a trace, if the requests were in flight. *)
Fixpoint replay_from (d : Driven) (tr : list (Z * (IR + Z))) : option Driven :=
  match tr, d with
  | [], _ => Some d
  | (peer, result) :: tr, Running q => if decide (peer ∈ futures q) then replay_from (poll q peer result) tr else None
  | _ :: _, _ => None
  end.

Lemma replay_queried s tr0 tr d d' : queried s tr0 d -> replay_from d tr = Some d' -> queried s (tr0 ++ tr) d'.
Proof.
  revert tr0 d. induction tr as [|[peer result] tr IH]; intros tr0 d Hq Hr.
  - injection Hr as <-. by rewrite app_nil_r.
  - destruct d as [q| | |]; try done. simpl in Hr. destruct (decide (peer ∈ futures q)); [|done].
    rewrite cons_middle, (assoc_L (++)). eapply IH; [|exact Hr]. by constructor.
Qed.

(** *** Requests that are repeated until they are answered *)

(** [request_with_strategy_retry]: every guardian is asked until it answers, so
    only answers come in.  Without requests in flight the loop waits forever. *)
Definition request_retry (s : S) : Driven := Running {| strategy := s; futures := all_peers n; peer_errors := ∅ |}.

Definition poll_retry (q : Query) (peer : Z) (response : IR) : Driven :=
  let rest := futures q ∖ {[peer]} in
  match process peer response (strategy q) with
  | (Ok (Retry peers), s) => Running {| strategy := s; futures := peers ∪ rest; peer_errors := peer_errors q |}
  | (Ok (Success r), _) => Returned r
  | (Ok _, s) => Running {| strategy := s; futures := rest; peer_errors := peer_errors q |}
  | (Err _, _) | (Panic, _) => Panicked
  end.

Inductive retried (s : S) : list (Z * IR) -> Driven -> Prop :=
| retried_start : retried s [] (request_retry s)
| retried_poll tr q peer response :
    retried s tr (Running q) -> peer ∈ futures q -> retried s (tr ++ [(peer, response)]) (poll_retry q peer response).

Fixpoint replay_retry (d : Driven) (tr : list (Z * IR)) : option Driven :=
  match tr, d with
  | [], _ => Some d
  | (peer, response) :: tr, Running q => if decide (peer ∈ futures q) then replay_retry (poll_retry q peer response) tr else None
  | _ :: _, _ => None
  end.

Lemma replay_retried s tr0 tr d d' : retried s tr0 d -> replay_retry d tr = Some d' -> retried s (tr0 ++ tr) d'.
Proof.
  revert tr0 d. induction tr as [|[peer result] tr IH]; intros tr0 d Hq Hr.
  - injection Hr as <-. by rewrite app_nil_r.
  - destruct d as [q| | |]; try done. simpl in Hr. destruct (decide (peer ∈ futures q)); [|done].
    rewrite cons_middle, (assoc_L (++)). eapply IH; [|exact Hr]. by constructor.
Qed.
End driver.
Arguments Query : clear implicits.
Arguments Driven : clear implicits.

(** ** What a strategy promises the loop *)

(** The step of a strategy on a request of [p], seen by the loop: who is asked
    and who has failed. *)
Definition step_waits {S OR} (waits : S -> gset Z -> gset Z -> Prop) (out err : gset Z) (p : Z)
    (r : outcome Empty_set (QueryStep OR) * S) : Prop :=
  match r with
  | (Ok (Success _), _) => True
  | (Ok (Retry ps), s') => waits s' (ps ∪ out ∖ {[p]}) err
  | (Ok (Failure _), s') => waits s' (out ∖ {[p]}) ({[p]} ∪ err)
  | (Ok Continue, s') => waits s' (out ∖ {[p]}) err
  | (Err _, _) | (Panic, _) => False
  end.

(** [waits s out err]: in state [s], with requests to [out] in flight and the
    guardians of [err] failed.  A strategy that is not waiting for a request
    has seen enough failures for the loop to end. *)
Class Live {S IR OR : Type} `{QueryStrategy S IR OR} (n : Z) (init : S) := {
  waits : S -> gset Z -> gset Z -> Prop;
  waits_init : waits init (all_peers n) ∅;
  waits_disjoint s out err : waits s out err -> out ## err;
  waits_process s out err p r : waits s out err -> p ∈ out -> step_waits waits out err p (process p r s);
  waits_error s out err p e : waits s out err -> p ∈ out ->
    match process_error p e s with
    | (Ok (Success _), _) => True
    | (Ok _, s') => waits s' (out ∖ {[p]}) ({[p]} ∪ err)
    | (Err _, _) | (Panic, _) => False
    end;
  waits_stuck s err : waits s ∅ err -> one_honest n <= Z.of_nat (size err);
}.

Section live.
Context {S IR OR : Type} `{QueryStrategy S IR OR} (n : Z) (init : S) `{!Live n init} (Hn : 1 <= n < 65536).

Definition query_inv (d : Driven S OR) : Prop :=
  match d with
  | Running q => waits (strategy q) (futures q) (dom (peer_errors q)) /\ Z.of_nat (size (peer_errors q)) < one_honest n
  | Panicked => False
  | _ => True
  end.

Lemma size_all_peers : Z.of_nat (size (all_peers n)) = n.
Proof using Hn.
  unfold all_peers, peer_ids. rewrite size_list_to_set by apply NoDup_seqZ.
  rewrite length_seqZ, Z.mod_small by lia. lia.
Qed.

Lemma all_peers_not_empty : all_peers n <> ∅.
Proof using Hn. intros Hempty. pose proof size_all_peers as Hsz. rewrite Hempty, size_empty in Hsz. lia. Qed.

(** One more failure at most in an iteration. *)
Lemma next_iteration_inv q :
  waits (strategy q) (futures q) (dom (peer_errors q)) ->
  Z.of_nat (size (peer_errors q)) <= one_honest n -> query_inv (next_iteration n q).
Proof using Type*.
  intros Hw Hle. unfold next_iteration. destruct (Z.eqb_spec (Z.of_nat (size (peer_errors q))) (one_honest n)); [done|].
  destruct (decide (futures q = ∅)) as [Hempty|]; [|split; [done|lia]].
  rewrite Hempty in Hw. apply waits_stuck in Hw. rewrite size_dom in Hw. simpl. lia.
Qed.

Lemma poll_inv q p result :
  query_inv (Running q) -> p ∈ futures q -> query_inv (poll n q p result).
Proof using Type*.
  intros [Hw Hlt] Hp. pose proof (waits_disjoint _ _ _ Hw) as Hd.
  assert (Hfresh : peer_errors q !! p = None) by (apply not_elem_of_dom; set_solver).
  assert (Hins : forall e, Z.of_nat (size (<[p := e]> (peer_errors q))) <= one_honest n).
  { intros e. rewrite map_size_insert_None by done. lia. }
  destruct result as [r|e]; simpl.
  - pose proof (waits_process _ _ _ p r Hw Hp) as Hstep. destruct (process p r (strategy q)) as [[[ps| |r'|e]|e|] s'];
      simpl in *; try done; apply next_iteration_inv; simpl; rewrite ?dom_insert_L; auto with lia.
  - pose proof (waits_error _ _ _ p e Hw Hp) as Hstep. destruct (process_error p e (strategy q)) as [[[ps| |r'|e']|e'|] s'];
      simpl in *; try done; apply next_iteration_inv; simpl; rewrite ?dom_insert_L; auto with lia.
Qed.

Lemma queried_inv tr d : queried n init tr d -> query_inv d.
Proof using Type*.
  induction 1 as [|tr q p result _ IH Hp]; [|by apply poll_inv].
  unfold request. destruct (decide (all_peers n = ∅)) as [Hempty|]; [by destruct all_peers_not_empty|].
  split; simpl; [rewrite dom_empty_L; apply waits_init|]. rewrite map_size_empty.
  unfold one_honest. pose proof (max_evil_bound n). lia.
Qed.
End live.

(** ** The strategies keep the promise *)

Section instances.
Context {R T : Type} `{EqDecision R} (n : Z) (Hn : 1 <= n < 65536).

(** Every guardian is asked, has answered and is held back, or has failed. *)
Definition partition (out held err : gset Z) : Prop :=
  out ## held /\ out ## err /\ held ## err /\ out ∪ held ∪ err = all_peers n.

Lemma partition_init : partition (all_peers n) ∅ ∅.
Proof using Type*. unfold partition. set_solver. Qed.

Lemma partition_hold out held err p :
  partition out held err -> p ∈ out -> partition (out ∖ {[p]}) ({[p]} ∪ held) err.
Proof using Type*.
  intros (H1 & H2 & H3 & Hall) Hp. repeat split; [set_solver..|]. rewrite <- Hall.
  apply set_eq. intros x. destruct (decide (x = p)); set_solver.
Qed.

Lemma partition_fail out held err p :
  partition out held err -> p ∈ out -> partition (out ∖ {[p]}) held ({[p]} ∪ err).
Proof using Type*.
  intros (H1 & H2 & H3 & Hall) Hp. repeat split; [set_solver..|]. rewrite <- Hall.
  apply set_eq. intros x. destruct (decide (x = p)); set_solver.
Qed.

Lemma partition_retry out held err : partition out held err -> partition (held ∪ out) ∅ err.
Proof using Type*. intros (H1 & H2 & H3 & Hall). repeat split; set_solver. Qed.

Lemma partition_size out held err :
  partition out held err -> Z.of_nat (size out) + Z.of_nat (size held) + Z.of_nat (size err) = n.
Proof using Hn.
  intros (H1 & H2 & H3 & Hall). pose proof (size_all_peers n Hn) as Hsz. rewrite <- Hall in Hsz.
  rewrite !size_union in Hsz by set_solver. lia.
Qed.

(** With less than a threshold held back and nobody asked enough have failed. *)
Lemma partition_stuck held err :
  partition ∅ held err -> Z.of_nat (size held) < threshold n -> one_honest n <= Z.of_nat (size err).
Proof using Hn.
  intros Hp%partition_size. rewrite size_empty in Hp. unfold threshold, one_honest in *. lia.
Qed.

Lemma threshold_gt0 : 0 < threshold n.
Proof using Hn. pose proof (threshold_pos n). lia. Qed.

#[export] Program Instance FilterMap_live (f : FilterMap R T) : Live n f := {|
  waits _ out err := partition out ∅ err;
|}.
Next Obligation. intros f. apply partition_init. Qed.
Next Obligation. intros f s out err (_ & Hd & _). exact Hd. Qed.
Next Obligation.
  intros f s out err p r Hp Hin. unfold step_waits. simpl. destruct (filter_map s r); [done|by apply partition_fail].
Qed.
Next Obligation. intros f s out err p e Hp Hin. simpl. by apply partition_fail. Qed.
Next Obligation. intros f s err Hp. apply (partition_stuck ∅); [done|]. rewrite size_empty. pose proof threshold_gt0. lia. Qed.

#[export] Program Instance FilterMapThreshold_live (f : Z -> R -> outcome Z T) (Hf : forall p r, f p r <> Panic)
    : Live n (FilterMapThreshold_new f n) := {|
  waits s out err := verifier s = f /\ fmt_threshold s = threshold n /\ partition out (dom (filtered_responses s)) err /\
    Z.of_nat (size (filtered_responses s)) < threshold n;
|}.
Next Obligation. intros f Hf. simpl. rewrite dom_empty_L, map_size_empty. eauto using partition_init, threshold_gt0. Qed.
Next Obligation. intros f Hf s out err (_ & _ & (_ & Hd & _) & _). exact Hd. Qed.
Next Obligation.
  intros f Hf s out err p r (Hv & Ht & Hp & Hlt) Hin. unfold step_waits. simpl. unfold filter_map_threshold_process. rewrite Hv.
  specialize (Hf p r). destruct (f p r) as [t|e|]; simpl; [|by eauto 6 using partition_fail|done].
  assert (Hfresh : filtered_responses s !! p = None) by (apply not_elem_of_dom; destruct Hp; set_solver).
  destruct (Z.eqb_spec (Z.of_nat (size (<[p:=t]> (filtered_responses s)))) (fmt_threshold s)) as [|Hne]; simpl; [done|].
  rewrite dom_insert_L. split_and!; [done|done|by apply partition_hold|].
  rewrite map_size_insert_None in Hne |- * by done. lia.
Qed.
Next Obligation. intros f Hf s out err p e (Hv & Ht & Hp & Hlt) Hin. simpl. eauto using partition_fail. Qed.
Next Obligation.
  intros f Hf s err (Hv & Ht & Hp & Hlt). apply (partition_stuck (dom (filtered_responses s))); [done|]. by rewrite size_dom.
Qed.

(** Before an answer is taken no value has a threshold, so the new one can reach it. *)
Definition undecided (m : gmap Z R) : Prop := forall v, count v m < threshold n.

Lemma count_insert p r v (m : gmap Z R) : count v (<[p := r]> m) <= count v m + (if decide (r = v) then 1 else 0).
Proof.
  unfold count. rewrite map_filter_insert. simpl. destruct (decide (r = v)).
  - rewrite map_size_insert. destruct (_ !! p); simpl; lia.
  - rewrite map_filter_delete, map_size_delete. destruct (_ !! p); simpl; lia.
Qed.

Lemma undecided_insert p r (m : gmap Z R) :
  undecided m -> count r (<[p := r]> m) <> threshold n -> undecided (<[p := r]> m).
Proof.
  intros Hm Hne v. pose proof (count_insert p r v m) as Hle. pose proof (Hm v).
  destruct (decide (r = v)) as [->|]; lia.
Qed.

Lemma undecided_empty : undecided ∅.
Proof using Hn. intros v. unfold count. rewrite map_filter_empty, map_size_empty. pose proof threshold_gt0. lia. Qed.

#[export] Program Instance ThresholdConsensus_live : Live n (@ThresholdConsensus_new R n) := {|
  waits s out err := tc_threshold s = threshold n /\ partition out (retry s) err /\
    Z.of_nat (size (retry s)) < threshold n /\ undecided (responses s);
|}.
Next Obligation.
  cbn [ThresholdConsensus_new retry responses tc_threshold]. rewrite size_empty.
  eauto using partition_init, threshold_gt0, undecided_empty.
Qed.
Next Obligation. intros s out err (_ & (_ & Hd & _) & _). exact Hd. Qed.
Next Obligation.
  intros s out err p r (Ht & Hp & Hlt & Hu) Hin. unfold step_waits. simpl. unfold threshold_consensus_process. rewrite Ht.
  destruct (Z.eqb_spec (count r (<[p:=r]> (responses s))) (threshold n)) as [|Hne]; [done|].
  rewrite decide_False by (destruct Hp; set_solver). pose proof (undecided_insert _ _ _ Hu Hne) as Hu'.
  pose proof (partition_hold _ _ _ _ Hp Hin) as Hp'.
  destruct (Z.eqb_spec (Z.of_nat (size ({[p]} ∪ retry s))) (threshold n)) as [|Hne']; cbn [retry responses tc_threshold].
  - rewrite size_empty. eauto using partition_retry, threshold_gt0.
  - split_and!; try done. destruct Hp as [Hd _]. rewrite size_union, size_singleton in Hne' |- * by set_solver. lia.
Qed.
Next Obligation. intros s out err p e (Ht & Hp & Hrest) Hin. simpl. eauto using partition_fail. Qed.
Next Obligation. intros s err (_ & Hp & Hlt & _). by apply (partition_stuck (retry s)). Qed.

#[export] Program Instance ThresholdAgreement_live : Live n (@ThresholdAgreement_new R n) := {|
  waits s out err := ta_threshold s = threshold n /\ ta_total s = n /\ errors s = Z.of_nat (size err) /\
    partition out (dom (ta_responses s)) err /\
    (Z.of_nat (size (ta_responses s)) + errors s < n \/ Z.of_nat (size (ta_responses s)) < threshold n);
|}.
Next Obligation.
  cbn [ThresholdAgreement_new ta_responses errors ta_threshold ta_total].
  rewrite dom_empty_L, map_size_empty, size_empty. split_and!; try done; [apply partition_init|lia].
Qed.
Next Obligation. intros s out err (_ & _ & _ & (_ & Hd & _) & _). exact Hd. Qed.
Next Obligation.
  intros s out err p r (Ht & Htot & He & Hp & Hor) Hin. unfold step_waits. simpl.
  unfold threshold_agreement_process, diverged. simpl. rewrite Ht, Htot.
  destruct (Z.eqb_spec (count r (<[p:=r]> (ta_responses s))) (threshold n)); [done|].
  pose proof (partition_hold _ _ _ _ Hp Hin) as Hp'. rewrite <- dom_insert_L with (i := p) (x := r) in Hp'.
  destruct (Z.ltb_spec (Z.of_nat (size (<[p:=r]> (ta_responses s))) + errors s) n); [simpl; eauto 10|].
  destruct (Z.ltb_spec (Z.of_nat (size (<[p:=r]> (ta_responses s)))) (threshold n)); simpl; eauto 10.
Qed.
Next Obligation.
  intros s out err p e (Ht & Htot & He & Hp & Hor) Hin. simpl.
  unfold threshold_agreement_process_error, diverged. simpl. rewrite Ht, Htot.
  pose proof (partition_fail _ _ _ _ Hp Hin) as Hp'.
  assert (errors s + 1 = Z.of_nat (size ({[p]} ∪ err))).
  { destruct Hp as (_ & Hd & _). rewrite size_union, size_singleton by set_solver. lia. }
  destruct (Z.ltb_spec (Z.of_nat (size (ta_responses s)) + (errors s + 1)) n); [simpl; eauto 10|].
  destruct (Z.ltb_spec (Z.of_nat (size (ta_responses s))) (threshold n)); simpl; eauto 10.
Qed.
Next Obligation.
  intros s err (Ht & Htot & He & Hp & Hor). apply (partition_stuck (dom (ta_responses s))); [done|]. rewrite size_dom.
  destruct Hor as [Hlt|]; [|done]. pose proof (partition_size _ _ _ Hp) as Hsz.
  rewrite size_empty, size_dom in Hsz. lia.
Qed.
End instances.

(** ** What queries return *)

Section results.
Context {R : Type} `{EqDecision R} (n : Z) (Hn : 1 <= n < 65536).

(** The last answer of every guardian. *)
Definition answers (tr : list (Z * (R + Z))) : gmap Z R :=
  foldl (fun m e => match e.2 with inl r => <[e.1 := r]> m | inr _ => m end) ∅ tr.

Lemma answers_snoc tr p result :
  answers (tr ++ [(p, result)]) = match result with inl r => <[p := r]> (answers tr) | inr _ => answers tr end.
Proof. unfold answers. by rewrite foldl_app. Qed.

Definition failures (tr : list (Z * (R + Z))) (errs : gmap Z Z) : Prop :=
  forall p e, errs !! p = Some e -> p ∈ all_peers n /\ (p, inr e) ∈ tr.

(** *** Consensus *)

Definition consensus_shape (tr : list (Z * (R + Z))) (d : Driven (ThresholdConsensus R) R) : Prop :=
  match d with
  | Running q => responses (strategy q) = answers tr /\ tc_threshold (strategy q) = threshold n /\
      dom (answers tr) ⊆ all_peers n /\ futures q ∪ retry (strategy q) ⊆ all_peers n /\ failures tr (peer_errors q)
  | Returned r => dom (answers tr) ⊆ all_peers n /\ count r (answers tr) = threshold n
  | PeerErrors errs => failures tr errs /\ Z.of_nat (size errs) = one_honest n
  | Panicked => True
  end.

Lemma failures_snoc tr p result errs : failures tr errs -> failures (tr ++ [(p, result)]) errs.
Proof. intros Hf q e Hq. apply Hf in Hq as [? Hin]. split; [done|]. apply elem_of_app. by left. Qed.

Lemma failures_insert tr p e errs :
  p ∈ all_peers n -> failures tr errs -> failures (tr ++ [(p, inr e)]) (<[p := e]> errs).
Proof.
  intros Hp Hf q e'. rewrite lookup_insert_Some. intros [[<- <-]|[_ Hq]].
  - split; [done|]. apply elem_of_app. right. by apply list_elem_of_singleton.
  - by apply (failures_snoc _ _ _ _ Hf).
Qed.

Lemma consensus_next tr q :
  consensus_shape tr (Running q) -> consensus_shape tr (next_iteration n q).
Proof.
  intros (Hr & Ht & Hd & Hs & Hf). unfold next_iteration.
  destruct (Z.eqb_spec (Z.of_nat (size (peer_errors q))) (one_honest n)); [done|].
  by destruct (decide (futures q = ∅)).
Qed.

Lemma consensus_queried tr d :
  queried n (@ThresholdConsensus_new R n) tr d -> consensus_shape tr d.
Proof using Type*.
  induction 1 as [|tr q p result _ IH Hp].
  - unfold request. destruct (decide (all_peers n = ∅)); [done|]. simpl.
    split_and!; [done|done|unfold answers; simpl; set_solver|set_solver|]. intros p e. by rewrite lookup_empty.
  - destruct IH as (Hr & Ht & Hd & Hs & Hf). unfold poll. destruct result as [r|e].
    + simpl. unfold threshold_consensus_process. rewrite Hr, Ht. pose proof (answers_snoc tr p (inl r)) as Ha. simpl in Ha.
      assert (dom (<[p:=r]> (answers tr)) ⊆ all_peers n) by (rewrite dom_insert_L; set_solver).
      destruct (Z.eqb_spec (count r (<[p:=r]> (answers tr))) (threshold n)); [by rewrite <- Ha in *|].
      destruct (decide (p ∈ retry (strategy q))); [done|].
      destruct (Z.of_nat (size ({[p]} ∪ retry (strategy q))) =? threshold n);
        apply consensus_next; simpl; rewrite ?Ha; (split_and!; [done..|set_solver|by apply failures_snoc]).
    + simpl. pose proof (answers_snoc tr p (inr e)) as Ha. simpl in Ha.
      apply consensus_next. simpl. rewrite Ha. split_and!; [done..|set_solver|]. apply failures_insert; [set_solver|done].
Qed.

(** A count of at least a threshold includes a correct guardian. *)
Lemma count_honest evil v (m : gmap Z R) :
  bft (all_peers n) evil -> dom m ⊆ all_peers n -> max_evil n < count v m ->
  exists p, (p ∉ evil) /\ m !! p = Some v.
Proof using Type*.
  intros Hbft Hd Hc. pose proof (size_all_peers n Hn) as Hsz.
  destruct (honest_member (all_peers n) evil (dom (filter (fun pr => pr.2 = v) m)) Hbft) as (p & Hp & He).
  - intros p Hp. apply Hd. rewrite elem_of_dom in Hp |- *. destruct Hp as [x Hx].
    apply map_lookup_filter_Some in Hx as [Hx _]. by eexists.
  - rewrite Hsz, size_dom. exact Hc.
  - exists p. split; [done|]. apply elem_of_dom in Hp as [x Hx]. by apply map_lookup_filter_Some in Hx as [Hx [= ->]].
Qed.

Lemma failures_honest evil tr errs :
  bft (all_peers n) evil -> failures tr errs -> Z.of_nat (size errs) = one_honest n ->
  exists p e, (p ∉ evil) /\ (p, inr e) ∈ tr.
Proof using Type*.
  intros Hbft Hf Hsz. destruct (honest_member (all_peers n) evil (dom errs) Hbft) as (p & Hp & He).
  - intros p [e Hp]%elem_of_dom. by apply Hf in Hp as [? _].
  - rewrite size_all_peers, size_dom, Hsz by done. unfold one_honest. lia.
  - apply elem_of_dom in Hp as [e Hp]. apply Hf in Hp as [_ Hin]. eauto.
Qed.

(** *** Agreement *)

Definition agreement_shape (tr : list (Z * (R + Z))) (d : Driven (ThresholdAgreement R) (R + gmap Z R)) : Prop :=
  match d with
  | Running q => ta_responses (strategy q) = answers tr /\ undecided n (answers tr) /\
      Z.of_nat (length tr) + Z.of_nat (size (futures q)) = n
  | Returned (inl r) => Z.of_nat (length tr) <= n /\ count r (answers tr) = threshold n
  | Returned (inr m) => Z.of_nat (length tr) = n /\ m = answers tr /\ undecided n m /\ threshold n <= Z.of_nat (size m)
  | PeerErrors errs => Z.of_nat (length tr) <= n /\ Z.of_nat (size errs) = one_honest n
  | Panicked => True
  end.

Lemma agreement_next tr q :
  agreement_shape tr (Running q) -> agreement_shape tr (next_iteration n q).
Proof.
  intros (Hr & Hu & Hl). unfold next_iteration.
  destruct (Z.eqb_spec (Z.of_nat (size (peer_errors q))) (one_honest n)); [split; [lia|done]|].
  by destruct (decide (futures q = ∅)).
Qed.

Lemma agreement_queried tr d :
  queried n (@ThresholdAgreement_new R n) tr d -> agreement_shape tr d.
Proof using Type*.
  induction 1 as [|tr q p result Hq IH Hp].
  - unfold request. destruct (decide (all_peers n = ∅)); [done|].
    split_and!; [done|by apply undecided_empty|]. simpl. by rewrite size_all_peers.
  - destruct IH as (Hr & Hu & Hl). pose proof (queried_inv (Live0 := ThresholdAgreement_live n Hn) n _ Hn _ _ Hq) as Hinv.
    simpl in Hinv. destruct Hinv as [(Ht & Htot & He & Hpart & _) _].
    assert (Hlen : Z.of_nat (length (tr ++ [(p, result)])) + Z.of_nat (size (futures q ∖ {[p]})) = n).
    { rewrite length_app, size_difference, size_singleton by set_solver. simpl.
      assert (size (futures q) <> 0)%nat by (apply size_non_empty_iff; set_solver). lia. }
    pose proof (answers_snoc tr p result) as Ha.
    assert (Hfull : forall held err, partition n (futures q ∖ {[p]}) held err -> n <= Z.of_nat (size held) + Z.of_nat (size err) ->
      Z.of_nat (length (tr ++ [(p, result)])) = n) by (intros held err Hs%partition_size ?; [lia|done]).
    unfold poll. destruct result as [r|e]; simpl;
      unfold threshold_agreement_process, threshold_agreement_process_error, diverged;
      cbn [ta_responses errors ta_threshold ta_total]; rewrite Hr, Ht, Htot.
    + rewrite <- Ha. destruct (Z.eqb_spec (count r (answers (tr ++ [(p, inl r)]))) (threshold n)) as [|Hne]; [split; [lia|done]|].
      assert (Hu' : undecided n (answers (tr ++ [(p, inl r)]))) by (rewrite Ha in Hne |- *; by apply undecided_insert).
      destruct (Z.ltb_spec (Z.of_nat (size (answers (tr ++ [(p, inl r)]))) + errors (strategy q)) n) as [|Hge]; [by apply agreement_next|].
      destruct (Z.ltb_spec (Z.of_nat (size (answers (tr ++ [(p, inl r)])))) (threshold n)); [by apply agreement_next|].
      split_and!; try done. eapply Hfull; [by apply partition_hold|]. rewrite Hr, <- (dom_insert_L _ _ r), <- Ha, size_dom. lia.
    + destruct (Z.ltb_spec (Z.of_nat (size (answers tr)) + (errors (strategy q) + 1)) n) as [|Hge];
        [apply agreement_next; simpl; rewrite Ha; by split_and!|].
      destruct (Z.ltb_spec (Z.of_nat (size (answers tr))) (threshold n)); [apply agreement_next; simpl; rewrite Ha; by split_and!|].
      split_and!; [|by rewrite Ha|done|done]. eapply Hfull; [by apply partition_fail|].
      destruct Hpart as (_ & Hd & _). rewrite Hr, size_dom, size_union, size_singleton by set_solver. lia.
Qed.
End results.

(** ** Collecting a threshold of answers *)

Section collect.
Context {R T : Type} (n : Z) (f : Z -> R -> outcome Z T).

(** The answers that the verifier lets pass. *)
Definition verified (tr : list (Z * R)) : gmap Z T :=
  foldl (fun m pr => match f pr.1 pr.2 with Ok t => <[pr.1 := t]> m | _ => m end) ∅ tr.

Lemma verified_snoc tr p r :
  verified (tr ++ [(p, r)]) = match f p r with Ok t => <[p := t]> (verified tr) | _ => verified tr end.
Proof. unfold verified. by rewrite foldl_app. Qed.

Lemma verified_lookup tr p t : NoDup tr.*1 -> verified tr !! p = Some t <-> exists r, (p, r) ∈ tr /\ f p r = Ok t.
Proof.
  induction tr as [|[q r] tr IH] using rev_ind; [split; [done|intros (r & []%not_elem_of_nil & _)]|].
  rewrite fmap_app, verified_snoc. intros (Hnd & Hq & _)%NoDup_app. specialize (IH Hnd).
  assert (Hother : forall t', f q r <> Ok t' \/ p <> q -> (exists r', (p, r') ∈ tr ++ [(q, r)] /\ f p r' = Ok t') <-> exists r', (p, r') ∈ tr /\ f p r' = Ok t').
  { intros t' Hne. split; intros (r' & Hin & Hf); exists r'; (split; [|done]); [|by apply elem_of_app; left].
    apply elem_of_app in Hin as [Hin|Hin]; [done|]. apply list_elem_of_singleton in Hin. simplify_eq. naive_solver. }
  destruct (f q r) as [t'| |] eqn:Hf; [|rewrite Hother by (left; congruence); exact IH..].
  destruct (decide (p = q)) as [->|Hne]; [|rewrite lookup_insert_ne, Hother by (done || by right); exact IH].
  rewrite lookup_insert_eq. split.
  - intros [= ->]. exists r. split; [|done]. apply elem_of_app. right. by apply list_elem_of_singleton.
  - intros (r' & Hin & Hf'). apply elem_of_app in Hin as [Hin|Hin].
    + destruct (Hq q); [apply list_elem_of_fmap; by exists (q, r')|by left].
    + apply list_elem_of_singleton in Hin. simplify_eq. congruence.
Qed.

Lemma verified_dom tr : dom (verified tr) ⊆ list_to_set tr.*1.
Proof.
  induction tr as [|[p r] tr IH] using rev_ind; [done|]. rewrite fmap_app, verified_snoc, list_to_set_app_L. simpl.
  destruct (f p r); set_solver.
Qed.

(** A query that retries collects exactly a threshold of verified answers of
    different guardians; it waits while there are fewer and panics only when the
    verifier does. *)
Lemma retried_collects tr d :
  0 < threshold n -> retried n (FilterMapThreshold_new f n) tr d ->
  NoDup tr.*1 /\
  match d with
  | Running q => strategy q = {| verifier := f; filtered_responses := verified tr; fmt_threshold := threshold n |} /\
      futures q = all_peers n ∖ list_to_set tr.*1 /\ Z.of_nat (size (verified tr)) < threshold n /\
      forall p r, (p, r) ∈ tr -> f p r <> Panic
  | Returned m => m = verified tr /\ Z.of_nat (size m) = threshold n
  | PeerErrors _ => False
  | Panicked => exists p r, (p, r) ∈ tr /\ f p r = Panic
  end.
Proof.
  intros Ht. induction 1 as [|tr q p r _ [Hnd IH] Hp].
  { split; [constructor|]. split_and!; [done|simpl; by rewrite difference_empty_L|done|by intros ? ? ?%not_elem_of_nil]. }
  destruct IH as (Hs & Hf & Hlt & Hok). rewrite Hf in Hp. apply elem_of_difference in Hp as [Hp Hnew]. rewrite elem_of_list_to_set in Hnew.
  assert (Hlast : (p, r) ∈ tr ++ [(p, r)]) by (apply elem_of_app; right; by apply list_elem_of_singleton). split.
  { rewrite fmap_app. apply NoDup_app. split_and!; [done|by intros x Hx ->%list_elem_of_singleton|apply NoDup_singleton]. }
  assert (Hrest : futures q ∖ {[p]} = all_peers n ∖ list_to_set (tr ++ [(p, r)]).*1).
  { rewrite Hf, fmap_app, list_to_set_app_L. simpl. set_solver. }
  assert (Hall : f p r <> Panic -> forall p' r', (p', r') ∈ tr ++ [(p, r)] -> f p' r' <> Panic).
  { intros Hpr p' r' [Hin|Hin]%elem_of_app; [by apply Hok|]. apply list_elem_of_singleton in Hin. by simplify_eq. }
  unfold poll_retry. cbn [process FilterMapThreshold_strategy]. rewrite Hs. unfold filter_map_threshold_process. cbn [verifier filtered_responses fmt_threshold].
  destruct (f p r) as [t|e|] eqn:Hfp; [|cbn [strategy futures]; rewrite verified_snoc, Hfp; split_and!; [done|done|done|by apply Hall]|by exists p, r].
  assert (Hnone : verified tr !! p = None).
  { apply not_elem_of_dom. intros Hin%verified_dom. by apply elem_of_list_to_set in Hin. }
  destruct (Z.eqb_spec (Z.of_nat (size (<[p:=t]> (verified tr)))) (threshold n)) as [Heq|Hne].
  - rewrite verified_snoc, Hfp. done.
  - cbn [strategy futures]. rewrite verified_snoc, Hfp. split_and!; [done|done| |by apply Hall].
    rewrite map_size_insert_None in Hne |- * by done. lia.
Qed.

(** The query has ended when a threshold of guardians gave an answer that
    passes, whatever the others said, unless the verifier panicked. *)
Lemma retried_ends tr d (good : gset Z) :
  0 < threshold n -> retried n (FilterMapThreshold_new f n) tr d -> threshold n <= Z.of_nat (size good) ->
  (forall p, p ∈ good -> exists r t, (p, r) ∈ tr /\ f p r = Ok t) -> (forall p r, (p, r) ∈ tr -> f p r <> Panic) ->
  d = Returned (verified tr).
Proof.
  intros Ht Hr Hgood Hall Hok. destruct (retried_collects tr d Ht Hr) as [Hnd Hd]. destruct d as [q|m|errs|].
  - destruct Hd as (_ & _ & Hlt & _). assert (good ⊆ dom (verified tr)) as Hsub%subseteq_size; [|rewrite size_dom in Hsub; lia].
    intros p (r & t & Hin & Hf)%Hall. apply elem_of_dom. exists t. apply verified_lookup; [done|]. by exists r.
  - by destruct Hd as [-> _].
  - done.
  - destruct Hd as (p & r & Hin & Hf). by destruct (Hok p r Hin).
Qed.
End collect.

(** ** Theorems *)

Section theorems.
Context {R T : Type} `{EqDecision R} (n : Z) (Hn : 1 <= n < 65536).

(** Whichever guardians answer, in whichever order, with whatever answers
    and failures, a query never panics, with any of the four strategies,
    when the verifier of the second does not: it neither runs out of guardians
    to ask without a result, nor is a guardian recorded twice in the same round of a consensus query. *)
Theorem query_never_panics (f : FilterMap R T) (verifier : Z -> R -> outcome Z T) tr :
  (forall p r, verifier p r <> Panic) ->
  (forall d, queried n f tr d -> d <> Panicked) /\
  (forall d, queried n (FilterMapThreshold_new verifier n) tr d -> d <> Panicked) /\
  (forall d, queried n (@ThresholdConsensus_new R n) tr d -> d <> Panicked) /\
  (forall d, queried n (@ThresholdAgreement_new R n) tr d -> d <> Panicked).
Proof using Hn.
  intros Hv. split_and!; intros d Hq ->.
  - exact (queried_inv (Live0 := FilterMap_live n Hn f) n _ Hn _ _ Hq).
  - exact (queried_inv (Live0 := FilterMapThreshold_live n Hn verifier Hv) n _ Hn _ _ Hq).
  - exact (queried_inv (Live0 := ThresholdConsensus_live n Hn) n _ Hn _ _ Hq).
  - exact (queried_inv (Live0 := ThresholdAgreement_live n Hn) n _ Hn _ _ Hq).
Qed.

(** C36: a consensus query returns a value exactly when the last answers of a
    threshold of guardians are that value, so a correct guardian gave it; it
    goes on while no value has a threshold; and it fails only after more
    guardians failed than can be evil, one of them correct. *)
Theorem query_consensus (evil : gset Z) tr d :
  bft (all_peers n) evil -> queried n (@ThresholdConsensus_new R n) tr d ->
  match d with
  | Running _ => forall v, count v (answers tr) < threshold n
  | Returned v => count v (answers tr) = threshold n /\ exists p, (p ∉ evil) /\ answers tr !! p = Some v
  | PeerErrors errs => Z.of_nat (size errs) = one_honest n /\ exists p e, (p ∉ evil) /\ (p, inr e) ∈ tr
  | Panicked => False
  end.
Proof using Hn.
  intros Hbft Hq. pose proof (consensus_queried n Hn _ _ Hq) as Hs.
  pose proof (queried_inv (Live0 := ThresholdConsensus_live n Hn) n _ Hn _ _ Hq) as Hinv.
  destruct d as [q|v|errs|]; [|..|done].
  - simpl in Hinv. destruct Hinv as [(_ & _ & _ & Hu) _], Hs as [Hr _]. by rewrite Hr in Hu.
  - destruct Hs as [Hd Hc]. split; [done|]. eapply count_honest; [done..|]. rewrite Hc.
    unfold threshold. pose proof (max_evil_bound n). lia.
  - destruct Hs as [Hf Hc]. split; [done|]. by eapply failures_honest.
Qed.

(** An agreement query asks every guardian at most once, so it ends after
    as many requests as there are guardians.  It returns the value a threshold
    of them agrees on, or, when everyone has answered or failed, at least a
    threshold of answers none of which has a threshold, or an error after more
    failures than can be due to evil guardians. *)
Theorem query_agreement_terminates tr d :
  queried n (@ThresholdAgreement_new R n) tr d ->
  Z.of_nat (length tr) <= n /\ (Z.of_nat (length tr) = n -> forall q, d <> Running q) /\
  match d with
  | Running _ => forall v, count v (answers tr) < threshold n
  | Returned (inl v) => count v (answers tr) = threshold n
  | Returned (inr m) => Z.of_nat (length tr) = n /\ m = answers tr /\ (forall v, count v m < threshold n) /\
      threshold n <= Z.of_nat (size m)
  | PeerErrors errs => Z.of_nat (size errs) = one_honest n
  | Panicked => False
  end.
Proof using Hn.
  intros Hq. pose proof (agreement_queried n Hn _ _ Hq) as Hs.
  pose proof (queried_inv (Live0 := ThresholdAgreement_live n Hn) n _ Hn _ _ Hq) as Hinv.
  destruct d as [q|[v|m]|errs|]; [|..|done].
  - destruct Hs as (_ & Hu & Hl). split_and!; [lia| |done]. intros Hfull q' [= <-].
    simpl in Hinv. destruct Hinv as [(_ & _ & He & Hpart & Hor) Hlt].
    assert (Hempty : futures q = ∅) by (apply leibniz_equiv, size_empty_iff; lia).
    rewrite Hempty in Hpart. rewrite size_dom in He.
    pose proof (partition_size n Hn _ _ _ Hpart) as Hsz. rewrite size_empty, !size_dom in Hsz.
    unfold threshold, one_honest in *. lia.
  - destruct Hs as [Hl Hc]. by split_and!.
  - destruct Hs as (Hl & Hm & Hu & Hsz). split_and!; try done; lia.
  - destruct Hs as [Hl Hc]. by split_and!.
Qed.
End theorems.

(** ** Four guardians *)

Module QueryExample.

Lemma all_peers_4 : all_peers 4 = {[0; 1; 2; 3]}.
Proof. by vm_compute. Qed.

Lemma four : 1 <= 4 < 65536.
Proof. lia. Qed.

(** Guardian 3 lags behind and is asked again, the others agree. *)
Definition trace : list (Z * (Z + Z)) := [(3, inl 6); (0, inl 7); (1, inl 7); (3, inl 6); (2, inl 7)].

Lemma consensus_trace : queried 4 (@ThresholdConsensus_new Z 4) trace (Returned 7).
Proof. apply (replay_queried 4 _ [] trace _ _ (queried_start 4 _)). by vm_compute. Qed.

Lemma bft_4 : bft (all_peers 4) {[3]}.
Proof. split; [rewrite all_peers_4; set_solver|by vm_compute]. Qed.

Lemma query_consensus_witness :
  count 7 (answers trace) = 3 /\ exists p, (p ∉ ({[3]} : gset Z)) /\ answers trace !! p = Some 7.
Proof. exact (query_consensus 4 four {[3]} trace (Returned 7) bft_4 consensus_trace). Defined.

Lemma query_never_panics_witness :
  exists d, queried 4 (@ThresholdConsensus_new Z 4) trace d /\ d <> Panicked.
Proof.
  exists (Returned 7). split; [exact consensus_trace|].
  exact (proj1 (proj2 (proj2 (query_never_panics (T := Z) 4 four {| filter_map := inl |} (fun _ => Ok) trace ltac:(done)))) _ consensus_trace).
Defined.

(** Everyone answers and no value has a threshold. *)
Definition split_trace : list (Z * (Z + Z)) := [(3, inl 6); (0, inl 7); (1, inl 6); (2, inl 7)].

Lemma agreement_trace : queried 4 (@ThresholdAgreement_new Z 4) split_trace (Returned (inr (answers split_trace))).
Proof. apply (replay_queried 4 _ [] split_trace _ _ (queried_start 4 _)). by vm_compute. Qed.

Lemma query_agreement_terminates_witness :
  Z.of_nat (length split_trace) <= 4 /\ threshold 4 <= Z.of_nat (size (answers split_trace)).
Proof.
  destruct (query_agreement_terminates 4 four split_trace _ agreement_trace) as (Hl & _ & _ & _ & _ & Hs). by split.
Defined.
End QueryExample.
