(* ===== verification/Tiered.v ===== *)
(** * Notes by denomination

    [fedimint-core/src/tiered.rs] and [tiered_multi.rs]: the denominations,
    notes grouped by denomination and counts of notes.  A [Tiered<T>] is a map
    from millisatoshi amounts that is iterated in their order. *)

From S2P Require Import Prelude Amounts.

(** The first [n] powers of the base that do not exceed [max]: the loop of
    [gen_denominations], which ends because the base is at least two. *)
Fixpoint denominations_from (fuel : nat) (base max denomination : Z) : list Z :=
  match fuel with
  | O => []
  | S fuel =>
      if denomination <=? max
      then denomination :: denominations_from fuel base max (Amount.mul_u64 denomination base) else []
  end.

(** 64 steps suffice below [2^63]. *)
Definition gen_denominations (base max : Z) : list Z := denominations_from 64 base max 1.

(** ** [TieredMulti] *)

Module TieredMulti.
Abbreviation t T := (gmap Z (list T)).

Section multi.
Context {T : Type}.

Definition push (amt : Z) (val : T) (m : t T) : t T := <[amt := default [] (m !! amt) ++ [val]]> m.

(** [FromIterator] and [Extend]. *)
Definition extend (m : t T) (l : list (Z * T)) : t T := foldl (fun m av => push av.1 av.2 m) m l.
Definition from_iter (l : list (Z * T)) : t T := extend ∅ l.

(** [iter_items]: by tier, then in order. *)
Definition iter_items (m : t T) : list (Z * T) := btree_iter m ≫= fun an => (pair an.1) <$> an.2.

Definition count_items (m : t T) : Z := sum_list ((fun an => Z.of_nat (length an.2)) <$> btree_iter m).

(** The product and the sum wrap. *)
Definition total_amount (m : t T) : Z :=
  Amount.sum ((fun an => wrap_u64 (an.1 * Z.of_nat (length an.2))) <$> btree_iter m).

(** *** Lemmas *)

Definition items (m : t T) : list (Z * T) := map_to_list m ≫= fun an => (pair an.1) <$> an.2.

Lemma iter_items_perm m : iter_items m ≡ₚ items m.
Proof. unfold iter_items, items. by rewrite btree_iter_perm. Qed.

Lemma items_push amt val m : items (push amt val m) ≡ₚ (amt, val) :: items m.
Proof.
  unfold items, push. rewrite <- insert_delete_eq, map_to_list_insert by apply lookup_delete_eq.
  rewrite bind_cons. simpl. rewrite fmap_app. destruct (m !! amt) as [l|] eqn:Hm; simpl.
  - rewrite <- (insert_delete_id m amt l Hm) at 2. rewrite map_to_list_insert by apply lookup_delete_eq.
    rewrite bind_cons. simpl. rewrite <- (assoc_L (++)). symmetry. apply Permutation_middle.
  - by rewrite delete_id.
Qed.

Lemma items_extend m l : items (extend m l) ≡ₚ items m ++ l.
Proof.
  unfold extend. revert m. induction l as [|[a v] l IH]; intros m; simpl; [by rewrite app_nil_r|].
  rewrite IH, items_push. simpl. by rewrite <- Permutation_middle.
Qed.

(** Grouping by denomination loses nothing. *)
Lemma iter_items_from_iter l : iter_items (from_iter l) ≡ₚ l.
Proof. unfold from_iter. by rewrite iter_items_perm, items_extend. Qed.

(** No tier is empty. *)
Lemma from_iter_nonempty l : map_Forall (fun _ vs => vs ≠ []) (from_iter l).
Proof.
  unfold from_iter, extend. assert (Hm : map_Forall (fun _ vs => vs ≠ []) (∅ : t T)) by apply map_Forall_empty.
  revert Hm. generalize (∅ : t T). induction l as [|[a v] l IH]; intros m Hm; [done|]. simpl. apply IH.
  unfold push. apply map_Forall_insert_2; [|done]. by destruct (default [] (m !! a)).
Qed.

(** The value of notes. *)
Definition value (l : list (Z * T)) : Z := sum_list l.*1.

Lemma value_cons a v l : value ((a, v) :: l) = a + value l.
Proof. done. Qed.

Lemma value_perm l l' : l ≡ₚ l' -> value l = value l'.
Proof. intros Hp. unfold value. apply sum_list_perm. by rewrite Hp. Qed.

Lemma value_app l l' : value (l ++ l') = value l + value l'.
Proof. unfold value. by rewrite fmap_app, sum_list_app. Qed.

Lemma value_tier (a : Z) (vs : list T) : value (pair a <$> vs) = a * Z.of_nat (length vs).
Proof.
  induction vs as [|v vs IH]; [unfold value; simpl; lia|].
  change (a + value (pair a <$> vs) = a * Z.of_nat (S (length vs))). rewrite IH. lia.
Qed.

Lemma value_nonneg (l : list (Z * T)) : Forall (fun an => 0 <= an.1) l -> 0 <= value l.
Proof. induction 1 as [|[a v] l Ha _ IH]; [done|]. rewrite value_cons. simpl in Ha. lia. Qed.

(** With amounts whose sum fits, the total is the sum of the amounts. *)
Lemma total_amount_exact m :
  Forall (fun an => 0 <= an.1) (iter_items m) -> value (iter_items m) <= u64_max ->
  total_amount m = value (iter_items m).
Proof.
  unfold total_amount, iter_items. generalize (btree_iter m). intros l Hpos Hle.
  assert (Heq : sum_list ((fun an => wrap_u64 (an.1 * Z.of_nat (length an.2))) <$> l)
    = value (l ≫= fun an => pair an.1 <$> an.2)).
  { induction l as [|[a vs] l IH]; [done|]. rewrite fmap_cons, sum_list_cons. rewrite bind_cons in *. cbn [fst snd] in *.
    rewrite Forall_app in Hpos. destruct Hpos as [Hp1 Hp2]. rewrite value_app in Hle |- *.
    apply value_nonneg in Hp1 as Hn1. apply value_nonneg in Hp2 as Hn2.
    rewrite IH by (done || lia). rewrite value_tier in *. rewrite wrap_u64_small by (unfold is_u64; lia). done. }
  rewrite Amount.sum_exact; [done|].
  unfold sum_list in Heq. rewrite Heq. split; [by apply value_nonneg|done].
Qed.

Lemma from_iter_total l :
  Forall (fun an => 0 <= an.1) l -> value l <= u64_max -> total_amount (from_iter l) = value l.
Proof.
  intros Hpos Hle. pose proof (iter_items_from_iter l) as Hp. rewrite total_amount_exact; [by apply value_perm|..].
  - by rewrite Hp.
  - by rewrite (value_perm _ _ Hp).
Qed.
End multi.
End TieredMulti.

(** ** [TieredCounts] *)

Module TieredCounts.
Abbreviation t := (gmap Z Z).

Definition get (m : t) (tier : Z) : Z := default 0 (m !! tier).
Definition inc (tier n : Z) (m : t) : t := if 0 <? n then <[tier := wrap_u64 (get m tier + n)]> m else m.

(** [None] is the panic on a tier without entries. *)
Definition dec (tier : Z) (m : t) : option t :=
  match m !! tier with
  | None => None
  | Some c => if c =? 0 then None else Some (if c =? 1 then delete tier m else <[tier := c - 1]> m)
  end.

Definition from_iter (l : list (Z * Z)) : t := list_to_map (filter (fun ac => ac.2 ≠ 0) l).
Definition count_items (m : t) : Z := sum_list (btree_iter m).*2.
Definition is_empty (m : t) : bool := count_items m =? 0.
Definition total_amount (m : t) : Z :=
  Amount.sum ((fun ac => Amount.mul_u64 ac.1 ac.2) <$> btree_iter m).

Definition wf (m : t) : Prop := map_Forall (fun _ c => 0 < c) m.

Lemma get_inc tier n m k : get (inc tier n m) k = if decide (k = tier) then (if 0 <? n then wrap_u64 (get m tier + n) else get m tier) else get m k.
Proof.
  unfold inc, get. destruct (0 <? n); destruct (decide (k = tier)) as [->|]; try done.
  - by rewrite lookup_insert_eq.
  - by rewrite lookup_insert_ne.
Qed.

(** How many amounts of a list are of a tier. *)
Definition occurrences (l : list Z) (tier : Z) : Z := Z.of_nat (length (filter (fun a => a = tier) l)).

Lemma occurrences_cons a l tier : occurrences (a :: l) tier = (if decide (a = tier) then 1 else 0) + occurrences l tier.
Proof. unfold occurrences. rewrite filter_cons. case_decide; simpl; lia. Qed.

Lemma occurrences_length l tier : 0 <= occurrences l tier <= Z.of_nat (length l).
Proof. unfold occurrences. pose proof (length_filter (fun a => a = tier) l). lia. Qed.

(** The number of items as an integer. *)
Definition total (m : t) : Z := sum_map (fun _ c => c) m.

Lemma count_items_total m : count_items m = total m.
Proof. unfold count_items, total, sum_map. apply sum_list_perm. by rewrite btree_iter_perm. Qed.

Lemma get_wf m tier : wf m -> 0 <= get m tier.
Proof. intros Hwf. unfold get. destruct (m !! tier) as [c|] eqn:Hc; simpl; [|lia]. pose proof (Hwf _ _ Hc). simpl in *. lia. Qed.

Lemma wf_empty_get m : wf m -> (forall tier, get m tier = 0) -> m = ∅.
Proof.
  intros Hwf Hg. apply map_empty. intros tier. specialize (Hg tier). unfold get in Hg.
  destruct (m !! tier) as [c|] eqn:Hc; [|done]. pose proof (Hwf _ _ Hc). simpl in *. lia.
Qed.

(** Counting amounts one by one. *)
Lemma inc_all l m :
  wf m -> (forall tier, get m tier + occurrences l tier <= u64_max) ->
  wf (foldl (fun m a => inc a 1 m) m l) /\
  forall tier, get (foldl (fun m a => inc a 1 m) m l) tier = get m tier + occurrences l tier.
Proof.
  revert m. induction l as [|a l IH]; intros m Hwf Hb; [split; [done|]; intros; unfold occurrences; simpl; lia|]. cbn [foldl].
  assert (Hinc : forall tier, get (inc a 1 m) tier = (if decide (a = tier) then 1 else 0) + get m tier).
  { intros tier. rewrite get_inc. pose proof (Hb a) as Ha. rewrite occurrences_cons, decide_True in Ha by done.
    pose proof (occurrences_length l a). pose proof (get_wf m a Hwf). destruct (decide (tier = a)) as [->|].
    - rewrite decide_True by done. simpl. rewrite wrap_u64_small by (unfold is_u64; lia). lia.
    - rewrite decide_False by done. lia. }
  destruct (IH (inc a 1 m)) as [Hwf' Hget].
  - unfold inc. simpl. apply map_Forall_insert_2; [|done]. pose proof (Hb a) as Ha. rewrite occurrences_cons, decide_True in Ha by done.
    pose proof (occurrences_length l a). pose proof (get_wf m a Hwf). rewrite wrap_u64_small by (unfold is_u64; lia). lia.
  - intros tier. rewrite Hinc. specialize (Hb tier). rewrite occurrences_cons in Hb. lia.
  - split; [done|]. intros tier. rewrite Hget, Hinc, occurrences_cons. lia.
Qed.

(** A sum over the counts is a sum over the amounts. *)
Lemma inc_all_sum (g : Z -> Z) l m :
  wf m -> (forall tier, get m tier + occurrences l tier <= u64_max) ->
  sum_map (fun k c => g k * c) (foldl (fun m a => inc a 1 m) m l) = sum_map (fun k c => g k * c) m + sum_list (g <$> l).
Proof.
  revert m. induction l as [|a l IH]; intros m Hwf Hb; [simpl; lia|]. rewrite fmap_cons, sum_list_cons. cbn [foldl].
  destruct (inc_all [a] m Hwf) as [Hwf1 Hget1].
  { intros tier. specialize (Hb tier). rewrite occurrences_cons in Hb |- *. pose proof (occurrences_length l tier).
    unfold occurrences at 1. simpl. lia. }
  cbn [foldl] in Hwf1, Hget1. rewrite IH; [|done|].
  - pose proof (Hb a) as Ha. rewrite occurrences_cons, decide_True in Ha by done. pose proof (occurrences_length l a).
    pose proof (get_wf m a Hwf). unfold inc. simpl. rewrite wrap_u64_small by (unfold is_u64; lia). unfold get.
    destruct (m !! a) as [c|] eqn:Hm; simpl; [rewrite (sum_map_insert_Some _ _ _ _ _ Hm)|rewrite sum_map_insert by done]; lia.
  - intros tier. rewrite Hget1. specialize (Hb tier). rewrite occurrences_cons in Hb |- *. unfold occurrences at 1. simpl. lia.
Qed.

Lemma dec_spec m a :
  wf m -> 0 < get m a ->
  exists m', dec a m = Some m' /\ wf m' /\ total m' = total m - 1 /\
    forall tier, get m' tier = get m tier - (if decide (a = tier) then 1 else 0).
Proof.
  intros Hwf Ha. unfold dec. unfold get in Ha. destruct (m !! a) as [c|] eqn:Hc; simpl in Ha; [|lia].
  rewrite (proj2 (Z.eqb_neq _ _)) by lia. destruct (Z.eqb_spec c 1) as [->|]; eexists; (split; [reflexivity|]); split_and!.
  - by apply map_Forall_delete.
  - unfold total. by rewrite (sum_map_delete _ _ _ _ Hc).
  - intros tier. unfold get. case_decide; [subst; by rewrite lookup_delete_eq, Hc|]. rewrite lookup_delete_ne by done. lia.
  - apply map_Forall_insert_2; [lia|done].
  - unfold total. rewrite (sum_map_insert_Some _ _ _ _ _ Hc). lia.
  - intros tier. unfold get. case_decide; [subst; by rewrite lookup_insert_eq, Hc|]. rewrite lookup_insert_ne by done. lia.
Qed.

Lemma from_iter_spec l :
  NoDup l.*1 -> Forall (fun ac => 0 <= ac.2) l ->
  wf (from_iter l) /\ total (from_iter l) = sum_list l.*2 /\ (forall a c, from_iter l !! a = Some c -> (a, c) ∈ l).
Proof.
  unfold from_iter. induction l as [|[a c] l IH]; intros Hnd Hpos.
  { split_and!; [apply map_Forall_empty|apply sum_map_empty|]. intros a c Hl. by apply (lookup_empty_Some (M := gmap Z) a c) in Hl. }
  inversion Hnd as [|? ? Ha Hnd']; inversion Hpos as [|? ? Hc Hpos']; subst. destruct (IH Hnd' Hpos') as (Hwf & Htot & Hin).
  rewrite !fmap_cons, sum_list_cons. cbn [fst snd] in *. rewrite filter_cons. case_decide as Hz; cbn [snd] in Hz.
  - cbn [list_to_map foldr fst snd]. split_and!.
    + apply map_Forall_insert_2; [lia|done].
    + unfold total. rewrite sum_map_insert; [unfold total in Htot; lia|].
      destruct (list_to_map (filter _ l) !! a) as [c'|] eqn:Hl; [|done].
      destruct Ha. apply Hin in Hl. by apply (list_elem_of_fmap_2 fst) in Hl.
    + intros a' c' Hl. apply lookup_insert_Some in Hl as [[<- <-]|[_ Hl]]; [by left|]. right. by apply Hin.
  - split_and!; [done|lia|]. intros a' c' Hl. right. by apply Hin.
Qed.
End TieredCounts.
