(* ===== verification/NoteSelection.v ===== *)
(** * Selecting notes and making change

    The algorithms of the mint client ([modules/fedimint-mint-client/src/lib.rs])
    that choose which notes to spend for an amount and which notes to issue for
    an amount, with the fees of every note.  A stream of notes is a list, in the
    order the database returns them. *)

From S2P Require Import Prelude Amounts Tiered.

Record InsufficientBalanceError := { requested_amount : Z; balance_amount : Z }.

Inductive SelectNotesError :=
| InsufficientBalance (e : InsufficientBalanceError)
| NoExactAmount (requested selected : Z)
| DecodeError.

(** ** Selection *)

Section selection.
Context {Note : Type} (fee_consensus : Fee.FeeConsensus).
Implicit Types (stream selected : list (Z * Note)).

(** The notes by tier, with the assertion that they cover the request; the
    assertion adds the fee of each denomination once. *)
Definition finish_selection (requested : Z) selected : outcome InsufficientBalanceError (TieredMulti.t Note) :=
  let notes := TieredMulti.from_iter selected in
  match mapM (fun an => Fee.fee fee_consensus an.1) (btree_iter notes) with
  | None => Panic
  | Some fees =>
      if wrap_u64 (requested + Amount.sum fees) <=? TieredMulti.total_amount notes then Ok notes else Panic
  end.

(** [checkpoint]: the big note that is kept in case the following ones do not
    add up, with the number of notes that were selected before it. *)
Fixpoint select_loop (requested : Z) stream selected (last_big_note_checkpoint : option (Z * Note * nat))
    (pending : Z) (previous : option Z) : outcome InsufficientBalanceError (TieredMulti.t Note) :=
  match stream with
  | [] =>
      if 0 <? pending then
        match last_big_note_checkpoint with
        | Some (big_amount, big_note, checkpoint) =>
            finish_selection requested (take checkpoint selected ++ [(big_amount, big_note)])
        | None => Err {| requested_amount := requested; balance_amount := saturating_sub requested pending |}
        end
      else Panic
  | (note_amount, note) :: stream =>
      if match previous with None => true | Some p => note_amount <=? p end then
        match Fee.fee fee_consensus note_amount with
        | None => Panic
        | Some fee =>
            if note_amount <=? fee
            then select_loop requested stream selected last_big_note_checkpoint pending (Some note_amount)
            else match note_amount ?= Amount.add pending fee with
                 | Lt => select_loop requested stream (selected ++ [(note_amount, note)]) last_big_note_checkpoint
                           (Amount.sub (Amount.add pending fee) note_amount) (Some note_amount)
                 | Gt => select_loop requested stream selected (Some (note_amount, note, length selected))
                           pending (Some note_amount)
                 | Eq => finish_selection requested (selected ++ [(note_amount, note)])
                 end
        end
      else Panic
  end.

Definition select_notes_from_stream stream (requested : Z) : outcome InsufficientBalanceError (TieredMulti.t Note) :=
  if requested =? 0 then Ok ∅ else select_loop requested stream [] None requested None.

(** [SelectNotesWithAtleastAmount] and [SelectNotesWithExactAmount]. *)
Definition select_at_least stream (requested : Z) : outcome SelectNotesError (TieredMulti.t Note) :=
  match select_notes_from_stream stream requested with
  | Ok notes => Ok notes
  | Err e => Err (InsufficientBalance e)
  | Panic => Panic
  end.

Definition select_exact stream (requested : Z) : outcome SelectNotesError (TieredMulti.t Note) :=
  match select_notes_from_stream stream requested with
  | Ok notes =>
      if TieredMulti.total_amount notes =? requested then Ok notes
      else Err (NoExactAmount requested (TieredMulti.total_amount notes))
  | Err e => Err (InsufficientBalance e)
  | Panic => Panic
  end.

(** *** What notes are worth *)

Hypothesis fee_wf : Fee.wf fee_consensus.

Definition fee_of (a : Z) : Z := default 0 (Fee.fee fee_consensus a).
Definition net (a : Z) : Z := a - fee_of a.
Definition economical (an : Z * Note) : Prop := 0 < net an.1.
#[global] Instance economical_dec an : Decision (economical an).
Proof. unfold economical. apply _. Defined.

Definition net_value (l : list (Z * Note)) : Z := sum_list ((fun an => net an.1) <$> l).
(** What can be spent of notes. *)
Definition spendable (l : list (Z * Note)) : Z := net_value (filter economical l).

Lemma fee_of_spec a : is_u64 a -> Fee.fee fee_consensus a = Some (fee_of a) /\ 0 <= fee_of a <= 18446744173710.
Proof using fee_wf.
  intros Ha. destruct fee_wf as [Hb Hp]. unfold fee_of, Fee.fee, Fee.fee_msats, saturating_mul.
  set (q := Z.min u64_max (a * Fee.parts_per_million fee_consensus) / 1000000).
  assert (0 <= q <= 18446744073710).
  { unfold q, is_u64, u64_max in *. split; [apply Z.div_pos; nia|]. apply Z.div_le_upper_bound; lia. }
  assert (Hc : checked_add q (Fee.base fee_consensus) = Some (q + Fee.base fee_consensus))
    by (rewrite checked_add_Some; unfold u64_max; lia).
  rewrite Hc. simpl. split; [done|lia].
Qed.

Lemma net_value_app l l' : net_value (l ++ l') = net_value l + net_value l'.
Proof. unfold net_value. by rewrite fmap_app, sum_list_app. Qed.

Lemma net_value_snoc l a n : net_value (l ++ [(a, n)]) = net_value l + net a.
Proof. rewrite net_value_app. unfold net_value at 2. simpl. lia. Qed.

Lemma net_value_fees l : net_value l = TieredMulti.value l - sum_list ((fun an => fee_of an.1) <$> l).
Proof.
  induction l as [|[a n] l IH]; [done|]. unfold net_value in *. rewrite !fmap_cons, !sum_list_cons, IH.
  rewrite TieredMulti.value_cons. cbn [fst]. unfold net. lia.
Qed.

Lemma net_value_nonneg l : Forall economical l -> 0 <= net_value l.
Proof.
  induction 1 as [|[a n] l Ha _ IH]; [done|]. unfold net_value in *. rewrite fmap_cons, sum_list_cons.
  unfold economical in Ha. cbn [fst] in *. lia.
Qed.

(** *** The assertion at the end *)

Lemma tier_fees (tiers : list (Z * list Note)) :
  Forall (fun an => is_u64 an.1) tiers ->
  mapM (fun an => Fee.fee fee_consensus an.1) tiers = Some (fee_of <$> tiers.*1).
Proof using fee_wf.
  induction 1 as [|[a vs] l Ha _ IH]; [done|]. destruct (fee_of_spec a Ha) as [Hf _].
  cbn [mapM fst]. by rewrite Hf, IH.
Qed.

(** The fee of each denomination once is at most the fees of all the notes. *)
Lemma tier_fees_le (tiers : list (Z * list Note)) :
  Forall (fun an => is_u64 an.1 /\ an.2 ≠ []) tiers ->
  0 <= sum_list (fee_of <$> tiers.*1) <= sum_list ((fun an => fee_of an.1) <$> (tiers ≫= fun an => pair an.1 <$> an.2)).
Proof using fee_wf.
  induction 1 as [|[a vs] l [Ha Hne] _ IH]; [done|]. cbn [fst snd] in *. destruct (fee_of_spec a Ha) as [_ Hf].
  rewrite bind_cons, !fmap_cons, fmap_app, sum_list_cons, sum_list_app. cbn [fst snd].
  assert (fee_of a <= sum_list ((fun an => fee_of an.1) <$> (pair a <$> vs))); [|lia].
  destruct vs as [|v vs]; [done|]. rewrite !fmap_cons, sum_list_cons. cbn [fst].
  assert (0 <= sum_list ((fun an => fee_of an.1) <$> (pair a <$> vs))); [|lia].
  induction vs as [|w vs IHvs]; [done|]. rewrite !fmap_cons, sum_list_cons. cbn [fst]. specialize (IHvs ltac:(done)). lia.
Qed.

Lemma finish_selection_Ok requested selected :
  0 <= requested -> Forall (fun an => is_u64 an.1) selected -> TieredMulti.value selected <= u64_max ->
  requested <= net_value selected -> finish_selection requested selected = Ok (TieredMulti.from_iter selected).
Proof using fee_wf.
  intros Hreq Hu Hle Hnet. unfold finish_selection. set (notes := TieredMulti.from_iter selected).
  pose proof (TieredMulti.iter_items_from_iter selected) as Hperm. fold notes in Hperm.
  assert (Htiers : Forall (fun an => is_u64 an.1 /\ an.2 ≠ []) (btree_iter notes)).
  { apply Forall_forall. intros [a vs] Hin. apply elem_of_btree_iter in Hin as Hlk.
    pose proof (TieredMulti.from_iter_nonempty selected a vs Hlk) as Hne. split; [|done].
    destruct vs as [|v vs]; [done|]. assert (Hit : (a, v) ∈ TieredMulti.iter_items notes).
    { apply list_elem_of_bind. exists (a, v :: vs). split; [simpl; by left|done]. }
    rewrite Hperm in Hit. exact (proj1 (Forall_forall _ _) Hu (a, v) Hit). }
  rewrite tier_fees by (eapply Forall_impl; [exact Htiers|intros ? [? _]; done]).
  destruct (tier_fees_le _ Htiers) as [H0 Hfees].
  pose proof (sum_list_perm _ _ (fmap_Permutation (fun an => fee_of an.1) _ _ Hperm)) as Heq.
  unfold TieredMulti.iter_items in Heq. rewrite Heq in Hfees.
  rewrite net_value_fees in Hnet. unfold notes at 2.
  rewrite TieredMulti.from_iter_total by (done || (eapply Forall_impl; [exact Hu|]; by intros ? [? _])).
  rewrite Amount.sum_exact by (unfold is_u64, sum_list in *; lia). fold (sum_list (fee_of <$> (btree_iter notes).*1)).
  rewrite wrap_u64_small by (unfold is_u64; lia). by rewrite (proj2 (Z.leb_le _ _)) by lia.
Qed.

(** *** The loop *)

Lemma economical_fee an : is_u64 an.1 -> economical an <-> fee_of an.1 < an.1.
Proof. unfold economical, net. lia. Qed.

Lemma value_submseteq (l l' : list (Z * Note)) :
  Forall (fun an => is_u64 an.1) l' -> l ⊆+ l' -> TieredMulti.value l <= TieredMulti.value l'.
Proof.
  intros Hu [k Hk]%submseteq_Permutation. rewrite (TieredMulti.value_perm _ _ Hk), TieredMulti.value_app.
  rewrite Hk, Forall_app in Hu. assert (0 <= TieredMulti.value k); [|lia].
  apply TieredMulti.value_nonneg. eapply Forall_impl; [apply Hu|]. by intros ? [? _].
Qed.

Lemma net_value_perm (l l' : list (Z * Note)) : l ≡ₚ l' -> net_value l = net_value l'.
Proof. intros Hp. apply sum_list_perm. by rewrite Hp. Qed.

Lemma filter_economical (l : list (Z * Note)) : Forall economical l -> filter economical l = l.
Proof. induction 1 as [|x l Hx _ IH]; [done|]. by rewrite filter_cons_True, IH. Qed.

Lemma filter_snoc (l : list (Z * Note)) x :
  filter economical (l ++ [x]) = filter economical l ++ (if decide (economical x) then [x] else []).
Proof. by rewrite filter_app. Qed.

(** Economical notes are part of what can be spent. *)
Lemma net_value_spendable (l l' : list (Z * Note)) :
  l ⊆+ l' -> Forall economical l -> net_value l <= spendable l'.
Proof.
  intros [k Hk]%submseteq_Permutation He. unfold spendable. rewrite (net_value_perm (filter economical l') (filter economical (l ++ k))) by (by rewrite Hk).
  rewrite filter_app, (filter_economical l He), net_value_app.
  assert (0 <= net_value (filter economical k)); [|lia]. apply net_value_nonneg, Forall_forall.
  intros x Hx. by apply list_elem_of_filter in Hx as [? _].
Qed.

(** What the loop maintains over the notes [seen]. *)
Record selection_inv (requested : Z) (seen selected : list (Z * Note)) (big : option (Z * Note * nat)) (pending : Z) : Prop := {
  si_seen : selected ⊆+ seen;
  si_economical : Forall economical selected;
  si_pending : pending = requested - net_value selected;
  si_positive : 0 < pending;
  si_big : match big with
           | None => filter economical seen = selected
           | Some (a, n, checkpoint) => (checkpoint <= length selected)%nat /\
               take checkpoint selected ++ [(a, n)] ⊆+ seen /\ economical (a, n) /\
               requested <= net_value (take checkpoint selected ++ [(a, n)])
           end;
}.

(** What the selection is for the whole stream. *)
Definition selection_result (requested : Z) (stream : list (Z * Note))
    (r : outcome InsufficientBalanceError (TieredMulti.t Note)) : Prop :=
  match r with
  | Ok notes => exists selected, notes = TieredMulti.from_iter selected /\ selected ⊆+ stream /\
      Forall economical selected /\ requested <= net_value selected
  | Err e => e = {| requested_amount := requested; balance_amount := spendable stream |} /\ spendable stream < requested
  | Panic => False
  end.

Lemma selection_inv_skip requested seen selected big pending a n :
  selection_inv requested seen selected big pending -> ~ economical (a, n) ->
  selection_inv requested (seen ++ [(a, n)]) selected big pending.
Proof.
  intros [Hs He Hp H0 Hb] Hne. split; try done; [by apply submseteq_inserts_r|].
  destruct big as [[[b m] cp]|].
  - destruct Hb as (? & Hsub & ? & ?). split_and!; try done. by apply submseteq_inserts_r.
  - rewrite filter_snoc, Hb, decide_False by done. apply app_nil_r.
Qed.

Lemma selection_inv_take requested seen selected big pending a n :
  selection_inv requested seen selected big pending -> economical (a, n) -> net a < pending ->
  selection_inv requested (seen ++ [(a, n)]) (selected ++ [(a, n)]) big (pending - net a).
Proof.
  intros [Hs He Hp H0 Hb] Hec Hlt. split.
  - by apply submseteq_app.
  - apply Forall_app. split; [done|]. by apply Forall_singleton.
  - rewrite net_value_snoc. lia.
  - lia.
  - destruct big as [[[b m] cp]|].
    + destruct Hb as (Hcp & Hsub & ? & ?). rewrite length_app, take_app_le by done.
      split_and!; try done; [simpl; lia|]. by apply submseteq_inserts_r.
    + by rewrite filter_snoc, Hb, decide_True.
Qed.

Lemma selection_inv_big requested seen selected big pending a n :
  selection_inv requested seen selected big pending -> economical (a, n) -> pending < net a ->
  selection_inv requested (seen ++ [(a, n)]) selected (Some (a, n, length selected)) pending.
Proof.
  intros [Hs He Hp H0 Hb] Hec Hlt. split; try done; [by apply submseteq_inserts_r|].
  rewrite firstn_all, net_value_snoc. split_and!; try done; [|lia]. by apply submseteq_app.
Qed.

(** The database returns notes from the largest to the smallest. *)
Definition descending (stream : list (Z * Note)) : Prop := StronglySorted (fun x y => y.1 <= x.1) stream.

(** The balance of a wallet fits. *)
Definition stream_wf (stream : list (Z * Note)) : Prop :=
  Forall (fun an => is_u64 an.1) stream /\ TieredMulti.value stream <= u64_max.

Lemma finish_selection_result requested stream selected :
  0 <= requested -> stream_wf stream -> selected ⊆+ stream -> Forall economical selected ->
  requested <= net_value selected -> selection_result requested stream (finish_selection requested selected).
Proof using fee_wf.
  intros Hreq [Hu Hle] Hsub He Hnet. pose proof (value_submseteq _ _ Hu Hsub).
  rewrite finish_selection_Ok; [by exists selected|done| |lia|done].
  apply Forall_forall. intros x Hx. apply (proj1 (Forall_forall _ _) Hu). by eapply elem_of_submseteq.
Qed.

Lemma select_loop_result requested seen stream selected big pending previous :
  0 < requested <= 2 ^ 63 -> stream_wf (seen ++ stream) -> descending stream ->
  match previous with None => True | Some p => Forall (fun an => an.1 <= p) stream end ->
  selection_inv requested seen selected big pending ->
  selection_result requested (seen ++ stream) (select_loop requested stream selected big pending previous).
Proof using fee_wf.
  intros Hreq Hwf. revert seen selected big pending previous Hwf.
  induction stream as [|[a n] stream IH]; intros seen selected big pending previous Hwf Hdesc Hprev Hinv.
  - rewrite app_nil_r in *. cbn [select_loop]. pose proof Hinv as [Hs He Hp H0 Hb]. rewrite (proj2 (Z.ltb_lt _ _)) by done.
    destruct big as [[[b m] cp]|].
    + destruct Hb as (Hcp & Hsub & Hec & Hcov). apply finish_selection_result; try done; [lia|].
      apply Forall_app. split; [by apply Forall_take|by apply Forall_singleton].
    + unfold spendable. simpl. unfold spendable. rewrite Hb, Hp. pose proof (net_value_nonneg _ He).
      unfold saturating_sub. rewrite Z.max_r by lia. split; [f_equal; lia|lia].
  - inversion Hdesc as [|? ? Hd' Hall]; subst. cbn [select_loop].
    assert (Hsorted : match previous with None => true | Some p => a <=? p end = true).
    { destruct previous as [p|]; [|done]. inversion Hprev; subst. by apply Z.leb_le. }
    rewrite Hsorted. destruct Hwf as [Hu Hle]. assert (Ha : is_u64 a).
    { apply Forall_app in Hu as [_ Hu]. by inversion Hu; subst. }
    destruct (fee_of_spec a Ha) as [Hf Hfb]. rewrite Hf.
    rewrite cons_middle, (assoc_L (++)) in Hu, Hle |- *.
    pose proof Hinv as [Hs He Hp H0 Hb]. pose proof (net_value_nonneg _ He).
    assert (Hadd : Amount.add pending (fee_of a) = pending + fee_of a).
    { apply wrap_u64_small. unfold is_u64, u64_max. lia. }
    destruct (Z.leb_spec a (fee_of a)) as [Hun|Hec]; [|rewrite Hadd; destruct (Z.compare_spec a (pending + fee_of a)) as [Heq|Hlt|Hgt]].
    + apply IH; [done|done|done|]. apply selection_inv_skip; [done|]. unfold economical, net. simpl. lia.
    + apply finish_selection_result; [lia|done| | |rewrite net_value_snoc; unfold net; lia].
      * apply submseteq_inserts_r. by apply submseteq_app.
      * apply Forall_app. split; [done|]. apply Forall_singleton. unfold economical, net. simpl. lia.
    + replace (Amount.sub (pending + fee_of a) a) with (pending - net a)
        by (unfold net, Amount.sub; rewrite wrap_u64_small; [lia|unfold is_u64, u64_max in *; lia]).
      apply IH; [done|done|done|]. apply selection_inv_take; unfold economical, net; simpl; (done || lia).
    + apply IH; [done|done|done|]. eapply selection_inv_big; unfold economical, net; simpl; (done || lia).
Qed.

Lemma select_notes_result requested stream :
  0 < requested <= 2 ^ 63 -> stream_wf stream -> descending stream ->
  selection_result requested stream (select_notes_from_stream stream requested).
Proof using fee_wf.
  intros Hreq Hwf Hd. unfold select_notes_from_stream. rewrite (proj2 (Z.eqb_neq _ _)) by lia.
  apply (select_loop_result requested [] stream [] None requested None); try done.
  split; try done; [|lia]. unfold net_value. simpl. lia.
Qed.
End selection.

(** What notes are worth depends on their amounts only. *)
Section amounts.
Context (f : Fee.FeeConsensus) {Note Note' : Type}.

Lemma net_value_fst {N} (l : list (Z * N)) : net_value f l = sum_list (net f <$> l.*1).
Proof. unfold net_value. by rewrite <- list_fmap_compose. Qed.

Lemma spendable_fst {N} (l : list (Z * N)) : spendable f l = sum_list (filter (fun x => 0 < x) (net f <$> l.*1)).
Proof.
  unfold spendable. induction l as [|[a n] l IH]; [done|]. rewrite !fmap_cons. cbn [fst].
  destruct (decide (0 < net f a)); [|by rewrite !filter_cons_False].
  rewrite !filter_cons_True by done. unfold net_value in *. by rewrite fmap_cons, !sum_list_cons, IH.
Qed.

Lemma net_value_amounts (l : list (Z * Note)) (l' : list (Z * Note')) : l.*1 ≡ₚ l'.*1 -> net_value f l = net_value f l'.
Proof. intros Hp. rewrite !net_value_fst. apply sum_list_perm. by rewrite Hp. Qed.

Lemma spendable_amounts (l : list (Z * Note)) (l' : list (Z * Note')) : l.*1 ≡ₚ l'.*1 -> spendable f l = spendable f l'.
Proof. intros Hp. rewrite !spendable_fst. apply sum_list_perm. by rewrite Hp. Qed.
End amounts.

(** *** Exact amounts

    Denominations of a mint are powers of two, so of any two the smaller one
    divides the larger one.  Then the greedy choice finds an exact amount
    whenever the wallet has one. *)
Section exact.
Context {Note : Type}.
Implicit Types (stream selected : list (Z * Note)).

Definition divisible stream : Prop :=
  Forall (fun an => 0 < an.1) stream /\ StronglySorted (fun x y => (y.1 | x.1)) stream.

Lemma sublist_StronglySorted {A} (R : A -> A -> Prop) (l l' : list A) :
  l `sublist_of` l' -> StronglySorted R l' -> StronglySorted R l.
Proof.
  induction 1 as [|x l l' Hsub IH|x l l' Hsub IH]; intros Hs; [done|..]; inversion Hs as [|? ? Hs' Hall]; subst.
  - constructor; [by apply IH|]. apply Forall_forall. intros y Hy. apply (proj1 (Forall_forall _ _) Hall).
    by eapply elem_of_submseteq, sublist_submseteq.
  - by apply IH.
Qed.

Lemma divisible_sublist l stream : l `sublist_of` stream -> divisible stream -> divisible l.
Proof.
  intros Hsub [Hpos Hs]. split; [|by eapply sublist_StronglySorted].
  apply Forall_forall. intros y Hy. apply (proj1 (Forall_forall _ _) Hpos). by eapply elem_of_submseteq, sublist_submseteq.
Qed.

(** Sums of the largest notes do not jump over a multiple of all of them. *)
Lemma divisible_prefix (a acc : Z) (l : list (Z * Note)) :
  0 <= acc <= a -> divisible l -> Forall (fun an => (an.1 | a) /\ (an.1 | acc)) l -> a <= acc + TieredMulti.value l ->
  exists k, acc + TieredMulti.value (take k l) = a.
Proof.
  revert acc. induction l as [|[x n] l IH]; intros acc Hacc [Hpos Hs] Hdiv Hle.
  - exists 0%nat. unfold TieredMulti.value in *. simpl in *. lia.
  - destruct (decide (acc = a)) as [->|Hne]; [exists 0%nat; unfold TieredMulti.value; simpl; lia|].
    inversion Hpos as [|? ? Hx Hpos']; inversion Hs as [|? ? Hs' Hall]; inversion Hdiv as [|? ? [[u Hu] [w Hw]] Hdiv']; subst.
    cbn [fst] in *. rewrite TieredMulti.value_cons in Hle.
    assert (w < u) by (apply (Z.mul_lt_mono_pos_r x); lia).
    destruct (IH (w * x + x)) as [k Hk].
    + nia.
    + done.
    + rewrite Forall_forall in Hdiv', Hall |- *. intros y Hy. destruct (Hdiv' y Hy) as [H1 H2]. split; [done|].
      apply Z.divide_add_r; [done|by apply Hall].
    + lia.
    + exists (S k). rewrite firstn_cons, TieredMulti.value_cons. lia.
Qed.

(** Notes that sum to a multiple of all of them, or more, can do without it. *)
Lemma exchange (a : Z) l stream :
  divisible stream -> Forall (fun an => (an.1 | a)) stream -> l ⊆+ stream -> 0 <= a <= TieredMulti.value l ->
  exists l', l' ⊆+ stream /\ TieredMulti.value l' = TieredMulti.value l - a.
Proof.
  intros Hdiv Ha Hsub Hle. apply submseteq_sublist_r in Hsub as (l2 & Hl2 & Hsub).
  rewrite (TieredMulti.value_perm _ _ Hl2) in Hle |- *.
  destruct (divisible_prefix a 0 l2) as [k Hk]; [lia|by eapply divisible_sublist| |lia|].
  - apply Forall_forall. intros y Hy. split; [|apply Z.divide_0_r]. apply (proj1 (Forall_forall _ _) Ha).
    by eapply elem_of_submseteq, sublist_submseteq.
  - exists (drop k l2). pose proof (TieredMulti.value_app (take k l2) (drop k l2)) as Hv. rewrite take_drop in Hv. split; [|lia].
    transitivity l2; [|by apply sublist_submseteq]. apply sublist_submseteq, sublist_drop.
Qed.

Lemma fee_zero a : is_u64 a -> Fee.fee Fee.zero a = Some 0.
Proof. intros Ha. unfold Fee.fee, Fee.fee_msats, Fee.zero, saturating_mul. simpl. by rewrite Z.mul_0_r. Qed.

Lemma select_loop_exact requested stream selected big pending previous l :
  0 < pending <= requested -> requested <= 2 ^ 63 -> Forall (fun an => is_u64 an.1) stream -> divisible stream ->
  match previous with None => True | Some p => Forall (fun an => an.1 <= p) stream end ->
  l ⊆+ stream -> TieredMulti.value l = pending ->
  exists extra, extra ⊆+ stream /\ TieredMulti.value extra = pending /\
    select_loop Fee.zero requested stream selected big pending previous = finish_selection Fee.zero requested (selected ++ extra).
Proof.
  intros Hp Hreq. revert selected big pending previous l Hp.
  induction stream as [|[a n] stream IH]; intros selected big pending previous l Hp Hu [Hpos Hs] Hprev Hsub Hval.
  { apply submseteq_nil_r in Hsub as ->. unfold TieredMulti.value in Hval. simpl in Hval. lia. }
  inversion Hu as [|? ? Ha Hu']; inversion Hpos as [|? ? Ha0 Hpos']; inversion Hs as [|? ? Hs' Hall]; subst. cbn [fst] in *.
  assert (Hsorted : match previous with None => true | Some p => a <=? p end = true).
  { destruct previous as [p|]; [|done]. inversion Hprev; subst. by apply Z.leb_le. }
  assert (Hprev' : Forall (fun an => an.1 <= a) stream).
  { rewrite Forall_forall in Hall |- *. intros y Hy. by apply Z.divide_pos_le, Hall. }
  cbn [select_loop]. rewrite Hsorted, fee_zero, (proj2 (Z.leb_gt _ _)) by done.
  unfold Amount.add. rewrite Z.add_0_r, wrap_u64_small by (unfold is_u64, u64_max; lia).
  assert (Hrest : a < TieredMulti.value l -> exists l', l' ⊆+ stream /\ TieredMulti.value l' = TieredMulti.value l - a).
  { intros Hlt. apply submseteq_cons_r in Hsub as [Hsub|(l' & Hl' & Hsub)]; [eapply exchange; [done..|lia]|].
    exists l'. split; [done|]. rewrite (TieredMulti.value_perm _ _ Hl'), TieredMulti.value_cons. lia. }
  destruct (Z.compare_spec a (TieredMulti.value l)) as [Heq|Hlt|Hgt].
  - exists [(a, n)]. split_and!; [|unfold TieredMulti.value in *; simpl; lia|done]. apply submseteq_skip, submseteq_nil_l.
  - destruct (Hrest Hlt) as (l' & Hl' & Hv'). unfold Amount.sub.
    rewrite wrap_u64_small by (unfold is_u64, u64_max in *; lia).
    destruct (IH (selected ++ [(a, n)]) big (TieredMulti.value l - a) (Some a) l') as (extra & He & Hv & ->); try done; [lia|].
    exists ((a, n) :: extra). rewrite <- (assoc_L (++)), TieredMulti.value_cons. split_and!; [by apply submseteq_skip|lia|done].
  - apply submseteq_cons_r in Hsub as [Hsub|(l' & Hl' & Hsub)].
    + destruct (IH selected (Some (a, n, length selected)) (TieredMulti.value l) (Some a) l) as (extra & He & Hv & ->); try done.
      exists extra. split_and!; [by apply submseteq_cons|done|done].
    + rewrite (TieredMulti.value_perm _ _ Hl'), TieredMulti.value_cons in Hgt.
      assert (0 <= TieredMulti.value l'); [|lia]. apply TieredMulti.value_nonneg, Forall_forall. intros y Hy.
      assert (0 < y.1); [|lia]. apply (proj1 (Forall_forall _ _) Hpos'). by eapply elem_of_submseteq.
Qed.
End exact.

(** For any wallet and request the selection does not panic.  When it
    succeeds the notes are from the wallet, each of them only once, and cover
    the request and the fees of all of them; it succeeds exactly when the notes
    worth spending are enough, and otherwise reports what they are worth. *)
Theorem select_at_least_correct {Note} (f : Fee.FeeConsensus) (stream : list (Z * Note)) (requested : Z) :
  Fee.wf f -> 0 < requested <= 2 ^ 63 -> stream_wf stream -> descending stream ->
  match select_at_least f stream requested with
  | Ok notes => requested <= spendable f stream /\ TieredMulti.iter_items notes ⊆+ stream /\
      requested + sum_list ((fun an => fee_of f an.1) <$> TieredMulti.iter_items notes)
        <= TieredMulti.value (TieredMulti.iter_items notes)
  | Err (InsufficientBalance e) => spendable f stream < requested /\ requested_amount e = requested /\
      balance_amount e = spendable f stream
  | Err _ | Panic => False
  end.
Proof.
  intros Hf Hreq Hwf Hd. pose proof (select_notes_result f Hf requested stream Hreq Hwf Hd) as Hres.
  unfold select_at_least. destruct (select_notes_from_stream f stream requested) as [notes|e|]; simpl in Hres; [..|done].
  - destruct Hres as (selected & -> & Hsub & He & Hnet). pose proof (net_value_spendable f _ _ Hsub He).
    pose proof (TieredMulti.iter_items_from_iter selected) as Hp. split_and!; [lia|by rewrite Hp|].
    rewrite (TieredMulti.value_perm _ _ Hp), (sum_list_perm _ _ (fmap_Permutation _ _ _ Hp)).
    rewrite net_value_fees in Hnet. lia.
  - by destruct Hres as [-> Hlt].
Qed.

(** With the denominations of a mint, an exact selection succeeds exactly
    when some of the notes of the wallet add up to the request, although notes
    are chosen greedily. *)
Theorem select_exact_complete {Note} (stream : list (Z * Note)) (requested : Z) :
  0 < requested <= 2 ^ 63 -> stream_wf stream -> divisible stream ->
  (exists notes, select_exact Fee.zero stream requested = Ok notes /\ TieredMulti.iter_items notes ⊆+ stream /\
     TieredMulti.value (TieredMulti.iter_items notes) = requested) <->
  (exists l, l ⊆+ stream /\ TieredMulti.value l = requested).
Proof.
  intros Hreq Hwf Hdiv. split; [intros (notes & _ & Hsub & Hval); by exists (TieredMulti.iter_items notes)|].
  intros (l & Hsub & Hval). pose proof Hwf as [Hu Hle].
  destruct (select_loop_exact requested stream [] None requested None l) as (extra & He & Hv & Hsel); try done; [lia..|].
  simpl in Hsel. pose proof (value_submseteq _ _ Hu He).
  assert (Hue : Forall (fun an => is_u64 an.1) extra).
  { apply Forall_forall. intros x Hx. apply (proj1 (Forall_forall _ _) Hu). by eapply elem_of_submseteq. }
  assert (Hnet : net_value Fee.zero extra = TieredMulti.value extra).
  { rewrite net_value_fees. assert (sum_list ((fun an => fee_of Fee.zero an.1) <$> extra) = 0); [|lia].
    clear -Hue. induction Hue as [|[a n] l Ha _ IH]; [done|]. rewrite fmap_cons, sum_list_cons, IH.
    unfold fee_of. cbn [fst] in *. by rewrite fee_zero. }
  rewrite finish_selection_Ok in Hsel by (done || lia || (split; simpl; lia)).
  pose proof (TieredMulti.iter_items_from_iter extra) as Hp.
  exists (TieredMulti.from_iter extra). split_and!; [|by rewrite Hp|by rewrite (TieredMulti.value_perm _ _ Hp)].
  unfold select_exact, select_notes_from_stream. rewrite (proj2 (Z.eqb_neq _ _)), Hsel by lia.
  rewrite TieredMulti.from_iter_total; [by rewrite Hv, Z.eqb_refl| |lia].
  eapply Forall_impl; [exact Hue|]. by intros ? [? _].
Qed.

(** ** Making change *)

Section represent.
Context (fee_consensus : Fee.FeeConsensus).

(** What a note of a tier costs; [None] is a panic. *)
Definition tier_cost (tier : Z) : option Z :=
  fee ← Fee.fee fee_consensus tier; Some (Amount.add tier fee).

(** First the sets of denominations the user should hold, from the smallest tier on. *)
Fixpoint fill_sets (current : TieredCounts.t) (denomination_sets : Z) (tiers : list Z)
    (remaining : Z) (denominations : TieredCounts.t) : option (Z * TieredCounts.t) :=
  match tiers with
  | [] => Some (remaining, denominations)
  | tier :: tiers =>
      cost ← tier_cost tier;
      possible_notes ← Amount.div remaining cost;
      let missing_notes := saturating_sub denomination_sets (TieredCounts.get current tier) in
      let add_notes := Z.min possible_notes missing_notes in
      fill_sets current denomination_sets tiers (Amount.sub remaining (Amount.mul_u64 cost add_notes))
        (TieredCounts.inc tier add_notes denominations)
  end.

(** Then the rest greedily, from the largest tier on. *)
Fixpoint fill_greedy (tiers : list Z) (remaining : Z) (denominations : TieredCounts.t) : option (Z * TieredCounts.t) :=
  match tiers with
  | [] => Some (remaining, denominations)
  | tier :: tiers =>
      cost ← tier_cost tier;
      res ← Amount.div remaining cost;
      fill_greedy tiers (Amount.sub remaining (Amount.mul_u64 cost res)) (TieredCounts.inc tier res denominations)
  end.

Definition represent_amount (amount : Z) (current_denominations : TieredCounts.t) (tiers : list Z)
    (denomination_sets : Z) : option TieredCounts.t :=
  rd ← fill_sets current_denominations denomination_sets tiers amount ∅;
  rd ← fill_greedy (reverse tiers) rd.1 rd.2;
  costs ← mapM (fun kv => cost ← tier_cost kv.1; Some (wrap_u64 (cost * kv.2))) (btree_iter rd.2);
  smallest ← Fee.fee fee_consensus 1;
  let represented := Amount.sum costs in
  if (represented <=? amount) && (amount <=? wrap_u64 (represented + smallest)) then Some rd.2 else None.

(** *** Lemmas *)

Hypothesis fee_wf : Fee.wf fee_consensus.

Definition cost_of (tier : Z) : Z := tier + fee_of fee_consensus tier.
Definition counts_cost (m : TieredCounts.t) : Z := sum_map (fun k v => cost_of k * v) m.

(** A tier of a mint. *)
Definition tier_ok (tier : Z) : Prop := 0 < tier <= 2 ^ 63.

Lemma tier_cost_of tier : tier_ok tier -> tier_cost tier = Some (cost_of tier) /\ 0 < tier <= cost_of tier.
Proof using fee_wf.
  intros Ht. destruct (fee_of_spec fee_consensus fee_wf tier) as [Hf Hb]; [unfold tier_ok, is_u64, u64_max in *; lia|].
  unfold tier_cost. rewrite Hf. simpl. unfold cost_of, Amount.add, tier_ok in *.
  rewrite wrap_u64_small by (unfold is_u64, u64_max; lia). split; [done|lia].
Qed.

(** What is not laid out yet, and what is. *)
Record represent_inv (amount : Z) (tiers : list Z) (remaining : Z) (m : TieredCounts.t) : Prop := {
  ri_sum : remaining + counts_cost m = amount;
  ri_remaining : 0 <= remaining;
  ri_counts : map_Forall (fun k v => k ∈ tiers /\ 0 < v) m;
}.

Lemma counts_cost_inc tier n m :
  0 <= n -> 0 <= TieredCounts.get m tier + n <= u64_max -> counts_cost (TieredCounts.inc tier n m) = counts_cost m + cost_of tier * n.
Proof.
  intros Hn Hb. unfold TieredCounts.inc. destruct (Z.ltb_spec 0 n) as [Hpos|]; [|assert (n = 0) as -> by lia; lia].
  rewrite wrap_u64_small by (unfold is_u64; lia). unfold counts_cost, TieredCounts.get in *.
  destruct (m !! tier) as [c|] eqn:Hm; simpl in *; [rewrite (sum_map_insert_Some _ _ _ _ _ Hm)|rewrite sum_map_insert by done]; lia.
Qed.

Lemma represent_inv_inc amount tiers remaining m tier n :
  is_u64 amount -> Forall tier_ok tiers -> tier ∈ tiers -> represent_inv amount tiers remaining m ->
  0 <= n <= remaining / cost_of tier ->
  Amount.sub remaining (Amount.mul_u64 (cost_of tier) n) = remaining - cost_of tier * n /\
  represent_inv amount tiers (remaining - cost_of tier * n) (TieredCounts.inc tier n m).
Proof using fee_wf.
  intros Ha Hok Hin [Hsum Hrem Hc] Hn. rewrite Forall_forall in Hok. destruct (tier_cost_of tier (Hok _ Hin)) as [_ Hpos].
  pose proof (Z.mul_div_le remaining (cost_of tier)).
  assert (Hle : cost_of tier * n <= remaining) by nia.
  assert (Hcost : 0 <= counts_cost m).
  { apply sum_map_nonneg. intros k v Hk. destruct (Hc k v Hk) as [Hk' Hv]. destruct (tier_cost_of k (Hok _ Hk')) as [_ ?]. nia. }
  assert (Hget : 0 <= TieredCounts.get m tier /\ cost_of tier * TieredCounts.get m tier <= counts_cost m).
  { unfold TieredCounts.get. destruct (m !! tier) as [c|] eqn:Hm; simpl; [|nia]. destruct (Hc _ _ Hm) as [_ Hv].
    split; [lia|]. apply (sum_map_entry_le (fun k v => cost_of k * v) m tier c); [|done].
    intros k v Hk. destruct (Hc k v Hk) as [Hk' Hv']. destruct (tier_cost_of k (Hok _ Hk')) as [_ ?]. nia. }
  unfold is_u64 in Ha. unfold Amount.sub, Amount.mul_u64. rewrite !wrap_u64_small by (unfold is_u64; try rewrite wrap_u64_small; unfold is_u64; nia).
  split; [done|]. split.
  - rewrite counts_cost_inc by nia. lia.
  - lia.
  - unfold TieredCounts.inc. destruct (Z.ltb_spec 0 n); [|done]. rewrite wrap_u64_small by (unfold is_u64; nia).
    apply map_Forall_insert_2; [split; [done|lia]|done].
Qed.

Lemma div_cost tier remaining : tier_ok tier -> Amount.div remaining (cost_of tier) = Some (remaining / cost_of tier).
Proof using fee_wf.
  intros Ht. destruct (tier_cost_of tier Ht) as [_ Hpos]. unfold Amount.div. by rewrite (proj2 (Z.eqb_neq _ _)) by lia.
Qed.

Lemma fill_sets_inv amount all current sets tiers remaining m :
  is_u64 amount -> Forall tier_ok all -> (forall t, t ∈ tiers -> t ∈ all) -> represent_inv amount all remaining m ->
  exists remaining' m', fill_sets current sets tiers remaining m = Some (remaining', m') /\ represent_inv amount all remaining' m'.
Proof using fee_wf.
  intros Ha Hok. revert remaining m. induction tiers as [|tier tiers IH]; intros remaining m Hsub Hinv; [by eauto|].
  assert (Hin : tier ∈ all) by (apply Hsub; left). pose proof (proj1 (Forall_forall _ _) Hok _ Hin) as Ht.
  cbn [fill_sets]. destruct (tier_cost_of tier Ht) as [Hc Hpos]. rewrite Hc. simpl. rewrite div_cost by done. simpl.
  set (add := Z.min _ _). destruct (represent_inv_inc amount all remaining m tier add) as [-> Hinv']; try done.
  { pose proof (ri_remaining _ _ _ _ Hinv). pose proof (Z.div_pos remaining (cost_of tier)). unfold add, saturating_sub. lia. }
  apply IH; [|done]. intros t Hin'. apply Hsub. by right.
Qed.

Lemma fill_greedy_inv amount all tiers remaining m :
  is_u64 amount -> Forall tier_ok all -> (forall t, t ∈ tiers -> t ∈ all) -> represent_inv amount all remaining m ->
  exists remaining' m', fill_greedy tiers remaining m = Some (remaining', m') /\ represent_inv amount all remaining' m' /\
    forall t, last tiers = Some t -> remaining' < cost_of t.
Proof using fee_wf.
  intros Ha Hok. revert remaining m. induction tiers as [|tier tiers IH]; intros remaining m Hsub Hinv;
    [by exists remaining, m; split_and!|].
  assert (Hin : tier ∈ all) by (apply Hsub; left). pose proof (proj1 (Forall_forall _ _) Hok _ Hin) as Ht.
  cbn [fill_greedy]. destruct (tier_cost_of tier Ht) as [Hc Hpos]. rewrite Hc. simpl. rewrite div_cost by done. simpl.
  pose proof (ri_remaining _ _ _ _ Hinv) as Hr. pose proof (Z.div_pos remaining (cost_of tier)).
  destruct (represent_inv_inc amount all remaining m tier (remaining / cost_of tier)) as [-> Hinv']; try done; [lia|].
  destruct (IH (remaining - cost_of tier * (remaining / cost_of tier)) (TieredCounts.inc tier (remaining / cost_of tier) m))
    as (r' & m' & Hg & Hi & Hlast); [intros t Hin'; apply Hsub; by right|done|].
  exists r', m'. split_and!; [done|done|]. intros t Hl. destruct tiers as [|t' tiers]; [|by apply Hlast].
  simpl in Hg, Hl. simplify_eq. pose proof (Z.mod_pos_bound remaining (cost_of t)). pose proof (Z.mod_eq remaining (cost_of t)). lia.
Qed.

Lemma counts_costs all (m : TieredCounts.t) :
  Forall tier_ok all -> map_Forall (fun k v => k ∈ all /\ 0 < v) m -> counts_cost m <= u64_max ->
  exists costs, mapM (fun kv => cost ← tier_cost kv.1; Some (wrap_u64 (cost * kv.2))) (btree_iter m) = Some costs /\
    Amount.sum costs = counts_cost m.
Proof using fee_wf.
  intros Hok Hm Hle. exists ((fun kv => cost_of kv.1 * kv.2) <$> btree_iter m).
  assert (Hsum : sum_list ((fun kv => cost_of kv.1 * kv.2) <$> btree_iter m) = counts_cost m).
  { unfold counts_cost, sum_map. apply sum_list_perm. by rewrite btree_iter_perm. }
  assert (Hcost : forall k v, m !! k = Some v -> tier_ok k /\ 0 < v).
  { intros k v Hk. destruct (Hm k v Hk) as [Hin Hv]. split; [|done]. by apply (proj1 (Forall_forall _ _) Hok). }
  assert (Hnonneg : forall k v, m !! k = Some v -> 0 <= cost_of k * v).
  { intros k v Hk. destruct (Hcost k v Hk) as [Ht Hv]. destruct (tier_cost_of k Ht) as [_ ?]. nia. }
  split.
  - apply mapM_Some, Forall2_fmap_r, Forall_Forall2_diag, Forall_forall. intros [k v] Hin. cbn [fst snd].
    apply elem_of_btree_iter in Hin. destruct (Hcost k v Hin) as [Ht _]. destruct (tier_cost_of k Ht) as [Hc _]. rewrite Hc. simpl.
    pose proof (sum_map_entry_le (fun k v => cost_of k * v) m k v Hnonneg Hin). pose proof (Hnonneg k v Hin).
    unfold counts_cost in Hle. cbv beta in *. by rewrite wrap_u64_small by (unfold is_u64; lia).
  - rewrite Amount.sum_exact; unfold sum_list in Hsum; rewrite Hsum; [done|].
    split; [by apply sum_map_nonneg|done].
Qed.

Lemma represent_amount_spec amount current tiers sets :
  0 <= amount <= 2 ^ 63 -> Forall tier_ok (1 :: tiers) ->
  exists m remaining, represent_amount amount current (1 :: tiers) sets = Some m /\
    represent_inv amount (1 :: tiers) remaining m /\ remaining <= fee_of fee_consensus 1.
Proof using fee_wf.
  intros Hamount Hok. assert (Ha : is_u64 amount) by (unfold is_u64, u64_max; lia). unfold represent_amount.
  destruct (fill_sets_inv amount (1 :: tiers) current sets (1 :: tiers) amount ∅) as (r1 & m1 & -> & Hinv1); try done.
  { split; [unfold counts_cost; rewrite sum_map_empty; lia|unfold is_u64 in Ha; lia|apply map_Forall_empty]. }
  simpl. destruct (fill_greedy_inv amount (1 :: tiers) (reverse (1 :: tiers)) r1 m1) as (r2 & m2 & Hg & Hinv2 & Hlast); try done.
  { intros t. by rewrite elem_of_reverse. }
  rewrite Hg. cbn [mbind option_bind fst snd]. pose proof Hinv2 as [Hsum Hr Hc].
  destruct (counts_costs _ m2 Hok Hc) as (costs & Hcs & Hsumc); [unfold is_u64 in Ha; lia|].
  destruct (fee_of_spec fee_consensus fee_wf 1) as [Hf Hb]; [unfold is_u64, u64_max; lia|]. rewrite Hcs, Hf. cbn [mbind option_bind].
  rewrite Hsumc. specialize (Hlast 1 ltac:(by rewrite reverse_cons, last_snoc)). unfold cost_of in Hlast.
  assert (Hcost : 0 <= counts_cost m2 <= amount).
  { split; [|lia]. apply sum_map_nonneg. intros k v Hk. destruct (Hc k v Hk) as [Hin Hv].
    destruct (tier_cost_of k (proj1 (Forall_forall _ _) Hok _ Hin)) as [_ ?]. nia. }
  exists m2, r2. split; [|split; [done|lia]].
  rewrite (wrap_u64_small (counts_cost m2 + _)) by (unfold is_u64, u64_max; lia).
  by rewrite !(proj2 (Z.leb_le _ _)) by lia.
Qed.
Lemma replicate_cost (l : list (Z * Z)) :
  Forall (fun an => 0 <= an.2) l ->
  sum_list (cost_of <$> (l ≫= fun an => replicate (Z.to_nat an.2) an.1))
    = sum_list ((fun an => cost_of an.1 * an.2) <$> l).
Proof.
  induction 1 as [|[a n] l Hn _ IH]; [done|]. rewrite bind_cons, fmap_app, sum_list_app, IH, fmap_cons, sum_list_cons. f_equal.
  cbn [fst snd] in *. rewrite <- (Z2Nat.id n) at 2 by done. generalize (Z.to_nat n). clear.
  induction n as [|n IH]; [simpl; lia|]. cbn [replicate]. rewrite fmap_cons, sum_list_cons, IH. lia.
Qed.

(** A layout of notes has at most as many notes as it costs. *)
Lemma represented_counts amount tiers remaining m :
  Forall tier_ok tiers -> represent_inv amount tiers remaining m ->
  Forall (fun an => 0 <= an.2) (btree_iter m) /\ sum_list (btree_iter m).*2 <= amount /\
  sum_list ((fun an => cost_of an.1 * an.2) <$> btree_iter m) = counts_cost m.
Proof using fee_wf.
  intros Hok [Hsum Hr Hc]. assert (Hcost : sum_list ((fun an => cost_of an.1 * an.2) <$> btree_iter m) = counts_cost m).
  { unfold counts_cost, sum_map. apply sum_list_perm. by rewrite btree_iter_perm. }
  assert (Hall : Forall (fun an => 0 <= an.2 /\ an.2 <= cost_of an.1 * an.2) (btree_iter m)).
  { apply Forall_forall. intros [a n] Hin%elem_of_btree_iter. destruct (Hc _ _ Hin) as [Ha Hn]. cbn [fst snd].
    destruct (tier_cost_of a) as [_ ?]; [by apply (proj1 (Forall_forall _ _) Hok)|nia]. }
  split_and!; [eapply Forall_impl; [exact Hall|]; by intros ? [? _]| |done].
  transitivity (counts_cost m); [|lia]. rewrite <- Hcost. clear -Hall.
  induction Hall as [|[a n] l [_ Hle] _ IH]; [done|]. rewrite !fmap_cons, !sum_list_cons. simpl in *. lia.
Qed.
End represent.

(** C40: laying out an amount in notes never panics.  The notes and their fees
    cost at most the amount, and what is lost is at most the fee of the
    smallest note; without fees nothing is lost.  All notes are of the tiers
    of the mint. *)
Theorem represent_amount_correct (f : Fee.FeeConsensus) (amount : Z) (current : TieredCounts.t) (tiers : list Z) (sets : Z) :
  Fee.wf f -> 0 <= amount <= 2 ^ 63 -> Forall tier_ok (1 :: tiers) ->
  exists m, represent_amount f amount current (1 :: tiers) sets = Some m /\
    map_Forall (fun k v => k ∈ 1 :: tiers /\ 0 < v) m /\
    sum_map (fun k v => (k + fee_of f k) * v) m <= amount
      <= sum_map (fun k v => (k + fee_of f k) * v) m + fee_of f 1 /\
    (f = Fee.zero -> sum_map (fun k v => k * v) m = amount).
Proof.
  intros Hf Ha Hok. destruct (represent_amount_spec f Hf amount current tiers sets Ha Hok) as (m & r & -> & [Hsum Hr Hc] & Hle).
  unfold counts_cost, cost_of in Hsum. exists m. split_and!; [done|done|lia|lia|]. intros ->.
  assert (fee_of Fee.zero 1 = 0) as Hz by done.
  rewrite (sum_map_ext _ (fun k v => (k + fee_of Fee.zero k) * v)); [lia|].
  intros k v Hk. destruct (Hc k v Hk) as [Hin _]. assert (tier_ok k) by by apply (proj1 (Forall_forall _ _) Hok).
  unfold fee_of. rewrite fee_zero by (unfold tier_ok, is_u64, u64_max in *; lia). simpl. lia.
Qed.

(** ** A wallet *)

Module SelectionExample.
(** Six notes, with numbers for notes; with the fee of 100 the note of 64 is not worth spending. *)
Definition wallet : list (Z * Z) := [(4096, 1); (1024, 2); (1024, 3); (512, 4); (256, 5); (64, 6)].
Definition fees : Fee.FeeConsensus := {| Fee.base := 100; Fee.parts_per_million := 0 |}.

Lemma fees_wf : Fee.wf fees.
Proof. split; simpl; lia. Qed.

Lemma wallet_wf : stream_wf wallet.
Proof. split; [repeat constructor; simpl; unfold is_u64, u64_max; lia|by vm_compute]. Qed.

Lemma wallet_descending : descending wallet.
Proof. repeat constructor; simpl; lia. Qed.

Lemma wallet_divisible : divisible wallet.
Proof. split; repeat constructor; simpl; (lia || (apply Z.mod_divide; [lia|done])). Qed.

Lemma select_at_least_correct_witness :
  select_at_least fees wallet 2000 = Ok (TieredMulti.from_iter [(1024, 2); (1024, 3); (256, 5)]) /\ 2000 <= spendable fees wallet.
Proof.
  pose proof (select_at_least_correct fees wallet 2000 fees_wf ltac:(lia) wallet_wf wallet_descending) as H.
  assert (Hs : select_at_least fees wallet 2000 = Ok (TieredMulti.from_iter [(1024, 2); (1024, 3); (256, 5)])) by by vm_compute.
  rewrite Hs in H. split; [done|apply H].
Defined.

Lemma select_exact_complete_witness :
  exists notes, select_exact Fee.zero wallet 1600 = Ok notes /\ TieredMulti.value (TieredMulti.iter_items notes) = 1600.
Proof.
  destruct (proj2 (select_exact_complete wallet 1600 ltac:(lia) wallet_wf wallet_divisible)) as (notes & Hs & _ & Hv); [|by exists notes].
  exists [(1024, 2); (512, 4); (64, 6)]. split; [|by vm_compute].
  apply submseteq_cons, submseteq_skip, submseteq_cons, submseteq_skip, submseteq_cons. reflexivity.
Defined.

Lemma represent_amount_correct_witness :
  exists m, represent_amount fees 5000 ∅ [1; 2; 4; 8; 1024] 2 = Some m /\ 5000 <= sum_map (fun k v => (k + fee_of fees k) * v) m + 100.
Proof.
  destruct (represent_amount_correct fees 5000 ∅ [2; 4; 8; 1024] 2 fees_wf ltac:(lia)) as (m & Hm & _ & [_ Hle] & _).
  - repeat constructor; unfold tier_ok; lia.
  - exists m. split; [exact Hm|]. change 100 with (fee_of fees 1). exact Hle.
Defined.
End SelectionExample.
