(* ===== verification/MintClient.v ===== *)
(** * The wallet of the mint client

    The operations of [modules/fedimint-mint-client/src/lib.rs] on the notes in
    the database of a client: selecting notes and removing them, consolidating
    notes of the same denomination, issuing notes from indices that are used
    once, and [create_final_inputs_and_outputs], by which the mint balances a
    transaction of the client.

    Keys, signatures and the derivation of secrets are parameters.  The state
    machines that wait for a transaction are not part of this file. *)

From S2P Require Import Prelude Db Amounts Tiered NoteSelection.

Inductive ValidateNotesError :=
| InvalidAmountTier (index amount : Z)
| NoteInvalidSignature (index : Z)
| NoteUndecodable.

Inductive ClientModuleError :=
| ClientInsufficientBalance (e : InsufficientBalanceError)
| ClientSelect (e : SelectNotesError)
| ClientValidate (e : ValidateNotesError)
| ClientOnlyBitcoin.

Section mint_client.
(** A note in the database is undecoded; the nonce of a note is the public
    part of its spend key. *)
Context {UN SN Req : Type}.
Context (decode : UN -> option SN) (nonce_of : SN -> Z).
(** [note.verify(key)]. *)
Context (verify : SN -> Z -> bool).
(** The issuance request and the blind nonce from the secret of an amount and an index. *)
Context (issuance_request : Z -> Z -> Req * Z).
(** [MintClientConfig]: the aggregate key of each denomination, and the fees. *)
Context (tbs_pks : gmap Z Z) (fee_consensus : Fee.FeeConsensus).

(** ** Tables *)

Record MintClientDb := {
  client_notes : gmap (Z * Z) UN;
  next_note_index : gmap Z Z;
  event_log : list Z;
}.

Definition NoteKey : table MintClientDb (Z * Z) UN := Table client_notes (fun f s =>
  {| client_notes := f (client_notes s); next_note_index := next_note_index s; event_log := event_log s |}).
Definition NextECashNoteIndexKey : table MintClientDb Z Z := Table next_note_index (fun f s =>
  {| client_notes := client_notes s; next_note_index := f (next_note_index s); event_log := event_log s |}).

Abbreviation MC A := (M MintClientDb ClientModuleError A).

(** [log_event] of [NoteSpent]. *)
Definition log_note_spent {E} (nonce : Z) : M MintClientDb E unit := modify (fun s =>
  {| client_notes := client_notes s; next_note_index := next_note_index s; event_log := event_log s ++ [nonce] |}).

(** The order of encoded keys: by amount, then by nonce. *)
Definition note_key_le (x y : Z * Z * UN) : Prop := x.1.1 < y.1.1 \/ (x.1.1 = y.1.1 /\ x.1.2 <= y.1.2).
#[local] Instance note_key_le_dec x y : Decision (note_key_le x y).
Proof. unfold note_key_le. apply _. Defined.

Definition notes_ascending (m : gmap (Z * Z) UN) : list (Z * UN) :=
  (fun kv => (kv.1.1, kv.2)) <$> merge_sort note_key_le (map_to_list m).

(** [find_by_prefix(&NoteKeyPrefix)], with the amounts. *)
Definition find_notes : MC (list (Z * UN)) := gets (fun s => notes_ascending (client_notes s)).

(** ** Reading the wallet *)

Definition get_note_counts_by_denomination : MC TieredCounts.t :=
  notes ← find_notes;
  mret (foldl (fun acc an => TieredCounts.inc an.1 1 acc) ∅ notes).

Definition get_balance (unit : Z) : MC Z :=
  if unit =? BITCOIN then counts ← get_note_counts_by_denomination; mret (TieredCounts.total_amount counts)
  else mret 0.

(** A product that overflows is skipped, a sum that overflows is a panic. *)
Definition estimate_spend_all_fees : MC Z :=
  counts ← get_note_counts_by_denomination;
  fees ← expect (mapM (fun ac => pair ac <$> Fee.fee fee_consensus ac.1) (btree_iter counts));
  expect (foldl (fun acc fee => a ← acc; checked_add a fee) (Some 0)
    (omap (fun acf => if acf.2 <? acf.1.1 then checked_mul acf.2 acf.1.2 else None) fees)).

(** One note of the stream; [None] is the panic of [dec]. *)
Definition take_available (acc : option (TieredMulti.t UN * TieredCounts.t)) (an : Z * UN)
    : option (TieredMulti.t UN * TieredCounts.t) :=
  nc ← acc;
  if 0 <? TieredCounts.get nc.2 an.1
  then counts ← TieredCounts.dec an.1 nc.2; Some (TieredMulti.push an.1 an.2 nc.1, counts)
  else Some nc.

Definition get_available_notes_by_tier_counts (counts : TieredCounts.t) : MC (TieredMulti.t UN * TieredCounts.t) :=
  notes ← find_notes;
  expect (foldl take_available (Some (∅, counts)) notes).

(** ** Spending notes *)

(** [select_notes]: the selected notes, decoded. *)
Definition decode_note (an : Z * UN) : option (Z * SN) := pair an.1 <$> decode an.2.
Definition decode_notes (l : list (Z * UN)) : option (list (Z * SN)) := mapM decode_note l.

Definition select_notes (select : list (Z * UN) -> Z -> outcome SelectNotesError (TieredMulti.t UN)) (requested : Z)
    : M MintClientDb SelectNotesError (TieredMulti.t SN) := fun s =>
  match select (reverse (notes_ascending (client_notes s))) requested with
  | Ok notes =>
      match decode_notes (TieredMulti.iter_items notes) with
      | Some l => (Ok (TieredMulti.from_iter l), s)
      | None => (Err DecodeError, s)
      end
  | Err e => (Err e, s)
  | Panic => (Panic, s)
  end.

Definition delete_spendable_note {E} (amount : Z) (note : SN) : M MintClientDb E unit :=
  _ ← log_note_spent (nonce_of note);
  prev ← remove_entry NoteKey (amount, nonce_of note);
  _ ← expect prev;
  mret tt.

Record ClientInput := { ci_amount : Z; ci_note : SN; ci_amounts : Amounts.t }.

(** [create_input_from_notes] over the notes with their index. *)
Fixpoint inputs_from (index : Z) (l : list (Z * SN)) : list ClientInput + ValidateNotesError :=
  match l with
  | [] => inl []
  | (amount, note) :: l =>
      match tbs_pks !! amount with
      | None => inr (InvalidAmountTier index amount)
      | Some key =>
          if verify note key then
            match inputs_from (index + 1) l with
            | inl inputs => inl ({| ci_amount := amount; ci_note := note; ci_amounts := Amounts.new_bitcoin amount |} :: inputs)
            | inr e => inr e
            end
          else inr (NoteInvalidSignature index)
      end
  end.

Definition create_input_from_notes (notes : TieredMulti.t SN) : list ClientInput + ValidateNotesError :=
  inputs_from 0 (TieredMulti.iter_items notes).

Definition or_validate {A} (r : A + ValidateNotesError) : MC A :=
  match r with inl a => mret a | inr e => throw (ClientValidate e) end.

(** [map_err] of [create_sufficient_input]. *)
Definition sufficient_error (e : SelectNotesError) : ClientModuleError :=
  match e with InsufficientBalance e => ClientInsufficientBalance e | e => ClientSelect e end.

Definition create_sufficient_input (min_amount : Z) : MC (list ClientInput) :=
  if min_amount =? 0 then mret [] else
  selected ← map_err sufficient_error (select_notes (select_at_least fee_consensus) min_amount);
  _ ← for_each (TieredMulti.iter_items selected) (fun an => delete_spendable_note an.1 an.2);
  inputs ← or_validate (create_input_from_notes selected);
  _ ← rassert (negb (length inputs =? 0)%nat);
  mret inputs.

(** ** Notes that are handed out *)

Inductive SpendOOBError := ZeroAmount | NoteSelectionError (e : SelectNotesError).

(** The state machine that takes the notes back after a timeout. *)
Record OOBStateMachine := { oob_operation_id : Z; oob_notes : list (Z * SN); oob_timeout : Z }.

(** [spendable_notes_to_operation_id] is a hash; [now] is the clock. *)
Definition spend_notes_oob (operation_id_of : TieredMulti.t SN -> Z) (now OOB_SPEND_NO_TIMEOUT : Z)
    (select : list (Z * UN) -> Z -> outcome SelectNotesError (TieredMulti.t UN)) (amount : Z) (try_cancel_after : option Z)
    : M MintClientDb SpendOOBError (Z * list OOBStateMachine * TieredMulti.t SN) :=
  if amount =? 0 then throw ZeroAmount else
  selected ← map_err NoteSelectionError (select_notes select amount);
  let operation_id := operation_id_of selected in
  _ ← for_each (TieredMulti.iter_items selected) (fun an => delete_spendable_note an.1 an.2);
  let try_cancel_after := default OOB_SPEND_NO_TIMEOUT try_cancel_after in
  let state_machines :=
    if try_cancel_after =? OOB_SPEND_NO_TIMEOUT then []
    else [{| oob_operation_id := operation_id; oob_notes := TieredMulti.iter_items selected;
             oob_timeout := now + try_cancel_after |}] in
  mret (operation_id, state_machines, selected).

(** ** Consolidation *)

Definition MAX_NOTES_PER_TIER_TRIGGER : Z := 8.
Definition MIN_NOTES_PER_TIER : Z := 4.
Definition MAX_NOTES_TO_CONSOLIDATE_IN_TX : Z := 20.

(** The counts above the minimum, while the transaction has room. *)
Fixpoint excessive_counts (max_count : Z) (counts : list (Z * Z)) : list (Z * Z) :=
  match counts with
  | [] => []
  | (amount, count) :: counts =>
      let take := Z.min (saturating_sub count MIN_NOTES_PER_TIER) max_count in
      (amount, take) :: excessive_counts (max_count - take) counts
  end.

(** Each note is decoded and removed in turn. *)
Fixpoint consume_notes (l : list (Z * UN)) : MC (list (Z * SN)) :=
  match l with
  | [] => mret []
  | (amount, note) :: l =>
      match decode note with
      | None => throw (ClientValidate NoteUndecodable)
      | Some note =>
          _ ← delete_spendable_note amount note;
          rest ← consume_notes l;
          mret ((amount, note) :: rest)
      end
  end.

Definition consolidate_notes : MC (list ClientInput) :=
  counts ← get_note_counts_by_denomination;
  if existsb (fun ac => MAX_NOTES_PER_TIER_TRIGGER <? ac.2) (btree_iter counts) then
    available ← get_available_notes_by_tier_counts
      (TieredCounts.from_iter (excessive_counts MAX_NOTES_TO_CONSOLIDATE_IN_TX (btree_iter counts)));
    _ ← rassert (TieredCounts.is_empty available.2);
    selected ← consume_notes (TieredMulti.iter_items available.1);
    or_validate (create_input_from_notes (TieredMulti.from_iter selected))
  else mret [].

(** ** Issuing notes *)

Definition get_next_note_index (amount : Z) : MC Z :=
  idx ← get_value NextECashNoteIndexKey amount;
  mret (default 0 idx).

(** [new_note_secret] and [new_ecash_note]: the index is used up. *)
Definition new_ecash_note (amount : Z) : MC (Z * (Req * Z)) :=
  new_idx ← get_next_note_index amount;
  _ ← insert_entry NextECashNoteIndexKey amount (wrap_u64 (new_idx + 1));
  mret (new_idx, issuance_request amount new_idx).

Record ClientOutput := { co_amount : Z; co_index : Z; co_request : Req; co_blind_nonce : Z; co_amounts : Amounts.t }.

Fixpoint new_outputs (amount : Z) (num : nat) : MC (list ClientOutput) :=
  match num with
  | O => mret []
  | S num =>
      r ← new_ecash_note amount;
      rest ← new_outputs amount num;
      mret ({| co_amount := amount; co_index := r.1; co_request := r.2.1; co_blind_nonce := r.2.2;
               co_amounts := Amounts.new_bitcoin amount |} :: rest)
  end.

Fixpoint create_output_for_denominations (denominations : list (Z * Z)) : MC (list ClientOutput) :=
  match denominations with
  | [] => mret []
  | (amount, num) :: denominations =>
      outputs ← new_outputs amount (Z.to_nat num);
      rest ← create_output_for_denominations denominations;
      mret (outputs ++ rest)
  end.

(** The tiers of the configuration, in order. *)
Definition tiers : list Z := (btree_iter tbs_pks).*1.

Definition create_output (notes_per_denomination exact_amount : Z) : MC (list ClientOutput) :=
  if exact_amount =? 0 then mret [] else
  counts ← get_note_counts_by_denomination;
  denominations ← expect (represent_amount fee_consensus exact_amount counts tiers notes_per_denomination);
  create_output_for_denominations (btree_iter denominations).

(** [represent_exact_amount] and [create_exact_output]. *)
Definition represent_exact_amount (amount : Z) : option TieredCounts.t := represent_amount Fee.zero amount ∅ tiers 0.
Definition create_exact_output (amount : Z) : MC (list ClientOutput) :=
  if amount =? 0 then mret [] else
  denominations ← expect (represent_exact_amount amount);
  create_output_for_denominations (btree_iter denominations).

(** ** Balancing a transaction *)

Definition fee_expect (amount : Z) : MC Z := expect (Fee.fee fee_consensus amount).

Fixpoint fees_of (inputs : list ClientInput) : MC (list Z) :=
  match inputs with
  | [] => mret []
  | i :: inputs => fee ← fee_expect (Amounts.get_bitcoin (ci_amounts i)); rest ← fees_of inputs; mret (fee :: rest)
  end.

Definition inputs_amount (inputs : list ClientInput) : Z :=
  Amount.sum ((fun i => Amounts.get_bitcoin (ci_amounts i)) <$> inputs).

Definition create_final_inputs_and_outputs (unit input_amount output_amount : Z) : MC (list ClientInput * list ClientOutput) :=
  consolidation_inputs ← consolidate_notes;
  _ ← ensure (unit =? BITCOIN) ClientOnlyBitcoin;
  let input_amount := Amount.add input_amount (inputs_amount consolidation_inputs) in
  fees ← fees_of consolidation_inputs;
  let output_amount := Amount.add output_amount (Amount.sum fees) in
  additional_inputs ← create_sufficient_input (saturating_sub output_amount input_amount);
  let input_amount := Amount.add input_amount (inputs_amount additional_inputs) in
  fees ← fees_of additional_inputs;
  let output_amount := Amount.add output_amount (Amount.sum fees) in
  outputs ← create_output 2 (saturating_sub input_amount output_amount);
  mret (consolidation_inputs ++ additional_inputs, outputs).

(** ** What the wallet holds *)

Hypothesis fee_wf : Fee.wf fee_consensus.

Definition held (m : gmap (Z * Z) UN) : list (Z * SN) := omap decode_note (notes_ascending m).

(** A note of the wallet is genuine and stored under its own key. *)
Definition genuine (an : Z * SN) : Prop :=
  tier_ok an.1 /\ exists key, tbs_pks !! an.1 = Some key /\ verify an.2 key = true.
Definition note_ok (k : Z * Z) (un : UN) : Prop :=
  exists sn, decode un = Some sn /\ nonce_of sn = k.2 /\ genuine (k.1, sn).
Definition notes_ok (m : gmap (Z * Z) UN) : Prop := map_Forall note_ok m.

Lemma notes_ascending_perm m : notes_ascending m ≡ₚ (fun kv => (kv.1.1, kv.2)) <$> map_to_list m.
Proof. unfold notes_ascending. by rewrite merge_sort_Permutation. Qed.

#[local] Instance note_key_le_trans : Transitive note_key_le.
Proof. intros x y z. unfold note_key_le. lia. Qed.
#[local] Instance note_key_le_total : Total note_key_le.
Proof. intros x y. unfold note_key_le. lia. Qed.

Lemma notes_descending m : descending (reverse (notes_ascending m)).
Proof.
  apply (StronglySorted_reverse (fun x y => x.1 <= y.1)). unfold notes_ascending.
  apply (StronglySorted_map note_key_le); [|by apply StronglySorted_merge_sort; apply _].
  intros x y. unfold note_key_le. simpl. lia.
Qed.

(** Decoding the notes of the wallet, in their order, loses none of them. *)
Lemma decode_all m : notes_ok m -> Forall2 (fun an dn => decode_note an = Some dn) (notes_ascending m) (held m).
Proof.
  intros Hok. unfold held.
  assert (Hall : Forall (fun an => is_Some (decode_note an)) (notes_ascending m)).
  { rewrite notes_ascending_perm. apply Forall_fmap, Forall_forall. intros [[a n] un] Hin%elem_of_map_to_list.
    destruct (Hok _ _ Hin) as (sn & Hd & _). unfold decode_note. simpl. rewrite Hd. by eexists. }
  induction Hall as [|an l [dn Hdn] _ IH]; [constructor|]. simpl. rewrite Hdn. by constructor.
Qed.

Lemma held_amounts m : notes_ok m -> (held m).*1 = (notes_ascending m).*1.
Proof.
  intros Hok. symmetry. pose proof (decode_all m Hok) as Hf. induction Hf as [|[a un] [b sn] l k Hd _ IH]; [done|].
  rewrite !fmap_cons, IH. unfold decode_note in Hd. simpl in *. by destruct (decode un); simplify_eq/=.
Qed.

(** A selection of the notes is decoded to a selection of what is held. *)
Lemma decode_sub (l : list (Z * UN)) m :
  notes_ok m -> l ⊆+ notes_ascending m -> exists l', decode_notes l = Some l' /\ l' ⊆+ held m /\ l'.*1 = l.*1.
Proof.
  intros Hok [k Hk]%submseteq_Permutation. exists (omap decode_note l).
  assert (Hall : Forall (fun an => is_Some (decode_note an)) (notes_ascending m)).
  { eapply Forall2_Forall_l; [apply decode_all, Hok|]. apply Forall_true. by eauto. }
  rewrite Hk, Forall_app in Hall. destruct Hall as [Hall _]. split_and!.
  - clear Hk. apply mapM_Some. induction Hall as [|an l [dn Hdn] _ IH]; [constructor|]. simpl. rewrite Hdn. by constructor.
  - unfold held. rewrite Hk. rewrite omap_app. apply submseteq_inserts_r. done.
  - clear Hk. induction Hall as [|[a un] l [dn Hdn] _ IH]; [done|]. cbn [omap list_omap]. rewrite Hdn, !fmap_cons, IH.
    unfold decode_note in Hdn. simpl in Hdn. destruct (decode un); by simplify_eq/=.
Qed.

Lemma elem_of_held m a sn :
  notes_ok m -> (a, sn) ∈ held m -> exists un, m !! (a, nonce_of sn) = Some un /\ decode un = Some sn /\ genuine (a, sn).
Proof.
  intros Hok (x & Hx & Hd)%list_elem_of_omap. rewrite notes_ascending_perm in Hx.
  apply list_elem_of_fmap in Hx as ([[a' n] un] & -> & Hin%elem_of_map_to_list). unfold decode_note in Hd. simpl in Hd.
  destruct (Hok _ _ Hin) as (sn' & Hs & Hn & Hg). simpl in *. rewrite Hs in Hd. simplify_eq/=. by exists un.
Qed.

Lemma held_genuine m : notes_ok m -> Forall genuine (held m).
Proof. intros Hok. apply Forall_forall. intros [a sn] Hin. by destruct (elem_of_held m a sn Hok Hin) as (un & _ & _ & Hg). Qed.

Lemma held_delete m a sn :
  notes_ok m -> (a, sn) ∈ held m -> held m ≡ₚ (a, sn) :: held (delete (a, nonce_of sn) m).
Proof.
  intros Hok Hin. destruct (elem_of_held m a sn Hok Hin) as (un & Hm & Hd & _). unfold held.
  rewrite !notes_ascending_perm. rewrite <- (insert_delete_id m _ un Hm) at 1.
  rewrite map_to_list_insert by apply lookup_delete_eq. rewrite fmap_cons. simpl. unfold decode_note at 1. simpl. by rewrite Hd.
Qed.

(** *** Spending what is held *)

(** The notes [l] have left the wallet, and nothing else has changed in it. *)
Record spent (s : MintClientDb) (l : list (Z * SN)) (s' : MintClientDb) : Prop := {
  spent_held : held (client_notes s) ≡ₚ held (client_notes s') ++ l;
  spent_ok : notes_ok (client_notes s');
  spent_index : next_note_index s' = next_note_index s;
}.

Lemma spent_nil s : notes_ok (client_notes s) -> spent s [] s.
Proof. intros Hok. split; [by rewrite app_nil_r|done|done]. Qed.

Lemma spent_app s l s1 l' s' : spent s l s1 -> spent s1 l' s' -> spent s (l ++ l') s'.
Proof.
  intros [H1 _ Hi1] [H2 Hok Hi2]. split; [|done|by rewrite Hi2].
  rewrite H1, H2, <- (assoc_L (++)). apply Permutation_app; [done|apply Permutation_app_comm].
Qed.

Lemma spent_perm s l l' s' : l ≡ₚ l' -> spent s l s' -> spent s l' s'.
Proof. intros Hp [H1 Hok Hi]. split; [by rewrite <- Hp|done|done]. Qed.

Lemma delete_held {E} s a sn :
  notes_ok (client_notes s) -> (a, sn) ∈ held (client_notes s) ->
  exists s', delete_spendable_note (E := E) a sn s = (Ok tt, s') /\ spent s [(a, sn)] s'.
Proof.
  intros Hok Hin. destruct (elem_of_held _ _ _ Hok Hin) as (un & Hm & Hd & _).
  unfold delete_spendable_note, log_note_spent, modify, remove_entry, expect, mbind, M_bind. simpl. rewrite Hm. simpl.
  eexists. split; [reflexivity|]. split; simpl; [|by apply map_Forall_delete|done].
  rewrite (held_delete _ _ _ Hok Hin). by rewrite Permutation_app_comm.
Qed.

Lemma spent_sub s a sn s' l :
  spent s [(a, sn)] s' -> (a, sn) :: l ⊆+ held (client_notes s) -> l ⊆+ held (client_notes s').
Proof.
  intros [Hh _ _] Hsub. rewrite Hh, Permutation_app_comm in Hsub. by apply (submseteq_app_inv_l _ _ [(a, sn)]).
Qed.

Lemma delete_all_held {E} s l :
  notes_ok (client_notes s) -> l ⊆+ held (client_notes s) ->
  exists s', for_each l (fun an => delete_spendable_note (E := E) an.1 an.2) s = (Ok tt, s') /\ spent s l s'.
Proof.
  revert s. induction l as [|[a sn] l IH]; intros s Hok Hsub; [exists s; split; [done|by apply spent_nil]|].
  destruct (delete_held (E := E) s a sn Hok) as (s1 & Hd & Hs1).
  { eapply elem_of_submseteq; [|done]. by left. }
  destruct (IH s1) as (s' & Hf & Hs'); [apply Hs1|by eapply spent_sub|].
  exists s'. split; [|by apply (spent_app s [(a, sn)] s1 l s')].
  cbn [for_each]. unfold mbind, M_bind. cbn [fst snd]. by rewrite Hd.
Qed.

Lemma consume_held s (l : list (Z * UN)) l' :
  decode_notes l = Some l' -> notes_ok (client_notes s) -> l' ⊆+ held (client_notes s) ->
  exists s', consume_notes l s = (Ok l', s') /\ spent s l' s'.
Proof.
  intros Hd%mapM_Some. revert s. induction Hd as [|[a un] [b sn] l l' Hx _ IH]; intros s Hok Hsub;
    [exists s; split; [done|by apply spent_nil]|].
  unfold decode_note in Hx. simpl in Hx. destruct (decode un) as [sn'|] eqn:Hun; simplify_eq/=.
  destruct (delete_held (E := ClientModuleError) s b sn Hok) as (s1 & Hd & Hs1).
  { eapply elem_of_submseteq; [|done]. by left. }
  destruct (IH s1) as (s' & Hf & Hs'); [apply Hs1|by eapply spent_sub|].
  exists s'. split; [|by apply (spent_app s [(b, sn)] s1 l' s')].
  rewrite Hun. unfold mbind, M_bind. by rewrite Hd, Hf.
Qed.

(** *** Inputs *)

Definition input_of (an : Z * SN) : ClientInput :=
  {| ci_amount := an.1; ci_note := an.2; ci_amounts := Amounts.new_bitcoin an.1 |}.

Lemma inputs_from_genuine i l : Forall genuine l -> inputs_from i l = inl (input_of <$> l).
Proof.
  intros Hg. revert i. induction Hg as [|[a sn] l [_ (key & Hk & Hv)] _ IH]; intros i; [done|].
  simpl in *. by rewrite Hk, Hv, IH.
Qed.

Lemma create_input_held (m : gmap (Z * Z) UN) l :
  notes_ok m -> l ⊆+ held m ->
  exists l', create_input_from_notes (TieredMulti.from_iter l) = inl (input_of <$> l') /\ l' ≡ₚ l.
Proof.
  intros Hok Hsub. pose proof (TieredMulti.iter_items_from_iter l) as Hp.
  exists (TieredMulti.iter_items (TieredMulti.from_iter l)). split; [|done].
  apply inputs_from_genuine. rewrite Hp. apply Forall_forall. intros x Hx.
  apply (proj1 (Forall_forall _ _) (held_genuine m Hok)). by eapply elem_of_submseteq.
Qed.

(** *** Consolidation *)

(** No client holds more than there are bitcoins: 21 million are less than [2^61] millisatoshis. *)
Definition max_funds : Z := 2 ^ 61.
Definition funds_ok (m : gmap (Z * Z) UN) : Prop := notes_ok m /\ TieredMulti.value (held m) <= max_funds.

Lemma genuine_length l : Forall genuine l -> Z.of_nat (length l) <= TieredMulti.value l.
Proof.
  induction 1 as [|[a sn] l [Ht _] _ IH]; [done|]. rewrite TieredMulti.value_cons. unfold tier_ok in Ht. simpl in *. lia.
Qed.

Lemma funds_length m : funds_ok m -> Z.of_nat (length (notes_ascending m)) <= max_funds.
Proof.
  intros [Hok Hv]. pose proof (genuine_length _ (held_genuine m Hok)).
  rewrite <- (Forall2_length _ _ _ (decode_all m Hok)) in *. lia.
Qed.

Lemma note_counts s :
  funds_ok (client_notes s) ->
  exists counts, get_note_counts_by_denomination s = (Ok counts, s) /\ TieredCounts.wf counts /\
    forall tier, TieredCounts.get counts tier = TieredCounts.occurrences (notes_ascending (client_notes s)).*1 tier.
Proof.
  intros Hf. set (m := client_notes s) in *. eexists. split; [reflexivity|]. fold m.
  rewrite <- (foldl_fmap (fun acc a => TieredCounts.inc a 1 acc) _ _ fst).
  destruct (TieredCounts.inc_all (notes_ascending m).*1 ∅) as [Hwf Hget]; [apply map_Forall_empty|..].
  - intros tier. pose proof (TieredCounts.occurrences_length (notes_ascending m).*1 tier). pose proof (funds_length m Hf).
    rewrite length_fmap in *. unfold TieredCounts.get. rewrite lookup_empty. unfold max_funds, u64_max in *. simpl. lia.
  - split; [done|]. intros tier. rewrite Hget. unfold TieredCounts.get. by rewrite lookup_empty.
Qed.

Lemma counts_sum s counts (g : Z -> Z) :
  funds_ok (client_notes s) -> get_note_counts_by_denomination s = (Ok counts, s) ->
  sum_list ((fun ac => g ac.1 * ac.2) <$> btree_iter counts) = sum_list (g <$> (held (client_notes s)).*1).
Proof.
  intros Hf Hc. set (m := client_notes s) in *. rewrite (held_amounts m (proj1 Hf)).
  transitivity (sum_map (fun k c => g k * c) counts); [unfold sum_map; apply sum_list_perm; by rewrite btree_iter_perm|].
  injection Hc as <-. fold m. rewrite <- (foldl_fmap (fun acc a => TieredCounts.inc a 1 acc) _ _ fst).
  rewrite TieredCounts.inc_all_sum; [by rewrite sum_map_empty|apply map_Forall_empty|].
  intros tier. pose proof (TieredCounts.occurrences_length (notes_ascending m).*1 tier). pose proof (funds_length m Hf).
  rewrite length_fmap in *. unfold TieredCounts.get. rewrite lookup_empty. unfold max_funds, u64_max in *. simpl. lia.
Qed.

Lemma counts_tiers s counts :
  funds_ok (client_notes s) -> get_note_counts_by_denomination s = (Ok counts, s) ->
  Forall (fun ac => tier_ok ac.1 /\ 0 < ac.2) (btree_iter counts).
Proof.
  intros Hf Hc. apply Forall_forall. intros [tier n] Hin%elem_of_btree_iter. cbn [fst snd].
  destruct (note_counts s Hf) as (counts' & Hc' & Hwf & Hget). rewrite Hc in Hc'. simplify_eq.
  pose proof (Hwf _ _ Hin) as Hn. simpl in Hn. split; [|done]. specialize (Hget tier). unfold TieredCounts.get in Hget. rewrite Hin in Hget.
  simpl in Hget. unfold TieredCounts.occurrences in Hget.
  destruct (filter (fun a => a = tier) (notes_ascending (client_notes s)).*1) as [|x l] eqn:Hfl; [simpl in Hget; lia|].
  assert (Hx : x ∈ filter (fun a => a = tier) (notes_ascending (client_notes s)).*1) by (rewrite Hfl; by left).
  apply list_elem_of_filter in Hx as [-> Hx]. rewrite <- (held_amounts _ (proj1 Hf)) in Hx.
  apply list_elem_of_fmap in Hx as ([a sn] & -> & Hx). by apply (proj1 (Forall_forall _ _) (held_genuine _ (proj1 Hf))) in Hx as [? _].
Qed.

(** The balance is what the held notes add up to. *)
Lemma get_balance_held s :
  funds_ok (client_notes s) -> get_balance BITCOIN s = (Ok (TieredMulti.value (held (client_notes s))), s).
Proof.
  intros Hf. destruct (note_counts s Hf) as (counts & Hc & _). unfold get_balance. rewrite Z.eqb_refl, (run_bind _ _ _ _ _ Hc).
  unfold mret, M_ret. do 2 f_equal. pose proof (counts_sum s counts (fun a => a) Hf Hc) as Hsum. rewrite list_fmap_id in Hsum.
  fold (TieredMulti.value (held (client_notes s))) in Hsum. pose proof (proj2 Hf) as Hmax. rewrite <- Hsum in Hmax |- *.
  unfold TieredCounts.total_amount. apply (Amount.sum_wrapped (fun ac => ac.1 * ac.2)); [|unfold max_funds, u64_max in *; lia].
  eapply Forall_impl; [exact (counts_tiers s counts Hf Hc)|]. intros [a n] [Ht Hn]. unfold tier_ok in Ht. simpl in *. nia.
Qed.

Lemma checked_sum (l : list Z) acc :
  Forall (fun x => 0 <= x) l -> 0 <= acc -> acc + sum_list l <= u64_max ->
  foldl (fun acc fee => a ← acc; checked_add a fee) (Some acc) l = Some (acc + sum_list l).
Proof.
  intros Hl. revert acc. induction Hl as [|x l Hx Hl IH]; intros acc Ha Hb; [cbn; f_equal; lia|].
  rewrite sum_list_cons in *. cbn [foldl mbind option_bind].
  assert (0 <= sum_list l) by (clear -Hl; induction Hl as [|y l Hy _ IH]; [done|]; rewrite sum_list_cons; lia).
  assert (Hc : checked_add acc x = Some (acc + x)) by (apply checked_add_Some; lia). rewrite Hc, IH by lia. f_equal. lia.
Qed.

Lemma excessive_counts_spec max_count counts :
  0 <= max_count -> Forall (fun ac => 0 < ac.2) counts ->
  (excessive_counts max_count counts).*1 = counts.*1 /\
  Forall2 (fun e c => 0 <= e.2 <= c.2) (excessive_counts max_count counts) counts /\
  sum_list (excessive_counts max_count counts).*2 <= max_count.
Proof.
  intros Hmax Hpos. revert max_count Hmax. induction Hpos as [|[a c] l Hc _ IH]; intros max_count Hmax; [by split_and!|].
  cbn [excessive_counts]. set (take := Z.min _ _). cbn [snd] in Hc.
  assert (Ht : 0 <= take <= max_count /\ take <= c) by (unfold take, saturating_sub, MIN_NOTES_PER_TIER; lia).
  destruct (IH (max_count - take)) as (H1 & H2 & H3); [lia|]. rewrite !fmap_cons, sum_list_cons. cbn [fst snd].
  split_and!; [by rewrite H1|constructor; [simpl; lia|done]|lia].
Qed.

(** Taking notes while their count lasts. *)
Lemma take_available_spec (L : list (Z * UN)) notes counts :
  TieredCounts.wf counts ->
  exists notes' counts' l, foldl take_available (Some (notes, counts)) L = Some (notes', counts') /\
    TieredCounts.wf counts' /\ l ⊆+ L /\ TieredMulti.items notes' ≡ₚ TieredMulti.items notes ++ l /\
    Z.of_nat (length l) + TieredCounts.total counts' = TieredCounts.total counts /\
    forall tier, TieredCounts.get counts' tier = Z.max 0 (TieredCounts.get counts tier - TieredCounts.occurrences L.*1 tier).
Proof.
  revert notes counts. induction L as [|[a un] L IH]; intros notes counts Hwf.
  - exists notes, counts, []. split_and!; [done|done|done|by rewrite app_nil_r|done|].
    intros tier. pose proof (TieredCounts.get_wf _ tier Hwf). unfold TieredCounts.occurrences. simpl. lia.
  - cbn [foldl]. unfold take_available at 2. cbn [mbind option_bind fst snd]. destruct (Z.ltb_spec 0 (TieredCounts.get counts a)) as [Hpos|Hz].
    + destruct (TieredCounts.dec_spec _ _ Hwf Hpos) as (counts1 & -> & Hwf1 & Htot & Hget). cbn [mbind option_bind].
      destruct (IH (TieredMulti.push a un notes) counts1 Hwf1) as (notes' & counts' & l & -> & Hwf' & Hsub & Hitems & Hlen & Hget').
      exists notes', counts', ((a, un) :: l). split_and!; [done|done|by apply submseteq_skip| |simpl; lia|].
      * rewrite Hitems, TieredMulti.items_push. simpl. by rewrite <- Permutation_middle.
      * intros tier. rewrite Hget', Hget, fmap_cons, TieredCounts.occurrences_cons. cbn [fst]. lia.
    + destruct (IH notes counts Hwf) as (notes' & counts' & l & -> & Hwf' & Hsub & Hitems & Hlen & Hget').
      exists notes', counts', l. split_and!; [done|done|by apply submseteq_cons|done|done|].
      intros tier. rewrite Hget', fmap_cons, TieredCounts.occurrences_cons. cbn [fst].
      pose proof (TieredCounts.occurrences_length L.*1 tier). pose proof (TieredCounts.get_wf _ tier Hwf). case_decide; subst; lia.
Qed.

(** The notes that are taken are there, so none of the counts is left over. *)
Lemma take_excessive m counts :
  funds_ok m -> TieredCounts.wf counts ->
  (forall tier, TieredCounts.get counts tier = TieredCounts.occurrences (notes_ascending m).*1 tier) ->
  exists notes l, foldl take_available
      (Some (∅, TieredCounts.from_iter (excessive_counts MAX_NOTES_TO_CONSOLIDATE_IN_TX (btree_iter counts)))) (notes_ascending m)
      = Some (notes, ∅) /\ TieredMulti.iter_items notes ≡ₚ l /\ l ⊆+ notes_ascending m /\ Z.of_nat (length l) <= 20.
Proof.
  intros Hf Hwf Hget. set (ex := excessive_counts _ _).
  destruct (excessive_counts_spec MAX_NOTES_TO_CONSOLIDATE_IN_TX (btree_iter counts)) as (H1 & H2 & H3).
  { unfold MAX_NOTES_TO_CONSOLIDATE_IN_TX. lia. }
  { apply Forall_forall. intros [a c] Hin%elem_of_btree_iter. by apply Hwf in Hin. }
  fold ex in H1, H2, H3. destruct (TieredCounts.from_iter_spec ex) as (Hwf' & Htot & Hin).
  { rewrite H1. apply NoDup_btree_iter. }
  { eapply Forall2_Forall_l; [exact H2|]. apply Forall_true. intros ? ? [? _]. done. }
  destruct (take_available_spec (notes_ascending m) ∅ (TieredCounts.from_iter ex) Hwf')
    as (notes & counts' & l & -> & Hwf'' & Hsub & Hitems & Hlen & Hget').
  assert (counts' = ∅) as ->.
  { apply TieredCounts.wf_empty_get; [done|]. intros tier. rewrite Hget', <- Hget.
    assert (TieredCounts.get (TieredCounts.from_iter ex) tier <= TieredCounts.get counts tier); [|lia].
    pose proof (TieredCounts.get_wf counts tier Hwf). unfold TieredCounts.get at 1.
    destruct (TieredCounts.from_iter ex !! tier) as [e|] eqn:He; simpl; [|lia]. apply Hin in He.
    apply list_elem_of_lookup in He as [i Hi]. destruct (Forall2_lookup_l _ _ _ _ _ H2 Hi) as ([a c] & Hc & Hle).
    assert (Ha : a = tier).
    { apply (f_equal (.!! i)) in H1. rewrite !list_lookup_fmap, Hi, Hc in H1. by simplify_eq/=. }
    subst a. apply list_elem_of_lookup_2, elem_of_btree_iter in Hc. unfold TieredCounts.get. rewrite Hc. simpl in *. lia. }
  exists notes, l. unfold MAX_NOTES_TO_CONSOLIDATE_IN_TX in H3. unfold TieredCounts.total at 1 in Hlen.
  rewrite sum_map_empty in Hlen. split_and!; [done| |done|lia].
  rewrite TieredMulti.iter_items_perm, Hitems. unfold TieredMulti.items at 1. by rewrite map_to_list_empty.
Qed.

Lemma consolidate_spec s :
  funds_ok (client_notes s) ->
  exists c s', consolidate_notes s = (Ok (input_of <$> c), s') /\ spent s c s' /\ Z.of_nat (length c) <= 20.
Proof.
  intros Hf. pose proof Hf as [Hok _]. destruct (note_counts s Hf) as (counts & Hc & Hwf & Hget).
  unfold consolidate_notes. rewrite (run_bind _ _ _ _ _ Hc).
  destruct (existsb _ _); [|exists [], s; split_and!; [done|by apply spent_nil|simpl; lia]].
  destruct (take_excessive _ _ Hf Hwf Hget) as (notes & l & Ht & Hp & Hsub & Hlen).
  rewrite (run_bind _ _ s (notes, ∅) s)
    by (unfold get_available_notes_by_tier_counts, find_notes, gets, mbind, M_bind; by rewrite Ht).
  rewrite (run_bind _ _ s tt s) by done. cbn [fst].
  destruct (decode_sub (TieredMulti.iter_items notes) _ Hok) as (l' & Hd & Hsub' & Hfst); [by rewrite Hp|].
  destruct (consume_held s _ _ Hd Hok Hsub') as (s' & Hcons & Hs'). rewrite (run_bind _ _ _ _ _ Hcons).
  destruct (create_input_held _ _ Hok Hsub') as (c & -> & Hperm). exists c, s'. split; [done|].
  split; [by eapply spent_perm|]. apply (f_equal length) in Hfst. rewrite !length_fmap in Hfst.
  rewrite Hperm, Hfst, Hp. done.
Qed.

(** *** Selecting inputs *)

Lemma funds_stream m : funds_ok m -> stream_wf (reverse (notes_ascending m)).
Proof.
  intros [Hok Hv]. pose proof (held_amounts m Hok) as Hfst. pose proof (held_genuine m Hok) as Hg. split.
  - apply Forall_reverse. rewrite <- (Forall_fmap fst (fun a => is_u64 a)), <- Hfst. apply Forall_fmap. eapply Forall_impl; [exact Hg|].
    intros [a sn] [Ht _]. unfold tier_ok, is_u64, u64_max in *. simpl in *. lia.
  - unfold TieredMulti.value in *. rewrite (sum_list_perm _ (notes_ascending m).*1) by (by rewrite reverse_Permutation).
    rewrite <- Hfst. unfold max_funds, u64_max in *. lia.
Qed.

Lemma spendable_held m :
  notes_ok m -> spendable fee_consensus (reverse (notes_ascending m)) = spendable fee_consensus (held m).
Proof. intros Hok. apply spendable_amounts. by rewrite reverse_Permutation, (held_amounts m Hok). Qed.

(** Selecting at least an amount: the notes are held, or what is held does not suffice. *)
Lemma select_held s min_amount :
  funds_ok (client_notes s) -> 0 < min_amount <= 2 ^ 63 ->
  (exists l, select_notes (select_at_least fee_consensus) min_amount s = (Ok (TieredMulti.from_iter l), s) /\
     l ⊆+ held (client_notes s) /\ Forall (economical fee_consensus) l /\ min_amount <= net_value fee_consensus l) \/
  (select_notes (select_at_least fee_consensus) min_amount s
     = (Err (InsufficientBalance {| requested_amount := min_amount; balance_amount := spendable fee_consensus (held (client_notes s)) |}), s) /\
   spendable fee_consensus (held (client_notes s)) < min_amount).
Proof using fee_wf.
  intros Hf Hmin. pose proof Hf as [Hok _]. set (m := client_notes s) in *.
  pose proof (select_notes_result fee_consensus fee_wf min_amount _ Hmin (funds_stream m Hf) (notes_descending m)) as Hres.
  unfold select_notes, select_at_least. fold m.
  destruct (select_notes_from_stream _ _ _) as [notes|e|]; simpl in Hres; [left|right|done].
  - destruct Hres as (selected & -> & Hsub & He & Hnet). pose proof (TieredMulti.iter_items_from_iter selected) as Hp.
    destruct (decode_sub (TieredMulti.iter_items (TieredMulti.from_iter selected)) m Hok) as (l & -> & Hl & Hfst).
    { rewrite Hp, Hsub. by rewrite reverse_Permutation. }
    assert (Hfst' : l.*1 ≡ₚ selected.*1) by (by rewrite Hfst, Hp).
    exists l. split_and!; [done|done| |by rewrite (net_value_amounts _ l selected Hfst')].
    apply (Forall_fmap fst (fun a => 0 < net fee_consensus a)). rewrite Hfst'. by apply Forall_fmap.
  - rewrite spendable_held in Hres by done. by destruct Hres as [-> ?].
Qed.

Lemma create_sufficient_input_spec s min_amount :
  funds_ok (client_notes s) -> 0 <= min_amount <= 2 ^ 63 ->
  (exists l s', create_sufficient_input min_amount s = (Ok (input_of <$> l), s') /\ spent s l s' /\
     Forall (economical fee_consensus) l /\ min_amount <= net_value fee_consensus l) \/
  (exists e s', create_sufficient_input min_amount s = (Err (ClientInsufficientBalance e), s') /\
     requested_amount e = min_amount /\ balance_amount e = spendable fee_consensus (held (client_notes s)) /\
     spendable fee_consensus (held (client_notes s)) < min_amount).
Proof using fee_wf.
  intros Hf Hmin. pose proof Hf as [Hok _]. unfold create_sufficient_input. destruct (Z.eqb_spec min_amount 0) as [->|Hne].
  { left. exists [], s. split_and!; [done|by apply spent_nil|constructor|done]. }
  destruct (select_held s min_amount Hf ltac:(lia)) as [(l & Hsel & Hsub & He & Hnet)|[Hsel Hlt]].
  - left. rewrite (run_bind _ _ s (TieredMulti.from_iter l) s) by (unfold map_err; by rewrite Hsel).
    pose proof (TieredMulti.iter_items_from_iter l) as Hp.
    destruct (delete_all_held (E := ClientModuleError) s (TieredMulti.iter_items (TieredMulti.from_iter l)) Hok) as (s' & Hdel & Hs').
    { by rewrite Hp. }
    rewrite (run_bind _ _ _ _ _ Hdel). destruct (create_input_held _ _ Hok Hsub) as (l' & -> & Hp').
    rewrite (run_bind _ _ s' (input_of <$> l') s') by done. exists l', s'.
    assert (Hl' : l' ≠ []) by (intros ->; apply Permutation_nil_l in Hp' as <-; simpl in Hnet; unfold net_value in Hnet; simpl in Hnet; lia).
    destruct l' as [|x l']; [done|]. split_and!; [done| |by rewrite Hp'|by rewrite (net_value_perm _ _ _ Hp')].
    eapply spent_perm; [|exact Hs']. by rewrite Hp, Hp'.
  - right. eexists _, s. split; [unfold mbind, M_bind, map_err; rewrite Hsel; reflexivity|]. done.
Qed.

(** *** Issuing notes *)

Definition next_index_of (s : MintClientDb) (amount : Z) : Z := default 0 (next_note_index s !! amount).

(** The indices of the notes of an amount, in the order they are issued. *)
Definition indices (amount : Z) (outputs : list ClientOutput) : list Z :=
  co_index <$> filter (fun o => co_amount o = amount) outputs.

(** The outputs take the next indices of each amount in turn. *)
Definition indices_used (s : MintClientDb) (outputs : list ClientOutput) (s' : MintClientDb) : Prop := forall a,
  indices a outputs = seqZ (next_index_of s a) (Z.of_nat (length (indices a outputs))) /\
  next_index_of s' a = next_index_of s a + Z.of_nat (length (indices a outputs)).

Record issued (s : MintClientDb) (outputs : list ClientOutput) (s' : MintClientDb) : Prop := {
  issued_notes : client_notes s' = client_notes s;
  issued_used : indices_used s outputs s';
  issued_outputs : Forall (fun o => co_amounts o = Amounts.new_bitcoin (co_amount o) /\
    (co_request o, co_blind_nonce o) = issuance_request (co_amount o) (co_index o)) outputs;
}.

Lemma issued_nil s : issued s [] s.
Proof. split; [done|intros a; simpl; split; [done|lia]|constructor]. Qed.

Lemma indices_app a o o' : indices a (o ++ o') = indices a o ++ indices a o'.
Proof. unfold indices. by rewrite filter_app, fmap_app. Qed.

Lemma indices_used_app s o s1 o' s' : indices_used s o s1 -> indices_used s1 o' s' -> indices_used s (o ++ o') s'.
Proof.
  intros H1 H2 a. destruct (H1 a) as [Hi1 Hx1], (H2 a) as [Hi2 Hx2]. rewrite indices_app, length_app. split; [|lia].
  rewrite Nat2Z.inj_add, seqZ_app by lia. by rewrite <- Hx1, <- Hi1, <- Hi2.
Qed.

Lemma issued_app s o s1 o' s' : issued s o s1 -> issued s1 o' s' -> issued s (o ++ o') s'.
Proof.
  intros [Hn1 Hi1 Ho1] [Hn2 Hi2 Ho2]. split; [by rewrite Hn2|by eapply indices_used_app|by apply Forall_app].
Qed.

Lemma new_outputs_spec amount num s :
  0 <= next_index_of s amount -> next_index_of s amount + Z.of_nat num <= u64_max ->
  exists outputs s', new_outputs amount num s = (Ok outputs, s') /\ issued s outputs s' /\ co_amount <$> outputs = replicate num amount.
Proof.
  revert s. induction num as [|num IH]; intros s H0 Hb; [exists [], s; split_and!; [done|apply issued_nil|done]|].
  set (i := next_index_of s amount) in *.
  set (s1 := {| client_notes := client_notes s; next_note_index := <[amount := wrap_u64 (i + 1)]> (next_note_index s); event_log := event_log s |}).
  assert (Hs1 : forall a, next_index_of s1 a = next_index_of s a + (if decide (amount = a) then 1 else 0)).
  { intros a. unfold next_index_of, s1. cbn [next_note_index]. rewrite lookup_insert. case_decide; [subst a|lia].
    rewrite wrap_u64_small by (unfold is_u64; lia). done. }
  destruct (IH s1) as (outputs & s' & Hrun & Hiss & Ham); [rewrite Hs1, decide_True by done; lia..|].
  set (o := {| co_amount := amount; co_index := i; co_request := (issuance_request amount i).1;
               co_blind_nonce := (issuance_request amount i).2; co_amounts := Amounts.new_bitcoin amount |}).
  exists (o :: outputs), s'. split_and!; [|apply (issued_app s [o] s1 outputs s'); [|done]|rewrite fmap_cons, Ham; done].
  - cbn [new_outputs]. rewrite (run_bind _ _ s (i, issuance_request amount i) s1) by done. by rewrite (run_bind _ _ _ _ _ Hrun).
  - split; [done| |apply Forall_singleton; split; [done|by symmetry; apply surjective_pairing]]; intros a; split; unfold indices; rewrite filter_cons;
      cbn [co_amount o]; rewrite ?Hs1; case_decide; simpl; try lia; by subst.
Qed.

Lemma create_output_for_denominations_spec (denominations : list (Z * Z)) s :
  Forall (fun an => 0 <= an.2) denominations -> (forall a, 0 <= next_index_of s a) ->
  (forall a, next_index_of s a + sum_list denominations.*2 <= u64_max) ->
  exists outputs s', create_output_for_denominations denominations s = (Ok outputs, s') /\ issued s outputs s' /\
    co_amount <$> outputs = (denominations ≫= fun an => replicate (Z.to_nat an.2) an.1).
Proof.
  intros Hpos. revert s. induction Hpos as [|[a n] l Hn Hl IH]; intros s H0 Hb; [exists [], s; split_and!; [done|apply issued_nil|done]|].
  cbn [fst snd] in *. rewrite fmap_cons in Hb. setoid_rewrite sum_list_cons in Hb. cbn [snd] in Hb.
  assert (Hs : 0 <= sum_list l.*2) by (clear -Hl; induction Hl as [|x l Hx _ IH]; [done|]; rewrite fmap_cons, sum_list_cons; lia).
  destruct (new_outputs_spec a (Z.to_nat n) s) as (o1 & s1 & Hr1 & Hi1 & Ha1); [done|specialize (Hb a); lia|].
  destruct (IH s1) as (o2 & s2 & Hr2 & Hi2 & Ha2).
  - intros b. rewrite (proj2 (issued_used _ _ _ Hi1 b)). specialize (H0 b). lia.
  - intros b. rewrite (proj2 (issued_used _ _ _ Hi1 b)). apply (f_equal length) in Ha1. rewrite length_fmap, length_replicate in Ha1.
    unfold indices. rewrite length_fmap. pose proof (length_filter (fun o => co_amount o = b) o1). specialize (Hb b). lia.
  - exists (o1 ++ o2), s2. split_and!; [|by eapply issued_app|by rewrite fmap_app, Ha1, Ha2].
    cbn [create_output_for_denominations]. rewrite (run_bind _ _ _ _ _ Hr1). by rewrite (run_bind _ _ _ _ _ Hr2).
Qed.

(** The denominations of a mint begin with one millisatoshi. *)
Hypothesis tiers_ok : head tiers = Some 1 /\ Forall tier_ok tiers.

Definition output_cost (outputs : list ClientOutput) : Z := sum_list (cost_of fee_consensus <$> (co_amount <$> outputs)).
Definition index_ok (s : MintClientDb) : Prop := forall a, 0 <= next_index_of s a <= 2 ^ 62.

Lemma represent_tiers amount current sets :
  0 <= amount <= 2 ^ 63 ->
  exists m remaining, represent_amount fee_consensus amount current tiers sets = Some m /\
    represent_inv fee_consensus amount tiers remaining m /\ remaining <= fee_of fee_consensus 1.
Proof using fee_wf tiers_ok.
  intros Ha. destruct tiers_ok as [Hhead Hok]. destruct tiers as [|t rest]; simplify_eq/=. by apply represent_amount_spec.
Qed.

Lemma create_output_spec sets amount s :
  0 <= amount <= 2 ^ 63 -> index_ok s ->
  exists outputs s', create_output sets amount s = (Ok outputs, s') /\ issued s outputs s' /\
    Forall (fun o => is_Some (tbs_pks !! co_amount o)) outputs /\
    output_cost outputs <= amount <= output_cost outputs + fee_of fee_consensus 1.
Proof using fee_wf tiers_ok.
  intros Ha Hidx. destruct (fee_of_spec fee_consensus fee_wf 1) as [_ Hf1]; [unfold is_u64, u64_max; lia|].
  unfold create_output. destruct (Z.eqb_spec amount 0) as [->|Hne].
  { exists [], s. split_and!; [done|apply issued_nil|constructor|done|unfold output_cost; simpl; lia]. }
  assert (exists counts, get_note_counts_by_denomination s = (Ok counts, s)) as [counts Hcounts] by by eexists.
  rewrite (run_bind _ _ _ _ _ Hcounts).
  destruct (represent_tiers amount counts sets Ha) as (m & remaining & Hm & Hinv & Hrem).
  rewrite (run_bind _ _ s m s) by (unfold expect; by rewrite Hm).
  destruct (represented_counts fee_consensus fee_wf _ _ _ _ (proj2 tiers_ok) Hinv) as (Hpos & Hsum & Hcost).
  destruct (create_output_for_denominations_spec (btree_iter m) s Hpos) as (outputs & s' & Hrun & Hiss & Ham).
  { intros a. apply Hidx. }
  { intros a. specialize (Hidx a). unfold u64_max. lia. }
  exists outputs, s'. split_and!; [done|done| |..].
  - apply (Forall_fmap co_amount (fun a => is_Some (tbs_pks !! a))). rewrite Ham. apply Forall_forall.
    intros a ([b n] & Hin & Hb%elem_of_btree_iter)%list_elem_of_bind. apply elem_of_replicate in Hin as [-> _].
    destruct (ri_counts _ _ _ _ _ Hinv _ _ Hb) as [Ht _]. by apply elem_of_btree_iter_fst in Ht.
  - unfold output_cost. rewrite Ham, replicate_cost, Hcost by done. destruct Hinv. lia.
  - unfold output_cost. rewrite Ham, replicate_cost, Hcost by done. destruct Hinv. lia.
Qed.

(** *** Balancing a transaction *)

Definition fees_value (l : list (Z * SN)) : Z := sum_list ((fun an => fee_of fee_consensus an.1) <$> l).

Lemma inputs_amount_value l :
  Forall genuine l -> TieredMulti.value l <= max_funds -> inputs_amount (input_of <$> l) = TieredMulti.value l.
Proof.
  intros Hg Hv. unfold inputs_amount. rewrite <- list_fmap_compose.
  assert (Heq : (fun i => Amounts.get_bitcoin (ci_amounts i)) ∘ input_of <$> l = l.*1).
  { apply list_fmap_ext. intros _ an _. apply Amounts.get_bitcoin_new. }
  rewrite Heq. apply Amount.sum_exact. change (is_u64 (TieredMulti.value l)). pose proof (genuine_length _ Hg).
  unfold is_u64, max_funds, u64_max in *. lia.
Qed.

Lemma fees_of_genuine l s : Forall genuine l -> fees_of (input_of <$> l) s = (Ok ((fun an => fee_of fee_consensus an.1) <$> l), s).
Proof using fee_wf.
  induction 1 as [|[a sn] l [Ht _] _ IH]; [done|]. cbn [fmap list_fmap fees_of ci_amounts input_of fst].
  destruct (fee_of_spec fee_consensus fee_wf a) as [Hf _]; [unfold tier_ok, is_u64, u64_max in *; simpl in *; lia|].
  rewrite (run_bind _ _ s (fee_of fee_consensus a) s) by (unfold fee_expect; rewrite Amounts.get_bitcoin_new, Hf; done).
  by rewrite (run_bind _ _ _ _ _ IH).
Qed.

Lemma fees_value_bound l : Forall genuine l -> 0 <= fees_value l <= Z.of_nat (length l) * 18446744173710.
Proof using fee_wf.
  unfold fees_value. induction 1 as [|[a sn] l [Ht _] _ IH]; [done|]. rewrite fmap_cons, sum_list_cons, length_cons. cbn [fst].
  destruct (fee_of_spec fee_consensus fee_wf a) as [_ Hf]; [unfold tier_ok, is_u64, u64_max in *; simpl in *; lia|]. lia.
Qed.

(** Spent notes were held, so they are genuine and within the funds. *)
Lemma spent_facts s l s' :
  funds_ok (client_notes s) -> spent s l s' ->
  Forall genuine l /\ 0 <= TieredMulti.value l /\ funds_ok (client_notes s') /\
  TieredMulti.value (held (client_notes s)) = TieredMulti.value (held (client_notes s')) + TieredMulti.value l.
Proof.
  intros [Hok Hv] [Hh Hok' _]. pose proof (held_genuine _ Hok) as Hg. rewrite Hh, Forall_app in Hg. destruct Hg as [Hg' Hg].
  pose proof (genuine_length _ Hg). pose proof (genuine_length _ Hg').
  rewrite (TieredMulti.value_perm _ _ Hh), TieredMulti.value_app in Hv |- *. split_and!; [done|lia|split; [done|lia]|done].
Qed.

Lemma economical_fees l : Forall (economical fee_consensus) l -> fees_value l <= TieredMulti.value l.
Proof. intros He. pose proof (net_value_nonneg fee_consensus _ He) as H. rewrite net_value_fees in H. unfold fees_value. lia. Qed.

Lemma index_ok_spent s l s' : index_ok s -> spent s l s' -> index_ok s'.
Proof. intros Hi [_ _ He] a. unfold next_index_of. rewrite He. apply Hi. Qed.

Lemma create_final_spec s input_amount output_amount :
  funds_ok (client_notes s) -> index_ok s -> 0 <= input_amount <= max_funds -> 0 <= output_amount <= max_funds ->
  exists c s1, spent s c s1 /\ Z.of_nat (length c) <= 20 /\
  ((exists l s2 outputs s', spent s1 l s2 /\ issued s2 outputs s' /\ Forall (economical fee_consensus) l /\
      create_final_inputs_and_outputs BITCOIN input_amount output_amount s = (Ok (input_of <$> c ++ l, outputs), s') /\
      Forall (fun o => is_Some (tbs_pks !! co_amount o)) outputs /\
      output_amount + fees_value (c ++ l) + output_cost outputs <= input_amount + TieredMulti.value (c ++ l)
        <= output_amount + fees_value (c ++ l) + output_cost outputs + fee_of fee_consensus 1) \/
   (exists e s', create_final_inputs_and_outputs BITCOIN input_amount output_amount s = (Err (ClientInsufficientBalance e), s') /\
      balance_amount e = spendable fee_consensus (held (client_notes s1)) /\
      net_value fee_consensus c + spendable fee_consensus (held (client_notes s1)) < output_amount - input_amount)).
Proof using fee_wf tiers_ok.
  intros Hf Hi Hin Hout. destruct (consolidate_spec s Hf) as (c & s1 & Hcons & Hs1 & Hlen). exists c, s1. do 2 (split; [done|]).
  destruct (spent_facts _ _ _ Hf Hs1) as (Hgc & Hvc & Hf1 & Hval). pose proof (fees_value_bound c Hgc) as Hfc.
  assert (Hmax : TieredMulti.value (held (client_notes s)) <= max_funds) by apply Hf.
  assert (Hheld : 0 <= TieredMulti.value (held (client_notes s1))).
  { pose proof (genuine_length _ (held_genuine _ (proj1 Hf1))). lia. }
  unfold max_funds in *. unfold create_final_inputs_and_outputs. rewrite (run_bind _ _ _ _ _ Hcons), (run_bind _ _ s1 tt s1) by done.
  rewrite (run_bind _ _ _ _ _ (fees_of_genuine c s1 Hgc)), inputs_amount_value by (done || unfold max_funds; lia).
  fold (fees_value c). rewrite Amount.sum_exact by (change (is_u64 (fees_value c)); unfold is_u64, u64_max; lia).
  fold (sum_list ((fun an => fee_of fee_consensus an.1) <$> c)). fold (fees_value c). unfold Amount.add.
  rewrite !(wrap_u64_small (input_amount + _)), !(wrap_u64_small (output_amount + _)) by (unfold is_u64, u64_max; lia).
  set (need := saturating_sub _ _). assert (Hneed : 0 <= need <= 2 ^ 63) by (unfold need, saturating_sub; lia).
  destruct (create_sufficient_input_spec s1 need Hf1 Hneed) as [(l & s2 & Hsuf & Hs2 & He & Hnet)|(e & s2 & Hsuf & Hreq & Hbal & Hlt)].
  - left. destruct (spent_facts _ _ _ Hf1 Hs2) as (Hgl & Hvl & Hf2 & Hval2). pose proof (economical_fees l He). pose proof (fees_value_bound l Hgl) as Hfl.
    assert (Hv2 : 0 <= TieredMulti.value (held (client_notes s2))).
    { pose proof (genuine_length _ (held_genuine _ (proj1 Hf2))). lia. }
    rewrite (run_bind _ _ _ _ _ Hsuf), (run_bind _ _ _ _ _ (fees_of_genuine l s2 Hgl)), inputs_amount_value by (done || unfold max_funds; lia).
    rewrite Amount.sum_exact by (change (is_u64 (fees_value l)); unfold is_u64, u64_max; lia).
    fold (sum_list ((fun an => fee_of fee_consensus an.1) <$> l)). fold (fees_value l).
    rewrite !wrap_u64_small by (unfold is_u64, u64_max; lia). set (change := saturating_sub _ _).
    assert (Hch : change = input_amount + TieredMulti.value c + TieredMulti.value l - (output_amount + fees_value c + fees_value l)).
    { rewrite net_value_fees in Hnet. fold (fees_value l) in Hnet. unfold change, need, saturating_sub in *. lia. }
    destruct (create_output_spec 2 change s2) as (outputs & s' & Hrun & Hiss & Htiers & Hcost).
    { unfold change, saturating_sub in *. lia. }
    { eapply index_ok_spent; [|done]. by eapply index_ok_spent. }
    exists l, s2, outputs, s'. rewrite (run_bind _ _ _ _ _ Hrun), TieredMulti.value_app, fmap_app.
    assert (fees_value (c ++ l) = fees_value c + fees_value l) by (unfold fees_value; by rewrite fmap_app, sum_list_app).
    split_and!; (done || lia).
  - right. exists e, s2. split_and!; [unfold mbind, M_bind; by rewrite Hsuf|done|].
    rewrite net_value_fees. fold (fees_value c). unfold need, saturating_sub in *.
    assert (0 <= spendable fee_consensus (held (client_notes s1))); [|lia]. unfold spendable. apply net_value_nonneg, Forall_forall.
    intros x Hx. by apply list_elem_of_filter in Hx as [? _].
Qed.

(** The exact layout, without fees. *)
Lemma create_exact_output_used amount s :
  0 <= amount <= 2 ^ 63 -> index_ok s ->
  exists outputs s', create_exact_output amount s = (Ok outputs, s') /\ indices_used s outputs s' /\
    sum_list (co_amount <$> outputs) = amount.
Proof using tiers_ok.
  intros Ha Hidx. unfold create_exact_output. destruct (Z.eqb_spec amount 0) as [->|Hne].
  { exists [], s. split_and!; [done|apply issued_nil|done]. }
  assert (Hz : Fee.wf Fee.zero) by (split; simpl; lia).
  assert (exists m remaining, represent_exact_amount amount = Some m /\ represent_inv Fee.zero amount tiers remaining m /\ remaining <= 0)
    as (m & remaining & Hm & Hinv & Hrem).
  { unfold represent_exact_amount. destruct tiers_ok as [Hhead Hok]. destruct tiers as [|t rest]; simplify_eq/=.
    by apply (represent_amount_spec Fee.zero). }
  rewrite (run_bind _ _ s m s) by (unfold expect; by rewrite Hm).
  destruct (represented_counts Fee.zero Hz _ _ _ _ (proj2 tiers_ok) Hinv) as (Hpos & Hsum & Hcost).
  destruct (create_output_for_denominations_spec (btree_iter m) s Hpos) as (outputs & s' & Hrun & Hiss & Ham).
  { intros a. apply Hidx. }
  { intros a. specialize (Hidx a). unfold u64_max. lia. }
  exists outputs, s'. split_and!; [done|apply Hiss|]. destruct Hinv as [Hs Hr Hc].
  assert (Heq : cost_of Fee.zero <$> (co_amount <$> outputs) = co_amount <$> outputs).
  { rewrite Ham. rewrite <- (list_fmap_id (_ ≫= _)) at 2. apply Forall_fmap_ext_1, Forall_forall.
    intros a ([b n] & Hin & Hb%elem_of_btree_iter)%list_elem_of_bind. apply elem_of_replicate in Hin as [-> _].
    destruct (Hc _ _ Hb) as [Ht _]. pose proof (proj1 (Forall_forall _ _) (proj2 tiers_ok) _ Ht) as Hok. simpl.
    unfold cost_of, fee_of, id. rewrite fee_zero by (unfold tier_ok, is_u64, u64_max in *; lia). simpl. lia. }
  rewrite <- Heq, Ham, replicate_cost, Hcost by done. lia.
Qed.

(** *** The fees of spending everything *)

Definition spend_fee (a : Z) : Z := if fee_of fee_consensus a <? a then fee_of fee_consensus a else 0.

Lemma spend_fee_bound a : tier_ok a -> Fee.fee fee_consensus a = Some (fee_of fee_consensus a) /\ 0 <= spend_fee a <= a.
Proof using fee_wf.
  intros Ht. destruct (fee_of_spec fee_consensus fee_wf a) as [Hf Hb]; [unfold tier_ok, is_u64, u64_max in *; lia|].
  unfold spend_fee, tier_ok in *. split; [done|]. destruct (Z.ltb_spec (fee_of fee_consensus a) a); lia.
Qed.

Lemma spend_fees_value m : notes_ok m -> 0 <= sum_list (spend_fee <$> (held m).*1) <= TieredMulti.value (held m).
Proof using fee_wf.
  intros Hok. unfold TieredMulti.value. induction (held_genuine m Hok) as [|[a sn] l [Ht _] _ IH]; [done|].
  rewrite !fmap_cons, !sum_list_cons. cbn [fst] in *. pose proof (proj2 (spend_fee_bound a Ht)). lia.
Qed.

(** The products of the counts that are economical, which all fit. *)
Lemma spend_fee_products (l : list (Z * Z)) :
  Forall (fun ac => tier_ok ac.1 /\ 0 < ac.2) l -> Forall (fun ac => spend_fee ac.1 * ac.2 <= u64_max) l ->
  mapM (fun ac => pair ac <$> Fee.fee fee_consensus ac.1) l = Some ((fun ac => (ac, fee_of fee_consensus ac.1)) <$> l) /\
  sum_list (omap (fun acf : Z * Z * Z => if acf.2 <? acf.1.1 then checked_mul acf.2 acf.1.2 else None)
      ((fun ac => (ac, fee_of fee_consensus ac.1)) <$> l)) = sum_list ((fun ac => spend_fee ac.1 * ac.2) <$> l) /\
  Forall (fun x => 0 <= x) (omap (fun acf : Z * Z * Z => if acf.2 <? acf.1.1 then checked_mul acf.2 acf.1.2 else None)
      ((fun ac => (ac, fee_of fee_consensus ac.1)) <$> l)).
Proof using fee_wf.
  induction 1 as [|[a n] l [Ht Hn] _ IH]; intros Hb; [done|]. inversion Hb as [|? ? Hx Hb']; subst. cbn [fst snd] in *.
  destruct (IH Hb') as (H1 & H2 & H3). destruct (spend_fee_bound a Ht) as [Hf Hs].
  cbn [mapM]. cbn [fst]. rewrite Hf. cbn [fmap option_fmap option_map mbind option_bind]. rewrite H1. split; [done|].
  rewrite !fmap_cons, sum_list_cons. cbn [omap list_omap fst snd]. unfold spend_fee in Hs, Hx |- *.
  destruct (Z.ltb_spec (fee_of fee_consensus a) a) as [Hlt|]; [|by split; [rewrite H2; unfold spend_fee; lia|]].
  assert (Hc : checked_mul (fee_of fee_consensus a) n = Some (fee_of fee_consensus a * n)) by by apply checked_mul_Some.
  rewrite Hc, sum_list_cons. split; [rewrite H2; unfold spend_fee; lia|constructor; [nia|done]].
Qed.

(** ** Claims *)

(** The balance is the sum of the held notes, and the estimate for
    spending everything is exactly the fees of the notes that are worth
    spending: what is left of those notes is what can be spent. *)
Theorem balance_and_estimate s :
  funds_ok (client_notes s) ->
  get_balance BITCOIN s = (Ok (TieredMulti.value (held (client_notes s))), s) /\
  exists estimate, estimate_spend_all_fees s = (Ok estimate, s) /\
    TieredMulti.value (filter (economical fee_consensus) (held (client_notes s))) - estimate
      = spendable fee_consensus (held (client_notes s)).
Proof using fee_wf.
  intros Hf. split; [by apply get_balance_held|]. destruct (note_counts s Hf) as (counts & Hc & _).
  pose proof (counts_tiers s counts Hf Hc) as Ht. pose proof (counts_sum s counts spend_fee Hf Hc) as Hsum.
  pose proof (spend_fees_value _ (proj1 Hf)) as Hv. pose proof (proj2 Hf) as Hmax. unfold max_funds in Hmax.
  destruct (Amount.sum_wrapped (fun ac => spend_fee ac.1 * ac.2) (btree_iter counts)) as (_ & _ & Hle); [|unfold u64_max; lia|].
  { eapply Forall_impl; [exact Ht|]. intros [a n] [Ha Hn]. pose proof (proj2 (spend_fee_bound a Ha)). simpl in *. nia. }
  destruct (spend_fee_products _ Ht Hle) as (Hm & Hs & Hpos). exists (sum_list (spend_fee <$> (held (client_notes s)).*1)). split.
  - unfold estimate_spend_all_fees. rewrite (run_bind _ _ _ _ _ Hc), (run_bind _ _ s _ s) by (unfold expect; rewrite Hm; reflexivity).
    unfold expect. rewrite checked_sum; [by rewrite Hs, Hsum|done|lia|]. rewrite Hs, Hsum. unfold u64_max. lia.
  - unfold spendable. rewrite net_value_fees. assert (Heq : forall l : list (Z * SN),
      sum_list (spend_fee <$> l.*1) = sum_list ((fun an => fee_of fee_consensus an.1) <$> filter (economical fee_consensus) l)); [|by rewrite Heq].
    induction l as [|[a sn] l IH]; [done|]. rewrite !fmap_cons, sum_list_cons, filter_cons, IH. unfold spend_fee. cbn [fst].
    case_decide as He; unfold economical, net in He; simpl in He; destruct (Z.ltb_spec (fee_of fee_consensus a) a); try lia; done.
Qed.

(** C22: balancing a transaction never panics.  When it succeeds, exactly the
    notes of the inputs leave the wallet, the inputs pay for the outputs and
    for the fees of every input and output, and at most the fee of the smallest
    note is lost.  It fails only when the notes that are worth spending cannot
    pay, after at most twenty notes were consolidated. *)
Theorem create_final_balanced s input_amount output_amount :
  funds_ok (client_notes s) -> index_ok s -> 0 <= input_amount <= max_funds -> 0 <= output_amount <= max_funds ->
  match create_final_inputs_and_outputs BITCOIN input_amount output_amount s with
  | (Ok (inputs, outputs), s') =>
      let notes := (fun i => (ci_amount i, ci_note i)) <$> inputs in
      let needed := output_amount + sum_list ((fun i => fee_of fee_consensus (ci_amount i)) <$> inputs)
        + sum_list ((fun o => co_amount o + fee_of fee_consensus (co_amount o)) <$> outputs) in
      held (client_notes s) ≡ₚ held (client_notes s') ++ notes /\
      needed <= input_amount + TieredMulti.value notes <= needed + fee_of fee_consensus 1 /\
      Forall (fun o => is_Some (tbs_pks !! co_amount o)) outputs
  | (Err (ClientInsufficientBalance e), _) =>
      exists consolidated rest, held (client_notes s) ≡ₚ rest ++ consolidated /\ Z.of_nat (length consolidated) <= 20 /\
        balance_amount e = spendable fee_consensus rest /\
        net_value fee_consensus consolidated + spendable fee_consensus rest < output_amount - input_amount
  | (Err _, _) | (Panic, _) => False
  end.
Proof using fee_wf tiers_ok.
  intros Hf Hi Hin Hout.
  destruct (create_final_spec s _ _ Hf Hi Hin Hout) as (c & s1 & Hs1 & Hlen &
    [(l & s2 & outputs & s' & Hs2 & Hiss & _ & -> & Ht & Hb)|(e & s' & -> & Hbal & Hlt)]);
    [|exists c, (held (client_notes s1)); split_and!; [apply Hs1|done|done|done]].
  cbv zeta. rewrite <- !list_fmap_compose. rewrite (issued_notes _ _ _ Hiss).
  rewrite (list_fmap_ext ((fun i => (ci_amount i, ci_note i)) ∘ input_of) id) by (by intros ? [] ?). rewrite list_fmap_id.
  split_and!; [exact (spent_held _ _ _ (spent_app _ _ _ _ _ Hs1 Hs2))|..|done];
    unfold fees_value, output_cost in Hb; rewrite <- list_fmap_compose in Hb; unfold compose, cost_of in *; simpl in *; lia.
Qed.

(** The wallet over time: transactions are balanced, notes are issued for exact
    amounts and as change, and anything may happen to the notes in between. *)
Inductive wallet_run (s : MintClientDb) : list ClientOutput -> MintClientDb -> Prop :=
| run_start : wallet_run s [] s
| run_notes outputs s1 s' :
    wallet_run s outputs s1 -> next_note_index s' = next_note_index s1 -> wallet_run s outputs s'
| run_final outputs s1 input_amount output_amount inputs more s' :
    wallet_run s outputs s1 -> funds_ok (client_notes s1) -> index_ok s1 ->
    0 <= input_amount <= max_funds -> 0 <= output_amount <= max_funds ->
    create_final_inputs_and_outputs BITCOIN input_amount output_amount s1 = (Ok (inputs, more), s') ->
    wallet_run s (outputs ++ more) s'
| run_exact outputs s1 amount more s' :
    wallet_run s outputs s1 -> index_ok s1 -> 0 <= amount <= 2 ^ 63 ->
    create_exact_output amount s1 = (Ok more, s') -> wallet_run s (outputs ++ more) s'
| run_change outputs s1 sets amount more s' :
    wallet_run s outputs s1 -> index_ok s1 -> 0 <= amount <= 2 ^ 63 ->
    create_output sets amount s1 = (Ok more, s') -> wallet_run s (outputs ++ more) s'.

Lemma indices_used_index s o s1 s' :
  indices_used s o s1 -> next_note_index s' = next_note_index s1 -> indices_used s o s'.
Proof. intros Hu Hn a. destruct (Hu a) as [Hi Hx]. split; [done|]. unfold next_index_of in *. by rewrite Hn. Qed.

Lemma indices_used_from s s1 o s' :
  next_note_index s1 = next_note_index s -> indices_used s1 o s' -> indices_used s o s'.
Proof. intros Hn Hu a. destruct (Hu a) as [Hi Hx]. unfold next_index_of in *. by rewrite <- Hn. Qed.

Lemma wallet_run_used s outputs s' : wallet_run s outputs s' -> indices_used s outputs s'.
Proof using fee_wf tiers_ok.
  induction 1 as [|o s1 s' _ IH Hn|o s1 i o' ins more s' _ IH Hf Hi Hin Hout Hrun|o s1 a more s' _ IH Hi Ha Hrun|o s1 sets a more s' _ IH Hi Ha Hrun].
  - apply issued_nil.
  - by eapply indices_used_index.
  - destruct (create_final_spec s1 _ _ Hf Hi Hin Hout) as (c & sa & Hsa & _ &
      [(l & sb & outputs & s2 & Hsb & Hiss & _ & Hrun' & _)|(e & s2 & Hrun' & _)]); rewrite Hrun in Hrun'; simplify_eq.
    eapply indices_used_app; [exact IH|]. eapply indices_used_from; [|apply Hiss].
    by rewrite (spent_index _ _ _ Hsb), (spent_index _ _ _ Hsa).
  - destruct (create_exact_output_used a s1 Ha Hi) as (outputs & s2 & Hrun' & Hu & _). rewrite Hrun in Hrun'. simplify_eq.
    by eapply indices_used_app.
  - destruct (create_output_spec sets a s1 Ha Hi) as (outputs & s2 & Hrun' & Hiss & _). rewrite Hrun in Hrun'. simplify_eq.
    eapply indices_used_app; [exact IH|apply Hiss].
Qed.

Lemma indices_NoDup outputs :
  (forall a, NoDup (indices a outputs)) -> NoDup ((fun o => (co_amount o, co_index o)) <$> outputs).
Proof.
  induction outputs as [|o outputs IH]; intros Hnd; [constructor|]. rewrite fmap_cons. constructor.
  - intros (o' & Heq & Hin)%list_elem_of_fmap. injection Heq as Ha Hi. specialize (Hnd (co_amount o)).
    unfold indices in Hnd. rewrite filter_cons_True, fmap_cons in Hnd by done. inversion Hnd as [|? ? Hout _]; subst. apply Hout.
    rewrite Hi. apply list_elem_of_fmap_2, list_elem_of_filter. by rewrite Ha.
  - apply IH. intros a. specialize (Hnd a). unfold indices in *. rewrite filter_cons in Hnd. case_decide; [|done].
    rewrite fmap_cons in Hnd. by inversion Hnd.
Qed.


(** Handing out notes for an exact amount never panics.  The notes that are
    handed out leave the wallet, are worth the amount, and are the ones the
    refund state machine watches; after an error the wallet is as before. *)
Theorem oob_spend_exact operation_id_of now no_timeout amount try_cancel_after s :
  funds_ok (client_notes s) -> 0 <= amount <= 2 ^ 63 ->
  match spend_notes_oob operation_id_of now no_timeout (select_exact Fee.zero) amount try_cancel_after s with
  | (Ok (operation_id, state_machines, notes), s') =>
      held (client_notes s) ≡ₚ held (client_notes s') ++ TieredMulti.iter_items notes /\
      TieredMulti.value (TieredMulti.iter_items notes) = amount /\ operation_id = operation_id_of notes /\
      Forall (fun sm => oob_operation_id sm = operation_id /\ oob_notes sm = TieredMulti.iter_items notes) state_machines
  | (Err _, s') => s' = s
  | (Panic, _) => False
  end.
Proof.
  intros Hf Ha. pose proof Hf as [Hok _]. unfold spend_notes_oob. destruct (Z.eqb_spec amount 0) as [->|Hne]; [done|].
  assert (Hz : Fee.wf Fee.zero) by (split; simpl; lia). set (m := client_notes s) in *.
  pose proof (select_notes_result Fee.zero Hz amount _ ltac:(lia) (funds_stream m Hf) (notes_descending m)) as Hres.
  unfold map_err, mbind, M_bind, select_notes, select_exact. fold m.
  destruct (select_notes_from_stream _ _ _) as [notes|e|]; simpl in Hres; [|done|done].
  destruct (Z.eqb_spec (TieredMulti.total_amount notes) amount) as [Heq|]; [|done].
  destruct Hres as (selected & -> & Hsub & _ & _). pose proof (TieredMulti.iter_items_from_iter selected) as Hp.
  destruct (funds_stream m Hf) as [Hu Hv]. pose proof (value_submseteq _ _ Hu Hsub) as Hle.
  rewrite TieredMulti.from_iter_total in Heq; [| |lia].
  2: { apply Forall_forall. intros x Hx. assert (is_u64 x.1) as [? _]; [|done]. apply (proj1 (Forall_forall _ _) Hu). by eapply elem_of_submseteq. }
  destruct (decode_sub (TieredMulti.iter_items (TieredMulti.from_iter selected)) m Hok) as (l & -> & Hl & Hfst).
  { rewrite Hp, Hsub. by rewrite reverse_Permutation. }
  pose proof (TieredMulti.iter_items_from_iter l) as Hp'.
  destruct (delete_all_held (E := SpendOOBError) s (TieredMulti.iter_items (TieredMulti.from_iter l)) Hok) as (s' & -> & Hs').
  { by rewrite Hp'. }
  cbn. split_and!; [apply Hs'| |done|].
  - rewrite (TieredMulti.value_perm _ _ Hp'), <- Heq. unfold TieredMulti.value. apply sum_list_perm. by rewrite Hfst, Hp.
  - by destruct (default no_timeout try_cancel_after =? no_timeout); repeat constructor.
Qed.
End mint_client.

(** ** A wallet *)

Module MintClientExample.
(** A note is its nonce; notes above one thousand are undecodable. *)
Definition decode (un : Z) : option Z := if un <? 1000 then Some un else None.
Definition verify (sn key : Z) : bool := key =? 7.
Definition issuance_request (amount index : Z) : Z * Z := (amount, amount * 1000 + index).
Definition tbs_pks : gmap Z Z := list_to_map ((fun a => (a, 7)) <$> [1; 2; 4; 8; 16; 32; 64; 128; 256; 512; 1024]).
Definition fees : Fee.FeeConsensus := {| Fee.base := 100; Fee.parts_per_million := 0 |}.

(** Nine notes of one millisatoshi, which cost more than they are worth, and one of 1024. *)
Definition wallet : MintClientDb (UN := Z) := {|
  client_notes := list_to_map ((fun n => ((1, n), n)) <$> [1; 2; 3; 4; 5; 6; 7; 8; 9]) ∪ {[ (1024, 10) := 10 ]};
  next_note_index := {[ 1 := 9 ]};
  event_log := [] |}.

Definition finalize := create_final_inputs_and_outputs decode id verify issuance_request tbs_pks fees BITCOIN.

Lemma client_fees_wf : Fee.wf fees.
Proof. split; simpl; lia. Qed.

Lemma tiers_ok : head (tiers tbs_pks) = Some 1 /\ Forall tier_ok (tiers tbs_pks).
Proof.
  assert (Ht : tiers tbs_pks = [1; 2; 4; 8; 16; 32; 64; 128; 256; 512; 1024]) by by vm_compute.
  rewrite Ht. split; [done|]. repeat (apply Forall_cons; split; [unfold tier_ok; lia|]). constructor.
Qed.

Lemma wallet_funds : funds_ok decode id verify tbs_pks (client_notes wallet).
Proof.
  split; [|by vm_compute]. apply map_Forall_to_list, Forall_forall. intros [[a n] un] Hin.
  assert (Hall : forallb (fun kv => (0 <? kv.1.1) && (kv.1.1 <=? 2 ^ 63) && (kv.2 =? kv.1.2) && (kv.2 <? 1000) &&
    bool_decide (tbs_pks !! kv.1.1 = Some 7)) (map_to_list (client_notes wallet)) = true) by by vm_compute.
  rewrite forallb_forall in Hall. specialize (Hall _ (proj1 (list_elem_of_In _ _) Hin)). cbn [fst snd] in Hall.
  rewrite !andb_true_iff, bool_decide_eq_true in Hall. destruct Hall as ((((H1 & H2) & H3) & H4) & H5).
  exists un. unfold decode. rewrite H4. cbn [fst snd]. split_and!; [done|by apply Z.eqb_eq in H3|].
  split; [unfold tier_ok; cbn [fst]; lia|]. exists 7. split; [exact H5|done].
Qed.

Lemma wallet_index : index_ok wallet.
Proof.
  intros a. unfold next_index_of. cbn [next_note_index wallet]. destruct (decide (a = 1)) as [->|].
  - by rewrite lookup_singleton_eq.
  - rewrite lookup_singleton_ne by done. simpl. lia.
Qed.

(** Paying 300 succeeds and consolidates five of the nine notes. *)
Lemma finalize_300 : exists inputs outputs s', finalize 0 300 wallet = (Ok (inputs, outputs), s') /\ ci_amount <$> inputs = [1; 1; 1; 1; 1; 1024].
Proof. eexists _, _, _. split; [vm_compute; reflexivity|by vm_compute]. Qed.

Lemma create_final_balanced_witness :
  exists inputs outputs s', finalize 0 300 wallet = (Ok (inputs, outputs), s') /\
    held decode (client_notes wallet) ≡ₚ held decode (client_notes s') ++ ((fun i => (ci_amount i, ci_note i)) <$> inputs) /\
    300 + sum_list ((fun i => fee_of fees (ci_amount i)) <$> inputs)
      + sum_list ((fun o => co_amount o + fee_of fees (co_amount o)) <$> outputs)
      <= 0 + TieredMulti.value ((fun i => (ci_amount i, ci_note i)) <$> inputs).
Proof.
  pose proof (create_final_balanced decode id verify issuance_request tbs_pks fees client_fees_wf tiers_ok wallet 0 300
    wallet_funds wallet_index ltac:(unfold max_funds; lia) ltac:(unfold max_funds; lia)) as H.
  destruct finalize_300 as (inputs & outputs & s' & Hrun & Ham). exists inputs, outputs, s'. split; [exact Hrun|].
  unfold finalize in Hrun. rewrite Hrun in H. cbv zeta in H. destruct H as (Hheld & [Hle _] & _). split; [exact Hheld|exact Hle].
Defined.

(** The wallet could pay 900 from the note of 1024, but consolidating the small
    notes costs more than they are worth, so the payment fails. *)
Theorem consolidation_spends_uneconomical :
  900 <= spendable fees (held decode (client_notes wallet)) /\
  exists e s', finalize 0 900 wallet = (Err (ClientInsufficientBalance e), s').
Proof. split; [by vm_compute|]. eexists _, _. vm_compute. reflexivity. Qed.


Lemma balance_and_estimate_witness :
  get_balance BITCOIN wallet = (Ok 1033, wallet) /\
  exists estimate, estimate_spend_all_fees fees wallet = (Ok estimate, wallet).
Proof.
  destruct (balance_and_estimate decode id verify tbs_pks fees client_fees_wf wallet wallet_funds) as [Hb (estimate & He & _)].
  split; [exact Hb|]. by exists estimate.
Defined.

Lemma oob_spend_exact_witness :
  match spend_notes_oob decode id (fun _ => 5) 0 (-1) (select_exact Fee.zero) 1026 (Some 60) wallet with
  | (Ok (_, _, notes), _) => TieredMulti.value (TieredMulti.iter_items notes) = 1026
  | _ => False
  end.
Proof.
  pose proof (oob_spend_exact decode id verify tbs_pks (fun _ => 5) 0 (-1) 1026 (Some 60) wallet wallet_funds ltac:(lia)) as H.
  destruct (spend_notes_oob decode id (fun _ => 5) 0 (-1) (select_exact Fee.zero) 1026 (Some 60) wallet)
    as [[[[op sms] notes]|e|] s'] eqn:Hrun; [apply H|vm_compute in Hrun; discriminate|done].
Defined.
End MintClientExample.
