(* ===== verification/SendAmount.v ===== *)
(** * The largest amount that can be sent

    [max_affordable_send_amount] of
    [fedimint-client-module/src/transaction/builder.rs]: a binary search for
    the largest amount whose funding, grossed up by the fee of a gateway, and
    whose federation fee fit in the balance.  The quote of the federation fee
    and the gateway's fee are arguments, as they are in the code. *)

From S2P Require Import Prelude Amounts NoteSelection MintClient.

Inductive TransactionSubmitError :=
| OperationAlreadyExists (operation_id : Z)
| TransactionTooLarge (size max : Z)
| NoPrimaryModule (unit : Z)
| PrimaryModule (e : ClientModuleError)
| DatabaseFailure
| StateMachines
| InsufficientFunds (e : InsufficientBalanceError).

Definition is_insufficient_funds (e : TransactionSubmitError) : bool :=
  match e with InsufficientFunds _ => true | _ => false end.

(** [From<ClientModuleError>]. *)
Definition submit_error_of (e : ClientModuleError) : TransactionSubmitError :=
  match e with ClientInsufficientBalance e => InsufficientFunds e | e => PrimaryModule e end.

Record FeeQuote := { quote_input : Amounts.t; quote_output : Amounts.t; quote_dust : Amounts.t }.

Definition FeeQuote_ZERO : FeeQuote :=
  {| quote_input := Amounts.ZERO; quote_output := Amounts.ZERO; quote_dust := Amounts.ZERO |}.

(** [None] is the panic of [expect]. *)
Definition FeeQuote_total (q : FeeQuote) : option Amounts.t :=
  sum ← Amounts.checked_add (quote_input q) (quote_output q); Amounts.checked_add sum (quote_dust q).

(** ** Binary search

    The loop shared by both searches; the midpoint is biased up.  The outer
    [None] is a search that did not end within the fuel. *)
Fixpoint search {E} (p : Z -> outcome E bool) (fuel : nat) (lo hi : Z) : option (outcome E Z) :=
  match fuel with
  | O => None
  | S fuel =>
      if lo <? hi then
        let mid := lo + (hi - lo + 1) / 2 in
        match p mid with
        | Ok true => search p fuel mid hi
        | Ok false => search p fuel lo (mid - 1)
        | Err e => Some (Err e)
        | Panic => Some Panic
        end
      else Some (Ok lo)
  end.

(** Every step halves the range of a [u64]. *)
Definition SEARCH_FUEL : nat := 65.

Section send.
Context (balance : Z) (gross_up : Z -> Z) (fee_quote : Z -> outcome TransactionSubmitError FeeQuote).

Definition send_amount_affordable (amount : Z) : outcome TransactionSubmitError bool :=
  let funded_amount := gross_up amount in
  if balance <? funded_amount then Ok false
  else match fee_quote funded_amount with
       | Ok quote =>
           match FeeQuote_total quote with
           | Some total => Ok (Amount.add funded_amount (Amounts.get_bitcoin total) <=? balance)
           | None => Panic
           end
       | Err e => if is_insufficient_funds e then Ok false else Err e
       | Panic => Panic
       end.

(** The search without quotes for what the balance can fund. *)
Definition fundable_max (lo_bound hi_bound : Z) : option (outcome TransactionSubmitError Z) :=
  search (fun mid => Ok (gross_up mid <=? balance)) SEARCH_FUEL lo_bound hi_bound.

(** [clamp], which panics when its bounds are swapped. *)
Definition clamp {E} (lo hi x : Z) : outcome E Z := if hi <? lo then Panic else Ok (Z.max lo (Z.min hi x)).

(** What the quote at the fundable maximum gives: the answer, or a lower bound
    that is known to be affordable, or neither. *)
Inductive Seed := Answer (amount : Z) | Seeded (lo : Z) | Unseeded.

Definition seed_search (lo_bound fundable : Z) : outcome TransactionSubmitError Seed :=
  let funded := gross_up fundable in
  match fee_quote funded with
  | Ok quote =>
      match FeeQuote_total quote with
      | None => Panic
      | Some fee =>
          let total := saturating_add funded (Amounts.get_bitcoin fee) in
          if total <=? balance then Ok (Answer fundable)
          else
            let overhead := saturating_sub total fundable in
            match clamp lo_bound fundable (saturating_sub balance overhead) with
            | Ok seed =>
                match send_amount_affordable seed with
                | Ok true => Ok (Seeded seed)
                | Ok false => Ok Unseeded
                | Err e => Err e
                | Panic => Panic
                end
            | Err e => Err e
            | Panic => Panic
            end
      end
  | Err e => if is_insufficient_funds e then Ok Unseeded else Err e
  | Panic => Panic
  end.

Definition search_from (lo hi : Z) : option (outcome TransactionSubmitError (option Z)) :=
  match search send_amount_affordable SEARCH_FUEL lo hi with
  | None => None
  | Some (Ok x) => Some (Ok (Some x))
  | Some (Err e) => Some (Err e)
  | Some Panic => Some Panic
  end.

Definition max_affordable_send_amount (min_amount max_amount : Z)
    : option (outcome TransactionSubmitError (option Z)) :=
  let hi_bound := Z.min max_amount balance in
  let lo_bound := min_amount in
  if hi_bound <? lo_bound then Some (Ok None)
  else if balance <? gross_up lo_bound then Some (Ok None)
  else
    match fundable_max lo_bound hi_bound with
    | Some (Ok fundable) =>
        match seed_search lo_bound fundable with
        | Ok (Answer amount) => Some (Ok (Some amount))
        | Ok (Seeded lo) => search_from lo fundable
        | Ok Unseeded =>
            match send_amount_affordable lo_bound with
            | Ok true => search_from lo_bound fundable
            | Ok false => Some (Ok None)
            | Err e => Some (Err e)
            | Panic => Some Panic
            end
        | Err e => Some (Err e)
        | Panic => Some Panic
        end
    | Some (Err e) => Some (Err e)
    | Some Panic => Some Panic
    | None => None
    end.
End send.

(** ** The search *)

Section search.
Context {E : Type} (p : Z -> outcome E bool).

Definition monotone : Prop := forall x y, x <= y -> p y = Ok true -> p x = Ok true.

(** Where a search ends. *)
Definition search_result (lo hi : Z) (r : outcome E Z) : Prop :=
  match r with
  | Ok x => lo <= x <= hi /\ (x = lo \/ p x = Ok true) /\ (monotone -> forall y, x < y <= hi -> p y <> Ok true)
  | Err e => exists x, p x = Err e
  | Panic => exists x, p x = Panic
  end.

Lemma search_spec fuel lo hi :
  lo <= hi -> hi - lo < 2 ^ Z.of_nat fuel -> exists r, search p (S fuel) lo hi = Some r /\ search_result lo hi r.
Proof.
  revert lo hi. induction fuel as [|fuel IH]; intros lo hi Hle Hb.
  { exists (Ok lo). cbn [search]. rewrite (proj2 (Z.ltb_ge _ _)) by lia. split; [done|]. simpl. split_and!; [lia|lia|by left|lia]. }
  rewrite Nat2Z.inj_succ, Z.pow_succ_r in Hb by lia. cbn [search]. destruct (Z.ltb_spec lo hi) as [Hlt|Hge].
  2: { exists (Ok lo). split; [done|]. simpl. split_and!; [lia|lia|by left|lia]. }
  set (mid := lo + (hi - lo + 1) / 2).
  assert (Hmid : lo < mid <= hi /\ hi - mid <= (hi - lo) / 2 /\ mid - 1 - lo <= (hi - lo) / 2 /\ (hi - lo) / 2 < 2 ^ Z.of_nat fuel)
    by (unfold mid; Z.to_euclidean_division_equations; lia).
  destruct (p mid) as [[|]|e|] eqn:Hp; [| |by exists (Err e); split; [|exists mid]|by exists Panic; split; [|exists mid]].
  - destruct (IH mid hi) as (r & Hr & Hres); [lia|lia|]. exists r. split; [exact Hr|].
    destruct r as [x|e|]; simpl in *; [|done|done]. destruct Hres as (Hx & [->|Hpx] & Hmax); (split_and!; [lia|lia|by right|done]).
  - destruct (IH lo (mid - 1)) as (r & Hr & Hres); [lia|lia|]. exists r. split; [exact Hr|].
    destruct r as [x|e|]; simpl in *; [|done|done]. destruct Hres as (Hx & Hpx & Hmax). split_and!; [lia|lia|done|].
    intros Hmono y Hy Hpy. destruct (decide (y <= mid - 1)); [by apply (Hmax Hmono y); [lia|]|].
    pose proof (Hmono mid y ltac:(lia) Hpy). congruence.
Qed.

Lemma search_u64 lo hi : 0 <= lo <= hi -> hi <= u64_max -> exists r, search p SEARCH_FUEL lo hi = Some r /\ search_result lo hi r.
Proof. intros Hl Hh. apply search_spec; [lia|]. change (2 ^ Z.of_nat 64) with (u64_max + 1). lia. Qed.
End search.

(** ** The amount *)

Section correct.
Context (balance : Z) (gross_up : Z -> Z) (fee_quote : Z -> outcome TransactionSubmitError FeeQuote).

(** Fees are amounts, and far from overflowing one. *)
Definition quotes_ok : Prop := forall v q, fee_quote v = Ok q ->
  exists t, FeeQuote_total q = Some t /\ 0 <= Amounts.get_bitcoin t <= 2 ^ 63.

(** What it means that an amount can be sent: the quote of the value it is
    grossed up to, and that value, fit in the balance. *)
Definition affordable (x : Z) : Prop := exists q t, fee_quote (gross_up x) = Ok q /\ FeeQuote_total q = Some t /\
  gross_up x + Amounts.get_bitcoin t <= balance.

Hypothesis balance_ok : 0 <= balance <= max_funds.
Hypothesis gross_up_ok : forall x, is_u64 (gross_up x).
Hypothesis fees_ok : quotes_ok.

Lemma affordable_funded x : affordable x -> gross_up x <= balance.
Proof using fees_ok.
  intros (q & t & Hq & Ht & Hle). destruct (fees_ok _ _ Hq) as (t' & Ht' & Hb). rewrite Ht in Ht'. simplify_eq. lia.
Qed.

Lemma affordable_iff x : send_amount_affordable balance gross_up fee_quote x = Ok true <-> affordable x.
Proof using balance_ok gross_up_ok fees_ok.
  unfold send_amount_affordable. destruct (Z.ltb_spec balance (gross_up x)) as [Hgt|Hle].
  { split; [done|]. intros Ha%affordable_funded. lia. }
  destruct (fee_quote (gross_up x)) as [q|e|] eqn:Hq.
  - destruct (fees_ok _ _ Hq) as (t & Ht & Hb). rewrite Ht. pose proof (gross_up_ok x) as Hg. pose proof balance_ok as Hbal. unfold Amount.add.
    rewrite wrap_u64_small by (unfold max_funds, is_u64, u64_max in *; lia). split.
    + intros [= Hx%Z.leb_le]. by exists q, t.
    + intros (q' & t' & Hq' & Ht' & Hx). rewrite Hq in Hq'. simplify_eq. by rewrite (proj2 (Z.leb_le _ _)).
  - unfold affordable. rewrite Hq. split; [by destruct (is_insufficient_funds e)|]. by intros (? & ? & ? & _).
  - unfold affordable. rewrite Hq. split; [done|]. by intros (? & ? & ? & _).
Qed.

(** A quote fails for another reason than missing funds. *)
Lemma affordable_Err x e :
  send_amount_affordable balance gross_up fee_quote x = Err e -> is_insufficient_funds e = false /\ exists v, fee_quote v = Err e.
Proof.
  unfold send_amount_affordable. destruct (_ <? _); [done|]. destruct (fee_quote (gross_up x)) as [q|e'|] eqn:Hq; [|..|done].
  - by destruct (FeeQuote_total q).
  - destruct (is_insufficient_funds e') eqn:He; [done|]. intros [= ->]. split; [done|by eexists].
Qed.

Lemma affordable_Panic x : send_amount_affordable balance gross_up fee_quote x = Panic -> exists v, fee_quote v = Panic.
Proof using fees_ok.
  unfold send_amount_affordable. destruct (_ <? _); [done|]. destruct (fee_quote (gross_up x)) as [q|e'|] eqn:Hq; [|by destruct (is_insufficient_funds e')|by eexists].
  destruct (fees_ok _ _ Hq) as (t & Ht & _). by rewrite Ht.
Qed.

(** What is assumed for the result to be the maximum. *)
Definition fees_monotone : Prop :=
  (forall x y, x <= y -> gross_up x <= gross_up y) /\ (forall x y, x <= y -> affordable y -> affordable x).

(** What the whole search promises for a range. *)
Definition send_result (lo hi : Z) (r : outcome TransactionSubmitError (option Z)) : Prop :=
  match r with
  | Ok (Some x) => lo <= x <= hi /\ affordable x /\ (fees_monotone -> forall y, x < y <= hi -> ~ affordable y)
  | Ok None => fees_monotone -> forall y, lo <= y <= hi -> ~ affordable y
  | Err e => is_insufficient_funds e = false /\ exists v, fee_quote v = Err e
  | Panic => exists v, fee_quote v = Panic
  end.

(** The second search, from an affordable amount. *)
Lemma search_from_result lo0 lo hi :
  0 <= lo0 <= lo -> lo <= hi <= u64_max -> affordable lo ->
  exists r, search_from balance gross_up fee_quote lo hi = Some r /\ send_result lo0 hi r.
Proof using balance_ok gross_up_ok fees_ok.
  intros Hlo Hhi Ha. unfold search_from.
  destruct (search_u64 (send_amount_affordable balance gross_up fee_quote) lo hi) as (r & Hr & Hres); [lia|lia|]. rewrite Hr.
  destruct r as [x|e|]; simpl in Hres; (eexists; split; [reflexivity|]); simpl.
  - destruct Hres as (Hx & Hpx & Hmax). rewrite affordable_iff in Hpx. split_and!; [lia|lia|by destruct Hpx as [->|]|].
    intros [_ Hmono] y Hy Hay. refine (Hmax _ y Hy (proj2 (affordable_iff y) Hay)). intros x' y' Hle. rewrite !affordable_iff. by apply Hmono.
  - destruct Hres as [x Hx]. by apply affordable_Err in Hx.
  - destruct Hres as [x Hx]. by apply affordable_Panic in Hx.
Qed.

(** An upper bound that can be replaced by one above which nothing is affordable. *)
Lemma send_result_widen lo hi hi' r :
  hi <= hi' -> (fees_monotone -> forall y, hi < y <= hi' -> ~ affordable y) -> send_result lo hi r -> send_result lo hi' r.
Proof.
  intros Hle Hno. destruct r as [[x|]|e|]; simpl; [..|done|done].
  - intros (Hx & Ha & Hmax). split_and!; [lia|lia|done|]. intros Hm y Hy. destruct (decide (y <= hi)); [apply Hmax; [done|lia]|apply Hno; [done|lia]].
  - intros Hnone Hm y Hy. destruct (decide (y <= hi)); [apply Hnone; [done|lia]|apply Hno; [done|lia]].
Qed.

(** What the probe at the fundable maximum yields. *)
Lemma seed_search_result lo fundable :
  0 <= lo <= fundable -> gross_up fundable <= balance ->
  match seed_search balance gross_up fee_quote lo fundable with
  | Ok (Answer x) => x = fundable /\ affordable fundable
  | Ok (Seeded x) => lo <= x <= fundable /\ affordable x
  | Ok Unseeded => True
  | Err e => is_insufficient_funds e = false /\ exists v, fee_quote v = Err e
  | Panic => exists v, fee_quote v = Panic
  end.
Proof using balance_ok gross_up_ok fees_ok.
  intros Hlo Hf. unfold seed_search. destruct (fee_quote (gross_up fundable)) as [q|e|] eqn:Hq; [| |by eexists].
  2: { destruct (is_insufficient_funds e) eqn:He; [done|]. split; [done|by eexists]. }
  destruct (fees_ok _ _ Hq) as (t & Ht & Hb). rewrite Ht. pose proof (gross_up_ok fundable) as Hg. pose proof balance_ok as Hbal.
  unfold max_funds, is_u64, u64_max in Hg, Hbal. unfold saturating_add. rewrite Z.min_r by (unfold u64_max; lia).
  destruct (Z.leb_spec (gross_up fundable + Amounts.get_bitcoin t) balance) as [Hle|]; [split; [done|by exists q, t]|].
  unfold clamp. rewrite (proj2 (Z.ltb_ge _ _)) by lia. set (seed := Z.max _ _).
  destruct (send_amount_affordable balance gross_up fee_quote seed) as [[|]|e|] eqn:Hs; [|done|by eapply affordable_Err|by eapply affordable_Panic].
  split; [unfold seed; lia|by apply affordable_iff].
Qed.

End correct.

(** ** A balance of ten thousand *)

Module SendExample.
(** The gateway takes one percent and the federation a flat fee of 100. *)
Definition gross_up (x : Z) : Z := if (0 <=? x) && (x <=? 2 ^ 60) then x + x / 100 else if x <? 0 then 0 else 2 ^ 61.
Definition fee_quote (v : Z) : outcome TransactionSubmitError FeeQuote :=
  if v <=? 9500 then Ok {| quote_input := Amounts.new_bitcoin 100; quote_output := ∅; quote_dust := ∅ |}
  else Err (InsufficientFunds {| requested_amount := v; balance_amount := 9500 |}).

End SendExample.
