(* ===== verification/ClientTx.v ===== *)
(** * Transactions of the client

    The transaction builder of
    [fedimint-client-module/src/transaction/builder.rs] and the part of
    [fedimint-client/src/client.rs] that balances a transaction with the
    primary module and quotes its fees.  Client modules are records of the
    operations the client calls; the promise a primary module makes is a class. *)

From S2P Require Import Prelude Amounts ServerModule Transaction Tiered NoteSelection MintClient SendAmount.

(** ** The builder *)

(** Ranges of indices, without the end. *)
Record IdxRange := { range_start : Z; range_end : Z }.
Definition from_inclusive (first last : Z) : option IdxRange :=
  e ← checked_add last 1; Some {| range_start := first; range_end := e |}.

Record OutPointRange := { range_txid : Z; idx_range : IdxRange }.

(** The indices of a range and their number. *)
Definition idx_iter (r : IdxRange) : list Z := seqZ (range_start r) (range_end r - range_start r).
Definition idx_count (r : IdxRange) : nat := length (idx_iter r).

Section builder.
(** Inputs, outputs, key pairs and states of state machines. *)
Context {In Out Key State : Type}.

Record DynClientInput := { input : Dyn In; keys : list Key; input_amounts : Amounts.t }.
Record DynClientOutput := { output : Dyn Out; output_amounts : Amounts.t }.

(** The function that makes the states once the range of the items is known;
    [None] is a panic. *)
Definition StateGenerator : Type := OutPointRange -> option (list State).

Record ClientInputBundle := { bundle_inputs : list DynClientInput; input_sm_gens : list StateGenerator }.
Record ClientOutputBundle := { bundle_outputs : list DynClientOutput; output_sm_gens : list StateGenerator }.

Record TransactionBuilder := { tb_inputs : list ClientInputBundle; tb_outputs : list ClientOutputBundle }.

Definition TransactionBuilder_new : TransactionBuilder := {| tb_inputs := []; tb_outputs := [] |}.

Definition with_inputs (b : TransactionBuilder) (i : ClientInputBundle) : TransactionBuilder :=
  {| tb_inputs := tb_inputs b ++ [i]; tb_outputs := tb_outputs b |}.
Definition with_outputs (b : TransactionBuilder) (o : ClientOutputBundle) : TransactionBuilder :=
  {| tb_inputs := tb_inputs b; tb_outputs := tb_outputs b ++ [o] |}.

Definition builder_inputs (b : TransactionBuilder) : list DynClientInput := tb_inputs b ≫= bundle_inputs.
Definition builder_outputs (b : TransactionBuilder) : list DynClientOutput := tb_outputs b ≫= bundle_outputs.

(** [arr.windows(2).all(|w| w[0] <= w[1])]. *)
Fixpoint windows_sorted (arr : list Z) : bool :=
  match arr with
  | x :: ((y :: _) as arr) => (x <=? y) && windows_sorted arr
  | _ => true
  end.

(** The indices of the entries that are equal to the item. *)
Fixpoint matching_indices (arr_idx : Z) (arr : list Z) (item : Z) : list Z :=
  match arr with
  | [] => []
  | arr_item :: arr =>
      if arr_item =? item then arr_idx :: matching_indices (arr_idx + 1) arr item
      else matching_indices (arr_idx + 1) arr item
  end.

(** The outer [None] is the assertion that the array is sorted. *)
Definition find_range_of_matching_items (arr : list Z) (item : Z) : option (option (Z * Z)) :=
  if windows_sorted arr then
    Some (foldl (fun cur idx => Some match cur with
            | None => (idx, idx)
            | Some cur => (Z.min cur.1 idx, Z.max cur.2 idx)
            end) None (matching_indices 0 arr item))
  else None.

(** [idx_to_bundle_idx]: for every item the index of its bundle. *)
Fixpoint bundle_indices (bundle_idx : Z) (sizes : list nat) : list Z :=
  match sizes with
  | [] => []
  | n :: sizes => replicate n bundle_idx ++ bundle_indices (bundle_idx + 1) sizes
  end.

Definition generate (sm_gens : list StateGenerator) (range : OutPointRange) : option (list State) :=
  mjoin <$> mapM (fun sm => sm range) sm_gens.

(** The states of the bundles from [bundle_idx] on, for items and state machines
    of either side; [None] is a panic. *)
Fixpoint bundle_states (txid : Z) (idxs : list Z) (bundle_idx : Z) (bundles : list (nat * list StateGenerator))
    : option (list State) :=
  match bundles with
  | [] => Some []
  | (n, sm_gens) :: bundles =>
      states ← (if (n =? 0)%nat then Some [] else
        found ← find_range_of_matching_items idxs bundle_idx;
        found ← found;
        range ← from_inclusive found.1 found.2;
        generate sm_gens {| range_txid := txid; idx_range := range |});
      rest ← bundle_states txid idxs (bundle_idx + 1) bundles;
      Some (states ++ rest)
  end.

Definition input_entry (i : ClientInputBundle) : nat * list StateGenerator := (length (bundle_inputs i), input_sm_gens i).
Definition output_entry (o : ClientOutputBundle) : nat * list StateGenerator := (length (bundle_outputs o), output_sm_gens o).
Definition input_side (b : TransactionBuilder) : list (nat * list StateGenerator) := input_entry <$> tb_inputs b.
Definition output_side (b : TransactionBuilder) : list (nat * list StateGenerator) := output_entry <$> tb_outputs b.

(** The hash of the parts of a transaction and the signature of a hash. *)
Context (tx_hash_from_parts : list (Dyn In) -> list (Dyn Out) -> Z -> Z) (sign_schnorr : Z -> Key -> Z).

Definition build (b : TransactionBuilder) (nonce : Z) : option (Transaction In Out * list State) :=
  let inputs := input <$> builder_inputs b in
  let outputs := output <$> builder_outputs b in
  let txid := tx_hash_from_parts inputs outputs nonce in
  let signatures := sign_schnorr txid <$> (builder_inputs b ≫= keys) in
  input_states ← bundle_states txid (bundle_indices 0 (input_side b).*1) 0 (input_side b);
  output_states ← bundle_states txid (bundle_indices 0 (output_side b).*1) 0 (output_side b);
  Some ({| inputs := inputs; outputs := outputs; nonce := nonce; signatures := NaiveMultisig signatures |},
        input_states ++ output_states).

(** *** Ranges *)

(** The reference: every bundle has the range from the number of items before
    it, and no states when it is empty. *)
Fixpoint states_from (txid offset : Z) (bundles : list (nat * list StateGenerator)) : option (list State) :=
  match bundles with
  | [] => Some []
  | (n, sm_gens) :: bundles =>
      states ← (if (n =? 0)%nat then Some [] else
        generate sm_gens {| range_txid := txid; idx_range := {| range_start := offset; range_end := offset + Z.of_nat n |} |});
      rest ← states_from txid (offset + Z.of_nat n) bundles;
      Some (states ++ rest)
  end.

(** The state machines of a bundle accept every range of its size. *)
Definition gens_total (e : nat * list StateGenerator) : Prop :=
  Forall (fun sm => forall range, idx_count (idx_range range) = e.1 -> is_Some (sm range)) e.2.

Lemma generate_total e range : gens_total e -> idx_count (idx_range range) = e.1 -> is_Some (generate e.2 range).
Proof.
  intros Hg Hc. unfold generate. apply fmap_is_Some, mapM_is_Some_2. eapply Forall_impl; [exact Hg|]. simpl. auto.
Qed.

Lemma states_from_total txid offset bundles : Forall gens_total bundles -> is_Some (states_from txid offset bundles).
Proof.
  intros Hg. revert offset. induction Hg as [|[n gens] bundles He _ IH]; intros offset; [done|]. cbn [states_from].
  assert (is_Some (if (n =? 0)%nat then Some [] else
    generate gens {| range_txid := txid; idx_range := {| range_start := offset; range_end := offset + Z.of_nat n |} |})) as [sts ->].
  { destruct (n =? 0)%nat; [done|]. apply (generate_total (n, gens)); [done|]. unfold idx_count, idx_iter. simpl. rewrite length_seqZ. lia. }
  destruct (IH (offset + Z.of_nat n)) as [rest Hrest]. cbn [mbind option_bind]. by rewrite Hrest.
Qed.

Lemma matching_indices_app k arr arr' item :
  matching_indices k (arr ++ arr') item
    = matching_indices k arr item ++ matching_indices (k + Z.of_nat (length arr)) arr' item.
Proof.
  revert k. induction arr as [|x arr IH]; intros k; simpl; [f_equal; lia|].
  rewrite IH. replace (k + 1 + Z.of_nat (length arr)) with (k + Z.of_nat (S (length arr))) by lia. by destruct (x =? item).
Qed.

Lemma matching_indices_none k arr item : item ∉ arr -> matching_indices k arr item = [].
Proof.
  revert k. induction arr as [|x arr IH]; intros k Hn; [done|]. apply not_elem_of_cons in Hn as [Hx Hn]. simpl.
  rewrite (proj2 (Z.eqb_neq _ _)) by congruence. by apply IH.
Qed.

Lemma matching_indices_replicate k n item : matching_indices k (replicate n item) item = seqZ k (Z.of_nat n).
Proof.
  revert k. induction n as [|n IH]; intros k; [done|]. cbn [replicate matching_indices]. rewrite Z.eqb_refl, IH.
  rewrite (seqZ_cons k) by lia. do 2 f_equal; lia.
Qed.

Lemma range_of_seqZ k (n : nat) cur :
  cur.1 <= cur.2 < k ->
  foldl (fun cur idx => Some match cur with None => (idx, idx) | Some cur => (Z.min cur.1 idx, Z.max cur.2 idx) end)
    (Some cur) (seqZ k (Z.of_nat n)) = Some (cur.1, if (n =? 0)%nat then cur.2 else k + Z.of_nat n - 1).
Proof.
  revert k cur. induction n as [|n IH]; intros k cur Hc; [by destruct cur|].
  rewrite (seqZ_cons k) by lia. cbn [foldl]. replace (Z.pred (Z.of_nat (S n))) with (Z.of_nat n) by lia.
  rewrite IH by (simpl; lia). simpl. rewrite Z.min_l, Z.max_r by lia. do 2 f_equal. destruct n; simpl; lia.
Qed.

Lemma find_range_middle pre (n : nat) item post :
  windows_sorted (pre ++ replicate (S n) item ++ post) = true -> item ∉ pre -> item ∉ post ->
  find_range_of_matching_items (pre ++ replicate (S n) item ++ post) item
    = Some (Some (Z.of_nat (length pre), Z.of_nat (length pre) + Z.of_nat n)).
Proof.
  intros Hs Hpre Hpost. unfold find_range_of_matching_items. rewrite Hs, !matching_indices_app.
  rewrite (matching_indices_none 0 pre), (matching_indices_none _ post), app_nil_r by done. rewrite matching_indices_replicate.
  rewrite (seqZ_cons _) by lia. cbn [foldl app]. replace (Z.pred (Z.of_nat (S n))) with (Z.of_nat n) by lia.
  rewrite range_of_seqZ by (simpl; lia). do 2 f_equal. destruct n; simpl; f_equal; lia.
Qed.

Lemma bundle_indices_bounds k sizes : Forall (fun x => k <= x) (bundle_indices k sizes).
Proof.
  revert k. induction sizes as [|n sizes IH]; intros k; [constructor|]. simpl. apply Forall_app. split.
  - apply Forall_replicate. lia.
  - eapply Forall_impl; [apply IH|]. simpl. lia.
Qed.

Lemma windows_sorted_cons x l : Forall (fun y => x <= y) l -> windows_sorted l = true -> windows_sorted (x :: l) = true.
Proof. intros Hl Hs. destruct l as [|y l]; [done|]. inversion Hl; subst. cbn [windows_sorted]. rewrite (proj2 (Z.leb_le _ _)) by lia. exact Hs. Qed.

Lemma bundle_indices_sorted k sizes : windows_sorted (bundle_indices k sizes) = true.
Proof.
  revert k. induction sizes as [|n sizes IH]; intros k; [done|]. simpl. induction n as [|n IHn]; [apply IH|]. simpl.
  apply windows_sorted_cons; [|done]. apply Forall_app. split; [apply Forall_replicate; lia|].
  eapply Forall_impl; [apply bundle_indices_bounds|]. simpl. lia.
Qed.

Lemma bundle_states_from txid pre k bundles :
  Forall (fun x => x < k) pre -> windows_sorted (pre ++ bundle_indices k bundles.*1) = true ->
  Z.of_nat (length (pre ++ bundle_indices k bundles.*1)) <= u64_max ->
  bundle_states txid (pre ++ bundle_indices k bundles.*1) k bundles = states_from txid (Z.of_nat (length pre)) bundles.
Proof.
  revert pre k. induction bundles as [|[n sms] bundles IH]; intros pre k Hpre Hs Hlen; [done|].
  cbn [fmap list_fmap fst bundle_indices] in *. cbn [bundle_states states_from].
  assert (Harr : pre ++ replicate n k ++ bundle_indices (k + 1) bundles.*1 = (pre ++ replicate n k) ++ bundle_indices (k + 1) bundles.*1)
    by by rewrite (assoc_L (++)).
  assert (Hrest : bundle_states txid (pre ++ replicate n k ++ bundle_indices (k + 1) bundles.*1) (k + 1) bundles
      = states_from txid (Z.of_nat (length pre) + Z.of_nat n) bundles).
  { rewrite Harr in Hs, Hlen |- *. rewrite IH; [by rewrite length_app, length_replicate, Nat2Z.inj_add| |done|done].
    apply Forall_app. split; [eapply Forall_impl; [exact Hpre|]; simpl; lia|]. apply Forall_replicate. lia. }
  rewrite Hrest. destruct n as [|n]; [done|]. cbn [Nat.eqb].
  rewrite find_range_middle; [|done| |].
  - cbn [mbind option_bind fst snd]. unfold from_inclusive. rewrite !length_app, length_replicate in Hlen.
    assert (Hc : checked_add (Z.of_nat (length pre) + Z.of_nat n) 1 = Some (Z.of_nat (length pre) + Z.of_nat (S n)))
      by (apply checked_add_Some; lia).
    rewrite Hc. done.
  - intros Hin. rewrite Forall_forall in Hpre. specialize (Hpre k Hin). lia.
  - intros Hin. pose proof (proj1 (Forall_forall _ _) (bundle_indices_bounds (k + 1) bundles.*1) k Hin). simpl in *. lia.
Qed.

Lemma bundle_indices_length k (sizes : list nat) : length (bundle_indices k sizes) = sum_list_with id sizes.
Proof. revert k. induction sizes as [|n sizes IH]; intros k; [done|]. simpl. by rewrite length_app, length_replicate, IH. Qed.

Lemma items_length {A B} (f : A -> list B) (l : list A) : sum_list_with id ((fun x => length (f x)) <$> l) = length (l ≫= f).
Proof. induction l as [|x l IH]; [done|]. rewrite fmap_cons, bind_cons, length_app. simpl. by rewrite IH. Qed.

Lemma side_states txid (side : list (nat * list StateGenerator)) :
  Z.of_nat (sum_list_with id side.*1) <= u64_max ->
  bundle_states txid (bundle_indices 0 side.*1) 0 side = states_from txid 0 side.
Proof.
  intros Hlen. apply (bundle_states_from txid [] 0 side); [constructor|apply bundle_indices_sorted|].
  simpl. by rewrite bundle_indices_length.
Qed.

Lemma build_bundle_states b nonce :
  Z.of_nat (length (builder_inputs b)) <= u64_max -> Z.of_nat (length (builder_outputs b)) <= u64_max ->
  Forall gens_total (input_side b) -> Forall gens_total (output_side b) ->
  let txid := tx_hash_from_parts (input <$> builder_inputs b) (output <$> builder_outputs b) nonce in
  exists si so, states_from txid 0 (input_side b) = Some si /\ states_from txid 0 (output_side b) = Some so /\
  build b nonce = Some ({| inputs := input <$> builder_inputs b; outputs := output <$> builder_outputs b; Transaction.nonce := nonce;
      signatures := NaiveMultisig (sign_schnorr txid <$> (builder_inputs b ≫= keys)) |}, si ++ so).
Proof.
  intros Hi Ho Hgi Hgo txid. assert (Hin : (input_side b).*1 = (fun i => length (bundle_inputs i)) <$> tb_inputs b).
  { unfold input_side. by rewrite <- list_fmap_compose. }
  assert (Hout : (output_side b).*1 = (fun o => length (bundle_outputs o)) <$> tb_outputs b).
  { unfold output_side. by rewrite <- list_fmap_compose. }
  destruct (states_from_total txid 0 _ Hgi) as [si Hsi], (states_from_total txid 0 _ Hgo) as [so Hso].
  exists si, so. split_and!; [done|done|].
  unfold build. fold txid. rewrite !side_states by (rewrite ?Hin, ?Hout, items_length; done). by rewrite Hsi, Hso.
Qed.

Lemma build_parts b nonce tx sts :
  build b nonce = Some (tx, sts) ->
  let txid := tx_hash_from_parts (input <$> builder_inputs b) (output <$> builder_outputs b) nonce in
  tx = {| inputs := input <$> builder_inputs b; outputs := output <$> builder_outputs b; Transaction.nonce := nonce;
          signatures := NaiveMultisig (sign_schnorr txid <$> (builder_inputs b ≫= keys)) |}.
Proof. unfold build. intros Hb. by destruct (bundle_states _ _ _ (input_side b)), (bundle_states _ _ _ (output_side b)); simplify_eq/=. Qed.

(** The states are those of the bundles with their own ranges. *)
Lemma build_states b nonce tx sts :
  Z.of_nat (length (builder_inputs b)) <= u64_max -> Z.of_nat (length (builder_outputs b)) <= u64_max ->
  build b nonce = Some (tx, sts) ->
  let txid := tx_hash_from_parts (input <$> builder_inputs b) (output <$> builder_outputs b) nonce in
  exists si so, states_from txid 0 (input_side b) = Some si /\ states_from txid 0 (output_side b) = Some so /\ sts = si ++ so.
Proof.
  intros Hi Ho Hb txid. unfold build in Hb. fold txid in Hb.
  assert (Hin : (input_side b).*1 = (fun i => length (bundle_inputs i)) <$> tb_inputs b) by (unfold input_side; by rewrite <- list_fmap_compose).
  assert (Hout : (output_side b).*1 = (fun o => length (bundle_outputs o)) <$> tb_outputs b) by (unfold output_side; by rewrite <- list_fmap_compose).
  rewrite !side_states in Hb by (rewrite ?Hin, ?Hout, items_length; done).
  destruct (states_from txid 0 (input_side b)) as [si|]; [|done]. destruct (states_from txid 0 (output_side b)) as [so|]; [|done].
  simplify_eq/=. by exists si, so.
Qed.

(** Building a transaction does not panic when the state machines of every
    bundle accept a range of the bundle's size.  The inputs and outputs are
    those of the bundles in order, and the state machines of every bundle that
    is not empty are started with exactly the range of the bundle's own items
    in the transaction. *)
Theorem build_bundle_ranges b nonce :
  Z.of_nat (length (builder_inputs b)) <= u64_max -> Z.of_nat (length (builder_outputs b)) <= u64_max ->
  Forall gens_total (input_side b) -> Forall gens_total (output_side b) ->
  exists tx si so, build b nonce = Some (tx, si ++ so) /\
    inputs tx = input <$> builder_inputs b /\ outputs tx = output <$> builder_outputs b /\
    states_from (tx_hash_from_parts (inputs tx) (outputs tx) nonce) 0 (input_side b) = Some si /\
    states_from (tx_hash_from_parts (inputs tx) (outputs tx) nonce) 0 (output_side b) = Some so /\
    signatures tx = NaiveMultisig (sign_schnorr (tx_hash_from_parts (inputs tx) (outputs tx) nonce) <$> (builder_inputs b ≫= keys)).
Proof.
  intros Hi Ho Hgi Hgo. destruct (build_bundle_states b nonce Hi Ho Hgi Hgo) as (si & so & Hsi & Hso & Hb).
  eexists _, si, so. split; [exact Hb|done].
Qed.
End builder.

(** ** The client *)

Section client.
Context {D In Out Key State : Type}.
Local Abbreviation InputBundle := (@ClientInputBundle In Key State).
Local Abbreviation OutputBundle := (@ClientOutputBundle Out State).
Local Abbreviation Builder := (@TransactionBuilder In Out Key State).

(** What the client calls of a module: the fees it expects for an item, and
    the balancing of a transaction, with the id of the instance, the unit and
    the amounts of both sides. *)
Record ClientModule := {
  input_fee : Amounts.t -> In -> option Amounts.t;
  output_fee : Amounts.t -> Out -> option Amounts.t;
  create_final : Z -> Z -> Z -> Z -> M D ClientModuleError (InputBundle * OutputBundle);
}.

(** [PrimaryModuleSupport]. *)
Inductive PrimaryModuleSupport := SupportsAny (priority : Z) | SupportsSelected (priority : Z) (units : list Z) | SupportsNone.

Record PrimaryModuleCandidates := { specific : gmap Z (list Z); wildcard : list Z }.
Definition no_candidates : PrimaryModuleCandidates := {| specific := ∅; wildcard := [] |}.

(** The loop of the client builder over its modules. *)
Definition add_primary (primary_modules : gmap Z PrimaryModuleCandidates) (m : Z * PrimaryModuleSupport)
    : gmap Z PrimaryModuleCandidates :=
  match m.2 with
  | SupportsAny priority =>
      let c := default no_candidates (primary_modules !! priority) in
      <[priority := {| specific := specific c; wildcard := wildcard c ++ [m.1] |}]> primary_modules
  | SupportsSelected priority units =>
      foldl (fun pm unit =>
        let c := default no_candidates (pm !! priority) in
        <[priority := {| specific := <[unit := default [] (specific c !! unit) ++ [m.1]]> (specific c);
                         wildcard := wildcard c |}]> pm) primary_modules units
  | SupportsNone => primary_modules
  end.

Context (modules : gmap Z ClientModule) (primary_modules : gmap Z PrimaryModuleCandidates).

Definition primary_modules_for_unit (unit : Z) : list Z :=
  btree_iter primary_modules ≫= fun pc => default [] (specific pc.2 !! unit) ++ wildcard pc.2.

(** The inner [None] is a panic: the registry has the module. *)
Definition primary_module_for_unit (unit : Z) : option (option (Z * ClientModule)) :=
  match primary_modules_for_unit unit with
  | [] => None
  | id :: _ => Some (pair id <$> modules !! id)
  end.

(** The fees of an item by its module; [None] is a panic. *)
Definition input_fees (x : @DynClientInput In Key) : option Amounts.t :=
  m ← modules !! module_instance_id (input x); input_fee m (input_amounts x) (value (input x)).
Definition output_fees (x : @DynClientOutput Out) : option Amounts.t :=
  m ← modules !! module_instance_id (output x); output_fee m (output_amounts x) (value (output x)).

(** One round of the loops: the result of [checked_add_mut] is ignored. *)
Definition add_item (acc : Amounts.t * Amounts.t) (amounts fees : Amounts.t) : Amounts.t * Amounts.t :=
  ((Amounts.checked_add_mut acc.1 amounts).1, (Amounts.checked_add_mut acc.2 fees).1).

Fixpoint add_inputs (acc : Amounts.t * Amounts.t) (l : list (@DynClientInput In Key)) : option (Amounts.t * Amounts.t) :=
  match l with
  | [] => Some acc
  | x :: l => item_fees ← input_fees x; add_inputs (add_item acc (input_amounts x) item_fees) l
  end.
Fixpoint add_outputs (acc : Amounts.t * Amounts.t) (l : list (@DynClientOutput Out)) : option (Amounts.t * Amounts.t) :=
  match l with
  | [] => Some acc
  | x :: l => item_fees ← output_fees x; add_outputs (add_item acc (output_amounts x) item_fees) l
  end.

Definition transaction_builder_get_balance (b : Builder) : option (Amounts.t * Amounts.t) :=
  in_fee ← add_inputs (Amounts.ZERO, Amounts.ZERO) (builder_inputs b);
  out_fee ← add_outputs (Amounts.ZERO, in_fee.2) (builder_outputs b);
  Some (in_fee.1, (Amounts.checked_add_mut out_fee.1 out_fee.2).1).

(** [in_amounts.units().union(&out_amounts.units())], in order. *)
Definition all_units (in_amounts out_amounts : Amounts.t) : list Z := (btree_iter (in_amounts ∪ out_amounts)).*1.

Local Abbreviation MT A := (M D TransactionSubmitError A).

(** The primary module of a unit balances it. *)
Definition balance_unit (unit input_amount output_amount : Z) : MT (InputBundle * OutputBundle) :=
  match primary_module_for_unit unit with
  | None => throw (NoPrimaryModule unit)
  | Some None => panic
  | Some (Some (module_id, m)) => map_err submit_error_of (create_final m module_id unit input_amount output_amount)
  end.

Fixpoint balance_units (in_amounts out_amounts : Amounts.t) (units : list Z) : MT (list InputBundle * list OutputBundle) :=
  match units with
  | [] => mret ([], [])
  | unit :: units =>
      let input_amount := Amounts.get in_amounts unit in
      let output_amount := Amounts.get out_amounts unit in
      if input_amount =? output_amount then balance_units in_amounts out_amounts units
      else
        added ← balance_unit unit input_amount output_amount;
        rest ← balance_units in_amounts out_amounts units;
        mret (added.1 :: rest.1, added.2 :: rest.2)
  end.

(** The assertion that every unit is funded. *)
Definition check_funded (input_amounts output_amounts : Amounts.t) : bool :=
  forallb (fun uo => uo.2 <=? Amounts.get input_amounts uo.1) (btree_iter output_amounts).

(** A sum that panics on an overflow. *)
Definition total_of (l : list Amounts.t) : option Amounts.t :=
  foldl (fun acc a => total ← acc; Amounts.checked_add total a) (Some Amounts.ZERO) l.

Record FinalizedTransaction := {
  transaction : Transaction In Out;
  states : list State;
  change_range : IdxRange;
  tx_fees : Amounts.t;
}.

Context (tx_hash_from_parts : list (Dyn In) -> list (Dyn Out) -> Z -> Z) (sign_schnorr : Z -> Key -> Z).

Definition finalize_transaction (partial : Builder) (nonce : Z) : MT (FinalizedTransaction) :=
  balance ← expect (transaction_builder_get_balance partial);
  added ← balance_units balance.1 balance.2 (all_units balance.1 balance.2);
  let start := Z.of_nat (length (builder_outputs partial)) in
  let change := {| range_start := start;
    range_end := start + Z.of_nat (length (added.2 ≫= bundle_outputs)) |} in
  let partial := foldl with_outputs (foldl with_inputs partial added.1) added.2 in
  balance ← expect (transaction_builder_get_balance partial);
  _ ← rassert (check_funded balance.1 balance.2);
  input_total ← expect (total_of (input_amounts <$> builder_inputs partial));
  output_total ← expect (total_of (output_amounts <$> builder_outputs partial));
  fees ← expect (Amounts.checked_sub input_total output_total);
  built ← expect (build tx_hash_from_parts sign_schnorr partial nonce);
  mret {| transaction := built.1; states := built.2; change_range := change; tx_fees := fees |}.

(** *** Quoting fees *)

Record FeeQuoteRequest := { rq_input_amount : Amounts.t; rq_output_amount : Amounts.t; rq_input_fee : Amounts.t; rq_output_fee : Amounts.t }.

(** The change of the units is folded into the totals of both sides. *)
Fixpoint quote_units (balance_input balance_output : Amounts.t) (units : list Z)
    (ins outs : Amounts.t * Amounts.t) : MT ((Amounts.t * Amounts.t) * (Amounts.t * Amounts.t)) :=
  match units with
  | [] => mret (ins, outs)
  | unit :: units =>
      let input_amount := Amounts.get balance_input unit in
      let output_amount := Amounts.get balance_output unit in
      if input_amount =? output_amount then quote_units balance_input balance_output units ins outs
      else
        change ← balance_unit unit input_amount output_amount;
        ins ← expect (add_inputs ins (bundle_inputs change.1));
        outs ← expect (add_outputs outs (bundle_outputs change.2));
        quote_units balance_input balance_output units ins outs
  end.

(** The loop that computes the dust. *)
Definition add_dust (ins outs : Amounts.t * Amounts.t) (dust : option Amounts.t) (unit : Z) : option Amounts.t :=
  d ← dust;
  let total := saturating_sub (Amounts.get ins.1 unit) (Amounts.get outs.1 unit) in
  let fees := Amount.add (Amounts.get ins.2 unit) (Amounts.get outs.2 unit) in
  Amounts.checked_add_unit d (saturating_sub total fees) unit.

(** The database is that of a transaction which is dropped. *)
Definition fee_quote (request : FeeQuoteRequest) : MT FeeQuote :=
  balance_output ← expect (s ← Amounts.checked_add (rq_output_amount request) (rq_input_fee request);
                           Amounts.checked_add s (rq_output_fee request));
  totals ← quote_units (rq_input_amount request) balance_output (all_units (rq_input_amount request) balance_output)
    (rq_input_amount request, rq_input_fee request) (rq_output_amount request, rq_output_fee request);
  dust ← expect (foldl (add_dust totals.1 totals.2) (Some Amounts.ZERO) (all_units totals.1.1 totals.2.1));
  mret {| quote_input := totals.1.2; quote_output := totals.2.2; quote_dust := dust |}.
End client.

(** ** What the client promises *)

(** The funding check of the federation for items in order, as it runs over a
    transaction. *)
Fixpoint add_all (add : FundingVerifier -> TransactionItemAmounts -> M unit (TransactionError unit) FundingVerifier)
    (fv : FundingVerifier) (l : list TransactionItemAmounts) : M unit (TransactionError unit) FundingVerifier :=
  match l with
  | [] => mret fv
  | x :: l => fv ← add fv x; add_all add fv l
  end.

Definition server_funding (ins outs : list TransactionItemAmounts) (version : CoreConsensusVersion)
    : M unit (TransactionError unit) unit :=
  fv ← add_all add_input FundingVerifier_default ins;
  fv ← add_all add_output fv outs;
  verify_funding fv version.

Section correct.
Context {D In Out Key State : Type}.
Context (modules : gmap Z (@ClientModule D In Out Key State)) (primary_modules : gmap Z PrimaryModuleCandidates).
Context (tx_hash_from_parts : list (Dyn In) -> list (Dyn Out) -> Z -> Z) (sign_schnorr : Z -> Key -> Z).
(** The unit of the transaction. *)
Context (u : Z).
Local Abbreviation cust := (Amounts.new_custom u).
Local Abbreviation Input := (@DynClientInput In Key).
Local Abbreviation Output := (@DynClientOutput Out).

Definition unit_only (m : Amounts.t) : Prop := m = cust (Amounts.get m u) /\ 0 <= Amounts.get m u.

(** Items in the unit whose fees are known and in the unit. *)
Definition input_ok (x : Input) : Prop := unit_only (input_amounts x) /\ exists f, input_fees modules x = Some f /\ unit_only f.
Definition output_ok (x : Output) : Prop := unit_only (output_amounts x) /\ exists f, output_fees modules x = Some f /\ unit_only f.

Definition fee_value (f : option Amounts.t) : Z := Amounts.get (default ∅ f) u.
Definition in_value (l : list Input) : Z := sum_list ((fun x => Amounts.get (input_amounts x) u) <$> l).
Definition in_fees (l : list Input) : Z := sum_list ((fun x => fee_value (input_fees modules x)) <$> l).
Definition out_value (l : list Output) : Z := sum_list ((fun x => Amounts.get (output_amounts x) u) <$> l).
Definition out_fees (l : list Output) : Z := sum_list ((fun x => fee_value (output_fees modules x)) <$> l).

(** What a primary module promises: in a good state it balances what it is
    asked to, with items of its unit and within its funds, or reports an error. *)
Class Balances (good : D -> Prop) (m : @ClientModule D In Out Key State) (id : Z) : Prop :=
  balances : forall d i o, good d -> 0 <= i <= max_funds -> 0 <= o <= max_funds ->
    match create_final m id u i o d with
    | (Ok (ib, ob), _) =>
        Forall input_ok (bundle_inputs ib) /\ Forall output_ok (bundle_outputs ob) /\
        gens_total (input_entry ib) /\ gens_total (output_entry ob) /\
        Z.of_nat (length (bundle_inputs ib)) <= 2 ^ 62 /\ Z.of_nat (length (bundle_outputs ob)) <= 2 ^ 62 /\
        in_value (bundle_inputs ib) <= max_funds /\
        o + in_fees (bundle_inputs ib) + out_value (bundle_outputs ob) + out_fees (bundle_outputs ob)
          <= i + in_value (bundle_inputs ib)
    | (Err _, _) => True
    | (Panic, _) => False
    end.

(** *** Sums *)

Lemma sum_fmap_app {A} (f : A -> Z) l l' : sum_list (f <$> l ++ l') = sum_list (f <$> l) + sum_list (f <$> l').
Proof. by rewrite fmap_app, sum_list_app. Qed.

Lemma sum_fmap_nonneg {A} (f : A -> Z) l : Forall (fun x => 0 <= f x) l -> 0 <= sum_list (f <$> l).
Proof. induction 1 as [|x l Hx _ IH]; [done|]. rewrite fmap_cons, sum_list_cons. lia. Qed.

Lemma inputs_nonneg l : Forall input_ok l -> 0 <= in_value l /\ 0 <= in_fees l.
Proof.
  intros Hl. split; apply sum_fmap_nonneg; (eapply Forall_impl; [exact Hl|]); intros x [[_ Ha] (f & Hf & [_ Hf0])]; [done|].
  unfold fee_value. by rewrite Hf.
Qed.
Lemma outputs_nonneg l : Forall output_ok l -> 0 <= out_value l /\ 0 <= out_fees l.
Proof.
  intros Hl. split; apply sum_fmap_nonneg; (eapply Forall_impl; [exact Hl|]); intros x [[_ Ha] (f & Hf & [_ Hf0])]; [done|].
  unfold fee_value. by rewrite Hf.
Qed.

Lemma add_mut_custom a b : 0 <= a -> 0 <= b -> a + b <= u64_max -> (Amounts.checked_add_mut (cust a) (cust b)).1 = cust (a + b).
Proof. intros Ha Hb Hle. by rewrite (Amounts.checked_add_mut_Some _ _ _ (Amounts.checked_add_custom u a b Ha Hb Hle)). Qed.

Lemma add_inputs_sum l a f :
  Forall input_ok l -> 0 <= a -> 0 <= f -> a + in_value l <= u64_max -> f + in_fees l <= u64_max ->
  add_inputs modules (cust a, cust f) l = Some (cust (a + in_value l), cust (f + in_fees l)).
Proof.
  intros Hl. revert a f. induction Hl as [|x l Hx Hl IH]; intros a f Ha Hf Hba Hbf.
  { unfold in_value, in_fees. simpl. by rewrite !Z.add_0_r. }
  destruct (inputs_nonneg l Hl) as [Hv0 Hf0]. destruct Hx as [[Hx Hx0] (fx & Hfx & [Hfc Hfx0])].
  unfold in_value, in_fees in *. rewrite !fmap_cons, !sum_list_cons in *. unfold fee_value at 1 in Hbf. unfold fee_value at 1.
  rewrite Hfx in *. cbn [add_inputs default from_option] in *. rewrite Hfx. cbn [mbind option_bind]. unfold add_item. cbn [fst snd].
  rewrite Hx, Hfc, !add_mut_custom by (cbn [default from_option id] in *; lia). rewrite <- Hx, <- Hfc.
  cbn [default from_option id] in *. rewrite IH by lia. by rewrite !Z.add_assoc.
Qed.

Lemma add_outputs_sum l a f :
  Forall output_ok l -> 0 <= a -> 0 <= f -> a + out_value l <= u64_max -> f + out_fees l <= u64_max ->
  add_outputs modules (cust a, cust f) l = Some (cust (a + out_value l), cust (f + out_fees l)).
Proof.
  intros Hl. revert a f. induction Hl as [|x l Hx Hl IH]; intros a f Ha Hf Hba Hbf.
  { unfold out_value, out_fees. simpl. by rewrite !Z.add_0_r. }
  destruct (outputs_nonneg l Hl) as [Hv0 Hf0]. destruct Hx as [[Hx Hx0] (fx & Hfx & [Hfc Hfx0])].
  unfold out_value, out_fees in *. rewrite !fmap_cons, !sum_list_cons in *. unfold fee_value at 1 in Hbf. unfold fee_value at 1.
  rewrite Hfx in *. cbn [add_outputs default from_option] in *. rewrite Hfx. cbn [mbind option_bind]. unfold add_item. cbn [fst snd].
  rewrite Hx, Hfc, !add_mut_custom by (cbn [default from_option id] in *; lia). rewrite <- Hx, <- Hfc.
  cbn [default from_option id] in *. rewrite IH by lia. by rewrite !Z.add_assoc.
Qed.

Lemma cust_zero : cust 0 = Amounts.ZERO.
Proof. done. Qed.

Lemma get_balance_sum (b : @TransactionBuilder In Out Key State) :
  Forall input_ok (builder_inputs b) -> Forall output_ok (builder_outputs b) ->
  in_value (builder_inputs b) <= u64_max ->
  out_value (builder_outputs b) + in_fees (builder_inputs b) + out_fees (builder_outputs b) <= u64_max ->
  transaction_builder_get_balance modules b = Some (cust (in_value (builder_inputs b)),
    cust (out_value (builder_outputs b) + (in_fees (builder_inputs b) + out_fees (builder_outputs b)))).
Proof.
  intros Hi Ho Hbi Hbo. destruct (inputs_nonneg _ Hi), (outputs_nonneg _ Ho). unfold transaction_builder_get_balance.
  rewrite <- cust_zero, add_inputs_sum by (done || lia). cbn [mbind option_bind fst snd].
  rewrite add_outputs_sum by (done || lia). cbn [mbind option_bind fst snd]. by rewrite add_mut_custom by lia.
Qed.

(** *** One unit *)

Lemma all_units_custom a b : all_units (cust a) (cust b) = if (a =? 0) && (b =? 0) then [] else [u].
Proof.
  unfold all_units, Amounts.new_custom. destruct (a =? 0), (b =? 0); cbn [andb].
  - by rewrite (left_id_L ∅ (∪)), (proj2 (btree_iter_nil (V := Z) ∅) eq_refl).
  - rewrite (left_id_L ∅ (∪)). unfold btree_iter. by rewrite map_to_list_singleton.
  - rewrite (right_id_L ∅ (∪)). unfold btree_iter. by rewrite map_to_list_singleton.
  - assert (Hu : ({[u := a]} ∪ {[u := b]} : gmap Z Z) = {[u := a]}).
    { apply map_eq. intros k. rewrite lookup_union. destruct (decide (k = u)) as [->|]; [by rewrite !lookup_singleton_eq|].
      by rewrite !lookup_singleton_ne. }
    rewrite Hu. unfold btree_iter. by rewrite map_to_list_singleton.
Qed.

Lemma get_cust a : Amounts.get (cust a) u = a.
Proof. by rewrite Amounts.get_new_custom, decide_True. Qed.

Lemma balance_units_one a b d :
  balance_units modules primary_modules (cust a) (cust b) (all_units (cust a) (cust b)) d =
  if a =? b then (Ok ([], []), d) else
  match balance_unit modules primary_modules u a b d with
  | (Ok added, d') => (Ok ([added.1], [added.2]), d')
  | (Err e, d') => (Err e, d')
  | (Panic, d') => (Panic, d')
  end.
Proof.
  rewrite all_units_custom. destruct (Z.eqb_spec a 0) as [->|], (Z.eqb_spec b 0) as [->|]; cbn [andb balance_units]; try done;
    rewrite !get_cust; (destruct (_ =? _); [done|]); unfold mbind, M_bind;
    by destruct (balance_unit modules primary_modules u _ _ d) as [[added|e|] d'].
Qed.

Lemma with_inputs_all (b : @TransactionBuilder In Out Key State) l :
  builder_inputs (foldl with_inputs b l) = builder_inputs b ++ (l ≫= bundle_inputs) /\
  builder_outputs (foldl with_inputs b l) = builder_outputs b.
Proof.
  revert b. induction l as [|x l IH]; intros b; [by rewrite app_nil_r|]. cbn [foldl]. destruct (IH (with_inputs b x)) as [-> ->].
  unfold builder_inputs, builder_outputs, with_inputs. cbn [tb_inputs tb_outputs]. rewrite bind_app. split; [|done].
  simpl. by rewrite app_nil_r, <- (assoc_L (++)).
Qed.

Lemma with_outputs_all (b : @TransactionBuilder In Out Key State) l :
  builder_outputs (foldl with_outputs b l) = builder_outputs b ++ (l ≫= bundle_outputs) /\
  builder_inputs (foldl with_outputs b l) = builder_inputs b.
Proof.
  revert b. induction l as [|x l IH]; intros b; [by rewrite app_nil_r|]. cbn [foldl]. destruct (IH (with_outputs b x)) as [-> ->].
  unfold builder_inputs, builder_outputs, with_outputs. cbn [tb_inputs tb_outputs]. rewrite bind_app. split; [|done].
  simpl. by rewrite app_nil_r, <- (assoc_L (++)).
Qed.

Lemma check_funded_custom a b : b <= a -> check_funded (cust a) (cust b) = true.
Proof.
  intros Hle. unfold check_funded. rewrite Amounts.btree_iter_new_custom. destruct (b =? 0); [done|]. cbn [forallb fst snd].
  by rewrite get_cust, (proj2 (Z.leb_le _ _)).
Qed.

Lemma total_of_from (l : list Amounts.t) acc :
  Forall unit_only l -> 0 <= acc -> acc + sum_list ((fun m => Amounts.get m u) <$> l) <= u64_max ->
  foldl (fun acc a => total ← acc; Amounts.checked_add total a) (Some (cust acc)) l
    = Some (cust (acc + sum_list ((fun m => Amounts.get m u) <$> l))).
Proof.
  intros Hl. revert acc. induction Hl as [|m l [Hm Hm0] Hl IH]; intros acc Ha Hb; [simpl; by rewrite Z.add_0_r|].
  assert (0 <= sum_list ((fun m => Amounts.get m u) <$> l)).
  { apply sum_fmap_nonneg. eapply Forall_impl; [exact Hl|]. by intros ? [_ ?]. }
  rewrite fmap_cons, sum_list_cons in *. cbn [foldl mbind option_bind]. rewrite Hm at 1.
  rewrite Amounts.checked_add_custom, IH by lia. by rewrite Z.add_assoc.
Qed.

Lemma total_of_inputs l : Forall input_ok l -> in_value l <= u64_max -> total_of (input_amounts <$> l) = Some (cust (in_value l)).
Proof.
  intros Hl Hb. unfold total_of. rewrite <- cust_zero. unfold in_value in *. rewrite total_of_from; rewrite <- ?list_fmap_compose.
  - done.
  - apply Forall_fmap. eapply Forall_impl; [exact Hl|]. by intros ? [? _].
  - done.
  - exact Hb.
Qed.
Lemma total_of_outputs l : Forall output_ok l -> out_value l <= u64_max -> total_of (output_amounts <$> l) = Some (cust (out_value l)).
Proof.
  intros Hl Hb. unfold total_of. rewrite <- cust_zero. unfold out_value in *. rewrite total_of_from; rewrite <- ?list_fmap_compose.
  - done.
  - apply Forall_fmap. eapply Forall_impl; [exact Hl|]. by intros ? [? _].
  - done.
  - exact Hb.
Qed.

(** *** The funding check of the federation *)

Definition input_item (x : Input) : TransactionItemAmounts := {| amounts := input_amounts x; fees := default ∅ (input_fees modules x) |}.
Definition output_item (x : Output) : TransactionItemAmounts := {| amounts := output_amounts x; fees := default ∅ (output_fees modules x) |}.

Definition fv_of (i o f : Z) : FundingVerifier := {| fv_inputs := cust i; fv_outputs := cust o; fv_fees := cust f |}.

Lemma add_unit_only a m :
  unit_only m -> 0 <= a -> a + Amounts.get m u <= u64_max -> Amounts.checked_add (cust a) m = Some (cust (a + Amounts.get m u)).
Proof. intros [Hm Hm0] Ha Hb. rewrite Hm at 1. by apply Amounts.checked_add_custom. Qed.

Lemma add_input_custom {S E} (x : Input) i o f (st : S) :
  input_ok x -> 0 <= i -> 0 <= f -> i + Amounts.get (input_amounts x) u <= u64_max -> f + fee_value (input_fees modules x) <= u64_max ->
  add_input (E := E) (fv_of i o f) (input_item x) st
    = (Ok (fv_of (i + Amounts.get (input_amounts x) u) o (f + fee_value (input_fees modules x))), st).
Proof.
  intros [Hx (fx & Hfx & Hf)] Hi Hff Hb Hbf. unfold fee_value, input_item, add_input, fv_of in *. rewrite Hfx in *.
  cbn [fv_inputs fv_outputs fv_fees amounts fees default from_option id] in *.
  rewrite (run_bind _ _ st (cust (i + Amounts.get (input_amounts x) u)) st) by (by rewrite add_unit_only).
  by rewrite (run_bind _ _ st (cust (f + Amounts.get fx u)) st) by (by rewrite add_unit_only).
Qed.

Lemma add_output_custom {S E} (x : Output) i o f (st : S) :
  output_ok x -> 0 <= o -> 0 <= f -> o + Amounts.get (output_amounts x) u <= u64_max -> f + fee_value (output_fees modules x) <= u64_max ->
  add_output (E := E) (fv_of i o f) (output_item x) st
    = (Ok (fv_of i (o + Amounts.get (output_amounts x) u) (f + fee_value (output_fees modules x))), st).
Proof.
  intros [Hx (fx & Hfx & Hf)] Hi Hff Hb Hbf. unfold fee_value, output_item, add_output, fv_of in *. rewrite Hfx in *.
  cbn [fv_inputs fv_outputs fv_fees amounts fees default from_option id] in *.
  rewrite (run_bind _ _ st (cust (o + Amounts.get (output_amounts x) u)) st) by (by rewrite add_unit_only).
  by rewrite (run_bind _ _ st (cust (f + Amounts.get fx u)) st) by (by rewrite add_unit_only).
Qed.

Lemma add_all_inputs l i o f st :
  Forall input_ok l -> 0 <= i -> 0 <= f -> i + in_value l <= u64_max -> f + in_fees l <= u64_max ->
  add_all add_input (fv_of i o f) (input_item <$> l) st = (Ok (fv_of (i + in_value l) o (f + in_fees l)), st).
Proof.
  intros Hl. revert i f. induction Hl as [|x l Hx Hl IH]; intros i f Hi Hf Hbi Hbf; [unfold in_value, in_fees; cbn; by rewrite !Z.add_0_r|].
  destruct (inputs_nonneg l Hl). pose proof Hx as [[_ Hx0] (fx & Hfx & [_ Hf0])].
  assert (Hf1 : 0 <= fee_value (input_fees modules x)) by (unfold fee_value; by rewrite Hfx).
  unfold in_value, in_fees in *. rewrite !fmap_cons, !sum_list_cons in *.
  cbn [add_all]. rewrite (run_bind _ _ _ _ _ (add_input_custom x i o f st Hx Hi Hf ltac:(lia) ltac:(lia))).
  rewrite IH by lia. by rewrite !Z.add_assoc.
Qed.

Lemma add_all_outputs l i o f st :
  Forall output_ok l -> 0 <= o -> 0 <= f -> o + out_value l <= u64_max -> f + out_fees l <= u64_max ->
  add_all add_output (fv_of i o f) (output_item <$> l) st = (Ok (fv_of i (o + out_value l) (f + out_fees l)), st).
Proof.
  intros Hl. revert o f. induction Hl as [|x l Hx Hl IH]; intros o f Ho Hf Hbo Hbf; [unfold out_value, out_fees; cbn; by rewrite !Z.add_0_r|].
  destruct (outputs_nonneg l Hl). pose proof Hx as [[_ Hx0] (fx & Hfx & [_ Hf0])].
  assert (Hf1 : 0 <= fee_value (output_fees modules x)) by (unfold fee_value; by rewrite Hfx).
  unfold out_value, out_fees in *. rewrite !fmap_cons, !sum_list_cons in *.
  cbn [add_all]. rewrite (run_bind _ _ _ _ _ (add_output_custom x i o f st Hx Ho Hf ltac:(lia) ltac:(lia))).
  rewrite IH by lia. by rewrite !Z.add_assoc.
Qed.

Lemma verify_funding_custom {S E} i o f version (st : S) :
  0 <= o -> 0 <= f -> o + f <= i <= u64_max -> version_lt version OVERPAY_MIN_VERSION = false ->
  verify_funding (E := E) (fv_of i o f) version st = (Ok tt, st).
Proof.
  intros Ho Hf Hi Hv. apply verify_funding_Ok; [split_and!; apply Amounts.new_custom_wf; unfold is_u64; lia|].
  cbn [fv_inputs fv_outputs fv_fees fv_of]. split; [done|].
  split; intros v; rewrite !Amounts.get_new_custom; unfold unit_funded; rewrite ?Hv; unfold u64_max in *; case_decide; lia.
Qed.

(** Items whose inputs cover the outputs and all fees pass, for a version that allows to overpay. *)
Lemma server_funding_custom ins outs version st :
  Forall input_ok ins -> Forall output_ok outs -> in_value ins <= u64_max ->
  out_value outs + in_fees ins + out_fees outs <= in_value ins -> version_lt version OVERPAY_MIN_VERSION = false ->
  server_funding (input_item <$> ins) (output_item <$> outs) version st = (Ok tt, st).
Proof.
  intros Hi Ho Hb Hle Hv. destruct (inputs_nonneg _ Hi), (outputs_nonneg _ Ho). unfold server_funding.
  change FundingVerifier_default with (fv_of 0 0 0). rewrite (run_bind _ _ _ _ _ (add_all_inputs ins 0 0 0 st Hi ltac:(lia) ltac:(lia) ltac:(lia) ltac:(lia))).
  rewrite (run_bind _ _ _ _ _ (add_all_outputs outs (0 + in_value ins) 0 (0 + in_fees ins) st Ho ltac:(lia) ltac:(lia) ltac:(lia) ltac:(lia))).
  by apply verify_funding_custom; (done || lia).
Qed.

(** *** Finalizing *)

(** Quoting calls the primary module as finalizing does. *)
Lemma quote_units_one i o ins outs d :
  match balance_units modules primary_modules (cust i) (cust o) (all_units (cust i) (cust o)) d with
  | (Ok (ibs, obs), d') => forall ins' outs',
      add_inputs modules ins (ibs ≫= bundle_inputs) = Some ins' -> add_outputs modules outs (obs ≫= bundle_outputs) = Some outs' ->
      quote_units modules primary_modules (cust i) (cust o) (all_units (cust i) (cust o)) ins outs d = (Ok (ins', outs'), d')
  | (Err e, d') => quote_units modules primary_modules (cust i) (cust o) (all_units (cust i) (cust o)) ins outs d = (Err e, d')
  | (Panic, _) => True
  end.
Proof.
  rewrite balance_units_one, all_units_custom.
  destruct (Z.eqb_spec i 0) as [->|], (Z.eqb_spec o 0) as [->|]; cbn [andb quote_units]; [by intros ? ? [= <-] [= <-]|..];
    rewrite !get_cust; (destruct (_ =? _); [by intros ? ? [= <-] [= <-]|]); unfold mbind, M_bind;
    (destruct (balance_unit modules primary_modules u _ _ d) as [[[ib ob]|e|] d']; [|done|done]);
    cbn [fst snd list_bind]; rewrite !app_nil_r; intros ins' outs' Hi Ho; unfold expect; by rewrite Hi, Ho.
Qed.

Lemma dust_custom x y f g :
  0 <= f -> 0 <= g -> 0 <= y -> y + f + g <= x -> x <= u64_max ->
  foldl (add_dust (cust x, cust f) (cust y, cust g)) (Some Amounts.ZERO) (all_units (cust x) (cust y)) = Some (cust (x - y - f - g)).
Proof.
  intros Hf Hg Hy Hle Hx. rewrite all_units_custom. destruct (Z.eqb_spec x 0) as [->|].
  { rewrite (proj2 (Z.eqb_eq y 0)) by lia. replace (0 - y - f - g) with 0 by lia. done. }
  cbn [andb foldl]. unfold add_dust. cbn [mbind option_bind fst snd]. rewrite !get_cust. unfold Amount.add.
  rewrite wrap_u64_small by (unfold is_u64; lia). unfold saturating_sub. rewrite !Z.max_r by lia. rewrite Z.sub_add_distr.
  unfold Amounts.checked_add_unit, Amounts.new_custom, Amounts.ZERO. destruct (Z.eqb_spec (x - y - f - g) 0); [done|].
  rewrite lookup_empty. cbn [default from_option]. assert (Hc : checked_add 0 (x - y - f - g) = Some (x - y - f - g)) by (apply checked_add_Some; lia).
  unfold id. rewrite Hc. done.
Qed.

(** The explicit items of a transaction. *)
Record builder_ok (b : @TransactionBuilder In Out Key State) : Prop := {
  bo_inputs : Forall input_ok (builder_inputs b);
  bo_outputs : Forall output_ok (builder_outputs b);
  bo_in : in_value (builder_inputs b) <= max_funds;
  bo_out : out_value (builder_outputs b) + (in_fees (builder_inputs b) + out_fees (builder_outputs b)) <= max_funds;
  bo_length : Z.of_nat (length (builder_inputs b)) <= 2 ^ 62 /\ Z.of_nat (length (builder_outputs b)) <= 2 ^ 62;
  bo_gens : Forall gens_total (input_side b) /\ Forall gens_total (output_side b);
}.

Context (good : D -> Prop) (m : @ClientModule D In Out Key State) (id : Z) `{!Balances good m id}.
Hypothesis primary : primary_module_for_unit modules primary_modules u = Some (Some (id, m)).

Lemma balance_unit_primary a b d :
  balance_unit modules primary_modules u a b d = map_err submit_error_of (create_final m id u a b) d.
Proof using primary. unfold balance_unit. by rewrite primary. Qed.

(** What the primary module adds, for the balance [i] and [o] of the explicit items. *)
Lemma balance_units_added i o d :
  good d -> 0 <= i <= max_funds -> 0 <= o <= max_funds ->
  match balance_units modules primary_modules (cust i) (cust o) (all_units (cust i) (cust o)) d with
  | (Ok (ibs, obs), _) =>
      Forall input_ok (ibs ≫= bundle_inputs) /\ Forall output_ok (obs ≫= bundle_outputs) /\
      Forall gens_total (input_entry <$> ibs) /\ Forall gens_total (output_entry <$> obs) /\
      Z.of_nat (length (ibs ≫= bundle_inputs)) <= 2 ^ 62 /\ Z.of_nat (length (obs ≫= bundle_outputs)) <= 2 ^ 62 /\
      in_value (ibs ≫= bundle_inputs) <= max_funds /\
      o + in_fees (ibs ≫= bundle_inputs) + out_value (obs ≫= bundle_outputs) + out_fees (obs ≫= bundle_outputs)
        <= i + in_value (ibs ≫= bundle_inputs)
  | (Err e, _) => exists e', e = submit_error_of e' /\ (create_final m id u i o d).1 = Err e'
  | (Panic, _) => False
  end.
Proof using primary Balances0.
  intros Hd Hi Ho. rewrite balance_units_one. destruct (Z.eqb_spec i o) as [->|Hne].
  { cbn. split_and!; try constructor; unfold in_value, in_fees, out_value, out_fees, max_funds; simpl; lia. }
  rewrite balance_unit_primary. unfold map_err. pose proof (balances d i o Hd Hi Ho) as Hb.
  destruct (create_final m id u i o d) as [[[ib ob]|e|] d']; [|by exists e|done].
  cbn [mbind list_bind fst snd fmap list_fmap]. rewrite !app_nil_r, !Forall_singleton. done.
Qed.

(** The builder with what was added. *)
Definition extended (b : @TransactionBuilder In Out Key State) ibs obs := foldl with_outputs (foldl with_inputs b ibs) obs.

Lemma extended_items b ibs obs :
  builder_inputs (extended b ibs obs) = builder_inputs b ++ (ibs ≫= bundle_inputs) /\
  builder_outputs (extended b ibs obs) = builder_outputs b ++ (obs ≫= bundle_outputs).
Proof.
  unfold extended. destruct (with_outputs_all (foldl with_inputs b ibs) obs) as [-> ->].
  by destruct (with_inputs_all b ibs) as [-> ->].
Qed.

Lemma extended_gens b ibs obs :
  Forall gens_total (input_side b) -> Forall gens_total (output_side b) ->
  Forall gens_total (input_entry <$> ibs) -> Forall gens_total (output_entry <$> obs) ->
  Forall gens_total (input_side (extended b ibs obs)) /\ Forall gens_total (output_side (extended b ibs obs)).
Proof.
  intros Hi Ho Hai Hao. unfold extended.
  assert (Hb : Forall gens_total (input_side (foldl with_inputs b ibs)) /\ Forall gens_total (output_side (foldl with_inputs b ibs))).
  { clear Hao. revert b Hi Ho. induction ibs as [|ib ibs IH]; intros b Hi Ho; [done|]. apply Forall_cons in Hai as [Hib Hai].
    apply IH; [done| |done]. unfold input_side in *. cbn [with_inputs tb_inputs]. rewrite fmap_app. by apply Forall_app, conj, Forall_singleton. }
  clear Hi Ho. destruct Hb as [Hi Ho]. revert Hi Ho. generalize (foldl with_inputs b ibs). clear b.
  induction obs as [|ob obs IH]; intros b Hi Ho; [done|]. apply Forall_cons in Hao as [Hob Hao].
  apply IH; [done|done|]. unfold output_side in *. cbn [with_outputs tb_outputs]. rewrite fmap_app. by apply Forall_app, conj, Forall_singleton.
Qed.

Lemma values_app (l l' : list Input) (k k' : list Output) :
  in_value (l ++ l') = in_value l + in_value l' /\ in_fees (l ++ l') = in_fees l + in_fees l' /\
  out_value (k ++ k') = out_value k + out_value k' /\ out_fees (k ++ k') = out_fees k + out_fees k'.
Proof. unfold in_value, in_fees, out_value, out_fees. by rewrite !sum_fmap_app. Qed.

(** The steps after the balancing, for a builder whose inputs pay for everything. *)
Lemma finalize_rest b ibs obs nonce :
  let e := extended b ibs obs in
  Forall input_ok (builder_inputs e) -> Forall output_ok (builder_outputs e) ->
  Forall gens_total (input_side e) -> Forall gens_total (output_side e) ->
  Z.of_nat (length (builder_inputs e)) <= u64_max -> Z.of_nat (length (builder_outputs e)) <= u64_max ->
  in_value (builder_inputs e) <= u64_max ->
  out_value (builder_outputs e) + in_fees (builder_inputs e) + out_fees (builder_outputs e) <= in_value (builder_inputs e) ->
  exists tx sts, build tx_hash_from_parts sign_schnorr e nonce = Some (tx, sts) /\
    inputs tx = input <$> builder_inputs e /\ outputs tx = output <$> builder_outputs e /\
    forall change d, (balance ← expect (transaction_builder_get_balance modules e);
      _ ← rassert (check_funded balance.1 balance.2);
      input_total ← expect (total_of (input_amounts <$> builder_inputs e));
      output_total ← expect (total_of (output_amounts <$> builder_outputs e));
      fees ← expect (Amounts.checked_sub input_total output_total);
      built ← expect (build tx_hash_from_parts sign_schnorr e nonce);
      mret {| transaction := built.1; states := built.2; change_range := change; tx_fees := fees |} : M D TransactionSubmitError _) d
      = (Ok {| transaction := tx; states := sts; change_range := change;
               tx_fees := cust (in_value (builder_inputs e) - out_value (builder_outputs e)) |}, d).
Proof.
  cbv zeta. set (e := extended b ibs obs). intros Hi Ho Hgi Hgo Hli Hlo Hv Hle. destruct (inputs_nonneg _ Hi), (outputs_nonneg _ Ho).
  destruct (build_bundle_states tx_hash_from_parts sign_schnorr e nonce Hli Hlo Hgi Hgo) as (si & so & _ & _ & Hb).
  do 2 eexists. split; [exact Hb|]. do 2 (split; [done|]). intros change d.
  rewrite get_balance_sum by (done || lia). rewrite total_of_inputs, total_of_outputs by (done || lia).
  unfold mbind, M_bind, expect, rassert, mret, M_ret. cbv beta iota. cbn [fst snd].
  rewrite check_funded_custom by lia. rewrite Amounts.checked_sub_custom by lia. by rewrite Hb.
Qed.

(** The outcome of finalizing in terms of what the primary module adds. *)
Lemma finalize_spec b nonce d :
  builder_ok b -> good d ->
  let i := in_value (builder_inputs b) in
  let o := out_value (builder_outputs b) + (in_fees (builder_inputs b) + out_fees (builder_outputs b)) in
  match balance_units modules primary_modules (cust i) (cust o) (all_units (cust i) (cust o)) d with
  | (Ok (ibs, obs), d') =>
      let ins := builder_inputs b ++ (ibs ≫= bundle_inputs) in
      let outs := builder_outputs b ++ (obs ≫= bundle_outputs) in
      Forall input_ok ins /\ Forall output_ok outs /\ in_value ins <= u64_max /\ out_value outs + in_fees ins + out_fees outs <= in_value ins /\
      exists tx sts, build tx_hash_from_parts sign_schnorr (extended b ibs obs) nonce = Some (tx, sts) /\
        inputs tx = input <$> ins /\ outputs tx = output <$> outs /\
        finalize_transaction modules primary_modules tx_hash_from_parts sign_schnorr b nonce d
          = (Ok {| transaction := tx; states := sts;
                   change_range := {| range_start := Z.of_nat (length (builder_outputs b)); range_end := Z.of_nat (length outs) |};
                   tx_fees := cust (in_value ins - out_value outs) |}, d')
  | (Err e, d') => finalize_transaction modules primary_modules tx_hash_from_parts sign_schnorr b nonce d = (Err e, d')
  | (Panic, _) => False
  end.
Proof using primary Balances0.
  intros [Hbi Hbo Hin Hout [Hli Hlo] [Hgi Hgo]] Hd i o. destruct (inputs_nonneg _ Hbi), (outputs_nonneg _ Hbo). unfold max_funds in Hin, Hout.
  pose proof (balance_units_added i o d Hd ltac:(unfold i, max_funds; lia) ltac:(unfold o, max_funds; lia)) as Hadd.
  assert (Hbal : transaction_builder_get_balance modules b = Some (cust i, cust o)) by (apply get_balance_sum; (done || unfold u64_max; lia)).
  unfold finalize_transaction. rewrite Hbal, (run_bind _ _ d (cust i, cust o) d) by done. cbn [fst snd].
  destruct (balance_units modules primary_modules (cust i) (cust o) _ d) as [[[ibs obs]|e|] d'] eqn:Hrun; [| |done].
  2: { unfold mbind, M_bind. by rewrite Hrun. }
  rewrite (run_bind _ _ _ _ _ Hrun). cbn [fst snd]. destruct Hadd as (Hai & Hao & Hagi & Hago & Hl1 & Hl2 & Hv & Hle). cbv zeta.
  destruct (extended_items b ibs obs) as [Hei Heo]. destruct (values_app (builder_inputs b) (ibs ≫= bundle_inputs) (builder_outputs b) (obs ≫= bundle_outputs)) as (V1 & V2 & V3 & V4).
  destruct (inputs_nonneg _ Hai), (outputs_nonneg _ Hao). unfold i, o, max_funds, u64_max in *.
  assert (Hfi : Forall input_ok (builder_inputs b ++ (ibs ≫= bundle_inputs))) by by apply Forall_app.
  assert (Hfo : Forall output_ok (builder_outputs b ++ (obs ≫= bundle_outputs))) by by apply Forall_app.
  split_and!; [done|done|lia|lia|].
  destruct (extended_gens b ibs obs Hgi Hgo Hagi Hago) as [Hegi Hego].
  destruct (finalize_rest b ibs obs nonce) as (tx & sts & Hb & Hti & Hto & Hrest);
    [by rewrite Hei|by rewrite Heo|done|done|rewrite Hei, length_app; unfold u64_max; lia|rewrite Heo, length_app; unfold u64_max; lia|rewrite Hei; unfold u64_max; lia|rewrite Hei, Heo; lia|].
  exists tx, sts. rewrite <- Hei, <- Heo. split_and!; [done|done|done|]. fold (extended b ibs obs).
  rewrite Hrest. rewrite Heo, length_app, Nat2Z.inj_add. done.
Qed.

(** Finalizing a transaction never panics: neither of its checks of its own
    arithmetic can fail.  The transaction has the explicit items followed by
    what the primary module adds, it passes the funding check of the
    federation, the recorded fees are what the inputs exceed the outputs by, and
    the change is the range of the added outputs.  It fails only with the error
    of the primary module. *)
Theorem finalize_transaction_accepted b nonce d :
  builder_ok b -> good d ->
  match finalize_transaction modules primary_modules tx_hash_from_parts sign_schnorr b nonce d with
  | (Ok ft, _) => exists ins outs,
      inputs (transaction ft) = input <$> ins /\ outputs (transaction ft) = output <$> outs /\
      (exists l, ins = builder_inputs b ++ l) /\ (exists l, outs = builder_outputs b ++ l) /\
      (forall version st, version_lt version OVERPAY_MIN_VERSION = false ->
         server_funding (input_item <$> ins) (output_item <$> outs) version st = (Ok tt, st)) /\
      tx_fees ft = cust (in_value ins - out_value outs) /\
      change_range ft = {| range_start := Z.of_nat (length (builder_outputs b)); range_end := Z.of_nat (length (outputs (transaction ft))) |}
  | (Err e, _) => exists e' i o, e = submit_error_of e' /\ (create_final m id u i o d).1 = Err e'
  | (Panic, _) => False
  end.
Proof using primary Balances0.
  intros Hb Hd. pose proof (finalize_spec b nonce d Hb Hd) as Hspec. cbv zeta in Hspec.
  pose proof Hb as [Hbi Hbo Hin Hout _ _]. destruct (inputs_nonneg _ Hbi), (outputs_nonneg _ Hbo).
  pose proof (balance_units_added (in_value (builder_inputs b))
    (out_value (builder_outputs b) + (in_fees (builder_inputs b) + out_fees (builder_outputs b))) d Hd ltac:(lia) ltac:(lia)) as Hadd.
  destruct (balance_units modules primary_modules _ _ _ d) as [[[ibs obs]|e|] d']; [| |done].
  - destruct Hspec as (Hi & Ho & Hv & Hle & tx & sts & _ & Hti & Hto & ->). cbn [transaction tx_fees change_range].
    eexists _, _. split_and!; [exact Hti|exact Hto|by eexists|by eexists| |done|by rewrite Hto, length_fmap].
    intros version st Hver. by apply server_funding_custom.
  - rewrite Hspec. destruct Hadd as (e' & -> & He). by eexists _, _, _.
Qed.

(** *** Quotes *)

(** The request that summarises the explicit items of a transaction. *)
Definition request_of (b : @TransactionBuilder In Out Key State) : FeeQuoteRequest :=
  {| rq_input_amount := cust (in_value (builder_inputs b)); rq_output_amount := cust (out_value (builder_outputs b));
     rq_input_fee := cust (in_fees (builder_inputs b)); rq_output_fee := cust (out_fees (builder_outputs b)) |}.

(** A fee quote is exact.  Quoting a transaction in the state it would be
    finalized in never panics; when the transaction can be finalized the total
    of the quote is exactly the fees that are recorded for it, and otherwise
    the quote fails with the same error. *)
Theorem fee_quote_exact b nonce d :
  builder_ok b -> good d ->
  match finalize_transaction modules primary_modules tx_hash_from_parts sign_schnorr b nonce d with
  | (Ok ft, _) => exists q d', fee_quote modules primary_modules (request_of b) d = (Ok q, d') /\ FeeQuote_total q = Some (tx_fees ft)
  | (Err e, _) => exists d', fee_quote modules primary_modules (request_of b) d = (Err e, d')
  | (Panic, _) => False
  end.
Proof using primary Balances0.
  intros Hb Hd. pose proof (finalize_spec b nonce d Hb Hd) as Hspec. cbv zeta in Hspec.
  pose proof Hb as [Hbi Hbo Hin Hout _ _]. destruct (inputs_nonneg _ Hbi), (outputs_nonneg _ Hbo). unfold max_funds in *.
  set (i := in_value (builder_inputs b)) in *. set (o := out_value (builder_outputs b) + (in_fees (builder_inputs b) + out_fees (builder_outputs b))) in *.
  pose proof (quote_units_one i o (cust i, cust (in_fees (builder_inputs b))) (cust (out_value (builder_outputs b)), cust (out_fees (builder_outputs b))) d) as Hq.
  assert (Hreq : (s ← Amounts.checked_add (rq_output_amount (request_of b)) (rq_input_fee (request_of b));
    Amounts.checked_add s (rq_output_fee (request_of b))) = Some (cust o)).
  { unfold request_of. cbn [rq_output_amount rq_input_fee rq_output_fee]. rewrite Amounts.checked_add_custom by (unfold u64_max; lia).
    cbn [mbind option_bind]. rewrite Amounts.checked_add_custom by (unfold u64_max; lia). do 2 f_equal. unfold o. lia. }
  assert (Hfq : fee_quote modules primary_modules (request_of b) d =
    (totals ← quote_units modules primary_modules (cust i) (cust o) (all_units (cust i) (cust o))
       (cust i, cust (in_fees (builder_inputs b))) (cust (out_value (builder_outputs b)), cust (out_fees (builder_outputs b)));
     dust ← expect (foldl (add_dust totals.1 totals.2) (Some Amounts.ZERO) (all_units totals.1.1 totals.2.1));
     mret {| quote_input := totals.1.2; quote_output := totals.2.2; quote_dust := dust |} : M D TransactionSubmitError _) d).
  { unfold fee_quote. by rewrite Hreq, (run_bind _ _ d (cust o) d) by done. }
  rewrite Hfq. clear Hfq Hreq.
  destruct (balance_units modules primary_modules (cust i) (cust o) _ d) as [[[ibs obs]|e|] d']; [| |done].
  2: { rewrite Hspec. exists d'. unfold mbind, M_bind. by rewrite Hq. }
  destruct Hspec as (Hi & Ho & Hv & Hle & tx & sts & _ & _ & _ & ->). cbn [tx_fees].
  apply Forall_app in Hi as [_ Hi], Ho as [_ Ho]. destruct (inputs_nonneg _ Hi), (outputs_nonneg _ Ho).
  destruct (values_app (builder_inputs b) (ibs ≫= bundle_inputs) (builder_outputs b) (obs ≫= bundle_outputs)) as (V1 & V2 & V3 & V4).
  rewrite V1, V2, V3, V4 in *. fold i in Hv, Hle |- *.
  specialize (Hq _ _ (add_inputs_sum _ i (in_fees (builder_inputs b)) Hi ltac:(lia) ltac:(lia) ltac:(lia) ltac:(lia))
    (add_outputs_sum _ (out_value (builder_outputs b)) (out_fees (builder_outputs b)) Ho ltac:(lia) ltac:(lia) ltac:(lia) ltac:(lia))).
  rewrite (run_bind _ _ _ _ _ Hq). cbn [fst snd]. rewrite dust_custom by lia. do 2 eexists. split; [reflexivity|].
  unfold FeeQuote_total. cbn [quote_input quote_output quote_dust]. rewrite Amounts.checked_add_custom by lia. cbn [mbind option_bind].
  rewrite Amounts.checked_add_custom by lia. do 2 f_equal. lia.
Qed.
End correct.
