(* ===== verification/Submission.v ===== *)
(** * Submitting transactions from a client

    What [fedimint-client/src/client.rs] does with a finalized transaction: its
    state machines and the machine that submits it
    ([fedimint-client-module/src/transaction/sm.rs]) are added and its fees are
    recorded, all in one database transaction.  The database, the modules and
    the states of their machines are arguments, so that every module of a client
    builds on the same lemmas. *)

From S2P Require Import Prelude Db Amounts ServerModule Transaction Tiered NoteSelection MintClient SendAmount ClientTx.

(** A result that must be there: an error panics. *)
Definition unwrap {S E F A} (m : M S E A) : M S F A := fun s =>
  match m s with (Ok a, s') => (Ok a, s') | (_, s') => (Panic, s') end.
(** The result as a value.  What was written before an error stays. *)
Definition attempt {S E F A} (m : M S E A) : M S F (A + E) := fun s =>
  match m s with (Ok a, s') => (Ok (inl a), s') | (Err e, s') => (Ok (inr e), s') | (Panic, s') => (Panic, s') end.
(** A database transaction: what was written before an error is dropped. *)
Definition atomically {S E A} (m : M S E A) : M S E A := fun s =>
  match m s with (Ok a, s') => (Ok a, s') | (r, _) => (r, s) end.

(** [Transaction::MAX_TX_SIZE]. *)
Definition MAX_TX_SIZE : Z := 50000 - 32.
Definition TRANSACTION_SUBMISSION_MODULE_INSTANCE : Z := 65535.

Inductive TxSubmissionStates (In Out : Type) :=
| TxCreated (tx : Transaction In Out)
| TxAccepted (txid : Z)
| TxRejected (txid error : Z)
| NonRetryableError (error : Z).
Arguments TxCreated {_ _}.
Arguments TxAccepted {_ _}.
Arguments TxRejected {_ _}.
Arguments NonRetryableError {_ _}.

(** Ranges and transactions are parts of states, which are database keys. *)
#[export] Instance IdxRange_eq : EqDecision IdxRange. Proof. solve_decision. Defined.
#[export] Instance IdxRange_countable : Countable IdxRange :=
  inj_countable' (fun r => (range_start r, range_end r)) (fun r => {| range_start := r.1; range_end := r.2 |}) ltac:(by intros []).
#[export] Instance OutPointRange_eq : EqDecision OutPointRange. Proof. solve_decision. Defined.
#[export] Instance OutPointRange_countable : Countable OutPointRange :=
  inj_countable' (fun r => (range_txid r, idx_range r)) (fun r => {| range_txid := r.1; idx_range := r.2 |}) ltac:(by intros []).
#[export] Instance Dyn_eq {T} `{!EqDecision T} : EqDecision (Dyn T). Proof. solve_decision. Defined.
#[export] Instance Dyn_countable {T} `{!EqDecision T, !Countable T} : Countable (Dyn T) :=
  inj_countable' (A := Z * T) (fun x => (Transaction.module_instance_id x, value x)) (fun x => {| Transaction.module_instance_id := x.1; value := x.2 |}) ltac:(by intros []).
#[export] Instance TransactionSignature_eq : EqDecision TransactionSignature. Proof. solve_decision. Defined.
#[export] Instance TransactionSignature_countable : Countable TransactionSignature :=
  inj_countable' (fun i => match i with NaiveMultisig l => inl l | SignatureDefault v b => inr (v, b) end)
    (fun x => match x with inl l => NaiveMultisig l | inr (v, b) => SignatureDefault v b end) ltac:(by intros []).
#[export] Instance Transaction_eq {I O} `{!EqDecision I, !EqDecision O} : EqDecision (Transaction I O). Proof. solve_decision. Defined.
#[export] Instance Transaction_countable {I O} `{!EqDecision I, !Countable I, !EqDecision O, !Countable O} : Countable (Transaction I O) :=
  inj_countable' (A := list (Dyn I) * list (Dyn O) * Z * TransactionSignature) (fun x => (inputs x, outputs x, nonce x, signatures x))
    (fun x => {| inputs := x.1.1.1; outputs := x.1.1.2; nonce := x.1.2; signatures := x.2 |}) ltac:(by intros []).
#[export] Instance TxSubmissionStates_eq {I O} `{!EqDecision I, !EqDecision O} : EqDecision (TxSubmissionStates I O). Proof. solve_decision. Defined.
#[export] Instance TxSubmissionStates_countable {I O} `{!EqDecision I, !Countable I, !EqDecision O, !Countable O} : Countable (TxSubmissionStates I O) :=
  inj_countable' (A := Transaction I O + (Z + (Z * Z + Z))) (fun i => match i with TxCreated tx => inl tx | TxAccepted t => inr (inl t) | TxRejected t e => inr (inr (inl (t, e))) | NonRetryableError e => inr (inr (inr e)) end)
    (fun x => match x with inl tx => TxCreated tx | inr (inl t) => TxAccepted t | inr (inr (inl (t, e))) => TxRejected t e | inr (inr (inr e)) => NonRetryableError e end)
    ltac:(by intros []).

Section submission.
Context {C D In Out Key State : Type}.
(** The part of the client's database that belongs to the primary module, the
    table of fees and the event log. *)
Context (get : C -> D) (put : D -> C -> C) (TransactionFeesKey : table C Z Amounts.t) (log_created : Z -> Z -> C -> C).
Context (modules : Z -> gmap Z (@ClientModule D In Out Key State)) (primary_modules : gmap Z PrimaryModuleCandidates).
Context (tx_hash_from_parts : list (Dyn In) -> list (Dyn Out) -> Z -> Z) (sign_schnorr : Z -> Key -> Z).
Context (tx_size : Transaction In Out -> Z).
(** [add_state_machines_dbtx], for the states of the items and the submission
    of the transaction. *)
Context (add_state_machines : Z -> list State -> Transaction In Out -> M C TransactionSubmitError unit).

(** [finalize_and_submit_transaction_inner]: the range of the change, the states
    of the items and the transaction. *)
Definition finalize_and_submit_inner (operation_id : Z) (b : TransactionBuilder) (nonce : Z)
    : M C TransactionSubmitError (OutPointRange * (list State * Transaction In Out)) :=
  ft ← zoom get put (finalize_transaction (modules operation_id) primary_modules tx_hash_from_parts sign_schnorr b nonce);
  _ ← ensure (tx_size (transaction ft) <=? MAX_TX_SIZE) (TransactionTooLarge (tx_size (transaction ft)) MAX_TX_SIZE);
  let txid := tx_hash tx_hash_from_parts (transaction ft) in
  _ ← add_state_machines operation_id (states ft) (transaction ft);
  _ ← insert_new_entry TransactionFeesKey txid (tx_fees ft);
  _ ← modify (log_created txid operation_id);
  mret ({| range_txid := txid; idx_range := change_range ft |}, (states ft, transaction ft)).
End submission.

(** ** Finalized transactions *)
Section finalized.
Context {D In Out Key State : Type}.
Context (modules : gmap Z (@ClientModule D In Out Key State)) (primary_modules : gmap Z PrimaryModuleCandidates).
Context (tx_hash_from_parts : list (Dyn In) -> list (Dyn Out) -> Z -> Z) (sign_schnorr : Z -> Key -> Z).
Context (u : Z) (good : D -> Prop) (m : @ClientModule D In Out Key State) (id : Z) `{!Balances modules u good m id}.
Hypothesis primary : primary_module_for_unit modules primary_modules u = Some (Some (id, m)).

(** The explicit items of the builder come first, every input is signed for, the
    federation accepts the funding, and the fees and the change are recorded as
    they are. *)
Definition well_funded (b : @TransactionBuilder In Out Key State) (ft : @FinalizedTransaction In Out State) : Prop := exists l l',
  let ins := builder_inputs b ++ l in let outs := builder_outputs b ++ l' in let tx := transaction ft in
  inputs tx = input <$> ins /\ outputs tx = output <$> outs /\
  signatures tx = NaiveMultisig (sign_schnorr (tx_hash tx_hash_from_parts tx) <$> (ins ≫= keys)) /\
  (forall version st, version_lt version OVERPAY_MIN_VERSION = false ->
     server_funding (input_item modules <$> ins) (output_item modules <$> outs) version st = (Ok tt, st)) /\
  tx_fees ft = Amounts.new_custom u (in_value u ins - out_value u outs) /\ 0 <= in_value u ins - out_value u outs /\
  change_range ft = {| range_start := Z.of_nat (length (builder_outputs b)); range_end := Z.of_nat (length outs) |} /\
  exists si so, states_from (tx_hash tx_hash_from_parts tx) 0 (input_side b) = Some si /\ states_from (tx_hash tx_hash_from_parts tx) 0 (output_side b) = Some so /\
    forall s, s ∈ si ++ so -> s ∈ states ft.

Lemma states_from_prefix txid offset (l l' : list (nat * list (StateGenerator (State := State)))) s :
  states_from txid offset (l ++ l') = Some s -> exists s1 s2, states_from txid offset l = Some s1 /\ s = s1 ++ s2.
Proof using.
  revert offset s. induction l as [|[n gens] l IH]; intros offset s Hs; [by exists [], s|]. cbn [app states_from] in *.
  destruct (if (n =? 0)%nat then _ else _) as [sts|]; [|done]. cbn [mbind option_bind] in *.
  destruct (states_from txid (offset + Z.of_nat n) (l ++ l')) as [rest|] eqn:Hr; [|done]. injection Hs as <-.
  destruct (IH _ _ Hr) as (s1 & s2 & Hs1 & ->). exists (sts ++ s1), s2. rewrite Hs1. by rewrite (assoc_L (++)).
Qed.

Lemma extended_sides (b : @TransactionBuilder In Out Key State) ibs obs :
  input_side (extended b ibs obs) = input_side b ++ (input_entry <$> ibs) /\ output_side (extended b ibs obs) = output_side b ++ (output_entry <$> obs).
Proof using.
  unfold extended. assert (Hi : forall b : @TransactionBuilder In Out Key State, input_side (foldl with_inputs b ibs) = input_side b ++ (input_entry <$> ibs) /\ output_side (foldl with_inputs b ibs) = output_side b).
  { induction ibs as [|ib ibs IH]; intros b'; [by rewrite app_nil_r|]. simpl. destruct (IH (with_inputs b' ib)) as [-> ->].
    unfold input_side. simpl. by rewrite fmap_app, <- (assoc_L (++)). }
  destruct (Hi b) as [<- <-]. generalize (foldl with_inputs b ibs). clear. induction obs as [|ob obs IH]; intros b; [by rewrite app_nil_r|].
  simpl. destruct (IH (with_outputs b ob)) as [-> ->]. unfold output_side. simpl. by rewrite fmap_app, <- (assoc_L (++)).
Qed.

(** Finalizing fails only with the error of the primary module. *)
Lemma finalize_well_funded b nonce d :
  builder_ok modules u b -> good d ->
  match finalize_transaction modules primary_modules tx_hash_from_parts sign_schnorr b nonce d with
  | (Ok ft, _) => well_funded b ft
  | (Err e, _) => exists e' i o, e = submit_error_of e' /\ (create_final m id u i o d).1 = Err e'
  | (Panic, _) => False
  end.
Proof using primary Balances0.
  intros Hb Hd. pose proof (finalize_spec modules primary_modules tx_hash_from_parts sign_schnorr u good m id primary b nonce d Hb Hd) as Hspec. cbv zeta in Hspec.
  pose proof Hb as [Hbi Hbo Hin Hout _ _]. destruct (inputs_nonneg _ _ _ Hbi), (outputs_nonneg _ _ _ Hbo).
  pose proof (balance_units_added modules primary_modules u good m id primary (in_value u (builder_inputs b))
    (out_value u (builder_outputs b) + (in_fees modules u (builder_inputs b) + out_fees modules u (builder_outputs b))) d Hd ltac:(lia) ltac:(lia)) as Hadd.
  destruct (balance_units modules primary_modules _ _ _ d) as [[[ibs obs]|e|] d']; [| |done].
  2: { rewrite Hspec. destruct Hadd as (e' & -> & He). by eexists _, _, _. }
  destruct Hspec as (Hi & Ho & Hv & Hle & tx & sts & Hbuild & Hti & Hto & ->). destruct Hadd as (_ & _ & _ & _ & Hl1 & Hl2 & _). destruct Hb as [_ _ _ _ [Hbl1 Hbl2] _].
  exists (ibs ≫= bundle_inputs), (obs ≫= bundle_outputs). cbn [transaction tx_fees change_range].
  destruct (extended_items b ibs obs) as [Hei Heo], (extended_sides b ibs obs) as [Hsi Hso].
  destruct (build_states tx_hash_from_parts sign_schnorr _ _ _ _ ltac:(rewrite Hei, length_app; unfold u64_max; lia) ltac:(rewrite Heo, length_app; unfold u64_max; lia) Hbuild)
    as (si & so & Hgi & Hgo & Hst). apply build_parts in Hbuild. cbv zeta in Hbuild, Hgi, Hgo. rewrite Hei, Heo in Hbuild, Hgi, Hgo.
  assert (Hid : tx_hash tx_hash_from_parts tx = tx_hash_from_parts (input <$> builder_inputs b ++ (ibs ≫= bundle_inputs)) (output <$> builder_outputs b ++ (obs ≫= bundle_outputs)) nonce) by (by rewrite Hbuild).
  rewrite <- Hid, Hsi in Hgi. rewrite <- Hid, Hso in Hgo.
  destruct (inputs_nonneg _ _ _ Hi), (outputs_nonneg _ _ _ Ho).
  destruct (states_from_prefix _ _ _ _ _ Hgi) as (si1 & si2 & Hsi1 & ->), (states_from_prefix _ _ _ _ _ Hgo) as (so1 & so2 & Hso1 & ->).
  split_and!; [exact Hti|exact Hto| | |done|lia|done|].
  3: { exists si1, so1. split_and!; [done|done|]. intros s. cbn [states]. rewrite Hst, !elem_of_app. tauto. }
  - by rewrite Hbuild.
  - intros version st Hver. by apply (server_funding_custom modules u).
Qed.
End finalized.
