(* ===== verification/MintPrimary.v ===== *)
(** * The mint as the primary module of a client

    How the client side of the mint
    ([modules/fedimint-mint-client/src/lib.rs]) appears to the client: the fees
    of its items, the bundles with their state machines and the balancing of a
    transaction.  The mint keeps the promise of a primary module, and notes
    received from someone else are reissued by a transaction that the
    federation accepts. *)

From S2P Require Import Prelude Db Amounts ServerModule Transaction MintServer Tiered NoteSelection MintClient SendAmount ClientTx.

Section mint_primary.
(** Undecoded notes, key pairs and issuance requests. *)
Context {UN Key Req : Type}.
Context (public_key : Key -> Z).

Record SpendableNote := { note_sig : Z; spend_key : Key }.
Definition nonce_of (sn : SpendableNote) : Z := public_key (spend_key sn).
Definition note (sn : SpendableNote) : Note := {| note_nonce := nonce_of sn; note_signature := note_sig sn |}.

Context (decode : UN -> option SpendableNote) (tbs_verify : Z -> Z -> Z -> bool) (issuance_request : Z -> Z -> Req * Z).
Context (tbs_pks : gmap Z Z) (fee_consensus : Fee.FeeConsensus).

Definition verify (sn : SpendableNote) (key : Z) : bool := note_verify tbs_verify (note sn) key.

Local Abbreviation ClientInput := (@ClientInput SpendableNote).
Local Abbreviation ClientOutput := (@ClientOutput Req).

(** ** Bundles and their state machines *)

(** [MintInputStates::CreatedBundle], [MintOutputStates::CreatedMulti] and
    [MintInputStates::RefundedBundle], the states a transaction starts with; the
    issuance requests are listed by the index of their output. *)
Inductive MintClientStateMachine :=
| CreatedBundle (operation_id : Z) (out_point_range : OutPointRange) (notes : list (Z * SpendableNote))
| CreatedMulti (operation_id : Z) (out_point_range : OutPointRange) (issuance_requests : list (Z * (Z * Req)))
| RefundedBundle (operation_id : Z) (out_point_range : OutPointRange) (refund_txid : Z) (spendable_notes : list (Z * SpendableNote)).

Definition input_state (operation_id : Z) (inputs : list ClientInput) (range : OutPointRange) : option (list MintClientStateMachine) :=
  if (idx_count (idx_range range) =? length inputs)%nat then
    notes ← mapM (fun i => a ← Amounts.expect_only_bitcoin (ci_amounts i); Some (a, ci_note i)) inputs;
    Some [CreatedBundle operation_id range notes]
  else None.

Definition output_state (operation_id : Z) (outputs : list ClientOutput) (range : OutPointRange) : option (list MintClientStateMachine) :=
  if (idx_count (idx_range range) =? length outputs)%nat then
    Some [CreatedMulti operation_id range (zip (idx_iter (idx_range range)) ((fun o => (co_amount o, co_request o)) <$> outputs))]
  else None.

(** [make_dyn]: items of the module instance. *)
Definition mint_input (id : Z) (i : ClientInput) : @DynClientInput MintInput Key :=
  {| input := {| module_instance_id := id; value := MintInputV0 (ci_amount i) (note (ci_note i)) |};
     keys := [spend_key (ci_note i)]; input_amounts := ci_amounts i |}.
Definition mint_output (id : Z) (o : ClientOutput) : @DynClientOutput MintOutput :=
  {| output := {| module_instance_id := id; value := MintOutputV0 (co_amount o) (co_blind_nonce o) |};
     output_amounts := co_amounts o |}.

Definition create_bundle_for_inputs (id operation_id : Z) (inputs : list ClientInput)
    : @ClientInputBundle MintInput Key MintClientStateMachine :=
  {| bundle_inputs := mint_input id <$> inputs; input_sm_gens := [input_state operation_id inputs] |}.

(** The bundle for no amount has no state machine; the one here is not run. *)
Definition output_bundle (id operation_id : Z) (outputs : list ClientOutput)
    : @ClientOutputBundle MintOutput MintClientStateMachine :=
  {| bundle_outputs := mint_output id <$> outputs; output_sm_gens := [output_state operation_id outputs] |}.

(** ** The module *)

Definition mint_fee (amounts : Amounts.t) : option Amounts.t :=
  Amounts.new_bitcoin <$> Fee.fee fee_consensus (Amounts.get_bitcoin amounts).

Definition mint_client (operation_id : Z) : @ClientModule (@MintClientDb UN) MintInput MintOutput Key MintClientStateMachine := {|
  input_fee amounts _ := mint_fee amounts;
  output_fee amounts _ := mint_fee amounts;
  create_final id unit input_amount output_amount :=
    items ← create_final_inputs_and_outputs decode nonce_of verify issuance_request tbs_pks fee_consensus unit input_amount output_amount;
    mret (create_bundle_for_inputs id operation_id items.1, output_bundle id operation_id items.2);
|}.

Definition supports_being_primary : PrimaryModuleSupport := SupportsSelected 100 [BITCOIN].

(** ** Receiving notes *)

Inductive ReissueExternalNotesError :=
| ReissueZeroAmount
| WrongFederationId (expected found : Z)
| AlreadyReissued
| ReissueNotes (e : ValidateNotesError)
| ReissueTransaction (e : TransactionSubmitError).

(** The transaction that [reissue_external_notes] submits, or why it does not. *)
Definition reissue_builder (id operation_id federation_id_prefix : Z) (oob_federation_id_prefix : Z) (notes : TieredMulti.t SpendableNote)
    : @TransactionBuilder MintInput MintOutput Key MintClientStateMachine + ReissueExternalNotesError :=
  if TieredMulti.total_amount notes =? 0 then inr ReissueZeroAmount
  else if negb (oob_federation_id_prefix =? federation_id_prefix)
  then inr (WrongFederationId federation_id_prefix oob_federation_id_prefix)
  else match create_input_from_notes verify tbs_pks notes with
       | inr e => inr (ReissueNotes e)
       | inl mint_inputs => inl (with_inputs TransactionBuilder_new (create_bundle_for_inputs id operation_id mint_inputs))
       end.

(** ** The promise of a primary module *)

Hypothesis fee_wf : Fee.wf fee_consensus.
Hypothesis tiers_ok : head (tiers tbs_pks) = Some 1 /\ Forall tier_ok (tiers tbs_pks).

Context (operation_id id : Z).
Context (modules : gmap Z (@ClientModule (@MintClientDb UN) MintInput MintOutput Key MintClientStateMachine)).
Hypothesis mint_registered : modules !! id = Some (mint_client operation_id).

Local Abbreviation genuine := (genuine verify tbs_pks).
Local Abbreviation value := TieredMulti.value.
Local Abbreviation in_value := (in_value BITCOIN).
Local Abbreviation in_fees := (in_fees modules BITCOIN).
Local Abbreviation out_value := (out_value BITCOIN).
Local Abbreviation out_fees := (out_fees modules BITCOIN).

(** A wallet whose notes are genuine and whose indices have room. *)
Definition wallet_ok (s : @MintClientDb UN) : Prop := funds_ok decode nonce_of verify tbs_pks (client_notes s) /\ index_ok s.

Definition output_made (o : ClientOutput) : Prop :=
  co_amounts o = Amounts.new_bitcoin (co_amount o) /\ tier_ok (co_amount o).

Lemma bitcoin_unit a : 0 <= a -> unit_only BITCOIN (Amounts.new_bitcoin a) /\ Amounts.get (Amounts.new_bitcoin a) BITCOIN = a.
Proof. intros Ha. unfold unit_only, Amounts.new_bitcoin. rewrite Amounts.get_new_custom, decide_True by done. done. Qed.

Lemma mint_fee_tier a : tier_ok a -> mint_fee (Amounts.new_bitcoin a) = Some (Amounts.new_bitcoin (fee_of fee_consensus a)) /\ 0 <= fee_of fee_consensus a.
Proof using fee_wf.
  intros Ha. destruct (fee_of_spec fee_consensus fee_wf a) as [Hf Hb]; [unfold tier_ok, is_u64, u64_max in *; lia|].
  unfold mint_fee. rewrite Amounts.get_bitcoin_new, Hf. split; [done|lia].
Qed.

Lemma mint_input_ok an : genuine an ->
  input_ok modules BITCOIN (mint_input id (input_of an)) /\ Amounts.get (input_amounts (mint_input id (input_of an))) BITCOIN = an.1 /\
  fee_value BITCOIN (input_fees modules (mint_input id (input_of an))) = fee_of fee_consensus an.1.
Proof using fee_wf mint_registered.
  intros [Ht _]. destruct (mint_fee_tier an.1 Ht) as [Hf Hf0]. unfold tier_ok in Ht. destruct (bitcoin_unit an.1 ltac:(lia)) as [Hu Hg].
  destruct (bitcoin_unit _ Hf0) as [Hfu Hfg].
  assert (Hif : input_fees modules (mint_input id (input_of an)) = Some (Amounts.new_bitcoin (fee_of fee_consensus an.1))).
  { unfold input_fees. cbn [input mint_input module_instance_id]. rewrite mint_registered. exact Hf. }
  split_and!; [split; [exact Hu|]|exact Hg|]; rewrite Hif; [by eexists|exact Hfg].
Qed.

Lemma mint_output_ok o : output_made o ->
  output_ok modules BITCOIN (mint_output id o) /\ Amounts.get (output_amounts (mint_output id o)) BITCOIN = co_amount o /\
  fee_value BITCOIN (output_fees modules (mint_output id o)) = fee_of fee_consensus (co_amount o).
Proof using fee_wf mint_registered.
  intros [Ha Ht]. destruct (mint_fee_tier _ Ht) as [Hf Hf0]. unfold tier_ok in Ht. destruct (bitcoin_unit (co_amount o) ltac:(lia)) as [Hu Hg].
  destruct (bitcoin_unit _ Hf0) as [Hfu Hfg].
  assert (Hof : output_fees modules (mint_output id o) = Some (Amounts.new_bitcoin (fee_of fee_consensus (co_amount o)))).
  { unfold output_fees. cbn [output mint_output module_instance_id output_amounts]. rewrite mint_registered, Ha. exact Hf. }
  unfold output_ok. rewrite Hof. cbn [output_amounts mint_output]. rewrite Ha. split; [split; [exact Hu|by eexists]|split; [exact Hg|exact Hfg]].
Qed.

Lemma mint_inputs_sum l : Forall genuine l ->
  Forall (input_ok modules BITCOIN) (mint_input id <$> (input_of <$> l)) /\
  in_value (mint_input id <$> (input_of <$> l)) = value l /\ in_fees (mint_input id <$> (input_of <$> l)) = fees_value fee_consensus l.
Proof using fee_wf mint_registered.
  unfold ClientTx.in_value, ClientTx.in_fees, fees_value, TieredMulti.value.
  induction 1 as [|an l Han _ (IH1 & IH2 & IH3)]; [by split_and!; [constructor|..]|].
  destruct (mint_input_ok an Han) as (H1 & H2 & H3). rewrite !fmap_cons, !sum_list_cons, IH2, IH3, H2, H3.
  split_and!; [by constructor|done|done].
Qed.

Lemma mint_outputs_sum l : Forall output_made l ->
  Forall (output_ok modules BITCOIN) (mint_output id <$> l) /\ Z.of_nat (length l) <= output_cost fee_consensus l /\
  out_value (mint_output id <$> l) + out_fees (mint_output id <$> l) = output_cost fee_consensus l.
Proof using fee_wf mint_registered.
  unfold ClientTx.out_value, ClientTx.out_fees, output_cost.
  induction 1 as [|o l Ho _ (IH1 & IH2 & IH3)]; [by split_and!; [constructor|..]|].
  destruct (mint_output_ok o Ho) as (H1 & H2 & H3). destruct Ho as [_ Ht]. destruct (mint_fee_tier _ Ht). unfold tier_ok in Ht.
  rewrite !fmap_cons, !sum_list_cons, length_cons, H2, H3. unfold cost_of at 1 3. split_and!; [by constructor|lia|lia].
Qed.

Lemma input_bundle_total l : gens_total (input_entry (create_bundle_for_inputs id operation_id (input_of <$> l))).
Proof.
  apply Forall_singleton. intros range Hc. unfold input_state. cbn [input_entry create_bundle_for_inputs bundle_inputs fst] in Hc.
  rewrite Hc, !length_fmap, Nat.eqb_refl. enough (is_Some (mapM (fun i : ClientInput =>
    a ← Amounts.expect_only_bitcoin (ci_amounts i); Some (a, ci_note i)) (input_of <$> l))) as [notes ->] by by eexists.
  apply mapM_is_Some_2, Forall_fmap, Forall_true. intros [a sn]. simpl. by rewrite Amounts.expect_only_bitcoin_new.
Qed.

Lemma output_bundle_total l : gens_total (output_entry (output_bundle id operation_id l)).
Proof.
  apply Forall_singleton. intros range Hc. unfold output_state. cbn [output_entry output_bundle bundle_outputs fst] in Hc.
  by rewrite Hc, length_fmap, Nat.eqb_refl.
Qed.

Lemma tier_of_key a : is_Some (tbs_pks !! a) -> tier_ok a.
Proof using tiers_ok.
  intros Ha. destruct tiers_ok as [_ Ht]. rewrite Forall_forall in Ht. apply Ht. unfold tiers. by apply elem_of_btree_iter_fst.
Qed.

(** What the mint adds to a transaction. *)
Lemma mint_create_final s i o :
  wallet_ok s -> 0 <= i <= max_funds -> 0 <= o <= max_funds ->
  match create_final (mint_client operation_id) id BITCOIN i o s with
  | (Ok (ib, ob), s') => exists l s1 outputs,
      ib = create_bundle_for_inputs id operation_id (input_of <$> l) /\ ob = output_bundle id operation_id outputs /\
      spent decode nonce_of verify tbs_pks s l s1 /\ issued issuance_request s1 outputs s' /\
      Forall output_made outputs /\ Forall (fun o => is_Some (tbs_pks !! co_amount o)) outputs /\
      o + fees_value fee_consensus l + output_cost fee_consensus outputs <= i + value l
        <= o + fees_value fee_consensus l + output_cost fee_consensus outputs + fee_of fee_consensus 1
  | (Err e, _) => exists b c rest, e = ClientInsufficientBalance b /\ held decode (client_notes s) ≡ₚ rest ++ c /\
      net_value fee_consensus c + spendable fee_consensus rest < o - i
  | (Panic, _) => False
  end.
Proof using fee_wf tiers_ok.
  intros [Hf Hi] Hin Hout. cbn [create_final mint_client].
  destruct (create_final_spec decode nonce_of verify issuance_request tbs_pks fee_consensus fee_wf tiers_ok s i o Hf Hi Hin Hout)
    as (c & s1 & Hs1 & _ & [(l & s2 & outputs & s' & Hs2 & Hiss & _ & Hrun & Ht & Hb)|(e & s' & Hrun & _ & Hlt)]).
  - rewrite (run_bind _ _ _ _ _ Hrun). exists (c ++ l), s2, outputs. split_and!; [done|done|by eapply spent_app|done| |done|lia|lia].
    pose proof (issued_outputs _ _ _ _ Hiss) as Ho. rewrite Forall_forall in Ht, Ho |- *. intros x Hx.
    destruct (Ho x Hx). split; [done|by apply tier_of_key, Ht].
  - unfold mbind, M_bind. rewrite Hrun. exists e, c, (held decode (client_notes s1)). split_and!; [done|apply Hs1|exact Hlt].
Qed.

(** The mint keeps the promise of a primary module for bitcoin. *)
#[export] Instance mint_balances : Balances modules BITCOIN wallet_ok (mint_client operation_id) id.
Proof using fee_wf tiers_ok mint_registered.
  intros s i o Hs Hi Ho. pose proof (mint_create_final s i o Hs Hi Ho) as Hc.
  destruct (create_final _ id BITCOIN i o s) as [[[ib ob]|e|] s']; [|done|done].
  destruct Hc as (l & s1 & outputs & -> & -> & Hsp & Hiss & Hmade & _ & Hle & _). cbn [bundle_inputs bundle_outputs create_bundle_for_inputs output_bundle].
  destruct Hs as [Hf _]. destruct (spent_facts _ _ _ _ _ _ _ Hf Hsp) as (Hg & Hv & Hf1 & Hval).
  assert (Hm : value (held decode (client_notes s)) <= max_funds) by apply Hf.
  pose proof (genuine_length verify tbs_pks _ (held_genuine _ _ _ _ _ (proj1 Hf1))) as Hh. pose proof (genuine_length verify tbs_pks l Hg).
  destruct (mint_inputs_sum l Hg) as (Hio & -> & ->), (mint_outputs_sum outputs Hmade) as (Hoo & Hlen & Hout).
  pose proof (fees_value_bound verify tbs_pks fee_consensus fee_wf l Hg). unfold max_funds in *.
  split_and!; [done|done|apply input_bundle_total|apply output_bundle_total|rewrite !length_fmap; lia|rewrite length_fmap; lia|lia|lia].
Qed.

(** ** The federation *)

(** A guardian with the configuration the client knows. *)
Context (cfg : Mint) (sign_message : Z -> Z -> Z) (nonce_hash blind_nonce_hash : Z -> Z).
Hypothesis cfg_keys : mint_pub_key cfg = tbs_pks.
Hypothesis cfg_fees : MintServer.fee_consensus cfg = fee_consensus.
Hypothesis cfg_shares : forall a, is_Some (tbs_pks !! a) -> is_Some (sec_key cfg !! a).

Context (d0 : MintDb) (smodules : gmap Z (ServerModule MintDb MintInput MintOutput MintConsensusItem MintError)).
Local Abbreviation guardian_mint := (mint_module cfg tbs_verify sign_message nonce_hash blind_nonce_hash).
Hypothesis guardian_registered : smodules !! id = Some guardian_mint.

Definition mint_db (g : gmap Z MintDb) : MintDb := default d0 (g !! id).

Lemma mint_db_insert g d : mint_db (<[id := d]> g) = d.
Proof. unfold mint_db. by rewrite lookup_insert_eq. Qed.

Lemma with_module_run {E F A} (m : M MintDb E A) (e : E -> F) g a d :
  m (mint_db g) = (Ok a, d) -> with_module d0 id (map_err e m) g = (Ok a, <[id := d]> g).
Proof. intros Hm. unfold with_module, zoom, map_err. fold (mint_db g). by rewrite Hm. Qed.

Definition tx_inputs (l : list (Z * SpendableNote)) : list (Dyn MintInput) := input <$> (mint_input id <$> (input_of <$> l)).
Definition tx_outputs (l : list ClientOutput) : list (Dyn MintOutput) := output <$> (mint_output id <$> l).

Lemma verify_inputs_genuine l g : Forall genuine l -> verify_inputs smodules (tx_inputs l) g = (Ok tt, g).
Proof using cfg_keys guardian_registered.
  induction 1 as [|[a sn] l [_ (key & Hk & Hv)] _ IH]; [done|]. cbn [fst snd] in *.
  assert (Hstep : (m ← get_expect smodules id; map_err (fun _ => InvalidWitnessLength (E := MintError))
      (lift_outcome (verify_input m (MintInputV0 a (note sn))))) g = (Ok tt, g)).
  { unfold get_expect. rewrite guardian_registered, (run_bind _ _ g guardian_mint g) by done.
    unfold map_err, lift_outcome. cbn [verify_input mint_module mint_verify_input]. rewrite cfg_keys, Hk. unfold verify in Hv. by rewrite Hv. }
  change (tx_inputs ((a, sn) :: l)) with (input (mint_input id (input_of (a, sn))) :: tx_inputs l).
  cbn [verify_inputs for_each]. by rewrite (run_bind _ _ _ _ _ Hstep).
Qed.

(** One input: the note is marked as spent and funds the transaction. *)
Lemma process_input_step mode txid a sn rest idx i o f pks g :
  genuine (a, sn) -> nonces (mint_db g) !! nonce_of sn = None -> mint_inv (mint_db g) ->
  0 <= i -> 0 <= f -> i + a <= u64_max -> f + fee_of fee_consensus a <= u64_max ->
  exists g', mint_db g' = spend nonce_hash a (note sn) (mint_db g) /\
  process_inputs d0 smodules mode txid idx (input (mint_input id (input_of (a, sn))) :: rest) (fv_of BITCOIN i o f) pks g
    = process_inputs d0 smodules mode txid (idx + 1) rest (fv_of BITCOIN (i + a) o (f + fee_of fee_consensus a)) (pks ++ [nonce_of sn]) g'.
Proof using fee_wf cfg_fees guardian_registered mint_registered.
  intros Hg Hn Hinv Hi Hf Hbi Hbf. destruct (mint_input_ok _ Hg) as (Hok & Hgi & Hgf). destruct Hg as [Ht _]. cbn [fst] in *. unfold tier_ok in Ht.
  destruct (mint_process_input_fresh cfg nonce_hash a (note sn) {| in_txid := txid; in_idx := idx |} (mint_db g))
    as (fee & Hfee & _ & Hrun); [by rewrite cfg_fees|unfold is_u64, u64_max; lia|done|done|].
  rewrite cfg_fees in Hfee.
  assert (exists g1, mint_db g1 = mint_db g /\ match mode with
    | Submission => with_module d0 id (map_err (Input (E := MintError)) (verify_input_submission guardian_mint (MintInputV0 a (note sn))))
    | Consensus => mret tt end g = (Ok tt, g1)) as (g1 & Hg1 & Hsub).
  { destruct mode; [exists (<[id := mint_db g]> g); split; [apply mint_db_insert|done]|by exists g]. }
  rewrite <- Hg1 in Hrun |- *. apply (with_module_run _ (Input (E := MintError))) in Hrun. eexists. split; [apply mint_db_insert|].
  cbn [process_inputs module_instance_id Transaction.value input mint_input].
  unfold get_expect at 1. rewrite guardian_registered, (run_bind _ _ g guardian_mint g) by done.
  rewrite (run_bind _ _ _ _ _ Hsub), (run_bind _ _ _ _ _ Hrun). cbn [ServerModule.amount pub_key].
  assert (Hitem : {| amounts := Amounts.new_bitcoin a; fees := Amounts.new_bitcoin fee |} = input_item modules (mint_input id (input_of (a, sn)))).
  { unfold input_item, input_fees. cbn [input mint_input module_instance_id input_amounts input_of ci_amounts fst]. rewrite mint_registered. cbn [mbind option_bind input_fee mint_client].
    unfold mint_fee. by rewrite Amounts.get_bitcoin_new, Hfee. }
  rewrite Hitem. rewrite (run_bind _ _ _ _ _ (add_input_custom modules BITCOIN _ i o f _ Hok Hi Hf ltac:(rewrite Hgi; lia) ltac:(rewrite Hgf; lia))).
  by rewrite Hgi, Hgf.
Qed.

Lemma process_inputs_mint mode txid l : Forall genuine l -> forall idx i o f pks g,
  NoDup (nonce_of <$> l.*2) -> (forall n, n ∈ nonce_of <$> l.*2 -> nonces (mint_db g) !! n = None) -> mint_inv (mint_db g) ->
  0 <= i -> 0 <= f -> i + value l <= u64_max -> f + fees_value fee_consensus l <= u64_max ->
  exists g', process_inputs d0 smodules mode txid idx (tx_inputs l) (fv_of BITCOIN i o f) pks g
      = (Ok (fv_of BITCOIN (i + value l) o (f + fees_value fee_consensus l), pks ++ (nonce_of <$> l.*2)), g') /\
    mint_inv (mint_db g') /\ output_outcomes (mint_db g') = output_outcomes (mint_db g) /\ blind_nonces (mint_db g') = blind_nonces (mint_db g) /\
    forall n, n ∈ nonce_of <$> l.*2 \/ is_Some (nonces (mint_db g) !! n) -> is_Some (nonces (mint_db g') !! n).
Proof using fee_wf cfg_fees guardian_registered mint_registered.
  induction 1 as [|[a sn] l Hg Hl IH]; intros idx i o f pks g Hnd Hfresh Hinv Hi Hf Hbi Hbf.
  { exists g. unfold fees_value, TieredMulti.value. cbn. rewrite app_nil_r, !Z.add_0_r. split_and!; try done.
    intros n [Hn|Hn]; [by apply not_elem_of_nil in Hn|done]. }
  change (nonce_of <$> ((a, sn) :: l).*2) with (nonce_of sn :: (nonce_of <$> l.*2)) in Hnd, Hfresh |- *. rewrite TieredMulti.value_cons in Hbi |- *.
  change (fees_value fee_consensus ((a, sn) :: l)) with (fee_of fee_consensus a + fees_value fee_consensus l) in Hbf |- *. apply NoDup_cons in Hnd as [Hsn Hnd].
  pose proof (genuine_length verify tbs_pks l Hl). pose proof (fees_value_bound verify tbs_pks fee_consensus fee_wf l Hl) as Hfl.
  destruct (mint_fee_tier a (proj1 Hg)) as [_ Hf0]. pose proof (proj1 Hg) as Ht. unfold tier_ok in Ht. cbn [fst] in Ht.
  destruct (process_input_step mode txid a sn (tx_inputs l) idx i o f pks g) as (g1 & Hg1 & Hstep); [done|apply Hfresh; left|done|lia..|].
  destruct (IH (idx + 1) (i + a) o (f + fee_of fee_consensus a) (pks ++ [nonce_of sn]) g1) as (g' & Hrest & Hinv' & Hout & Hbl & Hsp);
    rewrite ?Hg1; [done| |apply spend_inv; [unfold is_u64, u64_max; lia|done]|lia..|].
  { intros n Hn. cbn [nonces spend]. rewrite lookup_insert_ne; [apply Hfresh; by right|]. intros <-. done. }
  rewrite Hg1 in Hout, Hbl, Hsp. exists g'. split_and!; [|done|done|done|].
  - change (tx_inputs ((a, sn) :: l)) with (input (mint_input id (input_of (a, sn))) :: tx_inputs l).
    rewrite Hstep, Hrest. by rewrite <- (assoc_L (++)), !Z.add_assoc.
  - intros n Hn. apply Hsp. cbn [nonces spend]. destruct (decide (n = nonce_of sn)) as [->|Hne]; [right; by rewrite lookup_insert_eq|].
    rewrite lookup_insert_ne by (by intros <-). destruct Hn as [[->|Hn]%elem_of_cons|Hn]; [done|by left|by right].
Qed.

(** One output: the note is signed and the transaction pays for it. *)
Lemma process_output_step mode txid (x : ClientOutput) rest idx i o f g :
  output_made x -> is_Some (tbs_pks !! co_amount x) -> output_outcomes (mint_db g) !! {| txid := txid; out_idx := idx |} = None ->
  blind_nonces (mint_db g) !! co_blind_nonce x = None -> mint_inv (mint_db g) ->
  0 <= o -> 0 <= f -> o + co_amount x <= u64_max -> f + fee_of fee_consensus (co_amount x) <= u64_max ->
  exists g' key, sec_key cfg !! co_amount x = Some key /\ mint_db g' = issue sign_message blind_nonce_hash (co_amount x) (co_blind_nonce x) key {| txid := txid; out_idx := idx |} (mint_db g) /\
  process_outputs d0 smodules mode txid idx (output (mint_output id x) :: rest) (fv_of BITCOIN i o f) g
    = process_outputs d0 smodules mode txid (idx + 1) rest (fv_of BITCOIN i (o + co_amount x) (f + fee_of fee_consensus (co_amount x))) g'.
Proof using fee_wf cfg_fees cfg_shares guardian_registered mint_registered.
  intros Hx Hk Hn Hbn Hinv Ho Hf Hbo Hbf. destruct (mint_output_ok _ Hx) as (Hok & Hgo & Hgf). destruct Hx as [Ha Ht]. unfold tier_ok in Ht.
  destruct (cfg_shares _ Hk) as [key Hkey].
  destruct (mint_process_output_fresh cfg sign_message blind_nonce_hash (co_amount x) (co_blind_nonce x) key {| txid := txid; out_idx := idx |} (mint_db g))
    as (fee & Hfee & _ & Hrun); [by rewrite cfg_fees|unfold is_u64, u64_max; lia|done|done|done|].
  rewrite cfg_fees in Hfee.
  assert (exists g1, mint_db g1 = mint_db g /\ match mode with
    | Submission => with_module d0 id (map_err (Output (E := MintError)) (verify_output_submission guardian_mint
        (MintOutputV0 (co_amount x) (co_blind_nonce x)) {| txid := txid; out_idx := idx |}))
    | Consensus => mret tt end g = (Ok tt, g1)) as (g1 & Hg1 & Hsub).
  { destruct mode; [exists (<[id := mint_db g]> g); split; [apply mint_db_insert|]|by exists g]. apply with_module_run.
    cbn [verify_output_submission mint_module mint_verify_output_submission]. unfold get_value, gets, mbind, M_bind. cbn [tab BlindNonceKey]. by rewrite Hbn. }
  rewrite <- Hg1 in Hrun |- *. apply (with_module_run _ (Output (E := MintError))) in Hrun. eexists _, key. split; [done|]. split; [apply mint_db_insert|].
  cbn [process_outputs module_instance_id Transaction.value output mint_output].
  unfold get_expect at 1. rewrite guardian_registered, (run_bind _ _ g guardian_mint g) by done.
  rewrite (run_bind _ _ _ _ _ Hsub), (run_bind _ _ _ _ _ Hrun).
  assert (Hitem : {| amounts := Amounts.new_bitcoin (co_amount x); fees := Amounts.new_bitcoin fee |} = output_item modules (mint_output id x)).
  { unfold output_item, output_fees. cbn [output mint_output module_instance_id output_amounts]. rewrite mint_registered. cbn [mbind option_bind output_fee mint_client].
    unfold mint_fee. by rewrite Ha, Amounts.get_bitcoin_new, Hfee. }
  rewrite Hitem. rewrite (run_bind _ _ _ _ _ (add_output_custom modules BITCOIN _ i o f _ Hok Ho Hf ltac:(rewrite Hgo; lia) ltac:(rewrite Hgf; lia))).
  by rewrite Hgo, Hgf.
Qed.

Lemma process_outputs_mint mode txid l : Forall output_made l -> Forall (fun x => is_Some (tbs_pks !! co_amount x)) l -> forall idx i o f g,
  NoDup (co_blind_nonce <$> l) -> (forall n, n ∈ co_blind_nonce <$> l -> blind_nonces (mint_db g) !! n = None) ->
  (forall j, idx <= j -> output_outcomes (mint_db g) !! {| txid := txid; out_idx := j |} = None) -> mint_inv (mint_db g) ->
  0 <= o -> 0 <= f -> o + f + output_cost fee_consensus l <= u64_max ->
  exists g' o' f', process_outputs d0 smodules mode txid idx (tx_outputs l) (fv_of BITCOIN i o f) g = (Ok (fv_of BITCOIN i o' f'), g') /\
    0 <= o' /\ 0 <= f' /\ o' + f' = o + f + output_cost fee_consensus l /\ nonces (mint_db g') = nonces (mint_db g) /\
    (forall p v, output_outcomes (mint_db g) !! p = Some v -> output_outcomes (mint_db g') !! p = Some v) /\
    forall (k : nat) x, l !! k = Some x -> exists key, sec_key cfg !! co_amount x = Some key /\
      output_outcomes (mint_db g') !! {| txid := txid; out_idx := idx + Z.of_nat k |} = Some (sign_message (co_blind_nonce x) key).
Proof using fee_wf cfg_fees cfg_shares guardian_registered mint_registered.
  induction 1 as [|x l Hx Hl IH]; intros Hks idx i o f g Hnd Hbl Hfresh Hinv Ho Hf Hb.
  { exists g, o, f. unfold output_cost. cbn. split_and!; try done. lia. }
  apply Forall_cons in Hks as [Hk Hks]. rewrite fmap_cons in Hnd, Hbl. apply NoDup_cons in Hnd as [Hxn Hnd].
  change (output_cost fee_consensus (x :: l)) with (cost_of fee_consensus (co_amount x) + output_cost fee_consensus l) in Hb |- *.
  destruct (mint_outputs_sum l Hl) as (_ & Hlen & _). destruct (mint_fee_tier _ (proj2 Hx)) as [_ Hf0]. pose proof (proj2 Hx) as Ht. unfold tier_ok in Ht.
  unfold cost_of in Hb |- *.
  destruct (process_output_step mode txid x (tx_outputs l) idx i o f g) as (g1 & key & Hkey & Hg1 & Hstep);
    [done|done|apply Hfresh; lia|apply Hbl; left|done|lia..|].
  destruct (IH Hks (idx + 1) i (o + co_amount x) (f + fee_of fee_consensus (co_amount x)) g1) as (g' & o' & f' & Hrest & Ho' & Hf' & Hsum & Hn & Hkept & Hout);
    rewrite ?Hg1; [done| | |apply issue_inv; [unfold is_u64, u64_max; lia|done]|lia..|].
  { intros n Hn. cbn [blind_nonces issue]. rewrite lookup_insert_ne; [apply Hbl; by right|]. by intros <-. }
  { intros j Hj. cbn [output_outcomes issue]. rewrite lookup_insert_ne; [apply Hfresh; lia|]. intros [= ->]. lia. }
  rewrite Hg1 in Hn, Hkept. exists g', o', f'. split_and!; [|done|done|lia|done| |].
  - change (tx_outputs (x :: l)) with (output (mint_output id x) :: tx_outputs l). by rewrite Hstep, Hrest.
  - intros p v Hp. apply Hkept. cbn [output_outcomes issue]. rewrite lookup_insert_ne; [done|]. intros <-. by rewrite Hfresh in Hp by lia.
  - intros [|k] x' Hx'.
    + injection Hx' as <-. exists key. split; [done|]. rewrite Z.add_0_r. apply Hkept. cbn [output_outcomes issue]. by rewrite lookup_insert_eq.
    + destruct (Hout k x' Hx') as (key' & Hkey' & Hout'). exists key'. split; [done|]. by replace (idx + Z.of_nat (S k)) with (idx + 1 + Z.of_nat k) by lia.
Qed.

Lemma inputs_from_valid k l inputs : inputs_from verify tbs_pks k l = inl inputs -> Forall genuine l /\ inputs = input_of <$> l.
Proof using tiers_ok.
  revert k inputs. induction l as [|[a sn] l IH]; intros k inputs Hin; [by simplify_eq/=|]. cbn [inputs_from] in Hin.
  destruct (tbs_pks !! a) as [key|] eqn:Hk; [|done]. destruct (verify sn key) eqn:Hv; [|done].
  destruct (inputs_from verify tbs_pks (k + 1) l) as [rest|] eqn:Hr; [|done]. simplify_eq/=. destruct (IH _ _ Hr) as [Hg ->].
  split; [|done]. constructor; [|done]. split; [apply tier_of_key; by exists key|]. by exists key.
Qed.

Context (tx_hash_from_parts : list (Dyn MintInput) -> list (Dyn MintOutput) -> Z -> Z).
Context (sign_schnorr : Z -> Key -> Z) (verify_schnorr : Z -> Z -> Z -> bool).
(** A signature with a key pair verifies with its public key. *)
Hypothesis schnorr : forall message key, verify_schnorr (sign_schnorr message key) message (public_key key) = true.

(** A transaction of the client whose inputs are genuine unspent notes. *)
Lemma guardian_accepts mode version nonce l outs g tx :
  inputs tx = tx_inputs l -> outputs tx = tx_outputs outs -> Transaction.nonce tx = nonce ->
  signatures tx = NaiveMultisig (sign_schnorr (tx_hash_from_parts (tx_inputs l) (tx_outputs outs) nonce) <$> (spend_key <$> l.*2)) ->
  Forall genuine l -> NoDup (nonce_of <$> l.*2) -> (forall n, n ∈ nonce_of <$> l.*2 -> nonces (mint_db g) !! n = None) -> mint_inv (mint_db g) ->
  Forall output_made outs -> Forall (fun x => is_Some (tbs_pks !! co_amount x)) outs ->
  NoDup (co_blind_nonce <$> outs) -> (forall n, n ∈ co_blind_nonce <$> outs -> blind_nonces (mint_db g) !! n = None) ->
  (forall j, output_outcomes (mint_db g) !! {| txid := tx_hash tx_hash_from_parts tx; out_idx := j |} = None) ->
  fees_value fee_consensus l + output_cost fee_consensus outs <= value l -> value l <= u64_max -> version_lt version OVERPAY_MIN_VERSION = false ->
  exists g', process_transaction_with_dbtx d0 smodules tx_hash_from_parts verify_schnorr tx version mode g = (Ok tt, g') /\
    (forall n, n ∈ nonce_of <$> l.*2 -> is_Some (nonces (mint_db g') !! n)) /\
    forall (k : nat) x, outs !! k = Some x -> exists key, sec_key cfg !! co_amount x = Some key /\
      output_outcomes (mint_db g') !! {| txid := tx_hash tx_hash_from_parts tx; out_idx := Z.of_nat k |} = Some (sign_message (co_blind_nonce x) key).
Proof using fee_wf cfg_keys cfg_fees cfg_shares guardian_registered mint_registered schnorr.
  intros Hti Hto Hnonce Hsig Hg Hnd Hunspent Hinv Hmade Hks Hbnd Hbl Hfresh Hle Hmax Hver.
  pose proof (genuine_length verify tbs_pks l Hg). pose proof (fees_value_bound verify tbs_pks fee_consensus fee_wf l Hg).
  destruct (mint_outputs_sum outs Hmade) as (_ & Hlen & _).
  unfold process_transaction_with_dbtx. rewrite Hti, Hto. set (id' := tx_hash tx_hash_from_parts tx) in *.
  rewrite (run_bind _ _ _ _ _ (verify_inputs_genuine l g Hg)). change FundingVerifier_default with (fv_of BITCOIN 0 0 0).
  destruct (process_inputs_mint mode id' l Hg 0 0 0 0 [] g Hnd Hunspent Hinv ltac:(lia) ltac:(lia) ltac:(lia) ltac:(lia)) as (g1 & Hrun1 & Hinv1 & Ho1 & Hb1 & Hs1).
  rewrite (run_bind _ _ _ _ _ Hrun1). cbn [fst snd app].
  assert (Hval : validate_signatures (D := MintDb) (E := MintError) tx_hash_from_parts verify_schnorr tx (nonce_of <$> l.*2) g1 = (Ok tt, g1)).
  { apply validate_signatures_Ok. split; [done|]. eexists. split; [exact Hsig|]. unfold tx_hash. rewrite Hti, Hto, Hnonce.
    generalize (tx_hash_from_parts (tx_inputs l) (tx_outputs outs) nonce). intros message. generalize l.*2. intros sns.
    induction sns as [|sn sns IH]; constructor; [apply schnorr|exact IH]. }
  rewrite (run_bind _ _ _ _ _ Hval).
  destruct (process_outputs_mint mode id' outs Hmade Hks 0 (0 + value l) 0 (0 + fees_value fee_consensus l) g1) as (g2 & o' & f' & Hrun2 & Ho' & Hf' & Hsum & Hn2 & _ & Hout2);
    [done|by rewrite Hb1|rewrite Ho1; intros j _; apply Hfresh|done|lia..|].
  rewrite (run_bind _ _ _ _ _ Hrun2). exists g2. split_and!.
  - apply verify_funding_custom; (done || lia).
  - intros n Hn. rewrite Hn2. apply Hs1. by left.
  - intros k x Hk. destruct (Hout2 k x Hk) as (key & Hkey & Ho). by exists key.
Qed.

Context (primary_modules : gmap Z PrimaryModuleCandidates).
Hypothesis mint_is_primary : primary_module_for_unit modules primary_modules BITCOIN = Some (Some (id, mint_client operation_id)).
(** Different notes have different blind nonces. *)
Hypothesis issuance_inj : forall a i a' i', (issuance_request a i).2 = (issuance_request a' i').2 -> a = a' /\ i = i'.

Lemma issued_blind_nonces (s : @MintClientDb UN) outputs s' :
  issued issuance_request s outputs s' ->
  NoDup (co_blind_nonce <$> outputs) /\
  forall n, n ∈ co_blind_nonce <$> outputs -> exists a i, n = (issuance_request a i).2 /\ next_index_of s a <= i.
Proof using issuance_inj.
  intros [_ Hu Ho]. assert (Hb : forall o, o ∈ outputs -> co_blind_nonce o = (issuance_request (co_amount o) (co_index o)).2).
  { intros o Hin. rewrite Forall_forall in Ho. by destruct (Ho o Hin) as [_ <-]. }
  assert (Hnd : NoDup ((fun o => (co_amount o, co_index o)) <$> outputs)).
  { apply indices_NoDup. intros a. destruct (Hu a) as [-> _]. apply NoDup_seqZ. }
  split.
  - assert (Heq : co_blind_nonce <$> outputs = (fun ai => (issuance_request ai.1 ai.2).2) <$> ((fun o => (co_amount o, co_index o)) <$> outputs)).
    { rewrite <- list_fmap_compose. apply list_fmap_ext. intros k o Hk. apply Hb. by eapply list_elem_of_lookup_2. }
    rewrite Heq. apply NoDup_fmap_2; [|done]. intros [a i] [a' i'] Hai. simpl in Hai. by destruct (issuance_inj _ _ _ _ Hai) as [-> ->].
  - intros n (o & -> & Hin)%list_elem_of_fmap. exists (co_amount o), (co_index o). split; [by apply Hb|]. destruct (Hu (co_amount o)) as [Hi _].
    assert (Hx : co_index o ∈ indices (co_amount o) outputs) by (apply list_elem_of_fmap; exists o; split; [done|]; by apply list_elem_of_filter).
    rewrite Hi in Hx. apply elem_of_seqZ in Hx. lia.
Qed.

(** The transaction of [reissue_builder]. *)
Lemma reissue_builder_valid fed fed' notes b :
  reissue_builder id operation_id fed fed' notes = inl b ->
  let l := TieredMulti.iter_items notes in
  Forall genuine l /\ builder_inputs b = mint_input id <$> (input_of <$> l) /\ builder_outputs b = [] /\
  (value l <= max_funds -> fees_value fee_consensus l <= max_funds -> builder_ok modules BITCOIN b).
Proof using fee_wf tiers_ok mint_registered.
  unfold reissue_builder. intros Hb. destruct (_ =? 0); [done|]. destruct (negb _); [done|].
  destruct (create_input_from_notes verify tbs_pks notes) as [inputs|] eqn:Hc; [|done]. injection Hb as <-.
  destruct (inputs_from_valid _ _ _ Hc) as [Hg ->]. cbv zeta.
  assert (Hi : builder_inputs (Out := MintOutput) (with_inputs TransactionBuilder_new (create_bundle_for_inputs id operation_id (input_of <$> TieredMulti.iter_items notes)))
    = mint_input id <$> (input_of <$> TieredMulti.iter_items notes)) by apply app_nil_r.
  split_and!; [done|done|done|]. intros Hv Hfee. destruct (mint_inputs_sum _ Hg) as (Hok & Hval & Hf). pose proof (genuine_length verify tbs_pks _ Hg).
  unfold max_funds in *. split; rewrite ?Hi, ?Hval, ?Hf.
  - done.
  - constructor.
  - done.
  - change (0 + (fees_value fee_consensus (TieredMulti.iter_items notes) + 0) <= 2 ^ 61). lia.
  - rewrite !length_fmap. simpl. lia.
  - split; [apply Forall_singleton, input_bundle_total|constructor].
Qed.

Lemma note_keys l : (mint_input id <$> (input_of <$> l)) ≫= keys = spend_key <$> l.*2.
Proof. induction l as [|an l IH]; [done|]. rewrite !fmap_cons, bind_cons, IH. done. Qed.

(** What finalizing adds to a transaction when the mint is primary: the bundles
    for the notes it takes and issues, or nothing when the amounts agree. *)
Lemma mint_balance_bundles s i o :
  wallet_ok s -> 0 <= i <= max_funds -> 0 <= o <= max_funds ->
  match balance_units modules primary_modules (Amounts.new_custom BITCOIN i) (Amounts.new_custom BITCOIN o)
          (all_units (Amounts.new_custom BITCOIN i) (Amounts.new_custom BITCOIN o)) s with
  | (Ok (ibs, obs), s') => exists l s1 outputs,
      (ibs, obs) = (if i =? o then ([], []) else ([create_bundle_for_inputs id operation_id (input_of <$> l)], [output_bundle id operation_id outputs])) /\
      (i = o -> l = [] /\ outputs = []) /\
      spent decode nonce_of verify tbs_pks s l s1 /\ issued issuance_request s1 outputs s' /\
      (Forall output_made outputs /\ Forall (fun o => is_Some (tbs_pks !! co_amount o)) outputs) /\
      i + value l <= o + fees_value fee_consensus l + output_cost fee_consensus outputs + fee_of fee_consensus 1
  | (Err e, _) => exists b c rest, e = submit_error_of (ClientInsufficientBalance b) /\ held decode (client_notes s) ≡ₚ rest ++ c /\
      net_value fee_consensus c + spendable fee_consensus rest < o - i
  | (Panic, _) => False
  end.
Proof using fee_wf tiers_ok mint_is_primary.
  intros Hs Hi Ho. rewrite balance_units_one. destruct (Z.eqb_spec i o) as [Heq|Hne].
  { exists [], s, []. split_and!; [done|done|apply spent_nil; apply Hs|apply issued_nil|constructor|constructor|].
    destruct (mint_fee_tier 1 ltac:(split; lia)) as [_ ?]. cbn. lia. }
  unfold balance_unit. rewrite mint_is_primary. unfold map_err. pose proof (mint_create_final s i o Hs Hi Ho) as Hc.
  destruct (create_final _ id BITCOIN i o s) as [[[ib ob]|e|] s']; [|destruct Hc as (b & c & rest & -> & Hh & Hlt); by exists b, c, rest|done].
  destruct Hc as (l & s1 & outputs & -> & -> & Hsp & Hiss & Hm & Hk & _ & Hle). by exists l, s1, outputs.
Qed.

(** The items of these bundles. *)
Lemma mint_balance_units s i o :
  wallet_ok s -> 0 <= i <= max_funds -> 0 <= o <= max_funds ->
  match balance_units modules primary_modules (Amounts.new_custom BITCOIN i) (Amounts.new_custom BITCOIN o)
          (all_units (Amounts.new_custom BITCOIN i) (Amounts.new_custom BITCOIN o)) s with
  | (Ok (ibs, obs), s') => exists l s1 outputs,
      ibs ≫= bundle_inputs = mint_input id <$> (input_of <$> l) /\ obs ≫= bundle_outputs = mint_output id <$> outputs /\
      spent decode nonce_of verify tbs_pks s l s1 /\ issued issuance_request s1 outputs s' /\
      Forall output_made outputs /\ Forall (fun o => is_Some (tbs_pks !! co_amount o)) outputs
  | (Err e, _) => exists b, e = submit_error_of (ClientInsufficientBalance b)
  | (Panic, _) => False
  end.
Proof using fee_wf tiers_ok mint_is_primary.
  intros Hs Hi Ho. pose proof (mint_balance_bundles s i o Hs Hi Ho) as Hb.
  destruct (balance_units modules primary_modules _ _ _ s) as [[[ibs obs]|e|] s']; [|destruct Hb as (b & _ & _ & -> & _); by exists b|done].
  destruct Hb as (l & s1 & outputs & Heq & Hno & Hrest). exists l, s1, outputs. destruct Hrest as (Hsp & Hiss & [Hmade Hks] & _).
  destruct (Z.eqb_spec i o) as [He|_]; injection Heq as -> ->; cbn [mbind list_bind].
  - destruct (Hno He) as [-> ->]. by split_and!.
  - rewrite !app_nil_r. by split_and!.
Qed.

(** C15: reissuing notes works from the wallet to the federation.  When the
    received notes and the notes of the wallet are unspent, the client
    finalizes a transaction for them without a panic, and a guardian with the
    same configuration accepts it, at submission as well as in consensus: the
    received notes are spent, and every note the client asked for is signed.
    The only error is that the wallet cannot pay the fees. *)
Theorem reissue_accepted fed fed' notes b nonce s g mode version :
  reissue_builder id operation_id fed fed' notes = inl b ->
  let l := TieredMulti.iter_items notes in
  wallet_ok s -> value l <= max_funds -> fees_value fee_consensus l <= max_funds ->
  NoDup (nonce_of <$> (l ++ held decode (client_notes s)).*2) -> mint_inv (mint_db g) ->
  (forall n, n ∈ nonce_of <$> (l ++ held decode (client_notes s)).*2 -> nonces (mint_db g) !! n = None) ->
  (forall a i, next_index_of s a <= i -> blind_nonces (mint_db g) !! (issuance_request a i).2 = None) ->
  version_lt version OVERPAY_MIN_VERSION = false ->
  match finalize_transaction modules primary_modules tx_hash_from_parts sign_schnorr b nonce s with
  | (Ok ft, _) =>
      let txid := tx_hash tx_hash_from_parts (transaction ft) in
      (forall j, output_outcomes (mint_db g) !! {| ServerModule.txid := txid; out_idx := j |} = None) ->
      exists g', process_transaction_with_dbtx d0 smodules tx_hash_from_parts verify_schnorr (transaction ft) version mode g = (Ok tt, g') /\
        (forall n, n ∈ nonce_of <$> l.*2 -> is_Some (nonces (mint_db g') !! n)) /\
        forall j, 0 <= j < Z.of_nat (length (outputs (transaction ft))) ->
          is_Some (output_outcomes (mint_db g') !! {| ServerModule.txid := txid; out_idx := j |})
  | (Err e, _) => exists b, e = InsufficientFunds b
  | (Panic, _) => False
  end.
Proof using fee_wf tiers_ok cfg_keys cfg_fees cfg_shares guardian_registered mint_registered schnorr mint_is_primary issuance_inj.
  intros Hre l Hs Hv Hfee Hnd Hinv Hunspent Hblind Hver. destruct (reissue_builder_valid _ _ _ _ Hre) as (Hg & Hbi & Hbo & Hbok).
  specialize (Hbok Hv Hfee). fold l in Hg, Hbi.
  pose proof (finalize_spec modules primary_modules tx_hash_from_parts sign_schnorr BITCOIN wallet_ok _ id mint_is_primary b nonce s Hbok Hs) as Hspec.
  cbv zeta in Hspec. rewrite Hbi, Hbo in Hspec. destruct (mint_inputs_sum l Hg) as (_ & Hval & Hfv). rewrite Hval, Hfv in Hspec.
  pose proof (genuine_length verify tbs_pks l Hg). pose proof (fees_value_bound verify tbs_pks fee_consensus fee_wf l Hg).
  pose proof (mint_balance_units s (value l) (0 + (fees_value fee_consensus l + 0)) Hs ltac:(lia) ltac:(lia)) as Hadd.
  change (out_value []) with 0 in Hspec. change (out_fees []) with 0 in Hspec.
  destruct (balance_units modules primary_modules _ _ _ s) as [[[ibs obs]|e|] s']; [| |done].
  2: { rewrite Hspec. destruct Hadd as [bal ->]. by eexists. }
  destruct Hadd as (l' & s1 & outs & Hl' & Houts & Hsp & Hiss & Hmade & Hks). destruct Hspec as (_ & _ & Hmax & Hle & tx & sts & Hbuild & Hti & Hto & ->).
  cbn [transaction]. intros Hfresh. apply build_parts in Hbuild. cbv zeta in Hbuild.
  destruct (extended_items b ibs obs) as [Hei Heo]. rewrite Hei, Heo, Hbi, Hbo, Hl', Houts, <- !fmap_app in Hbuild. cbn [app] in Hbuild.
  rewrite Hl' in Hmax, Hle. rewrite Houts in Hle. cbn [app] in Hle. rewrite <- !fmap_app in Hmax. rewrite <- !fmap_app in Hle.
  destruct (spent_facts _ _ _ _ _ _ _ (proj1 Hs) Hsp) as (Hg' & _). assert (Hgall : Forall genuine (l ++ l')) by by apply Forall_app.
  destruct (mint_inputs_sum _ Hgall) as (_ & HV & HF). rewrite HV in Hmax, Hle. rewrite HF in Hle. destruct (mint_outputs_sum outs Hmade) as (_ & _ & HO).
  destruct (issued_blind_nonces _ _ _ Hiss) as [Hbnd Hbn].
  assert (Hsub : nonce_of <$> (l ++ l').*2 ⊆+ nonce_of <$> (l ++ held decode (client_notes s)).*2).
  { do 2 apply fmap_submseteq. apply submseteq_skips_l. rewrite (spent_held _ _ _ _ _ _ _ Hsp). by apply submseteq_inserts_l. }
  destruct (guardian_accepts mode version nonce (l ++ l') outs g tx) as (g' & Hrun & Hspent & Hsigned); try done.
  - by rewrite Hbuild.
  - by rewrite Hbuild.
  - by rewrite Hbuild.
  - rewrite Hbuild. cbn [signatures]. by rewrite note_keys.
  - apply submseteq_Permutation in Hsub as [k Hk]. rewrite Hk in Hnd. by apply NoDup_app in Hnd as [Hnd _].
  - intros n Hn. apply Hunspent. by eapply elem_of_submseteq.
  - intros n (a & i & -> & Hi)%Hbn. apply Hblind. unfold next_index_of in *. by rewrite <- (spent_index _ _ _ _ _ _ _ Hsp).
  - lia.
  - exists g'. split_and!; [done| |].
    + intros n Hn. apply Hspent. rewrite !fmap_app. apply elem_of_app. by left.
    + intros j Hj. rewrite Hbuild in Hj. cbn [outputs] in Hj. rewrite !length_fmap in Hj.
      destruct (lookup_lt_is_Some_2 outs (Z.to_nat j)) as [x Hx]; [lia|]. destruct (Hsigned _ _ Hx) as (key & _ & Ho).
      rewrite Z2Nat.id in Ho by lia. by eexists.
Qed.
End mint_primary.

(** ** A wallet that receives a note *)

Module MintPrimaryExample.
(** A key pair is its public key; notes above one thousand are undecodable. *)
Definition sn_of (key : Z) : SpendableNote (Key := Z) := {| note_sig := 7; spend_key := key |}.
Definition decode (un : Z) : option (SpendableNote (Key := Z)) := if un <? 1000 then Some (sn_of un) else None.
Definition tbs_verify (nonce sig key : Z) : bool := sig =? key.
Definition issuance_request (amount index : Z) : Z * Z := (amount, Z.pos (encode (amount, index))).
Definition tbs_pks : gmap Z Z := MintClientExample.tbs_pks.
Definition fees : Fee.FeeConsensus := MintClientExample.fees.
Definition tx_hash_from_parts (ins : list (Dyn MintInput)) (outs : list (Dyn MintOutput)) (nonce : Z) : Z := nonce.
Definition sign_schnorr (message key : Z) : Z := message + key.
Definition verify_schnorr (sig message key : Z) : bool := sig =? message + key.
Definition hash (n : Z) : Z := n.

Definition wallet : @MintClientDb Z := MintClientExample.wallet.
Definition cfg : Mint := {| MintServer.fee_consensus := fees; sec_key := tbs_pks; mint_pub_key := tbs_pks |}.
Definition guardian : gmap Z (ServerModule MintDb MintInput MintOutput MintConsensusItem MintError) :=
  {[ 1 := mint_module cfg tbs_verify Z.add hash hash ]}.

Definition client_mint := mint_client id decode tbs_verify issuance_request tbs_pks fees 5.
Definition modules := {[ 1 := client_mint ]} : gmap Z _.
Definition primary_modules : gmap Z PrimaryModuleCandidates := add_primary ∅ (1, supports_being_primary).

(** A note of 512 was received. *)
Definition received : TieredMulti.t (SpendableNote (Key := Z)) := {[ 512 := [sn_of 20] ]}.
Definition builder := with_inputs (@TransactionBuilder_new MintInput MintOutput Z (MintClientStateMachine (Req := Z)))
  (create_bundle_for_inputs id 1 5 (input_of <$> [(512, sn_of 20)])).
Definition version : CoreConsensusVersion := {| major := 2; minor := 1 |}.

Lemma registered : modules !! 1 = Some client_mint.
Proof. apply lookup_singleton_eq. Qed.
Lemma primary : primary_module_for_unit modules primary_modules BITCOIN = Some (Some (1, client_mint)).
Proof. reflexivity. Qed.

Lemma received_wallet_ok : wallet_ok id decode tbs_verify tbs_pks wallet.
Proof.
  split; [split; [|by vm_compute]|exact MintClientExample.wallet_index]. apply map_Forall_to_list, Forall_forall. intros [[a n] un] Hin.
  assert (Hall : forallb (fun kv => (0 <? kv.1.1) && (kv.1.1 <=? 2 ^ 63) && (kv.2 =? kv.1.2) && (kv.2 <? 1000) &&
    bool_decide (tbs_pks !! kv.1.1 = Some 7)) (map_to_list (client_notes wallet)) = true) by by vm_compute.
  rewrite forallb_forall in Hall. specialize (Hall _ (proj1 (list_elem_of_In _ _) Hin)). cbn [fst snd] in Hall.
  rewrite !andb_true_iff, bool_decide_eq_true in Hall. destruct Hall as ((((H1 & H2) & H3) & H4) & H5).
  exists (sn_of un). unfold decode. rewrite H4. cbn [fst snd]. split_and!; [done|by apply Z.eqb_eq in H3|].
  split; [unfold tier_ok; cbn [fst]; lia|]. exists 7. split; [exact H5|done].
Qed.

Lemma reissue_is : reissue_builder id tbs_verify tbs_pks 1 5 9 9 received = inl builder.
Proof. reflexivity. Qed.

Lemma builder_is_ok : builder_ok modules BITCOIN builder.
Proof.
  apply (reissue_builder_valid id decode tbs_verify issuance_request tbs_pks fees MintClientExample.client_fees_wf MintClientExample.tiers_ok
    5 1 modules registered 9 9 received builder reissue_is); by vm_compute.
Qed.

Lemma reissue_finalized : exists ft s',
  finalize_transaction modules primary_modules tx_hash_from_parts sign_schnorr builder 3 wallet = (Ok ft, s') /\
  nonce (transaction ft) = 3.
Proof. eexists _, _. split; [vm_compute; reflexivity|by vm_compute]. Qed.

#[local] Instance example_balances : Balances modules BITCOIN (wallet_ok id decode tbs_verify tbs_pks) client_mint 1.
Proof.
  exact (mint_balances id decode tbs_verify issuance_request tbs_pks fees MintClientExample.client_fees_wf MintClientExample.tiers_ok 5 1 modules registered).
Qed.

Lemma build_bundle_ranges_witness :
  exists tx sts, build tx_hash_from_parts sign_schnorr builder 3 = Some (tx, sts) /\ signatures tx = NaiveMultisig [23].
Proof.
  destruct (build_bundle_ranges tx_hash_from_parts sign_schnorr builder 3) as (tx & si & so & Hb & _ & _ & _ & _ & Hs).
  - by vm_compute.
  - by vm_compute.
  - apply Forall_singleton, input_bundle_total.
  - constructor.
  - exists tx, (si ++ so). split; [exact Hb|]. rewrite Hs. reflexivity.
Defined.

Lemma finalize_transaction_accepted_witness :
  exists ft s', finalize_transaction modules primary_modules tx_hash_from_parts sign_schnorr builder 3 wallet = (Ok ft, s') /\
    range_start (change_range ft) = 0.
Proof.
  pose proof (finalize_transaction_accepted modules primary_modules tx_hash_from_parts sign_schnorr BITCOIN
    (wallet_ok id decode tbs_verify tbs_pks) client_mint 1 primary builder 3 wallet builder_is_ok received_wallet_ok) as H.
  destruct reissue_finalized as (ft & s' & Hrun & _). exists ft, s'. split; [exact Hrun|]. rewrite Hrun in H.
  destruct H as (ins & outs & _ & _ & _ & _ & _ & _ & Hc). rewrite Hc. reflexivity.
Defined.

Lemma fee_quote_exact_witness :
  exists ft s' q d', finalize_transaction modules primary_modules tx_hash_from_parts sign_schnorr builder 3 wallet = (Ok ft, s') /\
    fee_quote modules primary_modules (request_of modules BITCOIN builder) wallet = (Ok q, d') /\ FeeQuote_total q = Some (tx_fees ft).
Proof.
  pose proof (fee_quote_exact modules primary_modules tx_hash_from_parts sign_schnorr BITCOIN
    (wallet_ok id decode tbs_verify tbs_pks) client_mint 1 primary builder 3 wallet builder_is_ok received_wallet_ok) as H.
  destruct reissue_finalized as (ft & s' & Hrun & _). rewrite Hrun in H. destruct H as (q & d' & Hq & Ht).
  exists ft, s', q, d'. split; [exact Hrun|split; [exact Hq|exact Ht]].
Defined.

Lemma reissue_accepted_witness :
  exists ft s' g', finalize_transaction modules primary_modules tx_hash_from_parts sign_schnorr builder 3 wallet = (Ok ft, s') /\
    process_transaction_with_dbtx MintDb_empty guardian tx_hash_from_parts verify_schnorr (transaction ft) version Submission ∅ = (Ok tt, g') /\
    is_Some (nonces (mint_db 1 MintDb_empty g') !! 20).
Proof.
  pose proof (reissue_accepted id decode tbs_verify issuance_request tbs_pks fees MintClientExample.client_fees_wf MintClientExample.tiers_ok
    5 1 modules registered cfg Z.add hash hash eq_refl eq_refl ltac:(done) MintDb_empty guardian ltac:(apply lookup_singleton_eq)
    tx_hash_from_parts sign_schnorr verify_schnorr ltac:(intros; apply Z.eqb_refl) primary_modules primary
    ltac:(intros a i a' i' H; injection H as H; apply (inj encode) in H; by simplify_eq)
    9 9 received builder 3 wallet ∅ Submission version reissue_is received_wallet_ok ltac:(by vm_compute) ltac:(by vm_compute)
    ltac:(apply (bool_decide_unpack _); by vm_compute) mint_inv_empty
    ltac:(intros; apply lookup_empty) ltac:(intros; apply lookup_empty) eq_refl) as H.
  destruct reissue_finalized as (ft & s' & Hrun & _). rewrite Hrun in H. cbv zeta in H.
  destruct H as (g' & Hg & Hn & _); [intros j; apply lookup_empty|]. exists ft, s', g'. split; [exact Hrun|]. split; [exact Hg|]. apply Hn. left.
Defined.
End MintPrimaryExample.
