(* ===== verification/Api.v ===== *)
(** * The consensus endpoints of a guardian

    The part of [fedimint-server/src/consensus/api.rs] that clients depend on
    for their money: submitting a transaction, which waits until consensus has
    accepted it or it has become invalid, and asking for the outcomes of its
    outputs.  A request runs concurrently with the engine, so a submission is a
    step relation over the database of the guardian and the state of the
    request. *)

From S2P Require Import Prelude Db Amounts Peers ServerModule Transaction ClientTx Engine.

Section api.
Context {D I O C E : Type} `{!EqDecision I, !EqDecision O, !EqDecision C}.
Context (d0 : D) (modules : gmap Z (ServerModule D I O C E)).
Context (tx_hash_from_parts : list (Dyn I) -> list (Dyn O) -> Z -> Z) (verify_schnorr : Z -> Z -> Z -> bool).
Context (version : CoreConsensusVersion) (ci_status_senders : gset Z).
Abbreviation DB := (CoreDb D I O C).

(** ** Submitting a transaction *)

(** What the database says of a transaction. *)
Inductive Validity := Accepted | Valid | Invalid (e : TransactionError E) | ValidityPanic.

Definition validity (transaction : Transaction I O) (db : DB) : Validity :=
  match AcceptedTransactions db !! tx_hash tx_hash_from_parts transaction with
  | Some _ => Accepted
  | None =>
      match process_transaction_with_dbtx d0 modules tx_hash_from_parts verify_schnorr transaction version Submission (modules_db db) with
      | (Ok _, _) => Valid
      | (Err e, _) => Invalid e
      | (Panic, _) => ValidityPanic
      end
  end.

(** The request waits for the item or the session with these indices; [sent]
    counts how often the transaction was sent to the engine. *)
Inductive SubmissionRequest :=
| Polling (session_index item_index sent : Z)
| Answered (r : Z + TransactionError E)
| SubmitPanicked.

(** A valid transaction is sent to the engine before the request waits. *)
Definition submit_transaction (transaction : Transaction I O) (db : DB) : SubmissionRequest :=
  match validity transaction db with
  | Accepted => Answered (inl (tx_hash tx_hash_from_parts transaction))
  | Invalid e => Answered (inr e)
  | ValidityPanic => SubmitPanicked
  | Valid => Polling (get_finished_session_count db) (Z.of_nat (size (AcceptedItems db))) 1
  end.

(** One round of the loop, with the key that exists. *)
Definition submission_round (transaction : Transaction I O) (session_completed : bool) (session_index item_index sent : Z) (db : DB) : SubmissionRequest :=
  match validity transaction db with
  | Accepted => Answered (inl (tx_hash tx_hash_from_parts transaction))
  | Invalid e => Answered (inr e)
  | ValidityPanic => SubmitPanicked
  | Valid => if session_completed then Polling (session_index + 1) 0 (sent + 1) else Polling session_index (item_index + 1) sent
  end.

(** [wait_key_exists] of the two keys. *)
Definition wakes (db : DB) (session_completed : bool) (session_index item_index : Z) : Prop :=
  if session_completed then is_Some (SignedSessionOutcomes db !! session_index) else is_Some (AcceptedItems db !! item_index).

(** What the engine commits meanwhile: items, units and sessions. *)
Inductive guardian_step (db : DB) : DB -> Prop :=
| guardian_item commits item peer r db' :
    process_ordered_item d0 modules tx_hash_from_parts verify_schnorr version ci_status_senders commits
      (Z.of_nat (length (pending_accepted_items db))) item peer db = (Ok r, db') -> guardian_step db db'
| guardian_unit units_index data next db' : BackupWriter_append units_index data db = (Ok next, db') -> guardian_step db db'
| guardian_session commit outcome db' :
    complete_session commit (get_finished_session_count db) outcome db = (Ok tt, db') -> guardian_step db db'.

(** A request and the database, after any interleaving. *)
Inductive submitting (transaction : Transaction I O) (db0 : DB) : DB -> SubmissionRequest -> Prop :=
| submitting_start : submitting transaction db0 db0 (submit_transaction transaction db0)
| submitting_engine db r db' : submitting transaction db0 db r -> guardian_step db db' -> submitting transaction db0 db' r
| submitting_round db completed s i sent :
    submitting transaction db0 db (Polling s i sent) -> wakes db completed s i ->
    submitting transaction db0 db (submission_round transaction completed s i sent db).

(** *** The position of a guardian in the log *)

(** Both logs are without gaps. *)
Definition logs_ok (db : DB) : Prop :=
  log_repr (AcceptedItems db) (pending_accepted_items db) /\ exists outs, log_repr (SignedSessionOutcomes db) outs.

Definition sessions (db : DB) : Z := get_finished_session_count db.
Definition items_pending (db : DB) : Z := Z.of_nat (length (pending_accepted_items db)).

(** [db'] is at a later position, or at the same with the same state. *)
Definition later (db db' : DB) : Prop :=
  sessions db < sessions db' \/ (sessions db = sessions db' /\ items_pending db < items_pending db') \/
  (sessions db = sessions db' /\ items_pending db = items_pending db' /\ modules_db db' = modules_db db /\
   AcceptedTransactions db' = AcceptedTransactions db).

Lemma sessions_wake db i : logs_ok db -> 0 <= i -> is_Some (SignedSessionOutcomes db !! i) <-> i < sessions db.
Proof.
  intros [_ [outs Ho]] Hi. unfold sessions, get_finished_session_count.
  rewrite (next_index_log _ _ (log_repr_length _ _ Ho)), (log_repr_length _ _ Ho i). lia.
Qed.

Lemma items_wake db i : logs_ok db -> 0 <= i -> is_Some (AcceptedItems db !! i) <-> i < items_pending db.
Proof. intros [Hl _] Hi. unfold items_pending. rewrite (log_repr_length _ _ Hl i). lia. Qed.

Lemma items_size db : logs_ok db -> Z.of_nat (size (AcceptedItems db)) = items_pending db.
Proof. intros _. unfold items_pending, pending_accepted_items. by rewrite length_fmap, length_btree_iter. Qed.

Lemma guardian_item_later commits item peer r db db' :
  logs_ok db ->
  process_ordered_item d0 modules tx_hash_from_parts verify_schnorr version ci_status_senders commits (items_pending db) item peer db = (Ok r, db') ->
  logs_ok db' /\ later db db' /\ (forall k, is_Some (AcceptedTransactions db !! k) -> is_Some (AcceptedTransactions db' !! k)).
Proof.
  intros [Hl Ho] [_ Ha]%process_ordered_Ok. destruct r as [e|[]].
  { apply attempt_inl in Ha as ->. split; [done|]. split; [right; right; done|done]. }
  apply attempt_inr in Ha as [[Hi ->]|(Hi & _ & dbtx & Hp & Hb)].
  { unfold items_pending in Hi. rewrite (log_repr_lookup _ _ _ Hl), lookup_ge_None_2 in Hi by done. done. }
  apply process_with_db_tables in Hp as (Hp1 & Hp2 & Hp3 & Hp4). apply check_balance_sheet_tables in Hb as (Hb1 & Hb2 & Hb3 & _).
  cbn in Hb1, Hb2, Hb3. rewrite Hp1 in Hb1. rewrite Hp2 in Hb3.
  pose proof (log_repr_push _ _ {| accepted_item := item; accepted_peer := peer |} Hl) as Hpush. unfold items_pending in Hb1. rewrite <- Hb1 in Hpush.
  assert (Hpend : pending_accepted_items db' = pending_accepted_items db ++ [{| accepted_item := item; accepted_peer := peer |}])
    by exact (log_repr_iter _ _ Hpush).
  split_and!.
  - split; [by rewrite Hpend|]. by rewrite Hb3.
  - right. left. unfold sessions, get_finished_session_count, items_pending. rewrite Hb3, Hpend, length_app. cbn [length]. split; [done|lia].
  - intros k Hk. rewrite Hb2. destruct item as [tx| |]; [|by rewrite Hp4..]. destruct Hp4 as [_ ->].
    by apply lookup_insert_is_Some'; right.
Qed.

Lemma guardian_step_later db db' :
  logs_ok db -> guardian_step db db' ->
  logs_ok db' /\ later db db' /\ (forall k, is_Some (AcceptedTransactions db !! k) -> is_Some (AcceptedTransactions db' !! k)).
Proof.
  intros Hl [commits item peer r ? Hrun|ui data next ? Hrun|commit outcome ? Hrun].
  - by eapply guardian_item_later.
  - unfold BackupWriter_append in Hrun. dbrun. split; [exact Hl|]. split; [right; right; done|done].
  - apply complete_session_Ok in Hrun as (_ & _ & ->). destruct Hl as [_ [outs Ho]].
    pose proof (next_index_log _ _ (log_repr_length _ _ Ho)) as Hn. unfold get_finished_session_count. rewrite Hn.
    pose proof (log_repr_push _ _ outcome Ho) as Hpush. split; [split|split; [|done]].
    + unfold pending_accepted_items. cbn [AcceptedItems]. rewrite (log_repr_iter ∅ []); apply log_repr_empty.
    + by eexists.
    + left. unfold sessions, get_finished_session_count. cbn [SignedSessionOutcomes].
      rewrite (next_index_log _ _ (log_repr_length _ _ Hpush)), Hn, length_app. cbn [length]. lia.
Qed.

Lemma validity_same tx db db' :
  modules_db db' = modules_db db -> AcceptedTransactions db' = AcceptedTransactions db -> validity tx db' = validity tx db.
Proof. intros Hm Ha. unfold validity. by rewrite Hm, Ha. Qed.

(** *** What a waiting request knows *)

(** The transaction is valid, or the guardian has moved past the position the
    request waits for. *)
Definition waiting_ok (transaction : Transaction I O) (db : DB) (s i : Z) : Prop :=
  s < sessions db \/ (s = sessions db /\ (i < items_pending db \/ (i = items_pending db /\ validity transaction db = Valid))).

Definition submission_inv (transaction : Transaction I O) (db0 db : DB) (r : SubmissionRequest) : Prop :=
  match r with
  | Polling s i sent => 0 <= i /\ 0 <= s /\ waiting_ok transaction db s i /\ sent = 1 + s - sessions db0
  | Answered (inl txid) => txid = tx_hash tx_hash_from_parts transaction /\ is_Some (AcceptedTransactions db !! txid)
  | _ => True
  end.

Lemma validity_accepted tx db : validity tx db = Accepted <-> is_Some (AcceptedTransactions db !! tx_hash tx_hash_from_parts tx).
Proof.
  unfold validity. destruct (AcceptedTransactions db !! _); [split; [by eexists|done]|].
  split; [by destruct (process_transaction_with_dbtx _ _ _ _ _ _ _ _) as [[]]|by intros []].
Qed.

Lemma sessions_nonneg db : logs_ok db -> 0 <= sessions db.
Proof. intros [_ [outs Ho]]. unfold sessions, get_finished_session_count. rewrite (next_index_log _ _ (log_repr_length _ _ Ho)). lia. Qed.

Lemma submitting_inv tx db0 db r : logs_ok db0 -> submitting tx db0 db r -> logs_ok db /\ submission_inv tx db0 db r.
Proof.
  intros H0. induction 1 as [|db r db' _ [Hl IH] Hstep|db completed s i sent _ [Hl IH] Hw].
  - split; [done|]. unfold submit_transaction. destruct (validity tx db0) eqn:Hv; cbn; [split; [done|by apply validity_accepted]| |done|done].
    rewrite items_size by done. split_and!; [unfold items_pending; lia|by apply sessions_nonneg| |unfold sessions; lia].
    right. split; [done|]. by right.
  - destruct (guardian_step_later _ _ Hl Hstep) as (Hl' & Hlater & Hacc). split; [done|].
    destruct r as [s i sent|[txid|e]|]; cbn in IH |- *; [|split; [by apply IH|by apply Hacc, IH]|done|done].
    destruct IH as (Hi & Hs & Hw & Hsent). split_and!; [done|done| |done]. unfold waiting_ok in *.
    destruct Hlater as [Hlt|[[Heq Hlt]|(Heq & Heq' & Hm & Ha)]]; [left; lia|lia|].
    rewrite (validity_same tx _ _ Hm Ha), <- Heq, <- Heq'. exact Hw.
  - split; [done|]. destruct IH as (Hi & Hs & Hok & Hsent). unfold submission_round. destruct (validity tx db) eqn:Hv; cbn; [split; [done|by apply validity_accepted]| |done|done].
    destruct completed; cbn in Hw |- *; unfold waiting_ok in *.
    + apply (sessions_wake db s Hl Hs) in Hw. split_and!; [lia|lia| |lia]. assert (0 <= items_pending db) by (unfold items_pending; lia).
      destruct (decide (s + 1 < sessions db)); [by left|]. right. split; [lia|]. destruct (decide (0 < items_pending db)); [by left|]. right. split; [lia|done].
    + apply (items_wake db i Hl Hi) in Hw. split_and!; [lia|lia| |done]. destruct Hok as [?|[-> _]]; [by left|]. right. split; [done|].
      destruct (decide (i + 1 < items_pending db)); [by left|]. right. split; [lia|done].
Qed.

(** C23: a submission is answered according to the current state of consensus.
    Whatever the engine commits meanwhile, a request that is waiting for a key
    that does not exist is for a transaction that is valid and not accepted in
    the current database, and that was sent to the engine once and again for
    every session that was completed since; once the transaction is accepted the request is
    woken, and every further round answers with its id; and this answer is
    given only when the transaction is accepted. *)
Theorem submission_current tx db0 db r :
  logs_ok db0 -> submitting tx db0 db r ->
  match r with
  | Polling s i sent =>
      ((forall completed, ~ wakes db completed s i) -> validity tx db = Valid /\ sent = 1 + get_finished_session_count db - get_finished_session_count db0) /\
      (validity tx db = Accepted -> exists completed, wakes db completed s i /\
         submission_round tx completed s i sent db = Answered (inl (tx_hash tx_hash_from_parts tx)))
  | Answered (inl txid) => txid = tx_hash tx_hash_from_parts tx /\ validity tx db = Accepted
  | Answered (inr e) => exists db1, submitting tx db0 db1 r /\ validity tx db1 = Invalid e
  | SubmitPanicked => exists db1, submitting tx db0 db1 r /\ validity tx db1 = ValidityPanic
  end.
Proof.
  intros H0 Hsub. pose proof (submitting_inv tx db0 db r H0 Hsub) as [Hl Hinv]. destruct r as [s i sent|[txid|e]|].
  - destruct Hinv as (Hi & Hs & Hok & Hsent).
    assert (Hwake : (validity tx db = Valid /\ s = sessions db) \/ exists completed, wakes db completed s i).
    { destruct Hok as [Hlt|[Heq [Hlt|[_ Hv]]]]; [|right; exists false; by apply items_wake|by left; split].
      right. exists true. by apply sessions_wake. }
    split.
    + intros Hno. destruct Hwake as [[Hv ->]|[c Hc]]; [done|]. by destruct (Hno c).
    + intros Ha. destruct Hwake as [[Hv _]|[c Hc]]; [congruence|]. exists c. split; [done|]. unfold submission_round. by rewrite Ha.
  - destruct Hinv as [-> Hacc]. split; [done|]. by apply validity_accepted.
  - clear Hl Hinv. remember (Answered (inr e)) as r eqn:Hr. induction Hsub as [|db r db' Hsub IH Hstep|db c s i sent Hsub _ Hw].
    + exists db0. split; [constructor|]. unfold submit_transaction in Hr. destruct (validity tx db0); simplify_eq; done.
    + by apply IH.
    + exists db. split; [by constructor|]. unfold submission_round in Hr. destruct (validity tx db), c; simplify_eq; done.
  - clear Hl Hinv. remember SubmitPanicked as r eqn:Hr. induction Hsub as [|db r db' Hsub IH Hstep|db c s i sent Hsub _ Hw].
    + exists db0. split; [constructor|]. unfold submit_transaction in Hr. destruct (validity tx db0); simplify_eq; done.
    + by apply IH.
    + exists db. split; [by constructor|]. unfold submission_round in Hr. destruct (validity tx db), c; simplify_eq; done.
Qed.

(** ** Outcomes of outputs *)

Definition MAX_OUTPUTS_OUTCOMES_BATCH : Z := 1024.

(** [IdxRange::checked_count]. *)
Definition checked_count (range : OutPointRange) : option Z :=
  checked_sub (range_end (idx_range range)) (range_start (idx_range range)).

Definition checked_outputs_outcomes_count (range : OutPointRange) : option Z :=
  count ← checked_count range; if count <=? MAX_OUTPUTS_OUTCOMES_BATCH then Some count else None.

(** [output_status] of the modules. *)
Context {R : Type} (output_status : Z -> OutPoint -> DB -> option R).

(** The outer [None] waits for the transaction, the inner one is an error. *)
Definition await_output_outcome (outpoint : OutPoint) (db : DB) : option (option R) :=
  module_ids ← AcceptedTransactions db !! txid outpoint;
  Some (module_id ← module_ids !! Z.to_nat (out_idx outpoint); output_status module_id outpoint db).

(** One round of the loop below. *)
Definition outcome_at (module_ids : list Z) (txid : Z) (db : DB) (i : Z) : option (option R) :=
  module_id ← module_ids !! Z.to_nat i;
  Some (output_status module_id {| ServerModule.txid := txid; out_idx := i |} db).

Definition await_outputs_outcomes (range : OutPointRange) (db : DB) : option (option (list (option R))) :=
  match checked_outputs_outcomes_count range with
  | None => Some None
  | Some _ =>
      module_ids ← AcceptedTransactions db !! range_txid range;
      Some (mapM (outcome_at module_ids (range_txid range) db) (idx_iter (idx_range range)))
  end.

(** For a range within an accepted transaction the answer has the outcome of
    every output, in order, and agrees with asking one by one. *)
Lemma await_outputs_outcomes_range range db module_ids :
  AcceptedTransactions db !! range_txid range = Some module_ids -> 0 <= range_start (idx_range range) <= range_end (idx_range range) ->
  range_end (idx_range range) <= Z.of_nat (length module_ids) -> Z.of_nat (length module_ids) <= MAX_OUTPUTS_OUTCOMES_BATCH ->
  exists l, await_outputs_outcomes range db = Some (Some l) /\ length l = idx_count (idx_range range) /\
    forall (k : nat) i, idx_iter (idx_range range) !! k = Some i ->
      exists o, l !! k = Some o /\ await_output_outcome {| txid := range_txid range; out_idx := i |} db = Some o.
Proof.
  intros Hids Hr Hend Hmax. unfold await_outputs_outcomes, checked_outputs_outcomes_count, checked_count.
  unfold MAX_OUTPUTS_OUTCOMES_BATCH in *.
  rewrite (proj2 (checked_sub_Some _ _ (range_end (idx_range range) - range_start (idx_range range)))) by lia.
  cbn [mbind option_bind]. rewrite (proj2 (Z.leb_le _ _)) by lia. rewrite Hids. cbn [mbind option_bind].
  assert (Hall : Forall (fun i => 0 <= i < Z.of_nat (length module_ids)) (idx_iter (idx_range range))).
  { apply Forall_forall. intros i Hi%elem_of_seqZ. lia. }
  set (f := outcome_at module_ids (range_txid range) db). assert (Hf : Forall (fun i => f i = await_output_outcome {| txid := range_txid range; out_idx := i |} db /\ is_Some (f i)) (idx_iter (idx_range range))).
  { eapply Forall_impl; [exact Hall|]. cbv beta. intros i Hi. unfold f, outcome_at, await_output_outcome. cbn [txid out_idx]. rewrite Hids. cbn [mbind option_bind].
    destruct (lookup_lt_is_Some_2 module_ids (Z.to_nat i)) as [m ->]; [lia|]. cbn [mbind option_bind]. by eauto. }
  destruct (mapM_is_Some_2 f (idx_iter (idx_range range))) as [l Hl]; [eapply Forall_impl; [exact Hf|]; by intros i [_ ?]|].
  exists l. rewrite Hl. apply mapM_Some in Hl. split_and!; [done|by rewrite <- (Forall2_length _ _ _ Hl)|].
  intros k i Hk. destruct (Forall2_lookup_l _ _ _ _ _ Hl Hk) as (o & Ho & Hfo). exists o. split; [done|].
  rewrite Forall_forall in Hf. destruct (Hf i) as [<- _]; [by eapply list_elem_of_lookup_2|done].
Qed.
End api.

(** ** A guardian that accepts a transaction *)

Module ApiExample.
(** No modules, and a transaction without inputs and outputs. *)
Definition modules : gmap Z (ServerModule unit unit unit unit unit) := ∅.
Definition tx_hash_from_parts (ins outs : list (Dyn unit)) (nonce : Z) : Z := nonce.
Definition verify_schnorr (sig message key : Z) : bool := false.
Definition version : CoreConsensusVersion := {| major := 2; minor := 1 |}.
Definition tx : Transaction unit unit := {| inputs := []; outputs := []; nonce := 9; signatures := NaiveMultisig [] |}.
Definition db0 : CoreDb unit unit unit unit := CoreDb_empty.
Definition db1 : CoreDb unit unit unit unit :=
  (process_ordered_item tt modules tx_hash_from_parts verify_schnorr version {[0]} (fun _ => None) 0 (TransactionItem tx) 0 db0).2.

Lemma logs_empty : logs_ok db0.
Proof. split; [|exists []]; apply log_repr_empty. Qed.

Lemma accepted_run : submitting tt modules tx_hash_from_parts verify_schnorr version {[0]} tx db0 db1
  (Polling (E := unit) 0 0 1).
Proof.
  eapply submitting_engine; [exact (submitting_start tt modules tx_hash_from_parts verify_schnorr version {[0]} tx db0)|].
  eapply (guardian_item _ _ _ _ _ _ db0 (fun _ => None) (TransactionItem tx) 0 (inr tt)). vm_compute. reflexivity.
Qed.

Lemma submission_current_witness :
  validity tt modules tx_hash_from_parts verify_schnorr version tx db1 = Accepted /\
  exists completed, wakes db1 completed 0 0 /\
    submission_round tt modules tx_hash_from_parts verify_schnorr version tx completed 0 0 1 db1 = Answered (inl 9).
Proof.
  split; [vm_compute; reflexivity|].
  apply (proj2 (submission_current tt modules tx_hash_from_parts verify_schnorr version {[0]} tx db0 db1 (Polling 0 0 1) logs_empty accepted_run)).
  vm_compute. reflexivity.
Defined.
End ApiExample.
