(* ===== verification/MintIssuance.v ===== *)
(** * How a mint client receives its notes

    [modules/fedimint-mint-client/src/output.rs]: the requests for blind
    signatures, the queries that collect the signature shares of the guardians
    for the outputs of a transaction, and the transitions of the state machine
    that turn the shares into notes of the wallet.  Blind signatures are
    parameters with the laws that [Threshold] proves of the code. *)

From S2P Require Import Prelude Db Amounts Peers ServerModule Transaction MintServer Tiered NoteSelection MintClient SendAmount ClientTx MintPrimary Query.

(** ** The client's database *)

Inductive ClientEvent :=
| NoteCreated (nonce : Z)
| ReceivePaymentUpdate (operation_id : Z) (success : bool)
| TxCreatedEvent (txid operation_id : Z)
| TxAcceptedEvent (txid operation_id : Z)
| TxRejectedEvent (txid operation_id error : Z).

(** The tables of the mint, the fees of submitted transactions and the event
    log of the client. *)
Record ClientDb {UN : Type} := {
  mint_tables : @MintClientDb UN;
  transaction_fees : gmap Z Amounts.t;
  client_log : list ClientEvent;
}.
Arguments ClientDb : clear implicits.

Section client_db.
Context {UN : Type}.

Definition TransactionFeesKey : table (ClientDb UN) Z Amounts.t := Table transaction_fees (fun f s =>
  {| mint_tables := mint_tables s; transaction_fees := f (transaction_fees s); client_log := client_log s |}).
Definition in_mint {E A} (m : M (@MintClientDb UN) E A) : M (ClientDb UN) E A :=
  zoom mint_tables (fun d s => {| mint_tables := d; transaction_fees := transaction_fees s; client_log := client_log s |}) m.
Definition log_event {E} (e : ClientEvent) : M (ClientDb UN) E unit := modify (fun s =>
  {| mint_tables := mint_tables s; transaction_fees := transaction_fees s; client_log := client_log s ++ [e] |}).
End client_db.

(** What a guardian sends as the outcome of an output, once it is decoded. *)
Inductive SerdeOutputOutcome := Undecodable | OutcomeV0 (share : Z) | OutcomeDefault.

Inductive VerifyBlindShareError :=
| DecodeOutcome
| UnknownPeer (peer : Z)
| InvalidTier (amount : Z)
| InvalidSignature.

(** [ServerError::InvalidResponse] with a message. *)
Definition invalid_response (e : VerifyBlindShareError) : Z :=
  match e with DecodeOutcome => 1 | UnknownPeer _ => 2 | InvalidTier _ => 3 | InvalidSignature => 4 end.
Definition WRONG_LENGTH : Z := 5.

Section issuance.
Context {UN Key : Type} (public_key : Key -> Z).
(** The blind signatures of [crypto/tbs]: the message of a nonce with a blinding
    key, the checks of a share and of a signature, and combining and unblinding. *)
Context (blind_message unblind_signature : Z -> Z -> Z).
Context (tbs_verify verify_blinded_signature verify_signature_share : Z -> Z -> Z -> bool).
Context (aggregate_signature_shares : gmap Z Z -> Z).
(** The stored form of a note. *)
Context (decode : UN -> option (SpendableNote (Key := Key))) (to_undecoded : SpendableNote (Key := Key) -> UN).
(** The keys of the federation and of each guardian, by denomination. *)
Context (tbs_pks : gmap Z Z) (peer_tbs_pks : gmap Z (gmap Z Z)).

Local Abbreviation SN := (SpendableNote (Key := Key)).
Local Abbreviation nonce_of := (nonce_of public_key).
Local Abbreviation verify := (verify public_key tbs_verify).

(** ** Requests *)

Record NoteIssuanceRequest := { req_spend_key : Key; blinding_key : Z }.
Definition request_nonce (r : NoteIssuanceRequest) : Z := public_key (req_spend_key r).
Definition blinded_message (r : NoteIssuanceRequest) : Z := blind_message (request_nonce r) (blinding_key r).

(** The keys are derived from the secret of an amount and an index. *)
Context (child_spend_key : Z -> Z -> Key) (child_blinding_key : Z -> Z -> Z).
Definition NoteIssuanceRequest_new (amount index : Z) : NoteIssuanceRequest * Z :=
  let r := {| req_spend_key := child_spend_key amount index; blinding_key := child_blinding_key amount index |} in
  (r, blinded_message r).

Definition finalize (r : NoteIssuanceRequest) (blinded_signature : Z) : SN :=
  {| note_sig := unblind_signature (blinding_key r) blinded_signature; spend_key := req_spend_key r |}.

(** ** The shares of the guardians *)

(** An outcome of an unknown version is a panic. *)
Definition verify_blind_share (peer : Z) (o : SerdeOutputOutcome) (amount message : Z) : outcome VerifyBlindShareError Z :=
  match o with
  | Undecodable => Err DecodeOutcome
  | OutcomeDefault => Panic
  | OutcomeV0 share =>
      match peer_tbs_pks !! peer with
      | None => Err (UnknownPeer peer)
      | Some keys =>
          match keys !! amount with
          | None => Err (InvalidTier amount)
          | Some amount_key => if verify_signature_share message share amount_key then Ok share else Err InvalidSignature
          end
      end
  end.

Definition share_response (r : outcome VerifyBlindShareError Z) : outcome Z Z :=
  match r with Ok s => Ok s | Err e => Err (invalid_response e) | Panic => Panic end.

(** The verifier of a query for one output. *)
Definition single_verifier (amount : Z) (r : NoteIssuanceRequest) (peer : Z) (o : SerdeOutputOutcome) : outcome Z Z :=
  share_response (verify_blind_share peer o amount (blinded_message r)).

Abbreviation Requests := (gmap Z (Z * NoteIssuanceRequest)).

(** The loop over the outcomes of a range; one that is invalid fails them all. *)
Fixpoint verify_outcomes (requests : Requests) (peer out_idx : Z) (outcomes : list (option SerdeOutputOutcome)) : outcome Z (list (option Z)) :=
  match outcomes with
  | [] => Ok []
  | outcome_opt :: outcomes =>
      match requests !! out_idx with
      | None => Panic
      | Some (amount, r) =>
          match outcome_opt with
          | None =>
              match verify_outcomes requests peer (out_idx + 1) outcomes with
              | Ok shares => Ok (None :: shares) | Err e => Err e | Panic => Panic
              end
          | Some o =>
              match single_verifier amount r peer o with
              | Ok share =>
                  match verify_outcomes requests peer (out_idx + 1) outcomes with
                  | Ok shares => Ok (Some share :: shares) | Err e => Err e | Panic => Panic
                  end
              | Err e => Err e
              | Panic => Panic
              end
          end
      end
  end.

Definition batch_verifier (range : OutPointRange) (requests : Requests) (peer : Z) (outcomes : list (option SerdeOutputOutcome)) : outcome Z (list (option Z)) :=
  if (length outcomes =? idx_count (idx_range range))%nat
  then verify_outcomes requests peer (range_start (idx_range range)) outcomes
  else Err WRONG_LENGTH.

(** From the shares by guardian to the shares by output; [None] is the
    assertion that every output has a threshold of shares. *)
Definition shares_of_output (range : OutPointRange) (verified_shares : gmap Z (list (option Z))) (out_idx : Z) : gmap Z Z :=
  omap (fun shares => mjoin (shares !! Z.to_nat (wrap_u64 (out_idx - range_start (idx_range range))))) verified_shares.
Definition per_output (n : Z) (range : OutPointRange) (requests : Requests) (verified_shares : gmap Z (list (option Z))) : option (list (Z * gmap Z Z)) :=
  mapM (fun ir => let shares := shares_of_output range verified_shares ir.1 in
          if threshold n <=? Z.of_nat (size shares) then Some (ir.1, shares) else None) (btree_iter requests).

(** What a trigger has led to. *)
Inductive Triggering (A : Type) := Waiting | Fired (a : A) | TriggerPanicked.
#[global] Arguments Waiting {_}.
#[global] Arguments Fired {_} _.
#[global] Arguments TriggerPanicked {_}.

(** [await_outcome_ready_batch], when the query is in state [d]. *)
Definition batch_ready (n : Z) (range : OutPointRange) (requests : Requests)
    (d : Driven (FilterMapThreshold (list (option SerdeOutputOutcome)) (list (option Z))) (gmap Z (list (option Z)))) : Triggering (list (Z * gmap Z Z)) :=
  if decide (requests = ∅) then Fired [] else
  match d with
  | Returned m => match per_output n range requests m with Some l => Fired l | None => TriggerPanicked end
  | Panicked => TriggerPanicked
  | _ => Waiting
  end.

(** [await_outcome_ready_legacy]: one query per output. *)
Fixpoint legacy_ready (queries : Z -> Driven (FilterMapThreshold SerdeOutputOutcome Z) (gmap Z Z)) (requests : list (Z * (Z * NoteIssuanceRequest)))
    : Triggering (list (Z * gmap Z Z)) :=
  match requests with
  | [] => Fired []
  | (out_idx, _) :: requests =>
      match queries out_idx with
      | Returned shares =>
          match legacy_ready queries requests with
          | Fired l => Fired ((out_idx, shares) :: l) | Waiting => Waiting | TriggerPanicked => TriggerPanicked
          end
      | Panicked => TriggerPanicked
      | _ => Waiting
      end
  end.

(** ** Transitions *)

Inductive MintOutputStates :=
| OutCreated (amount : Z) (r : NoteIssuanceRequest)
| OutAborted
| OutFailed
| OutSucceeded (amount : Z)
| OutCreatedMulti (requests : Requests).

Abbreviation MI := (M (ClientDb UN) Empty_set).

Definition add_note (an : Z * SN) : MI unit :=
  _ ← log_event (NoteCreated (nonce_of an.2));
  _ ← in_mint (insert_entry NoteKey (an.1, nonce_of an.2) (to_undecoded an.2));
  mret tt.

(** [MintOutputStatesCreated::transition_outcome_ready]. *)
Definition outcome_ready_single (amount : Z) (r : NoteIssuanceRequest) (shares : gmap Z Z) : MI MintOutputStates :=
  let agg_blind_signature := aggregate_signature_shares shares in
  amount_key ← expect (tbs_pks !! amount);
  if negb (verify_blinded_signature (blinded_message r) agg_blind_signature amount_key) then mret OutFailed else
  let spendable_note := finalize r agg_blind_signature in
  _ ← rassert (verify spendable_note amount_key);
  _ ← add_note (amount, spendable_note);
  mret (OutSucceeded amount).

(** A note of [MintOutputStatesCreatedMulti::transition_outcome_ready]. *)
Definition finish_note (requests : Requests) (x : Z * gmap Z Z) : option (Z * SN) :=
  ar ← requests !! x.1;
  amount_key ← tbs_pks !! ar.1;
  let spendable_note := finalize ar.2 (aggregate_signature_shares x.2) in
  if verify spendable_note amount_key then Some (ar.1, spendable_note) else None.

Definition outcome_ready_multi (operation_id : Z) (requests : Requests) (shares : list (Z * gmap Z Z)) : MI MintOutputStates :=
  spendable_notes ← expect (mapM (finish_note requests) shares);
  _ ← for_each spendable_notes add_note;
  _ ← log_event (ReceivePaymentUpdate operation_id true);
  mret (OutSucceeded (Amount.sum spendable_notes.*1)).

(** [transition_tx_rejected] of both states. *)
Definition tx_rejected_single : MI MintOutputStates := mret OutAborted.
Definition tx_rejected_multi (operation_id : Z) : MI MintOutputStates :=
  _ ← log_event (ReceivePaymentUpdate operation_id false); mret OutAborted.

(** ** Shares that pass *)

Hypothesis stored : forall sn, decode (to_undecoded sn) = Some sn.

(** The share of a guardian for an output is valid. *)
Definition share_ok (peer amount message share : Z) : Prop :=
  exists keys pk, peer_tbs_pks !! peer = Some keys /\ keys !! amount = Some pk /\ verify_signature_share message share pk = true.

Lemma single_verifier_Ok amount r peer o share :
  single_verifier amount r peer o = Ok share <-> o = OutcomeV0 share /\ share_ok peer amount (blinded_message r) share.
Proof.
  unfold single_verifier, share_response, verify_blind_share, share_ok. destruct o as [|s|]; [by split; [|intros []]| |by split; [|intros []]].
  destruct (peer_tbs_pks !! peer) as [keys|]; [|by split; [|intros (_ & ? & ? & ? & _)]].
  destruct (keys !! amount) as [pk|] eqn:Hpk; [|split; [done|intros (_ & ? & ? & [= <-] & ? & _); congruence]].
  destruct (verify_signature_share _ s pk) eqn:Hv.
  - split; [intros [= ->]; by eauto 8|by intros ([= ->] & _)].
  - split; [done|intros ([= ->] & ? & ? & [= <-] & Hk & Hs)]. congruence.
Qed.

Lemma single_verifier_no_panic amount r peer o : o <> OutcomeDefault -> single_verifier amount r peer o <> Panic.
Proof.
  intros Ho. unfold single_verifier, share_response, verify_blind_share. destruct o; [done| |done].
  destruct (peer_tbs_pks !! peer) as [keys|]; [|done]. destruct (keys !! amount) as [pk|]; [|done]. by destruct (verify_signature_share _ _ pk).
Qed.

(** An answer that passes has valid shares, and leaves out what the guardian
    left out. *)
Lemma verify_outcomes_Ok requests peer idx outcomes shares :
  verify_outcomes requests peer idx outcomes = Ok shares ->
  length shares = length outcomes /\ (Forall is_Some outcomes -> Forall is_Some shares) /\
  forall (k : nat) s, shares !! k = Some (Some s) ->
    exists amount r, requests !! (idx + Z.of_nat k) = Some (amount, r) /\ share_ok peer amount (blinded_message r) s.
Proof.
  revert idx shares. induction outcomes as [|o outcomes IH]; intros idx shares H; cbn in H; [by injection H as <-|].
  destruct (requests !! idx) as [[amount r]|] eqn:Hr; [|done].
  assert (Hrest : forall x rest, verify_outcomes requests peer (idx + 1) outcomes = Ok rest -> shares = x :: rest ->
    (is_Some o -> is_Some x) -> (forall s, x = Some s -> share_ok peer amount (blinded_message r) s) ->
    length shares = S (length outcomes) /\ (Forall is_Some (o :: outcomes) -> Forall is_Some shares) /\
    forall (k : nat) s, shares !! k = Some (Some s) ->
      exists amount r, requests !! (idx + Z.of_nat k) = Some (amount, r) /\ share_ok peer amount (blinded_message r) s).
  { intros x rest (Hl & Hf & Hs)%IH -> Hx Hok. cbn [length]. split_and!; [by rewrite Hl|intros [? ?]%Forall_cons; constructor; auto|].
    intros [|k] s Hk; [injection Hk as ->; exists amount, r; rewrite Z.add_0_r; auto|].
    replace (idx + Z.of_nat (S k)) with (idx + 1 + Z.of_nat k) by lia. by apply Hs. }
  destruct o as [o|].
  - destruct (single_verifier amount r peer o) as [s| |] eqn:Hs; [|done|done]. apply single_verifier_Ok in Hs as [_ Hs].
    destruct (verify_outcomes requests peer (idx + 1) outcomes) as [rest| |]; [|done|done]. injection H as <-.
    apply (Hrest (Some s) rest); [done|done|by eexists|by intros ? [= <-]].
  - destruct (verify_outcomes requests peer (idx + 1) outcomes) as [rest| |]; [|done|done]. injection H as <-.
    apply (Hrest None rest); [done|done|by intros []|done].
Qed.

Lemma verify_outcomes_no_panic requests peer idx outcomes :
  (forall k : nat, (k < length outcomes)%nat -> is_Some (requests !! (idx + Z.of_nat k))) -> (Some OutcomeDefault ∉ outcomes) ->
  verify_outcomes requests peer idx outcomes <> Panic.
Proof.
  revert idx. induction outcomes as [|o outcomes IH]; intros idx Hreq Ho; [done|]. apply not_elem_of_cons in Ho as [Ho Hos]. cbn [verify_outcomes].
  destruct (Hreq 0%nat ltac:(cbn; lia)) as [[amount r] Hr]. rewrite Z.add_0_r in Hr. rewrite Hr.
  assert (Hrec : verify_outcomes requests peer (idx + 1) outcomes <> Panic).
  { apply IH; [|done]. intros k Hk. replace (idx + 1 + Z.of_nat k) with (idx + Z.of_nat (S k)) by lia. apply Hreq. cbn. lia. }
  destruct o as [o|]; [|by destruct (verify_outcomes requests peer (idx + 1) outcomes)].
  assert (Hs : single_verifier amount r peer o <> Panic) by (apply single_verifier_no_panic; congruence).
  destruct (single_verifier amount r peer o); [|done|done]. by destruct (verify_outcomes requests peer (idx + 1) outcomes).
Qed.

(** The answer of a guardian that signed every output. *)
Definition signed_answer (requests : Requests) (peer idx : Z) (outcomes : list (option SerdeOutputOutcome)) : Prop :=
  forall (k : nat) o, outcomes !! k = Some o -> exists amount r s,
    o = Some (OutcomeV0 s) /\ requests !! (idx + Z.of_nat k) = Some (amount, r) /\ share_ok peer amount (blinded_message r) s.

Lemma verify_outcomes_signed requests peer idx outcomes :
  signed_answer requests peer idx outcomes -> exists shares, verify_outcomes requests peer idx outcomes = Ok shares.
Proof.
  revert idx. induction outcomes as [|o outcomes IH]; intros idx Ha; [by exists []|].
  destruct (Ha 0%nat o eq_refl) as (amount & r & s & -> & Hr & Hs). rewrite Z.add_0_r in Hr. cbn [verify_outcomes]. rewrite Hr.
  rewrite (proj2 (single_verifier_Ok amount r peer (OutcomeV0 s) s)) by done.
  destruct (IH (idx + 1)) as [shares ->]; [|by eexists]. intros k o Hk.
  destruct (Ha (S k) o Hk) as (amount' & r' & s' & Ho & Hr' & Hs'). exists amount', r', s'.
  by replace (idx + 1 + Z.of_nat k) with (idx + Z.of_nat (S k)) by lia.
Qed.

(** ** The trigger *)

(** What is requested: an output of a known denomination for every index of the
    range. *)
Record requests_ok (range : OutPointRange) (requests : Requests) : Prop := {
  requests_range : forall i, is_Some (requests !! i) <-> range_start (idx_range range) <= i < range_end (idx_range range);
  requests_start : 0 <= range_start (idx_range range);
  requests_end : range_end (idx_range range) <= u64_max;
  requests_tiers : forall i amount r, requests !! i = Some (amount, r) -> is_Some (tbs_pks !! amount);
}.

(** Shares of a threshold of guardians for an output. *)
Definition enough_shares (n : Z) (requests : Requests) (x : Z * gmap Z Z) : Prop :=
  threshold n <= Z.of_nat (size x.2) /\
  exists amount r, requests !! x.1 = Some (amount, r) /\ forall p s, x.2 !! p = Some s -> share_ok p amount (blinded_message r) s.

Lemma idx_count_range range : range_start (idx_range range) <= range_end (idx_range range) ->
  Z.of_nat (idx_count (idx_range range)) = range_end (idx_range range) - range_start (idx_range range).
Proof. intros H. unfold idx_count, idx_iter. rewrite length_seqZ. lia. Qed.

(** Every answer was complete, so every output has the shares of all guardians. *)
Lemma per_output_complete n range requests m :
  requests_ok range requests -> threshold n <= Z.of_nat (size m) ->
  (forall p shares, m !! p = Some shares -> exists outcomes, Forall is_Some outcomes /\ batch_verifier range requests p outcomes = Ok shares) ->
  exists l, per_output n range requests m = Some l /\ l.*1 = (btree_iter requests).*1 /\ Forall (enough_shares n requests) l.
Proof using.
  intros Hreq Hsize Hm. unfold per_output.
  set (f := fun ir : Z * (Z * NoteIssuanceRequest) => let shares := shares_of_output range m ir.1 in
    if threshold n <=? Z.of_nat (size shares) then Some (ir.1, shares) else None).
  assert (Hf : Forall (fun ir => exists x, f ir = Some x /\ x.1 = ir.1 /\ enough_shares n requests x) (btree_iter requests)).
  { apply Forall_forall. intros [i [amount r]] Hin%elem_of_btree_iter. unfold f. cbn [fst]. destruct (proj1 (requests_range _ _ Hreq i) ltac:(by eexists)) as [Hi1 Hi2].
    pose proof (requests_start _ _ Hreq). pose proof (requests_end _ _ Hreq).
    assert (Hw : wrap_u64 (i - range_start (idx_range range)) = i - range_start (idx_range range)) by (apply wrap_u64_small; unfold is_u64; lia).
    assert (Hshare : forall p shares, m !! p = Some shares -> exists s,
      shares !! Z.to_nat (i - range_start (idx_range range)) = Some (Some s) /\ share_ok p amount (blinded_message r) s).
    { intros p shares Hp. destruct (Hm p shares Hp) as (outcomes & Hfull & Hb). unfold batch_verifier in Hb.
      destruct (Nat.eqb_spec (length outcomes) (idx_count (idx_range range))) as [Hlen|]; [|done].
      apply verify_outcomes_Ok in Hb as (Hl & Hfs & Hs). pose proof (idx_count_range range ltac:(lia)).
      destruct (lookup_lt_is_Some_2 shares (Z.to_nat (i - range_start (idx_range range)))) as [o Ho]; [lia|].
      destruct (proj1 (Forall_forall _ _) (Hfs Hfull) o) as [s ->]; [by eapply list_elem_of_lookup_2|]. exists s. split; [done|].
      destruct (Hs _ s Ho) as (amount' & r' & Hr' & Hok). rewrite Z2Nat.id in Hr' by lia.
      replace (range_start (idx_range range) + (i - range_start (idx_range range))) with i in Hr' by lia. rewrite Hin in Hr'. by simplify_eq. }
    assert (Hlook : forall p s, shares_of_output range m i !! p = Some s -> share_ok p amount (blinded_message r) s).
    { intros p s. unfold shares_of_output. rewrite Hw, lookup_omap, bind_Some. intros (shares & Hp & Hs).
      destruct (Hshare p shares Hp) as (s' & Hs' & Hok). rewrite Hs' in Hs. by injection Hs as <-. }
    assert (Hdom : dom (shares_of_output range m i) = dom m).
    { apply set_eq. intros p. unfold shares_of_output. rewrite Hw, !elem_of_dom, lookup_omap. split.
      - intros [s Hs]. apply bind_Some in Hs as (shares & -> & _). by eexists.
      - intros [shares Hp]. rewrite Hp. cbn. destruct (Hshare p shares Hp) as (s' & -> & _). by eexists. }
    assert (Hsz : size (shares_of_output range m i) = size m) by by rewrite <- !size_dom, Hdom.
    rewrite (proj2 (Z.leb_le _ _)) by lia. eexists. split_and!; [done|done|]. split; [cbn [snd]; lia|]. by exists amount, r. }
  clear Hreq Hsize Hm. induction Hf as [|ir l (x & Hx & H1 & H2) _ (l' & IH1 & IH2 & IH3)]; [by exists []|].
  exists (x :: l'). cbn [mapM]. rewrite Hx. cbn [mbind option_bind]. rewrite IH1. split_and!; [done|by rewrite !fmap_cons, H1, IH2|by constructor].
Qed.

(** Answers that leave nothing out and are of the known version. *)
Definition complete_answer (outcomes : list (option SerdeOutputOutcome)) : Prop := Forall is_Some outcomes /\ Some OutcomeDefault ∉ outcomes.

Lemma batch_verifier_no_panic range requests p outcomes :
  requests_ok range requests -> complete_answer outcomes -> batch_verifier range requests p outcomes <> Panic.
Proof using.
  intros Hreq [_ Ho]. unfold batch_verifier. destruct (Nat.eqb_spec (length outcomes) (idx_count (idx_range range))) as [Hl|]; [|done].
  apply verify_outcomes_no_panic; [|done]. intros k Hk. apply (requests_range _ _ Hreq).
  unfold idx_count, idx_iter in Hl. rewrite length_seqZ in Hl. lia.
Qed.

(** The trigger fires with the shares of a threshold of guardians for every
    output once a threshold of guardians has signed, whoever else answers, and
    never panics on complete answers. *)
Lemma batch_fires n range requests tr d good :
  0 < threshold n -> requests_ok range requests ->
  retried n (FilterMapThreshold_new (batch_verifier range requests) n) tr d ->
  (forall p outcomes, (p, outcomes) ∈ tr -> complete_answer outcomes) ->
  threshold n <= Z.of_nat (size (good : gset Z)) ->
  (forall p, p ∈ good -> exists outcomes, (p, outcomes) ∈ tr /\ length outcomes = idx_count (idx_range range) /\
     signed_answer requests p (range_start (idx_range range)) outcomes) ->
  exists l, batch_ready n range requests d = Fired l /\ l.*1 = (btree_iter requests).*1 /\ Forall (enough_shares n requests) l.
Proof using.
  intros Ht Hreq Hq Hall Hgood Hsigned. unfold batch_ready. case_decide as He.
  { exists []. rewrite He, (proj2 (btree_iter_nil _) eq_refl). done. }
  rewrite (retried_ends n (batch_verifier range requests) tr d good Ht Hq Hgood); cycle 1.
  { intros p (outcomes & Hin & Hlen & Ha)%Hsigned. exists outcomes. unfold batch_verifier. rewrite Hlen, Nat.eqb_refl.
    destruct (verify_outcomes_signed _ _ _ _ Ha) as [shares Hs]. by exists shares. }
  { intros p outcomes Hin. apply batch_verifier_no_panic; [done|by eapply Hall]. }
  destruct (retried_collects n (batch_verifier range requests) tr d Ht Hq) as [Hnd Hd].
  rewrite (retried_ends n (batch_verifier range requests) tr d good Ht Hq Hgood) in Hd; cycle 1.
  { intros p (outcomes & Hin & Hlen & Ha)%Hsigned. exists outcomes. unfold batch_verifier. rewrite Hlen, Nat.eqb_refl.
    destruct (verify_outcomes_signed _ _ _ _ Ha) as [shares Hs]. by exists shares. }
  { intros p outcomes Hin. apply batch_verifier_no_panic; [done|by eapply Hall]. }
  destruct Hd as [_ Hsize]. destruct (per_output_complete n range requests _ Hreq ltac:(rewrite Hsize; done)) as (l & -> & Hl); [|by exists l].
  intros p shares Hp. apply verified_lookup in Hp as (outcomes & Hin & Hv); [|done]. exists outcomes. split; [by eapply Hall|done].
Qed.

(** ** The notes *)

(** The laws of the blind signatures: a threshold of valid shares combines to a
    valid signature, and unblinding it gives a valid note. *)
Context (n : Z).
Hypothesis shares_combine : forall message amount key (shares : gmap Z Z),
  tbs_pks !! amount = Some key -> threshold n <= Z.of_nat (size shares) ->
  (forall p s, shares !! p = Some s -> share_ok p amount message s) ->
  verify_blinded_signature message (aggregate_signature_shares shares) key = true.
Hypothesis unblind_verifies : forall nonce bk sig key,
  verify_blinded_signature (blind_message nonce bk) sig key = true -> tbs_verify nonce (unblind_signature bk sig) key = true.

Local Abbreviation held := (held decode).
Local Abbreviation genuine := (genuine verify tbs_pks).
Local Abbreviation notes_ok := (notes_ok decode nonce_of verify tbs_pks).
Hypothesis tiers_known : forall a, is_Some (tbs_pks !! a) -> tier_ok a.

(** Notes were added to the wallet. *)
Record received (s : ClientDb UN) (l : list (Z * SN)) (s' : ClientDb UN) : Prop := {
  received_held : held (client_notes (mint_tables s')) ≡ₚ held (client_notes (mint_tables s)) ++ l;
  received_ok : notes_ok (client_notes (mint_tables s'));
  received_index : next_note_index (mint_tables s') = next_note_index (mint_tables s);
  received_fees : transaction_fees s' = transaction_fees s;
}.

(** The requested notes are new to the wallet and different from each other. *)
Definition fresh_notes (m : gmap (Z * Z) UN) (l : list (Z * Z)) : Prop := NoDup l /\ forall k, k ∈ l -> m !! k = None.

Lemma held_insert m a sn : m !! (a, nonce_of sn) = None -> held (<[(a, nonce_of sn) := to_undecoded sn]> m) ≡ₚ (a, sn) :: held m.
Proof using stored.
  intros Hm. unfold MintClient.held. rewrite !notes_ascending_perm, map_to_list_insert by done. rewrite fmap_cons. cbn.
  unfold decode_note at 1. cbn. by rewrite stored.
Qed.

Definition with_note (an : Z * SN) (s : ClientDb UN) : ClientDb UN :=
  {| mint_tables := upd NoteKey <[(an.1, nonce_of an.2) := to_undecoded an.2]> (mint_tables s);
     transaction_fees := transaction_fees s; client_log := client_log s ++ [NoteCreated (nonce_of an.2)] |}.

Lemma add_note_run an s : add_note an s = (Ok tt, with_note an s).
Proof using. reflexivity. Qed.

Lemma add_notes_spec l s :
  notes_ok (client_notes (mint_tables s)) -> Forall genuine l ->
  fresh_notes (client_notes (mint_tables s)) ((fun an => (an.1, nonce_of an.2)) <$> l) ->
  exists s', for_each l add_note s = (Ok tt, s') /\ received s l s'.
Proof using stored.
  intros Hok Hg. revert s Hok. induction Hg as [|[a sn] l Hg _ IH]; intros s Hok [Hnd Hfresh].
  { exists s. split; [done|]. split; [by rewrite app_nil_r|done|done|done]. }
  rewrite fmap_cons in Hnd, Hfresh. apply NoDup_cons in Hnd as [Hnew Hnd]. pose proof (Hfresh (a, nonce_of sn) ltac:(left)) as Hm. cbn [fst snd] in *.
  cbn [for_each]. rewrite (run_bind _ _ _ _ _ (add_note_run (a, sn) s)).
  assert (Hok1 : notes_ok (client_notes (mint_tables (with_note (a, sn) s)))).
  { apply map_Forall_insert_2; [|done]. exists sn. by rewrite stored. }
  destruct (IH _ Hok1) as (s' & Hrun & [Hh Hok' Hi Hf]).
  { split; [done|]. intros k Hk. cbn. rewrite lookup_insert_ne; [apply Hfresh; by right|]. by intros <-. }
  exists s'. split; [exact Hrun|]. split; [|done|done|done]. rewrite Hh. cbn. rewrite held_insert by done.
  by rewrite <- Permutation_middle.
Qed.

(** A request becomes a valid note with its own nonce. *)
Lemma finish_note_ok range requests x :
  requests_ok range requests -> enough_shares n requests x -> exists an,
    finish_note requests x = Some an /\ genuine an /\
    exists amount r, requests !! x.1 = Some (amount, r) /\ an.1 = amount /\ nonce_of an.2 = request_nonce r.
Proof using tiers_known unblind_verifies shares_combine.
  intros Hreq (Hsize & amount & r & Hr & Hok). unfold finish_note. rewrite Hr. cbn [mbind option_bind fst snd].
  destruct (requests_tiers _ _ Hreq _ _ _ Hr) as [key Hkey]. rewrite Hkey. cbn [mbind option_bind].
  assert (Hv : verify (finalize r (aggregate_signature_shares x.2)) key = true).
  { unfold MintPrimary.verify, note_verify. cbn. apply unblind_verifies. by eapply shares_combine. }
  rewrite Hv. eexists. split; [done|]. split; [split; [apply tiers_known; by eexists|by exists key]|]. by exists amount, r.
Qed.

Lemma finish_notes_ok range requests l :
  requests_ok range requests -> Forall (enough_shares n requests) l -> exists notes,
    mapM (finish_note requests) l = Some notes /\ Forall genuine notes /\
    Forall2 (fun i an => exists amount r, requests !! i = Some (amount, r) /\ an.1 = amount /\ nonce_of an.2 = request_nonce r) l.*1 notes.
Proof using tiers_known unblind_verifies shares_combine.
  intros Hreq. induction 1 as [|x l Hx _ (notes & IH1 & IH2 & IH3)]; [exists []; split_and!; [done|constructor|constructor]|].
  destruct (finish_note_ok range requests x Hreq Hx) as (an & Hf & Hg & Ha). exists (an :: notes). cbn [mapM]. rewrite Hf. cbn [mbind option_bind]. rewrite IH1.
  split_and!; [done|by constructor|]. rewrite fmap_cons. by constructor.
Qed.

(** The keys under which the requested notes are stored. *)
Definition requested (requests : Requests) : list (Z * Z) := (fun ir => (ir.2.1, request_nonce ir.2.2)) <$> btree_iter requests.

Lemma requested_keys requests notes :
  Forall2 (fun i an => exists amount r, requests !! i = Some (amount, r) /\ an.1 = amount /\ nonce_of an.2 = request_nonce r) (btree_iter requests).*1 notes ->
  (fun an => (an.1, nonce_of an.2)) <$> notes = requested requests.
Proof using.
  unfold requested. assert (Hall : Forall (fun ir => requests !! ir.1 = Some ir.2) (btree_iter requests)).
  { apply Forall_forall. intros [i ar] Hin. by apply elem_of_btree_iter. }
  revert notes. induction Hall as [|[i ar] l Hi _ IH]; intros notes Hf.
  - by apply Forall2_nil_inv_l in Hf as ->.
  - rewrite fmap_cons in Hf. apply Forall2_cons_inv_l in Hf as (an & notes' & (amount & r & Hr & H1 & H2) & Hf & ->).
    cbn [fst snd] in *. rewrite !fmap_cons, (IH notes' Hf). rewrite Hi in Hr. injection Hr as ->. by rewrite H1, H2.
Qed.

(** The client receives the notes it asked for.  In whatever order the
    guardians answer, once a threshold of them has sent shares that are valid
    for every output of the range, and as long as no answer leaves out an
    outcome or has an unknown version, the trigger of the state machine fires,
    and its transition runs through: the wallet then holds, besides what it
    held before, exactly one valid note for every request, stored under the
    nonce of the request, and the machine ends with their total. *)
Theorem issuance_completes range requests tr d (good : gset Z) operation_id s :
  0 < threshold n -> requests_ok range requests ->
  retried n (FilterMapThreshold_new (batch_verifier range requests) n) tr d ->
  (forall p outcomes, (p, outcomes) ∈ tr -> complete_answer outcomes) -> threshold n <= Z.of_nat (size good) ->
  (forall p, p ∈ good -> exists outcomes, (p, outcomes) ∈ tr /\ length outcomes = idx_count (idx_range range) /\
     signed_answer requests p (range_start (idx_range range)) outcomes) ->
  notes_ok (client_notes (mint_tables s)) -> fresh_notes (client_notes (mint_tables s)) (requested requests) ->
  exists shares notes s', batch_ready n range requests d = Fired shares /\
    outcome_ready_multi operation_id requests shares s
      = (Ok (OutSucceeded (Amount.sum notes.*1)), s') /\
    received s notes s' /\ Forall genuine notes /\ (fun an => (an.1, nonce_of an.2)) <$> notes = requested requests.
Proof using stored tiers_known unblind_verifies shares_combine.
  intros Ht Hreq Hq Hall Hgood Hsigned Hok Hfresh.
  destruct (batch_fires n range requests tr d good Ht Hreq Hq Hall Hgood Hsigned) as (shares & Hfire & Hdom & Henough).
  destruct (finish_notes_ok range requests shares Hreq Henough) as (notes & Hnotes & Hg & Hf). rewrite Hdom in Hf.
  pose proof (requested_keys requests notes Hf) as Hkeys. rewrite <- Hkeys in Hfresh.
  destruct (add_notes_spec notes s Hok Hg Hfresh) as (s1 & Hrun & [H1 H2 H3 H4]). eexists shares, notes, _.
  split; [done|]. split; [|split; [|done]].
  - unfold outcome_ready_multi. rewrite Hnotes. unfold expect at 1. rewrite (run_bind _ _ s notes s) by done.
    rewrite (run_bind _ _ _ _ _ Hrun). reflexivity.
  - by split.
Qed.
End issuance.

(** ** Four guardians and one note *)

Module MintIssuanceExample.
Import MintPrimaryExample.
Definition blind_message (nonce bk : Z) : Z := Z.pos (encode (nonce, bk)).
Definition unblind_signature (bk sig : Z) : Z := sig.
Definition verify_share (message share pk : Z) : bool := share =? pk.
(** Any of the shares. *)
Definition aggregate (shares : gmap Z Z) : Z := default 0 (head (map_to_list shares).*2).
Definition to_undecoded (sn : SpendableNote (Key := Z)) : SpendableNote (Key := Z) := sn.
Definition peer_tbs_pks : gmap Z (gmap Z Z) := {[ 0 := tbs_pks; 1 := tbs_pks; 2 := tbs_pks; 3 := tbs_pks ]}.

Definition range : OutPointRange := {| range_txid := 3; idx_range := {| range_start := 0; range_end := 1 |} |}.
Definition req : NoteIssuanceRequest (Key := Z) := {| req_spend_key := 55; blinding_key := 8 |}.
Definition requests : gmap Z (Z * NoteIssuanceRequest (Key := Z)) := {[ 0 := (512, req) ]}.
Definition client : ClientDb (SpendableNote (Key := Z)) :=
  {| mint_tables := {| client_notes := ∅; next_note_index := ∅; event_log := [] |}; transaction_fees := ∅; client_log := [] |}.

Abbreviation verifier := (batch_verifier id blind_message verify_share peer_tbs_pks range requests).
Definition signed : list (option SerdeOutputOutcome) := [Some (OutcomeV0 7)].
(** One guardian signs with a wrong key. *)
Definition trace : list (Z * list (option SerdeOutputOutcome)) := [(3, signed); (0, [Some (OutcomeV0 8)]); (1, signed); (2, signed)].

Lemma tbs_pks_seven a key : tbs_pks !! a = Some key -> key = 7.
Proof.
  intros Ha. assert (Hall : forallb (fun kv => kv.2 =? 7) (map_to_list tbs_pks) = true) by by vm_compute.
  rewrite forallb_forall in Hall. apply elem_of_map_to_list in Ha. apply list_elem_of_In, Hall in Ha. by apply Z.eqb_eq in Ha.
Qed.
Lemma peer_pks p keys : peer_tbs_pks !! p = Some keys -> keys = tbs_pks.
Proof.
  unfold peer_tbs_pks. rewrite !lookup_insert_Some. intros [[_ <-]|[_ [[_ <-]|[_ [[_ <-]|[_ H]]]]]]; try done.
  by apply lookup_singleton_Some in H as [_ <-].
Qed.

Lemma combine message amount key (shares : gmap Z Z) :
  tbs_pks !! amount = Some key -> threshold 4 <= Z.of_nat (size shares) ->
  (forall p s, shares !! p = Some s -> share_ok verify_share peer_tbs_pks p amount message s) ->
  (fun _ => Z.eqb) message (aggregate shares) key = true.
Proof.
  intros Hkey Hsize Hok. unfold aggregate. destruct (map_to_list shares) as [|[p s] l] eqn:Hl.
  { apply map_to_list_empty_iff in Hl as ->. rewrite map_size_empty in Hsize. change (3 <= 0) in Hsize. lia. }
  destruct (Hok p s) as (keys & pk & ->%peer_pks & Hpk & Hs); [apply elem_of_map_to_list; rewrite Hl; left|].
  cbn. rewrite Hkey in Hpk. injection Hpk as <-. exact Hs.
Qed.

Lemma requests_fine : requests_ok tbs_pks range requests.
Proof.
  split; cbn; unfold requests.
  - intros i. destruct (decide (i = 0)) as [->|Hne]; [rewrite lookup_singleton_eq; split; [lia|by eexists]|].
    rewrite lookup_singleton_ne by done. split; [by intros []|lia].
  - lia.
  - unfold u64_max. lia.
  - intros i amount r [_ [= <- _]]%lookup_singleton_Some. by exists 7.
Qed.

Lemma run : exists d, retried 4 (FilterMapThreshold_new verifier 4) trace d.
Proof. eexists. eapply (replay_retried 4 (FilterMapThreshold_new verifier 4) [] trace); [constructor|vm_compute; reflexivity]. Qed.

Lemma issuance_completes_witness : exists d shares notes s', retried 4 (FilterMapThreshold_new verifier 4) trace d /\
  batch_ready 4 range requests d = Fired shares /\
  outcome_ready_multi id unblind_signature tbs_verify aggregate to_undecoded tbs_pks 5 requests shares client
    = (Ok (OutSucceeded (Amount.sum notes.*1)), s') /\ (fun an => (an.1, nonce_of id an.2)) <$> notes = [(512, 55)].
Proof.
  destruct run as [d Hd].
  destruct (issuance_completes id blind_message unblind_signature tbs_verify (fun _ => Z.eqb) verify_share aggregate Some to_undecoded tbs_pks peer_tbs_pks
    ltac:(done) 4 combine ltac:(done)
    ltac:(intros a [key Hk]; exact (tier_of_key tbs_pks MintClientExample.tiers_ok a (ex_intro _ key Hk)))
    range requests trace d {[1; 2; 3]} 5 client ltac:(done) requests_fine Hd) as (shares & notes & s' & H1 & H2 & _ & _ & H3).
  - assert (Hall : Forall (fun po : Z * list (option SerdeOutputOutcome) => complete_answer po.2) trace).
    { repeat constructor; cbn; try (by eexists); intros Hin; by repeat (apply elem_of_cons in Hin as [?|Hin]; [done|]); apply not_elem_of_nil in Hin. }
    intros p outcomes Hin. exact (proj1 (Forall_forall _ _) Hall _ Hin).
  - done.
  - assert (Hsigned : forall p, p ∈ ({[1; 2; 3]} : gset Z) -> signed_answer id blind_message verify_share peer_tbs_pks requests p 0 signed).
    { intros p Hp [|k] o Hk; [|done]. injection Hk as <-. exists 512, req, 7. split; [done|]. split; [done|].
      exists tbs_pks, 7. split; [|done]. set_unfold in Hp. by destruct Hp as [[->| ->]| ->]. }
    intros p Hp. exists signed. split; [|split; [done|by apply Hsigned]]. set_unfold in Hp. unfold trace. set_solver.
  - intros k un Hun. cbn in Hun. by rewrite lookup_empty in Hun.
  - split; [apply NoDup_singleton|]. intros k _. apply lookup_empty.
  - exists d, shares, notes, s'. done.
Defined.

(** A guardian that leaves out an outcome, or sends one of an unknown version,
    makes the client panic: the first counts towards the threshold of the query
    but not towards that of the output. *)
Lemma one_guardian_panics :
  (exists d, retried 4 (FilterMapThreshold_new verifier 4) [(3, signed); (0, [None]); (1, signed)] d /\
     batch_ready 4 range requests d = TriggerPanicked) /\
  (exists d, retried 4 (FilterMapThreshold_new verifier 4) [(0, [Some OutcomeDefault])] d /\ batch_ready 4 range requests d = TriggerPanicked).
Proof.
  split; eexists; (split; [eapply (replay_retried 4 (FilterMapThreshold_new verifier 4) []); [constructor|vm_compute; reflexivity]|vm_compute; reflexivity]).
Qed.
End MintIssuanceExample.
