(* ===== verification/Executor.v ===== *)
(** * The executor of client state machines

    [fedimint-client/src/sm/executor.rs] with the keys of
    [fedimint-client-module/src/sm/executor.rs] and the interface of
    [fedimint-client-module/src/sm/state.rs].  Every step of a client's work is
    a state machine whose states are rows of two tables.  The executor waits
    for a trigger of each active state, and one database transaction applies
    the transition and moves the rows.  The loop runs many machines at once,
    the client adds new ones at any time and may stop or crash at any time, so
    it is a step relation. *)

From S2P Require Import Prelude Db.

Inductive AddStateMachinesError :=
| UnknownModule (module_instance_id : Z)
| StateAlreadyExists
| StateAlreadyTerminal.

(** The event that is logged. *)
Record StateMachineUpdated := { upd_operation_id : Z; upd_started : bool; upd_terminal : bool; upd_module_id : Z }.

Record InactiveStateMeta := { in_created_at : Z; in_exited_at : Z }.

(** ** State machines *)

(** A transition function gets the value of its trigger and changes the
    database of the module.  It may submit transactions, which adds machines
    in the same database transaction, and it may panic. *)
Definition StateTransitionFunction (St D V : Type) : Type := D -> V -> St -> option (St * list St * D).

(** [IState]: module, operation and transitions. *)
Class State (St D V : Type) := {
  module_instance_id : St -> Z;
  operation_id : St -> Z;
  transitions : St -> list (StateTransitionFunction St D V);
}.

(** [DynState::is_terminal]. *)
Definition is_terminal `{State St D V} (s : St) : bool := match transitions s with [] => true | _ => false end.

Section executor.
Context {St D V : Type} `{Countable St} `{!State St D V}.


(** ** Tables *)

Record SmDb := {
  active : gmap St Z;
  inactive : gmap St InactiveStateMeta;
  events : list StateMachineUpdated;
  data : D;
}.

Definition ActiveStateKeyDb : table SmDb St Z := Table active (fun f s =>
  {| active := f (active s); inactive := inactive s; events := events s; data := data s |}).
Definition InactiveStateKeyDb : table SmDb St InactiveStateMeta := Table inactive (fun f s =>
  {| active := active s; inactive := f (inactive s); events := events s; data := data s |}).

Definition with_events (f : list StateMachineUpdated -> list StateMachineUpdated) (d : SmDb) : SmDb :=
  {| active := active d; inactive := inactive d; events := f (events d); data := data d |}.
Definition with_data (x : D) (d : SmDb) : SmDb :=
  {| active := active d; inactive := inactive d; events := events d; data := x |}.

Abbreviation MS := (M SmDb AddStateMachinesError).

(** The modules with a context, and the modules for which states may be
    added: a module that is being recovered has no context yet. *)
Context (module_contexts valid_module_ids : gset Z).

Definition log_event_dbtx (e : StateMachineUpdated) : MS unit := modify (with_events (fun l => l ++ [e])).

(** *** Adding machines *)

(** [running] is whether the executor can make contexts; the states that are
    returned are sent to the loop and to the subscribers on commit. *)
Definition add_state_machine (running : bool) (now : Z) (s : St) : MS unit :=
  _ ← ensure (bool_decide (module_instance_id s ∈ valid_module_ids)) (UnknownModule (module_instance_id s));
  is_active ← get_value ActiveStateKeyDb s;
  is_inactive ← get_value InactiveStateKeyDb s;
  _ ← ensure (negb (bool_decide (is_Some is_active) || bool_decide (is_Some is_inactive))) StateAlreadyExists;
  _ ← ensure (negb (bool_decide (module_instance_id s ∈ module_contexts) && running && is_terminal s)) StateAlreadyTerminal;
  _ ← insert_new_entry ActiveStateKeyDb s now;
  log_event_dbtx {| upd_operation_id := operation_id s; upd_started := true; upd_terminal := false; upd_module_id := module_instance_id s |}.

Definition add_state_machines_dbtx (running : bool) (now : Z) (states : list St) : MS (list St) :=
  _ ← for_each states (add_state_machine running now); mret states.

(** *** Reading *)

Definition get_active_states (d : SmDb) : list (St * Z) :=
  filter (fun kv => module_instance_id kv.1 ∈ module_contexts) (map_to_list (active d)).
Definition get_inactive_states (d : SmDb) : list (St * InactiveStateMeta) :=
  filter (fun kv => module_instance_id kv.1 ∈ module_contexts) (map_to_list (inactive d)).
Definition get_active_state (s : St) (d : SmDb) : option Z :=
  if decide (module_instance_id s ∈ module_contexts) then active d !! s else None.
Definition get_operation_states (op : Z) (d : SmDb) : list (St * Z) * list (St * InactiveStateMeta) :=
  (filter (fun kv => operation_id kv.1 = op) (map_to_list (active d)), filter (fun kv => operation_id kv.1 = op) (map_to_list (inactive d))).
Definition contains_active_state (s : St) (d : SmDb) : bool := existsb (fun kv => bool_decide (kv.1 = s)) (get_active_states d).
Definition contains_inactive_state (s : St) (d : SmDb) : bool := existsb (fun kv => bool_decide (kv.1 = s)) (get_inactive_states d).

(** *** Transitions *)

(** A state without transitions is deactivated; an unknown module panics. *)
Definition get_transition_for (now : Z) (s : St) : MS (list (StateTransitionFunction St D V)) :=
  _ ← rassert (bool_decide (module_instance_id s ∈ module_contexts));
  match transitions s with
  | [] =>
      _ ← remove_entry ActiveStateKeyDb s;
      _ ← insert_entry InactiveStateKeyDb s {| in_created_at := now; in_exited_at := now |};
      mret []
  | l => mret l
  end.

Inductive ActiveOrInactiveState := Active (s : St) | Inactive (s : St).

(** The transaction of a transition, which returns the next state and the
    machines that were added, to be sent to the loop after the commit. *)
Definition execute_transition (now : Z) (s : St) (created_at : Z) (f : StateTransitionFunction St D V) (outcome : V) : MS (ActiveOrInactiveState * list St) :=
  x ← gets data;
  '(new, added, x') ← expect (f x outcome s);
  _ ← modify (with_data x');
  _ ← add_state_machines_dbtx true now added;
  _ ← remove_entry ActiveStateKeyDb s;
  _ ← insert_entry InactiveStateKeyDb s {| in_created_at := created_at; in_exited_at := now |};
  _ ← rassert (bool_decide (module_instance_id s ∈ module_contexts));
  _ ← log_event_dbtx {| upd_operation_id := operation_id s; upd_started := false; upd_terminal := is_terminal new; upd_module_id := module_instance_id s |};
  if is_terminal new then
    _ ← insert_entry InactiveStateKeyDb new {| in_created_at := now; in_exited_at := now |}; mret (Inactive new, added)
  else
    _ ← insert_entry ActiveStateKeyDb new now; mret (Active new, added).

(** ** The loop *)

Inductive ExecutorLoopEvent :=
| New (s : St)
| Triggered (s : St) (created_at : Z) (f : StateTransitionFunction St D V) (outcome : V)
| Invalid (s : St)
| Completed (s : St) (outcome : ActiveOrInactiveState).

(** What runs in parallel: the lookup of a new state, the wait for one of its
    triggers, its transaction, the notification after it, and the event each
    future resolves to. *)
Inductive future :=
| Lookup (s : St)
| Select (s : St) (created_at : Z) (l : list (StateTransitionFunction St D V))
| Transition (s : St) (created_at : Z) (f : StateTransitionFunction St D V) (outcome : V)
| Notify (s : St) (outcome : ActiveOrInactiveState)
| Ready (e : ExecutorLoopEvent).

Inductive ExecutorState := Unstarted | Running | Stopped.

(** [hooks] are the callbacks of committed transactions that are still to run,
    [channel] is the queue of the loop, [broadcast] what subscribers got. *)
Record Executor := {
  db : SmDb;
  state : ExecutorState;
  hooks : list St;
  channel : list St;
  currently_running_sms : gset St;
  futures : list future;
  broadcast : list St;
}.

Definition with_db (d : SmDb) (e : Executor) : Executor :=
  {| db := d; state := state e; hooks := hooks e; channel := channel e; currently_running_sms := currently_running_sms e; futures := futures e; broadcast := broadcast e |}.
Definition with_hooks (l : list St) (e : Executor) : Executor :=
  {| db := db e; state := state e; hooks := l; channel := channel e; currently_running_sms := currently_running_sms e; futures := futures e; broadcast := broadcast e |}.
Definition with_channel (l : list St) (e : Executor) : Executor :=
  {| db := db e; state := state e; hooks := hooks e; channel := l; currently_running_sms := currently_running_sms e; futures := futures e; broadcast := broadcast e |}.
Definition with_running (r : gset St) (e : Executor) : Executor :=
  {| db := db e; state := state e; hooks := hooks e; channel := channel e; currently_running_sms := r; futures := futures e; broadcast := broadcast e |}.
Definition with_futures (l : list future) (e : Executor) : Executor :=
  {| db := db e; state := state e; hooks := hooks e; channel := channel e; currently_running_sms := currently_running_sms e; futures := l; broadcast := broadcast e |}.
Definition with_state (s : ExecutorState) (e : Executor) : Executor :=
  {| db := db e; state := s; hooks := hooks e; channel := channel e; currently_running_sms := currently_running_sms e; futures := futures e; broadcast := broadcast e |}.
Definition notify (s : St) (e : Executor) : Executor :=
  {| db := db e; state := state e; hooks := hooks e; channel := channel e; currently_running_sms := currently_running_sms e; futures := futures e; broadcast := broadcast e ++ [s] |}.

(** [gen_context] makes contexts only while running. *)
Definition is_running (st : ExecutorState) : bool := match st with Running => true | _ => false end.

(** [ExecutorState::start] and [ExecutorState::stop]: whether it happened. *)
Definition start (st : ExecutorState) : bool * ExecutorState := match st with Unstarted => (true, Running) | _ => (false, st) end.
Definition stop (st : ExecutorState) : bool * ExecutorState := match st with Running => (true, Stopped) | _ => (false, st) end.

(** The reaction to an event; [None] panics. *)
Definition handle_event (ev : ExecutorLoopEvent) (e : Executor) : option Executor :=
  match ev with
  | New s =>
      if decide (s ∈ currently_running_sms e) then Some e
      else Some (with_futures (futures e ++ [Lookup s]) (with_running ({[s]} ∪ currently_running_sms e) e))
  | Triggered s created_at f outcome => Some (with_futures (futures e ++ [Transition s created_at f outcome]) e)
  | Invalid s | Completed s _ =>
      if decide (s ∈ currently_running_sms e) then Some (with_running (currently_running_sms e ∖ {[s]}) e) else None
  end.

(** One poll of a future: the lookup and the transaction run on the database,
    the notification sends, and an event is handled.  A wait needs the index
    and the value of the trigger that fires first.  [None] panics. *)
Definition poll (now : Z) (trigger : option (nat * V)) (fu : future) (rest : list future) (e : Executor) : option Executor :=
  match fu with
  | Lookup s =>
      match get_active_state s (db e) with
      | None => Some (with_futures (Ready (Invalid s) :: rest) e)
      | Some created_at =>
          match get_transition_for now s (db e) with
          | (Ok [], d) => Some (with_futures (Ready (Invalid s) :: rest) (with_db d e))
          | (Ok l, d) => Some (with_futures (Select s created_at l :: rest) (with_db d e))
          | (_, _) => None
          end
      end
  | Select s created_at l =>
      match trigger with
      | Some (i, v) => match l !! i with Some f => Some (with_futures (Ready (Triggered s created_at f v) :: rest) e) | None => Some e end
      | None => Some e
      end
  | Transition s created_at f v =>
      match execute_transition now s created_at f v (db e) with
      | (Ok (outcome, added), d) => Some (with_hooks (hooks e ++ added) (with_futures (Notify s outcome :: rest) (with_db d e)))
      | (_, _) => None
      end
  | Notify s (Active new) => Some (notify new (with_channel (channel e ++ [new]) (with_futures (Ready (Completed s (Active new)) :: rest) e)))
  | Notify s (Inactive new) => Some (notify new (with_futures (Ready (Completed s (Inactive new)) :: rest) e))
  | Ready ev => handle_event ev (with_futures rest e)
  end.

(** A callback of a committed transaction. *)
Definition run_hook (s : St) (rest : list St) (e : Executor) : Executor :=
  notify s (with_channel (channel e ++ [s]) (with_hooks rest e)).

(** [start_executor]: the active states are sent to the loop. *)
Definition start_executor (e : Executor) : option Executor :=
  match start (state e) with
  | (true, st) => Some (with_channel (channel e ++ (get_active_states (db e)).*1) (with_state st e))
  | (false, _) => None
  end.

(** A new process with the same database. *)
Definition restarted (d : SmDb) : Executor :=
  {| db := d; state := Unstarted; hooks := []; channel := []; currently_running_sms := ∅; futures := []; broadcast := [] |}.

(** ** Steps *)

(** What identifies a machine through its states. *)
Class Origin := origin : St -> Z.
Context {machine_origin : Origin}.

Definition known (s : St) : Prop := module_instance_id s ∈ module_contexts.
Definition seen (d : SmDb) (s : St) : Prop := s ∈ dom (active d) ∪ dom (inactive d).

(** Machines that are added are new. *)
Definition new_machines (states : list St) (d : SmDb) : Prop :=
  NoDup (origin <$> states) /\ forall s s', s ∈ states -> seen d s' -> origin s' <> origin s.

(** [progress] are the steps of the executor itself. *)

Inductive progress : Executor -> option St -> Executor -> Prop :=
| step_hook l1 s l2 e : hooks e = l1 ++ s :: l2 -> progress e None (run_hook s (l1 ++ l2) e)
| step_recv s ch e e' : state e = Running -> channel e = s :: ch -> handle_event (New s) (with_channel ch e) = Some e' -> progress e None e'
| step_lookup now l1 s l2 e e' : state e = Running -> futures e = l1 ++ Lookup s :: l2 -> poll now None (Lookup s) (l1 ++ l2) e = Some e' -> progress e None e'
| step_trigger now i v l1 s c l f l2 e e' : state e = Running -> futures e = l1 ++ Select s c l :: l2 -> l !! i = Some f ->
    poll now (Some (i, v)) (Select s c l) (l1 ++ l2) e = Some e' -> progress e None e'
| step_commit now l1 s c f v l2 e e' : state e = Running -> futures e = l1 ++ Transition s c f v :: l2 ->
    (forall new added x', f (data (db e)) v s = Some (new, added, x') -> new_machines added (db e)) ->
    poll now None (Transition s c f v) (l1 ++ l2) e = Some e' -> progress e (Some s) e'
| step_notify now l1 s o l2 e e' : state e = Running -> futures e = l1 ++ Notify s o :: l2 -> poll now None (Notify s o) (l1 ++ l2) e = Some e' -> progress e None e'
| step_ready now l1 ev l2 e e' : state e = Running -> futures e = l1 ++ Ready ev :: l2 -> poll now None (Ready ev) (l1 ++ l2) e = Some e' -> progress e None e'.

Inductive step : Executor -> option St -> Executor -> Prop :=
| step_progress e o e' : progress e o e' -> step e o e'
| step_add now states e d : add_state_machines_dbtx (is_running (state e)) now states (db e) = (Ok states, d) ->
    new_machines states (db e) -> step e None (with_hooks (hooks e ++ states) (with_db d e))
| step_data x e : step e None (with_db (with_data x (db e)) e)
| step_start e e' : start_executor e = Some e' -> step e None e'
| step_stop e st : stop (state e) = (true, st) -> step e None (with_futures [] (with_running ∅ (with_state st e)))
| step_crash e : step e None (restarted (db e)).

(** Reachable executors, with the states whose transition was committed. *)
Inductive execution (x : D) : list St -> Executor -> Prop :=
| execution_start : execution x [] (restarted {| active := ∅; inactive := ∅; events := []; data := x |})
| execution_step exits e o e' : execution x exits e -> step e o e' -> execution x (exits ++ option_list o) e'.

(** Machines whose transitions stay in the module and move towards an end, and
    never meet another machine. *)
Class Progressing := {
  rank : St -> nat;
  transition_module s f x v new added x' : f ∈ transitions s -> f x v s = Some (new, added, x') -> module_instance_id new = module_instance_id s;
  transition_origin s f x v new added x' : f ∈ transitions s -> f x v s = Some (new, added, x') -> origin new = origin s;
  transition_rank s f x v new added x' : f ∈ transitions s -> f x v s = Some (new, added, x') -> (rank new < rank s)%nat;
}.
Context {progressing : Progressing}.

(** ** Invariant *)

Definition future_state (fu : future) : St :=
  match fu with
  | Lookup s | Select s _ _ | Transition s _ _ _ | Notify s _ => s
  | Ready (New s) | Ready (Triggered s _ _ _) | Ready (Invalid s) | Ready (Completed s _) => s
  end.

(** The active state a future takes care of. *)
Definition cares_for (fu : future) : option St :=
  match fu with
  | Lookup s | Select s _ _ | Transition s _ _ _ | Ready (Triggered s _ _ _) => Some s
  | Notify _ (Active new) => Some new
  | Notify _ (Inactive _) | Ready (New _) | Ready (Invalid _) | Ready (Completed _ _) => None
  end.

Definition future_ok (d : SmDb) (fu : future) : Prop :=
  match fu with
  | Lookup s => seen d s
  | Select s c l => active d !! s = Some c /\ known s /\ l = transitions s /\ l <> []
  | Transition s c f _ | Ready (Triggered s c f _) => active d !! s = Some c /\ known s /\ f ∈ transitions s
  | Notify s (Active new) => s ∈ dom (inactive d) /\ seen d new
  | Notify s (Inactive _) => s ∈ dom (inactive d)
  | Ready (Completed s _) => s ∈ dom (inactive d)
  | Ready (Invalid s) => s ∈ dom (inactive d) \/ ~ known s
  | Ready (New s) => False
  end.

Record machines_ok (d : SmDb) : Prop := {
  mo_disjoint : dom (active d) ## dom (inactive d);
  mo_origin : forall s s', s ∈ dom (active d) -> seen d s' -> origin s' = origin s -> (rank s <= rank s')%nat;
  mo_single : forall s s', s ∈ dom (active d) -> s' ∈ dom (active d) -> origin s' = origin s -> s' = s;
}.

Record executor_inv (e : Executor) : Prop := {
  ei_machines : machines_ok (db e);
  ei_nodup : NoDup (future_state <$> futures e);
  ei_running : forall s, s ∈ currently_running_sms e <-> s ∈ future_state <$> futures e;
  ei_seen : forall s, s ∈ hooks e ++ channel e -> seen (db e) s;
  ei_futures : Forall (future_ok (db e)) (futures e);
  ei_cover : state e = Running -> forall s, s ∈ dom (active (db e)) -> known s ->
    s ∈ hooks e ++ channel e \/ exists fu, fu ∈ futures e /\ cares_for fu = Some s;
  ei_idle : state e <> Running -> futures e = [];
}.

Lemma seen_spec d s : seen d s <-> s ∈ dom (active d) \/ s ∈ dom (inactive d).
Proof using. unfold seen. set_solver. Qed.

Lemma future_ok_mono d d' fu :
  future_ok d fu -> (forall c, active d !! future_state fu = Some c -> active d' !! future_state fu = Some c) ->
  dom (inactive d) ⊆ dom (inactive d') -> (forall s, seen d s -> seen d' s) -> future_ok d' fu.
Proof using.
  intros Hok Ha Hi Hs. destruct fu as [s|s c l|s c f v|s [new|new]|[s|s c f v|s|s o]]; simpl in *; try done.
  - by apply Hs.
  - destruct Hok as (? & ? & ?). split; [by apply Ha|done].
  - destruct Hok as (? & ? & ?). split; [by apply Ha|done].
  - destruct Hok as [? ?]. split; [by apply Hi|by apply Hs].
  - by apply Hi.
  - destruct Hok as (? & ? & ?). split; [by apply Ha|done].
  - destruct Hok as [?|?]; [left; by apply Hi|by right].
  - by apply Hi.
Qed.

Lemma inv_perm e l : executor_inv e -> l ≡ₚ futures e -> executor_inv (with_futures l e).
Proof using.
  intros [I1 I2 I3 I4 I5 I6 I7] Hp. split; simpl; try done.
  - by rewrite Hp.
  - intros s. by rewrite Hp.
  - by rewrite Hp.
  - intros Hr s Hs Hk. destruct (I6 Hr s Hs Hk) as [?|(fu & Hin & ?)]; [by left|]. right. exists fu. by rewrite Hp.
  - intros Hr. apply I7 in Hr. rewrite Hr in Hp. by apply Permutation_nil_r in Hp.
Qed.

(** A future makes a step on the database. *)
Lemma replace_future e d l1 fu l2 fu' :
  executor_inv e -> state e = Running -> futures e = l1 ++ fu :: l2 -> future_state fu' = future_state fu ->
  machines_ok d -> future_ok d fu' -> Forall (future_ok d) (l1 ++ l2) -> (forall s, seen (db e) s -> seen d s) ->
  (forall s, s ∈ dom (active d) -> known s -> s ∈ dom (active (db e)) /\ cares_for fu <> Some s \/ cares_for fu' = Some s) ->
  executor_inv (with_futures (fu' :: l1 ++ l2) (with_db d e)).
Proof using.
  intros [I1 I2 I3 I4 I5 I6 I7] Hrun Hf Hst Hd Hfu' Hrest Hseen Hcov.
  assert (Hperm : future_state <$> fu' :: l1 ++ l2 ≡ₚ future_state <$> futures e).
  { rewrite Hf. cbn [fmap list_fmap]. rewrite Hst, !fmap_app, fmap_cons. by rewrite <- Permutation_middle. }
  split; cbn [db futures currently_running_sms hooks channel state with_futures with_db].
  - done.
  - by rewrite Hperm.
  - intros s. by rewrite Hperm.
  - intros s Hs. by apply Hseen, I4.
  - by constructor.
  - intros _ s Hs Hk. destruct (Hcov s Hs Hk) as [[Hold Hne]|Hnew]; [|right; exists fu'; split; [by left|done]].
    destruct (I6 Hrun s Hold Hk) as [?|(fu0 & Hin & Hc)]; [by left|]. right. exists fu0. split; [|done]. right.
    rewrite Hf in Hin. apply elem_of_app in Hin as [?|[->|?]%elem_of_cons]; [apply elem_of_app; by left|done|apply elem_of_app; by right].
  - done.
Qed.

(** Other futures are of other states. *)
Lemma other_states e l1 fu l2 fu0 :
  executor_inv e -> futures e = l1 ++ fu :: l2 -> fu0 ∈ l1 ++ l2 -> future_state fu0 <> future_state fu.
Proof using.
  intros I Hf Hin Heq. pose proof (ei_nodup _ I) as Hnd. rewrite Hf, fmap_app, fmap_cons in Hnd.
  apply NoDup_app in Hnd as (_ & H1 & [H2 _]%NoDup_cons).
  apply elem_of_app in Hin as [Hin|Hin]; apply (list_elem_of_fmap_2 future_state) in Hin; rewrite Heq in Hin; [|done].
  apply (H1 _ Hin). by left.
Qed.

Lemma futures_rest e l1 fu l2 :
  executor_inv e -> futures e = l1 ++ fu :: l2 -> future_ok (db e) fu /\ Forall (future_ok (db e)) (l1 ++ l2).
Proof using.
  intros I Hf. pose proof (ei_futures _ I) as Hok. rewrite Hf, Forall_app, Forall_cons in Hok. destruct Hok as (? & ? & ?).
  split; [done|]. by rewrite Forall_app.
Qed.

(** *** The transactions *)

Lemma get_transition_for_Ok now s d l d' :
  get_transition_for now s d = (Ok l, d') ->
  known s /\ l = transitions s /\
  (transitions s <> [] -> d' = d) /\
  (transitions s = [] -> active d' = delete s (active d) /\ dom (inactive d') = {[s]} ∪ dom (inactive d)).
Proof using.
  unfold get_transition_for. intros H1. apply bind_Ok in H1 as ([] & d1 & [Hk ->]%rassert_Ok & H1). apply bool_decide_eq_true in Hk.
  split; [done|]. destruct (transitions s) as [|f l0].
  - dbrun. split; [done|]. split; [done|]. intros _. by rewrite dom_insert_L.
  - apply ret_Ok in H1 as [-> ->]. split; [done|]. by split.
Qed.

Lemma execute_transition_Ok now s c f v d o d' :
  execute_transition now s c f v d = (Ok o, d') ->
  exists new added x' d1, f (data d) v s = Some (new, added, x') /\ add_state_machines_dbtx true now added (with_data x' d) = (Ok added, d1) /\
    if is_terminal new
    then o = (Inactive new, added) /\ active d' = delete s (active d1) /\ dom (inactive d') = {[new]} ∪ ({[s]} ∪ dom (inactive d1))
    else o = (Active new, added) /\ active d' = <[new := now]> (delete s (active d1)) /\ dom (inactive d') = {[s]} ∪ dom (inactive d1).
Proof using.
  unfold execute_transition. intros H1. apply bind_Ok in H1 as (x & d1 & [-> ->]%gets_Ok & H1).
  apply bind_Ok in H1 as ([[new added] x'] & d1 & [Hf ->]%expect_Ok & H1).
  apply bind_Ok in H1 as ([] & d1 & ->%modify_Ok & H1). apply bind_Ok in H1 as (added' & d2 & Hadd & H1).
  assert (added' = added) as -> by (unfold add_state_machines_dbtx in Hadd; by apply bind_Ok in Hadd as ([] & ? & _ & [<- _]%ret_Ok)).
  exists new, added, x', d2. split; [done|]. split; [done|].
  apply bind_Ok in H1 as (y & d3 & [_ ->]%remove_entry_Ok & H1).
  apply bind_Ok in H1 as (y1 & d3 & [_ ->]%insert_entry_Ok & H1). apply bind_Ok in H1 as ([] & d3 & [_ ->]%rassert_Ok & H1).
  apply bind_Ok in H1 as ([] & d3 & ->%modify_Ok & H1). destruct (is_terminal new).
  - apply bind_Ok in H1 as (y2 & d3 & [_ ->]%insert_entry_Ok & H1). apply ret_Ok in H1 as [-> ->]. split; [done|]. split; [done|].
    simpl. by rewrite !dom_insert_L.
  - apply bind_Ok in H1 as (y2 & d3 & [_ ->]%insert_entry_Ok & H1). apply ret_Ok in H1 as [-> ->]. split; [done|]. split; [done|].
    simpl. by rewrite !dom_insert_L.
Qed.

Lemma machines_deactivate d d' s :
  machines_ok d -> s ∈ dom (active d) -> active d' = delete s (active d) -> dom (inactive d') = {[s]} ∪ dom (inactive d) ->
  machines_ok d' /\ (forall s', seen d' s' <-> seen d s').
Proof using.
  intros [M1 M2 M3] Hs Ha Hi.
  assert (Hseen : forall s', seen d' s' <-> seen d s').
  { intros s'. rewrite !seen_spec, Hi, Ha, dom_delete_L. destruct (decide (s' = s)) as [->|]; set_solver. }
  split; [|done]. split.
  - rewrite Ha, Hi, dom_delete_L. set_solver.
  - intros t t' Ht Ht' Ho. rewrite Ha, dom_delete_L in Ht. apply M2; [set_solver|by apply Hseen|done].
  - intros t t' Ht Ht' Ho. rewrite Ha, dom_delete_L in Ht, Ht'. apply M3; [set_solver|set_solver|done].
Qed.

(** The next state of a machine is new. *)
Lemma next_state_new d s new :
  machines_ok d -> s ∈ dom (active d) -> origin new = origin s -> (rank new < rank s)%nat -> ~ seen d new.
Proof using. intros M Hs Ho Hr Hseen. pose proof (mo_origin _ M s new Hs Hseen Ho). lia. Qed.

Lemma machines_transition d d' s new (terminal : bool) c :
  machines_ok d -> s ∈ dom (active d) -> origin new = origin s -> (rank new < rank s)%nat ->
  (if terminal
   then active d' = delete s (active d) /\ dom (inactive d') = {[new]} ∪ ({[s]} ∪ dom (inactive d))
   else active d' = <[new := c]> (delete s (active d)) /\ dom (inactive d') = {[s]} ∪ dom (inactive d)) ->
  machines_ok d' /\ (forall s', seen d' s' <-> s' = new \/ seen d s').
Proof using.
  intros M Hs Ho Hr H1. pose proof (next_state_new _ _ _ M Hs Ho Hr) as Hnew. destruct M as [M1 M2 M3].
  assert (Hns : new <> s) by (intros ->; lia).
  assert (Hnn : (new ∉ dom (active d)) /\ (new ∉ dom (inactive d))) by (rewrite seen_spec in Hnew; tauto).
  assert (Hseen : forall s', seen d' s' <-> s' = new \/ seen d s').
  { intros s'. rewrite !seen_spec. destruct terminal, H1 as [-> ->]; rewrite ?dom_insert_L, dom_delete_L; destruct (decide (s' = s)) as [->|]; set_solver. }
  split; [|done]. destruct terminal; destruct H1 as [Ha Hi]; split.
  - rewrite Ha, Hi, dom_delete_L. set_solver.
  - intros t t' Ht Ht' Hot. rewrite Ha, dom_delete_L in Ht. apply Hseen in Ht' as [->|Ht']; [|apply M2; [set_solver|done|done]].
    assert (t = s) as -> by (apply (M3 s t); [done|set_solver|congruence]). set_solver.
  - intros t t' Ht Ht' Hot. rewrite Ha, dom_delete_L in Ht, Ht'. apply M3; [set_solver|set_solver|done].
  - rewrite Ha, Hi, dom_insert_L, dom_delete_L. set_solver.
  - intros t t' Ht Ht' Hot. rewrite Ha, dom_insert_L, dom_delete_L in Ht. apply Hseen in Ht'.
    destruct (decide (t = new)) as [->|Hne].
    + destruct Ht' as [->|Ht']; [done|]. pose proof (M2 s t' Hs Ht' ltac:(congruence)). lia.
    + destruct Ht' as [->|Ht']; [|apply M2; [set_solver|done|done]].
      assert (t = s) as -> by (apply (M3 s t); [done|set_solver|congruence]). set_solver.
  - intros t t' Ht Ht' Hot. rewrite Ha, dom_insert_L, dom_delete_L in Ht, Ht'.
    destruct (decide (t = new)) as [->|Hne], (decide (t' = new)) as [->|Hne']; [done| | |apply M3; [set_solver|set_solver|done]].
    + assert (t' = s) as -> by (apply (M3 s t'); [done|set_solver|congruence]). set_solver.
    + assert (t = s) as -> by (apply (M3 s t); [done|set_solver|congruence]). set_solver.
Qed.

(** *** Adding machines *)

Lemma add_state_machine_Ok running now s d d' :
  add_state_machine running now s d = (Ok tt, d') ->
  ~ seen d s /\ active d' = <[s := now]> (active d) /\ inactive d' = inactive d /\ module_instance_id s ∈ valid_module_ids /\
  (running = true -> known s -> is_terminal s = false).
Proof using.
  unfold add_state_machine. intros H1. apply bind_Ok in H1 as ([] & d1 & [Hv ->]%ensure_Ok & H1). apply bool_decide_eq_true in Hv.
  apply bind_Ok in H1 as (a & d1 & [-> ->]%get_value_Ok & H1). apply bind_Ok in H1 as (b & d1 & [-> ->]%get_value_Ok & H1).
  apply bind_Ok in H1 as ([] & d1 & [Hn ->]%ensure_Ok & H1). apply bind_Ok in H1 as ([] & d1 & [Ht ->]%ensure_Ok & H1).
  apply bind_Ok in H1 as ([] & d1 & [_ ->]%insert_new_entry_Ok & ->%modify_Ok).
  apply negb_true_iff, orb_false_iff in Hn as [Hn1 Hn2]. rewrite bool_decide_eq_false in Hn1, Hn2.
  split; [rewrite seen_spec, !elem_of_dom; tauto|]. split; [done|]. split; [done|]. split; [done|].
  intros -> Hk. rewrite bool_decide_eq_true_2 in Ht by done. by destruct (is_terminal s).
Qed.

Lemma machines_add d d' s c :
  machines_ok d -> ~ seen d s -> (forall s', seen d s' -> origin s' <> origin s) ->
  active d' = <[s := c]> (active d) -> inactive d' = inactive d ->
  machines_ok d' /\ (forall s', seen d' s' <-> s' = s \/ seen d s').
Proof using.
  intros [M1 M2 M3] Hn Ho Ha Hi.
  assert (Hseen : forall s', seen d' s' <-> s' = s \/ seen d s').
  { intros s'. rewrite !seen_spec, Hi, Ha, dom_insert_L. set_solver. }
  split; [|done]. rewrite seen_spec in Hn. split.
  - rewrite Ha, Hi, dom_insert_L. set_solver.
  - intros t t' Ht Ht' Hot. rewrite Ha, dom_insert_L in Ht. apply Hseen in Ht'. destruct (decide (t = s)) as [->|Hne].
    + destruct Ht' as [->|Ht']; [done|]. by destruct (Ho t' Ht').
    + assert (t ∈ dom (active d)) by set_solver. destruct Ht' as [->|Ht']; [|by apply M2].
      destruct (Ho t); [apply seen_spec; by left|done].
  - intros t t' Ht Ht' Hot. rewrite Ha, dom_insert_L in Ht, Ht'.
    destruct (decide (t = s)) as [->|Hne], (decide (t' = s)) as [->|Hne']; [done| | |apply M3; [set_solver|set_solver|done]].
    + destruct (Ho t'); [apply seen_spec; left; set_solver|done].
    + destruct (Ho t); [apply seen_spec; left; set_solver|done].
Qed.

Lemma add_all running now states d d' :
  machines_ok d -> new_machines states d -> for_each states (add_state_machine running now) d = (Ok tt, d') ->
  machines_ok d' /\ (forall s, seen d' s <-> s ∈ states \/ seen d s) /\ inactive d' = inactive d /\
  (forall s c, active d !! s = Some c -> active d' !! s = Some c) /\
  (forall s, s ∈ dom (active d') <-> s ∈ states \/ s ∈ dom (active d)).
Proof using.
  revert d. induction states as [|s states IH]; intros d M [Hnd Ho] H1; cbn [for_each] in H1.
  - apply ret_Ok in H1 as [_ ->]. split; [done|]. split; [intros s; rewrite elem_of_nil; tauto|]. split; [done|]. split; [done|].
    intros s. rewrite elem_of_nil. tauto.
  - apply bind_Ok in H1 as ([] & d1 & Hs & H1). apply add_state_machine_Ok in Hs as (Hn & Ha & Hi & _).
    rewrite fmap_cons in Hnd. apply NoDup_cons in Hnd as [Hni Hnd].
    destruct (machines_add d d1 s now M Hn ltac:(intros s'; apply Ho; by left) Ha Hi) as [M1 Hseen1].
    destruct (IH d1 M1) as (M' & Hseen & Hi' & Hmono & Hdom); [split; [done|]|done|].
    + intros t t' Ht Ht'. apply Hseen1 in Ht' as [->|Ht']; [|apply Ho; [by right|done]].
      intros Heq. apply Hni. rewrite Heq. by apply list_elem_of_fmap_2.
    + split; [done|]. split; [intros t; rewrite Hseen, Hseen1, elem_of_cons; tauto|]. split; [by rewrite Hi'|]. split.
      * intros t c Ht. apply Hmono. rewrite Ha, lookup_insert_ne; [done|]. intros <-. apply Hn, seen_spec. left. apply elem_of_dom. by exists c.
      * intros t. rewrite Hdom, Ha, dom_insert_L, elem_of_cons, elem_of_union, elem_of_singleton. tauto.
Qed.

Lemma inv_data x e : executor_inv e -> executor_inv (with_db (with_data x (db e)) e).
Proof using. intros [[M1 M2 M3] I2 I3 I4 I5 I6 I7]. by split. Qed.

Lemma inv_add now states e d :
  executor_inv e -> add_state_machines_dbtx (is_running (state e)) now states (db e) = (Ok states, d) -> new_machines states (db e) ->
  executor_inv (with_hooks (hooks e ++ states) (with_db d e)).
Proof using.
  intros [I1 I2 I3 I4 I5 I6 I7] Hadd Hnew. unfold add_state_machines_dbtx in Hadd. apply bind_Ok in Hadd as ([] & d1 & Hadd & [_ ->]%ret_Ok).
  destruct (add_all _ _ _ _ _ I1 Hnew Hadd) as (M & Hseen & Hi & Hmono & Hdom). split; simpl; try done.
  - intros s. rewrite <- app_assoc, !elem_of_app, Hseen. intros [?|[?|?]]; [right; apply I4, elem_of_app; by left|by left|right; apply I4, elem_of_app; by right].
  - eapply Forall_impl; [exact I5|]. intros fu Hok. apply (future_ok_mono (db e)); [done|apply Hmono|by rewrite Hi|intros s Hs; apply Hseen; by right].
  - intros Hr s Hs Hk. apply Hdom in Hs as [Hs|Hs]; [left; rewrite !elem_of_app; tauto|].
    destruct (I6 Hr s Hs Hk) as [Hin|?]; [|by right]. left. rewrite !elem_of_app in *. tauto.
Qed.

(** *** Steps of the executor *)

Lemma inv_hook l1 s l2 e : executor_inv e -> hooks e = l1 ++ s :: l2 -> executor_inv (run_hook s (l1 ++ l2) e).
Proof using.
  intros [I1 I2 I3 I4 I5 I6 I7] Hh.
  assert (Hel : forall t, t ∈ (l1 ++ l2) ++ channel e ++ [s] <-> t ∈ hooks e ++ channel e).
  { intros t. rewrite Hh, !elem_of_app, !elem_of_cons, elem_of_nil. tauto. }
  split; simpl; try done.
  - intros t. rewrite Hel. apply I4.
  - intros Hr t Ht Hk. rewrite Hel. by apply I6.
Qed.

Lemma inv_recv s ch e e' :
  executor_inv e -> state e = Running -> channel e = s :: ch -> handle_event (New s) (with_channel ch e) = Some e' -> executor_inv e'.
Proof using.
  intros I Hr Hc Hev. pose proof I as [I1 I2 I3 I4 I5 I6 I7]. simpl in Hev.
  assert (Hsub : forall t, t ∈ hooks e ++ channel e <-> t = s \/ t ∈ hooks e ++ ch).
  { intros t. rewrite Hc, !elem_of_app, elem_of_cons. tauto. }
  assert (Hseen : seen (db e) s) by (apply I4, Hsub; by left).
  case_decide as Hin; injection Hev as <-.
  - split; simpl; try done.
    + intros t Ht. apply I4, Hsub. by right.
    + intros _ t Ht Hk. destruct (I6 Hr t Ht Hk) as [Hin'|?]; [|by right]. apply Hsub in Hin' as [->|?]; [|by left].
      right. apply I3, list_elem_of_fmap in Hin as (fu & Hfs & Hfu). exists fu. split; [done|].
      apply (proj1 (Forall_forall _ _) I5) in Hfu as Hok. clear I5. rename Hok into I5.
      destruct I1 as [M1 _ _]. destruct fu as [x|x c l|x c f v|x [new|new]|[x|x c f v|x|x o]]; simpl in *; subst x; try done.
      * destruct I5 as [I5 _]. by destruct (M1 s).
      * by destruct (M1 s).
      * destruct I5 as [I5|I5]; [by destruct (M1 s)|done].
      * by destruct (M1 s).
  - split; cbn [db futures currently_running_sms hooks channel state with_futures with_running with_channel].
    + done.
    + rewrite fmap_app. apply NoDup_app. split; [done|]. split; [|apply NoDup_singleton].
      intros t Ht ->%list_elem_of_singleton. by apply I3 in Ht.
    + intros t. rewrite fmap_app, elem_of_app, elem_of_union, elem_of_singleton, I3. simpl. rewrite list_elem_of_singleton. tauto.
    + intros t Ht. apply I4, Hsub. by right.
    + apply Forall_app. split; [done|]. by apply Forall_singleton.
    + intros _ t Ht Hk. destruct (I6 Hr t Ht Hk) as [[->|?]%Hsub|(fu & Hfu & ?)]; [|by left|].
      * right. exists (Lookup s). split; [apply elem_of_app; right; by apply list_elem_of_singleton|done].
      * right. exists fu. split; [apply elem_of_app; by left|done].
    + done.
Qed.

Lemma inv_lookup now l1 s l2 e e' :
  executor_inv e -> state e = Running -> futures e = l1 ++ Lookup s :: l2 -> poll now None (Lookup s) (l1 ++ l2) e = Some e' -> executor_inv e'.
Proof using.
  intros I Hr Hf Hp. destruct (futures_rest _ _ _ _ I Hf) as [Hok Hrest]. pose proof (ei_machines _ I) as M. simpl in Hok, Hp.
  destruct (get_active_state s (db e)) as [c|] eqn:Hget; unfold get_active_state in Hget; case_decide as Hk; try done.
  - destruct (get_transition_for now s (db e)) as [[l| |] d] eqn:Hg; try done.
    apply get_transition_for_Ok in Hg as (_ & -> & H1 & H2). destruct (transitions s) as [|f0 l0] eqn:Ht; injection Hp as <-.
    + destruct (H2 eq_refl) as [Ha Hi]. assert (Hs : s ∈ dom (active (db e))) by (apply elem_of_dom; by exists c).
      destruct (machines_deactivate _ _ _ M Hs Ha Hi) as [M' Hseen].
      apply (replace_future e d l1 (Lookup s) l2 (Ready (Invalid s)) I Hr Hf eq_refl M').
      * left. rewrite Hi. set_solver.
      * apply Forall_forall. intros fu Hin. pose proof (other_states _ _ _ _ _ I Hf Hin) as Hne. simpl in Hne.
        apply (future_ok_mono (db e)); [by apply (proj1 (Forall_forall _ _) Hrest)| |rewrite Hi; set_solver|intros t; apply Hseen].
        intros c' Hc'. rewrite Ha, lookup_delete_ne; [done|]. congruence.
      * intros t. apply Hseen.
      * intros t Htt _. left. rewrite Ha, dom_delete_L in Htt. simpl. split; [set_solver|]. intros [= ->]. set_solver.
    + rewrite (H1 ltac:(done)). apply (replace_future e (db e) l1 (Lookup s) l2 (Select s c (f0 :: l0)) I Hr Hf eq_refl M); [simpl; rewrite Ht; done|done|done|].
      intros t Htt _. destruct (decide (t = s)) as [->|]; [by right|]. left. simpl. split; [done|congruence].
  - injection Hp as <-. rewrite seen_spec in Hok.
    apply (inv_perm (with_futures (Ready (Invalid s) :: l1 ++ l2) (with_db (db e) e))); [|done].
    apply (replace_future e (db e) l1 (Lookup s) l2 (Ready (Invalid s)) I Hr Hf eq_refl M); [|done|done|].
    + left. destruct Hok as [Hok%elem_of_dom|]; [|done]. by rewrite Hget in Hok; destruct Hok.
    + intros t Htt _. left. simpl. split; [done|]. intros [= ->]. apply elem_of_dom in Htt as [? ?]. congruence.
  - injection Hp as <-.
    apply (inv_perm (with_futures (Ready (Invalid s) :: l1 ++ l2) (with_db (db e) e))); [|done].
    apply (replace_future e (db e) l1 (Lookup s) l2 (Ready (Invalid s)) I Hr Hf eq_refl M); [by right|done|done|].
    intros t Htt Hkt. left. simpl. split; [done|]. by intros [= ->].
Qed.

Lemma inv_trigger now i v l1 s c l f l2 e e' :
  executor_inv e -> state e = Running -> futures e = l1 ++ Select s c l :: l2 -> l !! i = Some f ->
  poll now (Some (i, v)) (Select s c l) (l1 ++ l2) e = Some e' -> executor_inv e'.
Proof using.
  intros I Hr Hf Hl Hp. destruct (futures_rest _ _ _ _ I Hf) as [(Ha & Hk & Hlt & _) Hrest]. simpl in Hp. rewrite Hl in Hp. injection Hp as <-.
  apply (inv_perm (with_futures (Ready (Triggered s c f v) :: l1 ++ l2) (with_db (db e) e))); [|done].
  apply (replace_future e (db e) l1 (Select s c l) l2 (Ready (Triggered s c f v)) I Hr Hf eq_refl (ei_machines _ I)); [|done|done|].
  - split; [done|]. split; [done|]. rewrite <- Hlt. by apply list_elem_of_lookup_2 in Hl.
  - intros t Ht _. destruct (decide (t = s)) as [->|]; [by right|]. left. simpl. split; [done|congruence].
Qed.

(** The machine moves to its next state. *)
Lemma inv_move now l1 s c f v l2 e new d :
  executor_inv e -> state e = Running -> futures e = l1 ++ Transition s c f v :: l2 -> origin new = origin s -> (rank new < rank s)%nat ->
  (if is_terminal new
   then active d = delete s (active (db e)) /\ dom (inactive d) = {[new]} ∪ ({[s]} ∪ dom (inactive (db e)))
   else active d = <[new := now]> (delete s (active (db e))) /\ dom (inactive d) = {[s]} ∪ dom (inactive (db e))) ->
  executor_inv (with_futures (Notify s (if is_terminal new then Inactive new else Active new) :: l1 ++ l2) (with_db d e)).
Proof using.
  intros I Hr Hf Ho Hrk Hx. destruct (futures_rest _ _ _ _ I Hf) as [(Ha & Hk & Hlt) Hrest].
  assert (Hs : s ∈ dom (active (db e))) by (apply elem_of_dom; by exists c).
  pose proof (ei_machines _ I) as M. pose proof (next_state_new _ _ _ M Hs Ho Hrk) as Hnew. rewrite seen_spec in Hnew.
  destruct (machines_transition _ _ _ _ _ _ M Hs Ho Hrk Hx) as [M' Hseen].
  assert (Hsub : dom (inactive (db e)) ⊆ dom (inactive d)) by (destruct (is_terminal new), Hx as [_ ->]; set_solver).
  apply (replace_future e d l1 (Transition s c f v) l2 (Notify s (if is_terminal new then Inactive new else Active new)) I Hr Hf eq_refl M').
  - assert (s ∈ dom (inactive d)) by (destruct (is_terminal new), Hx as [_ ->]; set_solver).
    destruct (is_terminal new); simpl; [done|]. split; [done|]. apply Hseen. by left.
  - apply Forall_forall. intros fu Hin. pose proof (other_states _ _ _ _ _ I Hf Hin) as Hne. simpl in Hne.
    apply (future_ok_mono (db e)); [by apply (proj1 (Forall_forall _ _) Hrest)| |done|intros t Hst; apply Hseen; by right].
    intros c' Hc'. destruct (is_terminal new), Hx as [-> _]; [rewrite lookup_delete_ne; congruence|].
    rewrite lookup_insert_ne, lookup_delete_ne; [done|congruence|]. intros ->. apply Hnew. left. apply elem_of_dom. by exists c'.
  - intros t Ht. apply Hseen. by right.
  - intros t Ht _. simpl. destruct (is_terminal new), Hx as [Hx _]; rewrite Hx in Ht.
    + left. rewrite dom_delete_L in Ht. split; [set_solver|]. intros [= ->]. set_solver.
    + rewrite dom_insert_L, dom_delete_L in Ht. destruct (decide (t = new)) as [->|]; [by right|]. left. split; [set_solver|]. intros [= ->]. set_solver.
Qed.

Lemma inv_commit now l1 s c f v l2 e e' :
  executor_inv e -> state e = Running -> futures e = l1 ++ Transition s c f v :: l2 ->
  (forall new added x', f (data (db e)) v s = Some (new, added, x') -> new_machines added (db e)) ->
  poll now None (Transition s c f v) (l1 ++ l2) e = Some e' -> executor_inv e'.
Proof using.
  intros I Hr Hf Hnew Hp. destruct (futures_rest _ _ _ _ I Hf) as [(Ha & Hk & Hlt) Hrest]. simpl in Hp.
  destruct (execute_transition now s c f v (db e)) as [[[o added]| |] d] eqn:Hx; try done. injection Hp as <-.
  apply execute_transition_Ok in Hx as (new & added' & x' & d1 & Hfx & Hadd & Hx).
  pose proof (transition_origin _ _ _ _ _ _ _ Hlt Hfx) as Ho. pose proof (transition_rank _ _ _ _ _ _ _ Hlt Hfx) as Hrk.
  pose proof (inv_add now added' (with_db (with_data x' (db e)) e) d1 (inv_data x' _ I)) as I1. simpl in I1. rewrite Hr in I1.
  specialize (I1 Hadd (Hnew _ _ _ Hfx)).
  assert (Hoo : o = (if is_terminal new then Inactive new else Active new) /\ added = added') by (destruct (is_terminal new); by destruct Hx as [[= -> ->] _]).
  destruct Hoo as [-> ->].
  apply (inv_move now l1 s c f v l2 _ new d I1 Hr Hf Ho Hrk). destruct (is_terminal new); apply Hx.
Qed.

Lemma inv_notify now l1 s o l2 e e' :
  executor_inv e -> state e = Running -> futures e = l1 ++ Notify s o :: l2 ->
  poll now None (Notify s o) (l1 ++ l2) e = Some e' -> executor_inv e'.
Proof using.
  intros I Hr Hf Hp. destruct (futures_rest _ _ _ _ I Hf) as [Hok Hrest].
  assert (Hrep : forall new, o = Active new -> executor_inv (with_futures (Ready (Completed s o) :: l1 ++ l2) (with_channel (channel e ++ [new]) (with_db (db e) e)))).
  { intros new ->. destruct Hok as [Hok Hsn].
    assert (I' : executor_inv (with_channel (channel e ++ [new]) e)).
    { destruct I as [I1 I2 I3 I4 I5 I6 I7]. split; simpl; try done.
      - intros t. rewrite app_assoc, elem_of_app, list_elem_of_singleton. intros [?| ->]; [by apply I4|done].
      - intros Hrun t Ht Hk. destruct (I6 Hrun t Ht Hk) as [?|?]; [|by right]. left. rewrite app_assoc. apply elem_of_app. by left. }
    pose proof I' as [I1 I2 I3 I4 I5 I6 I7]. simpl in *.
    assert (Hperm : future_state <$> Ready (Completed s (Active new)) :: l1 ++ l2 ≡ₚ future_state <$> futures e).
    { rewrite Hf. cbn [fmap list_fmap future_state]. rewrite !fmap_app, fmap_cons. simpl. by rewrite <- Permutation_middle. }
    split; cbn [db futures currently_running_sms hooks channel state with_futures with_channel with_db]; [done|by rewrite Hperm|intros t; by rewrite Hperm|done|by constructor| |done].
    intros Hrun t Ht Hk. destruct (I6 Hrun t Ht Hk) as [?|(fu & Hin & Hc)]; [by left|].
    rewrite Hf in Hin. apply elem_of_app in Hin as [?|[->|?]%elem_of_cons].
    - right. exists fu. split; [right; apply elem_of_app; by left|done].
    - left. simpl in Hc. injection Hc as ->. rewrite app_assoc. apply elem_of_app. right. by apply list_elem_of_singleton.
    - right. exists fu. split; [right; apply elem_of_app; by right|done]. }
  assert (Hnot : forall x e0, executor_inv e0 -> executor_inv (notify x e0)) by (intros x e0 [J1 J2 J3 J4 J5 J6 J7]; by split).
  destruct o as [new|new]; simpl in Hp; injection Hp as <-; apply Hnot.
  - exact (Hrep new eq_refl).
  - apply (inv_perm (with_futures (Ready (Completed s (Inactive new)) :: l1 ++ l2) (with_db (db e) e))); [|done].
    apply (replace_future e (db e) l1 (Notify s (Inactive new)) l2 (Ready (Completed s (Inactive new))) I Hr Hf eq_refl (ei_machines _ I)); [done|done|done|].
    intros t Ht _. by left.
Qed.

Lemma inv_ready now l1 ev l2 e e' :
  executor_inv e -> state e = Running -> futures e = l1 ++ Ready ev :: l2 ->
  poll now None (Ready ev) (l1 ++ l2) e = Some e' -> executor_inv e'.
Proof using.
  intros I Hr Hf Hp. destruct (futures_rest _ _ _ _ I Hf) as [Hok Hrest].
  assert (Hdone : cares_for (Ready ev) = None -> executor_inv (with_running (currently_running_sms e ∖ {[future_state (Ready ev)]}) (with_futures (l1 ++ l2) e))).
  { intros Hnone. pose proof (fun fu0 => other_states _ _ _ _ fu0 I Hf) as Hother. destruct I as [I1 I2 I3 I4 I5 I6 I7].
    split; simpl; try done.
    - rewrite Hf, fmap_app, fmap_cons in I2. rewrite fmap_app. apply NoDup_app in I2 as (N1 & N2 & [N3 N4]%NoDup_cons).
      apply NoDup_app. split; [done|]. split; [|done]. intros t Ht Ht'. apply (N2 t Ht). by right.
    - intros t. rewrite elem_of_difference, elem_of_singleton, I3, Hf, !fmap_app, fmap_cons, !elem_of_app, elem_of_cons. split.
      + tauto.
      + intros Ht. split; [tauto|]. rewrite <- elem_of_app, <- fmap_app in Ht. apply list_elem_of_fmap in Ht as (fu0 & -> & Hin). by apply Hother.
    - intros _ t Ht Hk. destruct (I6 Hr t Ht Hk) as [?|(fu & Hin & Hc)]; [by left|]. right. exists fu. split; [|done].
      rewrite Hf in Hin. apply elem_of_app in Hin as [?|[->|?]%elem_of_cons]; [apply elem_of_app; by left|congruence|apply elem_of_app; by right]. }
  destruct ev as [s|s c f v|s|s o]; simpl in Hp.
  - done.
  - injection Hp as <-.
    apply (inv_perm (with_futures (Transition s c f v :: l1 ++ l2) (with_db (db e) e))); [|simpl; by rewrite Permutation_app_comm].
    apply (replace_future e (db e) l1 (Ready (Triggered s c f v)) l2 (Transition s c f v) I Hr Hf eq_refl (ei_machines _ I)); [done|done|done|].
    intros t Ht _. destruct (decide (t = s)) as [->|]; [by right|]. left. simpl. split; [done|congruence].
  - case_decide; [|done]. injection Hp as <-. by apply Hdone.
  - case_decide; [|done]. injection Hp as <-. by apply Hdone.
Qed.

Lemma inv_progress e o e' : executor_inv e -> progress e o e' -> executor_inv e'.
Proof using.
  intros I Hp. destruct Hp; [by eapply inv_hook|by eapply inv_recv|by eapply inv_lookup|by eapply inv_trigger|by eapply inv_commit|by eapply inv_notify|by eapply inv_ready].
Qed.

(** *** Steps of the client *)

Lemma inv_restarted d : machines_ok d -> executor_inv (restarted d).
Proof using.
  intros M. split; simpl; [done|constructor| |intros s Hs; by apply not_elem_of_nil in Hs|constructor|done|done].
  intros s. rewrite elem_of_nil. set_solver.
Qed.

Lemma inv_step e o e' : executor_inv e -> step e o e' -> executor_inv e'.
Proof using.
  intros I Hs. destruct Hs as [e o e' Hp|now states e d Hadd Hnew|x e|e e' Hst|e st Hst|e].
  - by eapply inv_progress.
  - by eapply inv_add.
  - by apply inv_data.
  - destruct I as [I1 I2 I3 I4 I5 I6 I7]. unfold start_executor, start in Hst. destruct (state e) eqn:He; try done. injection Hst as <-. split; simpl; try done.
    + intros s. rewrite app_assoc, elem_of_app. intros [?|Hin]; [by apply I4|]. apply list_elem_of_fmap in Hin as ([t c] & -> & Hin).
      apply list_elem_of_filter in Hin as [_ Hin%elem_of_map_to_list]. apply seen_spec. left. apply elem_of_dom. by exists c.
    + intros _ s Hs Hk. left. rewrite !elem_of_app. right. right. apply elem_of_dom in Hs as [c Hs]. apply list_elem_of_fmap. exists (s, c). split; [done|].
      apply list_elem_of_filter. split; [done|]. by apply elem_of_map_to_list.
  - destruct I as [I1 I2 I3 I4 I5 I6 I7]. unfold stop in Hst. destruct (state e) eqn:He; try done. injection Hst as <-.
    split; simpl; [done|constructor| |done|constructor|done|done]. intros s. rewrite elem_of_nil. set_solver.
  - apply inv_restarted, (ei_machines _ I).
Qed.

Lemma execution_inv x exits e : execution x exits e -> executor_inv e.
Proof using.
  induction 1 as [|exits e o e' He IH Hs]; [|by eapply inv_step]. apply inv_restarted. split; simpl; set_solver.
Qed.

(** ** Every transition is committed once *)

(** The rows a step can touch. *)
Lemma progress_db e o e' :
  executor_inv e -> progress e o e' ->
  dom (inactive (db e)) ⊆ dom (inactive (db e')) /\
  (forall s, o = Some s -> s ∈ dom (active (db e)) /\ s ∈ dom (inactive (db e'))).
Proof using.
  intros I Hp. destruct Hp as [l1 s l2 e Hh|s ch e e' Hr Hc Hev|now l1 s l2 e e' Hr Hf Hp|now i v l1 s c l f l2 e e' Hr Hf Hl Hp|now l1 s c f v l2 e e' Hr Hf Hna Hp|now l1 s o l2 e e' Hr Hf Hp|now l1 ev l2 e e' Hr Hf Hp].
  - done.
  - simpl in Hev. case_decide; injection Hev as <-; done.
  - split; [|done]. simpl in Hp. destruct (get_active_state s (db e)); [|by injection Hp as <-].
    destruct (get_transition_for now s (db e)) as [[l| |] d] eqn:Hg; try done. apply get_transition_for_Ok in Hg as (_ & -> & H1 & H2).
    destruct (transitions s); injection Hp as <-; simpl; [destruct (H2 eq_refl) as [_ ->]; set_solver|by rewrite H1].
  - simpl in Hp. rewrite Hl in Hp. injection Hp as <-. done.
  - destruct (futures_rest _ _ _ _ I Hf) as [(Ha & _) _]. simpl in Hp.
    destruct (execute_transition now s c f v (db e)) as [[[o added]| |] d] eqn:Hx; try done. injection Hp as <-. simpl.
    apply execute_transition_Ok in Hx as (new & added' & x' & d1 & Hfx & Hadd & Hx).
    assert (Hi : inactive d1 = inactive (db e)).
    { unfold add_state_machines_dbtx in Hadd. apply bind_Ok in Hadd as ([] & d2 & Hadd & [_ ->]%ret_Ok).
      apply (add_all true now added' (with_data x' (db e)) d2); [apply (ei_machines _ (inv_data x' _ I))|by apply (Hna _ _ _ Hfx)|done]. }
    rewrite Hi in Hx. split.
    + destruct (is_terminal new), Hx as (_ & _ & ->); set_solver.
    + intros s' [= <-]. split; [apply elem_of_dom; by exists c|]. destruct (is_terminal new), Hx as (_ & _ & ->); set_solver.
  - destruct o; simpl in Hp; injection Hp as <-; done.
  - destruct ev; simpl in Hp; try (case_decide; [|done]); try (injection Hp as <-; done).
    case_decide; injection Hp as <-; done.
Qed.

Lemma step_db e o e' :
  executor_inv e -> step e o e' ->
  dom (inactive (db e)) ⊆ dom (inactive (db e')) /\
  (forall s, o = Some s -> s ∈ dom (active (db e)) /\ s ∈ dom (inactive (db e'))).
Proof using.
  intros I Hs. destruct Hs as [e o e' Hp|now states e d Hadd Hnew|x e|e e' Hst|e st Hst|e]; try done.
  - by apply progress_db.
  - unfold add_state_machines_dbtx in Hadd. apply bind_Ok in Hadd as ([] & d1 & Hadd & [_ ->]%ret_Ok).
    destruct (add_all _ _ _ _ _ (ei_machines _ I) Hnew Hadd) as (_ & _ & Hi & _). simpl. by rewrite Hi.
  - unfold start_executor in Hst. destruct (start (state e)) as [[] st]; [|done]. by injection Hst as <-.
Qed.


(** ** No machine is lost and the loop never panics *)

(** Machines that can be added: new ones of valid modules that are not at
    their end. *)
Definition addable (states : list St) (d : SmDb) : Prop :=
  new_machines states d /\ Forall (fun s => module_instance_id s ∈ valid_module_ids /\ (known s -> is_terminal s = false)) states.

(** The transition function does not panic and what it adds can be added. *)
Definition runs_through (f : StateTransitionFunction St D V) (v : V) (s : St) (d : SmDb) : Prop :=
  exists new added x', f (data d) v s = Some (new, added, x') /\ addable added d.

Lemma add_state_machine_run running now s d :
  ~ seen d s -> module_instance_id s ∈ valid_module_ids -> (known s -> is_terminal s = false) ->
  exists d', add_state_machine running now s d = (Ok tt, d') /\ forall s', seen d' s' <-> s' = s \/ seen d s'.
Proof using.
  intros Hn Hv Ht. rewrite seen_spec, !elem_of_dom in Hn.
  assert (Ha : active d !! s = None) by (apply eq_None_not_Some; tauto). assert (Hi : inactive d !! s = None) by (apply eq_None_not_Some; tauto).
  assert (Hok : negb (bool_decide (known s) && running && is_terminal s) = true).
  { case_bool_decide as Hk; [|done]. rewrite (Ht Hk), andb_false_r. done. }
  unfold add_state_machine.
  rewrite (run_bind _ _ d tt d) by (apply ensure_Ok; split; [by apply bool_decide_eq_true|done]).
  rewrite (run_bind _ _ d None d) by (unfold get_value; simpl; by rewrite Ha).
  rewrite (run_bind _ _ d None d) by (unfold get_value; simpl; by rewrite Hi).
  rewrite (run_bind _ _ d tt d) by (by apply ensure_Ok).
  rewrite (run_bind _ _ d tt d) by (apply ensure_Ok; by split).
  rewrite (run_bind _ _ d tt (upd ActiveStateKeyDb (<[s := now]>) d)) by (by apply insert_new_entry_fresh).
  eexists. split; [reflexivity|]. intros s'. rewrite !seen_spec. simpl. rewrite dom_insert_L. set_solver.
Qed.

Lemma add_state_machines_run now added d :
  addable added d -> exists d', add_state_machines_dbtx true now added d = (Ok added, d').
Proof using.
  intros [[Hnd Ho] Hf]. unfold add_state_machines_dbtx.
  assert (exists d', for_each added (add_state_machine true now) d = (Ok tt, d')) as [d' Hd'].
  { revert d Ho. induction added as [|s added IH]; intros d Ho; [by exists d|].
    rewrite fmap_cons in Hnd. apply NoDup_cons in Hnd as [Hni Hnd]. apply Forall_cons in Hf as [[Hv Ht] Hf].
    destruct (add_state_machine_run true now s d) as (d1 & Hd1 & Hseen); [|done|done|].
    - intros Hs. apply (Ho s s); [by left|done|done].
    - destruct (IH Hnd Hf d1) as [d' Hd'].
      + intros t t' Ht1 Ht'. apply Hseen in Ht' as [->|Ht']; [|apply Ho; [by right|done]].
        intros Heq. apply Hni. rewrite Heq. by apply list_elem_of_fmap_2.
      + exists d'. cbn [for_each]. by rewrite (run_bind _ _ d tt d1). }
  exists d'. by rewrite (run_bind _ _ d tt d').
Qed.

Lemma execute_transition_run now s c f v d : known s -> runs_through f v s d -> exists o d', execute_transition now s c f v d = (Ok o, d').
Proof using.
  intros Hk (new & added & x' & Hf & Hadd). unfold execute_transition. rewrite (run_bind _ _ d (data d) d) by done.
  rewrite (run_bind _ _ d (new, added, x') d) by (by apply expect_Ok).
  rewrite (run_bind _ _ d tt (with_data x' d)) by done.
  destruct (add_state_machines_run now added (with_data x' d) Hadd) as [d1 Hd1]. rewrite (run_bind _ _ _ _ _ Hd1).
  unfold rassert. rewrite bool_decide_eq_true_2 by done. destruct (is_terminal new); eexists _, _; reflexivity.
Qed.

Lemma poll_total now trigger e l1 fu l2 :
  executor_inv e -> futures e = l1 ++ fu :: l2 -> (forall s c f v, fu = Transition s c f v -> runs_through f v s (db e)) ->
  is_Some (poll now trigger fu (l1 ++ l2) e).
Proof using.
  intros I Hf Hthrough. destruct (futures_rest _ _ _ _ I Hf) as [Hok _].
  assert (Hrun : future_state fu ∈ currently_running_sms e).
  { apply (ei_running _ I). rewrite Hf, fmap_app, fmap_cons. apply elem_of_app. right. by left. }
  destruct fu as [s|s c l|s c f v|s [new|new]|[s|s c f v|s|s o]]; simpl in *; try done; try by eexists.
  - unfold get_active_state. case_decide as Hk; [|by eexists]. destruct (active (db e) !! s); [|by eexists].
    unfold get_transition_for. rewrite (run_bind _ _ (db e) tt (db e)) by (apply rassert_Ok; split; [by apply bool_decide_eq_true|done]).
    destruct (transitions s); by eexists.
  - destruct trigger as [[i v]|]; [|by eexists]. destruct (l !! i); by eexists.
  - destruct Hok as (_ & Hk & _). destruct (execute_transition_run now s c f v (db e) Hk (Hthrough _ _ _ _ eq_refl)) as ([o added] & d & ->). by eexists.
  - rewrite decide_True by done. by eexists.
  - rewrite decide_True by done. by eexists.
Qed.


(** ** Machines run to their end *)

(** Every machine has a bounded amount of work, with that of the machines it
    starts. *)
Class Bounded := {
  weight : St -> nat;
  transition_weight s f x v new added x' : f ∈ transitions s -> f x v s = Some (new, added, x') ->
    (weight new + sum_list_with (fun t => weight t + 2) added < weight s)%nat;
}.
Context {bounded : Bounded}.

Definition future_weight (fu : future) : Z :=
  match fu with
  | Lookup _ => 5
  | Select _ _ _ => 4
  | Ready (Triggered _ _ _ _) => 3
  | Transition _ _ _ _ => 2
  | Notify _ _ => 8
  | Ready _ => 1
  end.

(** What is left to do. *)
Definition work (e : Executor) : Z :=
  sum_map (fun s _ => 7 * (Z.of_nat (weight s) + 1)) (active (db e)) + 7 * Z.of_nat (length (hooks e)) +
  6 * Z.of_nat (length (channel e)) + sum_list (future_weight <$> futures e).

Lemma work_nonneg e : 0 <= work e.
Proof using.
  assert (0 <= sum_map (fun s _ => 7 * (Z.of_nat (weight s) + 1)) (active (db e))) by (apply sum_map_nonneg; intros; lia).
  assert (0 <= sum_list (future_weight <$> futures e)).
  { induction (futures e) as [|fu l IH]; [done|]. rewrite fmap_cons. simpl. assert (0 <= future_weight fu) by (destruct fu as [| | | |[]]; simpl; lia). lia. }
  unfold work. lia.
Qed.

Lemma weights_split (l1 : list future) fu l2 :
  sum_list (future_weight <$> l1 ++ fu :: l2) = future_weight fu + sum_list (future_weight <$> l1 ++ l2).
Proof using. rewrite !fmap_app, fmap_cons, !sum_list_app. simpl. lia. Qed.

Lemma weights_cons fu (l : list future) : sum_list (future_weight <$> fu :: l) = future_weight fu + sum_list (future_weight <$> l).
Proof using. done. Qed.
Lemma weights_nil : sum_list (future_weight <$> []) = 0.
Proof using. done. Qed.

Local Ltac fields := cbn [run_hook notify with_channel with_hooks with_db with_futures with_running db hooks channel futures state length future_weight]; rewrite ?weights_cons, ?weights_nil; cbn [future_weight].

Lemma add_work running now states d d' :
  for_each states (add_state_machine running now) d = (Ok tt, d') ->
  sum_map (fun s _ => 7 * (Z.of_nat (weight s) + 1)) (active d') =
  sum_map (fun s _ => 7 * (Z.of_nat (weight s) + 1)) (active d) + sum_list ((fun s => 7 * (Z.of_nat (weight s) + 1)) <$> states).
Proof using.
  revert d. induction states as [|s states IH]; intros d H1; cbn [for_each] in H1.
  - apply ret_Ok in H1 as [_ ->]. simpl. lia.
  - apply bind_Ok in H1 as ([] & d1 & Hs & H1). apply add_state_machine_Ok in Hs as (Hn & Ha & _). rewrite seen_spec, elem_of_dom in Hn.
    rewrite (IH d1 H1), Ha, sum_map_insert by (apply eq_None_not_Some; tauto). rewrite fmap_cons, sum_list_cons. lia.
Qed.

Lemma added_work (states : list St) :
  sum_list ((fun s => 7 * (Z.of_nat (weight s) + 1)) <$> states) + 7 * Z.of_nat (length states) =
  7 * Z.of_nat (sum_list_with (fun t => weight t + 2)%nat states).
Proof using. induction states as [|s states IH]; [done|]. rewrite fmap_cons, sum_list_cons. cbn [sum_list_with length]. lia. Qed.

Lemma progress_work e o e' : executor_inv e -> progress e o e' -> work e' < work e.
Proof using.
  intros I Hp. destruct Hp as [l1 s l2 e Hh|s ch e e' Hr Hc Hev|now l1 s l2 e e' Hr Hf Hp|now i v l1 s c l f l2 e e' Hr Hf Hl Hp|now l1 s c f v l2 e e' Hr Hf Hna Hp|now l1 s o l2 e e' Hr Hf Hp|now l1 ev l2 e e' Hr Hf Hp]; unfold work.
  - fields. rewrite Hh, !length_app. fields. lia.
  - simpl in Hev. rewrite Hc. case_decide; injection Hev as <-; fields; [lia|].
    rewrite fmap_app, sum_list_app. fields. lia.
  - simpl in Hp. rewrite Hf, weights_split. destruct (get_active_state s (db e)) as [c|] eqn:Hg; [|injection Hp as <-; fields; lia].
    destruct (get_transition_for now s (db e)) as [[l| |] d] eqn:Ht; try done. apply get_transition_for_Ok in Ht as (_ & -> & H1 & H2).
    destruct (transitions s); injection Hp as <-; fields.
    + destruct (H2 eq_refl) as [-> _]. unfold get_active_state in Hg. case_decide; [|done]. rewrite (sum_map_delete _ _ _ _ Hg). lia.
    + rewrite (H1 ltac:(done)). lia.
  - simpl in Hp. rewrite Hl in Hp. injection Hp as <-. rewrite Hf, weights_split. fields. lia.
  - destruct (futures_rest _ _ _ _ I Hf) as [(Ha & _ & Hin) _]. simpl in Hp. rewrite Hf, weights_split.
    destruct (execute_transition now s c f v (db e)) as [[[o added]| |] d] eqn:Hx; try done. injection Hp as <-.
    apply execute_transition_Ok in Hx as (new & added' & x' & d1 & Hfx & Hadd & Hx). pose proof (transition_rank _ _ _ _ _ _ _ Hin Hfx) as Hrk. pose proof (transition_weight _ _ _ _ _ _ _ Hin Hfx) as Hwt.
    pose proof (transition_origin _ _ _ _ _ _ _ Hin Hfx) as Ho. unfold add_state_machines_dbtx in Hadd. apply bind_Ok in Hadd as ([] & d2 & Hadd & [_ ->]%ret_Ok).
    pose proof (ei_machines _ (inv_data x' _ I)) as M. simpl in M. pose proof (Hna _ _ _ Hfx) as Hnm.
    destruct (add_all _ _ _ _ _ M Hnm Hadd) as (M1 & _ & _ & Hmono & _). pose proof (add_work _ _ _ _ _ Hadd) as Hw. simpl in Hw, Hmono.
    assert (Ha1 : active d2 !! s = Some c) by (by apply Hmono).
    pose proof (next_state_new _ s new M1 ltac:(apply elem_of_dom; by exists c) Ho ltac:(lia)) as Hnew. rewrite seen_spec, !elem_of_dom in Hnew.
    fields. rewrite length_app, Nat2Z.inj_add.
    destruct (is_terminal new), Hx as ([= -> ->] & -> & _).
    + rewrite (sum_map_delete _ _ _ _ Ha1), Hw. pose proof (added_work added'). fields. lia.
    + rewrite sum_map_insert, (sum_map_delete _ _ _ _ Ha1), Hw; [pose proof (added_work added'); fields; lia|].
      rewrite lookup_delete_None. right. apply eq_None_not_Some. tauto.
  - rewrite Hf, weights_split. destruct o; simpl in Hp; injection Hp as <-; fields; rewrite ?length_app; fields; lia.
  - destruct (futures_rest _ _ _ _ I Hf) as [Hok _]. rewrite Hf, weights_split.
    destruct ev as [s|s c f v|s|s o]; simpl in Hp, Hok; try done; try (case_decide; [|done]); injection Hp as <-; fields; rewrite ?fmap_app, ?sum_list_app; fields; lia.
Qed.

Lemma progress_terminates e : executor_inv e -> Acc (fun e' e => exists o, progress e o e') e.
Proof using bounded.
  remember (Z.to_nat (work e)) as n eqn:Hn. revert e Hn. induction n as [n IH] using lt_wf_ind. intros e -> I. constructor.
  intros e' (o & Hp). pose proof (progress_work _ _ _ I Hp). pose proof (work_nonneg e'). eapply IH; [|reflexivity|by eapply inv_progress]. lia.
Qed.

End executor.

Arguments Executor St D V {_ _}.
Arguments SmDb St D {_ _}.

(** ** Examples *)
Module ExecutorExample.

(** A machine that counts down to zero, and splits in two at five. *)
Definition dec (n : nat) : StateTransitionFunction (Z * nat) Z Z := fun d v s => Some ((s.1, n), [], d + v).
Definition split_up : StateTransitionFunction (Z * nat) Z Z := fun d v s => Some ((s.1, 1%nat), [(s.1 + 100, 1%nat)], d + v).

#[export] Instance countdown : State (Z * nat) Z Z := {
  module_instance_id _ := 1;
  operation_id s := s.1;
  transitions s := match s.2 with O => [] | S n => [if decide (n = 4%nat) then split_up else dec n] end;
}.
#[export] Instance countdown_origin : Origin (St := Z * nat) := fst.

Lemma countdown_transition s f x v new added x' :
  f ∈ transitions s -> f x v s = Some (new, added, x') ->
  new.1 = s.1 /\ (new.2 + sum_list_with (fun t => t.2 + 2) added < s.2)%nat.
Proof.
  destruct s as [i [|n]]; simpl; intros Hf Hx; [by apply not_elem_of_nil in Hf|]. apply list_elem_of_singleton in Hf as ->.
  case_decide as Hn; [subst n|]; injection Hx as <- <- <-; simpl; split; done || lia.
Qed.

#[export] Program Instance countdown_bounded : Bounded (St := Z * nat) (D := Z) (V := Z) := {| weight := snd |}.
Next Obligation. intros s f x v new added x' Hf Hx. by destruct (countdown_transition _ _ _ _ _ _ _ Hf Hx). Qed.

#[export] Program Instance countdown_progressing : Progressing (St := Z * nat) (D := Z) (V := Z) := {| rank := snd |}.
Next Obligation. done. Qed.
Next Obligation. intros s f x v new added x' Hf Hx. by destruct (countdown_transition _ _ _ _ _ _ _ Hf Hx). Qed.
Next Obligation. intros s f x v new added x' Hf Hx. destruct (countdown_transition _ _ _ _ _ _ _ Hf Hx). lia. Qed.

Abbreviation ctx := ({[1]} : gset Z).
Definition st5 : Z * nat := (7, 5%nat).
Definition st1 : Z * nat := (7, 1%nat).
Definition child : Z * nat := (107, 1%nat).

Definition d0 : SmDb (Z * nat) Z := {| active := ∅; inactive := ∅; events := []; data := 0 |}.
Definition event (op : Z) (started : bool) : StateMachineUpdated := {| upd_operation_id := op; upd_started := started; upd_terminal := false; upd_module_id := 1 |}.
Definition d1 : SmDb (Z * nat) Z := {| active := {[st5 := 10]}; inactive := ∅; events := [event 7 true]; data := 0 |}.

Definition at_state (d : SmDb (Z * nat) Z) (hs ch : list (Z * nat)) (run : gset (Z * nat)) (fs : list (future (St := Z * nat) (D := Z) (V := Z))) (b : list (Z * nat)) : Executor (Z * nat) Z Z :=
  {| db := d; state := Running; hooks := hs; channel := ch; currently_running_sms := run; futures := fs; broadcast := b |}.
Definition e1 : Executor (Z * nat) Z Z := at_state d0 [] [] ∅ [] [].
Definition e2 : Executor (Z * nat) Z Z := at_state d1 [st5] [] ∅ [] [].
Definition e3 : Executor (Z * nat) Z Z := at_state d1 [] [st5] ∅ [] [st5].
Definition e4 : Executor (Z * nat) Z Z := at_state d1 [] [] ({[st5]} ∪ ∅) [Lookup st5] [st5].
Definition e5 : Executor (Z * nat) Z Z := at_state d1 [] [] ({[st5]} ∪ ∅) [Select st5 10 [split_up]] [st5].
Definition e6 : Executor (Z * nat) Z Z := at_state d1 [] [] ({[st5]} ∪ ∅) [Ready (Triggered st5 10 split_up 5)] [st5].
Definition e7 : Executor (Z * nat) Z Z := at_state d1 [] [] ({[st5]} ∪ ∅) [Transition st5 10 split_up 5] [st5].
Definition d2 : SmDb (Z * nat) Z :=
  {| active := {[st1 := 12; child := 12]}; inactive := {[st5 := {| in_created_at := 10; in_exited_at := 12 |}]}; events := [event 7 true; event 107 true; event 7 false]; data := 5 |}.
Definition e8 : Executor (Z * nat) Z Z := at_state d2 [child] [] ({[st5]} ∪ ∅) [Notify st5 (Active st1)] [st5].

Abbreviation runs := (execution (St := Z * nat) (D := Z) (V := Z) ctx ctx 0).

Lemma execution_5 : runs [] e5.
Proof.
  apply (execution_step ctx ctx 0 [] e4 None e5); [|apply step_progress, (step_lookup ctx ctx 11 [] st5 []); reflexivity].
  apply (execution_step ctx ctx 0 [] e3 None e4); [|apply step_progress, (step_recv ctx ctx st5 []); reflexivity].
  apply (execution_step ctx ctx 0 [] e2 None e3); [|apply step_progress, (step_hook ctx ctx [] st5 [] e2); reflexivity].
  apply (execution_step ctx ctx 0 [] e1 None e2).
  - apply (execution_step ctx ctx 0 [] (restarted d0) None e1); [apply execution_start|apply step_start; reflexivity].
  - apply (step_add ctx ctx 10 [st5] e1 d1); [vm_compute; reflexivity|]. split; [apply NoDup_singleton|].
    intros s s' _ [Hs|Hs]%seen_spec; by apply elem_of_dom in Hs as [? ?].
Qed.

Lemma execution_7 : runs [] e7.
Proof.
  apply (execution_step ctx ctx 0 [] e6 None e7); [|apply step_progress, (step_ready ctx ctx 12 [] (Triggered st5 10 split_up 5) []); reflexivity].
  apply (execution_step ctx ctx 0 [] e5 None e6); [apply execution_5|].
  apply step_progress, (step_trigger ctx ctx 12 0 5 [] st5 10 [split_up] split_up []); reflexivity.
Qed.

Lemma child_new : new_machines [child] d1.
Proof.
  split; [apply NoDup_singleton|]. intros s s' ->%list_elem_of_singleton [Hs|Hs]%seen_spec.
  - apply elem_of_dom in Hs as [? Hs]. unfold d1 in Hs. simpl in Hs. apply lookup_singleton_Some in Hs as [<- _]. done.
  - by apply elem_of_dom in Hs as [? ?].
Qed.

Lemma execution_8 : runs [st5] e8.
Proof.
  apply (execution_step ctx ctx 0 [] e7 (Some st5) e8); [apply execution_7|].
  apply step_progress, (step_commit ctx ctx 12 [] st5 10 split_up 5 []); [reflexivity|reflexivity| |vm_compute; reflexivity].
  intros new added x' [= <- <- <-]. apply child_new.
Qed.


Lemma split_up_runs : runs_through ctx ctx split_up 5 st5 d1.
Proof.
  exists st1, [child], 5. split; [reflexivity|]. split; [apply child_new|]. apply Forall_singleton. split; [|done].
  apply elem_of_singleton. reflexivity.
Qed.



(** A machine that goes back to the same state, for example to try again.  The
    loop may receive the state before it handles the completion, and then
    ignores it: the machine is active but nothing drives it any more. *)
#[local] Instance spinning : State unit Z Z := {
  module_instance_id _ := 1;
  operation_id _ := 0;
  transitions _ := [fun d v s => Some (tt, [], d)];
}.
#[local] Instance spinning_origin : Origin (St := unit) := fun _ => 0.

Definition spin : StateTransitionFunction unit Z Z := fun d v s => Some (tt, [], d).
Definition sdb (inact : gmap unit InactiveStateMeta) (ev : list StateMachineUpdated) : SmDb unit Z :=
  {| active := {[tt := 10]}; inactive := inact; events := ev; data := 0 |}.
Definition spun : SmDb unit Z :=
  sdb {[tt := {| in_created_at := 10; in_exited_at := 10 |}]} [ {| upd_operation_id := 0; upd_started := false; upd_terminal := false; upd_module_id := 1 |} ].
Definition sat (d : SmDb unit Z) (ch : list unit) (run : gset unit) (fs : list (future (St := unit) (D := Z) (V := Z))) (b : list unit) : Executor unit Z Z :=
  {| db := d; state := Running; hooks := []; channel := ch; currently_running_sms := run; futures := fs; broadcast := b |}.
Definition running_tt : gset unit := {[tt]} ∪ ∅.

Lemma self_transition_dropped :
  exists e, rtc (fun a b => exists o, progress ctx ctx a o b) (sat (sdb ∅ []) [tt] ∅ [] []) e /\
    tt ∈ dom (active (db e)) /\ forall o e', ~ progress ctx ctx e o e'.
Proof.
  exists (sat spun [] (running_tt ∖ {[tt]}) [] [tt]). split; [|split].
  - eapply rtc_l; [exists None; apply (step_recv ctx ctx tt [] (sat (sdb ∅ []) [tt] ∅ [] []) (sat (sdb ∅ []) [] running_tt [Lookup tt] [])); reflexivity|].
    eapply rtc_l; [exists None; apply (step_lookup ctx ctx 10 [] tt [] _ (sat (sdb ∅ []) [] running_tt [Select tt 10 [spin]] [])); reflexivity|].
    eapply rtc_l; [exists None; apply (step_trigger ctx ctx 10 0 0 [] tt 10 [spin] spin [] _ (sat (sdb ∅ []) [] running_tt [Ready (Triggered tt 10 spin 0)] [])); reflexivity|].
    eapply rtc_l; [exists None; apply (step_ready ctx ctx 10 [] (Triggered tt 10 spin 0) [] _ (sat (sdb ∅ []) [] running_tt [Transition tt 10 spin 0] [])); reflexivity|].
    eapply rtc_l; [exists (Some tt); apply (step_commit ctx ctx 10 [] tt 10 spin 0 [] _ (sat spun [] running_tt [Notify tt (Active tt)] [])); [reflexivity|reflexivity| |reflexivity]; intros new added x' [= <- <- <-]; split; [constructor|by intros s s' ?%not_elem_of_nil]|].
    eapply rtc_l; [exists None; apply (step_notify ctx ctx 10 [] tt (Active tt) [] _ (sat spun [tt] running_tt [Ready (Completed tt (Active tt))] [tt])); reflexivity|].
    eapply rtc_l; [exists None; apply (step_recv ctx ctx tt [] _ (sat spun [] running_tt [Ready (Completed tt (Active tt))] [tt])); reflexivity|].
    eapply rtc_l; [exists None; apply (step_ready ctx ctx 10 [] (Completed tt (Active tt)) [] _ (sat spun [] (running_tt ∖ {[tt]}) [] [tt])); reflexivity|].
    apply rtc_refl.
  - apply elem_of_dom. by exists 10.
  - intros o e' Hp. inversion Hp; subst; simpl in *; try done; match goal with H : [] = _ ++ _ :: _ |- _ => by apply app_cons_not_nil in H end.
Qed.
End ExecutorExample.
