(* ===== verification/Gateways.v ===== *)
(** * Gateways

    What a client of the second lightning module knows of gateways: their fees
    and terms ([modules/fedimint-lnv2-common/src/gateway_api.rs]), the list the
    guardians vouch for ([modules/fedimint-lnv2-client/src/api.rs]), and how it
    chooses one ([modules/fedimint-lnv2-client/src/lib.rs]).  Urls and keys are
    opaque integers; what a gateway answers to a request is an argument. *)

From S2P Require Import Prelude Amounts Peers.

(** ** Fees *)

Record PaymentFee := { pf_base : Z; pf_parts_per_million : Z }.

#[export] Instance PaymentFee_eq : EqDecision PaymentFee. Proof. solve_decision. Defined.

Definition SEND_FEE_LIMIT : PaymentFee := {| pf_base := Amount.from_sats 100; pf_parts_per_million := 15000 |}.
Definition TRANSACTION_FEE_DEFAULT : PaymentFee := {| pf_base := Amount.from_sats 2; pf_parts_per_million := 3000 |}.
Definition RECEIVE_FEE_LIMIT : PaymentFee := {| pf_base := Amount.from_sats 50; pf_parts_per_million := 5000 |}.

Definition is_within (f limit : PaymentFee) : bool :=
  (pf_base f <=? pf_base limit) && (pf_parts_per_million f <=? pf_parts_per_million limit).

Definition payment_fee_checked_add (f g : PaymentFee) : option PaymentFee :=
  b ← checked_add (pf_base f) (pf_base g);
  p ← checked_add (pf_parts_per_million f) (pf_parts_per_million g);
  Some {| pf_base := b; pf_parts_per_million := p |}.

Definition absolute_fee (f : PaymentFee) (msats : Z) : Z :=
  saturating_add (saturating_mul msats (pf_parts_per_million f) / 1000000) (pf_base f).

Definition add_to (f : PaymentFee) (msats : Z) : Z := saturating_add msats (absolute_fee f msats).
Definition subtract_from (f : PaymentFee) (msats : Z) : Z := saturating_sub msats (absolute_fee f msats).

(** Fields of a [PaymentFee] are [u64]s. *)
Definition payment_fee_wf (f : PaymentFee) : Prop := is_u64 (pf_base f) /\ is_u64 (pf_parts_per_million f).

(** A fee within a limit never costs more than the limit. *)
Lemma absolute_fee_mono f g x y : payment_fee_wf f -> is_within f g = true -> 0 <= x <= y -> 0 <= absolute_fee f x <= absolute_fee g y.
Proof.
  intros [Hb Hp] [H1 H2]%andb_true_iff Hxy. rewrite Z.leb_le in H1, H2. unfold absolute_fee, saturating_add, saturating_mul, is_u64, u64_max in *.
  set (M := 18446744073709551615) in *.
  assert (Hm : 0 <= Z.min M (x * pf_parts_per_million f) <= Z.min M (y * pf_parts_per_million g)) by nia.
  pose proof (Z.div_pos (Z.min M (x * pf_parts_per_million f)) 1000000 ltac:(lia) ltac:(lia)).
  pose proof (Z.div_le_mono _ _ 1000000 ltac:(lia) (proj2 Hm)). lia.
Qed.

(** What is within both limits of a gateway and above a minimum is bounded. *)
Lemma add_to_bounds f limit x : payment_fee_wf f -> is_within f limit = true -> is_u64 x ->
  x <= add_to f x <= add_to limit x /\ is_u64 (add_to f x).
Proof.
  intros Hf Hw Hx. pose proof (absolute_fee_mono f limit x x Hf Hw ltac:(unfold is_u64 in *; lia)). unfold add_to, saturating_add, is_u64 in *. lia.
Qed.

Lemma subtract_from_bounds f limit x : payment_fee_wf f -> is_within f limit = true -> is_u64 x ->
  subtract_from limit x <= subtract_from f x <= x /\ is_u64 (subtract_from f x).
Proof.
  intros Hf Hw Hx. pose proof (absolute_fee_mono f limit x x Hf Hw ltac:(unfold is_u64 in *; lia)). unfold subtract_from, saturating_sub, is_u64 in *. lia.
Qed.

(** ** Invoices and terms *)

(** What the code reads of a BOLT11 invoice; the rest is [invoice_tail]. *)
Record Bolt11Invoice := {
  payment_hash : Z;
  amount_milli_satoshis : option Z;
  payee_pub_key : Z;
  invoice_currency : Z;
  invoice_tail : Z;
}.

Record RoutingInfo := {
  lightning_public_key : Z;
  module_public_key : Z;
  send_fee_minimum : PaymentFee;
  send_fee_default : PaymentFee;
  expiration_delta_minimum : Z;
  expiration_delta_default : Z;
  receive_fee : PaymentFee;
  receive_enabled : bool;
}.

Definition send_parameters (r : RoutingInfo) (invoice : Bolt11Invoice) : PaymentFee * Z :=
  if payee_pub_key invoice =? lightning_public_key r then (send_fee_minimum r, expiration_delta_minimum r)
  else (send_fee_default r, expiration_delta_default r).

(** ** The gateways of a federation *)

(** How many of the guardians that answered do not list the gateway. *)
Definition missing (responses : gmap Z (list Z)) (url : Z) : nat :=
  length (filter (fun pr : Z * list Z => url ∉ pr.2) (map_to_list responses)).

(** A stable sort by the key. *)
Fixpoint insert_by (key : Z -> nat) (x : Z) (l : list Z) : list Z :=
  match l with
  | [] => [x]
  | y :: l => if (key x <=? key y)%nat then x :: y :: l else y :: insert_by key x l
  end.
Definition sort_by_cached_key (key : Z -> nat) (l : list Z) : list Z := foldr (insert_by key) [] l.

(** The union of the answers, in the order of a random shuffle, sorted. *)
Definition union_of (responses : gmap Z (list Z)) : list Z :=
  elements (list_to_set (map_to_list responses ≫= snd) : gset Z).
Definition federation_gateways (shuffle : list Z -> list Z) (responses : gmap Z (list Z)) : list Z :=
  sort_by_cached_key (missing responses) (shuffle (union_of responses)).

Lemma insert_by_perm key x l : insert_by key x l ≡ₚ x :: l.
Proof. induction l as [|y l IH]; [done|]. simpl. destruct (_ <=? _)%nat; [done|]. rewrite IH. by apply perm_swap. Qed.
Lemma sort_by_perm key l : sort_by_cached_key key l ≡ₚ l.
Proof. induction l as [|x l IH]; [done|]. simpl. by rewrite insert_by_perm, IH. Qed.

Lemma insert_by_sorted key x l :
  StronglySorted (fun a b => (key a <= key b)%nat) l -> StronglySorted (fun a b => (key a <= key b)%nat) (insert_by key x l).
Proof.
  induction l as [|y l IH]; intros Hs; [repeat constructor|]. simpl. inversion_clear Hs as [|?? Hl Hy].
  destruct (Nat.leb_spec (key x) (key y)) as [Hle|Hlt].
  - constructor; [by constructor|]. constructor; [done|]. eapply Forall_impl; [exact Hy|]. simpl. lia.
  - constructor; [by apply IH|]. rewrite insert_by_perm. constructor; [lia|done].
Qed.
Lemma sort_by_sorted key l : StronglySorted (fun a b => (key a <= key b)%nat) (sort_by_cached_key key l).
Proof. induction l as [|x l IH]; [constructor|]. by apply insert_by_sorted. Qed.

(** Exactly the gateways some guardian listed, each once, those more guardians
    list first. *)
Lemma gateways_ranked shuffle responses : (forall l, shuffle l ≡ₚ l) ->
  NoDup (federation_gateways shuffle responses) /\
  (forall url, url ∈ federation_gateways shuffle responses <-> exists peer l, responses !! peer = Some l /\ url ∈ l) /\
  StronglySorted (fun a b => (missing responses a <= missing responses b)%nat) (federation_gateways shuffle responses).
Proof.
  intros Hsh. assert (Hp : federation_gateways shuffle responses ≡ₚ union_of responses) by (unfold federation_gateways; by rewrite sort_by_perm, Hsh).
  unfold union_of in Hp. split_and!; [rewrite Hp; apply NoDup_elements| |apply sort_by_sorted]. intros url. rewrite Hp.
  rewrite elem_of_elements, elem_of_list_to_set, list_elem_of_bind. split.
  - intros ([peer l] & Hin & Hm%elem_of_map_to_list). by exists peer, l.
  - intros (peer & l & Hm & Hin). exists (peer, l). split; [done|]. by apply elem_of_map_to_list.
Qed.

(** ** Choosing a gateway *)

Inductive SelectGatewayError :=
| FailedToRequestGateways
| NoGatewaysAvailable
| GatewaysUnresponsive
| NoGatewayAcceptsReceives.

Section choice.
(** The answer to the [n]-th request for the routing info of a gateway: [None]
    is a failed request, [Some None] that it does not serve the federation. *)
Context (routing_info : nat -> Z -> option (option RoutingInfo)).

Definition responds (n : nat) (url : Z) : option RoutingInfo := mjoin (routing_info n url).

Fixpoint first_responding (n : nat) (l : list Z) : option (Z * RoutingInfo) :=
  match l with
  | [] => None
  | url :: l => match responds n url with Some r => Some (url, r) | None => first_responding (S n) l end
  end.

(** [gateway_list] is the answer of the guardians, [None] a failure, and
    [gateway_map] what was learned of the keys of the gateways' nodes. *)
Definition select_gateway (gateway_list : option (list Z)) (gateway_map : gmap Z Z) (invoice : option Bolt11Invoice)
    : (Z * RoutingInfo) + SelectGatewayError :=
  match gateway_list with
  | None => inr FailedToRequestGateways
  | Some [] => inr NoGatewaysAvailable
  | Some l =>
      let mapped :=
        invoice ← invoice;
        url ← gateway_map !! payee_pub_key invoice;
        if decide (url ∈ l) then r ← responds 0 url; Some (url, r) else None in
      match mapped with
      | Some found => inl found
      | None => match first_responding 1 l with Some found => inl found | None => inr GatewaysUnresponsive end
      end
  end.

(** The loop of [select_receive_gateway], with whether any has answered. *)
Fixpoint first_receiving (n : nat) (any_responded : bool) (l : list Z) : (Z * RoutingInfo) + SelectGatewayError :=
  match l with
  | [] => inr (if any_responded then NoGatewayAcceptsReceives else GatewaysUnresponsive)
  | url :: l =>
      match responds n url with
      | Some r => if receive_enabled r then inl (url, r) else first_receiving (S n) true l
      | None => first_receiving (S n) any_responded l
      end
  end.
Definition select_receive_gateway (gateway_list : option (list Z)) : (Z * RoutingInfo) + SelectGatewayError :=
  match gateway_list with
  | None => inr FailedToRequestGateways
  | Some [] => inr NoGatewaysAvailable
  | Some l => first_receiving 0 false l
  end.

(** [update_gateway_map]: the keys of the nodes of the gateways that answer. *)
Fixpoint update_gateway_map (n : nat) (l : list Z) (gateway_map : gmap Z Z) : gmap Z Z :=
  match l with
  | [] => gateway_map
  | url :: l =>
      update_gateway_map (S n) l
        match responds n url with Some r => <[lightning_public_key r := url]> gateway_map | None => gateway_map end
  end.

Lemma first_responding_spec n l :
  match first_responding n l with
  | Some (url, r) => exists k, l !! k = Some url /\ responds (n + k) url = Some r
  | None => forall k url, l !! k = Some url -> responds (n + k) url = None
  end.
Proof.
  revert n. induction l as [|x l IH]; intros n; simpl; [by intros k url|].
  destruct (responds n x) as [r|] eqn:Hr; [exists O; by rewrite Nat.add_0_r|]. specialize (IH (S n)).
  destruct (first_responding (S n) l) as [[url r]|].
  - destruct IH as (k & Hk & Hrk). exists (S k). by rewrite Nat.add_succ_r.
  - intros [|k] url Hk; [rewrite Nat.add_0_r; by simplify_eq/=|]. rewrite Nat.add_succ_r. by apply IH.
Qed.

(** The chosen gateway is listed and has answered; when none is chosen every
    listed one was asked and did not. *)
Lemma select_gateway_spec gateway_list gateway_map invoice :
  match select_gateway gateway_list gateway_map invoice with
  | inl (url, r) => exists l n, gateway_list = Some l /\ url ∈ l /\ responds n url = Some r
  | inr FailedToRequestGateways => gateway_list = None
  | inr NoGatewaysAvailable => gateway_list = Some []
  | inr GatewaysUnresponsive => exists l, gateway_list = Some l /\ forall url, url ∈ l -> exists n, responds n url = None
  | inr NoGatewayAcceptsReceives => False
  end.
Proof.
  destruct gateway_list as [[|x l]|]; [done| |done]. set (xs := x :: l). unfold select_gateway, xs. fold xs.
  set (mapped := mbind _ invoice). destruct mapped as [[url r]|] eqn:Hm; unfold mapped in Hm.
  { destruct invoice as [i|]; [|done]. cbn in Hm. destruct (gateway_map !! _) as [url'|]; [|done]. cbn in Hm.
    destruct (decide (url' ∈ xs)); [|done]. destruct (responds 0 url') as [r'|] eqn:Hr; [|done]. cbn in Hm. injection Hm as <- <-. by exists xs, O. }
  pose proof (first_responding_spec 1 xs) as Hf. destruct (first_responding 1 xs) as [[url r]|].
  - destruct Hf as (k & Hk & Hr). exists xs, (1 + k)%nat. split_and!; [done|by eapply list_elem_of_lookup_2|done].
  - exists xs. split; [done|]. intros url [k Hk]%list_elem_of_lookup_1. eexists. by apply Hf.
Qed.

Lemma first_receiving_spec n any l :
  match first_receiving n any l with
  | inl (url, r) => exists k, l !! k = Some url /\ responds (n + k) url = Some r /\ receive_enabled r = true
  | inr GatewaysUnresponsive => any = false /\ forall k url, l !! k = Some url -> responds (n + k) url = None
  | inr NoGatewayAcceptsReceives => forall k url r, l !! k = Some url -> responds (n + k) url = Some r -> receive_enabled r = false
  | inr _ => False
  end.
Proof.
  revert n any. induction l as [|x l IH]; intros n any; simpl; [by destruct any|].
  destruct (responds n x) as [r|] eqn:Hr.
  - destruct (receive_enabled r) eqn:He; [exists O; by rewrite Nat.add_0_r|]. specialize (IH (S n) true).
    destruct (first_receiving (S n) true l) as [[url r']|[]]; [|done|done|by destruct IH|].
    + destruct IH as (k & Hk & Hrk). exists (S k). by rewrite Nat.add_succ_r.
    + intros [|k] url r'; simpl; [rewrite Nat.add_0_r; intros; by simplify_eq|]. rewrite Nat.add_succ_r. apply IH.
  - specialize (IH (S n) any). destruct (first_receiving (S n) any l) as [[url r']|[]]; [|done|done| |].
    + destruct IH as (k & Hk & Hrk). exists (S k). by rewrite Nat.add_succ_r.
    + destruct IH as [-> IH]. split; [done|]. intros [|k] url; simpl; [rewrite Nat.add_0_r; intros; by simplify_eq|]. rewrite Nat.add_succ_r. apply IH.
    + intros [|k] url r'; simpl; [rewrite Nat.add_0_r; intros; by simplify_eq|]. rewrite Nat.add_succ_r. apply IH.
Qed.

(** A gateway for a receive accepts them; the errors tell why there is none. *)
Lemma select_receive_gateway_spec gateway_list :
  match select_receive_gateway gateway_list with
  | inl (url, r) => exists l n, gateway_list = Some l /\ url ∈ l /\ responds n url = Some r /\ receive_enabled r = true
  | inr FailedToRequestGateways => gateway_list = None
  | inr NoGatewaysAvailable => gateway_list = Some []
  | inr GatewaysUnresponsive => exists l, gateway_list = Some l /\ forall k url, l !! k = Some url -> responds k url = None
  | inr NoGatewayAcceptsReceives => exists l, gateway_list = Some l /\ forall k url r, l !! k = Some url -> responds k url = Some r -> receive_enabled r = false
  end.
Proof.
  destruct gateway_list as [[|x l]|]; [done| |done]. unfold select_receive_gateway. pose proof (first_receiving_spec 0 false (x :: l)) as Hf.
  destruct (first_receiving 0 false (x :: l)) as [[url r]|[]]; [|done|done| |].
  - destruct Hf as (k & Hk & Hr & He). exists (x :: l), k. split_and!; [done|by eapply list_elem_of_lookup_2|done|done].
  - destruct Hf as [_ Hf]. by exists (x :: l).
  - by exists (x :: l).
Qed.
End choice.
