(* ===== verification/MintMachines.v ===== *)
(** * The state machines of a client with a mint

    What runs on the executor: the submission of a transaction
    ([fedimint-client-module/src/transaction/sm.rs]) and the machines of the
    mint client for its inputs, outputs and notes that were handed out
    ([modules/fedimint-mint-client/src/input.rs], [output.rs], [oob.rs]).  A
    transition may claim notes, which finalizes and submits another transaction
    in the same database transaction
    ([fedimint-client/src/client/global_ctx.rs], [client.rs]).

    The machines are an instance of the interface of the executor.  Notes that
    are being spent are in the custody of a machine, and the theorems say where
    they are after every transition. *)

From S2P Require Import Prelude Db Amounts Peers ServerModule Transaction Engine MintServer Tiered NoteSelection MintClient SendAmount ClientTx Submission MintPrimary Query Api MintIssuance Executor.

(** ** States *)

Section states.
Context {Key : Type}.
Local Abbreviation SN := (SpendableNote (Key := Key)).
Local Abbreviation Req := (NoteIssuanceRequest (Key := Key)).

Inductive MintInputStates :=
| InCreated (amount : Z) (spendable_note : SN)
| InRefund (refund_txid : Z)
| InSuccess
| InError (refund_txid : Z)
| InRefundSuccess (refund_txid : Z)
| InCreatedBundle (notes : list (Z * SN))
| InRefundedBundle (refund_txid : Z) (spendable_notes : list (Z * SN))
| InRefundedPerNote (refund_txids : list Z).

Inductive MintOOBStates :=
| OobCreatedMulti (spendable_notes : list (Z * SN)) (timeout : Z)
| OobUserRefundMulti (refund_txid : Z) (spendable_notes : list (Z * SN))
| OobTimeoutRefund (refund_txid : Z)
| OobCreated (amount : Z) (spendable_note : SN) (timeout : Z)
| OobUserRefund (refund_txid : Z).

(** [DynState] of a client with a mint: [TxSubmissionStatesSM] and the variants
    of [MintClientStateMachines]. *)
Inductive MachineState :=
| TxSubmission (operation_id : Z) (state : TxSubmissionStates MintInput MintOutput)
| MintIn (operation_id : Z) (out_point_range : OutPointRange) (state : MintInputStates)
| MintOut (operation_id : Z) (out_point_range : OutPointRange) (state : MintOutputStates (Key := Key))
| MintOOB (operation_id : Z) (state : MintOOBStates)
| MintRestore (operation_id : Z).

(** [into_dyn] of the states a transaction starts with. *)
Definition into_dyn (s : MintClientStateMachine (Key := Key) (Req := Req)) : MachineState :=
  match s with
  | CreatedBundle op range notes => MintIn op range (InCreatedBundle notes)
  | CreatedMulti op range requests => MintOut op range (OutCreatedMulti (list_to_map requests))
  | RefundedBundle op range txid notes => MintIn op range (InRefundedBundle txid notes)
  end.

(** What a trigger returns. *)
Inductive TriggerValue :=
| TvUnit
| TvError (error : Z)
| TvResult (r : unit + Z)
| TvShares (shares : gmap Z Z)
| TvMultiShares (shares : list (Z * gmap Z Z)).
End states.
Arguments MintInputStates : clear implicits.
Arguments MintOOBStates : clear implicits.
Arguments MachineState : clear implicits.

(** ** States as keys *)

(** The states are keys of the tables of the executor. *)
Section countable.
#[export] Instance Note_eq : EqDecision Note. Proof. solve_decision. Defined.
#[export] Instance Note_countable : Countable Note :=
  inj_countable' (fun r => (note_nonce r, note_signature r)) (fun r => {| note_nonce := r.1; note_signature := r.2 |}) ltac:(by intros []).
#[export] Instance MintInput_eq : EqDecision MintInput. Proof. solve_decision. Defined.
#[export] Instance MintInput_countable : Countable MintInput :=
  inj_countable' (fun i => match i with MintInputV0 a n => inl (a, n) | MintInputDefault v b => inr (v, b) end)
    (fun x => match x with inl (a, n) => MintInputV0 a n | inr (v, b) => MintInputDefault v b end) ltac:(by intros []).
#[export] Instance MintOutput_eq : EqDecision MintOutput. Proof. solve_decision. Defined.
#[export] Instance MintOutput_countable : Countable MintOutput :=
  inj_countable' (fun i => match i with MintOutputV0 a n => inl (a, n) | MintOutputDefault v b => inr (v, b) end)
    (fun x => match x with inl (a, n) => MintOutputV0 a n | inr (v, b) => MintOutputDefault v b end) ltac:(by intros []).
Context `{Countable Key}.
#[export] Instance SpendableNote_eq : EqDecision (SpendableNote (Key := Key)). Proof using EqDecision0. solve_decision. Defined.
#[export] Instance SpendableNote_countable : Countable (SpendableNote (Key := Key)) :=
  inj_countable' (fun r => (note_sig r, spend_key r)) (fun r => {| note_sig := r.1; spend_key := r.2 |}) ltac:(by intros []).
#[export] Instance NoteIssuanceRequest_eq : EqDecision (NoteIssuanceRequest (Key := Key)). Proof using EqDecision0. solve_decision. Defined.
#[export] Instance NoteIssuanceRequest_countable : Countable (NoteIssuanceRequest (Key := Key)) :=
  inj_countable' (fun r => (req_spend_key r, blinding_key r)) (fun r => {| req_spend_key := r.1; blinding_key := r.2 |}) ltac:(by intros []).
#[export] Instance MintOutputStates_eq : EqDecision (MintOutputStates (Key := Key)). Proof using EqDecision0. solve_decision. Defined.
#[export] Instance MintOutputStates_countable : Countable (MintOutputStates (Key := Key)) :=
  inj_countable' (fun i => match i with OutCreated a r => inl (a, r) | OutAborted => inr (inl 0) | OutFailed => inr (inl 1)
      | OutSucceeded a => inr (inr (inl a)) | OutCreatedMulti m => inr (inr (inr m)) end)
    (fun x => match x with inl (a, r) => OutCreated a r | inr (inl k) => if k =? 0 then OutAborted else OutFailed
      | inr (inr (inl a)) => OutSucceeded a | inr (inr (inr m)) => OutCreatedMulti m end) ltac:(by intros []).
#[export] Instance MintInputStates_eq : EqDecision (MintInputStates Key). Proof using EqDecision0. solve_decision. Defined.
#[export] Instance MintInputStates_countable : Countable (MintInputStates Key) :=
  inj_countable' (fun i => match i with InCreated a n => inl (0, [], [(a, n)]) | InRefund t => inl (1, [t], []) | InSuccess => inl (2, [], [])
      | InError t => inl (3, [t], []) | InRefundSuccess t => inl (4, [t], []) | InCreatedBundle l => inl (5, [], l)
      | InRefundedBundle t l => inl (6, [t], l) | InRefundedPerNote l => inr l end)
    (fun x : (Z * list Z * list (Z * SpendableNote)) + list Z => match x with
      | inl (k, ts, l) => if k =? 0 then match l with (a, n) :: _ => InCreated a n | [] => InSuccess end
          else if k =? 1 then InRefund (hd 0 ts) else if k =? 2 then InSuccess else if k =? 3 then InError (hd 0 ts)
          else if k =? 4 then InRefundSuccess (hd 0 ts) else if k =? 5 then InCreatedBundle l else InRefundedBundle (hd 0 ts) l
      | inr l => InRefundedPerNote l end) ltac:(by intros []).
#[export] Instance MintOOBStates_eq : EqDecision (MintOOBStates Key). Proof using EqDecision0. solve_decision. Defined.
#[export] Instance MintOOBStates_countable : Countable (MintOOBStates Key) :=
  inj_countable' (fun i => match i with OobCreatedMulti l t => (0, t, l) | OobUserRefundMulti t l => (1, t, l) | OobTimeoutRefund t => (2, t, [])
      | OobCreated a n t => (3, t, [(a, n)]) | OobUserRefund t => (4, t, []) end)
    (fun x : Z * Z * list (Z * SpendableNote) => let '(k, t, l) := x in
      if k =? 0 then OobCreatedMulti l t else if k =? 1 then OobUserRefundMulti t l else if k =? 2 then OobTimeoutRefund t
      else if k =? 3 then match l with (a, n) :: _ => OobCreated a n t | [] => OobUserRefund t end else OobUserRefund t) ltac:(by intros []).
#[export] Instance MachineState_eq : EqDecision (MachineState Key). Proof using EqDecision0. solve_decision. Defined.
#[export] Instance MachineState_countable : Countable (MachineState Key) :=
  inj_countable' (fun i => match i with TxSubmission op s => inl (op, s) | MintIn op r s => inr (inl (op, r, s)) | MintOut op r s => inr (inr (inl (op, r, s)))
      | MintOOB op s => inr (inr (inr (inl (op, s)))) | MintRestore op => inr (inr (inr (inr op))) end)
    (fun x => match x with inl (op, s) => TxSubmission op s | inr (inl (op, r, s)) => MintIn op r s | inr (inr (inl (op, r, s))) => MintOut op r s
      | inr (inr (inr (inl (op, s)))) => MintOOB op s | inr (inr (inr (inr op))) => MintRestore op end) ltac:(by intros []).
End countable.

Section machines.
Context {UN Key : Type} (public_key : Key -> Z).
Context (blind_message unblind_signature : Z -> Z -> Z).
Context (tbs_verify verify_blinded_signature : Z -> Z -> Z -> bool) (aggregate_signature_shares : gmap Z Z -> Z).
Context (decode : UN -> option (SpendableNote (Key := Key))) (to_undecoded : SpendableNote (Key := Key) -> UN).
Context (tbs_pks : gmap Z Z) (fee_consensus : Fee.FeeConsensus).
Context (child_spend_key : Z -> Z -> Key) (child_blinding_key : Z -> Z -> Z).
(** The instance of the mint, hashing, signing and the size of a transaction. *)
Context (mint_id : Z) (tx_hash_from_parts : list (Dyn MintInput) -> list (Dyn MintOutput) -> Z -> Z) (sign_schnorr : Z -> Key -> Z).
Context (tx_size : Transaction MintInput MintOutput -> Z).

Local Abbreviation SN := (SpendableNote (Key := Key)).
Local Abbreviation Req := (NoteIssuanceRequest (Key := Key)).
Local Abbreviation St := (MachineState Key).
Local Abbreviation D := (ClientDb UN).
Local Abbreviation issuance_request := (NoteIssuanceRequest_new public_key blind_message child_spend_key child_blinding_key).
Local Abbreviation mint op := (mint_client (UN := UN) public_key decode tbs_verify issuance_request tbs_pks fee_consensus op).

(** ** Submitting a transaction *)

Definition modules (operation_id : Z) : gmap Z (@ClientModule (@MintClientDb UN) MintInput MintOutput Key (MintClientStateMachine (Key := Key) (Req := Req))) :=
  {[ mint_id := mint operation_id ]}.
Definition primary_modules : gmap Z PrimaryModuleCandidates := add_primary ∅ (mint_id, supports_being_primary).

(** Submitting a transaction; the machines are returned for the executor to add
    them. *)
Definition finalize_and_submit (operation_id : Z) (b : TransactionBuilder) (nonce : Z) : M D TransactionSubmitError (OutPointRange * list St) :=
  r ← finalize_and_submit_inner mint_tables (fun d s => {| mint_tables := d; transaction_fees := transaction_fees s; client_log := client_log s |})
        TransactionFeesKey (fun txid op s => {| mint_tables := mint_tables s; transaction_fees := transaction_fees s; client_log := client_log s ++ [TxCreatedEvent txid op] |})
        modules primary_modules tx_hash_from_parts sign_schnorr tx_size (fun _ _ _ => mret tt) operation_id b nonce;
  mret (r.1, (into_dyn <$> r.2.1) ++ [TxSubmission operation_id (TxCreated r.2.2)]).

(** [claim_inputs_dyn]. *)
Definition claim_inputs (operation_id : Z) (bundle : ClientInputBundle) (nonce : Z) : M D TransactionSubmitError (OutPointRange * list St) :=
  finalize_and_submit operation_id (with_inputs TransactionBuilder_new bundle) nonce.

(** Inputs of notes: [new_no_sm], and with the machines of the mint. *)
Definition note_inputs (notes : list (Z * SN)) (gens : list (StateGenerator (State := MintClientStateMachine (Key := Key) (Req := Req)))) : ClientInputBundle :=
  {| bundle_inputs := mint_input public_key mint_id <$> (input_of <$> notes); input_sm_gens := gens |}.

(** ** Transitions *)

(** The value of the trigger, and the nonces of the transactions that are
    built, which are random. *)
Definition V : Type := TriggerValue * list Z.
Local Abbreviation MD := (M D Empty_set).
Local Abbreviation Next := (MD (St * list St)).

Definition nth_nonce (k : nat) (v : V) : Z := default 0 (v.2 !! k).

(** *** The submission of a transaction *)

Definition submission_rejected (v : V) (s : St) : Next :=
  match s, v.1 with
  | TxSubmission op (TxCreated tx), TvError error =>
      let txid := tx_hash tx_hash_from_parts tx in
      _ ← log_event (TxRejectedEvent txid op error); mret (TxSubmission op (TxRejected txid error), [])
  | _, _ => panic
  end.
Definition submission_accepted (v : V) (s : St) : Next :=
  match s, v.1 with
  | TxSubmission op (TxCreated tx), TvUnit =>
      let txid := tx_hash tx_hash_from_parts tx in
      _ ← log_event (TxAcceptedEvent txid op); mret (TxSubmission op (TxAccepted txid), [])
  | _, _ => panic
  end.

(** *** Inputs *)

(** [MintInputStateCreated::transition_success] and [refund]. *)
Definition created_success (v : V) (s : St) : Next :=
  match s, v.1 with
  | MintIn op range (InCreated amount spendable_note), TvResult (inl _) => mret (MintIn op range InSuccess, [])
  | MintIn op range (InCreated amount spendable_note), TvResult (inr _) =>
      r ← unwrap (claim_inputs op (note_inputs [(amount, spendable_note)] []) (nth_nonce 0 v));
      mret (MintIn op range (InRefund (range_txid r.1)), r.2)
  | _, _ => panic
  end.

(** [MintInputStateCreatedBundle::transition_success] and [refund]. *)
Definition created_bundle_success (v : V) (s : St) : Next :=
  match s, v.1 with
  | MintIn op range (InCreatedBundle notes), TvResult (inl _) => mret (MintIn op range InSuccess, [])
  | MintIn op range (InCreatedBundle notes), TvResult (inr _) =>
      r ← unwrap (claim_inputs op (note_inputs notes []) (nth_nonce 0 v));
      mret (MintIn op range (if (length notes =? 1)%nat then InRefundedPerNote [range_txid r.1] else InRefundedBundle (range_txid r.1) notes), r.2)
  | _, _ => panic
  end.

(** The loop of [MintInputStateRefundedBundle::refund]: a note that cannot be
    claimed is skipped, with what the attempt has written. *)
Fixpoint refund_notes (operation_id : Z) (notes : list (Z * SN)) (nonces : list Z) : MD (list Z * list St) :=
  match notes with
  | [] => mret ([], [])
  | an :: notes =>
      r ← attempt (claim_inputs operation_id (note_inputs [an] []) (hd 0 nonces));
      rest ← refund_notes operation_id notes (tl nonces);
      mret match r with
           | inl (change_range, added) => (range_txid change_range :: rest.1, added ++ rest.2)
           | inr _ => rest
           end
  end.

Definition refunded_bundle_success (v : V) (s : St) : Next :=
  match s, v.1 with
  | MintIn op range (InRefundedBundle _ notes), TvResult (inl _) => mret (MintIn op range InSuccess, [])
  | MintIn op range (InRefundedBundle _ notes), TvResult (inr _) =>
      r ← refund_notes op notes v.2;
      mret (MintIn op range (InRefundedPerNote r.1), r.2)
  | _, _ => panic
  end.

Definition refund_success (v : V) (s : St) : Next :=
  match s, v.1 with
  | MintIn op range (InRefund refund_txid), TvResult (inl _) => mret (MintIn op range (InRefundSuccess refund_txid), [])
  | MintIn op range (InRefund refund_txid), TvResult (inr _) => mret (MintIn op range (InError refund_txid), [])
  | _, _ => panic
  end.

(** *** Outputs *)

Definition output_rejected (v : V) (s : St) : Next :=
  match s, v.1 with
  | MintOut op range (OutCreated _ _), TvUnit => o ← tx_rejected_single; mret (MintOut op range o, [])
  | MintOut op range (OutCreatedMulti _), TvUnit => o ← tx_rejected_multi op; mret (MintOut op range o, [])
  | _, _ => panic
  end.
Definition output_ready (v : V) (s : St) : Next :=
  match s, v.1 with
  | MintOut op range (OutCreated amount r), TvShares shares =>
      o ← outcome_ready_single public_key blind_message unblind_signature tbs_verify verify_blinded_signature aggregate_signature_shares to_undecoded tbs_pks
            amount r shares;
      mret (MintOut op range o, [])
  | MintOut op range (OutCreatedMulti requests), TvMultiShares shares =>
      o ← outcome_ready_multi public_key unblind_signature tbs_verify aggregate_signature_shares to_undecoded tbs_pks op requests shares;
      mret (MintOut op range o, [])
  | _, _ => panic
  end.

(** *** Notes that were handed out *)

Definition try_cancel_oob_spend_multi (operation_id : Z) (notes : list (Z * SN)) (nonce : Z) : MD (Z * list St) :=
  r ← unwrap (claim_inputs operation_id (note_inputs notes [fun range => Some [RefundedBundle operation_id range (range_txid range) notes]]) nonce);
  mret (range_txid r.1, r.2).

(** The transitions of both states; the user and the timeout lead to different
    ones. *)
Definition user_cancel (v : V) (s : St) : Next :=
  match s, v.1 with
  | MintOOB op (OobCreated amount sn _), TvUnit =>
      r ← try_cancel_oob_spend_multi op [(amount, sn)] (nth_nonce 0 v); mret (MintOOB op (OobUserRefund r.1), r.2)
  | MintOOB op (OobCreatedMulti notes _), TvUnit =>
      r ← try_cancel_oob_spend_multi op notes (nth_nonce 0 v); mret (MintOOB op (OobUserRefundMulti r.1 notes), r.2)
  | _, _ => panic
  end.
Definition timeout_cancel (v : V) (s : St) : Next :=
  match s, v.1 with
  | MintOOB op (OobCreated amount sn _), TvUnit =>
      r ← try_cancel_oob_spend_multi op [(amount, sn)] (nth_nonce 0 v); mret (MintOOB op (OobTimeoutRefund r.1), r.2)
  | MintOOB op (OobCreatedMulti notes _), TvUnit =>
      r ← try_cancel_oob_spend_multi op notes (nth_nonce 0 v); mret (MintOOB op (OobTimeoutRefund r.1), r.2)
  | _, _ => panic
  end.

(** ** The machines for the executor *)

Definition next_state (m : V -> St -> Next) : StateTransitionFunction St D V := fun d v s =>
  match m v s d with (Ok (new, added), d') => Some (new, added, d') | _ => None end.

Definition machine_transitions (s : St) : list (V -> St -> Next) :=
  match s with
  | TxSubmission _ (TxCreated _) => [submission_rejected; submission_accepted]
  | MintIn _ _ (InCreated _ _) => [created_success]
  | MintIn _ _ (InCreatedBundle _) => [created_bundle_success]
  | MintIn _ _ (InRefundedBundle _ _) => [refunded_bundle_success]
  | MintIn _ _ (InRefund _) => [refund_success]
  | MintOut _ _ (OutCreated _ _) | MintOut _ _ (OutCreatedMulti _) => [output_rejected; output_ready]
  | MintOOB _ (OobCreated _ _ _) | MintOOB _ (OobCreatedMulti _ _) => [user_cancel; timeout_cancel]
  | _ => []
  end.

Definition machine_operation (s : St) : Z :=
  match s with TxSubmission op _ | MintIn op _ _ | MintOut op _ _ | MintOOB op _ | MintRestore op => op end.
Definition machine_module (s : St) : Z :=
  match s with TxSubmission _ _ => TRANSACTION_SUBMISSION_MODULE_INSTANCE | _ => mint_id end.

#[export] Instance client_machines : State St D V := {
  module_instance_id := machine_module;
  operation_id := machine_operation;
  transitions s := next_state <$> machine_transitions s;
}.

(** *** Towards an end *)

Definition submission_txid (s : TxSubmissionStates MintInput MintOutput) : Z :=
  match s with TxCreated tx => tx_hash tx_hash_from_parts tx | TxAccepted txid | TxRejected txid _ => txid | NonRetryableError _ => 0 end.

(** What stays the same through the states of a machine. *)
Definition machine_key (s : St) : Z * Z * option OutPointRange * Z :=
  match s with
  | TxSubmission op st => (0, op, None, submission_txid st)
  | MintIn op range _ => (1, op, Some range, 0)
  | MintOut op range _ => (2, op, Some range, 0)
  | MintOOB op _ => (3, op, None, 0)
  | MintRestore op => (4, op, None, 0)
  end.
#[export] Instance client_machines_origin : Origin := fun s => Z.pos (encode (machine_key s)).

Definition machine_rank (s : St) : nat :=
  match s with
  | TxSubmission _ (TxCreated _) => 1
  | MintIn _ _ (InCreated _ _) | MintIn _ _ (InCreatedBundle _) => 2
  | MintIn _ _ (InRefund _) | MintIn _ _ (InRefundedBundle _ _) => 1
  | MintOut _ _ (OutCreated _ _) | MintOut _ _ (OutCreatedMulti _) => 1
  | MintOOB _ (OobCreated _ _ _) | MintOOB _ (OobCreatedMulti _ _) => 1
  | _ => 0
  end.

Lemma next_state_Some m d v s new added d' : next_state m d v s = Some (new, added, d') <-> m v s d = (Ok (new, added), d').
Proof.
  unfold next_state. destruct (m v s d) as [[[n a]|e|] d1]; [|by split|by split].
  split; [by intros [= -> -> ->]|by intros [= -> -> ->]].
Qed.

Lemma out_single_rank amount r shares d o d' :
  outcome_ready_single public_key blind_message unblind_signature tbs_verify verify_blinded_signature aggregate_signature_shares to_undecoded tbs_pks amount r shares d = (Ok o, d') ->
  o = OutFailed \/ o = OutSucceeded amount.
Proof.
  unfold outcome_ready_single. intros H. apply bind_Ok in H as (key & d1 & _ & H). destruct (negb _); [injection H as <- _; by left|].
  apply bind_Ok in H as (? & ? & _ & H). apply bind_Ok in H as (? & ? & _ & H). injection H as <- _. by right.
Qed.
Lemma out_multi_rank op requests shares d o d' :
  outcome_ready_multi public_key unblind_signature tbs_verify aggregate_signature_shares to_undecoded tbs_pks op requests shares d = (Ok o, d') ->
  exists total, o = OutSucceeded total.
Proof.
  unfold outcome_ready_multi. intros H. apply bind_Ok in H as (l & d1 & _ & H). apply bind_Ok in H as (? & ? & _ & H).
  apply bind_Ok in H as (? & ? & _ & H). injection H as <- _. by eexists.
Qed.

Lemma machine_step m v s d new added d' :
  m ∈ machine_transitions s -> m v s d = (Ok (new, added), d') ->
  machine_key new = machine_key s /\ machine_module new = machine_module s /\ (machine_rank new < machine_rank s)%nat.
Proof.
  intros Hm H. destruct v as [tv nonces].
  destruct s as [op []|op range []|op range []|op []|op]; cbn in Hm;
    repeat (apply elem_of_cons in Hm as [->|Hm]); try (by apply not_elem_of_nil in Hm);
    destruct tv as [|e|[[]|e]|m1|l1]; cbn in H; try discriminate H;
    apply bind_Ok in H as (x & d1 & Hx & H) || idtac; injection H as <- _ _; cbn; try (by split_and!; [| |lia]).
  - destruct (length notes =? 1)%nat; cbn; split_and!; done || lia.
  - injection Hx as <- _. cbn. split_and!; done || lia.
  - destruct (out_single_rank _ _ _ _ _ _ Hx) as [-> | ->]; cbn; split_and!; done || lia.
  - unfold tx_rejected_multi in Hx. apply bind_Ok in Hx as (? & ? & _ & Hx). injection Hx as <- _. cbn. split_and!; done || lia.
  - destruct (out_multi_rank _ _ _ _ _ _ Hx) as [t ->]. cbn. split_and!; done || lia.
Qed.

(** The machines keep what they promise the executor. *)
#[export] Program Instance client_machines_progressing : Progressing (St := St) (D := D) (V := V) := {| rank := machine_rank |}.
Next Obligation.
  intros s f x v new added x' Hf Hx. apply list_elem_of_fmap in Hf as (m & -> & Hm). apply next_state_Some in Hx. by apply (machine_step m v s x new added x').
Qed.
Next Obligation.
  intros s f x v new added x' Hf Hx. apply list_elem_of_fmap in Hf as (m & -> & Hm). apply next_state_Some in Hx.
  unfold origin, client_machines_origin. destruct (machine_step m v s x new added x' Hm Hx) as [-> _]. done.
Qed.
Next Obligation.
  intros s f x v new added x' Hf Hx. apply list_elem_of_fmap in Hf as (m & -> & Hm). apply next_state_Some in Hx. by apply (machine_step m v s x new added x').
Qed.

(** ** Claiming notes *)

Hypothesis fee_wf : Fee.wf fee_consensus.
Hypothesis tiers_ok : head (tiers tbs_pks) = Some 1 /\ Forall tier_ok (tiers tbs_pks).

Local Abbreviation nonce_of := (MintPrimary.nonce_of public_key).
Local Abbreviation verify := (MintPrimary.verify public_key tbs_verify).
Local Abbreviation held := (held decode).
Local Abbreviation genuine := (genuine verify tbs_pks).
Local Abbreviation wallet_ok := (wallet_ok public_key decode tbs_verify tbs_pks).
Local Abbreviation spent := (spent decode nonce_of verify tbs_pks).
Local Abbreviation issued := (issued issuance_request).
Local Abbreviation value := TieredMulti.value.
Local Abbreviation fees_value := (fees_value fee_consensus).
Local Abbreviation tx_inputs := (tx_inputs public_key mint_id).
Local Abbreviation tx_outputs := (tx_outputs mint_id).

Lemma mint_registered op : modules op !! mint_id = Some (mint op).
Proof. apply lookup_singleton_eq. Qed.
Lemma mint_is_primary op : primary_module_for_unit (modules op) primary_modules BITCOIN = Some (Some (mint_id, mint op)).
Proof.
  unfold primary_module_for_unit. assert (primary_modules_for_unit primary_modules BITCOIN = [mint_id]) as -> by reflexivity.
  by rewrite mint_registered.
Qed.

(** The machines for what the mint adds to a transaction: one for the notes it
    takes from the wallet, one for the notes it asks for. *)
Definition input_machines (op txid : Z) (first : nat) (l : list (Z * SN)) : list (MintClientStateMachine (Key := Key) (Req := Req)) :=
  if (length l =? 0)%nat then [] else
  [CreatedBundle op {| range_txid := txid; idx_range := {| range_start := Z.of_nat first; range_end := Z.of_nat first + Z.of_nat (length l) |} |} l].
Definition output_machines (op txid : Z) (outs : list (ClientOutput (Req := Req))) : list (MintClientStateMachine (Key := Key) (Req := Req)) :=
  if (length outs =? 0)%nat then [] else
  let r := {| range_start := 0; range_end := Z.of_nat (length outs) |} in
  [CreatedMulti op {| range_txid := txid; idx_range := r |} (zip (idx_iter r) ((fun o => (co_amount o, co_request o)) <$> outs))].

Lemma input_state_notes op (l : list (Z * SN)) range : idx_count (idx_range range) = length l ->
  input_state op (input_of <$> l) range = Some [CreatedBundle (Req := Req) op range l].
Proof.
  intros Hc. unfold input_state. rewrite Hc, length_fmap, Nat.eqb_refl.
  assert (mapM (fun i : @ClientInput SN => a ← Amounts.expect_only_bitcoin (ci_amounts i); Some (a, ci_note i)) (input_of <$> l) = Some l) as ->; [|done].
  clear Hc. induction l as [|[a sn] l IH]; [done|]. rewrite fmap_cons. cbn [mapM]. cbn [input_of ci_amounts ci_note fst snd].
  rewrite Amounts.expect_only_bitcoin_new. cbn [mbind option_bind]. by rewrite IH.
Qed.

Lemma idx_count_from a (n : nat) : idx_count {| range_start := a; range_end := a + Z.of_nat n |} = n.
Proof. unfold idx_count, idx_iter. cbn. rewrite length_seqZ. lia. Qed.

(** The state machines of a bundle of [n] inputs and of what was added to it. *)
Lemma claim_states op txid n gens (l' : list (Z * SN)) (outs : list (ClientOutput (Req := Req))) si so :
  states_from txid 0 [(n, gens); (length l', [input_state op (input_of <$> l')])] = Some si ->
  states_from txid 0 [(length outs, [output_state op outs])] = Some so ->
  exists own, states_from txid 0 [(n, gens)] = Some own /\ si ++ so = own ++ input_machines op txid n l' ++ output_machines op txid outs.
Proof using.
  intros Hsi Hso. cbn [states_from] in *.
  set (gen := if (n =? 0)%nat then Some [] else _) in *. destruct gen as [own|]; [|done]. cbn [mbind option_bind] in Hsi |- *.
  rewrite !app_nil_r. exists own. split; [done|].
  assert (Hi : (if (length l' =? 0)%nat then Some [] else generate [input_state op (input_of <$> l')]
      {| range_txid := txid; idx_range := {| range_start := 0 + Z.of_nat n; range_end := 0 + Z.of_nat n + Z.of_nat (length l') |} |})
    = Some (input_machines op txid n l')).
  { unfold input_machines. destruct (length l' =? 0)%nat; [done|]. unfold generate. cbn [mapM]. rewrite input_state_notes by apply idx_count_from. done. }
  assert (Ho : (if (length outs =? 0)%nat then Some [] else generate [output_state op outs]
      {| range_txid := txid; idx_range := {| range_start := 0; range_end := 0 + Z.of_nat (length outs) |} |})
    = Some (output_machines op txid outs)).
  { unfold output_machines. destruct (length outs =? 0)%nat; [done|]. unfold generate, output_state. cbn [mapM idx_range]. by rewrite idx_count_from, Nat.eqb_refl. }
  rewrite Hi in Hsi. rewrite Ho in Hso. cbn [mbind option_bind] in *. injection Hsi as <-. injection Hso as <-.
  by rewrite !app_nil_r, <- (assoc_L (++)).
Qed.

(** The transaction that spends notes and asks for others. *)
Definition note_tx (l : list (Z * SN)) (outs : list (ClientOutput (Req := Req))) (nonce : Z) : Transaction MintInput MintOutput :=
  {| inputs := tx_inputs l; outputs := tx_outputs outs; Transaction.nonce := nonce;
     signatures := NaiveMultisig (sign_schnorr (tx_hash_from_parts (tx_inputs l) (tx_outputs outs) nonce) <$> (spend_key <$> l.*2)) |}.

(** A transaction that claims the notes [l], with the notes [l'] of the wallet,
    and asks for [outs]. *)
Record claimed (op : Z) (l : list (Z * SN)) (gens : list (StateGenerator (State := MintClientStateMachine (Key := Key) (Req := Req)))) (nonce : Z)
    (d : D) (l' : list (Z * SN)) (outs : list (ClientOutput (Req := Req))) (tx : Transaction MintInput MintOutput)
    (own : list (MintClientStateMachine (Key := Key) (Req := Req))) (d' : D) : Prop := {
  claimed_tx : tx = note_tx (l ++ l') outs nonce;
  claimed_wallet : exists s1, spent (mint_tables d) l' s1 /\ issued s1 outs (mint_tables d');
  claimed_made : Forall output_made outs /\ Forall (fun o => is_Some (tbs_pks !! co_amount o)) outs;
  claimed_funded : fees_value (l ++ l') + output_cost fee_consensus outs <= value (l ++ l') <= u64_max;
  claimed_change : value (l ++ l') <= fees_value (l ++ l') + output_cost fee_consensus outs + fee_of fee_consensus 1;
  claimed_own : states_from (tx_hash tx_hash_from_parts tx) 0 [(length l, gens)] = Some own;
  claimed_size : tx_size tx <= MAX_TX_SIZE;
  claimed_fresh : transaction_fees d !! tx_hash tx_hash_from_parts tx = None;
}.

Definition claim_machines (op : Z) (l l' : list (Z * SN)) (outs : list (ClientOutput (Req := Req))) (tx : Transaction MintInput MintOutput)
    (own : list (MintClientStateMachine (Key := Key) (Req := Req))) : list St :=
  (into_dyn <$> own ++ input_machines op (tx_hash tx_hash_from_parts tx) (length l) l' ++ output_machines op (tx_hash tx_hash_from_parts tx) outs)
    ++ [TxSubmission op (TxCreated tx)].

(** The wallet cannot pay for claiming the notes: not even with what is left
    after some notes were consolidated. *)
Definition cannot_pay (l : list (Z * SN)) (d : D) : Prop :=
  exists c rest, held (client_notes (mint_tables d)) ≡ₚ rest ++ c /\
    net_value fee_consensus c + spendable fee_consensus rest < fees_value l - value l.

(** The transaction that claims the notes, with some notes of the wallet, would
    be larger than what a guardian accepts, or has been submitted before. *)
Definition too_large (l : list (Z * SN)) (nonce : Z) (d : D) : Prop :=
  exists l' outs, l' ⊆+ held (client_notes (mint_tables d)) /\ MAX_TX_SIZE < tx_size (note_tx (l ++ l') outs nonce).
Definition submitted_before (l : list (Z * SN)) (nonce : Z) (d : D) : Prop :=
  exists l' outs, l' ⊆+ held (client_notes (mint_tables d)) /\ is_Some (transaction_fees d !! tx_hash tx_hash_from_parts (note_tx (l ++ l') outs nonce)).

Lemma note_inputs_ok op l gens :
  Forall genuine l -> value l <= max_funds -> fees_value l <= max_funds -> gens_total (length l, gens) ->
  builder_ok (modules op) BITCOIN (with_inputs TransactionBuilder_new (note_inputs l gens)) /\
  builder_inputs (Out := MintOutput) (with_inputs TransactionBuilder_new (note_inputs l gens)) = mint_input public_key mint_id <$> (input_of <$> l) /\
  builder_outputs (Out := MintOutput) (with_inputs TransactionBuilder_new (note_inputs l gens)) = [].
Proof using fee_wf.
  intros Hg Hv Hf Hgens. assert (Hbi : builder_inputs (Out := MintOutput) (with_inputs TransactionBuilder_new (note_inputs l gens)) = mint_input public_key mint_id <$> (input_of <$> l))
    by apply app_nil_r.
  destruct (mint_inputs_sum (UN := UN) public_key decode tbs_verify issuance_request tbs_pks fee_consensus fee_wf op mint_id (modules op) (mint_registered op) l Hg) as (Hok & Hval & Hfee).
  pose proof (genuine_length verify tbs_pks l Hg). unfold max_funds in *.
  split; [|done]. split; rewrite ?Hbi, ?Hval, ?Hfee; [done|constructor|unfold max_funds; lia| |split; [rewrite !length_fmap; lia|cbn; lia]|].
  - change (0 + (fees_value l + 0) <= max_funds). unfold max_funds. lia.
  - split; [|constructor]. apply Forall_singleton. unfold input_entry. cbn [note_inputs bundle_inputs input_sm_gens]. by rewrite !length_fmap.
Qed.

Lemma claim_sides op l gens l' (outs : list (ClientOutput (Req := Req))) :
  let e := extended (with_inputs TransactionBuilder_new (note_inputs l gens)) [create_bundle_for_inputs public_key mint_id op (input_of <$> l')] [output_bundle mint_id op outs] in
  input_side e = [(length l, gens); (length l', [input_state op (input_of <$> l')])] /\ output_side e = [(length outs, [output_state op outs])].
Proof using.
  intros e. unfold e, extended, input_side, output_side, input_entry, output_entry.
  cbn [foldl with_inputs with_outputs tb_inputs tb_outputs fmap list_fmap app TransactionBuilder_new note_inputs create_bundle_for_inputs output_bundle bundle_inputs input_sm_gens bundle_outputs output_sm_gens].
  split; repeat f_equal; apply length_fmap || (etrans; apply length_fmap).
Qed.

(** Finalizing the transaction that claims notes. *)
Lemma finalize_claim op l gens nonce s :
  wallet_ok s -> Forall genuine l -> value l <= max_funds -> fees_value l <= max_funds -> gens_total (length l, gens) ->
  match finalize_transaction (modules op) primary_modules tx_hash_from_parts sign_schnorr (with_inputs TransactionBuilder_new (note_inputs l gens)) nonce s with
  | (Ok ft, s') => exists l' s1 outs own,
      transaction ft = note_tx (l ++ l') outs nonce /\
      spent s l' s1 /\ issued s1 outs s' /\ (Forall output_made outs /\ Forall (fun o => is_Some (tbs_pks !! co_amount o)) outs) /\
      (fees_value (l ++ l') + output_cost fee_consensus outs <= value (l ++ l') <= u64_max) /\
      value (l ++ l') <= fees_value (l ++ l') + output_cost fee_consensus outs + fee_of fee_consensus 1 /\
      states_from (tx_hash tx_hash_from_parts (transaction ft)) 0 [(length l, gens)] = Some own /\
      ClientTx.states ft = own ++ input_machines op (tx_hash tx_hash_from_parts (transaction ft)) (length l) l' ++ output_machines op (tx_hash tx_hash_from_parts (transaction ft)) outs
  | (Err e, _) => exists b c rest, e = InsufficientFunds b /\ held (client_notes s) ≡ₚ rest ++ c /\
      net_value fee_consensus c + spendable fee_consensus rest < fees_value l - value l
  | (Panic, _) => False
  end.
Proof using fee_wf tiers_ok.
  intros Hs Hg Hv Hf Hgens. destruct (note_inputs_ok op l gens Hg Hv Hf Hgens) as (Hb & Hbi & Hbo). set (b := with_inputs _ _) in *.
  pose proof (@mint_balances UN Key Req public_key decode tbs_verify issuance_request tbs_pks fee_consensus fee_wf tiers_ok op mint_id (modules op) (mint_registered op)) as Hbal.
  pose proof (finalize_spec (modules op) primary_modules tx_hash_from_parts sign_schnorr BITCOIN wallet_ok (mint op) mint_id (mint_is_primary op) b nonce s Hb Hs) as Hspec.
  cbv zeta in Hspec. rewrite Hbi, Hbo in Hspec.
  pose proof (mint_inputs_sum (UN := UN) public_key decode tbs_verify issuance_request tbs_pks fee_consensus fee_wf op mint_id (modules op) (mint_registered op)) as Hsums.
  destruct (Hsums l Hg) as (_ & Hval & Hfee). rewrite Hval, Hfee in Hspec.
  change (out_value BITCOIN []) with 0 in Hspec. change (out_fees (modules op) BITCOIN []) with 0 in Hspec.
  pose proof (genuine_length verify tbs_pks l Hg). pose proof (fees_value_bound verify tbs_pks fee_consensus fee_wf l Hg).
  pose proof (mint_balance_bundles public_key decode tbs_verify issuance_request tbs_pks fee_consensus fee_wf tiers_ok op mint_id (modules op) primary_modules (mint_is_primary op)
    s (value l) (0 + (fees_value l + 0)) Hs ltac:(lia) ltac:(lia)) as Hadd.
  destruct (balance_units _ primary_modules _ _ _ s) as [[[ibs obs]|e|] s']; [| |done].
  2: { rewrite Hspec. destruct Hadd as (bal & c & rest & -> & Hh & Hlt). exists bal, c, rest. split_and!; [done|done|lia]. }
  destruct Hadd as (l' & s1 & outs & Heq & Hno & Hsp & Hiss & [Hmade Hks] & Hchange). destruct Hspec as (_ & _ & Hmax & Hle & tx & sts & Hbuild & _ & _ & ->).
  assert (Hitems : ibs ≫= bundle_inputs = mint_input public_key mint_id <$> (input_of <$> l') /\ obs ≫= bundle_outputs = mint_output mint_id <$> outs).
  { destruct (Z.eqb_spec (value l) (0 + (fees_value l + 0))) as [He|_]; injection Heq as -> ->; cbn [mbind list_bind];
      [by destruct (Hno He) as [-> ->]|by rewrite !app_nil_r]. }
  destruct Hitems as [Hl' Houts]. destruct (extended_items b ibs obs) as [Hei Heo]. rewrite Hbi, Hl', <- !fmap_app in Hei. rewrite Hbo, Houts in Heo. cbn [app] in Heo.
  rewrite Hl', <- !fmap_app in Hmax, Hle. rewrite Houts in Hle. cbn [app] in Hle.
  destruct (spent_facts _ _ _ _ _ _ _ (proj1 Hs) Hsp) as (Hg' & _). assert (Hgall : Forall genuine (l ++ l')) by by apply Forall_app.
  destruct (Hsums (l ++ l') Hgall) as (_ & HV & HF). rewrite HV in Hmax, Hle. rewrite HF in Hle.
  destruct (mint_outputs_sum (UN := UN) public_key decode tbs_verify issuance_request tbs_pks fee_consensus fee_wf op mint_id (modules op) (mint_registered op) outs Hmade) as (_ & Hlen & HO).
  pose proof (genuine_length verify tbs_pks (l ++ l') Hgall). pose proof (fees_value_bound verify tbs_pks fee_consensus fee_wf (l ++ l') Hgall).
  pose proof (build_parts _ _ _ _ _ _ Hbuild) as Htx. cbv zeta in Htx. rewrite Hei, Heo, note_keys in Htx.
  destruct (build_states tx_hash_from_parts sign_schnorr (extended b ibs obs) nonce tx sts) as (si & so & Hsi & Hso & ->);
    [rewrite Hei, !length_fmap; lia|rewrite Heo, length_fmap; lia|done|]. rewrite Hei, Heo in Hsi, Hso.
  exists l', s1, outs. cbn [transaction ClientTx.states].
  assert (Hid : tx_hash tx_hash_from_parts tx = tx_hash_from_parts (tx_inputs (l ++ l')) (tx_outputs outs) nonce) by (rewrite Htx; reflexivity).
  rewrite Hid. cut (exists own, states_from (tx_hash_from_parts (tx_inputs (l ++ l')) (tx_outputs outs) nonce) 0 [(length l, gens)] = Some own /\
    si ++ so = own ++ input_machines op (tx_hash_from_parts (tx_inputs (l ++ l')) (tx_outputs outs) nonce) (length l) l' ++
      output_machines op (tx_hash_from_parts (tx_inputs (l ++ l')) (tx_outputs outs) nonce) outs).
  { intros (own & Hown & Hst). exists own. split_and!; [exact Htx|done|done|done|done|lia|lia| |done|done]. rewrite TieredMulti.value_app. unfold MintClient.fees_value in *. rewrite fmap_app, sum_list_app. lia. }
  assert (Hentry : input_side b = [(length l, gens)]) by (unfold input_side, input_entry; cbn; by rewrite !length_fmap).
  destruct (Z.eqb_spec (value l) (0 + (fees_value l + 0))) as [He|_]; injection Heq as -> ->.
  - destruct (Hno He) as [-> ->]. exists si. unfold extended in Hsi, Hso. cbn [foldl] in Hsi, Hso. rewrite Hentry in Hsi. split; [exact Hsi|].
    cbn in Hso. injection Hso as <-. by rewrite !app_nil_r.
  - destruct (claim_sides op l gens l' outs) as [Hin Hout]. apply claim_states; [exact (eq_trans (f_equal _ (eq_sym Hin)) Hsi)|exact (eq_trans (f_equal _ (eq_sym Hout)) Hso)].
Qed.

Lemma claim_spec op l gens nonce d :
  wallet_ok (mint_tables d) -> Forall genuine l -> value l <= max_funds -> fees_value l <= max_funds -> gens_total (length l, gens) ->
  match claim_inputs op (note_inputs l gens) nonce d with
  | (Ok (range, added), d') => exists l' outs tx own, claimed op l gens nonce d l' outs tx own d' /\
      range_txid range = tx_hash tx_hash_from_parts tx /\ added = claim_machines op l l' outs tx own
  | (Err (InsufficientFunds _), _) => cannot_pay l d
  | (Err (TransactionTooLarge _ _), _) => too_large l nonce d
  | (Err _, _) => False
  | (Panic, _) => submitted_before l nonce d
  end.
Proof using fee_wf tiers_ok.
  intros Hs Hg Hv Hf Hgens. pose proof (finalize_claim op l gens nonce (mint_tables d) Hs Hg Hv Hf Hgens) as Hfin.
  unfold claim_inputs, finalize_and_submit, finalize_and_submit_inner, zoom, mbind, M_bind. destruct (finalize_transaction _ _ _ _ _ _ _) as [[ft|e|] s']; cbv beta iota; [| |done].
  2: { destruct Hfin as (b & c & rest & -> & Hh & Hlt). by exists c, rest. }
  destruct Hfin as (l' & s1 & outs & own & Htx & Hsp & Hiss & Hmade & Hfund & Hchange & Hown & Hst).
  assert (Hsub : l' ⊆+ held (client_notes (mint_tables d))) by (rewrite (spent_held _ _ _ _ _ _ _ Hsp); by apply submseteq_inserts_l).
  unfold ensure. destruct (Z.leb_spec (tx_size (transaction ft)) MAX_TX_SIZE) as [Hsize|Hsize]; [|exists l', outs; by rewrite <- Htx].
  unfold insert_new_entry, mbind, M_bind, insert_entry, gets, modify, mret, M_ret. cbn.
  destruct (transaction_fees d !! tx_hash tx_hash_from_parts (transaction ft)) as [x|] eqn:Hfresh; [exists l', outs; rewrite <- Htx; by eauto|]. cbn.
  exists l', outs, (transaction ft), own. split; [|split; [done|]].
  - split; try done. by exists s1.
  - unfold claim_machines. by rewrite Hst.
Qed.

(** ** Refunds *)

(** The notes a machine would claim back. *)
Definition custody (s : St) : list (Z * SN) :=
  match s with
  | MintIn _ _ (InCreated amount sn) | MintOOB _ (OobCreated amount sn _) => [(amount, sn)]
  | MintIn _ _ (InCreatedBundle notes) | MintIn _ _ (InRefundedBundle _ notes) | MintOOB _ (OobCreatedMulti notes _) => notes
  | _ => []
  end.

(** The transaction that spends the notes was rejected, or the user or the
    timeout cancels. *)
Definition asks_refund (s : St) (v : V) : bool :=
  match s, v.1 with
  | MintIn _ _ (InCreated _ _), TvResult (inr _) | MintIn _ _ (InCreatedBundle _), TvResult (inr _) => true
  | MintOOB _ (OobCreated _ _ _), TvUnit | MintOOB _ (OobCreatedMulti _ _), TvUnit => true
  | _, _ => false
  end.

Definition refund_gens (s : St) : list (StateGenerator (State := MintClientStateMachine (Key := Key) (Req := Req))) :=
  match s with MintOOB op _ => [fun range => Some [RefundedBundle op range (range_txid range) (custody s)]] | _ => [] end.

Lemma refund_gens_total n s : gens_total (n, refund_gens s).
Proof using. destruct s as [| | |op st|]; try constructor; [|constructor]. intros range _. by eexists. Qed.

(** The two steps of a cancellation as one. *)
Lemma cancel_steps (f : Z -> St) op l nonce d :
  ((r ← try_cancel_oob_spend_multi op l nonce; mret (f r.1, r.2)) : Next) d
  = ((r ← unwrap (claim_inputs op (note_inputs l [fun range => Some [RefundedBundle op range (range_txid range) l]]) nonce); mret (f (range_txid r.1), r.2)) : Next) d.
Proof using. unfold try_cancel_oob_spend_multi, mbind, M_bind, mret, M_ret. by destruct (unwrap _ d) as [[[]| |] ?]. Qed.

(** A refund claims exactly the notes of the machine, and panics only when that
    cannot be paid for or submitted. *)
Lemma refund_spec m v s d :
  m ∈ machine_transitions s -> asks_refund s v = true ->
  wallet_ok (mint_tables d) -> Forall genuine (custody s) -> value (custody s) <= max_funds -> fees_value (custody s) <= max_funds ->
  match m v s d with
  | (Ok (new, added), d') => exists l' outs tx own,
      claimed (machine_operation s) (custody s) (refund_gens s) (nth_nonce 0 v) d l' outs tx own d' /\
      added = claim_machines (machine_operation s) (custody s) l' outs tx own
  | (Err _, _) => False
  | (Panic, _) => cannot_pay (custody s) d \/ too_large (custody s) (nth_nonce 0 v) d \/ submitted_before (custody s) (nth_nonce 0 v) d
  end.
Proof using fee_wf tiers_ok.
  intros Hm Hask Hs Hg Hv Hf. pose proof (claim_spec (machine_operation s) (custody s) (refund_gens s) (nth_nonce 0 v) d Hs Hg Hv Hf (refund_gens_total _ s)) as Hc.
  assert (Hcase : forall f : Z -> St,
    match (r ← unwrap (claim_inputs (machine_operation s) (note_inputs (custody s) (refund_gens s)) (nth_nonce 0 v)); mret (f (range_txid r.1), r.2) : Next) d with
    | (Ok (new, added), d') => exists l' outs tx own,
        claimed (machine_operation s) (custody s) (refund_gens s) (nth_nonce 0 v) d l' outs tx own d' /\
        added = claim_machines (machine_operation s) (custody s) l' outs tx own
    | (Err e, _) => False
    | (Panic, _) => cannot_pay (custody s) d \/ too_large (custody s) (nth_nonce 0 v) d \/ submitted_before (custody s) (nth_nonce 0 v) d
    end).
  { intros f. unfold unwrap, mbind, M_bind, mret, M_ret. destruct (claim_inputs _ _ _ d) as [[[range added]|e|] d']; [| |by auto].
    - destruct Hc as (l' & outs & tx & own & Hcl & _ & ->). by exists l', outs, tx, own.
    - destruct e; by auto. }
  clear Hc. destruct v as [tv nonces].
  destruct s as [op []|op range []|op range []|op []|op]; cbn in Hm, Hask; destruct tv as [|e|[[]|e]|m1|l1]; try discriminate Hask;
    repeat (apply elem_of_cons in Hm as [->|Hm]); try (by apply not_elem_of_nil in Hm).
  - exact (Hcase (fun t => MintIn op range (InRefund t))).
  - exact (Hcase (fun t => MintIn op range (if (length notes =? 1)%nat then InRefundedPerNote [t] else InRefundedBundle t notes))).
  - unfold user_cancel. cbn [fst]. rewrite (cancel_steps (fun t => MintOOB op (OobUserRefundMulti t spendable_notes))). exact (Hcase (fun t => MintOOB op (OobUserRefundMulti t spendable_notes))).
  - unfold timeout_cancel. cbn [fst]. rewrite (cancel_steps (fun t => MintOOB op (OobTimeoutRefund t))). exact (Hcase (fun t => MintOOB op (OobTimeoutRefund t))).
  - unfold user_cancel. cbn [fst]. rewrite (cancel_steps (fun t => MintOOB op (OobUserRefund t))). exact (Hcase (fun t => MintOOB op (OobUserRefund t))).
  - unfold timeout_cancel. cbn [fst]. rewrite (cancel_steps (fun t => MintOOB op (OobTimeoutRefund t))). exact (Hcase (fun t => MintOOB op (OobTimeoutRefund t))).
Qed.
(** ** The federation *)

Context (n : Z) (verify_signature_share : Z -> Z -> Z -> bool) (peer_tbs_pks : gmap Z (gmap Z Z)).
Context (sign_message : Z -> Z -> Z) (nonce_hash blind_nonce_hash : Z -> Z) (verify_schnorr : Z -> Z -> Z -> bool).
Context (cfg : Z -> Mint) (d0 : MintDb) (smodules : Z -> gmap Z (ServerModule MintDb MintInput MintOutput MintConsensusItem MintError)).
Context (version : CoreConsensusVersion).
Local Abbreviation CDB := (CoreDb MintDb MintInput MintOutput MintConsensusItem).
Local Abbreviation mint_of db := (mint_db mint_id d0 (modules_db db)).
Local Abbreviation share_ok := (share_ok verify_signature_share peer_tbs_pks).

(** A guardian with the configuration the client knows. *)
Record guardian_ok (p : Z) : Prop := {
  guardian_keys : mint_pub_key (cfg p) = tbs_pks;
  guardian_fees : MintServer.fee_consensus (cfg p) = fee_consensus;
  guardian_shares : forall a, is_Some (tbs_pks !! a) -> is_Some (sec_key (cfg p) !! a);
  guardian_mint : smodules p !! mint_id = Some (mint_module (cfg p) tbs_verify sign_message nonce_hash blind_nonce_hash);
  guardian_signs : forall a key message, sec_key (cfg p) !! a = Some key -> share_ok p a message (sign_message message key);
}.

(** Its database: the notes are not spent, and what the client will ask for and
    the transaction are new. *)
Record guardian_ready (l : list (Z * SN)) (s : @MintClientDb UN) (txid : Z) (db : CDB) : Prop := {
  ready_inv : mint_inv (mint_of db);
  ready_unspent : forall x, x ∈ nonce_of <$> (l ++ held (client_notes s)).*2 -> nonces (mint_of db) !! x = None;
  ready_blind : forall a i, next_index_of s a <= i -> blind_nonces (mint_of db) !! (issuance_request a i).2 = None;
  ready_new : AcceptedTransactions db !! txid = None;
  ready_outcomes : forall j, output_outcomes (mint_of db) !! {| ServerModule.txid := txid; out_idx := j |} = None;
}.

Definition guardian_processes (p : Z) (tx : Transaction MintInput MintOutput) (peer : Z) : M CDB (ItemError MintError) unit :=
  process_consensus_item_with_db_transaction d0 (smodules p) tx_hash_from_parts verify_schnorr version (TransactionItem tx) peer.

(** [output_status] of the mint, for the endpoint. *)
Definition mint_status (module_id : Z) (out_point : OutPoint) (db : CDB) : option SerdeOutputOutcome :=
  match with_module (F := MintError) d0 module_id (mint_output_status out_point) (modules_db db) with
  | (Ok r, _) => OutcomeV0 <$> r
  | _ => None
  end.

(** What the output machine of a transaction asks for. *)
Definition out_range (txid : Z) (outs : list (ClientOutput (Req := Req))) : OutPointRange :=
  {| range_txid := txid; idx_range := {| range_start := 0; range_end := Z.of_nat (length outs) |} |}.
Definition asked (outs : list (ClientOutput (Req := Req))) : gmap Z (Z * Req) :=
  list_to_map (zip (seqZ 0 (Z.of_nat (length outs))) ((fun o => (co_amount o, co_request o)) <$> outs)).

Lemma zip_keys (outs : list (ClientOutput (Req := Req))) :
  (zip (seqZ 0 (Z.of_nat (length outs))) ((fun o => (co_amount o, co_request o)) <$> outs)).*1 = seqZ 0 (Z.of_nat (length outs)).
Proof using. apply fst_zip. rewrite length_fmap, length_seqZ. lia. Qed.

Lemma asked_lookup outs i a r : asked outs !! i = Some (a, r) <-> 0 <= i /\ exists o, outs !! Z.to_nat i = Some o /\ a = co_amount o /\ r = co_request o.
Proof using.
  unfold asked. rewrite <- elem_of_list_to_map by (rewrite zip_keys; apply NoDup_seqZ). rewrite elem_of_lookup_zip_with. split.
  - intros (k & i' & ar & Heq & Hi & Hk). injection Heq as -> <-. apply lookup_seqZ in Hi as [-> Hlt]. rewrite list_lookup_fmap in Hk.
    destruct (outs !! k) as [o|] eqn:Ho; [|done]. injection Hk as <- <-. split; [lia|]. exists o. split; [|done]. by replace (Z.to_nat (0 + Z.of_nat k)) with k by lia.
  - intros (Hi & o & Ho & -> & ->). pose proof (lookup_lt_Some _ _ _ Ho). exists (Z.to_nat i), i, (co_amount o, co_request o). split_and!; [done|apply lookup_seqZ; lia|].
    by rewrite list_lookup_fmap, Ho.
Qed.

Lemma asked_ok txid outs : Z.of_nat (length outs) <= u64_max -> Forall (fun o => is_Some (tbs_pks !! co_amount o)) outs ->
  requests_ok tbs_pks (out_range txid outs) (asked outs).
Proof using.
  intros Hlen Hks. split; cbn [out_range idx_range range_start range_end]; [|done|done|].
  - intros i. split.
    + intros [[a r] (Hi & o & Ho & _)%asked_lookup]. apply lookup_lt_Some in Ho. lia.
    + intros Hi. destruct (lookup_lt_is_Some_2 outs (Z.to_nat i)) as [o Ho]; [lia|]. exists (co_amount o, co_request o). apply asked_lookup. split; [lia|by exists o].
  - intros i a r (_ & o & Ho & -> & _)%asked_lookup. rewrite Forall_forall in Hks. apply Hks. by eapply list_elem_of_lookup_2.
Qed.

(** The amounts that are asked for. *)
Lemma asked_amounts outs : (requested public_key (asked outs)).*1 ≡ₚ co_amount <$> outs.
Proof using.
  unfold requested. rewrite <- list_fmap_compose.
  assert (Hp : btree_iter (asked outs) ≡ₚ zip (seqZ 0 (Z.of_nat (length outs))) ((fun o => (co_amount o, co_request o)) <$> outs)).
  { rewrite btree_iter_perm. unfold asked. apply map_to_list_to_map. rewrite zip_keys. apply NoDup_seqZ. }
  rewrite Hp. apply reflexive_eq. trans (fst <$> (zip (seqZ 0 (Z.of_nat (length outs))) ((fun o => (co_amount o, co_request o)) <$> outs)).*2);
    [by rewrite <- list_fmap_compose|].
  rewrite snd_zip by (rewrite length_fmap, length_seqZ; lia). by rewrite <- list_fmap_compose.
Qed.

(** The schnorr signatures of the inputs verify, and different notes have
    different blind nonces. *)
Hypothesis schnorr : forall message key, verify_schnorr (sign_schnorr message key) message (public_key key) = true.
Hypothesis issuance_inj : forall a i a' i', (issuance_request a i).2 = (issuance_request a' i').2 -> a = a' /\ i = i'.
Hypothesis overpay : version_lt version OVERPAY_MIN_VERSION = false.

(** A guardian accepts the transaction of a claim and signs what it asks for. *)
Lemma guardian_accepts_claim p peer op l gens nonce d l' outs tx own d' db :
  guardian_ok p -> claimed op l gens nonce d l' outs tx own d' -> wallet_ok (mint_tables d) -> Forall genuine l ->
  NoDup (nonce_of <$> (l ++ held (client_notes (mint_tables d))).*2) -> guardian_ready l (mint_tables d) (tx_hash tx_hash_from_parts tx) db ->
  exists db', guardian_processes p tx peer db = (Ok tt, db') /\
    AcceptedTransactions db' !! tx_hash tx_hash_from_parts tx = Some (replicate (length outs) mint_id) /\
    (forall x, x ∈ nonce_of <$> (l ++ l').*2 -> is_Some (nonces (mint_of db') !! x)) /\
    forall (k : nat) x, outs !! k = Some x -> exists key, sec_key (cfg p) !! co_amount x = Some key /\
      output_outcomes (mint_of db') !! {| txid := tx_hash tx_hash_from_parts tx; out_idx := Z.of_nat k |} = Some (sign_message (co_blind_nonce x) key).
Proof using fee_wf schnorr issuance_inj overpay.
  intros [Hk Hfe Hsh Hreg _] [Htx (s1 & Hsp & Hiss) [Hmade Hks] Hfund _ _ _ _] Hs Hg Hnd [Hinv Hun Hbl Hnew Hout].
  destruct (spent_facts _ _ _ _ _ _ _ (proj1 Hs) Hsp) as (Hg' & _).
  destruct (issued_blind_nonces issuance_request issuance_inj s1 outs (mint_tables d') Hiss) as [Hbnd Hbn].
  assert (Hsub : nonce_of <$> (l ++ l').*2 ⊆+ nonce_of <$> (l ++ held (client_notes (mint_tables d))).*2).
  { do 2 apply fmap_submseteq. apply submseteq_skips_l. rewrite (spent_held _ _ _ _ _ _ _ Hsp). by apply submseteq_inserts_l. }
  destruct (guardian_accepts (UN := UN) public_key decode tbs_verify issuance_request tbs_pks fee_consensus fee_wf op mint_id (modules op) (mint_registered op)
    (cfg p) sign_message nonce_hash blind_nonce_hash Hk Hfe Hsh d0 (smodules p) Hreg tx_hash_from_parts sign_schnorr verify_schnorr schnorr
    Consensus version nonce (l ++ l') outs (modules_db db) tx) as (g' & Hrun & Hspent & Hsigned); try (done || by rewrite Htx); [by apply Forall_app|..|lia|lia|].
  - apply submseteq_Permutation in Hsub as [k Hp]. rewrite Hp in Hnd. by apply NoDup_app in Hnd as [Hnd _].
  - intros x Hx. apply Hun. by eapply elem_of_submseteq.
  - intros x (a & i & -> & Hi)%Hbn. apply Hbl. unfold next_index_of in *. by rewrite <- (spent_index _ _ _ _ _ _ _ Hsp).
  - unfold guardian_processes, process_consensus_item_with_db_transaction, on_modules, zoom, map_err, get_value, insert_entry, gets, modify, mbind, M_bind, mret, M_ret. cbn.
    rewrite Hnew, Hrun. eexists. split; [done|]. cbn. rewrite lookup_insert_eq. split_and!; [|done|done]. f_equal.
    rewrite Htx. unfold note_tx, MintPrimary.tx_outputs. cbn [outputs]. clear. induction outs as [|o outs IH]; [done|]. rewrite !fmap_cons, IH. done.
Qed.

(** The answer of such a guardian to the output machine. *)
Lemma guardian_answers p txid (s1 s2 : @MintClientDb UN) outs db' :
  guardian_ok p -> issued s1 outs s2 -> Z.of_nat (length outs) <= MAX_OUTPUTS_OUTCOMES_BATCH ->
  AcceptedTransactions db' !! txid = Some (replicate (length outs) mint_id) ->
  (forall (k : nat) x, outs !! k = Some x -> exists key, sec_key (cfg p) !! co_amount x = Some key /\
    output_outcomes (mint_of db') !! {| ServerModule.txid := txid; out_idx := Z.of_nat k |} = Some (sign_message (co_blind_nonce x) key)) ->
  exists answer, await_outputs_outcomes mint_status (out_range txid outs) db' = Some (Some answer) /\
    length answer = idx_count (idx_range (out_range txid outs)) /\ complete_answer answer /\
    signed_answer public_key blind_message verify_signature_share peer_tbs_pks (asked outs) p 0 answer.
Proof using.
  intros Hp Hiss Hmax Hacc Hout.
  destruct (await_outputs_outcomes_range mint_status (out_range txid outs) db' (replicate (length outs) mint_id)) as (answer & Ha & Hlen & Hat);
    [done|cbn; lia|cbn; by rewrite length_replicate|by rewrite length_replicate|]. cbn [out_range range_txid] in Hat.
  assert (Hcount : idx_count (idx_range (out_range txid outs)) = length outs) by (unfold idx_count, idx_iter; cbn; rewrite length_seqZ; lia).
  assert (Hs : forall (k : nat) o, answer !! k = Some o -> exists x key, outs !! k = Some x /\ sec_key (cfg p) !! co_amount x = Some key /\
    o = Some (OutcomeV0 (sign_message (co_blind_nonce x) key))).
  { intros k o Hk. pose proof (lookup_lt_Some _ _ _ Hk) as Hlt. rewrite Hlen, Hcount in Hlt. destruct (lookup_lt_is_Some_2 outs k Hlt) as [x Hx].
    destruct (Hout k x Hx) as (key & Hkey & Ho). exists x, key. split_and!; [done|done|].
    destruct (Hat k (Z.of_nat k)) as (o' & Ho' & Haw); [apply lookup_seqZ; cbn; lia|]. rewrite Hk in Ho'. injection Ho' as <-.
    unfold await_output_outcome in Haw. cbn [ServerModule.txid out_idx] in Haw. rewrite Hacc in Haw. cbn [mbind option_bind] in Haw.
    rewrite Nat2Z.id, lookup_replicate_2 in Haw by done. cbn [mbind option_bind] in Haw. injection Haw as <-.
    unfold mint_status, with_module, zoom, mint_output_status, get_value, gets. cbn.
    unfold mint_db in Ho. by rewrite Ho. }
  exists answer. split_and!; [done|done|split|].
  - apply Forall_forall. intros o (k & Hk)%list_elem_of_lookup. destruct (Hs k o Hk) as (x & key & _ & _ & ->). by eexists.
  - intros (k & Hk)%list_elem_of_lookup. by destruct (Hs k _ Hk) as (x & key & _ & _ & [=]).
  - intros k o Hk. destruct (Hs k o Hk) as (x & key & Hx & Hkey & ->). exists (co_amount x), (co_request x), (sign_message (co_blind_nonce x) key).
    split_and!; [done|apply asked_lookup; split; [lia|]; exists x; split; [|done]; by replace (Z.to_nat (0 + Z.of_nat k)) with k by lia|].
    pose proof (issued_outputs _ _ _ _ Hiss) as Ho. rewrite Forall_forall in Ho. destruct (Ho x) as [_ Hreq]; [by eapply list_elem_of_lookup_2|].
    assert (blinded_message public_key blind_message (co_request x) = co_blind_nonce x) as ->.
    { unfold NoteIssuanceRequest_new in Hreq. by injection Hreq as -> ->. }
    by apply (guardian_signs _ Hp).
Qed.

Hypothesis stored : forall sn, decode (to_undecoded sn) = Some sn.
Hypothesis shares_combine : forall message amount key (shares : gmap Z Z),
  tbs_pks !! amount = Some key -> threshold n <= Z.of_nat (size shares) ->
  (forall p s, shares !! p = Some s -> share_ok p amount message s) ->
  verify_blinded_signature message (aggregate_signature_shares shares) key = true.
Hypothesis unblind_verifies : forall nonce bk sig key,
  verify_blinded_signature (blind_message nonce bk) sig key = true -> tbs_verify nonce (unblind_signature bk sig) key = true.

Local Abbreviation batch_verifier := (batch_verifier public_key blind_message verify_signature_share peer_tbs_pks).
Local Abbreviation requested := (requested public_key).
Local Abbreviation notes_ok := (notes_ok decode nonce_of verify tbs_pks).

(** What the notes that were received are worth. *)
Lemma received_cost (notes : list (Z * SN)) outs :
  (fun an => (an.1, nonce_of an.2)) <$> notes = requested (asked outs) -> output_cost fee_consensus outs = value notes + fees_value notes.
Proof using.
  intros Hn. assert (Hp : notes.*1 ≡ₚ co_amount <$> outs).
  { rewrite <- asked_amounts, <- Hn, <- list_fmap_compose. done. }
  unfold output_cost, MintClient.fees_value, TieredMulti.value.
  rewrite <- (sum_list_perm _ _ (fmap_Permutation _ _ _ Hp)).
  clear. induction notes as [|[a sn] notes IH]; [done|]. rewrite !fmap_cons, !sum_list_cons. unfold cost_of at 1. cbn [fst]. lia.
Qed.

(** The guardians of a claim have answered: its output machine ends. *)
Lemma claim_received op l gens nonce d l' outs tx own d' peer dbs tr q (good : gset Z) d1 :
  let txid := tx_hash tx_hash_from_parts tx in
  claimed op l gens nonce d l' outs tx own d' -> wallet_ok (mint_tables d) -> Forall genuine l ->
  NoDup (nonce_of <$> (l ++ held (client_notes (mint_tables d))).*2) ->
  0 < threshold n -> threshold n <= Z.of_nat (size good) -> Z.of_nat (length outs) <= MAX_OUTPUTS_OUTCOMES_BATCH ->
  (forall p, p ∈ good -> guardian_ok p /\ guardian_ready l (mint_tables d) txid (dbs p) /\
    exists answer, await_outputs_outcomes mint_status (out_range txid outs) (guardian_processes p tx peer (dbs p)).2 = Some (Some answer) /\ (p, answer) ∈ tr) ->
  retried n (FilterMapThreshold_new (batch_verifier (out_range txid outs) (asked outs)) n) tr q ->
  (forall p answer, (p, answer) ∈ tr -> complete_answer answer) ->
  notes_ok (client_notes (mint_tables d1)) -> fresh_notes (client_notes (mint_tables d1)) (requested (asked outs)) ->
  exists shares notes total d2, batch_ready n (out_range txid outs) (asked outs) q = Fired shares /\
    output_ready (TvMultiShares shares, []) (MintOut op (out_range txid outs) (OutCreatedMulti (asked outs))) d1
      = (Ok (MintOut op (out_range txid outs) (OutSucceeded total), []), d2) /\
    held (client_notes (mint_tables d2)) ≡ₚ held (client_notes (mint_tables d1)) ++ notes /\ Forall genuine notes /\
    value notes + fees_value notes = output_cost fee_consensus outs.
Proof using fee_wf tiers_ok schnorr issuance_inj overpay stored shares_combine unblind_verifies.
  intros txid Hcl Hs Hg Hnd Ht Hgood Hmax Hp Hq Hall Hok Hfresh. pose proof Hcl as [_ (s1 & _ & Hiss) [_ Hks] _ _ _ _ _].
  destruct (issuance_completes (UN := UN) public_key blind_message unblind_signature tbs_verify verify_blinded_signature verify_signature_share aggregate_signature_shares
    decode to_undecoded tbs_pks peer_tbs_pks stored n shares_combine unblind_verifies (tier_of_key tbs_pks tiers_ok)
    (out_range txid outs) (asked outs) tr q good op d1) as (shares & notes & d2 & Hfire & Hrun & [Hheld _ _ _] & Hgn & Hkeys); try done.
  - apply asked_ok; [|done]. unfold MAX_OUTPUTS_OUTCOMES_BATCH in Hmax. unfold u64_max. lia.
  - intros p Hin. destruct (Hp p Hin) as (Hok' & Hready & answer & Ha & Htr). exists answer. split; [done|].
    destruct (guardian_accepts_claim p peer op l gens nonce d l' outs tx own d' (dbs p) Hok' Hcl Hs Hg Hnd Hready) as (db' & Hdb & Hacc & _ & Hout).
    destruct (guardian_answers p txid s1 (mint_tables d') outs db' Hok' Hiss Hmax Hacc Hout) as (answer' & Ha' & Hlen & _ & Hsig).
    rewrite Hdb in Ha. cbn [snd] in Ha. rewrite Ha in Ha'. by injection Ha' as <-.
  - exists shares, notes, (Amount.sum notes.*1), d2. split_and!; [done| |done|done|by rewrite (received_cost notes outs)].
    unfold output_ready. cbn [fst]. by rewrite (run_bind _ _ _ _ _ Hrun).
Qed.

Lemma claim_machines_in op l l' outs tx own :
  let added := claim_machines op l l' outs tx own in let txid := tx_hash tx_hash_from_parts tx in
  TxSubmission op (TxCreated tx) ∈ added /\
  (l' <> [] -> exists range, range_txid range = txid /\ MintIn op range (InCreatedBundle l') ∈ added) /\
  (outs <> [] -> MintOut op (out_range txid outs) (OutCreatedMulti (asked outs)) ∈ added).
Proof using.
  cbv zeta. unfold claim_machines, input_machines, output_machines. split_and!.
  - apply elem_of_app. right. by left.
  - intros Hl. destruct l' as [|an l']; [done|]. cbn [length Nat.eqb]. eexists. split; cycle 1.
    + apply elem_of_app. left. apply list_elem_of_fmap. eexists. split; cycle 1; [apply elem_of_app; right; apply elem_of_app; left; by left|reflexivity].
    + reflexivity.
  - intros Ho. destruct outs as [|o outs]; [done|]. cbn [length Nat.eqb].
    apply elem_of_app. left. apply list_elem_of_fmap. eexists. split; cycle 1; [apply elem_of_app; right; apply elem_of_app; right; by left|].
    unfold asked, out_range, into_dyn, idx_iter. cbn [range_start range_end]. by rewrite Z.sub_0_r.
Qed.

End machines.

(** ** A payment that is rejected *)

Module MintMachinesExample.
Import MintPrimaryExample MintIssuanceExample.
Definition child_key (amount index : Z) : Z := 1000 + Z.pos (encode (amount, index)).
Definition size_of (tx : Transaction MintInput MintOutput) : Z := 60 * Z.of_nat (length (inputs tx) + length (outputs tx)).
Definition sign_share (message key : Z) : Z := key.
Definition fees : Fee.FeeConsensus := {| Fee.base := 1; Fee.parts_per_million := 0 |}.
Definition cfg : Mint := {| MintServer.fee_consensus := fees; sec_key := tbs_pks; mint_pub_key := tbs_pks |}.
Definition registry : gmap Z (ServerModule MintDb MintInput MintOutput MintConsensusItem MintError) :=
  {[ 1 := mint_module cfg tbs_verify sign_share hash hash ]}.
Abbreviation SN := (SpendableNote (Key := Z)).
Definition client_with (notes : gmap (Z * Z) SN) : ClientDb SN :=
  {| mint_tables := {| client_notes := notes; next_note_index := ∅; event_log := [] |}; transaction_fees := ∅; client_log := [] |}.

Abbreviation bundle_success := (created_bundle_success (UN := SN) id blind_message tbs_verify Some tbs_pks fees child_key child_key 1
  tx_hash_from_parts sign_schnorr size_of).
Abbreviation per_note_success := (refunded_bundle_success (UN := SN) id blind_message tbs_verify Some tbs_pks fees child_key child_key 1
  tx_hash_from_parts sign_schnorr size_of).
Abbreviation ready := (output_ready (UN := SN) id blind_message unblind_signature tbs_verify (fun _ => Z.eqb) aggregate to_undecoded tbs_pks).

Definition spent_range : OutPointRange := {| range_txid := 8; idx_range := {| range_start := 0; range_end := 2 |} |}.
(** Two notes were sent; the transaction is rejected, and the refund has the
    nonce 3. *)
Definition rejected : MachineState Z := MintIn 5 spent_range (InCreatedBundle [(512, sn_of 20); (1024, sn_of 21)]).
Definition v : V := (TvResult (inr 4), [3]).

Definition transition := bundle_success v rejected (client_with ∅).
Definition refund_tx : option (Transaction MintInput MintOutput) :=
  match transition with
  | (Ok (_, added), _) => head (omap (fun s => match s with TxSubmission _ (TxCreated tx) => Some tx | _ => None end) added)
  | _ => None
  end.
Definition refund_output : option (Z * OutPointRange * gmap Z (Z * NoteIssuanceRequest)) :=
  match transition with
  | (Ok (_, added), _) => head (omap (fun s => match s with MintOut op range (OutCreatedMulti requests) => Some (op, range, requests) | _ => None end) added)
  | _ => None
  end.
Definition core_db : CoreDb MintDb MintInput MintOutput MintConsensusItem := CoreDb_empty.
Definition processed (tx : Transaction MintInput MintOutput) :=
  guardian_processes tx_hash_from_parts verify_schnorr MintDb_empty (fun _ => registry) version 0 tx 2 core_db.

(** The whole way, evaluated. *)
Definition final_value : option Z :=
  tx ← refund_tx; out ← refund_output; let '(op, range, requests) := out in
  answer ← await_outputs_outcomes (mint_status MintDb_empty) range (processed tx).2 ≫= id;
  let verifier := batch_verifier id blind_message verify_share peer_tbs_pks range requests in
  q ← replay_retry (request_retry 4 (FilterMapThreshold_new verifier 4)) [(0, answer); (3, answer); (1, answer)];
  match batch_ready 4 range requests q with
  | Fired shares =>
      match ready (TvMultiShares shares, []) (MintOut op range (OutCreatedMulti requests)) transition.2 with
      | (Ok _, d2) => Some (TieredMulti.value (held Some (client_notes (mint_tables d2))))
      | _ => None
      end
  | _ => None
  end.
(** Two inputs and 23 outputs cost a fee of one each, and one is lost. *)
Lemma refund_evaluated : final_value = Some (1536 - 25 - 1).
Proof. vm_compute. reflexivity. Qed.

Lemma cheap_fees_wf : Fee.wf fees.
Proof. split; simpl; lia. Qed.

Lemma guardian_fine p : (0 <= p < 4) ->
  guardian_ok tbs_verify tbs_pks fees 1 verify_share peer_tbs_pks sign_share hash hash (fun _ => cfg) (fun _ => registry) p.
Proof.
  intros Hp. split; [done|done|done|apply lookup_singleton_eq|]. intros a key message Hk. exists tbs_pks, key. split_and!; [|done|apply Z.eqb_refl].
  assert (Hc : p = 0 \/ p = 1 \/ p = 2 \/ p = 3) by lia. by destruct Hc as [->|[->|[->| ->]]].
Qed.

Lemma requests_differ a i a' i' : (NoteIssuanceRequest_new id blind_message child_key child_key a i).2 = (NoteIssuanceRequest_new id blind_message child_key child_key a' i').2 ->
  a = a' /\ i = i'.
Proof.
  intros H%Pos2Z.inj%(inj encode)%(f_equal fst). change (child_key a i = child_key a' i') in H. unfold child_key in H. apply Z.add_reg_l, Pos2Z.inj, (inj encode) in H. by simplify_eq.
Qed.

Lemma empty_wallet : wallet_ok id Some tbs_verify tbs_pks (mint_tables (client_with ∅)).
Proof.
  split; [split; [apply map_Forall_to_list; constructor|by vm_compute]|].
  intros a. unfold next_index_of. cbn. rewrite lookup_empty. cbn. lia.
Qed.


(** A note that is worth less than its fee, in an empty wallet: the machine
    panics, at every start of the client. *)
Lemma refund_panics : exists d', created_bundle_success (UN := SN) id blind_message tbs_verify Some tbs_pks MintPrimaryExample.fees child_key child_key 1
  tx_hash_from_parts sign_schnorr size_of v (MintIn 5 spent_range (InCreatedBundle [(1, sn_of 20)])) (client_with ∅) = (Panic, d').
Proof. eexists. vm_compute. reflexivity. Qed.

(** Nine small notes and one of 512. *)
Definition dust : gmap (Z * Z) SN := list_to_map ((fun k => ((1, k), sn_of k)) <$> [1; 2; 3; 4; 5; 6; 7; 8; 9]) ∪ {[ (512, 10) := sn_of 10 ]}.

(** A note of a rejected refund that cannot be claimed is skipped, but the five
    notes that were consolidated for it are gone: no machine was added, and the
    wallet has lost them. *)
Lemma skipped_refund_loses_notes : exists d', refunded_bundle_success (UN := SN) id blind_message tbs_verify Some tbs_pks MintPrimaryExample.fees child_key child_key 1
    tx_hash_from_parts sign_schnorr size_of v (MintIn 5 spent_range (InRefundedBundle 9 [(1, sn_of 20)])) (client_with dust)
    = (Ok (MintIn 5 spent_range (InRefundedPerNote []), []), d') /\
  TieredMulti.value (held Some dust) = 521 /\ TieredMulti.value (held Some (client_notes (mint_tables d'))) = 516.
Proof. eexists. split; [vm_compute; reflexivity|]. split; vm_compute; reflexivity. Qed.
End MintMachinesExample.
