(* ===== verification/Lnv2Client.v ===== *)
(** * The client of the second lightning module

    [modules/fedimint-lnv2-client/src/lib.rs] and its state machines in
    [send_sm.rs] and [receive_sm.rs]: paying and requesting invoices through a
    gateway, the contracts that are funded and claimed, and what a user is told.
    The module works next to any primary module, whose items and machines are
    arguments; the machines run on the executor of [Executor].  Keys, hashes and
    the threshold encryption are parameters. *)

From S2P Require Import Prelude Db Amounts ServerModule Transaction Lnv2Server Tiered NoteSelection MintClient SendAmount ClientTx Submission Executor Gateways.

(** ** Data *)

Record SendOperationMeta := {
  change_outpoint_range : OutPointRange;
  send_gateway : Z;
  sent_contract : OutgoingContract;
  sent_invoice : Bolt11Invoice;
  send_custom_meta : Z;
}.
Record ReceiveOperationMeta := {
  receive_gateway : Z;
  received_contract : IncomingContract;
  received_invoice : Bolt11Invoice;
  receive_custom_meta : Z;
}.
Inductive LightningOperationMeta :=
| MetaSend (m : SendOperationMeta)
| MetaReceive (m : ReceiveOperationMeta)
| MetaLnurlReceive (contract : IncomingContract) (custom_meta : Z).

(** [SendOperationMeta::gateway_fee] and [ReceiveOperationMeta::gateway_fee];
    [None] is an invoice without an amount, which panics. *)
Definition send_gateway_fee (m : SendOperationMeta) : option Z :=
  a ← amount_milli_satoshis (sent_invoice m); Some (saturating_sub (out_amount (sent_contract m)) a).
Definition receive_gateway_fee (m : ReceiveOperationMeta) : option Z :=
  a ← amount_milli_satoshis (received_invoice m); Some (saturating_sub a (commitment_amount (commitment (received_contract m)))).

Inductive SendPaymentStatus := StatusSuccess (preimage : Z) | StatusRefunded.

Inductive LightningEvent :=
| SendPaymentEvent (operation_id amount fee : Z)
| SendPaymentUpdateEvent (operation_id : Z) (status : SendPaymentStatus)
| ReceivePaymentEvent (operation_id amount fee : Z)
| LnTxCreatedEvent (txid operation_id : Z)
| LnTxAcceptedEvent (txid operation_id : Z)
| LnTxRejectedEvent (txid operation_id error : Z).

Inductive SendPaymentError :=
| InvoiceMissingAmount
| InvoiceExpired
| DuplicatePaymentAttempt (operation_id : Z)
| SendSelectGateway (e : SelectGatewayError)
| SendFailedToConnectToGateway
| SendFederationNotSupported
| SendGatewayFeeExceedsLimit
| GatewayExpirationExceedsLimit
| FailedToRequestBlockCount
| FailedToFundPayment (e : TransactionSubmitError)
| WrongCurrency (invoice_currency federation_currency : Z).

Inductive SendWithTermsError :=
| SendTermsChanged (send_fee : PaymentFee) (expiration_delta : Z)
| SendError (e : SendPaymentError).

Inductive ReceiveError :=
| ReceiveSelectGateway (e : SelectGatewayError)
| ReceiveFailedToConnectToGateway
| ReceiveFederationNotSupported
| ReceiveDisabled
| ReceiveGatewayFeeExceedsLimit
| AmountTooSmall
| InvalidInvoice
| IncorrectInvoiceAmount
| InvoiceExpiryTooLong.

Inductive ReceiveWithTermsError :=
| ReceiveTermsChanged (receive_fee : PaymentFee)
| ReceiveFailed (e : ReceiveError).

(** What a user is told of a send and of a receive. *)
Inductive SendOperationState :=
| StateFunding
| StateFunded
| StateSuccess (preimage : Z)
| StateRefunding
| StateRefunded
| StateFailure.
Inductive FinalSendOperationState := FinalSuccess (preimage : Z) | FinalRefunded | FinalFailure.

Inductive ReceiveOperationState :=
| StatePending
| StateExpired
| StateClaiming
| StateClaimed
| StateReceiveFailure
| StateUneconomical.

Inductive InvoiceSendStatus :=
| NotAttempted
| InFlight (operation_id : Z)
| Succeeded (operation_id : Z)
| Failed (operation_id : Z).

Inductive SpendableAmountError :=
| RoutingInfoFailed
| SpendableFederationNotSupported
| SpendableSelectGateway (e : SelectGatewayError)
| SendFeeExceedsLimit (fee limit : PaymentFee)
| QuoteFailed (e : TransactionSubmitError)
| BalanceTooLow (balance : Z).

Definition EXPIRATION_DELTA_LIMIT : Z := 1440.
Definition CONTRACT_CONFIRMATION_BUFFER : Z := 12.
Definition MAX_INVOICE_EXPIRY_SECS : Z := 60 * 60 * 24.

(** ** State machines *)

Inductive SendSMState :=
| SendFunding
| SendFunded
| SendRejected (error : Z)
| SendSuccess (preimage : Z)
| SendRefunding (out_points : list OutPoint).

Inductive ReceiveSMState :=
| ReceivePending
| ReceiveClaiming (out_points : list OutPoint)
| ReceiveExpired
| ReceiveUneconomical.

Record SendSMCommon {Key : Type} := {
  send_operation_id : Z;
  send_outpoint : OutPoint;
  send_contract : OutgoingContract;
  gateway_api : option Z;
  send_invoice : option Bolt11Invoice;
  refund_keypair : Key;
}.
Arguments SendSMCommon : clear implicits.

Record ReceiveSMCommon {Key : Type} := {
  receive_operation_id : Z;
  receive_contract : IncomingContract;
  claim_keypair : Key;
  agg_decryption_key : Z;
}.
Arguments ReceiveSMCommon : clear implicits.

Inductive LightningClientStateMachines (Key : Type) :=
| SendMachine (common : SendSMCommon Key) (state : SendSMState)
| ReceiveMachine (common : ReceiveSMCommon Key) (state : ReceiveSMState).
Arguments SendMachine {_}.
Arguments ReceiveMachine {_}.

(** The machines of the client: those of this module, the submission of
    transactions, and those of the primary module. *)
Inductive MachineState (PIn POut Key PSt : Type) :=
| LnMachine (s : LightningClientStateMachines Key)
| TxMachine (operation_id : Z) (s : TxSubmissionStates (LightningInput + PIn) (LightningOutput + POut))
| OtherMachine (s : PSt).
Arguments LnMachine {_ _ _ _}.
Arguments TxMachine {_ _ _ _}.
Arguments OtherMachine {_ _ _ _}.

(** What a trigger returns: whether a transaction was accepted, the answer of a
    gateway, a preimage or an out point from the federation, or a value for
    another machine. *)
Inductive LnTriggerValue (OV : Type) :=
| TvTx (r : unit + Z)
| TvGateway (response : Z + Z)
| TvPreimage (preimage : option Z)
| TvContract (outpoint : option OutPoint)
| TvOther (v : OV).
Arguments TvTx {_}.
Arguments TvGateway {_}.
Arguments TvPreimage {_}.
Arguments TvContract {_}.
Arguments TvOther {_}.

(** *** States as keys *)
Section countable.
#[export] Instance PaymentImage_eq : EqDecision PaymentImage. Proof. solve_decision. Defined.
#[export] Instance PaymentImage_countable : Countable PaymentImage :=
  inj_countable' (fun i => match i with Hash h => inl h | Point p => inr p end) (fun x => match x with inl h => Hash h | inr p => Point p end) ltac:(by intros []).
#[export] Instance OutgoingContract_eq : EqDecision OutgoingContract. Proof. solve_decision. Defined.
#[export] Instance OutgoingContract_countable : Countable OutgoingContract :=
  inj_countable' (fun c => (out_payment_image c, out_amount c, expiration c, out_claim_pk c, out_refund_pk c, out_ephemeral_pk c))
    (fun x => let '(a, b, c, d, e, f) := x in {| out_payment_image := a; out_amount := b; expiration := c; out_claim_pk := d; out_refund_pk := e; out_ephemeral_pk := f |})
    ltac:(by intros []).
#[export] Instance Commitment_eq : EqDecision Commitment. Proof. solve_decision. Defined.
#[export] Instance Commitment_countable : Countable Commitment :=
  inj_countable' (fun c => (payment_image c, commitment_amount c, expiration_or_fee c, claim_pk c, refund_pk c, ephemeral_pk c))
    (fun x => let '(a, b, c, d, e, f) := x in {| payment_image := a; commitment_amount := b; expiration_or_fee := c; claim_pk := d; refund_pk := e; ephemeral_pk := f |})
    ltac:(by intros []).
#[export] Instance IncomingContract_eq : EqDecision IncomingContract. Proof. solve_decision. Defined.
#[export] Instance IncomingContract_countable : Countable IncomingContract :=
  inj_countable' (fun c => (commitment c, ciphertext c)) (fun x => {| commitment := x.1; ciphertext := x.2 |}) ltac:(by intros []).
#[export] Instance OutgoingWitness_eq : EqDecision OutgoingWitness. Proof. solve_decision. Defined.
#[export] Instance OutgoingWitness_countable : Countable OutgoingWitness :=
  inj_countable' (fun w => match w with Claim p => inl p | Refund => inr None | Cancel s => inr (Some s) end)
    (fun x => match x with inl p => Claim p | inr None => Refund | inr (Some s) => Cancel s end) ltac:(by intros []).
#[export] Instance LightningInput_eq : EqDecision LightningInput. Proof. solve_decision. Defined.
#[export] Instance LightningInput_countable : Countable LightningInput :=
  inj_countable' (fun i => match i with InputOutgoing o w => inl (o, w) | InputIncoming o k => inr (inl (o, k)) | LightningInputDefault v b => inr (inr (v, b)) end)
    (fun x => match x with inl (o, w) => InputOutgoing o w | inr (inl (o, k)) => InputIncoming o k | inr (inr (v, b)) => LightningInputDefault v b end) ltac:(by intros []).
#[export] Instance LightningOutput_eq : EqDecision LightningOutput. Proof. solve_decision. Defined.
#[export] Instance LightningOutput_countable : Countable LightningOutput :=
  inj_countable' (fun i => match i with OutputOutgoing c => inl c | OutputIncoming c => inr (inl c) | LightningOutputDefault v b => inr (inr (v, b)) end)
    (fun x => match x with inl c => OutputOutgoing c | inr (inl c) => OutputIncoming c | inr (inr (v, b)) => LightningOutputDefault v b end) ltac:(by intros []).
#[export] Instance Bolt11Invoice_eq : EqDecision Bolt11Invoice. Proof. solve_decision. Defined.
#[export] Instance Bolt11Invoice_countable : Countable Bolt11Invoice :=
  inj_countable' (fun i => (payment_hash i, amount_milli_satoshis i, payee_pub_key i, invoice_currency i, invoice_tail i))
    (fun x => let '(a, b, c, d, e) := x in {| payment_hash := a; amount_milli_satoshis := b; payee_pub_key := c; invoice_currency := d; invoice_tail := e |})
    ltac:(by intros []).
#[export] Instance SendSMState_eq : EqDecision SendSMState. Proof. solve_decision. Defined.
#[export] Instance SendSMState_countable : Countable SendSMState :=
  inj_countable' (fun s => match s with SendFunding => inl false | SendFunded => inl true | SendRejected e => inr (inl e) | SendSuccess p => inr (inr (inl p)) | SendRefunding l => inr (inr (inr l)) end)
    (fun x => match x with inl b => if b then SendFunded else SendFunding | inr (inl e) => SendRejected e | inr (inr (inl p)) => SendSuccess p | inr (inr (inr l)) => SendRefunding l end) ltac:(by intros []).
#[export] Instance ReceiveSMState_eq : EqDecision ReceiveSMState. Proof. solve_decision. Defined.
#[export] Instance ReceiveSMState_countable : Countable ReceiveSMState :=
  inj_countable' (fun s => match s with ReceivePending => inl 0 | ReceiveExpired => inl 1 | ReceiveUneconomical => inl 2 | ReceiveClaiming l => inr l end)
    (fun x => match x with inl k => if k =? 0 then ReceivePending else if k =? 1 then ReceiveExpired else ReceiveUneconomical | inr l => ReceiveClaiming l end) ltac:(by intros []).

Context `{Countable Key}.
#[export] Instance SendSMCommon_eq : EqDecision (SendSMCommon Key). Proof using EqDecision0. solve_decision. Defined.
#[export] Instance SendSMCommon_countable : Countable (SendSMCommon Key) :=
  inj_countable' (fun c => (send_operation_id c, send_outpoint c, send_contract c, gateway_api c, send_invoice c, refund_keypair c))
    (fun x => let '(a, b, c, d, e, f) := x in {| send_operation_id := a; send_outpoint := b; send_contract := c; gateway_api := d; send_invoice := e; refund_keypair := f |})
    ltac:(by intros []).
#[export] Instance ReceiveSMCommon_eq : EqDecision (ReceiveSMCommon Key). Proof using EqDecision0. solve_decision. Defined.
#[export] Instance ReceiveSMCommon_countable : Countable (ReceiveSMCommon Key) :=
  inj_countable' (fun c => (receive_operation_id c, receive_contract c, claim_keypair c, agg_decryption_key c))
    (fun x => let '(a, b, c, d) := x in {| receive_operation_id := a; receive_contract := b; claim_keypair := c; agg_decryption_key := d |}) ltac:(by intros []).
#[export] Instance LightningClientStateMachines_eq : EqDecision (LightningClientStateMachines Key). Proof using EqDecision0. solve_decision. Defined.
#[export] Instance LightningClientStateMachines_countable : Countable (LightningClientStateMachines Key) :=
  inj_countable' (fun s => match s with SendMachine c st => inl (c, st) | ReceiveMachine c st => inr (c, st) end)
    (fun x => match x with inl (c, st) => SendMachine c st | inr (c, st) => ReceiveMachine c st end) ltac:(by intros []).
Context `{Countable PIn} `{Countable POut} `{Countable PSt}.
#[export] Instance MachineState_eq : EqDecision (MachineState PIn POut Key PSt). Proof using All. solve_decision. Defined.
#[export] Instance MachineState_countable : Countable (MachineState PIn POut Key PSt) :=
  inj_countable' (A := LightningClientStateMachines Key + (Z * TxSubmissionStates (LightningInput + PIn) (LightningOutput + POut) + PSt))
    (fun s => match s with LnMachine s => inl s | TxMachine op s => inr (inl (op, s)) | OtherMachine s => inr (inr s) end)
    (fun x => match x with inl s => LnMachine s | inr (inl (op, s)) => TxMachine op s | inr (inr s) => OtherMachine s end) ltac:(by intros []).
End countable.

(** ** The database *)

(** The tables of the primary module and of this one, the fees of submitted
    transactions, the operation log and the event log. *)
Record ClientData {W : Type} := {
  wallet : W;
  transaction_fees : gmap Z Amounts.t;
  operation_log : gmap Z LightningOperationMeta;
  event_log : list LightningEvent;
  gateway_map : gmap Z Z;
  contract_cursor : gmap unit Z;
}.
Arguments ClientData : clear implicits.

Section data.
Context {W : Type}.
Implicit Types x : ClientData W.

Definition with_wallet (w : W) x : ClientData W :=
  {| wallet := w; transaction_fees := transaction_fees x; operation_log := operation_log x; event_log := event_log x;
     gateway_map := gateway_map x; contract_cursor := contract_cursor x |}.
Definition with_fees (f : gmap Z Amounts.t -> gmap Z Amounts.t) x : ClientData W :=
  {| wallet := wallet x; transaction_fees := f (transaction_fees x); operation_log := operation_log x; event_log := event_log x;
     gateway_map := gateway_map x; contract_cursor := contract_cursor x |}.
Definition with_operations (f : gmap Z LightningOperationMeta -> gmap Z LightningOperationMeta) x : ClientData W :=
  {| wallet := wallet x; transaction_fees := transaction_fees x; operation_log := f (operation_log x); event_log := event_log x;
     gateway_map := gateway_map x; contract_cursor := contract_cursor x |}.
Definition with_event (e : LightningEvent) x : ClientData W :=
  {| wallet := wallet x; transaction_fees := transaction_fees x; operation_log := operation_log x; event_log := event_log x ++ [e];
     gateway_map := gateway_map x; contract_cursor := contract_cursor x |}.
Definition with_gateways (m : gmap Z Z) x : ClientData W :=
  {| wallet := wallet x; transaction_fees := transaction_fees x; operation_log := operation_log x; event_log := event_log x;
     gateway_map := m; contract_cursor := contract_cursor x |}.
Definition with_cursor (f : gmap unit Z -> gmap unit Z) x : ClientData W :=
  {| wallet := wallet x; transaction_fees := transaction_fees x; operation_log := operation_log x; event_log := event_log x;
     gateway_map := gateway_map x; contract_cursor := f (contract_cursor x) |}.
End data.

Section client.
Context {W PIn POut Key PSt OV : Type} `{Countable PIn} `{Countable POut} `{Countable Key} `{Countable PSt}.
Local Abbreviation In := (LightningInput + PIn)%type.
Local Abbreviation Out := (LightningOutput + POut)%type.
Local Abbreviation St := (MachineState PIn POut Key PSt).
Local Abbreviation D := (ClientData W).
Local Abbreviation Module := (@ClientModule W In Out Key St).

(** Keys of secp256k1: the public key, [SecretKey::from_slice], the shared
    secret of a public key and a secret key, and both [mul_tweak]s. *)
Context (public_key : Key -> Z) (keypair_of : Z -> option Key) (ecdh : Z -> Key -> Z).
Context (mul_tweak_pk : Z -> Z -> option Z) (mul_tweak_sk : Key -> Z -> option Key).
(** The functions the guardians use too. *)
Context (preimage_hash : Z -> Z) (secret_public_key : Z -> option Z) (verify_schnorr : Z -> Z -> Z -> bool).
Context (incoming_contract_hash : IncomingContract -> Z) (outgoing_contract_hash : OutgoingContract -> Z) (commitment_hash : Commitment -> Z).
Context (verify_agg_dk : Z -> Z -> Z -> Z -> bool) (tpe_decrypt_preimage : Z -> Z -> Z).
(** Encryption of a preimage and the key that decrypts it. *)
Context (encrypt_preimage : Z -> Z -> Z -> Z -> Z) (derive_agg_dk : Z -> Z -> Z).
(** Of an invoice: whether it is expired at a time, the network of its
    currency, and the operation id of an attempt to pay it. *)
Context (is_expired : Bolt11Invoice -> Z -> bool) (network_of : Z -> Z) (attempt_operation : Bolt11Invoice -> Z -> Z).

(** The configuration and the keys of the client. *)
Context (fee_consensus : Fee.FeeConsensus) (network tpe_agg_pk : Z) (keypair lnurl_keypair : Key).

(** The instance of the module and its neighbours. *)
Context (ln_id : Z) (other_modules : Z -> gmap Z Module) (primary_modules : gmap Z PrimaryModuleCandidates).
Context (tx_hash_from_parts : list (Dyn In) -> list (Dyn Out) -> Z -> Z) (sign_schnorr : Z -> Key -> Z).
Context (tx_size : Transaction In Out -> Z).

Local Abbreviation verify_preimage := (verify_preimage preimage_hash secret_public_key).
Local Abbreviation verify_gateway_response := (verify_gateway_response preimage_hash secret_public_key verify_schnorr outgoing_contract_hash).

(** ** The module *)

(** Items in other units panic. *)
Definition ln_fee (amounts : Amounts.t) : option Amounts.t :=
  a ← Amounts.expect_only_bitcoin amounts; Amounts.new_bitcoin <$> Fee.fee fee_consensus a.

(** A module that is not primary does not balance transactions. *)
Definition ln_client : Module := {|
  input_fee amounts _ := ln_fee amounts;
  output_fee amounts _ := ln_fee amounts;
  create_final _ _ _ _ := panic;
|}.

Definition modules (operation_id : Z) : gmap Z Module := <[ln_id := ln_client]> (other_modules operation_id).

Definition ln_input (i : LightningInput) (amount : Z) (key : Key) : @DynClientInput In Key :=
  {| input := {| Transaction.module_instance_id := ln_id; value := inl i |}; keys := [key]; input_amounts := Amounts.new_bitcoin amount |}.
Definition ln_output (o : LightningOutput) (amount : Z) : @DynClientOutput Out :=
  {| output := {| Transaction.module_instance_id := ln_id; value := inl o |}; output_amounts := Amounts.new_bitcoin amount |}.

(** [ClientInputBundle::new_no_sm] with one input. *)
Definition claim_bundle (i : LightningInput) (amount : Z) (key : Key) : @ClientInputBundle In Key St :=
  {| bundle_inputs := [ln_input i amount key]; input_sm_gens := [] |}.

(** The out points of a range. *)
Definition range_outpoints (r : OutPointRange) : list OutPoint :=
  (fun i => {| txid := range_txid r; out_idx := i |}) <$> idx_iter (idx_range r).

(** ** Transitions *)

Definition V : Type := LnTriggerValue OV * Z.
Local Abbreviation MD := (M D Empty_set).
Local Abbreviation Next := (MD (St * list St)).

Definition log_event {E} (e : LightningEvent) : M D E unit := modify (with_event e).
Definition TransactionFeesTable : table D Z Amounts.t := Table transaction_fees with_fees.

(** [claim_inputs]: the machines are returned for the executor to add them. *)
Definition claim_inputs (operation_id : Z) (bundle : @ClientInputBundle In Key St) (nonce : Z) : M D TransactionSubmitError (OutPointRange * list St) :=
  r ← finalize_and_submit_inner wallet with_wallet TransactionFeesTable (fun txid op => with_event (LnTxCreatedEvent txid op))
        modules primary_modules tx_hash_from_parts sign_schnorr tx_size (fun _ _ _ => mret tt)
        operation_id (with_inputs TransactionBuilder_new bundle) nonce;
  mret (r.1, r.2.1 ++ [TxMachine operation_id (TxCreated r.2.2)]).

(** *** Sending *)

Definition transition_funding (v : V) (s : St) : Next :=
  match s, v.1 with
  | LnMachine (SendMachine common _), TvTx (inl _) => mret (LnMachine (SendMachine common SendFunded), [])
  | LnMachine (SendMachine common _), TvTx (inr error) => mret (LnMachine (SendMachine common (SendRejected error)), [])
  | _, _ => panic
  end.

(** The retries of [gateway_send_payment] over the answers of the gateway: an
    error and an answer that does not verify are asked for again. *)
Fixpoint gateway_send_payment (contract : OutgoingContract) (answers : list (option (Z + Z))) : option (Z + Z) :=
  match answers with
  | [] => None
  | Some r :: answers => if verify_gateway_response contract r then Some r else gateway_send_payment contract answers
  | None :: answers => gateway_send_payment contract answers
  end.

(** The refund of a contract, by a witness. *)
Definition refund_contract (common : SendSMCommon Key) (w : OutgoingWitness) (nonce : Z) : Next :=
  r ← unwrap (claim_inputs (send_operation_id common)
        (claim_bundle (InputOutgoing (send_outpoint common) w) (out_amount (send_contract common)) (refund_keypair common)) nonce);
  _ ← log_event (SendPaymentUpdateEvent (send_operation_id common) StatusRefunded);
  mret (LnMachine (SendMachine common (SendRefunding (range_outpoints r.1))), r.2).

Definition transition_gateway_send_payment (v : V) (s : St) : Next :=
  match s, v.1 with
  | LnMachine (SendMachine common _), TvGateway (inl preimage) =>
      _ ← log_event (SendPaymentUpdateEvent (send_operation_id common) (StatusSuccess preimage));
      mret (LnMachine (SendMachine common (SendSuccess preimage)), [])
  | LnMachine (SendMachine common _), TvGateway (inr signature) => refund_contract common (Cancel signature) v.2
  | _, _ => panic
  end.

(** [await_preimage] on what the federation returns: [None] waits forever. *)
Definition await_preimage_trigger (contract : OutgoingContract) (answer : option Z) : option (option Z) :=
  match answer with
  | None => Some None
  | Some preimage => if verify_preimage (out_payment_image contract) preimage then Some (Some preimage) else None
  end.

Definition transition_preimage (v : V) (s : St) : Next :=
  match s, v.1 with
  | LnMachine (SendMachine common _), TvPreimage (Some preimage) =>
      _ ← log_event (SendPaymentUpdateEvent (send_operation_id common) (StatusSuccess preimage));
      mret (LnMachine (SendMachine common (SendSuccess preimage)), [])
  | LnMachine (SendMachine common _), TvPreimage None => refund_contract common Refund v.2
  | _, _ => panic
  end.

(** *** Receiving *)

Definition transition_incoming_contract (v : V) (s : St) : Next :=
  match s, v.1 with
  | LnMachine (ReceiveMachine common _), TvContract None => mret (LnMachine (ReceiveMachine common ReceiveExpired), [])
  | LnMachine (ReceiveMachine common _), TvContract (Some outpoint) =>
      let c := commitment (receive_contract common) in
      r ← attempt (claim_inputs (receive_operation_id common)
            (claim_bundle (InputIncoming outpoint (agg_decryption_key common)) (commitment_amount c) (claim_keypair common)) v.2);
      match r with
      | inr _ => mret (LnMachine (ReceiveMachine common ReceiveUneconomical), [])
      | inl (change_range, added) =>
          log ← gets operation_log;
          fee ← expect match log !! receive_operation_id common with
                | Some (MetaReceive m) => receive_gateway_fee m
                | _ => Some (fee_from_expiration (expiration_or_fee c))
                end;
          _ ← log_event (ReceivePaymentEvent (receive_operation_id common) (Amount.add (commitment_amount c) fee) fee);
          mret (LnMachine (ReceiveMachine common (ReceiveClaiming (range_outpoints change_range))), added)
      end
  | _, _ => panic
  end.

(** *** The submission of transactions *)

Definition ln_submission_rejected (v : V) (s : St) : Next :=
  match s, v.1 with
  | TxMachine op (TxCreated tx), TvTx (inr error) =>
      let txid := tx_hash tx_hash_from_parts tx in
      _ ← log_event (LnTxRejectedEvent txid op error); mret (TxMachine op (TxRejected txid error), [])
  | _, _ => panic
  end.
Definition ln_submission_accepted (v : V) (s : St) : Next :=
  match s, v.1 with
  | TxMachine op (TxCreated tx), TvTx (inl _) =>
      let txid := tx_hash tx_hash_from_parts tx in
      _ ← log_event (LnTxAcceptedEvent txid op); mret (TxMachine op (TxAccepted txid), [])
  | _, _ => panic
  end.

(** ** The machines for the executor *)

Definition next_state (m : V -> St -> Next) : StateTransitionFunction St D V := fun d v s =>
  match m v s d with (Ok (new, added), d') => Some (new, added, d') | _ => None end.

(** A funded machine without a gateway or an invoice panics. *)
Definition send_transitions (common : SendSMCommon Key) (s : SendSMState) : list (V -> St -> Next) :=
  match s with
  | SendFunding => [transition_funding]
  | SendFunded =>
      match gateway_api common, send_invoice common with
      | Some _, Some _ => [transition_gateway_send_payment; transition_preimage]
      | _, _ => [fun _ _ => panic]
      end
  | SendRejected _ | SendSuccess _ | SendRefunding _ => []
  end.
Definition receive_transitions (s : ReceiveSMState) : list (V -> St -> Next) :=
  match s with
  | ReceivePending => [transition_incoming_contract]
  | ReceiveClaiming _ | ReceiveExpired | ReceiveUneconomical => []
  end.
Definition ln_transitions (s : LightningClientStateMachines Key) : list (V -> St -> Next) :=
  match s with SendMachine common s => send_transitions common s | ReceiveMachine _ s => receive_transitions s end.

(** The machines of the primary module. *)
Context (other_module other_operation : PSt -> Z) (other_transitions : PSt -> list (StateTransitionFunction St D V)).

#[export] Instance lightning_machines : State St D V := {
  module_instance_id s :=
    match s with LnMachine _ => ln_id | TxMachine _ _ => TRANSACTION_SUBMISSION_MODULE_INSTANCE | OtherMachine s => other_module s end;
  operation_id s :=
    match s with
    | LnMachine (SendMachine common _) => send_operation_id common
    | LnMachine (ReceiveMachine common _) => receive_operation_id common
    | TxMachine op _ => op
    | OtherMachine s => other_operation s
    end;
  transitions s :=
    match s with
    | LnMachine s => next_state <$> ln_transitions s
    | TxMachine _ (TxCreated _) => next_state <$> [ln_submission_rejected; ln_submission_accepted]
    | TxMachine _ _ => []
    | OtherMachine s => other_transitions s
    end;
}.

(** ** Operations of the client *)

Local Abbreviation Db := (@SmDb St D _ _).
(** The modules the executor knows, whether it is running, and the time. *)
Context (module_contexts valid_module_ids : gset Z) (running : bool) (now : Z).

Definition update_data (f : D -> D) (d : Db) : Db := with_data (f (data d)) d.
Definition TransactionFeesKey : table Db Z Amounts.t := Table (fun d => transaction_fees (data d)) (fun f => update_data (with_fees f)).
Definition OperationLogKey : table Db Z LightningOperationMeta := Table (fun d => operation_log (data d)) (fun f => update_data (with_operations f)).
Definition StreamIndexKey : table Db unit Z := Table (fun d => contract_cursor (data d)) (fun f => update_data (with_cursor f)).

Definition operation_exists (op : Z) (d : Db) : bool :=
  match get_operation_states op d with ([], []) => false | _ => true end.
Definition has_active_states (op : Z) (d : Db) : bool :=
  match (get_operation_states op d).1 with [] => false | _ => true end.

(** *** Submitting *)

Definition finalize_and_submit_transaction_dbtx (op : Z) (meta : OutPointRange -> LightningOperationMeta) (b : TransactionBuilder) (nonce : Z)
    : M Db TransactionSubmitError OutPointRange :=
  exists_ ← gets (operation_exists op);
  _ ← ensure (negb exists_) (OperationAlreadyExists op);
  r ← finalize_and_submit_inner (fun d => wallet (data d)) (fun w => update_data (with_wallet w)) TransactionFeesKey
        (fun txid op => update_data (with_event (LnTxCreatedEvent txid op)))
        modules primary_modules tx_hash_from_parts sign_schnorr tx_size
        (fun op states tx =>
           _ ← map_err (fun _ => StateMachines) (add_state_machines_dbtx module_contexts valid_module_ids running now (states ++ [TxMachine op (TxCreated tx)]));
           mret tt)
        op b nonce;
  _ ← insert_new_entry OperationLogKey op (meta r.1);
  mret r.1.

(** The transaction is retried until it is committed. *)
Definition finalize_and_submit_transaction (op : Z) (meta : OutPointRange -> LightningOperationMeta) (b : TransactionBuilder) (nonce : Z)
    : M Db TransactionSubmitError OutPointRange :=
  atomically (finalize_and_submit_transaction_dbtx op meta b nonce).

(** [manual_operation_start]; a commit may fail. *)
Definition manual_operation_start (op : Z) (meta : LightningOperationMeta) (sms : list St) (commit : bool) : M Db TransactionSubmitError unit :=
  atomically
    (found ← get_value OperationLogKey op;
     _ ← ensure (negb (bool_decide (is_Some found))) (OperationAlreadyExists op);
     _ ← insert_new_entry OperationLogKey op meta;
     _ ← unwrap (add_state_machines_dbtx module_contexts valid_module_ids running now sms);
     ensure commit DatabaseFailure).

(** *** Sending *)

Definition validate_send_invoice (time : Z) (invoice : Bolt11Invoice) : M Db SendPaymentError (Z * Z) :=
  amount ← ok_or (amount_milli_satoshis invoice) InvoiceMissingAmount;
  _ ← ensure (negb (is_expired invoice time)) InvoiceExpired;
  _ ← ensure (network =? network_of (invoice_currency invoice)) (WrongCurrency (invoice_currency invoice) network);
  let operation_id := attempt_operation invoice 0 in
  exists_ ← gets (operation_exists operation_id);
  _ ← ensure (negb exists_) (DuplicatePaymentAttempt operation_id);
  mret (amount, operation_id).

(** Answers of the gateways and of the guardians, see [Gateways]. *)
Context (routing_info : nat -> Z -> option (option RoutingInfo)) (gateway_list : option (list Z)).

Definition resolve_send_gateway (invoice : Bolt11Invoice) (gateway : option Z) : M Db SendPaymentError (Z * RoutingInfo) :=
  match gateway with
  | Some url =>
      answer ← ok_or (routing_info 0 url) SendFailedToConnectToGateway;
      r ← ok_or answer SendFederationNotSupported;
      mret (url, r)
  | None =>
      map ← gets (fun d => gateway_map (data d));
      match select_gateway routing_info gateway_list map (Some invoice) with inl found => mret found | inr e => throw (SendSelectGateway e) end
  end.

(** The contract for an invoice, for an ephemeral key. *)
Definition outgoing_contract (invoice : Bolt11Invoice) (amount : Z) (routing : RoutingInfo) (block_count : Z) (refund_pk ephemeral_pk : Z) : OutgoingContract :=
  let '(send_fee, expiration_delta) := send_parameters routing invoice in
  {| out_payment_image := Hash (payment_hash invoice);
     out_amount := add_to send_fee amount;
     expiration := wrap_u64 (block_count + expiration_delta + CONTRACT_CONFIRMATION_BUFFER);
     out_claim_pk := module_public_key routing;
     out_refund_pk := refund_pk;
     out_ephemeral_pk := ephemeral_pk |}.

Definition send_machine (op : Z) (contract : OutgoingContract) (gateway : Z) (invoice : Bolt11Invoice) (refund : Key) : StateGenerator (State := St) :=
  fun range => match range_outpoints range with
    | outpoint :: _ =>
        Some [LnMachine (SendMachine {| send_operation_id := op; send_outpoint := outpoint; send_contract := contract;
                gateway_api := Some gateway; send_invoice := Some invoice; refund_keypair := refund |} SendFunding)]
    | [] => None
    end.

Definition outgoing_bundle (op : Z) (contract : OutgoingContract) (gateway : Z) (invoice : Bolt11Invoice) (refund : Key) : @ClientOutputBundle Out St :=
  {| bundle_outputs := [ln_output (OutputOutgoing contract) (out_amount contract)]; output_sm_gens := [send_machine op contract gateway invoice refund] |}.

(** The random ephemeral key and nonce, and the block count the guardians agree
    on, are arguments. *)
Definition fund_outgoing_contract (invoice : Bolt11Invoice) (amount op gateway : Z) (routing : RoutingInfo) (custom_meta : Z)
    (ephemeral : Key) (block_count : option Z) (nonce : Z) : M Db SendPaymentError Z :=
  refund ← expect (keypair_of (ecdh (public_key keypair) ephemeral));
  let '(send_fee, expiration_delta) := send_parameters routing invoice in
  _ ← ensure (is_within send_fee SEND_FEE_LIMIT) SendGatewayFeeExceedsLimit;
  _ ← ensure (negb (EXPIRATION_DELTA_LIMIT <? expiration_delta)) GatewayExpirationExceedsLimit;
  count ← ok_or block_count FailedToRequestBlockCount;
  let contract := outgoing_contract invoice amount routing count (public_key refund) (public_key ephemeral) in
  _ ← map_err FailedToFundPayment (finalize_and_submit_transaction op
        (fun range => MetaSend {| change_outpoint_range := range; send_gateway := gateway; sent_contract := contract; sent_invoice := invoice;
                                  send_custom_meta := custom_meta |})
        (with_outputs TransactionBuilder_new (outgoing_bundle op contract gateway invoice refund)) nonce);
  _ ← modify (update_data (with_event (SendPaymentEvent op amount (absolute_fee send_fee amount))));
  mret op.

Definition send (time : Z) (invoice : Bolt11Invoice) (gateway : option Z) (custom_meta : Z) (ephemeral : Key) (block_count : option Z) (nonce : Z)
    : M Db SendPaymentError Z :=
  checked ← validate_send_invoice time invoice;
  resolved ← resolve_send_gateway invoice gateway;
  fund_outgoing_contract invoice checked.1 checked.2 resolved.1 resolved.2 custom_meta ephemeral block_count nonce.

Definition send_with_terms (time : Z) (invoice : Bolt11Invoice) (gateway : Z) (send_fee : PaymentFee) (expiration_delta custom_meta : Z)
    (ephemeral : Key) (block_count : option Z) (nonce : Z) : M Db SendWithTermsError Z :=
  checked ← map_err SendError (validate_send_invoice time invoice);
  resolved ← map_err SendError (resolve_send_gateway invoice (Some gateway));
  let current := send_parameters resolved.2 invoice in
  _ ← ensure (bool_decide (current = (send_fee, expiration_delta))) (SendTermsChanged current.1 current.2);
  map_err SendError (fund_outgoing_contract invoice checked.1 checked.2 resolved.1 resolved.2 custom_meta ephemeral block_count nonce).

(** *** Quotes *)

(** The quote runs in a database transaction that is dropped. *)
Definition quoted (request : FeeQuoteRequest) : M Db TransactionSubmitError FeeQuote := fun d =>
  ((fee_quote (modules 0) primary_modules request (wallet (data d))).1, d).

Definition receive_fee_quote (amount : Z) : M Db TransactionSubmitError FeeQuote :=
  fee ← expect (Fee.fee fee_consensus amount);
  quoted {| rq_input_amount := Amounts.new_bitcoin amount; rq_output_amount := Amounts.ZERO;
            rq_input_fee := Amounts.new_bitcoin fee; rq_output_fee := Amounts.ZERO |}.
Definition send_fee_quote (amount : Z) : M Db TransactionSubmitError FeeQuote :=
  fee ← expect (Fee.fee fee_consensus amount);
  quoted {| rq_input_amount := Amounts.ZERO; rq_output_amount := Amounts.new_bitcoin amount;
            rq_input_fee := Amounts.ZERO; rq_output_fee := Amounts.new_bitcoin fee |}.

Definition is_worth_claiming {E} (amount : Z) : M Db E bool :=
  quote ← attempt (receive_fee_quote amount);
  match quote with
  | inl q => total ← expect (FeeQuote_total q); mret (Amounts.get_bitcoin total <? amount)
  | inr _ => mret false
  end.

(** *** Receiving *)

(** [IncomingContract::new]. *)
Definition IncomingContract_new (agg_pk encryption_seed preimage : Z) (image : PaymentImage)
    (amount expiration_or_fee claim_pk refund_pk ephemeral_pk : Z) : IncomingContract :=
  let c := {| payment_image := image; commitment_amount := amount; expiration_or_fee := expiration_or_fee;
              claim_pk := claim_pk; refund_pk := refund_pk; ephemeral_pk := ephemeral_pk |} in
  {| commitment := c; ciphertext := encrypt_preimage agg_pk encryption_seed preimage (commitment_hash c) |}.

(** The outer [None] is a panic. *)
Definition recover_contract_keys (sk : Key) (contract : IncomingContract) : option (option (Key * Z)) :=
  let tweak := ecdh (ephemeral_pk (commitment contract)) sk in
  let encryption_seed := preimage_hash tweak in
  claim_keypair ← mul_tweak_sk sk tweak;
  Some (if negb (public_key claim_keypair =? claim_pk (commitment contract)) then None else
    let key := derive_agg_dk tpe_agg_pk encryption_seed in
    if negb (verify_agg_decryption_key commitment_hash verify_agg_dk contract tpe_agg_pk key) then None else
    _ ← decrypt_preimage preimage_hash secret_public_key tpe_decrypt_preimage contract key;
    Some (claim_keypair, key)).

(** The operation is named by the hash of the contract.  Starting it twice is
    no error, and neither is a commit that fails. *)
Definition receive_incoming_contract {E} (sk : Key) (contract : IncomingContract) (meta : LightningOperationMeta) (commit : bool) : M Db E (option Z) :=
  let op := incoming_contract_hash contract in
  recovered ← expect (recover_contract_keys sk contract);
  match recovered with
  | None => mret None
  | Some (claim, key) =>
      _ ← attempt (manual_operation_start op meta
            [LnMachine (ReceiveMachine {| receive_operation_id := op; receive_contract := contract; claim_keypair := claim; agg_decryption_key := key |} ReceivePending)]
            commit);
      mret (Some op)
  end.

Definition resolve_receive_gateway (gateway : option Z) : M Db ReceiveError (Z * RoutingInfo) :=
  match gateway with
  | Some url =>
      answer ← ok_or (routing_info 0 url) ReceiveFailedToConnectToGateway;
      r ← ok_or answer ReceiveFederationNotSupported;
      _ ← ensure (receive_enabled r) ReceiveDisabled;
      mret (url, r)
  | None => match select_receive_gateway routing_info gateway_list with inl found => mret found | inr e => throw (ReceiveSelectGateway e) end
  end.

(** The contract of a receive, for an ephemeral key and the time. *)
Definition incoming_contract (amount expiry_secs : Z) (routing : RoutingInfo) (ephemeral : Key) (time : Z) : option IncomingContract :=
  let tweak := ecdh (public_key keypair) ephemeral in
  let encryption_seed := preimage_hash tweak in
  let preimage := preimage_hash encryption_seed in
  claim_pk ← mul_tweak_pk (public_key keypair) tweak;
  Some (IncomingContract_new tpe_agg_pk encryption_seed preimage (Hash (preimage_hash preimage)) (subtract_from (receive_fee routing) amount)
          (saturating_add time expiry_secs) claim_pk (module_public_key routing) (public_key ephemeral)).

(** [fetch] is the invoice the gateway makes for a contract. *)
Definition receive_with_routing_info (amount expiry_secs gateway : Z) (routing : RoutingInfo) (custom_meta : Z) (ephemeral : Key) (time : Z)
    (fetch : IncomingContract -> option Bolt11Invoice) (commit : bool) : M Db ReceiveError (Bolt11Invoice * Z) :=
  _ ← ensure (is_within (receive_fee routing) RECEIVE_FEE_LIMIT) ReceiveGatewayFeeExceedsLimit;
  worth ← is_worth_claiming (subtract_from (receive_fee routing) amount);
  _ ← ensure worth AmountTooSmall;
  contract ← expect (incoming_contract amount expiry_secs routing ephemeral time);
  invoice ← ok_or (fetch contract) ReceiveFailedToConnectToGateway;
  _ ← ensure (bool_decide (Hash (payment_hash invoice) = payment_image (commitment contract))) InvalidInvoice;
  _ ← ensure (bool_decide (amount_milli_satoshis invoice = Some amount)) IncorrectInvoiceAmount;
  op ← receive_incoming_contract keypair contract
         (MetaReceive {| receive_gateway := gateway; received_contract := contract; received_invoice := invoice; receive_custom_meta := custom_meta |}) commit;
  op ← expect op;
  mret (invoice, op).

Definition receive (amount expiry_secs : Z) (gateway : option Z) (custom_meta : Z) (ephemeral : Key) (time : Z)
    (fetch : Z -> IncomingContract -> option Bolt11Invoice) (commit : bool) : M Db ReceiveError (Bolt11Invoice * Z) :=
  _ ← ensure (negb (MAX_INVOICE_EXPIRY_SECS <? expiry_secs)) InvoiceExpiryTooLong;
  resolved ← resolve_receive_gateway gateway;
  receive_with_routing_info amount expiry_secs resolved.1 resolved.2 custom_meta ephemeral time (fetch resolved.1) commit.

Definition receive_with_terms (amount expiry_secs gateway : Z) (fee : PaymentFee) (custom_meta : Z) (ephemeral : Key) (time : Z)
    (fetch : Z -> IncomingContract -> option Bolt11Invoice) (commit : bool) : M Db ReceiveWithTermsError (Bolt11Invoice * Z) :=
  _ ← ensure (negb (MAX_INVOICE_EXPIRY_SECS <? expiry_secs)) (ReceiveFailed InvoiceExpiryTooLong);
  resolved ← map_err ReceiveFailed (resolve_receive_gateway (Some gateway));
  _ ← ensure (bool_decide (receive_fee resolved.2 = fee)) (ReceiveTermsChanged (receive_fee resolved.2));
  map_err ReceiveFailed (receive_with_routing_info amount expiry_secs resolved.1 resolved.2 custom_meta ephemeral time (fetch resolved.1) commit).
(** *** The largest payment *)

(** The search with the quotes of the current wallet. *)
Definition search_spendable (balance : Z) (send_fee : PaymentFee) : M Db SpendableAmountError Z := fun d =>
  (match max_affordable_send_amount balance (add_to send_fee) (fun amount => (send_fee_quote amount d).1) 1 balance with
   | Some (Ok (Some amount)) => Ok amount
   | Some (Ok None) => Err (BalanceTooLow balance)
   | Some (Err e) => Err (QuoteFailed e)
   | Some Panic | None => Panic
   end, d).

Definition spendable_routing (gateway : option Z) : M Db SpendableAmountError RoutingInfo :=
  match gateway with
  | Some url =>
      answer ← ok_or (routing_info 0 url) RoutingInfoFailed;
      ok_or answer SpendableFederationNotSupported
  | None =>
      map ← gets (fun d => gateway_map (data d));
      match select_gateway routing_info gateway_list map None with inl found => mret found.2 | inr e => throw (SpendableSelectGateway e) end
  end.

Definition spendable_amount (balance : Z) (gateway : option Z) : M Db SpendableAmountError Z :=
  routing ← spendable_routing gateway;
  let send_fee := send_fee_default routing in
  _ ← ensure (is_within send_fee SEND_FEE_LIMIT) (SendFeeExceedsLimit send_fee SEND_FEE_LIMIT);
  search_spendable balance send_fee.

(** *** Payments to a published key *)

Definition read_cursor (d : Db) : Z := default 0 (contract_cursor (data d) !! tt).

(** The loop of [receive_lnurl] for one contract, up to the wait for the final
    state of the operation. *)
Definition lnurl_contract (custom_meta : Z) (commit : bool) (contract : IncomingContract) : M Db Empty_set unit :=
  recovered ← expect (recover_contract_keys lnurl_keypair contract);
  match recovered with
  | None => mret tt
  | Some _ =>
      worth ← is_worth_claiming (commitment_amount (commitment contract));
      if worth : bool then
        _ ← receive_incoming_contract lnurl_keypair contract (MetaLnurlReceive contract custom_meta) commit; mret tt
      else mret tt
  end.

Definition advance_cursor (next_index : Z) : M Db Empty_set unit := _ ← insert_entry StreamIndexKey tt next_index; mret tt.

(** *** What a user is told *)

(** The updates for one state of a machine, and whether they are the last.
    [refunded] is whether the notes of the refund arrived, [late] what the
    federation answers afterwards; [None] is the assertion. *)
Definition send_update (contract : OutgoingContract) (refunded : bool) (late : option Z) (s : SendSMState) : option (list SendOperationState * bool) :=
  match s with
  | SendFunding => Some ([StateFunding], false)
  | SendFunded => Some ([StateFunded], false)
  | SendSuccess preimage => if verify_preimage (out_payment_image contract) preimage then Some ([StateSuccess preimage], true) else None
  | SendRefunding _ =>
      Some (StateRefunding ::
        (if refunded then [StateRefunded]
         else match late with
              | Some preimage => if verify_preimage (out_payment_image contract) preimage then [StateSuccess preimage] else [StateFailure]
              | None => [StateFailure]
              end), true)
  | SendRejected _ => Some ([StateFailure], true)
  end.

Fixpoint send_updates (contract : OutgoingContract) (refunded : bool) (late : option Z) (l : list SendSMState) : option (list SendOperationState) :=
  match l with
  | [] => Some []
  | s :: l =>
      update ← send_update contract refunded late s;
      if update.2 : bool then Some update.1 else rest ← send_updates contract refunded late l; Some (update.1 ++ rest)
  end.

Definition final_send_state (updates : list SendOperationState) : option FinalSendOperationState :=
  foldl (fun acc u => match u with
    | StateSuccess preimage => Some (FinalSuccess preimage)
    | StateRefunded => Some FinalRefunded
    | StateFailure => Some FinalFailure
    | _ => acc
    end) None updates.

Definition receive_update (claimed : bool) (s : ReceiveSMState) : list ReceiveOperationState * bool :=
  match s with
  | ReceivePending => ([StatePending], false)
  | ReceiveClaiming _ => ([StateClaiming; if claimed then StateClaimed else StateReceiveFailure], true)
  | ReceiveExpired => ([StateExpired], true)
  | ReceiveUneconomical => ([StateUneconomical], true)
  end.

(** The last attempt to pay an invoice; [None] is a search that did not end. *)
Fixpoint last_attempt (fuel : nat) (invoice : Bolt11Invoice) (attempt : Z) (last_op : option Z) (d : Db) : option (option Z) :=
  match fuel with
  | O => None
  | S fuel =>
      let op := attempt_operation invoice attempt in
      if operation_exists op d then last_attempt fuel invoice (attempt + 1) (Some op) d else Some last_op
  end.

(** Every attempt has a state of its own. *)
Definition attempts_fuel (d : Db) : nat := S (size (active d) + size (inactive d)).

(** [updates] is what a finished operation replays. *)
Definition get_invoice_send_status (invoice : Bolt11Invoice) (updates : Z -> list SendOperationState) (d : Db) : option InvoiceSendStatus :=
  last_op ← last_attempt (attempts_fuel d) invoice 0 None d;
  Some match last_op with
  | None => NotAttempted
  | Some op =>
      if has_active_states op d then InFlight op
      else if existsb (fun u => match u with StateSuccess _ => true | _ => false end) (updates op) then Succeeded op
      else Failed op
  end.

(** ** Claiming contracts *)

Hypothesis fee_wf : Fee.wf fee_consensus.
(** What the primary module promises, in its good states. *)
Context (good : W -> Prop) (primary_module : Z -> Module) (primary_id : Z).
Context {balances : forall op, Balances (modules op) BITCOIN good (primary_module op) primary_id}.
Hypothesis primary : forall op, primary_module_for_unit (modules op) primary_modules BITCOIN = Some (Some (primary_id, primary_module op)).

Local Abbreviation fee_of := (fee_of fee_consensus).

Lemma ln_module_registered op : modules op !! ln_id = Some ln_client.
Proof using. apply lookup_insert_eq. Qed.

Lemma ln_fee_bitcoin a : is_u64 a -> ln_fee (Amounts.new_bitcoin a) = Some (Amounts.new_bitcoin (fee_of a)).
Proof using fee_wf.
  intros Ha. unfold ln_fee. rewrite Amounts.expect_only_bitcoin_new. cbn. by destruct (fee_of_spec fee_consensus fee_wf a Ha) as [-> _].
Qed.

Lemma bitcoin_only a : 0 <= a -> unit_only BITCOIN (Amounts.new_bitcoin a) /\ Amounts.get (Amounts.new_bitcoin a) BITCOIN = a.
Proof using. intros Ha. unfold unit_only, Amounts.new_bitcoin. by rewrite Amounts.get_new_custom, decide_True. Qed.

(** The fee the client expects for an item. *)
Lemma ln_input_fees op i a key : is_u64 a -> input_fees (modules op) (ln_input i a key) = Some (Amounts.new_bitcoin (fee_of a)).
Proof using fee_wf. intros Ha. unfold input_fees. cbn. rewrite ln_module_registered. cbn. by apply ln_fee_bitcoin. Qed.
Lemma ln_output_fees op o a : is_u64 a -> output_fees (modules op) (ln_output o a) = Some (Amounts.new_bitcoin (fee_of a)).
Proof using fee_wf. intros Ha. unfold output_fees. cbn. rewrite ln_module_registered. cbn. by apply ln_fee_bitcoin. Qed.

Definition payable (a : Z) : Prop := 0 <= a <= 2 ^ 60.

Lemma payable_u64 a : payable a -> is_u64 a.
Proof using. unfold payable, is_u64, u64_max. lia. Qed.

Lemma claim_builder_ok op i a key : payable a ->
  builder_ok (modules op) BITCOIN (with_inputs (Out := Out) TransactionBuilder_new (claim_bundle i a key)).
Proof using fee_wf.
  intros Ha. pose proof (payable_u64 a Ha) as Hu. destruct (fee_of_spec fee_consensus fee_wf a Hu) as [_ Hf]. unfold payable in Ha.
  assert (Hin : in_value (In := In) BITCOIN [ln_input i a key] = a /\ in_fees (modules op) BITCOIN [ln_input i a key] = fee_of a).
  { unfold in_value, in_fees, fee_value. cbn [fmap list_fmap]. rewrite ln_input_fees by done. cbn.
    destruct (bitcoin_only a) as [_ ->]; [lia|]. destruct (bitcoin_only (fee_of a)) as [_ ->]; [lia|]. lia. }
  destruct Hin as [Hv Hfee]. split; cbn [builder_inputs builder_outputs with_inputs tb_inputs tb_outputs TransactionBuilder_new app mbind list_bind claim_bundle bundle_inputs].
  - constructor; [|constructor]. split; [apply bitcoin_only; lia|]. eexists. split; [by apply ln_input_fees|apply bitcoin_only; lia].
  - constructor.
  - rewrite Hv. unfold max_funds. lia.
  - rewrite Hfee. unfold out_value, out_fees, max_funds. simpl. lia.
  - simpl. lia.
  - split; [|constructor]. unfold input_side. simpl. constructor; [|constructor]. constructor.
Qed.

Local Abbreviation finalized op nonce bundle d :=
  ((finalize_transaction (modules op) primary_modules tx_hash_from_parts sign_schnorr (with_inputs TransactionBuilder_new bundle) nonce (wallet d)).1).

(** Why a claim fails: the primary module cannot balance the transaction, or it
    is too large. *)
Definition claim_error (op nonce : Z) (bundle : @ClientInputBundle In Key St) (d : D) (e : TransactionSubmitError) : Prop :=
  (finalized op nonce bundle d = Err e /\
   exists e' i o, e = submit_error_of e' /\ (create_final (primary_module op) primary_id BITCOIN i o (wallet d)).1 = Err e') \/
  (exists size, e = TransactionTooLarge size MAX_TX_SIZE /\ MAX_TX_SIZE < size).

(** A transaction that claims the bundle: its machines, and the range of its
    change. *)
Definition claims (op nonce : Z) (bundle : @ClientInputBundle In Key St) (d : D) (range : OutPointRange) (added : list St) (d' : D) : Prop :=
  exists ft, finalized op nonce bundle d = Ok ft /\
    well_funded (modules op) tx_hash_from_parts sign_schnorr BITCOIN (with_inputs TransactionBuilder_new bundle) ft /\
    tx_size (transaction ft) <= MAX_TX_SIZE /\
    added = states ft ++ [TxMachine op (TxCreated (transaction ft))] /\
    range = {| range_txid := tx_hash tx_hash_from_parts (transaction ft); idx_range := change_range ft |} /\
    transaction_fees d !! tx_hash tx_hash_from_parts (transaction ft) = None /\
    transaction_fees d' = <[tx_hash tx_hash_from_parts (transaction ft) := tx_fees ft]> (transaction_fees d) /\
    operation_log d' = operation_log d /\ contract_cursor d' = contract_cursor d.

(** The same transaction was submitted before. *)
Definition submitted_before (op : Z) (bundle : @ClientInputBundle In Key St) (d : D) : Prop :=
  exists ft, well_funded (modules op) tx_hash_from_parts sign_schnorr BITCOIN (with_inputs TransactionBuilder_new bundle) ft /\
    is_Some (transaction_fees d !! tx_hash tx_hash_from_parts (transaction ft)).

Lemma claim_inputs_spec op bundle nonce d :
  builder_ok (modules op) BITCOIN (with_inputs TransactionBuilder_new bundle) -> good (wallet d) ->
  match claim_inputs op bundle nonce d with
  | (Ok (range, added), d') => claims op nonce bundle d range added d'
  | (Err e, _) => claim_error op nonce bundle d e
  | (Panic, _) => submitted_before op bundle d
  end.
Proof using primary balances.
  intros Hb Hd. pose proof (finalize_well_funded (modules op) primary_modules tx_hash_from_parts sign_schnorr BITCOIN good (primary_module op) primary_id
    (primary op) _ nonce _ Hb Hd) as Hfin.
  unfold claim_inputs, finalize_and_submit_inner, zoom, mbind, M_bind. destruct (finalize_transaction _ _ _ _ _ _ _) as [[ft|e|] w] eqn:Hrun; cbv beta iota; [| |done].
  2: { left. by rewrite Hrun. }
  unfold ensure. destruct (Z.leb_spec (tx_size (transaction ft)) MAX_TX_SIZE) as [Hsize|Hsize]; [|right; by eexists].
  unfold insert_new_entry, mbind, M_bind, insert_entry, modify, mret, M_ret. cbn.
  destruct (transaction_fees d !! tx_hash tx_hash_from_parts (transaction ft)) as [x|] eqn:Hfresh; cbn; [exists ft; by rewrite Hfresh|].
  exists ft. by rewrite Hrun.
Qed.

(** ** The guardians *)

(** A guardian with the configuration the client knows. *)
Context (cfg : Lightning) (verify_ciphertext : Z -> Z -> bool) (create_dk_share : Z -> Z -> Z).
Hypothesis cfg_fees : Lnv2Server.fee_consensus cfg = fee_consensus.
Hypothesis cfg_key : Lnv2Server.tpe_agg_pk cfg = tpe_agg_pk.
Local Abbreviation ln_process_input :=
  (ln_process_input cfg preimage_hash secret_public_key verify_schnorr outgoing_contract_hash commitment_hash verify_agg_dk tpe_decrypt_preimage).
Local Abbreviation outgoing_spendable := (outgoing_spendable cfg preimage_hash secret_public_key verify_schnorr outgoing_contract_hash).
Local Abbreviation ln_apply :=
  (ln_apply cfg preimage_hash secret_public_key verify_schnorr incoming_contract_hash outgoing_contract_hash commitment_hash verify_ciphertext verify_agg_dk
     tpe_decrypt_preimage create_dk_share).
Local Abbreviation ln_history :=
  (ln_history cfg preimage_hash secret_public_key verify_schnorr incoming_contract_hash outgoing_contract_hash commitment_hash verify_ciphertext verify_agg_dk
     tpe_decrypt_preimage create_dk_share).

(** The guardian accepts an input of the client for the amount and the fee that
    the client has counted, and asks for the signature that the client makes. *)
Definition honours (g : LnDb) (op : Z) (i : LightningInput) (amount : Z) (key : Key) : Prop :=
  forall p, exists g', ln_process_input i p g
    = (Ok {| ServerModule.amount := input_item (modules op) (ln_input i amount key); pub_key := public_key key |}, g').

Lemma process_honoured g op i amount key g' : payable amount ->
  process_lightning_input cfg preimage_hash secret_public_key verify_schnorr outgoing_contract_hash commitment_hash verify_agg_dk tpe_decrypt_preimage i g
    = (Ok (public_key key, amount), g') ->
  honours g op i amount key.
Proof using fee_wf cfg_fees.
  intros Ha Hp q. pose proof (payable_u64 _ Ha) as Hu. exists g'. unfold Lnv2Server.ln_process_input. rewrite (run_bind _ _ _ _ _ Hp). cbn [fst snd].
  rewrite cfg_fees. destruct (fee_of_spec fee_consensus fee_wf amount Hu) as [Hf _].
  rewrite (run_bind _ _ _ (fee_of amount) g') by (by rewrite Hf). unfold input_item. by rewrite ln_input_fees.
Qed.

Lemma outgoing_honoured g op o w c key :
  payable (out_amount c) -> outgoing g !! o = Some c -> outgoing_spendable g c w (public_key key) -> honours g op (InputOutgoing o w) (out_amount c) key.
Proof using fee_wf cfg_fees.
  intros Ha Ho Hs. eapply process_honoured; [done|]. apply process_outgoing_Ok. by exists c.
Qed.

(** Events of others: only the owner of the refund key can refund or cancel
    the contract at an out point, and an out point is funded once. *)
Definition of_others (o : OutPoint) (ev : ln_event) : Prop :=
  match ev with
  | Spent (InputOutgoing o' Refund) | Spent (InputOutgoing o' (Cancel _)) | Funded _ o' => o' <> o
  | _ => True
  end.

Definition paid (g : LnDb) (o : OutPoint) (c : OutgoingContract) : Prop :=
  exists p, preimages g !! o = Some p /\ verify_preimage (out_payment_image c) p = true.

Lemma of_others_step g ev g' o c : ln_apply ev g g' -> of_others o ev ->
  outgoing g !! o = Some c \/ outgoing g !! o = None /\ paid g o c -> outgoing g' !! o = Some c \/ outgoing g' !! o = None /\ paid g' o c.
Proof using.
  intros Ha Ho Hg. unfold paid in *. destruct ev as [[o' w|o' key|]|[c'|c'|] o'|[v|v|] peer]; cbn [Lnv2Server.ln_apply] in Ha; cbn [of_others] in Ho.
  - destruct Ha as [[pk a] Ha]. apply process_outgoing_Ok in Ha as (c' & Hc & -> & Hs & ->).
    destruct (decide (o' = o)) as [->|Hne].
    + destruct w as [p| |sig]; [|by destruct Ho..]. destruct Hg as [Hg|[Hg _]]; [|congruence]. rewrite Hg in Hc. injection Hc as <-.
      right. simpl. rewrite lookup_delete_eq. split; [done|]. exists p. rewrite lookup_insert_eq. split; [done|]. by destruct Hs as (_ & Hv & _).
    + destruct w; simpl; rewrite lookup_delete_ne by done; rewrite ?lookup_insert_ne by done; exact Hg.
  - destruct Ha as [[pk a] Ha]. by apply process_incoming_Ok in Ha as (c' & index & _ & _ & _ & _ & _ & ->).
  - destruct Ha as [r Ha]. by mrun.
  - destruct Ha as [a Ha]. apply process_output_outgoing_Ok in Ha as (_ & _ & ->). simpl. by rewrite lookup_insert_ne.
  - destruct Ha as [a Ha]. by apply process_output_incoming_Ok in Ha as (_ & _ & _ & _ & ->).
  - destruct Ha as [a Ha]. by mrun.
  - simpl in Ha. dbrun. exact Hg.
  - simpl in Ha. dbrun. exact Hg.
  - simpl in Ha. by mrun.
Qed.

(** As long as the client does nothing, a funded contract is open or paid: the
    gateway can only take the money for the preimage. *)
Lemma outgoing_open_or_paid g evs g' o c :
  ln_history g evs g' -> Forall (of_others o) evs -> outgoing g !! o = Some c -> outgoing g' !! o = Some c \/ outgoing g' !! o = None /\ paid g' o c.
Proof using.
  intros Hh Hf Hg. induction Hh as [|evs ev g1 g2 Hh IH Ha]; [by left|]. apply Forall_app in Hf as [Hf1 Hf2]. rewrite Forall_singleton in Hf2.
  eapply of_others_step; [exact Ha|done|]. by apply IH.
Qed.

(** ** Sending *)

#[local] Arguments Lnv2Server.verify_preimage : simpl never.

Lemma gateway_send_payment_verified c answers r : gateway_send_payment c answers = Some r -> verify_gateway_response c r = true.
Proof using.
  induction answers as [|[a|] answers IH]; [done| |exact IH]. cbn [gateway_send_payment]. destruct (verify_gateway_response c a) eqn:Hv; [|exact IH]. by intros [= ->].
Qed.

Lemma refund_contract_spec common w nonce d :
  payable (out_amount (send_contract common)) -> good (wallet d) ->
  let op := send_operation_id common in
  let bundle := claim_bundle (InputOutgoing (send_outpoint common) w) (out_amount (send_contract common)) (refund_keypair common) in
  match refund_contract common w nonce d with
  | (Ok (s', added), d') => exists range, s' = LnMachine (SendMachine common (SendRefunding (range_outpoints range))) /\ claims op nonce bundle d range added d'
  | (Err e, _) => False
  | (Panic, _) => (exists e, claim_error op nonce bundle d e) \/ submitted_before op bundle d
  end.
Proof using primary balances fee_wf.
  intros Ha Hd op bundle. pose proof (claim_inputs_spec op bundle nonce d (claim_builder_ok op _ _ _ Ha) Hd) as Hc. unfold refund_contract.
  fold op. fold bundle. unfold unwrap, mbind, M_bind. destruct (claim_inputs op bundle nonce d) as [[[range added]|e|] d']; cbn [fst snd]; [|left; by exists e|by right].
  exists range. split; [done|]. destruct Hc as (ft & Hft). by exists ft.
Qed.

(** A trigger of a funded machine with the value it returns: an answer of the
    gateway that verifies, or what the guardians answer in a state [g]. *)
Inductive send_trigger (g : LnDb) (common : SendSMCommon Key) : (V -> St -> Next) -> LnTriggerValue OV -> Prop :=
| gateway_answers answers r : gateway_send_payment (send_contract common) answers = Some r ->
    send_trigger g common transition_gateway_send_payment (TvGateway r)
| guardians_answer answer p : await_preimage cfg g (send_outpoint common) (expiration (send_contract common)) = Some answer ->
    await_preimage_trigger (send_contract common) answer = Some p -> send_trigger g common transition_preimage (TvPreimage p).

(** What a trigger leads to. *)
Lemma send_trigger_outcome g common m tv : send_trigger g common m tv ->
  (exists p, verify_preimage (out_payment_image (send_contract common)) p = true /\
     forall nonce s d, exists d', m (tv, nonce) (LnMachine (SendMachine common s)) d = (Ok (LnMachine (SendMachine common (SendSuccess p)), []), d')) \/
  (exists w, (forall nonce s d, m (tv, nonce) (LnMachine (SendMachine common s)) d = refund_contract common w nonce d) /\
     match w with
     | Claim _ => False
     | Refund => expiration (send_contract common) <= consensus_block_count cfg g
     | Cancel sig => verify_forfeit_signature verify_schnorr outgoing_contract_hash (send_contract common) sig = true
     end).
Proof using.
  intros [answers r Hr|answer p Ha Hp].
  - apply gateway_send_payment_verified in Hr. destruct r as [p|sig].
    + left. exists p. split; [done|]. intros nonce s d. by eexists.
    + right. exists (Cancel sig). by split.
  - unfold await_preimage_trigger in Hp. destruct answer as [p'|].
    + destruct (verify_preimage _ p') eqn:Hv; [|done]. injection Hp as <-. left. exists p'. split; [done|]. intros nonce s d. by eexists.
    + injection Hp as <-. right. exists Refund. split; [done|]. unfold await_preimage in Ha.
      destruct (preimages g !! _); [done|]. destruct (Z.leb_spec (expiration (send_contract common)) (consensus_block_count cfg g)); done.
Qed.


(** ** Receiving *)

(** Keys that were recovered for a contract claim it. *)
Lemma recovered_honoured g op sk c claim key o index :
  recover_contract_keys sk c = Some (Some (claim, key)) -> payable (commitment_amount (commitment c)) ->
  incoming g !! o = Some c -> incoming_index g !! o = Some index -> honours g op (InputIncoming o key) (commitment_amount (commitment c)) claim.
Proof using fee_wf cfg_fees cfg_key.
  unfold recover_contract_keys. intros Hr Ha Hc Hi. destruct (mul_tweak_sk sk _) as [claim'|]; [|done]. cbn in Hr. injection Hr as Hr.
  destruct (Z.eqb_spec (public_key claim') (claim_pk (commitment c))) as [Hpk|]; [|done]. cbn in Hr.
  destruct (verify_agg_decryption_key _ _ c tpe_agg_pk _) eqn:Hv; [|done]. cbn in Hr.
  destruct (decrypt_preimage _ _ _ c _) as [p|] eqn:Hp; [|done]. cbn in Hr. injection Hr as -> <-.
  eapply process_honoured; [done|]. apply process_incoming_Ok. exists c, index. rewrite cfg_key. split_and!; [done|done|done| |done|done].
  unfold incoming_pub_key. by rewrite Hp.
Qed.

(** The out point the guardians know a contract by. *)
Definition funded_at (ev : ln_event) : option OutPoint := match ev with Funded _ o => Some o | _ => None end.

Lemma outpoint_known evs g : ln_history LnDb_empty evs g -> NoDup (omap funded_at evs) ->
  forall h o, incoming_outpoints g !! h = Some o -> o ∈ omap funded_at evs /\ forall c, incoming g !! o = Some c -> incoming_contract_hash c = h.
Proof using.
  intros Hh. induction Hh as [|evs ev g1 g2 Hh IH Ha]; [by intros _ h o; simpl; rewrite lookup_empty|].
  rewrite omap_app. intros (Hnd & Hdis & _)%NoDup_app h o Ho. specialize (IH Hnd).
  assert (Hold : incoming_outpoints g1 !! h = Some o -> (forall c, incoming g2 !! o = Some c -> incoming g1 !! o = Some c) ->
    o ∈ omap funded_at evs ++ omap funded_at [ev] /\ forall c, incoming g2 !! o = Some c -> incoming_contract_hash c = h).
  { intros Hg Hsub. destruct (IH h o Hg) as [Hin Hc]. split; [by apply elem_of_app; left|]. intros c Hc2. by apply Hc, Hsub. }
  destruct ev as [[o' w|o' key|]|[c'|c'|] o'|[v|v|] peer]; cbn [Lnv2Server.ln_apply] in Ha.
  - destruct Ha as [[pk a] Ha]. apply process_outgoing_Ok in Ha as (c' & _ & _ & _ & ->). destruct w; by apply Hold.
  - destruct Ha as [[pk a] Ha]. apply process_incoming_Ok in Ha as (c' & index & _ & _ & _ & _ & _ & ->). apply Hold; [done|].
    simpl. by intros c [_ Hc]%lookup_delete_Some.
  - destruct Ha as [r Ha]. by mrun.
  - destruct Ha as [a Ha]. apply process_output_outgoing_Ok in Ha as (_ & _ & ->). by apply Hold.
  - destruct Ha as [a Ha]. apply process_output_incoming_Ok in Ha as (_ & _ & _ & _ & ->). simpl in Ho. apply lookup_insert_Some in Ho as [[<- <-]|[_ Ho]].
    + split; [apply elem_of_app; right; by left|]. simpl. intros c. rewrite lookup_insert_eq. by intros [= ->].
    + apply Hold; [done|]. destruct (IH h o Ho) as [Hin _]. assert (o <> o') by (intros ->; apply (Hdis o' Hin); by left).
      simpl. intros c. by rewrite lookup_insert_ne.
  - destruct Ha as [a Ha]. by mrun.
  - simpl in Ha. dbrun. by apply Hold.
  - simpl in Ha. dbrun. by apply Hold.
  - simpl in Ha. by mrun.
Qed.

(** Whether the client would claim an amount with this wallet. *)
Definition worth (w : W) (a : Z) : Prop := exists x : Db, wallet (data x) = w /\ (is_worth_claiming (E := Empty_set) a x).1 = Ok true.

(** A quote is the same for every operation. *)
Hypothesis quotes_agree : forall op op' request w,
  (fee_quote (modules op) primary_modules request w).1 = (fee_quote (modules op') primary_modules request w).1.

Lemma claim_request op i a key : payable a ->
  request_of (modules op) BITCOIN (with_inputs (Out := Out) TransactionBuilder_new (claim_bundle i a key))
  = {| rq_input_amount := Amounts.new_bitcoin a; rq_output_amount := Amounts.ZERO; rq_input_fee := Amounts.new_bitcoin (fee_of a); rq_output_fee := Amounts.ZERO |}.
Proof using fee_wf.
  intros Ha. pose proof (payable_u64 a Ha) as Hu. destruct (fee_of_spec fee_consensus fee_wf a Hu) as [_ Hf]. unfold payable in Ha.
  unfold request_of. cbn [builder_inputs builder_outputs with_inputs tb_inputs tb_outputs TransactionBuilder_new app mbind list_bind claim_bundle bundle_inputs].
  unfold in_value, in_fees, out_value, out_fees, fee_value. cbn [fmap list_fmap]. rewrite ln_input_fees by done.
  cbn [sum_list foldr ln_input input_amounts default from_option]. 
  destruct (bitcoin_only a) as [_ Hga]; [lia|]. destruct (bitcoin_only (fee_of a)) as [_ Hgf]; [lia|]. unfold id.
  cbn. rewrite Hga, Hgf, !Z.add_0_r. done.
Qed.

(** A claim that is worth it succeeds, and costs less than it brings. *)
Lemma worth_claim op i a key nonce (d : D) : payable a -> good (wallet d) -> worth (wallet d) a ->
  exists ft, finalized op nonce (claim_bundle i a key) d = Ok ft /\ 0 <= Amounts.get_bitcoin (tx_fees ft) < a.
Proof using fee_wf primary balances quotes_agree.
  intros Ha Hd (x & Hx & Hw). set (b := with_inputs (Out := Out) TransactionBuilder_new (claim_bundle i a key)).
  pose proof (fee_quote_exact (modules op) primary_modules tx_hash_from_parts sign_schnorr BITCOIN good (primary_module op) primary_id (primary op)
    b nonce (wallet d) (claim_builder_ok op i a key Ha) Hd) as Hq.
  pose proof (finalize_well_funded (modules op) primary_modules tx_hash_from_parts sign_schnorr BITCOIN good (primary_module op) primary_id
    (primary op) b nonce (wallet d) (claim_builder_ok op i a key Ha) Hd) as Hfin.
  assert (Hreq : request_of (modules op) BITCOIN b = _) by (by apply claim_request). rewrite Hreq in Hq. clear Hreq.
  unfold is_worth_claiming, receive_fee_quote, attempt, quoted, mbind, M_bind in Hw. destruct (fee_of_spec fee_consensus fee_wf a (payable_u64 a Ha)) as [Hf _].
  rewrite Hf in Hw. unfold expect, mret, M_ret in Hw. cbv beta iota in Hw. rewrite Hx, (quotes_agree 0 op) in Hw. fold b.
  destruct (finalize_transaction (modules op) primary_modules tx_hash_from_parts sign_schnorr b nonce (wallet d)) as [[ft|e|] w']; [| |done].
  - destruct Hq as (q & w1 & Hq & Ht). rewrite Hq in Hw. cbn in Hw. rewrite Ht in Hw. cbn in Hw. injection Hw as Hw%Z.ltb_lt. exists ft. split; [done|].
    destruct Hfin as (l & l' & _ & _ & _ & _ & Hfees & Hpos & _). split; [|done]. rewrite Hfees. unfold Amounts.get_bitcoin. rewrite Amounts.get_new_custom, decide_True by done. lia.
  - destruct Hq as [w1 Hq]. by rewrite Hq in Hw.
Qed.

Lemma incoming_unfunded g evs g' o c :
  ln_history g evs g' -> o ∉ omap funded_at evs -> incoming g' !! o = Some c -> incoming g !! o = Some c.
Proof using.
  intros Hh. revert c. induction Hh as [|evs ev g1 g2 Hh IH Ha]; intros c Hf Hc; [done|].
  rewrite omap_app, not_elem_of_app in Hf. destruct Hf as [Hf Hev]. apply IH; [done|]. clear IH.
  destruct ev as [[o' w|o' key|]|[c'|c'|] o'|[v|v|] peer]; cbn [Lnv2Server.ln_apply] in Ha.
  - destruct Ha as [[pk a] Ha]. apply process_outgoing_Ok in Ha as (c' & _ & _ & _ & ->). by destruct w.
  - destruct Ha as [[pk a] Ha]. apply process_incoming_Ok in Ha as (c' & index & _ & _ & _ & _ & _ & ->). simpl in Hc. by apply lookup_delete_Some in Hc as [_ Hc].
  - destruct Ha as [r Ha]. by mrun.
  - destruct Ha as [a Ha]. by apply process_output_outgoing_Ok in Ha as (_ & _ & ->).
  - destruct Ha as [a Ha]. apply process_output_incoming_Ok in Ha as (_ & _ & _ & _ & ->). simpl in Hc, Hev.
    rewrite lookup_insert_ne in Hc; [done|]. intros ->. apply Hev. by left.
  - destruct Ha as [a Ha]. by mrun.
  - simpl in Ha. dbrun. exact Hc.
  - simpl in Ha. dbrun. exact Hc.
  - simpl in Ha. by mrun.
Qed.

(** Hashes of contracts do not collide. *)
Hypothesis contract_hash_inj : forall c c', incoming_contract_hash c = incoming_contract_hash c' -> c = c'.

(** The contract the guardians answered with, as long as it is unspent. *)
Lemma answered_contract evs0 g0 evs g c o c' :
  ln_history LnDb_empty evs0 g0 -> ln_history g0 evs g -> NoDup (omap funded_at (evs0 ++ evs)) ->
  incoming_outpoints g0 !! incoming_contract_hash c = Some o -> incoming g !! o = Some c' -> c' = c.
Proof using contract_hash_inj.
  intros Hh0 Hh1 Hnd Ho Hc. rewrite omap_app in Hnd. apply NoDup_app in Hnd as (Hnd0 & Hdis & _).
  destruct (outpoint_known evs0 g0 Hh0 Hnd0 _ _ Ho) as [Hin Hh]. apply contract_hash_inj, Hh. eapply incoming_unfunded; [exact Hh1|by apply Hdis|done].
Qed.

(** C18: a payment that is received is claimed.  A machine whose keys were
    recovered for its contract gives up only when no guardian will ever let
    the contract be funded.  Otherwise it submits one transaction that claims
    the contract, which passes the funding check of the federation and which
    every guardian at any later time at which the contract is unspent honours
    for the amount and fee the client counted; or claiming fails and it ends
    without.  If the client found the contract worth claiming with the wallet
    it has, claiming fails only for the size of the transaction, and costs
    less than it brings. *)
Theorem lnv2_receive_resolves sk common evs0 g0 evs g answer nonce d :
  let c := receive_contract common in let a := commitment_amount (commitment c) in let op := receive_operation_id common in
  recover_contract_keys sk c = Some (Some (claim_keypair common, agg_decryption_key common)) ->
  payable a -> good (wallet d) ->
  (forall m, operation_log d !! op = Some (MetaReceive m) -> is_Some (amount_milli_satoshis (received_invoice m))) ->
  1 <= num_peers cfg -> Forall ln_event_ok (evs0 ++ evs) -> NoDup (omap funded_at (evs0 ++ evs)) ->
  ln_history LnDb_empty evs0 g0 -> ln_history g0 evs g ->
  await_incoming_contract cfg g0 (incoming_contract_hash c) (expiration_or_fee (commitment c)) = Some answer ->
  match answer, transition_incoming_contract (TvContract answer, nonce) (LnMachine (ReceiveMachine common ReceivePending)) d with
  | None, (r, d') => r = Ok (LnMachine (ReceiveMachine common ReceiveExpired), []) /\ d' = d /\ forall o a' g',
      process_lightning_output cfg incoming_contract_hash commitment_hash verify_ciphertext create_dk_share (OutputIncoming c) o g <> (Ok a', g')
  | Some o, (Ok (s', added), d') =>
      let bundle := claim_bundle (InputIncoming o (agg_decryption_key common)) a (claim_keypair common) in
      (exists range, s' = LnMachine (ReceiveMachine common (ReceiveClaiming (range_outpoints range))) /\ claims op nonce bundle d range added d' /\
         (is_Some (incoming g !! o) -> honours g op (InputIncoming o (agg_decryption_key common)) a (claim_keypair common)) /\
         (worth (wallet d) a -> exists ft, finalized op nonce bundle d = Ok ft /\ Amounts.get_bitcoin (tx_fees ft) < a)) \/
      (s' = LnMachine (ReceiveMachine common ReceiveUneconomical) /\ added = [] /\
       exists e, claim_error op nonce bundle d e /\ (worth (wallet d) a -> exists size, e = TransactionTooLarge size MAX_TX_SIZE))
  | Some o, (Err _, _) => False
  | Some o, (Panic, _) => submitted_before op (claim_bundle (InputIncoming o (agg_decryption_key common)) a (claim_keypair common)) d
  end.
Proof using fee_wf primary balances cfg_fees cfg_key quotes_agree contract_hash_inj.
  intros c a op Hrec Ha Hd Hlog Hn Hok Hnd Hh0 Hh1 Hans. apply Forall_app in Hok as [Hok0 Hok1].
  pose proof (ln_history_inv _ _ _ _ _ _ _ _ _ _ _ _ _ _ ln_inv_empty Hok0 Hh0) as Hg0. unfold await_incoming_contract in Hans.
  destruct (incoming_outpoints g0 !! incoming_contract_hash c) as [o|] eqn:Ho.
  2: { destruct (Z.leb_spec (expiration_or_fee (commitment c)) (consensus_unix_time cfg g0)); [|done]. injection Hans as <-. split_and!; [done|done|].
       intros o a' g' (_ & Ht & _)%process_output_incoming_Ok. destruct (ln_history_counts _ _ _ _ _ _ _ _ _ _ _ _ _ _ Hn Hg0 Hok1 Hh1) as [_ Hc]. lia. }
  injection Hans as <-. set (bundle := claim_bundle _ _ _). pose proof (claim_inputs_spec op bundle nonce d (claim_builder_ok op _ _ _ Ha) Hd) as Hcl.
  assert (Hworth : worth (wallet d) a -> exists ft, finalized op nonce bundle d = Ok ft /\ 0 <= Amounts.get_bitcoin (tx_fees ft) < a) by (by apply worth_claim).
  unfold transition_incoming_contract. cbn [fst snd]. fold c. fold op. fold a. fold bundle. unfold attempt. unfold mbind at 1. unfold M_bind at 1.
  destruct (claim_inputs op bundle nonce d) as [[[range added]|e|] d'] eqn:Hrun; cbv beta iota; [| |done].
  - set (fee := match operation_log d' !! op with Some (MetaReceive m) => receive_gateway_fee m | _ => Some (fee_from_expiration (expiration_or_fee (commitment c))) end).
    assert (is_Some fee) as [f Hf].
    { unfold fee. destruct Hcl as (ft & _ & _ & _ & _ & _ & _ & _ & -> & _). destruct (operation_log d !! op) as [[m|m|]|] eqn:Hm; try (by eexists).
      destruct (Hlog m eq_refl) as [x Hx]. unfold receive_gateway_fee. rewrite Hx. by eexists. }
    rewrite (run_bind _ _ d' (operation_log d') d') by done. fold fee. rewrite Hf, (run_bind _ _ d' f d') by done.
    left. exists range. split; [done|]. split; [destruct Hcl as (ft & Hft); by exists ft|]. split; [|intros Hw; destruct (Hworth Hw) as (ft & ? & ?); exists ft; by split; [|lia]].
    intros [c' Hc']. pose proof (answered_contract evs0 g0 evs g c o c' Hh0 Hh1 Hnd Ho Hc') as ->.
    destruct (incoming_indexed g (ln_history_inv _ _ _ _ _ _ _ _ _ _ _ _ _ _ Hg0 Hok1 Hh1) o ltac:(by eexists)) as [index Hi].
    by eapply recovered_honoured.
  - right. split_and!; [done|done|]. exists e. split; [exact Hcl|]. intros (ft & Hft & _)%Hworth. destruct Hcl as [[Hbad _]|(size & He & _)]; [congruence|by exists size].
Qed.

(** ** Starting operations *)

Local Abbreviation add_machines := (add_state_machines_dbtx module_contexts valid_module_ids running now).

Lemma add_machine_spec (s : St) (d : Db) :
  match add_state_machine module_contexts valid_module_ids running now s d with
  | (Ok _, d') => data d' = data d /\ inactive d' = inactive d /\ active d' = <[s := now]> (active d)
  | (Err _, _) => True
  | (Panic, _) => False
  end.
Proof using.
  unfold add_state_machine, ensure, get_value, mbind, M_bind. destruct (bool_decide (_ ∈ valid_module_ids)); [|done]. cbn -[is_terminal].
  destruct (active d !! s) eqn:Ha; [rewrite bool_decide_eq_true_2 by (by eexists); done|]. destruct (inactive d !! s) eqn:Hi.
  { rewrite (bool_decide_eq_true_2 (is_Some (Some _))) by (by eexists). rewrite orb_true_r. done. }
  rewrite bool_decide_eq_false_2 by (by intros []). cbn -[is_terminal]. destruct (negb _); [|done]. cbn -[is_terminal].
  unfold insert_new_entry, insert_entry, mbind, M_bind. cbn -[is_terminal]. by rewrite Ha.
Qed.

Lemma add_machines_spec (l : list St) (d : Db) :
  match add_machines l d with
  | (Ok _, d') => data d' = data d /\ inactive d' = inactive d /\ dom (active d') = list_to_set l ∪ dom (active d)
  | (Err _, _) => True
  | (Panic, _) => False
  end.
Proof using.
  assert (Hl : forall d : Db, match for_each l (add_state_machine module_contexts valid_module_ids running now) d with
    | (Ok _, d') => data d' = data d /\ inactive d' = inactive d /\ dom (active d') = list_to_set l ∪ dom (active d)
    | (Err _, _) => True | (Panic, _) => False end).
  { clear. induction l as [|s l IH]; intros d; [cbn; split_and!; set_solver|]. cbn [for_each]. unfold mbind, M_bind.
    pose proof (add_machine_spec s d) as Hs. destruct (add_state_machine _ _ _ _ s d) as [[u|e|] d1]; [|done|done]. destruct Hs as (Hd1 & Hi1 & Ha1).
    specialize (IH d1). destruct (for_each l _ d1) as [[v|e|] d2]; [|done|done]. destruct IH as (Hd2 & Hi2 & Ha2).
    split_and!; [congruence|congruence|]. rewrite Ha2, Ha1, dom_insert_L. set_solver. }
  unfold add_state_machines_dbtx, mbind, M_bind. specialize (Hl d). destruct (for_each l _ d) as [[v|e|] d2]; done.
Qed.

(** A transaction that was submitted: its machines are active and the operation
    is recorded. *)
Definition submitted (op nonce : Z) (meta : OutPointRange -> LightningOperationMeta) (b : @TransactionBuilder In Out Key St) (d : Db)
    (ft : @FinalizedTransaction In Out St) (d' : Db) : Prop :=
  let txid := tx_hash tx_hash_from_parts (transaction ft) in
  well_funded (modules op) tx_hash_from_parts sign_schnorr BITCOIN b ft /\ operation_exists op d = false /\
  inactive d' = inactive d /\ dom (active d') = list_to_set (states ft ++ [TxMachine op (TxCreated (transaction ft))]) ∪ dom (active d) /\
  operation_log (data d') = <[op := meta {| range_txid := txid; idx_range := change_range ft |}]> (operation_log (data d)) /\
  contract_cursor (data d') = contract_cursor (data d).

Lemma submit_spec op meta b nonce (d : Db) :
  builder_ok (modules op) BITCOIN b -> good (wallet (data d)) ->
  match finalize_and_submit_transaction op meta b nonce d with
  | (Ok _, d') => exists ft, submitted op nonce meta b d ft d'
  | (Err _, d') => d' = d
  | (Panic, _) => is_Some (operation_log (data d) !! op) \/
      exists ft, well_funded (modules op) tx_hash_from_parts sign_schnorr BITCOIN b ft /\ is_Some (transaction_fees (data d) !! tx_hash tx_hash_from_parts (transaction ft))
  end.
Proof using primary balances.
  intros Hb Hd. pose proof (finalize_well_funded (modules op) primary_modules tx_hash_from_parts sign_schnorr BITCOIN good (primary_module op) primary_id
    (primary op) b nonce _ Hb Hd) as Hfin.
  unfold finalize_and_submit_transaction, atomically, finalize_and_submit_transaction_dbtx, finalize_and_submit_inner, zoom, gets, ensure, mbind, M_bind.
  destruct (operation_exists op d) eqn:Hex; cbn [negb]; [done|]. unfold mret at 1. unfold M_ret at 1. cbv beta iota.
  destruct (finalize_transaction _ _ _ _ _ _ _) as [[ft|e|] w]; cbv beta iota; [|done|done].
  destruct (Z.leb_spec (tx_size (transaction ft)) MAX_TX_SIZE) as [Hsize|Hsize]; [|done]. unfold mret at 1. unfold M_ret at 1. cbv beta iota.
  unfold map_err. set (d1 := update_data (with_wallet w) d).
  pose proof (add_machines_spec (states ft ++ [TxMachine op (TxCreated (transaction ft))]) d1) as Hadd.
  destruct (add_machines _ d1) as [[u|e|] d2]; cbv beta iota; [|done|done]. destruct Hadd as (Hdata & Hin & Hact).
  unfold insert_new_entry, insert_entry, modify, mret, M_ret, mbind, M_bind. cbn. rewrite Hdata. cbn.
  destruct (transaction_fees (data d) !! _) as [x|] eqn:Hfresh; cbn; [right; exists ft; by rewrite Hfresh|].
  rewrite ?Hdata. cbn. destruct (operation_log (data d) !! op) as [x|] eqn:Hlog; cbn; [left; by eexists|].
  exists ft. unfold submitted. cbn. rewrite ?Hdata. cbn. split_and!; done.
Qed.

(** *** Funding a payment *)

Definition routing_wf (r : RoutingInfo) : Prop :=
  payment_fee_wf (send_fee_minimum r) /\ payment_fee_wf (send_fee_default r) /\ is_u64 (expiration_delta_minimum r) /\ is_u64 (expiration_delta_default r).

Lemma send_parameters_wf r invoice : routing_wf r -> payment_fee_wf (send_parameters r invoice).1 /\ is_u64 (send_parameters r invoice).2.
Proof using. intros (? & ? & ? & ?). unfold send_parameters. by destruct (_ =? _). Qed.

Lemma add_to_payable f a : payment_fee_wf f -> is_within f SEND_FEE_LIMIT = true -> 0 <= a <= 2 ^ 58 ->
  a <= add_to f a <= a + 100000 + a * 15000 / 1000000 /\ payable (add_to f a).
Proof using.
  intros Hf Hw Ha. destruct (add_to_bounds f SEND_FEE_LIMIT a Hf Hw ltac:(unfold is_u64, u64_max; lia)) as [[Hlo Hhi] _].
  pose proof (Z.div_le_mono (Z.min u64_max (a * 15000)) (a * 15000) 1000000 ltac:(lia) ltac:(lia)) as Hdiv.
  assert (Hb : add_to SEND_FEE_LIMIT a <= a + 100000 + a * 15000 / 1000000).
  { unfold add_to, absolute_fee, saturating_add, saturating_mul in *. change (pf_base SEND_FEE_LIMIT) with 100000 in *.
    change (pf_parts_per_million SEND_FEE_LIMIT) with 15000 in *. lia. }
  assert (a * 15000 / 1000000 <= a) by (apply Z.div_le_upper_bound; lia). unfold payable. lia.
Qed.

Lemma outgoing_builder_ok op c gateway invoice refund : payable (out_amount c) ->
  builder_ok (modules op) BITCOIN (with_outputs (In := In) TransactionBuilder_new (outgoing_bundle op c gateway invoice refund)).
Proof using fee_wf.
  intros Ha. pose proof (payable_u64 _ Ha) as Hu. destruct (fee_of_spec fee_consensus fee_wf _ Hu) as [_ Hf]. unfold payable in Ha. set (a := out_amount c) in *.
  assert (Hout : out_value (Out := Out) BITCOIN [ln_output (OutputOutgoing c) a] = a /\ out_fees (modules op) BITCOIN [ln_output (OutputOutgoing c) a] = fee_of a).
  { unfold out_value, out_fees, fee_value. cbn [fmap list_fmap]. rewrite ln_output_fees by done. cbn.
    destruct (bitcoin_only a) as [_ ->]; [lia|]. destruct (bitcoin_only (fee_of a)) as [_ ->]; [lia|]. lia. }
  destruct Hout as [Hv Hfee]. split; cbn [builder_inputs builder_outputs with_outputs tb_inputs tb_outputs TransactionBuilder_new app mbind list_bind outgoing_bundle bundle_outputs].
  - constructor.
  - fold a. constructor; [|constructor]. split; [apply bitcoin_only; lia|]. eexists. split; [by apply ln_output_fees|apply bitcoin_only; lia].
  - unfold in_value, max_funds. simpl. lia.
  - fold a. rewrite Hv, Hfee. unfold in_fees, max_funds. simpl. lia.
  - simpl. lia.
  - split; [constructor|]. unfold output_side. simpl. constructor; [|constructor]. constructor; [|constructor]. cbn. intros range Hrange.
    unfold send_machine, range_outpoints. destruct (idx_iter (idx_range range)) as [|i l] eqn:Hi; [|by eexists].
    unfold idx_count in Hrange. by rewrite Hi in Hrange.
Qed.

Lemma operation_exists_active (op : Z) (s : St) (d : Db) : s ∈ dom (active d) -> operation_id s = op -> operation_exists op d = true.
Proof using.
  intros [t Hs]%elem_of_dom Hop. unfold operation_exists, get_operation_states.
  destruct (filter _ (map_to_list (active d))) as [|x l] eqn:Hf; [|done]. exfalso.
  eapply (not_elem_of_nil (s, t)). rewrite <- Hf. rewrite list_elem_of_filter. split; [done|by apply elem_of_map_to_list].
Qed.

Lemma resolve_send_gateway_spec invoice gateway (d : Db) :
  match resolve_send_gateway invoice gateway d with
  | (Ok (url, r), d') => d' = d /\ (forall url', gateway = Some url' -> url = url') /\ exists n, routing_info n url = Some (Some r)
  | (Err _, d') => d' = d
  | (Panic, _) => False
  end.
Proof using.
  unfold resolve_send_gateway, ok_or, gets, throw, mbind, M_bind, mret, M_ret. destruct gateway as [url|].
  - destruct (routing_info 0 url) as [[r|]|] eqn:Hr; [|done|done]. split_and!; [done|by intros ? [= ->]|by exists 0%nat].
  - cbn. pose proof (select_gateway_spec routing_info gateway_list (gateway_map (data d)) (Some invoice)) as Hs.
    destruct (select_gateway _ _ _ _) as [[url r]|e]; [|done]. destruct Hs as (l & n & _ & _ & Hr). split_and!; [done|done|].
    exists n. unfold responds in Hr. destruct (routing_info n url) as [[r'|]|]; try done. by injection Hr as ->.
Qed.

(** A payment that was started: the terms of the gateway, the funded contract
    and the machine that follows it. *)
Definition payment_started (time : Z) (invoice : Bolt11Invoice) (gateway : option Z) (custom_meta : Z) (ephemeral : Key) (block_count : option Z) (nonce : Z)
    (d : Db) (op : Z) (d' : Db) : Prop :=
  exists amount url routing refund count ft d1,
    let c := outgoing_contract invoice amount routing count (public_key refund) (public_key ephemeral) in
    let tx := transaction ft in
    amount_milli_satoshis invoice = Some amount /\ is_expired invoice time = false /\ network = network_of (invoice_currency invoice) /\
    op = attempt_operation invoice 0 /\ (forall url', gateway = Some url' -> url = url') /\ (exists n, routing_info n url = Some (Some routing)) /\
    keypair_of (ecdh (public_key keypair) ephemeral) = Some refund /\ block_count = Some count /\
    amount <= out_amount c <= amount + 100000 + amount * 15000 / 1000000 /\ expiration c <= count + EXPIRATION_DELTA_LIMIT + CONTRACT_CONFIRMATION_BUFFER /\
    submitted op nonce (fun range => MetaSend {| change_outpoint_range := range; send_gateway := url; sent_contract := c; sent_invoice := invoice; send_custom_meta := custom_meta |})
      (with_outputs TransactionBuilder_new (outgoing_bundle op c url invoice refund)) d ft d1 /\
    d' = update_data (with_event (SendPaymentEvent op amount (absolute_fee (send_parameters routing invoice).1 amount))) d1 /\
    head (outputs tx) = Some {| Transaction.module_instance_id := ln_id; value := inl (OutputOutgoing c) |} /\
    LnMachine (SendMachine {| send_operation_id := op; send_outpoint := {| txid := tx_hash tx_hash_from_parts tx; out_idx := 0 |}; send_contract := c;
      gateway_api := Some url; send_invoice := Some invoice; refund_keypair := refund |} SendFunding) ∈ dom (active d').

Lemma submitted_machine op nonce meta c url invoice refund (d : Db) ft (d1 : Db) :
  submitted op nonce meta (with_outputs TransactionBuilder_new (outgoing_bundle op c url invoice refund)) d ft d1 ->
  head (outputs (transaction ft)) = Some {| Transaction.module_instance_id := ln_id; value := inl (OutputOutgoing c) |} /\
  LnMachine (SendMachine {| send_operation_id := op; send_outpoint := {| txid := tx_hash tx_hash_from_parts (transaction ft); out_idx := 0 |}; send_contract := c;
      gateway_api := Some url; send_invoice := Some invoice; refund_keypair := refund |} SendFunding) ∈ dom (active d1).
Proof using.
  intros ((l & l' & _ & Hout & _ & _ & _ & _ & _ & si & so & _ & Hso & Hst) & _ & _ & Hact & _). split; [by rewrite Hout|].
  rewrite Hact. apply elem_of_union_l, elem_of_list_to_set, elem_of_app. left. apply Hst, elem_of_app. right.
  cbn in Hso. injection Hso as <-. by left.
Qed.

Lemma validate_send_invoice_spec time invoice (d : Db) :
  match validate_send_invoice time invoice d with
  | (Ok (amount, op), d') => d' = d /\ amount_milli_satoshis invoice = Some amount /\ is_expired invoice time = false /\
      network = network_of (invoice_currency invoice) /\ op = attempt_operation invoice 0 /\ operation_exists op d = false
  | (Err _, d') => d' = d
  | (Panic, _) => False
  end.
Proof using.
  unfold validate_send_invoice, ok_or, ensure, gets, mbind, M_bind, mret, M_ret, throw.
  destruct (amount_milli_satoshis invoice) as [amount|]; [|done]. destruct (is_expired invoice time) eqn:Hexp; [done|]. cbn -[operation_exists].
  destruct (Z.eqb_spec network (network_of (invoice_currency invoice))) as [Hnet|]; [|done]. cbn -[operation_exists].
  destruct (operation_exists (attempt_operation invoice 0) d) eqn:Hop; [done|]. cbn -[operation_exists]. by rewrite Hop.
Qed.

Lemma send_duplicate time invoice gateway custom_meta ephemeral block_count nonce (d : Db) :
  is_Some (amount_milli_satoshis invoice) -> is_expired invoice time = false -> network = network_of (invoice_currency invoice) ->
  operation_exists (attempt_operation invoice 0) d = true ->
  send time invoice gateway custom_meta ephemeral block_count nonce d = (Err (DuplicatePaymentAttempt (attempt_operation invoice 0)), d).
Proof using.
  intros [amount Ha] Hexp Hnet Hop. unfold send, validate_send_invoice, ok_or, ensure, gets, mbind, M_bind, mret, M_ret, throw.
  rewrite Ha, Hexp, <- Hnet, Z.eqb_refl. cbn -[operation_exists]. by rewrite Hop.
Qed.

Lemma fund_outgoing_contract_spec time invoice gateway amount op url routing custom_meta ephemeral block_count nonce (d : Db) n :
  good (wallet (data d)) -> routing_wf routing -> routing_info n url = Some (Some routing) ->
  (forall url', gateway = Some url' -> url = url') -> (forall count, block_count = Some count -> is_u64 count) -> 0 <= amount <= 2 ^ 58 ->
  amount_milli_satoshis invoice = Some amount -> is_expired invoice time = false -> network = network_of (invoice_currency invoice) ->
  op = attempt_operation invoice 0 ->
  match fund_outgoing_contract invoice amount op url routing custom_meta ephemeral block_count nonce d with
  | (Ok op', d') => op' = op /\ payment_started time invoice gateway custom_meta ephemeral block_count nonce d op d'
  | (Err _, d') => d' = d
  | (Panic, _) => keypair_of (ecdh (public_key keypair) ephemeral) = None \/ is_Some (operation_log (data d) !! op) \/
      exists b ft, well_funded (modules op) tx_hash_from_parts sign_schnorr BITCOIN b ft /\ is_Some (transaction_fees (data d) !! tx_hash tx_hash_from_parts (transaction ft))
  end.
Proof using primary balances fee_wf.
  intros Hd Hr Hn Hurl Hcount Hamt Hinv Hexp Hnet Hop. destruct (send_parameters_wf routing invoice Hr) as [Hfwf Hdelta].
  unfold fund_outgoing_contract, expect, ok_or, ensure, map_err, mbind, M_bind, mret, M_ret, throw.
  destruct (keypair_of (ecdh (public_key keypair) ephemeral)) as [refund|] eqn:Hkey; [|by left].
  destruct (send_parameters routing invoice) as [fee delta] eqn:Hp. cbn [fst snd] in *.
  destruct (is_within fee SEND_FEE_LIMIT) eqn:Hw; [|done]. destruct (Z.ltb_spec EXPIRATION_DELTA_LIMIT delta) as [|Hlim]; [done|]. cbn [negb].
  destruct block_count as [count|]; [|done]. specialize (Hcount count eq_refl).
  set (c := outgoing_contract invoice amount routing count (public_key refund) (public_key ephemeral)).
  assert (Hc : out_amount c = add_to fee amount /\ expiration c <= count + EXPIRATION_DELTA_LIMIT + CONTRACT_CONFIRMATION_BUFFER).
  { subst c. unfold outgoing_contract. rewrite Hp. cbn [out_amount expiration]. split; [done|].
    unfold wrap_u64, is_u64, EXPIRATION_DELTA_LIMIT, CONTRACT_CONFIRMATION_BUFFER in *.
    pose proof (Z.mod_le (count + delta + 12) 18446744073709551616 ltac:(lia) ltac:(lia)). lia. }
  destruct Hc as [Hca Hce]. destruct (add_to_payable fee amount Hfwf Hw Hamt) as [Hbounds Hpay].
  pose proof (submit_spec op (fun range => MetaSend {| change_outpoint_range := range; send_gateway := url; sent_contract := c; sent_invoice := invoice; send_custom_meta := custom_meta |})
    (with_outputs TransactionBuilder_new (outgoing_bundle op c url invoice refund)) nonce d ltac:(apply outgoing_builder_ok; by rewrite Hca) Hd) as Hs.
  destruct (finalize_and_submit_transaction _ _ _ _ d) as [[range|e|] d1]; cbv beta iota; [|done|].
  - destruct Hs as [ft Hft]. destruct (submitted_machine _ _ _ _ _ _ _ _ _ _ Hft) as [Hhead Hsm]. split; [done|].
    exists amount, url, routing, refund, count, ft, d1. cbv zeta. fold c. rewrite Hp, Hca.
    split_and!; try done; try lia; by exists n.
  - right. destruct Hs as [Hl|(ft & Hw' & Hf)]; [by left|right]. by eexists _, ft.
Qed.

(** C20: paying an invoice either starts the payment or changes nothing.  When it
    returns, the invoice has an amount, is not expired and is for the network of
    the federation; the terms are those the gateway answered and within the
    limits of the client, so the contract locks at most 100 sats and 1.5% more
    than the invoice and expires at most 1452 blocks after the block count; the
    contract is the first output of a funded transaction, the operation is
    recorded, and the machine that follows the contract at that out point is
    active.  From then on the invoice cannot be paid again: a second call
    returns the operation of the first.  An error leaves the database as it was.
    A panic needs an invalid refund key, an operation whose log entry is there
    without its machines, or a transaction that was submitted before. *)
Theorem lnv2_send_starts time invoice gateway custom_meta ephemeral block_count nonce (d : Db) :
  good (wallet (data d)) -> (forall n url r, routing_info n url = Some (Some r) -> routing_wf r) ->
  (forall count, block_count = Some count -> is_u64 count) -> (forall amount, amount_milli_satoshis invoice = Some amount -> 0 <= amount <= 2 ^ 58) ->
  match send time invoice gateway custom_meta ephemeral block_count nonce d with
  | (Ok op, d') => payment_started time invoice gateway custom_meta ephemeral block_count nonce d op d' /\
      forall time' gateway' custom_meta' ephemeral' block_count' nonce', is_expired invoice time' = false ->
        send time' invoice gateway' custom_meta' ephemeral' block_count' nonce' d' = (Err (DuplicatePaymentAttempt op), d')
  | (Err _, d') => d' = d
  | (Panic, _) => keypair_of (ecdh (public_key keypair) ephemeral) = None \/ is_Some (operation_log (data d) !! attempt_operation invoice 0) \/
      exists b ft, well_funded (modules (attempt_operation invoice 0)) tx_hash_from_parts sign_schnorr BITCOIN b ft /\
        is_Some (transaction_fees (data d) !! tx_hash tx_hash_from_parts (transaction ft))
  end.
Proof using primary balances fee_wf.
  intros Hd Hr Hcount Hamt. set (run := send time invoice gateway custom_meta ephemeral block_count nonce d).
  assert (Hrun : run = send time invoice gateway custom_meta ephemeral block_count nonce d) by done. clearbody run. unfold send, mbind, M_bind in Hrun.
  pose proof (validate_send_invoice_spec time invoice d) as Hv.
  destruct (validate_send_invoice time invoice d) as [[[amount op]|e|] d1]; [|by subst run|done]. destruct Hv as (-> & Hinv & Hexp & Hnet & -> & Hno).
  pose proof (resolve_send_gateway_spec invoice gateway d) as Hg.
  destruct (resolve_send_gateway invoice gateway d) as [[[url r]|e|] d1]; [|by subst run|done]. destruct Hg as (-> & Hurl & n & Hn). cbn [fst snd] in Hrun.
  pose proof (fund_outgoing_contract_spec time invoice gateway amount _ url r custom_meta ephemeral block_count nonce d n Hd (Hr _ _ _ Hn) Hn Hurl Hcount
    (Hamt _ Hinv) Hinv Hexp Hnet eq_refl) as Hf. subst run.
  destruct (fund_outgoing_contract _ _ _ _ _ _ _ _ _ d) as [[op|e|] d']; [|done|done]. destruct Hf as [-> Hf]. split; [done|].
  intros time' gateway' custom_meta' ephemeral' block_count' nonce' Hexp'. apply send_duplicate; [by rewrite Hinv|done|done|].
  destruct Hf as (amount' & url' & r' & refund & count & ft & dm & _ & _ & _ & _ & _ & _ & _ & _ & _ & _ & _ & _ & _ & Hm).
  by apply (operation_exists_active _ _ _ Hm).
Qed.

(** *** Starting to receive *)

Definition receive_machine (c : IncomingContract) (claim : Key) (key : Z) : St :=
  LnMachine (ReceiveMachine {| receive_operation_id := incoming_contract_hash c; receive_contract := c; claim_keypair := claim; agg_decryption_key := key |} ReceivePending).

(** The operation of a contract is started unless it is there or the commit
    fails. *)
Definition receive_operation (c : IncomingContract) (claim : Key) (key : Z) (meta : LightningOperationMeta) (commit : bool) (d d' : Db) : Prop :=
  let op := incoming_contract_hash c in
  if bool_decide (is_Some (operation_log (data d) !! op)) || negb commit then d' = d
  else data d' = with_operations <[op := meta]> (data d) /\ active d' = <[receive_machine c claim key := now]> (active d) /\ inactive d' = inactive d.

(** The machine of a contract cannot be added. *)
Definition machine_refused (c : IncomingContract) (claim : Key) (key : Z) (d : Db) : Prop :=
  ln_id ∉ valid_module_ids \/ receive_machine c claim key ∈ dom (active d) ∪ dom (inactive d).

Lemma receive_machine_added c claim key (d : Db) :
  match add_machines [receive_machine c claim key] d with
  | (Ok _, d') => data d' = data d /\ active d' = <[receive_machine c claim key := now]> (active d) /\ inactive d' = inactive d
  | (Err _, _) => machine_refused c claim key d
  | (Panic, _) => False
  end.
Proof using.
  set (s := receive_machine c claim key). pose proof (add_machine_spec s d) as Hs.
  unfold add_state_machines_dbtx, for_each, mbind, M_bind. destruct (add_state_machine _ _ _ _ s d) as [[u|e|] d1] eqn:Hadd; cbn; [by destruct Hs as (? & ? & ?)| |done].
  unfold machine_refused. destruct (decide (ln_id ∈ valid_module_ids)) as [Hid|]; [right|by left]. fold s.
  destruct (active d !! s) eqn:Ha; [apply elem_of_union_l, elem_of_dom; by eexists|].
  destruct (inactive d !! s) eqn:Hi; [apply elem_of_union_r, elem_of_dom; by eexists|]. exfalso.
  unfold add_state_machine, ensure, get_value, mbind, M_bind in Hadd. rewrite bool_decide_eq_true_2 in Hadd by done. cbn -[is_terminal] in Hadd.
  rewrite Ha, Hi, !bool_decide_eq_false_2 in Hadd by (by intros []). cbn -[is_terminal] in Hadd. change (is_terminal s) with false in Hadd. rewrite andb_false_r in Hadd.
  cbn in Hadd. unfold insert_new_entry, insert_entry, mbind, M_bind in Hadd. cbn in Hadd. by rewrite Ha in Hadd.
Qed.

Lemma receive_incoming_contract_spec {E} sk c meta commit (d : Db) :
  match receive_incoming_contract (E := E) sk c meta commit d with
  | (Ok None, d') => recover_contract_keys sk c = Some None /\ d' = d
  | (Ok (Some op), d') => op = incoming_contract_hash c /\
      exists claim key, recover_contract_keys sk c = Some (Some (claim, key)) /\ receive_operation c claim key meta commit d d'
  | (Err _, _) => False
  | (Panic, _) => recover_contract_keys sk c = None \/
      exists claim key, recover_contract_keys sk c = Some (Some (claim, key)) /\ operation_log (data d) !! incoming_contract_hash c = None /\ machine_refused c claim key d
  end.
Proof using.
  unfold receive_incoming_contract. destruct (recover_contract_keys sk c) as [[[claim key]|]|] eqn:Hrec; cbn -[manual_operation_start]; [|done|by left].
  set (op := incoming_contract_hash c). unfold attempt, manual_operation_start, atomically, mbind, M_bind, receive_operation, get_value, ensure. fold op.
  destruct (operation_log (data d) !! op) as [x|] eqn:Hl; cbn -[add_state_machines_dbtx]; rewrite Hl.
  { cbn -[add_state_machines_dbtx]. split; [done|]. by exists claim, key. }
  rewrite !bool_decide_eq_false_2 by (by intros []). cbn -[add_state_machines_dbtx].
  unfold insert_new_entry, insert_entry, mbind, M_bind, unwrap. cbn -[add_state_machines_dbtx]. rewrite Hl. cbn -[add_state_machines_dbtx].
  set (d1 := update_data (with_operations _) d). pose proof (receive_machine_added c claim key d1) as Hadd. unfold receive_machine in Hadd at 1. fold op in Hadd.
  destruct (add_machines _ d1) as [[u|e|] d2]; [| |done].
  - destruct Hadd as (Hd & Ha & Hi). destruct commit; cbn; (split; [done|]); exists claim, key; (split; [done|]); [|done]. split_and!; [by rewrite Hd|by rewrite Ha|by rewrite Hi].
  - right. exists claim, key. by split_and!.
Qed.

(** A quote never panics. *)
Lemma worth_claiming_total {E} a (d : Db) : payable a -> good (wallet (data d)) ->
  exists b, is_worth_claiming (E := E) a d = (Ok b, d) /\ (b = true -> worth (wallet (data d)) a).
Proof using fee_wf primary balances keypair sign_schnorr tx_hash_from_parts.
  intros Ha Hd. set (b := with_inputs (Out := Out) TransactionBuilder_new (claim_bundle (InputIncoming {| txid := 0; out_idx := 0 |} 0) a keypair)).
  pose proof (fee_quote_exact (modules 0) primary_modules tx_hash_from_parts sign_schnorr BITCOIN good (primary_module 0) primary_id (primary 0)
    b 0 (wallet (data d)) (claim_builder_ok 0 _ a keypair Ha) Hd) as Hq. unfold b in Hq. rewrite claim_request in Hq by done. fold b in Hq.
  assert (Hrun : exists r, forall F, is_worth_claiming (E := F) a d = (Ok r, d)).
  { destruct (fee_of_spec fee_consensus fee_wf a (payable_u64 a Ha)) as [Hf _].
    destruct (finalize_transaction _ _ _ _ b 0 (wallet (data d))) as [[ft|e|] w']; [| |done].
    - destruct Hq as (q & w1 & Hq & Ht). exists (Amounts.get_bitcoin (tx_fees ft) <? a). intros F.
      unfold is_worth_claiming, receive_fee_quote, attempt, quoted, mbind, M_bind. rewrite Hf. cbn -[fee_quote]. rewrite Hq. cbn. by rewrite Ht.
    - destruct Hq as [w1 Hq]. exists false. intros F. unfold is_worth_claiming, receive_fee_quote, attempt, quoted, mbind, M_bind. rewrite Hf. cbn -[fee_quote]. by rewrite Hq. }
  destruct Hrun as [r Hr]. exists r. split; [done|]. intros ->. exists d. by rewrite Hr.
Qed.

(** The documented laws of the keys: both sides of an exchange agree on the
    secret, and tweaking commutes with taking the public key. *)
Hypothesis ecdh_comm : forall a b, ecdh (public_key a) b = ecdh (public_key b) a.
Hypothesis tweak_keys : forall k t, mul_tweak_pk (public_key k) t = public_key <$> mul_tweak_sk k t.
(** The derived key decrypts what was encrypted with its seed, see
    [Threshold]. *)
Hypothesis tpe_derived : forall agg_pk seed preimage h,
  let key := derive_agg_dk agg_pk seed in let ct := encrypt_preimage agg_pk seed preimage h in
  verify_agg_dk agg_pk key ct h = true /\ tpe_decrypt_preimage ct key = preimage.

(** The client recovers the keys of the contracts it makes. *)
Lemma own_contract amount expiry_secs routing ephemeral time c :
  incoming_contract amount expiry_secs routing ephemeral time = Some c ->
  exists claim key preimage, recover_contract_keys keypair c = Some (Some (claim, key)) /\ payment_image (commitment c) = Hash (preimage_hash preimage) /\
    decrypt_preimage preimage_hash secret_public_key tpe_decrypt_preimage c key = Some preimage /\
    commitment_amount (commitment c) = subtract_from (receive_fee routing) amount /\ expiration_or_fee (commitment c) = saturating_add time expiry_secs.
Proof using ecdh_comm tweak_keys tpe_derived.
  unfold incoming_contract. rewrite tweak_keys. set (tweak := ecdh (public_key keypair) ephemeral).
  destruct (mul_tweak_sk keypair tweak) as [claim|] eqn:Hclaim; [|done]. cbn [fmap option_fmap option_map mbind option_bind]. intros [= <-].
  set (seed := preimage_hash tweak). set (c := IncomingContract_new _ _ _ _ _ _ _ _ _).
  destruct (tpe_derived tpe_agg_pk seed (preimage_hash seed) (commitment_hash (commitment c))) as [Hv Hdec].
  assert (Hd : decrypt_preimage preimage_hash secret_public_key tpe_decrypt_preimage c (derive_agg_dk tpe_agg_pk seed) = Some (preimage_hash seed)).
  { unfold decrypt_preimage. change (ciphertext c) with (encrypt_preimage tpe_agg_pk seed (preimage_hash seed) (commitment_hash (commitment c))).
    rewrite Hdec. unfold c, Lnv2Server.verify_preimage. cbn. by rewrite Z.eqb_refl. }
  exists claim, (derive_agg_dk tpe_agg_pk seed), (preimage_hash seed). split_and!; [|done|done|done|done].
  unfold recover_contract_keys. change (ephemeral_pk (commitment c)) with (public_key ephemeral). rewrite (ecdh_comm ephemeral keypair). fold tweak. rewrite Hclaim.
  cbn [mbind option_bind]. change (claim_pk (commitment c)) with (public_key claim). rewrite Z.eqb_refl. cbn [negb]. fold seed.
  unfold verify_agg_decryption_key. change (ciphertext c) with (encrypt_preimage tpe_agg_pk seed (preimage_hash seed) (commitment_hash (commitment c))) at 1.
  rewrite Hv. cbn [negb]. by rewrite Hd.
Qed.

Lemma resolve_receive_gateway_spec gateway (d : Db) :
  match resolve_receive_gateway gateway d with
  | (Ok (url, r), d') => d' = d /\ (forall url', gateway = Some url' -> url = url') /\ receive_enabled r = true /\ exists n, routing_info n url = Some (Some r)
  | (Err _, d') => d' = d
  | (Panic, _) => False
  end.
Proof using.
  unfold resolve_receive_gateway, ok_or, ensure, throw, mbind, M_bind, mret, M_ret. destruct gateway as [url|].
  - destruct (routing_info 0 url) as [[r|]|] eqn:Hr; [|done|done]. destruct (receive_enabled r) eqn:Hen; [|done].
    split_and!; [done|by intros ? [= ->]|done|by exists 0%nat].
  - pose proof (select_receive_gateway_spec routing_info gateway_list) as Hs.
    destruct (select_receive_gateway _ _) as [[url r]|e]; [|done]. destruct Hs as (l & n & _ & _ & Hr & Hen). split_and!; [done|done|done|].
    exists n. unfold responds in Hr. destruct (routing_info n url) as [[r'|]|]; try done. by injection Hr as ->.
Qed.

(** A receive that was started: the terms of the gateway, the contract and its
    keys, and the operation. *)
Definition receive_started (amount expiry_secs : Z) (gateway : option Z) (custom_meta : Z) (ephemeral : Key) (time : Z)
    (fetch : Z -> IncomingContract -> option Bolt11Invoice) (commit : bool) (d : Db) (invoice : Bolt11Invoice) (op : Z) (d' : Db) : Prop :=
  exists url routing c claim key preimage,
    (forall url', gateway = Some url' -> url = url') /\ (exists n, routing_info n url = Some (Some routing)) /\ receive_enabled routing = true /\
    incoming_contract amount expiry_secs routing ephemeral time = Some c /\ op = incoming_contract_hash c /\ fetch url c = Some invoice /\
    amount_milli_satoshis invoice = Some amount /\ payment_hash invoice = preimage_hash preimage /\
    decrypt_preimage preimage_hash secret_public_key tpe_decrypt_preimage c key = Some preimage /\
    recover_contract_keys keypair c = Some (Some (claim, key)) /\
    amount - 50000 - amount * 5000 / 1000000 <= commitment_amount (commitment c) <= amount /\
    expiration_or_fee (commitment c) <= time + MAX_INVOICE_EXPIRY_SECS /\ worth (wallet (data d)) (commitment_amount (commitment c)) /\
    receive_operation c claim key (MetaReceive {| receive_gateway := url; received_contract := c; received_invoice := invoice; receive_custom_meta := custom_meta |}) commit d d'.

Lemma subtract_from_payable f a : payment_fee_wf f -> is_within f RECEIVE_FEE_LIMIT = true -> 0 <= a <= 2 ^ 60 ->
  a - 50000 - a * 5000 / 1000000 <= subtract_from f a <= a /\ payable (subtract_from f a).
Proof using.
  intros Hf Hw Ha. destruct (subtract_from_bounds f RECEIVE_FEE_LIMIT a Hf Hw ltac:(unfold is_u64, u64_max; lia)) as [[Hlo Hhi] Hu].
  pose proof (Z.div_le_mono (Z.min u64_max (a * 5000)) (a * 5000) 1000000 ltac:(lia) ltac:(lia)) as Hdiv.
  assert (Hb : a - 50000 - a * 5000 / 1000000 <= subtract_from RECEIVE_FEE_LIMIT a).
  { unfold subtract_from, absolute_fee, saturating_add, saturating_sub, saturating_mul in *. change (pf_base RECEIVE_FEE_LIMIT) with 50000 in *.
    change (pf_parts_per_million RECEIVE_FEE_LIMIT) with 5000 in *. lia. }
  unfold payable, is_u64 in *. lia.
Qed.

Lemma receive_with_routing_info_spec amount expiry_secs gateway url routing custom_meta ephemeral time fetch commit (d : Db) n :
  good (wallet (data d)) -> payment_fee_wf (receive_fee routing) -> 0 <= amount <= 2 ^ 60 -> 0 <= expiry_secs <= MAX_INVOICE_EXPIRY_SECS ->
  (forall url', gateway = Some url' -> url = url') -> receive_enabled routing = true -> routing_info n url = Some (Some routing) ->
  match receive_with_routing_info amount expiry_secs url routing custom_meta ephemeral time (fetch url) commit d with
  | (Ok (invoice, op), d') => receive_started amount expiry_secs gateway custom_meta ephemeral time fetch commit d invoice op d'
  | (Err _, d') => d' = d
  | (Panic, _) => incoming_contract amount expiry_secs routing ephemeral time = None \/
      exists c claim key, incoming_contract amount expiry_secs routing ephemeral time = Some c /\
        operation_log (data d) !! incoming_contract_hash c = None /\ machine_refused c claim key d
  end.
Proof using primary balances fee_wf ecdh_comm tweak_keys tpe_derived keypair sign_schnorr tx_hash_from_parts.
  intros Hd Hf Ha Hexp Hurl Hen Hn. unfold receive_with_routing_info, ensure, ok_or, throw. do 8 (unfold mbind at 1; unfold M_bind at 1).
  destruct (is_within (receive_fee routing) RECEIVE_FEE_LIMIT) eqn:Hw; [|done]. destruct (subtract_from_payable _ _ Hf Hw Ha) as [Hbounds Hpay].
  cbv beta iota delta [mret M_ret]. destruct (worth_claiming_total (E := ReceiveError) _ d Hpay Hd) as (b & -> & Hworth). cbv beta iota.
  destruct b; [|done]. cbv beta iota. specialize (Hworth eq_refl).
  destruct (incoming_contract amount expiry_secs routing ephemeral time) as [c|] eqn:Hc; [|by left]. unfold expect, mret, M_ret. cbv beta iota.
  destruct (own_contract _ _ _ _ _ _ Hc) as (claim & key & preimage & Hrec & Himg & Hdec & Hamt & Hcexp).
  destruct (fetch url c) as [invoice|] eqn:Hfetch; [|done]. cbv beta iota.
  destruct (bool_decide_reflect (Hash (payment_hash invoice) = payment_image (commitment c))) as [Hhash|]; [|done]. cbv beta iota.
  destruct (bool_decide_reflect (amount_milli_satoshis invoice = Some amount)) as [Hinv|]; [|done]. cbv beta iota.
  set (meta := MetaReceive _). pose proof (receive_incoming_contract_spec (E := ReceiveError) keypair c meta commit d) as Hr.
  destruct (receive_incoming_contract keypair c meta commit d) as [[[op|]|e|] d']; cbv beta iota; [| |done|].
  - destruct Hr as (-> & claim' & key' & Hrec' & Hop). rewrite Hrec in Hrec'. injection Hrec' as <- <-.
    rewrite Himg in Hhash. injection Hhash as Hhash.
    assert (expiration_or_fee (commitment c) <= time + MAX_INVOICE_EXPIRY_SECS) by (rewrite Hcexp; unfold saturating_add; lia).
    exists url, routing, c, claim, key, preimage. rewrite Hamt. split_and!; try done; try lia. by exists n.
  - destruct Hr as [Hr _]. by rewrite Hrec in Hr.
  - right. destruct Hr as [Hr|(claim' & key' & _ & Hl & Hm)]; [by rewrite Hrec in Hr|]. by exists c, claim', key'.
Qed.


(** ** Receiving to a published key *)

Lemma is_worth_claiming_state {E} a (d : Db) : (is_worth_claiming (E := E) a d).2 = d.
Proof using.
  unfold is_worth_claiming, receive_fee_quote, attempt, quoted, mbind, M_bind, expect. destruct (Fee.fee fee_consensus a) as [fee|]; [|done]. cbn -[fee_quote].
  destruct (fee_quote _ _ _ _).1 as [q|e|]; [|done|done]. cbn. by destruct (FeeQuote_total q).
Qed.

Lemma lnurl_contract_Ok custom_meta commit c (d d' : Db) :
  lnurl_contract custom_meta commit c d = (Ok tt, d') ->
  (recover_contract_keys lnurl_keypair c = Some None /\ d' = d) \/
  exists claim key, recover_contract_keys lnurl_keypair c = Some (Some (claim, key)) /\
    (((is_worth_claiming (E := Empty_set) (commitment_amount (commitment c)) d).1 = Ok false /\ d' = d) \/
     receive_operation c claim key (MetaLnurlReceive c custom_meta) commit d d').
Proof using.
  unfold lnurl_contract, mbind, M_bind. destruct (recover_contract_keys lnurl_keypair c) as [[[claim key]|]|] eqn:Hrec; cbn -[is_worth_claiming receive_incoming_contract];
    [|by intros [= <-]; left|done].
  pose proof (is_worth_claiming_state (E := Empty_set) (commitment_amount (commitment c)) d) as Hst.
  destruct (is_worth_claiming _ d) as [[[]|e|] d1]; [| |done|done]; cbn [snd] in Hst; subst d1.
  - unfold mbind, M_bind. pose proof (receive_incoming_contract_spec (E := Empty_set) lnurl_keypair c (MetaLnurlReceive c custom_meta) commit d) as Hr.
    destruct (receive_incoming_contract _ _ _ _ d) as [[[op|]|e|] d2]; [| |done|done]; intros [= <-]; right; exists claim, key; (split; [done|]); right.
    + destruct Hr as (_ & claim' & key' & Hrec' & Hop). rewrite Hrec in Hrec'. by injection Hrec' as <- <-.
    + destruct Hr as [Hr _]. by rewrite Hrec in Hr.
  - intros [= <-]. right. exists claim, key. split; [done|]. by left.
Qed.

(** The loop next to the guardians and the rest of the client: it is idle or
    works on a page, and the process may stop at any point. *)
Inductive lnurl_phase := Idle | Batch (todo : list IncomingContract) (next : Z).
Inductive lnurl_label := GuardianStep (ev : ln_event) | ClientStep | Fetched | Handled (c : IncomingContract) (commit : bool) (d : Db) | Advanced | Stopped.

Inductive lnurl_step : lnurl_label -> LnDb * Db * lnurl_phase -> LnDb * Db * lnurl_phase -> Prop :=
| step_guardian ev g g' d ph : ln_apply ev g g' -> lnurl_step (GuardianStep ev) (g, d, ph) (g', d, ph)
| step_client g d d' ph : contract_cursor (data d') = contract_cursor (data d) -> operation_log (data d) ⊆ operation_log (data d') ->
    lnurl_step ClientStep (g, d, ph) (g, d', ph)
| step_fetch g d cs next : await_incoming_contracts g (read_cursor d) 128 = Some (cs, next) -> lnurl_step Fetched (g, d, Idle) (g, d, Batch cs next)
| step_contract g d d' c cs next custom_meta commit : lnurl_contract custom_meta commit c d = (Ok tt, d') ->
    lnurl_step (Handled c commit d) (g, d, Batch (c :: cs) next) (g, d', Batch cs next)
| step_advance g d d' next : advance_cursor next d = (Ok tt, d') -> lnurl_step Advanced (g, d, Batch [] next) (g, d', Idle)
| step_stop g d ph : lnurl_step Stopped (g, d, ph) (g, d, Idle).

Inductive lnurl_run (x : LnDb * Db * lnurl_phase) : list lnurl_label -> LnDb * Db * lnurl_phase -> Prop :=
| run_nil : lnurl_run x [] x
| run_snoc l a y z : lnurl_run x l y -> lnurl_step a y z -> lnurl_run x (l ++ [a]) z.

(** What became of a contract. *)
Definition settled (l : list lnurl_label) (d : Db) (c : IncomingContract) : Prop :=
  recover_contract_keys lnurl_keypair c = Some None \/ is_Some (operation_log (data d) !! incoming_contract_hash c) \/
  exists commit d1, Handled c commit d1 ∈ l /\ (commit = false \/ (is_worth_claiming (E := Empty_set) (commitment_amount (commitment c)) d1).1 = Ok false).

Lemma settled_mono l a (d d' : Db) c : operation_log (data d) ⊆ operation_log (data d') -> settled l d c -> settled (l ++ [a]) d' c.
Proof using.
  intros Hs [Hn|[[x Hx]|(commit & d1 & Hin & Hw)]]; [by left|right; left|right; right].
  - exists x. by eapply lookup_weaken.
  - exists commit, d1. split; [|done]. apply elem_of_app. by left.
Qed.

Lemma receive_operation_mono c claim key meta commit (d d' : Db) : receive_operation c claim key meta commit d d' ->
  contract_cursor (data d') = contract_cursor (data d) /\ operation_log (data d) ⊆ operation_log (data d') /\
  (commit = true -> is_Some (operation_log (data d') !! incoming_contract_hash c)).
Proof using.
  unfold receive_operation. case_bool_decide as Hl; cbn [orb].
  - by intros ->.
  - destruct commit; cbn [negb]; [|by intros ->]. intros (-> & _ & _). cbn. split_and!; [done| |].
    + apply insert_subseteq. by apply eq_None_not_Some.
    + intros _. rewrite lookup_insert_eq. by eexists.
Qed.

Lemma lnurl_contract_settled l custom_meta commit c (d d' : Db) :
  lnurl_contract custom_meta commit c d = (Ok tt, d') ->
  contract_cursor (data d') = contract_cursor (data d) /\ operation_log (data d) ⊆ operation_log (data d') /\ settled (l ++ [Handled c commit d]) d' c.
Proof using.
  intros [[Hr ->]|(claim & key & Hr & [[Hw ->]|Hop])]%lnurl_contract_Ok.
  - split_and!; [done|done|by left].
  - split_and!; [done|done|]. right. right. exists commit, d. split; [|by right]. apply elem_of_app. right. by left.
  - apply receive_operation_mono in Hop as (Hc & Hl & Hs). split_and!; [done|done|]. destruct commit; [right; left; by apply Hs|].
    right. right. exists false, d. split; [|by left]. apply elem_of_app. right. by left.
Qed.

(** Entries of the stream never come back below its index. *)
Lemma stream_step ev g g' i c : ln_apply ev g g' -> stream g' !! i = Some c -> stream g !! i = Some c \/ next_stream_index g <= i.
Proof using.
  intros Ha Hc. destruct ev as [[o' w|o' key|]|[c'|c'|] o'|[v|v|] peer]; cbn [Lnv2Server.ln_apply] in Ha.
  - destruct Ha as [[pk a] Ha]. apply process_outgoing_Ok in Ha as (c' & _ & _ & _ & ->). left. by destruct w.
  - destruct Ha as [[pk a] Ha]. apply process_incoming_Ok in Ha as (c' & index & _ & _ & _ & _ & _ & ->). left. simpl in Hc. by apply lookup_delete_Some in Hc as [_ Hc].
  - destruct Ha as [r Ha]. by mrun.
  - destruct Ha as [a Ha]. apply process_output_outgoing_Ok in Ha as (_ & _ & ->). by left.
  - destruct Ha as [a Ha]. apply process_output_incoming_Ok in Ha as (_ & _ & _ & _ & ->). simpl in Hc.
    apply lookup_insert_Some in Hc as [[<- _]|[_ Hc]]; [right; unfold next_stream_index; lia|by left].
  - destruct Ha as [a Ha]. by mrun.
  - simpl in Ha. dbrun. by left.
  - simpl in Ha. dbrun. by left.
  - simpl in Ha. by mrun.
Qed.

Record lnurl_inv (l : list lnurl_label) (g : LnDb) (d : Db) (ph : lnurl_phase) : Prop := {
  li_stream : stream_inv g;
  li_count : next_stream_index g <= Z.of_nat (length l);
  li_cursor : 0 <= read_cursor d <= next_stream_index g;
  li_done i c : stream g !! i = Some c -> i < read_cursor d -> settled l d c;
  li_batch cs next : ph = Batch cs next -> read_cursor d < next <= next_stream_index g /\
    forall i c, stream g !! i = Some c -> read_cursor d <= i < next -> c ∈ cs \/ settled l d c;
}.

(** What only the client does keeps the invariant, when it keeps the cursor. *)
Lemma lnurl_inv_client l a g (d d' : Db) ph : lnurl_inv l g d ph ->
  contract_cursor (data d') = contract_cursor (data d) -> operation_log (data d) ⊆ operation_log (data d') -> lnurl_inv (l ++ [a]) g d' ph.
Proof using.
  intros [Hs Hn Hc Hd Hb] Hcur Hlog. assert (Hr : read_cursor d' = read_cursor d) by (unfold read_cursor; by rewrite Hcur).
  split; rewrite ?Hr; [done|rewrite length_app; simpl; lia|done| |].
  - intros i c Hi Hlt. eapply settled_mono; [done|by eapply Hd].
  - intros cs next ->. destruct (Hb cs next eq_refl) as [Hb1 Hb2]. split; [done|]. intros i c Hi Hlt.
    destruct (Hb2 i c Hi Hlt) as [|Hst]; [by left|right]. by eapply settled_mono.
Qed.

Lemma lnurl_inv_guardian l ev g g' (d : Db) ph : lnurl_inv l g d ph -> Z.of_nat (length l) < u64_max -> ln_apply ev g g' ->
  lnurl_inv (l ++ [GuardianStep ev]) g' d ph.
Proof using.
  intros [Hs Hn Hc Hd Hb] Hlen Ha.
  edestruct ln_apply_stream as [Hs' Hn']; [exact Hs|lia|exact Ha|].
  split; [done|rewrite length_app; simpl; lia|lia| |].
  - intros i c Hi Hlt. destruct (stream_step _ _ _ _ _ Ha Hi) as [Hi0|]; [|lia]. eapply settled_mono; [done|by eapply Hd].
  - intros cs next ->. destruct (Hb cs next eq_refl) as [Hb1 Hb2]. split; [lia|]. intros i c Hi Hlt.
    destruct (stream_step _ _ _ _ _ Ha Hi) as [Hi0|]; [|lia]. destruct (Hb2 i c Hi0 Hlt) as [|Hst]; [by left|right]. by eapply settled_mono.
Qed.

Lemma lnurl_inv_fetch l g (d : Db) cs next : lnurl_inv l g d Idle ->
  await_incoming_contracts g (read_cursor d) 128 = Some (cs, next) -> lnurl_inv (l ++ [Fetched]) g d (Batch cs next).
Proof using.
  intros Hinv Hpage. pose proof (lnurl_inv_client l Fetched g d d Idle Hinv eq_refl ltac:(done)) as [Hs Hn Hc Hd _].
  destruct (await_incoming_contracts_page g (read_cursor d) 128%nat cs next Hs ltac:(lia) Hpage) as (Hlt & _ & ->). split; try done. intros ? ? [= <- <-]. split; [done|].
  intros i c Hi Hin. left. apply list_elem_of_fmap. exists (i, c). split; [done|]. by apply elem_of_range_scan.
Qed.

Lemma lnurl_inv_contract l g (d d' : Db) c cs next custom_meta commit : lnurl_inv l g d (Batch (c :: cs) next) ->
  lnurl_contract custom_meta commit c d = (Ok tt, d') -> lnurl_inv (l ++ [Handled c commit d]) g d' (Batch cs next).
Proof using.
  intros Hinv Hrun. apply (lnurl_contract_settled l) in Hrun as (Hcur & Hlog & Hset).
  pose proof (lnurl_inv_client l (Handled c commit d) g d d' _ Hinv Hcur Hlog) as [Hs Hn Hc Hd Hb]. split; try done.
  intros ? ? [= <- <-]. destruct (Hb _ _ eq_refl) as [Hb1 Hb2]. split; [done|]. intros i c' Hi Hlt.
  destruct (Hb2 i c' Hi Hlt) as [[->|Hin]%elem_of_cons|Hst]; [by right|by left|by right].
Qed.

Lemma lnurl_inv_advance l g (d d' : Db) next : lnurl_inv l g d (Batch [] next) -> advance_cursor next d = (Ok tt, d') -> lnurl_inv (l ++ [Advanced]) g d' Idle.
Proof using.
  intros Hinv Hrun. pose proof (lnurl_inv_client l Advanced g d d _ Hinv eq_refl ltac:(done)) as [Hs Hn Hc Hd Hb]. cbn in Hrun. injection Hrun as <-.
  assert (Hr : read_cursor (update_data (with_cursor <[tt := next]>) d) = next) by (unfold read_cursor; cbn; by rewrite lookup_insert_eq).
  destruct (Hb _ _ eq_refl) as [Hb1 Hb2]. split; rewrite ?Hr; [done|done|lia| |done].
  intros i c Hi Hlt. destruct (decide (i < read_cursor d)) as [|Hge]; [by eapply Hd|].
  destruct (Hb2 i c Hi ltac:(lia)) as [[]%not_elem_of_nil|Hst]. exact Hst.
Qed.

Lemma lnurl_inv_run l (d0 : Db) g (d : Db) ph :
  lnurl_run (LnDb_empty, d0, Idle) l (g, d, ph) -> contract_cursor (data d0) = ∅ -> Z.of_nat (length l) <= u64_max -> lnurl_inv l g d ph.
Proof using.
  intros Hrun Hc. remember (LnDb_empty, d0, Idle) as x eqn:Hx. remember (g, d, ph) as y eqn:Hy. revert g d ph Hy.
  induction Hrun as [|l a y z Hrun IH Hstep]; intros g d ph Hy Hlen.
  - subst x. injection Hy as <- <- <-. assert (Hcur : read_cursor d0 = 0) by (unfold read_cursor; by rewrite Hc).
    split; rewrite ?Hcur; [apply stream_inv_empty|done|done| |done]. intros i c Hi. cbn in Hi. by rewrite lookup_empty in Hi.
  - rewrite length_app in Hlen. simpl in Hlen. destruct y as [[g1 d1] ph1]. specialize (IH _ _ _ eq_refl ltac:(lia)). subst z.
    inversion Hstep; subst; [eapply lnurl_inv_guardian|eapply lnurl_inv_client|eapply lnurl_inv_fetch|eapply lnurl_inv_contract|eapply lnurl_inv_advance|]; try done; [lia|].
    destruct (lnurl_inv_client l Stopped _ _ _ _ IH eq_refl ltac:(done)). by split.
Qed.

(** C19: no payment to a published key is missed.  However the guardians, the
    client and the loop interleave, and wherever the process stops, every
    incoming contract that is unspent at the guardians and that the client has
    moved past has its operation in the log, unless the keys of the client do
    not unlock it, or the client did not find it worth claiming when it handled
    it, or the commit of its operation failed.  And the loop never stalls: as
    long as the stream is ahead of the client, the guardians answer with a page
    that moves it on. *)
Theorem lnurl_misses_none l (d0 : Db) g (d : Db) ph :
  lnurl_run (LnDb_empty, d0, Idle) l (g, d, ph) -> contract_cursor (data d0) = ∅ -> Z.of_nat (length l) <= u64_max ->
  (forall o c, incoming g !! o = Some c -> exists i, incoming_index g !! o = Some i /\ 0 <= i < next_stream_index g /\ (i < read_cursor d -> settled l d c)) /\
  (read_cursor d < next_stream_index g -> exists cs next, await_incoming_contracts g (read_cursor d) 128 = Some (cs, next) /\ read_cursor d < next).
Proof using.
  intros Hrun Hc Hlen. destruct (lnurl_inv_run _ _ _ _ _ Hrun Hc Hlen) as [Hs _ Hcur Hd _]. split.
  - intros o c Ho. destruct (incoming_has_index _ Hs o ltac:(by eexists)) as [i Hi]. exists i. split; [done|].
    destruct (index_streamed _ Hs o i Hi) as (Hb & c' & Hc' & Hst). split; [done|]. intros Hlt. eapply Hd; [|exact Hlt]. congruence.
  - intros Hlt. destruct (await_incoming_contracts g (read_cursor d) 128) as [[cs next]|] eqn:Hpage.
    + exists cs, next. split; [done|]. destruct (await_incoming_contracts_page g (read_cursor d) 128%nat cs next Hs ltac:(lia) Hpage) as (? & _). lia.
    + unfold await_incoming_contracts, next_stream_index in *. destruct (stream_index g !! tt) as [top|]; simpl in *; [|lia].
      destruct (Z.ltb_spec (read_cursor d) top); [done|lia].
Qed.

(** ** Attempts to pay an invoice *)

(** The operations that have states. *)
Definition operations (d : Db) : list Z := (operation_id <$> (map_to_list (active d)).*1) ++ (operation_id <$> (map_to_list (inactive d)).*1).

Lemma operation_exists_listed op (d : Db) : operation_exists op d = true -> op ∈ operations d.
Proof using.
  unfold operation_exists, get_operation_states, operations. intros Hex. apply elem_of_app.
  destruct (filter _ (map_to_list (active d))) as [|x l] eqn:Ha.
  - destruct (filter _ (map_to_list (inactive d))) as [|y l'] eqn:Hi; [done|]. right.
    assert (Hy : y ∈ filter (fun kv => operation_id kv.1 = op) (map_to_list (inactive d))) by (rewrite Hi; left).
    apply list_elem_of_filter in Hy as [Hy Hin]. apply list_elem_of_fmap. exists y.1. split; [done|]. apply list_elem_of_fmap. by exists y.
  - left. assert (Hx : x ∈ filter (fun kv => operation_id kv.1 = op) (map_to_list (active d))) by (rewrite Ha; left).
    apply list_elem_of_filter in Hx as [Hx Hin]. apply list_elem_of_fmap. exists x.1. split; [done|]. apply list_elem_of_fmap. by exists x.
Qed.

Lemma last_attempt_Some fuel invoice k last (d : Db) r : last_attempt fuel invoice k last d = Some r ->
  exists n : nat, (forall i, k <= i < k + Z.of_nat n -> operation_exists (attempt_operation invoice i) d = true) /\
    operation_exists (attempt_operation invoice (k + Z.of_nat n)) d = false /\
    r = match n with O => last | S m => Some (attempt_operation invoice (k + Z.of_nat m)) end.
Proof using.
  revert k last. induction fuel as [|fuel IH]; intros k last; [done|]. cbn [last_attempt].
  destruct (operation_exists (attempt_operation invoice k) d) eqn:Hex.
  - intros (n & Hall & Hno & Hr)%IH. exists (S n). split_and!.
    + intros i Hi. destruct (decide (i = k)) as [->|Hne]; [done|]. apply Hall. lia.
    + by replace (k + Z.of_nat (S n)) with (k + 1 + Z.of_nat n) by lia.
    + rewrite Hr. destruct n as [|n]; f_equal; f_equal; lia.
  - intros [= <-]. exists O. rewrite Z.add_0_r. split_and!; [lia|done|done].
Qed.

Lemma last_attempt_None fuel invoice k last (d : Db) : last_attempt fuel invoice k last d = None ->
  forall i, k <= i < k + Z.of_nat fuel -> operation_exists (attempt_operation invoice i) d = true.
Proof using.
  revert k last. induction fuel as [|fuel IH]; intros k last Hn i Hi; [lia|]. cbn [last_attempt] in Hn.
  destruct (operation_exists (attempt_operation invoice k) d) eqn:Hex; [|done]. destruct (decide (i = k)) as [->|Hne]; [done|]. eapply IH; [exact Hn|lia].
Qed.

(** The search for the last attempt ends, and the status is that of the last of
    the attempts in a row. *)
Lemma last_attempt_correct invoice (d : Db) : (forall i j, attempt_operation invoice i = attempt_operation invoice j -> i = j) ->
  exists n : nat, (forall i, 0 <= i < Z.of_nat n -> operation_exists (attempt_operation invoice i) d = true) /\
    operation_exists (attempt_operation invoice (Z.of_nat n)) d = false /\
    last_attempt (attempts_fuel d) invoice 0 None d = Some match n with O => None | S m => Some (attempt_operation invoice (Z.of_nat m)) end.
Proof using.
  intros Hinj. destruct (last_attempt (attempts_fuel d) invoice 0 None d) as [r|] eqn:Hl.
  { apply last_attempt_Some in Hl as (n & Hall & Hno & ->). exists n. done. }
  exfalso. pose proof (last_attempt_None _ _ _ _ _ Hl) as Hall.
  assert (Hsub : attempt_operation invoice <$> seqZ 0 (Z.of_nat (attempts_fuel d)) ⊆ operations d).
  { intros op (i & -> & Hi%elem_of_seqZ)%list_elem_of_fmap. apply operation_exists_listed, Hall. lia. }
  apply NoDup_submseteq in Hsub; [|apply NoDup_fmap_2; [exact Hinj|apply NoDup_seqZ]].
  apply submseteq_length in Hsub. unfold operations, attempts_fuel in Hsub. rewrite length_app, !length_fmap, length_seqZ, !length_map_to_list in Hsub. lia.
Qed.
End client.
