(* ===== verification/Lnv2Mint.v ===== *)
(** * The lightning client on top of the mint

    The modules of a client meet in one transaction: [DynInput], [DynOutput]
    and [DynState] wrap the items and the states of every module.  The mint
    keeps its promise of a primary module among the wrapped items, and the
    quotes of the mint are the same for every operation, so that what is proved
    of the lightning client holds with the mint as its wallet.  The file ends
    with a wallet that pays, is refunded, and receives. *)

From S2P Require Import Prelude Db Amounts ServerModule Transaction MintServer Lnv2Server Tiered NoteSelection MintClient SendAmount ClientTx Submission MintPrimary MintIssuance Executor Gateways MintMachines Lnv2Client.

(** ** Wrapping *)

Section lift.
Context {D LI LO In Out Key State State' : Type} (fs : State -> State').

Definition lift_input (x : @DynClientInput In Key) : @DynClientInput (LI + In) Key :=
  {| input := {| Transaction.module_instance_id := Transaction.module_instance_id (input x); value := inr (value (input x)) |};
     keys := keys x; input_amounts := input_amounts x |}.
Definition lift_output (x : @DynClientOutput Out) : @DynClientOutput (LO + Out) :=
  {| output := {| Transaction.module_instance_id := Transaction.module_instance_id (output x); value := inr (value (output x)) |};
     output_amounts := output_amounts x |}.
Definition lift_gen (gen : StateGenerator (State := State)) : StateGenerator (State := State') := fun range =>
  match gen range with Some l => Some (List.map fs l) | None => None end.
Definition lift_inputs (b : @ClientInputBundle In Key State) : @ClientInputBundle (LI + In) Key State' :=
  {| bundle_inputs := lift_input <$> bundle_inputs b; input_sm_gens := lift_gen <$> input_sm_gens b |}.
Definition lift_outputs (b : @ClientOutputBundle Out State) : @ClientOutputBundle (LO + Out) State' :=
  {| bundle_outputs := lift_output <$> bundle_outputs b; output_sm_gens := lift_gen <$> output_sm_gens b |}.

(** Items of another module do not downcast. *)
Definition lift_module (m : @ClientModule D In Out Key State) : @ClientModule D (LI + In) (LO + Out) Key State' := {|
  input_fee amounts i := match i with inr i => input_fee m amounts i | inl _ => None end;
  output_fee amounts o := match o with inr o => output_fee m amounts o | inl _ => None end;
  create_final id unit i o := r ← create_final m id unit i o; mret (lift_inputs r.1, lift_outputs r.2);
|}.

Context (u id : Z) (good : D -> Prop) (m : @ClientModule D In Out Key State).
Context (modules : gmap Z (@ClientModule D (LI + In) (LO + Out) Key State')).
Hypothesis registered : modules !! id = Some (lift_module m).

Lemma lift_input_fees (x : @DynClientInput In Key) f : input_fees {[ id := m ]} x = Some f -> input_fees modules (lift_input x) = Some f.
Proof using registered.
  unfold input_fees. destruct (decide (Transaction.module_instance_id (input x) = id)) as [Hid|Hne].
  - rewrite Hid, lookup_singleton_eq. cbn [lift_input input Transaction.module_instance_id]. by rewrite Hid, registered.
  - by rewrite lookup_singleton_ne.
Qed.
Lemma lift_output_fees (x : @DynClientOutput Out) f : output_fees {[ id := m ]} x = Some f -> output_fees modules (lift_output x) = Some f.
Proof using registered.
  unfold output_fees. destruct (decide (Transaction.module_instance_id (output x) = id)) as [Hid|Hne].
  - rewrite Hid, lookup_singleton_eq. cbn [lift_output output Transaction.module_instance_id]. by rewrite Hid, registered.
  - by rewrite lookup_singleton_ne.
Qed.

Lemma lift_inputs_ok l : Forall (ClientTx.input_ok {[ id := m ]} u) l ->
  Forall (ClientTx.input_ok modules u) (lift_input <$> l) /\ in_value u (lift_input <$> l) = in_value u l /\
  in_fees modules u (lift_input <$> l) = in_fees {[ id := m ]} u l.
Proof using registered.
  unfold in_value, in_fees, fee_value. induction 1 as [|x l [Hu (f & Hf & Hfu)] _ (IH1 & IH2 & IH3)]; [by split_and!; [constructor|..]|].
  rewrite !fmap_cons, !sum_list_cons, IH2, IH3, Hf, (lift_input_fees x f Hf). split_and!; [|done|done].
  constructor; [|done]. split; [done|]. exists f. by rewrite (lift_input_fees x f Hf).
Qed.
Lemma lift_outputs_ok l : Forall (ClientTx.output_ok {[ id := m ]} u) l ->
  Forall (ClientTx.output_ok modules u) (lift_output <$> l) /\ out_value u (lift_output <$> l) = out_value u l /\
  out_fees modules u (lift_output <$> l) = out_fees {[ id := m ]} u l.
Proof using registered.
  unfold out_value, out_fees, fee_value. induction 1 as [|x l [Hu (f & Hf & Hfu)] _ (IH1 & IH2 & IH3)]; [by split_and!; [constructor|..]|].
  rewrite !fmap_cons, !sum_list_cons, IH2, IH3, Hf, (lift_output_fees x f Hf). split_and!; [|done|done].
  constructor; [|done]. split; [done|]. exists f. by rewrite (lift_output_fees x f Hf).
Qed.

Lemma lift_gens n (gens : list (StateGenerator (State := State))) : gens_total (n, gens) -> gens_total (n, lift_gen <$> gens).
Proof using.
  unfold gens_total. cbn [fst snd]. rewrite Forall_fmap. intros Hall. eapply Forall_impl; [exact Hall|]. intros gen Hg range Hc. cbn in *. unfold lift_gen.
  destruct (Hg range Hc) as [l ->]. by eexists.
Qed.

(** A primary module keeps its promise when its items are wrapped. *)
Lemma lift_balances : Balances {[ id := m ]} u good m id -> Balances modules u good (lift_module m) id.
Proof using registered.
  intros Hb d i o Hd Hi Ho. specialize (Hb d i o Hd Hi Ho). cbn [lift_module create_final]. unfold mbind, M_bind.
  destruct (create_final m id u i o d) as [[[ib ob]|e|] d']; [|done|done]. cbn [mret M_ret fst snd].
  destruct Hb as (Hio & Hoo & Hgi & Hgo & Hli & Hlo & Hv & Hle). cbn [lift_inputs lift_outputs bundle_inputs bundle_outputs].
  destruct (lift_inputs_ok _ Hio) as (H1 & H2 & H3), (lift_outputs_ok _ Hoo) as (H4 & H5 & H6).
  rewrite H2, H3, H5, H6, !length_fmap. split_and!; try done.
  - unfold input_entry. cbn. rewrite length_fmap. by apply lift_gens.
  - unfold output_entry. cbn. rewrite length_fmap. by apply lift_gens.
Qed.
End lift.

(** ** Quotes *)

Section quotes.
Context {D In Out Key State : Type}.
Local Abbreviation Module := (@ClientModule D In Out Key State).

(** The items of a balanced transaction, without the machines. *)
Definition items_of (r : outcome ClientModuleError (@ClientInputBundle In Key State * @ClientOutputBundle Out State) * D) :=
  match r with
  | (Ok (ib, ob), d) => (Ok (bundle_inputs ib, bundle_outputs ob), d)
  | (Err e, d) => (Err e, d)
  | (Panic, d) => (Panic, d)
  end.

(** Modules that differ in their state machines only. *)
Definition same_items (m m' : Module) : Prop :=
  (forall a i, input_fee m a i = input_fee m' a i) /\ (forall a o, output_fee m a o = output_fee m' a o) /\
  (forall id u i o d, items_of (create_final m id u i o d) = items_of (create_final m' id u i o d)).

Context (modules modules' : gmap Z Module) (primary_modules : gmap Z PrimaryModuleCandidates).
Hypothesis same : forall id, option_Forall2 same_items (modules !! id) (modules' !! id).

Lemma same_input_fees x : input_fees modules x = input_fees modules' x.
Proof using same. unfold input_fees. destruct (same (Transaction.module_instance_id (input x))) as [m m' (H & _)|]; [apply H|done]. Qed.
Lemma same_output_fees x : output_fees modules x = output_fees modules' x.
Proof using same. unfold output_fees. destruct (same (Transaction.module_instance_id (output x))) as [m m' (_ & H & _)|]; [apply H|done]. Qed.

Lemma same_add_inputs acc l : add_inputs modules acc l = add_inputs modules' acc l.
Proof using same. revert acc. induction l as [|x l IH]; intros acc; [done|]. cbn. rewrite same_input_fees. destruct (input_fees modules' x); [apply IH|done]. Qed.
Lemma same_add_outputs acc l : add_outputs modules acc l = add_outputs modules' acc l.
Proof using same. revert acc. induction l as [|x l IH]; intros acc; [done|]. cbn. rewrite same_output_fees. destruct (output_fees modules' x); [apply IH|done]. Qed.

Lemma same_quote_units a b units ins outs d :
  quote_units modules primary_modules a b units ins outs d = quote_units modules' primary_modules a b units ins outs d.
Proof using same.
  revert ins outs d. induction units as [|u units IH]; intros ins outs d; [done|]. cbn [quote_units].
  destruct (_ =? _); [apply IH|]. unfold balance_unit, primary_module_for_unit. destruct (primary_modules_for_unit primary_modules u) as [|id ids]; [done|].
  destruct (same id) as [m m' (_ & _ & Hc)|]; [|done]. cbn [fmap option_fmap option_map]. unfold mbind, M_bind, map_err. specialize (Hc id u (Amounts.get a u) (Amounts.get b u) d).
  destruct (create_final m _ _ _ _ d) as [[[ib ob]|e|] d1], (create_final m' _ _ _ _ d) as [[[ib' ob']|e'|] d2]; cbn in Hc; try done;
    [|by injection Hc as -> ->|by injection Hc as ->].
  injection Hc as Hib Hob ->. cbn [fst snd]. rewrite Hib, Hob, same_add_inputs, same_add_outputs.
  destruct (add_inputs modules' ins (bundle_inputs ib')) as [ins'|]; [|done]. unfold expect, mret, M_ret. cbv beta iota.
  destruct (add_outputs modules' outs (bundle_outputs ob')) as [outs'|]; [|done]. apply IH.
Qed.

Lemma same_fee_quote request d : fee_quote modules primary_modules request d = fee_quote modules' primary_modules request d.
Proof using same.
  unfold fee_quote, mbind, M_bind. destruct (expect _ d) as [[b|e|] d1]; [|done|done]. by rewrite same_quote_units.
Qed.
End quotes.

(** ** The mint as the wallet of the lightning client *)

Section mint_wallet.
Context {UN Key : Type} (public_key : Key -> Z) (decode : UN -> option (SpendableNote (Key := Key))) (tbs_verify : Z -> Z -> Z -> bool).
Context (issuance_request : Z -> Z -> NoteIssuanceRequest (Key := Key) * Z) (tbs_pks : gmap Z Z) (mint_fees ln_fees : Fee.FeeConsensus).
Context (mint_id ln_id : Z).

Local Abbreviation mint op := (mint_client public_key decode tbs_verify issuance_request tbs_pks mint_fees op).
(** The mint in [DynInput], [DynOutput] and [DynState]. *)
Definition dyn_mint (operation_id : Z)
    : @ClientModule (@MintClientDb UN) (LightningInput + MintInput) (LightningOutput + MintOutput) Key (MachineState MintInput MintOutput Key (MintMachines.MachineState Key)) :=
  lift_module (fun s => OtherMachine (into_dyn s)) (mint operation_id).
Definition mint_registry (operation_id : Z) : gmap Z _ := {[ mint_id := dyn_mint operation_id ]}.
Definition mint_primary : gmap Z PrimaryModuleCandidates := add_primary ∅ (mint_id, supports_being_primary).

Local Abbreviation modules := (Lnv2Client.modules ln_fees ln_id mint_registry).

Hypothesis fee_wf : Fee.wf mint_fees.
Hypothesis tiers_ok : head (tiers tbs_pks) = Some 1 /\ Forall tier_ok (tiers tbs_pks).
Hypothesis distinct : ln_id <> mint_id.

Lemma dyn_mint_registered op : modules op !! mint_id = Some (dyn_mint op).
Proof using distinct. unfold Lnv2Client.modules, mint_registry. by rewrite lookup_insert_ne, lookup_singleton_eq. Qed.

Lemma dyn_mint_primary op : primary_module_for_unit (modules op) mint_primary BITCOIN = Some (Some (mint_id, dyn_mint op)).
Proof using distinct.
  unfold primary_module_for_unit. assert (Hp : primary_modules_for_unit mint_primary BITCOIN = [mint_id]) by reflexivity.
  by rewrite Hp, dyn_mint_registered.
Qed.

(** The mint keeps the promise of a primary module next to the lightning
    module. *)
Lemma dyn_mint_balances op : Balances (modules op) BITCOIN (wallet_ok public_key decode tbs_verify tbs_pks) (dyn_mint op) mint_id.
Proof using fee_wf tiers_ok distinct.
  apply (lift_balances _ _ _ _ _ _ (dyn_mint_registered op)). apply (mint_balances public_key decode tbs_verify issuance_request tbs_pks mint_fees fee_wf tiers_ok op).
  apply lookup_singleton_eq.
Qed.

(** The operation of a transaction is only in the machines of the mint. *)
Lemma dyn_mint_quotes op op' request w :
  (fee_quote (modules op) mint_primary request w).1 = (fee_quote (modules op') mint_primary request w).1.
Proof using.
  f_equal. apply same_fee_quote. intros id. unfold Lnv2Client.modules, mint_registry.
  destruct (decide (id = ln_id)) as [->|Hl]; [rewrite !lookup_insert_eq; by constructor|]. rewrite !lookup_insert_ne by done.
  destruct (decide (id = mint_id)) as [->|Hm]; [|rewrite !lookup_singleton_ne by done; constructor]. rewrite !lookup_singleton_eq. constructor.
  split_and!; [done|done|]. intros id' u i o d. cbn. unfold mbind, M_bind. destruct (create_final_inputs_and_outputs _ _ _ _ _ _ _ _ _ d) as [[r|e|] d']; done.
Qed.
End mint_wallet.

(** ** A wallet that pays and receives *)

Module Lnv2MintExample.
Import MintPrimaryExample.
(** A key pair is its public key, and the group is the integers under
    multiplication. *)
Definition ecdh (pk sk : Z) : Z := pk * sk.
Definition tweak (k t : Z) : option Z := Some (k * t).
Definition sha (x : Z) : Z := x + 1.
Definition incoming_hash (c : IncomingContract) : Z := Z.pos (encode c).
Definition outgoing_hash (c : OutgoingContract) : Z := Z.pos (encode c).
Definition commitment_hash (c : Commitment) : Z := Z.pos (encode c).
(** The ciphertext holds the preimage and the seed of its key. *)
Definition encrypt (agg_pk seed preimage h : Z) : Z := Z.pos (encode (preimage, seed)).
Definition opened (ct : Z) : Z * Z := default (0, 0) (countable.decode (A := Z * Z) (Z.to_pos ct)).
Definition derive (agg_pk seed : Z) : Z := agg_pk + seed.
Definition verify_dk (agg_pk key ct h : Z) : bool := key =? agg_pk + (opened ct).2.
Definition decrypt (ct key : Z) : Z := (opened ct).1.
Definition any_ciphertext (ct h : Z) : bool := true.
Definition dk_share (s ct : Z) : Z := s.
Definition expired (i : Bolt11Invoice) (time : Z) : bool := invoice_tail i <? time.
Definition attempt_id (i : Bolt11Invoice) (k : Z) : Z := payment_hash i * 100 + k.
Definition cheap : Fee.FeeConsensus := {| Fee.base := 1; Fee.parts_per_million := 0 |}.
Definition issue := NoteIssuanceRequest_new id MintIssuanceExample.blind_message MintMachinesExample.child_key MintMachinesExample.child_key.
Definition hash_parts (ins : list (Dyn (LightningInput + MintInput))) (outs : list (Dyn (LightningOutput + MintOutput))) (nonce : Z) : Z := nonce.
Definition small (tx : Transaction (LightningInput + MintInput) (LightningOutput + MintOutput)) : Z := 100.
Definition keypair : Z := 3.
Definition lnurl_keypair : Z := 5.
Definition agg_pk : Z := 11.
Definition registry := mint_registry id decode tbs_verify issue tbs_pks cheap 1.
Definition primary_modules := mint_primary 1.
Definition the_mint := dyn_mint id decode tbs_verify issue tbs_pks cheap.
Definition good := wallet_ok id decode tbs_verify tbs_pks.
Definition cfg : Lightning := {| Lnv2Server.fee_consensus := cheap; num_peers := 4; Lnv2Server.tpe_agg_pk := agg_pk; sk := 4 |}.

Abbreviation St := (MachineState MintInput MintOutput Z (MintMachines.MachineState Z)).
Definition other_module (s : MintMachines.MachineState Z) : Z := 1.
Definition other_operation (s : MintMachines.MachineState Z) : Z := 0.
Definition other_transitions (s : MintMachines.MachineState Z) : list (StateTransitionFunction St (ClientData (@MintClientDb Z)) (V (OV := unit))) := [].
Definition ids : gset Z := {[ 1; 2; TRANSACTION_SUBMISSION_MODULE_INSTANCE ]}.

Definition flat (base : Z) : PaymentFee := {| pf_base := base; pf_parts_per_million := 0 |}.
Definition routing : RoutingInfo := {| lightning_public_key := 8; module_public_key := 6; send_fee_minimum := flat 0; send_fee_default := flat 10;
  expiration_delta_minimum := 50; expiration_delta_default := 500; receive_fee := flat 4; receive_enabled := true |}.
Definition routing_info (n : nat) (url : Z) : option (option RoutingInfo) := if url =? 70 then Some (Some routing) else None.
Definition invoice : Bolt11Invoice := {| payment_hash := 77; amount_milli_satoshis := Some 500; payee_pub_key := 9; invoice_currency := 0; invoice_tail := 100 |}.

Definition client (w : @MintClientDb Z) : ClientData (@MintClientDb Z) :=
  {| Lnv2Client.wallet := w; transaction_fees := ∅; operation_log := ∅; event_log := []; gateway_map := ∅; contract_cursor := ∅ |}.
Definition db : @SmDb St (ClientData (@MintClientDb Z)) _ _ := {| active := ∅; inactive := ∅; events := []; data := client wallet |}.

Lemma cheap_wf : Fee.wf cheap.
Proof. split; simpl; lia. Qed.
#[local] Instance mint_wallet_balances op : Balances (Lnv2Client.modules cheap 2 registry op) BITCOIN good (the_mint op) 1.
Proof. by apply dyn_mint_balances; [apply cheap_wf|apply MintClientExample.tiers_ok|]. Qed.
Lemma mint_is_the_primary op : primary_module_for_unit (Lnv2Client.modules cheap 2 registry op) primary_modules BITCOIN = Some (Some (1, the_mint op)).
Proof. by apply dyn_mint_primary. Qed.

Definition pay := send (OV := unit) id Some ecdh expired id attempt_id cheap 0 keypair 2 registry primary_modules hash_parts sign_schnorr small
  other_module other_operation other_transitions ids ids false 0 routing_info None 20 invoice (Some 70) 0 13 (Some 1000) 9.

Lemma pay_runs : match pay db with (Ok _, _) => True | _ => False end.
Proof. by vm_compute. Qed.

Lemma routing_terms n url r : routing_info n url = Some (Some r) -> routing_wf r /\ payment_fee_wf (receive_fee r).
Proof.
  unfold routing_info. destruct (url =? 70); [|done]. intros [= <-]. unfold routing_wf, payment_fee_wf, is_u64, u64_max. simpl. lia.
Qed.

Lemma lnv2_send_starts_witness : exists op d', pay db = (Ok op, d') /\ pay d' = (Err (DuplicatePaymentAttempt op), d').
Proof.
  pose proof (lnv2_send_starts (OV := unit) id Some ecdh expired id attempt_id cheap 0 keypair 2 registry primary_modules hash_parts sign_schnorr small
    other_module other_operation other_transitions ids ids false 0 routing_info None cheap_wf good the_mint 1 mint_is_the_primary
    20 invoice (Some 70) 0 13 (Some 1000) 9 db received_wallet_ok
    ltac:(intros n url r Hr; by destruct (routing_terms n url r Hr)) ltac:(intros c [= <-]; unfold is_u64, u64_max; lia) ltac:(intros a [= <-]; lia)) as H.
  pose proof pay_runs as Hrun. unfold pay in *. destruct (send _ _ _ _ _ _ _ _ _ _ _ _ _ _ _ _ _ _ _ _ _ _ _ _ _ _ _ _ _ _ _ db) as [[op|e|] d']; [|done|done].
  exists op, d'. split; [reflexivity|]. apply (proj2 H). reflexivity.
Defined.

(** The gateway answers nothing, a wrong preimage, and then forfeits. *)
Definition contract : OutgoingContract := outgoing_contract invoice 500 routing 1000 (ecdh keypair 13) 13.
Definition funded_out : OutPoint := {| txid := 9; out_idx := 0 |}.
Definition sending : SendSMCommon Z := {| send_operation_id := 7700; send_outpoint := funded_out; send_contract := contract;
  gateway_api := Some 70; send_invoice := Some invoice; refund_keypair := ecdh keypair 13 |}.
Definition forfeit : Z := outgoing_hash contract + 6.
Definition guardian : LnDb := upd OutgoingContractKey <[funded_out := contract]> LnDb_empty.

Definition cancelled := transition_gateway_send_payment (OV := unit) cheap 2 registry primary_modules hash_parts sign_schnorr small
  (TvGateway (inr forfeit), 21) (LnMachine (SendMachine sending SendFunded)) (client wallet).
Lemma cancelled_runs : match cancelled with (Ok (LnMachine (SendMachine _ (SendRefunding _)), _), _) => True | _ => False end.
Proof. by vm_compute. Qed.

Lemma guardian_inv : ln_inv guardian.
Proof.
  destruct ln_inv_empty as [H1 H2 H3 H4]. split; simpl; try done. apply map_Forall_insert_2; [|done]. by vm_compute.
Qed.


Lemma incoming_hash_inj c c' : incoming_hash c = incoming_hash c' -> c = c'.
Proof. unfold incoming_hash. intros [= Hc]. by apply (inj encode). Qed.
Lemma ecdh_comm a b : ecdh (id a) b = ecdh (id b) a.
Proof. unfold ecdh, id. lia. Qed.
Lemma derived pk seed preimage h : verify_dk pk (derive pk seed) (encrypt pk seed preimage h) h = true /\ decrypt (encrypt pk seed preimage h) (derive pk seed) = preimage.
Proof. unfold verify_dk, decrypt, opened, encrypt, derive. cbn [Z.to_pos]. rewrite decode_encode. cbn. by rewrite Z.eqb_refl. Qed.

(** The gateway makes the invoice for the contract. *)
Definition fetch (url : Z) (c : IncomingContract) : option Bolt11Invoice :=
  Some {| payment_hash := match payment_image (commitment c) with Hash h => h | Point p => p end; amount_milli_satoshis := Some 900;
          payee_pub_key := 8; invoice_currency := 0; invoice_tail := 100 |}.
Definition ask := receive (OV := unit) id ecdh tweak tweak sha Some incoming_hash commitment_hash verify_dk decrypt encrypt derive cheap agg_pk keypair 2 registry primary_modules
  hash_parts sign_schnorr small other_module other_operation other_transitions ids ids false 0 routing_info None 900 3600 (Some 70) 0 17 50 fetch true.
Lemma ask_runs : match ask db with (Ok _, _) => True | _ => False end.
Proof. by vm_compute. Qed.


(** A contract for the published key is funded by a gateway. *)
Definition to_lnurl : IncomingContract :=
  default {| commitment := {| payment_image := Hash 0; commitment_amount := 0; expiration_or_fee := 0; claim_pk := 0; refund_pk := 0; ephemeral_pk := 0 |}; ciphertext := 0 |}
    (incoming_contract id ecdh tweak sha commitment_hash encrypt agg_pk lnurl_keypair 900 3600 routing 17 50).
Definition claim_key : Z := lnurl_keypair * ecdh lnurl_keypair 17.
Definition dec_key : Z := derive agg_pk (sha (ecdh lnurl_keypair 17)).
Definition funded_in : OutPoint := {| txid := 30; out_idx := 2 |}.
Definition after_funding : LnDb := incoming_funded cfg incoming_hash dk_share funded_in to_lnurl LnDb_empty.
Abbreviation guardian_applies := (ln_apply cfg sha Some verify_schnorr incoming_hash outgoing_hash commitment_hash any_ciphertext verify_dk decrypt dk_share).

Lemma funding : guardian_applies (Funded (OutputIncoming to_lnurl) funded_in) LnDb_empty after_funding.
Proof. exists 896. vm_compute. reflexivity. Qed.

Definition receiving : ReceiveSMCommon Z :=
  {| receive_operation_id := incoming_hash to_lnurl; receive_contract := to_lnurl; claim_keypair := claim_key; agg_decryption_key := dec_key |}.
Definition claimed := transition_incoming_contract (OV := unit) cheap 2 registry primary_modules hash_parts sign_schnorr small
  (TvContract (Some funded_in), 31) (LnMachine (ReceiveMachine receiving ReceivePending)) (client wallet).
Lemma claimed_runs : match claimed with (Ok (LnMachine (ReceiveMachine _ (ReceiveClaiming _)), _), _) => True | _ => False end.
Proof. by vm_compute. Qed.

Lemma lnv2_receive_resolves_witness : exists s added d', claimed = (Ok (s, added), d') /\
  honours id sha Some verify_schnorr outgoing_hash commitment_hash verify_dk decrypt cheap 2 registry cfg after_funding (incoming_hash to_lnurl)
    (InputIncoming funded_in dec_key) 896 claim_key.
Proof.
  pose proof (lnv2_receive_resolves (OV := unit) id ecdh tweak sha Some verify_schnorr incoming_hash outgoing_hash commitment_hash verify_dk decrypt derive cheap agg_pk 2 registry
    primary_modules hash_parts sign_schnorr small cheap_wf good the_mint 1 mint_is_the_primary cfg any_ciphertext dk_share eq_refl eq_refl
    ltac:(intros; apply dyn_mint_quotes) incoming_hash_inj lnurl_keypair receiving [Funded (OutputIncoming to_lnurl) funded_in] after_funding [] after_funding
    (Some funded_in) 31 (client wallet) ltac:(by vm_compute) ltac:(by vm_compute) received_wallet_ok ltac:(by intros m Hm)
    ltac:(by vm_compute) ltac:(constructor; [by vm_compute|constructor]) ltac:(apply NoDup_singleton)
    ltac:(eapply (ln_history_snoc _ _ _ _ _ _ _ _ _ _ _ _ []); [constructor|exact funding]) ltac:(constructor) ltac:(by vm_compute)) as H.
  pose proof claimed_runs as Hrun. unfold claimed in *.
  destruct (transition_incoming_contract _ _ _ _ _ _ _ _ _ _) as [[[s added]|e|] d']; [|done|done]. exists s, added, d'. split; [reflexivity|].
  destruct H as [(range & _ & _ & Hh & _)|(-> & _)]; [|done]. apply Hh. vm_compute. by eexists.
Defined.

(** The loop fetches the contract, starts its operation and moves on. *)
Definition handled := lnurl_contract (OV := unit) id ecdh tweak sha Some incoming_hash commitment_hash verify_dk decrypt derive cheap agg_pk lnurl_keypair 2 registry primary_modules
  hash_parts sign_schnorr small other_module other_operation other_transitions ids ids false 0 0 true to_lnurl db.
Definition moved_on := advance_cursor 1 handled.2.
Abbreviation lnurl_runs := (lnurl_run (OV := unit) id ecdh tweak sha Some verify_schnorr incoming_hash outgoing_hash commitment_hash verify_dk decrypt derive cheap agg_pk lnurl_keypair 2
  registry primary_modules hash_parts sign_schnorr small other_module other_operation other_transitions ids ids false 0 cfg any_ciphertext dk_share).
Definition labels : list lnurl_label := [GuardianStep (Funded (OutputIncoming to_lnurl) funded_in); Fetched; Handled to_lnurl true db; Advanced].

Lemma loop_runs : lnurl_runs (LnDb_empty, db, Idle) labels (after_funding, moved_on.2, Idle).
Proof.
  eapply run_snoc with (l := (take 3 labels)) (y := (after_funding, handled.2, Batch [] 1)).
  2: { apply step_advance. reflexivity. }
  eapply run_snoc with (l := (take 2 labels)) (y := (after_funding, db, Batch [to_lnurl] 1)).
  2: { eapply step_contract with (custom_meta := 0). fold handled.
       assert (Hok : handled.1 = Ok tt) by (vm_compute; reflexivity). rewrite <- Hok. by destruct handled. }
  eapply run_snoc with (l := (take 1 labels)) (y := (after_funding, db, Idle)).
  2: { apply step_fetch. by vm_compute. }
  eapply run_snoc with (l := []) (y := (LnDb_empty, db, Idle)); [constructor|].
  apply step_guardian, funding.
Qed.

Lemma lnurl_misses_none_witness : read_cursor moved_on.2 = 1 /\ exists i, incoming_index after_funding !! funded_in = Some i /\
  (i < read_cursor moved_on.2 -> settled id ecdh tweak sha Some incoming_hash commitment_hash verify_dk decrypt derive cheap agg_pk lnurl_keypair 2 registry primary_modules
     labels moved_on.2 to_lnurl).
Proof.
  destruct (lnurl_misses_none (OV := unit) id ecdh tweak sha Some verify_schnorr incoming_hash outgoing_hash commitment_hash verify_dk decrypt derive cheap agg_pk lnurl_keypair 2
    registry primary_modules hash_parts sign_schnorr small other_module other_operation other_transitions ids ids false 0 cfg any_ciphertext dk_share
    labels db after_funding moved_on.2 Idle loop_runs eq_refl ltac:(by vm_compute)) as [H _].
  split; [reflexivity|]. destruct (H funded_in to_lnurl) as (i & Hi & _ & Hs); [by vm_compute|]. exists i. split; [exact Hi|exact Hs].
Defined.
End Lnv2MintExample.
