(* ===== verification/Mintv2Server.v ===== *)
(** * The second generation of the mint module

    [modules/fedimint-mintv2-server/src/lib.rs] and its tables in
    [modules/fedimint-mintv2-server/src/db.rs], with the data types of
    [modules/fedimint-mintv2-common/src/lib.rs].  A note has a denomination,
    the exponent of its amount, and the balance sheet is a counter per
    denomination.  Nonces, keys, signatures and tweaks are opaque integers;
    signing, verification and hashing are parameters. *)

From S2P Require Import Prelude Db Amounts ServerModule ClientTx.

(** ** Data *)

(** [Denomination::amount]: the shift of a release build takes the exponent
    modulo the width. *)
Definition denomination_amount (denomination : Z) : Z := 2 ^ (denomination mod 64).

Record Note := { denomination : Z; note_nonce : Z; note_signature : Z }.

Inductive MintInput :=
| MintInputV0 (note : Note)
| MintInputDefault (variant : Z) (bytes : list Z).

Inductive MintOutput :=
| MintOutputV0 (denomination nonce tweak : Z)
| MintOutputDefault (variant : Z) (bytes : list Z).

(** [MintConsensusItem] has only its default variant. *)
Inductive MintConsensusItem := MintConsensusItemDefault (variant : Z) (bytes : list Z).

Inductive RecoveryItem :=
| RecoveryOutput (denomination nonce_hash tweak : Z)
| RecoveryInput (nonce_hash : Z).

(** [MintInputError] and [MintOutputError]. *)
Inductive MintError :=
| UnknownInputVariant (variant : Z)
| SpentCoin
| InvalidInputDenomination
| InvalidSignature
| UnknownOutputVariant (variant : Z)
| InvalidOutputDenomination
| NoConsensusItems.

(** [consensus_denominations] and [client_denominations]. *)
Definition consensus_denominations : list Z := seqZ 0 42.
Definition client_denominations : list Z := seqZ 9 33.

(** ** Database *)

Record MintDb := {
  nonces : gmap Z unit;
  signature_shares : gmap OutPoint Z;
  recovery_shares : gmap Z Z;
  issuance_counters : gmap Z Z;
  recovery_items : gmap Z RecoveryItem;
}.

Definition MintDb_empty : MintDb :=
  {| nonces := ∅; signature_shares := ∅; recovery_shares := ∅; issuance_counters := ∅; recovery_items := ∅ |}.

Definition NonceKey : table MintDb Z unit := Table nonces (fun f s =>
  {| nonces := f (nonces s); signature_shares := signature_shares s; recovery_shares := recovery_shares s;
     issuance_counters := issuance_counters s; recovery_items := recovery_items s |}).
Definition BlindedSignatureShareKey : table MintDb OutPoint Z := Table signature_shares (fun f s =>
  {| nonces := nonces s; signature_shares := f (signature_shares s); recovery_shares := recovery_shares s;
     issuance_counters := issuance_counters s; recovery_items := recovery_items s |}).
Definition BlindedSignatureShareRecoveryKey : table MintDb Z Z := Table recovery_shares (fun f s =>
  {| nonces := nonces s; signature_shares := signature_shares s; recovery_shares := f (recovery_shares s);
     issuance_counters := issuance_counters s; recovery_items := recovery_items s |}).
Definition IssuanceCounterKey : table MintDb Z Z := Table issuance_counters (fun f s =>
  {| nonces := nonces s; signature_shares := signature_shares s; recovery_shares := recovery_shares s;
     issuance_counters := f (issuance_counters s); recovery_items := recovery_items s |}).
Definition RecoveryItemKey : table MintDb Z RecoveryItem := Table recovery_items (fun f s =>
  {| nonces := nonces s; signature_shares := signature_shares s; recovery_shares := recovery_shares s;
     issuance_counters := issuance_counters s; recovery_items := f (recovery_items s) |}).

(** ** Configuration *)

Record MintConfig := {
  tbs_agg_pks : gmap Z Z;
  tbs_sks : gmap Z Z;
  fee_consensus : Fee.FeeConsensus;
  amount_unit : Z;
}.

(** ** Operations *)
Section mintv2.
Context (cfg : MintConfig).
(** [tbs::verify] on the message of a nonce, [tbs::sign_message], and the
    [consensus_hash] of a nonce and of a blinded message. *)
Context (tbs_verify : Z -> Z -> Z -> bool) (sign_message : Z -> Z -> Z).
Context (nonce_hash message_hash : Z -> Z).

Abbreviation MM := (M MintDb MintError).

Definition verify_note (n : Note) (pk : Z) : bool := tbs_verify (note_nonce n) (note_signature n) pk.

Definition get_recovery_count : MM Z := gets (fun s => next_index (recovery_items s)).
Definition get_recovery_slice (lo hi : Z) : MM (list RecoveryItem) :=
  gets (fun s => (range_scan lo hi (recovery_items s)).*2).

Definition mintv2_process_input (input : MintInput) (in_point : InPoint) : MM InputMeta :=
  match input with
  | MintInputDefault variant _ => throw (UnknownInputVariant variant)
  | MintInputV0 note =>
      pk ← ok_or (tbs_agg_pks cfg !! denomination note) InvalidInputDenomination;
      _ ← ensure (verify_note note pk) InvalidSignature;
      prev ← insert_entry NonceKey (note_nonce note) tt;
      match prev with
      | Some _ => throw SpentCoin
      | None =>
          count ← remove_entry IssuanceCounterKey (denomination note);
          new_count ← expect (checked_sub (default 0 count) 1);
          _ ← insert_new_entry IssuanceCounterKey (denomination note) new_count;
          next_index ← get_recovery_count;
          _ ← insert_new_entry RecoveryItemKey next_index (RecoveryInput (nonce_hash (note_nonce note)));
          let amount := denomination_amount (denomination note) in
          fee ← expect (Fee.fee (fee_consensus cfg) amount);
          mret {| ServerModule.amount := {| amounts := Amounts.new_custom (amount_unit cfg) amount;
                                            fees := Amounts.new_custom (amount_unit cfg) fee |};
                  pub_key := note_nonce note |}
      end
  end.

Definition mintv2_process_output (output : MintOutput) (outpoint : OutPoint) : MM TransactionItemAmounts :=
  match output with
  | MintOutputDefault variant _ => throw (UnknownOutputVariant variant)
  | MintOutputV0 denomination nonce tweak =>
      key ← ok_or (tbs_sks cfg !! denomination) InvalidOutputDenomination;
      let signature := sign_message nonce key in
      _ ← insert_entry BlindedSignatureShareKey outpoint signature;
      _ ← insert_entry BlindedSignatureShareRecoveryKey nonce signature;
      count ← remove_entry IssuanceCounterKey denomination;
      new_count ← expect (checked_add (default 0 count) 1);
      _ ← insert_new_entry IssuanceCounterKey denomination new_count;
      next_index ← get_recovery_count;
      _ ← insert_new_entry RecoveryItemKey next_index (RecoveryOutput denomination (message_hash nonce) tweak);
      let amount := denomination_amount denomination in
      fee ← expect (Fee.fee (fee_consensus cfg) amount);
      mret {| amounts := Amounts.new_custom (amount_unit cfg) amount; fees := Amounts.new_custom (amount_unit cfg) fee |}
  end.

Definition mintv2_process_consensus_item (c : MintConsensusItem) (peer : Z) : MM unit := throw NoConsensusItems.

(** [-((k.0.amount().msats * v) as i64)]. *)
Definition audit_milli_sat (denomination count : Z) : Z := liability (wrap_u64 (denomination_amount denomination * count)).

Definition mintv2_audit : MM (list Z) :=
  items ← find_all IssuanceCounterKey; mret ((fun kv => audit_milli_sat kv.1 kv.2) <$> items).

(** Inputs are verified when they are processed; the rest are the defaults of
    the interface. *)
Definition mintv2_module : ServerModule MintDb MintInput MintOutput MintConsensusItem MintError := {|
  verify_input := fun _ => Ok tt;
  verify_input_submission := fun _ => mret tt;
  process_input := mintv2_process_input;
  verify_output_submission := fun _ _ => mret tt;
  process_output := mintv2_process_output;
  process_consensus_item := mintv2_process_consensus_item;
  audit := mintv2_audit;
|}.

(** *** Endpoints *)

(** The shares of one transaction by the index of their output; the keys of a
    range share the transaction. *)
Definition shares_of (t : Z) (m : gmap OutPoint Z) : gmap Z Z :=
  list_to_map (omap (fun kv => if txid kv.1 =? t then Some (out_idx kv.1, kv.2) else None) (map_to_list m)).
Definition get_signature_shares (range : OutPointRange) : MM (list Z) :=
  gets (fun s => (range_scan (range_start (idx_range range)) (range_end (idx_range range)) (shares_of (range_txid range) (signature_shares s))).*2).

(** [None] is the error of a message without a share. *)
Definition get_signature_shares_recovery (messages : list Z) (d : MintDb) : option (list Z) :=
  mapM (fun message => recovery_shares d !! message) messages.

(** [note_distribution_ui]. *)
Definition note_distribution (d : MintDb) : gmap Z Z := filter (fun kv => 0 < kv.2) (issuance_counters d).

(** ** Invariant

    The recovery items are numbered without gaps, and the counters are [u64]s. *)
Record mintv2_inv (d : MintDb) : Prop := {
  recovery_log : exists n, log_of_length (recovery_items d) n;
  counters_u64 : map_Forall (fun _ c => is_u64 c) (issuance_counters d);
}.

Lemma mintv2_inv_empty : mintv2_inv MintDb_empty.
Proof. split; [exists 0%nat; apply log_of_length_empty|apply map_Forall_empty]. Qed.

(** How many notes of a denomination are outstanding. *)
Definition outstanding (d : MintDb) (k : Z) : Z := default 0 (issuance_counters d !! k).

Lemma outstanding_u64 d k : mintv2_inv d -> is_u64 (outstanding d k).
Proof.
  intros Hd. unfold outstanding. destruct (issuance_counters d !! k) as [c|] eqn:Hc; [by apply (counters_u64 d Hd k)|]. unfold is_u64, u64_max. simpl. lia.
Qed.

Lemma denomination_amount_u64 k : is_u64 (denomination_amount k).
Proof.
  unfold denomination_amount, is_u64, u64_max. pose proof (Z.mod_pos_bound k 64 ltac:(lia)).
  pose proof (Z.pow_le_mono_r 2 (k mod 64) 63 ltac:(lia) ltac:(lia)). pose proof (Z.pow_pos_nonneg 2 (k mod 64)). lia.
Qed.

(** The database after a note is spent, and after one is issued. *)
Definition spend (note : Note) (d : MintDb) : MintDb :=
  {| nonces := <[note_nonce note := tt]> (nonces d);
     signature_shares := signature_shares d;
     recovery_shares := recovery_shares d;
     issuance_counters := <[denomination note := outstanding d (denomination note) - 1]> (issuance_counters d);
     recovery_items := <[next_index (recovery_items d) := RecoveryInput (nonce_hash (note_nonce note))]> (recovery_items d) |}.

Definition issue (k nonce tweak key : Z) (o : OutPoint) (d : MintDb) : MintDb :=
  {| nonces := nonces d;
     signature_shares := <[o := sign_message nonce key]> (signature_shares d);
     recovery_shares := <[nonce := sign_message nonce key]> (recovery_shares d);
     issuance_counters := <[k := outstanding d k + 1]> (issuance_counters d);
     recovery_items := <[next_index (recovery_items d) := RecoveryOutput k (message_hash nonce) tweak]> (recovery_items d) |}.

Definition item_of (amount fee : Z) : TransactionItemAmounts :=
  {| amounts := Amounts.new_custom (amount_unit cfg) amount; fees := Amounts.new_custom (amount_unit cfg) fee |}.

Lemma v2_spend_inv note d : 0 < outstanding d (denomination note) -> mintv2_inv d -> mintv2_inv (spend note d).
Proof using.
  intros Hpos Hd. pose proof (outstanding_u64 d (denomination note) Hd) as Hu. destruct Hd as [[n Hl] Hc]. split; simpl.
  - exists (S n). by apply log_of_length_push.
  - apply map_Forall_insert_2; [unfold is_u64 in *; lia|done].
Qed.

Lemma v2_issue_inv k nonce tweak key o d : outstanding d k < u64_max -> mintv2_inv d -> mintv2_inv (issue k nonce tweak key o d).
Proof using.
  intros Hlt Hd. pose proof (outstanding_u64 d k Hd) as Hu. destruct Hd as [[n Hl] Hc]. split; simpl.
  - exists (S n). by apply log_of_length_push.
  - apply map_Forall_insert_2; [unfold is_u64 in *; lia|done].
Qed.

Lemma mintv2_process_input_Ok input p d meta d' :
  mintv2_process_input input p d = (Ok meta, d') ->
  exists note pk fee, input = MintInputV0 note /\ tbs_agg_pks cfg !! denomination note = Some pk /\ verify_note note pk = true /\
    nonces d !! note_nonce note = None /\ 0 < outstanding d (denomination note) /\
    Fee.fee (fee_consensus cfg) (denomination_amount (denomination note)) = Some fee /\ d' = spend note d /\
    meta = {| ServerModule.amount := item_of (denomination_amount (denomination note)) fee; pub_key := note_nonce note |}.
Proof using.
  destruct input as [note|]; simpl; [|by intros H; mrun].
  intros H. apply bind_Ok in H as (pk & d1 & [Hpk ->]%ok_or_Ok & H). apply bind_Ok in H as ([] & d1 & [Hv ->]%ensure_Ok & H).
  apply bind_Ok in H as (prev & d1 & [-> ->]%insert_entry_Ok & H). simpl in H.
  destruct (nonces d !! note_nonce note) eqn:Hn; [by mrun|]. unfold get_recovery_count in H. dbrun.
  match goal with H : checked_sub _ _ = Some _ |- _ => apply checked_sub_Some in H as [-> ?] end.
  eexists _, _, _. split_and!; [done..|unfold outstanding; lia|done| |done]. unfold spend, upd. simpl. by rewrite insert_delete_eq.
Qed.

Lemma mintv2_process_output_Ok output o d a d' :
  mintv2_process_output output o d = (Ok a, d') ->
  exists k nonce tweak key fee, output = MintOutputV0 k nonce tweak /\ tbs_sks cfg !! k = Some key /\ outstanding d k < u64_max /\
    Fee.fee (fee_consensus cfg) (denomination_amount k) = Some fee /\ d' = issue k nonce tweak key o d /\ a = item_of (denomination_amount k) fee.
Proof using.
  destruct output as [k nonce tweak|]; simpl; [|by intros H; mrun]. intros H. unfold get_recovery_count in H. dbrun.
  match goal with H : checked_add _ _ = Some _ |- _ => apply checked_add_Some in H as [-> ?] end.
  eexists _, _, _, _, _. split_and!; [done..|unfold outstanding; lia|done| |done]. unfold issue, upd. simpl. by rewrite insert_delete_eq.
Qed.

(** ** The promise to the engine *)

Definition liabilities (d : MintDb) : Z := sum_map (fun k c => denomination_amount k * c) (issuance_counters d).

Lemma spend_liabilities note d : liabilities (spend note d) = liabilities d - denomination_amount (denomination note).
Proof using.
  unfold liabilities, spend, outstanding. simpl. rewrite sum_map_set. destruct (issuance_counters d !! denomination note); simpl; lia.
Qed.
Lemma issue_liabilities k nonce tweak key o d : liabilities (issue k nonce tweak key o d) = liabilities d + denomination_amount k.
Proof using.
  unfold liabilities, issue, outstanding. simpl. rewrite sum_map_set. destruct (issuance_counters d !! k); simpl; lia.
Qed.

Lemma liabilities_nonneg d : mintv2_inv d -> 0 <= liabilities d.
Proof.
  intros Hd. apply sum_map_nonneg. intros k c Hc. pose proof (counters_u64 d Hd k c Hc). pose proof (denomination_amount_u64 k). unfold is_u64 in *. nia.
Qed.

Lemma mintv2_audit_run d : mintv2_inv d -> liabilities d <= i64_max ->
  exists items, mintv2_audit d = (Ok items, d) /\ sum_list items = - liabilities d /\ sum_abs items = liabilities d.
Proof using.
  intros Hd Hmax. eexists. split; [reflexivity|].
  assert (Hl : forall kv, kv ∈ map_to_list (issuance_counters d) -> audit_milli_sat kv.1 kv.2 = - (denomination_amount kv.1 * kv.2) /\ 0 <= denomination_amount kv.1 * kv.2).
  { intros [k c] Hc%elem_of_map_to_list. pose proof (counters_u64 d Hd k c Hc) as Hu. pose proof (denomination_amount_u64 k) as Ha. unfold is_u64 in *. simpl.
    assert (Hle : denomination_amount k * c <= liabilities d).
    { apply (sum_map_entry_le (fun k c => denomination_amount k * c) (issuance_counters d) k c); [|done].
      intros k' c' Hc'. pose proof (counters_u64 d Hd k' c' Hc') as Hu'. pose proof (denomination_amount_u64 k') as Ha'. unfold is_u64 in *. nia. }
    split; [|nia]. unfold audit_milli_sat. rewrite wrap_u64_small by (unfold is_u64, u64_max, i64_max in *; nia). apply liability_exact. nia. }
  unfold liabilities, sum_map in *. change (find_all IssuanceCounterKey) with (find_all (E := MintError) IssuanceCounterKey).
  clear Hmax Hd. simpl. induction (map_to_list (issuance_counters d)) as [|kv l IH]; [done|].
  destruct IH as [IH1 IH2]; [intros; apply Hl; by right|]. destruct (Hl kv ltac:(by left)) as [Hkv Hpos].
  rewrite !fmap_cons, !sum_list_cons. unfold sum_abs in *. simpl in *. destruct kv. simpl in *. lia.
Qed.

#[export] Program Instance mintv2_audited (Hfee : Fee.wf (fee_consensus cfg)) (Hunit : amount_unit cfg = BITCOIN) : Audited mintv2_module := {|
  ServerModule.inv := mintv2_inv;
  ServerModule.input_ok := fun _ => True;
  ServerModule.output_ok := fun _ => True;
  item_ok := fun _ => True;
  net := fun d => - liabilities d;
  gross := liabilities;
|}.
Next Obligation. intros _ _ d. apply liabilities_nonneg. Qed.
Next Obligation.
  intros Hfee Hunit i p d meta d' Hd _ H.
  apply mintv2_process_input_Ok in H as (note & pk & fee & -> & _ & _ & _ & Hpos & Hf & -> & ->). unfold item_of. simpl. rewrite Hunit. change (Amounts.new_custom BITCOIN) with Amounts.new_bitcoin.
  split; [by apply v2_spend_inv|]. split; [apply bitcoin_item_wf; [apply denomination_amount_u64|eapply Fee.fee_u64; [done|apply denomination_amount_u64|done]]|].
  rewrite spend_liabilities, Amounts.get_new_bitcoin, decide_True by done. lia.
Qed.
Next Obligation.
  intros Hfee Hunit o p d a d' Hd _ H.
  apply mintv2_process_output_Ok in H as (k & nonce & tweak & key & fee & -> & Hk & Hlt & Hf & -> & ->). unfold item_of. simpl. rewrite Hunit. change (Amounts.new_custom BITCOIN) with Amounts.new_bitcoin.
  split; [by apply v2_issue_inv|]. split; [apply bitcoin_item_wf; [apply denomination_amount_u64|eapply Fee.fee_u64; [done|apply denomination_amount_u64|done]]|].
  rewrite issue_liabilities, Amounts.get_new_bitcoin, decide_True by done. lia.
Qed.
Next Obligation. intros _ _ c peer d d' _ _ H. by apply throw_Ok in H. Qed.
Next Obligation.
  intros _ _ d Hd Hg. destruct (mintv2_audit_run d Hd Hg) as (items & Hrun & Hs & Ha). exists items, d. split_and!; [done..|lia|done|done].
Qed.

(** ** Histories

    The committed operations, in their order. *)
Inductive mintv2_event :=
| Redeemed (input : MintInput) (p : InPoint)
| Issued (output : MintOutput) (p : OutPoint).

Inductive mintv2_history (d : MintDb) : list mintv2_event -> MintDb -> Prop :=
| history_nil : mintv2_history d [] d
| history_redeem evs d1 i p meta d2 :
    mintv2_history d evs d1 -> mintv2_process_input i p d1 = (Ok meta, d2) -> mintv2_history d (evs ++ [Redeemed i p]) d2
| history_issue evs d1 o p a d2 :
    mintv2_history d evs d1 -> mintv2_process_output o p d1 = (Ok a, d2) -> mintv2_history d (evs ++ [Issued o p]) d2.

Definition redeemed_note (e : mintv2_event) : option Note :=
  match e with Redeemed (MintInputV0 note) _ => Some note | _ => None end.
Definition issued_denomination (e : mintv2_event) : option Z :=
  match e with Issued (MintOutputV0 k _ _) _ => Some k | _ => None end.
Definition redeemed (evs : list mintv2_event) : list Note := omap redeemed_note evs.
Definition issued (evs : list mintv2_event) : list Z := omap issued_denomination evs.
(** How often a denomination occurs. *)
Definition occurrences (k : Z) (l : list Z) : Z := Z.of_nat (length (filter (fun x => x = k) l)).

Lemma occurrences_app k l l' : occurrences k (l ++ l') = occurrences k l + occurrences k l'.
Proof using. unfold occurrences. rewrite filter_app, length_app. lia. Qed.
Lemma occurrences_one k x : occurrences k [x] = if decide (x = k) then 1 else 0.
Proof using. unfold occurrences. rewrite filter_cons. by case_decide. Qed.

Lemma outstanding_spend note d k : outstanding (spend note d) k = outstanding d k - if decide (denomination note = k) then 1 else 0.
Proof using.
  unfold outstanding at 1, spend. simpl. case_decide as Hk; [subst; rewrite lookup_insert_eq; simpl; lia|].
  rewrite lookup_insert_ne by done. unfold outstanding. lia.
Qed.
Lemma outstanding_issue x nonce tweak key o d k : outstanding (issue x nonce tweak key o d) k = outstanding d k + if decide (x = k) then 1 else 0.
Proof using.
  unfold outstanding at 1, issue. simpl. case_decide as Hk; [subst; rewrite lookup_insert_eq; simpl; lia|].
  rewrite lookup_insert_ne by done. unfold outstanding. lia.
Qed.

Lemma history_counts d evs d' : mintv2_history d evs d' -> mintv2_inv d ->
  mintv2_inv d' /\
  (forall k, outstanding d' k = outstanding d k + occurrences k (issued evs) - occurrences k (denomination <$> redeemed evs)) /\
  liabilities d' = liabilities d + sum_list (denomination_amount <$> issued evs) - sum_list ((fun x => denomination_amount (denomination x)) <$> redeemed evs).
Proof using.
  intros H Hd. unfold issued, redeemed. induction H as [|evs d1 i p meta d2 _ (IHi & IHk & IHl) H|evs d1 o p a d2 _ (IHi & IHk & IHl) H].
  - split_and!; [done| |]; [intros k; unfold occurrences|]; simpl; lia.
  - apply mintv2_process_input_Ok in H as (note & pk & fee & -> & _ & _ & _ & Hpos & _ & -> & _).
    split; [by apply v2_spend_inv|]. rewrite !omap_app, !fmap_app, !sum_list_app. simpl. split.
    + intros k. rewrite outstanding_spend, IHk, app_nil_r, occurrences_app, occurrences_one. lia.
    + rewrite spend_liabilities. lia.
  - apply mintv2_process_output_Ok in H as (x & nonce & tweak & key & fee & -> & _ & Hlt & _ & -> & _).
    split; [by apply v2_issue_inv|]. rewrite !omap_app, !fmap_app, !sum_list_app. simpl. split.
    + intros k. rewrite outstanding_issue, IHk, app_nil_r, occurrences_app, occurrences_one. lia.
    + rewrite issue_liabilities. lia.
Qed.

Lemma v2_history_spent d evs d' : mintv2_history d evs d' ->
  NoDup (note_nonce <$> redeemed evs) /\ (forall n, n ∈ note_nonce <$> redeemed evs -> nonces d !! n = None) /\
  (forall n, is_Some (nonces d' !! n) <-> n ∈ note_nonce <$> redeemed evs \/ is_Some (nonces d !! n)).
Proof using.
  unfold redeemed. induction 1 as [|evs d1 i p meta d2 _ (IHn & IHf & IHs) H|evs d1 o p a d2 _ (IHn & IHf & IHs) H]; rewrite ?omap_app, ?fmap_app; simpl.
  - split; [constructor|]. split; intros n; [by intros Hn%not_elem_of_nil|]. set_solver.
  - apply mintv2_process_input_Ok in H as (note & pk & fee & -> & _ & _ & Hn & _ & _ & -> & _). simpl.
    assert ((note_nonce note ∉ note_nonce <$> omap redeemed_note evs) /\ nonces d !! note_nonce note = None) as [Hni Hnd].
    { rewrite eq_None_not_Some. rewrite eq_None_not_Some, IHs in Hn. tauto. }
    split; [apply NoDup_app; split; [done|split; [set_solver|apply NoDup_singleton]]|]. split; [set_solver|].
    intros n. destruct (decide (n = note_nonce note)) as [->|Hne].
    + rewrite lookup_insert_eq. set_solver.
    + rewrite lookup_insert_ne, IHs by done. set_solver.
  - apply mintv2_process_output_Ok in H as (x & nonce & tweak & key & fee & -> & _ & _ & _ & -> & _). rewrite app_nil_r. done.
Qed.

(** Redeeming a note, on every branch. *)
Lemma mintv2_process_input_cases note p d : Fee.wf (fee_consensus cfg) -> mintv2_inv d ->
  match tbs_agg_pks cfg !! denomination note with
  | None => mintv2_process_input (MintInputV0 note) p d = (Err InvalidInputDenomination, d)
  | Some pk =>
      if negb (verify_note note pk) then mintv2_process_input (MintInputV0 note) p d = (Err InvalidSignature, d)
      else if decide (is_Some (nonces d !! note_nonce note)) then (mintv2_process_input (MintInputV0 note) p d).1 = Err SpentCoin
      else if outstanding d (denomination note) =? 0 then (mintv2_process_input (MintInputV0 note) p d).1 = Panic
      else exists fee, mintv2_process_input (MintInputV0 note) p d =
        (Ok {| ServerModule.amount := item_of (denomination_amount (denomination note)) fee; pub_key := note_nonce note |}, spend note d)
  end.
Proof using.
  intros Hfee Hd. unfold mintv2_process_input. destruct (tbs_agg_pks cfg !! denomination note) as [pk|]; [|done].
  rewrite (run_bind _ _ d pk d) by done. destruct (verify_note note pk); cbn [negb]; [|done]. rewrite (run_bind _ _ d tt d) by done.
  unfold mbind, M_bind, insert_entry, remove_entry. simpl.
  destruct (nonces d !! note_nonce note) as [[]|] eqn:Hn; [rewrite decide_True by eauto; done|]. rewrite decide_False by (by intros []). simpl.
  pose proof (outstanding_u64 d (denomination note) Hd) as Hu. unfold outstanding in *. set (c := default 0 _) in *.
  destruct (Z.eqb_spec c 0) as [Hc|Hc]; [by rewrite Hc|].
  assert (checked_sub c 1 = Some (c - 1)) as -> by (apply checked_sub_Some; unfold is_u64 in *; lia). unfold expect. simpl.
  unfold insert_new_entry, insert_entry, get_recovery_count, gets, mbind, M_bind. simpl. rewrite lookup_delete_eq. simpl. rewrite next_index_fresh. simpl.
  destruct (Fee.fee_total (fee_consensus cfg) (denomination_amount (denomination note)) Hfee (denomination_amount_u64 _)) as (fee & -> & _).
  exists fee. unfold spend, upd, outstanding. simpl. rewrite insert_delete_eq. fold c. done.
Qed.

(** C11: the books of the second mint are exact.  In every history of committed
    operations no note is redeemed twice, nor one that was spent before; for
    every denomination the counter is what it was plus the notes issued less
    the notes redeemed, and the liabilities of the module change by exactly
    the issued and redeemed amounts.  Redeeming a note panics only when its
    signature verifies although all notes of its denomination that were ever
    issued have been redeemed. *)
Theorem mintv2_books d evs d' : mintv2_history d evs d' -> mintv2_inv d -> Fee.wf (fee_consensus cfg) ->
  (NoDup (note_nonce <$> redeemed evs) /\ (forall n, n ∈ note_nonce <$> redeemed evs -> nonces d !! n = None)) /\
  (forall k, outstanding d' k = outstanding d k + occurrences k (issued evs) - occurrences k (denomination <$> redeemed evs)) /\
  liabilities d' = liabilities d + sum_list (denomination_amount <$> issued evs) - sum_list ((fun x => denomination_amount (denomination x)) <$> redeemed evs) /\
  forall note p, (mintv2_process_input (MintInputV0 note) p d').1 = Panic ->
    (exists pk, tbs_agg_pks cfg !! denomination note = Some pk /\ verify_note note pk = true) /\ nonces d' !! note_nonce note = None /\
    occurrences (denomination note) (denomination <$> redeemed evs) = outstanding d (denomination note) + occurrences (denomination note) (issued evs).
Proof using.
  intros H Hd Hfee. destruct (history_counts d evs d' H Hd) as (Hd' & Hk & Hl). destruct (v2_history_spent d evs d' H) as (Hn & Hf & _).
  split_and!; [done..|]. intros note p Hp. pose proof (mintv2_process_input_cases note p d' Hfee Hd') as Hc.
  set (r := mintv2_process_input _ _ _) in *. destruct (tbs_agg_pks cfg !! denomination note) as [pk|]; [|by rewrite Hc in Hp].
  destruct (verify_note note pk) eqn:Hv; simpl in Hc; [|by rewrite Hc in Hp].
  case_decide as Hs; [by rewrite Hc in Hp|]. destruct (Z.eqb_spec (outstanding d' (denomination note)) 0) as [Hz|]; [|destruct Hc as [fee Hc]; by rewrite Hc in Hp].
  split; [by exists pk|]. split; [by apply eq_None_not_Some|]. rewrite Hk in Hz. lia.
Qed.

(** *** The shares that are served *)

Definition issued_at (e : mintv2_event) : option (OutPoint * (Z * Z)) :=
  match e with Issued (MintOutputV0 k nonce _) p => Some (p, (k, nonce)) | _ => None end.

(** Every output was processed once: its share is stored under its out point. *)
Lemma v2_history_shares d evs d' p k nonce :
  mintv2_history d evs d' -> NoDup (omap issued_at evs).*1 -> (p, (k, nonce)) ∈ omap issued_at evs ->
  exists key, tbs_sks cfg !! k = Some key /\ signature_shares d' !! p = Some (sign_message nonce key) /\ is_Some (recovery_shares d' !! nonce).
Proof using.
  induction 1 as [|evs d1 i q meta d2 _ IH H|evs d1 o q a d2 _ IH H]; rewrite ?omap_app, ?fmap_app; simpl.
  - by intros _ ?%not_elem_of_nil.
  - rewrite !app_nil_r. intros Hnd Hin. apply mintv2_process_input_Ok in H as (note & pk & fee & -> & _ & _ & _ & _ & _ & -> & _). by apply IH.
  - apply mintv2_process_output_Ok in H as (x & m & tweak & key & fee & -> & Hk & _ & _ & -> & _). simpl.
    intros (Hnd & Hdis & _)%NoDup_app [Hin|Hin]%elem_of_app.
    + destruct (IH Hnd Hin) as (key' & Hk' & Hs & Hr). exists key'. split; [done|]. split.
      * rewrite lookup_insert_ne; [done|]. intros <-. apply (Hdis q); [|by left]. apply list_elem_of_fmap. by exists (q, (k, nonce)).
      * destruct (decide (m = nonce)) as [->|]; [rewrite lookup_insert_eq; by eexists|by rewrite lookup_insert_ne].
    + apply list_elem_of_singleton in Hin. injection Hin as -> -> ->. exists key. split; [done|]. rewrite !lookup_insert_eq. by eauto.
Qed.

Lemma v2_shares_of_lookup t m i s : shares_of t m !! i = Some s <-> m !! {| txid := t; out_idx := i |} = Some s.
Proof using.
  unfold shares_of. rewrite <- elem_of_list_to_map.
  - rewrite list_elem_of_omap. split.
    + intros ([p s'] & Hin%elem_of_map_to_list & Heq). simpl in *. destruct (Z.eqb_spec (txid p) t); [|done]. destruct p. by simplify_eq/=.
    + intros Hm. exists ({| txid := t; out_idx := i |}, s). split; [by apply elem_of_map_to_list|]. simpl. by rewrite Z.eqb_refl.
  - pose proof (NoDup_fst_map_to_list m) as Hnd. induction (map_to_list m) as [|[p s'] l IH]; [constructor|]. simpl in *.
    apply NoDup_cons in Hnd as [Hp Hnd]. destruct (Z.eqb_spec (txid p) t) as [Ht|]; [|by apply IH]. simpl. constructor; [|by apply IH].
    intros ([i' s1] & Hi' & ([p' s2] & Hin & Heq)%list_elem_of_omap)%list_elem_of_fmap. simpl in *. destruct (Z.eqb_spec (txid p') t); [|done].
    apply Hp, list_elem_of_fmap. exists (p', s2). split; [|done]. simpl. destruct p, p'. by simplify_eq/=.
Qed.

(** The signature shares of a transaction are served.  When every output was
    processed once, the outputs of a transaction in the range are answered with
    the guardian's share for each, in their order, whatever was committed
    before, between and after them. *)
Theorem mintv2_shares_served d evs d' t lo (outs : list (Z * Z)) :
  mintv2_history d evs d' -> NoDup (omap issued_at evs).*1 ->
  (forall (j : nat) x, outs !! j = Some x -> ({| txid := t; out_idx := lo + Z.of_nat j |}, x) ∈ omap issued_at evs) ->
  exists shares,
    get_signature_shares {| range_txid := t; idx_range := {| range_start := lo; range_end := lo + Z.of_nat (length outs) |} |} d' = (Ok shares, d') /\
    Forall2 (fun x share => exists key, tbs_sks cfg !! x.1 = Some key /\ share = sign_message x.2 key) outs shares.
Proof using.
  intros H Hnd Hin. eexists. split; [reflexivity|]. cbn [range_txid idx_range range_start range_end].
  rewrite range_scan_spec. replace (lo + Z.of_nat (length outs) - lo) with (Z.of_nat (length outs)) by lia.
  assert (Hs : forall (j : nat) x, outs !! j = Some x -> exists key, tbs_sks cfg !! x.1 = Some key /\
    shares_of t (signature_shares d') !! (lo + Z.of_nat j) = Some (sign_message x.2 key)).
  { intros j [k nonce] Hj. destruct (v2_history_shares d evs d' _ k nonce H Hnd (Hin j _ Hj)) as (key & Hk & Hs & _). exists key. split; [done|]. by apply v2_shares_of_lookup. }
  clear Hin. generalize (shares_of t (signature_shares d')) as m, Hs. clear. intros m Hs. revert lo Hs. induction outs as [|x outs IH]; intros lo Hs; [constructor|].
  cbn [length]. rewrite (seqZ_cons lo (Z.of_nat (S (length outs)))) by lia. replace (Z.pred (Z.of_nat (S (length outs)))) with (Z.of_nat (length outs)) by lia.
  rewrite omap_entry_cons. destruct (Hs 0%nat x eq_refl) as (key & Hk & Hx). rewrite Z.add_0_r in Hx. unfold entry_at at 1. rewrite Hx. simpl. constructor; [by exists key|].
  apply IH. intros j y Hj. destruct (Hs (S j) y Hj) as (key' & Hk' & Hy). exists key'. split; [done|]. by replace (Z.succ lo + Z.of_nat j) with (lo + Z.of_nat (S j)) by lia.
Qed.
End mintv2.

(** ** A note that is issued and redeemed *)

Module Mintv2Example.
Definition cfg : MintConfig :=
  {| tbs_agg_pks := {[ 10 := 11 ]}; tbs_sks := {[ 10 := 7 ]}; fee_consensus := {| Fee.base := 100; Fee.parts_per_million := 0 |}; amount_unit := BITCOIN |}.
Definition verify (n sig pk : Z) : bool := sig =? n + pk.
Definition h (x : Z) : Z := x.
Definition note (n : Z) : Note := {| denomination := 10; note_nonce := n; note_signature := n + 11 |}.
Definition pt : InPoint := {| in_txid := 1; in_idx := 0 |}.
Definition op : OutPoint := {| txid := 1; out_idx := 0 |}.
Definition d1 : MintDb := issue Z.add h 10 50 3 7 op MintDb_empty.
Definition d2 : MintDb := spend h (note 5) d1.

Lemma history1 : mintv2_history cfg verify Z.add h h MintDb_empty [Issued (MintOutputV0 10 50 3) op] d1.
Proof. eapply (history_issue cfg verify Z.add h h _ []); [constructor|]. vm_compute. reflexivity. Qed.
Lemma history2 : mintv2_history cfg verify Z.add h h MintDb_empty [Issued (MintOutputV0 10 50 3) op; Redeemed (MintInputV0 (note 5)) pt] d2.
Proof. eapply (history_redeem cfg verify Z.add h h _ [Issued (MintOutputV0 10 50 3) op]); [apply history1|]. vm_compute. reflexivity. Qed.

Lemma mintv2_books_witness : outstanding d2 10 = 0 /\ liabilities d2 = 0 /\
  ((mintv2_process_input cfg verify h (MintInputV0 (note 6)) pt d2).1 = Panic /\ nonces d2 !! 6 = None).
Proof.
  destruct (mintv2_books cfg verify Z.add h h MintDb_empty _ d2 history2 mintv2_inv_empty ltac:(split; simpl; lia)) as (_ & Hk & Hl & Hp).
  split; [rewrite Hk; reflexivity|]. split; [rewrite Hl; reflexivity|].
  assert (H : (mintv2_process_input cfg verify h (MintInputV0 (note 6)) pt d2).1 = Panic) by (vm_compute; reflexivity).
  split; [exact H|]. apply (Hp (note 6) pt H).
Defined.

Lemma mintv2_shares_served_witness : exists shares,
  get_signature_shares {| range_txid := 1; idx_range := {| range_start := 0; range_end := 1 |} |} d2 = (Ok shares, d2) /\ length shares = 1%nat.
Proof.
  destruct (mintv2_shares_served cfg verify Z.add h h MintDb_empty _ d2 1 0 [(10, 50)] history2) as (shares & Hs & Hf).
  - apply NoDup_singleton.
  - intros [|j] x Hx; [|done]. injection Hx as <-. left.
  - exists shares. split; [exact Hs|]. symmetry. exact (Forall2_length _ _ _ Hf).
Defined.
End Mintv2Example.
